(* ===== verification/_CoqProject ===== *)
-Q . S2P
Prelude.v
Decimal.v
SimModel.v
SimPolicy.v
SimOracle.v
SimEngine.v
SimTrace.v
SimTraceOk.v
SimTinyLfu.v
SimPolicyFacts.v
SimEngineFacts.v
SimRun.v
SimDemand.v
Paging.v
SimBelady.v
SimOnline.v
SimExact.v
SimContract.v
SimGenerator.v
SimGeneratorFacts.v
SimGeneratorRun.v
SimGeneratorTrace.v
SimGeneratorContract.v
Format.v
FormatJsonFacts.v
FormatManifest.v
FormatDigest.v
FormatSchema.v
FormatExact.v
FormatArtifact.v
FormatVerify.v
FormatContract.v
Store.v
StoreFacts.v
StoreOs.v
StoreFs.v
StoreFsFacts.v
StorePages.v
StorePagesFacts.v
StoreRead.v
StoreDemo.v
StoreReadContract.v
StoreStage.v
StoreStageFacts.v
StoreWrite.v
StoreLayout.v
StoreCas.v
StoreImport.v
StoreDisk.v
StoreDiskLogic.v
StoreDiskFacts.v
StoreDiskInv.v
StoreCasFacts.v
StoreCasPublish.v
StoreImportFacts.v
StoreImportCommit.v
StoreGcPlan.v
StoreGcFacts.v
StoreCasDemo.v
StoreCasContract.v
StoreCache.v
StoreCacheLogic.v
StoreCacheInv.v
StoreCacheOps.v
StoreCacheLoad.v
StoreContract.v
KernelFloat.v
Kernel.v
KernelBf16.v
KernelFacts.v
KernelContract.v
Runtime.v
RuntimeForward.v
RuntimeRoute.v
RuntimeStep.v
RuntimeLoad.v
RuntimeSequence.v
RuntimeContract.v
Fixture.v
FixtureContract.v
