(* ===== verification/Prelude.v ===== *)
(** * Verification of the RunnelMoE simulator, artifact format, page store and runtime

    RunnelMoE streams the experts of a mixture-of-experts model from disk.  This
    development models six of its parts from their source and proves them
    correct: the cache-policy simulator (crates/runnel-sim), which generates traces
    of page demands and replays them under a replacement policy; the artifact format
    (crates/runnel-format), which says what a model on disk is and verifies it;
    the store (crates/runnel-store), which opens an artifact through retained
    descriptors, reads verified pages of it, keeps them in a page cache that the
    runtime reads through, and imports artifacts into a content-addressed store on
    disk; the numeric kernels (crates/runnel-kernels), compact BF16 matrices and
    their product with a vector, in Rust and in the native AVX2 code; the
    inference runtime (crates/runnel-runtime), which loads a verified artifact and
    runs the model token by token; and the fixture builder (crates/runnel-fixture),
    whose synthetic artifacts all of these are tested with.

    ** The program and the files that model it

    The simulator.  [parse_trace] turns bytes into a [ValidatedTrace]; [simulate]
    replays it, either on the online [Kernel], which asks a [PolicyState] for
    victims on every demand miss and speculative fill and counts everything in
    [SimulationMetrics], or on the offline Belady replay; a second oracle computes
    the exact optimum of small traces.  [generate_trace] draws the routes of a
    synthetic workload from a seed, emits their events with the forecasts of a
    causal predictor, serializes them and parses the result back.
    - SimModel: model.rs and error.rs, the data: pages, events, limits, policies;
      metrics.rs, the checked counters, and the identities that [finish] checks
      (record [accounting], with the [slack] of a run that is still going).
    - SimPolicy: policy/mod.rs, the sketch, the router ledger, segments, victim
      plans.  SimEngine: engine.rs, the handlers of the kernel and the run loop.
      SimOracle: oracle/mod.rs.  SimTrace: trace.rs.
    - SimTraceOk: what a parsed trace satisfies ([parsed]) and the interface
      [CatalogOk] the replay relies on, and exactly which traces the validator
      accepts ([acceptable], [written]).  SimTinyLfu, SimPolicyFacts,
      SimEngineFacts, SimRun: the lemmas of the sketch, the policies, the kernel
      invariant and whole runs.  SimDemand: one demand as an equation on the
      kernel's state.
    - Paging: replacement schedules in the abstract, their cost, and the exchange
      argument.  SimBelady, SimExact, SimOnline: the two oracles, the
      comparison of online policies with the optimum and the refinement of LRU,
      proved against Paging and against a list cache.
    - SimContract: the simulator's theorems.
    - SimGenerator: generator.rs.  SimGeneratorFacts: the words of the generator,
      its draws, the predictor and its forecasts.  SimGeneratorRun: a whole run
      against the [script] of its routes.  SimGeneratorTrace: a generated trace is
      [acceptable], and a concrete JSON codec.  SimGeneratorContract: the theorems of
      the generator and of the parser.

    The artifact format.  A manifest is canonical JSON that declares objects, their
    page tables and the tensors in them; [Artifact] verifies the manifest, the
    tables and the objects of an artifact in memory.
    - Format: error.rs, and json.rs, the policy visitor and the canonical
      writer.  FormatManifest: manifest.rs, limits, digests, the schema and the
      lookups.  FormatArtifact: artifact.rs, page tables and verification.
    - FormatJsonFacts: unique readability of the canonical form, and what a visit
      reads.  FormatDigest, FormatSchema, FormatVerify: digests and ceilings, what
      an accepted manifest satisfies ([manifest_ok]), what a verified artifact
      satisfies ([artifact_ok]); [Demo] in FormatVerify: a concrete artifact.
      FormatExact: the text of a manifest that satisfies [manifest_ok] is accepted
      and read back ([manifest_complete]), and accepted bytes are that text
      ([manifest_text]).  FormatContract: the format's theorems.

    The store.  [ArtifactSource] holds an artifact directory by its descriptors,
    [StoredArtifact] opens its metadata and gives page specifications,
    [SyncReader] reads a page and verifies it.  [PageCache] keeps pages as loading, resident or retiring entries
    under one mutex, charges a ledger for every byte, load, waiter and lease,
    submits reads to the bounded [AsyncReader] and answers waiters through one-shot
    channels.
    - Store: error.rs, control.rs, budget.rs, trace.rs, metrics.rs, the page identities of page.rs,
      the configuration and the reader queue of async_io.rs.  StoreFacts: their
      theorems, with the trace sink and the reader queue as step relations.
    - StoreOs: system calls.  A run of a program is checked against a history, the
      list of its calls with their answers, so a theorem about every history is one
      about every behaviour of the operating system; [ensures] is the logic of
      runs.  StoreFs: the opening and reading half of fs.rs, and source.rs;
      StoreWrite: the writing half of fs.rs.  StorePages: page.rs.
    - StoreFsFacts: the logic [capable] of held descriptors, the read loop, and sources.
      StorePagesFacts, StoreRead: opened artifacts and their page specifications,
      page reads.  StoreDemo: a concrete history.
      StoreReadContract: the theorems of this half of the store.
    - StoreStage: stage.rs, staging names and resume tokens; StoreStageFacts.
      StoreLayout: layout.rs.  StoreCas: cas.rs, locks, durability, staging,
      verification and publication of one blob.  StoreImport: the rest of cas.rs,
      [CasImport] (import, manifest last) and [CasGc] (mark and sweep).
    - StoreDisk: the file system below, as POSIX documents its calls: descriptors,
      bytes, which of them are on stable storage, and for every name all values
      that a crash may still bring back.  StoreDiskLogic: the invariant [store_ok],
      executions (a history with the state after each call; when the lock is
      obtained its last holder may have changed the store within the invariant),
      and the logic [hoare]: from a sound store every execution of a program keeps
      the invariant at every moment, makes only permitted calls, does not panic and
      ends with its postcondition.  StoreDiskFacts, StoreDiskInv: observations, and
      every change and every crash against the invariant.
    - StoreCasFacts, StoreCasPublish: staging, copying and publication.
      StoreImportFacts, StoreImportCommit: transactions and whole imports.
      StoreGcPlan, StoreGcFacts: the marks, the plan and the sweep.  StoreCasDemo: a
      concrete import and a concrete collection on disk.  StoreCasContract: the
      theorems of the content-addressed store.
    - StoreCache: cache.rs.  One critical section is one action of a monad that
      keeps the state an operation leaves behind when it fails; [World] is
      [CacheInner] with the objects that point into it (live leases, armed
      registrations, sent answers, cancelled tokens, the reader); [Op] and
      [reachable] are the interleavings of all threads.
    - StoreCacheLogic: the program logic [wp] of the actions and the reservation of
      bytes.  StoreCacheInv: the invariant [inv] and the [transition] of one entry
      that preserves it.  StoreCacheOps, StoreCacheLoad: every operation against
      the invariant.  StoreContract: the cache's theorems.

    The kernels and the runtime.  A [Bf16Matrix] holds validated words; a
    [PreparedGemv] multiplies it with a finite vector on the scalar or the native
    backend, into scratch first.  [TinyModel] is built from the tensors of an
    artifact; [forward_token] runs one token against a [SequenceState] that it
    replaces only on success.
    - KernelFloat: 32-bit floats as their encodings, with the arithmetic of
      SpecFloat; the class [Platform] of what the machine decides; the order and the
      values of encodings.
    - Kernel: bf16.rs, matrix.rs, dispatch.rs, error.rs, ffi.rs, lib.rs and
      native/bf16_gemv.c.  KernelBf16: rounding.  KernelFacts: matrices, the rows of
      both backends, the checks on both sides of the native boundary.
      KernelContract: the theorems of the kernels.
    - Runtime: tokenizer.rs, tensor.rs, error.rs and the loading half of model.rs.
      RuntimeForward: the evaluating half.
    - RuntimeRoute: tokens, expert selection, the greedy choice.  RuntimeStep: what a
      loaded model ([model_ok]) and a sequence state ([state_ok]) satisfy, and every
      stage of a step against it.  RuntimeLoad: metadata, fetching
      and assembly; verified artifacts.  RuntimeSequence: runs and generation.
      [RuntimeDemo]: a concrete model.  RuntimeContract: the theorems of the runtime.

    The fixture builder.  It encodes a formula's values into one object, writes the
    manifest text and the page table, and publishes the files in a new directory.
    - Fixture: lib.rs; the file system of [write_new] is a map from paths to nodes
      whose calls may fail.  FixtureContract: its theorems.

    Prelude (this file) has the machine integers, the [result] monad, the
    predicates [post] (never panics, with a postcondition for values and one for
    errors) and [returns] (a postcondition for values only), stable sorting by a
    key, sums over maps and lists, and the tactics and hints the files share.
    Decimal has the decimal digits of numbers.

    ** Conventions

    An integer of the source is an [N]; its width appears where the source checks,
    saturates, wraps or panics ([checked_add], [saturating_add], [wrapping_add],
    [add_or_panic] and their kin).  [usize] is 64 bits.  A [Result] is [Ok] or
    [Err]; [Panic] is a failed index, [expect], [unwrap], debug assertion or
    arithmetic overflow, so a theorem that excludes [Panic] covers debug builds.  A
    [BTreeMap] is a [gmap] that is sorted where its order shows.  Interpolated
    values of the simulator's error messages are dropped.  A [Sha256] object is the byte sequence
    fed to it.

    Parameters: [sha256_hex], any function; [SerdeJson], the two operations of
    serde_json, with no law assumed by the parser (it re-encodes every record, so its
    soundness does not rest on the codec); that the generator does not fail needs
    [wire_ok] (records of the generated shape have printable texts of bounded length
    that read back), which [json_wire_ok] shows of a concrete codec.  Reader results, cancellations,
    deadlines, clock values and the iteration order of hash maps are arguments of
    the steps, so that the theorems quantify over them.  In the format and the
    page reader: [sha256], any function (its 256-bit range is a hypothesis where it
    is used); [from_slice], the calls that serde_json's deserializer makes on the
    visitor, in any order and number; [RESOLVER], what the process-wide cell of the
    resolver holds once it is initialised (the history says of every open whether it
    was; an open that finds it empty probes, [get_or_init]); that the deserializer
    reads a canonical text as the calls of its document, which is one document by
    [canonical_json_roundtrip], is a hypothesis where it is used
    ([reads_canonically]); [with_capacity], the capacity the allocator returns; and the
    history of system calls.  For imports [collision_free] says that no other bytes
    have the digest of the imported manifest; a [Cas] comes from [create] or
    [open], which checked its buffer size.  In the kernels and the runtime
    [Platform] has the NaN that an operation returns (a function of the operation
    and its operands), the exponential, the choice of [f32::max] between equal
    operands and the CPU features, with no law assumed; where slices are in memory
    is an argument of the native call ([live] says what Rust guarantees of slices);
    the supplier of tensor bytes is any function of its call number and its
    descriptor that does not panic.

    Fuel: [rebalance_protected] runs with one more than the number of residents,
    since each round demotes one protected entry; [subset_charge] with one more
    than the bit length of its mask, since each round clears a bit;
    [submask_loop] with one more than the state, since the submasks descend.
    Running out is [Panic], and [hit_rebalances], [exact_oracle_optimal] and
    [simulate_contract] exclude it.  [chunks_loop] runs with the length of its
    list ([chunks_lookup], [concat_chunks] show that it suffices), [search_loop]
    with the length of the keys, since the window halves (running out is [Panic],
    excluded by [manifest_sound]), [iterate] with one more than the calls of the
    history, since every round makes one ([iterate_unfold]).  The rejection loop of
    the random generator has no bound in the source: it runs with any given fuel,
    and [Drawing] is a run that rejected so many words in a row; in
    [generate_trace_contract] it is excluded for every seed whose words are
    [timely], and the witness has a seed for which one round suffices.

    ** What the theorems show

    - Simulator safety and accounting: [simulate_contract].
    - Optimality: [belady_optimal], [exact_oracle_optimal], [oracles_agree],
      [no_policy_beats_optimum].
    - Refinement: [lru_refines_list_cache].
    - Trace codec: [parse_trace_exact], [parse_trace_sound],
      [parse_serialize_roundtrip], [serialize_parse_roundtrip],
      [canonical_bytes_unique].
    - Trace generator: [generate_trace_contract], [generated_prefix_stable],
      [bounded_unbiased], [harmonic_by_weight], [rng_never_zero].
    - Policies: [tiny_lfu_never_undercounts], [tiny_lfu_keeps_shape],
      [demand_victims_frugal], [hit_rebalances], [signal_within_budget].
    - Page cache, over every interleaving: [cache_never_panics],
      [cache_within_limits], [lease_pins_page], [loads_coalesced],
      [waiters_answered_once], [idle_reader_owes_nothing], [shutdown_drains],
      [gauges_published].
    - Page cache, one operation: [lookup_contract], [completion_contract],
      [reservation_contract], [invalidate_contract], [shutdown_refuses].
    - Artifact format: [manifest_sound], [manifest_exact], [artifact_verified],
      [json_policy_exact], [canonical_json_roundtrip], [digest_text_roundtrip].
    - Opening and reading, for every history: [descriptors_held],
      [tensor_pages_cover], [page_read_verified], [page_read_delivers]; and the
      agreement of page reads with whole-artifact verification,
      [page_read_refines_artifact].
    - Content-addressed store, for every execution on disk: [import_commits],
      [gc_collects], [gc_spares_manifests]; through any life of a store with crashes,
      [store_always_sound]; tokens, [resume_token_roundtrip]; and
      [staging_name_panics], the staging names on which the listing panics.
    - Kernels: [bf16_rounds_to_nearest], [gemv_contract], [native_call_contract],
      [backends_agree].
    - Runtime: [model_loads], [forward_contract], [run_tokens_causal],
      [generate_greedy_contract], [best_are_selected], [tokenizer_roundtrip].
    - Fixtures: the values are exact, [formula_exact]; the artifacts verify and load,
      [fixture_loads], [multi_page_verifies]; the manifest is written last and nothing
      is overwritten, [write_publishes_manifest_last], [write_succeeds].
    - Small components: [cache_config_accepts], [disk_preflight_exact],
      [disk_round_up_least], [page_buffer_alignment], [trace_sink_accounts],
      [reader_queue_fifo].

    ** Not modelled

    - Memory orderings: an atomic access is one step.  Two operations of the page
      cache do in one step what the source does in a critical section and right after
      it.  [shutdown] closes the reader in the same step as it drains the entries; the
      mutex is released in between, when the shutdown flag already refuses new work.
      [complete_load] sends the answers of a load in the same step as it changes the
      entry; the source collects them under the mutex and sends them after its
      release.  By then the waiters are no longer in the entry and their leases are
      counted, so the cache is the same in between; only the receivers can tell.
    - Closing a descriptor: it has no answer.  The page cache takes the outcome of
      a read as an argument; that a read has such an outcome is shown for
      [read_observed].
    - In the content-addressed store: the faults that the tests inject, and how a
      new store is created on disk ([Layout.create] is translated; the disk's
      invariant is stated for a store that exists).
    - The command lines (argument parsing, file and report I/O); the files of [Artifact::open], which does with paths what the
      store does with descriptors; the kernel benchmark; thread
      creation and joining.
    - The accuracy of the model's arithmetic: the theorems of the runtime concern
      shapes, finiteness, order and control, not the distance to real numbers.  A NaN
      among scores (excluded in a step, where scores are checked first) makes the
      router's comparator no order, of which Rust's sort promises nothing. *)
From stdpp Require Import prelude gmap sorting strings.
#[local] Open Scope N_scope.

(** * Machine integers *)

Definition u8_max : N := 255.
Definition u16_max : N := 65535.
Definition u32_max : N := 4294967295.
Definition u64_max : N := 18446744073709551615.
Definition u128_max : N := 340282366920938463463374607431768211455.
(** [usize] on the 64-bit targets the crate supports. *)
Definition usize_max : N := u64_max.

(** Rust's [checked_add], [checked_mul] and [checked_sub] at the width whose
    greatest value is [max]. *)
Definition checked_add (max a b : N) : option N :=
  if a + b <=? max then Some (a + b) else None.
Definition checked_mul (max a b : N) : option N :=
  if a * b <=? max then Some (a * b) else None.
Definition checked_sub (a b : N) : option N :=
  if b <=? a then Some (a - b) else None.
Definition saturating_add (max a b : N) : N := N.min max (a + b).
Definition saturating_sub (a b : N) : N := a - b.
Definition wrapping_add (max a b : N) : N := (a + b) mod (max + 1).
Definition wrapping_mul (max a b : N) : N := (a * b) mod (max + 1).

Lemma checked_add_Some max a b c : checked_add max a b = Some c -> c = a + b /\ a + b <= max.
Proof. unfold checked_add. destruct (N.leb_spec (a + b) max); naive_solver. Qed.
Lemma checked_mul_Some max a b c : checked_mul max a b = Some c -> c = a * b /\ a * b <= max.
Proof. unfold checked_mul. destruct (N.leb_spec (a * b) max); naive_solver. Qed.
Lemma checked_sub_Some a b c : checked_sub a b = Some c -> c = a - b /\ b <= a.
Proof. unfold checked_sub. destruct (N.leb_spec b a); naive_solver. Qed.

(** The length of a Rust slice. *)
Definition lenN {A} (l : list A) : N := N.of_nat (length l).

(** The range [0..n]. *)
Definition rangeN (n : N) : list N := N.of_nat <$> seq 0 (N.to_nat n).

Lemma elem_of_rangeN n i : i ∈ rangeN n <-> i < n.
Proof.
  unfold rangeN. rewrite list_elem_of_fmap. split.
  - intros (k & -> & Hk%elem_of_seq). lia.
  - intros Hi. exists (N.to_nat i). rewrite elem_of_seq. lia.
Qed.

Lemma rangeN_succ n : rangeN (n + 1) = rangeN n ++ [n].
Proof.
  unfold rangeN. replace (N.to_nat (n + 1)) with (N.to_nat n + 1)%nat by lia.
  rewrite seq_app, fmap_app. simpl. do 2 f_equal. lia.
Qed.

Lemma length_rangeN n : length (rangeN n) = N.to_nat n.
Proof. unfold rangeN. by rewrite length_fmap, length_seq. Qed.

(** * Bytes *)

(** The bytes of a string, and the little-endian bytes of an integer. *)
Fixpoint string_bytes (s : string) : list N :=
  match s with
  | EmptyString => []
  | String c s => Ascii.N_of_ascii c :: string_bytes s
  end.
Fixpoint to_le_bytes (w : nat) (n : N) : list N :=
  match w with
  | O => []
  | S w => n mod 256 :: to_le_bytes w (n / 256)
  end.
Fixpoint from_le_bytes (l : list N) : N :=
  match l with
  | [] => 0
  | b :: l => b + 256 * from_le_bytes l
  end.

(** The string of some bytes. *)
Fixpoint bytes_string (l : list N) : string :=
  match l with
  | [] => EmptyString
  | b :: l => String (Ascii.ascii_of_N b) (bytes_string l)
  end.

(** A text with its double quotes written as single ones. *)
Definition json (s : string) : list N := (fun b => if b =? 39 then 34 else b) <$> string_bytes s.

Lemma bytes_string_bytes s : bytes_string (string_bytes s) = s.
Proof. induction s as [|c s IH]; [done|]. simpl. by rewrite IH, Ascii.ascii_N_embedding. Qed.

Lemma string_bytes_app s t : string_bytes (s +:+ t) = string_bytes s ++ string_bytes t.
Proof. induction s as [|c s IH]; [done|]. simpl. by rewrite IH. Qed.

#[export] Instance string_bytes_inj : Inj (=) (=) string_bytes.
Proof.
  intros s. induction s as [|c s IH]; intros [|c' s'] H; try done. simpl in H. injection H as Hc Hs.
  rewrite (IH s' Hs). f_equal. rewrite <- (Ascii.ascii_N_embedding c), <- (Ascii.ascii_N_embedding c').
  by rewrite Hc.
Qed.

Lemma length_string_bytes s : length (string_bytes s) = String.length s.
Proof. induction s as [|c s IH]; simpl; [done|]. by rewrite IH. Qed.

(** * Fallible computations *)

(** The outcome of Rust code: a value, a typed error, or a panic (an index out
    of range, a failed [expect], an overflowing unchecked operation). *)
Inductive result (E A : Type) : Type :=
| Ok (a : A)
| Err (e : E)
| Panic.
Arguments Ok {E A} a.
Arguments Err {E A} e.
Arguments Panic {E A}.

#[export] Instance result_ret E : MRet (result E) := fun A a => Ok a.
#[export] Instance result_bind E : MBind (result E) := fun A B f m =>
  match m with Ok a => f a | Err e => Err e | Panic => Panic end.

(** [Option::ok_or]. *)
Definition ok_or {E A} (o : option A) (e : E) : result E A :=
  match o with Some a => Ok a | None => Err e end.
(** [Option::expect], and indexing, which panic on [None]. *)
Definition expect {E A} (o : option A) : result E A :=
  match o with Some a => Ok a | None => Panic end.
(** Unchecked [-], [+] and [*] of a build with overflow checks. *)
Definition sub_or_panic {E} (a b : N) : result E N := expect (checked_sub a b).
Definition add_or_panic {E} (max a b : N) : result E N := expect (checked_add max a b).
Definition mul_or_panic {E} (a b : N) : result E N := expect (checked_mul usize_max a b).
(** [Result::map_err]. *)
Definition map_err {A E E'} (f : E -> E') (m : result E A) : result E' A :=
  match m with Ok a => Ok a | Err e => Err (f e) | Panic => Panic end.
(** [debug_assert!], compiled in for the checked profile. *)
Definition debug_assert {E} (b : bool) : result E unit := if b then Ok tt else Panic.
Definition guard_err {E} (bad : bool) (e : E) : result E unit :=
  if bad then Err e else Ok tt.

(** [Iterator::try_fold], also a [for] loop whose body uses [?]. *)
Fixpoint try_fold {E A B} (f : B -> A -> result E B) (acc : B) (l : list A) : result E B :=
  match l with
  | [] => Ok acc
  | x :: l => acc ← f acc x; try_fold f acc l
  end.

(** ** A small program logic for [result]

    [post m Q X] says that [m] does not panic, that a returned value satisfies
    [Q] and that a returned error satisfies [X]. *)
Definition post {E A} (m : result E A) (Q : A -> Prop) (X : E -> Prop) : Prop :=
  match m with Ok a => Q a | Err e => X e | Panic => False end.

Section post.
Context {E : Type}.
Implicit Types X : E -> Prop.

Lemma post_ok {A} (a : A) (Q : A -> Prop) X : Q a -> post (Ok a) Q X.
Proof. done. Qed.

Lemma post_bind {A B} (m : result E A) (f : A -> result E B) Q X :
  post m (fun a => post (f a) Q X) X -> post (m ≫= f) Q X.
Proof. by destruct m. Qed.

Lemma post_mono {A} (m : result E A) (Q Q' : A -> Prop) X X' :
  post m Q X -> (forall a, Q a -> Q' a) -> (forall e, X e -> X' e) -> post m Q' X'.
Proof. destruct m; simpl; auto. Qed.

Lemma post_strengthen {A} (m : result E A) (Q Q' : A -> Prop) X :
  post m Q X -> (forall a, Q a -> Q' a) -> post m Q' X.
Proof. intros; eapply post_mono; eauto. Qed.

Lemma post_and {A} (m : result E A) (Q Q' : A -> Prop) X X' :
  post m Q X -> post m Q' X' -> post m (fun a => Q a /\ Q' a) (fun e => X e /\ X' e).
Proof. destruct m; simpl; auto. Qed.

Lemma post_ok_inv {A} (m : result E A) Q X a : post m Q X -> m = Ok a -> Q a.
Proof. by intros H ->. Qed.

Lemma post_guard (bad : bool) (e : E) Q X :
  (bad = true -> X e) -> (bad = false -> Q tt) -> post (guard_err bad e) Q X.
Proof. destruct bad; simpl; auto. Qed.

Lemma post_checked_add max a b (e : E) Q X :
  (a + b <= max -> Q (a + b)) -> X e -> post (ok_or (checked_add max a b) e) Q X.
Proof. unfold checked_add. destruct (N.leb_spec (a + b) max); simpl; auto. Qed.

Lemma post_checked_mul max a b (e : E) Q X :
  (a * b <= max -> Q (a * b)) -> X e -> post (ok_or (checked_mul max a b) e) Q X.
Proof. unfold checked_mul. destruct (N.leb_spec (a * b) max); simpl; auto. Qed.

Lemma post_checked_sub a b (e : E) Q X :
  b <= a -> Q (a - b) -> post (ok_or (checked_sub a b) e) Q X.
Proof. unfold checked_sub. destruct (N.leb_spec b a); simpl; [auto | lia]. Qed.

Lemma post_sub_or_panic a b Q X : b <= a -> Q (a - b) -> post (sub_or_panic (E:=E) a b) Q X.
Proof. unfold sub_or_panic, checked_sub. destruct (N.leb_spec b a); simpl; [auto | lia]. Qed.

(** The loop rule: [I] is established before the loop and preserved by every
    iteration; it may mention the elements already consumed. *)
Lemma post_try_fold {A B} (f : B -> A -> result E B) l (I : list A -> B -> Prop) X acc :
  I [] acc ->
  (forall done x rest b, l = done ++ x :: rest -> I done b ->
    post (f b x) (I (done ++ [x])) X) ->
  post (try_fold f acc l) (I l) X.
Proof.
  intros H0 Hstep.
  assert (forall rest done b, l = done ++ rest -> I done b ->
            post (try_fold f b rest) (I l) X) as Hgen; [|by apply (Hgen l [])].
  induction rest as [|x rest IH]; intros dn b Hl HI; simpl.
  - rewrite app_nil_r in Hl. by subst dn.
  - apply post_bind. eapply post_strengthen; [by eapply Hstep|].
    intros b' Hb'. apply (IH (dn ++ [x])); [by rewrite <- app_assoc | done].
Qed.

(** Inverting a computation that returned. *)
Lemma bind_ok_inv {A B} (m : result E A) (f : A -> result E B) b :
  m ≫= f = Ok b -> exists a, m = Ok a /\ f a = Ok b.
Proof. destruct m as [a| |]; [by exists a | done..]. Qed.

Lemma guard_ok_inv (bad : bool) (e : E) u : guard_err bad e = Ok u -> bad = false.
Proof. by destruct bad. Qed.

Lemma ok_or_inv {A} (o : option A) (e : E) a : ok_or o e = Ok a -> o = Some a.
Proof. by destruct o; intros [= ->]. Qed.

(** Computations that do not panic. *)
Definition safe {A} (m : result E A) : Prop := m <> Panic.

Lemma safe_ok {A} (a : A) : safe (Ok a).
Proof. done. Qed.
Lemma safe_err {A} e : safe (A:=A) (Err e).
Proof. done. Qed.
Lemma safe_bind {A B} (m : result E A) (f : A -> result E B) :
  safe m -> (forall a, safe (f a)) -> safe (m ≫= f).
Proof. destruct m; intros Hm Hf; [apply Hf | done | done]. Qed.
Lemma safe_guard (bad : bool) (e : E) : safe (guard_err bad e).
Proof. by destruct bad. Qed.
Lemma safe_ok_or {A} (o : option A) (e : E) : safe (ok_or o e).
Proof. by destruct o. Qed.
Lemma safe_try_fold {A B} (f : B -> A -> result E B) acc l :
  (forall b x, safe (f b x)) -> safe (try_fold f acc l).
Proof. intros Hf. revert acc. induction l as [|x l IH]; intros acc; [done|]. by apply safe_bind. Qed.
Lemma post_safe {A} (m : result E A) (Q : A -> Prop) :
  safe m -> (forall a, m = Ok a -> Q a) -> post m Q (fun _ => True).
Proof. destruct m; simpl; intros H HQ; [by apply HQ | done | by apply H]. Qed.

(** What a computation returns, if it returns: for functional facts that are
    combined with an absence-of-panic proof. *)
Definition returns {A} (m : result E A) (Q : A -> Prop) : Prop := forall a, m = Ok a -> Q a.

Lemma returns_ok {A} (a : A) (Q : A -> Prop) : Q a -> returns (Ok a) Q.
Proof. by intros ? ? [= <-]. Qed.

Lemma returns_bind {A B} (m : result E A) (f : A -> result E B) Q :
  returns m (fun a => returns (f a) Q) -> returns (m ≫= f) Q.
Proof. destruct m as [a| |]; intros H b Hb; [by apply (H a) | done..]. Qed.

Lemma returns_mono {A} (m : result E A) (Q Q' : A -> Prop) :
  returns m Q -> (forall a, Q a -> Q' a) -> returns m Q'.
Proof. intros H HQ a Ha. by apply HQ, H. Qed.

Lemma returns_try_fold {A B} (f : B -> A -> result E B) l (I : list A -> B -> Prop) acc :
  I [] acc ->
  (forall done x b, I done b -> returns (f b x) (I (done ++ [x]))) ->
  returns (try_fold f acc l) (I l).
Proof.
  intros H0 Hstep.
  assert (forall rest done b, l = done ++ rest -> I done b -> returns (try_fold f b rest) (I l))
    as Hgen; [|by apply (Hgen l [])].
  induction rest as [|x rest IH]; intros dn b Hl HI; simpl.
  - rewrite app_nil_r in Hl. subst dn. by apply returns_ok.
  - apply returns_bind. eapply returns_mono; [by apply Hstep|].
    intros b' Hb'. apply (IH (dn ++ [x])); [by rewrite <- app_assoc | done].
Qed.

Lemma returns_ok_or {A} (o : option A) (e : E) Q :
  (forall a, o = Some a -> Q a) -> returns (ok_or o e) Q.
Proof. destruct o; intros H ? [= <-]; auto. Qed.

Lemma returns_guard (bad : bool) (e : E) Q : Q tt -> returns (guard_err bad e) Q.
Proof. by destruct bad; intros H ? [= <-]. Qed.

Lemma post_returns {A} (m : result E A) Q Q' X :
  post m Q X -> returns m Q' -> post m (fun a => Q a /\ Q' a) X.
Proof. destruct m as [a| |]; simpl; [|done..]. intros ? H. split; [done | by apply H]. Qed.
End post.

(** [safe] goals follow the structure of the computation. *)
Create HintDb safe.
#[export] Hint Resolve safe_ok safe_err safe_guard safe_ok_or safe_try_fold : safe.
Ltac safe_step :=
  match goal with
  | |- safe (_ ≫= _) => apply safe_bind; [|intros ?]
  | |- safe (try_fold _ _ _) => apply safe_try_fold; intros ? ?
  | |- safe (let '(_, _) := ?p in _) => destruct p
  | |- safe (match ?x with _ => _ end) => destruct x
  end.
Ltac safe_tac := repeat first [solve [eauto 2 with safe] | safe_step].

(** Split [m = Ok a] into the steps of [m]. *)
Ltac ok_step H :=
  match type of H with
  | _ ≫= _ = Ok _ =>
      let x := fresh "x" in let Hx := fresh "Hx" in apply bind_ok_inv in H as (x & Hx & H); ok_step Hx
  | guard_err _ _ = Ok _ => apply guard_ok_inv in H
  | ok_or _ _ = Ok _ => apply ok_or_inv in H
  | _ => idtac
  end.

(** * Ordered iteration and sorting *)

(** Dictionary order on sort keys; [std::cmp::Reverse x] is the component [- x]. *)
Fixpoint key_le (a b : list Z) : Prop :=
  match a, b with
  | [], _ => True
  | _ :: _, [] => False
  | x :: a, y :: b => (x < y)%Z \/ (x = y /\ key_le a b)
  end.

#[export] Instance key_le_dec : RelDecision key_le.
Proof.
  refine (fix go a b := match a, b with
    | [], _ => left _
    | _ :: _, [] => right _
    | x :: a, y :: b =>
        if Z_lt_dec x y then left _ else
        if Z.eq_dec x y then cast_if (go a b) else right _
    end); simpl; first [tauto | intros [?|[? ?]]; first [lia | done]].
Defined.

#[export] Instance key_le_trans : Transitive key_le.
Proof.
  intros a. induction a as [|x a IH]; intros [|y b] [|z c]; simpl; try tauto.
  intros [?|[-> ?]] [?|[-> ?]]; [left; lia.. | right; split; [done | by eapply IH]].
Qed.

#[export] Instance key_le_total : Total key_le.
Proof.
  intros a. induction a as [|x a IH]; intros [|y b]; simpl; auto.
  destruct (IH b), (Z.lt_trichotomy x y) as [?|[?|?]]; auto.
Qed.

#[export] Instance key_le_antisym : AntiSymm (=) key_le.
Proof.
  intros a. induction a as [|x a IH]; intros [|y b]; simpl; try tauto.
  intros [?|[-> ?]] [?|[E ?]]; try lia. f_equal. by apply IH.
Qed.

Lemma key_le_refl a : key_le a a.
Proof. by destruct (key_le_total a a). Qed.

(** [slice::sort_by_key], a stable sort. *)
Definition by_key {A} (key : A -> list Z) (x y : A) : Prop := key_le (key x) (key y).
#[export] Instance by_key_dec {A} (key : A -> list Z) : RelDecision (by_key key) :=
  fun x y => decide (key_le (key x) (key y)).
#[export] Instance by_key_trans {A} (key : A -> list Z) : Transitive (by_key key).
Proof. intros x y z. apply key_le_trans. Qed.
#[export] Instance by_key_total {A} (key : A -> list Z) : Total (by_key key).
Proof. intros x y. apply key_le_total. Qed.

Definition sort_by_key {A} (key : A -> list Z) (l : list A) : list A :=
  merge_sort (by_key key) l.

Lemma sort_by_key_perm {A} (key : A -> list Z) l : sort_by_key key l ≡ₚ l.
Proof. apply merge_sort_Permutation. Qed.

Lemma sort_by_key_sorted {A} (key : A -> list Z) l :
  StronglySorted (by_key key) (sort_by_key key l).
Proof. apply StronglySorted_merge_sort; apply _. Qed.

Lemma elem_of_sort_by_key {A} (key : A -> list Z) l x : x ∈ sort_by_key key l <-> x ∈ l.
Proof. by rewrite (sort_by_key_perm key l). Qed.

Lemma length_sort_by_key {A} (key : A -> list Z) l : length (sort_by_key key l) = length l.
Proof. by rewrite (sort_by_key_perm key l). Qed.

(** [Iterator::min_by_key] (the first minimum) and [Iterator::max_by_key] (the
    last maximum). *)
Fixpoint min_by_key {A} (key : A -> list Z) (l : list A) : option A :=
  match l with
  | [] => None
  | x :: l => match min_by_key key l with
              | None => Some x
              | Some y => if decide (key_le (key x) (key y)) then Some x else Some y
              end
  end.
Fixpoint max_by_key {A} (key : A -> list Z) (l : list A) : option A :=
  match l with
  | [] => None
  | x :: l => match max_by_key key l with
              | None => Some x
              | Some y => if decide (key_le (key x) (key y)) then Some y else Some x
              end
  end.

Lemma min_by_key_None {A} (key : A -> list Z) l : min_by_key key l = None <-> l = [].
Proof. destruct l; simpl; [done|]. destruct (min_by_key key l); [case_decide|]; done. Qed.

Lemma max_by_key_None {A} (key : A -> list Z) l : max_by_key key l = None <-> l = [].
Proof. destruct l; simpl; [done|]. destruct (max_by_key key l); [case_decide|]; done. Qed.

Lemma min_by_key_Some {A} (key : A -> list Z) l m :
  min_by_key key l = Some m -> m ∈ l /\ forall x, x ∈ l -> key_le (key m) (key x).
Proof.
  revert m. induction l as [|x l IH]; intros m; simpl; [done|].
  destruct (min_by_key key l) as [y|] eqn:E.
  - destruct (IH y eq_refl) as [Hy Hmin]. case_decide as Hk; intros [= <-].
    + split; [by left|]. intros z [->|Hz]%elem_of_cons; [apply key_le_refl|].
      etrans; [exact Hk | by apply Hmin].
    + split; [by right|]. intros z [->|Hz]%elem_of_cons; [|by apply Hmin].
      by destruct (key_le_total (key x) (key y)).
  - apply min_by_key_None in E as ->. intros [= <-]. split; [by left|].
    intros z [->|Hz]%elem_of_cons; [apply key_le_refl | by apply elem_of_nil in Hz].
Qed.

Lemma max_by_key_Some {A} (key : A -> list Z) l m :
  max_by_key key l = Some m -> m ∈ l /\ forall x, x ∈ l -> key_le (key x) (key m).
Proof.
  revert m. induction l as [|x l IH]; intros m; simpl; [done|].
  destruct (max_by_key key l) as [y|] eqn:E.
  - destruct (IH y eq_refl) as [Hy Hmax]. case_decide as Hk; intros [= <-].
    + split; [by right|]. intros z [->|Hz]%elem_of_cons; [done | by apply Hmax].
    + split; [by left|]. intros z [->|Hz]%elem_of_cons; [apply key_le_refl|].
      etrans; [by apply Hmax|]. by destruct (key_le_total (key x) (key y)).
  - apply max_by_key_None in E as ->. intros [= <-]. split; [by left|].
    intros z [->|Hz]%elem_of_cons; [apply key_le_refl | by apply elem_of_nil in Hz].
Qed.

(** Sort keys of the key types of the program's maps. *)
Class SortKey (K : Type) := sort_key : K -> list Z.
Class SortKeyInj (K : Type) `{SortKey K} := sort_key_inj :: Inj (=) (=) (sort_key (K:=K)).
#[export] Instance N_sort_key : SortKey N := fun n => [Z.of_N n].
#[export] Instance N_sort_key_inj : SortKeyInj N.
Proof. intros a b [= H]. lia. Qed.
#[export] Instance NN_sort_key : SortKey (N * N) := fun p => [Z.of_N p.1; Z.of_N p.2].
#[export] Instance NN_sort_key_inj : SortKeyInj (N * N).
Proof. intros [] [] [= H1 H2]. f_equal; lia. Qed.

(** Iteration over a [BTreeMap], in ascending key order. *)
Section btree.
Context {K : Type} `{Countable K} `{!SortKey K}.

Definition btree_iter {V} (m : gmap K V) : list (K * V) :=
  sort_by_key (fun kv => sort_key kv.1) (map_to_list m).
Definition btree_keys {V} (m : gmap K V) : list K := (btree_iter m).*1.
Definition btree_values {V} (m : gmap K V) : list V := (btree_iter m).*2.

Lemma btree_iter_perm {V} (m : gmap K V) : btree_iter m ≡ₚ map_to_list m.
Proof. apply sort_by_key_perm. Qed.

Lemma elem_of_btree_iter {V} (m : gmap K V) k v : (k, v) ∈ btree_iter m <-> m !! k = Some v.
Proof. by rewrite btree_iter_perm, elem_of_map_to_list. Qed.

Lemma elem_of_btree_keys {V} (m : gmap K V) k : k ∈ btree_keys m <-> is_Some (m !! k).
Proof.
  unfold btree_keys. rewrite list_elem_of_fmap. split.
  - intros ([k' v] & -> & Hkv%elem_of_btree_iter). by exists v.
  - intros [v Hv]. exists (k, v). by rewrite elem_of_btree_iter.
Qed.

Lemma elem_of_btree_values {V} (m : gmap K V) v :
  v ∈ btree_values m <-> exists k, m !! k = Some v.
Proof.
  unfold btree_values. rewrite list_elem_of_fmap. split.
  - intros ([k v'] & -> & Hkv%elem_of_btree_iter). by exists k.
  - intros [k Hk]. exists (k, v). by rewrite elem_of_btree_iter.
Qed.

Lemma NoDup_btree_keys {V} (m : gmap K V) : NoDup (btree_keys m).
Proof. unfold btree_keys. rewrite btree_iter_perm. apply NoDup_fst_map_to_list. Qed.

Lemma btree_keys_sorted {V} (m : gmap K V) :
  StronglySorted (by_key sort_key) (btree_keys m).
Proof.
  unfold btree_keys, btree_iter.
  apply (StronglySorted_fmap fst (by_key (fun kv : K * V => sort_key kv.1)));
    [done | apply sort_by_key_sorted].
Qed.
End btree.

(** * Sums *)

Definition sumN {A} (f : A -> N) (l : list A) : N := foldr (fun x acc => f x + acc) 0 l.

Lemma sumN_app {A} (f : A -> N) l1 l2 : sumN f (l1 ++ l2) = sumN f l1 + sumN f l2.
Proof. induction l1 as [|x l1 IH]; simpl; lia. Qed.

#[export] Instance sumN_perm {A} (f : A -> N) : Proper ((≡ₚ) ==> (=)) (sumN f).
Proof. induction 1; simpl; lia. Qed.

Lemma sumN_ext {A} (f g : A -> N) l : (forall x, x ∈ l -> f x = g x) -> sumN f l = sumN g l.
Proof.
  induction l as [|x l IH]; intros Hfg; simpl; [done|].
  rewrite Hfg by left. rewrite IH; [done|]. intros y Hy. apply Hfg. by right.
Qed.

Lemma sumN_zero {A} (f : A -> N) l : (forall x, x ∈ l -> f x = 0) -> sumN f l = 0.
Proof.
  induction l as [|x l IH]; intros Hf; [done|]. simpl. rewrite IH; [|intros; apply Hf; by right].
  rewrite (Hf x); [done | left].
Qed.

Lemma sumN_fmap {A B} (g : B -> N) (f : A -> B) l : sumN g (f <$> l) = sumN (fun x => g (f x)) l.
Proof. induction l as [|x l IH]; [done|]. rewrite fmap_cons. cbn [sumN foldr]. unfold sumN in IH. by rewrite IH. Qed.

Lemma sumN_le_elem {A} (f : A -> N) l x : x ∈ l -> f x <= sumN f l.
Proof. induction 1 as [|y l x' Hx IH]; simpl; lia. Qed.

Lemma sumN_sublist {A} (f : A -> N) l1 l2 : l1 ⊆+ l2 -> sumN f l1 <= sumN f l2.
Proof. intros [k ->]%submseteq_Permutation. rewrite sumN_app. lia. Qed.

Lemma sumN_filter_le {A} (P : A -> Prop) `{forall x, Decision (P x)} (f : A -> N) l :
  sumN f (filter P l) <= sumN f l.
Proof. apply sumN_sublist, sublist_submseteq, sublist_filter. Qed.

Lemma sumN_one {A} (l : list A) : sumN (fun _ => 1) l = lenN l.
Proof. unfold lenN. induction l as [|x l IH]; simpl; lia. Qed.

(** Sum of a measure over the values of a map. *)
Definition msum {K V} `{Countable K} (f : V -> N) (m : gmap K V) : N :=
  sumN (fun kv => f kv.2) (map_to_list m).

Section msum.
Context {K V : Type} `{Countable K}.
Implicit Types (m : gmap K V) (f : V -> N).

Lemma msum_empty f : msum f (∅ : gmap K V) = 0.
Proof. unfold msum. by rewrite map_to_list_empty. Qed.

Lemma msum_insert_new f m k v : m !! k = None -> msum f (<[k:=v]> m) = f v + msum f m.
Proof. intros Hk. unfold msum. by rewrite map_to_list_insert. Qed.

Lemma msum_delete f m k v : m !! k = Some v -> msum f m = f v + msum f (delete k m).
Proof.
  intros Hk. rewrite <- (insert_delete_id m k v Hk) at 1.
  apply msum_insert_new. apply lookup_delete_eq.
Qed.

Lemma msum_insert f m k v v' :
  m !! k = Some v -> msum f (<[k:=v']> m) + f v = f v' + msum f m.
Proof.
  intros Hk. rewrite (msum_delete f m k v Hk), <- insert_delete_eq.
  rewrite msum_insert_new by apply lookup_delete_eq. lia.
Qed.

Lemma msum_le f m k v : m !! k = Some v -> f v <= msum f m.
Proof. intros Hk. rewrite (msum_delete f m k v Hk). lia. Qed.

Lemma msum_ext f g m : (forall k v, m !! k = Some v -> f v = g v) -> msum f m = msum g m.
Proof.
  intros Hfg. apply sumN_ext. intros [k v] Hkv%elem_of_map_to_list. by eapply Hfg.
Qed.

Lemma msum_mono f g m : (forall k v, m !! k = Some v -> f v <= g v) -> msum f m <= msum g m.
Proof.
  induction m as [|k v m Hk IH] using map_ind; intros Hfg; [by rewrite !msum_empty|].
  rewrite !msum_insert_new by done.
  pose proof (Hfg k v (lookup_insert_eq _ _ _)).
  enough (msum f m <= msum g m) by lia. apply IH.
  intros k' v' Hk'. apply (Hfg k'). rewrite lookup_insert_ne; [done | congruence].
Qed.

Lemma msum_plus f g m : msum (fun v => f v + g v) m = msum f m + msum g m.
Proof.
  induction m as [|k v m Hk IH] using map_ind; [by rewrite !msum_empty|].
  rewrite !msum_insert_new by done. lia.
Qed.

Lemma msum_zero f m : (forall k v, m !! k = Some v -> f v = 0) -> msum f m = 0.
Proof.
  intros Hz. rewrite (msum_ext f (fun _ => 0)) by done. clear Hz.
  induction m as [|k v m Hk IH] using map_ind; [by rewrite msum_empty|].
  rewrite msum_insert_new by done. lia.
Qed.

Lemma msum_btree_values `{!SortKey K} f m : sumN f (btree_values m) = msum f m.
Proof. unfold btree_values, msum. by rewrite sumN_fmap, (btree_iter_perm m). Qed.

Lemma msum_one m : msum (fun _ => 1) m = N.of_nat (size m).
Proof.
  induction m as [|k v m Hk IH] using map_ind; [by rewrite msum_empty, map_size_empty|].
  rewrite msum_insert_new, map_size_insert_None by done. lia.
Qed.

(** The values at a duplicate-free list of keys weigh at most the whole map. *)
Lemma msum_keys_le f m (ks : list K) :
  NoDup ks -> sumN (fun k => from_option f 0 (m !! k)) ks <= msum f m.
Proof.
  revert m. induction ks as [|k ks IH]; intros m Hnd; simpl; [lia|].
  apply NoDup_cons in Hnd as [Hk Hnd].
  destruct (m !! k) as [v|] eqn:E; simpl; [|by apply IH].
  rewrite (msum_delete f m k v E).
  enough (sumN (fun k => from_option f 0 (m !! k)) ks <= msum f (delete k m)) by lia.
  rewrite (sumN_ext _ (fun k' => from_option f 0 (delete k m !! k'))).
  - by apply IH.
  - intros k' Hk'. rewrite lookup_delete_ne; [done|]. by intros ->.
Qed.
End msum.

(** * Prefix-indexed properties of event sequences *)

(** [R pre x] holds at every position of a list, where [pre] is what precedes. *)
Definition each_prefix {A} (R : list A -> A -> Prop) (l : list A) : Prop :=
  forall pre x suf, l = pre ++ x :: suf -> R pre x.

Lemma each_prefix_nil {A} (R : list A -> A -> Prop) : each_prefix R [].
Proof. intros [] x suf; discriminate. Qed.

Lemma each_prefix_snoc {A} (R : list A -> A -> Prop) l x :
  each_prefix R l -> R l x -> each_prefix R (l ++ [x]).
Proof.
  intros Hl Hx pre y suf. destruct suf as [|z suf _] using rev_ind.
  - intros [-> [= ->]]%app_inj_tail. done.
  - rewrite app_comm_cons, app_assoc. intros [-> _]%app_inj_tail. by eapply Hl.
Qed.

Lemma each_prefix_app {A} (R : list A -> A -> Prop) l1 l2 :
  each_prefix R (l1 ++ l2) -> each_prefix R l1.
Proof. intros H pre x suf ->. apply (H pre x (suf ++ l2)). by rewrite <- app_assoc. Qed.

Lemma each_prefix_app_intro {A} (R : list A -> A -> Prop) l1 l2 :
  each_prefix R l1 -> each_prefix (fun pre => R (l1 ++ pre)) l2 -> each_prefix R (l1 ++ l2).
Proof.
  intros H1 H2. induction l2 as [|x l2 IH] using rev_ind; [by rewrite app_nil_r|].
  rewrite app_assoc. apply each_prefix_snoc; [|by apply (H2 l2 x [])].
  apply IH. intros pre y suf ->. apply (H2 pre y (suf ++ [x])). by rewrite <- app_assoc.
Qed.

Lemma each_prefix_last {A} (R : list A -> A -> Prop) l x : each_prefix R (l ++ [x]) -> R l x.
Proof. intros H. by apply (H l x []). Qed.

Lemma NoDup_snoc {A} (l : list A) x : NoDup l -> x ∉ l -> NoDup (l ++ [x]).
Proof.
  intros Hl Hx. apply NoDup_app. split; [done|]. split; [|apply NoDup_singleton].
  intros y Hy ->%list_elem_of_singleton. done.
Qed.

(** * [mapM] and [try_fold] over total bodies *)

Lemma mapM_Ok {E A B} (f : A -> result E B) (g : A -> B) l :
  (forall x, x ∈ l -> f x = Ok (g x)) -> mapM f l = Ok (g <$> l).
Proof.
  induction l as [|x l IH]; intros Hf; [done|]. simpl.
  rewrite (Hf x) by left. simpl. rewrite IH; [done|]. intros y Hy. apply Hf. by right.
Qed.

Lemma try_fold_app {E A B} (f : B -> A -> result E B) acc l1 l2 :
  try_fold f acc (l1 ++ l2) = try_fold f acc l1 ≫= fun b => try_fold f b l2.
Proof.
  revert acc. induction l1 as [|x l1 IH]; intros acc; simpl; [done|].
  destruct (f acc x) as [b| |]; simpl; [apply IH | done..].
Qed.

(** A fold of checked additions of total summands is the sum, if it fits. *)
Lemma try_fold_sum {E A} (f : N -> A -> result E N) (g : A -> N) max (e : E) l acc :
  (forall b x, x ∈ l -> f b x = ok_or (checked_add max b (g x)) e) ->
  post (try_fold f acc l) (fun total => total = acc + sumN g l /\ (acc <= max -> total <= max))
    (fun e' => e' = e /\ max < acc + sumN g l).
Proof.
  revert acc. induction l as [|x l IH]; intros acc Hf; simpl; [split; lia|].
  apply post_bind. rewrite Hf by left. unfold checked_add.
  destruct (N.leb_spec (acc + g x) max); simpl; [|split; [done | lia]].
  eapply post_mono; [apply IH; intros b y Hy; apply Hf; by right | simpl.. ].
  - intros a [-> ?]. split; lia.
  - intros e' [-> ?]. split; [done | lia].
Qed.

Lemma try_fold_sum_ok {E A} (f : N -> A -> result E N) (g : A -> N) max (e : E) l acc :
  (forall b x, x ∈ l -> f b x = ok_or (checked_add max b (g x)) e) ->
  acc + sumN g l <= max -> try_fold f acc l = Ok (acc + sumN g l).
Proof.
  intros Hf Hmax. pose proof (try_fold_sum f g max e l acc Hf) as H.
  destruct (try_fold f acc l) as [total|e'|]; simpl in H; [|lia|done].
  by destruct H as [-> _].
Qed.

(** A loop whose body succeeds exactly where [R] holds. *)
Lemma try_fold_exact {E A B} (f : B -> A -> result E B) (R : list A -> A -> Prop)
    (I : list A -> B -> Prop) acc l :
  I [] acc ->
  (forall dn x b, I dn b -> R dn x -> exists b', f b x = Ok b') ->
  (forall dn x b b', I dn b -> f b x = Ok b' -> R dn x /\ I (dn ++ [x]) b') ->
  (each_prefix R l -> exists b, try_fold f acc l = Ok b)
  /\ forall b, try_fold f acc l = Ok b -> each_prefix R l /\ I l b.
Proof.
  intros H0 Hok Hinv. induction l as [|x l [IH1 IH2]] using rev_ind.
  - split; [by exists acc|]. intros b [= <-]. split; [apply each_prefix_nil | done].
  - rewrite try_fold_app. split.
    + intros H. destruct (IH1 (each_prefix_app _ _ _ H)) as [b Hb]. rewrite Hb. simpl.
      destruct (IH2 b Hb) as [_ HI]. destruct (Hok l x b HI (each_prefix_last _ _ _ H)) as [b' ->].
      by exists b'.
    + intros b (b' & Hb & Hx)%bind_ok_inv. simpl in Hx. apply bind_ok_inv in Hx as (b'' & Hx & [= <-]).
      destruct (IH2 b' Hb) as [Hl HI]. destruct (Hinv l x b' b'' HI Hx) as [HR HI'].
      split; [by apply each_prefix_snoc | done].
Qed.

Lemma filter_none {A} (P : A -> Prop) `{forall x, Decision (P x)} l :
  (forall x, x ∈ l -> ~ P x) -> filter P l = [].
Proof.
  intros Hl. destruct (filter P l) as [|x k] eqn:E; [done|]. exfalso.
  assert (x ∈ filter P l) as [Hx Hin]%list_elem_of_filter by (rewrite E; left).
  by apply (Hl x).
Qed.

(** A [take_while] over a list where the test is downward closed. *)
Fixpoint take_while {A} (f : A -> bool) (l : list A) : list A :=
  match l with
  | [] => []
  | x :: l => if f x then x :: take_while f l else []
  end.

Lemma take_while_sorted {A} (R : relation A) (f : A -> bool) l :
  StronglySorted R l -> (forall x y, R x y -> f y = true -> f x = true) ->
  take_while f l = filter (fun x => f x = true) l.
Proof.
  intros Hs Hdown. induction Hs as [|x l Hs IH Hx]; simpl; [done|].
  rewrite filter_cons. destruct (f x) eqn:E; [rewrite decide_True by done; by rewrite IH|].
  rewrite decide_False by congruence. symmetry. apply filter_none.
  rewrite list.Forall_forall in Hx. intros y Hy Hfy.
  rewrite (Hdown x y) in E; [done | by apply Hx | done].
Qed.

Lemma msum_fmap {K A B} `{Countable K} (g : B -> N) (h : A -> B) (m : gmap K A) :
  msum g (h <$> m) = msum (fun x => g (h x)) m.
Proof.
  induction m as [|k v m Hk IH] using map_ind; [by rewrite fmap_empty, !msum_empty|].
  rewrite fmap_insert, !msum_insert_new by (done || by rewrite lookup_fmap, Hk). by rewrite IH.
Qed.

Lemma sumN_filter {A} (P : A -> Prop) `{forall x, Decision (P x)} (f : A -> N) l :
  sumN f (filter P l) = sumN (fun x => if decide (P x) then f x else 0) l.
Proof.
  induction l as [|x l IH]; [done|]. rewrite filter_cons. simpl. unfold sumN in *. simpl.
  destruct (decide (P x)); simpl; by rewrite IH.
Qed.

(** * Deleting a list of keys *)

Lemma lookup_foldl_delete {K V} `{Countable K} (m : gmap K V) ks j :
  foldl (fun m k => delete k m) m ks !! j = if decide (j ∈ ks) then None else m !! j.
Proof.
  revert m. induction ks as [|k ks IH]; intros m; cbn [foldl].
  - by rewrite decide_False by apply not_elem_of_nil.
  - rewrite IH, lookup_delete. repeat case_decide; set_solver.
Qed.

Lemma msum_foldl_delete {K V} `{Countable K} (f : V -> N) (m : gmap K V) ks :
  NoDup ks -> (forall k, k ∈ ks -> is_Some (m !! k)) ->
  msum f m = sumN (fun k => from_option f 0 (m !! k)) ks
             + msum f (foldl (fun m k => delete k m) m ks).
Proof.
  revert m. induction ks as [|k ks IH]; intros m Hnd Hks; simpl; [lia|].
  apply NoDup_cons in Hnd as [Hk Hnd]. destruct (Hks k) as [v Hv]; [left|].
  rewrite (msum_delete f m k v Hv), Hv. simpl.
  rewrite (IH (delete k m)); [|done|].
  - rewrite (sumN_ext (fun k' => from_option f 0 (delete k m !! k'))
      (fun k' => from_option f 0 (m !! k'))); [lia|].
    intros k' Hk'. rewrite lookup_delete_ne; [done|]. by intros ->.
  - intros k' Hk'. rewrite lookup_delete_ne by (by intros ->). apply Hks. by right.
Qed.

(** A fold whose every step adds, as long as the sum fits. *)
Lemma try_fold_sum_le {E A} (f : N -> A -> result E N) (g : A -> N) max l acc :
  (forall b x, x ∈ l -> b + g x <= max -> f b x = Ok (b + g x)) ->
  acc + sumN g l <= max -> try_fold f acc l = Ok (acc + sumN g l).
Proof.
  revert acc. induction l as [|x l IH]; intros acc Hf Hmax; simpl in *; [f_equal; lia|].
  rewrite Hf by (left || lia). simpl. rewrite IH; [f_equal; lia | | lia].
  intros b y Hy. apply Hf. by right.
Qed.
