(* ===== verification/Decimal.v ===== *)
(** Decimal text: the digits of [pretty], their value, and their number. *)
From stdpp Require Import prelude strings pretty.
From S2P Require Import Prelude.
#[local] Open Scope N_scope.

Definition digit (c : N) : Prop := 48 <= c <= 57.
#[export] Instance digit_dec c : Decision (digit c).
Proof. apply and_dec; apply _. Defined.

Lemma pretty_char_value x : x < 10 -> Ascii.N_of_ascii (pretty_N_char x) = 48 + x.
Proof.
  intros Hx%elem_of_rangeN. revert Hx. vm_compute rangeN. rewrite !elem_of_cons, elem_of_nil. intros Hx.
  by repeat destruct Hx as [->|Hx].
Qed.

Lemma pretty_digit x : x < 10 -> digit (Ascii.N_of_ascii (pretty_N_char x)).
Proof. intros Hx. rewrite pretty_char_value by done. unfold digit. lia. Qed.

Lemma pretty_go_digits x s :
  Forall digit (string_bytes s) -> Forall digit (string_bytes (pretty_N_go x s)).
Proof.
  revert s. induction (N.lt_wf_0 x) as [x _ IH]; intros s Hs.
  destruct (decide (x = 0)) as [->|Hx]; [done|]. rewrite pretty_N_go_step by lia.
  apply IH; [apply N.div_lt; lia|]. simpl. constructor; [|done]. apply pretty_digit, N.mod_lt. lia.
Qed.

Lemma pretty_go_nonempty x s : s <> "" -> pretty_N_go x s <> "".
Proof.
  revert s. induction (N.lt_wf_0 x) as [x _ IH]; intros s Hs.
  destruct (decide (x = 0)) as [->|Hx]; [done|]. rewrite pretty_N_go_step by lia.
  by apply IH; [apply N.div_lt; lia|].
Qed.

Lemma pretty_digits (n : N) : Forall digit (string_bytes (pretty n)).
Proof.
  unfold pretty, pretty_N. case_decide; [|by apply pretty_go_digits].
  repeat constructor; vm_compute; discriminate.
Qed.

Lemma pretty_nonempty (n : N) : exists d l, string_bytes (pretty n) = d :: l /\ digit d.
Proof.
  assert (pretty n <> "") as Hne.
  { unfold pretty, pretty_N. case_decide; [done|]. rewrite pretty_N_go_step by lia.
    by apply pretty_go_nonempty. }
  pose proof (pretty_digits n) as H. destruct (pretty n) as [|c s]; [done|].
  simpl in *. apply Forall_cons in H as [H _]. by eexists _, _.
Qed.

Lemma pretty_go (n : N) : 0 < n -> pretty n = pretty_N_go n "".
Proof. intros Hn. unfold pretty, pretty_N. by rewrite decide_False by lia. Qed.

(** Reading digits, most significant first. *)
Definition read_digit (acc b : N) : N := 10 * acc + (b - 48).
Definition read_decimal (l : list N) : N := foldl read_digit 0 l.

Lemma read_go x s :
  foldl read_digit 0 (string_bytes (pretty_N_go x s)) = foldl read_digit x (string_bytes s).
Proof.
  revert s. induction (N.lt_wf_0 x) as [x _ IH]; intros s.
  destruct (decide (x = 0)) as [->|Hne]; [by rewrite pretty_N_go_0|]. rewrite pretty_N_go_step by lia.
  rewrite IH by (apply N.div_lt; lia). cbn [string_bytes foldl].
  rewrite pretty_char_value by (apply N.mod_lt; lia). f_equal. unfold read_digit.
  pose proof (N.Div0.div_mod x 10). remember (x / 10) as q. remember (x mod 10) as r. lia.
Qed.

Lemma read_pretty (n : N) : read_decimal (string_bytes (pretty n)) = n.
Proof.
  destruct (decide (n = 0)) as [->|Hn]; [done|]. unfold read_decimal.
  by rewrite pretty_go, read_go by lia.
Qed.

(** A number below [10 ^ k] has at most [k] digits. *)
Lemma length_go k x s :
  x < 10 ^ N.of_nat k -> (String.length (pretty_N_go x s) <= k + String.length s)%nat.
Proof.
  revert x s. induction k as [|k IH]; intros x s Hx.
  - change (10 ^ N.of_nat 0) with 1 in Hx. assert (x = 0) as -> by lia. by rewrite pretty_N_go_0.
  - destruct (decide (x = 0)) as [->|Hne]; [rewrite pretty_N_go_0; lia|]. rewrite pretty_N_go_step by lia.
    etrans; [apply IH|simpl; lia]. rewrite Nat2N.inj_succ, N.pow_succ_r' in Hx.
    apply N.Div0.div_lt_upper_bound. lia.
Qed.

Lemma length_pretty (n : N) k :
  (0 < k)%nat -> n < 10 ^ N.of_nat k -> (length (string_bytes (pretty n)) <= k)%nat.
Proof.
  intros Hk Hn. rewrite length_string_bytes. destruct (decide (n = 0)) as [->|Hne]; [done|].
  rewrite pretty_go by lia. pose proof (length_go k n "" Hn). simpl in *. lia.
Qed.
