(* ===== verification/SimModel.v ===== *)
(** The closed data model of the cache-policy simulator
    (crates/runnel-sim/src/model.rs and error.rs): the page catalog, the event
    stream, the policy settings and the typed errors.  Interpolated values of
    error messages are dropped; the constructor and the fixed text stay.

    Checked byte and event accounting of the simulator
    (crates/runnel-sim/src/metrics.rs).  The struct of thirty [u64] counters is
    a total function from the enumeration of its field names. *)
From stdpp Require Import prelude gmap strings.
From S2P Require Import Prelude.
#[local] Open Scope N_scope.

(** error.rs: [SimError]. *)
Inductive SimError : Type :=
| Io
| TraceInputSymlink
| TraceInputNotRegular
| TraceInputTooLarge (observed_at_least limit : N)
| TraceInputChanged (initial bytes_read final_length : N)
| Json
| InvalidTrace (message : string)
| InvalidConfig (message : string)
| CounterOverflow (name : string)
| UnsupportedOracleGeometry (message : string)
| ExactOracleLimit (message : string).

Abbreviation invalid_trace := InvalidTrace (only parsing).
Abbreviation invalid_config := InvalidConfig (only parsing).

(** [PageId] is a transparent newtype over [u32]. *)
Abbreviation PageId := N (only parsing).

Definition TRACE_SCHEMA : string := "runnel.cache-trace/1".
Definition PREFETCH_MODEL : string := "instant-between-events-v1".
Definition RESULT_SCHEMA : string := "runnel.cache-result/1".

Module PageClass.
Inductive t : Type :=
| Shared
| Expert (layer expert ordinal : N).
End PageClass.

Module PageDescriptor.
Record t : Type := mk {
  id : PageId;
  logical_bytes : N;
  charge_bytes : N;
  class : PageClass.t
}.
End PageDescriptor.

Module ExpertPrediction.
Record t : Type := mk { expert : N; score_ppm : N }.
End ExpertPrediction.

Module TraceEvent.
Inductive t : Type :=
| RouterSignal (sequence request target_step layer : N) (predictions : list ExpertPrediction.t)
| Demand (sequence request step : N) (page : PageId).

Definition sequence (e : t) : N :=
  match e with RouterSignal s _ _ _ _ | Demand s _ _ _ => s end.
End TraceEvent.

Module TraceHeader.
Record t : Type := mk {
  kind : string;
  schema : string;
  trace_id : string;
  page_count : N;
  event_count : N;
  charge_quantum : N;
  prefetch_model : string
}.
End TraceHeader.

(** The read-only catalog projection handed to online policies. *)
Module PageCatalog.
Record t : Type := mk {
  pages : list PageDescriptor.t;
  page_index : gmap PageId nat;
  expert_pages_of : gmap (N * N) (list PageId)
}.

(** [&self.pages[self.page_index[&id]]]: both indexings panic out of range. *)
Definition page (c : t) (id : PageId) : result SimError PageDescriptor.t :=
  i ← expect (page_index c !! id); expect (pages c !! i).

Definition expert_pages (c : t) (layer expert : N) : list PageId :=
  default [] (expert_pages_of c !! (layer, expert)).
End PageCatalog.

Module ValidatedTrace.
Record t : Type := mk {
  header : TraceHeader.t;
  pages : list PageDescriptor.t;
  page_index : gmap PageId nat;
  expert_pages_of : gmap (N * N) (list PageId);
  events : list TraceEvent.t;
  sha256 : string
}.

Definition catalog (t : t) : PageCatalog.t :=
  PageCatalog.mk (pages t) (page_index t) (expert_pages_of t).
Definition page (t : t) (id : PageId) : result SimError PageDescriptor.t :=
  PageCatalog.page (catalog t) id.
Definition expert_pages (t : t) (layer expert : N) : list PageId :=
  PageCatalog.expert_pages (catalog t) layer expert.
End ValidatedTrace.

Module SimLimits.
Record t : Type := mk {
  max_trace_bytes : N;
  max_line_bytes : N;
  max_pages : N;
  max_events : N;
  max_predictions_per_signal : N;
  max_exact_oracle_states : N
}.

Definition default : t :=
  mk (5 * 1024 * 1024) (16 * 1024) 4096 100000 16 1000000.
End SimLimits.

Module TinyLfuConfig.
Record t : Type := mk {
  sketch_depth : N;
  sketch_width : N;
  sample_accesses : N
}.

Definition m3 (estimated_entries : N) : result SimError t :=
  sample_accesses ← ok_or (checked_mul u64_max (N.max estimated_entries 1) 10)
    (invalid_config "TinyLFU M3 sample_accesses overflows u64");
  Ok (mk 4 2048 sample_accesses).
End TinyLfuConfig.

Module RouterPolicyConfig.
Record t : Type := mk {
  protected_fraction_ppm : N;
  minimum_score_ppm : N;
  max_experts_per_signal : N;
  max_pages_per_signal : N;
  max_prefetch_bytes_per_signal : N
}.
End RouterPolicyConfig.

Module PolicySpec.
Inductive t : Type :=
| NoCache
| Lru
| Slru (protected_fraction_ppm : N)
| TinyLfu (config : TinyLfuConfig.t)
| RouterAdmit (config : RouterPolicyConfig.t)
| RouterPrefetch (config : RouterPolicyConfig.t)
| Belady.

Definition name (p : t) : string :=
  match p with
  | NoCache => "no-cache"
  | Lru => "lru"
  | Slru _ => "slru"
  | TinyLfu _ => "tiny-lfu"
  | RouterAdmit _ => "router-admit"
  | RouterPrefetch _ => "router-prefetch"
  | Belady => "belady"
  end.
End PolicySpec.

Module SimulationConfig.
Record t : Type := mk { capacity_bytes : N; policy : PolicySpec.t }.
End SimulationConfig.

Inductive Counter : Set :=
| demand_accesses | demand_logical_bytes
| ordinary_demand_hits | ordinary_demand_hit_bytes
| useful_prefetch_hits | useful_prefetch_hit_bytes
| demand_misses | demand_miss_bytes | demand_load_bytes
| prefetch_offered | prefetch_offered_bytes
| prefetch_admitted | prefetch_load_bytes
| prefetch_useful | prefetch_useful_bytes
| prefetch_wasted | prefetch_wasted_bytes
| prefetch_redundant | prefetch_redundant_bytes
| prefetch_dropped | prefetch_dropped_bytes
| admissions | bypasses | evictions | evicted_charge_bytes
| final_resident_charge_bytes | peak_resident_charge_bytes
| policy_metadata_bytes | policy_metadata_limit_bytes
| total_physical_load_bytes.

#[export] Instance Counter_eq_dec : EqDecision Counter.
Proof. solve_decision. Defined.

Module SimulationMetrics.
Definition t : Type := Counter -> N.

Definition default : t := fun _ => 0.

(** Assignment to one field. *)
Definition set (c : Counter) (v : N) (m : t) : t := fun c' => if decide (c = c') then v else m c'.

(** [add]: [*target = target.checked_add(value).ok_or(CounterOverflow(name))?]. *)
Definition add (c : Counter) (value : N) (name : string) (m : t) : result SimError t :=
  v ← ok_or (checked_add u64_max (m c) value) (CounterOverflow name);
  Ok (set c v m).

Definition checked_add3 (a b c : N) : option N :=
  v ← checked_add u64_max a b; checked_add u64_max v c.

Definition finish (m : t) : result SimError t :=
  total ← ok_or (checked_add u64_max (m demand_load_bytes) (m prefetch_load_bytes))
            (CounterOverflow "total_physical_load_bytes");
  let m := set total_physical_load_bytes total m in
  hits ← ok_or (checked_add3 (m ordinary_demand_hits) (m useful_prefetch_hits) (m demand_misses))
            (CounterOverflow "demand_accesses identity");
  _ ← guard_err (negb (hits =? m demand_accesses))
        (invalid_config "demand hit/miss accounting identity failed");
  bytes ← ok_or (checked_add3 (m ordinary_demand_hit_bytes) (m useful_prefetch_hit_bytes)
                   (m demand_miss_bytes))
            (CounterOverflow "demand_logical_bytes identity");
  _ ← guard_err (negb (bytes =? m demand_logical_bytes))
        (invalid_config "demand byte accounting identity failed");
  _ ← guard_err (negb (m demand_load_bytes =? m demand_miss_bytes))
        (invalid_config "every modeled demand miss must account one physical fill");
  classified_offers ← ok_or (checked_add3 (m prefetch_admitted) (m prefetch_redundant)
                               (m prefetch_dropped))
            (CounterOverflow "prefetch offer identity");
  _ ← guard_err (negb (classified_offers =? m prefetch_offered))
        (invalid_config "prefetch offer classification identity failed");
  classified_offer_bytes ← ok_or (checked_add3 (m prefetch_load_bytes) (m prefetch_redundant_bytes)
                                    (m prefetch_dropped_bytes))
            (CounterOverflow "prefetch offer byte identity");
  _ ← guard_err (negb (classified_offer_bytes =? m prefetch_offered_bytes))
        (invalid_config "prefetch offer byte classification identity failed");
  classified_prefetches ← ok_or (checked_add u64_max (m prefetch_useful) (m prefetch_wasted))
            (CounterOverflow "prefetch count identity");
  _ ← guard_err (negb (classified_prefetches =? m prefetch_admitted))
        (invalid_config "admitted prefetch classification identity failed");
  classified_prefetch_bytes ← ok_or (checked_add u64_max (m prefetch_useful_bytes)
                                       (m prefetch_wasted_bytes))
            (CounterOverflow "prefetch byte identity");
  _ ← guard_err (negb (classified_prefetch_bytes =? m prefetch_load_bytes))
        (invalid_config "prefetch byte classification identity failed");
  Ok m.
End SimulationMetrics.

(** * Accounting invariant *)

(** Every failure the kernel may report on a validated trace is a checked
    counter that reached the end of its range. *)
Definition overflow_only (e : SimError) : Prop := exists name, e = CounterOverflow name.

Lemma overflow_only_intro name : overflow_only (CounterOverflow name).
Proof. by exists name. Qed.
Create HintDb sim.
#[export] Hint Resolve overflow_only_intro : sim.

Section metrics.
Implicit Types m : SimulationMetrics.t.

Lemma counter_set_eq c v m : SimulationMetrics.set c v m c = v.
Proof. unfold SimulationMetrics.set. by rewrite decide_True. Qed.

Lemma counter_set_ne c c' v m : c <> c' -> SimulationMetrics.set c v m c' = m c'.
Proof. intros. unfold SimulationMetrics.set. by rewrite decide_False. Qed.

Lemma post_add c v name m Q (X : SimError -> Prop) :
  (m c + v <= u64_max -> Q (SimulationMetrics.set c (m c + v) m)) ->
  X (CounterOverflow name) -> post (SimulationMetrics.add c v name m) Q X.
Proof. intros HQ HX. unfold SimulationMetrics.add. apply post_bind. by apply post_checked_add. Qed.

(** Events counted but not yet classified, in the middle of an operation:
    offers and demands, with their bytes. *)
Record slack : Type := Slack {
  offers : N; offer_bytes : N; demands : N; demand_bytes : N
}.
Definition settled : slack := Slack 0 0 0 0.

(** The identities [finish] re-checks, for a kernel that still holds
    [unused] unclaimed prefetched pages of [unused_bytes] logical bytes and
    has yet to classify the events of [s]. *)
Record accounting (m : SimulationMetrics.t) (unused unused_bytes : N) (s : slack) : Prop := {
  acc_accesses :
    m ordinary_demand_hits + m useful_prefetch_hits + m demand_misses + demands s
    = m demand_accesses;
  acc_bytes :
    m ordinary_demand_hit_bytes + m useful_prefetch_hit_bytes + m demand_miss_bytes
    + demand_bytes s = m demand_logical_bytes;
  acc_loads : m demand_load_bytes = m demand_miss_bytes;
  acc_offers :
    m prefetch_admitted + m prefetch_redundant + m prefetch_dropped + offers s = m prefetch_offered;
  acc_offer_bytes :
    m prefetch_load_bytes + m prefetch_redundant_bytes + m prefetch_dropped_bytes + offer_bytes s
    = m prefetch_offered_bytes;
  acc_prefetches : m prefetch_useful + m prefetch_wasted + unused = m prefetch_admitted;
  acc_prefetch_bytes :
    m prefetch_useful_bytes + m prefetch_wasted_bytes + unused_bytes = m prefetch_load_bytes;
  acc_width : forall c, m c <= u64_max
}.

Lemma accounting_default : accounting SimulationMetrics.default 0 0 settled.
Proof. by split. Qed.

Lemma checked_add3_Some a b c :
  a + b + c <= u64_max -> SimulationMetrics.checked_add3 a b c = Some (a + b + c).
Proof.
  intros H. unfold SimulationMetrics.checked_add3, checked_add.
  destruct (N.leb_spec (a + b) u64_max); [|lia]. simpl.
  destruct (N.leb_spec (a + b + c) u64_max); [done | lia].
Qed.
End metrics.

(** Evaluate the reads of updated counters. *)
Ltac metrics_simpl :=
  repeat (rewrite counter_set_eq || (rewrite counter_set_ne by discriminate)).
(** Prove an [accounting] goal about updated counters from one about the old. *)
Ltac metrics_solve H :=
  destruct H; split; simpl in *; metrics_simpl; try lia;
  let c := fresh "c" in
  intros c; unfold SimulationMetrics.set; repeat case_decide; subst; try lia; auto.

(** One checked identity of [finish], whose two sides agree. *)
Lemma post_identity3 {A} a b c v (e1 e2 : SimError) (f : unit -> result SimError A) Q X :
  a + b + c = v -> v <= u64_max -> post (f tt) Q X ->
  post (ok_or (SimulationMetrics.checked_add3 a b c) e1 ≫=
        fun s => guard_err (negb (s =? v)) e2 ≫= f) Q X.
Proof.
  intros <- ? ?. rewrite checked_add3_Some by done. simpl. by rewrite N.eqb_refl.
Qed.

Lemma post_identity2 {A} a b v (e1 e2 : SimError) (f : unit -> result SimError A) Q X :
  a + b = v -> v <= u64_max -> post (f tt) Q X ->
  post (ok_or (checked_add u64_max a b) e1 ≫= fun s => guard_err (negb (s =? v)) e2 ≫= f) Q X.
Proof.
  intros <- ? ?. unfold checked_add. destruct (N.leb_spec (a + b) u64_max); [|lia].
  simpl. by rewrite N.eqb_refl.
Qed.

(** Once every prefetch is settled, [finish] can only fail on the total of the
    two load counters, and otherwise only fills in that total. *)
Lemma finish_spec m :
  accounting m 0 0 settled ->
  post (SimulationMetrics.finish m)
    (fun m' => m' = SimulationMetrics.set total_physical_load_bytes
                      (m demand_load_bytes + m prefetch_load_bytes) m
               /\ m demand_load_bytes + m prefetch_load_bytes <= u64_max)
    (fun e => e = CounterOverflow "total_physical_load_bytes"
              /\ u64_max < m demand_load_bytes + m prefetch_load_bytes).
Proof.
  intros []. simpl in *. unfold SimulationMetrics.finish. apply post_bind.
  unfold checked_add at 1.
  destruct (N.leb_spec (m demand_load_bytes + m prefetch_load_bytes) u64_max); [|done].
  simpl. metrics_simpl.
  apply post_identity3; [lia | done |]. apply post_identity3; [lia | done |].
  rewrite (proj2 (N.eqb_eq _ _) acc_loads0). simpl.
  apply post_identity3; [lia | done |]. apply post_identity3; [lia | done |].
  apply post_identity2; [lia | done |]. apply post_identity2; [lia | done |].
  done.
Qed.
