(* ===== verification/SimPolicy.v ===== *)
(** The online policy state of the simulator
    (crates/runnel-sim/src/policy/mod.rs): TinyLFU's sketch, the router-signal
    ledger, SLRU promotion and the victim plans. *)
From stdpp Require Import prelude gmap strings sorting.
From S2P Require Import Prelude SimModel.
#[local] Open Scope N_scope.

Definition PPM : N := 1000000.
Definition SKETCH_COUNTER_MAX : N := 15.
Definition ROUTER_SIGNAL_BASE_BYTES : N := 24.
Definition ROUTER_PREDICTION_BYTES : N := 8.
Definition HASH_SEEDS : list N :=
  [0x243f6a8885a308d3; 0x13198a2e03707344; 0xa4093822299f31d0; 0x082efa98ec4e6c89;
   0x452821e638d01377; 0xbe5466cf34e90c6c; 0xc0ac29b7c97c50dd; 0x3f84d5b5b5470917].

(** [u64::try_from] of a [usize] never fails on a 64-bit target. *)
Definition router_signal_metadata_bytes (prediction_count : N) : result SimError N :=
  predictions ← ok_or (if prediction_count <=? u64_max then Some prediction_count else None)
    (CounterOverflow "router prediction count");
  scaled ← ok_or (checked_mul u64_max predictions ROUTER_PREDICTION_BYTES)
    (CounterOverflow "router prediction metadata");
  ok_or (checked_add u64_max ROUTER_SIGNAL_BASE_BYTES scaled)
    (CounterOverflow "router signal metadata").

Module Segment.
Inductive t : Set := Lru | Probation | Protected.
#[global] Instance eq_dec : EqDecision t.
Proof. solve_decision. Defined.
End Segment.

Module ResidentEntry.
Record t : Type := mk {
  page : PageId;
  charge_bytes : N;
  logical_bytes : N;
  last_touch : N;
  segment : Segment.t;
  prefetched_unused : bool
}.
Definition set_last_touch (v : N) (e : t) : t :=
  mk (page e) (charge_bytes e) (logical_bytes e) v (segment e) (prefetched_unused e).
Definition set_segment (v : Segment.t) (e : t) : t :=
  mk (page e) (charge_bytes e) (logical_bytes e) (last_touch e) v (prefetched_unused e).
Definition set_prefetched_unused (v : bool) (e : t) : t :=
  mk (page e) (charge_bytes e) (logical_bytes e) (last_touch e) (segment e) v.
End ResidentEntry.

Abbreviation Residents := (gmap N ResidentEntry.t).

Module DemandPlan.
Record t : Type := mk {
  resident_bytes : N;
  capacity_bytes : N;
  candidate : PageDescriptor.t;
  request : N;
  step : N
}.
End DemandPlan.

Module PrefetchPlan.
Record t : Type := mk {
  resident_bytes : N;
  capacity_bytes : N;
  absent_pages : list PageId;
  request : N;
  target_step : N;
  candidate_score : N
}.
End PrefetchPlan.

(** [ActiveSignal] holds the score of each predicted expert; signals are keyed
    by request, then by target step and layer. *)
Abbreviation ActiveSignal := (gmap N N).
Abbreviation ActiveSignals := (gmap N (gmap (N * N) (gmap N N))).

(** * TinyLFU *)

Module TinyLfu.
Record t : Type := mk {
  depth : N;
  width : N;
  counters : list N;
  doorkeeper : list N;
  sample_accesses : N;
  observed : N
}.

Definition new (config : TinyLfuConfig.t) : result SimError t :=
  let d := TinyLfuConfig.sketch_depth config in
  let w := TinyLfuConfig.sketch_width config in
  _ ← guard_err (negb ((1 <=? d) && (d <=? lenN HASH_SEEDS)))
        (invalid_config "TinyLFU sketch_depth must be between 1 and 8");
  _ ← guard_err (negb ((64 <=? w) && (w <=? 65536)))
        (invalid_config "TinyLFU sketch_width must be between 64 and 65536");
  _ ← guard_err (TinyLfuConfig.sample_accesses config =? 0)
        (invalid_config "TinyLFU sample_accesses must be positive");
  counter_len ← ok_or (checked_mul usize_max d w)
        (invalid_config "TinyLFU sketch allocation overflows");
  door_sum ← ok_or (checked_add usize_max w 7)
        (invalid_config "TinyLFU doorkeeper allocation overflows");
  Ok (mk d w (replicate (N.to_nat counter_len) 0) (replicate (N.to_nat (door_sum / 8)) 0)
        (TinyLfuConfig.sample_accesses config) 0).

Definition splitmix (value : N) : N :=
  let value := wrapping_add u64_max value 0x9e3779b97f4a7c15 in
  let value := wrapping_mul u64_max (N.lxor value (N.shiftr value 30)) 0xbf58476d1ce4e5b9 in
  let value := wrapping_mul u64_max (N.lxor value (N.shiftr value 27)) 0x94d049bb133111eb in
  N.lxor value (N.shiftr value 31).

(** The rows [0..self.depth]. *)
Definition rows (s : t) : list N := rangeN (depth s).

Definition column (s : t) (page : PageId) (row : N) : result SimError N :=
  seed ← expect (HASH_SEEDS !! N.to_nat row);
  Ok (splitmix (N.lxor page seed) mod width s).

Definition door_bit (s : t) (page : PageId) (row : N) : result SimError bool :=
  col ← column s page row;
  byte ← expect (doorkeeper s !! N.to_nat (col / 8));
  Ok (negb (N.land byte (N.shiftl 1 (col mod 8)) =? 0)).

(** [Iterator::all], which stops at the first failing row. *)
Fixpoint all_rows (s : t) (page : PageId) (rs : list N) : result SimError bool :=
  match rs with
  | [] => Ok true
  | row :: rs => b ← door_bit s page row; if b : bool then all_rows s page rs else Ok false
  end.
Definition door_contains (s : t) (page : PageId) : result SimError bool :=
  all_rows s page (rows s).

Definition set_doorkeeper (d : list N) (s : t) : t :=
  mk (depth s) (width s) (counters s) d (sample_accesses s) (observed s).
Definition set_counters (c : list N) (s : t) : t :=
  mk (depth s) (width s) c (doorkeeper s) (sample_accesses s) (observed s).
Definition set_observed (o : N) (s : t) : t :=
  mk (depth s) (width s) (counters s) (doorkeeper s) (sample_accesses s) o.

Definition set_door (s : t) (page : PageId) : result SimError t :=
  try_fold (fun s row =>
    col ← column s page row;
    byte ← expect (doorkeeper s !! N.to_nat (col / 8));
    Ok (set_doorkeeper
          (<[N.to_nat (col / 8) := N.lor byte (N.shiftl 1 (col mod 8))]> (doorkeeper s)) s))
    s (rows s).

Definition counter (s : t) (page : PageId) (row : N) : result SimError N :=
  col ← column s page row;
  expect (counters s !! N.to_nat (row * width s + col)).

(** [(0..depth).map(..).min().unwrap_or(0)]. *)
Definition list_min (l : list N) : N :=
  match l with [] => 0 | x :: l => foldl N.min x l end.
Definition minimum (s : t) (page : PageId) : result SimError N :=
  cs ← mapM (counter s page) (rows s); Ok (list_min cs).

Definition estimate (s : t) (page : PageId) : result SimError N :=
  m ← minimum s page;
  door ← door_contains s page;
  add_or_panic u64_max m (if door : bool then 1 else 0).

(** One row of the conservative update. *)
Definition bump (minimum : N) (page : PageId) (s : t) (row : N) : result SimError t :=
  col ← column s page row;
  let index := N.to_nat (row * width s + col) in
  c ← expect (counters s !! index);
  if c =? minimum
  then Ok (set_counters
             (<[index := N.min (saturating_add u8_max c 1) SKETCH_COUNTER_MAX]> (counters s)) s)
  else Ok s.

Definition age (s : t) : t :=
  mk (depth s) (width s) ((fun c => N.shiftr c 1) <$> counters s)
     (replicate (length (doorkeeper s)) 0) (sample_accesses s) (N.shiftr (observed s) 1).

Definition observe (s : t) (page : PageId) : result SimError t :=
  door ← door_contains s page;
  s ← (if door : bool
       then m ← minimum s page; try_fold (bump m page) s (rows s)
       else set_door s page);
  o ← add_or_panic u64_max (observed s) 1;
  let s := set_observed o s in
  Ok (if sample_accesses s <=? observed s then age s else s).

Definition metadata_bytes (s : t) : N := lenN (counters s) + lenN (doorkeeper s).
End TinyLfu.

(** * Policy state *)

Module Router.
Record t : Type := mk {
  protected_target : N;
  config : RouterPolicyConfig.t;
  prefetch : bool;
  active : ActiveSignals;
  current_metadata_bytes : N;
  peak_metadata_bytes : N;
  recorded_metadata_bytes : N;
  metadata_limit_bytes : N
}.
Definition set_active (a : ActiveSignals) (current : N) (r : t) : t :=
  mk (protected_target r) (config r) (prefetch r) a current
     (peak_metadata_bytes r) (recorded_metadata_bytes r) (metadata_limit_bytes r).
Definition set_recorded (a : ActiveSignals) (current peak recorded : N) (r : t) : t :=
  mk (protected_target r) (config r) (prefetch r) a current peak recorded
     (metadata_limit_bytes r).
End Router.

Module PolicyState.
(** [PolicyStateKind]; [PolicyState] is a one-field wrapper of it. *)
Inductive t : Type :=
| NoCache
| Lru
| Slru (protected_target : N)
| TinyLfuKind (tiny : TinyLfu.t)
| RouterKind (r : Router.t).

(** The closure [fraction_target]: the product is exact in [u128]. *)
Definition fraction_target (capacity_bytes fraction : N) : result SimError N :=
  _ ← guard_err (1000000 <? fraction)
        (invalid_config "protected_fraction_ppm exceeds one million");
  Ok (capacity_bytes * fraction / PPM).

Definition new_router (config : RouterPolicyConfig.t) (prefetch : bool)
    (capacity_bytes router_metadata_limit_bytes : N) : result SimError t :=
  _ ← guard_err (1000000 <? RouterPolicyConfig.minimum_score_ppm config)
        (invalid_config "router minimum_score_ppm exceeds one million");
  _ ← guard_err ((RouterPolicyConfig.max_experts_per_signal config =? 0)
                 || (RouterPolicyConfig.max_pages_per_signal config =? 0))
        (invalid_config "router expert and page limits must be positive");
  target ← fraction_target capacity_bytes (RouterPolicyConfig.protected_fraction_ppm config);
  Ok (RouterKind (Router.mk target config prefetch ∅ 0 0 0 router_metadata_limit_bytes)).

Definition new (spec : PolicySpec.t) (capacity_bytes router_metadata_limit_bytes : N)
    : result SimError t :=
  match spec with
  | PolicySpec.NoCache => Ok NoCache
  | PolicySpec.Lru => Ok Lru
  | PolicySpec.Slru ppm => target ← fraction_target capacity_bytes ppm; Ok (Slru target)
  | PolicySpec.TinyLfu config => tiny ← TinyLfu.new config; Ok (TinyLfuKind tiny)
  | PolicySpec.RouterAdmit config =>
      new_router config false capacity_bytes router_metadata_limit_bytes
  | PolicySpec.RouterPrefetch config =>
      new_router config true capacity_bytes router_metadata_limit_bytes
  | PolicySpec.Belady => Err (invalid_config "Belady does not use the online policy kernel")
  end.

Definition is_no_cache (p : t) : bool := match p with NoCache => true | _ => false end.
Definition prefetch_enabled (p : t) : bool :=
  match p with RouterKind r => Router.prefetch r | _ => false end.
Definition initial_segment (p : t) : Segment.t :=
  match p with
  | NoCache | Lru | TinyLfuKind _ => Segment.Lru
  | Slru _ | RouterKind _ => Segment.Probation
  end.

Definition observe_demand (p : t) (page : PageId) : result SimError t :=
  match p with
  | TinyLfuKind tiny => tiny ← TinyLfu.observe tiny page; Ok (TinyLfuKind tiny)
  | _ => Ok p
  end.

Definition enter_demand_step (p : t) (request step : N) : result SimError t :=
  match p with
  | RouterKind r =>
      match Router.active r !! request with
      | None => Ok p
      | Some signals =>
          let retired := take_while (fun key => key.1 <? step) (btree_keys signals) in
          retired_bytes ← try_fold (fun (total : N) (key : N * N) =>
              signal ← expect (signals !! key);
              bytes ← router_signal_metadata_bytes (N.of_nat (size (signal : ActiveSignal)));
              ok_or (checked_add u64_max total bytes) (CounterOverflow "retired router metadata"))
            0 retired;
          let signals := foldl (fun m key => delete key m) signals retired in
          let active := if decide (signals = ∅) then delete request (Router.active r)
                        else <[request := signals]> (Router.active r) in
          current ← ok_or (checked_sub (Router.current_metadata_bytes r) retired_bytes)
            (invalid_config "router metadata ledger underflow");
          Ok (RouterKind (Router.set_active active current r))
      end
  | _ => Ok p
  end.

Definition record_signal (p : t) (request target_step layer : N)
    (predictions : list ExpertPrediction.t) : result SimError t :=
  match predictions, p with
  | [], _ => Ok p
  | _, RouterKind r =>
      let scores : ActiveSignal := foldl (fun m pr =>
        <[ExpertPrediction.expert pr := ExpertPrediction.score_ppm pr]> m) ∅ predictions in
      _ ← guard_err (negb (size scores =? length predictions)%nat)
            (invalid_config "router signal contains duplicate selected experts");
      let signals := default ∅ (Router.active r !! request) in
      _ ← guard_err (bool_decide (is_Some (signals !! (target_step, layer))))
            (invalid_config "router signal target was recorded more than once");
      charge ← router_signal_metadata_bytes (N.of_nat (size scores));
      next_current ← ok_or (checked_add u64_max (Router.current_metadata_bytes r) charge)
            (CounterOverflow "current router metadata");
      next_recorded ← ok_or (checked_add u64_max (Router.recorded_metadata_bytes r) charge)
            (CounterOverflow "recorded router metadata");
      _ ← guard_err ((Router.metadata_limit_bytes r <? next_current)
                     || (Router.metadata_limit_bytes r <? next_recorded))
            (invalid_config "router metadata exceeded its precomputed ceiling");
      Ok (RouterKind (Router.set_recorded
            (<[request := <[(target_step, layer) := scores]> signals]> (Router.active r))
            next_current (N.max (Router.peak_metadata_bytes r) next_current) next_recorded r))
  | _, _ => Ok p
  end.

Definition active_score (p : t) (request step : N) (page : PageDescriptor.t) : N :=
  match p, PageDescriptor.class page with
  | RouterKind r, PageClass.Expert layer expert _ =>
      default 0 (signals ← Router.active r !! request;
                 signal ← (signals : gmap (N * N) ActiveSignal) !! (step, layer);
                 (signal : ActiveSignal) !! expert)
  | _, _ => 0
  end.

Definition router_config (p : t) : option RouterPolicyConfig.t :=
  match p with RouterKind r => Some (Router.config r) | _ => None end.

(** * Residents: promotion and demotion *)

(** Iterator [sum]: an unchecked addition per element. *)
Definition sum_or_panic {A} (f : A -> N) (l : list A) : result SimError N :=
  try_fold (fun acc x => add_or_panic u64_max acc (f x)) 0 l.

Definition protected_entries (residents : Residents) : list ResidentEntry.t :=
  filter (fun e => ResidentEntry.segment e = Segment.Protected) (btree_values residents).

(** The demotion [loop]; [fuel] bounds the number of iterations, and running
    out of it is reported as a panic (shown unreachable). *)
Fixpoint rebalance_protected (fuel : nat) (residents : Residents)
    (protected_target demotion_touch : N) : result SimError Residents :=
  match fuel with
  | O => Panic
  | S fuel =>
      protected_bytes ← sum_or_panic ResidentEntry.charge_bytes (protected_entries residents);
      if protected_bytes <=? protected_target then Ok residents
      else
        victim ← expect (min_by_key
            (fun e => [Z.of_N (ResidentEntry.last_touch e); Z.of_N (ResidentEntry.page e)])
            (protected_entries residents));
        let key := ResidentEntry.page victim in
        demoted ← expect (residents !! key);
        rebalance_protected fuel
          (<[key := ResidentEntry.set_last_touch demotion_touch
                      (ResidentEntry.set_segment Segment.Probation demoted)]> residents)
          protected_target demotion_touch
  end.

Definition protected_target_of (p : t) : option N :=
  match p with
  | Slru target => Some target
  | RouterKind r => Some (Router.protected_target r)
  | _ => None
  end.

Definition on_hit (p : t) (residents : Residents) (page : PageId) (touch : N)
    : result SimError Residents :=
  match residents !! page with
  | None => Ok residents
  | Some entry =>
      let entry := ResidentEntry.set_last_touch touch entry in
      match protected_target_of p with
      | Some target =>
          if bool_decide (ResidentEntry.segment entry = Segment.Probation)
             && (0 <? target) && (ResidentEntry.charge_bytes entry <=? target)
          then rebalance_protected (S (size residents))
                 (<[page := ResidentEntry.set_segment Segment.Protected entry]> residents)
                 target touch
          else Ok (<[page := entry]> residents)
      | None => Ok (<[page := entry]> residents)
      end
  end.

(** * Victim plans *)

Definition segment_rank (p : t) (e : ResidentEntry.t) : N :=
  match p with
  | Slru _ | RouterKind _ =>
      match ResidentEntry.segment e with
      | Segment.Probation => 0
      | Segment.Protected => 1
      | Segment.Lru => 2
      end
  | _ => 0
  end.

(** [sort_by_key] whose key reads the catalog: the keys are computed first. *)
Definition try_sort_by_key (key : ResidentEntry.t -> result SimError (list Z))
    (l : list ResidentEntry.t) : result SimError (list ResidentEntry.t) :=
  keyed ← mapM (fun e => k ← key e; Ok (k, e)) l;
  Ok (snd <$> sort_by_key fst keyed).

(** The victim loop of [plan_demand_victims]: push, account, stop once enough. *)
Fixpoint collect_victims (needed : N) (ordered : list ResidentEntry.t)
    (victims : list PageId) (bytes : N) : result SimError (list PageId * N) :=
  match ordered with
  | [] => Ok (victims, bytes)
  | entry :: ordered =>
      let victims := victims ++ [ResidentEntry.page entry] in
      bytes ← ok_or (checked_add u64_max bytes (ResidentEntry.charge_bytes entry))
        (CounterOverflow "victim plan bytes");
      if needed <=? bytes then Ok (victims, bytes)
      else collect_victims needed ordered victims bytes
  end.

Definition sum_charges (residents : Residents) (victims : list PageId) (name : string)
    : result SimError N :=
  try_fold (fun total id =>
    e ← expect (residents !! id);
    ok_or (checked_add u128_max total (ResidentEntry.charge_bytes e)) (CounterOverflow name))
    0 victims.

Definition admit_demand (p : t) (catalog : PageCatalog.t) (residents : Residents)
    (candidate : PageDescriptor.t) (victims : list PageId) (request step : N)
    : result SimError bool :=
  match p, victims with
  | TinyLfuKind tiny, _ :: _ =>
      candidate_frequency ← TinyLfu.estimate tiny (PageDescriptor.id candidate);
      victim_charge ← sum_charges residents victims "TinyLFU victim charge";
      victim_frequency ← try_fold (fun total id =>
          f ← TinyLfu.estimate tiny id;
          ok_or (checked_add u128_max total f) (CounterOverflow "TinyLFU victim frequency"))
        0 victims;
      lhs ← ok_or (checked_mul u128_max candidate_frequency victim_charge)
              (CounterOverflow "TinyLFU candidate density");
      rhs ← ok_or (checked_mul u128_max victim_frequency (PageDescriptor.charge_bytes candidate))
              (CounterOverflow "TinyLFU victim density");
      Ok (rhs <? lhs)
  | RouterKind r, _ =>
      if decide (Router.active r = ∅) then Ok true
      else
        let candidate_score := active_score p request step candidate in
        victim_charge ← sum_charges residents victims "router victim charge";
        victim_score ← try_fold (fun total id =>
            page ← PageCatalog.page catalog id;
            ok_or (checked_add u128_max total (active_score p request step page))
              (CounterOverflow "router victim score"))
          0 victims;
        if (candidate_score =? 0) && (victim_score =? 0) then Ok true
        else
          lhs ← ok_or (checked_mul u128_max candidate_score victim_charge)
                  (CounterOverflow "router candidate density");
          rhs ← ok_or (checked_mul u128_max victim_score (PageDescriptor.charge_bytes candidate))
                  (CounterOverflow "router victim density");
          Ok (rhs <? lhs)
  | _, _ => Ok true
  end.

Definition plan_demand_victims (p : t) (catalog : PageCatalog.t) (residents : Residents)
    (plan : DemandPlan.t) : result SimError (option (list PageId)) :=
  let candidate := DemandPlan.candidate plan in
  let charge := PageDescriptor.charge_bytes candidate in
  let capacity := DemandPlan.capacity_bytes plan in
  let request := DemandPlan.request plan in
  let step := DemandPlan.step plan in
  if (capacity <? charge) || is_no_cache p then Ok None
  else
    available ← sub_or_panic capacity (DemandPlan.resident_bytes plan);
    if charge <=? available then Ok (Some [])
    else
      let needed := charge - available in
      ordered ← try_sort_by_key (fun entry =>
          page ← PageCatalog.page catalog (ResidentEntry.page entry);
          Ok [Z.of_N (segment_rank p entry); Z.of_N (active_score p request step page);
              Z.of_N (ResidentEntry.last_touch entry); Z.of_N (ResidentEntry.page entry)])
        (btree_values residents);
      '(victims, bytes) ← collect_victims needed ordered [] 0;
      if bytes <? needed then Ok None
      else
        admits ← admit_demand p catalog residents candidate victims request step;
        Ok (if admits : bool then Some victims else None).

(** The probation loop of [plan_prefetch_victims]. *)
Fixpoint collect_probation (p : t) (catalog : PageCatalog.t) (request target_step needed : N)
    (probation : list ResidentEntry.t) (victims : list PageId) (victim_bytes weighted : N)
    : result SimError (list PageId * N * N) :=
  match probation with
  | [] => Ok (victims, victim_bytes, weighted)
  | entry :: probation =>
      page ← PageCatalog.page catalog (ResidentEntry.page entry);
      let score := active_score p request target_step page in
      let victims := victims ++ [ResidentEntry.page entry] in
      victim_bytes ← ok_or (checked_add u64_max victim_bytes (ResidentEntry.charge_bytes entry))
        (CounterOverflow "prefetch victim bytes");
      weighted ← ok_or (checked_add u128_max weighted (score * ResidentEntry.charge_bytes entry))
        (CounterOverflow "prefetch victim score");
      if needed <=? victim_bytes then Ok (victims, victim_bytes, weighted)
      else collect_probation p catalog request target_step needed probation
             victims victim_bytes weighted
  end.

Definition plan_prefetch_victims (p : t) (catalog : PageCatalog.t) (residents : Residents)
    (plan : PrefetchPlan.t) : result SimError (option (list PageId)) :=
  let capacity := PrefetchPlan.capacity_bytes plan in
  let request := PrefetchPlan.request plan in
  let target_step := PrefetchPlan.target_step plan in
  required ← try_fold (fun total id =>
      page ← PageCatalog.page catalog id;
      ok_or (checked_add u64_max total (PageDescriptor.charge_bytes page))
        (CounterOverflow "prefetch group charge"))
    0 (PrefetchPlan.absent_pages plan);
  if capacity <? required then Ok None
  else
    available ← sub_or_panic capacity (PrefetchPlan.resident_bytes plan);
    if required <=? available then Ok (Some [])
    else
      let needed := required - available in
      probation ← try_sort_by_key (fun entry =>
          page ← PageCatalog.page catalog (ResidentEntry.page entry);
          Ok [Z.of_N (active_score p request target_step page);
              Z.of_N (ResidentEntry.last_touch entry); Z.of_N (ResidentEntry.page entry)])
        (filter (fun e => ResidentEntry.segment e = Segment.Probation) (btree_values residents));
      '(victims, victim_bytes, weighted_victim_score) ←
        collect_probation p catalog request target_step needed probation [] 0 0;
      if victim_bytes <? needed then Ok None
      else
        candidate_value ← ok_or (checked_mul u128_max (PrefetchPlan.candidate_score plan) required)
          (CounterOverflow "prefetch candidate score");
        if (0 <? weighted_victim_score) && (candidate_value <=? weighted_victim_score)
        then Ok None
        else Ok (Some victims).

Definition finish_metadata (p : t) : result SimError (N * N) :=
  match p with
  | TinyLfuKind tiny =>
      let bytes := TinyLfu.metadata_bytes tiny in Ok (bytes, bytes)
  | RouterKind r =>
      recomputed_current ← try_fold (fun total (signals : gmap (N * N) ActiveSignal) =>
          _ ← guard_err (bool_decide (signals = ∅))
                (invalid_config "router metadata retained an empty request map");
          try_fold (fun total (signal : ActiveSignal) =>
            _ ← guard_err (bool_decide (signal = ∅))
                  (invalid_config "router metadata retained an empty signal");
            bytes ← router_signal_metadata_bytes (N.of_nat (size signal));
            ok_or (checked_add u64_max total bytes) (CounterOverflow "recomputed router metadata"))
            total (btree_values signals))
        0 (btree_values (Router.active r));
      _ ← guard_err (negb (recomputed_current =? Router.current_metadata_bytes r))
            (invalid_config "router metadata ledger does not match live state");
      _ ← guard_err ((Router.peak_metadata_bytes r <? Router.current_metadata_bytes r)
                     || (Router.metadata_limit_bytes r <? Router.peak_metadata_bytes r))
            (invalid_config "router metadata peak/ceiling accounting failed");
      _ ← guard_err (negb (Router.recorded_metadata_bytes r =? Router.metadata_limit_bytes r))
            (invalid_config "router metadata did not consume its precomputed signal ceiling");
      Ok (Router.peak_metadata_bytes r, Router.metadata_limit_bytes r)
  | _ => Ok (0, 0)
  end.
End PolicyState.
