(* ===== verification/SimOracle.v ===== *)
(** The offline reference algorithms (crates/runnel-sim/src/oracle/mod.rs): the
    uniform-geometry Belady/MIN replay and the exact variable-byte dynamic
    program.  SHA-256 and hex encoding are third-party code: the decision digest
    is the function [sha256_hex] of the bytes the replay feeds to it. *)
From stdpp Require Import prelude gmap strings pretty.
From S2P Require Import Prelude SimModel.
#[local] Open Scope N_scope.

Definition MAX_EXACT_PAGES : N := 18.
Definition MAX_EXACT_DEMANDS : N := 200.
Definition DECISION_SCHEMA : string := "runnel.belady-decisions/1
".

(** * Belady/MIN *)

Module Belady.

Definition uniform_geometry (trace : ValidatedTrace.t) : result SimError (N * N) :=
  match ValidatedTrace.pages trace with
  | [] => Ok (1, 0)
  | first :: rest =>
      _ ← guard_err (PageDescriptor.charge_bytes first =? 0)
            (UnsupportedOracleGeometry "Belady requires a positive uniform charge");
      _ ← try_fold (fun (_ : unit) page =>
            _ ← guard_err (negb (PageDescriptor.charge_bytes page =? PageDescriptor.charge_bytes first))
                  (UnsupportedOracleGeometry "charge differs from uniform charge");
            guard_err (negb (PageDescriptor.logical_bytes page =? PageDescriptor.logical_bytes first))
              (UnsupportedOracleGeometry "logical cost differs from uniform cost"))
          tt rest;
      Ok (PageDescriptor.charge_bytes first, PageDescriptor.logical_bytes first)
  end.

Abbreviation Future := (gmap N (list N)).

Definition future_demands (trace : ValidatedTrace.t) : Future :=
  (foldl (fun '(future, ordinal) event =>
     match event with
     | TraceEvent.Demand _ _ _ page =>
         (<[page := default [] (future !! page) ++ [ordinal]]> future,
          saturating_add u64_max ordinal 1)
     | TraceEvent.RouterSignal _ _ _ _ _ => (future, ordinal)
     end) ((∅ : Future), 0) (ValidatedTrace.events trace)).1.

Definition pop_current_demand (future : Future) (page : PageId) : result SimError Future :=
  match future !! page with
  | Some (_ :: rest) => Ok (<[page := rest]> future)
  | _ => Err (invalid_config "Belady future-demand index became inconsistent")
  end.

Definition next_use (future : Future) (page : PageId) : N :=
  default u64_max (positions ← future !! page; head (positions : list N)).

(** The key [(next_use, *page == candidate, page.0)]. *)
Definition victim_key (candidate : PageId) (future : Future) (page : PageId) : list Z :=
  [Z.of_N (next_use future page);
   if page =? candidate then 1%Z else 0%Z;
   Z.of_N page].

(** A [BTreeSet<PageId>] iterates in ascending order. *)
Definition btree_set (s : gset N) : list N := sort_by_key (sort_key (K:=N)) (elements s).

Definition farthest_victim (residents : gset N) (candidate : PageId) (future : Future)
    : result SimError PageId :=
  expect (max_by_key (victim_key candidate future) (btree_set residents ++ [candidate])).

Record Replay : Type := mkReplay {
  future : Future;
  residents : gset N;
  resident_charge : N;
  metrics : SimulationMetrics.t;
  decisions : string;
  demand_ordinal : N
}.

Definition add (c : Counter) (v : N) (name : string) (r : Replay) : result SimError Replay :=
  m ← SimulationMetrics.add c v name (metrics r);
  Ok (mkReplay (future r) (residents r) (resident_charge r) m (decisions r) (demand_ordinal r)).

Definition update_decision (page : PageId) (action : string) (victim : option PageId) (r : Replay)
    : Replay :=
  let victim := match victim with None => "-" | Some id => pretty id end in
  let line := "demand=" +:+ pretty (demand_ordinal r) +:+ ";page=" +:+ pretty page
              +:+ ";action=" +:+ action +:+ ";victim=" +:+ victim +:+ "
" in
  mkReplay (future r) (residents r) (resident_charge r) (metrics r) (decisions r +:+ line)
    (demand_ordinal r).

Definition admit_page (page : PageId) (charge : N) (r : Replay) : result SimError Replay :=
  _ ← debug_assert (bool_decide (page ∉ residents r));
  resident_charge ← ok_or (checked_add u64_max (resident_charge r) charge)
    (CounterOverflow "belady resident charge");
  r ← add admissions 1 "admissions"
        (mkReplay (future r) ({[page]} ∪ residents r) resident_charge (metrics r) (decisions r)
           (demand_ordinal r));
  Ok (mkReplay (future r) (residents r) resident_charge
        (SimulationMetrics.set peak_resident_charge_bytes
           (N.max (metrics r peak_resident_charge_bytes) resident_charge) (metrics r))
        (decisions r) (demand_ordinal r)).

(** Evict a resident victim; [checked_sub] guards the ledger. *)
Definition evict (victim : PageId) (charge : N) (r : Replay) : result SimError Replay :=
  _ ← debug_assert (bool_decide (victim ∈ residents r));
  resident_charge ← ok_or (checked_sub (resident_charge r) charge)
    (CounterOverflow "belady resident charge subtraction");
  r ← add evictions 1 "evictions"
        (mkReplay (future r) (residents r ∖ {[victim]}) resident_charge (metrics r) (decisions r)
           (demand_ordinal r));
  add evicted_charge_bytes charge "evicted_charge_bytes" r.

(** The body of the replay loop for one demand. *)
Definition step_demand (trace : ValidatedTrace.t) (capacity_bytes uniform_charge slot_capacity : N)
    (page : PageId) (r : Replay) : result SimError Replay :=
  future ← pop_current_demand (future r) page;
  let r := mkReplay future (residents r) (resident_charge r) (metrics r) (decisions r)
             (demand_ordinal r) in
  descriptor ← ValidatedTrace.page trace page;
  let bytes := PageDescriptor.logical_bytes descriptor in
  r ← add demand_accesses 1 "demand_accesses" r;
  r ← add demand_logical_bytes bytes "demand_logical_bytes" r;
  r ← (if bool_decide (page ∈ residents r) then
         r ← add ordinary_demand_hits 1 "ordinary_demand_hits" r;
         r ← add ordinary_demand_hit_bytes bytes "ordinary_demand_hit_bytes" r;
         Ok (update_decision page "hit" None r)
       else
         r ← add demand_misses 1 "demand_misses" r;
         r ← add demand_miss_bytes bytes "demand_miss_bytes" r;
         r ← add demand_load_bytes bytes "demand_load_bytes" r;
         if slot_capacity =? 0 then
           r ← add bypasses 1 "bypasses" r;
           Ok (update_decision page "bypass" None r)
         else if N.of_nat (size (residents r)) <? slot_capacity then
           r ← admit_page page uniform_charge r;
           Ok (update_decision page "admit" None r)
         else
           victim ← farthest_victim (residents r) page future;
           if victim =? page then
             r ← add bypasses 1 "bypasses" r;
             Ok (update_decision page "bypass" None r)
           else
             r ← evict victim uniform_charge r;
             r ← admit_page page uniform_charge r;
             Ok (update_decision page "admit" (Some victim) r));
  _ ← guard_err (capacity_bytes <? resident_charge r)
        (invalid_config "Belady resident charge exceeded capacity");
  ordinal ← ok_or (checked_add u64_max (demand_ordinal r) 1)
    (CounterOverflow "belady demand ordinal");
  Ok (mkReplay future (residents r) (resident_charge r) (metrics r) (decisions r) ordinal).

Definition step_event (trace : ValidatedTrace.t) (capacity_bytes uniform_charge slot_capacity : N)
    (r : Replay) (event : TraceEvent.t) : result SimError Replay :=
  match event with
  | TraceEvent.Demand _ _ _ page =>
      step_demand trace capacity_bytes uniform_charge slot_capacity page r
  | TraceEvent.RouterSignal _ _ _ _ _ => Ok r
  end.

Definition slots (trace : ValidatedTrace.t) (capacity_bytes uniform_charge : N) : N :=
  N.min (capacity_bytes / uniform_charge) (lenN (ValidatedTrace.pages trace)).

(** [BeladyReplay]: metrics, decision digest and the [oracle_optimal] flag. *)
Definition simulate_belady (sha256_hex : string -> string) (trace : ValidatedTrace.t)
    (capacity_bytes : N) : result SimError (SimulationMetrics.t * string * bool) :=
  '(uniform_charge, _) ← uniform_geometry trace;
  r ← try_fold (step_event trace capacity_bytes uniform_charge
                  (slots trace capacity_bytes uniform_charge))
        (mkReplay (future_demands trace) ∅ 0 SimulationMetrics.default DECISION_SCHEMA 0)
        (ValidatedTrace.events trace);
  m ← SimulationMetrics.finish
        (SimulationMetrics.set final_resident_charge_bytes (resident_charge r) (metrics r));
  Ok (m, sha256_hex (decisions r), true).
End Belady.

(** * The exact variable-byte dynamic program *)

Module Exact.

Definition consume_state_budget (explored maximum : N) : result SimError N :=
  explored ← ok_or (checked_add usize_max explored 1) (ExactOracleLimit "state budget overflowed");
  _ ← guard_err (maximum <? explored) (ExactOracleLimit "explored too many transition states");
  Ok explored.

Definition insert_minimum (frontier : gmap N N) (state cost : N) : gmap N N :=
  <[state := match frontier !! state with Some current => N.min current cost | None => cost end]>
    frontier.

(** [u32::trailing_zeros] of a nonzero word. *)
Fixpoint pos_trailing_zeros (p : positive) : N :=
  match p with xO p => 1 + pos_trailing_zeros p | _ => 0 end.
Definition trailing_zeros (n : N) : N :=
  match n with N0 => 32 | Npos p => pos_trailing_zeros p end.

(** The [while remaining != 0] loop; every turn clears one set bit. *)
Fixpoint subset_charge_loop (fuel : nat) (charges : list N) (remaining total : N)
    : result SimError N :=
  match fuel with
  | O => Panic
  | S fuel =>
      if remaining =? 0 then Ok total
      else
        charge ← expect (charges !! N.to_nat (trailing_zeros remaining));
        total ← ok_or (checked_add u64_max total charge) (CounterOverflow "exact resident charge");
        subset_charge_loop fuel charges (N.land remaining (remaining - 1)) total
  end.
Definition subset_charge (mask : N) (charges : list N) : result SimError N :=
  subset_charge_loop (S (N.size_nat mask)) charges mask 0.

(** The [loop] over the retained submasks of [state], in descending order. *)
Fixpoint submask_loop (fuel : nat) (charges : list N) (charge capacity_bytes maximum : N)
    (page_mask state miss_cost : N) (retained explored : N) (next : gmap N N)
    : result SimError (N * gmap N N) :=
  match fuel with
  | O => Panic
  | S fuel =>
      explored ← consume_state_budget explored maximum;
      retained_charge ← subset_charge retained charges;
      let next :=
        match checked_add u64_max retained_charge charge with
        | Some total => if total <=? capacity_bytes
                        then insert_minimum next (N.lor retained page_mask) miss_cost else next
        | None => next
        end in
      if retained =? 0 then Ok (explored, next)
      else submask_loop fuel charges charge capacity_bytes maximum page_mask state miss_cost
             (N.land (retained - 1) state) explored next
  end.

(** One frontier state under the demand of the page at [bit]. *)
Definition expand_state (charges logical_costs : list N) (capacity_bytes maximum : N) (bit : nat)
    (acc : N * gmap N N) (entry : N * N) : result SimError (N * gmap N N) :=
  let '(explored, next) := acc in
  let '(state, cost) := entry in
  let page_mask := N.shiftl 1 (N.of_nat bit) in
  if negb (N.land state page_mask =? 0) then
    explored ← consume_state_budget explored maximum;
    Ok (explored, insert_minimum next state cost)
  else
    logical ← expect (logical_costs !! bit);
    miss_cost ← ok_or (checked_add u64_max cost logical) (CounterOverflow "exact variable-byte cost");
    explored ← consume_state_budget explored maximum;
    let next := insert_minimum next state miss_cost in
    charge ← expect (charges !! bit);
    if charge <=? capacity_bytes
    then submask_loop (S (N.to_nat state)) charges charge capacity_bytes maximum page_mask state
           miss_cost state explored next
    else Ok (explored, next).

Definition demands_of (trace : ValidatedTrace.t) : list PageId :=
  omap (fun event => match event with
                     | TraceEvent.Demand _ _ _ page => Some page
                     | TraceEvent.RouterSignal _ _ _ _ _ => None
                     end) (ValidatedTrace.events trace).

(** One demand: the whole frontier is expanded. *)
Definition step_demand (bit_for_page : gmap N nat) (charges logical_costs : list N)
    (capacity_bytes maximum : N) (acc : gmap N N * N) (page : PageId)
    : result SimError (gmap N N * N) :=
  let '(frontier, explored) := acc in
  bit ← expect (bit_for_page !! page);
  '(explored, next) ← try_fold (expand_state charges logical_costs capacity_bytes maximum bit)
                        (explored, ∅) (btree_iter frontier);
  Ok (next, explored).

Definition exact_variable_byte_cost (trace : ValidatedTrace.t) (capacity_bytes : N)
    (limits : SimLimits.t) : result SimError N :=
  let maximum := SimLimits.max_exact_oracle_states limits in
  _ ← guard_err (maximum =? 0) (ExactOracleLimit "max_exact_oracle_states must be positive");
  let demands := demands_of trace in
  _ ← guard_err (MAX_EXACT_DEMANDS <? lenN demands)
        (ExactOracleLimit "demands exceed the 200-demand limit");
  let demanded_pages : gset N := list_to_set demands in
  _ ← guard_err (MAX_EXACT_PAGES <? N.of_nat (size demanded_pages))
        (ExactOracleLimit "distinct demanded pages exceed the 18-page limit");
  match demands with
  | [] => Ok 0
  | _ =>
      let ordered_pages := Belady.btree_set demanded_pages in
      let bit_for_page : gmap N nat := list_to_map (imap (fun bit page => (page, bit)) ordered_pages) in
      descriptors ← mapM (ValidatedTrace.page trace) ordered_pages;
      let charges := PageDescriptor.charge_bytes <$> descriptors in
      let logical_costs := PageDescriptor.logical_bytes <$> descriptors in
      '(frontier, _) ← try_fold (step_demand bit_for_page charges logical_costs capacity_bytes maximum)
                         ({[0 := 0]}, 1) demands;
      ok_or (min_by_key (fun c => [Z.of_N c]) (btree_values frontier))
        (invalid_config "exact oracle produced no terminal state")
  end.
End Exact.
