(* ===== verification/SimEngine.v ===== *)
(** The shared simulation kernel (crates/runnel-sim/src/engine.rs): demand
    replay, router signals, speculative fills and the run loop, by explicit
    state passing.  The [Sha256] object is the byte sequence fed to it; its
    digest in hexadecimal is the parameter [sha256_hex]. *)
From stdpp Require Import prelude gmap strings sorting.
From S2P Require Import Prelude SimModel SimPolicy SimOracle.
#[local] Open Scope N_scope.

Module PrefetchBudget.
Record t : Type := mk { remaining_pages : N; remaining_bytes : N }.
End PrefetchBudget.

Module PrefetchGroup.
Record t : Type := mk {
  sequence : N;
  request : N;
  target_step : N;
  prediction : ExpertPrediction.t;
  page_ids : list PageId
}.
End PrefetchGroup.

Module Kernel.
(** The borrowed trace is an argument of the operations. *)
Record t : Type := mk {
  capacity_bytes : N;
  policy : PolicyState.t;
  residents : Residents;
  resident_bytes : N;
  metrics : SimulationMetrics.t;
  decisions : list N;
  touch : N
}.

Definition set_policy (p : PolicyState.t) (k : t) : t :=
  mk (capacity_bytes k) p (residents k) (resident_bytes k) (metrics k) (decisions k) (touch k).
Definition set_residents (r : Residents) (k : t) : t :=
  mk (capacity_bytes k) (policy k) r (resident_bytes k) (metrics k) (decisions k) (touch k).
Definition set_resident_bytes (b : N) (k : t) : t :=
  mk (capacity_bytes k) (policy k) (residents k) b (metrics k) (decisions k) (touch k).
Definition set_metrics (m : SimulationMetrics.t) (k : t) : t :=
  mk (capacity_bytes k) (policy k) (residents k) (resident_bytes k) m (decisions k) (touch k).
Definition set_touch (v : N) (k : t) : t :=
  mk (capacity_bytes k) (policy k) (residents k) (resident_bytes k) (metrics k) (decisions k) v.
(** [self.decisions.update(bytes)]. *)
Definition log (bytes : list N) (k : t) : t :=
  mk (capacity_bytes k) (policy k) (residents k) (resident_bytes k) (metrics k)
    (decisions k ++ bytes) (touch k).

(** The accounting ceiling computed before replay. *)
Definition router_metadata_limit (trace : ValidatedTrace.t) (spec : PolicySpec.t)
    : result SimError N :=
  match spec with
  | PolicySpec.RouterAdmit config | PolicySpec.RouterPrefetch config =>
      try_fold (fun limit event =>
        match event with
        | TraceEvent.Demand _ _ _ _ => Ok limit
        | TraceEvent.RouterSignal _ _ _ _ predictions =>
            let selected := N.min
              (lenN (filter (fun p => RouterPolicyConfig.minimum_score_ppm config
                                        <= ExpertPrediction.score_ppm p) predictions))
              (RouterPolicyConfig.max_experts_per_signal config) in
            if selected =? 0 then Ok limit
            else
              bytes ← router_signal_metadata_bytes selected;
              ok_or (checked_add u64_max limit bytes) (CounterOverflow "router metadata ceiling")
        end) 0 (ValidatedTrace.events trace)
  | _ => Ok 0
  end.

Definition new (trace : ValidatedTrace.t) (config : SimulationConfig.t) : result SimError t :=
  limit ← router_metadata_limit trace (SimulationConfig.policy config);
  policy ← PolicyState.new (SimulationConfig.policy config)
             (SimulationConfig.capacity_bytes config) limit;
  Ok (mk (SimulationConfig.capacity_bytes config) policy ∅ 0 SimulationMetrics.default [] 0).

Definition add (c : Counter) (value : N) (name : string) (k : t) : result SimError t :=
  m ← SimulationMetrics.add c value name (metrics k); Ok (set_metrics m k).

Definition next_touch (k : t) : result SimError (t * N) :=
  v ← ok_or (checked_add u64_max (touch k) 1) (CounterOverflow "policy touch clock");
  Ok (set_touch v k, v).

Definition hash_page_list (pages : list PageId) (k : t) : t :=
  log (to_le_bytes 8 (lenN pages) ++ mjoin (to_le_bytes 4 <$> pages)) k.

Definition hash_event (sequence : N) (tag : string) (page : option PageId) (victims : list PageId)
    (k : t) : t :=
  let k := log (to_le_bytes 8 sequence) k in
  let k := log (to_le_bytes 8 (lenN (string_bytes tag))) k in
  let k := log (string_bytes tag) k in
  let k := match page with
           | Some id => log (to_le_bytes 4 id) (log [1] k)
           | None => log [0] k
           end in
  hash_page_list victims k.

Definition hash_prefetch_decision (sequence : N) (tag : string)
    (offered redundant admitted_or_dropped victims : list PageId) (k : t) : t :=
  let k := log (to_le_bytes 8 sequence) k in
  let k := log (to_le_bytes 8 (lenN (string_bytes tag))) k in
  let k := log (string_bytes tag) k in
  hash_page_list victims (hash_page_list admitted_or_dropped
    (hash_page_list redundant (hash_page_list offered k))).

Definition account_wasted_prefetch (entry : ResidentEntry.t) (k : t) : result SimError t :=
  if ResidentEntry.prefetched_unused entry then
    k ← add prefetch_wasted 1 "prefetch_wasted" k;
    add prefetch_wasted_bytes (ResidentEntry.logical_bytes entry) "prefetch_wasted_bytes" k
  else Ok k.

Definition evict (k : t) (page : PageId) : result SimError t :=
  entry ← ok_or (residents k !! page)
    (invalid_config "victim plan referenced a nonresident page");
  let k := set_residents (delete page (residents k)) k in
  k ← account_wasted_prefetch entry k;
  b ← ok_or (checked_sub (resident_bytes k) (ResidentEntry.charge_bytes entry))
    (invalid_config "resident-byte ledger underflow");
  let k := set_resident_bytes b k in
  k ← add evictions 1 "evictions" k;
  add evicted_charge_bytes (ResidentEntry.charge_bytes entry) "evicted_charge_bytes" k.

Definition insert (page : PageDescriptor.t) (touch : N) (prefetched_unused : bool) (k : t)
    : result SimError t :=
  new_resident_bytes ← ok_or (checked_add u64_max (resident_bytes k)
                                (PageDescriptor.charge_bytes page))
    (CounterOverflow "resident charge");
  _ ← guard_err (capacity_bytes k <? new_resident_bytes)
        (invalid_config "atomic victim plan did not free enough capacity");
  let id := PageDescriptor.id page in
  let replaced := residents k !! id in
  let k := set_residents
    (<[id := ResidentEntry.mk id (PageDescriptor.charge_bytes page)
               (PageDescriptor.logical_bytes page) touch
               (PolicyState.initial_segment (policy k)) prefetched_unused]> (residents k)) k in
  _ ← guard_err (bool_decide (is_Some replaced))
        (invalid_config "attempted to insert an already resident page");
  let k := set_resident_bytes new_resident_bytes k in
  let k := set_metrics (SimulationMetrics.set peak_resident_charge_bytes
             (N.max (metrics k peak_resident_charge_bytes) (resident_bytes k)) (metrics k)) k in
  add admissions 1 "admissions" k.

(** The two arms of [demand] that return on a hit. *)
Definition demand_hit (sequence : N) (page_id : PageId) (bytes touch : N)
    (entry : ResidentEntry.t) (k : t) : result SimError t :=
  k ← (if ResidentEntry.prefetched_unused entry then
         let k := set_residents (<[page_id := ResidentEntry.set_prefetched_unused false entry]>
                                   (residents k)) k in
         k ← add useful_prefetch_hits 1 "useful_prefetch_hits" k;
         k ← add useful_prefetch_hit_bytes bytes "useful_prefetch_hit_bytes" k;
         k ← add prefetch_useful 1 "prefetch_useful" k;
         k ← add prefetch_useful_bytes bytes "prefetch_useful_bytes" k;
         Ok (hash_event sequence "demand-useful-prefetch-hit" (Some page_id) [] k)
       else
         k ← add ordinary_demand_hits 1 "ordinary_demand_hits" k;
         k ← add ordinary_demand_hit_bytes bytes "ordinary_demand_hit_bytes" k;
         Ok (hash_event sequence "demand-hit" (Some page_id) [] k));
  r ← PolicyState.on_hit (policy k) (residents k) page_id touch;
  Ok (set_residents r k).

(** The rest of [demand], after the lookup failed. *)
Definition demand_miss (trace : ValidatedTrace.t) (sequence request step : N)
    (page : PageDescriptor.t) (page_id : PageId) (touch : N) (k : t) : result SimError t :=
  let bytes := PageDescriptor.logical_bytes page in
  k ← add demand_misses 1 "demand_misses" k;
  k ← add demand_miss_bytes bytes "demand_miss_bytes" k;
  k ← add demand_load_bytes bytes "demand_load_bytes" k;
  victims ← PolicyState.plan_demand_victims (policy k) (ValidatedTrace.catalog trace) (residents k)
    (DemandPlan.mk (resident_bytes k) (capacity_bytes k) page request step);
  match victims with
  | None =>
      k ← add bypasses 1 "bypasses" k;
      Ok (hash_event sequence "demand-miss-bypass" (Some page_id) [] k)
  | Some victims =>
      k ← try_fold evict k victims;
      k ← insert page touch false k;
      Ok (hash_event sequence "demand-miss-admit" (Some page_id) victims k)
  end.

Definition demand (trace : ValidatedTrace.t) (sequence request step : N) (page_id : PageId) (k : t)
    : result SimError t :=
  page ← ValidatedTrace.page trace page_id;
  p ← PolicyState.enter_demand_step (policy k) request step;
  p ← PolicyState.observe_demand p page_id;
  let k := set_policy p k in
  k ← add demand_accesses 1 "demand_accesses" k;
  k ← add demand_logical_bytes (PageDescriptor.logical_bytes page) "demand_logical_bytes" k;
  '(k, touch) ← next_touch k;
  match residents k !! page_id with
  | Some entry => demand_hit sequence page_id (PageDescriptor.logical_bytes page) touch entry k
  | None => demand_miss trace sequence request step page page_id touch k
  end.

Definition drop_prefetches (trace : ValidatedTrace.t) (pages : list PageId) (k : t)
    : result SimError t :=
  try_fold (fun k id =>
    page ← ValidatedTrace.page trace id;
    k ← add prefetch_dropped 1 "prefetch_dropped" k;
    add prefetch_dropped_bytes (PageDescriptor.logical_bytes page) "prefetch_dropped_bytes" k)
    k pages.

(** First loop of [prefetch_group]: every page of the group is an offer. *)
Definition offer_pages (trace : ValidatedTrace.t) (page_ids : list PageId) (k : t)
    : result SimError t :=
  try_fold (fun k id =>
    page ← ValidatedTrace.page trace id;
    k ← add prefetch_offered 1 "prefetch_offered" k;
    add prefetch_offered_bytes (PageDescriptor.logical_bytes page) "prefetch_offered_bytes" k)
    k page_ids.

(** Second loop: pages already resident are redundant, the others absent. *)
Definition classify_pages (trace : ValidatedTrace.t) (page_ids : list PageId) (k : t)
    : result SimError (t * list PageId * list PageId) :=
  try_fold (fun '(k, absent, redundant) id =>
    page ← ValidatedTrace.page trace id;
    if bool_decide (is_Some (residents k !! id)) then
      k ← add prefetch_redundant 1 "prefetch_redundant" k;
      k ← add prefetch_redundant_bytes (PageDescriptor.logical_bytes page)
            "prefetch_redundant_bytes" k;
      Ok (k, absent, redundant ++ [id])
    else Ok (k, absent ++ [id], redundant))
    (k, [], []) page_ids.

Definition group_load (trace : ValidatedTrace.t) (absent : list PageId) : result SimError N :=
  try_fold (fun total id =>
    page ← ValidatedTrace.page trace id;
    ok_or (checked_add u64_max total (PageDescriptor.logical_bytes page))
      (CounterOverflow "prefetch group load")) 0 absent.

(** Last loop: the absent pages are filled. *)
Definition fill_pages (trace : ValidatedTrace.t) (absent : list PageId) (k : t)
    : result SimError t :=
  try_fold (fun k id =>
    page ← ValidatedTrace.page trace id;
    '(k, touch) ← next_touch k;
    k ← insert page touch true k;
    k ← add prefetch_admitted 1 "prefetch_admitted" k;
    add prefetch_load_bytes (PageDescriptor.logical_bytes page) "prefetch_load_bytes" k)
    k absent.

Definition prefetch_group (trace : ValidatedTrace.t) (group : PrefetchGroup.t)
    (budget : PrefetchBudget.t) (k : t) : result SimError (t * PrefetchBudget.t) :=
  let page_ids := PrefetchGroup.page_ids group in
  let sequence := PrefetchGroup.sequence group in
  k ← offer_pages trace page_ids k;
  '(k, absent, redundant) ← classify_pages trace page_ids k;
  if decide (absent = []) then
    Ok (hash_prefetch_decision sequence "prefetch-redundant" page_ids redundant [] [] k, budget)
  else if PrefetchBudget.remaining_pages budget <? lenN absent then
    k ← drop_prefetches trace absent k;
    Ok (hash_prefetch_decision sequence "prefetch-drop-page-limit" page_ids redundant absent [] k,
        budget)
  else
    load_bytes ← group_load trace absent;
    if PrefetchBudget.remaining_bytes budget <? load_bytes then
      k ← drop_prefetches trace absent k;
      Ok (hash_prefetch_decision sequence "prefetch-drop-byte-limit" page_ids redundant absent [] k,
          budget)
    else
      victims ← PolicyState.plan_prefetch_victims (policy k) (ValidatedTrace.catalog trace)
        (residents k)
        (PrefetchPlan.mk (resident_bytes k) (capacity_bytes k) absent (PrefetchGroup.request group)
           (PrefetchGroup.target_step group)
           (ExpertPrediction.score_ppm (PrefetchGroup.prediction group)));
      match victims with
      | None =>
          k ← drop_prefetches trace absent k;
          Ok (hash_prefetch_decision sequence "prefetch-drop-admission" page_ids redundant absent []
                k, budget)
      | Some victims =>
          k ← try_fold evict k victims;
          k ← fill_pages trace absent k;
          remaining_bytes ← ok_or (checked_sub (PrefetchBudget.remaining_bytes budget) load_bytes)
            (invalid_config "prefetch byte budget underflow");
          remaining_pages ← sub_or_panic (PrefetchBudget.remaining_pages budget) (lenN absent);
          Ok (hash_prefetch_decision sequence "prefetch-admit" page_ids redundant absent victims k,
              PrefetchBudget.mk remaining_pages remaining_bytes)
      end.

(** The group loop of [signal], which breaks once the page budget is spent. *)
Fixpoint prefetch_groups (trace : ValidatedTrace.t) (sequence request target_step layer : N)
    (selected : list ExpertPrediction.t) (budget : PrefetchBudget.t) (k : t) : result SimError t :=
  match selected with
  | [] => Ok k
  | prediction :: selected =>
      if PrefetchBudget.remaining_pages budget =? 0 then Ok k
      else
        let page_ids :=
          ValidatedTrace.expert_pages trace layer (ExpertPrediction.expert prediction) in
        '(k, budget) ← prefetch_group trace
           (PrefetchGroup.mk sequence request target_step prediction page_ids) budget k;
        prefetch_groups trace sequence request target_step layer selected budget k
  end.

(** Filter by score, sort by [(Reverse(score), expert)], truncate. *)
Definition select_predictions (config : RouterPolicyConfig.t)
    (predictions : list ExpertPrediction.t) : list ExpertPrediction.t :=
  take (N.to_nat (RouterPolicyConfig.max_experts_per_signal config))
    (sort_by_key (fun p => [(- Z.of_N (ExpertPrediction.score_ppm p))%Z;
                            Z.of_N (ExpertPrediction.expert p)])
       (filter (fun p => RouterPolicyConfig.minimum_score_ppm config
                           <= ExpertPrediction.score_ppm p) predictions)).

Definition signal (trace : ValidatedTrace.t) (sequence request target_step layer : N)
    (predictions : list ExpertPrediction.t) (k : t) : result SimError t :=
  match PolicyState.router_config (policy k) with
  | None => Ok (hash_event sequence "signal-ignored" None [] k)
  | Some config =>
      let selected := select_predictions config predictions in
      match selected with
      | [] => Ok (hash_event sequence "signal-empty" None [] k)
      | _ =>
          p ← PolicyState.record_signal (policy k) request target_step layer selected;
          let k := set_policy p k in
          if negb (PolicyState.prefetch_enabled (policy k))
          then Ok (hash_event sequence "signal-admission-only" None [] k)
          else prefetch_groups trace sequence request target_step layer selected
                 (PrefetchBudget.mk (RouterPolicyConfig.max_pages_per_signal config)
                    (RouterPolicyConfig.max_prefetch_bytes_per_signal config)) k
      end
  end.

Definition step (trace : ValidatedTrace.t) (k : t) (event : TraceEvent.t) : result SimError t :=
  match event with
  | TraceEvent.Demand sequence request step page => demand trace sequence request step page k
  | TraceEvent.RouterSignal sequence request target_step layer predictions =>
      signal trace sequence request target_step layer predictions k
  end.

(** The epilogue of [run]: settle unused prefetches, stamp and check. *)
Definition finish (k : t) : result SimError t :=
  let unfinished :=
    filter (fun e => ResidentEntry.prefetched_unused e = true) (btree_values (residents k)) in
  k ← try_fold (fun k entry => account_wasted_prefetch entry k) k unfinished;
  let m := SimulationMetrics.set final_resident_charge_bytes (resident_bytes k) (metrics k) in
  '(metadata_bytes, metadata_limit_bytes) ← PolicyState.finish_metadata (policy k);
  let m := SimulationMetrics.set policy_metadata_bytes metadata_bytes m in
  let m := SimulationMetrics.set policy_metadata_limit_bytes metadata_limit_bytes m in
  m ← SimulationMetrics.finish m;
  Ok (set_metrics m k).

Definition run (sha256_hex : list N -> string) (trace : ValidatedTrace.t) (k : t)
    : result SimError (SimulationMetrics.t * string) :=
  k ← try_fold (step trace) k (ValidatedTrace.events trace);
  k ← finish k;
  Ok (metrics k, sha256_hex (decisions k)).
End Kernel.

Module SimulationResult.
Record t : Type := mk {
  schema : string;
  trace_id : string;
  trace_sha256 : string;
  policy : string;
  policy_spec : PolicySpec.t;
  capacity_bytes : N;
  oracle_optimal : bool;
  metrics : SimulationMetrics.t;
  decision_sha256 : string
}.
End SimulationResult.

Definition simulate (sha256_hex : list N -> string) (trace : ValidatedTrace.t)
    (config : SimulationConfig.t) : result SimError SimulationResult.t :=
  let pack optimal m digest :=
    SimulationResult.mk RESULT_SCHEMA (TraceHeader.trace_id (ValidatedTrace.header trace))
      (ValidatedTrace.sha256 trace) (PolicySpec.name (SimulationConfig.policy config))
      (SimulationConfig.policy config) (SimulationConfig.capacity_bytes config) optimal m digest in
  match SimulationConfig.policy config with
  | PolicySpec.Belady =>
      '(m, digest, optimal) ← Belady.simulate_belady (fun s => sha256_hex (string_bytes s)) trace
                                (SimulationConfig.capacity_bytes config);
      Ok (pack optimal m digest)
  | _ =>
      k ← Kernel.new trace config;
      '(m, digest) ← Kernel.run sha256_hex trace k;
      Ok (pack false m digest)
  end.
