(* ===== verification/SimTrace.v ===== *)
(** The canonical trace parser, validator and serializer
    (crates/runnel-sim/src/trace.rs).  JSON itself is third-party code
    ([serde_json]): a record type is serializable through the two operations of
    the class [SerdeJson], about which nothing is assumed.  SHA-256 is the
    parameter [sha256_hex]. *)
From stdpp Require Import prelude gmap strings sorting.
From S2P Require Import Prelude SimModel SimEngine.
#[local] Open Scope N_scope.

(** [serde_json::from_slice] and [serde_json::to_vec]; [None] is an error. *)
Class SerdeJson (T : Type) := {
  from_slice : list N -> option T;
  to_vec : T -> option (list N)
}.

Definition HEADER_KIND : string := "header".
Definition MAX_TRACE_ID_BYTES : N := 64.
Definition SCORE_SCALE_PPM : N := 1000000.
Definition LF : N := 10.
Definition CR : N := 13.

Abbreviation PageIndex := (gmap N nat).
Abbreviation ExpertPageIndex := (gmap (N * N) (list N)).

#[export] Instance PageClass_eq_dec : EqDecision PageClass.t.
Proof. solve_decision. Defined.
#[export] Instance PageDescriptor_eq_dec : EqDecision PageDescriptor.t.
Proof. solve_decision. Defined.
#[export] Instance ExpertPrediction_eq_dec : EqDecision ExpertPrediction.t.
Proof. solve_decision. Defined.
#[export] Instance TraceEvent_eq_dec : EqDecision TraceEvent.t.
Proof. solve_decision. Defined.
#[export] Instance TraceHeader_eq_dec : EqDecision TraceHeader.t.
Proof. solve_decision. Defined.

Definition validate_framing (bytes : list N) (limits : SimLimits.t) : result SimError unit :=
  _ ← guard_err (SimLimits.max_trace_bytes limits <? lenN bytes)
        (invalid_trace "trace exceeds its byte limit");
  _ ← guard_err (negb (bool_decide (last bytes = Some LF)))
        (invalid_trace "canonical trace must end with LF");
  _ ← guard_err (bool_decide (CR ∈ bytes))
        (invalid_trace "canonical trace must not contain CR bytes");
  guard_err (negb (forallb (fun b => b <? 128) bytes))
    (invalid_trace "canonical trace must contain ASCII bytes only").

(** [slice::split] on LF: always at least one, possibly empty, piece. *)
Fixpoint split_lf (bytes : list N) : list (list N) :=
  match bytes with
  | [] => [[]]
  | b :: bytes =>
      if b =? LF then [] :: split_lf bytes
      else match split_lf bytes with
           | line :: lines => (b :: line) :: lines
           | [] => [[b]]
           end
  end.

Definition parse_canonical_record {T} `{SerdeJson T} (line : list N) (limits : SimLimits.t)
    : result SimError T :=
  _ ← guard_err (bool_decide (line = [])) (invalid_trace "line is empty");
  _ ← guard_err (SimLimits.max_line_bytes limits <? lenN line)
        (invalid_trace "line exceeds its byte limit");
  value ← ok_or (from_slice line) Json;
  encoded ← ok_or (to_vec value) Json;
  _ ← guard_err (negb (bool_decide (encoded = line)))
        (invalid_trace "line is not canonical compact JSON");
  Ok value.

(** One bounded record loop of [parse_trace]: [count] records from [lines]. *)
Fixpoint parse_records {T} `{SerdeJson T} (count : nat) (lines : list (list N)) (line_number : N)
    (limits : SimLimits.t) (ended : string) : result SimError (list T * list (list N) * N) :=
  match count with
  | O => Ok ([], lines, line_number)
  | S count =>
      line_number ← ok_or (checked_add usize_max line_number 1)
        (invalid_trace "trace line number overflow");
      match lines with
      | [] => Err (invalid_trace ended)
      | line :: lines =>
          record ← parse_canonical_record line limits;
          '(records, lines, line_number) ← parse_records count lines line_number limits ended;
          Ok (record :: records, lines, line_number)
      end
  end.

Definition is_lower_or_digit (b : N) : bool :=
  ((97 <=? b) && (b <=? 122)) || ((48 <=? b) && (b <=? 57)).

Definition validate_trace_id (trace_id : string) : result SimError unit :=
  let bytes := string_bytes trace_id in
  let valid_first := match bytes with b :: _ => is_lower_or_digit b | [] => false end in
  let valid_rest := forallb (fun b => is_lower_or_digit b || (b =? 46) || (b =? 95) || (b =? 45))
                      (tail bytes) in
  guard_err ((MAX_TRACE_ID_BYTES <? lenN bytes) || negb valid_first || negb valid_rest)
    (invalid_trace "trace_id must be 1-64 bytes and match [a-z0-9][a-z0-9._-]*").

Definition validate_header (header : TraceHeader.t) (limits : SimLimits.t) : result SimError unit :=
  _ ← guard_err (negb (bool_decide (TraceHeader.kind header = HEADER_KIND)))
        (invalid_trace "header kind must be header");
  _ ← guard_err (negb (bool_decide (TraceHeader.schema header = TRACE_SCHEMA)))
        (invalid_trace "unsupported trace schema");
  _ ← guard_err (negb (bool_decide (TraceHeader.prefetch_model header = PREFETCH_MODEL)))
        (invalid_trace "unsupported prefetch model");
  _ ← validate_trace_id (TraceHeader.trace_id header);
  _ ← guard_err (SimLimits.max_pages limits <? TraceHeader.page_count header)
        (invalid_trace "header declares too many pages");
  _ ← guard_err (SimLimits.max_events limits <? TraceHeader.event_count header)
        (invalid_trace "header declares too many events");
  guard_err (TraceHeader.charge_quantum header =? 0)
    (invalid_trace "charge_quantum must be greater than zero").

(** * Catalog validation *)

Module PageScan.
Record t : Type := mk {
  index : nat;
  page_index : PageIndex;
  expert_tuples : gset (N * N * N);
  expert_ordinals : gmap (N * N) (list (N * N))
}.
End PageScan.

Definition validate_page (header : TraceHeader.t) (s : PageScan.t) (page : PageDescriptor.t)
    : result SimError PageScan.t :=
  let id := PageDescriptor.id page in
  let expected_id := N.of_nat (PageScan.index s) in
  _ ← guard_err (u32_max <? expected_id) (invalid_trace "page index does not fit in u32");
  _ ← guard_err (negb (id =? expected_id)) (invalid_trace "catalog page id is not its index");
  _ ← guard_err ((PageDescriptor.logical_bytes page =? 0) || (PageDescriptor.charge_bytes page =? 0))
        (invalid_trace "page byte sizes must be greater than zero");
  _ ← guard_err (PageDescriptor.charge_bytes page <? PageDescriptor.logical_bytes page)
        (invalid_trace "page logical_bytes exceeds charge_bytes");
  _ ← guard_err (negb (PageDescriptor.charge_bytes page mod TraceHeader.charge_quantum header =? 0))
        (invalid_trace "page charge_bytes is not divisible by charge_quantum");
  let page_index := <[id := PageScan.index s]> (PageScan.page_index s) in
  match PageDescriptor.class page with
  | PageClass.Shared =>
      Ok (PageScan.mk (S (PageScan.index s)) page_index (PageScan.expert_tuples s)
            (PageScan.expert_ordinals s))
  | PageClass.Expert layer expert ordinal =>
      _ ← guard_err (bool_decide ((layer, expert, ordinal) ∈ PageScan.expert_tuples s))
            (invalid_trace "duplicate expert page tuple");
      Ok (PageScan.mk (S (PageScan.index s)) page_index
            ({[(layer, expert, ordinal)]} ∪ PageScan.expert_tuples s)
            (<[(layer, expert) :=
                 default [] (PageScan.expert_ordinals s !! (layer, expert)) ++ [(ordinal, id)]]>
               (PageScan.expert_ordinals s)))
  end.

Definition validate_pages (header : TraceHeader.t) (pages : list PageDescriptor.t)
    : result SimError (PageIndex * ExpertPageIndex) :=
  s ← try_fold (validate_page header) (PageScan.mk 0 ∅ ∅ ∅) pages;
  Ok (PageScan.page_index s,
      (fun entries => (sort_by_key (sort_key (K:=N * N)) entries).*2) <$> PageScan.expert_ordinals s).

(** * Event validation *)

Module EventScan.
Record t : Type := mk {
  index : nat;
  latest_realized_step : gmap N N;
  realized_steps : gset (N * N);
  signal_targets : gset (N * N * N)
}.
End EventScan.

Definition validate_prediction (layer : N) (expert_pages : ExpertPageIndex)
    (acc : gset N * N) (prediction : ExpertPrediction.t) : result SimError (gset N * N) :=
  let '(experts, score_sum) := acc in
  let score := ExpertPrediction.score_ppm prediction in
  let expert := ExpertPrediction.expert prediction in
  _ ← guard_err (SCORE_SCALE_PPM <? score) (invalid_trace "router score exceeds 1,000,000 ppm");
  score_sum ← ok_or (checked_add u64_max score_sum score) (invalid_trace "router score sum overflow");
  _ ← guard_err (SCORE_SCALE_PPM <? score_sum)
        (invalid_trace "router scores sum above 1,000,000 ppm");
  _ ← guard_err (bool_decide (expert ∈ experts)) (invalid_trace "router event repeats expert");
  _ ← guard_err (negb (bool_decide (is_Some (expert_pages !! (layer, expert)))))
        (invalid_trace "router event references an absent expert");
  Ok ({[expert]} ∪ experts, score_sum).

Definition validate_predictions (layer : N) (predictions : list ExpertPrediction.t)
    (expert_pages : ExpertPageIndex) (limits : SimLimits.t) : result SimError unit :=
  _ ← guard_err (SimLimits.max_predictions_per_signal limits <? lenN predictions)
        (invalid_trace "router event contains too many predictions");
  _ ← try_fold (validate_prediction layer expert_pages) (∅, 0) predictions;
  Ok tt.

Definition validate_event (page_index : PageIndex) (expert_pages : ExpertPageIndex)
    (limits : SimLimits.t) (s : EventScan.t) (event : TraceEvent.t) : result SimError EventScan.t :=
  let expected_sequence := N.of_nat (EventScan.index s) in
  _ ← guard_err (u64_max <? expected_sequence) (invalid_trace "event index does not fit in u64");
  _ ← guard_err (negb (TraceEvent.sequence event =? expected_sequence))
        (invalid_trace "event sequence is not its index");
  match event with
  | TraceEvent.Demand _ request step page =>
      _ ← guard_err (negb (bool_decide (is_Some (page_index !! page))))
            (invalid_trace "demand event references unknown page");
      _ ← guard_err (match EventScan.latest_realized_step s !! request with
                     | Some latest => step <? latest | None => false end)
            (invalid_trace "demand step regresses from its latest realized step");
      Ok (EventScan.mk (S (EventScan.index s)) (<[request := step]> (EventScan.latest_realized_step s))
            ({[(request, step)]} ∪ EventScan.realized_steps s) (EventScan.signal_targets s))
  | TraceEvent.RouterSignal _ request target_step layer predictions =>
      _ ← guard_err (match EventScan.latest_realized_step s !! request with
                     | Some latest => target_step <=? latest | None => false end)
            (invalid_trace "router target step is not later than its latest realized step");
      _ ← guard_err (bool_decide ((request, target_step, layer) ∈ EventScan.signal_targets s))
            (invalid_trace "duplicate router signal target");
      _ ← validate_predictions layer predictions expert_pages limits;
      Ok (EventScan.mk (S (EventScan.index s)) (EventScan.latest_realized_step s)
            (EventScan.realized_steps s)
            ({[(request, target_step, layer)]} ∪ EventScan.signal_targets s))
  end.

Definition validate_events (events : list TraceEvent.t) (page_index : PageIndex)
    (expert_pages : ExpertPageIndex) (limits : SimLimits.t) : result SimError unit :=
  s ← try_fold (validate_event page_index expert_pages limits) (EventScan.mk 0 ∅ ∅ ∅) events;
  try_fold (fun (_ : unit) '(request, target_step, _) =>
    guard_err (negb (bool_decide ((request, target_step) ∈ EventScan.realized_steps s)))
      (invalid_trace "router signal target has no later realized demand"))
    tt (elements (EventScan.signal_targets s)).

(** * Parsing and serializing *)

Section json.
Context `{HJ : SerdeJson TraceHeader.t} `{PJ : SerdeJson PageDescriptor.t}
        `{EJ : SerdeJson TraceEvent.t}.
Context (sha256_hex : list N -> string).

Definition parse_trace (bytes : list N) (limits : SimLimits.t) : result SimError ValidatedTrace.t :=
  _ ← validate_framing bytes limits;
  content ← (match bytes with [] => Panic | _ => Ok (take (length bytes - 1) bytes) end);
  match split_lf content with
  | [] => Err (invalid_trace "trace is missing its header record")
  | header_line :: lines =>
      header ← parse_canonical_record (T:=TraceHeader.t) header_line limits;
      _ ← validate_header header limits;
      '(pages, lines, line_number) ← parse_records (T:=PageDescriptor.t)
         (N.to_nat (TraceHeader.page_count header)) lines 1 limits
         "catalog ended before declared page";
      '(events, lines, _) ← parse_records (T:=TraceEvent.t)
         (N.to_nat (TraceHeader.event_count header)) lines line_number limits
         "event stream ended before declared event";
      _ ← guard_err (negb (bool_decide (lines = [])))
            (invalid_trace "trace contains records beyond its declared catalog and event counts");
      '(page_index, expert_pages) ← validate_pages header pages;
      _ ← validate_events events page_index expert_pages limits;
      Ok (ValidatedTrace.mk header pages page_index expert_pages events (sha256_hex bytes))
  end.

Definition append_record {T} `{SerdeJson T} (limits : SimLimits.t) (output : list N) (value : T)
    : result SimError (list N) :=
  line ← ok_or (to_vec value) Json;
  _ ← guard_err (SimLimits.max_line_bytes limits <? lenN line)
        (invalid_trace "serialized record exceeds the line limit");
  new_len ← ok_or (n ← checked_add usize_max (lenN output) (lenN line); checked_add usize_max n 1)
        (invalid_trace "serialized trace length overflow");
  _ ← guard_err (SimLimits.max_trace_bytes limits <? new_len)
        (invalid_trace "serialized trace exceeds byte limit");
  Ok (output ++ line ++ [LF]).

Definition serialize_trace (header : TraceHeader.t) (pages : list PageDescriptor.t)
    (events : list TraceEvent.t) (limits : SimLimits.t) : result SimError (list N) :=
  _ ← validate_header header limits;
  _ ← guard_err (negb (TraceHeader.page_count header =? lenN pages))
        (invalid_trace "header page count differs from the catalog");
  _ ← guard_err (negb (TraceHeader.event_count header =? lenN events))
        (invalid_trace "header event count differs from the stream");
  _ ← try_fold (fun (_ : unit) event =>
        match event with
        | TraceEvent.RouterSignal _ _ _ _ predictions =>
            guard_err (SimLimits.max_predictions_per_signal limits <? lenN predictions)
              (invalid_trace "router signal contains too many predictions")
        | TraceEvent.Demand _ _ _ _ => Ok tt
        end) tt events;
  output ← append_record limits [] header;
  output ← try_fold (append_record limits) output pages;
  output ← try_fold (append_record limits) output events;
  parsed ← parse_trace output limits;
  _ ← guard_err (negb (bool_decide (ValidatedTrace.header parsed = header)
                       && bool_decide (ValidatedTrace.pages parsed = pages)
                       && bool_decide (ValidatedTrace.events parsed = events)))
        (invalid_trace "canonical serialization failed its typed round trip");
  Ok output.
End json.
