(* ===== verification/SimTraceOk.v ===== *)
(** What the trace validator guarantees: the catalog and event-stream
    properties the replay kernel and the oracles rely on, their derivation from
    [validate_pages] and [validate_events], and the uniqueness of the canonical
    byte representation.

    At the end: the validator accepts exactly what it should: [validate_pages],
    [validate_events] and [parse_trace] succeed if and only if the records satisfy
    the conditions stated here, so that a producer of traces knows what it has to
    establish. *)
From stdpp Require Import prelude gmap strings sorting.
From S2P Require Import Prelude SimModel SimEngine SimTrace.
#[local] Open Scope N_scope.

(** * The promise of the validator *)

(** The interface between the validator and its clients: what a catalog
    promises to the policies, the kernel and the oracles. *)
Class CatalogOk (c : PageCatalog.t) : Prop := {
  cat_page : forall id i, PageCatalog.page_index c !! id = Some i ->
    exists p, PageCatalog.pages c !! i = Some p /\ PageDescriptor.id p = id;
  cat_index : forall i p, PageCatalog.pages c !! i = Some p ->
    PageDescriptor.id p = N.of_nat i /\ PageCatalog.page_index c !! PageDescriptor.id p = Some i;
  cat_sizes : forall p, p ∈ PageCatalog.pages c ->
    0 < PageDescriptor.logical_bytes p <= PageDescriptor.charge_bytes p;
  cat_expert_pages : forall layer expert id,
    id ∈ PageCatalog.expert_pages c layer expert <->
    exists p ordinal, p ∈ PageCatalog.pages c /\ PageDescriptor.id p = id
      /\ PageDescriptor.class p = PageClass.Expert layer expert ordinal;
  cat_expert_nodup : forall layer expert, NoDup (PageCatalog.expert_pages c layer expert)
}.

Record predictions_ok (c : PageCatalog.t) (limits : SimLimits.t) (layer : N)
    (predictions : list ExpertPrediction.t) : Prop := {
  pred_count : lenN predictions <= SimLimits.max_predictions_per_signal limits;
  pred_distinct : NoDup (ExpertPrediction.expert <$> predictions);
  pred_sum : sumN ExpertPrediction.score_ppm predictions <= SCORE_SCALE_PPM;
  pred_known : forall p, p ∈ predictions ->
    is_Some (PageCatalog.expert_pages_of c !! (layer, ExpertPrediction.expert p))
}.

(** What is checked of event [e] given the events [pre] before it. *)
Definition event_ok (c : PageCatalog.t) (limits : SimLimits.t) (pre : list TraceEvent.t)
    (e : TraceEvent.t) : Prop :=
  TraceEvent.sequence e = lenN pre /\ lenN pre <= u64_max /\
  match e with
  | TraceEvent.Demand _ request step page =>
      is_Some (PageCatalog.page_index c !! page)
      /\ forall q s p, TraceEvent.Demand q request s p ∈ pre -> s <= step
  | TraceEvent.RouterSignal _ request target_step layer predictions =>
      (forall q s p, TraceEvent.Demand q request s p ∈ pre -> s < target_step)
      /\ (forall q ps, TraceEvent.RouterSignal q request target_step layer ps ∉ pre)
      /\ predictions_ok c limits layer predictions
  end.

Class TraceOk (limits : SimLimits.t) (t : ValidatedTrace.t) : Prop := {
  trace_catalog :: CatalogOk (ValidatedTrace.catalog t);
  trace_events : each_prefix (event_ok (ValidatedTrace.catalog t) limits) (ValidatedTrace.events t);
  trace_realized : forall q request target_step layer ps,
    TraceEvent.RouterSignal q request target_step layer ps ∈ ValidatedTrace.events t ->
    exists q' p, TraceEvent.Demand q' request target_step p ∈ ValidatedTrace.events t
}.

(** Looking up an indexed page succeeds. *)
Lemma page_known (c : PageCatalog.t) `{!CatalogOk c} id :
  is_Some (PageCatalog.page_index c !! id) ->
  exists p, PageCatalog.page c id = Ok p /\ PageDescriptor.id p = id
            /\ p ∈ PageCatalog.pages c.
Proof.
  intros [i Hi]. destruct (cat_page id i Hi) as (p & Hp & Hid).
  exists p. split; [|split; [done | by eapply list_elem_of_lookup_2]].
  unfold PageCatalog.page. rewrite Hi. simpl. by rewrite Hp.
Qed.

(** * Catalog validation is sound *)

Record scan_ok (dn : list PageDescriptor.t) (s : PageScan.t) : Prop := {
  scan_index : PageScan.index s = length dn;
  scan_page : forall id i, PageScan.page_index s !! id = Some i ->
    exists p, dn !! i = Some p /\ PageDescriptor.id p = id;
  scan_ids : forall i p, dn !! i = Some p ->
    PageDescriptor.id p = N.of_nat i /\ PageScan.page_index s !! PageDescriptor.id p = Some i;
  scan_sizes : forall p, p ∈ dn -> 0 < PageDescriptor.logical_bytes p <= PageDescriptor.charge_bytes p;
  scan_experts : forall layer expert ordinal id,
    (ordinal, id) ∈ default [] (PageScan.expert_ordinals s !! (layer, expert)) <->
    exists p, p ∈ dn /\ PageDescriptor.id p = id
              /\ PageDescriptor.class p = PageClass.Expert layer expert ordinal;
  scan_nodup : forall layer expert,
    NoDup (default [] (PageScan.expert_ordinals s !! (layer, expert))).*2
}.

Lemma scan_id_lt dn s p : scan_ok dn s -> p ∈ dn -> PageDescriptor.id p < lenN dn.
Proof.
  intros Hs [i Hi]%list_elem_of_lookup. destruct (scan_ids _ _ Hs i p Hi) as [-> _].
  apply lookup_lt_Some in Hi. unfold lenN. lia.
Qed.

(** The parts of [scan_ok] that do not depend on the page class. *)
Lemma scan_index_step dn s page :
  scan_ok dn s -> PageDescriptor.id page = N.of_nat (PageScan.index s) ->
  let index := <[PageDescriptor.id page := PageScan.index s]> (PageScan.page_index s) in
  (forall id i, index !! id = Some i ->
     exists p, (dn ++ [page]) !! i = Some p /\ PageDescriptor.id p = id) /\
  (forall i p, (dn ++ [page]) !! i = Some p ->
     PageDescriptor.id p = N.of_nat i /\ index !! PageDescriptor.id p = Some i).
Proof.
  intros Hs Hid index. subst index. pose proof (scan_index _ _ Hs) as Hlen. split.
  - intros id i. destruct (decide (PageDescriptor.id page = id)) as [<-|Hne].
    + rewrite lookup_insert_eq. intros [= <-]. exists page.
      by rewrite Hlen, list_lookup_middle.
    + rewrite lookup_insert_ne by done. intros (p & Hp & ?)%(scan_page _ _ Hs).
      exists p. by rewrite (lookup_app_l_Some _ _ _ _ Hp).
  - intros i p [Hi|[Hi Hp]]%lookup_app_Some.
    + destruct (scan_ids _ _ Hs i p Hi) as [Ep Hl]. split; [done|].
      rewrite lookup_insert_ne; [done|]. rewrite Hid, Ep, Hlen.
      apply lookup_lt_Some in Hi. lia.
    + destruct (i - length dn)%nat as [|k] eqn:E; simpl in Hp; [|done].
      injection Hp as <-. assert (i = length dn) as -> by lia.
      by rewrite lookup_insert_eq, Hid, Hlen.
Qed.

(** Step through one [guard_err] of a post-condition goal. *)
Ltac post_guard H := apply post_bind, post_guard; [done | intros H].

Lemma validate_page_ok header dn s page :
  scan_ok dn s -> post (validate_page header s page) (scan_ok (dn ++ [page])) (fun _ => True).
Proof.
  intros Hs. unfold validate_page. post_guard Hu32. post_guard Hid. post_guard Hpos.
  post_guard Hle. post_guard Hq.
  apply negb_false_iff, N.eqb_eq in Hid. apply orb_false_iff in Hpos as [Hl0 Hc0].
  apply N.eqb_neq in Hl0, Hc0. apply N.ltb_ge in Hle.
  destruct (scan_index_step dn s page Hs Hid) as [H1 H2].
  assert (forall p, p ∈ dn ++ [page] ->
            0 < PageDescriptor.logical_bytes p <= PageDescriptor.charge_bytes p) as H3.
  { intros p [Hp| ->%list_elem_of_singleton]%elem_of_app; [by apply (scan_sizes _ _ Hs) | lia]. }
  assert (S (PageScan.index s) = length (dn ++ [page])) as H0.
  { rewrite length_app, (scan_index _ _ Hs). simpl. lia. }
  destruct (PageDescriptor.class page) as [|layer expert ordinal] eqn:Hclass.
  - split; simpl; try done; [|apply (scan_nodup _ _ Hs)].
    intros l e o id. rewrite (scan_experts _ _ Hs). split.
    + intros (p & Hp & ?). exists p. rewrite elem_of_app. auto.
    + intros (p & [Hp| ->%list_elem_of_singleton]%elem_of_app & ? & ?); [eauto | congruence].
  - post_guard Hdup. split; simpl; try done.
    + intros l e o id. destruct (decide ((layer, expert) = (l, e))) as [[= -> ->]|Hne].
      * rewrite lookup_insert_eq. simpl. rewrite elem_of_app, (scan_experts _ _ Hs).
        rewrite list_elem_of_singleton. split.
        -- intros [(p & Hp & ?)|[= -> ->]]; [exists p | exists page]; rewrite elem_of_app; auto.
           rewrite list_elem_of_singleton. auto.
        -- intros (p & [Hp| ->%list_elem_of_singleton]%elem_of_app & <- & ?); [eauto|].
           right. congruence.
      * rewrite lookup_insert_ne by done. rewrite (scan_experts _ _ Hs). split.
        -- intros (p & Hp & ?). exists p. rewrite elem_of_app. auto.
        -- intros (p & [Hp| ->%list_elem_of_singleton]%elem_of_app & ? & ?); [eauto | congruence].
    + intros l e. destruct (decide ((layer, expert) = (l, e))) as [[= -> ->]|Hne];
        [|rewrite lookup_insert_ne by done; apply (scan_nodup _ _ Hs)].
      rewrite lookup_insert_eq. simpl. rewrite fmap_app.
      apply NoDup_snoc; [apply (scan_nodup _ _ Hs)|].
      intros ([o id] & Heq & Hin)%list_elem_of_fmap. simpl in Heq. subst id.
      apply (scan_experts _ _ Hs) in Hin as (p & Hp & Hpid & _).
      pose proof (scan_id_lt _ _ _ Hs Hp) as Hlt. rewrite Hpid, Hid in Hlt.
      rewrite (scan_index _ _ Hs) in Hlt. unfold lenN in Hlt. lia.
Qed.

Lemma validate_pages_ok header pages :
  post (validate_pages header pages)
    (fun '(page_index, expert_pages) => CatalogOk (PageCatalog.mk pages page_index expert_pages))
    (fun _ => True).
Proof.
  unfold validate_pages. apply post_bind.
  eapply post_strengthen.
  - apply (post_try_fold (validate_page header) pages scan_ok).
    + split; simpl; try (intros; by rewrite ?lookup_empty in *); try set_solver +.
      intros l e. apply NoDup_nil_2.
    + intros dn x rest b _ Hb. by apply validate_page_ok.
  - intros s Hs. apply post_ok.
    assert (forall layer expert,
      PageCatalog.expert_pages (PageCatalog.mk pages (PageScan.page_index s)
        ((fun entries => (sort_by_key (sort_key (K:=N * N)) entries).*2)
           <$> PageScan.expert_ordinals s)) layer expert
      ≡ₚ (default [] (PageScan.expert_ordinals s !! (layer, expert))).*2) as Hperm.
    { intros l e. unfold PageCatalog.expert_pages. simpl. rewrite lookup_fmap.
      destruct (PageScan.expert_ordinals s !! (l, e)); simpl; [|done].
      by rewrite sort_by_key_perm. }
    split; simpl; [apply (scan_page _ _ Hs) | apply (scan_ids _ _ Hs) | apply (scan_sizes _ _ Hs) | |].
    + intros l e id. rewrite (Hperm l e), list_elem_of_fmap. split.
      * intros ([o id'] & -> & (p & ?)%(scan_experts _ _ Hs)). eauto.
      * intros (p & o & ?). exists (o, id). split; [done|]. apply (scan_experts _ _ Hs). eauto.
    + intros l e. rewrite (Hperm l e). apply (scan_nodup _ _ Hs).
Qed.

(** * Event validation is sound *)

Lemma validate_predictions_ok c limits layer predictions :
  post (validate_predictions layer predictions (PageCatalog.expert_pages_of c) limits)
    (fun _ => predictions_ok c limits layer predictions) (fun _ => True).
Proof.
  unfold validate_predictions. post_guard Hn. apply N.ltb_ge in Hn. apply post_bind.
  eapply post_strengthen.
  - apply (post_try_fold _ predictions (fun dn '(experts, total) =>
      (forall e, e ∈ experts <-> e ∈ ExpertPrediction.expert <$> dn)
      /\ NoDup (ExpertPrediction.expert <$> dn)
      /\ total = sumN ExpertPrediction.score_ppm dn /\ total <= SCORE_SCALE_PPM
      /\ forall p, p ∈ dn ->
           is_Some (PageCatalog.expert_pages_of c !! (layer, ExpertPrediction.expert p)))).
    + split_and!; [intros e; simpl; rewrite elem_of_nil; set_solver | apply NoDup_nil_2 | done.. |].
      by intros p ?%elem_of_nil.
    + intros dn x rest [experts total] _ (Hset & Hnd & -> & Hle & Hknown). simpl.
      post_guard Hscore. apply post_bind, post_checked_add; [intros _|done].
      post_guard Hsum. post_guard Hnew. post_guard Hpage. apply post_ok.
      apply N.ltb_ge in Hsum. apply bool_decide_eq_false in Hnew.
      apply negb_false_iff, bool_decide_eq_true in Hpage.
      rewrite fmap_app. split_and!.
      * intros e. rewrite elem_of_union, elem_of_singleton, elem_of_app, Hset. simpl.
        rewrite list_elem_of_singleton. tauto.
      * apply NoDup_snoc; [done|]. by rewrite <- Hset.
      * rewrite sumN_app. simpl. lia.
      * done.
      * intros p [?| ->%list_elem_of_singleton]%elem_of_app; auto.
  - intros [experts total] (_ & Hnd & -> & Hle & Hknown). by split.
Qed.

Record events_scan_ok (c : PageCatalog.t) (limits : SimLimits.t) (dn : list TraceEvent.t)
    (s : EventScan.t) : Prop := {
  es_index : EventScan.index s = length dn;
  es_events : each_prefix (event_ok c limits) dn;
  es_latest : forall q request step p, TraceEvent.Demand q request step p ∈ dn ->
    exists latest, EventScan.latest_realized_step s !! request = Some latest /\ step <= latest;
  es_realized : forall request step, (request, step) ∈ EventScan.realized_steps s ->
    exists q p, TraceEvent.Demand q request step p ∈ dn;
  es_targets : forall request target_step layer,
    (request, target_step, layer) ∈ EventScan.signal_targets s <->
    exists q ps, TraceEvent.RouterSignal q request target_step layer ps ∈ dn
}.

Lemma validate_event_ok c limits dn s e :
  events_scan_ok c limits dn s ->
  post (validate_event (PageCatalog.page_index c) (PageCatalog.expert_pages_of c) limits s e)
    (events_scan_ok c limits (dn ++ [e])) (fun _ => True).
Proof.
  intros [Hidx Hev Hlat Hreal Htgt]. unfold validate_event. post_guard Hwide. post_guard Hseq.
  apply N.ltb_ge in Hwide. apply negb_false_iff, N.eqb_eq in Hseq. rewrite Hidx in Hwide, Hseq.
  destruct e as [q request target_step layer predictions | q request step page].
  - apply post_bind, post_guard; [done|]. intros Hcausal. post_guard Huniq.
    apply bool_decide_eq_false in Huniq. apply post_bind.
    eapply post_strengthen; [apply validate_predictions_ok|]. intros ? Hpred. apply post_ok.
    split; simpl.
    + rewrite length_app. simpl. lia.
    + apply each_prefix_snoc; [done|]. do 2 (split; [done|]). split; [|split; [|done]].
      * intros q' s' p' (latest & Hl & ?)%Hlat. rewrite Hl in Hcausal.
        apply N.leb_gt in Hcausal. lia.
      * intros q' ps Hin. apply Huniq, Htgt. eauto.
    + intros q' r' s' p' Hin. set_solver.
    + intros r' s' (q' & p' & Hin)%Hreal. exists q', p'. set_solver.
    + intros r' t' l'. rewrite elem_of_union, elem_of_singleton, Htgt. split.
      * intros [[= -> -> ->]|(q' & ps & Hin)]; [exists q, predictions; set_solver|].
        exists q', ps. set_solver.
      * intros (q' & ps & [Hin|Heq%list_elem_of_singleton]%elem_of_app); [eauto|].
        left. congruence.
  - post_guard Hknown. apply negb_false_iff, bool_decide_eq_true in Hknown.
    apply post_bind, post_guard; [done|]. intros Hmono. apply post_ok. split; simpl.
    + rewrite length_app. simpl. lia.
    + apply each_prefix_snoc; [done|]. do 2 (split; [done|]). split; [done|].
      intros q' s' p' (latest & Hl & ?)%Hlat. rewrite Hl in Hmono.
      apply N.ltb_ge in Hmono. lia.
    + intros q' r' s' p' [Hin|[= -> -> -> ->]%list_elem_of_singleton]%elem_of_app.
      * destruct (Hlat q' r' s' p' Hin) as (latest & Hl & ?).
        destruct (decide (request = r')) as [->|].
        -- rewrite Hl in Hmono. apply N.ltb_ge in Hmono. exists step.
           rewrite lookup_insert_eq. split; [done | lia].
        -- exists latest. by rewrite lookup_insert_ne.
      * exists step. by rewrite lookup_insert_eq.
    + intros r' s' [[= -> ->]%elem_of_singleton|(q' & p' & Hin)%Hreal]%elem_of_union;
        [exists q, page | exists q', p']; set_solver.
    + intros r' t' l'. rewrite Htgt. split; intros (q' & ps & Hin); exists q', ps; set_solver.
Qed.

Lemma validate_events_ok c limits events :
  post (validate_events events (PageCatalog.page_index c) (PageCatalog.expert_pages_of c) limits)
    (fun _ => each_prefix (event_ok c limits) events
      /\ forall q request target_step layer ps,
           TraceEvent.RouterSignal q request target_step layer ps ∈ events ->
           exists q' p, TraceEvent.Demand q' request target_step p ∈ events)
    (fun _ => True).
Proof.
  unfold validate_events. apply post_bind. eapply post_strengthen.
  - apply (post_try_fold _ events (events_scan_ok c limits)).
    + split; simpl; [done | apply each_prefix_nil | set_solver.. ].
    + intros dn e rest s _ Hs. by apply validate_event_ok.
  - intros s [_ Hev _ Hreal Htgt]. eapply post_strengthen.
    + apply (post_try_fold _ _ (fun dn (_ : unit) => forall r t l, (r, t, l) ∈ dn ->
        (r, t) ∈ EventScan.realized_steps s)).
      * set_solver.
      * intros dn [[r t] l] rest _ _ Hdn. apply post_guard; [done|].
        intros Hin%negb_false_iff%bool_decide_eq_true r' t' l'
          [?|[= -> -> ->]%list_elem_of_singleton]%elem_of_app; eauto.
    + intros ? Hall. split; [done|]. intros q r t l ps Hin. apply Hreal, (Hall r t l).
      apply elem_of_elements, Htgt. eauto.
Qed.

(** * The canonical byte representation *)

(** Every record is followed by one LF. *)
Definition join_lf (lines : list (list N)) : list N := mjoin ((fun line => line ++ [LF]) <$> lines).

Lemma join_lf_app l1 l2 : join_lf (l1 ++ l2) = join_lf l1 ++ join_lf l2.
Proof. unfold join_lf. by rewrite fmap_app, join_app. Qed.

Lemma join_lf_cons line lines : join_lf (line :: lines) = (line ++ [LF]) ++ join_lf lines.
Proof. done. Qed.

Lemma join_split_lf bytes : join_lf (split_lf bytes) = bytes ++ [LF].
Proof.
  induction bytes as [|b bytes IH]; [done|]. simpl.
  destruct (N.eqb_spec b LF) as [->|_].
  - by rewrite join_lf_cons, IH.
  - destruct (split_lf bytes) as [|line lines]; [by destruct bytes|].
    rewrite join_lf_cons in *. simpl. by rewrite <- IH.
Qed.

(** The lines are the encodings of the records, within the line limit. *)
Definition encodes {T} `{SerdeJson T} (limits : SimLimits.t) (lines : list (list N)) (rs : list T)
    : Prop :=
  Forall2 (fun line r => to_vec r = Some line /\ lenN line <= SimLimits.max_line_bytes limits) lines rs.

Lemma encodes_inj {T} `{SerdeJson T} limits limits' l1 l2 (rs : list T) :
  encodes limits l1 rs -> encodes limits' l2 rs -> l1 = l2.
Proof.
  intros H1. revert l2. induction H1 as [|line r l1 rs [E _] _ IH]; intros l2 H2;
    inversion H2 as [|line' ? l2' ? [E' _] H2']; subst; [done|].
  rewrite E in E'. injection E' as ->. f_equal. by apply IH.
Qed.

Lemma parse_canonical_record_spec {T} `{SerdeJson T} line limits :
  post (parse_canonical_record (T:=T) line limits)
    (fun r => to_vec r = Some line /\ lenN line <= SimLimits.max_line_bytes limits) (fun _ => True).
Proof.
  unfold parse_canonical_record. post_guard Hne. post_guard Hlen. apply N.ltb_ge in Hlen.
  apply post_bind. destruct (from_slice line) as [r|]; simpl; [|done].
  apply post_bind. destruct (to_vec r) as [enc|] eqn:E; simpl; [|done].
  post_guard Heq. by apply negb_false_iff, bool_decide_eq_true in Heq as ->.
Qed.

Lemma parse_records_spec {T} `{SerdeJson T} count lines n limits ended :
  post (parse_records (T:=T) count lines n limits ended)
    (fun '(rs, rest, _) => exists used, lines = used ++ rest /\ length rs = count
                                        /\ encodes limits used rs)
    (fun _ => True).
Proof.
  revert lines n. induction count as [|count IH]; intros lines n; simpl.
  - exists []. split_and!; [done..|]. constructor.
  - apply post_bind, post_checked_add; [intros _|done].
    destruct lines as [|line lines]; [done|].
    apply post_bind. eapply post_strengthen; [apply parse_canonical_record_spec|].
    intros r Hr. apply post_bind. eapply post_strengthen; [apply IH|].
    intros [[rs rest] m] (used & -> & Hlen & Henc). simpl.
    exists (line :: used). split_and!; [done | simpl; by rewrite Hlen | by constructor].
Qed.

Section json.
Context `{HJ : SerdeJson TraceHeader.t} `{PJ : SerdeJson PageDescriptor.t}
        `{EJ : SerdeJson TraceEvent.t}.
Context (sha256_hex : list N -> string).

(** What acceptance by the parser means. *)
Record parsed (bytes : list N) (limits : SimLimits.t) (t : ValidatedTrace.t) : Prop := {
  parsed_ok : TraceOk limits t;
  parsed_header : validate_header (ValidatedTrace.header t) limits = Ok tt;
  parsed_pages : TraceHeader.page_count (ValidatedTrace.header t) = lenN (ValidatedTrace.pages t);
  parsed_events :
    TraceHeader.event_count (ValidatedTrace.header t) = lenN (ValidatedTrace.events t);
  parsed_length : lenN bytes <= SimLimits.max_trace_bytes limits;
  parsed_sha : ValidatedTrace.sha256 t = sha256_hex bytes;
  parsed_lines : exists h ps es,
    bytes = join_lf (h ++ ps ++ es) /\ encodes limits h [ValidatedTrace.header t]
    /\ encodes limits ps (ValidatedTrace.pages t) /\ encodes limits es (ValidatedTrace.events t)
}.

Lemma take_last_lf (bytes : list N) :
  last bytes = Some LF -> take (length bytes - 1) bytes ++ [LF] = bytes.
Proof.
  intros [l ->]%last_Some. rewrite length_app. simpl.
  replace (length l + 1 - 1)%nat with (length l) by lia. by rewrite take_app_length.
Qed.

Lemma parse_trace_spec bytes limits :
  post (parse_trace sha256_hex bytes limits) (parsed bytes limits) (fun _ => True).
Proof.
  unfold parse_trace, validate_framing. apply post_bind. post_guard Hlen. apply N.ltb_ge in Hlen.
  post_guard Hlast. apply negb_false_iff, bool_decide_eq_true in Hlast. post_guard Hcr.
  apply post_guard; [done|]. intros _. apply post_bind.
  destruct bytes as [|b0 bs0] eqn:Eb; [done|]. rewrite <- Eb in *. apply post_ok.
  pose proof (join_split_lf (take (length bytes - 1) bytes)) as Hjoin.
  rewrite take_last_lf in Hjoin by done.
  destruct (split_lf (take (length bytes - 1) bytes)) as [|hl lines]; [done|].
  apply post_bind. eapply post_strengthen; [apply parse_canonical_record_spec|].
  intros header Hh. apply post_bind.
  destruct (validate_header header limits) as [[]|e|] eqn:Ehead; [|done|].
  2: { exfalso. revert Ehead. unfold validate_header, validate_trace_id, guard_err.
       repeat (case_match; simpl; try discriminate). }
  simpl. apply post_bind. eapply post_strengthen; [apply parse_records_spec|].
  intros [[pages lines1] n1] (pl & -> & Hpn & Hpe). apply post_bind.
  eapply post_strengthen; [apply parse_records_spec|].
  intros [[events lines2] n2] (el & -> & Hen & Hee). post_guard Hrest.
  apply negb_false_iff, bool_decide_eq_true in Hrest as ->. rewrite app_nil_r in Hjoin.
  apply post_bind. eapply post_strengthen; [apply (validate_pages_ok header pages)|].
  intros [page_index expert_pages] Hcat. apply post_bind.
  eapply post_strengthen;
    [apply (validate_events_ok (PageCatalog.mk pages page_index expert_pages) limits events)|].
  intros ? [Hev Hreal]. apply post_ok. split; simpl; try done.
  - unfold lenN. lia.
  - unfold lenN. lia.
  - exists [hl], pl, el. split_and!; [by rewrite <- Hjoin | | done..].
    repeat constructor; apply Hh.
Qed.

(** Acceptance is a function of the records: two accepted byte strings with
    the same header, catalog and events are the same bytes. *)
Lemma parsed_unique bytes bytes' limits limits' t t' :
  parsed bytes limits t -> parsed bytes' limits' t' ->
  ValidatedTrace.header t = ValidatedTrace.header t' ->
  ValidatedTrace.pages t = ValidatedTrace.pages t' ->
  ValidatedTrace.events t = ValidatedTrace.events t' -> bytes = bytes'.
Proof.
  intros P P' Eh Ep Ee.
  destruct (parsed_lines _ _ _ P) as (h & ps & es & -> & Hh & Hp & He).
  destruct (parsed_lines _ _ _ P') as (h' & ps' & es' & -> & Hh' & Hp' & He').
  rewrite <- Eh in Hh'. rewrite <- Ep in Hp'. rewrite <- Ee in He'.
  by rewrite (encodes_inj _ _ _ _ _ Hh Hh'), (encodes_inj _ _ _ _ _ Hp Hp'),
    (encodes_inj _ _ _ _ _ He He').
Qed.

(** ** Serializing what was parsed *)

Lemma append_record_ok {T} `{SerdeJson T} limits output (r : T) line :
  SimLimits.max_trace_bytes limits <= usize_max ->
  to_vec r = Some line -> lenN line <= SimLimits.max_line_bytes limits ->
  lenN (output ++ line ++ [LF]) <= SimLimits.max_trace_bytes limits ->
  append_record limits output r = Ok (output ++ line ++ [LF]).
Proof.
  intros Hmax E Hline Hlen. unfold append_record. rewrite E. simpl.
  unfold lenN in *. rewrite !length_app in Hlen. simpl in Hlen.
  rewrite (proj2 (N.ltb_ge _ _) Hline). simpl. unfold checked_add.
  destruct (N.leb_spec (N.of_nat (length output) + N.of_nat (length line)) usize_max); [|lia].
  simpl. destruct (N.leb_spec (N.of_nat (length output) + N.of_nat (length line) + 1) usize_max);
    [|lia].
  simpl. rewrite (proj2 (N.ltb_ge _ _)); [done | lia].
Qed.

Lemma append_records_ok {T} `{SerdeJson T} limits lines (rs : list T) :
  SimLimits.max_trace_bytes limits <= usize_max ->
  encodes limits lines rs -> forall output,
  lenN (output ++ join_lf lines) <= SimLimits.max_trace_bytes limits ->
  try_fold (append_record limits) output rs = Ok (output ++ join_lf lines).
Proof.
  intros Hmax. induction 1 as [|line r lines rs [E Hl] _ IH]; intros output Hlen; simpl.
  - by rewrite app_nil_r.
  - rewrite join_lf_cons in *.
    rewrite (append_record_ok limits output r line); [|done..|].
    + simpl. rewrite IH; rewrite <- !app_assoc in *; simpl in *; done.
    + unfold lenN in *. rewrite !length_app in *. simpl in *. lia.
Qed.

Lemma predictions_within limits t :
  TraceOk limits t ->
  try_fold (fun (_ : unit) event =>
    match event with
    | TraceEvent.RouterSignal _ _ _ _ predictions =>
        guard_err (SimLimits.max_predictions_per_signal limits <? lenN predictions)
          (invalid_trace "router signal contains too many predictions")
    | TraceEvent.Demand _ _ _ _ => Ok tt
    end) tt (ValidatedTrace.events t) = Ok tt.
Proof.
  intros Hok. pose proof (trace_events (t:=t)) as Hev.
  match goal with |- ?m = Ok tt => enough (post m (fun _ => True) (fun _ => False)) as Hp end.
  { by destruct (try_fold _ _ _) as [[]| |]. }
  apply (post_try_fold _ _ (fun _ _ => True)); [done|]. intros dn e rest [] Hl _.
  destruct e as [q r ts l ps|]; [|done]. apply Hev in Hl as (_ & _ & _ & _ & []).
  apply post_guard; [|done]. intros Hlt%N.ltb_lt. lia.
Qed.

Lemma parsed_serialize bytes limits t :
  SimLimits.max_trace_bytes limits <= usize_max ->
  parse_trace sha256_hex bytes limits = Ok t ->
  serialize_trace sha256_hex (ValidatedTrace.header t) (ValidatedTrace.pages t)
    (ValidatedTrace.events t) limits = Ok bytes.
Proof.
  intros Hmax Hparse. pose proof (parse_trace_spec bytes limits) as P. rewrite Hparse in P.
  destruct P as [Hok Hh Hp He Hlen _ (h & ps & es & Eb & Eh & Ep & Ee)]. unfold serialize_trace.
  rewrite Hh. simpl. rewrite Hp, He, !N.eqb_refl. simpl. rewrite predictions_within by done. simpl.
  inversion Eh as [|hl ? ? ? [Ehl Hhl] Enil]; subst. inversion Enil; subst.
  assert (join_lf [hl] = hl ++ [LF]) as Ehd by apply app_nil_r.
  rewrite !join_lf_app, Ehd in *.
  rewrite (append_record_ok limits [] _ hl); [|done..|].
  - simpl. rewrite (append_records_ok limits ps); [|done..|].
    + simpl. rewrite (append_records_ok limits es); [|done..|]; rewrite <- !app_assoc in *.
      * simpl in *. rewrite Hparse. simpl. by rewrite !bool_decide_eq_true_2.
      * done.
    + unfold lenN in *. rewrite !length_app in *. simpl in *. lia.
  - unfold lenN in *. rewrite !length_app in *. simpl in *. lia.
Qed.

(** What was serialized parses back to the same records. *)
Lemma serialize_trace_spec header pages events limits bytes :
  serialize_trace sha256_hex header pages events limits = Ok bytes ->
  exists trace, parse_trace sha256_hex bytes limits = Ok trace
    /\ ValidatedTrace.header trace = header /\ ValidatedTrace.pages trace = pages
    /\ ValidatedTrace.events trace = events.
Proof.
  enough (returns (serialize_trace sha256_hex header pages events limits) (fun bytes =>
    exists trace, parse_trace sha256_hex bytes limits = Ok trace
      /\ ValidatedTrace.header trace = header /\ ValidatedTrace.pages trace = pages
      /\ ValidatedTrace.events trace = events)) as H by exact (H bytes).
  unfold serialize_trace. do 7 (apply returns_bind; intros ? _).
  apply returns_bind. intros t Ht. apply returns_bind.
  destruct (negb _) eqn:Hsame; [done|]. apply negb_false_iff in Hsame.
  rewrite !andb_true_iff, !bool_decide_eq_true in Hsame. destruct Hsame as [[? ?] ?].
  apply returns_ok, returns_ok. by exists t.
Qed.
End json.

(** Reduce the checks that have been decided. *)
#[local] Ltac go := cbn [guard_err mbind result_bind ok_or negb].

(** * Catalogs *)

(** What is checked of page [p] given the pages [pre] before it. *)
Definition page_ok (header : TraceHeader.t) (pre : list PageDescriptor.t) (p : PageDescriptor.t)
    : Prop :=
  PageDescriptor.id p = lenN pre /\ lenN pre <= u32_max
  /\ 0 < PageDescriptor.logical_bytes p <= PageDescriptor.charge_bytes p
  /\ PageDescriptor.charge_bytes p mod TraceHeader.charge_quantum header = 0
  /\ (PageDescriptor.class p <> PageClass.Shared ->
      forall q, q ∈ pre -> PageDescriptor.class q <> PageDescriptor.class p).

Record tuples_ok (dn : list PageDescriptor.t) (s : PageScan.t) : Prop := {
  tuples_index : PageScan.index s = length dn;
  tuples_seen : forall layer expert ordinal, (layer, expert, ordinal) ∈ PageScan.expert_tuples s <->
    exists p, p ∈ dn /\ PageDescriptor.class p = PageClass.Expert layer expert ordinal;
  tuples_keys : forall layer expert, is_Some (PageScan.expert_ordinals s !! (layer, expert)) ->
    exists p ordinal, p ∈ dn /\ PageDescriptor.class p = PageClass.Expert layer expert ordinal
}.

Lemma validate_page_complete header dn page s :
  tuples_ok dn s -> page_ok header dn page -> exists s', validate_page header s page = Ok s'.
Proof.
  intros [Hi Ht _] (Hid & Hw & Hs & Hq & Hc). unfold validate_page. rewrite Hi. fold (lenN dn).
  rewrite (proj2 (N.ltb_ge u32_max (lenN dn)) Hw). cbn. rewrite Hid, N.eqb_refl. cbn.
  rewrite (proj2 (N.eqb_neq (PageDescriptor.logical_bytes page) 0)) by lia.
  rewrite (proj2 (N.eqb_neq (PageDescriptor.charge_bytes page) 0)) by lia. cbn.
  rewrite (proj2 (N.ltb_ge _ _)) by lia. cbn. rewrite Hq. cbn.
  destruct (PageDescriptor.class page) as [|layer expert ordinal] eqn:E; [by eexists|].
  rewrite bool_decide_eq_false_2; [by eexists|].
  intros (p & Hp & Ep)%Ht. by apply (Hc ltac:(done) p).
Qed.

Lemma validate_page_sound header dn page s s' :
  tuples_ok dn s -> validate_page header s page = Ok s' ->
  page_ok header dn page /\ tuples_ok (dn ++ [page]) s'.
Proof.
  intros [Hi Ht Hk]. unfold validate_page. rewrite Hi. fold (lenN dn).
  destruct (N.ltb_spec u32_max (lenN dn)) as [|Hw]; [done|].
  destruct (N.eqb_spec (PageDescriptor.id page) (lenN dn)) as [Hid|]; [|done].
  destruct (N.eqb_spec (PageDescriptor.logical_bytes page) 0); [done|].
  destruct (N.eqb_spec (PageDescriptor.charge_bytes page) 0); [done|].
  destruct (N.ltb_spec (PageDescriptor.charge_bytes page) (PageDescriptor.logical_bytes page)); [done|].
  destruct (N.eqb_spec (PageDescriptor.charge_bytes page mod TraceHeader.charge_quantum header) 0)
    as [Hq|]; [|done]. cbn.
  assert (S (length dn) = length (dn ++ [page])) as Hlen by (rewrite length_app; simpl; lia).
  destruct (PageDescriptor.class page) as [|layer expert ordinal] eqn:E.
  - intros [= <-]. split; [split_and!; [done | done | lia | lia | done | by rewrite E]|].
    split; [done | | intros l e (p & o & ?)%Hk; exists p, o; set_solver].
    intros l e o. cbn. rewrite Ht. split; intros (p & Hp & ?); exists p; [set_solver|].
    apply elem_of_app in Hp as [?|E']; [done|]. apply list_elem_of_singleton in E' as ->. congruence.
  - case_bool_decide as Hn; [done|]. intros [= <-]. split.
    + split_and!; [done | done | lia | lia | done|]. rewrite E. intros _ q Hq' Eq. apply Hn, Ht. eauto.
    + split; [done | |].
      2: { intros l e. cbn. destruct (decide ((layer, expert) = (l, e))) as [[= <- <-]|Hne].
           - intros _. exists page, ordinal. set_solver.
           - rewrite lookup_insert_ne by done. intros (p & o & ?)%Hk. exists p, o. set_solver. }
      intros l e o. cbn. rewrite elem_of_union, elem_of_singleton, Ht. split.
      * intros [[= -> -> ->]|(p & Hp & ?)]; [exists page | exists p]; set_solver.
      * intros (p & [Hp| ->%list_elem_of_singleton]%elem_of_app & Ep); [eauto|]. left. congruence.
Qed.

(** The indexes agree with the catalog: what the events look up. *)
Record catalog_exact (c : PageCatalog.t) : Prop := {
  exact_ok : CatalogOk c;
  exact_experts : forall layer expert, is_Some (PageCatalog.expert_pages_of c !! (layer, expert)) <->
    exists p ordinal, p ∈ PageCatalog.pages c
      /\ PageDescriptor.class p = PageClass.Expert layer expert ordinal
}.

Lemma exact_page c id : catalog_exact c ->
  is_Some (PageCatalog.page_index c !! id) <-> id < lenN (PageCatalog.pages c).
Proof.
  intros [Hok _]. unfold lenN. split.
  - intros [i Hi]. destruct (cat_page id i Hi) as (p & Hp & <-).
    destruct (cat_index i p Hp) as [-> _]. apply lookup_lt_Some in Hp. lia.
  - intros Hlt. destruct (lookup_lt_is_Some_2 (PageCatalog.pages c) (N.to_nat id)) as [p Hp]; [lia|].
    destruct (cat_index _ p Hp) as [E Hi]. rewrite E, N2Nat.id in Hi. by eexists.
Qed.

Lemma validate_pages_exact header pages :
  (each_prefix (page_ok header) pages -> exists r, validate_pages header pages = Ok r)
  /\ forall page_index expert_pages, validate_pages header pages = Ok (page_index, expert_pages) ->
       each_prefix (page_ok header) pages /\ catalog_exact (PageCatalog.mk pages page_index expert_pages).
Proof.
  destruct (try_fold_exact (validate_page header) (page_ok header) tuples_ok
              (PageScan.mk 0 ∅ ∅ ∅) pages) as [H1 H2].
  - split; [done | set_solver|]. intros l e [x Hx]. cbn [PageScan.expert_ordinals] in Hx. by rewrite lookup_empty in Hx.
  - intros dn x b Hb. by apply validate_page_complete.
  - intros dn x b b'. apply validate_page_sound.
  - split.
    + intros [s Hs]%H1. unfold validate_pages. rewrite Hs. by eexists.
    + intros pi ep H. pose proof (validate_pages_ok header pages) as Hc. rewrite H in Hc. simpl in Hc.
      unfold validate_pages in H. apply bind_ok_inv in H as (s & Hs & [= <- <-]).
      destruct (H2 s Hs) as [Hp [_ _ Hk]]. split; [done|]. split; [done|]. intros l e. split.
      * cbn. intros [x Hx]. apply Hk. rewrite lookup_fmap in Hx.
        destruct (PageScan.expert_ordinals s !! (l, e)); [by eexists | done].
      * intros (p & o & Hp' & Ec). assert (PageDescriptor.id p ∈ PageCatalog.expert_pages (PageCatalog.mk pages
          (PageScan.page_index s) ((fun entries => (sort_by_key (sort_key (K:=N * N)) entries).*2)
            <$> PageScan.expert_ordinals s)) l e) as Hin by (apply cat_expert_pages; eauto).
        unfold PageCatalog.expert_pages in Hin. destruct (PageCatalog.expert_pages_of _ !! (l, e));
          [by eexists | by apply elem_of_nil in Hin].
Qed.

(** * Events *)

Lemma validate_predictions_complete c limits layer predictions :
  predictions_ok c limits layer predictions ->
  validate_predictions layer predictions (PageCatalog.expert_pages_of c) limits = Ok tt.
Proof.
  intros [Hn Hd Hsum Hk]. unfold validate_predictions. rewrite (proj2 (N.ltb_ge _ _)) by done. cbn.
  enough (forall ps acc total, (forall p, p ∈ ps -> ExpertPrediction.expert p ∉ acc) ->
    NoDup (ExpertPrediction.expert <$> ps) ->
    total + sumN ExpertPrediction.score_ppm ps <= SCORE_SCALE_PPM ->
    (forall p, p ∈ ps -> is_Some (PageCatalog.expert_pages_of c !! (layer, ExpertPrediction.expert p))) ->
    exists r, try_fold (validate_prediction layer (PageCatalog.expert_pages_of c)) (acc, total) ps = Ok r)
    as H.
  { destruct (H predictions ∅ 0) as [r Hr]; [set_solver | done | done | done |].
    unfold ExpertPrediction.expert in *. by rewrite Hr. }
  clear. induction ps as [|p ps IH]; intros acc total Hacc Hd Hs Hk; [by eexists|].
  cbn [try_fold fmap list_fmap sumN foldr] in *. apply NoDup_cons in Hd as [Hp Hd].
  change (foldr _ _ ps) with (sumN ExpertPrediction.score_ppm ps) in Hs.
  cbn [validate_prediction]. rewrite (proj2 (N.ltb_ge _ _)) by lia. go.
  unfold checked_add. rewrite (proj2 (N.leb_le _ _)) by (unfold SCORE_SCALE_PPM, u64_max in *; lia). go.
  rewrite (proj2 (N.ltb_ge _ _)) by lia. go.
  rewrite (bool_decide_eq_false_2 (ExpertPrediction.expert p ∈ acc)) by (apply Hacc; left). go.
  rewrite bool_decide_eq_true_2 by (apply Hk; left). go. apply IH; [|done|lia|].
  - intros q Hq. rewrite elem_of_union, elem_of_singleton. intros [E|Hin].
    + apply Hp. rewrite <- E. by apply list_elem_of_fmap_2.
    + revert Hin. apply Hacc. by right.
  - intros q Hq. apply Hk. by right.
Qed.

(** Unlike [events_scan_ok], everything the scan records comes from an event. *)
Record events_exact (dn : list TraceEvent.t) (s : EventScan.t) : Prop := {
  ex_index : EventScan.index s = length dn;
  ex_latest : forall request latest, EventScan.latest_realized_step s !! request = Some latest ->
    exists q p, TraceEvent.Demand q request latest p ∈ dn;
  ex_realized : forall q request step p, TraceEvent.Demand q request step p ∈ dn ->
    (request, step) ∈ EventScan.realized_steps s;
  ex_targets : forall request target_step layer,
    (request, target_step, layer) ∈ EventScan.signal_targets s ->
    exists q ps, TraceEvent.RouterSignal q request target_step layer ps ∈ dn
}.

Lemma validate_event_complete c limits dn e s :
  events_exact dn s -> event_ok c limits dn e ->
  exists s', validate_event (PageCatalog.page_index c) (PageCatalog.expert_pages_of c) limits s e = Ok s'.
Proof.
  intros [Hi Hl Hr Ht] (Hseq & Hw & He). unfold validate_event. rewrite Hi. fold (lenN dn).
  rewrite (proj2 (N.ltb_ge _ _)), Hseq, N.eqb_refl by done. cbn.
  destruct e as [q request target_step layer predictions|q request step page].
  - destruct He as (Hcausal & Hnew & Hpred).
    replace (match EventScan.latest_realized_step s !! request with
             | Some latest => target_step <=? latest | None => false end) with false.
    2: { destruct (EventScan.latest_realized_step s !! request) as [latest|] eqn:E; [|done].
         apply Hl in E as (q' & p & Hin%Hcausal). symmetry. apply N.leb_gt. lia. }
    cbn. rewrite bool_decide_eq_false_2 by (intros (q' & ps & Hin)%Ht; by eapply Hnew). cbn.
    rewrite validate_predictions_complete by done. by eexists.
  - destruct He as [Hknown Hmono]. rewrite bool_decide_eq_true_2 by done. cbn.
    replace (match EventScan.latest_realized_step s !! request with
             | Some latest => step <? latest | None => false end) with false; [by eexists|].
    destruct (EventScan.latest_realized_step s !! request) as [latest|] eqn:E; [|done].
    apply Hl in E as (q' & p & Hin%Hmono). symmetry. apply N.ltb_ge. lia.
Qed.

Lemma validate_event_exact c limits dn e s s' :
  events_exact dn s ->
  validate_event (PageCatalog.page_index c) (PageCatalog.expert_pages_of c) limits s e = Ok s' ->
  events_exact (dn ++ [e]) s'.
Proof.
  intros [Hi Hl Hr Ht]. unfold validate_event.
  assert (S (EventScan.index s) = length (dn ++ [e])) as Hlen by (rewrite length_app, Hi; simpl; lia).
  destruct e as [q request target_step layer predictions|q request step page];
    intros H; repeat (apply bind_ok_inv in H as (? & _ & H); cbn beta iota in H);
    injection H as <-; split; cbn; try done.
  - intros r l (q' & p & ?)%Hl. exists q', p. set_solver.
  - intros q' r l p Hin. apply (Hr q' r l p). set_solver.
  - intros r t l [[= -> -> ->]%elem_of_singleton|(q' & ps & ?)%Ht]%elem_of_union;
      [exists q, predictions | exists q', ps]; set_solver.
  - intros r l. destruct (decide (request = r)) as [->|Hne].
    + rewrite lookup_insert_eq. intros [= <-]. exists q, page. set_solver.
    + rewrite lookup_insert_ne by done. intros (q' & p & ?)%Hl. exists q', p. set_solver.
  - intros q' r l p [Hin%Hr|[= -> -> -> ->]%list_elem_of_singleton]%elem_of_app; set_solver.
  - intros r t l (q' & ps & ?)%Ht. exists q', ps. set_solver.
Qed.

(** Every signal is realized by a demand of its target step. *)
Definition realized (events : list TraceEvent.t) : Prop :=
  forall q request target_step layer ps,
    TraceEvent.RouterSignal q request target_step layer ps ∈ events ->
    exists q' p, TraceEvent.Demand q' request target_step p ∈ events.

Lemma validate_events_complete c limits events :
  each_prefix (event_ok c limits) events -> realized events ->
  validate_events events (PageCatalog.page_index c) (PageCatalog.expert_pages_of c) limits = Ok tt.
Proof.
  intros Hev Hreal. unfold validate_events.
  destruct (try_fold_exact (validate_event (PageCatalog.page_index c) (PageCatalog.expert_pages_of c) limits)
    (event_ok c limits) (fun dn s => events_exact dn s /\ events_scan_ok c limits dn s)
    (EventScan.mk 0 ∅ ∅ ∅) events) as [H1 H2].
  - split; split; simpl; try done; try apply each_prefix_nil; set_solver.
  - intros dn e s [Hs _]. by apply validate_event_complete.
  - intros dn e s s' [Hs Hok] H. pose proof (validate_event_ok c limits dn s e Hok) as Hp.
    rewrite H in Hp. split_and!; [|by eapply validate_event_exact | done].
    apply each_prefix_last, Hp.
  - destruct (H1 Hev) as [s Hs]. rewrite Hs. destruct (H2 s Hs) as [_ [[_ _ Hr Ht] _]]. cbn.
    assert (forall r t l, (r, t, l) ∈ elements (EventScan.signal_targets s) ->
              (r, t) ∈ EventScan.realized_steps s) as Hall.
    { intros r t l Hin%elem_of_elements. apply Ht in Hin as (q & ps & Hin).
      apply Hreal in Hin as (q' & p & Hin). by eapply Hr. }
    induction (elements (EventScan.signal_targets s)) as [|[[r t] l] rest IH]; [done|]. cbn.
    rewrite bool_decide_eq_true_2 by (eapply Hall; left). apply IH. intros ????. eapply Hall. by right.
Qed.

(** The conditions on events, in terms of the catalog alone. *)
Record predictions_valid (pages : list PageDescriptor.t) (limits : SimLimits.t) (layer : N)
    (predictions : list ExpertPrediction.t) : Prop := {
  valid_count : lenN predictions <= SimLimits.max_predictions_per_signal limits;
  valid_distinct : NoDup (ExpertPrediction.expert <$> predictions);
  valid_sum : sumN ExpertPrediction.score_ppm predictions <= SCORE_SCALE_PPM;
  valid_known : forall prediction, prediction ∈ predictions -> exists p ordinal, p ∈ pages
    /\ PageDescriptor.class p = PageClass.Expert layer (ExpertPrediction.expert prediction) ordinal
}.

Definition event_valid (pages : list PageDescriptor.t) (limits : SimLimits.t)
    (pre : list TraceEvent.t) (e : TraceEvent.t) : Prop :=
  TraceEvent.sequence e = lenN pre /\ lenN pre <= u64_max /\
  match e with
  | TraceEvent.Demand _ request step page =>
      page < lenN pages /\ forall q s p, TraceEvent.Demand q request s p ∈ pre -> s <= step
  | TraceEvent.RouterSignal _ request target_step layer predictions =>
      (forall q s p, TraceEvent.Demand q request s p ∈ pre -> s < target_step)
      /\ (forall q ps, TraceEvent.RouterSignal q request target_step layer ps ∉ pre)
      /\ predictions_valid pages limits layer predictions
  end.

Lemma event_ok_valid c limits pre e :
  catalog_exact c -> event_ok c limits pre e <-> event_valid (PageCatalog.pages c) limits pre e.
Proof.
  intros Hc. unfold event_ok, event_valid. destruct e as [q r t l ps|q r s p]; [|by rewrite exact_page].
  assert (predictions_ok c limits l ps <-> predictions_valid (PageCatalog.pages c) limits l ps) as ->;
    [|done].
  split; intros [Hn Hd Hs Hk]; split; try done; intros p Hp;
    [apply (exact_experts c Hc) | apply (exact_experts c Hc)]; by apply Hk.
Qed.

(** * Bytes *)

Definition plain (b : N) : Prop := b < 128 /\ b <> LF /\ b <> CR.

(** A record that the codec maps to one line of printable text and back. *)
Record transcribed {T} `{SerdeJson T} (limits : SimLimits.t) (line : list N) (r : T) : Prop := {
  transcribed_to : to_vec r = Some line;
  transcribed_from : from_slice line = Some r;
  transcribed_nonempty : line <> [];
  transcribed_plain : Forall plain line;
  transcribed_length : lenN line <= SimLimits.max_line_bytes limits
}.

Lemma parse_canonical_record_complete {T} `{SerdeJson T} limits line (r : T) :
  transcribed limits line r -> parse_canonical_record line limits = Ok r.
Proof.
  intros [Ht Hf Hn _ Hl]. unfold parse_canonical_record.
  rewrite bool_decide_eq_false_2 by done. go. rewrite (proj2 (N.ltb_ge _ _)) by done. go.
  rewrite Hf. go. rewrite Ht. go. by rewrite bool_decide_eq_true_2.
Qed.

Lemma parse_records_complete {T} `{SerdeJson T} limits ended lines (rs : list T) rest n :
  Forall2 (transcribed limits) lines rs -> n + lenN rs <= usize_max ->
  parse_records (length rs) (lines ++ rest) n limits ended = Ok (rs, rest, n + lenN rs).
Proof.
  intros Hall. revert n. induction Hall as [|line r lines rs Hr _ IH]; intros n Hn.
  - simpl. do 2 f_equal. unfold lenN. simpl. lia.
  - unfold lenN in *. cbn [length app parse_records] in *. unfold checked_add.
    rewrite (proj2 (N.leb_le _ _)) by lia. go.
    rewrite (parse_canonical_record_complete limits line r) by done. go.
    rewrite IH by lia. go. do 2 f_equal. lia.
Qed.

Lemma split_lf_cons line rest : LF ∉ line -> split_lf (line ++ LF :: rest) = line :: split_lf rest.
Proof.
  induction line as [|b line IH]; intros Hl; simpl; [done|].
  apply not_elem_of_cons in Hl as [Hb Hl]. rewrite (proj2 (N.eqb_neq b LF)) by done. by rewrite IH.
Qed.

Lemma split_lf_last line : LF ∉ line -> split_lf line = [line].
Proof.
  induction line as [|b line IH]; intros Hl; simpl; [done|].
  apply not_elem_of_cons in Hl as [Hb Hl]. rewrite (proj2 (N.eqb_neq b LF)) by done. by rewrite IH.
Qed.

Lemma split_join_lf lines line :
  Forall (fun l => LF ∉ l) lines -> LF ∉ line -> split_lf (join_lf lines ++ line) = lines ++ [line].
Proof.
  intros Hl Hline. induction Hl as [|l lines Hx _ IH]; [by apply split_lf_last|].
  rewrite join_lf_cons, <- !app_assoc. simpl. rewrite split_lf_cons by done. by rewrite IH.
Qed.

Lemma plain_no_lf line : Forall plain line -> LF ∉ line.
Proof. intros H Hin. rewrite list.Forall_forall in H. by apply H in Hin as (_ & ? & _). Qed.

Lemma join_lf_bytes lines :
  Forall (Forall plain) lines -> Forall (fun b => b < 128 /\ b <> CR) (join_lf lines).
Proof.
  induction 1 as [|line lines Hl _ IH]; [constructor|]. rewrite join_lf_cons, !Forall_app.
  split_and!; [|by repeat constructor|done]. eapply Forall_impl; [exact Hl|]. by intros b (? & _ & ?).
Qed.

Lemma lenN_join_lf lines : lenN lines <= lenN (join_lf lines).
Proof.
  unfold lenN. induction lines as [|line lines IH]; [done|]. rewrite join_lf_cons, !length_app. simpl. lia.
Qed.

(** The framing of lines is accepted, and the content is split into them. *)
Lemma framing_complete limits lines :
  lines <> [] -> Forall (Forall plain) lines -> lenN (join_lf lines) <= SimLimits.max_trace_bytes limits ->
  validate_framing (join_lf lines) limits = Ok tt
  /\ split_lf (take (length (join_lf lines) - 1) (join_lf lines)) = lines.
Proof.
  intros Hne Hp Hl. split.
  - unfold validate_framing. rewrite (proj2 (N.ltb_ge _ _)) by done. go.
    assert (last (join_lf lines) = Some LF) as ->.
    { destruct lines as [|line lines _] using rev_ind; [done|].
      rewrite join_lf_app, join_lf_cons. cbn. rewrite app_nil_r, app_assoc. apply last_snoc. }
    rewrite (bool_decide_eq_true_2 (Some LF = Some LF)) by done. go. pose proof (join_lf_bytes lines Hp) as Hb.
    rewrite list.Forall_forall in Hb. rewrite bool_decide_eq_false_2 by (intros [_ ?]%Hb; done). go.
    rewrite (proj2 (forallb_forall _ _)); [done|]. intros b [Hb' _]%list_elem_of_In%Hb. by apply N.ltb_lt.
  - destruct lines as [|line lines _] using rev_ind; [done|]. apply Forall_app in Hp as [Hp Hline].
    apply Forall_cons_1 in Hline as [Hline _].
    rewrite join_lf_app, join_lf_cons. cbn. rewrite app_nil_r, app_assoc, length_app. cbn.
    rewrite Nat.add_sub, take_app_length. apply split_join_lf; [|by apply plain_no_lf].
    eapply Forall_impl; [exact Hp | apply plain_no_lf].
Qed.

Lemma split_lf_lines bytes :
  Forall (fun line => (LF ∉ line) /\ forall b, b ∈ line -> b ∈ bytes) (split_lf bytes).
Proof.
  induction bytes as [|b bytes IH]; simpl; [by repeat constructor; [intros ?%elem_of_nil|intros ??]|].
  assert (forall line : list N, (LF ∉ line) /\ (forall x, x ∈ line -> x ∈ bytes) ->
            (LF ∉ line) /\ forall x, x ∈ line -> x ∈ b :: bytes) as Hw.
  { intros line [? H]. split; [done|]. intros x Hx. right. by apply H. }
  destruct (N.eqb_spec b LF) as [->|Hne].
  - constructor; [split; [apply not_elem_of_nil | intros ? ?%elem_of_nil; done]|].
    eapply Forall_impl; [exact IH | exact Hw].
  - destruct (split_lf bytes) as [|line lines].
    + constructor; [|done]. split; [by intros E%list_elem_of_singleton|].
      intros x ->%list_elem_of_singleton. left.
    + apply Forall_cons in IH as [[Hl Hb] IH]. constructor; [|by eapply Forall_impl].
      split; [by intros [E|?]%elem_of_cons|]. intros x [->|Hx]%elem_of_cons; [left | right; by apply Hb].
Qed.

Lemma framing_sound bytes limits u :
  validate_framing bytes limits = Ok u ->
  lenN bytes <= SimLimits.max_trace_bytes limits /\ last bytes = Some LF
  /\ Forall (Forall plain) (split_lf (take (length bytes - 1) bytes)).
Proof.
  unfold validate_framing. intros H.
  apply bind_ok_inv in H as (u1 & H1%guard_ok_inv%N.ltb_ge & H).
  apply bind_ok_inv in H as (u2 & H2%guard_ok_inv%negb_false_iff%bool_decide_eq_true & H).
  apply bind_ok_inv in H as (u3 & H3%guard_ok_inv%bool_decide_eq_false & H).
  apply guard_ok_inv, negb_false_iff in H. rewrite forallb_forall in H. split_and!; [done..|].
  eapply Forall_impl; [apply split_lf_lines|]. intros line [Hl Hb]. apply list.Forall_forall.
  intros b Hin. assert (b ∈ bytes) as Hbytes by (by apply Hb, elem_of_take in Hin as (i & ?%list_elem_of_lookup_2 & _)).
  split_and!; [by apply N.ltb_lt, H, list_elem_of_In | by intros -> | by intros ->].
Qed.

Lemma parse_canonical_record_sound {T} `{SerdeJson T} limits line (r : T) :
  Forall plain line -> parse_canonical_record line limits = Ok r -> transcribed limits line r.
Proof.
  intros Hp H0. unfold parse_canonical_record in H0.
  apply bind_ok_inv in H0 as (u1 & H1%guard_ok_inv%bool_decide_eq_false & H0).
  apply bind_ok_inv in H0 as (u2 & H2%guard_ok_inv%N.ltb_ge & H0).
  apply bind_ok_inv in H0 as (v & Hv%ok_or_inv & H0).
  apply bind_ok_inv in H0 as (e & He%ok_or_inv & H0).
  apply bind_ok_inv in H0 as (u3 & H3%guard_ok_inv%negb_false_iff%bool_decide_eq_true & [= <-]).
  split; [by subst | done..].
Qed.

Lemma parse_records_sound {T} `{SerdeJson T} count lines n limits ended (rs : list T) rest m :
  Forall (Forall plain) lines -> parse_records count lines n limits ended = Ok (rs, rest, m) ->
  exists used, lines = used ++ rest /\ length rs = count /\ Forall2 (transcribed limits) used rs.
Proof.
  revert lines n rs. induction count as [|count IH]; intros lines n rs Hp; simpl.
  - intros [= <- <- <-]. by exists [].
  - intros (n' & _ & Hr)%bind_ok_inv. destruct lines as [|line lines]; [done|].
    apply Forall_cons in Hp as [Hline Hp].
    apply bind_ok_inv in Hr as (r & Hr & Hrs). apply bind_ok_inv in Hrs as ([[rs' rest'] m'] & Hrs & E).
    injection E as <- -> ->. destruct (IH _ _ _ Hp Hrs) as (used & -> & <- & Hu).
    exists (line :: used). split_and!; [done..|]. constructor; [|done].
    by apply parse_canonical_record_sound.
Qed.

(** * Traces *)

(** The records of a trace that the parser accepts. *)
Record acceptable (limits : SimLimits.t) (header : TraceHeader.t) (pages : list PageDescriptor.t)
    (events : list TraceEvent.t) : Prop := {
  accept_header : validate_header header limits = Ok tt;
  accept_page_count : TraceHeader.page_count header = lenN pages;
  accept_event_count : TraceHeader.event_count header = lenN events;
  accept_pages : each_prefix (page_ok header) pages;
  accept_events : each_prefix (event_valid pages limits) events;
  accept_realized : realized events
}.

(** The bytes are the lines of the records. *)
Definition written `{SerdeJson TraceHeader.t} `{SerdeJson PageDescriptor.t} `{SerdeJson TraceEvent.t}
    (limits : SimLimits.t) (header : TraceHeader.t) (pages : list PageDescriptor.t)
    (events : list TraceEvent.t) (bytes : list N) : Prop :=
  lenN bytes <= SimLimits.max_trace_bytes limits
  /\ exists hl pl el, bytes = join_lf (hl :: pl ++ el) /\ transcribed limits hl header
     /\ Forall2 (transcribed limits) pl pages /\ Forall2 (transcribed limits) el events.

Section json.
Context `{HJ : SerdeJson TraceHeader.t} `{PJ : SerdeJson PageDescriptor.t}
        `{EJ : SerdeJson TraceEvent.t}.
Context (sha256_hex : list N -> string).

Lemma transcribed_lines {T} `{SerdeJson T} limits lines (rs : list T) :
  Forall2 (transcribed limits) lines rs -> Forall (Forall plain) lines.
Proof. induction 1 as [|line r lines rs [] _ IH]; by constructor. Qed.

Lemma parse_trace_complete limits header pages events bytes :
  SimLimits.max_trace_bytes limits <= usize_max ->
  acceptable limits header pages events -> written limits header pages events bytes ->
  exists t, parse_trace sha256_hex bytes limits = Ok t /\ ValidatedTrace.header t = header
    /\ ValidatedTrace.pages t = pages /\ ValidatedTrace.events t = events.
Proof.
  intros Hmax [Hh Hpc Hec Hp He Hr] (Hlen & hl & pl & el & -> & Thl & Tpl & Tel).
  pose proof (Forall2_length _ _ _ Tpl) as Lp. pose proof (Forall2_length _ _ _ Tel) as Le.
  pose proof (lenN_join_lf (hl :: pl ++ el)) as Hlines. unfold lenN in Hlines. cbn [length] in Hlines.
  rewrite length_app in Hlines. fold (lenN (join_lf (hl :: pl ++ el))) in Hlines.
  destruct (framing_complete limits (hl :: pl ++ el)) as [Hf Hs]; [done | | done|].
  { constructor; [by destruct Thl|]. apply Forall_app. split; [exact (transcribed_lines _ _ _ Tpl) | exact (transcribed_lines _ _ _ Tel)]. }
  unfold parse_trace. rewrite Hf. go.
  assert (join_lf (hl :: pl ++ el) <> []) as Hne by (intros E; rewrite E in Hlines; change (lenN (@nil N)) with 0 in Hlines; lia).
  destruct (join_lf (hl :: pl ++ el)) as [|b0 bs] eqn:Eb; [done|]. rewrite <- Eb in *. go. rewrite Hs.
  rewrite (parse_canonical_record_complete limits hl header) by done. go. rewrite Hh. go.
  rewrite Hpc. unfold lenN at 1. rewrite Nat2N.id.
  rewrite (parse_records_complete limits _ pl pages el 1) by (done || unfold lenN; lia). go.
  rewrite Hec. unfold lenN at 1. rewrite Nat2N.id.
  rewrite <- (app_nil_r el), (parse_records_complete limits _ el events [] (1 + lenN pages))
    by (done || unfold lenN; lia). go.
  rewrite bool_decide_eq_true_2 by done. go.
  destruct (validate_pages_exact header pages) as [V1 V2]. destruct (V1 Hp) as [[pi ep] Hv].
  destruct (V2 pi ep Hv) as [_ Hc]. rewrite Hv. go.
  pose proof (validate_events_complete (PageCatalog.mk pages pi ep) limits events) as Hve.
  cbn [PageCatalog.page_index PageCatalog.expert_pages_of] in Hve. rewrite Hve; [|clear Hve|done].
  - by eexists.
  - intros pre e suf Hpre. apply event_ok_valid; [done|]. by eapply He.
Qed.

Lemma parse_trace_sound_exact bytes limits t :
  parse_trace sha256_hex bytes limits = Ok t ->
  acceptable limits (ValidatedTrace.header t) (ValidatedTrace.pages t) (ValidatedTrace.events t)
  /\ written limits (ValidatedTrace.header t) (ValidatedTrace.pages t) (ValidatedTrace.events t) bytes.
Proof.
  intros H. pose proof (parse_trace_spec sha256_hex bytes limits) as P. rewrite H in P. simpl in P.
  destruct P as [Hok Hh Hpc Hec Hlen _ _]. unfold parse_trace in H.
  apply bind_ok_inv in H as (u & (_ & Hlast & Hplain)%framing_sound & H).
  pose proof (take_last_lf bytes Hlast) as Hjoin. rewrite <- join_split_lf in Hjoin.
  apply bind_ok_inv in H as (content & Hcontent & H).
  destruct bytes as [|b0 bs] eqn:Eb; [done|]. rewrite <- Eb in *. injection Hcontent as <-.
  destruct (split_lf (take (length bytes - 1) bytes)) as [|hl lines]; [done|].
  apply Forall_cons in Hplain as [Hhl Hplain].
  apply bind_ok_inv in H as (header & Hheader%parse_canonical_record_sound & H); [|done].
  apply bind_ok_inv in H as (u' & _ & H).
  apply bind_ok_inv in H as ([[pages lines1] n1] & (pl & -> & Hpl & Tpl)%parse_records_sound & H); [|done].
  apply Forall_app in Hplain as [_ Hplain].
  apply bind_ok_inv in H as ([[events lines2] n2] & (el & -> & Hel & Tel)%parse_records_sound & H); [|done].
  apply bind_ok_inv in H as (u2 & Hrest%guard_ok_inv%negb_false_iff%bool_decide_eq_true & H).
  apply bind_ok_inv in H as ([pi ep] & Hpages%(proj2 (validate_pages_exact _ _)) & H).
  apply bind_ok_inv in H as (u3 & _ & [= <-]). destruct Hpages as [Hpages Hexact]. simpl in *. subst lines2.
  split.
  - split; try done; [|exact (trace_realized (limits:=limits))].
    intros pre e suf Hpre. apply (event_ok_valid (PageCatalog.mk pages pi ep)); [done|].
    exact (trace_events (limits:=limits) pre e suf Hpre).
  - split; [done|]. exists hl, pl, el. rewrite app_nil_r in Hjoin. done.
Qed.
End json.
