(* ===== verification/SimTinyLfu.v ===== *)
(** The TinyLFU sketch: its representation invariant, that no operation indexes
    out of range, and that between two agings an estimate never falls below the
    (saturated) number of observations. *)
From stdpp Require Import prelude gmap strings.
From S2P Require Import Prelude SimModel SimPolicy.
#[local] Open Scope N_scope.
#[local] Arguments TinyLfu.splitmix : simpl never.

Record tiny_ok (s : TinyLfu.t) : Prop := {
  tiny_depth : 1 <= TinyLfu.depth s <= 8;
  tiny_width : 0 < TinyLfu.width s <= 65536;
  tiny_counters : lenN (TinyLfu.counters s) = TinyLfu.depth s * TinyLfu.width s;
  tiny_door : lenN (TinyLfu.doorkeeper s) = (TinyLfu.width s + 7) / 8;
  tiny_max : Forall (fun c => c <= SKETCH_COUNTER_MAX) (TinyLfu.counters s);
  tiny_observed : TinyLfu.observed s < TinyLfu.sample_accesses s <= u64_max
}.

(** Total readings of the sketch. *)
Definition col (s : TinyLfu.t) (page row : N) : N :=
  TinyLfu.splitmix (N.lxor page (default 0 (HASH_SEEDS !! N.to_nat row))) mod TinyLfu.width s.
Definition index (s : TinyLfu.t) (page row : N) : nat :=
  N.to_nat (row * TinyLfu.width s + col s page row).
Definition ctr (s : TinyLfu.t) (page row : N) : N := TinyLfu.counters s !!! index s page row.
Definition door (s : TinyLfu.t) (page row : N) : bool :=
  N.testbit (TinyLfu.doorkeeper s !!! N.to_nat (col s page row / 8)) (col s page row mod 8).

Lemma land_shiftl_testbit b k : negb (N.land b (N.shiftl 1 k) =? 0) = N.testbit b k.
Proof.
  destruct (N.testbit b k) eqn:E.
  - apply negb_true_iff, N.eqb_neq. intros H0.
    assert (N.testbit (N.land b (N.shiftl 1 k)) k = true) as Ht.
    { rewrite N.land_spec, E, N.shiftl_spec_high', N.sub_diag by lia. done. }
    by rewrite H0, N.bits_0 in Ht.
  - apply negb_false_iff, N.eqb_eq, N.bits_inj. intros j. rewrite N.land_spec, N.bits_0.
    destruct (N.eq_dec j k) as [->|Hne]; [by rewrite E|].
    destruct (N.lt_ge_cases j k) as [Hlt|Hge].
    + rewrite N.shiftl_spec_low by done. by rewrite andb_false_r.
    + rewrite N.shiftl_spec_high' by done.
      destruct (j - k) eqn:Ejk; [lia|]. rewrite <- Ejk.
      rewrite (N.bits_above_log2 1 (j - k)); [by rewrite andb_false_r | simpl; lia].
Qed.

Lemma list_min_spec l : l <> [] -> TinyLfu.list_min l ∈ l /\ forall x, x ∈ l -> TinyLfu.list_min l <= x.
Proof.
  destruct l as [|x l]; [done|]. intros _. simpl. revert x.
  induction l as [|y l IH]; intros x; simpl; [set_solver + by lia|].
  destruct (IH (N.min x y)) as [Hin Hle]. split.
  - apply elem_of_cons in Hin as [->|Hin]; [|set_solver].
    destruct (N.min_spec x y) as [[_ ->]|[_ ->]]; set_solver.
  - pose proof (Hle (N.min x y) (list_elem_of_here _ _)) as Hxy.
    intros z [->|[->|Hz]%elem_of_cons]%elem_of_cons; [lia..|]. apply Hle. by right.
Qed.

Section sketch.
Context (s : TinyLfu.t) (Hs : tiny_ok s).

Lemma col_lt page row : col s page row < TinyLfu.width s.
Proof. apply N.mod_lt. pose proof (tiny_width _ Hs). lia. Qed.

Lemma elem_of_rows row : row ∈ TinyLfu.rows s <-> row < TinyLfu.depth s.
Proof. apply elem_of_rangeN. Qed.

Lemma column_ok page row : row < TinyLfu.depth s -> TinyLfu.column s page row = Ok (col s page row).
Proof.
  intros Hrow. unfold TinyLfu.column, col. pose proof (tiny_depth _ Hs).
  destruct (lookup_lt_is_Some_2 HASH_SEEDS (N.to_nat row)) as [seed Hseed]; [simpl; lia|].
  by rewrite Hseed.
Qed.

Lemma index_lt page row :
  row < TinyLfu.depth s -> (index s page row < length (TinyLfu.counters s))%nat.
Proof.
  intros Hrow. pose proof (tiny_counters _ Hs) as Hc. pose proof (col_lt page row).
  unfold index, lenN in *. nia.
Qed.

Lemma door_lt page row : (N.to_nat (col s page row / 8) < length (TinyLfu.doorkeeper s))%nat.
Proof.
  pose proof (tiny_door _ Hs) as Hd. pose proof (col_lt page row) as Hc.
  unfold lenN in *.
  assert (col s page row / 8 < (TinyLfu.width s + 7) / 8); [|lia].
  apply N.Div0.div_lt_upper_bound.
  pose proof (N.div_mod (TinyLfu.width s + 7) 8). pose proof (N.mod_lt (TinyLfu.width s + 7) 8). lia.
Qed.

Lemma door_bit_ok page row :
  row < TinyLfu.depth s -> TinyLfu.door_bit s page row = Ok (door s page row).
Proof.
  intros Hrow. unfold TinyLfu.door_bit. rewrite column_ok by done. simpl.
  rewrite (list_lookup_lookup_total_lt _ _ (door_lt page row)). simpl.
  by rewrite land_shiftl_testbit.
Qed.

Lemma all_rows_ok page rs :
  (forall row, row ∈ rs -> row < TinyLfu.depth s) ->
  TinyLfu.all_rows s page rs = Ok (forallb (door s page) rs).
Proof.
  induction rs as [|row rs IH]; intros Hrs; simpl; [done|].
  rewrite door_bit_ok by (apply Hrs; left). simpl.
  destruct (door s page row); simpl; [apply IH; intros; apply Hrs; by right | done].
Qed.

Lemma door_contains_ok page :
  TinyLfu.door_contains s page = Ok (forallb (door s page) (TinyLfu.rows s)).
Proof. apply all_rows_ok. intros row. apply elem_of_rows. Qed.

Lemma counter_ok page row :
  row < TinyLfu.depth s -> TinyLfu.counter s page row = Ok (ctr s page row).
Proof.
  intros Hrow. unfold TinyLfu.counter. rewrite column_ok by done. simpl.
  change (N.to_nat (row * TinyLfu.width s + col s page row)) with (index s page row).
  by rewrite (list_lookup_lookup_total_lt _ _ (index_lt page row Hrow)).
Qed.

Definition least (page : N) : N := TinyLfu.list_min (ctr s page <$> TinyLfu.rows s).

Lemma minimum_ok page : TinyLfu.minimum s page = Ok (least page).
Proof.
  unfold TinyLfu.minimum. rewrite (mapM_Ok _ (ctr s page)); [done|].
  intros row ?%elem_of_rows. by apply counter_ok.
Qed.

Lemma least_spec page :
  (exists row, row < TinyLfu.depth s /\ least page = ctr s page row) /\
  (forall row, row < TinyLfu.depth s -> least page <= ctr s page row).
Proof.
  destruct (list_min_spec (ctr s page <$> TinyLfu.rows s)) as [Hin Hle].
  { intros E%(f_equal length). rewrite length_fmap in E. unfold TinyLfu.rows in E.
    rewrite length_rangeN in E. pose proof (tiny_depth _ Hs). simpl in E. lia. }
  split.
  - apply list_elem_of_fmap in Hin as (row & E & ?%elem_of_rows). by exists row.
  - intros row Hrow. apply Hle, list_elem_of_fmap. exists row. by rewrite elem_of_rows.
Qed.

Lemma ctr_max page row : row < TinyLfu.depth s -> ctr s page row <= SKETCH_COUNTER_MAX.
Proof.
  intros Hrow. pose proof (tiny_max _ Hs) as Hm. rewrite list.Forall_forall in Hm. apply Hm.
  apply list_elem_of_lookup. exists (index s page row).
  apply list_lookup_lookup_total_lt. by apply index_lt.
Qed.

Lemma least_max page : least page <= SKETCH_COUNTER_MAX.
Proof. destruct (proj1 (least_spec page)) as (row & ? & ->). by apply ctr_max. Qed.

Lemma estimate_ok page :
  TinyLfu.estimate s page
    = Ok (least page + if forallb (door s page) (TinyLfu.rows s) then 1 else 0).
Proof.
  unfold TinyLfu.estimate. rewrite minimum_ok. simpl. rewrite door_contains_ok. simpl.
  unfold add_or_panic, checked_add. pose proof (least_max page). unfold SKETCH_COUNTER_MAX in *.
  rewrite (proj2 (N.leb_le _ _)); [done|].
  unfold u64_max. destruct (forallb _ _); lia.
Qed.
End sketch.

(** * Observation *)

(** The fields an observation step leaves alone, and the monotone ones. *)
Record grows (s s' : TinyLfu.t) : Prop := {
  grow_depth : TinyLfu.depth s' = TinyLfu.depth s;
  grow_width : TinyLfu.width s' = TinyLfu.width s;
  grow_sample : TinyLfu.sample_accesses s' = TinyLfu.sample_accesses s;
  grow_observed : TinyLfu.observed s' = TinyLfu.observed s;
  grow_ok : tiny_ok s';
  grow_ctr : forall page row, row < TinyLfu.depth s -> ctr s page row <= ctr s' page row;
  grow_door : forall page row, row < TinyLfu.depth s -> door s page row = true -> door s' page row = true
}.

Lemma grows_refl s : tiny_ok s -> grows s s.
Proof. by split. Qed.

Lemma grows_trans s1 s2 s3 : grows s1 s2 -> grows s2 s3 -> grows s1 s3.
Proof.
  intros [] []. split; try congruence; intros page row Hrow.
  - etrans; [by apply grow_ctr0 | apply grow_ctr1; congruence].
  - intros H. apply grow_door1; [congruence | by apply grow_door0].
Qed.

(** Raising counter [i] to a value within the cap. *)
Lemma grows_counter s i v c :
  tiny_ok s -> TinyLfu.counters s !! i = Some c -> c <= v <= SKETCH_COUNTER_MAX ->
  grows s (TinyLfu.set_counters (<[i := v]> (TinyLfu.counters s)) s).
Proof.
  intros Hs Hi Hv. split; try done.
  - destruct Hs. split; simpl; try done; [unfold lenN in *; by rewrite length_insert|].
    apply Forall_insert; [done | apply Hv].
  - intros page row Hrow. unfold ctr. simpl. fold (index s page row).
    change (index (TinyLfu.set_counters (<[i:=v]> (TinyLfu.counters s)) s) page row)
      with (index s page row).
    destruct (decide (i = index s page row)) as [->|Hne].
    + rewrite list_lookup_total_insert_eq by (by eapply lookup_lt_Some).
      rewrite (list_lookup_total_correct _ _ _ Hi). lia.
    + by rewrite list_lookup_total_insert_ne.
Qed.

(** One row of the conservative update leaves that row above the minimum. *)
Lemma bump_spec s page m row :
  tiny_ok s -> row < TinyLfu.depth s -> m <= ctr s page row ->
  exists s', TinyLfu.bump m page s row = Ok s' /\ grows s s'
    /\ N.min (m + 1) SKETCH_COUNTER_MAX <= ctr s' page row.
Proof.
  intros Hs Hrow Hm. unfold TinyLfu.bump. rewrite column_ok by done. simpl.
  change (N.to_nat (row * TinyLfu.width s + col s page row)) with (index s page row).
  pose proof (list_lookup_lookup_total_lt _ _ (index_lt s Hs page row Hrow)) as Hl.
  rewrite Hl. simpl. fold (ctr s page row) in *. pose proof (ctr_max s Hs page row Hrow) as Hmax.
  destruct (N.eqb_spec (ctr s page row) m) as [E|Hne]; eexists; (split; [done|]).
  - assert (ctr s page row <= N.min (saturating_add u8_max (ctr s page row) 1) SKETCH_COUNTER_MAX
            <= SKETCH_COUNTER_MAX) as Hv.
    { unfold saturating_add, u8_max, SKETCH_COUNTER_MAX in *. lia. }
    set (v := N.min (saturating_add _ _ _) _) in *.
    split; [by eapply grows_counter|]. unfold ctr at 1. simpl.
    change (index (TinyLfu.set_counters _ s) page row) with (index s page row).
    rewrite list_lookup_total_insert_eq by (by apply index_lt).
    subst v. unfold saturating_add, u8_max, SKETCH_COUNTER_MAX in *. lia.
  - split; [by apply grows_refl | lia].
Qed.

(** Setting one doorkeeper bit. *)
Lemma grows_set_bit s j k b :
  tiny_ok s -> TinyLfu.doorkeeper s !! j = Some b ->
  grows s (TinyLfu.set_doorkeeper (<[j := N.lor b (N.shiftl 1 k)]> (TinyLfu.doorkeeper s)) s).
Proof.
  intros Hs Hj. split; try done.
  - destruct Hs. split; simpl; try done. unfold lenN in *. by rewrite length_insert.
  - intros page row Hrow. unfold door. simpl.
    change (col (TinyLfu.set_doorkeeper _ s) page row) with (col s page row).
    destruct (decide (j = N.to_nat (col s page row / 8))) as [->|Hne].
    + rewrite (list_lookup_total_correct _ _ _ Hj).
      rewrite list_lookup_total_insert_eq by (by eapply lookup_lt_Some).
      rewrite N.lor_spec. by intros ->.
    + by rewrite list_lookup_total_insert_ne.
Qed.

Lemma set_door_row s page row :
  tiny_ok s -> row < TinyLfu.depth s ->
  exists s', (col ← TinyLfu.column s page row;
              byte ← expect (TinyLfu.doorkeeper s !! N.to_nat (col / 8));
              Ok (TinyLfu.set_doorkeeper
                    (<[N.to_nat (col / 8) := N.lor byte (N.shiftl 1 (col mod 8))]>
                       (TinyLfu.doorkeeper s)) s) : result SimError TinyLfu.t) = Ok s'
    /\ grows s s' /\ door s' page row = true.
Proof.
  intros Hs Hrow. rewrite column_ok by done. simpl.
  pose proof (list_lookup_lookup_total_lt _ _ (door_lt s Hs page row)) as Hl. rewrite Hl. simpl.
  eexists. split; [done|]. split; [by apply grows_set_bit|]. unfold door. simpl.
  change (col (TinyLfu.set_doorkeeper _ s) page row) with (col s page row).
  rewrite list_lookup_total_insert_eq by (by apply door_lt).
  rewrite N.lor_spec, N.shiftl_spec_high', N.sub_diag by lia. by rewrite orb_true_r.
Qed.

(** The two loops of [observe], as folds over the rows. *)
Lemma bump_rows s page m rs s1 :
  grows s s1 -> (forall row, row ∈ rs -> row < TinyLfu.depth s) ->
  (forall row, row ∈ rs -> m <= ctr s page row) ->
  exists s', try_fold (TinyLfu.bump m page) s1 rs = Ok s' /\ grows s1 s' /\
    forall row, row ∈ rs -> N.min (m + 1) SKETCH_COUNTER_MAX <= ctr s' page row.
Proof.
  intros Hg Hrs Hm. revert s1 Hg.
  induction rs as [|row rs IH]; intros s1 Hg.
  { exists s1. split_and!; [done | by apply grows_refl, (grow_ok _ _ Hg) | by intros ? ?%elem_of_nil]. }
  assert (row < TinyLfu.depth s1) as Hd by (rewrite (grow_depth _ _ Hg); apply Hrs; left).
  assert (m <= ctr s1 page row) as Hm1.
  { etrans; [apply Hm; left | apply (grow_ctr _ _ Hg), Hrs; left]. }
  destruct (bump_spec s1 page m row (grow_ok _ _ Hg) Hd Hm1) as (s2 & E & Hg2 & Hup).
  destruct (IH ltac:(set_solver) ltac:(set_solver) s2 (grows_trans _ _ _ Hg Hg2))
    as (s' & E' & Hg' & Hup').
  exists s'. simpl. rewrite E. split_and!; [done | by eapply grows_trans|].
  intros row' [->|Hin]%elem_of_cons; [|by apply Hup'].
  etrans; [exact Hup | apply (grow_ctr _ _ Hg')]. by rewrite (grow_depth _ _ Hg2).
Qed.

Lemma set_door_spec s page :
  tiny_ok s -> exists s', TinyLfu.set_door s page = Ok s' /\ grows s s' /\
    forall row, row < TinyLfu.depth s -> door s' page row = true.
Proof.
  intros Hs. unfold TinyLfu.set_door.
  assert (forall rs s1, grows s s1 -> (forall row, row ∈ rs -> row < TinyLfu.depth s) ->
    exists s', try_fold (fun s row =>
        col ← TinyLfu.column s page row;
        byte ← expect (TinyLfu.doorkeeper s !! N.to_nat (col / 8));
        Ok (TinyLfu.set_doorkeeper
              (<[N.to_nat (col / 8) := N.lor byte (N.shiftl 1 (col mod 8))]>
                 (TinyLfu.doorkeeper s)) s) : result SimError TinyLfu.t) s1 rs = Ok s'
      /\ grows s1 s' /\ forall row, row ∈ rs -> door s' page row = true) as Hgen.
  { induction rs as [|row rs IH]; intros s1 Hg Hrs.
    { exists s1. split_and!; [done | by apply grows_refl, (grow_ok _ _ Hg) | by intros ? ?%elem_of_nil]. }
    assert (row < TinyLfu.depth s1) as Hd by (rewrite (grow_depth _ _ Hg); apply Hrs; left).
    destruct (set_door_row s1 page row (grow_ok _ _ Hg) Hd) as (s2 & E & Hg2 & Hbit).
    destruct (IH s2 (grows_trans _ _ _ Hg Hg2) ltac:(set_solver)) as (s' & E' & Hg' & Hbits).
    exists s'. cbn [try_fold]. rewrite E. split_and!; [done | by eapply grows_trans|].
    intros row' [->|Hin]%elem_of_cons; [|by apply Hbits].
    apply (grow_door _ _ Hg'); [by rewrite (grow_depth _ _ Hg2) | done]. }
  destruct (Hgen (TinyLfu.rows s) s (grows_refl s Hs)) as (s' & E & Hg & Hbits).
  { intros row. apply elem_of_rangeN. }
  exists s'. split_and!; [done.. |]. intros row Hrow. by apply Hbits, elem_of_rangeN.
Qed.

Lemma age_ok s :
  tiny_ok s \/ (tiny_ok (TinyLfu.set_observed 0 s)
                /\ TinyLfu.observed s = TinyLfu.sample_accesses s) ->
  0 < TinyLfu.sample_accesses s -> tiny_ok (TinyLfu.age s).
Proof.
  intros H Hpos.
  assert (tiny_ok (TinyLfu.set_observed 0 s) /\ TinyLfu.observed s <= TinyLfu.sample_accesses s)
    as [[] Hle].
  { destruct H as [[]|[H ->]]; [split; [split; simpl in *; try done; lia | lia] | done]. }
  split; simpl in *; try done.
  - unfold lenN in *. by rewrite length_fmap.
  - unfold lenN in *. by rewrite length_replicate.
  - apply Forall_fmap. eapply Forall_impl; [exact tiny_max0|]. intros c Hc. simpl.
    rewrite N.shiftr_div_pow2. unfold SKETCH_COUNTER_MAX in *.
    change (2 ^ 1) with 2. pose proof (N.Div0.div_le_mono c 15 2 Hc) as Hd.
    change (15 / 2) with 7 in Hd. lia.
  - split; [|lia]. rewrite N.shiftr_div_pow2. change (2 ^ 1) with 2.
    apply N.Div0.div_lt_upper_bound. lia.
Qed.

(** One observation before the sample fills: the page's door bits are set, and
    if they already were, its least counter is raised. *)
Record observed_step (s s' : TinyLfu.t) (page : N) : Prop := {
  obs_ok : tiny_ok s';
  obs_depth : TinyLfu.depth s' = TinyLfu.depth s;
  obs_width : TinyLfu.width s' = TinyLfu.width s;
  obs_sample : TinyLfu.sample_accesses s' = TinyLfu.sample_accesses s;
  obs_grow : TinyLfu.observed s + 1 < TinyLfu.sample_accesses s ->
    TinyLfu.observed s' = TinyLfu.observed s + 1
    /\ (forall p row, row < TinyLfu.depth s -> ctr s p row <= ctr s' p row)
    /\ (forall p row, row < TinyLfu.depth s -> door s p row = true -> door s' p row = true)
    /\ (forall row, row < TinyLfu.depth s -> door s' page row = true)
    /\ ((forall row, row < TinyLfu.depth s -> door s page row = true) ->
        forall row, row < TinyLfu.depth s ->
          N.min (least s page + 1) SKETCH_COUNTER_MAX <= ctr s' page row)
}.

(** The common tail of [observe]. *)
Lemma observe_tail s s1 page :
  tiny_ok s -> grows s s1 ->
  (forall row, row < TinyLfu.depth s -> door s1 page row = true) ->
  ((forall row, row < TinyLfu.depth s -> door s page row = true) ->
   forall row, row < TinyLfu.depth s ->
     N.min (least s page + 1) SKETCH_COUNTER_MAX <= ctr s1 page row) ->
  exists s', (o ← add_or_panic u64_max (TinyLfu.observed s1) 1;
     let s := TinyLfu.set_observed o s1 in
     Ok (if TinyLfu.sample_accesses s <=? TinyLfu.observed s then TinyLfu.age s else s)
     : result SimError TinyLfu.t) = Ok s' /\ observed_step s s' page.
Proof.
  intros Hs Hg Hdoor Hup. pose proof (tiny_observed _ Hs) as Ho.
  unfold add_or_panic, checked_add. rewrite (grow_observed _ _ Hg).
  rewrite (proj2 (N.leb_le _ _)) by lia. simpl. rewrite (grow_sample _ _ Hg).
  pose proof (grow_ok _ _ Hg) as Hok.
  destruct (N.leb_spec (TinyLfu.sample_accesses s) (TinyLfu.observed s + 1)) as [Hage|Hkeep];
    eexists; (split; [done|]).
  - split; simpl; try apply Hg; [|lia]. apply age_ok; simpl; rewrite (grow_sample _ _ Hg); [|lia].
    right. split; [|lia]. destruct Hok. split; simpl in *; try done. rewrite (grow_sample _ _ Hg). lia.
  - split; simpl; try apply Hg.
    + destruct Hok. split; simpl in *; try done. rewrite (grow_sample _ _ Hg). lia.
    + intros _. split_and!; [done | apply Hg | apply Hg | done | done].
Qed.

Lemma observe_spec s page :
  tiny_ok s -> exists s', TinyLfu.observe s page = Ok s' /\ observed_step s s' page.
Proof.
  intros Hs. unfold TinyLfu.observe. rewrite door_contains_ok by done. simpl.
  destruct (forallb (door s page) (TinyLfu.rows s)) eqn:Hd.
  - rewrite minimum_ok by done. simpl.
    assert (forall row, row < TinyLfu.depth s -> door s page row = true) as Hall.
    { intros row Hrow. rewrite forallb_forall in Hd. apply Hd.
      apply list_elem_of_In, elem_of_rangeN, Hrow. }
    destruct (bump_rows s page (least s page) (TinyLfu.rows s) s (grows_refl s Hs))
      as (s1 & E & Hg & Hup).
    { intros row. apply elem_of_rangeN. }
    { intros row Hrow%elem_of_rangeN. by apply least_spec. }
    rewrite E. apply observe_tail; [done.. | |].
    + intros row Hrow. apply (grow_door _ _ Hg); auto.
    + intros _ row Hrow. by apply Hup, elem_of_rangeN.
  - destruct (set_door_spec s page Hs) as (s1 & E & Hg & Hbits). rewrite E.
    apply observe_tail; [done.. |]. intros Hall. exfalso.
    assert (forallb (door s page) (TinyLfu.rows s) = true); [|congruence].
    apply forallb_forall. intros row Hrow%list_elem_of_In%elem_of_rangeN. auto.
Qed.

Lemma new_ok config :
  TinyLfuConfig.sample_accesses config <= u64_max ->
  post (TinyLfu.new config)
    (fun s => tiny_ok s /\ TinyLfu.observed s = 0
      /\ TinyLfu.sample_accesses s = TinyLfuConfig.sample_accesses config)
    (fun e => exists m, e = InvalidConfig m).
Proof.
  intros Hsample. unfold TinyLfu.new.
  apply post_bind, post_guard; [eauto|]. intros [Hd1 Hd2]%negb_false_iff%andb_true_iff.
  apply post_bind, post_guard; [eauto|]. intros [Hw1 Hw2]%negb_false_iff%andb_true_iff.
  apply post_bind, post_guard; [eauto|]. intros Hsa%N.eqb_neq.
  apply N.leb_le in Hd1, Hd2, Hw1, Hw2. unfold lenN in Hd2. simpl in Hd2.
  apply post_bind, post_checked_mul; [intros _|eauto].
  apply post_bind, post_checked_add; [intros _|eauto]. apply post_ok.
  split; [|done]. split; simpl; [lia.. | | | |].
  - unfold lenN. rewrite length_replicate. lia.
  - unfold lenN. rewrite length_replicate. lia.
  - apply Forall_replicate. done.
  - lia.
Qed.

(** * Frequencies *)

(** Number of observations of [page] in [l]. *)
Definition occurrences (page : N) (l : list N) : N := lenN (filter (fun p => p = page) l).

Lemma occurrences_snoc page l x :
  occurrences page (l ++ [x]) = occurrences page l + (if decide (x = page) then 1 else 0).
Proof.
  unfold occurrences, lenN. rewrite filter_app, length_app. simpl.
  rewrite filter_cons. destruct (decide (x = page)); simpl; lia.
Qed.

(** The sketch accounts for the observations [l] made since it was cleared. *)
Record covers (s : TinyLfu.t) (l : list N) : Prop := {
  cov_ok : tiny_ok s;
  cov_observed : TinyLfu.observed s = lenN l;
  cov_freq : forall page, 0 < occurrences page l -> forall row, row < TinyLfu.depth s ->
    door s page row = true /\ N.min SKETCH_COUNTER_MAX (occurrences page l - 1) <= ctr s page row
}.

Lemma covers_step s l page :
  covers s l -> lenN l + 1 < TinyLfu.sample_accesses s ->
  exists s', TinyLfu.observe s page = Ok s' /\ covers s' (l ++ [page])
    /\ TinyLfu.sample_accesses s' = TinyLfu.sample_accesses s.
Proof.
  intros [Hok Hobs Hfreq] Hlt. destruct (observe_spec s page Hok) as (s' & E & Hst).
  destruct (obs_grow _ _ _ Hst) as (Ho & Hctr & Hdoor & Hset & Hup); [lia|].
  exists s'. split_and!; [done | | apply Hst]. split; [apply Hst | |].
  - rewrite Ho, Hobs. unfold lenN. rewrite length_app. simpl. lia.
  - intros p Hp row Hrow. rewrite (obs_depth _ _ _ Hst) in Hrow.
    rewrite occurrences_snoc in *. destruct (decide (page = p)) as [<-|Hne].
    + split; [by apply Hset|].
      destruct (N.eq_0_gt_0_cases (occurrences page l)) as [H0|Hpos]; [rewrite H0; lia|].
      assert (N.min (least s page + 1) SKETCH_COUNTER_MAX <= ctr s' page row) as Hge.
      { apply Hup; [|done]. intros row' Hr'. by apply Hfreq. }
      destruct (proj1 (least_spec s Hok page)) as (r0 & Hr0 & E0).
      destruct (Hfreq page Hpos r0 Hr0) as [_ Hc]. rewrite <- E0 in Hc. lia.
    + rewrite N.add_0_r in *. destruct (Hfreq p Hp row Hrow) as [Hd Hc].
      split; [by apply Hdoor|]. etrans; [exact Hc | by apply Hctr].
Qed.

Lemma covers_run s0 l :
  tiny_ok s0 -> TinyLfu.observed s0 = 0 -> lenN l < TinyLfu.sample_accesses s0 ->
  exists s, try_fold TinyLfu.observe s0 l = Ok s /\ covers s l
    /\ TinyLfu.sample_accesses s = TinyLfu.sample_accesses s0.
Proof.
  intros Hok H0. induction l as [|x l IH] using rev_ind; intros Hlt.
  - exists s0. split_and!; [done | | done]. split; [done | by rewrite H0 |].
    intros page Hp. by apply N.lt_irrefl in Hp.
  - unfold lenN in Hlt. rewrite length_app in Hlt. simpl in Hlt.
    destruct IH as (s & E & Hc & Hs); [unfold lenN; lia|].
    destruct (covers_step s l x Hc) as (s' & E' & Hc' & Hs'); [unfold lenN; lia|].
    exists s'. rewrite try_fold_app, E. simpl. rewrite E'. split_and!; [done.. | congruence].
Qed.

Lemma covers_estimate s l page :
  covers s l -> exists e, TinyLfu.estimate s page = Ok e
    /\ N.min (SKETCH_COUNTER_MAX + 1) (occurrences page l) <= e <= SKETCH_COUNTER_MAX + 1.
Proof.
  intros [Hok _ Hfreq]. rewrite estimate_ok by done. eexists. split; [done|].
  pose proof (least_max s Hok page) as Hmax.
  destruct (proj1 (least_spec s Hok page)) as (r0 & Hr0 & E0).
  destruct (N.eq_0_gt_0_cases (occurrences page l)) as [->|Hpos]; [destruct (forallb _ _); lia|].
  assert (forallb (door s page) (TinyLfu.rows s) = true) as ->.
  { apply forallb_forall. intros row Hrow%list_elem_of_In%elem_of_rangeN. by apply Hfreq. }
  destruct (Hfreq page Hpos r0 Hr0) as [_ Hc]. rewrite <- E0 in Hc. lia.
Qed.
