(* ===== verification/SimPolicyFacts.v ===== *)
(** Facts about the online policy state: sorting and collecting victims, SLRU
    rebalancing, the router ledger and the TinyLFU sketch.  They are stated
    against the catalog interface [CatalogOk], not against the parser. *)
From stdpp Require Import prelude gmap strings sorting.
From S2P Require Import Prelude SimModel SimPolicy SimOracle SimEngine SimTrace SimTraceOk.
From S2P Require Import SimTinyLfu.
#[local] Open Scope N_scope.

(** * Residents *)

(** Charged bytes of a resident map. *)
Abbreviation charge_of := (msum ResidentEntry.charge_bytes).

(** Every entry sits at its own page and copies the catalog's byte sizes. *)
Definition residents_ok (c : PageCatalog.t) (r : Residents) : Prop :=
  forall id e, r !! id = Some e ->
    ResidentEntry.page e = id /\
    exists p, PageCatalog.page c id = Ok p
      /\ ResidentEntry.charge_bytes e = PageDescriptor.charge_bytes p
      /\ ResidentEntry.logical_bytes e = PageDescriptor.logical_bytes p.

Lemma residents_ok_empty c : residents_ok c ∅.
Proof. intros id e. by rewrite lookup_empty. Qed.

Lemma residents_ok_delete c r id : residents_ok c r -> residents_ok c (delete id r).
Proof. intros Hr id' e [_ ?]%lookup_delete_Some. by apply Hr. Qed.

Lemma residents_ok_insert c r id e p :
  residents_ok c r -> ResidentEntry.page e = id -> PageCatalog.page c id = Ok p ->
  ResidentEntry.charge_bytes e = PageDescriptor.charge_bytes p ->
  ResidentEntry.logical_bytes e = PageDescriptor.logical_bytes p ->
  residents_ok c (<[id := e]> r).
Proof.
  intros Hr ???? id' e' [[<- <-]|[_ ?]]%lookup_insert_Some; [|by apply Hr]. eauto.
Qed.

Lemma values_pages c r : residents_ok c r ->
  ResidentEntry.page <$> btree_values r = btree_keys r.
Proof.
  intros Hr. unfold btree_values, btree_keys. rewrite <- list_fmap_compose.
  apply list_fmap_ext. intros i [id e] Hi. simpl.
  apply list_elem_of_lookup_2, elem_of_btree_iter in Hi. by apply Hr in Hi as [? _].
Qed.

Lemma values_catalog c r e : residents_ok c r -> e ∈ btree_values r ->
  r !! ResidentEntry.page e = Some e /\
  exists p, PageCatalog.page c (ResidentEntry.page e) = Ok p
    /\ ResidentEntry.charge_bytes e = PageDescriptor.charge_bytes p.
Proof.
  intros Hr [id Hid]%elem_of_btree_values. destruct (Hr id e Hid) as [<- (p & ? & ? & _)]. eauto.
Qed.

(** * Sorted victim lists *)

Lemma try_sort_by_key_spec key (k : ResidentEntry.t -> list Z) l :
  (forall e, e ∈ l -> key e = Ok (k e)) ->
  exists sorted, PolicyState.try_sort_by_key key l = Ok sorted
    /\ sorted ≡ₚ l /\ StronglySorted (by_key k) sorted.
Proof.
  intros Hk. unfold PolicyState.try_sort_by_key.
  rewrite (mapM_Ok _ (fun e => (k e, e))); [|intros e He; by rewrite Hk]. simpl.
  eexists. split; [done|]. split.
  - rewrite sort_by_key_perm, <- list_fmap_compose. simpl. by rewrite list_fmap_id.
  - assert (Forall (fun ke => ke.1 = k ke.2)
      (sort_by_key fst ((fun e => (k e, e)) <$> l))) as Hall.
    { rewrite sort_by_key_perm. apply list.Forall_forall.
      intros ke (e & -> & _)%list_elem_of_fmap. done. }
    pose proof (sort_by_key_sorted fst ((fun e => (k e, e)) <$> l)) as Hs.
    revert Hall. induction Hs as [|ke kes Hs IH Hle]; intros Hall; [constructor|].
    apply Forall_cons in Hall as [Hke Hall]. rewrite fmap_cons. constructor; [by apply IH|].
    apply Forall_fmap. rewrite list.Forall_forall in *. intros ke' Hin. simpl.
    unfold by_key. rewrite <- Hke, <- (Hall ke' Hin). by apply Hle.
Qed.

Lemma post_try_sort {A} key (k : ResidentEntry.t -> list Z) l
    (f : list ResidentEntry.t -> result SimError A) Q X :
  (forall e, e ∈ l -> key e = Ok (k e)) ->
  (forall sorted, sorted ≡ₚ l -> StronglySorted (by_key k) sorted -> post (f sorted) Q X) ->
  post (PolicyState.try_sort_by_key key l ≫= f) Q X.
Proof.
  intros Hk Hf. destruct (try_sort_by_key_spec key k l Hk) as (sorted & -> & Hp & Hs).
  by apply Hf.
Qed.

Lemma collect_victims_spec needed ordered victims bytes :
  bytes + sumN ResidentEntry.charge_bytes ordered <= u64_max -> bytes < needed ->
  exists taken rest, ordered = taken ++ rest /\
    PolicyState.collect_victims needed ordered victims bytes
      = Ok (victims ++ (ResidentEntry.page <$> taken),
            bytes + sumN ResidentEntry.charge_bytes taken) /\
    (bytes + sumN ResidentEntry.charge_bytes taken < needed -> rest = []) /\
    (forall pre e, taken = pre ++ [e] -> bytes + sumN ResidentEntry.charge_bytes pre < needed).
Proof.
  revert victims bytes. induction ordered as [|e ordered IH]; intros victims bytes Hmax Hlt; simpl in *.
  - exists [], []. split_and!; [done | | done | intros [] ?; discriminate].
    by rewrite app_nil_r, N.add_0_r.
  - unfold checked_add. destruct (N.leb_spec (bytes + ResidentEntry.charge_bytes e) u64_max); [|lia].
    simpl. destruct (N.leb_spec needed (bytes + ResidentEntry.charge_bytes e)) as [Hge|Hlt'].
    + exists [e], ordered. split_and!; simpl; [done | do 2 f_equal; lia | lia |].
      intros pre e' Heq. destruct pre as [|? [|]]; simplify_eq/=. lia.
    + destruct (IH (victims ++ [ResidentEntry.page e]) (bytes + ResidentEntry.charge_bytes e))
        as (taken & rest & -> & Heq & Hall & Hmin); [lia..|].
      exists (e :: taken), rest. split_and!; simpl.
      * done.
      * rewrite Heq. rewrite <- app_assoc. simpl. do 2 f_equal. lia.
      * intros. apply Hall. lia.
      * intros [|e' pre] e'' ?; simplify_eq/=; [lia|]. specialize (Hmin pre e'' eq_refl). lia.
Qed.

Lemma collect_probation_spec p c request step needed ordered victims bytes weighted :
  (forall e, e ∈ ordered -> exists pg, PageCatalog.page c (ResidentEntry.page e) = Ok pg) ->
  bytes + sumN ResidentEntry.charge_bytes ordered <= u64_max ->
  post (PolicyState.collect_probation p c request step needed ordered victims bytes weighted)
    (fun '(vs, total, _) => exists taken rest, ordered = taken ++ rest
       /\ vs = victims ++ (ResidentEntry.page <$> taken)
       /\ total = bytes + sumN ResidentEntry.charge_bytes taken)
    overflow_only.
Proof.
  revert victims bytes weighted.
  induction ordered as [|e ordered IH]; intros victims bytes weighted Hcat Hmax; simpl in *.
  - exists [], []. split_and!; [done | by rewrite app_nil_r | simpl; lia].
  - apply post_bind. destruct (Hcat e) as [pg ->]; [left|]. simpl.
    apply post_bind, post_checked_add; [intros Hb|auto with sim].
    apply post_bind, post_checked_add; [intros _|auto with sim].
    destruct (N.leb_spec needed (bytes + ResidentEntry.charge_bytes e)).
    + exists [e], ordered. split_and!; simpl; [done.. | lia].
    + eapply post_strengthen; [apply IH; [intros; apply Hcat; by right | lia]|].
      intros [[vs total] w] (taken & rest & -> & -> & ->). exists (e :: taken), rest.
      split_and!; simpl; [done | by rewrite <- app_assoc | lia].
Qed.

(** * Promotion and demotion *)

(** What promotion, demotion and touching leave alone.  Two resident maps with
    the same cores hold the same pages, bytes and unused marks. *)
Definition core (e : ResidentEntry.t) : N * N * N * bool :=
  (ResidentEntry.page e, ResidentEntry.charge_bytes e, ResidentEntry.logical_bytes e,
   ResidentEntry.prefetched_unused e).
Definition same_core (r r' : Residents) : Prop := core <$> r = core <$> r'.
#[export] Instance same_core_equiv : Equivalence same_core.
Proof. unfold same_core. split; [done | by intros ?? | intros ???; by etrans]. Qed.

Lemma same_core_insert r id e e' :
  r !! id = Some e -> core e' = core e -> same_core (<[id := e']> r) r.
Proof.
  intros He Hc. unfold same_core. rewrite fmap_insert, Hc.
  apply insert_id. by rewrite lookup_fmap, He.
Qed.

(** Sums of per-entry measures that only read the core. *)
#[export] Instance msum_same_core (g : N * N * N * bool -> N) :
  Proper (same_core ==> (=)) (msum (fun e => g (core e)) : Residents -> N).
Proof. intros r r' H. rewrite <- !(msum_fmap g core). by rewrite H. Qed.

Lemma charge_same_core r r' : same_core r r' -> charge_of r = charge_of r'.
Proof. apply (msum_same_core (fun x => x.1.1.2)). Qed.

Lemma lookup_same_core r r' id e :
  same_core r r' -> r !! id = Some e -> exists e', r' !! id = Some e' /\ core e' = core e.
Proof.
  intros H He. assert ((core <$> r') !! id = Some (core e)) as Hl.
  { unfold same_core in H. by rewrite <- H, lookup_fmap, He. }
  rewrite lookup_fmap in Hl. destruct (r' !! id) as [e'|]; [|done].
  apply (inj Some) in Hl. eauto.
Qed.

Lemma residents_ok_same_core c r r' : same_core r r' -> residents_ok c r -> residents_ok c r'.
Proof.
  intros H Hr id e He. symmetry in H.
  destruct (lookup_same_core _ _ _ _ H He) as (e' & He' & Hc).
  unfold core in Hc. simplify_eq.
  destruct (Hr id e' He') as [Hp (p & ? & ? & ?)]. split; [congruence|]. exists p.
  split_and!; congruence.
Qed.

Definition is_protected (e : ResidentEntry.t) : bool :=
  bool_decide (ResidentEntry.segment e = Segment.Protected).
Definition protected_bytes (r : Residents) : N :=
  msum (fun e => if is_protected e then ResidentEntry.charge_bytes e else 0) r.
Definition protected_count (r : Residents) : N :=
  msum (fun e => if is_protected e then 1 else 0) r.

Lemma protected_entries_sum f r :
  sumN f (PolicyState.protected_entries r) = msum (fun e => if is_protected e then f e else 0) r.
Proof.
  unfold PolicyState.protected_entries. rewrite sumN_filter, <- msum_btree_values.
  apply sumN_ext. intros e _. unfold is_protected. by repeat case_decide.
Qed.

Lemma protected_bytes_le r : protected_bytes r <= charge_of r.
Proof. apply msum_mono. intros. case_match; lia. Qed.

Lemma protected_count_le r : protected_count r <= N.of_nat (size r).
Proof. rewrite <- msum_one. apply msum_mono. intros. case_match; lia. Qed.

Lemma sum_or_panic_ok {A} (f : A -> N) l :
  sumN f l <= u64_max -> PolicyState.sum_or_panic f l = Ok (sumN f l).
Proof.
  intros H. unfold PolicyState.sum_or_panic.
  assert (forall acc, acc + sumN f l <= u64_max ->
    try_fold (E:=SimError) (fun acc x => add_or_panic u64_max acc (f x)) acc l
      = Ok (acc + sumN f l)) as Hgen; [|by rewrite Hgen].
  clear H. induction l as [|x l IH]; intros acc H; simpl in *; [f_equal; lia|].
  unfold add_or_panic, checked_add. destruct (N.leb_spec (acc + f x) u64_max); [|lia].
  simpl. rewrite IH by lia. f_equal. lia.
Qed.

(** No promotion or demotion creates an LRU-segment entry. *)
Definition no_lru (r : Residents) : Prop :=
  forall id e, r !! id = Some e -> ResidentEntry.segment e <> Segment.Lru.

(** The demotion loop terminates within its fuel, keeps every page, and leaves
    the protected segment within its target. *)
Lemma rebalance_spec c fuel r target touch :
  residents_ok c r -> charge_of r <= u64_max -> protected_count r < N.of_nat fuel ->
  post (PolicyState.rebalance_protected fuel r target touch)
    (fun r' => same_core r' r /\ protected_bytes r' <= target /\ (no_lru r -> no_lru r'))
    (fun _ => False).
Proof.
  revert r. induction fuel as [|fuel IH]; intros r Hr Hmax Hfuel; [lia|]. cbn [PolicyState.rebalance_protected].
  pose proof (protected_bytes_le r) as Hle.
  rewrite sum_or_panic_ok; rewrite protected_entries_sum; fold (protected_bytes r); [|lia].
  apply post_bind, post_ok.
  destruct (N.leb_spec (protected_bytes r) target) as [|Hover]; [by apply post_ok|].
  apply post_bind.
  destruct (min_by_key _ _) as [victim|] eqn:Hmin; simpl.
  2: { apply min_by_key_None in Hmin. pose proof (protected_entries_sum ResidentEntry.charge_bytes r) as Hs.
       rewrite Hmin in Hs. unfold protected_bytes in Hover. simpl in Hs. lia. }
  apply min_by_key_Some in Hmin as [Hin _].
  unfold PolicyState.protected_entries in Hin. apply list_elem_of_filter in Hin as [Hseg Hin].
  destruct (values_catalog _ _ _ Hr Hin) as [Hv _]. apply post_bind. rewrite Hv. apply post_ok.
  set (e' := ResidentEntry.set_last_touch touch (ResidentEntry.set_segment Segment.Probation victim)).
  assert (same_core (<[ResidentEntry.page victim := e']> r) r) as Hc by (by eapply same_core_insert).
  assert (protected_count (<[ResidentEntry.page victim := e']> r) + 1 = protected_count r) as Hcnt.
  { pose proof (msum_insert (fun e => if is_protected e then 1 else 0) r _ _ e' Hv) as Hi.
    assert (is_protected victim = true) as Hp by (by apply bool_decide_eq_true_2).
    cbn beta in Hi. rewrite Hp in Hi. change (is_protected e') with false in Hi. cbn iota in Hi.
    unfold protected_count. lia. }
  eapply post_strengthen; [apply IH|].
  - by eapply residents_ok_same_core.
  - by rewrite (charge_same_core _ _ Hc).
  - lia.
  - intros r' (Hs & Ht & Hn). split_and!; [by etrans | done|]. intros Hlru. apply Hn.
    intros id e [[<- <-]|[_ He]]%lookup_insert_Some; [done | by eapply Hlru].
Qed.

Lemma on_hit_spec c p r page touch :
  residents_ok c r -> charge_of r <= u64_max ->
  post (PolicyState.on_hit p r page touch)
    (fun r' => same_core r' r
      /\ (no_lru r -> no_lru r')
      /\ (forall target, PolicyState.protected_target_of p = Some target ->
            protected_bytes r <= target -> protected_bytes r' <= target)
      /\ (PolicyState.protected_target_of p = None ->
          (forall id e, r !! id = Some e -> ResidentEntry.segment e = Segment.Lru) ->
          forall id e, r' !! id = Some e -> ResidentEntry.segment e = Segment.Lru))
    (fun _ => False).
Proof.
  intros Hr Hmax. unfold PolicyState.on_hit.
  destruct (r !! page) as [e|] eqn:He; [|by apply post_ok].
  set (e1 := ResidentEntry.set_last_touch touch e).
  assert (same_core (<[page := e1]> r) r) as Hc1 by (by eapply same_core_insert).
  assert (no_lru r -> no_lru (<[page := e1]> r)) as Hn1.
  { intros Hn id e' [[<- <-]|[_ ?]]%lookup_insert_Some; [by apply (Hn page e) | by eapply Hn]. }
  assert (protected_bytes (<[page := e1]> r) = protected_bytes r) as Hp1.
  { pose proof (msum_insert (fun e => if is_protected e then ResidentEntry.charge_bytes e else 0)
      r page e e1 He) as Hi. cbn beta in Hi. change (is_protected e1) with (is_protected e) in Hi.
    change (ResidentEntry.charge_bytes e1) with (ResidentEntry.charge_bytes e) in Hi.
    unfold protected_bytes. lia. }
  destruct (PolicyState.protected_target_of p) as [target|].
  2: { apply post_ok. split_and!; [done.. |]. intros _ Hall id e'.
       intros [[<- <-]|[_ ?]]%lookup_insert_Some; [exact (Hall page e He) | by eapply Hall]. }
  case_match; [|apply post_ok; split_and!; [done.. | |done]; intros ? [= <-]; by rewrite Hp1].
  set (e2 := ResidentEntry.set_segment Segment.Protected e1).
  assert (same_core (<[page := e2]> r) r) as Hc2 by (by eapply same_core_insert).
  eapply post_strengthen; [apply (rebalance_spec c)|].
  - by eapply residents_ok_same_core.
  - by rewrite (charge_same_core _ _ Hc2).
  - pose proof (protected_count_le (<[page := e2]> r)) as Hcnt.
    rewrite map_size_insert_Some in Hcnt by (by exists e). lia.
  - intros r' (Hs & Ht & Hn). split_and!; [by etrans | | by intros ? [= <-] | done].
    intros Hlru. apply Hn. intros id e' [[<- <-]|[_ ?]]%lookup_insert_Some; [done | by eapply Hlru].
Qed.

(** * Router ledger *)

Definition signal_bytes (sc : ActiveSignal) : N :=
  ROUTER_SIGNAL_BASE_BYTES + N.of_nat (size sc) * ROUTER_PREDICTION_BYTES.
Definition live_bytes (a : ActiveSignals) : N := msum (msum signal_bytes) a.

(** The live signals are nonempty and are exactly what the ledger charges. *)
Record ledger_ok (r : Router.t) : Prop := {
  led_nonempty : forall request signals, Router.active r !! request = Some signals -> signals <> ∅;
  led_scores : forall request signals key sc, Router.active r !! request = Some signals ->
    signals !! key = Some sc -> sc <> ∅;
  led_current : Router.current_metadata_bytes r = live_bytes (Router.active r);
  led_peak : Router.current_metadata_bytes r <= Router.peak_metadata_bytes r
             <= Router.recorded_metadata_bytes r;
  led_limit : Router.recorded_metadata_bytes r <= Router.metadata_limit_bytes r <= u64_max
}.

Definition policy_ok (p : PolicyState.t) : Prop :=
  match p with
  | PolicyState.TinyLfuKind s => tiny_ok s
  | PolicyState.RouterKind r => ledger_ok r
  | _ => True
  end.

(** * Victim plans free enough room *)

Definition entry_charge (r : Residents) (id : N) : N :=
  from_option ResidentEntry.charge_bytes 0 (r !! id).

(** [victims] are distinct residents whose eviction makes room for [charge]. *)
Record plan_ok (r : Residents) (capacity charge : N) (victims : list N) : Prop := {
  plan_nodup : NoDup victims;
  plan_resident : forall v, v ∈ victims -> is_Some (r !! v);
  plan_room : charge_of r + charge <= capacity + sumN (entry_charge r) victims
}.

Lemma plan_ok_nil r capacity charge :
  charge_of r + charge <= capacity -> plan_ok r capacity charge [].
Proof. split; simpl; [apply NoDup_nil_2 | by intros ? ?%elem_of_nil | lia]. Qed.

(** The pages of a part of the residents, in any order. *)
Lemma taken_plan c r taken rest :
  residents_ok c r -> taken ++ rest ⊆+ btree_values r ->
  NoDup (ResidentEntry.page <$> taken)
  /\ (forall v, v ∈ ResidentEntry.page <$> taken -> is_Some (r !! v))
  /\ sumN (entry_charge r) (ResidentEntry.page <$> taken) = sumN ResidentEntry.charge_bytes taken.
Proof.
  intros Hr Hsub.
  assert (taken ⊆+ btree_values r) as Ht by (etrans; [apply submseteq_inserts_r; reflexivity | done]).
  assert (forall e, e ∈ taken -> r !! ResidentEntry.page e = Some e) as Hl.
  { intros e He. eapply values_catalog; [done | by eapply elem_of_submseteq]. }
  split_and!.
  - assert (ResidentEntry.page <$> taken ⊆+ btree_keys r) as Hk.
    { rewrite <- (values_pages c r Hr). by apply fmap_submseteq. }
    apply submseteq_Permutation in Hk as [k Hk].
    pose proof (NoDup_btree_keys r) as Hnd. rewrite Hk in Hnd. by apply NoDup_app in Hnd as [? _].
  - intros v (e & -> & He)%list_elem_of_fmap. exists e. by apply Hl.
  - rewrite sumN_fmap. apply sumN_ext. intros e He. unfold entry_charge. by rewrite Hl.
Qed.

Lemma sum_charges_total r victims name :
  (forall v, v ∈ victims -> is_Some (r !! v)) ->
  post (PolicyState.sum_charges r victims name) (fun _ => True) overflow_only.
Proof.
  intros Hv. unfold PolicyState.sum_charges. eapply post_mono.
  - apply (try_fold_sum _ (entry_charge r) u128_max (CounterOverflow name)).
    intros b v [e He]%Hv. unfold entry_charge. by rewrite He.
  - done.
  - intros e [-> _]. auto with sim.
Qed.

Lemma admit_demand_total c p r candidate victims request step :
  policy_ok p -> residents_ok c r -> (forall v, v ∈ victims -> is_Some (r !! v)) ->
  post (PolicyState.admit_demand p c r candidate victims request step) (fun _ => True) overflow_only.
Proof.
  intros Hp Hr Hv. unfold PolicyState.admit_demand.
  destruct p as [| | |s|rt]; try done.
  - destruct victims as [|v0 vs] eqn:E; [done|]. rewrite <- E in *. apply post_bind.
    rewrite estimate_ok by done. apply post_ok. apply post_bind.
    eapply post_strengthen; [by apply sum_charges_total|]. intros charge _. apply post_bind.
    eapply post_mono; [apply (try_fold_sum _ (fun v => least s v +
        if forallb (door s v) (TinyLfu.rows s) then 1 else 0) u128_max
        (CounterOverflow "TinyLFU victim frequency"))| |].
    + intros b v _. by rewrite estimate_ok.
    + intros freq _. apply post_bind, post_checked_mul; [intros _|auto with sim].
      apply post_bind, post_checked_mul; [done | auto with sim].
    + intros e [-> _]. auto with sim.
  - case_decide; [done|]. apply post_bind.
    eapply post_strengthen; [by apply sum_charges_total|]. intros charge _. apply post_bind.
    eapply post_mono; [apply (try_fold_sum _ (fun v =>
        match PageCatalog.page c v with
        | Ok page => PolicyState.active_score (PolicyState.RouterKind rt) request step page
        | _ => 0 end) u128_max (CounterOverflow "router victim score"))| |].
    + intros b v [e He]%Hv. destruct (Hr v e He) as [_ (pg & -> & _)]. done.
    + intros score _. case_match; [done|].
      apply post_bind, post_checked_mul; [intros _|auto with sim].
      apply post_bind, post_checked_mul; [done | auto with sim].
    + intros e [-> _]. auto with sim.
Qed.

(** The order in which [plan_demand_victims] considers the residents: by
    segment, score for the step, last touch and page. *)
Definition victim_rank (c : PageCatalog.t) (p : PolicyState.t) (request step : N)
    (e : ResidentEntry.t) : list Z :=
  [Z.of_N (PolicyState.segment_rank p e);
   Z.of_N (match PageCatalog.page c (ResidentEntry.page e) with
           | Ok pg => PolicyState.active_score p request step pg
           | _ => 0 end);
   Z.of_N (ResidentEntry.last_touch e); Z.of_N (ResidentEntry.page e)].

(** The victims are the shortest prefix of that order that frees [needed]. *)
Definition frugal (rank : ResidentEntry.t -> list Z) (r : Residents) (needed : N)
    (victims : list N) : Prop :=
  exists ordered taken rest, ordered ≡ₚ btree_values r /\ StronglySorted (by_key rank) ordered
    /\ ordered = taken ++ rest /\ victims = ResidentEntry.page <$> taken
    /\ forall pre e, taken = pre ++ [e] -> sumN ResidentEntry.charge_bytes pre < needed.

Lemma frugal_nil rank r needed : frugal rank r needed [].
Proof.
  exists (sort_by_key rank (btree_values r)), [], (sort_by_key rank (btree_values r)).
  split_and!; [apply sort_by_key_perm | apply sort_by_key_sorted | done | done | by intros [] ?].
Qed.

Lemma plan_demand_spec c p r plan :
  policy_ok p -> residents_ok c r ->
  DemandPlan.resident_bytes plan = charge_of r ->
  charge_of r <= DemandPlan.capacity_bytes plan <= u64_max ->
  post (PolicyState.plan_demand_victims p c r plan)
    (fun o => forall victims, o = Some victims ->
       plan_ok r (DemandPlan.capacity_bytes plan)
         (PageDescriptor.charge_bytes (DemandPlan.candidate plan)) victims
       /\ frugal (victim_rank c p (DemandPlan.request plan) (DemandPlan.step plan)) r
            (PageDescriptor.charge_bytes (DemandPlan.candidate plan)
               - (DemandPlan.capacity_bytes plan - charge_of r)) victims)
    overflow_only.
Proof.
  intros Hp Hr Hbytes Hcap. unfold PolicyState.plan_demand_victims.
  case_match; [by apply post_ok|].
  apply post_bind, post_sub_or_panic; [rewrite Hbytes; lia|]. rewrite Hbytes.
  destruct (N.leb_spec (PageDescriptor.charge_bytes (DemandPlan.candidate plan))
              (DemandPlan.capacity_bytes plan - charge_of r)).
  { apply post_ok. intros vs [= <-]. split; [apply plan_ok_nil; lia | apply frugal_nil]. }
  set (key := victim_rank c p (DemandPlan.request plan) (DemandPlan.step plan)).
  apply (post_try_sort _ key).
  { intros e He. destruct (values_catalog _ _ _ Hr He) as (_ & pg & Hpg & _).
    unfold key, victim_rank. rewrite Hpg. done. }
  intros ordered Hperm Hsort.
  assert (sumN ResidentEntry.charge_bytes ordered = charge_of r) as Hsum
    by (by rewrite Hperm, msum_btree_values).
  edestruct (collect_victims_spec
    (PageDescriptor.charge_bytes (DemandPlan.candidate plan)
       - (DemandPlan.capacity_bytes plan - charge_of r)) ordered [] 0)
    as (taken & rest & Hord & -> & _ & Hmin); [lia..|].
  apply post_bind, post_ok. rewrite N.add_0_l.
  destruct (N.ltb_spec (sumN ResidentEntry.charge_bytes taken)
              (PageDescriptor.charge_bytes (DemandPlan.candidate plan)
                 - (DemandPlan.capacity_bytes plan - charge_of r))); [by apply post_ok|].
  destruct (taken_plan c r taken rest Hr) as (Hnd & Hres & Hch).
  { rewrite <- Hord. by rewrite Hperm. }
  apply post_bind. eapply post_strengthen; [by apply admit_demand_total|].
  intros [] _; apply post_ok; [|done]. intros vs [= <-]. split.
  - split; [done..|]. rewrite Hch. lia.
  - by exists ordered, taken, rest.
Qed.

Lemma plan_prefetch_spec c p r plan required :
  residents_ok c r ->
  (forall id, id ∈ PrefetchPlan.absent_pages plan -> exists pg, PageCatalog.page c id = Ok pg) ->
  required = sumN (fun id => match PageCatalog.page c id with
                             | Ok pg => PageDescriptor.charge_bytes pg | _ => 0 end)
               (PrefetchPlan.absent_pages plan) ->
  PrefetchPlan.resident_bytes plan = charge_of r ->
  charge_of r <= PrefetchPlan.capacity_bytes plan <= u64_max ->
  post (PolicyState.plan_prefetch_victims p c r plan)
    (fun o => forall victims, o = Some victims ->
       plan_ok r (PrefetchPlan.capacity_bytes plan) required victims)
    overflow_only.
Proof.
  intros Hr Habs Hreq Hbytes Hcap. unfold PolicyState.plan_prefetch_victims. apply post_bind.
  eapply post_mono; [apply (try_fold_sum _ (fun id => match PageCatalog.page c id with
      | Ok pg => PageDescriptor.charge_bytes pg | _ => 0 end) u64_max
      (CounterOverflow "prefetch group charge"))| |].
  { intros b id Hid. destruct (Habs id Hid) as [pg ->]. done. }
  2: { intros e [-> _]. auto with sim. }
  intros required' [-> _]. rewrite N.add_0_l, <- Hreq.
  destruct (N.ltb_spec (PrefetchPlan.capacity_bytes plan) required); [by apply post_ok|].
  apply post_bind, post_sub_or_panic; [rewrite Hbytes; lia|]. rewrite Hbytes.
  destruct (N.leb_spec required (PrefetchPlan.capacity_bytes plan - charge_of r)).
  { apply post_ok. intros vs [= <-]. apply plan_ok_nil. lia. }
  set (prob := filter _ (btree_values r)).
  assert (prob ⊆+ btree_values r) as Hsub by apply sublist_submseteq, sublist_filter.
  set (key := fun e => [Z.of_N (match PageCatalog.page c (ResidentEntry.page e) with
            | Ok pg => PolicyState.active_score p (PrefetchPlan.request plan)
                         (PrefetchPlan.target_step plan) pg
            | _ => 0 end);
    Z.of_N (ResidentEntry.last_touch e); Z.of_N (ResidentEntry.page e)]).
  assert (forall e, e ∈ prob -> exists pg, PageCatalog.page c (ResidentEntry.page e) = Ok pg) as Hpg.
  { intros e He. edestruct values_catalog as (_ & pg & ? & _);
      [done | by eapply elem_of_submseteq | eauto]. }
  apply (post_try_sort _ key).
  { intros e [pg Hp]%Hpg. unfold key. rewrite Hp. done. }
  intros ordered Hperm _. apply post_bind. eapply post_strengthen.
  { apply collect_probation_spec.
    - intros e He. apply Hpg. by rewrite <- Hperm.
    - rewrite Hperm. pose proof (sumN_sublist ResidentEntry.charge_bytes _ _ Hsub) as Hle.
      rewrite msum_btree_values in Hle. lia. }
  intros [[victims bytes] weighted] (taken & rest & Hord & -> & ->).
  match goal with |- post (if ?b then _ else _) _ _ => destruct b eqn:Hlt end; [by apply post_ok|].
  apply N.ltb_ge in Hlt. simpl.
  apply post_bind, post_checked_mul; [intros _|auto with sim].
  match goal with |- post (if ?b then _ else _) _ _ => destruct b end; apply post_ok; [done|].
  intros vs [= <-]. destruct (taken_plan c r taken rest Hr) as (Hnd & Hres & Hch).
  { rewrite <- Hord, Hperm. done. }
  split; [done..|]. rewrite Hch. simpl in Hlt. lia.
Qed.

(** * Ledger operations *)

Lemma metadata_bytes_ok n :
  ROUTER_SIGNAL_BASE_BYTES + n * ROUTER_PREDICTION_BYTES <= u64_max ->
  router_signal_metadata_bytes n = Ok (ROUTER_SIGNAL_BASE_BYTES + n * ROUTER_PREDICTION_BYTES).
Proof.
  intros H. unfold router_signal_metadata_bytes, ROUTER_SIGNAL_BASE_BYTES, ROUTER_PREDICTION_BYTES in *.
  rewrite (proj2 (N.leb_le _ _)) by lia. simpl. unfold checked_mul, checked_add.
  rewrite (proj2 (N.leb_le (n * 8) _)) by lia. simpl. by rewrite (proj2 (N.leb_le _ _)) by lia.
Qed.

Lemma metadata_bytes_total n : post (router_signal_metadata_bytes n)
  (fun b => b = ROUTER_SIGNAL_BASE_BYTES + n * ROUTER_PREDICTION_BYTES) overflow_only.
Proof.
  unfold router_signal_metadata_bytes. apply post_bind.
  destruct (n <=? u64_max); [apply post_ok | simpl; auto with sim].
  apply post_bind, post_checked_mul; [intros _|auto with sim].
  apply post_checked_add; [done | auto with sim].
Qed.

(** The live signal of a request for a step and layer. *)
Definition signal_at (a : ActiveSignals) (request step layer : N) : option ActiveSignal :=
  signals ← a !! request; signals !! (step, layer).

(** What only construction sets. *)
Record same_router (r r' : Router.t) : Prop := {
  sr_target : Router.protected_target r' = Router.protected_target r;
  sr_config : Router.config r' = Router.config r;
  sr_prefetch : Router.prefetch r' = Router.prefetch r;
  sr_limit : Router.metadata_limit_bytes r' = Router.metadata_limit_bytes r
}.

Lemma live_bytes_signal a request signals key sc :
  a !! request = Some signals -> signals !! key = Some sc -> signal_bytes sc <= live_bytes a.
Proof.
  intros Ha Hs. etrans; [by apply (msum_le signal_bytes signals key)|].
  by apply (msum_le (msum signal_bytes) a request).
Qed.

(** The retired keys: taking while the target step is past is filtering. *)
Lemma retired_keys (signals : gmap (N * N) ActiveSignal) step key :
  key ∈ take_while (fun key : N * N => key.1 <? step) (btree_keys signals) <->
  is_Some (signals !! key) /\ key.1 < step.
Proof.
  rewrite (take_while_sorted (by_key sort_key)); [|apply btree_keys_sorted|].
  - rewrite list_elem_of_filter, elem_of_btree_keys, N.ltb_lt. tauto.
  - intros [x1 x2] [y1 y2] Hle Hlt%N.ltb_lt. apply N.ltb_lt. unfold by_key, sort_key in Hle.
    simpl in *. lia.
Qed.

Lemma NoDup_retired (signals : gmap (N * N) ActiveSignal) step :
  NoDup (take_while (fun key : N * N => key.1 <? step) (btree_keys signals)).
Proof.
  rewrite (take_while_sorted (by_key sort_key)); [|apply btree_keys_sorted|].
  - apply NoDup_filter, NoDup_btree_keys.
  - intros [x1 x2] [y1 y2] Hle Hlt%N.ltb_lt. apply N.ltb_lt. unfold by_key, sort_key in Hle.
    simpl in *. lia.
Qed.

Lemma live_bytes_update a request signals signals' :
  a !! request = Some signals ->
  live_bytes (if decide (signals' = ∅) then delete request a else <[request := signals']> a)
    + msum signal_bytes signals = live_bytes a + msum signal_bytes signals'.
Proof.
  intros Ha. unfold live_bytes. case_decide as E.
  - subst. rewrite msum_empty, (msum_delete _ a request signals Ha). lia.
  - pose proof (msum_insert (msum signal_bytes) a request signals signals' Ha). lia.
Qed.

(** Retiring never fails and removes exactly the past signals of the request. *)
Lemma enter_demand_step_spec r request step :
  ledger_ok r ->
  exists r', PolicyState.enter_demand_step (PolicyState.RouterKind r) request step
             = Ok (PolicyState.RouterKind r')
    /\ ledger_ok r' /\ same_router r r'
    /\ Router.recorded_metadata_bytes r' = Router.recorded_metadata_bytes r
    /\ forall rq t l, signal_at (Router.active r') rq t l
         = if (rq =? request) && (t <? step) then None else signal_at (Router.active r) rq t l.
Proof.
  intros Hl. destruct Hl as [Hne Hsc Hcur Hpeak Hlim]. unfold PolicyState.enter_demand_step.
  destruct (Router.active r !! request) as [signals|] eqn:Ha.
  2: { exists r. split_and!; [done | by split | by split | done |].
       intros rq t l. destruct (N.eqb_spec rq request) as [->|]; simpl; [|done].
       unfold signal_at. rewrite Ha. by destruct (t <? step). }
  set (retired := take_while _ _). set (signals' := foldl _ signals retired).
  assert (NoDup retired) as Hnd by apply NoDup_retired.
  assert (forall k, k ∈ retired -> is_Some (signals !! k)) as Hin by (intros k ?%retired_keys; tauto).
  pose proof (msum_foldl_delete signal_bytes signals retired Hnd Hin) as Hsum. fold signals' in Hsum.
  pose proof (msum_le (msum signal_bytes) _ _ _ Ha) as Hle. fold (live_bytes (Router.active r)) in Hle.
  pose proof (live_bytes_update _ _ _ signals' Ha) as Hupd.
  erewrite (try_fold_sum_ok _ (fun k => from_option signal_bytes 0 (signals !! k)) u64_max);
    [|intros b k Hk; destruct (Hin k Hk) as [sc Hk2]; rewrite Hk2; simpl;
      rewrite metadata_bytes_ok; [reflexivity|];
      pose proof (live_bytes_signal _ _ _ _ _ Ha Hk2) as Hb; unfold signal_bytes in Hb; lia
     | lia].
  simpl. unfold checked_sub. rewrite (proj2 (N.leb_le _ _)) by lia. simpl.
  eexists. split; [done|].
  assert (forall rq sg, (if decide (signals' = ∅) then delete request (Router.active r)
      else <[request := signals']> (Router.active r)) !! rq = Some sg ->
      (rq = request /\ sg = signals' /\ signals' <> ∅)
      \/ (rq <> request /\ Router.active r !! rq = Some sg)) as Hlook.
  { intros rq sg. case_decide; [intros [? ?]%lookup_delete_Some; auto|].
    intros [[? ?]|[? ?]]%lookup_insert_Some; auto. }
  assert (forall k sc, signals' !! k = Some sc -> signals !! k = Some sc) as Hsub.
  { intros k sc. unfold signals'. rewrite lookup_foldl_delete.
    destruct (decide (k ∈ retired)); [discriminate | auto]. }
  split_and!; [|done..|].
  - split; simpl; [| |lia..].
    + intros rq sg [(-> & -> & ?)|(? & ?)]%Hlook; [done | by eapply Hne].
    + intros rq sg k sc [(-> & -> & ?)|(? & ?)]%Hlook Hk; eauto.
  - intros rq t l. unfold signal_at. simpl. destruct (N.eqb_spec rq request) as [->|Hrq]; simpl.
    + assert ((if decide (signals' = ∅) then delete request (Router.active r)
        else <[request := signals']> (Router.active r)) !! request ≫= (fun sg => sg !! (t, l))
        = signals' !! (t, l)) as ->.
      { case_decide as E; [rewrite lookup_delete_eq, E; simpl; symmetry; apply lookup_empty|].
        by rewrite lookup_insert_eq. }
      rewrite Ha. simpl. unfold signals'. rewrite lookup_foldl_delete.
      destruct (N.ltb_spec t step) as [Hlt|Hge];
        destruct (decide ((t, l) ∈ retired)) as [Hk|Hk]; try done.
      * apply eq_None_not_Some. intros Hsome. by apply Hk, retired_keys.
      * apply retired_keys in Hk as [_ Hk]. simpl in Hk. lia.
    + case_decide; [by rewrite lookup_delete_ne | by rewrite lookup_insert_ne].
Qed.

Definition scores_of (predictions : list ExpertPrediction.t) : ActiveSignal :=
  foldl (fun m pr => <[ExpertPrediction.expert pr := ExpertPrediction.score_ppm pr]> m) ∅ predictions.

Lemma scores_of_snoc ps p :
  scores_of (ps ++ [p]) = <[ExpertPrediction.expert p := ExpertPrediction.score_ppm p]> (scores_of ps).
Proof. unfold scores_of. by rewrite foldl_app. Qed.

Lemma scores_of_dom ps e : is_Some (scores_of ps !! e) <-> e ∈ ExpertPrediction.expert <$> ps.
Proof.
  induction ps as [|p ps IH] using rev_ind.
  - split; [by intros [? ?] | by intros ?%elem_of_nil].
  - rewrite scores_of_snoc, lookup_insert_is_Some', fmap_app, elem_of_app, IH. simpl.
    rewrite list_elem_of_singleton. split; intros [?|?]; auto.
Qed.

Lemma scores_of_size ps :
  NoDup (ExpertPrediction.expert <$> ps) -> size (scores_of ps) = length ps.
Proof.
  induction ps as [|p ps IH] using rev_ind; [done|].
  rewrite fmap_app. intros (Hnd & Hdisj & _)%NoDup_app.
  rewrite scores_of_snoc, map_size_insert_None, IH, length_app by
    (done || (apply eq_None_not_Some; rewrite scores_of_dom; intros Hin;
              apply (Hdisj _ Hin); simpl; left)).
  simpl. lia.
Qed.

Lemma record_signal_spec r request target_step layer predictions :
  ledger_ok r -> predictions <> [] -> NoDup (ExpertPrediction.expert <$> predictions) ->
  signal_at (Router.active r) request target_step layer = None ->
  Router.recorded_metadata_bytes r
    + (ROUTER_SIGNAL_BASE_BYTES + lenN predictions * ROUTER_PREDICTION_BYTES)
    <= Router.metadata_limit_bytes r ->
  exists r', PolicyState.record_signal (PolicyState.RouterKind r) request target_step layer predictions
             = Ok (PolicyState.RouterKind r')
    /\ ledger_ok r' /\ same_router r r'
    /\ Router.recorded_metadata_bytes r' = Router.recorded_metadata_bytes r
         + (ROUTER_SIGNAL_BASE_BYTES + lenN predictions * ROUTER_PREDICTION_BYTES)
    /\ forall rq t l, signal_at (Router.active r') rq t l
         = if decide ((rq, t, l) = (request, target_step, layer)) then Some (scores_of predictions)
           else signal_at (Router.active r) rq t l.
Proof.
  intros [Hne Hsc Hcur Hpeak Hlim] Hps Hnd Hnew Hfit. unfold PolicyState.record_signal.
  destruct predictions as [|p0 ps0] eqn:Eps; [done|]. rewrite <- Eps in *.
  fold (scores_of predictions). rewrite (scores_of_size _ Hnd), Nat.eqb_refl. simpl.
  set (signals := default ∅ (Router.active r !! request)).
  assert (signals !! (target_step, layer) = None) as Hnone.
  { unfold signals. unfold signal_at in Hnew. destruct (Router.active r !! request); [done|].
    apply lookup_empty. }
  rewrite Hnone, bool_decide_eq_false_2 by (by intros [? ?]). simpl.
  fold (lenN predictions). rewrite metadata_bytes_ok by lia. simpl. unfold checked_add.
  rewrite (proj2 (N.leb_le _ _)) by lia. simpl. rewrite (proj2 (N.leb_le _ _)) by lia. simpl.
  rewrite !(proj2 (N.ltb_ge _ _)) by lia. simpl. eexists. split; [done|].
  assert (scores_of predictions <> ∅) as Hsne.
  { intros E%(f_equal size). rewrite (scores_of_size _ Hnd), map_size_empty in E.
    by apply nil_length_inv in E. }
  assert (signal_bytes (scores_of predictions)
    = ROUTER_SIGNAL_BASE_BYTES + lenN predictions * ROUTER_PREDICTION_BYTES) as Hsb.
  { unfold signal_bytes, lenN. by rewrite (scores_of_size _ Hnd). }
  split_and!; [|done..|].
  - split; simpl; [| | |lia..].
    + intros rq sg [[<- <-]|[_ ?]]%lookup_insert_Some; [apply insert_non_empty | by eapply Hne].
    + intros rq sg k sc [[<- <-]|[_ ?]]%lookup_insert_Some; [|eauto].
      intros [[<- <-]|[_ Hk]]%lookup_insert_Some; [done|]. unfold signals in Hk.
      destruct (Router.active r !! request) as [sg|] eqn:E; simpl in Hk; [eauto|].
      by rewrite lookup_empty in Hk.
    + rewrite <- Hsb, Hcur. unfold live_bytes.
      pose proof (msum_insert_new signal_bytes signals (target_step, layer)
                    (scores_of predictions) Hnone) as Hi.
      unfold signals in *. destruct (Router.active r !! request) as [sg|] eqn:E; simpl in *.
      * pose proof (msum_insert (msum signal_bytes) _ _ _
          (<[(target_step, layer) := scores_of predictions]> sg) E). lia.
      * rewrite msum_insert_new by done. rewrite Hi, msum_empty. lia.
  - intros rq t l. unfold signal_at. simpl. destruct (decide (rq = request)) as [->|Hrq].
    + rewrite lookup_insert_eq. simpl. destruct (decide ((t, l) = (target_step, layer))) as [[= -> ->]|Htl].
      * by rewrite lookup_insert_eq, decide_True.
      * rewrite lookup_insert_ne by done. rewrite decide_False by congruence.
        unfold signals. by destruct (Router.active r !! request); simpl; [|rewrite lookup_empty].
    + rewrite lookup_insert_ne by done. by rewrite decide_False by congruence.
Qed.

Lemma finish_metadata_spec r :
  ledger_ok r -> Router.recorded_metadata_bytes r = Router.metadata_limit_bytes r ->
  PolicyState.finish_metadata (PolicyState.RouterKind r)
    = Ok (Router.peak_metadata_bytes r, Router.metadata_limit_bytes r).
Proof.
  intros [Hne Hsc Hcur Hpeak Hlim] Hrec. unfold PolicyState.finish_metadata.
  erewrite (try_fold_sum_le _ (msum signal_bytes) u64_max).
  - simpl. rewrite msum_btree_values. fold (live_bytes (Router.active r)).
    rewrite (proj2 (N.eqb_eq _ _)) by lia. simpl.
    rewrite !(proj2 (N.ltb_ge _ _)) by lia. simpl.
    by rewrite (proj2 (N.eqb_eq _ _)) by lia.
  - intros b signals [request Hs]%elem_of_btree_values Hb.
    rewrite bool_decide_eq_false_2 by (by eapply Hne). simpl.
    rewrite <- msum_btree_values in Hb |- *. apply (try_fold_sum_le _ signal_bytes u64_max); [|done].
    intros b' sc [key Hk]%elem_of_btree_values Hb'.
    rewrite bool_decide_eq_false_2 by (by eapply Hsc). simpl.
    rewrite metadata_bytes_ok by (unfold signal_bytes in Hb'; lia). simpl.
    unfold checked_add. fold (signal_bytes sc). by rewrite (proj2 (N.leb_le _ _)).
  - rewrite msum_btree_values. fold (live_bytes (Router.active r)). lia.
Qed.
