(* ===== verification/SimEngineFacts.v ===== *)
(** The kernel invariant and its preservation by every operation: the resident
    ledger, the accounting identities, the capacity bound and the router ledger
    hold after every event of a validated trace, so that the only failures left
    are exhausted 64-bit counters. *)
From stdpp Require Import prelude gmap strings sorting.
From S2P Require Import Prelude SimModel SimPolicy SimOracle SimEngine SimTrace SimTraceOk.
From S2P Require Import SimTinyLfu SimPolicyFacts.
#[local] Open Scope N_scope.
#[local] Arguments TinyLfu.splitmix : simpl never.
#[local] Arguments u64_max : simpl never.

(** Unclaimed prefetched pages, and their logical bytes. *)
Definition unused (r : Residents) : N :=
  msum (fun e => if ResidentEntry.prefetched_unused e then 1 else 0) r.
Definition unused_bytes (r : Residents) : N :=
  msum (fun e => if ResidentEntry.prefetched_unused e then ResidentEntry.logical_bytes e else 0) r.

(** Segments match the policy, and the protected segment its target. *)
Definition segments_ok (p : PolicyState.t) (r : Residents) : Prop :=
  match PolicyState.protected_target_of p with
  | Some target => no_lru r /\ protected_bytes r <= target
  | None => forall id e, r !! id = Some e -> ResidentEntry.segment e = Segment.Lru
  end.

Record kernel_inv (c : PageCatalog.t) (s : slack) (k : Kernel.t) : Prop := {
  ki_residents : residents_ok c (Kernel.residents k);
  ki_bytes : Kernel.resident_bytes k = charge_of (Kernel.residents k);
  ki_capacity : charge_of (Kernel.residents k) <= Kernel.capacity_bytes k <= u64_max;
  ki_accounting : accounting (Kernel.metrics k) (unused (Kernel.residents k))
                    (unused_bytes (Kernel.residents k)) s;
  ki_peak : charge_of (Kernel.residents k) <= Kernel.metrics k peak_resident_charge_bytes
            <= Kernel.capacity_bytes k;
  ki_policy : policy_ok (Kernel.policy k);
  ki_segments : segments_ok (Kernel.policy k) (Kernel.residents k)
}.

(** What an operation that leaves policy and capacity alone preserves. *)
Definition framed (k k' : Kernel.t) : Prop :=
  Kernel.policy k' = Kernel.policy k /\ Kernel.capacity_bytes k' = Kernel.capacity_bytes k.

(** Pages and bytes speculatively filled so far. *)
Definition fills (k : Kernel.t) : N * N :=
  (Kernel.metrics k prefetch_admitted, Kernel.metrics k prefetch_load_bytes).

Lemma framed_trans k1 k2 k3 : framed k1 k2 -> framed k2 k3 -> framed k1 k3.
Proof. intros [] []. split; congruence. Qed.

Lemma post_kadd c v name k Q (X : SimError -> Prop) :
  (Kernel.metrics k c + v <= u64_max ->
   Q (Kernel.set_metrics (SimulationMetrics.set c (Kernel.metrics k c + v) (Kernel.metrics k)) k)) ->
  X (CounterOverflow name) -> post (Kernel.add c v name k) Q X.
Proof. intros HQ HX. unfold Kernel.add. apply post_bind, post_add; auto. Qed.

(** Step through one counter addition. *)
Ltac ksimpl := cbn [Kernel.capacity_bytes Kernel.policy Kernel.residents Kernel.resident_bytes
  Kernel.metrics Kernel.decisions Kernel.touch Kernel.set_metrics Kernel.set_residents
  Kernel.set_resident_bytes Kernel.set_touch Kernel.set_policy] in *.
Ltac kadd := apply post_bind, post_kadd; [intros ?; ksimpl | auto with sim].
Ltac kadd_last := apply post_kadd; [intros ?; ksimpl | auto with sim].

(** Logging a decision changes nothing else. *)
Lemma kernel_inv_log c s bytes k : kernel_inv c s k -> kernel_inv c s (Kernel.log bytes k).
Proof. intros []. by split. Qed.

Lemma kernel_inv_hash_event c s seq tag page victims k :
  kernel_inv c s k -> kernel_inv c s (Kernel.hash_event seq tag page victims k).
Proof.
  intros H. unfold Kernel.hash_event, Kernel.hash_page_list.
  destruct page; by repeat apply kernel_inv_log.
Qed.

Lemma kernel_inv_hash_prefetch c s seq tag o r a v k :
  kernel_inv c s k -> kernel_inv c s (Kernel.hash_prefetch_decision seq tag o r a v k).
Proof.
  intros H. unfold Kernel.hash_prefetch_decision, Kernel.hash_page_list. by repeat apply kernel_inv_log.
Qed.

Lemma framed_hash_event seq tag page victims k : framed k (Kernel.hash_event seq tag page victims k).
Proof. by destruct page. Qed.

Lemma framed_hash_prefetch seq tag o r a v k :
  framed k (Kernel.hash_prefetch_decision seq tag o r a v k).
Proof. done. Qed.

#[export] Hint Resolve kernel_inv_hash_event kernel_inv_hash_prefetch framed_hash_event
  framed_hash_prefetch : sim.

Lemma segments_ok_delete p r id : segments_ok p r -> segments_ok p (delete id r).
Proof.
  unfold segments_ok. destruct (PolicyState.protected_target_of p) as [t|].
  - intros [Hn Ht]. split; [by intros id' e [_ ?]%lookup_delete_Some; apply (Hn id')|].
    destruct (r !! id) as [e|] eqn:E; [|by rewrite delete_id].
    unfold protected_bytes in *. rewrite (msum_delete _ r id e E) in Ht. lia.
  - intros H id' e [_ ?]%lookup_delete_Some. by eapply H.
Qed.

Lemma segments_ok_insert p r id e :
  segments_ok p r -> r !! id = None -> ResidentEntry.segment e = PolicyState.initial_segment p ->
  segments_ok p (<[id := e]> r).
Proof.
  unfold segments_ok. intros H Hid Hseg. destruct (PolicyState.protected_target_of p) as [t|] eqn:E.
  - assert (ResidentEntry.segment e = Segment.Probation) as Hp by (by destruct p).
    destruct H as [Hn Ht]. split.
    + intros id' e' [[<- <-]|[_ ?]]%lookup_insert_Some; [congruence | by eapply Hn].
    + unfold protected_bytes in *. rewrite msum_insert_new by done. unfold is_protected at 1.
      rewrite bool_decide_eq_false_2 by congruence. lia.
  - intros id' e' [[<- <-]|[_ ?]]%lookup_insert_Some; [by destruct p | by eapply H].
Qed.

(** Removing an entry settles it as wasted when nobody claimed it. *)
Lemma evict_spec c s k page :
  kernel_inv c s k -> is_Some (Kernel.residents k !! page) ->
  post (Kernel.evict k page)
    (fun k' => kernel_inv c s k' /\ framed k k' /\ fills k' = fills k
               /\ Kernel.residents k' = delete page (Kernel.residents k))
    overflow_only.
Proof.
  intros [Hr Hb Hc Ha Hpk Hp Hs] [e He]. unfold Kernel.evict. rewrite He. apply post_bind, post_ok.
  pose proof (msum_delete ResidentEntry.charge_bytes _ _ _ He) as Hcd.
  pose proof (msum_delete (fun e => if ResidentEntry.prefetched_unused e then 1 else 0) _ _ _ He) as Hud.
  pose proof (msum_delete (fun e => if ResidentEntry.prefetched_unused e
    then ResidentEntry.logical_bytes e else 0) _ _ _ He) as Hbd.
  fold (unused (Kernel.residents k)) (unused (delete page (Kernel.residents k))) in Hud.
  fold (unused_bytes (Kernel.residents k)) (unused_bytes (delete page (Kernel.residents k))) in Hbd.
  cbn beta in *. unfold Kernel.account_wasted_prefetch.
  apply (residents_ok_delete _ _ page) in Hr. apply (segments_ok_delete _ _ page) in Hs.
  destruct (ResidentEntry.prefetched_unused e) eqn:Eu; simpl in *.
  - apply post_bind. kadd. kadd_last.
    apply post_bind, post_checked_sub; [lia|]. kadd. kadd_last.
    split_and!; [|by split | by unfold fills; simpl; metrics_simpl | done].
    split; simpl; try done; metrics_simpl; try lia.
    rewrite Hud, Hbd in Ha. metrics_solve Ha.
  - apply post_bind, post_checked_sub; [lia|]. kadd. kadd_last.
    split_and!; [|by split | by unfold fills; simpl; metrics_simpl | done].
    split; simpl; try done; metrics_simpl; try lia.
    rewrite Hud, Hbd in Ha. metrics_solve Ha.
Qed.

Abbreviation delete_all := (foldl (fun m k => delete k m)).

Lemma evicts_spec c s k victims :
  kernel_inv c s k -> NoDup victims ->
  (forall v, v ∈ victims -> is_Some (Kernel.residents k !! v)) ->
  post (try_fold Kernel.evict k victims)
    (fun k' => kernel_inv c s k' /\ framed k k' /\ fills k' = fills k
               /\ Kernel.residents k' = delete_all (Kernel.residents k) victims)
    overflow_only.
Proof.
  intros Hk Hnd Hv. apply (post_try_fold _ _ (fun dn k' => kernel_inv c s k' /\ framed k k'
    /\ fills k' = fills k /\ Kernel.residents k' = delete_all (Kernel.residents k) dn)); [done|].
  intros dn v rest k' -> (Hk' & Hf & Hl & Hr). eapply post_strengthen; [apply (evict_spec c s)|].
  - done.
  - rewrite Hr, lookup_foldl_delete. apply NoDup_app in Hnd as (_ & Hd & _).
    rewrite decide_False; [apply Hv; set_solver|]. intros Hin. apply (Hd v Hin). left.
  - intros k2 (Hk2 & Hf2 & Hl2 & Hr2). split_and!; [done | by eapply framed_trans | congruence |].
    by rewrite Hr2, Hr, foldl_app.
Qed.

(** After a plan has been carried out, the planned charge fits. *)
Lemma plan_room_after r capacity charge victims :
  plan_ok r capacity charge victims ->
  charge_of (delete_all r victims) + charge <= capacity.
Proof.
  intros [Hnd Hres Hroom].
  pose proof (msum_foldl_delete ResidentEntry.charge_bytes r victims Hnd Hres) as H.
  unfold entry_charge in Hroom. lia.
Qed.

(** The entry [insert] creates. *)
Definition new_entry (k : Kernel.t) (pg : PageDescriptor.t) (touch : N) (unused : bool)
    : ResidentEntry.t :=
  ResidentEntry.mk (PageDescriptor.id pg) (PageDescriptor.charge_bytes pg)
    (PageDescriptor.logical_bytes pg) touch (PolicyState.initial_segment (Kernel.policy k)) unused.

(** [insert] of an absent page that fits: the resulting kernel, exactly. *)
Lemma insert_spec c s k pg touch flag :
  kernel_inv c s k -> Kernel.residents k !! PageDescriptor.id pg = None ->
  charge_of (Kernel.residents k) + PageDescriptor.charge_bytes pg <= Kernel.capacity_bytes k ->
  post (Kernel.insert pg touch flag k)
    (fun k' => k' = Kernel.mk (Kernel.capacity_bytes k) (Kernel.policy k)
       (<[PageDescriptor.id pg := new_entry k pg touch flag]> (Kernel.residents k))
       (charge_of (Kernel.residents k) + PageDescriptor.charge_bytes pg)
       (SimulationMetrics.set admissions (Kernel.metrics k admissions + 1)
          (SimulationMetrics.set peak_resident_charge_bytes
             (N.max (Kernel.metrics k peak_resident_charge_bytes)
                (charge_of (Kernel.residents k) + PageDescriptor.charge_bytes pg))
             (Kernel.metrics k)))
       (Kernel.decisions k) (Kernel.touch k)
       /\ Kernel.metrics k admissions + 1 <= u64_max)
    overflow_only.
Proof.
  intros [Hr Hb Hc Ha Hpk Hp Hs] Habs Hfit. unfold Kernel.insert. rewrite Hb.
  apply post_bind, post_checked_add; [intros _|auto with sim].
  apply post_bind, post_guard; [intros ?%N.ltb_lt; lia|]. intros _.
  rewrite Habs. apply post_bind, post_guard; [by intros [? ?]%bool_decide_eq_true|]. intros _.
  kadd_last. by metrics_simpl.
Qed.

Lemma kernel_inv_insert c s k pg touch flag m :
  kernel_inv c s k -> Kernel.residents k !! PageDescriptor.id pg = None ->
  PageCatalog.page c (PageDescriptor.id pg) = Ok pg ->
  charge_of (Kernel.residents k) + PageDescriptor.charge_bytes pg <= Kernel.capacity_bytes k ->
  forall s',
  accounting m (unused (Kernel.residents k) + if flag : bool then 1 else 0)
    (unused_bytes (Kernel.residents k) + if flag then PageDescriptor.logical_bytes pg else 0) s' ->
  charge_of (Kernel.residents k) + PageDescriptor.charge_bytes pg <= m peak_resident_charge_bytes
    <= Kernel.capacity_bytes k ->
  kernel_inv c s' (Kernel.mk (Kernel.capacity_bytes k) (Kernel.policy k)
    (<[PageDescriptor.id pg := new_entry k pg touch flag]> (Kernel.residents k))
    (charge_of (Kernel.residents k) + PageDescriptor.charge_bytes pg) m
    (Kernel.decisions k) (Kernel.touch k)).
Proof.
  intros [Hr Hb Hc Ha Hpk Hp Hs] Habs Hpg Hfit s' Hm Hpeak.
  assert (charge_of (<[PageDescriptor.id pg := new_entry k pg touch flag]> (Kernel.residents k))
          = charge_of (Kernel.residents k) + PageDescriptor.charge_bytes pg) as Hch.
  { rewrite msum_insert_new by done. simpl. lia. }
  split; simpl; rewrite ?Hch; try done; try lia.
  - by eapply residents_ok_insert.
  - unfold unused, unused_bytes in *. rewrite !msum_insert_new by done. simpl.
    rewrite (N.add_comm (if flag then 1 else 0)),
      (N.add_comm (if flag then PageDescriptor.logical_bytes pg else 0)). done.
  - by apply segments_ok_insert.
Qed.

(** * Demands *)

Lemma unused_same_core r r' : same_core r r' -> unused r = unused r'.
Proof. apply (msum_same_core (fun x => if x.2 then 1 else 0)). Qed.

Lemma unused_bytes_same_core r r' : same_core r r' -> unused_bytes r = unused_bytes r'.
Proof. apply (msum_same_core (fun x => if x.2 then x.1.2 else 0)). Qed.

(** Touching, promoting and demoting residents keeps the invariant. *)
Lemma on_hit_inv c s k page touch :
  kernel_inv c s k ->
  post (PolicyState.on_hit (Kernel.policy k) (Kernel.residents k) page touch)
    (fun r => kernel_inv c s (Kernel.set_residents r k)) overflow_only.
Proof.
  intros [Hr Hb Hc Ha Hpk Hp Hs]. eapply post_mono; [apply (on_hit_spec c); [done | lia]| |done].
  intros r' (Hcore & Hlru & Htarget & Hall).
  split; simpl; rewrite ?(charge_same_core _ _ Hcore), ?(unused_same_core _ _ Hcore),
    ?(unused_bytes_same_core _ _ Hcore); try done.
  - symmetry in Hcore. by eapply residents_ok_same_core.
  - unfold segments_ok in *. destruct (PolicyState.protected_target_of _) as [t|] eqn:Et.
    + destruct Hs as [Hn Ht]. split; [by apply Hlru | by apply Htarget].
    + by apply Hall.
Qed.

Lemma demand_hit_spec c seq page_id bytes touch e k :
  kernel_inv c (Slack 0 0 1 bytes) k -> Kernel.residents k !! page_id = Some e ->
  bytes = ResidentEntry.logical_bytes e ->
  post (Kernel.demand_hit seq page_id bytes touch e k)
    (fun k' => kernel_inv c settled k' /\ framed k k') overflow_only.
Proof.
  intros Hk He ->. unfold Kernel.demand_hit. apply post_bind.
  assert (forall k1, kernel_inv c settled k1 -> framed k k1 ->
    post (r ← PolicyState.on_hit (Kernel.policy k1) (Kernel.residents k1) page_id touch;
          Ok (Kernel.set_residents r k1))
      (fun k' => kernel_inv c settled k' /\ framed k k') overflow_only) as Hfinish.
  { intros k1 Hk1 Hf. apply post_bind. eapply post_strengthen; [by apply (on_hit_inv c settled)|].
    intros r Hr. by apply post_ok. }
  destruct Hk as [Hr Hb Hc Ha Hpk Hp Hs].
  destruct (ResidentEntry.prefetched_unused e) eqn:Eu.
  - set (e' := ResidentEntry.set_prefetched_unused false e).
    set (r' := <[page_id := e']> (Kernel.residents k)).
    assert (unused r' + 1 = unused (Kernel.residents k)) as Hu.
    { pose proof (msum_insert (fun e => if ResidentEntry.prefetched_unused e then 1 else 0)
        _ _ _ e' He) as Hi. cbn beta in Hi. rewrite Eu in Hi. unfold unused, r'. simpl in Hi. lia. }
    assert (unused_bytes r' + ResidentEntry.logical_bytes e = unused_bytes (Kernel.residents k)) as Hub.
    { pose proof (msum_insert (fun e => if ResidentEntry.prefetched_unused e
        then ResidentEntry.logical_bytes e else 0) _ _ _ e' He) as Hi. cbn beta in Hi.
      rewrite Eu in Hi. unfold unused_bytes, r'. simpl in Hi. lia. }
    assert (charge_of r' = charge_of (Kernel.residents k)) as Hch.
    { pose proof (msum_insert ResidentEntry.charge_bytes _ _ _ e' He) as Hi. unfold r'. simpl in *. lia. }
    kadd. kadd. kadd. kadd. apply post_ok. apply Hfinish; [apply kernel_inv_hash_event | done].
    split; simpl; fold r'; metrics_simpl; rewrite ?Hch; try done.
    + destruct (Hr page_id e He) as [? (pg & ? & ? & ?)]. by eapply residents_ok_insert.
    + rewrite <- Hu, <- Hub in Ha. metrics_solve Ha.
    + unfold segments_ok, r' in *. destruct (PolicyState.protected_target_of _) as [t|].
      * destruct Hs as [Hn Ht]. split.
        -- intros id e0 [[<- <-]|[_ ?]]%lookup_insert_Some; [by apply (Hn page_id e) | by eapply Hn].
        -- pose proof (msum_insert (fun e => if is_protected e then ResidentEntry.charge_bytes e else 0)
             _ _ _ e' He) as Hi. cbn beta in Hi. change (is_protected e') with (is_protected e) in Hi.
           change (ResidentEntry.charge_bytes e') with (ResidentEntry.charge_bytes e) in Hi.
           unfold protected_bytes in *. lia.
      * intros id e0 [[<- <-]|[_ ?]]%lookup_insert_Some; [by apply (Hs page_id e) | by eapply Hs].
  - kadd. kadd. apply post_ok. apply Hfinish; [apply kernel_inv_hash_event | done].
    split; simpl; metrics_simpl; try done. metrics_solve Ha.
Qed.

Lemma demand_miss_spec trace seq request step pg touch k :
  let c := ValidatedTrace.catalog trace in
  let page_id := PageDescriptor.id pg in
  kernel_inv c (Slack 0 0 1 (PageDescriptor.logical_bytes pg)) k ->
  Kernel.residents k !! page_id = None -> PageCatalog.page c page_id = Ok pg ->
  post (Kernel.demand_miss trace seq request step pg page_id touch k)
    (fun k' => kernel_inv c settled k' /\ framed k k') overflow_only.
Proof.
  intros c page_id [Hr Hb Hc Ha Hpk Hp Hs] Habs Hpg. unfold Kernel.demand_miss. kadd. kadd. kadd.
  match goal with |- context [try_fold Kernel.evict ?k0] => set (k1 := k0) end.
  assert (kernel_inv c settled k1) as Hk1.
  { split; simpl; metrics_simpl; try done. metrics_solve Ha. }
  assert (framed k k1 /\ Kernel.residents k1 = Kernel.residents k) as [Hf1 Hr1] by done. clearbody k1.
  apply post_bind. eapply post_strengthen; [apply (plan_demand_spec c); [done..|]; simpl; lia|].
  intros [victims|] Hplan; simpl in Hplan.
  - destruct (Hplan victims eq_refl) as [Hplan' _]. clear Hplan. rename Hplan' into Hplan.
    apply post_bind. rewrite <- Hr1 in Hplan.
    eapply post_strengthen; [apply (evicts_spec c settled); [done | apply Hplan..]|].
    intros k2 (Hk2 & Hf2 & _ & Hr2). apply plan_room_after in Hplan. rewrite <- Hr2 in Hplan.
    destruct Hf1 as [Hf1a Hf1b], Hf2 as [Hf2a Hf2b].
    assert (Kernel.residents k2 !! page_id = None) as Habs2.
    { rewrite Hr2, Hr1, lookup_foldl_delete, Habs. by case_decide. }
    assert (charge_of (Kernel.residents k2) + PageDescriptor.charge_bytes pg
            <= Kernel.capacity_bytes k2) as Hfit by congruence.
    apply post_bind. eapply post_strengthen; [by apply (insert_spec c settled)|].
    intros k3 [-> Hadm]. apply post_ok. split; [|split; destruct page_id; simpl; congruence].
    apply kernel_inv_hash_event, (kernel_inv_insert c settled); [done..| |].
    + destruct Hk2 as [_ _ Hc2 Ha2 Hpk2 _ _]. rewrite !N.add_0_r. metrics_solve Ha2.
    + metrics_simpl. destruct Hk2. lia.
  - apply post_bind, post_kadd; [intros ?; ksimpl | auto with sim].
    apply post_ok. split; [|done]. apply kernel_inv_hash_event.
    destruct Hk1 as [??? Ha1 ???]. split; simpl; metrics_simpl; try done. metrics_solve Ha1.
Qed.

(** Policy bookkeeping before the lookup keeps the target, the configuration and
    the policy invariant. *)
Record policy_frame (p p' : PolicyState.t) : Prop := {
  pf_ok : policy_ok p';
  pf_target : PolicyState.protected_target_of p' = PolicyState.protected_target_of p;
  pf_config : PolicyState.router_config p' = PolicyState.router_config p
}.

Lemma observe_demand_spec p page :
  policy_ok p -> exists p', PolicyState.observe_demand p page = Ok p' /\ policy_frame p p'
    /\ forall r, p = PolicyState.RouterKind r -> p' = p.
Proof.
  intros Hp. destruct p as [| | |s|r]; simpl; try (eexists; split; [done|]; by split).
  destruct (observe_spec s page Hp) as (s' & -> & Hs). simpl.
  eexists. split; [done|]. split; [|done]. split; [apply Hs | done | done].
Qed.

(** Metadata a router event will be charged. *)
Definition selected_bytes (config : RouterPolicyConfig.t) (e : TraceEvent.t) : N :=
  match e with
  | TraceEvent.Demand _ _ _ _ => 0
  | TraceEvent.RouterSignal _ _ _ _ ps =>
      let n := lenN (Kernel.select_predictions config ps) in
      if n =? 0 then 0 else ROUTER_SIGNAL_BASE_BYTES + n * ROUTER_PREDICTION_BYTES
  end.

(** After the events [dn], the router has recorded their metadata, its ceiling
    is that of the whole trace, and every live signal is one of [dn]. *)
Definition progress (events dn : list TraceEvent.t) (p : PolicyState.t) : Prop :=
  match p with
  | PolicyState.RouterKind r =>
      Router.recorded_metadata_bytes r = sumN (selected_bytes (Router.config r)) dn
      /\ Router.metadata_limit_bytes r = sumN (selected_bytes (Router.config r)) events
      /\ forall rq t l, is_Some (signal_at (Router.active r) rq t l) ->
           exists q ps, TraceEvent.RouterSignal q rq t l ps ∈ dn
  | _ => True
  end.

Lemma enter_policy_spec events dn p request step :
  policy_ok p -> progress events dn p ->
  exists p', PolicyState.enter_demand_step p request step = Ok p' /\ policy_frame p p'
    /\ progress events dn p'.
Proof.
  intros Hp Hpr. destruct p as [| | |s|r]; simpl; try (eexists; split; [done|]; by split).
  destruct (enter_demand_step_spec r request step Hp) as (r' & E & Hl & Hsr & Hrec & Hsig).
  simpl in E. rewrite E. eexists. split; [done|]. destruct Hsr as [Ht Hcfg Hpf Hlim].
  split; [split; simpl; by rewrite ?Ht, ?Hcfg|].
  destruct Hpr as (H1 & H2 & H3). simpl. rewrite Hrec, Hlim, Hcfg. split_and!; [done..|].
  intros rq t l. rewrite Hsig. destruct (_ && _); [by intros [? ?] | apply H3].
Qed.

Lemma kernel_inv_policy c s k p :
  kernel_inv c s k -> policy_frame (Kernel.policy k) p -> kernel_inv c s (Kernel.set_policy p k).
Proof.
  intros [] [Hok Ht _]. split; simpl; try done. unfold segments_ok in *. by rewrite Ht.
Qed.

Lemma policy_frame_trans p1 p2 p3 : policy_frame p1 p2 -> policy_frame p2 p3 -> policy_frame p1 p3.
Proof. intros [] []. split; congruence. Qed.

Lemma progress_demand events dn q request step page p :
  progress events dn p -> progress events (dn ++ [TraceEvent.Demand q request step page]) p.
Proof.
  destruct p as [| | | |r]; simpl; try done. intros (H1 & H2 & H3).
  rewrite sumN_app. simpl. split_and!; [lia | done |].
  intros rq t l (q' & ps & Hin)%H3. exists q', ps. set_solver.
Qed.

Section with_trace.
Context (limits : SimLimits.t) (trace : ValidatedTrace.t) `{Hok : !TraceOk limits trace}.
Abbreviation c := (ValidatedTrace.catalog trace).
Abbreviation events := (ValidatedTrace.events trace).

(** The state between two events. *)
Definition between (capacity : N) (dn : list TraceEvent.t) (k : Kernel.t) : Prop :=
  kernel_inv c settled k /\ progress events dn (Kernel.policy k)
  /\ Kernel.capacity_bytes k = capacity.

Lemma demand_spec capacity dn q request step page k :
  between capacity dn k -> is_Some (PageCatalog.page_index c !! page) ->
  post (Kernel.demand trace q request step page k)
    (between capacity (dn ++ [TraceEvent.Demand q request step page])) overflow_only.
Proof.
  intros (Hk & Hpr & Hcap) (pg & Hpg & Hid & _)%(page_known c). unfold Kernel.demand, ValidatedTrace.page.
  rewrite Hpg. apply post_bind, post_ok.
  destruct (enter_policy_spec events dn _ request step (ki_policy _ _ _ Hk) Hpr)
    as (p1 & -> & Hf1 & Hpr1). apply post_bind, post_ok.
  destruct (observe_demand_spec p1 page (pf_ok _ _ Hf1)) as (p2 & -> & Hf2 & Heq).
  apply post_bind, post_ok.
  assert (progress events (dn ++ [TraceEvent.Demand q request step page]) p2) as Hpr2.
  { apply progress_demand. destruct p1; try by (rewrite (Heq _ eq_refl)).
    all: destruct p2; try done; by destruct Hf2. }
  pose proof (kernel_inv_policy _ _ _ _ Hk (policy_frame_trans _ _ _ Hf1 Hf2)) as Hkp.
  kadd. kadd. apply post_bind. unfold Kernel.next_touch.
  apply post_bind, post_checked_add; [intros _|auto with sim]. apply post_ok. ksimpl.
  match goal with |- post (match _ with Some _ => _ | None => Kernel.demand_miss _ _ _ _ _ _ _ ?k0 end) _ _ =>
    set (k1 := k0) end.
  assert (kernel_inv c (Slack 0 0 1 (PageDescriptor.logical_bytes pg)) k1) as Hk1.
  { destruct Hkp as [??? Ha ???]. split; simpl in *; metrics_simpl; try done. metrics_solve Ha. }
  assert (Kernel.policy k1 = p2 /\ Kernel.capacity_bytes k1 = capacity
          /\ Kernel.residents k1 = Kernel.residents k) as (Hp1 & Hc1 & Hr1) by done.
  clearbody k1. rewrite <- Hr1.
  assert (forall k', kernel_inv c settled k' /\ framed k1 k' ->
    between capacity (dn ++ [TraceEvent.Demand q request step page]) k') as Hdone.
  { intros k' [? [E1 E2]]. split_and!; [done | by rewrite E1, Hp1 | by rewrite E2]. }
  destruct (Kernel.residents k1 !! page) as [e|] eqn:He.
  - eapply post_strengthen; [eapply (demand_hit_spec c); [done..|] | done].
    destruct (ki_residents _ _ _ Hk1 page e He) as [_ (pg' & Hpg' & _ & ->)]. congruence.
  - subst page. eapply post_strengthen; [by eapply (demand_miss_spec trace) | done].
Qed.

(** ** Speculative fills *)

Definition logical_of (id : N) : N :=
  match PageCatalog.page c id with Ok pg => PageDescriptor.logical_bytes pg | _ => 0 end.
Definition charge_of_page (id : N) : N :=
  match PageCatalog.page c id with Ok pg => PageDescriptor.charge_bytes pg | _ => 0 end.
Definition known (id : N) : Prop := exists pg, PageCatalog.page c id = Ok pg /\ PageDescriptor.id pg = id.

(** The offers of [l], still to classify. *)
Definition slack_of (l : list N) : slack := Slack (lenN l) (sumN logical_of l) 0 0.

#[local] Instance slack_of_perm : Proper ((≡ₚ) ==> (=)) slack_of.
Proof. intros l l' H. unfold slack_of, lenN. by rewrite H. Qed.

Lemma kernel_inv_touch s v k : kernel_inv c s k -> kernel_inv c s (Kernel.set_touch v k).
Proof. intros []. by split. Qed.

Lemma offer_pages_spec page_ids k :
  (forall id, id ∈ page_ids -> known id) -> kernel_inv c settled k ->
  post (Kernel.offer_pages trace page_ids k)
    (fun k' => kernel_inv c (slack_of page_ids) k' /\ framed k k' /\ fills k' = fills k
               /\ Kernel.residents k' = Kernel.residents k) overflow_only.
Proof.
  intros Hkn Hk. apply (post_try_fold _ _ (fun dn k' => kernel_inv c (slack_of dn) k' /\ framed k k'
    /\ fills k' = fills k /\ Kernel.residents k' = Kernel.residents k)); [done|].
  intros dn id rest k1 -> (Hk1 & Hf & Hl & Hr). unfold ValidatedTrace.page.
  destruct (Hkn id) as (pg & Hpg & _); [set_solver|]. rewrite Hpg. apply post_bind, post_ok.
  kadd. kadd_last. split_and!; [|done| by unfold fills in *; simpl; metrics_simpl | done].
  destruct Hk1 as [??? Ha ???].
  split; simpl; metrics_simpl; try done. unfold slack_of, lenN in *.
  rewrite length_app, sumN_app. simpl. unfold logical_of at 2. rewrite Hpg. metrics_solve Ha.
Qed.

Lemma drop_prefetches_spec pages k :
  (forall id, id ∈ pages -> known id) -> kernel_inv c (slack_of pages) k ->
  post (Kernel.drop_prefetches trace pages k)
    (fun k' => kernel_inv c settled k' /\ framed k k' /\ fills k' = fills k) overflow_only.
Proof.
  revert k. induction pages as [|id pages IH]; intros k Hkn Hk; [done|].
  unfold Kernel.drop_prefetches, ValidatedTrace.page. cbn [try_fold].
  destruct (Hkn id) as (pg & Hpg & _); [set_solver|]. rewrite Hpg. apply post_bind, post_bind, post_ok.
  kadd. kadd_last. eapply post_strengthen; [apply IH; [set_solver|]|].
  2: { intros k' (? & ? & Hl). split_and!; [done..|]. rewrite Hl. unfold fills. simpl. by metrics_simpl. }
  destruct Hk as [??? Ha ???]. split; simpl; metrics_simpl; try done.
  unfold slack_of, lenN in *. simpl in *. unfold logical_of at 1 in Ha. rewrite Hpg in Ha.
  metrics_solve Ha.
Qed.

Lemma classify_pages_spec page_ids k :
  (forall id, id ∈ page_ids -> known id) -> kernel_inv c (slack_of page_ids) k ->
  post (Kernel.classify_pages trace page_ids k)
    (fun '(k', absent, redundant) => kernel_inv c (slack_of absent) k' /\ framed k k'
       /\ fills k' = fills k /\ Kernel.residents k' = Kernel.residents k
       /\ absent = filter (fun id => Kernel.residents k !! id = None) page_ids) overflow_only.
Proof.
  intros Hkn Hk. eapply post_strengthen.
  - apply (post_try_fold _ _ (fun dn '(k', absent, redundant) =>
      kernel_inv c (slack_of (absent ++ drop (length dn) page_ids)) k' /\ framed k k'
      /\ fills k' = fills k /\ Kernel.residents k' = Kernel.residents k
      /\ absent = filter (fun id => Kernel.residents k !! id = None) dn)).
    { done. }
    intros dn id rest [[k1 absent] redundant] Hl (Hk1 & Hf & Hfl & Hr & ->). unfold ValidatedTrace.page.
    destruct (Hkn id) as (pg & Hpg & _); [set_solver|]. rewrite Hpg. apply post_bind, post_ok.
    assert (drop (length dn) page_ids = id :: rest) as Hd1 by (subst page_ids; apply drop_app_length).
    assert (drop (length (dn ++ [id])) page_ids = rest) as Hd2.
    { subst page_ids. replace (dn ++ id :: rest) with ((dn ++ [id]) ++ rest)
        by (by rewrite <- app_assoc). apply drop_app_length. }
    rewrite Hd1 in Hk1. rewrite Hr, filter_app, filter_cons, filter_nil.
    case_bool_decide as Hin.
    + kadd. kadd. apply post_ok. rewrite Hd2, decide_False by (rewrite <- not_eq_None_Some in Hin; done).
      rewrite app_nil_r. split_and!; [|done| by unfold fills in *; simpl; metrics_simpl | done..].
      rewrite <- Permutation_middle in Hk1. destruct Hk1 as [??? Ha ???].
      split; simpl; metrics_simpl; try done.
      unfold slack_of, lenN in *. simpl in *. unfold logical_of at 1 in Ha. rewrite Hpg in Ha.
      metrics_solve Ha.
    + apply post_ok. rewrite Hd2, decide_True by (by apply eq_None_not_Some).
      rewrite <- app_assoc. done.
  - intros [[k' absent] redundant] (Hk' & Hf & Hfl & Hr & ->).
    rewrite drop_all, app_nil_r in Hk'. done.
Qed.

Lemma fill_pages_spec absent k :
  NoDup absent -> (forall id, id ∈ absent -> known id) ->
  (forall id, id ∈ absent -> Kernel.residents k !! id = None) ->
  charge_of (Kernel.residents k) + sumN charge_of_page absent <= Kernel.capacity_bytes k ->
  kernel_inv c (slack_of absent) k ->
  post (Kernel.fill_pages trace absent k)
    (fun k' => kernel_inv c settled k' /\ framed k k'
       /\ fills k' = ((fills k).1 + lenN absent, (fills k).2 + sumN logical_of absent))
    overflow_only.
Proof.
  revert k. induction absent as [|id absent IH]; intros k Hnd Hkn Habs Hfit Hk.
  { split_and!; [done..|]. simpl. by rewrite !N.add_0_r. }
  apply NoDup_cons in Hnd as [Hnew Hnd]. simpl in Hfit.
  unfold Kernel.fill_pages, ValidatedTrace.page. cbn [try_fold].
  destruct (Hkn id) as (pg & Hpg & Hid); [left|]. rewrite Hpg. apply post_bind, post_bind, post_ok.
  unfold charge_of_page at 1 in Hfit. rewrite Hpg in Hfit.
  apply post_bind. unfold Kernel.next_touch.
  apply post_bind, post_checked_add; [intros _|auto with sim]. apply post_ok.
  apply (kernel_inv_touch _ (Kernel.touch k + 1)) in Hk. set (k1 := Kernel.set_touch _ k) in *.
  assert (framed k k1 /\ fills k1 = fills k /\ Kernel.residents k1 = Kernel.residents k)
    as (Hf1 & Hl1 & Hr1) by done.
  assert (charge_of (Kernel.residents k1) + PageDescriptor.charge_bytes pg
          <= Kernel.capacity_bytes k1) as Hfit1 by (simpl; lia).
  assert (Kernel.residents k1 !! PageDescriptor.id pg = None) as Habs1
    by (rewrite Hid, Hr1; apply Habs; left).
  generalize (Kernel.touch k + 1). intros touch. clearbody k1.
  apply post_bind. eapply post_strengthen; [by apply (insert_spec c (slack_of (id :: absent)))|].
  intros k2 [-> Hadm]. kadd. kadd_last.
  eapply post_strengthen; [apply IH|].
  - done.
  - set_solver.
  - intros id' Hin. simpl. rewrite Hr1, lookup_insert_ne by (rewrite Hid; by intros ->).
    apply Habs. by right.
  - simpl. rewrite msum_insert_new by done. simpl. destruct Hf1 as [_ ->]. rewrite Hr1. lia.
  - pose proof Hk as [_ _ Hc1 Ha Hpk _ _].
    apply (kernel_inv_insert c (slack_of (id :: absent)) k1 pg touch true); [done.. | by rewrite Hid | done | |].
    + unfold slack_of, lenN in *. simpl in Ha. unfold logical_of at 1 in Ha. rewrite Hpg in Ha.
      metrics_solve Ha.
    + metrics_simpl. lia.
  - intros k3 (Hk3 & Hf3 & ->). split_and!; [done | eapply framed_trans; [exact Hf1 | done] |].
    rewrite <- Hl1. unfold fills, lenN. simpl. metrics_simpl. unfold logical_of at 2. rewrite Hpg.
    f_equal; lia.
Qed.

(** A group fills at most what its budget allows and hands the rest back. *)
Definition spends (b b' : PrefetchBudget.t) (k k' : Kernel.t) : Prop :=
  (fills k').1 + PrefetchBudget.remaining_pages b'
    = (fills k).1 + PrefetchBudget.remaining_pages b
  /\ (fills k').2 + PrefetchBudget.remaining_bytes b'
    = (fills k).2 + PrefetchBudget.remaining_bytes b.

Lemma prefetch_group_spec group budget k :
  NoDup (PrefetchGroup.page_ids group) ->
  (forall id, id ∈ PrefetchGroup.page_ids group -> known id) -> kernel_inv c settled k ->
  post (Kernel.prefetch_group trace group budget k)
    (fun '(k', budget') => kernel_inv c settled k' /\ framed k k' /\ spends budget budget' k k')
    overflow_only.
Proof.
  intros Hnd Hkn Hk. unfold Kernel.prefetch_group. apply post_bind.
  eapply post_strengthen; [by apply offer_pages_spec|]. intros k1 (Hk1 & Hf1 & Hl1 & Hr1).
  apply post_bind. eapply post_strengthen; [by apply classify_pages_spec|].
  intros [[k2 absent] redundant] (Hk2 & Hf2 & Hl2 & Hr2 & Eabs).
  assert (framed k k2 /\ fills k2 = fills k) as [Hf Hl]
    by (split; [by eapply framed_trans | congruence]).
  assert (forall id, id ∈ absent -> known id) as Hkn2
    by (rewrite Eabs; intros id [_ ?]%list_elem_of_filter; auto).
  assert (NoDup absent) as Hnd2 by (rewrite Eabs; by apply NoDup_filter).
  assert (forall id, id ∈ absent -> Kernel.residents k2 !! id = None) as Habs2
    by (rewrite Eabs, Hr2; intros id [? _]%list_elem_of_filter; done).
  assert (forall tag, post (k' ← Kernel.drop_prefetches trace absent k2;
      Ok (Kernel.hash_prefetch_decision (PrefetchGroup.sequence group) tag
            (PrefetchGroup.page_ids group) redundant absent [] k', budget))
    (fun '(k', budget') => kernel_inv c settled k' /\ framed k k' /\ spends budget budget' k k')
    overflow_only) as Hdrop.
  { intros tag. apply post_bind. eapply post_strengthen; [by apply drop_prefetches_spec|].
    intros k' (? & ? & Hl'). apply post_ok. split_and!; [auto with sim | by eapply framed_trans |].
    rewrite Hl in Hl'. unfold spends, fills in *. simplify_eq. simpl in *. split; congruence. }
  clear Eabs. case_decide as Hnil.
  { apply post_ok. subst. split_and!; [auto with sim | done |].
    unfold spends, fills in *. simplify_eq. simpl in *. split; congruence. }
  destruct (N.ltb_spec (PrefetchBudget.remaining_pages budget) (lenN absent)) as [|Hpages]; [apply Hdrop|].
  apply post_bind. eapply post_mono.
  { apply (try_fold_sum _ logical_of u64_max (CounterOverflow "prefetch group load")).
    intros b id (pg & Hpg & _)%Hkn2. unfold ValidatedTrace.page, logical_of. by rewrite Hpg. }
  2: { intros e [-> _]. auto with sim. }
  intros load [-> _]. rewrite N.add_0_l.
  destruct (N.ltb_spec (PrefetchBudget.remaining_bytes budget) (sumN logical_of absent))
    as [|Hbytes]; [apply Hdrop|].
  apply post_bind. eapply post_strengthen.
  { eapply (plan_prefetch_spec c); [apply Hk2 | | reflexivity | apply Hk2 | apply Hk2].
    intros id (pg & ? & _)%Hkn2. eauto. }
  intros [victims|] Hplan; [|apply Hdrop]. specialize (Hplan victims eq_refl). simpl in Hplan.
  apply post_bind. eapply post_strengthen; [apply (evicts_spec c (slack_of absent)); [done | apply Hplan..]|].
  intros k3 (Hk3 & Hf3 & Hl3 & Hr3). apply plan_room_after in Hplan. rewrite <- Hr3 in Hplan.
  apply post_bind. eapply post_strengthen; [apply fill_pages_spec; try done|].
  { intros id Hid. rewrite Hr3, lookup_foldl_delete, Habs2 by done. by case_decide. }
  { destruct Hf3 as [_ ->]. exact Hplan. }
  intros k4 (Hk4 & Hf4 & Hl4). apply post_bind, post_checked_sub; [done|].
  apply post_bind, post_sub_or_panic; [done|]. apply post_ok.
  split_and!; [auto with sim | eapply framed_trans; [exact Hf | by eapply framed_trans] |].
  assert (forall b1 b2 tag o r a v, spends budget (PrefetchBudget.mk b1 b2) k k4 ->
    spends budget (PrefetchBudget.mk b1 b2) k (Kernel.hash_prefetch_decision
      (PrefetchGroup.sequence group) tag o r a v k4)) as Hs by done. apply Hs.
  unfold spends. rewrite Hl4, Hl3, Hl. simpl. split; lia.
Qed.

Lemma prefetch_groups_spec q request target_step layer selected budget k :
  kernel_inv c settled k ->
  post (Kernel.prefetch_groups trace q request target_step layer selected budget k)
    (fun k' => kernel_inv c settled k' /\ framed k k'
       /\ (fills k').1 <= (fills k).1 + PrefetchBudget.remaining_pages budget
       /\ (fills k').2 <= (fills k).2 + PrefetchBudget.remaining_bytes budget) overflow_only.
Proof.
  revert budget k. induction selected as [|p selected IH]; intros budget k Hk; simpl.
  { split_and!; [done.. | lia | lia]. }
  case_match; [apply post_ok; split_and!; [done.. | lia | lia]|].
  apply post_bind. eapply post_strengthen; [apply prefetch_group_spec; simpl|].
  - apply (cat_expert_nodup (c:=c)).
  - intros id (pg & o & Hin & Hid & _)%(cat_expert_pages (c:=c)).
    apply list_elem_of_lookup in Hin as [i Hi].
    destruct (cat_index (c:=c) i pg Hi) as [_ Hidx].
    destruct (page_known c id) as (pg' & Hpg & Hid' & _); [|by exists pg'].
    rewrite <- Hid. eauto.
  - done.
  - intros [k' budget'] (Hk' & Hf' & H1 & H2). eapply post_strengthen; [by apply IH|].
    intros k2 (? & ? & ? & ?). unfold fills in *. simpl in *.
    split_and!; [done | by eapply framed_trans | lia | lia].
Qed.

(** ** Router signals *)

Lemma select_length config ps :
  lenN (Kernel.select_predictions config ps)
    = N.min (lenN (filter (fun p => RouterPolicyConfig.minimum_score_ppm config
                                      <= ExpertPrediction.score_ppm p) ps))
        (RouterPolicyConfig.max_experts_per_signal config).
Proof.
  unfold Kernel.select_predictions, lenN. rewrite length_take, length_sort_by_key. lia.
Qed.

Lemma select_distinct config ps :
  NoDup (ExpertPrediction.expert <$> ps) ->
  NoDup (ExpertPrediction.expert <$> Kernel.select_predictions config ps).
Proof.
  intros Hnd.
  assert (Kernel.select_predictions config ps ⊆+ ps) as Hsub.
  { unfold Kernel.select_predictions. etrans; [apply sublist_submseteq, sublist_take|].
    rewrite sort_by_key_perm. apply sublist_submseteq, sublist_filter. }
  apply (fmap_submseteq ExpertPrediction.expert), submseteq_Permutation in Hsub as [k Hk].
  rewrite Hk in Hnd. by apply NoDup_app in Hnd as [? _].
Qed.

(** The live signals after recording one more event. *)
Lemma progress_signal dn q request target_step layer ps r r' :
  progress events dn (PolicyState.RouterKind r) -> same_router r r' ->
  Router.recorded_metadata_bytes r' = Router.recorded_metadata_bytes r
    + selected_bytes (Router.config r) (TraceEvent.RouterSignal q request target_step layer ps) ->
  (forall rq t l, is_Some (signal_at (Router.active r') rq t l) ->
     (rq, t, l) = (request, target_step, layer) \/ is_Some (signal_at (Router.active r) rq t l)) ->
  progress events (dn ++ [TraceEvent.RouterSignal q request target_step layer ps])
    (PolicyState.RouterKind r').
Proof.
  intros (H1 & H2 & H3) [_ Hcfg _ Hlim] Hrec Hsig. simpl. rewrite Hcfg, Hlim, Hrec, H1, sumN_app.
  simpl. split_and!; [lia | done |].
  intros rq t l [[= -> -> ->]|(q' & ps' & Hin)%H3]%Hsig; [exists q, ps | exists q', ps']; set_solver.
Qed.

Lemma signal_spec capacity dn rest q request target_step layer ps k :
  events = dn ++ TraceEvent.RouterSignal q request target_step layer ps :: rest ->
  between capacity dn k ->
  post (Kernel.signal trace q request target_step layer ps k)
    (fun k' => between capacity (dn ++ [TraceEvent.RouterSignal q request target_step layer ps]) k'
       /\ forall config, PolicyState.router_config (Kernel.policy k) = Some config ->
            (fills k').1 <= (fills k).1 + RouterPolicyConfig.max_pages_per_signal config
            /\ (fills k').2 <= (fills k).2 + RouterPolicyConfig.max_prefetch_bytes_per_signal config)
    overflow_only.
Proof.
  intros Hev (Hk & Hpr & Hcap).
  pose proof (trace_events (t:=trace) dn _ rest Hev) as (_ & _ & _ & Huniq & Hpred).
  unfold Kernel.signal.
  destruct (PolicyState.router_config (Kernel.policy k)) as [config|] eqn:Hcfg.
  2: { apply post_ok. split; [|done]. split_and!; [auto with sim | | done].
       simpl. by destruct (Kernel.policy k). }
  destruct (Kernel.policy k) as [| | | |r] eqn:Hp; try done. injection Hcfg as Hcfg.
  assert (selected_bytes (Router.config r) (TraceEvent.RouterSignal q request target_step layer ps)
    = if lenN (Kernel.select_predictions config ps) =? 0 then 0
      else ROUTER_SIGNAL_BASE_BYTES + lenN (Kernel.select_predictions config ps) * ROUTER_PREDICTION_BYTES)
    as Hsel by (simpl; by rewrite Hcfg).
  destruct (Kernel.select_predictions config ps) as [|p0 sel0] eqn:Es.
  { apply post_ok. split; [|intros ? [= <-]; unfold fills; simpl; split; lia].
    split_and!; [auto with sim | | done]. change (Kernel.policy _) with (Kernel.policy k). rewrite Hp.
    eapply progress_signal; [done | by split | | auto]. rewrite Hsel. simpl. lia. }
  rewrite <- Es in *. pose proof (ki_policy _ _ _ Hk) as Hl. rewrite Hp in Hl.
  assert (lenN (Kernel.select_predictions config ps) <> 0) as Hn0 by (rewrite Es; unfold lenN; simpl; lia).
  apply N.eqb_neq in Hn0. rewrite Hn0 in Hsel.
  destruct (record_signal_spec r request target_step layer (Kernel.select_predictions config ps))
    as (r' & -> & Hl' & Hsr & Hrec & Hsig).
  { done. }
  { by rewrite Es. }
  { apply select_distinct, Hpred. }
  { apply eq_None_not_Some. intros Hs. destruct Hpr as (_ & _ & H3).
    apply H3 in Hs as (q' & ps' & Hin). by apply Huniq in Hin. }
  { destruct Hpr as (-> & -> & _). rewrite Hev, sumN_app. simpl sumN. fold (selected_bytes (Router.config r)).
    rewrite <- Hsel. simpl. lia. }
  apply post_bind, post_ok.
  assert (kernel_inv c settled (Kernel.set_policy (PolicyState.RouterKind r') k)) as Hk'.
  { apply kernel_inv_policy; [done|]. rewrite Hp. destruct Hsr. split; simpl; congruence. }
  assert (progress events (dn ++ [TraceEvent.RouterSignal q request target_step layer ps])
    (PolicyState.RouterKind r')) as Hpr'.
  { eapply progress_signal; [done.. | by rewrite Hsel |].
    intros rq t l. rewrite Hsig. case_decide; auto. }
  assert (fills (Kernel.set_policy (PolicyState.RouterKind r') k) = fills k) as Hfl by done.
  set (k1 := Kernel.set_policy _ k) in *.
  assert (Kernel.policy k1 = PolicyState.RouterKind r' /\ Kernel.capacity_bytes k1 = capacity)
    as [Hp1 Hc1] by done. clearbody k1.
  case_match.
  - apply post_ok. split; [split_and!; [auto with sim | by simpl; rewrite Hp1 | done]|].
    intros ? [= <-]. change (fills (Kernel.hash_event _ _ _ _ k1)) with (fills k1). rewrite Hfl.
    split; lia.
  - eapply post_strengthen; [by apply prefetch_groups_spec|].
    intros k2 (Hk2 & [Hf1 Hf2] & Hb1 & Hb2). split.
    + split_and!; [done | by rewrite Hf1, Hp1 | congruence].
    + intros ? [= <-]. rewrite Hfl in *. done.
Qed.

Lemma step_spec capacity dn e rest k :
  events = dn ++ e :: rest -> between capacity dn k ->
  post (Kernel.step trace k e) (between capacity (dn ++ [e])) overflow_only.
Proof.
  intros Hev Hk. destruct e as [q request target_step layer ps | q request step page]; simpl.
  - eapply post_strengthen; [by eapply signal_spec|]. by intros k' [? _].
  - apply demand_spec; [done|]. by apply (trace_events (t:=trace) dn _ rest Hev).
Qed.

Lemma events_spec capacity k :
  between capacity [] k ->
  post (try_fold (Kernel.step trace) k events) (between capacity events) overflow_only.
Proof.
  intros Hk. apply (post_try_fold _ _ (between capacity)); [done|].
  intros dn e rest k' Hev Hk'. by eapply step_spec.
Qed.
End with_trace.
