(* ===== verification/SimRun.v ===== *)
(** Whole runs of the online policies: construction of the kernel, the replay of
    every event and the settlement at the end, composed into the contract of
    [simulate]. *)
From stdpp Require Import prelude gmap strings sorting.
From S2P Require Import Prelude SimModel SimPolicy SimOracle SimEngine SimTrace SimTraceOk.
From S2P Require Import SimTinyLfu SimPolicyFacts SimEngineFacts.
#[local] Open Scope N_scope.
#[local] Arguments TinyLfu.splitmix : simpl never.
#[local] Arguments u64_max : simpl never.

(** The configurations an online policy accepts. *)
Definition accepts (spec : PolicySpec.t) : bool :=
  match spec with
  | PolicySpec.NoCache | PolicySpec.Lru => true
  | PolicySpec.Slru ppm => ppm <=? 1000000
  | PolicySpec.TinyLfu c =>
      (1 <=? TinyLfuConfig.sketch_depth c) && (TinyLfuConfig.sketch_depth c <=? 8)
      && (64 <=? TinyLfuConfig.sketch_width c) && (TinyLfuConfig.sketch_width c <=? 65536)
      && (1 <=? TinyLfuConfig.sample_accesses c)
  | PolicySpec.RouterAdmit c | PolicySpec.RouterPrefetch c =>
      (RouterPolicyConfig.minimum_score_ppm c <=? 1000000)
      && (1 <=? RouterPolicyConfig.max_experts_per_signal c)
      && (1 <=? RouterPolicyConfig.max_pages_per_signal c)
      && (RouterPolicyConfig.protected_fraction_ppm c <=? 1000000)
  | PolicySpec.Belady => false
  end.

(** The 64-bit fields of a configuration are 64-bit values. *)
Definition config_typed (config : SimulationConfig.t) : Prop :=
  SimulationConfig.capacity_bytes config <= u64_max
  /\ match SimulationConfig.policy config with
     | PolicySpec.TinyLfu c => TinyLfuConfig.sample_accesses c <= u64_max
     | _ => True
     end.

(** The error of a rejected configuration. *)
Definition rejected (spec : PolicySpec.t) (e : SimError) : Prop :=
  accepts spec = false /\ exists m, e = InvalidConfig m.

Lemma tiny_new_accepts config :
  TinyLfuConfig.sample_accesses config <= u64_max ->
  post (TinyLfu.new config) (fun s => accepts (PolicySpec.TinyLfu config) = true /\ tiny_ok s)
    (rejected (PolicySpec.TinyLfu config)).
Proof.
  intros Hs. eapply post_mono; [apply post_and; [apply (new_ok config Hs)|] | |].
  1: apply post_mono with (Q := fun _ => accepts (PolicySpec.TinyLfu config) = true)
       (X := rejected (PolicySpec.TinyLfu config)); [| intros ? H; exact H | intros ? H; exact H].
  2: { intros s [(? & _) ?]. by split. }
  2: by intros e [_ ?].
  unfold TinyLfu.new, rejected, accepts. change (lenN HASH_SEEDS) with 8.
  destruct (1 <=? TinyLfuConfig.sketch_depth config); [|by simpl; eauto].
  destruct (TinyLfuConfig.sketch_depth config <=? 8) eqn:Hd2; [|by simpl; eauto].
  destruct (64 <=? TinyLfuConfig.sketch_width config); [|by simpl; eauto].
  destruct (TinyLfuConfig.sketch_width config <=? 65536) eqn:Hw2; [|by simpl; eauto].
  destruct (N.eqb_spec (TinyLfuConfig.sample_accesses config) 0) as [E|E].
  { rewrite E. simpl. eauto. }
  rewrite (proj2 (N.leb_le 1 (TinyLfuConfig.sample_accesses config))) by lia.
  apply N.leb_le in Hd2, Hw2. unfold checked_mul, checked_add, usize_max.
  rewrite !(proj2 (N.leb_le _ u64_max)) by (unfold u64_max; nia). done.
Qed.

Section with_trace.
Context (limits : SimLimits.t) (trace : ValidatedTrace.t) `{Hok : !TraceOk limits trace}.
Abbreviation c := (ValidatedTrace.catalog trace).
Abbreviation events := (ValidatedTrace.events trace).

(** The ceiling is the metadata that every signal of the trace will record. *)
Lemma router_limit_spec config :
  post (try_fold (fun limit event =>
      match event with
      | TraceEvent.Demand _ _ _ _ => Ok limit
      | TraceEvent.RouterSignal _ _ _ _ predictions =>
          let selected := N.min
            (lenN (filter (fun p => RouterPolicyConfig.minimum_score_ppm config
                                      <= ExpertPrediction.score_ppm p) predictions))
            (RouterPolicyConfig.max_experts_per_signal config) in
          if selected =? 0 then Ok limit
          else
            bytes ← router_signal_metadata_bytes selected;
            ok_or (checked_add u64_max limit bytes) (CounterOverflow "router metadata ceiling")
      end) 0 events)
    (fun limit => limit = sumN (selected_bytes config) events /\ limit <= u64_max) overflow_only.
Proof.
  apply (post_try_fold _ _ (fun dn limit => limit = sumN (selected_bytes config) dn
    /\ limit <= u64_max)); [done|].
  intros dn e rest limit _ [-> Hle]. rewrite sumN_app. simpl sumN.
  destruct e as [q rq t l ps | q rq s p]; simpl; [|split; lia].
  rewrite <- select_length. case_match; [split; simpl; lia|].
  apply post_bind. eapply post_strengthen; [apply metadata_bytes_total|]. intros b ->.
  apply post_checked_add; [|auto with sim]. intros ?. split; lia.
Qed.

Lemma ledger_ok_new target config prefetch limit :
  limit <= u64_max -> ledger_ok (Router.mk target config prefetch ∅ 0 0 0 limit).
Proof. intros. split; simpl; try done; lia. Qed.

Lemma segments_ok_empty p : segments_ok p ∅.
Proof.
  unfold segments_ok. destruct (PolicyState.protected_target_of p); [|done].
  split; [done|]. unfold protected_bytes. rewrite msum_empty. lia.
Qed.

Lemma new_router_spec config prefetch cap limit :
  limit = sumN (selected_bytes config) events -> limit <= u64_max ->
  post (PolicyState.new_router config prefetch cap limit)
    (fun p => accepts (PolicySpec.RouterAdmit config) = true /\ policy_ok p
              /\ progress events [] p /\ segments_ok p ∅)
    (fun e => accepts (PolicySpec.RouterAdmit config) = false /\ exists m, e = InvalidConfig m).
Proof.
  intros Hl Hle. unfold PolicyState.new_router, PolicyState.fraction_target, accepts.
  rewrite !N.ltb_antisym.
  destruct (RouterPolicyConfig.minimum_score_ppm config <=? 1000000); [|by simpl; eauto].
  destruct (N.eqb_spec (RouterPolicyConfig.max_experts_per_signal config) 0) as [->|];
    [by simpl; eauto|].
  rewrite (proj2 (N.leb_le 1 (RouterPolicyConfig.max_experts_per_signal config))) by lia.
  destruct (N.eqb_spec (RouterPolicyConfig.max_pages_per_signal config) 0) as [->|];
    [by simpl; eauto|].
  rewrite (proj2 (N.leb_le 1 (RouterPolicyConfig.max_pages_per_signal config))) by lia.
  destruct (RouterPolicyConfig.protected_fraction_ppm config <=? 1000000); simpl; [|eauto].
  split_and!; [done | by apply ledger_ok_new | done | done | ..].
  - intros rq t l. unfold signal_at. rewrite lookup_empty. by intros [].
  - apply segments_ok_empty.
Qed.

Lemma policy_new_spec spec cap limit :
  match spec with PolicySpec.TinyLfu c => TinyLfuConfig.sample_accesses c <= u64_max | _ => True end ->
  match spec with
  | PolicySpec.RouterAdmit config | PolicySpec.RouterPrefetch config =>
      limit = sumN (selected_bytes config) events
  | _ => True
  end -> limit <= u64_max ->
  post (PolicyState.new spec cap limit)
    (fun p => accepts spec = true /\ policy_ok p /\ progress events [] p /\ segments_ok p ∅)
    (rejected spec).
Proof.
  intros Ht Hlim Hle. destruct spec as [| |ppm|cfg|cfg|cfg|]; simpl.
  - by split_and!.
  - by split_and!.
  - unfold PolicyState.fraction_target, rejected, accepts. rewrite N.ltb_antisym.
    destruct (_ <=? _); simpl; [|eauto]. split_and!; try done.
    apply segments_ok_empty.
  - apply post_bind. eapply post_strengthen; [by apply tiny_new_accepts|].
    intros s [? ?]. by split_and!.
  - eapply post_mono; [by apply new_router_spec | done | done].
  - eapply post_mono; [by apply new_router_spec | done | done].
  - split; [done|eauto].
Qed.

Lemma kernel_new_spec config :
  config_typed config ->
  post (Kernel.new trace config)
    (fun k => accepts (SimulationConfig.policy config) = true
              /\ between trace (SimulationConfig.capacity_bytes config) [] k)
    (fun e => overflow_only e \/ rejected (SimulationConfig.policy config) e).
Proof.
  intros [Hcap Ht]. unfold Kernel.new. apply post_bind.
  eapply post_mono with (Q := fun limit => limit <= u64_max
    /\ match SimulationConfig.policy config with
       | PolicySpec.RouterAdmit config | PolicySpec.RouterPrefetch config =>
           limit = sumN (selected_bytes config) events
       | _ => True
       end); [| |by left].
  { unfold Kernel.router_metadata_limit. destruct (SimulationConfig.policy config).
    5-6: eapply post_strengthen; [apply router_limit_spec|]; by intros ? [].
    all: by split. }
  intros limit [Hle Hlim]. apply post_bind.
  eapply post_mono; [by apply policy_new_spec | | by right].
  intros p (Ha & Hp & Hpr & Hs). apply post_ok. split; [done|]. split_and!; [|done|done].
  split; simpl; try done; unfold charge_of, unused, unused_bytes; rewrite ?msum_empty;
    rewrite ?map_to_list_empty; try apply residents_ok_empty; try apply accounting_default; split; simpl; unfold SimulationMetrics.default; lia.
Qed.

(** ** Settlement *)

(** What the published metrics satisfy. *)
Record report_ok (cap : N) (m : SimulationMetrics.t) : Prop := {
  rep_accounting : accounting m 0 0 settled;
  rep_total : m total_physical_load_bytes = m demand_load_bytes + m prefetch_load_bytes;
  rep_final : m final_resident_charge_bytes <= m peak_resident_charge_bytes <= cap;
  rep_metadata : m policy_metadata_bytes <= m policy_metadata_limit_bytes
}.

Lemma settle_spec entries k u ub :
  accounting (Kernel.metrics k)
    (u + sumN (fun e => if ResidentEntry.prefetched_unused e then 1 else 0) entries)
    (ub + sumN (fun e => if ResidentEntry.prefetched_unused e
                         then ResidentEntry.logical_bytes e else 0) entries) settled ->
  post (try_fold (fun k entry => Kernel.account_wasted_prefetch entry k) k entries)
    (fun k' => accounting (Kernel.metrics k') u ub settled /\ framed k k'
       /\ Kernel.resident_bytes k' = Kernel.resident_bytes k
       /\ Kernel.metrics k' peak_resident_charge_bytes
            = Kernel.metrics k peak_resident_charge_bytes) overflow_only.
Proof.
  revert k. induction entries as [|e l IH]; intros k Ha; simpl in *.
  { by rewrite !N.add_0_r in Ha. }
  apply post_bind. unfold Kernel.account_wasted_prefetch at 1.
  destruct (ResidentEntry.prefetched_unused e).
  - kadd. kadd_last. eapply post_strengthen; [eapply IH|]; simpl.
    + metrics_solve Ha.
    + intros k' (H1 & H2 & H3 & H4). split_and!; [done | done | done |].
      rewrite H4. by metrics_simpl.
  - apply post_ok, IH, Ha.
Qed.

Lemma finish_metadata_ok p :
  policy_ok p -> progress events events p ->
  exists a b, PolicyState.finish_metadata p = Ok (a, b) /\ a <= b <= u64_max.
Proof.
  intros Hp Hpr. destruct p as [| | |s|r]; try (eexists _, _; split; [done | unfold u64_max; lia]).
  - eexists _, _. split; [done|]. unfold TinyLfu.metadata_bytes. destruct Hp as [? ? -> -> _ _].
    split; [lia|]. pose proof (N.Div0.div_le_upper_bound (TinyLfu.width s + 7) 8 65543).
    unfold u64_max. nia.
  - destruct Hpr as (H1 & H2 & _). rewrite finish_metadata_spec; [|done|congruence].
    eexists _, _. split; [done|]. destruct Hp. lia.
Qed.

Lemma unused_filter r :
  unused r = sumN (fun e => if ResidentEntry.prefetched_unused e then 1 else 0)
    (filter (fun e => ResidentEntry.prefetched_unused e = true) (btree_values r)).
Proof.
  unfold unused. rewrite <- msum_btree_values, sumN_filter.
  apply sumN_ext. intros e _. by destruct (ResidentEntry.prefetched_unused e).
Qed.

Lemma unused_bytes_filter r :
  unused_bytes r = sumN (fun e => if ResidentEntry.prefetched_unused e
                                  then ResidentEntry.logical_bytes e else 0)
    (filter (fun e => ResidentEntry.prefetched_unused e = true) (btree_values r)).
Proof.
  unfold unused_bytes. rewrite <- msum_btree_values, sumN_filter.
  apply sumN_ext. intros e _. by destruct (ResidentEntry.prefetched_unused e).
Qed.

Lemma finish_run_spec cap k :
  between trace cap events k ->
  post (Kernel.finish k) (fun k' => report_ok cap (Kernel.metrics k')) overflow_only.
Proof.
  intros ([Hr Hb Hc Ha Hpk Hp _] & Hpr & Hcap). unfold Kernel.finish. apply post_bind.
  eapply post_strengthen; [apply (settle_spec _ k 0 0); by rewrite <- unused_filter, <- unused_bytes_filter|].
  intros k1 (Ha1 & [Hp1 Hc1] & Hb1 & Hm1).
  destruct (finish_metadata_ok (Kernel.policy k1)) as (a & b & -> & Hab); [by rewrite Hp1..|].
  simpl. apply post_bind.
  match goal with |- post (SimulationMetrics.finish ?m) _ _ => set (m1 := m) end.
  assert (accounting m1 0 0 settled) as Ha2 by (subst m1; metrics_solve Ha1).
  assert (m1 final_resident_charge_bytes <= m1 peak_resident_charge_bytes <= cap
          /\ m1 policy_metadata_bytes <= m1 policy_metadata_limit_bytes) as [Hf Hmd].
  { subst m1. metrics_simpl. lia. }
  clearbody m1. eapply post_mono; [apply (finish_spec m1 Ha2) | | intros e [-> _]; auto with sim].
  intros m2 [-> Htot]. apply post_ok. simpl. split; metrics_simpl; [metrics_solve Ha2 | done..].
Qed.

Lemma run_spec sha256_hex config :
  config_typed config ->
  post (k ← Kernel.new trace config; Kernel.run sha256_hex trace k)
    (fun r => accepts (SimulationConfig.policy config) = true
              /\ report_ok (SimulationConfig.capacity_bytes config) r.1)
    (fun e => overflow_only e \/ rejected (SimulationConfig.policy config) e).
Proof.
  intros Ht. apply post_bind. eapply post_strengthen; [by apply kernel_new_spec|].
  intros k [Hacc Hk]. unfold Kernel.run. apply post_bind.
  eapply post_mono; [by apply (events_spec limits trace) | | by left]. intros k1 Hk1.
  apply post_bind. eapply post_mono; [by apply finish_run_spec | | by left].
  intros k2 Hk2. by apply post_ok.
Qed.
End with_trace.
