(* ===== verification/SimDemand.v ===== *)
(** One demand of the online kernel as an equation on its state: which counters
    move, what the policy decides and what becomes of the resident set.  The
    refinement of LRU and the comparison with the offline optimum read the code
    through this file. *)
From stdpp Require Import prelude gmap strings sorting.
From S2P Require Import Prelude SimModel SimPolicy SimEngine SimPolicyFacts SimEngineFacts.
#[local] Open Scope N_scope.
#[local] Arguments u64_max : simpl never.

(** Two kernels that differ at most in counters other than the loads, the demand
    accesses and the misses, in the resident-byte total and in the decision log. *)
Record tracks (k k' : Kernel.t) : Prop := {
  tr_policy : Kernel.policy k' = Kernel.policy k;
  tr_capacity : Kernel.capacity_bytes k' = Kernel.capacity_bytes k;
  tr_touch : Kernel.touch k' = Kernel.touch k;
  tr_load : Kernel.metrics k' demand_load_bytes = Kernel.metrics k demand_load_bytes;
  tr_prefetch : Kernel.metrics k' prefetch_load_bytes = Kernel.metrics k prefetch_load_bytes;
  tr_misses : Kernel.metrics k' demand_misses = Kernel.metrics k demand_misses;
  tr_accesses : Kernel.metrics k' demand_accesses = Kernel.metrics k demand_accesses
}.

Lemma tracks_refl k : tracks k k.
Proof. by split. Qed.
Lemma tracks_trans k1 k2 k3 : tracks k1 k2 -> tracks k2 k3 -> tracks k1 k3.
Proof. intros [] []. split; congruence. Qed.

Lemma returns_kadd c v name k Q :
  (Kernel.metrics k c + v <= u64_max ->
   Q (Kernel.set_metrics (SimulationMetrics.set c (Kernel.metrics k c + v) (Kernel.metrics k)) k)) ->
  returns (Kernel.add c v name k) Q.
Proof.
  intros H. unfold Kernel.add, SimulationMetrics.add, checked_add.
  destruct (N.leb_spec (Kernel.metrics k c + v) u64_max); simpl; [by intros ? [= <-]; auto | done].
Qed.

Ltac radd := apply returns_bind, returns_kadd; intros ?; ksimpl.
Ltac tracks_solve := split; simpl; metrics_simpl; done.

Lemma waste_tracks e k :
  returns (Kernel.account_wasted_prefetch e k)
    (fun k' => tracks k k' /\ Kernel.residents k' = Kernel.residents k).
Proof.
  unfold Kernel.account_wasted_prefetch. destruct (ResidentEntry.prefetched_unused e).
  - radd. apply returns_kadd; intros ?; ksimpl. split; [tracks_solve | done].
  - by apply returns_ok.
Qed.

Lemma evict_tracks k page :
  returns (Kernel.evict k page)
    (fun k' => tracks k k' /\ Kernel.residents k' = delete page (Kernel.residents k)).
Proof.
  unfold Kernel.evict. apply returns_bind, returns_ok_or. intros e _. apply returns_bind.
  eapply returns_mono; [apply waste_tracks|]. intros k1 [[] Hr].
  apply returns_bind, returns_ok_or. intros b _. radd. apply returns_kadd; intros ?; ksimpl.
  split; [|done]. split; simpl in *; metrics_simpl; done.
Qed.

Lemma evicts_tracks k victims :
  returns (try_fold Kernel.evict k victims)
    (fun k' => tracks k k' /\ Kernel.residents k' = delete_all (Kernel.residents k) victims).
Proof.
  apply (returns_try_fold _ _ (fun dn k' => tracks k k'
    /\ Kernel.residents k' = delete_all (Kernel.residents k) dn)); [by split; [apply tracks_refl|]|].
  intros dn x k' [Ht Hr]. eapply returns_mono; [apply evict_tracks|]. intros k2 [Ht2 Hr2].
  split; [by eapply tracks_trans|]. by rewrite foldl_app, Hr2, Hr.
Qed.

Lemma insert_tracks pg touch flag k :
  returns (Kernel.insert pg touch flag k)
    (fun k' => tracks k k'
       /\ Kernel.residents k' = <[PageDescriptor.id pg := new_entry k pg touch flag]> (Kernel.residents k)).
Proof.
  unfold Kernel.insert. apply returns_bind, returns_ok_or. intros b _.
  apply returns_bind, returns_guard, returns_bind, returns_guard.
  apply returns_kadd; intros ?; ksimpl. split; [tracks_solve | done].
Qed.

(** The policy after the bookkeeping that precedes the lookup. *)
Definition noted (p : PolicyState.t) (request step page : N) : result SimError PolicyState.t :=
  p ← PolicyState.enter_demand_step p request step; PolicyState.observe_demand p page.

(** The entry a demand hit touches: a pending prefetch is claimed first. *)
Definition claimed (r : Residents) (page : N) (e : ResidentEntry.t) : Residents :=
  if ResidentEntry.prefetched_unused e
  then <[page := ResidentEntry.set_prefetched_unused false e]> r else r.

Record demanded (trace : ValidatedTrace.t) (request step page : N) (k k' : Kernel.t)
    (pg : PageDescriptor.t) : Prop := {
  dem_page : ValidatedTrace.page trace page = Ok pg;
  dem_policy : noted (Kernel.policy k) request step page = Ok (Kernel.policy k');
  dem_capacity : Kernel.capacity_bytes k' = Kernel.capacity_bytes k;
  dem_touch : Kernel.touch k' = Kernel.touch k + 1;
  dem_prefetch : Kernel.metrics k' prefetch_load_bytes = Kernel.metrics k prefetch_load_bytes;
  dem_accesses : Kernel.metrics k' demand_accesses = Kernel.metrics k demand_accesses + 1;
  dem_effect :
    match Kernel.residents k !! page with
    | Some e =>
        Kernel.metrics k' demand_load_bytes = Kernel.metrics k demand_load_bytes
        /\ Kernel.metrics k' demand_misses = Kernel.metrics k demand_misses
        /\ PolicyState.on_hit (Kernel.policy k') (claimed (Kernel.residents k) page e) page
             (Kernel.touch k') = Ok (Kernel.residents k')
    | None =>
        Kernel.metrics k' demand_load_bytes
          = Kernel.metrics k demand_load_bytes + PageDescriptor.logical_bytes pg
        /\ Kernel.metrics k' demand_misses = Kernel.metrics k demand_misses + 1
        /\ exists plan,
             PolicyState.plan_demand_victims (Kernel.policy k') (ValidatedTrace.catalog trace)
               (Kernel.residents k)
               (DemandPlan.mk (Kernel.resident_bytes k) (Kernel.capacity_bytes k) pg request step)
             = Ok plan
             /\ Kernel.residents k'
                = match plan with
                  | None => Kernel.residents k
                  | Some victims =>
                      <[PageDescriptor.id pg := new_entry k' pg (Kernel.touch k') false]>
                        (delete_all (Kernel.residents k) victims)
                  end
    end
}.

Lemma hash_event_frame seq tag page victims k :
  tracks k (Kernel.hash_event seq tag page victims k)
  /\ Kernel.residents (Kernel.hash_event seq tag page victims k) = Kernel.residents k.
Proof. by destruct page. Qed.

Lemma demand_hit_effect seq page bytes touch e k :
  returns (Kernel.demand_hit seq page bytes touch e k)
    (fun k' => tracks k k'
       /\ PolicyState.on_hit (Kernel.policy k) (claimed (Kernel.residents k) page e) page touch
          = Ok (Kernel.residents k')).
Proof.
  unfold Kernel.demand_hit, claimed. apply returns_bind.
  destruct (ResidentEntry.prefetched_unused e).
  - radd. radd. radd. radd. apply returns_ok, returns_bind. intros r Hr. apply returns_ok.
    split; [tracks_solve | done].
  - radd. radd. apply returns_ok, returns_bind. intros r Hr. apply returns_ok.
    split; [tracks_solve | done].
Qed.

Lemma demand_miss_effect trace seq request step pg page touch k :
  returns (Kernel.demand_miss trace seq request step pg page touch k)
    (fun k' => Kernel.policy k' = Kernel.policy k
       /\ Kernel.capacity_bytes k' = Kernel.capacity_bytes k /\ Kernel.touch k' = Kernel.touch k
       /\ Kernel.metrics k' prefetch_load_bytes = Kernel.metrics k prefetch_load_bytes
       /\ Kernel.metrics k' demand_accesses = Kernel.metrics k demand_accesses
       /\ Kernel.metrics k' demand_load_bytes
          = Kernel.metrics k demand_load_bytes + PageDescriptor.logical_bytes pg
       /\ Kernel.metrics k' demand_misses = Kernel.metrics k demand_misses + 1
       /\ exists plan,
            PolicyState.plan_demand_victims (Kernel.policy k) (ValidatedTrace.catalog trace)
              (Kernel.residents k)
              (DemandPlan.mk (Kernel.resident_bytes k) (Kernel.capacity_bytes k) pg request step)
            = Ok plan
            /\ Kernel.residents k'
               = match plan with
                 | None => Kernel.residents k
                 | Some victims =>
                     <[PageDescriptor.id pg := new_entry k pg touch false]>
                       (delete_all (Kernel.residents k) victims)
                 end).
Proof.
  unfold Kernel.demand_miss. radd. radd. radd. apply returns_bind. intros plan Hplan.
  destruct plan as [victims|].
  - apply returns_bind. eapply returns_mono; [apply evicts_tracks|]. intros k1 [Ht1 Hr1].
    apply returns_bind. eapply returns_mono; [apply insert_tracks|]. intros k2 [Ht2 Hr2].
    apply returns_ok. pose proof (tracks_trans _ _ _ Ht1 Ht2) as [P C T L F M A].
    destruct Ht1 as [P1 _ _ _ _ _ _]. ksimpl.
    assert (new_entry k1 pg touch false = new_entry k pg touch false) as He
      by (unfold new_entry; by rewrite P1).
    rewrite He in Hr2. clear -P C T L F M A Hplan Hr1 Hr2.
    split_and!; try (simpl; congruence); simpl; rewrite ?L, ?F, ?M, ?A; metrics_simpl; try done.
    exists (Some victims). by rewrite Hr2, Hr1.
  - radd. apply returns_ok. split_and!; simpl; metrics_simpl; try done. by exists None.
Qed.

Lemma demand_effect trace seq request step page k :
  returns (Kernel.demand trace seq request step page k)
    (fun k' => exists pg, demanded trace request step page k k' pg).
Proof.
  unfold Kernel.demand. apply returns_bind. intros pg Hpg. apply returns_bind. intros p1 Hp1.
  apply returns_bind. intros p2 Hp2. radd. radd. apply returns_bind. unfold Kernel.next_touch.
  apply returns_bind, returns_ok_or. unfold checked_add. intros v Hv. case_match; [|done].
  injection Hv as <-. apply returns_ok. ksimpl.
  assert (noted (Kernel.policy k) request step page = Ok p2) as Hnoted.
  { unfold noted. by rewrite Hp1. }
  destruct (Kernel.residents k !! page) as [e|] eqn:He.
  - eapply returns_mono; [apply demand_hit_effect|]. intros k' [[P C T L F M A] Hhit]. simpl in *.
    exists pg. revert L F M A. metrics_simpl. intros L F M A.
    split; rewrite ?He, ?P, ?T; simpl; try done.
  - eapply returns_mono; [apply demand_miss_effect|]. simpl.
    intros k' (P & C & T & F & A & L & M & plan & Hplan & Hr). exists pg. revert L F M A. metrics_simpl.
    intros L F M A. split; rewrite ?He, ?P, ?T; simpl; try done.
    split_and!; [done | done |]. exists plan. split; [done|]. rewrite Hr.
    destruct plan; [|done]. unfold new_entry. by rewrite P.
Qed.

(** The settlement at the end of a run keeps the demand counters and totals the
    loads. *)
Lemma finish_effect k :
  returns (Kernel.finish k) (fun k' =>
    Kernel.metrics k' demand_accesses = Kernel.metrics k demand_accesses
    /\ Kernel.metrics k' demand_misses = Kernel.metrics k demand_misses
    /\ Kernel.metrics k' demand_load_bytes = Kernel.metrics k demand_load_bytes
    /\ Kernel.metrics k' total_physical_load_bytes
       = Kernel.metrics k demand_load_bytes + Kernel.metrics k prefetch_load_bytes).
Proof.
  unfold Kernel.finish. apply returns_bind.
  eapply returns_mono; [apply (returns_try_fold _ _ (fun _ k' => tracks k k'))|].
  { apply tracks_refl. }
  { intros dn e k1 H1. eapply returns_mono; [apply waste_tracks|]. intros k2 [H2 _].
    by eapply tracks_trans. }
  intros k1 [_ _ _ El Ef Em Ea]. apply returns_bind. intros [a b] _. apply returns_bind.
  unfold SimulationMetrics.finish. apply returns_bind, returns_ok_or. unfold checked_add at 1.
  intros total Ht. case_match; [|done]. injection Ht as <-. revert El Ef Em Ea. metrics_simpl.
  intros El Ef Em Ea.
  repeat first [apply returns_bind, returns_guard | apply returns_bind, returns_ok_or; intros ? _].
  apply returns_ok, returns_ok. simpl. metrics_simpl. split_and!; lia.
Qed.
