(* ===== verification/Paging.v ===== *)
(** Abstract offline paging: what a replacement schedule is, what it costs, and
    the exchange argument that makes farthest-next-use optimal.  This is the
    specification the two oracles are proved against. *)
From stdpp Require Import prelude gmap sorting.
From S2P Require Import Prelude.
#[local] Open Scope N_scope.

Section schedules.
(** Which resident sets are within capacity, and the cost of loading a page. *)
Context (fits : gset N -> Prop) (cost : N -> N).

(** [serves S rs c]: from the resident set [S] some schedule serves the
    demands [rs] with loads of total cost [c].  After a demand it keeps any
    part of what it holds: the residents, and the page it just loaded. *)
Inductive serves : gset N -> list N -> N -> Prop :=
| serves_nil S : serves S [] 0
| serves_hit S S' p rs c :
    p ∈ S -> S' ⊆ S -> serves S' rs c -> serves S (p :: rs) c
| serves_miss S S' p rs c :
    p ∉ S -> S' ⊆ {[p]} ∪ S -> fits S' -> serves S' rs c -> serves S (p :: rs) (cost p + c).

(** [S] can do at least as well as cost [c]. *)
Definition within_cost (S : gset N) (rs : list N) (c : N) : Prop :=
  exists c', c' <= c /\ serves S rs c'.

Lemma within_cost_mono S rs c c' : within_cost S rs c -> c <= c' -> within_cost S rs c'.
Proof. intros (d & Hd & H) ?. exists d. split; [lia | done]. Qed.

Lemma serves_within S rs c : serves S rs c -> within_cost S rs c.
Proof. intros H. by exists c. Qed.

Lemma within_hit S S' p rs c :
  p ∈ S -> S' ⊆ S -> within_cost S' rs c -> within_cost S (p :: rs) c.
Proof. intros ?? (d & Hd & H). exists d. split; [done | by eapply serves_hit]. Qed.

Lemma within_miss S S' p rs c :
  p ∉ S -> S' ⊆ {[p]} ∪ S -> fits S' -> within_cost S' rs c ->
  within_cost S (p :: rs) (cost p + c).
Proof. intros ??? (d & Hd & H). exists (cost p + d). split; [lia | by eapply serves_miss]. Qed.

(** Holding more pages never hurts. *)
Lemma serves_mono S T rs c : S ⊆ T -> serves S rs c -> within_cost T rs c.
Proof.
  intros HST H. revert T HST.
  induction H as [S|S S' p rs c Hp Hs _ IH|S S' p rs c Hp Hs Hf Hr IH]; intros T HST.
  - exists 0. split; [done | constructor].
  - apply (within_hit T T); [set_solver | done | apply IH; set_solver].
  - destruct (decide (p ∈ T)) as [HpT|HpT].
    + apply (within_cost_mono _ _ c); [|lia]. apply (within_hit T T); [done | done | apply IH; set_solver].
    + apply (within_miss T S'); [done | set_solver | done | by apply serves_within].
Qed.
End schedules.

(** * Unit costs and a number of slots *)

Section slots.
Context (k : nat).
Abbreviation fits := (fun S : gset N => (size S <= k)%nat).
Abbreviation unit_cost := (fun _ : N => 1).

Lemma remove_add (x : N) (S : gset N) : x ∈ S -> S = {[x]} ∪ (S ∖ {[x]}).
Proof. intros Hx. apply set_eq. intros y. destruct (decide (y = x)); set_solver. Qed.

Lemma size_remove_add (x : N) (S : gset N) : x ∈ S -> size S = Datatypes.S (size (S ∖ {[x]})).
Proof. intros Hx. rewrite (remove_add x S Hx) at 1. rewrite size_union, size_singleton; [done | set_solver]. Qed.

(** Losing one page costs at most one load. *)
Lemma serves_lose y R rs c :
  y ∉ R -> (size ({[y]} ∪ R : gset N) <= k)%nat ->
  serves fits unit_cost ({[y]} ∪ R) rs c -> within_cost fits unit_cost R rs (c + 1).
Proof.
  revert R c. induction rs as [|p rs IH]; intros R c Hy Hk H; inversion H as [|? T' ? ? ? Hp Hs Hr|? T' ? ? c1 Hp Hs Hf Hr]; subst.
  - exists 0. split; [lia | constructor].
  - assert (size T' <= size ({[y]} ∪ R))%nat as Hsz by (by apply subseteq_size).
    destruct (decide (p = y)) as [->|Hne].
    + eapply within_cost_mono; [eapply (within_miss _ _ R T'); [done | done | lia | by apply serves_within] | simpl; lia].
    + eapply (within_hit _ _ R (R ∩ T')); [set_solver | set_solver |].
      destruct (decide (y ∈ T')) as [HyT|HyT].
      * apply IH; [set_solver | |].
        -- rewrite <- Hk. apply subseteq_size. set_solver.
        -- replace ({[y]} ∪ R ∩ T') with T'; [done|]. apply set_eq. set_solver.
      * replace (R ∩ T') with T' by (apply set_eq; set_solver).
        eapply within_cost_mono; [by apply serves_within | lia].
  - assert (p ∉ R) as HpR by set_solver.
    destruct (decide (y ∈ T')) as [HyT|HyT].
    + replace (1 + c1 + 1) with (1 + (c1 + 1)) by lia.
      pose proof (size_remove_add y T' HyT).
      apply (within_miss fits unit_cost R (T' ∖ {[y]}) p rs (c1 + 1)); [done | set_solver | lia |].
      apply IH; [set_solver | |]; rewrite <- remove_add by done; [lia | done].
    + eapply within_cost_mono;
        [eapply (within_miss _ _ R T'); [done | set_solver | done | by apply serves_within] | simpl; lia].
Qed.

(** [x] is demanded no later than [y]. *)
Fixpoint no_later (x y : N) (rs : list N) : Prop :=
  match rs with
  | [] => True
  | p :: rs => p = x \/ (p <> y /\ no_later x y rs)
  end.

(** The exchange: a page that is needed no later is worth at least as much. *)
Lemma serves_exchange x y R rs c :
  x ∉ R -> y ∉ R -> x <> y -> (size ({[y]} ∪ R : gset N) <= k)%nat -> no_later x y rs ->
  serves fits unit_cost ({[y]} ∪ R) rs c -> within_cost fits unit_cost ({[x]} ∪ R) rs c.
Proof.
  revert R c. induction rs as [|p rs IH]; intros R c Hx Hy Hxy Hk Hn H;
    inversion H as [|? T' ? ? ? Hp Hs Hr|? T' ? ? c1 Hp Hs Hf Hr]; subst.
  - exists 0. split; [lia | constructor].
  - destruct Hn as [->|[Hpy Hn]]; [set_solver|]. assert (p ∈ R) as HpR by set_solver.
    destruct (decide (y ∈ T')) as [HyT|HyT].
    + eapply (within_hit _ _ _ ({[x]} ∪ T' ∖ {[y]})); [set_solver | set_solver |].
      apply IH; [set_solver | set_solver | done | | done |]; rewrite <- remove_add by done; [|done].
      rewrite <- Hk. by apply subseteq_size.
    + eapply (within_hit _ _ _ T'); [set_solver | set_solver | by apply serves_within].
  - destruct Hn as [->|[Hpy Hn]].
    + eapply (within_hit _ _ _ ({[x]} ∪ R)); [set_solver | done |].
      destruct (decide (y ∈ T')) as [HyT|HyT].
      * pose proof (serves_lose y (T' ∖ {[y]}) rs c1) as Hl. rewrite <- remove_add in Hl by done.
        destruct Hl as (d & Hd & Hd'); [set_solver | done | done |].
        eapply within_cost_mono; [eapply serves_mono; [|exact Hd']; set_solver | lia].
      * eapply within_cost_mono; [eapply serves_mono; [|exact Hr]; set_solver | lia].
    + assert (p ∉ R) as HpR by set_solver. destruct (decide (p = x)) as [->|Hpx].
      { eapply (within_hit _ _ _ ({[x]} ∪ R)); [set_solver | done |].
        destruct (decide (y ∈ T')) as [HyT|HyT].
        - pose proof (serves_lose y (T' ∖ {[y]}) rs c1) as Hl. rewrite <- remove_add in Hl by done.
          destruct Hl as (d & Hd & Hd'); [set_solver | done | done |].
          eapply within_cost_mono; [eapply serves_mono; [|exact Hd']; set_solver | lia].
        - eapply within_cost_mono; [eapply serves_mono; [|exact Hr]; set_solver | lia]. }
      destruct (decide (y ∈ T')) as [HyT|HyT].
      * pose proof (size_remove_add y T' HyT).
        apply (within_miss fits unit_cost _ ({[x]} ∪ T' ∖ {[y]}) p rs c1); [set_solver | set_solver | |].
        -- rewrite size_union, size_singleton by set_solver. lia.
        -- apply IH; [set_solver | set_solver | done | | done |]; rewrite <- remove_add by done; done.
      * apply (within_miss fits unit_cost _ T' p rs c1); [set_solver | set_solver | done | by apply serves_within].
Qed.
End slots.

(** ** Farthest next use *)

Section belady.
Context (k : nat).
Abbreviation fits := (fun S : gset N => (size S <= k)%nat).
Abbreviation unit_cost := (fun _ : N => 1).

(** [v] is a page of [S] that is demanded last. *)
Definition farthest (v : N) (S : gset N) (rs : list N) : Prop :=
  v ∈ S /\ forall u, u ∈ S -> u <> v -> no_later u v rs.

(** The state after a miss of [p]: the page is added, and if that is one page
    too many a farthest one is dropped. *)
Definition min_step (p : N) (S S' : gset N) (rs : list N) : Prop :=
  ((size S < k)%nat /\ S' = {[p]} ∪ S)
  \/ (size S = k /\ exists v, farthest v ({[p]} ∪ S) rs /\ S' = ({[p]} ∪ S) ∖ {[v]}).

Lemma min_step_fits p S S' rs : p ∉ S -> min_step p S S' rs -> fits S'.
Proof.
  intros Hp [[Hlt ->]|(Heq & v & [Hv _] & ->)].
  - rewrite size_union, size_singleton by set_solver. lia.
  - pose proof (size_remove_add v _ Hv) as Hsz. rewrite size_union, size_singleton in Hsz by set_solver. lia.
Qed.

Lemma min_step_subset p S S' rs : min_step p S S' rs -> S' ⊆ {[p]} ∪ S.
Proof. intros [[_ ->]|(_ & v & _ & ->)]; set_solver. Qed.

(** No schedule does better than a farthest-next-use step. *)
Lemma min_step_optimal p S S' rs c :
  p ∉ S -> min_step p S S' rs -> serves fits unit_cost S (p :: rs) c ->
  exists c1, 1 + c1 <= c /\ serves fits unit_cost S' rs c1.
Proof.
  intros Hp Hm H. inversion H as [|? T ? ? ? Hin|? T ? ? c1 _ Hs Hf Hr]; subst; [done|].
  enough (within_cost fits unit_cost S' rs c1) as (d & Hd & Hd') by (exists d; split; [lia | done]).
  destruct Hm as [[Hlt ->]|(Heq & v & [Hv Hfar] & ->)]; [by eapply serves_mono|].
  set (A := {[p]} ∪ S) in *.
  assert (exists u, u ∈ A /\ u ∉ T) as (u & HuA & HuT).
  { destruct (decide (A ∖ T = ∅)) as [He|Hns].
    - assert (A ⊆ T) as Hsub%subseteq_size .
      { intros x Hx. destruct (decide (x ∈ T)); [done|]. exfalso. set_solver. }
      unfold A in Hsub. rewrite size_union, size_singleton in Hsub by set_solver. lia.
    - apply set_choose_L in Hns as [u Hu]. exists u. set_solver. }
  destruct (decide (u = v)) as [->|Huv]; [eapply serves_mono; [|exact Hr]; set_solver|].
  destruct (decide (v ∈ T)) as [HvT|HvT]; [|eapply serves_mono; [|exact Hr]; set_solver].
  pose proof (size_remove_add v T HvT) as Hsz.
  destruct (serves_exchange k u v (T ∖ {[v]}) rs c1) as (d & Hd & Hd').
  { set_solver. } { set_solver. } { done. }
  { by rewrite <- remove_add. } { by apply Hfar. } { by rewrite <- remove_add. }
  eapply within_cost_mono; [eapply serves_mono; [|exact Hd']; set_solver | lia].
Qed.

(** Keeping everything on a hit is optimal too. *)
Lemma hit_optimal p S rs c :
  p ∈ S -> serves fits unit_cost S (p :: rs) c ->
  exists c1, c1 <= c /\ serves fits unit_cost S rs c1.
Proof.
  intros Hp H. inversion H as [|? T ? ? ? _ Hs Hr|]; subst; [|done].
  destruct (serves_mono _ _ _ S _ _ Hs Hr) as (d & ? & ?). by exists d.
Qed.
End belady.

(** * Byte capacities *)

(** The charges of a resident set. *)
Definition set_charge (charge : N -> N) (S : gset N) : N := sumN charge (elements S).
Definition byte_fits (charge : N -> N) (capacity : N) (S : gset N) : Prop :=
  set_charge charge S <= capacity.

Lemma set_charge_union charge p S :
  p ∉ S -> set_charge charge ({[p]} ∪ S) = charge p + set_charge charge S.
Proof. intros Hp. unfold set_charge. by rewrite elements_union_singleton. Qed.

Lemma set_charge_subset charge S T : S ⊆ T -> set_charge charge S <= set_charge charge T.
Proof. intros HST. unfold set_charge. apply sumN_sublist. by apply elements_submseteq. Qed.

Lemma set_charge_uniform charge u S :
  (forall p, p ∈ S -> charge p = u) -> set_charge charge S = u * N.of_nat (size S).
Proof.
  induction S as [|p S Hp IH] using set_ind_L; intros Hu.
  - unfold set_charge. rewrite elements_empty, size_empty. simpl. lia.
  - rewrite set_charge_union by done. rewrite size_union, size_singleton by set_solver.
    rewrite IH by set_solver. rewrite Hu by set_solver. lia.
Qed.

Lemma size_list_to_set_le (l : list N) : (size (list_to_set l : gset N) <= length l)%nat.
Proof.
  induction l as [|x l IH]; [done|]. cbn [list_to_set length].
  rewrite size_union_alt, size_singleton.
  pose proof (subseteq_size (list_to_set l ∖ {[x]} : gset N) (list_to_set l)) as Hs.
  specialize (Hs ltac:(set_solver)). lia.
Qed.

(** A schedule only ever holds demanded pages, so capacities and costs need to
    agree on those alone. *)
Lemma serves_transfer (fits1 fits2 : gset N -> Prop) (cost1 cost2 : N -> N) (U S : gset N) rs c :
  (forall T, T ⊆ U -> fits1 T -> fits2 T) -> (forall p, p ∈ U -> cost1 p = cost2 p) ->
  S ⊆ U -> (forall p, p ∈ rs -> p ∈ U) ->
  serves fits1 cost1 S rs c -> serves fits2 cost2 S rs c.
Proof.
  intros Hf Hc HS Hrs H.
  induction H as [S|S S' p rs c Hp Hs _ IH|S S' p rs c Hp Hs Hfit _ IH].
  - constructor.
  - eapply serves_hit; [done | done | apply IH; set_solver].
  - rewrite Hc by set_solver. assert (S' ⊆ U) by set_solver.
    eapply serves_miss; [done | done | by apply Hf | apply IH; set_solver].
Qed.

Lemma serves_scale fits l S rs c :
  serves fits (fun _ => 1) S rs c -> serves fits (fun _ => l) S rs (l * c).
Proof.
  induction 1 as [S|S S' p rs c Hp Hs _ IH|S S' p rs c Hp Hs Hfit _ IH].
  - rewrite N.mul_0_r. constructor.
  - by eapply serves_hit.
  - replace (l * (1 + c)) with (l + l * c) by lia.
    by apply (serves_miss fits (fun _ => l) S S').
Qed.

Lemma serves_unscale fits l S rs c :
  serves fits (fun _ => l) S rs c -> exists n, c = l * n /\ serves fits (fun _ => 1) S rs n.
Proof.
  induction 1 as [S|S S' p rs c Hp Hs _ IH|S S' p rs c Hp Hs Hfit _ IH].
  - exists 0. split; [lia | constructor].
  - destruct IH as (n & -> & IH). exists n. split; [done | by eapply serves_hit].
  - destruct IH as (n & -> & IH). exists (1 + n). split; [lia|].
    by apply (serves_miss fits (fun _ => 1) S S').
Qed.
