(* ===== verification/SimBelady.v ===== *)
(** The Belady/MIN replay is optimal: on a uniform geometry its demand misses
    are the minimum over all schedules that respect the capacity, and it never
    panics on a validated trace. *)
From stdpp Require Import prelude gmap strings sorting.
From S2P Require Import Prelude SimModel SimOracle SimTrace SimTraceOk Paging.
#[local] Open Scope N_scope.
#[local] Arguments u64_max : simpl never.

(** The demanded pages of a list of events. *)
Definition demands (es : list TraceEvent.t) : list N :=
  omap (fun e => match e with TraceEvent.Demand _ _ _ page => Some page | _ => None end) es.

Lemma demands_app l1 l2 : demands (l1 ++ l2) = demands l1 ++ demands l2.
Proof. apply omap_app. Qed.

Lemma demands_length l : lenN (demands l) <= lenN l.
Proof.
  unfold lenN. induction l as [|e l IH]; simpl; [lia|]. destruct e; simpl; lia.
Qed.

(** ** The future index *)

(** Ordinals of the demands of [page] in [rs], counted from [ord]. *)
Fixpoint positions (page ord : N) (rs : list N) : list N :=
  match rs with
  | [] => []
  | p :: rs => if decide (p = page) then ord :: positions page (ord + 1) rs
               else positions page (ord + 1) rs
  end.

Definition indexes (future : gmap N (list N)) (ord : N) (rs : list N) : Prop :=
  forall page, default [] (future !! page) = positions page ord rs.

Lemma positions_snoc page ord rs p :
  positions page ord (rs ++ [p])
    = positions page ord rs ++ (if decide (p = page) then [ord + lenN rs] else []).
Proof.
  revert ord. induction rs as [|q rs IH]; intros ord; simpl.
  - rewrite N.add_0_r. by case_decide.
  - rewrite IH. unfold lenN. simpl. replace (ord + 1 + N.of_nat (length rs))
      with (ord + N.pos (Pos.of_succ_nat (length rs))) by lia. by destruct (decide (q = page)).
Qed.

Lemma positions_ge page ord rs i : i ∈ positions page ord rs -> ord <= i < ord + lenN rs.
Proof.
  revert ord. induction rs as [|q rs IH]; intros ord; simpl; [by intros ?%elem_of_nil|].
  assert (i ∈ positions page (ord + 1) rs -> ord <= i < ord + lenN (q :: rs)) as H.
  { intros Hi%IH. unfold lenN in *. simpl. lia. }
  case_decide; [|done]. intros [->|Hi]%elem_of_cons; [unfold lenN; simpl; lia | auto].
Qed.

Lemma future_demands_indexes trace :
  lenN (ValidatedTrace.events trace) <= u64_max ->
  indexes (Belady.future_demands trace) 0 (demands (ValidatedTrace.events trace)).
Proof.
  intros Hlen. unfold Belady.future_demands.
  enough (forall es, lenN es <= u64_max ->
    let '(future, ord) := foldl (fun '(future, ordinal) event =>
       match event with
       | TraceEvent.Demand _ _ _ page =>
           (<[page := default [] (future !! page) ++ [ordinal]]> future,
            saturating_add u64_max ordinal 1)
       | TraceEvent.RouterSignal _ _ _ _ _ => (future, ordinal)
       end) ((∅ : gmap N (list N)), 0) es in
    indexes future 0 (demands es) /\ ord = lenN (demands es)) as H.
  { specialize (H _ Hlen). destruct (foldl _ _ _) as [future ord]. by destruct H. }
  induction es as [|e es IH] using rev_ind; intros Hl.
  - simpl. split; [intros page; by rewrite lookup_empty | done].
  - rewrite foldl_app, demands_app. unfold lenN in Hl. rewrite length_app in Hl. simpl in Hl.
    specialize (IH ltac:(unfold lenN; lia)). destruct (foldl _ _ es) as [future ord].
    destruct IH as [IH ->]. simpl. destruct e as [q rq t l ps|q rq s page]; simpl.
    + by rewrite app_nil_r.
    + pose proof (demands_length es) as Hd. split.
      * intros page'. rewrite positions_snoc, <- IH. case_decide as E.
        -- subst. by rewrite lookup_insert_eq.
        -- rewrite lookup_insert_ne by done. by rewrite app_nil_r.
      * unfold saturating_add, lenN in *. rewrite length_app. simpl. lia.
Qed.

Lemma pop_indexes future ord p rs :
  indexes future ord (p :: rs) ->
  exists future', Belady.pop_current_demand future p = Ok future' /\ indexes future' (ord + 1) rs.
Proof.
  intros Hi. unfold Belady.pop_current_demand. pose proof (Hi p) as Hp. simpl in Hp.
  rewrite decide_True in Hp by done. destruct (future !! p) as [l|] eqn:E; [|done]. simpl in Hp. subst l.
  eexists. split; [done|]. intros page. destruct (decide (p = page)) as [<-|].
  - by rewrite lookup_insert_eq.
  - rewrite lookup_insert_ne by done. rewrite Hi. simpl. by rewrite decide_False.
Qed.

(** The next use decides who is needed first. *)
Lemma next_use_no_later future ord rs u v :
  indexes future ord rs -> ord + lenN rs <= u64_max -> u <> v ->
  Belady.next_use future u <= Belady.next_use future v -> no_later u v rs.
Proof.
  intros Hi Hord Huv Hle.
  assert (forall x, Belady.next_use future x = default u64_max (head (positions x ord rs))) as Hnx.
  { intros x. unfold Belady.next_use. rewrite <- Hi. by destruct (future !! x). }
  rewrite !Hnx in Hle. clear Hnx Hi. revert ord Hord Hle.
  induction rs as [|p rs IH]; intros ord Hord Hle; simpl in *; [done|].
  assert (ord + 1 + lenN rs <= u64_max) as Hord' by (unfold lenN in *; simpl in *; lia).
  destruct (decide (p = u)) as [|Hpu]; [by left|]. right.
  destruct (decide (p = v)) as [->|Hpv].
  - exfalso. simpl in Hle.
    destruct (positions u (ord + 1) rs) as [|i l] eqn:E; simpl in Hle; [unfold lenN in *; simpl in *; lia|].
    pose proof (positions_ge u (ord + 1) rs i) as Hge. rewrite E in Hge. specialize (Hge (list_elem_of_here _ _)). lia.
  - split; [done|]. by apply (IH (ord + 1)).
Qed.

(** ** Victims *)

Lemma elem_of_btree_set s x : x ∈ Belady.btree_set s <-> x ∈ s.
Proof. unfold Belady.btree_set. by rewrite elem_of_sort_by_key, elem_of_elements. Qed.

Lemma farthest_victim_spec residents p future ord rs :
  indexes future ord rs -> ord + lenN rs <= u64_max ->
  exists v, Belady.farthest_victim residents p future = Ok v /\ farthest v ({[p]} ∪ residents) rs.
Proof.
  intros Hi Hord. unfold Belady.farthest_victim.
  destruct (max_by_key _ _) as [v|] eqn:Hmax.
  - exists v. split; [done|]. apply max_by_key_Some in Hmax as [Hin Hbest]. split.
    + rewrite elem_of_app, elem_of_btree_set, list_elem_of_singleton in Hin. set_solver.
    + intros u Hu Huv. eapply next_use_no_later; [done | done | done |].
      specialize (Hbest u). rewrite elem_of_app, elem_of_btree_set, list_elem_of_singleton in Hbest.
      destruct Hbest as [Hlt|[Heq _]]; [set_solver | lia | lia].
  - apply max_by_key_None in Hmax. by destruct (Belady.btree_set residents).
Qed.

(** ** Geometry *)

(** Every page has the charge [u] and the cost [l]. *)
Definition uniform (pages : list PageDescriptor.t) (u l : N) : Prop :=
  forall p, p ∈ pages -> PageDescriptor.charge_bytes p = u /\ PageDescriptor.logical_bytes p = l.

Definition unsupported (trace : ValidatedTrace.t) (e : SimError) : Prop :=
  (exists m, e = UnsupportedOracleGeometry m)
  /\ ~ exists u l, 0 < u /\ uniform (ValidatedTrace.pages trace) u l.

Lemma uniform_geometry_spec trace :
  post (Belady.uniform_geometry trace)
    (fun '(u, l) => 0 < u /\ uniform (ValidatedTrace.pages trace) u l) (unsupported trace).
Proof.
  unfold Belady.uniform_geometry, unsupported.
  destruct (ValidatedTrace.pages trace) as [|first rest].
  { simpl. split; [lia|]. by intros p ?%elem_of_nil. }
  apply post_bind, post_guard.
  { intros Hz%N.eqb_eq. split; [eauto|]. intros (u & l & Hu & Hp).
    destruct (Hp first) as [? _]; [left | lia]. }
  intros Hz%N.eqb_neq. apply post_bind.
  eapply post_mono with (Q := fun _ => forall p, p ∈ rest ->
      PageDescriptor.charge_bytes p = PageDescriptor.charge_bytes first
      /\ PageDescriptor.logical_bytes p = PageDescriptor.logical_bytes first)
    (X := fun e => (exists m, e = UnsupportedOracleGeometry m)
      /\ ~ exists u l, 0 < u /\ uniform (first :: rest) u l).
  - apply (post_try_fold _ _ (fun dn _ => forall p, p ∈ dn ->
      PageDescriptor.charge_bytes p = PageDescriptor.charge_bytes first
      /\ PageDescriptor.logical_bytes p = PageDescriptor.logical_bytes first)).
    { by intros p ?%elem_of_nil. }
    intros dn p more [] -> Hdn.
    assert (forall m, (PageDescriptor.charge_bytes p <> PageDescriptor.charge_bytes first
              \/ PageDescriptor.logical_bytes p <> PageDescriptor.logical_bytes first) ->
      (exists m', UnsupportedOracleGeometry m = UnsupportedOracleGeometry m')
      /\ ~ exists u l, 0 < u /\ uniform (first :: dn ++ p :: more) u l) as Hbad.
    { intros m Hne. split; [eauto|]. intros (u & l & _ & Hu).
      destruct (Hu first) as [E1 E2]; [left|]. destruct (Hu p) as [E3 E4]; [set_solver|].
      destruct Hne; congruence. }
    apply post_bind, post_guard; [intros Hc%negb_true_iff%N.eqb_neq; apply Hbad; by left|].
    intros Hc%negb_false_iff%N.eqb_eq.
    apply post_guard; [intros Hl%negb_true_iff%N.eqb_neq; apply Hbad; by right|].
    intros Hl%negb_false_iff%N.eqb_eq q. rewrite elem_of_app, list_elem_of_singleton.
    intros [?| ->]; [auto | done].
  - intros [] Hrest. apply post_ok. split; [lia|].
    intros p [->|Hp]%elem_of_cons; [done | auto].
  - done.
Qed.

(** ** The replay *)

Lemma post_badd c v name r Q (X : SimError -> Prop) :
  (Belady.metrics r c + v <= u64_max ->
   Q (Belady.mkReplay (Belady.future r) (Belady.residents r) (Belady.resident_charge r)
        (SimulationMetrics.set c (Belady.metrics r c + v) (Belady.metrics r)) (Belady.decisions r)
        (Belady.demand_ordinal r))) ->
  X (CounterOverflow name) -> post (Belady.add c v name r) Q X.
Proof. intros HQ HX. unfold Belady.add. apply post_bind, post_add; auto. Qed.

Ltac bsimpl := cbn [Belady.future Belady.residents Belady.resident_charge Belady.metrics
  Belady.decisions Belady.demand_ordinal Belady.update_decision] in *.
Ltac badd := apply post_bind, post_badd; [intros ?; bsimpl | auto with sim].

Section replay.
Context (limits : SimLimits.t) (trace : ValidatedTrace.t) `{Hok : !TraceOk limits trace}.
Context (capacity u l : N) (Hu : 0 < u) (Huni : uniform (ValidatedTrace.pages trace) u l).
Context (Hcap : capacity <= u64_max) (Hlen : lenN (ValidatedTrace.events trace) <= u64_max).
Abbreviation events := (ValidatedTrace.events trace).
Abbreviation k := (N.to_nat (Belady.slots trace capacity u)).
Abbreviation fits := (fun S : gset N => (size S <= k)%nat).
Abbreviation sched := (serves fits (fun _ => 1)).

Lemma slots_bytes n : (n <= k)%nat -> u * N.of_nat n <= capacity.
Proof.
  unfold Belady.slots. intros Hn. pose proof (N.Div0.mul_div_le capacity u) as Hd. nia.
Qed.

Record replay_inv (dn : list TraceEvent.t) (r : Belady.Replay) : Prop := {
  ri_index : indexes (Belady.future r) (lenN (demands dn)) (demands (drop (length dn) events));
  ri_ordinal : Belady.demand_ordinal r = lenN (demands dn);
  ri_size : (size (Belady.residents r) <= k)%nat;
  ri_charge : Belady.resident_charge r = u * N.of_nat (size (Belady.residents r));
  ri_accounting : accounting (Belady.metrics r) 0 0 settled;
  ri_peak : Belady.resident_charge r <= Belady.metrics r peak_resident_charge_bytes <= capacity;
  ri_load : Belady.metrics r demand_load_bytes = l * Belady.metrics r demand_misses;
  ri_lower : forall c, sched ∅ (demands events) c -> exists c1,
    Belady.metrics r demand_misses + c1 <= c
    /\ sched (Belady.residents r) (demands (drop (length dn) events)) c1;
  ri_upper : forall c1, sched (Belady.residents r) (demands (drop (length dn) events)) c1 ->
    sched ∅ (demands events) (Belady.metrics r demand_misses + c1)
}.

Lemma replay_start :
  replay_inv [] (Belady.mkReplay (Belady.future_demands trace) ∅ 0 SimulationMetrics.default
                   DECISION_SCHEMA 0).
Proof.
  assert (size (∅ : gset N) = 0%nat) as Hz by apply size_empty.
  split; bsimpl; rewrite ?Hz; unfold SimulationMetrics.default; try done; try lia.
  - by apply future_demands_indexes.
  - intros c Hc. exists c. split; [lia | done].
Qed.

(** What one demand does to the cache and to the misses. *)
Record demand_effect (p : N) (rs : list N) (r r' : Belady.Replay) : Prop := {
  de_size : (size (Belady.residents r') <= k)%nat;
  de_charge : Belady.resident_charge r' = u * N.of_nat (size (Belady.residents r'));
  de_accounting : accounting (Belady.metrics r') 0 0 settled;
  de_peak : Belady.resident_charge r' <= Belady.metrics r' peak_resident_charge_bytes <= capacity;
  de_load : Belady.metrics r' demand_load_bytes = l * Belady.metrics r' demand_misses;
  de_ordinal : Belady.demand_ordinal r' = Belady.demand_ordinal r;
  de_step :
    (p ∈ Belady.residents r /\ Belady.residents r' = Belady.residents r
     /\ Belady.metrics r' demand_misses = Belady.metrics r demand_misses)
    \/ ((p ∉ Belady.residents r) /\ min_step k p (Belady.residents r) (Belady.residents r') rs
        /\ Belady.metrics r' demand_misses = Belady.metrics r demand_misses + 1)
}.

(** The invariant follows from the effect of the demand. *)
Lemma replay_advance dn q rq st p rest r r' future' :
  events = dn ++ TraceEvent.Demand q rq st p :: rest -> replay_inv dn r ->
  demand_effect p (demands rest) r r' ->
  indexes future' (lenN (demands dn) + 1) (demands rest) ->
  replay_inv (dn ++ [TraceEvent.Demand q rq st p])
    (Belady.mkReplay future' (Belady.residents r') (Belady.resident_charge r') (Belady.metrics r')
       (Belady.decisions r') (Belady.demand_ordinal r + 1)).
Proof.
  intros Hev [Hi Ho Hs Hc Ha Hp Hl Hlow Hup] [] Hf.
  assert (drop (length (dn ++ [TraceEvent.Demand q rq st p])) events = rest) as Hdrop.
  { rewrite Hev, length_app. simpl. rewrite cons_middle, app_assoc.
    replace (length dn + 1)%nat with (length (dn ++ [TraceEvent.Demand q rq st p])) by (rewrite length_app; simpl; lia).
    by rewrite drop_app_length. }
  assert (demands (drop (length dn) events) = p :: demands rest) as Hd.
  { rewrite Hev, drop_app_length. done. }
  rewrite Hd in *.
  assert (lenN (demands (dn ++ [TraceEvent.Demand q rq st p])) = lenN (demands dn) + 1) as Hn.
  { rewrite demands_app. unfold lenN. rewrite length_app. simpl. lia. }
  split; bsimpl; rewrite ?Hdrop, ?Hn; try done; try lia.
  - intros c Hsc. destruct (Hlow c Hsc) as (c1 & Hc1 & Hs1).
    destruct de_step0 as [(Hin & -> & ->)|(Hout & Hm & ->)].
    + destruct (hit_optimal k p _ _ _ Hin Hs1) as (c2 & ? & ?). exists c2. split; [lia | done].
    + destruct (min_step_optimal k p _ _ _ _ Hout Hm Hs1) as (c2 & ? & ?). exists c2. split; [lia | done].
  - intros c1 Hs1. destruct de_step0 as [(Hin & E & ->)|(Hout & Hm & ->)].
    + rewrite E in Hs1. apply Hup. by eapply serves_hit.
    + replace (Belady.metrics r demand_misses + 1 + c1)
        with (Belady.metrics r demand_misses + (1 + c1)) by lia.
      apply Hup. apply (serves_miss fits (fun _ => 1) _ (Belady.residents r')); [done | | | done].
      * by eapply min_step_subset.
      * by eapply min_step_fits.
Qed.

(** The cache has a slot for every page it holds, in bytes. *)
Lemma admit_page_spec p r :
  p ∉ Belady.residents r -> (size (Belady.residents r) < k)%nat ->
  Belady.resident_charge r = u * N.of_nat (size (Belady.residents r)) ->
  accounting (Belady.metrics r) 0 0 settled ->
  Belady.metrics r peak_resident_charge_bytes <= capacity ->
  post (Belady.admit_page p u r)
    (fun r' => Belady.residents r' = {[p]} ∪ Belady.residents r
       /\ Belady.resident_charge r' = u * N.of_nat (size ({[p]} ∪ Belady.residents r))
       /\ accounting (Belady.metrics r') 0 0 settled
       /\ Belady.resident_charge r' <= Belady.metrics r' peak_resident_charge_bytes <= capacity
       /\ Belady.metrics r' demand_load_bytes = Belady.metrics r demand_load_bytes
       /\ Belady.metrics r' demand_misses = Belady.metrics r demand_misses
       /\ Belady.demand_ordinal r' = Belady.demand_ordinal r) overflow_only.
Proof.
  intros Hp Hsz Hch Ha Hpk. unfold Belady.admit_page. rewrite bool_decide_eq_true_2 by done.
  apply post_bind, post_ok. apply post_bind, post_checked_add; [intros Hle|auto with sim].
  badd. apply post_ok. bsimpl.
  pose proof (slots_bytes (S (size (Belady.residents r)))) as Hb.
  assert (size ({[p]} ∪ Belady.residents r) = S (size (Belady.residents r))) as Hs1.
  { rewrite size_union, size_singleton by set_solver. done. }
  rewrite Hs1. split_and!; metrics_simpl; try done; try lia.
  metrics_solve Ha.
Qed.

(** The metrics after a counted miss. *)
Record missed (r : Belady.Replay) (m : SimulationMetrics.t) : Prop := {
  mi_accounting : accounting m 0 0 settled;
  mi_peak : m peak_resident_charge_bytes = Belady.metrics r peak_resident_charge_bytes;
  mi_load : m demand_load_bytes = l * m demand_misses;
  mi_misses : m demand_misses = Belady.metrics r demand_misses + 1
}.

(** A page that is not admitted. *)
Lemma bypass_effect p rs r m future d dn :
  replay_inv dn r -> p ∉ Belady.residents r -> missed r m ->
  post (r2 ← Belady.add bypasses 1 "bypasses"
      (Belady.mkReplay future (Belady.residents r) (Belady.resident_charge r) m d (Belady.demand_ordinal r));
      Ok (Belady.update_decision p "bypass" None r2))
    (fun r2 => min_step k p (Belady.residents r) (Belady.residents r) rs -> demand_effect p rs r r2) overflow_only.
Proof.
  intros [_ _ Hs Hc _ Hp _ _ _] Hres [Ha Hm1 Hm2 Hm3]. badd. apply post_ok. intros Hm.
  split; bsimpl; metrics_simpl; try done; try lia.
  - metrics_solve Ha.
  - right. by split_and!.
Qed.

(** A page that is admitted after room was made. *)
Lemma admit_effect p rs r m r1 (f : Belady.Replay -> Belady.Replay) :
  p ∉ Belady.residents r -> missed r m ->
  (forall x, Belady.residents (f x) = Belady.residents x /\ Belady.resident_charge (f x) = Belady.resident_charge x
     /\ Belady.metrics (f x) = Belady.metrics x /\ Belady.demand_ordinal (f x) = Belady.demand_ordinal x) ->
  p ∉ Belady.residents r1 -> (size (Belady.residents r1) < k)%nat ->
  Belady.resident_charge r1 = u * N.of_nat (size (Belady.residents r1)) ->
  accounting (Belady.metrics r1) 0 0 settled ->
  Belady.metrics r1 peak_resident_charge_bytes <= capacity ->
  Belady.metrics r1 demand_load_bytes = m demand_load_bytes ->
  Belady.metrics r1 demand_misses = m demand_misses ->
  Belady.demand_ordinal r1 = Belady.demand_ordinal r ->
  min_step k p (Belady.residents r) ({[p]} ∪ Belady.residents r1) rs ->
  post (r2 ← Belady.admit_page p u r1; Ok (f r2)) (demand_effect p rs r) overflow_only.
Proof.
  intros Hres [_ _ Hm2 Hm3] Hf1 G1 G2 G3 G4 G5 G6 G7 G8 G9. apply post_bind.
  eapply post_strengthen; [by apply admit_page_spec|].
  intros r2 (E1 & E2 & E3 & E4 & E5 & E6 & E7). apply post_ok. destruct (Hf1 r2) as (F1 & F2 & F3 & F4).
  assert (size ({[p]} ∪ Belady.residents r1) = S (size (Belady.residents r1))) as Hs1.
  { rewrite size_union, size_singleton by set_solver. done. }
  split; rewrite ?F1, ?F2, ?F3, ?F4; try done; try congruence.
  - rewrite E1, Hs1. lia.
  - right. split_and!; [done | by rewrite E1 | congruence].
Qed.

Lemma step_demand_spec dn q rq st p rest r :
  events = dn ++ TraceEvent.Demand q rq st p :: rest -> replay_inv dn r ->
  post (Belady.step_demand trace capacity u (Belady.slots trace capacity u) p r)
    (replay_inv (dn ++ [TraceEvent.Demand q rq st p])) overflow_only.
Proof.
  intros Hev Hr. pose proof Hr as [Hi Ho Hs Hc Ha Hp Hl _ _].
  destruct (trace_events (t:=trace) dn _ rest Hev) as (_ & _ & Hknown & _).
  apply (page_known (ValidatedTrace.catalog trace)) in Hknown as (pg & Hpg & _ & Hin).
  destruct (Huni pg Hin) as [Hch Hlg].
  rewrite Hev, drop_app_length in Hi. simpl in Hi.
  destruct (pop_indexes _ _ _ _ Hi) as (future' & Hpop & Hf).
  assert (lenN (demands dn) + 1 + lenN (demands rest) <= u64_max) as Hord.
  { pose proof (demands_length events) as Hd. rewrite Hev, demands_app in Hd at 1.
    unfold lenN in *. rewrite length_app in Hd. simpl in Hd. lia. }
  unfold Belady.step_demand. rewrite Hpop. apply post_bind, post_ok.
  unfold ValidatedTrace.page. rewrite Hpg. apply post_bind, post_ok. rewrite Hlg. bsimpl.
  apply post_bind, post_badd; [intros Ho1; bsimpl | auto with sim].
  apply post_bind, post_badd; [intros Ho2; bsimpl | auto with sim].
  apply post_bind. eapply post_strengthen with (Q := demand_effect p (demands rest) r).
  2: { intros r2 He. pose proof (de_peak _ _ _ _ He). apply post_bind, post_guard.
       { intros ?%N.ltb_lt. lia. }
       intros _. rewrite (de_ordinal _ _ _ _ He).
       apply post_bind, post_checked_add; [intros _|auto with sim]. apply post_ok.
       eapply (replay_advance dn q rq st p rest r r2); [done | done | done | done]. }
  case_bool_decide as Hres.
  { badd. badd. apply post_ok. split; bsimpl; metrics_simpl; try done; [metrics_solve Ha | left; by split_and!]. }
  badd. badd. badd.
  match goal with |- context [Belady.mkReplay _ _ _ ?m _ _] => set (m1 := m) end.
  assert (missed r m1) as Hm by (split; [unfold m1; metrics_solve Ha | unfold m1; metrics_simpl; lia..]).
  clearbody m1. pose proof Hm as [Ha1 Hm1 Hm2 Hm3].
  pose proof (fun d => bypass_effect p (demands rest) r m1 future' d dn Hr Hres Hm) as Hbypass.
  pose proof (fun r1 f => admit_effect p (demands rest) r m1 r1 f Hres Hm) as Hadmit.
  destruct (N.eqb_spec (Belady.slots trace capacity u) 0) as [Hz|Hnz].
  { eapply post_strengthen; [apply Hbypass|]. intros r2 He. apply He. right.
    assert (Belady.residents r = ∅) as E by (apply leibniz_equiv, size_empty_inv; lia).
    split; [rewrite E, size_empty; lia|]. exists p. rewrite E. split; [|set_solver].
    split; [set_solver|]. intros x Hx Hne. set_solver. }
  destruct (N.ltb_spec (N.of_nat (size (Belady.residents r))) (Belady.slots trace capacity u)) as [Hlt|Hge].
  { apply Hadmit; bsimpl; try done; try lia. left. split; [lia | done]. }
  destruct (farthest_victim_spec (Belady.residents r) p future' _ _ Hf Hord) as (v & -> & Hfar).
  apply post_bind, post_ok. assert (size (Belady.residents r) = k) as Hfull by lia.
  destruct (N.eqb_spec v p) as [->|Hvp].
  { eapply post_strengthen; [apply Hbypass|]. intros r2 He. apply He. right. split; [done|].
    exists p. split; [done|]. apply set_eq. intros x. destruct (decide (x = p)); set_solver. }
  assert (v ∈ Belady.residents r) as Hv by (destruct Hfar as [Hv _]; set_solver).
  pose proof (size_remove_add v _ Hv) as Hsz.
  apply post_bind. unfold Belady.evict. rewrite bool_decide_eq_true_2 by done. apply post_bind, post_ok.
  bsimpl. apply post_bind, post_checked_sub; [rewrite Hc; nia|].
  badd. apply post_badd; [intros ?; bsimpl | auto with sim].
  apply Hadmit; bsimpl; metrics_simpl; try done; try lia.
  - set_solver.
  - metrics_solve Ha1.
  - right. split; [done|]. exists v. split; [done|]. apply set_eq. intros x.
    destruct (decide (x = p)), (decide (x = v)); set_solver.
Qed.

Lemma replay_spec :
  post (try_fold (Belady.step_event trace capacity u (Belady.slots trace capacity u))
          (Belady.mkReplay (Belady.future_demands trace) ∅ 0 SimulationMetrics.default
             DECISION_SCHEMA 0) events)
    (replay_inv events) overflow_only.
Proof.
  apply (post_try_fold _ _ replay_inv); [apply replay_start|].
  intros dn e rest r Hev Hr. destruct e as [q rq t ly ps|q rq st p]; simpl.
  - assert (demands (dn ++ [TraceEvent.RouterSignal q rq t ly ps]) = demands dn) as Hd.
    { rewrite demands_app. simpl. by rewrite app_nil_r. }
    assert (demands (drop (length (dn ++ [TraceEvent.RouterSignal q rq t ly ps])) events)
      = demands (drop (length dn) events)) as Hd2.
    { rewrite Hev, (drop_app_length dn), (cons_middle _ dn rest), app_assoc, drop_app_length. done. }
    destruct Hr. split; rewrite ?Hd, ?Hd2; done.
  - by eapply step_demand_spec.
Qed.
End replay.

(** ** Schedules of a trace *)

Definition page_charge (trace : ValidatedTrace.t) (id : N) : N :=
  match PageCatalog.page (ValidatedTrace.catalog trace) id with
  | Ok pg => PageDescriptor.charge_bytes pg
  | _ => 0
  end.
Definition page_cost (trace : ValidatedTrace.t) (id : N) : N :=
  match PageCatalog.page (ValidatedTrace.catalog trace) id with
  | Ok pg => PageDescriptor.logical_bytes pg
  | _ => 0
  end.

(** Some demand-driven replacement schedule within [capacity] charge bytes
    serves the trace with [c] bytes of demand loads. *)
Definition schedule (trace : ValidatedTrace.t) (capacity c : N) : Prop :=
  serves (byte_fits (page_charge trace) capacity) (page_cost trace) ∅
    (demands (ValidatedTrace.events trace)) c.

(** [c] is the least cost of a schedule. *)
Definition optimum (trace : ValidatedTrace.t) (capacity c : N) : Prop :=
  schedule trace capacity c /\ forall c', schedule trace capacity c' -> c <= c'.

Section optimum.
Context (limits : SimLimits.t) (trace : ValidatedTrace.t) `{Hok : !TraceOk limits trace}.
Abbreviation events := (ValidatedTrace.events trace).

Lemma demanded_known p : p ∈ demands events ->
  exists pg, PageCatalog.page (ValidatedTrace.catalog trace) p = Ok pg
    /\ PageDescriptor.id pg = p /\ pg ∈ ValidatedTrace.pages trace.
Proof.
  intros (e & Hin & He)%list_elem_of_omap. destruct e as [|q rq st p']; [done|]. injection He as ->.
  apply list_elem_of_split in Hin as (dn & rest & Hev).
  destruct (trace_events (t:=trace) dn _ rest Hev) as (_ & _ & Hknown & _).
  by apply (page_known (ValidatedTrace.catalog trace)) in Hknown.
Qed.

Lemma uniform_slots_iff capacity u l T :
  0 < u -> uniform (ValidatedTrace.pages trace) u l ->
  T ⊆ list_to_set (demands events) ->
  byte_fits (page_charge trace) capacity T
    <-> (size T <= N.to_nat (Belady.slots trace capacity u))%nat.
Proof.
  intros Hu Huni HT. unfold byte_fits.
  assert (forall p, p ∈ T -> p ∈ demands events) as HT' by set_solver.
  rewrite (set_charge_uniform _ u).
  2: { intros p (pg & Hpg & _ & Hin)%HT'%demanded_known. unfold page_charge. rewrite Hpg. by apply Huni. }
  assert (size T <= length (ValidatedTrace.pages trace))%nat as Hsz.
  { rewrite <- (length_fmap PageDescriptor.id).
    transitivity (size (list_to_set (PageDescriptor.id <$> ValidatedTrace.pages trace) : gset N)).
    - apply subseteq_size. intros p (pg & _ & <- & Hin)%HT'%demanded_known.
      rewrite elem_of_list_to_set, list_elem_of_fmap. by exists pg.
    - apply size_list_to_set_le. }
  unfold Belady.slots, lenN. split.
  - intros Hle. assert (N.of_nat (size T) <= capacity / u) by (apply N.div_le_lower_bound; lia). lia.
  - intros Hle. pose proof (N.Div0.mul_div_le capacity u). nia.
Qed.

(** Counting misses in slots and bytes in capacity is the same, on a uniform
    geometry. *)
Lemma uniform_schedule capacity u l c :
  0 < u -> uniform (ValidatedTrace.pages trace) u l ->
  schedule trace capacity c <->
  exists n, c = l * n /\ serves (fun S => (size S <= N.to_nat (Belady.slots trace capacity u))%nat)
                          (fun _ => 1) ∅ (demands events) n.
Proof.
  intros Hu Huni. unfold schedule.
  assert (forall p, p ∈ (list_to_set (demands events) : gset N) -> page_cost trace p = l) as Hcost.
  { intros p (pg & Hpg & _ & Hin)%elem_of_list_to_set%demanded_known. unfold page_cost. rewrite Hpg.
    by apply Huni. }
  split.
  - intros Hs. apply serves_unscale.
    eapply (serves_transfer _ _ _ _ (list_to_set (demands events))); [| | | |exact Hs].
    + intros T HT. by apply (uniform_slots_iff capacity u l).
    + done.
    + set_solver.
    + intros p. by rewrite elem_of_list_to_set.
  - intros (n & -> & Hs). apply (serves_scale _ l) in Hs.
    eapply (serves_transfer _ _ _ _ (list_to_set (demands events))); [| | | |exact Hs].
    + intros T HT. by apply (uniform_slots_iff capacity u l).
    + intros p Hp. by rewrite Hcost.
    + set_solver.
    + intros p. by rewrite elem_of_list_to_set.
Qed.

Lemma belady_spec sha256_hex capacity :
  capacity <= u64_max -> lenN events <= u64_max ->
  post (Belady.simulate_belady sha256_hex trace capacity)
    (fun '(m, _, optimal) => optimal = true /\ optimum trace capacity (m demand_load_bytes)
       /\ accounting m 0 0 settled
       /\ m total_physical_load_bytes = m demand_load_bytes + m prefetch_load_bytes
       /\ m final_resident_charge_bytes <= m peak_resident_charge_bytes <= capacity)
    (fun e => overflow_only e \/ unsupported trace e).
Proof.
  intros Hcap Hlen. unfold Belady.simulate_belady. apply post_bind.
  eapply post_mono; [apply uniform_geometry_spec | | by right].
  intros [u l] [Hu Huni]. apply post_bind.
  eapply post_mono; [by apply (replay_spec limits trace capacity u l) | | by left].
  intros r [Hi Ho Hs Hc Ha Hp Hl Hlow Hup]. apply post_bind.
  set (m1 := SimulationMetrics.set _ _ _).
  assert (accounting m1 0 0 settled) as Ha1.
  { unfold m1. pose proof (acc_width _ _ _ _ Ha peak_resident_charge_bytes). metrics_solve Ha. }
  assert (m1 final_resident_charge_bytes <= m1 peak_resident_charge_bytes <= capacity
    /\ m1 demand_load_bytes = l * Belady.metrics r demand_misses) as [Hf Hm].
  { unfold m1. metrics_simpl. done. }
  clearbody m1.
  eapply post_mono; [apply (finish_spec m1 Ha1) | | intros e [-> _]; left; auto with sim].
  intros m [-> Htot]. apply post_ok. split; [done|].
  rewrite drop_all in Hlow, Hup. metrics_simpl. unfold optimum. split_and!; try done.
  - rewrite Hm. apply (uniform_schedule capacity u l); [done | done |].
    exists (Belady.metrics r demand_misses). split; [done|].
    specialize (Hup 0). rewrite N.add_0_r in Hup. apply Hup. constructor.
  - intros c' (n & -> & Hn)%(uniform_schedule capacity u l); [|done|done].
    rewrite Hm. destruct (Hlow n Hn) as (c1 & Hc1 & _). nia.
  - metrics_solve Ha1.
  - apply Hf.
  - apply Hf.
Qed.
End optimum.
