(* ===== verification/SimOnline.v ===== *)
(** No online policy beats the offline optimum: the loads of every run, demand
    and speculative, cost at least as much as the best demand schedule within
    the same capacity.  A speculating run is compared with the lazy schedule
    that loads a speculated page only when it is first demanded.

    At the end: the online kernel under the LRU policy refines a textbook LRU cache: a list
    of pages in recency order, cut from its cold end. *)
From stdpp Require Import prelude gmap strings sorting.
From S2P Require Import Prelude SimModel SimPolicy SimOracle SimEngine SimTrace SimTraceOk.
From S2P Require Import SimPolicyFacts SimEngineFacts SimRun SimDemand Paging SimBelady.
#[local] Open Scope N_scope.
#[local] Arguments u64_max : simpl never.

(** * The resident set as a set of pages *)

Lemma set_charge_app cost (X : gset N) (A : list N) :
  set_charge cost (X ∪ list_to_set A) <= set_charge cost X + sumN cost A.
Proof.
  induction A as [|p A IH]; simpl.
  - rewrite (right_id_L ∅ (∪)). lia.
  - destruct (decide (p ∈ X ∪ list_to_set A)) as [Hp|Hp].
    + replace (X ∪ ({[p]} ∪ list_to_set A)) with (X ∪ list_to_set A) by set_solver. lia.
    + replace (X ∪ ({[p]} ∪ list_to_set A)) with ({[p]} ∪ (X ∪ list_to_set A)) by set_solver.
      rewrite set_charge_union by done. lia.
Qed.

Section resident_set.
Context (limits : SimLimits.t) (trace : ValidatedTrace.t) `{Hok : !TraceOk limits trace}.
Abbreviation c := (ValidatedTrace.catalog trace).
Abbreviation events := (ValidatedTrace.events trace).

Lemma resident_charge r :
  residents_ok c r -> set_charge (page_charge trace) (dom r) = charge_of r.
Proof.
  induction r as [|id e r Hid IH] using map_ind; intros Hr.
  - rewrite dom_empty_L, msum_empty. unfold set_charge. by rewrite elements_empty.
  - rewrite dom_insert_L, set_charge_union by (by apply not_elem_of_dom).
    assert (residents_ok c r) as Hr'.
    { intros i x Hx. apply Hr. by rewrite lookup_insert_ne by congruence. }
    rewrite msum_insert_new, (IH Hr') by done.
    destruct (Hr id e (lookup_insert_eq _ _ _)) as (_ & pg & Hpg & Hc & _).
    unfold page_charge. rewrite Hpg. lia.
Qed.

Lemma page_cost_of id pg :
  ValidatedTrace.page trace id = Ok pg -> page_cost trace id = PageDescriptor.logical_bytes pg.
Proof. unfold ValidatedTrace.page, page_cost. by intros ->. Qed.

Lemma page_id_of id pg : ValidatedTrace.page trace id = Ok pg -> PageDescriptor.id pg = id.
Proof.
  unfold ValidatedTrace.page, PageCatalog.page. intros H.
  destruct (PageCatalog.page_index c !! id) as [i|] eqn:Hi; simpl in H; [|done].
  destruct (cat_page (c:=c) id i Hi) as (p & Hp & Hpid). simpl in *. rewrite Hp in H.
  by injection H as <-.
Qed.

(** * Speculation *)

(** Every page that became resident was loaded speculatively, at its cost. *)
Definition speculates (k k' : Kernel.t) : Prop :=
  Kernel.metrics k' demand_load_bytes = Kernel.metrics k demand_load_bytes
  /\ exists A, dom (Kernel.residents k') ⊆ dom (Kernel.residents k) ∪ list_to_set A
     /\ Kernel.metrics k' prefetch_load_bytes
        = Kernel.metrics k prefetch_load_bytes + sumN (page_cost trace) A.

Lemma speculates_tracks k k' :
  tracks k k' -> dom (Kernel.residents k') ⊆ dom (Kernel.residents k) -> speculates k k'.
Proof. intros [] Hd. split; [done|]. exists []. simpl. split; [set_solver | lia]. Qed.

Lemma speculates_trans k1 k2 k3 : speculates k1 k2 -> speculates k2 k3 -> speculates k1 k3.
Proof.
  intros (E1 & A1 & D1 & L1) (E2 & A2 & D2 & L2). split; [congruence|].
  exists (A1 ++ A2). rewrite sumN_app. split; [|lia]. rewrite list_to_set_app_L. set_solver.
Qed.

Lemma pages_track (f : Kernel.t -> N -> result SimError Kernel.t) pages k :
  (forall k id, returns (f k id) (fun k' => tracks k k' /\ Kernel.residents k' = Kernel.residents k)) ->
  returns (try_fold f k pages)
    (fun k' => tracks k k' /\ Kernel.residents k' = Kernel.residents k).
Proof.
  intros Hf. apply (returns_try_fold _ _ (fun _ k' => tracks k k'
    /\ Kernel.residents k' = Kernel.residents k)); [by split; [apply tracks_refl|]|].
  intros dn id k1 [Ht Hr]. eapply returns_mono; [apply Hf|]. intros k2 [Ht2 Hr2].
  split; [by eapply tracks_trans | congruence].
Qed.

Lemma drop_tracks pages k :
  returns (Kernel.drop_prefetches trace pages k)
    (fun k' => tracks k k' /\ Kernel.residents k' = Kernel.residents k).
Proof.
  apply pages_track. intros k0 id. apply returns_bind. intros pg _. radd.
  apply returns_kadd; intros ?; ksimpl. split; [tracks_solve | done].
Qed.

Lemma offer_tracks pages k :
  returns (Kernel.offer_pages trace pages k)
    (fun k' => tracks k k' /\ Kernel.residents k' = Kernel.residents k).
Proof.
  apply pages_track. intros k0 id. apply returns_bind. intros pg _. radd.
  apply returns_kadd; intros ?; ksimpl. split; [tracks_solve | done].
Qed.

Lemma classify_tracks pages k :
  returns (Kernel.classify_pages trace pages k)
    (fun '(k', _, _) => tracks k k' /\ Kernel.residents k' = Kernel.residents k).
Proof.
  apply (returns_try_fold _ _ (fun _ '(k', _, _) => tracks k k'
    /\ Kernel.residents k' = Kernel.residents k)); [by split; [apply tracks_refl|]|].
  intros dn id [[k1 ab] red] [Ht Hr]. apply returns_bind. intros pg _.
  case_bool_decide.
  - radd. radd. apply returns_ok. simpl. split; [|done]. eapply tracks_trans; [done|]. tracks_solve.
  - by apply returns_ok.
Qed.

Lemma fill_speculates absent k :
  returns (Kernel.fill_pages trace absent k) (speculates k).
Proof.
  apply (returns_try_fold _ _ (fun _ k' => speculates k k')).
  { apply speculates_tracks; [apply tracks_refl | done]. }
  intros dn id k1 Hs. apply returns_bind. intros pg Hpg. apply returns_bind.
  unfold Kernel.next_touch. apply returns_bind, returns_ok_or. intros v _. apply returns_ok.
  apply returns_bind. eapply returns_mono; [apply insert_tracks|]. intros k2 [[] Hr].
  radd. apply returns_kadd; intros ?; ksimpl. eapply speculates_trans; [done|].
  split; [simpl in *; metrics_simpl; done|]. exists [id]. simpl in *. metrics_simpl.
  rewrite Hr, dom_insert_L, (page_id_of id pg Hpg), (page_cost_of id pg Hpg).
  split; [set_solver | lia].
Qed.

Lemma delete_all_dom (r : Residents) victims : dom (delete_all r victims) ⊆ dom r.
Proof.
  revert r. induction victims as [|v l IH]; intros r; simpl; [done|].
  etrans; [apply IH|]. rewrite dom_delete_L. set_solver.
Qed.

Lemma group_speculates group budget k :
  returns (Kernel.prefetch_group trace group budget k) (fun '(k', _) => speculates k k').
Proof.
  assert (forall k k', tracks k k' /\ Kernel.residents k' = Kernel.residents k -> speculates k k')
    as Hsp by (intros ?? [? Hr]; apply speculates_tracks; [done | by rewrite Hr]).
  unfold Kernel.prefetch_group. apply returns_bind.
  eapply returns_mono; [apply offer_tracks|]. intros k1 H1%Hsp. apply returns_bind.
  eapply returns_mono; [apply classify_tracks|]. intros [[k2 absent] red] H2%Hsp.
  pose proof (speculates_trans _ _ _ H1 H2) as H3. clear H1 H2.
  destruct (decide (absent = [])) as [_|_]; [by apply returns_ok|].
  assert (forall tag, returns (k0 ← Kernel.drop_prefetches trace absent k2;
     Ok (Kernel.hash_prefetch_decision (PrefetchGroup.sequence group) tag
           (PrefetchGroup.page_ids group) red absent [] k0, budget)) (fun '(k', _) => speculates k k'))
    as Hdrop.
  { intros tag. apply returns_bind. eapply returns_mono; [apply drop_tracks|].
    intros k3 H4%Hsp. apply returns_ok. exact (speculates_trans _ _ _ H3 H4). }
  destruct (_ <? _); [apply Hdrop|]. apply returns_bind. intros load _.
  destruct (_ <? _); [apply Hdrop|]. apply returns_bind. intros [victims|] _; [|apply Hdrop].
  apply returns_bind. eapply returns_mono; [apply evicts_tracks|]. intros k3 [Ht3 Hr3].
  apply returns_bind. eapply returns_mono; [apply fill_speculates|]. intros k4 H4.
  apply returns_bind, returns_ok_or. intros b _. apply returns_bind. intros n _. apply returns_ok.
  assert (speculates k2 k3) as H5
    by (apply speculates_tracks; [done | rewrite Hr3; apply delete_all_dom]).
  exact (speculates_trans _ _ _ H3 (speculates_trans _ _ _ H5 H4)).
Qed.

Lemma groups_speculate q request target_step layer selected budget k :
  returns (Kernel.prefetch_groups trace q request target_step layer selected budget k) (speculates k).
Proof.
  revert budget k. induction selected as [|pr sel IH]; intros budget k; simpl.
  { apply returns_ok, speculates_tracks; [apply tracks_refl | done]. }
  case_match; [apply returns_ok, speculates_tracks; [apply tracks_refl | done]|].
  apply returns_bind. eapply returns_mono; [apply group_speculates|]. intros [k1 b1] H1.
  eapply returns_mono; [apply IH|]. intros k2 H2. by eapply speculates_trans.
Qed.

Lemma signal_speculates q request target_step layer ps k :
  returns (Kernel.signal trace q request target_step layer ps k) (speculates k).
Proof.
  assert (forall k', Kernel.metrics k' = Kernel.metrics k -> Kernel.residents k' = Kernel.residents k ->
    speculates k k') as Hsame.
  { intros k' Hm Hr. split; [by rewrite Hm|]. exists []. rewrite Hm, Hr. simpl. split; [set_solver | lia]. }
  unfold Kernel.signal. destruct (PolicyState.router_config _); [|by apply returns_ok, Hsame].
  destruct (Kernel.select_predictions _ _) eqn:Es; [by apply returns_ok, Hsame|].
  apply returns_bind. intros p _. case_match; [by apply returns_ok, Hsame|].
  eapply returns_mono; [apply groups_speculate|]. intros k' H'.
  eapply speculates_trans; [|exact H']. by apply Hsame.
Qed.

(** * The lazy schedule *)

Section lazy.
Context (capacity : N).
Abbreviation fits := (byte_fits (page_charge trace) capacity).
Abbreviation cost := (page_cost trace).
Abbreviation held k := (dom (Kernel.residents k) : gset N).

(** The lazy schedule holds [L], part of what the kernel holds, after spending
    [v]; its savings are the speculated pages it has not loaded yet. *)
Definition lazily (dn : list TraceEvent.t) (k : Kernel.t) : Prop :=
  exists L v, L ⊆ held k
    /\ (forall rs d, serves fits cost L rs d -> within_cost fits cost ∅ (demands dn ++ rs) (v + d))
    /\ v + set_charge cost (held k ∖ L)
       <= Kernel.metrics k demand_load_bytes + Kernel.metrics k prefetch_load_bytes.

Lemma lazily_speculates dn e k k' :
  (forall q rq s p, e <> TraceEvent.Demand q rq s p) ->
  lazily dn k -> speculates k k' -> lazily (dn ++ [e]) k'.
Proof.
  intros He (L & v & HL & Hs & Hv) (El & A & HA & Ep). exists (L ∩ held k'), v. split; [set_solver|].
  assert (demands (dn ++ [e]) = demands dn) as ->.
  { rewrite demands_app. destruct e as [|q rq st p]; [by rewrite app_nil_r | by destruct (He q rq st p)]. }
  split.
  - intros rs d (d' & Hd & H')%(serves_mono fits cost _ L); [|set_solver].
    apply (within_cost_mono fits cost _ _ (v + d')); [by apply Hs | lia].
  - rewrite El, Ep. pose proof (set_charge_app cost (held k ∖ L) A).
    pose proof (set_charge_subset cost (held k' ∖ (L ∩ held k')) (held k ∖ L ∪ list_to_set A)).
    specialize (H0 ltac:(set_solver)). lia.
Qed.

Lemma same_core_dom r r' : same_core r r' -> (dom r : gset N) = dom r'.
Proof. intros H. rewrite <- (dom_fmap_L core r), <- (dom_fmap_L core r'). by rewrite H. Qed.

Lemma claimed_dom r page e : r !! page = Some e -> (dom (claimed r page e) : gset N) = dom r.
Proof.
  intros He. unfold claimed. case_match; [|done]. rewrite dom_insert_L.
  apply elem_of_dom_2 in He. set_solver.
Qed.

Lemma claimed_ok r page e :
  residents_ok c r -> r !! page = Some e ->
  residents_ok c (claimed r page e) /\ charge_of (claimed r page e) = charge_of r.
Proof.
  intros Hr He. unfold claimed. case_match; [|done]. split.
  - intros id e' [[<- <-]|[_ ?]]%lookup_insert_Some; [apply (Hr page e He) | by apply Hr].
  - pose proof (msum_insert ResidentEntry.charge_bytes r page e
      (ResidentEntry.set_prefetched_unused false e) He) as H'. simpl in H'. lia.
Qed.

Lemma hit_dom dn page e k r touch p :
  between trace capacity dn k -> Kernel.residents k !! page = Some e ->
  PolicyState.on_hit p (claimed (Kernel.residents k) page e) page touch = Ok r ->
  dom r = held k.
Proof.
  intros (Hk & _) He Hr. destruct (claimed_ok _ _ _ (ki_residents _ _ _ Hk) He) as [H1 H2].
  pose proof (on_hit_spec c p _ page touch H1) as Hp. rewrite Hr in Hp.
  destruct Hk. destruct Hp as [Hc _]; [lia|]. by rewrite (same_core_dom _ _ Hc), (claimed_dom _ page e).
Qed.

Lemma held_fits dn k L : between trace capacity dn k -> L ⊆ held k -> fits L.
Proof.
  intros ([Hr _ Hc _ _ _ _] & _ & Hcap) HL. unfold byte_fits.
  pose proof (set_charge_subset (page_charge trace) L (held k) HL).
  rewrite (resident_charge _ Hr) in H. lia.
Qed.

Lemma lazily_demand dn q request step page k k' pg :
  let e := TraceEvent.Demand q request step page in
  between trace capacity dn k -> between trace capacity (dn ++ [e]) k' ->
  lazily dn k -> demanded trace request step page k k' pg -> lazily (dn ++ [e]) k'.
Proof.
  intros e Hb Hb' (L & v & HL & Hs & Hv) [Hpg _ _ _ Ef _ Hd].
  pose proof (page_cost_of page pg Hpg) as Hcost. pose proof (page_id_of page pg Hpg) as Hid.
  assert (demands (dn ++ [e]) = demands dn ++ [page]) as Hdem by apply demands_app.
  destruct (Kernel.residents k !! page) as [en|] eqn:He.
  - destruct Hd as (El & _ & Hhit). pose proof (hit_dom dn page en k _ _ _ Hb He Hhit) as Hdom.
    assert (page ∈ held k) as Hin by by eapply elem_of_dom_2.
    unfold lazily. rewrite Hdem, Hdom, El, Ef. destruct (decide (page ∈ L)) as [Hp|Hp].
    + exists L, v. split; [done|]. split; [|done]. intros rs d Hr. rewrite <- app_assoc. simpl.
      apply Hs. by apply (serves_hit fits cost L L).
    + exists ({[page]} ∪ L), (v + cost page). split; [set_solver|]. split.
      * intros rs d Hr. rewrite <- app_assoc, <- N.add_assoc. simpl. apply Hs.
        apply (serves_miss fits cost L ({[page]} ∪ L)); [done | done | | done].
        apply (held_fits dn k); [done | set_solver].
      * replace (held k ∖ L) with ({[page]} ∪ held k ∖ ({[page]} ∪ L)) in Hv
          by (apply set_eq; intros x; destruct (decide (x = page)); set_solver).
        rewrite set_charge_union in Hv by set_solver. lia.
  - destruct Hd as (El & _ & plan & _ & Hr).
    assert (held k' ⊆ {[page]} ∪ held k) as Hdom.
    { rewrite Hr. destruct plan as [vs|]; [|set_solver]. rewrite dom_insert_L, Hid.
      pose proof (delete_all_dom (Kernel.residents k) vs). set_solver. }
    assert (page ∉ held k) as Hp by by apply not_elem_of_dom.
    exists (({[page]} ∪ L) ∩ held k'), (v + cost page). rewrite Hdem, El, Ef. split; [set_solver|]. split.
    + intros rs d Hrs. rewrite <- app_assoc, <- N.add_assoc. simpl. apply Hs.
      eapply serves_miss; [set_solver | | | exact Hrs]; [set_solver|].
      by apply (held_fits (dn ++ [e]) k'); [|set_solver].
    + pose proof (set_charge_subset cost (held k' ∖ (({[page]} ∪ L) ∩ held k')) (held k ∖ L)) as Hsub.
      specialize (Hsub ltac:(set_solver)). lia.
Qed.

Lemma step_lazily dn e rest k :
  events = dn ++ e :: rest -> between trace capacity dn k -> lazily dn k ->
  post (Kernel.step trace k e)
    (fun k' => between trace capacity (dn ++ [e]) k' /\ lazily (dn ++ [e]) k') overflow_only.
Proof.
  intros Hev Hb Hl. pose proof (step_spec limits trace capacity dn e rest k Hev Hb) as Hstep.
  destruct (Kernel.step trace k e) as [k'| |] eqn:E; [|done..]. simpl in *. split; [done|].
  destruct e as [q rq t l ps|q rq s p]; simpl in E.
  - apply (lazily_speculates dn _ k k'); [done | done|]. by eapply signal_speculates.
  - apply SimDemand.demand_effect in E as (pg & Hd). by eapply lazily_demand.
Qed.

Lemma lazily_start k : between trace capacity [] k -> Kernel.residents k = ∅ -> lazily [] k.
Proof.
  intros Hb Hr. exists ∅, 0. rewrite Hr, dom_empty_L. split; [done|]. split.
  - intros rs d Hs. by exists d.
  - unfold set_charge. rewrite difference_empty_L, elements_empty. simpl. lia.
Qed.

Lemma online_lower_bound sha256_hex config :
  SimulationConfig.capacity_bytes config = capacity -> config_typed config ->
  returns (k ← Kernel.new trace config; Kernel.run sha256_hex trace k)
    (fun r => within_cost fits cost ∅ (demands events) (r.1 total_physical_load_bytes)).
Proof.
  intros Hcap Ht. apply returns_bind. intros k Hk.
  pose proof (kernel_new_spec trace config Ht) as Hnew. rewrite Hk in Hnew.
  destruct Hnew as [_ Hb]. rewrite Hcap in Hb.
  assert (Kernel.residents k = ∅) as Hr.
  { unfold Kernel.new in Hk. destruct (Kernel.router_metadata_limit _ _); simplify_eq/=.
    destruct (PolicyState.new _ _ _); by simplify_eq/=. }
  apply returns_bind. intros k1 Hk1.
  assert (between trace capacity events k1 /\ lazily events k1) as [_ (L & v & HL & Hs & Hv)].
  { eapply (post_ok_inv _ (fun k => between trace capacity events k /\ lazily events k)
      overflow_only k1); [|exact Hk1].
    apply (post_try_fold _ _ (fun dn k => between trace capacity dn k /\ lazily dn k)).
    - split; [done | by apply lazily_start].
    - intros dn e rest k2 Hev [? ?]. by eapply step_lazily. }
  apply returns_bind. eapply returns_mono; [apply finish_effect|]. intros k2 (_ & _ & _ & Htot).
  apply returns_ok. simpl. rewrite Htot.
  apply (within_cost_mono fits cost _ _ (v + 0)); [|lia].
  specialize (Hs [] 0). rewrite app_nil_r in Hs. apply Hs. constructor.
Qed.
End lazy.
End resident_set.

#[local] Arguments u64_max : simpl never.

(** * The specification *)

Section spec.
Context (charge cost : N -> N) (capacity : N).

(** Drop pages from the cold end until the rest fits in [room]. *)
Fixpoint make_room (room : N) (l : list N) : list N :=
  match l with
  | [] => []
  | p :: l' => if sumN charge l <=? room then l else make_room room l'
  end.

(** The cache, coldest page first, and the bytes loaded and misses so far. *)
Record lru : Type := Lru { pages : list N; loaded : N; misses : N }.

Definition lru_access (s : lru) (p : N) : lru :=
  if decide (p ∈ pages s)
  then Lru (filter (fun q => q <> p) (pages s) ++ [p]) (loaded s) (misses s)
  else Lru (if charge p <=? capacity then make_room (capacity - charge p) (pages s) ++ [p]
            else pages s)
         (loaded s + cost p) (misses s + 1).

Definition lru_run (rs : list N) : lru := foldl lru_access (Lru [] 0 0) rs.

Lemma make_room_spec room t r :
  sumN charge r <= room ->
  (forall pre p, t = pre ++ [p] -> room < charge p + sumN charge r) ->
  make_room room (t ++ r) = r.
Proof.
  intros Hr Hlast. induction t as [|x t IH]; cbn [app].
  - destruct r as [|p r]; [done|]. cbn [make_room]. by rewrite (proj2 (N.leb_le _ _) Hr).
  - cbn [make_room]. rewrite (proj2 (N.leb_gt _ _)).
    + apply IH. intros pre p ->. by apply (Hlast (x :: pre)).
    + destruct (exists_last (l:=x :: t)) as (pre & p & E); [done|].
      rewrite app_comm_cons, E, !sumN_app. simpl. specialize (Hlast pre p E). lia.
Qed.
End spec.
#[local] Arguments lru_access : simpl never.

(** * The refinement *)

Section refinement.
Context (limits : SimLimits.t) (trace : ValidatedTrace.t) `{Hok : !TraceOk limits trace}.
Context (capacity : N).
Abbreviation c := (ValidatedTrace.catalog trace).
Abbreviation events := (ValidatedTrace.events trace).
Abbreviation access := (lru_access (page_charge trace) (page_cost trace) capacity).

Definition stamp (r : Residents) (p : N) : N := from_option ResidentEntry.last_touch 0 (r !! p).

(** The list is the resident pages in the order of their last touch. *)
Record recency (r : Residents) (now : N) (l : list N) : Prop := {
  rec_pages : forall p, p ∈ l <-> is_Some (r !! p);
  rec_sorted : StronglySorted (fun p q => stamp r p < stamp r q) l;
  rec_past : forall p, p ∈ l -> stamp r p <= now
}.

Record refines (s : lru) (k : Kernel.t) : Prop := {
  ref_policy : Kernel.policy k = PolicyState.Lru;
  ref_recency : recency (Kernel.residents k) (Kernel.touch k) (pages s);
  ref_loaded : Kernel.metrics k demand_load_bytes = loaded s;
  ref_misses : Kernel.metrics k demand_misses = misses s
}.

Lemma stamp_insert r p q e :
  stamp (<[p := e]> r) q = if decide (p = q) then ResidentEntry.last_touch e else stamp r q.
Proof. unfold stamp. case_decide; subst; by simplify_map_eq. Qed.

Lemma sorted_weaken {A} (R R' : A -> A -> Prop) l :
  (forall x y, x ∈ l -> y ∈ l -> R x y -> R' x y) -> StronglySorted R l -> StronglySorted R' l.
Proof.
  intros HR H. induction H as [|x l Hs IH Hf]; constructor.
  - apply IH. intros; apply HR; set_solver.
  - rewrite Forall_forall in *. intros y Hy. apply HR; set_solver.
Qed.

Lemma sorted_snoc {A} (R : A -> A -> Prop) l x :
  StronglySorted R l -> (forall y, y ∈ l -> R y x) -> StronglySorted R (l ++ [x]).
Proof.
  intros H Hx. induction H as [|y l Hs IH Hf]; simpl; constructor.
  - constructor.
  - constructor.
  - apply IH. set_solver.
  - rewrite Forall_app. split; [done|]. constructor; [apply Hx; set_solver | constructor].
Qed.

Lemma recency_nodup r now l : recency r now l -> NoDup l.
Proof.
  intros [_ Hs _]. induction Hs as [|x l Hs IH Hf]; constructor; [|done].
  intros Hx. rewrite Forall_forall in Hf. specialize (Hf x Hx). lia.
Qed.

(** Restamping a page moves it to the warm end. *)
Lemma recency_touch r now l p e :
  recency r now l -> ResidentEntry.last_touch e = now + 1 ->
  recency (<[p := e]> r) (now + 1) (filter (fun q => q <> p) l ++ [p]).
Proof.
  intros [Hp Hs Hpast] He. split.
  - intros q. rewrite elem_of_app, list_elem_of_filter, list_elem_of_singleton, Hp.
    rewrite lookup_insert. case_decide; subst; naive_solver.
  - apply sorted_snoc.
    + apply (sorted_weaken (fun x y => stamp r x < stamp r y)).
      * intros x y [? _]%list_elem_of_filter [? _]%list_elem_of_filter ?.
        rewrite !stamp_insert, !decide_False by congruence. done.
      * clear -Hs. induction Hs as [|x l Hs IH Hf]; [constructor|]. rewrite filter_cons.
        case_decide; [|done]. constructor; [done|]. rewrite Forall_forall in *.
        intros y [_ ?]%list_elem_of_filter. by apply Hf.
    + intros y [? ?]%list_elem_of_filter. rewrite !stamp_insert, decide_False, decide_True by congruence.
      rewrite He. specialize (Hpast y). naive_solver lia.
  - intros q Hq. rewrite stamp_insert. destruct (decide (p = q)) as [|Hne]; [lia|].
    apply elem_of_app in Hq as [[_ Hq]%list_elem_of_filter|Hq%list_elem_of_singleton]; [|congruence].
    specialize (Hpast q Hq). lia.
Qed.

(** Evicting a cold prefix leaves the rest in order. *)
Lemma recency_drop r now t l : recency r now (t ++ l) -> recency (delete_all r t) now l.
Proof.
  intros H. pose proof (recency_nodup _ _ _ H) as Hnd. destruct H as [Hp Hs Hpast].
  apply NoDup_app in Hnd as (_ & Hdis & _).
  assert (forall q, q ∈ l -> delete_all r t !! q = r !! q) as Hkeep.
  { intros q Hq. rewrite lookup_foldl_delete, decide_False; [done|]. intros ?. by apply (Hdis q). }
  assert (forall q, q ∈ l -> stamp (delete_all r t) q = stamp r q) as Hstamp
    by (intros q Hq; unfold stamp; by rewrite Hkeep).
  split.
  - intros q. specialize (Hp q). rewrite lookup_foldl_delete. case_decide as Hq.
    + split; [|by intros []]. intros ?. by destruct (Hdis q).
    + rewrite <- Hp, elem_of_app. naive_solver.
  - apply (sorted_weaken (fun x y => stamp r x < stamp r y)).
    + intros x y Hx Hy. by rewrite !Hstamp.
    + by apply StronglySorted_app_1_r in Hs.
  - intros q Hq. rewrite Hstamp by done. apply Hpast, elem_of_app. by right.
Qed.

(** The victim order of the LRU policy is the recency order. *)
Lemma recency_order r now l es :
  recency r now l -> residents_ok c r -> es ≡ₚ btree_values r ->
  StronglySorted (by_key (fun e => [0%Z; 0%Z; Z.of_N (ResidentEntry.last_touch e);
                                    Z.of_N (ResidentEntry.page e)])) es ->
  ResidentEntry.page <$> es = l.
Proof.
  intros Hrec Hr Hperm Hsort. pose proof (recency_nodup _ _ _ Hrec) as Hnd.
  destruct Hrec as [Hp Hs _].
  assert (forall e, e ∈ es -> r !! ResidentEntry.page e = Some e) as Hes.
  { intros e. rewrite Hperm. intros He. by destruct (values_catalog c r e Hr He). }
  assert (ResidentEntry.page <$> es ≡ₚ l) as Hpl.
  { rewrite Hperm, (values_pages c r Hr). apply NoDup_Permutation; [apply NoDup_btree_keys | done|].
    intros q. by rewrite elem_of_btree_keys, Hp. }
  apply (StronglySorted_unique_strong (fun p q => stamp r p <= stamp r q)); [| | |done].
  - intros x y Hx Hy Hxy Hyx. rewrite Hpl in Hx. assert (stamp r x = stamp r y) as E by lia. clear -Hs Hx Hy E.
    induction Hs as [|z l Hs IH Hf]; [by apply elem_of_nil in Hx|]. rewrite Forall_forall in Hf.
    apply elem_of_cons in Hx as [->|Hx], Hy as [->|Hy]; [done | | | by apply IH].
    + specialize (Hf y Hy). lia.
    + specialize (Hf x Hx). lia.
  - clear -Hsort Hes. induction Hsort as [|e es Hsort IH Hf]; simpl; constructor.
    + apply IH. set_solver.
    + rewrite Forall_forall in Hf. rewrite Forall_forall.
      intros q (e' & -> & He')%list_elem_of_fmap. unfold stamp.
      rewrite !Hes by set_solver. specialize (Hf e' He'). unfold by_key in Hf. simpl in *. lia.
  - eapply sorted_weaken; [|exact Hs]. intros; simpl in *; lia.
Qed.

Lemma lru_plan r now l pg request step bytes plan :
  recency r now l -> residents_ok c r -> bytes = charge_of r -> bytes <= capacity <= u64_max ->
  PolicyState.plan_demand_victims PolicyState.Lru c r (DemandPlan.mk bytes capacity pg request step)
    = Ok plan ->
  match plan with
  | None => capacity < PageDescriptor.charge_bytes pg
  | Some victims =>
      PageDescriptor.charge_bytes pg <= capacity
      /\ l = victims ++ make_room (page_charge trace) (capacity - PageDescriptor.charge_bytes pg) l
  end.
Proof.
  intros Hrec Hr Hb Hcap. unfold PolicyState.plan_demand_victims. cbn [DemandPlan.candidate
    DemandPlan.capacity_bytes DemandPlan.resident_bytes DemandPlan.request DemandPlan.step].
  rewrite orb_false_r. destruct (N.ltb_spec capacity (PageDescriptor.charge_bytes pg)) as [Hlt|Hge].
  { by intros [= <-]. }
  assert (forall es, (forall e, e ∈ es -> r !! ResidentEntry.page e = Some e) ->
    sumN (page_charge trace) (ResidentEntry.page <$> es) = sumN ResidentEntry.charge_bytes es) as Hsum.
  { intros es Hes. rewrite sumN_fmap. apply sumN_ext. intros e He.
    destruct (Hr _ _ (Hes e He)) as (_ & p & Hp & -> & _). unfold page_charge. by rewrite Hp. }
  unfold sub_or_panic, checked_sub. rewrite (proj2 (N.leb_le bytes capacity)) by lia. cbn [expect mbind result_bind].
  destruct (N.leb_spec (PageDescriptor.charge_bytes pg) (capacity - bytes)) as [Hfit|Hfull].
  - intros [= <-]. split; [done|]. symmetry.
    apply (make_room_spec (page_charge trace) _ [] l); [|by intros [] ?].
    assert (l ≡ₚ btree_keys r) as ->.
    { apply NoDup_Permutation; [by eapply recency_nodup | apply NoDup_btree_keys|].
      intros q. rewrite elem_of_btree_keys. apply (rec_pages _ _ _ Hrec). }
    rewrite <- (values_pages c r Hr), Hsum, msum_btree_values; [lia|].
    intros e He. by destruct (values_catalog c r e Hr He).
  - intros Hplan. revert Hplan.
    apply (post_ok_inv _ (fun plan => match plan with
      | None => capacity < PageDescriptor.charge_bytes pg
      | Some victims => PageDescriptor.charge_bytes pg <= capacity
          /\ l = victims ++ make_room (page_charge trace) (capacity - PageDescriptor.charge_bytes pg) l
      end) (fun _ => True)).
    eapply (post_try_sort _ (fun e => [0%Z; 0%Z; Z.of_N (ResidentEntry.last_touch e);
                                    Z.of_N (ResidentEntry.page e)])).
    { intros e He. destruct (values_catalog c r e Hr He) as (_ & p & -> & _). done. }
    intros es Hperm Hsort. pose proof (recency_order r now l es Hrec Hr Hperm Hsort) as <-.
    assert (forall e, e ∈ es -> r !! ResidentEntry.page e = Some e) as Hes.
    { intros e. rewrite Hperm. intros He. by destruct (values_catalog c r e Hr He). }
    assert (sumN ResidentEntry.charge_bytes es = bytes) as Htot
      by (by rewrite Hperm, msum_btree_values).
    destruct (collect_victims_spec (PageDescriptor.charge_bytes pg - (capacity - bytes)) es [] 0)
      as (t & rest & -> & -> & Hall & Hmin); [lia | lia |].
    cbn [mbind result_bind]. rewrite sumN_app in Htot.
    destruct (N.ltb_spec (0 + sumN ResidentEntry.charge_bytes t)
      (PageDescriptor.charge_bytes pg - (capacity - bytes))) as [Hlt|Hge'].
    { rewrite (Hall Hlt) in Htot. simpl in Htot. lia. }
    simpl. split; [done|]. rewrite fmap_app. f_equal. symmetry.
    apply make_room_spec.
    + rewrite Hsum by set_solver. lia.
    + intros pre p (pre' & t' & -> & E & ->)%fmap_app_inv.
      destruct t' as [|e [|]]; simplify_eq/=. specialize (Hmin pre' e eq_refl).
      rewrite Hsum by set_solver. rewrite !sumN_app in *. simpl in *.
      destruct (Hr _ _ (Hes e ltac:(set_solver))) as (_ & p & Hp & Hce & _). unfold page_charge.
      rewrite Hp. lia.
Qed.

Lemma filter_absent (p : N) (l : list N) : p ∉ l -> filter (fun q => q <> p) l = l.
Proof.
  induction l as [|x l IH]; intros Hp; [done|]. rewrite filter_cons, decide_True by set_solver.
  f_equal. apply IH. set_solver.
Qed.

Lemma lru_hit_recency r now l page e :
  recency r now l -> r !! page = Some e ->
  exists r', PolicyState.on_hit PolicyState.Lru (claimed r page e) page (now + 1) = Ok r'
    /\ recency r' (now + 1) (filter (fun q => q <> page) l ++ [page]).
Proof.
  intros Hrec He. unfold PolicyState.on_hit, claimed. destruct (ResidentEntry.prefetched_unused e).
  - rewrite lookup_insert_eq. simpl. eexists. split; [done|]. rewrite insert_insert_eq.
    by apply recency_touch.
  - rewrite He. simpl. eexists. split; [done|]. by apply recency_touch.
Qed.

Lemma lru_demand dn s request step page k k' pg :
  between trace capacity dn k -> refines s k -> demanded trace request step page k k' pg ->
  refines (access s page) k'.
Proof.
  intros Hb [Hpol Hrec Hl Hm] [Hpg Hnote Hcap Ht _ _ Hd].
  pose proof (page_id_of limits trace page pg Hpg) as Hid.
  pose proof (page_cost_of trace page pg Hpg) as Hcost.
  assert (page_charge trace page = PageDescriptor.charge_bytes pg) as Hcharge.
  { unfold ValidatedTrace.page in Hpg. unfold page_charge. by rewrite Hpg. }
  rewrite Hpol in Hnote. injection Hnote as Hpol'. rewrite <- Hpol' in Hd.
  unfold lru_access. pose proof (rec_pages _ _ _ Hrec page) as Hin.
  destruct (Kernel.residents k !! page) as [e|] eqn:He.
  - rewrite decide_True by (apply Hin; eauto). destruct Hd as (El & Em & Hhit).
    destruct (lru_hit_recency _ _ _ page e Hrec He) as (r' & Hr' & Hrec').
    rewrite Ht, Hr' in Hhit. injection Hhit as ->. split; simpl; congruence.
  - rewrite decide_False by (rewrite Hin; by intros []). destruct Hd as (El & Em & plan & Hplan & Hr).
    split; simpl; [congruence | | lia | lia]. destruct Hb as ([Hres Hbytes Hc _ _ _ _] & _ & Hkc).
    rewrite Hkc in *. rewrite Hcharge.
    pose proof (lru_plan _ _ _ _ _ _ _ _ Hrec Hres Hbytes ltac:(lia) Hplan) as Hp.
    rewrite Ht. destruct plan as [vs|].
    + destruct Hp as [Hle Hsplit]. rewrite (proj2 (N.leb_le _ _) Hle), Hr, Hid.
      rewrite Hsplit in Hrec. apply recency_drop in Hrec.
      assert (page ∉ make_room (page_charge trace) (capacity - PageDescriptor.charge_bytes pg) (pages s))
        as Hnew.
      { intros Hx. destruct (proj1 Hin) as [? ?]; [|congruence]. rewrite Hsplit. set_solver. }
      rewrite <- (filter_absent page _ Hnew).
      apply recency_touch; [done | simpl; lia].
    + rewrite (proj2 (N.leb_gt _ _)) by done. rewrite Hr. destruct Hrec as [? ? Hpast].
      split; [done | done |]. intros x Hx. specialize (Hpast x Hx). lia.
Qed.

Lemma lru_signal s q request target_step layer ps k k' :
  refines s k -> Kernel.signal trace q request target_step layer ps k = Ok k' -> refines s k'.
Proof.
  intros [Hpol ? ? ?]. unfold Kernel.signal. rewrite Hpol. intros [= <-]. by split.
Qed.

(** The whole run: on every trace the kernel's loads and misses are those of
    the list cache. *)
Lemma lru_run_refines sha256_hex config :
  config = SimulationConfig.mk capacity PolicySpec.Lru -> capacity <= u64_max ->
  returns (k ← Kernel.new trace config; Kernel.run sha256_hex trace k)
    (fun r => let s := lru_run (page_charge trace) (page_cost trace) capacity (demands events) in
       r.1 demand_load_bytes = loaded s /\ r.1 demand_misses = misses s).
Proof.
  intros -> Hcap. apply returns_bind. intros k Hk.
  pose proof (kernel_new_spec trace (SimulationConfig.mk capacity PolicySpec.Lru)) as Hnew.
  rewrite Hk in Hnew. destruct Hnew as [_ Hb]; [by split|]. injection Hk as Hk.
  apply returns_bind. intros k1 Hk1.
  assert (refines (lru_run (page_charge trace) (page_cost trace) capacity (demands events)) k1) as [_ _ Hl Hm].
  { pose (I dn k := between trace capacity dn k
      /\ refines (lru_run (page_charge trace) (page_cost trace) capacity (demands dn)) k).
    enough (I events k1) by apply H.
    eapply (post_ok_inv _ (I events) overflow_only); [|exact Hk1].
    apply (post_try_fold _ _ I).
    - split; [done|]. rewrite <- Hk. split; [done | | done | done]. split; simpl; [|constructor|].
      + intros p. rewrite lookup_empty. split; [|by intros []]. intros Hx. by apply elem_of_nil in Hx.
      + intros p Hx. by apply elem_of_nil in Hx.
    - intros dn e rest k2 Hev [Hb2 Hr2].
      pose proof (step_spec limits trace capacity dn e rest k2 Hev Hb2) as Hstep.
      destruct (Kernel.step trace k2 e) as [k3| |] eqn:E; [|done..]. simpl in *. split; [done|].
      rewrite demands_app. unfold lru_run. rewrite foldl_app.
      destruct e as [q rq t l ps|q rq st p]; simpl in *; [by eapply lru_signal|].
      apply SimDemand.demand_effect in E as (pg & Hd). eapply lru_demand; [exact Hb2 | exact Hr2 | exact Hd]. }
  apply returns_bind. eapply returns_mono; [apply finish_effect|]. intros k2 (_ & Em & El & _).
  apply returns_ok. simpl. split; congruence.
Qed.
End refinement.
