(* ===== verification/SimExact.v ===== *)
(** The exact variable-byte oracle: its dynamic program over sets of resident
    pages, encoded as bit masks, computes the least cost over all schedules
    within the capacity. *)
From stdpp Require Import prelude gmap strings sorting.
From S2P Require Import Prelude SimModel SimOracle SimTrace SimTraceOk Paging SimBelady.
#[local] Open Scope N_scope.
#[local] Arguments u64_max : simpl never.

(** * Masks *)

Definition submask (r s : N) : Prop := N.land r s = r.

Lemma submask_bits r s : submask r s <-> forall j, N.testbit r j = true -> N.testbit s j = true.
Proof.
  unfold submask. split.
  - intros H j Hj. rewrite <- H, N.land_spec in Hj. by apply andb_prop in Hj as [_ ?].
  - intros H. apply N.bits_inj. intros j. rewrite N.land_spec.
    destruct (N.testbit r j) eqn:Hj; [by rewrite H | done].
Qed.

(** A word as its half and its parity. *)
Lemma halve n : exists h b, n = 2 * h + N.b2n b.
Proof. exists (N.div2 n), (N.odd n). apply N.div2_odd. Qed.

Lemma land_halves a b x y :
  N.land (2 * a + N.b2n x) (2 * b + N.b2n y) = 2 * N.land a b + N.b2n (x && y).
Proof.
  apply N.bits_inj. intros j. rewrite N.land_spec.
  destruct (N.zero_or_succ j) as [->|[i ->]].
  - by rewrite !N.testbit_0_r.
  - by rewrite !N.testbit_succ_r, N.land_spec.
Qed.

(** Counting down through [(current - 1) & state] skips no submask. *)
Lemma submask_next s r cur :
  submask r s -> submask cur s -> r < cur -> r <= N.land (cur - 1) s.
Proof.
  unfold submask. revert r cur. induction s as [s IH] using (well_founded_induction N.lt_wf_0). intros r cur Hr Hc Hlt.
  destruct (decide (s = 0)) as [->|Hs]; [rewrite N.land_0_r in *; lia|].
  destruct (halve s) as (s' & b & Es), (halve r) as (r' & x & Er), (halve cur) as (c' & y & Ec).
  rewrite Er, Es, land_halves in Hr. rewrite Ec, Es, land_halves in Hc.
  assert (N.land r' s' = r' /\ x && b = x) as [Hr' Hx] by (destruct x, b; simpl in *; split; (done || lia)).
  assert (N.land c' s' = c' /\ y && b = y) as [Hc' Hy] by (destruct y, b; simpl in *; split; (done || lia)).
  assert (s' < s) as Hss by (destruct b; simpl in *; lia).
  destruct y.
  - replace (cur - 1) with (2 * c' + N.b2n false) by (simpl in *; lia).
    rewrite Es, land_halves, Hc'. simpl in *. destruct x; simpl in *; lia.
  - replace (cur - 1) with (2 * (c' - 1) + N.b2n true) by (simpl in *; destruct x; simpl in *; lia).
    rewrite Es, land_halves. specialize (IH s' Hss r' c' Hr' Hc').
    destruct x, b; simpl in *; try done; lia.
Qed.

(** Clearing the lowest set bit. *)
Lemma trailing_zeros_spec m :
  m <> 0 -> N.testbit m (Exact.trailing_zeros m) = true
    /\ (forall j, j < Exact.trailing_zeros m -> N.testbit m j = false)
    /\ N.land m (m - 1) = N.clearbit m (Exact.trailing_zeros m).
Proof.
  destruct m as [|p]; [done|]. intros _. unfold Exact.trailing_zeros. induction p as [p IH|p IH|].
  - simpl Exact.pos_trailing_zeros. split_and!; [done | lia|]. apply N.bits_inj. intros j.
    rewrite N.land_spec. replace (N.pos p~1 - 1) with (2 * N.pos p) by lia.
    replace (N.pos p~1) with (2 * N.pos p + 1) by lia.
    destruct (N.zero_or_succ j) as [->|[i ->]].
    + rewrite N.testbit_even_0, andb_false_r. by rewrite N.clearbit_eq.
    + rewrite N.clearbit_neq by lia. rewrite N.testbit_even_succ', N.testbit_odd_succ'. apply andb_diag.
  - cbn [Exact.pos_trailing_zeros]. destruct IH as (H1 & H2 & H3).
    set (z := Exact.pos_trailing_zeros p) in *. replace (1 + z) with (N.succ z) by lia.
    change (N.pos p~0) with (2 * N.pos p). split_and!.
    + by rewrite N.testbit_even_succ'.
    + intros j Hj. destruct (N.zero_or_succ j) as [->|[i ->]]; [apply N.testbit_even_0|].
      rewrite N.testbit_even_succ'. apply H2. lia.
    + replace (2 * N.pos p - 1) with (2 * (N.pos p - 1) + 1) by lia.
      apply N.bits_inj. intros j. rewrite N.land_spec, N.clearbit_eqb.
      destruct (N.zero_or_succ j) as [->|[i ->]]; [by rewrite N.testbit_even_0|].
      rewrite N.testbit_even_succ', N.testbit_odd_succ', <- N.land_spec, H3, N.clearbit_eqb.
      f_equal. f_equal. destruct (N.eqb_spec z i), (N.eqb_spec (N.succ z) (N.succ i)); (done || lia).
  - split_and!; [done | simpl; lia | done].
Qed.

Section masks.
Context (ordered : list N) (Hnd : NoDup ordered).

(** The pages a mask stands for. *)
Definition decode (m : N) : gset N :=
  list_to_set (snd <$> filter (fun ip => N.testbit m (N.of_nat ip.1) = true) (imap pair ordered)).
Definition in_range (m : N) : Prop := forall j, N.testbit m j = true -> j < lenN ordered.

Lemma elem_of_decode m p :
  p ∈ decode m <-> exists i, ordered !! i = Some p /\ N.testbit m (N.of_nat i) = true.
Proof.
  unfold decode. rewrite elem_of_list_to_set, list_elem_of_fmap. split.
  - intros ([i q] & -> & [Hb Hin]%list_elem_of_filter). simpl in *.
    apply elem_of_lookup_imap in Hin as (j & x & [= -> ->] & Hj). by exists j.
  - intros (i & Hi & Hb). exists (i, p). split; [done|]. apply list_elem_of_filter. split; [done|].
    apply elem_of_lookup_imap. by exists i, p.
Qed.

Lemma index_unique i j p : ordered !! i = Some p -> ordered !! j = Some p -> i = j.
Proof. intros Hi Hj. by apply (NoDup_lookup ordered i j p). Qed.

Lemma decode_bit m i p : ordered !! i = Some p -> (p ∈ decode m <-> N.testbit m (N.of_nat i) = true).
Proof.
  intros Hi. rewrite elem_of_decode. split; [|by exists i].
  intros (j & Hj & Hb). by rewrite (index_unique i j p Hi Hj).
Qed.

Lemma decode_zero : decode 0 = ∅.
Proof. clear Hnd. apply set_eq. intros p. rewrite elem_of_decode. setoid_rewrite N.bits_0. set_solver. Qed.

Lemma decode_submask r s : submask r s -> decode r ⊆ decode s.
Proof.
  rewrite submask_bits. intros H p. rewrite !elem_of_decode. intros (i & Hi & Hb). exists i. auto.
Qed.

Lemma in_range_submask r s : submask r s -> in_range s -> in_range r.
Proof. rewrite submask_bits. intros H Hs j Hj. by apply Hs, H. Qed.

Lemma testbit_page i j : N.testbit (N.shiftl 1 i) j = (i =? j).
Proof. rewrite N.shiftl_1_l. apply N.pow2_bits_eqb. Qed.

Lemma decode_add r i p :
  ordered !! i = Some p -> decode (N.lor r (N.shiftl 1 (N.of_nat i))) = {[p]} ∪ decode r.
Proof.
  intros Hi. apply set_eq. intros q. rewrite elem_of_union, elem_of_singleton, !elem_of_decode. split.
  - intros (j & Hj & Hb). rewrite N.lor_spec, testbit_page in Hb. apply orb_prop in Hb as [Hb|Hb].
    + right. by exists j.
    + apply N.eqb_eq, Nat2N.inj in Hb as ->. left. congruence.
  - intros [-> | (j & Hj & Hb)].
    + exists i. split; [done|]. rewrite N.lor_spec, testbit_page, N.eqb_refl. apply orb_true_r.
    + exists j. split; [done|]. by rewrite N.lor_spec, Hb.
Qed.

Lemma in_range_add r i p :
  in_range r -> ordered !! i = Some p -> in_range (N.lor r (N.shiftl 1 (N.of_nat i))).
Proof.
  intros Hr Hi j. rewrite N.lor_spec, testbit_page. intros [Hb|Hb]%orb_prop; [by apply Hr|].
  apply N.eqb_eq in Hb as <-. apply lookup_lt_Some in Hi. unfold lenN. lia.
Qed.

Lemma decode_clear m i p :
  ordered !! i = Some p -> N.testbit m (N.of_nat i) = true ->
  decode m = {[p]} ∪ decode (N.clearbit m (N.of_nat i)) /\ p ∉ decode (N.clearbit m (N.of_nat i)).
Proof.
  intros Hi Hb. split.
  - rewrite <- (decode_add _ i p Hi). f_equal. apply N.bits_inj. intros j.
    rewrite N.lor_spec, testbit_page, N.clearbit_eqb.
    destruct (N.eqb_spec (N.of_nat i) j) as [<-|]; [by rewrite orb_true_r|].
    by rewrite orb_false_r, andb_true_r.
  - rewrite (decode_bit _ i p Hi), N.clearbit_eq. done.
Qed.

(** Every subset of a mask's pages is a submask. *)
Lemma encode_subset s (X : gset N) : X ⊆ decode s -> exists r, submask r s /\ decode r = X.
Proof.
  clear Hnd. induction X as [|p X Hp IH] using set_ind_L; intros HX.
  - exists 0. split; [done | apply decode_zero].
  - destruct IH as (r & Hr & <-); [set_solver|].
    assert (p ∈ decode s) as (i & Hi & Hb)%elem_of_decode by set_solver.
    exists (N.lor r (N.shiftl 1 (N.of_nat i))). split; [|by apply decode_add].
    rewrite submask_bits in *. intros j. rewrite N.lor_spec, testbit_page.
    intros [?|H]%orb_prop; [auto|]. by apply N.eqb_eq in H as <-.
Qed.

(** ** [subset_charge] *)

Context (charge : N -> N).
Abbreviation charges := (charge <$> ordered).

Lemma subset_charge_loop_spec size fuel m b total :
  in_range m -> (forall j, j < b -> N.testbit m j = false) ->
  (forall j, N.testbit m j = true -> j < size) -> b <= size < b + N.of_nat fuel ->
  total + set_charge charge (decode m) <= u64_max ->
  Exact.subset_charge_loop fuel charges m total = Ok (total + set_charge charge (decode m)).
Proof.
  revert m b total. induction fuel as [|fuel IH]; intros m b total Hm Hlow Hhigh Hfuel Hmax; [lia|].
  cbn [Exact.subset_charge_loop]. destruct (N.eqb_spec m 0) as [->|Hm0].
  { unfold set_charge. rewrite decode_zero, elements_empty. simpl. by rewrite N.add_0_r. }
  destruct (trailing_zeros_spec m Hm0) as (Hset & Hbelow & ->).
  set (z := Exact.trailing_zeros m) in *. specialize (Hm z Hset) as Hz. unfold lenN in Hz.
  specialize (Hhigh z Hset) as Hzs.
  destruct (lookup_lt_is_Some_2 ordered (N.to_nat z)) as [p Hp]; [lia|].
  rewrite list_lookup_fmap, Hp. simpl.
  destruct (decode_clear m _ p Hp) as [Hdec Hnot]; [by rewrite N2Nat.id|].
  rewrite N2Nat.id in *. rewrite Hdec, set_charge_union in * by done.
  unfold checked_add. rewrite (proj2 (N.leb_le _ _)) by lia. simpl.
  assert (b <= z). { destruct (N.le_gt_cases b z); [done|]. by rewrite Hlow in Hset. }
  assert (submask (N.clearbit m z) m) as Hsub.
  { rewrite submask_bits. intros j. rewrite N.clearbit_eqb. by intros [? _]%andb_prop. }
  rewrite (IH _ (z + 1)); [f_equal; lia | | | | lia | lia].
  - by eapply in_range_submask.
  - intros j Hj. rewrite N.clearbit_eqb. destruct (N.eqb_spec z j) as [|Hne]; [apply andb_false_r|].
    rewrite Hbelow; [done|]. lia.
  - intros j Hj. rewrite submask_bits in Hsub. by apply Hhigh, Hsub.
Qed.

Lemma size_nat_bits m j : N.testbit m j = true -> j < N.of_nat (N.size_nat m).
Proof.
  revert j. destruct m as [|p]; [done|]. simpl N.size_nat.
  induction p as [p IH|p IH|]; intros j Hj; destruct (N.zero_or_succ j) as [->|[i ->]];
    cbn [Pos.size_nat]; try lia.
  - change (N.pos p~1) with (2 * N.pos p + 1) in Hj. rewrite N.testbit_odd_succ' in Hj.
    specialize (IH i Hj). lia.
  - change (N.pos p~0) with (2 * N.pos p) in Hj. rewrite N.testbit_even_succ' in Hj.
    specialize (IH i Hj). lia.
  - change 1 with (2 * 0 + 1) in Hj. by rewrite N.testbit_odd_succ' in Hj.
Qed.

Lemma subset_charge_spec m :
  in_range m -> set_charge charge (decode m) <= u64_max ->
  Exact.subset_charge m charges = Ok (set_charge charge (decode m)).
Proof.
  intros Hm Hmax. unfold Exact.subset_charge.
  apply (subset_charge_loop_spec (N.of_nat (N.size_nat m)) _ m 0 0); [done | lia | | lia | done].
  apply size_nat_bits.
Qed.
End masks.

(** * Frontiers *)

(** The frontier reaches [s] at a cost of at most [v]. *)
Definition has (frontier : gmap N N) (s v : N) : Prop :=
  exists v', frontier !! s = Some v' /\ v' <= v.

Definition improves (f f' : gmap N N) : Prop := forall s v, has f s v -> has f' s v.

Lemma lookup_insert_minimum f s v t w :
  Exact.insert_minimum f s v !! t = Some w -> f !! t = Some w \/ (t = s /\ w = v).
Proof.
  unfold Exact.insert_minimum. rewrite lookup_insert. case_decide as E; [subst t|by left].
  destruct (f !! s) as [v'|]; intros [= <-]; [|by right].
  destruct (N.min_spec v' v) as [[_ ->]|[_ ->]]; auto.
Qed.

Lemma has_insert_minimum f s v : has (Exact.insert_minimum f s v) s v.
Proof.
  unfold has, Exact.insert_minimum. rewrite lookup_insert_eq.
  destruct (f !! s); eexists; split; try done; lia.
Qed.

Lemma improves_insert_minimum f s v : improves f (Exact.insert_minimum f s v).
Proof.
  intros t w (w' & Ht & Hw). unfold has, Exact.insert_minimum. rewrite lookup_insert.
  case_decide as E; [|by exists w']. subst t. rewrite Ht. eexists. split; [done | lia].
Qed.

#[export] Instance improves_preorder : PreOrder improves.
Proof. split; [by intros ???? | by intros ??? H1 H2 s v ?; apply H2, H1]. Qed.

(** The oracle gives up only on an exhausted budget or a counter overflow. *)
Definition gives_up (e : SimError) : Prop := overflow_only e \/ exists m, e = ExactOracleLimit m.

Lemma consume_spec explored maximum :
  post (Exact.consume_state_budget explored maximum) (fun _ => True) gives_up.
Proof.
  unfold Exact.consume_state_budget. apply post_bind, post_checked_add; [|right; eauto].
  intros _. apply post_bind, post_guard; [right; eauto | done].
Qed.

Section frontier.
Context (ordered : list N) (Hnd : NoDup ordered) (charge cost : N -> N) (capacity maximum : N).
Context (Hcap : capacity <= u64_max).
Abbreviation charges := (charge <$> ordered).
Abbreviation costs := (cost <$> ordered).
Abbreviation fits := (byte_fits charge capacity).
Abbreviation dec := (decode ordered).
Abbreviation mask i := (N.shiftl 1 (N.of_nat i)).

Lemma fits_subset X Y : X ⊆ Y -> fits Y -> fits X.
Proof. intros H. unfold byte_fits. pose proof (set_charge_subset charge X Y H). lia. Qed.

(** What one demand of [p], at bit [i], makes of a state and its cost. *)
Definition successor (i : nat) (p s v t w : N) : Prop :=
  if decide (p ∈ dec s) then t = s /\ w = v
  else w = v + cost p
       /\ (t = s \/ exists r, submask r s /\ t = N.lor r (mask i) /\ fits ({[p]} ∪ dec r)).

Lemma submask_loop_spec fuel i p s miss retained explored next :
  ordered !! i = Some p -> in_range ordered s -> fits (dec s) -> p ∉ dec s ->
  submask retained s -> (N.to_nat retained < fuel)%nat ->
  post (Exact.submask_loop fuel charges (charge p) capacity maximum (mask i) s miss retained explored next)
    (fun '(_, next') => improves next next'
       /\ (forall r, submask r s -> r <= retained -> fits ({[p]} ∪ dec r) -> has next' (N.lor r (mask i)) miss)
       /\ (forall t w, next' !! t = Some w -> next !! t = Some w
             \/ (w = miss /\ exists r, submask r s /\ t = N.lor r (mask i) /\ fits ({[p]} ∪ dec r))))
    gives_up.
Proof.
  intros Hi Hs Hfit Hp. revert retained explored next.
  induction fuel as [|fuel IH]; intros ret explored next Hret Hfuel; [lia|]. cbn [Exact.submask_loop].
  apply post_bind. eapply post_strengthen; [apply consume_spec|]. intros e' _.
  pose proof (decode_submask ordered ret s Hret) as Hsub.
  pose proof (set_charge_subset charge _ _ Hsub) as Hle. unfold byte_fits in Hfit.
  rewrite (subset_charge_spec ordered Hnd charge ret); [|by eapply in_range_submask | lia].
  apply post_bind, post_ok.
  assert (set_charge charge ({[p]} ∪ dec ret) = charge p + set_charge charge (dec ret)) as Hch.
  { apply set_charge_union. set_solver. }
  set (next1 := match checked_add u64_max _ _ with Some _ => _ | None => _ end).
  assert (improves next next1
    /\ (fits ({[p]} ∪ dec ret) -> has next1 (N.lor ret (mask i)) miss)
    /\ (forall t w, next1 !! t = Some w -> next !! t = Some w
          \/ (w = miss /\ t = N.lor ret (mask i) /\ fits ({[p]} ∪ dec ret)))) as (Himp & Hhas & Hnew).
  { unfold next1, checked_add, byte_fits. rewrite Hch.
    destruct (N.leb_spec (set_charge charge (dec ret) + charge p) u64_max); [|split_and!; [done | lia | auto]].
    destruct (N.leb_spec (set_charge charge (dec ret) + charge p) capacity); [|split_and!; [done | lia | auto]].
    split_and!; [apply improves_insert_minimum | intros _; apply has_insert_minimum|].
    intros t w [?|[-> ->]]%lookup_insert_minimum; [by left | right]. split_and!; [done | done | lia]. }
  clearbody next1. destruct (N.eqb_spec ret 0) as [->|Hr0].
  - apply post_ok. split_and!; [done | |].
    + intros r Hr Hr0. assert (r = 0) as -> by lia. done.
    + intros t w [?|(-> & -> & ?)]%Hnew; [by left|]. right. split; [done|]. by exists 0.
  - assert (submask (N.land (ret - 1) s) s) as Hnext.
    { unfold submask. by rewrite <- N.land_assoc, N.land_diag. }
    assert (N.land (ret - 1) s <= ret - 1) as Hdown by apply N.land_le_l.
    eapply post_strengthen; [apply IH; [done | lia]|]. intros [e2 next2] (Hi2 & Hh2 & Hn2).
    split_and!; [by etrans | |].
    + intros r Hr Hle' Hf. destruct (decide (r = ret)) as [->|Hne]; [by apply Hi2, Hhas|].
      apply Hh2; [done | | done]. apply submask_next; [done | done | lia].
    + intros t w [[?|(-> & -> & ?)]%Hnew|?]%Hn2; [by left | right; eauto | by right].
Qed.

Lemma page_bit i p s : ordered !! i = Some p ->
  negb (N.land s (mask i) =? 0) = bool_decide (p ∈ dec s).
Proof.
  intros Hi. apply eq_bool_prop_intro. rewrite bool_decide_spec, (decode_bit ordered Hnd s i p Hi).
  rewrite negb_True, Is_true_false, N.eqb_neq. split.
  - intros H. destruct (N.testbit s (N.of_nat i)) eqn:Hb; [done|]. destruct H.
    apply N.bits_inj. intros j. rewrite N.land_spec, testbit_page, N.bits_0.
    destruct (N.eqb_spec (N.of_nat i) j) as [<-|]; [by rewrite Hb | apply andb_false_r].
  - intros Hb H. assert (N.testbit (N.land s (mask i)) (N.of_nat i) = false) as Hf by by rewrite H.
    by rewrite N.land_spec, testbit_page, Hb, N.eqb_refl in Hf.
Qed.

Lemma expand_state_spec i p s v explored next :
  ordered !! i = Some p -> in_range ordered s -> fits (dec s) ->
  post (Exact.expand_state charges costs capacity maximum i (explored, next) (s, v))
    (fun '(_, next') => improves next next'
       /\ (forall t w, successor i p s v t w -> has next' t w)
       /\ (forall t w, next' !! t = Some w -> next !! t = Some w \/ successor i p s v t w))
    gives_up.
Proof.
  intros Hi Hs Hfit. unfold Exact.expand_state, successor. rewrite (page_bit i p s Hi).
  destruct (decide (p ∈ dec s)) as [Hp|Hp].
  - rewrite bool_decide_eq_true_2 by done. apply post_bind.
    eapply post_strengthen; [apply consume_spec|]. intros e' _. apply post_ok.
    split_and!; [apply improves_insert_minimum | |].
    + intros t w [-> ->]. apply has_insert_minimum.
    + intros t w [?|?]%lookup_insert_minimum; auto.
  - rewrite bool_decide_eq_false_2 by done. rewrite !list_lookup_fmap, Hi.
    cbn [fmap option_fmap option_map expect mbind result_bind].
    apply post_bind, post_checked_add; [intros _ | by left; eexists].
    apply post_bind. eapply post_strengthen; [apply consume_spec|]. intros e' _.
    assert (improves next (Exact.insert_minimum next s (v + cost p))) as Himp
      by apply improves_insert_minimum.
    pose proof (has_insert_minimum next s (v + cost p)) as Hself.
    pose proof (lookup_insert_minimum next s (v + cost p)) as Hold.
    set (next1 := Exact.insert_minimum next s (v + cost p)) in *. clearbody next1.
    destruct (N.leb_spec (charge p) capacity) as [Hle|Hgt].
    + eapply post_strengthen; [apply (submask_loop_spec _ i p); [done..| apply N.land_diag | lia]|].
      intros [e2 next2] (Hi2 & Hh2 & Hn2). split_and!; [by etrans | |].
      * intros t w [-> [->|(r & Hr & -> & Hf)]]; [by apply Hi2 | apply Hh2; try done].
        rewrite <- Hr. apply N.land_le_r.
      * intros t w [[?|[-> ->]]%Hold|[-> ?]]%Hn2; [by left | by right; auto | by right; auto].
    + apply post_ok. split_and!; [done | |].
      * intros t w [-> [->|(r & Hr & -> & Hf)]]; [done|]. exfalso. unfold byte_fits in Hf.
        pose proof (set_charge_subset charge {[p]} ({[p]} ∪ dec r) ltac:(set_solver)) as H.
        unfold set_charge in H at 1. rewrite elements_singleton in H. simpl in H. lia.
      * intros t w [?|[-> ->]]%Hold; [by left | by right; auto].
Qed.

(** One demand expands every state of the frontier. *)
Lemma expand_frontier_spec i p f explored :
  ordered !! i = Some p ->
  (forall s v, f !! s = Some v -> in_range ordered s /\ fits (dec s)) ->
  post (try_fold (Exact.expand_state charges costs capacity maximum i) (explored, ∅) (btree_iter f))
    (fun '(_, next) =>
       (forall s v t w, f !! s = Some v -> successor i p s v t w -> has next t w)
       /\ (forall t w, next !! t = Some w -> exists s v, f !! s = Some v /\ successor i p s v t w))
    gives_up.
Proof.
  intros Hi Hf.
  eapply post_strengthen; [apply (post_try_fold _ _ (fun dn '(_, next) =>
    (forall s v t w, (s, v) ∈ dn -> successor i p s v t w -> has next t w)
    /\ (forall t w, next !! t = Some w -> exists s v, (s, v) ∈ dn /\ successor i p s v t w)))|].
  - split; [set_solver|]. intros t w. by rewrite lookup_empty.
  - intros dn [s v] rest [e next] Hl [Hc Hs].
    assert (f !! s = Some v) as Hsv. { apply elem_of_btree_iter. rewrite Hl. set_solver. }
    destruct (Hf s v Hsv) as [Hr Hfit].
    eapply post_strengthen; [by apply (expand_state_spec i p)|]. intros [e' next'] (Himp & Hh & Hn).
    split.
    + intros s' v' t w [?|[= -> ->]%list_elem_of_singleton]%elem_of_app ?; [eapply Himp, Hc | apply Hh]; done.
    + intros t w [(s' & v' & ? & ?)%Hs|?]%Hn; [exists s', v' | exists s, v]; set_solver.
  - intros [e next] [Hc Hs]. split.
    + intros s v t w Hsv. apply Hc. by apply elem_of_btree_iter.
    + intros t w (s & v & Hin & ?)%Hs. exists s, v. split; [by apply elem_of_btree_iter | done].
Qed.

(** ** The dynamic program is sound and complete for schedules *)

Abbreviation sched := (serves fits cost).

Record solves (dn : list N) (f : gmap N N) : Prop := {
  sol_range : forall s v, f !! s = Some v -> in_range ordered s /\ fits (dec s);
  sol_sound : forall s v rs d, f !! s = Some v -> sched (dec s) rs d -> sched ∅ (dn ++ rs) (v + d);
  sol_complete : forall rs d, sched ∅ (dn ++ rs) d ->
    exists s v d', f !! s = Some v /\ sched (dec s) rs d' /\ v + d' <= d
}.

Lemma solves_start : solves [] {[0 := 0]}.
Proof.
  assert (fits ∅) as Hempty by (unfold byte_fits, set_charge; rewrite elements_empty; simpl; lia).
  split.
  - intros s v [<- <-]%lookup_singleton_Some. rewrite decode_zero. split; [|done].
    intros j. by rewrite N.bits_0.
  - intros s v rs d [<- <-]%lookup_singleton_Some. by rewrite decode_zero.
  - intros rs d H. exists 0, 0, d. rewrite decode_zero. split; [apply lookup_singleton_eq|]. split; [done | lia].
Qed.

Lemma successor_state i p s v t w :
  ordered !! i = Some p -> in_range ordered s -> fits (dec s) -> successor i p s v t w ->
  in_range ordered t /\ fits (dec t).
Proof.
  intros Hi Hr Hf. unfold successor. case_decide; [by intros [-> _]|].
  intros [_ [->|(r & Hsub & -> & Hfit)]]; [done|]. split.
  - eapply in_range_add; [by eapply in_range_submask | done].
  - by rewrite (decode_add ordered r i p Hi).
Qed.

Lemma successor_serves i p s v t w rs d :
  ordered !! i = Some p -> fits (dec s) -> successor i p s v t w ->
  sched (dec t) rs d -> exists d', sched (dec s) (p :: rs) d' /\ v + d' = w + d.
Proof.
  intros Hi Hf. unfold successor. destruct (decide (p ∈ dec s)) as [Hp|Hp].
  - intros [-> ->] H. exists d. split; [by apply (serves_hit fits cost (dec s) (dec s)) | done].
  - intros [-> Ht] H. exists (cost p + d). split; [|lia]. apply (serves_miss _ _ _ (dec t)); [done | | | done].
    + destruct Ht as [->|(r & Hsub & -> & _)]; [set_solver|]. rewrite (decode_add ordered r i p Hi).
      pose proof (decode_submask ordered r s Hsub). set_solver.
    + destruct Ht as [->|(r & Hsub & -> & ?)]; [done|]. by rewrite (decode_add ordered r i p Hi).
Qed.

Lemma serves_successor i p s v rs d :
  ordered !! i = Some p -> sched (dec s) (p :: rs) d ->
  exists t w, successor i p s v t w /\ exists d', sched (dec t) rs d' /\ w + d' <= v + d.
Proof.
  intros Hi H. unfold successor.
  inversion H as [|S S' q rs' d1 Hp HS Hrest|S S' q rs' d1 Hp HS Hfit Hrest]; subst.
  - exists s, v. rewrite decide_True by done. split; [done|].
    apply (serves_mono fits cost _ (dec s)) in Hrest as (d2 & Hd & Hr); [|done]. exists d2. split; [done | lia].
  - destruct (decide (p ∈ S')) as [Hin|Hin].
    + destruct (encode_subset ordered s (S' ∖ {[p]})) as (r & Hr & Hdec); [set_solver|].
      assert ({[p]} ∪ dec r = S') as E.
      { rewrite Hdec. apply set_eq. intros x. destruct (decide (x = p)); set_solver. }
      exists (N.lor r (mask i)), (v + cost p). rewrite decide_False by done. split.
      * split; [done|]. right. exists r. by rewrite E.
      * exists d1. rewrite (decode_add ordered r i p Hi), E. split; [done | lia].
    + exists s, (v + cost p). rewrite decide_False by done. split; [by auto|].
      apply (serves_mono fits cost _ (dec s)) in Hrest as (d2 & Hd & Hr); [|set_solver].
      exists d2. split; [done | lia].
Qed.

Lemma solves_step bits f explored dn p i :
  bits !! p = Some i -> ordered !! i = Some p -> solves dn f ->
  post (Exact.step_demand bits charges costs capacity maximum (f, explored) p)
    (fun '(f', _) => solves (dn ++ [p]) f') gives_up.
Proof.
  intros Hb Hi [Hr Hs Hc]. unfold Exact.step_demand. rewrite Hb. apply post_bind, post_ok, post_bind.
  eapply post_strengthen; [by apply (expand_frontier_spec i p)|]. intros [e next] [Hh Hn].
  apply post_ok. split.
  - intros t w (s & v & Hsv & Hsucc)%Hn. destruct (Hr s v Hsv). by eapply successor_state.
  - intros t w rs d (s & v & Hsv & Hsucc)%Hn H. destruct (Hr s v Hsv) as [_ Hf].
    destruct (successor_serves _ _ _ _ _ _ _ _ Hi Hf Hsucc H) as (d' & Hd' & <-).
    rewrite <- app_assoc. by apply (Hs s v).
  - intros rs d. rewrite <- app_assoc. intros (s & v & d' & Hsv & H & Hle)%Hc.
    destruct (serves_successor i p s v rs d' Hi H) as (t & w & Hsucc & d2 & H2 & Hle2).
    destruct (Hh s v t w Hsv Hsucc) as (w' & Ht & Hw). exists t, w', d2. split_and!; [done | done | lia].
Qed.

Lemma serves_something S rs : exists d, sched S rs d.
Proof.
  clear Hnd Hcap ordered maximum. revert S. induction rs as [|p rs IH]; intros S; [exists 0; constructor|].
  destruct (decide (p ∈ S)) as [Hp|Hp].
  - destruct (IH S) as [d Hd]. exists d. by apply (serves_hit fits cost S S).
  - destruct (IH ∅) as [d Hd]. exists (cost p + d). apply (serves_miss fits cost S ∅); [done | set_solver | | done].
    unfold byte_fits, set_charge. rewrite elements_empty. simpl. lia.
Qed.
End frontier.

(** * The oracle *)

Section oracle.
Context (limits : SimLimits.t) (trace : ValidatedTrace.t) `{Hok : !TraceOk limits trace}.
Abbreviation events := (ValidatedTrace.events trace).

Lemma lookup_bits (l : list N) p i :
  NoDup l -> l !! i = Some p ->
  (list_to_map (imap (fun bit page => (page, bit)) l) : gmap N nat) !! p = Some i.
Proof.
  intros Hnd Hi. apply elem_of_list_to_map.
  - replace ((imap (fun bit page => (page, bit)) l).*1) with l; [done|]. clear.
    rewrite fmap_imap. rewrite (imap_ext _ (fun _ => id)) by done.
    rewrite (imap_const id), list_fmap_id. done.
  - apply elem_of_lookup_imap. by exists i, p.
Qed.

Lemma descriptors_spec l :
  (forall p, p ∈ l -> p ∈ demands events) ->
  exists ds, mapM (ValidatedTrace.page trace) l = Ok ds
    /\ PageDescriptor.charge_bytes <$> ds = page_charge trace <$> l
    /\ PageDescriptor.logical_bytes <$> ds = page_cost trace <$> l.
Proof.
  induction l as [|p l IH]; intros Hl; [by exists []|].
  destruct IH as (ds & Hds & Hc & Hk); [set_solver|].
  destruct (demanded_known limits trace p) as (pg & Hpg & _); [set_solver|].
  assert (ValidatedTrace.page trace p = Ok pg) as Hp by exact Hpg.
  assert (page_charge trace p = PageDescriptor.charge_bytes pg
          /\ page_cost trace p = PageDescriptor.logical_bytes pg) as [Ec Ek].
  { unfold page_charge, page_cost. by rewrite Hpg. }
  exists (pg :: ds). rewrite !fmap_cons, Hc, Hk, Ec, Ek. split; [|done].
  cbn [mapM]. rewrite Hp. cbn [mbind result_bind]. by rewrite Hds.
Qed.

Lemma solves_optimum ordered capacity f m :
  capacity <= u64_max ->
  solves ordered (page_charge trace) (page_cost trace) capacity (demands events) f ->
  min_by_key (fun c => [Z.of_N c]) (btree_values f) = Some m -> optimum trace capacity m.
Proof.
  intros Hcap [_ Hs Hc] Hm. apply min_by_key_Some in Hm as [Hin Hleast]. split.
  - apply elem_of_btree_values in Hin as (s & Hsv). unfold schedule.
    specialize (Hs s m [] 0 Hsv). rewrite app_nil_r, N.add_0_r in Hs. apply Hs. constructor.
  - intros d Hd. destruct (Hc [] d) as (s & v & d' & Hsv & _ & Hle); [by rewrite app_nil_r|].
    assert (v ∈ btree_values f) as Hv by (apply elem_of_btree_values; eauto).
    specialize (Hleast v Hv). unfold by_key in Hleast. simpl in Hleast. lia.
Qed.

Lemma exact_spec capacity :
  capacity <= u64_max ->
  post (Exact.exact_variable_byte_cost trace capacity limits) (optimum trace capacity) gives_up.
Proof.
  intros Hcap. unfold Exact.exact_variable_byte_cost.
  assert (forall m, gives_up (ExactOracleLimit m)) as Hlim by (right; eauto).
  apply post_bind, post_guard; [auto | intros _]. apply post_bind, post_guard; [auto | intros _].
  apply post_bind, post_guard; [auto | intros _].
  change (Exact.demands_of trace) with (demands events).
  destruct (demands events) as [|d0 ds0] eqn:Hds.
  { apply post_ok. unfold optimum, schedule. rewrite Hds. split; [constructor | lia]. }
  rewrite <- Hds. set (ordered := Belady.btree_set (list_to_set (demands events))).
  assert (ordered ≡ₚ elements (list_to_set (demands events) : gset N)) as Hperm by apply sort_by_key_perm.
  assert (NoDup ordered) as Hnd by (rewrite Hperm; apply NoDup_elements).
  assert (forall p, p ∈ ordered <-> p ∈ demands events) as Hin.
  { intros p. by rewrite Hperm, elem_of_elements, elem_of_list_to_set. }
  clearbody ordered. destruct (descriptors_spec ordered) as (descs & -> & Hc & Hk); [naive_solver|].
  apply post_bind, post_ok. rewrite Hc, Hk. apply post_bind.
  eapply post_strengthen; [apply (post_try_fold _ _ (fun dn '(f, _) =>
    solves ordered (page_charge trace) (page_cost trace) capacity dn f))|].
  - by apply solves_start.
  - intros dn p rest [f e] Hl Hf. assert (p ∈ ordered) as (i & Hi)%list_elem_of_lookup
      by (apply Hin; rewrite Hl; set_solver).
    by apply (solves_step ordered Hnd _ _ _ _ Hcap _ _ _ _ p i); [apply lookup_bits|..].
  - intros [f e] Hf. destruct (min_by_key _ (btree_values f)) as [m|] eqn:Hm.
    + by apply (solves_optimum ordered capacity f).
    + exfalso. apply min_by_key_None in Hm.
      destruct (serves_something (page_charge trace) (page_cost trace) capacity ∅ (demands events)) as [d Hd].
      destruct (sol_complete _ _ _ _ _ _ Hf [] d) as (s & v & _ & Hsv & _); [by rewrite app_nil_r|].
      assert (v ∈ btree_values f) as Hv by (apply elem_of_btree_values; eauto).
      rewrite Hm in Hv. by apply elem_of_nil in Hv.
Qed.
End oracle.
