(* ===== verification/SimContract.v ===== *)
(** The contracts of the simulator: of [simulate] for every policy, of the two
    offline oracles, of the trace codec, of the TinyLFU sketch, of the victim
    plans and of speculation. *)
From stdpp Require Import prelude gmap strings sorting.
From S2P Require Import Prelude SimModel SimPolicy SimOracle SimEngine SimTrace SimTraceOk.
From S2P Require Import SimTinyLfu SimPolicyFacts SimEngineFacts SimRun SimDemand Paging SimBelady.
From S2P Require Import SimOnline SimExact.
#[local] Open Scope N_scope.
#[local] Arguments u64_max : simpl never.
#[local] Arguments TinyLfu.splitmix : simpl never.

(** The limits are [usize] values. *)
Definition limits_typed (limits : SimLimits.t) : Prop :=
  SimLimits.max_trace_bytes limits <= usize_max /\ SimLimits.max_events limits <= usize_max.

(** What a successful simulation reports. *)
Record reported (trace : ValidatedTrace.t) (config : SimulationConfig.t) (r : SimulationResult.t)
    : Prop := {
  rpt_id : SimulationResult.trace_id r = TraceHeader.trace_id (ValidatedTrace.header trace);
  rpt_sha : SimulationResult.trace_sha256 r = ValidatedTrace.sha256 trace;
  rpt_policy : SimulationResult.policy_spec r = SimulationConfig.policy config;
  rpt_capacity : SimulationResult.capacity_bytes r = SimulationConfig.capacity_bytes config;
  rpt_optimal : SimulationResult.oracle_optimal r = true
    <-> SimulationConfig.policy config = PolicySpec.Belady;
  rpt_accounting : accounting (SimulationResult.metrics r) 0 0 settled;
  rpt_total : SimulationResult.metrics r total_physical_load_bytes
    = SimulationResult.metrics r demand_load_bytes + SimulationResult.metrics r prefetch_load_bytes;
  rpt_resident : SimulationResult.metrics r final_resident_charge_bytes
    <= SimulationResult.metrics r peak_resident_charge_bytes <= SimulationConfig.capacity_bytes config
}.

(** The errors a simulation of a validated trace can end in. *)
Definition refused (trace : ValidatedTrace.t) (spec : PolicySpec.t) (e : SimError) : Prop :=
  overflow_only e
  \/ match spec with PolicySpec.Belady => unsupported trace e | _ => rejected spec e end.

Section trace.
Context (limits : SimLimits.t) (trace : ValidatedTrace.t) `{Hok : !TraceOk limits trace}.

Lemma simulate_spec sha256_hex config :
  config_typed config -> lenN (ValidatedTrace.events trace) <= u64_max ->
  post (simulate sha256_hex trace config) (reported trace config)
    (refused trace (SimulationConfig.policy config)).
Proof.
  intros Ht Hlen. unfold simulate, refused.
  destruct (SimulationConfig.policy config) eqn:Hp.
  7: { apply post_bind. eapply post_mono; [apply (belady_spec limits trace); [apply Ht | done] | | done].
       intros [[m digest] optimal] (-> & _ & Ha & Htot & Hr). apply post_ok.
       split; simpl; try done; rewrite Hp; done. }
  all: eapply post_mono with (Q := fun r => reported trace config r)
         (X := fun e => overflow_only e \/ rejected (SimulationConfig.policy config) e);
       [| done | by rewrite Hp].
  all: pose proof (run_spec limits trace sha256_hex config Ht) as Hrun.
  all: revert Hrun; destruct (Kernel.new trace config) as [k|e|]; [|done..]; simpl.
  all: destruct (Kernel.run sha256_hex trace k) as [[m digest]|e|]; [|done..]; simpl.
  all: intros [_ [Ha Htot Hf _]]; split; simpl; try done; rewrite Hp; done.
Qed.

(** Whatever [simulate] returns for an online policy comes from the kernel. *)
Lemma simulate_online sha256_hex config r :
  SimulationConfig.policy config <> PolicySpec.Belady ->
  simulate sha256_hex trace config = Ok r ->
  exists digest, (k ← Kernel.new trace config; Kernel.run sha256_hex trace k)
                 = Ok (SimulationResult.metrics r, digest).
Proof.
  unfold simulate. intros Hp. destruct (SimulationConfig.policy config); try done.
  all: destruct (Kernel.new trace config) as [k|e|]; simpl; try done.
  all: destruct (Kernel.run sha256_hex trace k) as [[m d]|e|]; simpl; try done.
  all: intros [= <-]; by exists d.
Qed.

Lemma simulate_belady_metrics sha256_hex capacity r :
  simulate sha256_hex trace (SimulationConfig.mk capacity PolicySpec.Belady) = Ok r ->
  exists digest optimal, Belady.simulate_belady (fun s => sha256_hex (string_bytes s)) trace capacity
    = Ok (SimulationResult.metrics r, digest, optimal).
Proof.
  unfold simulate. simpl. destruct (Belady.simulate_belady _ _ _) as [[[m d] o]|e|]; simpl; try done.
  intros [= <-]. by exists d, o.
Qed.

Lemma optimum_unique capacity c c' : optimum trace capacity c -> optimum trace capacity c' -> c = c'.
Proof. intros [H1 H2] [H3 H4]. specialize (H2 _ H3). specialize (H4 _ H1). lia. Qed.
End trace.

(** * Parsed traces *)

Section parsed.
Context `{HJ : SerdeJson TraceHeader.t} `{PJ : SerdeJson PageDescriptor.t}
        `{EJ : SerdeJson TraceEvent.t}.
Context (sha256_hex : list N -> string).

Lemma parse_ok bytes limits trace :
  parse_trace sha256_hex bytes limits = Ok trace -> parsed sha256_hex bytes limits trace.
Proof. intros H. pose proof (parse_trace_spec sha256_hex bytes limits) as Hp. by rewrite H in Hp. Qed.

Lemma header_events header limits :
  validate_header header limits = Ok tt -> TraceHeader.event_count header <= SimLimits.max_events limits.
Proof.
  unfold validate_header. intros H.
  repeat match type of H with
    | (guard_err ?b ?e ≫= _) = _ => let G := fresh "G" in
        destruct b eqn:G; [done|]; cbn [guard_err mbind result_bind] in H
    | (?m ≫= _) = _ => destruct m; [|done..]; cbn [mbind result_bind] in H
    end.
  by apply N.ltb_ge.
Qed.

Lemma parsed_events_width bytes limits trace :
  limits_typed limits -> parsed sha256_hex bytes limits trace ->
  lenN (ValidatedTrace.events trace) <= u64_max.
Proof.
  intros [_ Hl] Hp. rewrite <- (parsed_events _ _ _ _ Hp).
  pose proof (header_events _ _ (parsed_header _ _ _ _ Hp)). unfold usize_max in Hl. lia.
Qed.
End parsed.

(** * A small trace, for examples

    The record codec is a table: record number [i] is the byte [65 + i]. *)

Definition table_json {T} `{EqDecision T} (rows : list (N * T)) : SerdeJson T := {|
  from_slice line := match line with
                     | [b] => (fun ir => ir.2.2) <$> list_find (fun r => r.1 = b) rows
                     | _ => None
                     end;
  to_vec value := (fun ir => [ir.2.1]) <$> list_find (fun r => r.2 = value) rows
|}.

Definition demo_header : TraceHeader.t :=
  TraceHeader.mk HEADER_KIND TRACE_SCHEMA "demo" 3 5 4 PREFETCH_MODEL.
Definition demo_pages : list PageDescriptor.t :=
  [PageDescriptor.mk 0 3 4 PageClass.Shared; PageDescriptor.mk 1 3 4 (PageClass.Expert 0 0 0);
   PageDescriptor.mk 2 3 4 (PageClass.Expert 0 1 0)].
Definition demo_events : list TraceEvent.t :=
  [TraceEvent.RouterSignal 0 1 2 0 [ExpertPrediction.mk 0 500000]; TraceEvent.Demand 1 1 1 0;
   TraceEvent.Demand 2 1 2 1; TraceEvent.Demand 3 1 3 2; TraceEvent.Demand 4 1 4 0].
#[local] Instance demo_header_json : SerdeJson TraceHeader.t := table_json [(65, demo_header)].
#[local] Instance demo_page_json : SerdeJson PageDescriptor.t := table_json (zip [66; 67; 68] demo_pages).
#[local] Instance demo_event_json : SerdeJson TraceEvent.t :=
  table_json (zip [69; 70; 71; 72; 73] demo_events).
Definition demo_bytes : list N :=
  [65; 10; 66; 10; 67; 10; 68; 10; 69; 10; 70; 10; 71; 10; 72; 10; 73; 10].
Definition demo_sha : list N -> string := fun _ => "digest".
Definition demo_limits : SimLimits.t := SimLimits.default.
Definition demo_trace : ValidatedTrace.t :=
  ValidatedTrace.mk demo_header demo_pages {[0 := 0%nat; 1 := 1%nat; 2 := 2%nat]}
    {[(0, 0) := [1]; (0, 1) := [2]]} demo_events "digest".

Lemma demo_parsed : parse_trace demo_sha demo_bytes demo_limits = Ok demo_trace.
Proof. by vm_compute. Qed.
Lemma demo_typed : limits_typed demo_limits.
Proof. by split; vm_compute. Qed.
#[local] Instance demo_ok : TraceOk demo_limits demo_trace.
Proof. exact (parsed_ok _ _ _ _ (parse_ok _ _ _ _ demo_parsed)). Qed.

(** * Simulation *)

Section contract.
Context `{HJ : SerdeJson TraceHeader.t} `{PJ : SerdeJson PageDescriptor.t}
        `{EJ : SerdeJson TraceEvent.t}.

(** C1: Simulating a parsed trace never panics, for any policy and capacity.  A
    result echoes the trace and the configuration, claims optimality exactly for
    Belady, satisfies every accounting identity (hits and misses partition the
    demands, admitted, redundant and dropped partition the prefetch offers,
    useful and wasted partition the admitted prefetches, in pages and in bytes),
    totals its loads and never held more than the capacity.  An error is a
    counter overflow, a rejected configuration or, for Belady, a catalog without
    a uniform geometry. *)
Theorem simulate_contract sha256_bytes sha256_hex bytes limits trace config :
  parse_trace sha256_bytes bytes limits = Ok trace -> limits_typed limits -> config_typed config ->
  post (simulate sha256_hex trace config) (reported trace config)
    (refused trace (SimulationConfig.policy config)).
Proof.
  intros Hp%parse_ok Hl Hc. pose proof (parsed_ok _ _ _ _ Hp).
  apply (simulate_spec limits trace sha256_hex config Hc). by eapply parsed_events_width.
Qed.

(** C7: Belady's replay is optimal.  On a parsed trace with a uniform geometry it
    returns (counter overflow apart), and its demand load bytes are the least
    over all replacement schedules that respect the capacity at every step. *)
Theorem belady_optimal sha256_bytes sha256_hex bytes limits trace capacity :
  parse_trace sha256_bytes bytes limits = Ok trace -> limits_typed limits -> capacity <= u64_max ->
  post (simulate sha256_hex trace (SimulationConfig.mk capacity PolicySpec.Belady))
    (fun r => optimum trace capacity (SimulationResult.metrics r demand_load_bytes))
    (fun e => overflow_only e \/ unsupported trace e).
Proof.
  intros Hp%parse_ok Hl Hc. pose proof (parsed_ok _ _ _ _ Hp). unfold simulate. apply post_bind.
  eapply post_mono; [apply (belady_spec limits trace); [done | by eapply parsed_events_width] | | done].
  intros [[m d] o] (_ & Ho & _). by apply post_ok.
Qed.

(** C8: The exact oracle is exact.  On any parsed trace, uniform or not, the
    dynamic program over sets of resident pages returns the least load cost of
    any schedule within the capacity, or gives up on its declared limits; its
    bit-mask loops terminate and never index out of range. *)
Theorem exact_oracle_optimal sha256_bytes bytes limits trace capacity :
  parse_trace sha256_bytes bytes limits = Ok trace -> capacity <= u64_max ->
  post (Exact.exact_variable_byte_cost trace capacity limits) (optimum trace capacity) gives_up.
Proof.
  intros Hp%parse_ok Hc. pose proof (parsed_ok _ _ _ _ Hp). by apply (exact_spec limits).
Qed.

(** The two oracles agree wherever both answer. *)
Theorem oracles_agree sha256_bytes sha256_hex bytes limits trace capacity r c :
  parse_trace sha256_bytes bytes limits = Ok trace -> limits_typed limits -> capacity <= u64_max ->
  simulate sha256_hex trace (SimulationConfig.mk capacity PolicySpec.Belady) = Ok r ->
  Exact.exact_variable_byte_cost trace capacity limits = Ok c ->
  SimulationResult.metrics r demand_load_bytes = c.
Proof.
  intros Hp%parse_ok Hl Hc Hr He. pose proof (parsed_ok _ _ _ _ Hp).
  apply simulate_belady_metrics in Hr as (d & o & Hb).
  pose proof (belady_spec limits trace (fun s => sha256_hex (string_bytes s)) capacity Hc
    (parsed_events_width _ _ _ _ Hl Hp)) as H1. rewrite Hb in H1.
  pose proof (exact_spec limits trace capacity Hc) as H2. rewrite He in H2.
  destruct H1 as (_ & H1 & _). by eapply optimum_unique.
Qed.

(** C25: No policy beats the offline optimum: whatever a simulation loads, on
    demand and speculatively together, costs at least as much as the best
    schedule within the same capacity. *)
Theorem no_policy_beats_optimum sha256_bytes sha256_hex bytes limits trace config r c :
  parse_trace sha256_bytes bytes limits = Ok trace -> limits_typed limits -> config_typed config ->
  simulate sha256_hex trace config = Ok r ->
  optimum trace (SimulationConfig.capacity_bytes config) c ->
  c <= SimulationResult.metrics r total_physical_load_bytes.
Proof.
  intros Hp%parse_ok Hl Ht Hr Ho. pose proof (parsed_ok _ _ _ _ Hp) as Hok.
  assert (SimulationConfig.policy config = PolicySpec.Belady
          \/ SimulationConfig.policy config <> PolicySpec.Belady) as [Hb|Hb].
  { destruct (SimulationConfig.policy config); by (left + right). }
  - destruct config as [cap pol]. simpl in *. subst pol.
    apply simulate_belady_metrics in Hr as (d & o & Hr).
    pose proof (belady_spec limits trace (fun s => sha256_hex (string_bytes s)) cap (proj1 Ht)
      (parsed_events_width _ _ _ _ Hl Hp)) as H1. rewrite Hr in H1. destruct H1 as (_ & H1 & _ & Htot & _).
    rewrite (optimum_unique _ _ _ _ Ho H1). lia.
  - apply simulate_online in Hr as (d & Hr); [|done].
    apply (online_lower_bound limits trace _ sha256_hex config eq_refl Ht) in Hr as (c' & Hle & Hs).
    destruct Ho as [_ Ho]. specialize (Ho c' Hs). simpl in Hle. lia.
Qed.

(** C11: Under the LRU policy the kernel is a textbook LRU cache: its misses and
    demand load bytes are those of a list of pages in recency order that moves a
    hit page to the warm end and, on a miss of a page that fits the capacity,
    drops cold pages until the new one fits. *)
Theorem lru_refines_list_cache sha256_bytes sha256_hex bytes limits trace capacity :
  parse_trace sha256_bytes bytes limits = Ok trace -> limits_typed limits -> capacity <= u64_max ->
  let s := lru_run (page_charge trace) (page_cost trace) capacity (demands (ValidatedTrace.events trace)) in
  post (simulate sha256_hex trace (SimulationConfig.mk capacity PolicySpec.Lru))
    (fun r => SimulationResult.metrics r demand_load_bytes = loaded s
              /\ SimulationResult.metrics r demand_misses = misses s)
    overflow_only.
Proof.
  intros Hp%parse_ok Hl Hc s. pose proof (parsed_ok _ _ _ _ Hp) as Hok.
  pose proof (simulate_spec limits trace sha256_hex (SimulationConfig.mk capacity PolicySpec.Lru)
    (conj Hc I) (parsed_events_width _ _ _ _ Hl Hp)) as H.
  destruct (simulate sha256_hex trace _) as [r|e|] eqn:E; [|by destruct H as [?|[? _]]|done].
  apply simulate_online in E as (d & E); [|done].
  apply (lru_run_refines limits trace capacity sha256_hex _ eq_refl Hc) in E. exact E.
Qed.
End contract.

Lemma simulate_contract_witness :
  post (simulate demo_sha demo_trace (SimulationConfig.mk 8 (PolicySpec.Slru 500000)))
    (reported demo_trace (SimulationConfig.mk 8 (PolicySpec.Slru 500000)))
    (refused demo_trace (PolicySpec.Slru 500000)).
Proof.
  apply (simulate_contract demo_sha demo_sha demo_bytes demo_limits demo_trace
    (SimulationConfig.mk 8 (PolicySpec.Slru 500000))); [apply demo_parsed | apply demo_typed | by split; vm_compute].
Defined.
Lemma belady_optimal_witness :
  post (simulate demo_sha demo_trace (SimulationConfig.mk 8 PolicySpec.Belady))
    (fun r => optimum demo_trace 8 (SimulationResult.metrics r demand_load_bytes))
    (fun e => overflow_only e \/ unsupported demo_trace e).
Proof.
  apply (belady_optimal demo_sha demo_sha demo_bytes demo_limits);
    [apply demo_parsed | apply demo_typed | by vm_compute].
Defined.
Lemma exact_oracle_optimal_witness :
  post (Exact.exact_variable_byte_cost demo_trace 8 demo_limits) (optimum demo_trace 8) gives_up.
Proof. apply (exact_oracle_optimal demo_sha demo_bytes); [apply demo_parsed | by vm_compute]. Defined.
Lemma oracles_agree_witness :
  exists r, simulate demo_sha demo_trace (SimulationConfig.mk 8 PolicySpec.Belady) = Ok r
    /\ SimulationResult.metrics r demand_load_bytes = 9.
Proof.
  destruct (simulate demo_sha demo_trace (SimulationConfig.mk 8 PolicySpec.Belady)) as [r|e|] eqn:E;
    [|vm_compute in E; discriminate..].
  exists r. split; [done|].
  apply (oracles_agree demo_sha demo_sha demo_bytes demo_limits demo_trace 8 r 9);
    [apply demo_parsed | apply demo_typed | by vm_compute | exact E | by vm_compute].
Defined.
Lemma no_policy_beats_optimum_witness :
  exists r, simulate demo_sha demo_trace (SimulationConfig.mk 8 PolicySpec.Lru) = Ok r
    /\ forall c, optimum demo_trace 8 c -> c <= SimulationResult.metrics r total_physical_load_bytes.
Proof.
  destruct (simulate demo_sha demo_trace (SimulationConfig.mk 8 PolicySpec.Lru)) as [r|e|] eqn:E;
    [|vm_compute in E; discriminate..].
  exists r. split; [done|]. intros c Hc.
  apply (no_policy_beats_optimum demo_sha demo_sha demo_bytes demo_limits demo_trace
    (SimulationConfig.mk 8 PolicySpec.Lru) r c);
    [apply demo_parsed | apply demo_typed | by split; vm_compute | exact E | exact Hc].
Defined.
Lemma lru_refines_list_cache_witness :
  let s := lru_run (page_charge demo_trace) (page_cost demo_trace) 8 (demands demo_events) in
  post (simulate demo_sha demo_trace (SimulationConfig.mk 8 PolicySpec.Lru))
    (fun r => SimulationResult.metrics r demand_load_bytes = loaded s
              /\ SimulationResult.metrics r demand_misses = misses s)
    overflow_only.
Proof.
  apply (lru_refines_list_cache demo_sha demo_sha demo_bytes demo_limits);
    [apply demo_parsed | apply demo_typed | by vm_compute].
Defined.

(** * The trace codec *)

Section codec.
Context `{HJ : SerdeJson TraceHeader.t} `{PJ : SerdeJson PageDescriptor.t}
        `{EJ : SerdeJson TraceEvent.t}.
Context (sha256_hex : list N -> string).

(** The parser is sound and never panics, on any bytes and with any JSON
    codec.  What it accepts has dense page identities, positive sizes with
    logical bytes within the charge, an expert index that lists exactly the
    pages of each expert once; events numbered in order, demands of known pages
    whose steps do not regress, signals with distinct known experts, scores that
    sum to at most a million, a fresh target strictly ahead of the request and a
    later demand at that target; counts that match the header; and bytes that
    are exactly the canonical encodings of those records, one per line. *)
Theorem parse_trace_sound bytes limits :
  post (parse_trace sha256_hex bytes limits) (parsed sha256_hex bytes limits) (fun _ => True).
Proof. apply parse_trace_spec. Qed.

(** Parsing then serializing is the identity on accepted bytes. *)
Theorem parse_serialize_roundtrip bytes limits trace :
  limits_typed limits -> parse_trace sha256_hex bytes limits = Ok trace ->
  serialize_trace sha256_hex (ValidatedTrace.header trace) (ValidatedTrace.pages trace)
    (ValidatedTrace.events trace) limits = Ok bytes.
Proof. intros [Hl _]. by apply parsed_serialize. Qed.

(** Serializing then parsing gives the records back. *)
Theorem serialize_parse_roundtrip header pages events limits bytes :
  serialize_trace sha256_hex header pages events limits = Ok bytes ->
  exists trace, parse_trace sha256_hex bytes limits = Ok trace
    /\ ValidatedTrace.header trace = header /\ ValidatedTrace.pages trace = pages
    /\ ValidatedTrace.events trace = events /\ ValidatedTrace.sha256 trace = sha256_hex bytes.
Proof.
  intros (t & Ht & Hrest)%serialize_trace_spec. exists t. split; [done|].
  destruct Hrest as (? & ? & ?). split_and!; try done. exact (parsed_sha _ _ _ _ (parse_ok _ _ _ _ Ht)).
Qed.

(** The canonical form is unique: two accepted byte strings with the same
    header, catalog and events are the same bytes. *)
Theorem canonical_bytes_unique bytes bytes' limits limits' t t' :
  parse_trace sha256_hex bytes limits = Ok t -> parse_trace sha256_hex bytes' limits' = Ok t' ->
  ValidatedTrace.header t = ValidatedTrace.header t' ->
  ValidatedTrace.pages t = ValidatedTrace.pages t' ->
  ValidatedTrace.events t = ValidatedTrace.events t' -> bytes = bytes'.
Proof. intros H1%parse_ok H2%parse_ok. by eapply parsed_unique. Qed.
End codec.

Lemma parse_serialize_roundtrip_witness :
  serialize_trace demo_sha demo_header demo_pages demo_events demo_limits = Ok demo_bytes.
Proof.
  apply (parse_serialize_roundtrip demo_sha demo_bytes demo_limits demo_trace);
    [apply demo_typed | apply demo_parsed].
Defined.
Lemma serialize_parse_roundtrip_witness :
  exists trace, parse_trace demo_sha demo_bytes demo_limits = Ok trace
    /\ ValidatedTrace.header trace = demo_header /\ ValidatedTrace.pages trace = demo_pages
    /\ ValidatedTrace.events trace = demo_events /\ ValidatedTrace.sha256 trace = demo_sha demo_bytes.
Proof. apply (serialize_parse_roundtrip demo_sha). by vm_compute. Defined.
Lemma canonical_bytes_unique_witness : demo_bytes = demo_bytes.
Proof.
  apply (canonical_bytes_unique demo_sha demo_bytes demo_bytes demo_limits demo_limits demo_trace demo_trace);
    [apply demo_parsed | apply demo_parsed | reflexivity..].
Defined.

(** * Policies *)

(** The TinyLFU sketch never undercounts within a sample: after any accesses
    short of the next ageing, the estimate of every page is at least its number
    of accesses (capped at 16, the 4-bit counters plus the doorkeeper) and never
    above the cap, and no table access is out of range. *)
Theorem tiny_lfu_never_undercounts config sketch accesses :
  TinyLfu.new config = Ok sketch -> TinyLfuConfig.sample_accesses config <= u64_max ->
  lenN accesses < TinyLfuConfig.sample_accesses config ->
  exists sketch', try_fold TinyLfu.observe sketch accesses = Ok sketch'
    /\ forall page, exists estimate, TinyLfu.estimate sketch' page = Ok estimate
       /\ N.min (SKETCH_COUNTER_MAX + 1) (occurrences page accesses)
          <= estimate <= SKETCH_COUNTER_MAX + 1.
Proof.
  intros Hn Hw Hl. pose proof (SimTinyLfu.new_ok config Hw) as H. rewrite Hn in H.
  destruct H as (Ht & Ho & Hs). rewrite <- Hs in Hl.
  destruct (covers_run sketch accesses Ht Ho Hl) as (s & Hr & Hc & _). exists s. split; [done|].
  intros page. by apply covers_estimate.
Qed.
Lemma tiny_lfu_never_undercounts_witness :
  exists sketch', try_fold TinyLfu.observe (TinyLfu.mk 1 64 (replicate 64 0) (replicate 8 0) 100 0)
                    [7; 9; 7] = Ok sketch'
    /\ forall page, exists estimate, TinyLfu.estimate sketch' page = Ok estimate
       /\ N.min (SKETCH_COUNTER_MAX + 1) (occurrences page [7; 9; 7])
          <= estimate <= SKETCH_COUNTER_MAX + 1.
Proof.
  apply (tiny_lfu_never_undercounts (TinyLfuConfig.mk 1 64 100)); by vm_compute.
Defined.

(** The sketch keeps its shape for ever: any number of accesses, across any
    number of ageings, leaves every counter at most 15, the tables at their
    sizes and the access count below the sample. *)
Theorem tiny_lfu_keeps_shape config sketch accesses :
  TinyLfu.new config = Ok sketch -> TinyLfuConfig.sample_accesses config <= u64_max ->
  exists sketch', try_fold TinyLfu.observe sketch accesses = Ok sketch' /\ tiny_ok sketch'.
Proof.
  intros Hn Hw. pose proof (SimTinyLfu.new_ok config Hw) as H. rewrite Hn in H. destruct H as (Ht & _).
  clear Hn. revert sketch Ht. induction accesses as [|p l IH]; intros s Ht; [by exists s|].
  destruct (observe_spec s p Ht) as (s1 & E & Hs). simpl. rewrite E. simpl. apply IH, Hs.
Qed.
Lemma tiny_lfu_keeps_shape_witness :
  exists sketch', try_fold TinyLfu.observe (TinyLfu.mk 1 64 (replicate 64 0) (replicate 8 0) 2 0)
                    [7; 9; 7] = Ok sketch' /\ tiny_ok sketch'.
Proof. apply (tiny_lfu_keeps_shape (TinyLfuConfig.mk 1 64 2)); by vm_compute. Defined.

(** A demand victim plan is sufficient and frugal: the victims are distinct
    resident pages whose eviction makes room for the candidate, and they are the
    shortest prefix that does so of the residents ordered by segment, router
    score, last touch and page; the planner never panics. *)
Theorem demand_victims_frugal catalog policy residents plan :
  policy_ok policy -> residents_ok catalog residents ->
  DemandPlan.resident_bytes plan = charge_of residents ->
  charge_of residents <= DemandPlan.capacity_bytes plan <= u64_max ->
  post (PolicyState.plan_demand_victims policy catalog residents plan)
    (fun o => forall victims, o = Some victims ->
       plan_ok residents (DemandPlan.capacity_bytes plan)
         (PageDescriptor.charge_bytes (DemandPlan.candidate plan)) victims
       /\ frugal (victim_rank catalog policy (DemandPlan.request plan) (DemandPlan.step plan)) residents
            (PageDescriptor.charge_bytes (DemandPlan.candidate plan)
               - (DemandPlan.capacity_bytes plan - charge_of residents)) victims)
    overflow_only.
Proof. apply plan_demand_spec. Qed.

Definition demo_residents : Residents :=
  {[1 := ResidentEntry.mk 1 4 3 1 Segment.Probation false;
    2 := ResidentEntry.mk 2 4 3 2 Segment.Protected false]}.
Lemma demo_residents_ok : residents_ok (ValidatedTrace.catalog demo_trace) demo_residents.
Proof.
  unfold demo_residents.
  intros id e [[<- <-]|[_ [<- <-]%lookup_singleton_Some]]%lookup_insert_Some;
    (split; [done|]; eexists; split_and!; [by vm_compute | done | done]).
Qed.
Lemma demand_victims_frugal_witness :
  let plan := DemandPlan.mk 8 10 (PageDescriptor.mk 0 3 4 PageClass.Shared) 1 4 in
  post (PolicyState.plan_demand_victims (PolicyState.Slru 4) (ValidatedTrace.catalog demo_trace)
          demo_residents plan)
    (fun o => forall victims, o = Some victims ->
       plan_ok demo_residents 10 4 victims
       /\ frugal (victim_rank (ValidatedTrace.catalog demo_trace) (PolicyState.Slru 4) 1 4)
            demo_residents (4 - (10 - charge_of demo_residents)) victims)
    overflow_only.
Proof.
  apply (demand_victims_frugal (ValidatedTrace.catalog demo_trace) (PolicyState.Slru 4) demo_residents
    (DemandPlan.mk 8 10 (PageDescriptor.mk 0 3 4 PageClass.Shared) 1 4));
    [done | apply demo_residents_ok | by vm_compute | by split; vm_compute].
Defined.

(** C39: A hit keeps the segments in shape: promotion and the demotion loop that
    follows it terminate without a panic, change neither the resident pages nor
    their sizes, and leave the protected segment within its target. *)
Theorem hit_rebalances catalog policy residents page touch target :
  residents_ok catalog residents -> charge_of residents <= u64_max ->
  PolicyState.protected_target_of policy = Some target -> protected_bytes residents <= target ->
  post (PolicyState.on_hit policy residents page touch)
    (fun residents' => same_core residents' residents /\ protected_bytes residents' <= target)
    (fun _ => False).
Proof.
  intros Hr Hc Ht Hp. eapply post_strengthen; [by apply (on_hit_spec catalog)|].
  intros r' (Hs & _ & Hb & _). split; [done | by apply Hb].
Qed.
Lemma hit_rebalances_witness :
  post (PolicyState.on_hit (PolicyState.Slru 4) demo_residents 1 3)
    (fun residents' => same_core residents' demo_residents /\ protected_bytes residents' <= 4)
    (fun _ => False).
Proof.
  apply (hit_rebalances (ValidatedTrace.catalog demo_trace)); [apply demo_residents_ok | by vm_compute | done |].
  by vm_compute.
Defined.

(** Speculation stays within its budget: at any point of a simulation of a
    parsed trace, one router signal fills at most the configured pages and bytes,
    whatever its predictions, and keeps the kernel's invariant. *)
Theorem signal_within_budget `{SerdeJson TraceHeader.t} `{SerdeJson PageDescriptor.t}
    `{SerdeJson TraceEvent.t} sha256_hex bytes limits trace capacity dn rest
    sequence request target_step layer predictions kernel config :
  parse_trace sha256_hex bytes limits = Ok trace ->
  ValidatedTrace.events trace
    = dn ++ TraceEvent.RouterSignal sequence request target_step layer predictions :: rest ->
  between trace capacity dn kernel ->
  PolicyState.router_config (Kernel.policy kernel) = Some config ->
  post (Kernel.signal trace sequence request target_step layer predictions kernel)
    (fun kernel' =>
       Kernel.metrics kernel' prefetch_admitted
         <= Kernel.metrics kernel prefetch_admitted + RouterPolicyConfig.max_pages_per_signal config
       /\ Kernel.metrics kernel' prefetch_load_bytes
         <= Kernel.metrics kernel prefetch_load_bytes
            + RouterPolicyConfig.max_prefetch_bytes_per_signal config
       /\ charge_of (Kernel.residents kernel') <= capacity)
    overflow_only.
Proof.
  intros Hp%parse_ok He Hb Hc. pose proof (parsed_ok _ _ _ _ Hp) as Hok.
  eapply post_strengthen; [by apply (signal_spec limits trace capacity dn rest)|].
  intros k' [(Hk & _ & <-) Hbud]. destruct (Hbud config Hc) as [Hpages Hbytes].
  split; [exact Hpages|]. split; [exact Hbytes | apply Hk].
Qed.

Definition demo_router : RouterPolicyConfig.t := RouterPolicyConfig.mk 500000 100 2 2 100.
Lemma signal_within_budget_witness :
  exists kernel,
    Kernel.new demo_trace (SimulationConfig.mk 8 (PolicySpec.RouterPrefetch demo_router)) = Ok kernel
    /\ post (Kernel.signal demo_trace 0 1 2 0 [ExpertPrediction.mk 0 500000] kernel)
         (fun kernel' =>
            Kernel.metrics kernel' prefetch_admitted <= Kernel.metrics kernel prefetch_admitted + 2
            /\ Kernel.metrics kernel' prefetch_load_bytes
              <= Kernel.metrics kernel prefetch_load_bytes + 100
            /\ charge_of (Kernel.residents kernel') <= 8)
         overflow_only.
Proof.
  pose proof (kernel_new_spec demo_trace
    (SimulationConfig.mk 8 (PolicySpec.RouterPrefetch demo_router))) as Hn.
  destruct (Kernel.new demo_trace (SimulationConfig.mk 8 (PolicySpec.RouterPrefetch demo_router)))
    as [kernel|e|] eqn:E; [|vm_compute in E; discriminate..].
  exists kernel. split; [done|].
  apply (signal_within_budget demo_sha demo_bytes demo_limits demo_trace 8 [] (tail demo_events)
    0 1 2 0 [ExpertPrediction.mk 0 500000] kernel demo_router); [apply demo_parsed | done | |].
  - apply Hn. by split; vm_compute.
  - vm_compute in E. injection E as <-. done.
Defined.
