(* ===== verification/SimGenerator.v ===== *)
(** The synthetic trace generator (crates/runnel-sim/src/generator.rs): the
    workload families, the xoshiro256** words and the draws made from them, the
    causal predictor, and [generate_trace], which emits a trace, serializes it and
    parses it back.  SHA-256 and the hex encoding of a digest are the parameters
    [sha256] and [hex_encode]. *)
From stdpp Require Import prelude gmap strings pretty sorting.
From S2P Require Import Prelude SimModel SimEngine SimTrace.
#[local] Open Scope N_scope.

Definition EXPERT_COUNT : N := 128.
Definition PAGES_PER_EXPERT : N := 3.
Definition PAGE_BYTES : N := 65536.
Definition BURN_IN_STEPS : N := 512.
Definition PREDICTOR_AGE_INTERVAL : N := 256.
Definition PREDICTOR_MIN_SUPPORT : N := 8.
Definition PREDICTOR_MIN_SCORE_PPM : N := 100000.
Definition SCORE_SCALE : N := 1000000.
Definition LAYER : N := 0.
Definition DEFAULT_MEASURED_STEPS : N := 4096.

(** The rejection loop of [bounded] has no bound in the source, so it runs with
    fuel: [Drawing] is a run whose loop has rejected [fuel] words in a row. *)
Inductive Stop : Type :=
| Drawing
| Failed (e : SimError).
Abbreviation draws := (result Stop).

Module TraceFamily.
Inductive t : Type :=
| StationaryZipf
| ScanPollution
| PhaseShift
| CyclicPressure
| MarkovClusters
| IidUniform.

Definition ALL : list t :=
  [StationaryZipf; ScanPollution; PhaseShift; CyclicPressure; MarkovClusters; IidUniform].

Definition as_str (family : t) : string :=
  match family with
  | StationaryZipf => "stationary_zipf"
  | ScanPollution => "scan_pollution"
  | PhaseShift => "phase_shift"
  | CyclicPressure => "cyclic_pressure"
  | MarkovClusters => "markov_clusters"
  | IidUniform => "iid_uniform"
  end.

Definition trace_slug (family : t) : string :=
  match family with
  | StationaryZipf => "stationary-zipf"
  | ScanPollution => "scan-pollution"
  | PhaseShift => "phase-shift"
  | CyclicPressure => "cyclic-pressure"
  | MarkovClusters => "markov-clusters"
  | IidUniform => "iid-uniform"
  end.

Definition from_str (value : string) : result string t :=
  ok_or (snd <$> list_find (fun family => as_str family = value) ALL) "unknown trace family".
End TraceFamily.

#[export] Instance TraceFamily_eq_dec : EqDecision TraceFamily.t.
Proof. solve_decision. Defined.

(** * The generator's words *)

(** [u64::rotate_left], [u64::wrapping_neg] and [<<] on [u64]. *)
Definition rotate_left (x k : N) : N := N.lor (N.shiftl x k mod 2 ^ 64) (N.shiftr x (64 - k)).
Definition wrapping_neg (x : N) : N := (2 ^ 64 - x) mod 2 ^ 64.
Definition shift_left (x k : N) : N := N.shiftl x k mod 2 ^ 64.

Module Xoshiro256StarStar.
(** [state: [u64; 4]]. *)
Record t : Type := mk { state0 : N; state1 : N; state2 : N; state3 : N }.

#[export] Instance eq_dec : EqDecision t.
Proof. solve_decision. Defined.

(** The four little-endian words of [seed.chunks_exact(8)]. *)
Definition from_seed (seed : list N) : t :=
  let word i := from_le_bytes (take 8 (drop (8 * i) seed)) in
  let state := mk (word 0%nat) (word 1%nat) (word 2%nat) (word 3%nat) in
  if decide (state = mk 0 0 0 0) then mk 1 0 0 0 else state.

Definition next_u64 (g : t) : N * t :=
  let result := wrapping_mul u64_max (rotate_left (wrapping_mul u64_max (state1 g) 5) 7) 9 in
  let temporary := shift_left (state1 g) 17 in
  let s2 := N.lxor (state2 g) (state0 g) in
  let s3 := N.lxor (state3 g) (state1 g) in
  let s1 := N.lxor (state1 g) s2 in
  let s0 := N.lxor (state0 g) s3 in
  let s2 := N.lxor s2 temporary in
  let s3 := rotate_left s3 45 in
  (result, mk s0 s1 s2 s3).

(** The [loop] of [bounded]. *)
Fixpoint draw_loop (fuel : nat) (bound rejection_threshold : N) (g : t) : draws (N * t) :=
  match fuel with
  | O => Err Drawing
  | S fuel =>
      let '(draw, g) := next_u64 g in
      if rejection_threshold <=? draw then Ok (draw mod bound, g)
      else draw_loop fuel bound rejection_threshold g
  end.

Definition bounded (fuel : nat) (bound : N) (g : t) : draws (N * t) :=
  if bound =? 0 then Panic
  else draw_loop fuel bound (wrapping_neg bound mod bound) g.
End Xoshiro256StarStar.

(** * Routes *)

Module RouteGenerator.
Record t : Type := mk {
  family : TraceFamily.t;
  rng : Xoshiro256StarStar.t;
  permutation : list N;
  markov_cluster : N
}.

Definition set_rng (rng : Xoshiro256StarStar.t) (g : t) : t :=
  mk (family g) rng (permutation g) (markov_cluster g).
Definition set_cluster (cluster : N) (g : t) : t := mk (family g) (rng g) (permutation g) cluster.

(** [permutation.swap(high, selected)]. *)
Definition swap (high selected : N) (l : list N) : draws (list N) :=
  x ← expect (l !! N.to_nat high);
  y ← expect (l !! N.to_nat selected);
  Ok (<[N.to_nat selected := x]> (<[N.to_nat high := y]> l)).

(** The weights of [draw_harmonic]. *)
Definition WEIGHT_NUMERATOR : N := 1000000.
Definition weight (index : N) : N := WEIGHT_NUMERATOR / (index + 1).

(** The loop of [draw_harmonic]; its end is [unreachable!]. *)
Fixpoint pick (excluded : option N) (draw : N) (indices : list N) : draws N :=
  match indices with
  | [] => Panic
  | index :: indices =>
      if decide (Some index = excluded) then pick excluded draw indices
      else if draw <? weight index then Ok index
      else draw ← sub_or_panic draw (weight index); pick excluded draw indices
  end.

Section draws.
Context (fuel : nat).

(** [self.rng.bounded(bound)]. *)
Definition bounded (bound : N) (g : t) : draws (N * t) :=
  '(draw, rng) ← Xoshiro256StarStar.bounded fuel bound (rng g); Ok (draw, set_rng rng g).

Definition draw_harmonic (count : N) (excluded : option N) (g : t) : draws (N * t) :=
  total ← try_fold (fun total index => add_or_panic u64_max total (weight index)) 0
            (filter (fun index => Some index <> excluded) (rangeN count));
  '(draw, g) ← bounded total g;
  index ← pick excluded draw (rangeN count);
  Ok (index, g).

Definition harmonic_pair (start count : N) (g : t) : draws (N * N * t) :=
  '(first, g) ← draw_harmonic count None g;
  '(second, g) ← draw_harmonic count (Some first) g;
  first ← add_or_panic usize_max start first;
  second ← add_or_panic usize_max start second;
  Ok (first, second, g).

Definition uniform_pair (count : N) (g : t) : draws (N * N * t) :=
  '(first, g) ← bounded count g;
  without_first ← sub_or_panic count 1;
  '(second_without_first, g) ← bounded without_first g;
  second ← (if first <=? second_without_first then add_or_panic usize_max second_without_first 1
            else Ok second_without_first);
  Ok (first, second, g).

Definition markov_pair (absolute_step : N) (g : t) : draws (N * N * t) :=
  g ← (if absolute_step =? 0 then Ok g else
         '(transition, g) ← bounded 100 g;
         if (85 <=? transition) && (transition <? 95) then
           cluster ← add_or_panic usize_max (markov_cluster g) 1;
           Ok (set_cluster (cluster mod 16) g)
         else if 95 <=? transition then
           '(other, g) ← bounded 14 g;
           cluster ← add_or_panic usize_max (markov_cluster g) 2;
           cluster ← add_or_panic usize_max cluster other;
           Ok (set_cluster (cluster mod 16) g)
         else Ok g);
  start ← mul_or_panic (markov_cluster g) 8;
  harmonic_pair start 8 g.

(** In the scan the operands are bounded by the remainders that precede, except
    the epoch. *)
Definition scan_pollution (absolute_step : N) (g : t) : draws (N * N * t) :=
  let phase := absolute_step mod 64 in
  if phase <? 48 then harmonic_pair 0 16 g
  else
    let epoch := absolute_step / 64 in
    scan ← sub_or_panic phase 48;
    base ← mul_or_panic epoch 32;
    offset ← add_or_panic usize_max base (scan * 2);
    let first := offset mod 112 in
    Ok (16 + first, 16 + (first + 1) mod 112, g).

Definition next_route (absolute_step : N) (g : t) : draws (N * N * t) :=
  '(first, second, g) ←
    match family g with
    | TraceFamily.StationaryZipf => harmonic_pair 0 EXPERT_COUNT g
    | TraceFamily.ScanPollution => scan_pollution absolute_step g
    | TraceFamily.PhaseShift =>
        let group := (absolute_step / 256) mod 8 in harmonic_pair (group * 16) 16 g
    | TraceFamily.CyclicPressure =>
        twice ← mul_or_panic absolute_step 2;
        let offset := twice mod EXPERT_COUNT in
        Ok (offset, (offset + 1) mod EXPERT_COUNT, g)
    | TraceFamily.MarkovClusters => markov_pair absolute_step g
    | TraceFamily.IidUniform => uniform_pair EXPERT_COUNT g
    end;
  first ← expect (permutation g !! N.to_nat first);
  second ← expect (permutation g !! N.to_nat second);
  Ok (first, second, g).

(** One round of the shuffle. *)
Definition shuffle_step (s : list N * Xoshiro256StarStar.t) (high : N)
    : draws (list N * Xoshiro256StarStar.t) :=
  let '(permutation, rng) := s in
  '(selected, rng) ← Xoshiro256StarStar.bounded fuel (high + 1) rng;
  permutation ← swap high selected permutation;
  Ok (permutation, rng).

Definition new (family : TraceFamily.t) (seed : list N) : draws t :=
  '(permutation, rng) ← try_fold shuffle_step
    (rangeN EXPERT_COUNT, Xoshiro256StarStar.from_seed seed)
    (rev (tail (rangeN EXPERT_COUNT)));
  if decide (family = TraceFamily.MarkovClusters) then
    '(markov_cluster, rng) ← Xoshiro256StarStar.bounded fuel 16 rng;
    Ok (mk family rng permutation markov_cluster)
  else Ok (mk family rng permutation 0).
End draws.
End RouteGenerator.

(** * The predictor *)

Abbreviation Route := (N * N)%type (only parsing).

Module CausalPredictor.
Record t : Type := mk { transitions : list N; observed_routes : N }.
Definition default : t := mk [] 0.

(** [u16::div_ceil(2)]. *)
Definition halve_up (count : N) : N := if count mod 2 =? 0 then count / 2 else count / 2 + 1.

(** [self.transitions[index] = self.transitions[index].saturating_add(1)]. *)
Definition bump (transitions : list N) '((source, destination) : N * N) : draws (list N) :=
  let index := N.to_nat (source * EXPERT_COUNT + destination) in
  count ← expect (transitions !! index);
  Ok (<[index := saturating_add u16_max count 1]> transitions).

Definition observe (prior current : Route) (p : t) : draws t :=
  let transitions := match transitions p with
    | [] => replicate (N.to_nat (EXPERT_COUNT * EXPERT_COUNT)) 0
    | transitions => transitions
    end in
  transitions ← try_fold bump transitions
    [(prior.1, current.1); (prior.1, current.2); (prior.2, current.1); (prior.2, current.2)];
  observed_routes ← add_or_panic u64_max (observed_routes p) 1;
  let transitions := if observed_routes mod PREDICTOR_AGE_INTERVAL =? 0
                     then halve_up <$> transitions else transitions in
  Ok (mk transitions observed_routes).

(** One expert of the loop of [predict]. *)
Definition candidate (p : t) (current : Route) (s : list (N * N) * N) (expert : N)
    : draws (list (N * N) * N) :=
  let '(candidates, total) := s in
  first ← expect (transitions p !! N.to_nat (current.1 * EXPERT_COUNT + expert));
  second ← expect (transitions p !! N.to_nat (current.2 * EXPERT_COUNT + expert));
  count ← add_or_panic u64_max first second;
  total ← add_or_panic u64_max total count;
  Ok (if count =? 0 then candidates else candidates ++ [(count, expert)], total).

(** The comparator, descending counts and then ascending experts, as a sort key:
    no two candidates have the same, so the unstable sort has one result. *)
Definition candidate_key (c : N * N) : list Z := [(- Z.of_N c.1)%Z; Z.of_N c.2].

(** The closure of [filter_map]. *)
Definition prediction (total : N) '((count, expert) : N * N) : option ExpertPrediction.t :=
  scaled ← checked_mul u64_max count SCORE_SCALE;
  value ← (if total =? 0 then None else Some (scaled / total));
  score ← (if value <=? u32_max then Some value else None);
  if PREDICTOR_MIN_SCORE_PPM <=? score then Some (ExpertPrediction.mk expert score) else None.

Definition predict (current : Route) (p : t) : draws (list ExpertPrediction.t) :=
  match transitions p with
  | [] => Ok []
  | _ =>
      '(candidates, total) ← try_fold (candidate p current) ([], 0) (rangeN EXPERT_COUNT);
      if total <? PREDICTOR_MIN_SUPPORT then Ok []
      else Ok (omap (prediction total) (take 2 (sort_by_key candidate_key candidates)))
  end.
End CausalPredictor.

(** * Records *)

Definition page_catalog : list PageDescriptor.t :=
  expert ← rangeN EXPERT_COUNT;
  ordinal ← rangeN PAGES_PER_EXPERT;
  [PageDescriptor.mk (expert * PAGES_PER_EXPERT + ordinal) PAGE_BYTES PAGE_BYTES
     (PageClass.Expert LAYER expert ordinal)].

(** [events] and [sequence], which both pushes append to. *)
Module Stream.
Record t : Type := mk { events : list TraceEvent.t; sequence : N }.
Definition empty : t := mk [] 0.
Definition push (event : TraceEvent.t) (s : t) : draws t :=
  sequence ← ok_or (checked_add u64_max (sequence s) 1)
    (Failed (invalid_config "event sequence overflow"));
  Ok (mk (events s ++ [event]) sequence).
End Stream.

Definition push_signal (s : Stream.t) (target_step : N) (predictions : list ExpertPrediction.t)
    : draws Stream.t :=
  _ ← guard_err (u64_max <? target_step) (Failed (invalid_config "target step does not fit u64"));
  Stream.push (TraceEvent.RouterSignal (Stream.sequence s) 0 target_step LAYER predictions) s.

(** The inner loop over the ordinals of one expert. *)
Definition push_demand (step expert : N) (s : Stream.t) (ordinal : N) : draws Stream.t :=
  page ← ok_or (base ← checked_mul usize_max expert PAGES_PER_EXPERT; checked_add usize_max base ordinal)
    (Failed (invalid_config "generated page identifier overflow"));
  _ ← guard_err (u32_max <? page) (Failed (invalid_config "page identifier does not fit u32"));
  Stream.push (TraceEvent.Demand (Stream.sequence s) 0 step page) s.

Definition push_demands (s : Stream.t) (measured_step : N) (route : Route) : draws Stream.t :=
  _ ← guard_err (u64_max <? measured_step) (Failed (invalid_config "measured step does not fit u64"));
  try_fold (fun s expert => try_fold (push_demand measured_step expert) s (rangeN PAGES_PER_EXPERT))
    s [route.1; route.2].

(** * Digests *)

(** The byte string literal [b"text\0"]. *)
Definition nul_terminated (text : string) : list N := string_bytes text ++ [0].

Definition route_digest (domain : list N) (route_count : N) : list N :=
  domain ++ to_le_bytes 8 route_count.
Definition digest_route (digest : list N) (route : Route) : list N :=
  digest ++ to_le_bytes 4 route.1 ++ to_le_bytes 4 route.2.

Module GeneratedTrace.
Record t : Type := mk {
  family : TraceFamily.t;
  replicate : N;
  measured_steps : N;
  trace : ValidatedTrace.t;
  canonical_bytes : list N;
  seed_sha256 : string;
  full_route_sha256 : string;
  measured_route_sha256 : string
}.
End GeneratedTrace.

(** [{replicate:02}]. *)
Definition pad2 (n : N) : string :=
  if (String.length (pretty n) <? 2)%nat then "0" +:+ pretty n else pretty n.
Definition trace_id (family : TraceFamily.t) (replicate measured_steps : N) : string :=
  "m3-" +:+ TraceFamily.trace_slug family +:+ "-r" +:+ pad2 replicate
    +:+ "-n" +:+ pretty measured_steps.

(** * Generation *)

(** The local variables of [generate_trace] that its loops update. *)
Module Generation.
Record t : Type := mk {
  routes : RouteGenerator.t;
  predictor : CausalPredictor.t;
  previous : option Route;
  full_digest : list N;
  measured_digest : list N;
  predictions : list ExpertPrediction.t;
  stream : Stream.t
}.
End Generation.

Section generate.
Context `{HJ : SerdeJson TraceHeader.t} `{PJ : SerdeJson PageDescriptor.t}
        `{EJ : SerdeJson TraceEvent.t}.
Context (sha256 : list N -> list N) (hex_encode : list N -> string) (fuel : nat).

Definition derive_seed (family : TraceFamily.t) (replicate : N) : list N :=
  sha256 (nul_terminated "runnel.m3-trace/v1" ++ string_bytes (TraceFamily.as_str family)
            ++ [0] ++ string_bytes (pretty replicate)).

(** The body of the burn-in loop; [predictions] is [prediction_for_first_step]. *)
Definition burn_in_step (s : Generation.t) (absolute_step : N) : draws Generation.t :=
  '(first, second, routes) ← RouteGenerator.next_route fuel absolute_step (Generation.routes s);
  let route := (first, second) in
  let full_digest := digest_route (Generation.full_digest s) route in
  predictor ← (match Generation.previous s with
               | Some prior => CausalPredictor.observe prior route (Generation.predictor s)
               | None => Ok (Generation.predictor s)
               end);
  predictions ← CausalPredictor.predict route predictor;
  Ok (Generation.mk routes predictor (Some route) full_digest (Generation.measured_digest s)
        predictions (Generation.stream s)).

(** The body of the measured loop. *)
Definition measured_loop_step (measured_steps : N) (s : Generation.t) (measured_step : N)
    : draws Generation.t :=
  let absolute_step := BURN_IN_STEPS + measured_step in
  '(first, second, routes) ← RouteGenerator.next_route fuel absolute_step (Generation.routes s);
  let route := (first, second) in
  let full_digest := digest_route (Generation.full_digest s) route in
  let measured_digest := digest_route (Generation.measured_digest s) route in
  stream ← push_demands (Generation.stream s) measured_step route;
  prior ← expect (Generation.previous s);
  predictor ← CausalPredictor.observe prior route (Generation.predictor s);
  stream ← (if measured_step + 1 <? measured_steps then
              predictions ← CausalPredictor.predict route predictor;
              if decide (predictions = []) then Ok stream
              else push_signal stream (measured_step + 1) predictions
            else Ok stream);
  Ok (Generation.mk routes predictor (Some route) full_digest measured_digest
        (Generation.predictions s) stream).

(** Everything [generate_trace] does before it builds the header. *)
Definition generate_events (family : TraceFamily.t) (seed : list N) (measured_steps : N)
    : draws Generation.t :=
  routes ← RouteGenerator.new fuel family seed;
  s ← try_fold burn_in_step
    (Generation.mk routes CausalPredictor.default None
       (route_digest (nul_terminated "runnel-m3-full-routes-v1") (BURN_IN_STEPS + measured_steps))
       (route_digest (nul_terminated "runnel-m3-measured-routes-v1") measured_steps) [] Stream.empty)
    (rangeN BURN_IN_STEPS);
  _ ← ok_or (checked_mul usize_max measured_steps 7)
    (Failed (invalid_config "measured event count overflows usize"));
  stream ← (if decide (Generation.predictions s = []) then Ok (Generation.stream s)
            else push_signal (Generation.stream s) 0 (Generation.predictions s));
  try_fold (measured_loop_step measured_steps)
    (Generation.mk (Generation.routes s) (Generation.predictor s) (Generation.previous s)
       (Generation.full_digest s) (Generation.measured_digest s) (Generation.predictions s) stream)
    (rangeN measured_steps).

Definition generate_trace (family : TraceFamily.t) (replicate measured_steps : N)
    : draws GeneratedTrace.t :=
  _ ← guard_err ((measured_steps =? 0) || (DEFAULT_MEASURED_STEPS <? measured_steps))
        (Failed (invalid_config "measured_steps must be in 1..=4096"));
  let seed := derive_seed family replicate in
  s ← generate_events family seed measured_steps;
  let pages := page_catalog in
  let events := Stream.events (Generation.stream s) in
  let header := TraceHeader.mk "header" TRACE_SCHEMA (trace_id family replicate measured_steps)
    (lenN pages) (lenN events) PAGE_BYTES PREFETCH_MODEL in
  let limits := SimLimits.default in
  canonical_bytes ← map_err Failed
    (serialize_trace (fun bytes => hex_encode (sha256 bytes)) header pages events limits);
  trace ← map_err Failed (parse_trace (fun bytes => hex_encode (sha256 bytes)) canonical_bytes limits);
  Ok (GeneratedTrace.mk family replicate measured_steps trace canonical_bytes (hex_encode seed)
        (hex_encode (sha256 (Generation.full_digest s)))
        (hex_encode (sha256 (Generation.measured_digest s)))).
End generate.
