(* ===== verification/SimGeneratorFacts.v ===== *)
(** What the generator's parts do: the words and the draws, the routes, the
    predictor.  A draw consumes at most [fuel] words, so a run that makes [count]
    draws reads at most [fuel * count] words of the seed's stream; [timely] says
    that none of its rejection loops can outlive the fuel. *)
From stdpp Require Import prelude gmap strings pretty sorting.
From S2P Require Import Prelude SimModel SimEngine SimTrace SimGenerator.
#[local] Open Scope N_scope.
#[local] Arguments N.pow : simpl never.
#[local] Arguments u64_max : simpl never.
#[local] Arguments usize_max : simpl never.

(** * Words *)

(** The state after [n] words, and word number [n], of a generator. *)
Definition advance (n : nat) (g : Xoshiro256StarStar.t) : Xoshiro256StarStar.t :=
  Nat.iter n (fun g => (Xoshiro256StarStar.next_u64 g).2) g.
Definition word (n : nat) (g : Xoshiro256StarStar.t) : N := (Xoshiro256StarStar.next_u64 (advance n g)).1.

Lemma advance_add m n g : advance (m + n) g = advance m (advance n g).
Proof. unfold advance. by rewrite Nat.iter_add. Qed.

Lemma word_advance m n g : word m (advance n g) = word (m + n) g.
Proof. unfold word. by rewrite advance_add. Qed.

Lemma word_0 g : word 0 g = (Xoshiro256StarStar.next_u64 g).1.
Proof. done. Qed.
Lemma advance_1 g : advance 1 g = (Xoshiro256StarStar.next_u64 g).2.
Proof. done. Qed.

(** The loop returns the first word that is not rejected. *)
Lemma draw_loop_spec fuel bound threshold g :
  match Xoshiro256StarStar.draw_loop fuel bound threshold g with
  | Ok (v, g') => exists j, (j < fuel)%nat /\ (forall i, (i < j)%nat -> word i g < threshold)
      /\ threshold <= word j g /\ v = word j g mod bound /\ g' = advance (S j) g
  | Err e => e = Drawing /\ forall i, (i < fuel)%nat -> word i g < threshold
  | Panic => False
  end.
Proof.
  revert g. induction fuel as [|fuel IH]; intros g; [by split; [|lia]|]. cbn [Xoshiro256StarStar.draw_loop].
  destruct (Xoshiro256StarStar.next_u64 g) as [draw g1] eqn:E.
  assert (word 0 g = draw) as Hw by (by rewrite word_0, E).
  assert (forall i, word i g1 = word (S i) g) as Hs.
  { intros i. replace g1 with (advance 1 g) by (by rewrite advance_1, E). rewrite word_advance. f_equal. lia. }
  destruct (N.leb_spec threshold draw) as [Hle|Hlt].
  - exists 0%nat. rewrite Hw. split_and!; [lia | lia | done | done |]. by rewrite advance_1, E.
  - specialize (IH g1). destruct (Xoshiro256StarStar.draw_loop fuel bound threshold g1) as [[v g']|e|]; [| |done].
    + destruct IH as (j & Hj & Hr & Ha & -> & ->). exists (S j). rewrite <- Hs. split_and!; [lia | | done | done |].
      * intros [|i] Hi; [by rewrite Hw | rewrite <- Hs; apply Hr; lia].
      * by rewrite <- (Nat.add_1_r (S j)), advance_add, advance_1, E.
    + destruct IH as [-> Hr]. split; [done|]. intros [|i] Hi; [by rewrite Hw | rewrite <- Hs; apply Hr; lia].
Qed.

Lemma word_lt n g : word n g < 2 ^ 64.
Proof. unfold word, Xoshiro256StarStar.next_u64. cbn [fst]. unfold wrapping_mul. by apply N.mod_lt. Qed.

(** No bound of the generator rejects a word from this one on. *)
Definition ACCEPTED : N := 2 ^ 23.

(** Among any [fuel] consecutive words within reach of [count] draws, one is
    accepted whatever the bound. *)
Definition timely (fuel count : nat) (g : Xoshiro256StarStar.t) : Prop :=
  forall k, (k <= fuel * count)%nat -> exists j, (j < fuel)%nat /\ ACCEPTED <= word (k + j) g.

Lemma wrapping_neg_mod bound : bound <> 0 -> bound <= 2 ^ 64 ->
  wrapping_neg bound mod bound = 2 ^ 64 mod bound.
Proof.
  intros H0 Hle. unfold wrapping_neg. rewrite (N.mod_small (2 ^ 64 - bound)) by lia.
  replace (2 ^ 64) with ((2 ^ 64 - bound) + 1 * bound) at 2 by lia. by rewrite N.Div0.mod_add.
Qed.

(** ** Residues of accepted words *)

Lemma quotient_lt bound w :
  bound <> 0 -> 2 ^ 64 mod bound <= w < 2 ^ 64 -> (w - 2 ^ 64 mod bound) / bound < 2 ^ 64 / bound.
Proof.
  intros H0 [Hw1 Hw2]. apply N.Div0.div_lt_upper_bound.
  pose proof (N.Div0.div_mod (2 ^ 64) bound). lia.
Qed.

(** The word with a given residue and quotient. *)
Lemma residue_word bound u q :
  bound <> 0 -> u < bound -> q < 2 ^ 64 / bound ->
  exists w, (2 ^ 64 mod bound <= w < 2 ^ 64 /\ w mod bound = u /\ (w - 2 ^ 64 mod bound) / bound = q)
    /\ forall w', 2 ^ 64 mod bound <= w' < 2 ^ 64 -> w' mod bound = u ->
         (w' - 2 ^ 64 mod bound) / bound = q -> w' = w.
Proof.
  intros H0 Hu Hq. pose proof (N.Div0.div_mod (2 ^ 64) bound) as E.
  pose proof (N.mod_lt (2 ^ 64) bound H0) as Ht. set (t := 2 ^ 64 mod bound) in *.
  set (Q := 2 ^ 64 / bound) in *.
  assert (exists r, r < bound /\ (t + r) mod bound = u /\ forall r', r' < bound -> (t + r') mod bound = u -> r' = r)
    as (r & Hr & Hm & Huniq).
  { assert (forall r, r < bound -> (t + r) mod bound = if t + r <? bound then t + r else t + r - bound) as Hmod.
    { intros r Hr. destruct (N.ltb_spec (t + r) bound) as [Hlt|Hge]; [by apply N.mod_small|].
      replace (t + r) with (t + r - bound + 1 * bound) at 1 by lia.
      rewrite N.Div0.mod_add. apply N.mod_small. lia. }
    exists (if t <=? u then u - t else u + bound - t). split_and!.
    - destruct (N.leb_spec t u); lia.
    - rewrite Hmod by (destruct (N.leb_spec t u); lia).
      destruct (N.leb_spec t u); case_match eqn:Ec; (apply N.ltb_lt in Ec || apply N.ltb_ge in Ec); lia.
    - intros r' Hr'. rewrite Hmod by done. destruct (N.leb_spec t u); destruct (N.ltb_spec (t + r') bound); lia. }
  assert (bound * (q + 1) <= bound * Q) as Hbq by (apply N.mul_le_mono_l; lia).
  assert (forall r, (t + r + q * bound) mod bound = (t + r) mod bound) as Hshift by (intros; apply N.Div0.mod_add).
  exists (t + r + q * bound). split_and!; [lia | lia | by rewrite Hshift | |].
  - replace (t + r + q * bound - t) with (r + q * bound) by lia. rewrite N.div_add, N.div_small by done. lia.
  - intros w' Hw Hwm Hwq. pose proof (N.Div0.div_mod (w' - t) bound) as Ew. rewrite Hwq in Ew.
    pose proof (N.mod_lt (w' - t) bound H0) as Hlt. set (r' := (w' - t) mod bound) in *.
    assert (w' = t + r' + q * bound) as Ew' by lia. rewrite Ew' in Hwm |- *. rewrite Hshift in Hwm.
    by rewrite (Huniq r' Hlt Hwm).
Qed.

Section draws.
Context (fuel count : nat) (g0 : Xoshiro256StarStar.t).

(** The states that at most [d] draws lead to. *)
Definition reach (d : nat) (g : Xoshiro256StarStar.t) : Prop :=
  exists k, (k <= fuel * d)%nat /\ g = advance k g0.

Lemma reach_mono d d' g : reach d g -> (d <= d')%nat -> reach d' g.
Proof. intros (k & Hk & ->) Hd. exists k. split; [nia | done]. Qed.

(** A run that has not accepted a word. *)
Definition stalled (e : Stop) : Prop := e = Drawing /\ ~ timely fuel count g0.

Lemma bounded_ok d bound g :
  reach d g -> (d < count)%nat -> bound <> 0 -> bound <= ACCEPTED ->
  post (Xoshiro256StarStar.bounded fuel bound g) (fun '(v, g') => v < bound /\ reach (S d) g') stalled.
Proof.
  intros (k & Hk & ->) Hd H0 Hb. unfold Xoshiro256StarStar.bounded. rewrite (proj2 (N.eqb_neq _ _) H0).
  pose proof (draw_loop_spec fuel bound (wrapping_neg bound mod bound) (advance k g0)) as H.
  pose proof (N.mod_lt (wrapping_neg bound) bound H0) as Ht.
  destruct (Xoshiro256StarStar.draw_loop _ _ _ _) as [[v g']|e|]; simpl; [| |done].
  - destruct H as (j & Hj & _ & _ & -> & ->). split; [by apply N.mod_lt|].
    exists (S j + k)%nat. split; [nia | by rewrite advance_add].
  - destruct H as [-> Hr]. split; [done|]. intros Htime. destruct (Htime k) as (j & Hj & Ha); [nia|].
    specialize (Hr j Hj). rewrite word_advance, Nat.add_comm in Hr. lia.
Qed.

(** * Weighted choice *)

Lemma weight_pos index : index < EXPERT_COUNT -> 0 < RouteGenerator.weight index.
Proof. intros H. unfold RouteGenerator.weight, RouteGenerator.WEIGHT_NUMERATOR, EXPERT_COUNT in *. apply N.div_str_pos. lia. Qed.

End draws.

(** The parts of a sum do not overlap. *)
Lemma interval_unique {A} (f : A -> N) draw pre x suf pre' suf' y :
  pre ++ x :: suf = pre' ++ y :: suf' ->
  sumN f pre <= draw < sumN f pre + f x -> sumN f pre' <= draw < sumN f pre' + f y -> x = y.
Proof.
  revert pre' draw. induction pre as [|a pre IH]; intros [|b pre'] draw E Hx Hy.
  - by injection E.
  - injection E as -> _. simpl in *. lia.
  - injection E as -> _. simpl in *. lia.
  - injection E as -> E. cbn [sumN foldr] in *. fold (sumN f pre) (sumN f pre') in *.
    apply (IH pre' (draw - f b) E); lia.
Qed.

(** The indices that a draw may choose, and the draws that choose one of them. *)
Definition choices (excluded : option N) (count : N) : list N :=
  filter (fun index => Some index <> excluded) (rangeN count).

Lemma pick_spec excluded draw indices :
  match RouteGenerator.pick excluded draw indices with
  | Ok index => exists pre suf,
      filter (fun index => Some index <> excluded) indices = pre ++ index :: suf
      /\ sumN RouteGenerator.weight pre <= draw < sumN RouteGenerator.weight pre + RouteGenerator.weight index
  | Err _ => False
  | Panic => sumN RouteGenerator.weight (filter (fun index => Some index <> excluded) indices) <= draw
  end.
Proof.
  revert draw. induction indices as [|index indices IH]; intros draw; [simpl; lia|].
  cbn [RouteGenerator.pick]. rewrite filter_cons. destruct (decide (Some index = excluded)) as [E|E].
  - rewrite decide_False by (intros H; by apply H). apply IH.
  - rewrite decide_True by done. destruct (N.ltb_spec draw (RouteGenerator.weight index)) as [Hlt|Hge].
    + eexists [], _. split; [done | simpl; lia].
    + unfold sub_or_panic, checked_sub. rewrite (proj2 (N.leb_le _ _) Hge).
      cbn [expect mbind result_bind]. specialize (IH (draw - RouteGenerator.weight index)).
      destruct (RouteGenerator.pick _ _ _) as [i| |]; [|done|].
      * destruct IH as (pre & suf & E' & Hb). exists (index :: pre), suf. rewrite E'. split; [done|].
        cbn [sumN foldr]. unfold sumN in Hb. lia.
      * cbn [sumN foldr]. unfold sumN in IH. lia.
Qed.

Lemma elem_of_choices excluded count index :
  index ∈ choices excluded count <-> Some index <> excluded /\ index < count.
Proof. unfold choices. by rewrite list_elem_of_filter, elem_of_rangeN. Qed.

Definition harmonic_total (excluded : option N) (count : N) : N :=
  sumN RouteGenerator.weight (choices excluded count).

Lemma harmonic_total_bounds excluded count :
  2 <= count <= EXPERT_COUNT -> 0 < harmonic_total excluded count <= ACCEPTED.
Proof.
  intros Hc. unfold harmonic_total. split.
  - assert (exists index, index ∈ choices excluded count) as [index Hin].
    { destruct (decide (excluded = Some 0)) as [->|Hne]; [exists 1 | exists 0];
        apply elem_of_choices; (split; [congruence | lia]). }
    pose proof (sumN_le_elem RouteGenerator.weight _ _ Hin).
    apply elem_of_choices in Hin as [_ Hlt]. pose proof (weight_pos index). lia.
  - etrans; [apply sumN_filter_le|]. transitivity (sumN RouteGenerator.weight (rangeN EXPERT_COUNT)).
    + unfold rangeN. replace (N.to_nat EXPERT_COUNT) with (N.to_nat count + N.to_nat (EXPERT_COUNT - count))%nat by lia.
      rewrite seq_app, fmap_app, sumN_app. lia.
    + by vm_compute.
Qed.

(** * Routes *)

Definition distinct_pair (bound : N) (first second : N) : Prop :=
  first < bound /\ second < bound /\ first <> second.

Section routes.
Context (fuel count : nat) (g0 : Xoshiro256StarStar.t).
Abbreviation reach := (reach fuel g0).
Abbreviation stalled := (stalled fuel count g0).

(** A generator of the family, after at most [d] draws. *)
Record routes_ok (family : TraceFamily.t) (d : nat) (g : RouteGenerator.t) : Prop := {
  routes_family : RouteGenerator.family g = family;
  routes_reach : reach d (RouteGenerator.rng g);
  routes_permutation : RouteGenerator.permutation g ≡ₚ rangeN EXPERT_COUNT;
  routes_cluster : RouteGenerator.markov_cluster g < 16
}.

Lemma routes_ok_mono family d d' g : routes_ok family d g -> (d <= d')%nat -> routes_ok family d' g.
Proof. intros [] Hd. split; try done. by eapply reach_mono. Qed.

Lemma route_bounded_ok family d bound g :
  routes_ok family d g -> (d < count)%nat -> bound <> 0 -> bound <= ACCEPTED ->
  post (RouteGenerator.bounded fuel bound g)
    (fun '(v, g') => v < bound /\ routes_ok family (S d) g'
                     /\ RouteGenerator.markov_cluster g' = RouteGenerator.markov_cluster g) stalled.
Proof.
  intros [Hf Hr Hp Hc] Hd H0 Hb. unfold RouteGenerator.bounded. apply post_bind.
  eapply post_strengthen; [by apply (bounded_ok fuel count g0 d)|].
  intros [v g'] [Hv Hr']. by apply post_ok.
Qed.

Lemma draw_harmonic_ok family d n excluded g :
  routes_ok family d g -> (d < count)%nat -> 2 <= n <= EXPERT_COUNT ->
  post (RouteGenerator.draw_harmonic fuel n excluded g)
    (fun '(index, g') => index < n /\ Some index <> excluded /\ routes_ok family (S d) g') stalled.
Proof.
  intros Hg Hd Hn. unfold RouteGenerator.draw_harmonic.
  pose proof (harmonic_total_bounds excluded n Hn) as [Hpos Hle].
  rewrite (try_fold_sum_le _ RouteGenerator.weight u64_max).
  2: { intros b x _ Hx. unfold add_or_panic, checked_add. by rewrite (proj2 (N.leb_le _ _) Hx). }
  2: { change (0 + harmonic_total excluded n <= u64_max). unfold ACCEPTED, u64_max in *. lia. }
  change (0 + sumN RouteGenerator.weight _) with (harmonic_total excluded n).
  cbn [mbind result_bind]. apply post_bind.
  eapply post_strengthen; [apply (route_bounded_ok family d); [done | done | lia | done]|].
  intros [draw g'] (Hdraw & Hg' & _). apply post_bind.
  pose proof (pick_spec excluded draw (rangeN n)) as H. fold (choices excluded n) in H.
  fold (harmonic_total excluded n) in H.
  destruct (RouteGenerator.pick excluded draw (rangeN n)) as [index| |]; [|done|lia]. simpl.
  destruct H as (pre & suf & E & _).
  assert (index ∈ choices excluded n) as [? ?]%elem_of_choices by (rewrite E; set_solver). done.
Qed.

Lemma harmonic_pair_ok family d start n g :
  routes_ok family d g -> (S d < count)%nat -> 2 <= n -> start + n <= EXPERT_COUNT ->
  post (RouteGenerator.harmonic_pair fuel start n g)
    (fun '(first, second, g') => distinct_pair EXPERT_COUNT first second /\ routes_ok family (S (S d)) g')
    stalled.
Proof.
  intros Hg Hd Hn Hs. unfold RouteGenerator.harmonic_pair. apply post_bind.
  eapply post_strengthen; [apply (draw_harmonic_ok family d); [done | lia | lia]|].
  intros [first g1] (Hf & _ & Hg1). apply post_bind.
  eapply post_strengthen; [apply (draw_harmonic_ok family (S d)); [done | lia | lia]|].
  intros [second g2] (Hsec & Hne & Hg2). unfold EXPERT_COUNT in *.
  unfold add_or_panic, checked_add. rewrite !(proj2 (N.leb_le _ _)) by (unfold usize_max, u64_max; lia).
  simpl. split; [|done]. unfold distinct_pair. split_and!; [lia | lia | intros E; apply Hne; f_equal; lia].
Qed.

Lemma uniform_pair_ok family d n g :
  routes_ok family d g -> (S d < count)%nat -> 2 <= n <= EXPERT_COUNT ->
  post (RouteGenerator.uniform_pair fuel n g)
    (fun '(first, second, g') => distinct_pair EXPERT_COUNT first second /\ routes_ok family (S (S d)) g')
    stalled.
Proof.
  intros Hg Hd Hn. unfold EXPERT_COUNT, ACCEPTED in *. unfold RouteGenerator.uniform_pair. apply post_bind.
  eapply post_strengthen; [apply (route_bounded_ok family d); unfold ACCEPTED; [done | lia | lia | lia]|].
  intros [first g1] (Hf & Hg1 & _). apply post_bind, post_sub_or_panic; [lia|]. apply post_bind.
  eapply post_strengthen; [apply (route_bounded_ok family (S d)); unfold ACCEPTED; [done | lia | lia | lia]|].
  intros [second g2] (Hsec & Hg2 & _).
  destruct (N.leb_spec first second) as [Hle|Hlt].
  - unfold add_or_panic, checked_add. rewrite (proj2 (N.leb_le _ _)) by (unfold usize_max, u64_max; lia).
    simpl. split; [|done]. unfold distinct_pair. lia.
  - simpl. split; [|done]. unfold distinct_pair. lia.
Qed.

Lemma set_cluster_ok family d cluster g :
  routes_ok family d g -> cluster < 16 -> routes_ok family d (RouteGenerator.set_cluster cluster g).
Proof. intros [] Hc. by split. Qed.

Lemma markov_pair_ok family d step g :
  routes_ok family d g -> (3 + d < count)%nat ->
  post (RouteGenerator.markov_pair fuel step g)
    (fun '(first, second, g') => distinct_pair EXPERT_COUNT first second /\ routes_ok family (4 + d) g')
    stalled.
Proof.
  intros Hg Hd. unfold RouteGenerator.markov_pair. apply post_bind.
  eapply (post_strengthen _ (routes_ok family (2 + d))).
  - destruct (step =? 0); [by apply post_ok, (routes_ok_mono family d); [|lia]|]. apply post_bind.
    eapply post_strengthen; [apply (route_bounded_ok family d); unfold ACCEPTED; [done | lia | lia | lia]|].
    intros [transition g1] (_ & Hg1 & Hc). pose proof (routes_cluster _ _ _ Hg1) as Hc1.
    destruct ((85 <=? transition) && (transition <? 95)); [|destruct (95 <=? transition)].
    + unfold add_or_panic, checked_add. rewrite (proj2 (N.leb_le _ _)) by (unfold usize_max, u64_max; lia).
      simpl. apply set_cluster_ok; [by apply (routes_ok_mono family (S d)); [|lia] | by apply N.mod_lt].
    + apply post_bind.
      eapply post_strengthen; [apply (route_bounded_ok family (S d)); unfold ACCEPTED; [done | lia | lia | lia]|].
      intros [other g2] (Ho & Hg2 & _). pose proof (routes_cluster _ _ _ Hg2) as Hc2.
      unfold add_or_panic, checked_add. rewrite (proj2 (N.leb_le _ _)) by (unfold usize_max, u64_max; lia).
      cbn [expect mbind result_bind]. rewrite (proj2 (N.leb_le _ _)) by (unfold usize_max, u64_max; lia).
      simpl. apply set_cluster_ok; [done | by apply N.mod_lt].
    + apply post_ok, (routes_ok_mono family (S d)); [done | lia].
  - intros g1 Hg1. pose proof (routes_cluster _ _ _ Hg1) as Hc1.
    unfold mul_or_panic, checked_mul. rewrite (proj2 (N.leb_le _ _)) by (unfold usize_max, u64_max; lia).
    cbn [expect mbind result_bind].
    apply (harmonic_pair_ok family (2 + d)); unfold EXPERT_COUNT; [done | lia | lia | lia].
Qed.

Lemma scan_pollution_ok family d step g :
  routes_ok family d g -> (S d < count)%nat -> step <= u32_max ->
  post (RouteGenerator.scan_pollution fuel step g)
    (fun '(first, second, g') => distinct_pair EXPERT_COUNT first second /\ routes_ok family (S (S d)) g')
    stalled.
Proof.
  intros Hg Hd Hs. unfold RouteGenerator.scan_pollution. pose proof (N.mod_lt step 64) as Hm.
  destruct (N.ltb_spec (step mod 64) 48) as [_|Hge];
    [apply harmonic_pair_ok; [done | done | lia | unfold EXPERT_COUNT; lia]|].
  apply post_bind, post_sub_or_panic; [done|].
  assert (step / 64 <= step) as He by (apply N.Div0.div_le_upper_bound; lia). unfold u32_max in Hs.
  unfold mul_or_panic, checked_mul. rewrite (proj2 (N.leb_le _ _)) by (unfold usize_max, u64_max; lia).
  cbn [expect mbind result_bind]. unfold add_or_panic, checked_add.
  rewrite (proj2 (N.leb_le _ _)) by (unfold usize_max, u64_max; lia). cbn [expect mbind result_bind].
  pose proof (N.mod_lt (step / 64 * 32 + (step mod 64 - 48) * 2) 112 ltac:(done)) as H1.
  set (first := (step / 64 * 32 + (step mod 64 - 48) * 2) mod 112) in *.
  pose proof (N.mod_lt (first + 1) 112 ltac:(done)) as H2.
  apply post_ok. split; [|apply (routes_ok_mono family d); [done | lia]].
  unfold distinct_pair, EXPERT_COUNT. split_and!; [lia | lia|].
  destruct (decide (first = 111)) as [->|]; [done|]. rewrite N.mod_small; lia.
Qed.

Lemma permutation_pair (l : list N) first second :
  l ≡ₚ rangeN EXPERT_COUNT -> distinct_pair EXPERT_COUNT first second ->
  exists x y, l !! N.to_nat first = Some x /\ l !! N.to_nat second = Some y
    /\ distinct_pair EXPERT_COUNT x y.
Proof.
  intros Hp (Hf & Hs & Hne).
  assert (length l = N.to_nat EXPERT_COUNT) as Hlen by (by rewrite Hp, length_rangeN).
  assert (NoDup l) as Hnd.
  { rewrite Hp. unfold rangeN. apply NoDup_fmap_2; [apply _ | apply NoDup_seq]. }
  destruct (lookup_lt_is_Some_2 l (N.to_nat first)) as [x Hx]; [lia|].
  destruct (lookup_lt_is_Some_2 l (N.to_nat second)) as [y Hy]; [lia|].
  exists x, y. split_and!; [done | done|]. unfold distinct_pair. rewrite <- !elem_of_rangeN.
  split_and!; [by rewrite <- Hp; eapply list_elem_of_lookup_2.. |].
  intros ->. pose proof (NoDup_lookup l _ _ _ Hnd Hx Hy). lia.
Qed.

Lemma next_route_ok family d step g :
  routes_ok family d g -> (3 + d < count)%nat -> step <= u32_max ->
  post (RouteGenerator.next_route fuel step g)
    (fun '(first, second, g') => distinct_pair EXPERT_COUNT first second /\ routes_ok family (4 + d) g')
    stalled.
Proof.
  intros Hg Hd Hs. unfold RouteGenerator.next_route. apply post_bind.
  assert (forall m, post m (fun '(first, second, g') => distinct_pair EXPERT_COUNT first second
                              /\ routes_ok family (S (S d)) g') stalled ->
    post m (fun '(first, second, g') => distinct_pair EXPERT_COUNT first second
                              /\ routes_ok family (4 + d) g') stalled) as Hmono.
  { intros m Hm. eapply post_strengthen; [exact Hm|]. intros [[x y] g'] [? ?].
    split; [done|]. by apply (routes_ok_mono family (S (S d))); [|lia]. }
  eapply (post_strengthen _ (fun '(first, second, g') => distinct_pair EXPERT_COUNT first second
                              /\ routes_ok family (4 + d) g')).
  - rewrite (routes_family _ _ _ Hg). destruct family.
    + apply Hmono, harmonic_pair_ok; [done | lia | done | done].
    + apply Hmono, scan_pollution_ok; [done | lia | done].
    + pose proof (N.mod_lt (step / 256) 8 ltac:(done)).
      apply Hmono, harmonic_pair_ok; unfold EXPERT_COUNT; [done | lia | lia | lia].
    + unfold mul_or_panic, checked_mul. unfold u32_max in Hs.
      rewrite (proj2 (N.leb_le _ _)) by (unfold usize_max, u64_max; lia). cbn [expect mbind result_bind].
      unfold EXPERT_COUNT. pose proof (N.mod_lt (step * 2) 128 ltac:(done)) as H1.
      set (offset := (step * 2) mod 128) in *. pose proof (N.mod_lt (offset + 1) 128 ltac:(done)).
      apply post_ok. split; [|by apply (routes_ok_mono _ d); [|lia]]. unfold distinct_pair.
      split_and!; [done | done|]. destruct (decide (offset = 127)) as [->|]; [done|].
      rewrite N.mod_small; lia.
    + by apply markov_pair_ok.
    + apply Hmono, uniform_pair_ok; [done | lia | done].
  - intros [[first second] g'] [Hd' Hg'].
    destruct (permutation_pair (RouteGenerator.permutation g') first second) as (x & y & -> & -> & Hxy);
      [apply Hg' | done|]. by apply post_ok.
Qed.

Lemma permutation_swap (l : list N) i j x y :
  l !! i = Some x -> l !! j = Some y -> <[j := x]> (<[i := y]> l) ≡ₚ l.
Proof.
  intros Hi Hj. destruct (decide (i = j)) as [->|Hne].
  { rewrite Hi in Hj. injection Hj as ->. by rewrite list_insert_insert_eq, list_insert_id. }
  apply (Permutation_inj (<[j := x]> (<[i := y]> l)) l). split; [by rewrite !length_insert|].
  pose proof (lookup_lt_Some _ _ _ Hi). pose proof (lookup_lt_Some _ _ _ Hj).
  exists (fun k => if decide (k = i) then j else if decide (k = j) then i else k). split.
  - intros a b. repeat case_decide; lia.
  - intros k. repeat case_decide; subst.
    + rewrite list_lookup_insert_ne, Hj by done. by apply list_lookup_insert_eq.
    + rewrite Hi. apply list_lookup_insert_eq. by rewrite length_insert.
    + by rewrite !list_lookup_insert_ne.
Qed.

Lemma swap_ok (l : list N) high selected (X : Stop -> Prop) :
  l ≡ₚ rangeN EXPERT_COUNT -> high < EXPERT_COUNT -> selected < EXPERT_COUNT ->
  post (RouteGenerator.swap high selected l) (fun l' => l' ≡ₚ rangeN EXPERT_COUNT) X.
Proof.
  intros Hp Hh Hs. assert (length l = N.to_nat EXPERT_COUNT) as Hlen by (by rewrite Hp, length_rangeN).
  destruct (lookup_lt_is_Some_2 l (N.to_nat high)) as [x Hx]; [lia|].
  destruct (lookup_lt_is_Some_2 l (N.to_nat selected)) as [y Hy]; [lia|].
  unfold RouteGenerator.swap. rewrite Hx, Hy. simpl. by rewrite (permutation_swap l _ _ x y).
Qed.

(** A new generator has shuffled the experts; it took one draw for each but one
    of them, and one for the cluster. *)
Lemma generator_new_ok family seed :
  g0 = Xoshiro256StarStar.from_seed seed -> (128 <= count)%nat ->
  post (RouteGenerator.new fuel family seed) (routes_ok family 128) stalled.
Proof.
  intros Hseed Hcount. unfold RouteGenerator.new. apply post_bind.
  eapply post_strengthen.
  - apply (post_try_fold _ _ (fun dn '(l, g) => l ≡ₚ rangeN EXPERT_COUNT /\ reach (length dn) g)).
    + split; [done|]. exists 0%nat. split; [lia | by rewrite Hseed].
    + intros dn high rest [l g] Hl [Hp Hr]. unfold RouteGenerator.shuffle_step.
      assert (high ∈ rev (tail (rangeN EXPERT_COUNT))) as Hhigh by (rewrite Hl; set_solver).
      assert (length dn < 127)%nat as Hlen.
      { apply (f_equal length) in Hl. rewrite length_rev, length_app in Hl.
        change (length (tail (rangeN EXPERT_COUNT))) with 127%nat in Hl. simpl in Hl. lia. }
      apply list_elem_of_In, in_rev, list_elem_of_In in Hhigh.
      assert (high < EXPERT_COUNT) as Hb.
      { apply elem_of_rangeN. destruct (rangeN EXPERT_COUNT); [done | by right]. }
      apply post_bind. eapply post_strengthen;
        [apply (bounded_ok fuel count g0 (length dn)); unfold ACCEPTED, EXPERT_COUNT in *; [done | lia | lia | lia]|].
      intros [selected g1] [Hsel Hr1]. apply post_bind. eapply post_strengthen.
      * apply (swap_ok l high selected); [done | done | unfold EXPERT_COUNT in *; lia].
      * intros l' Hl'. apply post_ok. split; [done|]. rewrite length_app. simpl. by rewrite Nat.add_1_r.
  - intros [l g] [Hp Hr]. rewrite length_rev in Hr.
    change (length (tail (rangeN EXPERT_COUNT))) with 127%nat in Hr.
    destruct (decide (family = TraceFamily.MarkovClusters)) as [->|].
    + apply post_bind. eapply post_strengthen;
        [apply (bounded_ok fuel count g0 127); unfold ACCEPTED; [done | lia | lia | lia]|].
      intros [cluster g1] [Hc Hr1]. by apply post_ok.
    + apply post_ok. split; [done | apply (reach_mono fuel g0 127); [exact Hr | lia] | done | done].
Qed.
End routes.

(** * The predictor *)

Abbreviation valid_route := (fun route : N * N => distinct_pair EXPERT_COUNT route.1 route.2).

(** A predictor that has observed [n] transitions: nothing, or a full matrix of
    counters. *)
Record predictor_ok (n : N) (p : CausalPredictor.t) : Prop := {
  predictor_counters : CausalPredictor.transitions p = [] \/
    (length (CausalPredictor.transitions p) = N.to_nat (EXPERT_COUNT * EXPERT_COUNT)
     /\ Forall (fun c => c <= u16_max) (CausalPredictor.transitions p));
  predictor_observed : CausalPredictor.observed_routes p = n
}.

Lemma bump_ok transitions source destination :
  length transitions = N.to_nat (EXPERT_COUNT * EXPERT_COUNT) -> Forall (fun c => c <= u16_max) transitions ->
  source < EXPERT_COUNT -> destination < EXPERT_COUNT ->
  post (CausalPredictor.bump transitions (source, destination))
    (fun t => length t = N.to_nat (EXPERT_COUNT * EXPERT_COUNT) /\ Forall (fun c => c <= u16_max) t)
    (fun _ => False).
Proof.
  intros Hl Hc Hs Hd. unfold CausalPredictor.bump, EXPERT_COUNT in *.
  destruct (lookup_lt_is_Some_2 transitions (N.to_nat (source * 128 + destination))) as [c E]; [lia|].
  rewrite E. simpl. split; [by rewrite length_insert|]. apply Forall_insert; [done|].
  unfold saturating_add. lia.
Qed.

Lemma observe_ok n p prior current :
  predictor_ok n p -> n < u64_max -> valid_route prior -> valid_route current ->
  post (CausalPredictor.observe prior current p) (predictor_ok (n + 1)) (fun _ => False).
Proof.
  intros [Ht Hn] Hw (Hp1 & Hp2 & _) (Hc1 & Hc2 & _). unfold CausalPredictor.observe. rewrite Hn.
  set (start := match CausalPredictor.transitions p with [] => _ | _ => _ end).
  assert (length start = N.to_nat (EXPERT_COUNT * EXPERT_COUNT) /\ Forall (fun c => c <= u16_max) start) as Hstart.
  { subst start. destruct Ht as [-> | [Hl Hf]].
    - split; [apply length_replicate | by apply Forall_replicate].
    - destruct (CausalPredictor.transitions p); [done | by split]. }
  clearbody start. apply post_bind. eapply post_strengthen.
  - apply (post_try_fold _ _ (fun _ t => length t = N.to_nat (EXPERT_COUNT * EXPERT_COUNT)
                                         /\ Forall (fun c => c <= u16_max) t)); [done|].
    intros dn [source destination] rest t Hl [H1 H2].
    assert ((source, destination) ∈ [(prior.1, current.1); (prior.1, current.2); (prior.2, current.1);
      (prior.2, current.2)]) as Hin by (rewrite Hl; set_solver).
    apply bump_ok; [done | done | set_solver..].
  - intros t [Hlt Hft]. unfold add_or_panic, checked_add. rewrite (proj2 (N.leb_le _ _)) by lia. simpl.
    split; [|done]. right. simpl. destruct (_ =? 0); [|done]. rewrite length_fmap. split; [done|].
    apply Forall_fmap. eapply Forall_impl; [exact Hft|]. intros c Hcc. unfold compose, CausalPredictor.halve_up.
    unfold u16_max in *. pose proof (N.Div0.div_lt_upper_bound c 2 32768 ltac:(lia)).
    destruct (c mod 2 =? 0); lia.
Qed.

(** What a signal may carry. *)
Record predictions_fit (ps : list ExpertPrediction.t) : Prop := {
  fit_length : (length ps <= 2)%nat;
  fit_experts : Forall (fun p => ExpertPrediction.expert p < EXPERT_COUNT) ps;
  fit_distinct : NoDup (ExpertPrediction.expert <$> ps);
  fit_scores : Forall (fun p => PREDICTOR_MIN_SCORE_PPM <= ExpertPrediction.score_ppm p) ps;
  fit_sum : sumN ExpertPrediction.score_ppm ps <= SCORE_SCALE
}.

(** The candidates among the experts [dn], with the total of their counts. *)
Definition candidates_ok (dn : list N) '((cs, total) : list (N * N) * N) : Prop :=
  Forall (fun c => c.1 <= 2 * u16_max /\ c.2 ∈ dn) cs /\ NoDup cs.*2 /\ total = sumN fst cs
  /\ total <= 2 * u16_max * lenN dn.

Lemma candidate_ok n p current dn expert s :
  predictor_ok n p -> CausalPredictor.transitions p <> [] -> valid_route current ->
  expert < EXPERT_COUNT -> expert ∉ dn -> lenN dn < EXPERT_COUNT -> candidates_ok dn s ->
  post (CausalPredictor.candidate p current s expert) (candidates_ok (dn ++ [expert])) (fun _ => False).
Proof.
  intros [[?|[Hl Hc]] _] Hne (Hc1 & Hc2 & _) He Hnew Hlen; [done|]. destruct s as [cs total].
  intros (Hcs & Hnd & Htot & Hmax). unfold CausalPredictor.candidate, EXPERT_COUNT in *.
  destruct (lookup_lt_is_Some_2 (CausalPredictor.transitions p) (N.to_nat (current.1 * 128 + expert)))
    as [a Ea]; [lia|].
  destruct (lookup_lt_is_Some_2 (CausalPredictor.transitions p) (N.to_nat (current.2 * 128 + expert)))
    as [b Eb]; [lia|].
  rewrite Ea, Eb. cbn [expect mbind result_bind]. rewrite list.Forall_lookup in Hc.
  apply Hc in Ea, Eb. cbn beta in Ea, Eb. unfold u16_max in *. unfold add_or_panic, checked_add.
  rewrite (proj2 (N.leb_le _ _)) by (unfold u64_max; lia). cbn [expect mbind result_bind].
  rewrite (proj2 (N.leb_le _ _)) by (unfold u64_max; lia). cbn [expect mbind result_bind].
  apply post_ok. unfold lenN in *. unfold candidates_ok, lenN, u16_max. rewrite length_app. cbn [length].
  assert (Forall (fun c => c.1 <= 2 * 65535 /\ c.2 ∈ dn ++ [expert]) cs) as Hcs'.
  { eapply Forall_impl; [exact Hcs|]. intros c [? ?]. split; [done|]. set_solver. }
  destruct (N.eqb_spec (a + b) 0) as [->|Hpos].
  - split_and!; [done | done | lia | lia].
  - rewrite Forall_app, fmap_app, sumN_app. split_and!; [done | | | simpl; lia | lia].
    + repeat constructor; [simpl; lia | set_solver].
    + apply NoDup_snoc; [done|]. intros (c & Ec & Hin)%list_elem_of_fmap. cbn in Ec. subst expert. apply Hnew.
      rewrite list.Forall_forall in Hcs. by apply Hcs.
Qed.

Lemma prediction_spec total c p :
  CausalPredictor.prediction total c = Some p ->
  ExpertPrediction.expert p = c.2 /\ ExpertPrediction.score_ppm p = c.1 * SCORE_SCALE / total
  /\ PREDICTOR_MIN_SCORE_PPM <= ExpertPrediction.score_ppm p /\ total <> 0.
Proof.
  destruct c as [c e]. unfold CausalPredictor.prediction. intros H.
  apply bind_Some in H as (scaled & [-> _]%checked_mul_Some & H).
  apply bind_Some in H as (value & Hv & H). destruct (N.eqb_spec total 0) as [|Ht]; [done|].
  injection Hv as <-. apply bind_Some in H as (score & Hs & H).
  destruct (_ <=? u32_max); [|done]. injection Hs as <-.
  destruct (N.leb_spec PREDICTOR_MIN_SCORE_PPM (c * SCORE_SCALE / total)); [|done]. by injection H as <-.
Qed.

Lemma length_omap_le {A B} (f : A -> option B) (l : list A) : (length (omap f l) <= length l)%nat.
Proof. induction l as [|x l IH]; [done|]. cbn. destruct (f x); cbn; unfold omap in *; lia. Qed.

(** Quotients of parts of a total by the total sum to at most the scale. *)
Lemma omap_prediction_fit total cs :
  (length cs <= 2)%nat -> NoDup cs.*2 -> Forall (fun c => c.2 < EXPERT_COUNT) cs ->
  sumN fst cs <= total -> predictions_fit (omap (CausalPredictor.prediction total) cs).
Proof.
  intros Hl Hnd He Hsum. set (ps := omap _ cs).
  assert (forall p, p ∈ ps -> exists c, c ∈ cs /\ CausalPredictor.prediction total c = Some p) as Hps.
  { intros p. subst ps. rewrite list_elem_of_omap. naive_solver. }
  split.
  - etrans; [apply length_omap_le | exact Hl].
  - apply list.Forall_forall. intros p (c & Hc & (-> & _)%prediction_spec)%Hps.
    rewrite list.Forall_forall in He. by apply He.
  - subst ps. clear -Hnd. induction cs as [|c cs IH]; [constructor|]. apply NoDup_cons in Hnd as [Hn Hnd].
    simpl. destruct (CausalPredictor.prediction total c) as [p|] eqn:E; [|by apply IH].
    apply prediction_spec in E as (Ee & _). rewrite fmap_cons. apply NoDup_cons. split; [|by apply IH].
    rewrite Ee. intros (q & Eq & (c' & Hc' & (Hq & _)%prediction_spec)%list_elem_of_omap)%list_elem_of_fmap.
    apply Hn. rewrite Eq, Hq. by apply list_elem_of_fmap_2.
  - apply list.Forall_forall. intros p (c & Hc & (_ & _ & ? & _)%prediction_spec)%Hps. done.
  - destruct (decide (total = 0)) as [->|Ht].
    { destruct ps as [|p ps'] eqn:E; [done|]. exfalso.
      destruct (Hps p) as (c & _ & (_ & _ & _ & ?)%prediction_spec); [left | done]. }
    assert (sumN ExpertPrediction.score_ppm ps * total <= sumN fst cs * SCORE_SCALE) as Hle.
    { subst ps. clear -Ht. induction cs as [|c cs IH]; [simpl; lia|].
      change (sumN fst (c :: cs)) with (c.1 + sumN fst cs). cbn [omap list_omap].
      change (list_omap _ _ (CausalPredictor.prediction total) cs)
        with (omap (CausalPredictor.prediction total) cs).
      destruct (CausalPredictor.prediction total c) as [p|] eqn:E; [|lia].
      apply prediction_spec in E as (_ & Es & _).
      set (rest := omap _ cs) in *. change (sumN ExpertPrediction.score_ppm (p :: rest))
        with (ExpertPrediction.score_ppm p + sumN ExpertPrediction.score_ppm rest).
      rewrite Es. pose proof (N.Div0.mul_div_le (c.1 * SCORE_SCALE) total). lia. }
    assert (sumN fst cs * SCORE_SCALE <= total * SCORE_SCALE) as Hle2 by (apply N.mul_le_mono_r; lia).
    apply (N.mul_le_mono_pos_r _ _ total); lia.
Qed.

Lemma predict_ok n p current :
  predictor_ok n p -> valid_route current ->
  post (CausalPredictor.predict current p) predictions_fit (fun _ => False).
Proof.
  intros Hp Hc. unfold CausalPredictor.predict.
  destruct (CausalPredictor.transitions p) as [|t0 ts] eqn:E; [by apply post_ok; repeat constructor|].
  apply post_bind. eapply post_strengthen.
  - apply (post_try_fold _ _ candidates_ok); [unfold candidates_ok; by repeat constructor|].
    intros dn expert rest s Hl Hs.
    assert (NoDup (dn ++ expert :: rest)) as Hnd.
    { rewrite <- Hl. unfold rangeN. apply NoDup_fmap_2; [apply _ | apply NoDup_seq]. }
    apply NoDup_app in Hnd as (_ & Hnd & _). apply (candidate_ok n); [done | by rewrite E | done | | | | done].
    + apply elem_of_rangeN. rewrite Hl. set_solver.
    + intros Hin. apply (Hnd expert Hin). left.
    + apply (f_equal length) in Hl. rewrite length_rangeN, length_app in Hl. cbn [length] in Hl. unfold lenN. lia.
  - intros [cs total] (Hcs & Hnd & Htot & _).
    destruct (total <? PREDICTOR_MIN_SUPPORT); [by apply post_ok; repeat constructor|]. apply post_ok.
    set (sorted := sort_by_key CausalPredictor.candidate_key cs).
    assert (sorted ≡ₚ cs) as Hperm by apply sort_by_key_perm.
    assert (take 2 sorted ⊆+ cs) as Hsub.
    { rewrite <- Hperm. apply sublist_submseteq, sublist_take. }
    apply omap_prediction_fit.
    + rewrite length_take. lia.
    + rewrite <- Hperm in Hnd. rewrite fmap_take. rewrite <- (take_drop 2 sorted.*2) in Hnd.
      by apply NoDup_app in Hnd as [? _].
    + apply list.Forall_forall. intros c Hin. rewrite list.Forall_forall in Hcs.
      apply elem_of_rangeN, Hcs. by eapply elem_of_submseteq.
    + rewrite Htot. by apply sumN_sublist.
Qed.

(** * The state is never zero *)

(** Words of 64 bits, by their bits. *)
Lemma word_bits x : x < 2 ^ 64 <-> forall i, 64 <= i -> N.testbit x i = false.
Proof.
  split.
  - intros Hx i Hi. destruct (decide (x = 0)) as [->|H0]; [apply N.bits_0|].
    apply N.bits_above_log2. apply N.log2_lt_pow2 in Hx; lia.
  - intros Hb. destruct (decide (x = 0)) as [->|H0]; [done|]. apply N.log2_lt_pow2; [lia|].
    destruct (N.lt_ge_cases (N.log2 x) 64) as [|Hge]; [done|].
    specialize (Hb _ Hge). by rewrite N.bit_log2 in Hb.
Qed.

Lemma lxor_word x y : x < 2 ^ 64 -> y < 2 ^ 64 -> N.lxor x y < 2 ^ 64.
Proof. rewrite !word_bits. intros Hx Hy i Hi. by rewrite N.lxor_spec, Hx, Hy. Qed.

Lemma rotate_word x k : k <= 64 -> x < 2 ^ 64 -> rotate_left x k < 2 ^ 64.
Proof.
  intros Hk Hx. pose proof (proj1 (word_bits x) Hx) as Hb. apply word_bits. intros i Hi. unfold rotate_left.
  rewrite N.lor_spec, N.mod_pow2_bits_high, N.shiftr_spec' by done. apply Hb. lia.
Qed.

Lemma rotate_zero x k : 0 < k < 64 -> x < 2 ^ 64 -> rotate_left x k = 0 -> x = 0.
Proof.
  intros Hk Hx Hr. apply N.bits_inj_0. intros i. pose proof (proj1 (word_bits x) Hx) as Hb.
  destruct (N.lt_ge_cases i 64) as [Hi|Hi]; [|by apply Hb].
  assert (forall j, N.testbit (rotate_left x k) j = false) as Hz by (intros j; rewrite Hr; apply N.bits_0).
  unfold rotate_left in Hz. destruct (N.lt_ge_cases i (64 - k)) as [Hlow|Hhigh].
  - specialize (Hz (i + k)). rewrite N.lor_spec, N.mod_pow2_bits_low, N.shiftl_spec_high' in Hz by lia.
    apply orb_false_iff in Hz as [Hz _]. by rewrite N.add_sub in Hz.
  - specialize (Hz (i - (64 - k))). rewrite N.lor_spec, N.shiftr_spec' in Hz.
    apply orb_false_iff in Hz as [_ Hz]. by rewrite N.sub_add in Hz by lia.
Qed.

(** A word that is its own left shift has no lowest bit. *)
Lemma shift_fixpoint x k : 0 < k -> x < 2 ^ 64 -> shift_left x k = x -> x = 0.
Proof.
  intros Hk Hx Hs. pose proof (proj1 (word_bits x) Hx) as Hb. apply N.bits_inj_0. intros i.
  induction (N.lt_wf_0 i) as [i _ IH]. destruct (N.lt_ge_cases i 64) as [Hi|Hi]; [|by apply Hb].
  rewrite <- Hs. unfold shift_left. rewrite N.mod_pow2_bits_low by done.
  destruct (N.lt_ge_cases i k) as [Hlow|Hhigh]; [by apply N.shiftl_spec_low|].
  rewrite N.shiftl_spec_high' by done. apply IH. lia.
Qed.

Definition words_ok (g : Xoshiro256StarStar.t) : Prop :=
  Xoshiro256StarStar.state0 g < 2 ^ 64 /\ Xoshiro256StarStar.state1 g < 2 ^ 64
  /\ Xoshiro256StarStar.state2 g < 2 ^ 64 /\ Xoshiro256StarStar.state3 g < 2 ^ 64
  /\ g <> Xoshiro256StarStar.mk 0 0 0 0.

Lemma next_words g : words_ok g -> words_ok (Xoshiro256StarStar.next_u64 g).2.
Proof.
  destruct g as [a b c d]. unfold words_ok. cbn [Xoshiro256StarStar.next_u64 snd Xoshiro256StarStar.state0
    Xoshiro256StarStar.state1 Xoshiro256StarStar.state2 Xoshiro256StarStar.state3].
  intros (Ha & Hb & Hc & Hd & Hne).
  assert (shift_left b 17 < 2 ^ 64) as Hs by (by apply N.mod_lt).
  split_and!; [by repeat apply lxor_word | by repeat apply lxor_word | by repeat apply lxor_word |
    apply rotate_word; [done | by apply lxor_word] |].
  intros [= H0 H1 H2 H3]. apply rotate_zero in H3; [|done | by apply lxor_word].
  rewrite H3, N.lxor_0_r in H0. subst a. apply N.lxor_eq in H1, H2, H3. rewrite N.lxor_0_r in H1, H2.
  rewrite <- H1 in H2. assert (b = 0) as E by (by apply (shift_fixpoint b 17)). apply Hne. congruence.
Qed.

Lemma from_seed_words seed : Forall (fun b => b < 256) seed -> words_ok (Xoshiro256StarStar.from_seed seed).
Proof.
  intros Hs. assert (forall i, from_le_bytes (take 8 (drop (8 * i) seed)) < 2 ^ 64) as Hw.
  { intros i. assert (Forall (fun b => b < 256) (take 8 (drop (8 * i) seed))) as Hf by (by apply Forall_take, Forall_drop).
    assert (forall l, Forall (fun b => b < 256) l -> from_le_bytes l < 256 ^ lenN l) as Hle.
    { clear. induction 1 as [|b l Hb _ IH]; [done|]. cbn [from_le_bytes]. unfold lenN in *. cbn [length].
      rewrite Nat2N.inj_succ, N.pow_succ_r'. lia. }
    apply Hle in Hf. eapply N.lt_le_trans; [exact Hf|]. change (2 ^ 64) with (256 ^ 8).
    apply N.pow_le_mono_r; [done|]. unfold lenN. rewrite length_take. lia. }
  unfold Xoshiro256StarStar.from_seed. case_decide as E; [by vm_compute|]. 
  split_and!; [apply (Hw 0%nat) | apply (Hw 1%nat) | apply (Hw 2%nat) | apply (Hw 3%nat) | exact E].
Qed.
