(* ===== verification/SimGeneratorRun.v ===== *)
(** Whole runs of the generator: the events of a run as a function of its routes.
    The routes come from the seed alone ([route_run]); the signal before a step is
    the forecast from the routes before it ([forecast]); [script] lists the events
    of every step with the number zero, and [number] numbers them. *)
From stdpp Require Import prelude gmap strings pretty sorting.
From S2P Require Import Prelude SimModel SimEngine SimTrace SimGenerator SimGeneratorFacts.
#[local] Open Scope N_scope.
#[local] Arguments N.pow : simpl never.
#[local] Arguments u64_max : simpl never.
#[local] Arguments usize_max : simpl never.

Abbreviation Route := (N * N)%type (only parsing).

(** * The reference *)

Definition route_step (fuel : nat) (s : list Route * RouteGenerator.t) (step : N)
    : draws (list Route * RouteGenerator.t) :=
  '(first, second, g) ← RouteGenerator.next_route fuel step s.2;
  Ok (s.1 ++ [(first, second)], g).

(** The first [n] routes of a family and a seed. *)
Definition route_run (fuel : nat) (family : TraceFamily.t) (seed : list N) (n : N)
    : draws (list Route * RouteGenerator.t) :=
  g ← RouteGenerator.new fuel family seed;
  try_fold (route_step fuel) ([], g) (rangeN n).

(** A predictor that has observed a history of routes, with the last of them. *)
Definition learn_step (s : option Route * CausalPredictor.t) (route : Route)
    : draws (option Route * CausalPredictor.t) :=
  p ← (match s.1 with
       | Some prior => CausalPredictor.observe prior route s.2
       | None => Ok s.2
       end);
  Ok (Some route, p).
Definition learn (history : list Route) : draws (option Route * CausalPredictor.t) :=
  try_fold learn_step (None, CausalPredictor.default) history.

(** What the predictor says after a history; it never fails ([forecast_fit]). *)
Definition forecast (history : list Route) : list ExpertPrediction.t :=
  match ('(previous, p) ← learn history;
         match previous with Some route => CausalPredictor.predict route p | None => Ok [] end) with
  | Ok ps => ps
  | _ => []
  end.

Definition signal_events (step : N) (ps : list ExpertPrediction.t) : list TraceEvent.t :=
  if decide (ps = []) then [] else [TraceEvent.RouterSignal 0 0 step LAYER ps].
Definition expert_events (step expert : N) : list TraceEvent.t :=
  (fun ordinal => TraceEvent.Demand 0 0 step (expert * PAGES_PER_EXPERT + ordinal)) <$> rangeN PAGES_PER_EXPERT.
Definition demand_events (step : N) (route : Route) : list TraceEvent.t :=
  expert_events step route.1 ++ expert_events step route.2.

(** The events of step [k]: its signal, then its demands. *)
Definition step_events (burn_in routes : list Route) (k : nat) : list TraceEvent.t :=
  match routes !! k with
  | Some route => signal_events (N.of_nat k) (forecast (burn_in ++ take k routes))
                    ++ demand_events (N.of_nat k) route
  | None => []
  end.
Definition script (burn_in routes : list Route) : list TraceEvent.t :=
  mjoin (step_events burn_in routes <$> seq 0 (length routes)).

(** Numbering the events of a script. *)
Definition with_sequence (sequence : N) (event : TraceEvent.t) : TraceEvent.t :=
  match event with
  | TraceEvent.RouterSignal _ request target_step layer ps =>
      TraceEvent.RouterSignal sequence request target_step layer ps
  | TraceEvent.Demand _ request step page => TraceEvent.Demand sequence request step page
  end.
Definition number (l : list TraceEvent.t) : list TraceEvent.t :=
  imap (fun i => with_sequence (N.of_nat i)) l.

Definition route_bytes (routes : list Route) : list N :=
  mjoin ((fun route => to_le_bytes 4 route.1 ++ to_le_bytes 4 route.2) <$> routes).

(** * Facts about the reference *)

Lemma step_events_app burn_in routes more k :
  (k < length routes)%nat -> step_events burn_in (routes ++ more) k = step_events burn_in routes k.
Proof.
  intros Hk. unfold step_events. rewrite lookup_app_l by done. destruct (routes !! k); [|done].
  by rewrite take_app_le by lia.
Qed.

Lemma script_app burn_in routes more :
  exists rest, script burn_in (routes ++ more) = script burn_in routes ++ rest.
Proof.
  unfold script. rewrite length_app, seq_app, fmap_app, join_app. eexists. f_equal. f_equal.
  apply list_fmap_ext. intros i k Hk%lookup_seq. apply step_events_app. lia.
Qed.

Lemma script_snoc burn_in routes route :
  script burn_in (routes ++ [route]) = script burn_in routes
    ++ signal_events (lenN routes) (forecast (burn_in ++ routes)) ++ demand_events (lenN routes) route.
Proof.
  unfold script. rewrite length_app, seq_app, fmap_app, join_app. f_equal.
  - f_equal. apply list_fmap_ext. intros i k Hk%lookup_seq. apply step_events_app. lia.
  - cbn [length seq fmap list_fmap mjoin list_join]. rewrite app_nil_r. unfold step_events.
    rewrite Nat.add_0_l, list_lookup_middle by done. by rewrite take_app_length.
Qed.

Lemma number_app l1 l2 : number (l1 ++ l2) = number l1 ++ imap (fun i => with_sequence (lenN l1 + N.of_nat i)) l2.
Proof.
  unfold number. rewrite imap_app. f_equal. apply imap_ext. intros i x _. unfold lenN. simpl. f_equal. lia.
Qed.

Lemma length_number l : length (number l) = length l.
Proof. apply length_imap. Qed.

Lemma route_bytes_snoc routes first second :
  route_bytes (routes ++ [(first, second)])
  = route_bytes routes ++ to_le_bytes 4 first ++ to_le_bytes 4 second.
Proof.
  unfold route_bytes. rewrite fmap_app, join_app. cbn [fmap list_fmap mjoin list_join fst snd].
  by rewrite app_nil_r.
Qed.

Lemma rangeN_middle n dn x rest : rangeN n = dn ++ x :: rest -> x = lenN dn /\ lenN dn < n.
Proof.
  intros E. assert (rangeN n !! length dn = Some x) as Hx by (rewrite E; by apply list_lookup_middle).
  unfold rangeN in Hx. rewrite list_lookup_fmap in Hx. unfold lenN.
  destruct (seq 0 (N.to_nat n) !! length dn) as [y|] eqn:Ey; [|done].
  apply lookup_seq in Ey as [-> ?]. injection Hx as <-. split; lia.
Qed.

(** ** Learning *)

Record learned (history : list Route) (previous : option Route) (p : CausalPredictor.t) : Prop := {
  learned_from : learn history = Ok (previous, p);
  learned_last : previous = last history;
  learned_ok : predictor_ok (lenN history - 1) p
}.

Lemma learned_nil : learned [] None CausalPredictor.default.
Proof. split; [done | done |]. split; [by left | done]. Qed.

Lemma learn_snoc history previous p route :
  learned history previous p -> Forall valid_route (history ++ [route]) -> lenN history < u64_max ->
  post (match previous with
        | Some prior => CausalPredictor.observe prior route p
        | None => Ok p
        end) (learned (history ++ [route]) (Some route)) (fun _ => False).
Proof.
  intros [Hl Hlast Hp] [Hv Hr]%Forall_app Hw. apply Forall_cons_1 in Hr as [Hr _].
  assert (forall p', (match previous with
        | Some prior => CausalPredictor.observe prior route p
        | None => Ok p
        end) = Ok p' -> learn (history ++ [route]) = Ok (Some route, p')) as Hlearn.
  { intros p' E. unfold learn in *. rewrite try_fold_app, Hl. simpl. unfold learn_step. simpl. by rewrite E. }
  destruct previous as [prior|].
  - symmetry in Hlast. apply last_Some in Hlast as [l ->]. rewrite Forall_app in Hv.
    destruct Hv as [_ Hv%Forall_cons_1]. destruct Hv as [Hprior _].
    pose proof (observe_ok _ p prior route Hp ltac:(lia) Hprior Hr) as Ho.
    destruct (CausalPredictor.observe prior route p) as [p'| |] eqn:E; [|done..]. simpl in *.
    split; [by apply Hlearn | by rewrite last_snoc |]. unfold lenN in *.
    rewrite !length_app in *. simpl in *.
    replace (N.of_nat (length l + 1 + 1) - 1) with (N.of_nat (length l + 1) - 1 + 1) by lia. done.
  - symmetry in Hlast. apply last_None in Hlast as ->. simpl in *. split; [by apply Hlearn | done | done].
Qed.

(** The forecast after a history of routes carries what a signal may carry. *)
Lemma forecast_of history previous p route :
  learned history previous p -> last history = Some route ->
  forecast history = match CausalPredictor.predict route p with Ok ps => ps | _ => [] end.
Proof.
  intros [Hl Hlast _] Hr. unfold forecast. rewrite Hl. simpl. rewrite Hlast, Hr. done.
Qed.

Lemma predict_forecast history previous p route :
  learned history previous p -> last history = Some route -> valid_route route ->
  CausalPredictor.predict route p = Ok (forecast history) /\ predictions_fit (forecast history).
Proof.
  intros Hl Hr Hv. rewrite (forecast_of _ _ _ _ Hl Hr).
  pose proof (predict_ok _ p route (learned_ok _ _ _ Hl) Hv) as Hp.
  by destruct (CausalPredictor.predict route p) as [ps| |].
Qed.

Lemma history_learned history :
  Forall valid_route history -> lenN history <= u64_max -> exists previous p, learned history previous p.
Proof.
  induction history as [|route history IH] using rev_ind; intros Hv Hw.
  - exists None, CausalPredictor.default. apply learned_nil.
  - unfold lenN in Hw. rewrite length_app in Hw. simpl in Hw.
    destruct (IH (proj1 (proj1 (Forall_app _ _ _) Hv))) as (previous & p & Hl); [unfold lenN; lia|].
    pose proof (learn_snoc _ _ _ _ Hl Hv) as H. specialize (H ltac:(unfold lenN; lia)).
    destruct (match previous with Some prior => _ | None => _ end) as [p'| |]; [by eexists _, _ | done..].
Qed.

Lemma forecast_fit history :
  Forall valid_route history -> lenN history <= u64_max -> predictions_fit (forecast history).
Proof.
  intros Hv Hw. destruct (history_learned history Hv Hw) as (previous & p & Hl).
  destruct (last history) as [route|] eqn:E.
  - apply (predict_forecast _ _ _ _ Hl E). apply last_Some in E as [l ->].
    apply Forall_app in Hv as [_ Hv%Forall_cons_1]. apply Hv.
  - apply last_None in E as ->. change (forecast []) with (@nil ExpertPrediction.t).
    split; [simpl; lia | constructor.. | done].
Qed.

(** * The loops *)

(** The stream holds the events of a script. *)
Definition streams (s : Stream.t) (l : list TraceEvent.t) : Prop :=
  Stream.events s = number l /\ Stream.sequence s = lenN l.

Lemma push_ok s l event (X : Stop -> Prop) :
  streams s l -> lenN l < u64_max ->
  post (Stream.push (with_sequence (Stream.sequence s) event) s) (fun s' => streams s' (l ++ [event])) X.
Proof.
  intros [He Hs] Hw. unfold Stream.push, checked_add. rewrite Hs, (proj2 (N.leb_le _ _)) by lia. simpl.
  split; simpl.
  - rewrite number_app, He. simpl. do 3 f_equal. lia.
  - unfold lenN. rewrite length_app. simpl. lia.
Qed.

Lemma push_signal_ok s l step ps (X : Stop -> Prop) :
  streams s l -> lenN l < u64_max -> step <= u64_max -> ps <> [] ->
  post (push_signal s step ps) (fun s' => streams s' (l ++ signal_events step ps)) X.
Proof.
  intros Hs Hw Hstep Hne. unfold push_signal. apply post_bind, post_guard; [intros ?%N.ltb_lt; lia|].
  intros _. unfold signal_events. rewrite decide_False by done.
  by apply (push_ok s l (TraceEvent.RouterSignal 0 0 step LAYER ps)).
Qed.

Lemma push_demand_ok s l step expert ordinal (X : Stop -> Prop) :
  streams s l -> lenN l < u64_max -> expert < EXPERT_COUNT -> ordinal < PAGES_PER_EXPERT ->
  post (push_demand step expert s ordinal)
    (fun s' => streams s' (l ++ [TraceEvent.Demand 0 0 step (expert * PAGES_PER_EXPERT + ordinal)])) X.
Proof.
  intros Hs Hw He Ho. unfold push_demand, EXPERT_COUNT, PAGES_PER_EXPERT in *. unfold checked_mul, checked_add.
  rewrite (proj2 (N.leb_le _ _)) by (unfold usize_max, u64_max; lia). cbn [option_bind mbind].
  rewrite (proj2 (N.leb_le _ _)) by (unfold usize_max, u64_max; lia). cbn [ok_or mbind result_bind].
  apply post_bind, post_guard; [intros Hlt%N.ltb_lt; unfold u32_max in Hlt; lia|]. intros _.
  by apply (push_ok s l (TraceEvent.Demand 0 0 step (expert * 3 + ordinal))).
Qed.

Lemma length_expert_events step expert : length (expert_events step expert) = 3%nat.
Proof. done. Qed.

Lemma push_expert_ok s l step expert (X : Stop -> Prop) :
  streams s l -> lenN l + 3 <= u64_max -> expert < EXPERT_COUNT ->
  post (try_fold (push_demand step expert) s (rangeN PAGES_PER_EXPERT))
    (fun s' => streams s' (l ++ expert_events step expert)) X.
Proof.
  intros Hs Hw He.
  apply (post_try_fold _ _ (fun dn s' => streams s' (l ++ ((fun ordinal =>
    TraceEvent.Demand 0 0 step (expert * PAGES_PER_EXPERT + ordinal)) <$> dn)))); [by rewrite app_nil_r|].
  intros dn ordinal rest s1 E Hs1. apply rangeN_middle in E as [-> Ho]. unfold PAGES_PER_EXPERT, lenN in *.
  rewrite fmap_app, app_assoc. apply push_demand_ok; [done | | done | done].
  unfold lenN. rewrite length_app, length_fmap. lia.
Qed.

Lemma push_demands_ok s l step route (X : Stop -> Prop) :
  streams s l -> lenN l + 6 <= u64_max -> step <= u64_max -> valid_route route ->
  post (push_demands s step route) (fun s' => streams s' (l ++ demand_events step route)) X.
Proof.
  intros Hs Hw Hstep (H1 & H2 & _). unfold push_demands, demand_events.
  apply post_bind, post_guard; [intros ?%N.ltb_lt; lia|]. intros _. cbn [try_fold]. apply post_bind.
  eapply post_strengthen; [apply push_expert_ok; [exact Hs | lia | done]|]. intros s1 Hs1. apply post_bind.
  rewrite app_assoc. eapply post_strengthen; [apply push_expert_ok; [exact Hs1 | | done]|].
  - unfold lenN in *. rewrite length_app, length_expert_events. lia.
  - intros s2 Hs2. by apply post_ok.
Qed.

Lemma length_script burn_in routes : (length (script burn_in routes) <= 7 * length routes)%nat.
Proof.
  induction routes as [|route routes IH] using rev_ind; [done|].
  rewrite script_snoc, !length_app. unfold demand_events. rewrite length_app, !length_expert_events.
  unfold signal_events. case_decide; simpl; lia.
Qed.

Section run.
Context (fuel count : nat) (family : TraceFamily.t) (seed : list N).
Abbreviation g0 := (Xoshiro256StarStar.from_seed seed).
Abbreviation stalled := (stalled fuel count g0).

(** The generation has gone through the routes [rs]. *)
Record history_ok (g1 : RouteGenerator.t) (full : list N) (rs : list Route) (s : Generation.t) : Prop := {
  history_run : try_fold (route_step fuel) ([], g1) (rangeN (lenN rs)) = Ok (rs, Generation.routes s);
  history_routes : routes_ok fuel g0 family (128 + 4 * length rs) (Generation.routes s);
  history_valid : Forall valid_route rs;
  history_known : learned rs (Generation.previous s) (Generation.predictor s);
  history_full : Generation.full_digest s = full ++ route_bytes rs
}.

Lemma step_route_ok g1 full rs s :
  history_ok g1 full rs s -> (128 + 4 * length rs + 3 < count)%nat -> lenN rs <= u32_max ->
  post (RouteGenerator.next_route fuel (lenN rs) (Generation.routes s))
    (fun '(first, second, g) =>
       let rs' := rs ++ [(first, second)] in
       try_fold (route_step fuel) ([], g1) (rangeN (lenN rs')) = Ok (rs', g)
       /\ routes_ok fuel g0 family (128 + 4 * length rs') g /\ Forall valid_route rs') stalled.
Proof.
  intros [Hrun Hg Hv _ _] Hc Hw.
  pose proof (next_route_ok fuel count g0 family _ (lenN rs) _ Hg ltac:(lia) Hw) as H.
  destruct (RouteGenerator.next_route _ _ _) as [[[first second] g]|e|] eqn:E; [|done..].
  destruct H as [Hd Hg']. cbn [post]. split_and!.
  - unfold lenN at 1. rewrite length_app, Nat2N.inj_add. fold (lenN rs). change (N.of_nat (length [_])) with 1.
    rewrite rangeN_succ, try_fold_app, Hrun. cbn [mbind result_bind try_fold]. unfold route_step. cbn [fst snd].
    by rewrite E.
  - eapply routes_ok_mono; [exact Hg'|]. rewrite length_app. cbn [length]. lia.
  - apply Forall_app. split; [done|]. constructor; [exact Hd | constructor].
Qed.

(** Observing the route of a step. *)
Lemma step_history_ok g1 full rs s route g m ps stream :
  history_ok g1 full rs s -> lenN rs < u64_max ->
  try_fold (route_step fuel) ([], g1) (rangeN (lenN (rs ++ [route]))) = Ok (rs ++ [route], g) ->
  routes_ok fuel g0 family (128 + 4 * length (rs ++ [route])) g -> Forall valid_route (rs ++ [route]) ->
  post (match Generation.previous s with
        | Some prior => CausalPredictor.observe prior route (Generation.predictor s)
        | None => Ok (Generation.predictor s)
        end)
    (fun p => history_ok g1 full (rs ++ [route]) 
                (Generation.mk g p (Some route) (digest_route (Generation.full_digest s) route) m ps stream)
              /\ CausalPredictor.predict route p = Ok (forecast (rs ++ [route]))
              /\ predictions_fit (forecast (rs ++ [route]))) (fun _ => False).
Proof.
  intros [_ _ _ Hl Hf] Hw Hrun Hg Hv. eapply post_strengthen; [by apply (learn_snoc rs)|].
  intros p Hp. assert (last (rs ++ [route]) = Some route) as Hlast by apply last_snoc.
  pose proof Hv as [_ Hr%Forall_cons_1]%Forall_app. split.
  - split; try done. cbn [Generation.full_digest]. rewrite Hf. unfold digest_route. destruct route.
    by rewrite route_bytes_snoc, <- !app_assoc.
  - apply (predict_forecast _ _ _ _ Hp Hlast). apply Hr.
Qed.

Lemma never_fails {A} (m : draws A) Q (X : Stop -> Prop) : post m Q (fun _ => False) -> post m Q X.
Proof. intros H. by eapply post_mono; [exact H | | ]. Qed.

(** ** Burn-in *)

Definition burning (g1 : RouteGenerator.t) (full measured : list N) (dn : list N) (s : Generation.t) : Prop :=
  exists rs, length rs = length dn /\ history_ok g1 full rs s /\ Generation.measured_digest s = measured
    /\ Generation.stream s = Stream.empty /\ (rs = [] \/ Generation.predictions s = forecast rs).

Lemma burn_in_step_ok g1 full measured dn s :
  burning g1 full measured dn s -> (128 + 4 * length dn + 3 < count)%nat -> lenN dn <= u32_max ->
  post (burn_in_step fuel s (lenN dn)) (burning g1 full measured (dn ++ [lenN dn])) stalled.
Proof.
  intros (rs & Hlen & Hh & Hm & Hs & _) Hc Hw. unfold lenN in *. rewrite <- Hlen in *.
  unfold burn_in_step. apply post_bind. eapply post_strengthen; [by apply (step_route_ok g1 full rs s)|].
  intros [[first second] g] (Hrun & Hg & Hv). apply post_bind, never_fails. eapply post_strengthen.
  - apply (step_history_ok g1 full rs s (first, second) g (Generation.measured_digest s)
      (forecast (rs ++ [(first, second)])) (Generation.stream s)); [done | | done..].
    unfold u32_max, u64_max, lenN in *. lia.
  - intros p (Hh' & Hpred & _). rewrite Hpred. cbn [mbind result_bind post].
    exists (rs ++ [(first, second)]). split_and!; [|done|done|done|by right].
    rewrite !length_app. simpl. lia.
Qed.

(** ** Measured steps *)

Definition pending (measured_steps : N) (burn_in routes : list Route) : list TraceEvent.t :=
  if lenN routes <? measured_steps then signal_events (lenN routes) (forecast (burn_in ++ routes)) else [].

Definition measuring (g1 : RouteGenerator.t) (full measured : list N) (measured_steps : N)
    (burn_in : list Route) (dn : list N) (s : Generation.t) : Prop :=
  exists routes, length routes = length dn /\ history_ok g1 full (burn_in ++ routes) s
    /\ Generation.measured_digest s = measured ++ route_bytes routes
    /\ streams (Generation.stream s) (script burn_in routes ++ pending measured_steps burn_in routes).

Lemma measured_step_ok g1 full measured measured_steps burn_in dn s :
  lenN burn_in = BURN_IN_STEPS -> measured_steps <= DEFAULT_MEASURED_STEPS ->
  (128 + 4 * (512 + N.to_nat measured_steps) <= count)%nat -> lenN dn < measured_steps ->
  measuring g1 full measured measured_steps burn_in dn s ->
  post (measured_loop_step fuel measured_steps s (lenN dn))
    (measuring g1 full measured measured_steps burn_in (dn ++ [lenN dn])) stalled.
Proof.
  intros Hb Hmax Hc Hdn (routes & Hlen & Hh & Hm & Hs).
  assert (lenN dn = lenN routes) as Edn by (unfold lenN; lia). rewrite Edn in *.
  assert (BURN_IN_STEPS + lenN routes = lenN (burn_in ++ routes)) as Estep.
  { unfold lenN in *. rewrite length_app. lia. }
  unfold DEFAULT_MEASURED_STEPS, BURN_IN_STEPS in *.
  unfold measured_loop_step. unfold BURN_IN_STEPS. rewrite Estep. apply post_bind.
  eapply post_strengthen; [apply (step_route_ok g1 full); [done | unfold lenN in *; lia | unfold u32_max; lia]|].
  intros [[first second] g] (Hrun & Hg & Hv). set (route := (first, second)) in *.
  pose proof Hv as [_ Hr%Forall_cons_1]%Forall_app. pose proof (length_script burn_in routes) as Hls.
  unfold pending in Hs. rewrite (proj2 (N.ltb_lt _ _) Hdn) in Hs.
  set (sent := script burn_in routes ++ _) in Hs.
  assert (lenN sent <= 7 * lenN routes + 1) as Hsent.
  { subst sent. unfold lenN in *. rewrite length_app. unfold signal_events. case_decide; simpl; lia. }
  apply post_bind. eapply post_strengthen;
    [apply (push_demands_ok _ sent); [done | unfold u64_max; lia | unfold u64_max; lia | apply Hr]|].
  intros stream1 Hs1. assert (streams stream1 (script burn_in (routes ++ [route]))) as Hs2.
  { rewrite script_snoc, app_assoc. exact Hs1. }
  clear Hs1. pose proof (learned_last _ _ _ (history_known _ _ _ _ Hh)) as Hlast.
  assert (is_Some (Generation.previous s)) as [prior Eprior].
  { rewrite Hlast. apply last_is_Some. intros E. rewrite E in Estep. change (lenN (@nil (N * N))) with 0 in Estep. lia. }
  rewrite Eprior. cbn [expect mbind result_bind]. apply post_bind, never_fails.
  pose proof (step_history_ok g1 full (burn_in ++ routes) s route g
    (digest_route (Generation.measured_digest s) route)
    (Generation.predictions s)) as Hobs. rewrite Eprior in Hobs.
  eapply post_strengthen; [apply (Hobs stream1 Hh); [unfold u64_max; lia | done..]|]. clear Hobs.
  intros p ([_ _ _ Hk Hfull] & Hpred & Hfit). rewrite <- app_assoc in *.
  assert (forall stream2, streams stream2 (script burn_in (routes ++ [route]) ++ pending measured_steps burn_in (routes ++ [route])) ->
    measuring g1 full measured measured_steps burn_in (dn ++ [lenN routes])
      (Generation.mk g p (Some route) (digest_route (Generation.full_digest s) route)
        (digest_route (Generation.measured_digest s) route) (Generation.predictions s) stream2)) as Hdone.
  { intros stream2 Hst. exists (routes ++ [route]). split_and!; [rewrite !length_app; simpl; lia | by split | | done].
    cbn [Generation.measured_digest]. rewrite Hm. unfold digest_route. subst route.
    by rewrite route_bytes_snoc, <- !app_assoc. }
  assert (lenN (routes ++ [route]) = lenN routes + 1) as Enext by (unfold lenN; rewrite length_app; simpl; lia).
  unfold pending in Hdone. rewrite Enext in Hdone. apply post_bind.
  destruct (lenN routes + 1 <? measured_steps).
  - apply post_bind. rewrite Hpred. cbn [post]. unfold signal_events in Hdone. destruct (decide _) as [E|E].
    + cbn [post]. apply Hdone. by rewrite app_nil_r.
    + eapply post_strengthen.
      * apply (push_signal_ok _ _ _ _ _ Hs2); [|unfold u64_max; lia|exact E].
        pose proof (length_script burn_in (routes ++ [route])). unfold lenN in *. unfold u64_max. lia.
      * intros stream2 Hst. cbn [post]. apply Hdone. unfold signal_events in Hst. by rewrite decide_False in Hst.
  - cbn [post]. apply Hdone. by rewrite app_nil_r.
Qed.

(** ** The whole run *)

Lemma loop_ok {A} (f : A -> N -> draws A) n (I : list N -> A -> Prop) a :
  I [] a ->
  (forall dn b, lenN dn < n -> I dn b -> post (f b (lenN dn)) (I (dn ++ [lenN dn])) stalled) ->
  post (try_fold f a (rangeN n)) (I (rangeN n)) stalled.
Proof.
  intros H0 Hstep. apply post_try_fold; [done|]. intros dn x rest b E HI.
  apply rangeN_middle in E as [-> Hx]. by apply Hstep.
Qed.

(** What a run leaves behind. *)
Record ran (measured_steps : N) (burn_in routes : list Route) (s : Generation.t) : Prop := {
  ran_run : route_run fuel family seed (BURN_IN_STEPS + measured_steps)
            = Ok (burn_in ++ routes, Generation.routes s);
  ran_burn_in : lenN burn_in = BURN_IN_STEPS;
  ran_measured : lenN routes = measured_steps;
  ran_valid : Forall valid_route (burn_in ++ routes);
  ran_events : Stream.events (Generation.stream s) = number (script burn_in routes);
  ran_full : Generation.full_digest s
    = route_digest (nul_terminated "runnel-m3-full-routes-v1") (BURN_IN_STEPS + measured_steps) ++ route_bytes (burn_in ++ routes);
  ran_digest : Generation.measured_digest s
    = route_digest (nul_terminated "runnel-m3-measured-routes-v1") measured_steps ++ route_bytes routes
}.

Lemma generate_events_ok measured_steps :
  0 < measured_steps <= DEFAULT_MEASURED_STEPS ->
  (128 + 4 * (512 + N.to_nat measured_steps) <= count)%nat ->
  post (generate_events fuel family seed measured_steps)
    (fun s => exists burn_in routes, ran measured_steps burn_in routes s) stalled.
Proof.
  intros Hm Hc. unfold generate_events. apply post_bind.
  pose proof (generator_new_ok fuel count g0 family seed eq_refl ltac:(lia)) as Hnew.
  destruct (RouteGenerator.new fuel family seed) as [g1|e|] eqn:Enew; [|done..]. cbn [post] in *.
  set (full := route_digest (nul_terminated "runnel-m3-full-routes-v1") _).
  set (measured := route_digest (nul_terminated "runnel-m3-measured-routes-v1") _). apply post_bind.
  eapply post_strengthen; [apply (loop_ok _ _ (burning g1 full measured))|].
  { exists []. split_and!; [done | | done | done | by left].
    split; [done | done | constructor | apply learned_nil | by rewrite app_nil_r]. }
  { intros dn s Hdn Hs. unfold BURN_IN_STEPS, lenN in Hdn.
    apply burn_in_step_ok; [done | lia | unfold lenN, u32_max; lia]. }
  intros s (burn_in & Hlen & Hh & Hmd & Hst & Hp). rewrite length_rangeN in Hlen.
  unfold DEFAULT_MEASURED_STEPS in Hm.
  assert (lenN burn_in = BURN_IN_STEPS) as Hb by (unfold lenN; lia).
  destruct Hp as [->|Hp]; [done|].
  unfold checked_mul. rewrite (proj2 (N.leb_le _ _)) by (unfold usize_max, u64_max; lia).
  cbn [ok_or mbind result_bind]. apply post_bind.
  eapply (post_strengthen _ (fun stream => streams stream (pending measured_steps burn_in []))).
  { rewrite Hp, Hst. unfold pending. rewrite (proj2 (N.ltb_lt (lenN (@nil Route)) measured_steps)) by apply Hm.
    rewrite app_nil_r. destruct (decide (forecast burn_in = [])) as [E|E].
    - unfold signal_events. by rewrite decide_True.
    - by apply (push_signal_ok Stream.empty [] 0). }
  intros stream Hstream.
  eapply post_strengthen;
    [apply (loop_ok _ _ (measuring g1 full measured measured_steps burn_in)); [|]|].
  { exists []. split_and!; [done | | by rewrite Hmd, app_nil_r | exact Hstream].
    rewrite app_nil_r. by destruct Hh. }
  { intros dn s' Hdn Hs'. apply measured_step_ok; [done | apply Hm | done..]. }
  intros s' (routes & Hrl & [Hrun _ Hv _ Hfd] & Hmd' & Hs'). rewrite length_rangeN in Hrl.
  assert (lenN routes = measured_steps) as Hr by (unfold lenN; lia).
  exists burn_in, routes. split; try done.
  - unfold route_run. rewrite Enew. cbn [mbind result_bind].
    rewrite <- Hr, <- Hb. unfold lenN in *. rewrite length_app, Nat2N.inj_add in Hrun. exact Hrun.
  - destruct Hs' as [He _]. rewrite He. unfold pending.
    by rewrite (proj2 (N.ltb_ge (lenN routes) measured_steps)), app_nil_r by lia.
Qed.
End run.
