(* ===== verification/SimGeneratorTrace.v ===== *)
(** The events and the header of a generated trace are what the validator asks
    for: the order of the events of a script, the catalog, the identifier; and
    what is assumed of the JSON codec, [wire_ok].

    At the end, a concrete codec for the records of a generated trace: the compact JSON text
    of serde's derived writers, and a reader that takes the numbers out of it.  It
    shows that what is assumed of a codec ([wire_ok]) can hold. *)
From stdpp Require Import prelude gmap strings pretty sorting.
From S2P Require Import Prelude Decimal SimModel SimEngine SimTrace SimTraceOk SimGenerator.
From S2P Require Import SimGeneratorFacts SimGeneratorRun.
#[local] Open Scope N_scope.
#[local] Arguments N.pow : simpl never.
#[local] Arguments u64_max : simpl never.
#[local] Arguments usize_max : simpl never.
#[local] Arguments page_catalog : simpl never.

(** * The order of a script *)

Definition event_step (event : TraceEvent.t) : N :=
  match event with
  | TraceEvent.RouterSignal _ _ target_step _ _ => target_step
  | TraceEvent.Demand _ _ step _ => step
  end.

(** What holds of an event given the events before it. *)
Definition ordered (pre : list TraceEvent.t) (event : TraceEvent.t) : Prop :=
  match event with
  | TraceEvent.RouterSignal q request target_step layer ps =>
      q = 0 /\ request = 0 /\ layer = LAYER /\ ps <> [] /\ predictions_fit ps
      /\ (forall e, e ∈ pre -> event_step e < target_step)
  | TraceEvent.Demand q request step page =>
      q = 0 /\ request = 0 /\ page < EXPERT_COUNT * PAGES_PER_EXPERT
      /\ (forall e, e ∈ pre -> event_step e <= step)
  end.

Lemma elem_of_expert_events step expert e :
  e ∈ expert_events step expert <->
  exists ordinal, ordinal < PAGES_PER_EXPERT
    /\ e = TraceEvent.Demand 0 0 step (expert * PAGES_PER_EXPERT + ordinal).
Proof.
  unfold expert_events. rewrite list_elem_of_fmap. split.
  - intros (o & -> & Ho%elem_of_rangeN). eauto.
  - intros (o & Ho & ->). exists o. by rewrite elem_of_rangeN.
Qed.

Lemma demand_events_spec step route e :
  valid_route route -> e ∈ demand_events step route ->
  exists page, page < EXPERT_COUNT * PAGES_PER_EXPERT /\ e = TraceEvent.Demand 0 0 step page.
Proof.
  intros (H1 & H2 & _). unfold demand_events. rewrite elem_of_app, !elem_of_expert_events.
  unfold EXPERT_COUNT, PAGES_PER_EXPERT in *. intros [(o & Ho & ->)|(o & Ho & ->)]; eexists; (split; [|done]); lia.
Qed.

Lemma block_ordered pre step route ps :
  (forall e, e ∈ pre -> event_step e < step) -> valid_route route -> predictions_fit ps ->
  each_prefix (fun p => ordered (pre ++ p)) (signal_events step ps ++ demand_events step route).
Proof.
  intros Hpre Hr Hps. apply each_prefix_app_intro.
  - unfold signal_events. case_decide as E; [apply each_prefix_nil|].
    apply (each_prefix_snoc _ []); [apply each_prefix_nil|]. rewrite app_nil_r. by split_and!.
  - intros p e suf E. assert (forall x, x ∈ demand_events step route -> event_step x = step) as Hstep.
    { intros x (page & _ & ->)%demand_events_spec; done. }
    destruct (demand_events_spec step route e) as (page & Hpage & ->); [done | rewrite E; set_solver|].
    split_and!; [done | done | done|]. intros x. rewrite !elem_of_app. intros [Hx|[Hx|Hx]].
    + apply Hpre in Hx. lia.
    + unfold signal_events in Hx. case_decide; [by apply elem_of_nil in Hx|].
      apply list_elem_of_singleton in Hx as ->. done.
    + rewrite Hstep; [done|]. rewrite E. set_solver.
Qed.

Lemma script_ordered burn_in routes :
  Forall valid_route (burn_in ++ routes) -> lenN (burn_in ++ routes) <= u64_max ->
  each_prefix ordered (script burn_in routes)
  /\ (forall e, e ∈ script burn_in routes -> event_step e < lenN routes)
  /\ (forall k, k < lenN routes -> exists page, TraceEvent.Demand 0 0 k page ∈ script burn_in routes).
Proof.
  induction routes as [|route routes IH] using rev_ind; intros Hv Hw.
  - split_and!; [apply each_prefix_nil | by intros e ?%elem_of_nil | intros k Hk; by destruct k].
  - rewrite app_assoc in Hv, Hw. pose proof Hv as [Hv0 Hr%Forall_cons_1]%Forall_app. destruct Hr as [Hr _].
    unfold lenN in Hw. rewrite length_app in Hw. fold (lenN (burn_in ++ routes)) in Hw.
    destruct IH as (H1 & H2 & H3); [done | unfold lenN in *; lia|].
    assert (predictions_fit (forecast (burn_in ++ routes))) as Hfit
      by (apply forecast_fit; [done | unfold lenN in *; lia]).
    assert (lenN (routes ++ [route]) = lenN routes + 1) as El by (unfold lenN; rewrite length_app; simpl; lia).
    rewrite script_snoc, El. split_and!.
    + apply each_prefix_app_intro; [done|]. by apply block_ordered.
    + intros e. rewrite !elem_of_app. intros [He|[He|He]].
      * apply H2 in He. lia.
      * unfold signal_events in He. case_decide; [by apply elem_of_nil in He|].
        apply list_elem_of_singleton in He as ->. simpl. lia.
      * apply demand_events_spec in He as (page & _ & ->); [simpl; lia | done].
    + intros k Hk. destruct (decide (k = lenN routes)) as [->|Hne].
      * exists (route.1 * PAGES_PER_EXPERT + 0). rewrite !elem_of_app. right. right.
        unfold demand_events. rewrite elem_of_app, elem_of_expert_events. left. by exists 0.
      * destruct (H3 k) as [page Hp]; [lia|]. exists page. rewrite elem_of_app. by left.
Qed.

(** ** Numbered events *)

Lemma number_middle L pre e suf :
  number L = pre ++ e :: suf ->
  exists L1 f L2, L = L1 ++ f :: L2 /\ pre = number L1 /\ e = with_sequence (lenN pre) f.
Proof.
  intros E. assert (number L !! length pre = Some e) as He by (rewrite E; by apply list_lookup_middle).
  unfold number in He. rewrite list_lookup_imap in He.
  destruct (L !! length pre) as [f|] eqn:Ef; [|done]. injection He as <-.
  exists (take (length pre) L), f, (drop (S (length pre)) L). split_and!; [by rewrite take_drop_middle | | done].
  rewrite <- (take_drop_middle _ _ _ Ef) in E. rewrite number_app in E.
  apply app_inj_1 in E as [E _]; [done|]. rewrite length_number, length_take.
  apply lookup_lt_Some in Ef. lia.
Qed.

Lemma elem_of_number e L : e ∈ number L <-> exists i f, L !! i = Some f /\ e = with_sequence (N.of_nat i) f.
Proof.
  unfold number. rewrite list_elem_of_lookup. split.
  - intros [i Hi]. rewrite list_lookup_imap in Hi. destruct (L !! i) as [f|] eqn:E; [|done].
    injection Hi as <-. eauto.
  - intros (i & f & Hf & ->). exists i. by rewrite list_lookup_imap, Hf.
Qed.

(** * The catalog *)

Lemma elem_of_page_catalog p :
  p ∈ page_catalog <-> exists expert ordinal, expert < EXPERT_COUNT /\ ordinal < PAGES_PER_EXPERT
    /\ p = PageDescriptor.mk (expert * PAGES_PER_EXPERT + ordinal) PAGE_BYTES PAGE_BYTES
             (PageClass.Expert LAYER expert ordinal).
Proof.
  unfold page_catalog. rewrite list_elem_of_bind. split.
  - intros (e & He & Hin%elem_of_rangeN). apply list_elem_of_bind in He as (o & Ho & Hoin%elem_of_rangeN).
    apply list_elem_of_singleton in Ho. eauto 6.
  - intros (e & o & He & Ho & ->). exists e. rewrite elem_of_rangeN. split; [|done].
    apply list_elem_of_bind. exists o. rewrite elem_of_rangeN. split; [by apply list_elem_of_singleton | done].
Qed.

Lemma length_page_catalog : lenN page_catalog = EXPERT_COUNT * PAGES_PER_EXPERT.
Proof. by vm_compute. Qed.

Definition generated_header (id : string) (page_count event_count : N) : TraceHeader.t :=
  TraceHeader.mk "header" TRACE_SCHEMA id page_count event_count PAGE_BYTES PREFETCH_MODEL.

Lemma page_catalog_ok id page_count event_count :
  each_prefix (page_ok (generated_header id page_count event_count)) page_catalog.
Proof.
  assert (match validate_pages (generated_header id page_count event_count) page_catalog with
          | Ok _ => true | _ => false end = true) as H by (vm_compute; reflexivity).
  destruct (validate_pages _ _) as [[pi ep]| |] eqn:E; [|done..].
  apply (proj2 (validate_pages_exact _ _) _ _ E).
Qed.

(** * The events *)

Lemma fit_valid ps :
  predictions_fit ps -> predictions_valid page_catalog SimLimits.default LAYER ps.
Proof.
  intros [Hl He Hd _ Hs]. split; [unfold lenN; simpl; lia | done | exact Hs |].
  intros p Hp. rewrite list.Forall_forall in He. apply He in Hp.
  exists (PageDescriptor.mk (ExpertPrediction.expert p * PAGES_PER_EXPERT + 0) PAGE_BYTES PAGE_BYTES
    (PageClass.Expert LAYER (ExpertPrediction.expert p) 0)), 0.
  split; [|done]. apply elem_of_page_catalog. by exists (ExpertPrediction.expert p), 0.
Qed.

Lemma events_ok L :
  lenN L <= u64_max -> each_prefix ordered L -> each_prefix (event_valid page_catalog SimLimits.default) (number L).
Proof.
  intros Hw Ho pre e suf (L1 & f & L2 & -> & -> & ->)%number_middle.
  specialize (Ho L1 f L2 eq_refl). unfold lenN in Hw. rewrite length_app in Hw.
  assert (lenN (number L1) <= u64_max) as Hn by (unfold lenN; rewrite length_number; lia).
  assert (forall e, e ∈ number L1 -> exists f, f ∈ L1 /\ event_step e = event_step f) as Hback.
  { intros x (i & g & Hg & ->)%elem_of_number. exists g. split; [by eapply list_elem_of_lookup_2 | by destruct g]. }
  unfold event_valid.
  destruct f as [q request target_step layer ps|q request step page]; simpl in Ho;
    cbn [with_sequence TraceEvent.sequence].
  - destruct Ho as (-> & -> & -> & _ & Hfit & Hbefore). split_and!; [done | done | | | by apply fit_valid].
    + intros q s p (g & Hg & E)%Hback. simpl in E. subst s. by apply Hbefore.
    + intros q ps' (g & Hg & E)%Hback. simpl in E. apply Hbefore in Hg. lia.
  - destruct Ho as (-> & -> & Hpage & Hbefore). split_and!; [done | done | by rewrite length_page_catalog|].
    intros q s p (g & Hg & E)%Hback. simpl in E. subst s. by apply Hbefore.
Qed.

Lemma events_realized burn_in routes :
  Forall valid_route (burn_in ++ routes) -> lenN (burn_in ++ routes) <= u64_max ->
  realized (number (script burn_in routes)).
Proof.
  intros Hv Hw. destruct (script_ordered _ _ Hv Hw) as (Ho & Hlt & Hreal).
  intros q request target_step layer ps (i & f & Hf & E)%elem_of_number.
  destruct f as [q0 r0 t0 l0 ps0|]; [|done]. simpl in E. injection E as -> -> -> -> ->.
  apply list_elem_of_lookup_2 in Hf as Hin. pose proof (Hlt _ Hin) as Ht. simpl in Ht.
  apply list_elem_of_split in Hin as (l1 & l2 & El). destruct (Ho _ _ _ El) as (_ & -> & _).
  destruct (Hreal t0 Ht) as [page Hp]. apply list_elem_of_lookup in Hp as [j Hj].
  exists (N.of_nat j), page. apply elem_of_number. by exists j, (TraceEvent.Demand 0 0 t0 page).
Qed.

(** * The header *)

(** The characters of a generated identifier. *)
Definition id_char (b : N) : Prop := is_lower_or_digit b = true \/ b = 45.

Lemma digit_id_char b : digit b -> id_char b.
Proof.
  unfold digit, id_char, is_lower_or_digit. intros Hb. left. apply orb_true_iff. right.
  by rewrite (proj2 (N.leb_le 48 b)), (proj2 (N.leb_le b 57)) by lia.
Qed.

Lemma pretty_id_chars (n : N) : Forall id_char (string_bytes (pretty n)).
Proof. eapply Forall_impl; [apply pretty_digits | apply digit_id_char]. Qed.

Lemma literal_id_chars s : forallb (fun b => is_lower_or_digit b || (b =? 45)) (string_bytes s) = true ->
  Forall id_char (string_bytes s).
Proof.
  rewrite forallb_forall. intros H. apply list.Forall_forall. intros b Hb%list_elem_of_In%H.
  apply orb_true_iff in Hb as [?|?%N.eqb_eq]; [by left | by right].
Qed.

Lemma pad2_chars n : n <= u32_max -> Forall id_char (string_bytes (pad2 n)) /\ (String.length (pad2 n) <= 10)%nat.
Proof.
  intros Hn. pose proof (length_pretty n 10 ltac:(lia)) as Hl. rewrite length_string_bytes in Hl.
  change (10 ^ N.of_nat 10) with 10000000000 in Hl. unfold u32_max in Hn. specialize (Hl ltac:(lia)).
  unfold pad2. destruct (Nat.ltb_spec (String.length (pretty n)) 2); split;
    [|change (S (String.length (pretty n)) <= 10)%nat; lia | apply pretty_id_chars | done].
  rewrite string_bytes_app. apply Forall_app. split; [by apply literal_id_chars | apply pretty_id_chars].
Qed.

Lemma trace_id_ok family replicate measured_steps :
  replicate <= u32_max -> measured_steps <= DEFAULT_MEASURED_STEPS ->
  Forall id_char (string_bytes (trace_id family replicate measured_steps))
  /\ (length (string_bytes (trace_id family replicate measured_steps)) <= 64)%nat
  /\ exists rest, string_bytes (trace_id family replicate measured_steps) = 109 :: rest.
Proof.
  intros Hr Hm. destruct (pad2_chars replicate Hr) as [Hc Hl]. unfold trace_id.
  pose proof (length_pretty measured_steps 4 ltac:(lia)) as Hl4.
  change (10 ^ N.of_nat 4) with 10000 in Hl4. unfold DEFAULT_MEASURED_STEPS in Hm. specialize (Hl4 ltac:(lia)).
  rewrite !string_bytes_app. split_and!.
  - rewrite !Forall_app. split_and!; [by apply literal_id_chars | destruct family; by apply literal_id_chars |
      by apply literal_id_chars | done | by apply literal_id_chars | apply pretty_id_chars].
  - rewrite !length_app, !length_string_bytes in *. destruct family; simpl String.length; lia.
  - by eexists.
Qed.

Lemma generated_header_ok family replicate measured_steps event_count :
  replicate <= u32_max -> measured_steps <= DEFAULT_MEASURED_STEPS -> event_count <= 7 * DEFAULT_MEASURED_STEPS ->
  validate_header (generated_header (trace_id family replicate measured_steps)
    (EXPERT_COUNT * PAGES_PER_EXPERT) event_count) SimLimits.default = Ok tt.
Proof.
  intros Hr Hm He. unfold validate_header. cbn [TraceHeader.kind TraceHeader.schema TraceHeader.prefetch_model
    TraceHeader.trace_id TraceHeader.page_count TraceHeader.event_count TraceHeader.charge_quantum generated_header].
  rewrite !bool_decide_eq_true_2 by done. cbn [guard_err mbind result_bind negb].
  destruct (trace_id_ok family replicate measured_steps Hr Hm) as (Hc & Hl & rest & E).
  assert (validate_trace_id (trace_id family replicate measured_steps) = Ok tt) as ->.
  { unfold validate_trace_id. rewrite E in *. unfold MAX_TRACE_ID_BYTES, lenN.
    rewrite (proj2 (N.ltb_ge _ _)) by lia. cbn [tail]. apply Forall_cons_1 in Hc as [_ Hc].
    rewrite (proj2 (forallb_forall _ rest)); [done|]. intros b Hb%list_elem_of_In.
    rewrite list.Forall_forall in Hc. destruct (Hc b Hb) as [->| ->]; [done | by rewrite !orb_true_r]. }
  cbn [mbind result_bind]. unfold DEFAULT_MEASURED_STEPS in *.
  rewrite !(proj2 (N.ltb_ge _ _)) by (unfold EXPERT_COUNT, PAGES_PER_EXPERT; simpl; lia). done.
Qed.

(** * The wire *)

(** A record has one line of at most [bound] plain characters, and it reads back. *)
Definition line_within {T} `{SerdeJson T} (bound : N) (r : T) : Prop :=
  exists line, to_vec r = Some line /\ from_slice line = Some r /\ line <> [] /\ Forall plain line
    /\ lenN line <= bound.

(** What is assumed of serde_json: the derived writer emits compact text without
    line breaks, whose length the fields bound, and the derived reader inverts it.
    The bounds are those of the largest numbers that a generated trace can hold. *)
Record wire_ok `{SerdeJson TraceHeader.t} `{SerdeJson PageDescriptor.t} `{SerdeJson TraceEvent.t} : Prop := {
  wire_header : forall id page_count event_count,
    Forall id_char (string_bytes id) -> (length (string_bytes id) <= 64)%nat ->
    page_count < 10 ^ 6 -> event_count < 10 ^ 6 ->
    line_within 500 (generated_header id page_count event_count);
  wire_page : forall id expert ordinal, id < 10 ^ 3 -> expert < 10 ^ 3 -> ordinal < 10 ->
    line_within 120 (PageDescriptor.mk id PAGE_BYTES PAGE_BYTES (PageClass.Expert LAYER expert ordinal));
  wire_demand : forall sequence step page, sequence < 10 ^ 6 -> step < 10 ^ 6 -> page < 10 ^ 3 ->
    line_within 180 (TraceEvent.Demand sequence 0 step page);
  wire_signal : forall sequence target_step ps, sequence < 10 ^ 6 -> target_step < 10 ^ 6 ->
    (length ps <= 2)%nat -> Forall (fun p => ExpertPrediction.expert p < 10 ^ 3
                                          /\ ExpertPrediction.score_ppm p < 10 ^ 7) ps ->
    line_within 180 (TraceEvent.RouterSignal sequence 0 target_step LAYER ps)
}.

Lemma line_transcribed {T} `{SerdeJson T} bound (r : T) :
  bound <= 16384 -> line_within bound r ->
  exists line, transcribed SimLimits.default line r /\ lenN line <= bound.
Proof.
  intros Hb (line & Ht & Hf & Hn & Hp & Hl). exists line. split; [|done]. split; try done. simpl. lia.
Qed.

Lemma lines_transcribed {T} `{SerdeJson T} bound (rs : list T) :
  bound <= 16384 -> (forall r, r ∈ rs -> line_within bound r) ->
  exists lines, Forall2 (transcribed SimLimits.default) lines rs
    /\ lenN (join_lf lines) <= (bound + 1) * lenN rs.
Proof.
  intros Hb. induction rs as [|r rs IH]; intros Hr; [exists []; split; [by apply Forall2_nil | unfold lenN; simpl; lia]|].
  destruct IH as (lines & Hl & Hlen); [intros; apply Hr; by right|].
  destruct (line_transcribed bound r Hb) as (line & Ht & Hline); [apply Hr; left|].
  exists (line :: lines). split; [by constructor|]. unfold lenN in *. rewrite join_lf_cons, !length_app. simpl. lia.
Qed.

Section wire.
Context `{HJ : SerdeJson TraceHeader.t} `{PJ : SerdeJson PageDescriptor.t}
        `{EJ : SerdeJson TraceEvent.t} (Hwire : wire_ok).

Lemma number_lines L :
  each_prefix ordered L -> (forall e, e ∈ L -> event_step e < 10 ^ 6) -> lenN L <= 7 * DEFAULT_MEASURED_STEPS ->
  forall e, e ∈ number L -> line_within 180 e.
Proof.
  intros Ho Hstep Hl e (i & f & Hf & ->)%elem_of_number.
  apply list_elem_of_lookup_2 in Hf as Hin. apply Hstep in Hin as Hs.
  apply list_elem_of_split in Hin as (l1 & l2 & El). specialize (Ho _ _ _ El).
  apply lookup_lt_Some in Hf. unfold DEFAULT_MEASURED_STEPS, lenN in Hl.
  change (10 ^ 6) with 1000000 in Hs.
  destruct f as [q request target_step layer ps|q request step page]; cbn [with_sequence event_step] in *.
  - destruct Ho as (-> & -> & -> & _ & [Hlen Hexp _ _ Hsum] & _).
    apply (wire_signal Hwire); change (10 ^ 6) with 1000000; change (10 ^ 3) with 1000;
      change (10 ^ 7) with 10000000; [lia | done | done |].
    apply list.Forall_forall. intros p Hp. rewrite list.Forall_forall in Hexp. apply Hexp in Hp as He.
    pose proof (sumN_le_elem ExpertPrediction.score_ppm ps p Hp). unfold EXPERT_COUNT, SCORE_SCALE in *. lia.
  - destruct Ho as (-> & -> & Hpage & _). unfold EXPERT_COUNT, PAGES_PER_EXPERT in Hpage.
    apply (wire_demand Hwire); change (10 ^ 6) with 1000000; change (10 ^ 3) with 1000; lia.
Qed.

Lemma generated_written family replicate measured_steps burn_in routes :
  replicate <= u32_max -> measured_steps <= DEFAULT_MEASURED_STEPS -> lenN routes = measured_steps ->
  Forall valid_route (burn_in ++ routes) -> lenN (burn_in ++ routes) <= u64_max ->
  exists bytes, written SimLimits.default
    (generated_header (trace_id family replicate measured_steps) (EXPERT_COUNT * PAGES_PER_EXPERT)
       (lenN (number (script burn_in routes)))) page_catalog (number (script burn_in routes)) bytes.
Proof.
  intros Hr Hm Hn Hv Hw. destruct (script_ordered _ _ Hv Hw) as (Ho & Hlt & _).
  destruct (trace_id_ok family replicate measured_steps Hr Hm) as (Hid & Hidl & _).
  pose proof (length_script burn_in routes) as Hs. unfold DEFAULT_MEASURED_STEPS in *.
  assert (lenN (number (script burn_in routes)) <= 7 * 4096) as Hcount.
  { unfold lenN in *. rewrite length_number. lia. }
  destruct (line_transcribed 500 (generated_header (trace_id family replicate measured_steps)
    (EXPERT_COUNT * PAGES_PER_EXPERT) (lenN (number (script burn_in routes))))) as (hl & Hhl & Hhb); [done| |].
  { apply (wire_header Hwire); [done | done | done |]. change (10 ^ 6) with 1000000. lia. }
  destruct (lines_transcribed 120 page_catalog) as (pl & Hpl & Hpb); [done| |].
  { intros p (e & o & He & Hoo & ->)%elem_of_page_catalog. unfold EXPERT_COUNT, PAGES_PER_EXPERT in *.
    apply (wire_page Hwire); change (10 ^ 3) with 1000; lia. }
  destruct (lines_transcribed 180 (number (script burn_in routes))) as (el & Hel & Heb); [done| |].
  { apply number_lines; [done | | by unfold lenN in *; rewrite length_number in Hcount].
    intros e He%Hlt. change (10 ^ 6) with 1000000. lia. }
  rewrite length_page_catalog in Hpb. unfold EXPERT_COUNT, PAGES_PER_EXPERT in Hpb.
  exists (join_lf (hl :: pl ++ el)). split; [|by exists hl, pl, el]. rewrite join_lf_cons, join_lf_app.
  unfold lenN in *. rewrite !length_app. simpl. lia.
Qed.

Lemma default_fits : SimLimits.max_trace_bytes SimLimits.default <= usize_max.
Proof. by vm_compute. Qed.

(** The serializer accepts the records of a run, and the parser accepts its bytes. *)
Lemma generated_serializes sha256_hex family replicate measured_steps burn_in routes :
  replicate <= u32_max -> measured_steps <= DEFAULT_MEASURED_STEPS -> lenN routes = measured_steps ->
  Forall valid_route (burn_in ++ routes) -> lenN (burn_in ++ routes) <= u64_max ->
  exists bytes, serialize_trace sha256_hex
    (generated_header (trace_id family replicate measured_steps) (lenN page_catalog)
       (lenN (number (script burn_in routes)))) page_catalog (number (script burn_in routes)) SimLimits.default
    = Ok bytes.
Proof.
  intros Hr Hm Hn Hv Hw. destruct (script_ordered _ _ Hv Hw) as (Ho & Hlt & _).
  pose proof (length_script burn_in routes) as Hs.
  destruct (generated_written family replicate measured_steps burn_in routes) as [bytes Hb]; [done..|].
  rewrite <- length_page_catalog in Hb. exists bytes.
  assert (acceptable SimLimits.default (generated_header (trace_id family replicate measured_steps)
    (EXPERT_COUNT * PAGES_PER_EXPERT) (lenN (number (script burn_in routes)))) page_catalog
    (number (script burn_in routes))) as Hacc.
  { unfold DEFAULT_MEASURED_STEPS in *. split.
    - apply generated_header_ok; [done | done |].
      unfold DEFAULT_MEASURED_STEPS, lenN in *. rewrite length_number. lia.
    - by rewrite length_page_catalog.
    - done.
    - apply page_catalog_ok.
    - apply events_ok; [|done]. unfold lenN, u64_max in *. lia.
    - by apply events_realized. }
  rewrite <- length_page_catalog in Hacc.
  destruct (parse_trace_complete sha256_hex SimLimits.default _ _ _ bytes default_fits Hacc Hb) as (t & Ht & Eh & Ep & Ee).
  apply (parsed_serialize sha256_hex bytes SimLimits.default t) in Ht; [|exact default_fits].
  rewrite Eh, Ep, Ee in Ht. exact Ht.
Qed.
End wire.

#[local] Arguments N.pow : simpl never.

(** * Reading numbers *)

(** The numbers in a text, in order; [acc] is the number being read. *)
Fixpoint numbers (acc : option N) (l : list N) : list N :=
  match l with
  | [] => match acc with Some n => [n] | None => [] end
  | b :: l =>
      if decide (digit b) then numbers (Some (read_digit (default 0 acc) b)) l
      else match acc with Some n => n :: numbers None l | None => numbers None l end
  end.

Definition label (l : list N) : Prop := Forall (fun b => ~ digit b) l /\ l <> [].

Lemma numbers_label l r : Forall (fun b => ~ digit b) l -> numbers None (l ++ r) = numbers None r.
Proof. induction 1 as [|b l Hb _ IH]; [done|]. simpl. by rewrite decide_False. Qed.

Lemma numbers_digits acc d r :
  Forall digit d -> numbers (Some acc) (d ++ r) = numbers (Some (foldl read_digit acc d)) r.
Proof.
  intros Hd. revert acc. induction Hd as [|b d Hb _ IH]; intros acc; [done|].
  cbn [app numbers foldl]. by rewrite decide_True.
Qed.

Lemma numbers_pretty (n : N) l r :
  label l -> numbers None (string_bytes (pretty n) ++ l ++ r) = n :: numbers None (l ++ r).
Proof.
  intros [Hl Hne]. pose proof (pretty_digits n) as Hd. pose proof (read_pretty n) as Hr.
  destruct (pretty_nonempty n) as (d & ds & E & Hd0). rewrite E in *.
  apply Forall_cons in Hd as [_ Hd]. cbn [app numbers]. rewrite decide_True by done.
  rewrite numbers_digits by done. cbn [default from_option]. unfold read_decimal in Hr. cbn [foldl] in Hr.
  change (id (0 : N)) with 0. rewrite Hr. destruct l as [|b l]; [done|].
  apply Forall_cons in Hl as [Hb _]. cbn [app numbers]. by rewrite !decide_False.
Qed.

(** A text of labelled numbers. *)
Fixpoint fields_text (fields : list (list N * N)) (tail : list N) : list N :=
  match fields with
  | [] => tail
  | (l, n) :: fields => l ++ string_bytes (pretty n) ++ fields_text fields tail
  end.

Lemma fields_text_label fields tail :
  Forall (fun f => label f.1) fields -> label tail -> exists l r, fields_text fields tail = l ++ r /\ label l.
Proof.
  intros [|[l n] fields' Hl _] Ht; [exists tail, []; by rewrite app_nil_r | by eexists l, _].
Qed.

Lemma numbers_fields fields tail rest :
  Forall (fun f => label f.1) fields -> label tail ->
  numbers None (fields_text fields tail ++ rest) = fields.*2 ++ numbers None rest.
Proof.
  intros Hf Ht. induction Hf as [|[l n] fields Hl Hrest IH]; [apply numbers_label, Ht|].
  cbn [fields_text fmap list_fmap snd]. rewrite <- !app_assoc, numbers_label by apply Hl.
  destruct (fields_text_label fields tail Hrest Ht) as (l' & r & E & Hl'). rewrite E in *.
  rewrite <- app_assoc in *. rewrite numbers_pretty by done. cbn [app]. by f_equal.
Qed.

(** The length of a text whose numbers have at most the given numbers of digits. *)
Lemma length_fields fields digits tail :
  Forall2 (fun f k => (0 < k)%nat /\ f.2 < 10 ^ N.of_nat k) fields digits ->
  (length (fields_text fields tail)
   <= foldr (fun f acc => length f.1 + acc) 0 fields + foldr Nat.add 0 digits + length tail)%nat.
Proof.
  induction 1 as [|[l n] k fields digits [Hk Hn] _ IH]; [simpl; lia|]. cbn [fields_text foldr fst snd] in *.
  rewrite !length_app. pose proof (length_pretty n k Hk Hn). lia.
Qed.

Lemma fields_plain fields tail :
  Forall (fun f => Forall plain f.1) fields -> Forall plain tail -> Forall plain (fields_text fields tail).
Proof.
  intros Hf Ht. induction Hf as [|[l n] fields Hl _ IH]; [done|]. cbn [fields_text].
  rewrite !Forall_app. split_and!; [done | | done]. eapply Forall_impl; [apply pretty_digits|].
  unfold digit, plain, LF, CR. lia.
Qed.

(** * The texts *)

Fixpoint prediction_fields (opening : string) (ps : list ExpertPrediction.t) : list (list N * N) :=
  match ps with
  | [] => []
  | p :: ps => (json opening, ExpertPrediction.expert p) :: (json ",'score_ppm':", ExpertPrediction.score_ppm p)
                 :: prediction_fields "},{'expert':" ps
  end.
Definition event_fields (e : TraceEvent.t) : list (list N * N) :=
  match e with
  | TraceEvent.RouterSignal sequence request target_step layer ps =>
      [(json "{'kind':'router_signal','sequence':", sequence); (json ",'request':", request);
       (json ",'target_step':", target_step); (json ",'layer':", layer)] ++ prediction_fields ",'predictions':[{'expert':" ps
  | TraceEvent.Demand sequence request step page =>
      [(json "{'kind':'demand','sequence':", sequence); (json ",'request':", request);
       (json ",'step':", step); (json ",'page':", page)]
  end.
Definition event_tail (e : TraceEvent.t) : list N :=
  match e with
  | TraceEvent.RouterSignal _ _ _ _ [] => json ",'predictions':[]}"
  | TraceEvent.RouterSignal _ _ _ _ _ => json "}]}"
  | TraceEvent.Demand _ _ _ _ => json "}"
  end.
Definition event_text (e : TraceEvent.t) : list N := fields_text (event_fields e) (event_tail e).

Fixpoint read_predictions (l : list N) : list ExpertPrediction.t :=
  match l with
  | expert :: score :: l => ExpertPrediction.mk expert score :: read_predictions l
  | _ => []
  end.
(** The tenth character tells the kinds apart. *)
Definition read_event (l : list N) : option TraceEvent.t :=
  match numbers None l with
  | [sequence; request; step; page] =>
      if decide (l !! 9%nat = Some 100) then Some (TraceEvent.Demand sequence request step page)
      else Some (TraceEvent.RouterSignal sequence request step page [])
  | sequence :: request :: target_step :: layer :: l =>
      Some (TraceEvent.RouterSignal sequence request target_step layer (read_predictions l))
  | _ => None
  end.

Definition page_fields (p : PageDescriptor.t) : list (list N * N) :=
  [(json "{'id':", PageDescriptor.id p); (json ",'logical_bytes':", PageDescriptor.logical_bytes p);
   (json ",'charge_bytes':", PageDescriptor.charge_bytes p)]
  ++ match PageDescriptor.class p with
     | PageClass.Shared => []
     | PageClass.Expert layer expert ordinal =>
         [(json ",'class':{'kind':'expert','layer':", layer); (json ",'expert':", expert);
          (json ",'ordinal':", ordinal)]
     end.
Definition page_tail (p : PageDescriptor.t) : list N :=
  match PageDescriptor.class p with
  | PageClass.Shared => json ",'class':{'kind':'shared'}}"
  | PageClass.Expert _ _ _ => json "}}"
  end.
Definition page_text (p : PageDescriptor.t) : list N := fields_text (page_fields p) (page_tail p).
Definition read_page (l : list N) : option PageDescriptor.t :=
  match numbers None l with
  | [id; logical; charge] => Some (PageDescriptor.mk id logical charge PageClass.Shared)
  | [id; logical; charge; layer; expert; ordinal] =>
      Some (PageDescriptor.mk id logical charge (PageClass.Expert layer expert ordinal))
  | _ => None
  end.

Definition header_head (kind schema : string) : list N :=
  json "{'kind':'" ++ string_bytes kind ++ json "','schema':'" ++ string_bytes schema ++ json "','trace_id':'".
Definition header_fields (h : TraceHeader.t) : list (list N * N) :=
  [(json "','page_count':", TraceHeader.page_count h); (json ",'event_count':", TraceHeader.event_count h);
   (json ",'charge_quantum':", TraceHeader.charge_quantum h)].
Definition header_text (h : TraceHeader.t) : list N :=
  header_head (TraceHeader.kind h) (TraceHeader.schema h) ++ string_bytes (TraceHeader.trace_id h)
  ++ fields_text (header_fields h) (json ",'prefetch_model':'")
  ++ string_bytes (TraceHeader.prefetch_model h) ++ json "'}".
(** Headers of the one schema. *)
Definition read_header (l : list N) : option TraceHeader.t :=
  let head := header_head "header" TRACE_SCHEMA in
  if decide (take (length head) l = head) then
    let id := take_while (fun b => negb (b =? 34)) (drop (length head) l) in
    match numbers None (drop (length head + length id) l) with
    | page_count :: event_count :: charge_quantum :: _ =>
        Some (TraceHeader.mk "header" TRACE_SCHEMA (bytes_string id) page_count event_count charge_quantum
                PREFETCH_MODEL)
    | _ => None
    end
  else None.

#[export] Instance header_json : SerdeJson TraceHeader.t := {| from_slice := read_header; to_vec h := Some (header_text h) |}.
#[export] Instance page_json : SerdeJson PageDescriptor.t := {| from_slice := read_page; to_vec p := Some (page_text p) |}.
#[export] Instance event_json : SerdeJson TraceEvent.t := {| from_slice := read_event; to_vec e := Some (event_text e) |}.

(** * The codec is one *)

Lemma label_dec l : forallb (fun b => negb (bool_decide (digit b))) l && negb (bool_decide (l = [])) = true -> label l.
Proof.
  intros [Hl Hn]%andb_true_iff. split; [|by apply negb_true_iff, bool_decide_eq_false in Hn].
  rewrite forallb_forall in Hl. apply list.Forall_forall. intros b Hb%list_elem_of_In%Hl.
  by apply negb_true_iff, bool_decide_eq_false in Hb.
Qed.
#[local] Ltac label := apply label_dec; vm_compute; reflexivity.
#[local] Ltac labels := repeat (apply Forall_cons_2; [cbn [fst]; label|]); apply Forall_nil_2.

Lemma prediction_labels opening ps : label (json opening) -> Forall (fun f => label f.1) (prediction_fields opening ps).
Proof.
  revert opening. induction ps as [|p ps IH]; intros opening Ho; cbn [prediction_fields]; [apply Forall_nil_2|].
  apply Forall_cons_2; [exact Ho|]. apply Forall_cons_2; [cbn [fst]; label|]. apply IH. label.
Qed.

Lemma event_labels e : Forall (fun f => label f.1) (event_fields e) /\ label (event_tail e).
Proof.
  destruct e as [q r t l ps|q r s p]; cbn [event_fields event_tail]; split.
  - apply Forall_app. split; [labels | apply prediction_labels; label].
  - destruct ps; label.
  - labels.
  - label.
Qed.

Lemma event_numbers e : numbers None (event_text e) = (event_fields e).*2.
Proof.
  destruct (event_labels e) as [Hf Ht]. unfold event_text.
  rewrite <- (app_nil_r (fields_text _ _)), numbers_fields by done. apply app_nil_r.
Qed.

Lemma plain_dec l : forallb (fun b => (b <? 128) && negb (b =? LF) && negb (b =? CR)) l = true -> Forall plain l.
Proof.
  rewrite forallb_forall. intros H. apply list.Forall_forall.
  intros b [[Hb%N.ltb_lt Hl%negb_true_iff%N.eqb_neq]%andb_true_iff Hc%negb_true_iff%N.eqb_neq]%list_elem_of_In%H%andb_true_iff.
  done.
Qed.
#[local] Ltac plains :=
  repeat (apply Forall_cons_2; [cbn [fst]; apply plain_dec; vm_compute; reflexivity|]); apply Forall_nil_2.
#[local] Ltac plain := apply plain_dec; vm_compute; reflexivity.

Lemma prediction_plain opening ps :
  Forall plain (json opening) -> Forall (fun f => Forall plain f.1) (prediction_fields opening ps).
Proof.
  revert opening. induction ps as [|p ps IH]; intros opening Ho; cbn [prediction_fields]; [apply Forall_nil_2|].
  apply Forall_cons_2; [exact Ho|]. apply Forall_cons_2; [cbn [fst]; plain|]. apply IH. plain.
Qed.

Lemma event_plain e : Forall plain (event_text e).
Proof.
  unfold event_text. apply fields_plain.
  - destruct e as [q r t l ps|]; cbn [event_fields]; [|plains].
    apply Forall_app. split; [plains | apply prediction_plain; plain].
  - destruct e as [q r t l [|]|]; cbn [event_tail]; plain.
Qed.

Lemma read_prediction_fields opening ps : read_predictions (prediction_fields opening ps).*2 = ps.
Proof.
  revert opening. induction ps as [|[e s] ps IH]; intros opening; [done|].
  cbn [prediction_fields fmap list_fmap snd read_predictions ExpertPrediction.expert ExpertPrediction.score_ppm].
  by rewrite IH.
Qed.

Lemma event_read e : read_event (event_text e) = Some e.
Proof.
  unfold read_event. rewrite event_numbers. destruct e as [q r t l [|p ps]|q r s p]; [done | | done].
  cbn [event_fields prediction_fields app fmap list_fmap snd]. destruct p as [e s].
  cbn [read_predictions ExpertPrediction.expert ExpertPrediction.score_ppm]. by rewrite read_prediction_fields.
Qed.

Lemma text_line {T} `{SerdeJson T} (r : T) text bound :
  to_vec r = Some text -> from_slice text = Some r -> text <> [] -> Forall plain text ->
  (length text <= N.to_nat bound)%nat -> line_within bound r.
Proof. intros Ht Hf Hn Hp Hl. exists text. split_and!; [done..|]. unfold lenN. lia. Qed.

Lemma fields_nonempty fields tail :
  Forall (fun f => label f.1) fields -> label tail -> fields_text fields tail <> [].
Proof.
  intros Hf Ht E. destruct (fields_text_label fields tail Hf Ht) as (l & r & El & _ & Hl).
  rewrite E in El. by destruct l.
Qed.

(** The number of digits of each number of a list of labelled numbers. *)
#[local] Ltac digits :=
  repeat (apply Forall2_cons; split; [split; [lia|]; cbn [snd]; first [done | by vm_compute]|]); by apply Forall2_nil.

Lemma demand_line sequence step page :
  sequence < 10 ^ 6 -> step < 10 ^ 6 -> page < 10 ^ 3 -> line_within 180 (TraceEvent.Demand sequence 0 step page).
Proof.
  intros Hq Hs Hp. destruct (event_labels (TraceEvent.Demand sequence 0 step page)).
  apply (text_line _ (event_text (TraceEvent.Demand sequence 0 step page)));
    [done | apply event_read | by apply fields_nonempty | apply event_plain|].
  etrans; [apply (length_fields _ [6; 1; 6; 3]%nat); cbn [event_fields]; digits|]. vm_compute. lia.
Qed.

Lemma signal_line sequence target_step ps :
  sequence < 10 ^ 6 -> target_step < 10 ^ 6 -> (length ps <= 2)%nat ->
  Forall (fun p => ExpertPrediction.expert p < 10 ^ 3 /\ ExpertPrediction.score_ppm p < 10 ^ 7) ps ->
  line_within 180 (TraceEvent.RouterSignal sequence 0 target_step LAYER ps).
Proof.
  intros Hq Hs Hl Hp. destruct (event_labels (TraceEvent.RouterSignal sequence 0 target_step LAYER ps)).
  apply (text_line _ (event_text (TraceEvent.RouterSignal sequence 0 target_step LAYER ps)));
    [done | apply event_read | by apply fields_nonempty | apply event_plain|]. unfold event_text.
  destruct ps as [|p1 [|p2 [|p3 ps]]]; [| | |simpl in Hl; lia]; cbn [event_fields prediction_fields app].
  - etrans; [apply (length_fields _ [6; 1; 6; 1]%nat); digits|]. vm_compute. lia.
  - apply Forall_cons in Hp as [[] _].
    etrans; [apply (length_fields _ [6; 1; 6; 1; 3; 7]%nat); digits|]. vm_compute. lia.
  - apply Forall_cons in Hp as [[] [[] _]%Forall_cons].
    etrans; [apply (length_fields _ [6; 1; 6; 1; 3; 7; 3; 7]%nat); digits|]. vm_compute. lia.
Qed.

Lemma page_line id expert ordinal :
  id < 10 ^ 3 -> expert < 10 ^ 3 -> ordinal < 10 ->
  line_within 120 (PageDescriptor.mk id PAGE_BYTES PAGE_BYTES (PageClass.Expert LAYER expert ordinal)).
Proof.
  intros Hi He Ho. set (p := PageDescriptor.mk _ _ _ _).
  assert (Forall (fun f => label f.1) (page_fields p)) as Hf by (cbn [page_fields p PageDescriptor.class app]; labels).
  assert (label (page_tail p)) as Ht by (cbn [page_tail p PageDescriptor.class]; label).
  apply (text_line _ (page_text p)); [done | | by apply fields_nonempty | |].
  - cbn [from_slice page_json]. unfold read_page, page_text.
    rewrite <- (app_nil_r (fields_text _ _)), numbers_fields by done. done.
  - apply fields_plain; cbn [page_fields page_tail p PageDescriptor.class app]; [plains | plain].
  - etrans; [apply (length_fields _ [3; 5; 5; 1; 3; 1]%nat); cbn [page_fields p PageDescriptor.class app]; digits|].
    vm_compute. lia.
Qed.

Lemma take_while_app {A} (f : A -> bool) l x r :
  forallb f l = true -> f x = false -> take_while f (l ++ x :: r) = l.
Proof.
  intros Hl Hx. induction l as [|y l IH]; simpl; [by rewrite Hx|]. simpl in Hl.
  apply andb_true_iff in Hl as [-> Hl]. by rewrite IH.
Qed.

Lemma id_char_plain b : id_char b -> plain b /\ b <> 34.
Proof.
  unfold id_char, is_lower_or_digit, plain, LF, CR. intros [[H|H]%orb_true_iff|H]; [| |lia];
    apply andb_true_iff in H as [?%N.leb_le ?%N.leb_le]; lia.
Qed.

Lemma header_read id page_count event_count :
  Forall id_char (string_bytes id) ->
  read_header (header_text (generated_header id page_count event_count)) = Some (generated_header id page_count event_count).
Proof.
  intros Hid. set (h := generated_header id page_count event_count). unfold read_header.
  change (header_text h) with (header_head "header" TRACE_SCHEMA ++ string_bytes id
    ++ fields_text (header_fields h) (json ",'prefetch_model':'") ++ string_bytes PREFETCH_MODEL ++ json "'}").
  set (head := header_head "header" TRACE_SCHEMA).
  set (rest := fields_text (header_fields h) (json ",'prefetch_model':'") ++ string_bytes PREFETCH_MODEL ++ json "'}").
  rewrite take_app_length, decide_True by done. rewrite drop_app_length.
  assert (exists r, rest = 34 :: r) as [r Er] by (by eexists).
  assert (take_while (fun b => negb (b =? 34)) (string_bytes id ++ rest) = string_bytes id) as ->.
  { rewrite Er. apply take_while_app; [|done]. apply forallb_forall. intros b Hb%list_elem_of_In.
    rewrite list.Forall_forall in Hid. by apply negb_true_iff, N.eqb_neq, id_char_plain, Hid. }
  rewrite app_assoc, <- length_app, drop_app_length. subst rest.
  rewrite numbers_fields; [|cbn [header_fields]; labels | label]. cbn [header_fields fmap list_fmap snd app].
  by rewrite bytes_string_bytes.
Qed.

Lemma header_line id page_count event_count :
  Forall id_char (string_bytes id) -> (length (string_bytes id) <= 64)%nat ->
  page_count < 10 ^ 6 -> event_count < 10 ^ 6 ->
  line_within 500 (generated_header id page_count event_count).
Proof.
  intros Hid Hl Hp He. set (h := generated_header id page_count event_count).
  apply (text_line _ (header_text h)); [done | by apply header_read | done | |].
  - unfold header_text, header_head. rewrite !Forall_app. cbn [h generated_header TraceHeader.kind TraceHeader.schema
      TraceHeader.trace_id TraceHeader.prefetch_model].
    split_and!; [plain..| | | plain | plain].
    + eapply Forall_impl; [exact Hid|]. intros b Hb. by apply id_char_plain.
    + apply fields_plain; cbn [header_fields]; [plains | plain].
  - unfold header_text. rewrite !length_app. cbn [h generated_header TraceHeader.kind TraceHeader.schema
      TraceHeader.trace_id TraceHeader.prefetch_model].
    pose proof (length_fields (header_fields h) [6; 6; 5]%nat (json ",'prefetch_model':'")) as Hf.
    unfold header_fields in *. specialize (Hf ltac:(digits)).
    change (foldr _ _ _ + foldr Nat.add 0 _ + length _)%nat with 84%nat in Hf.
    change (length (header_head "header" TRACE_SCHEMA)) with 61%nat.
    change (length (string_bytes PREFETCH_MODEL)) with 25%nat. change (length (json "'}")) with 2%nat.
    lia.
Qed.

(** The assumptions on the codec hold of this one. *)
Lemma json_wire_ok : wire_ok.
Proof. split; [apply header_line | apply page_line | apply demand_line | apply signal_line]. Qed.
