(* ===== verification/SimGeneratorContract.v ===== *)
(** The theorems of the trace generator: what it emits, that it succeeds, that a
    longer run extends a shorter one, that its draws are unbiased; and what the
    trace parser accepts, exactly. *)
From stdpp Require Import prelude gmap strings pretty sorting.
From S2P Require Import Prelude Decimal SimModel SimEngine SimTrace SimTraceOk SimGenerator.
From S2P Require Import SimGeneratorFacts SimGeneratorRun SimGeneratorTrace.
#[local] Open Scope N_scope.
#[local] Arguments N.pow : simpl never.
#[local] Arguments u64_max : simpl never.
#[local] Arguments usize_max : simpl never.

(** * Runs *)

Lemma map_err_ok {E E' A} (f : E -> E') (m : result E A) a : map_err f m = Ok a -> m = Ok a.
Proof. by destruct m; intros [= ->]. Qed.

Section generate.
Context `{HJ : SerdeJson TraceHeader.t} `{PJ : SerdeJson PageDescriptor.t}
        `{EJ : SerdeJson TraceEvent.t}.
Context (sha256 : list N -> list N) (hex_encode : list N -> string) (fuel : nat).

Abbreviation sha256_hex := (fun bytes => hex_encode (sha256 bytes)).
Abbreviation generate := (generate_trace sha256 hex_encode fuel).

(** What a generated trace is. *)
Record generated (family : TraceFamily.t) (replicate measured_steps : N) (burn_in routes : list Route)
    (g : GeneratedTrace.t) : Prop := {
  gen_family : GeneratedTrace.family g = family;
  gen_replicate : GeneratedTrace.replicate g = replicate;
  gen_steps : GeneratedTrace.measured_steps g = measured_steps;
  gen_range : 0 < measured_steps <= DEFAULT_MEASURED_STEPS;
  gen_parsed : parse_trace sha256_hex (GeneratedTrace.canonical_bytes g) SimLimits.default
    = Ok (GeneratedTrace.trace g);
  gen_header : ValidatedTrace.header (GeneratedTrace.trace g)
    = generated_header (trace_id family replicate measured_steps) (lenN page_catalog)
        (lenN (number (script burn_in routes)));
  gen_pages : ValidatedTrace.pages (GeneratedTrace.trace g) = page_catalog;
  gen_events : ValidatedTrace.events (GeneratedTrace.trace g) = number (script burn_in routes);
  gen_routes : exists final, route_run fuel family (derive_seed sha256 family replicate)
    (BURN_IN_STEPS + measured_steps) = Ok (burn_in ++ routes, final);
  gen_burn_in : lenN burn_in = BURN_IN_STEPS;
  gen_measured : lenN routes = measured_steps;
  gen_valid : Forall valid_route (burn_in ++ routes);
  gen_seed : GeneratedTrace.seed_sha256 g = hex_encode (derive_seed sha256 family replicate);
  gen_full : GeneratedTrace.full_route_sha256 g = sha256_hex
    (route_digest (nul_terminated "runnel-m3-full-routes-v1") (BURN_IN_STEPS + measured_steps) ++ route_bytes (burn_in ++ routes));
  gen_digest : GeneratedTrace.measured_route_sha256 g = sha256_hex
    (route_digest (nul_terminated "runnel-m3-measured-routes-v1") measured_steps ++ route_bytes routes)
}.

(** The number of draws that a run makes, at most. *)
Definition draw_count (measured_steps : N) : nat := 128 + 4 * (512 + N.to_nat measured_steps).

(** The range check. *)
Definition out_of_range (measured_steps : N) : Prop :=
  measured_steps = 0 \/ DEFAULT_MEASURED_STEPS < measured_steps.

Lemma range_check measured_steps :
  (measured_steps =? 0) || (DEFAULT_MEASURED_STEPS <? measured_steps) = true <-> out_of_range measured_steps.
Proof. unfold out_of_range. by rewrite orb_true_iff, N.eqb_eq, N.ltb_lt. Qed.

(** Whatever a run returns comes from its routes. *)
Lemma generated_of_run family replicate measured_steps burn_in routes s bytes t :
  0 < measured_steps <= DEFAULT_MEASURED_STEPS ->
  ran fuel family (derive_seed sha256 family replicate) measured_steps burn_in routes s ->
  serialize_trace sha256_hex (generated_header (trace_id family replicate measured_steps) (lenN page_catalog)
    (lenN (Stream.events (Generation.stream s)))) page_catalog (Stream.events (Generation.stream s))
    SimLimits.default = Ok bytes ->
  parse_trace sha256_hex bytes SimLimits.default = Ok t ->
  generated family replicate measured_steps burn_in routes
    (GeneratedTrace.mk family replicate measured_steps t bytes
      (hex_encode (derive_seed sha256 family replicate)) (hex_encode (sha256 (Generation.full_digest s)))
      (hex_encode (sha256 (Generation.measured_digest s)))).
Proof.
  intros Hm [Hrun Hb Hn Hv He Hf Hd] Hs Ht. rewrite He in Hs.
  apply serialize_trace_spec in Hs as (t' & Ht' & Eh & Ep & Ee).
  rewrite Ht in Ht'. injection Ht' as <-.
  split; simpl; try done; [by eexists | by rewrite Hf | by rewrite Hd].
Qed.

Lemma generate_trace_ran family replicate measured_steps g :
  generate family replicate measured_steps = Ok g ->
  exists burn_in routes, generated family replicate measured_steps burn_in routes g.
Proof.
  unfold generate_trace. intros (u & Hr%guard_ok_inv & H)%bind_ok_inv.
  assert (0 < measured_steps <= DEFAULT_MEASURED_STEPS) as Hm.
  { apply orb_false_iff in Hr as [?%N.eqb_neq ?%N.ltb_ge]. lia. }
  apply bind_ok_inv in H as (s & Hs & H).
  apply bind_ok_inv in H as (bytes & Hbytes & H). apply bind_ok_inv in H as (t & Ht & H). injection H as <-.
  pose proof (generate_events_ok fuel (draw_count measured_steps) family (derive_seed sha256 family replicate)
    measured_steps Hm ltac:(done)) as Hran.
  rewrite Hs in Hran. destruct Hran as (burn_in & routes & Hran). exists burn_in, routes.
  apply generated_of_run; [done | done | by apply (map_err_ok Failed) | by apply (map_err_ok Failed)].
Qed.

Lemma generate_trace_spec family replicate measured_steps :
  wire_ok -> replicate <= u32_max ->
  post (generate family replicate measured_steps)
    (fun g => exists burn_in routes, generated family replicate measured_steps burn_in routes g)
    (fun e => match e with
              | Failed e => e = invalid_config "measured_steps must be in 1..=4096" /\ out_of_range measured_steps
              | Drawing => ~ timely fuel (draw_count measured_steps)
                               (Xoshiro256StarStar.from_seed (derive_seed sha256 family replicate))
              end).
Proof.
  intros Hwire Hr. unfold generate_trace. apply post_bind, post_guard; [intros H; by apply range_check in H|].
  intros H. assert (0 < measured_steps <= DEFAULT_MEASURED_STEPS) as Hm.
  { apply orb_false_iff in H as [?%N.eqb_neq ?%N.ltb_ge]. lia. }
  apply post_bind. eapply post_mono; [by apply (generate_events_ok fuel (draw_count measured_steps)) | |].
  2: { by intros e [-> Ht]. }
  intros s (burn_in & routes & Hran). pose proof Hran as [_ Hb Hn Hv He _ _].
  destruct (generated_serializes Hwire sha256_hex family replicate measured_steps burn_in routes) as [bytes Hs];
    [done | apply Hm | done | done | unfold lenN in *; rewrite length_app; unfold DEFAULT_MEASURED_STEPS,
      BURN_IN_STEPS, u64_max in *; lia|].
  rewrite <- He in Hs. unfold generated_header in Hs. rewrite Hs. cbn [map_err mbind result_bind].
  destruct (serialize_trace_spec _ _ _ _ _ _ Hs) as (t & Ht & _). rewrite Ht.
  cbn [map_err mbind result_bind]. apply post_ok. exists burn_in, routes. by apply generated_of_run.
Qed.

(** ** Longer runs *)

Lemma route_steps_extend l rs g rs' g' :
  try_fold (route_step fuel) (rs, g) l = Ok (rs', g') -> rs `prefix_of` rs'.
Proof.
  revert rs g. induction l as [|step l IH]; intros rs g; cbn [try_fold]; [by intros [= <- _]|].
  intros ([rs1 g1] & Hs & Hl)%bind_ok_inv. apply IH in Hl. etrans; [|exact Hl]. unfold route_step in Hs.
  apply bind_ok_inv in Hs as ([[first second] g2] & _ & [= <- _]). by apply prefix_app_r.
Qed.

Lemma rangeN_add n d : exists l, rangeN (n + d) = rangeN n ++ l.
Proof.
  unfold rangeN. replace (N.to_nat (n + d)) with (N.to_nat n + N.to_nat d)%nat by lia.
  rewrite seq_app, fmap_app. by eexists.
Qed.

Lemma route_run_extends family seed n m rs g rs' g' :
  n <= m -> route_run fuel family seed n = Ok (rs, g) -> route_run fuel family seed m = Ok (rs', g') ->
  rs `prefix_of` rs'.
Proof.
  intros Hle Hn Hm. unfold route_run in *. destruct (RouteGenerator.new fuel family seed); [|done..].
  cbn [mbind result_bind] in *. destruct (rangeN_add n (m - n)) as [l El].
  replace (n + (m - n)) with m in El by lia. rewrite El, try_fold_app, Hn in Hm. cbn [mbind result_bind] in Hm.
  by apply route_steps_extend in Hm.
Qed.

(** C16: The generator is correct and does not fail.  It never panics, for any family,
    replicate and length.  What it returns is a trace that the parser accepts under
    the default limits, with the catalog of 128 experts of three pages; its events
    are, numbered from zero, for every measured step the signal forecast from the
    routes before the step (the burn-in included), if there is a forecast, then
    the three pages of each of the two distinct experts of its route; and
    its digests cover the seed, all routes and the measured routes.  It refuses a
    length outside 1..4096, and a run without result has a rejection loop that
    rejected as many words as the fuel allows, which a seed with [timely] words
    excludes. *)
Theorem generate_trace_contract family replicate measured_steps :
  wire_ok -> replicate <= u32_max ->
  post (generate family replicate measured_steps)
    (fun g => exists burn_in routes, generated family replicate measured_steps burn_in routes g)
    (fun e => match e with
              | Failed e => e = invalid_config "measured_steps must be in 1..=4096" /\ out_of_range measured_steps
              | Drawing => ~ timely fuel (draw_count measured_steps)
                               (Xoshiro256StarStar.from_seed (derive_seed sha256 family replicate))
              end).
Proof. apply generate_trace_spec. Qed.

(** C18: A longer run extends a shorter one: with the same family and replicate the
    events of the shorter trace, its signals included, are a prefix of those of the
    longer one, and the routes and the seed are the same. *)
Theorem generated_prefix_stable family replicate n m g g' :
  n <= m -> generate family replicate n = Ok g -> generate family replicate m = Ok g' ->
  ValidatedTrace.events (GeneratedTrace.trace g) `prefix_of` ValidatedTrace.events (GeneratedTrace.trace g')
  /\ GeneratedTrace.seed_sha256 g = GeneratedTrace.seed_sha256 g'
  /\ exists burn_in routes more, generated family replicate n burn_in routes g
       /\ generated family replicate m burn_in (routes ++ more) g'.
Proof.
  intros Hle (burn_in & routes & G)%generate_trace_ran (burn_in' & routes' & G')%generate_trace_ran.
  destruct (gen_routes _ _ _ _ _ _ G) as [f Hf], (gen_routes _ _ _ _ _ _ G') as [f' Hf'].
  destruct (route_run_extends _ _ (BURN_IN_STEPS + n) (BURN_IN_STEPS + m) _ _ _ _ ltac:(lia) Hf Hf') as [l El]. rewrite <- app_assoc in El.
  apply app_inj_1 in El as [-> ->].
  2: { pose proof (gen_burn_in _ _ _ _ _ _ G). pose proof (gen_burn_in _ _ _ _ _ _ G'). unfold lenN in *. lia. }
  split_and!.
  - rewrite (gen_events _ _ _ _ _ _ G), (gen_events _ _ _ _ _ _ G').
    destruct (script_app burn_in routes l) as [rest ->]. rewrite number_app. by apply prefix_app_r.
  - by rewrite (gen_seed _ _ _ _ _ _ G), (gen_seed _ _ _ _ _ _ G').
  - by exists burn_in, routes, l.
Qed.
End generate.

(** * Draws *)

(** C19: A draw is unbiased.  [bounded] returns the residue of the first word that is
    not below the remainder of 2^64 by the bound (it never panics for a positive
    bound, and has no result only if the fuel is spent on rejected words); and of the
    words it accepts, exactly 2^64 / bound have any given residue: they are the
    pairs of a residue and a quotient. *)
Theorem bounded_unbiased fuel bound g :
  0 < bound <= 2 ^ 64 ->
  let accepted w := 2 ^ 64 mod bound <= w < 2 ^ 64 in
  match Xoshiro256StarStar.bounded fuel bound g with
  | Ok (v, g') => exists j, (j < fuel)%nat /\ (forall i, (i < j)%nat -> ~ accepted (word i g))
      /\ accepted (word j g) /\ v = word j g mod bound /\ g' = advance (S j) g
  | Err e => e = Drawing /\ forall i, (i < fuel)%nat -> ~ accepted (word i g)
  | Panic => False
  end
  /\ (forall w, accepted w -> w mod bound < bound /\ (w - 2 ^ 64 mod bound) / bound < 2 ^ 64 / bound)
  /\ (forall u q, u < bound -> q < 2 ^ 64 / bound ->
        exists w, (accepted w /\ w mod bound = u /\ (w - 2 ^ 64 mod bound) / bound = q)
          /\ forall w', accepted w' -> w' mod bound = u -> (w' - 2 ^ 64 mod bound) / bound = q -> w' = w).
Proof.
  intros Hb accepted. split_and!.
  - unfold Xoshiro256StarStar.bounded. rewrite (proj2 (N.eqb_neq _ _)) by lia.
    rewrite wrapping_neg_mod by lia. pose proof (draw_loop_spec fuel bound (2 ^ 64 mod bound) g) as H.
    destruct (Xoshiro256StarStar.draw_loop _ _ _ _) as [[v g']|e|]; [| |done].
    + destruct H as (j & Hj & Hr & Ha & -> & ->). exists j. split_and!; [done | | | done..].
      * intros i Hi [? _]. specialize (Hr i Hi). lia.
      * split; [done | apply word_lt].
    + destruct H as [-> Hr]. split; [done|]. intros i Hi [? _]. specialize (Hr i Hi). lia.
  - intros w [Hw1 Hw2]. split; [apply N.mod_lt; lia|]. apply quotient_lt; lia.
  - intros u q Hu Hq. destruct (residue_word bound u q) as (w & H1 & H2); [lia | done | done|].
    exists w. split; [exact H1 | exact H2].
Qed.

(** A seed of 32 bytes never leads to the state zero, which the transition would not
    leave: the four words stay words of 64 bits, not all of them zero. *)
Theorem rng_never_zero seed n :
  Forall (fun b => b < 256) seed -> words_ok (advance n (Xoshiro256StarStar.from_seed seed)).
Proof.
  intros Hs. induction n as [|n IH]; [by apply from_seed_words|].
  change (S n) with (1 + n)%nat. rewrite advance_add, advance_1. by apply next_words.
Qed.

(** The harmonic choice is by weight: [pick] returns an index exactly for the
    draws in its part of the sum of the weights of the indices that are not
    excluded, of which index [i] has 1000000 / (i + 1); and for a draw below that
    sum it returns one. *)
Theorem harmonic_by_weight count excluded draw :
  (forall index, RouteGenerator.pick excluded draw (rangeN count) = Ok index <->
     exists pre suf, choices excluded count = pre ++ index :: suf
       /\ sumN RouteGenerator.weight pre <= draw < sumN RouteGenerator.weight pre + RouteGenerator.weight index)
  /\ ((exists index, RouteGenerator.pick excluded draw (rangeN count) = Ok index)
      <-> draw < harmonic_total excluded count).
Proof.
  pose proof (pick_spec excluded draw (rangeN count)) as H. fold (choices excluded count) in H.
  fold (harmonic_total excluded count) in H.
  assert (forall pre index suf, choices excluded count = pre ++ index :: suf ->
    sumN RouteGenerator.weight pre + RouteGenerator.weight index <= harmonic_total excluded count) as Htot.
  { intros pre index suf E. unfold harmonic_total. rewrite E, sumN_app. simpl. lia. }
  destruct (RouteGenerator.pick excluded draw (rangeN count)) as [i| |]; [|done|].
  - destruct H as (pre & suf & E & Hd). split.
    + intros index. split; [intros [= <-]; eauto|]. intros (pre' & suf' & E' & Hd').
      f_equal. rewrite E in E'. by eapply (interval_unique RouteGenerator.weight draw).
    + split; [intros _ | by eexists]. specialize (Htot _ _ _ E). lia.
  - split.
    + intros index. split; [done|]. intros (pre & suf & E & Hd). specialize (Htot _ _ _ E). lia.
    + split; [by intros [? ?] | lia].
Qed.

(** * The parser *)


(** * Examples *)

(** Any 32 bytes stand for the digest of a seed. *)
Definition demo_sha256 : list N -> list N := fun _ => N.of_nat <$> seq 7 32.
Definition demo_hex : list N -> string := fun _ => "digest".

(** The first [n] words are accepted. *)
Fixpoint words_accepted (n : nat) (g : Xoshiro256StarStar.t) : bool :=
  match n with
  | O => true
  | S n => let '(w, g) := Xoshiro256StarStar.next_u64 g in (ACCEPTED <=? w) && words_accepted n g
  end.

Lemma words_accepted_word n g k : words_accepted n g = true -> (k < n)%nat -> ACCEPTED <= word k g.
Proof.
  revert g k. induction n as [|n IH]; intros g k Hn Hk; [lia|]. cbn [words_accepted] in Hn.
  destruct (Xoshiro256StarStar.next_u64 g) as [w g1] eqn:E. apply andb_true_iff in Hn as [Hw%N.leb_le Hn].
  destruct k as [|k]; [by rewrite word_0, E|].
  specialize (IH g1 k Hn ltac:(lia)). replace g1 with (advance 1 g) in IH by (by rewrite advance_1, E).
  rewrite word_advance in IH. by rewrite Nat.add_1_r in IH.
Qed.

Lemma words_timely count g : words_accepted (S count) g = true -> timely 1 count g.
Proof.
  intros Hn k Hk. exists 0%nat. split; [lia|]. rewrite Nat.add_0_r. eapply words_accepted_word; [exact Hn | lia].
Qed.

Lemma demo_timely family replicate :
  timely 1 (draw_count 2) (Xoshiro256StarStar.from_seed (derive_seed demo_sha256 family replicate)).
Proof. apply words_timely. change (derive_seed demo_sha256 family replicate) with (demo_sha256 []). by vm_compute. Qed.

Lemma timely_mono fuel count count' g : timely fuel count g -> (count' <= count)%nat -> timely fuel count' g.
Proof. intros Ht Hc k Hk. apply Ht. nia. Qed.

(** A result follows from the contract where the words are timely. *)
Lemma generate_result {A} (m : draws A) (Q : A -> Prop) measured_steps (stall : Prop) :
  post m Q (fun e => match e with
    | Failed e => e = invalid_config "measured_steps must be in 1..=4096" /\ out_of_range measured_steps
    | Drawing => ~ stall end) ->
  ~ out_of_range measured_steps -> stall -> exists a, m = Ok a /\ Q a.
Proof.
  intros H Hr Hs. destruct m as [a|[|e]|]; simpl in H; [by exists a | done | by destruct H | done].
Qed.

Lemma generate_trace_contract_witness :
  exists g, generate_trace demo_sha256 demo_hex 1 TraceFamily.MarkovClusters 7 2 = Ok g
    /\ exists burn_in routes, generated demo_sha256 demo_hex 1 TraceFamily.MarkovClusters 7 2 burn_in routes g.
Proof.
  eapply generate_result;
    [apply (generate_trace_contract demo_sha256 demo_hex 1 TraceFamily.MarkovClusters 7 2 json_wire_ok) | |];
    [by vm_compute | by intros [?|?] | apply demo_timely].
Defined.

Lemma generated_prefix_stable_witness :
  exists g g', generate_trace demo_sha256 demo_hex 1 TraceFamily.PhaseShift 3 1 = Ok g
    /\ generate_trace demo_sha256 demo_hex 1 TraceFamily.PhaseShift 3 2 = Ok g'
    /\ ValidatedTrace.events (GeneratedTrace.trace g) `prefix_of` ValidatedTrace.events (GeneratedTrace.trace g').
Proof.
  destruct (generate_result (generate_trace demo_sha256 demo_hex 1 TraceFamily.PhaseShift 3 1) _ _ _
    (generate_trace_spec demo_sha256 demo_hex 1 TraceFamily.PhaseShift 3 1 json_wire_ok ltac:(by vm_compute)))
    as (g & Hg & _); [by intros [?|?] | eapply timely_mono; [apply demo_timely | vm_compute; lia]|].
  destruct (generate_result (generate_trace demo_sha256 demo_hex 1 TraceFamily.PhaseShift 3 2) _ _ _
    (generate_trace_spec demo_sha256 demo_hex 1 TraceFamily.PhaseShift 3 2 json_wire_ok ltac:(by vm_compute)))
    as (g' & Hg' & _); [by intros [?|?] | apply demo_timely|].
  exists g, g'. split; [exact Hg|]. split; [exact Hg'|].
  apply (generated_prefix_stable demo_sha256 demo_hex 1 TraceFamily.PhaseShift 3 1 2 g g' ltac:(done) Hg Hg').
Defined.

Lemma bounded_unbiased_witness :
  exists w, (2 ^ 64 mod 100 <= w < 2 ^ 64 /\ w mod 100 = 42 /\ (w - 2 ^ 64 mod 100) / 100 = 7)
    /\ forall w', 2 ^ 64 mod 100 <= w' < 2 ^ 64 -> w' mod 100 = 42 -> (w' - 2 ^ 64 mod 100) / 100 = 7 -> w' = w.
Proof.
  apply (bounded_unbiased 1 100 (Xoshiro256StarStar.from_seed (demo_sha256 []))); [split; by vm_compute | by vm_compute..].
Defined.


