(* ===== verification/Format.v ===== *)
(** The errors of the artifact format (crates/runnel-format/src/error.rs), and the
    JSON policy and the canonical writer (json.rs).  [serde_json]'s deserializer is
    third-party code: what it drives the visitor with is a [Token] tree, in which a
    syntax error may stand wherever the deserializer can fail. *)
From stdpp Require Import prelude strings pretty.
From S2P Require Import Prelude.
#[local] Open Scope N_scope.

(** A [Digest] is its 256-bit value: its bytes are compared big-endian, so the
    derived order is the numeric one. *)
Abbreviation Digest := N (only parsing).

(** error.rs: [FormatError]. *)
Module FormatError.
Inductive t : Type :=
| LimitExceedsFormat (field : string) (value ceiling : N)
| ManifestTooLarge (actual limit : N)
| MemoryBudgetExceeded (required limit : N)
| JsonSyntax (line column : N) (message : string)
| DuplicateKey (key : string)
| NestingTooDeep (limit : N)
| NullNotAllowed
| FloatingPointNotAllowed
| IntegerOutOfRange (max : N)
| StringTooLong (actual limit : N)
| NonAsciiString
| Schema (path problem : string)
| CountLimit (field : string) (actual limit : N)
| ArithmeticOverflow (context : string)
| NonCanonicalManifest
| ArtifactIdMismatch (expected actual : Digest)
| Io (operation message : string)
| NotRegularFile (kind : string)
| MissingBlob (kind : string) (digest : Digest)
| BlobLengthMismatch (kind : string) (digest : Digest) (expected actual : N)
| BlobDigestMismatch (kind : string) (expected actual : Digest)
| PageTable (object : Digest) (problem : string)
| PageHashMismatch (object : Digest) (page_index : N)
| UnknownTensorRole (role : string)
| TensorGap (object : Digest) (expected_offset actual_offset : N)
| TensorOverlap (object : Digest) (previous_end next_offset : N)
| TensorCoverage (object : Digest) (covered length : N).
#[global] Instance eq_dec : EqDecision t.
Proof. solve_decision. Defined.
End FormatError.

#[local] Set Warnings "-register-all".

Definition MAX_SAFE_INTEGER : N := 9007199254740991.
Definition MAX_NESTING_DEPTH : N := 12.
Definition MAX_SCHEMA_STRING_BYTES : N := 256.
Definition MAX_JSON_COLLECTION_ENTRIES : N := 65536.

(** A [BTreeMap<String, JsonValue>] is the list of its entries in ascending key
    order. *)
Inductive JsonValue : Type :=
| Bool (value : bool)
| Integer (value : N)
| String_ (value : string)
| Array (values : list JsonValue)
| Object (values : list (string * JsonValue)).

Inductive JsonIssue : Type :=
| DuplicateKey (key : string)
| NestingTooDeep
| Null
| FloatingPoint
| IntegerOutOfRange
| StringTooLong (actual : N)
| NonAsciiString
| CollectionTooLarge.

(** A [serde_json::Error]: its position and message. *)
Record SyntaxError : Type := Syntax { line : N; column : N; message : string }.

(** The calls a deserializer makes on the visitor.  A sequence and a map end
    normally or in a syntax error; [Broken] is a syntax error in place of a value. *)
Inductive Token : Type :=
| TNone
| TUnit
| TBool (value : bool)
| TU64 (value : N)
| TI64 (value : Z)
| TU128 (value : N)
| TI128 (value : Z)
| TF64
| TStr (value : string)
| TSeq (elements : list Token) (ending : option SyntaxError)
| TMap (entries : list (string * Token)) (ending : option SyntaxError)
| Broken (error : SyntaxError).

(** How a visit fails: with the issue [ParseState::fail] records, which is the
    first one because every failure propagates at once, or with the
    deserializer's own error. *)
Inductive VisitError : Type :=
| Policy (issue : JsonIssue)
| Malformed (error : SyntaxError).

Definition state_fail {A} (issue : JsonIssue) : result VisitError A := Err (Policy issue).

(** [str::is_ascii]. *)
Fixpoint is_ascii (s : string) : bool :=
  match s with
  | EmptyString => true
  | String c s => (Ascii.N_of_ascii c <? 128) && is_ascii s
  end.

Definition validate_string (value : string) : result VisitError unit :=
  let length := N.of_nat (String.length value) in
  _ ← guard_err (MAX_SCHEMA_STRING_BYTES <? length) (Policy (StringTooLong length));
  guard_err (negb (is_ascii value)) (Policy NonAsciiString).

Definition visit_u64 (value : N) : result VisitError JsonValue :=
  _ ← guard_err (MAX_SAFE_INTEGER <? value) (Policy IntegerOutOfRange);
  Ok (Integer value).

(** [u64::try_from] a signed or wider integer, then [visit_u64]. *)
Definition visit_integer (value : Z) : result VisitError JsonValue :=
  if (value <? 0)%Z || (Z.of_N u64_max <? value)%Z then state_fail IntegerOutOfRange
  else visit_u64 (Z.to_N value).

(** [BTreeMap::insert]. *)
Fixpoint btree_insert {V} (key : string) (value : V) (m : list (string * V)) : list (string * V) :=
  match m with
  | [] => [(key, value)]
  | (k, v) :: rest =>
      match String.compare key k with
      | Lt => (key, value) :: m
      | Eq => (key, value) :: rest
      | Gt => (k, v) :: btree_insert key value rest
      end
  end.

(** The [while let] loops of [visit_seq] and [visit_map]; [visit] is the seed of
    the next depth. *)
Section loops.
Context (visit : Token -> result VisitError JsonValue) (ending : option SyntaxError).

Fixpoint elements_loop (elements : list Token) (result_ : list JsonValue)
    : result VisitError JsonValue :=
  match elements with
  | [] => match ending with None => Ok (Array result_) | Some e => Err (Malformed e) end
  | element :: elements =>
      value ← visit element;
      if lenN result_ =? MAX_JSON_COLLECTION_ENTRIES then state_fail CollectionTooLarge
      else elements_loop elements (result_ ++ [value])
  end.

Fixpoint entries_loop (entries : list (string * Token)) (result_ : list (string * JsonValue))
    (keys : list string) : result VisitError JsonValue :=
  match entries with
  | [] => match ending with None => Ok (Object result_) | Some e => Err (Malformed e) end
  | (key, token) :: entries =>
      _ ← validate_string key;
      if bool_decide (key ∈ keys) then state_fail (DuplicateKey key)
      else if lenN result_ =? MAX_JSON_COLLECTION_ENTRIES then state_fail CollectionTooLarge
      else
        value ← visit token;
        entries_loop entries (btree_insert key value result_) (key :: keys)
  end.
End loops.

(** [ValueVisitor] at a depth. *)
Fixpoint visit (depth : N) (t : Token) : result VisitError JsonValue :=
  match t with
  | TNone | TUnit => state_fail Null
  | TBool value => Ok (Bool value)
  | TU64 value => visit_u64 value
  | TI64 value => visit_integer value
  | TU128 value => visit_integer (Z.of_N value)
  | TI128 value => visit_integer value
  | TF64 => state_fail FloatingPoint
  | TStr value => _ ← validate_string value; Ok (String_ value)
  | TSeq elements ending =>
      if MAX_NESTING_DEPTH <? depth then state_fail NestingTooDeep
      else elements_loop (visit (depth + 1)) ending elements []
  | TMap entries ending =>
      if MAX_NESTING_DEPTH <? depth then state_fail NestingTooDeep
      else entries_loop (visit (depth + 1)) ending entries [] []
  | Broken e => Err (Malformed e)
  end.

(** [parse], from the deserializer's calls and what follows the first value. *)
Definition parse (from_slice : list N -> Token * option SyntaxError) (bytes : list N)
    : result FormatError.t JsonValue :=
  let '(token, trailing) := from_slice bytes in
  let parsed :=
    value ← visit 1 token;
    match trailing with None => Ok value | Some e => Err (Malformed e) end in
  match parsed with
  | Ok value => Ok value
  | Err (Policy issue) => Err
      match issue with
      | DuplicateKey key => FormatError.DuplicateKey key
      | NestingTooDeep => FormatError.NestingTooDeep MAX_NESTING_DEPTH
      | Null => FormatError.NullNotAllowed
      | FloatingPoint => FormatError.FloatingPointNotAllowed
      | IntegerOutOfRange => FormatError.IntegerOutOfRange MAX_SAFE_INTEGER
      | StringTooLong actual => FormatError.StringTooLong actual MAX_SCHEMA_STRING_BYTES
      | NonAsciiString => FormatError.NonAsciiString
      | CollectionTooLarge =>
          FormatError.CountLimit "JSON collection" (MAX_JSON_COLLECTION_ENTRIES + 1)
            MAX_JSON_COLLECTION_ENTRIES
      end
  | Err (Malformed e) => Err (FormatError.JsonSyntax (line e) (column e) (message e))
  | Panic => Panic
  end.

(** * The canonical writer *)

Definition QUOTE : N := 34.
Definition BACKSLASH : N := 92.
Definition COMMA : N := 44.
Definition COLON : N := 58.
Definition HEX : list N := string_bytes "0123456789abcdef".

(** [HEX[usize::from(nibble)]]; the nibble of a byte is below 16. *)
Definition hex_digit (nibble : N) : N := nth (N.to_nat nibble) HEX 0.

Definition write_byte (byte : N) : list N :=
  if byte =? QUOTE then [BACKSLASH; QUOTE]
  else if byte =? BACKSLASH then [BACKSLASH; BACKSLASH]
  else if byte =? 8 then [BACKSLASH; 98]
  else if byte =? 9 then [BACKSLASH; 116]
  else if byte =? 10 then [BACKSLASH; 110]
  else if byte =? 12 then [BACKSLASH; 102]
  else if byte =? 13 then [BACKSLASH; 114]
  else if byte <=? 31 then
    [BACKSLASH; 117; 48; 48; hex_digit (N.shiftr byte 4); hex_digit (N.land byte 15)]
  else [byte].

Definition write_string (value : string) : list N :=
  QUOTE :: mjoin (write_byte <$> string_bytes value) ++ [QUOTE].

(** Elements separated by commas. *)
Fixpoint separated (parts : list (list N)) : list N :=
  match parts with
  | [] => []
  | [part] => part
  | part :: parts => part ++ COMMA :: separated parts
  end.

Fixpoint write_value (value : JsonValue) : list N :=
  match value with
  | Bool value => string_bytes (if value then "true" else "false")
  | Integer value => string_bytes (pretty value)
  | String_ value => write_string value
  | Array values => 91 :: separated (write_value <$> values) ++ [93]
  | Object values =>
      123 :: separated ((fun '(key, value) => write_string key ++ COLON :: write_value value) <$> values)
        ++ [125]
  end.

Definition canonical_bytes (value : JsonValue) : list N := write_value value ++ [10].
