(* ===== verification/FormatJsonFacts.v ===== *)
(** The JSON policy accepts exactly the documents within its limits, and the
    canonical writer is unambiguous: a text is the canonical form of at most one
    document. *)
From stdpp Require Import prelude strings pretty sorting.
From S2P Require Import Prelude Decimal Format.
#[local] Open Scope N_scope.
#[local] Set Warnings "-register-all".

(** * Induction on nested documents *)

Section JsonValue_nested_ind.
Context (P : JsonValue -> Prop).
Hypothesis (Hbool : forall b, P (Bool b)) (Hint : forall n, P (Integer n))
  (Hstr : forall s, P (String_ s))
  (Harr : forall l, Forall P l -> P (Array l))
  (Hobj : forall l, Forall (fun kv => P (kv.2)) l -> P (Object l)).
Fixpoint JsonValue_nested_ind (v : JsonValue) : P v :=
  match v with
  | Bool b => Hbool b
  | Integer n => Hint n
  | String_ s => Hstr s
  | Array l => Harr l ((fix go l : Forall P l :=
      match l with
      | [] => List.Forall_nil _
      | x :: l => List.Forall_cons _ x l (JsonValue_nested_ind x) (go l)
      end) l)
  | Object l => Hobj l ((fix go l : Forall (fun kv => P (kv.2)) l :=
      match l with
      | [] => List.Forall_nil _
      | kv :: l => List.Forall_cons _ kv l (JsonValue_nested_ind (kv.2)) (go l)
      end) l)
  end.
End JsonValue_nested_ind.

Section Token_nested_ind.
Context (P : Token -> Prop).
Hypothesis (Hleaf : forall t, match t with TSeq _ _ | TMap _ _ => True | _ => P t end)
  (Hseq : forall l e, Forall P l -> P (TSeq l e))
  (Hmap : forall l e, Forall (fun kt => P (kt.2)) l -> P (TMap l e)).
Fixpoint Token_nested_ind (t : Token) : P t :=
  match t with
  | TSeq l e => Hseq l e ((fix go l : Forall P l :=
      match l with
      | [] => List.Forall_nil _
      | x :: l => List.Forall_cons _ x l (Token_nested_ind x) (go l)
      end) l)
  | TMap l e => Hmap l e ((fix go l : Forall (fun kt => P (kt.2)) l :=
      match l with
      | [] => List.Forall_nil _
      | kt :: l => List.Forall_cons _ kt l (Token_nested_ind (kt.2)) (go l)
      end) l)
  | t => Hleaf t
  end.
End Token_nested_ind.

(** * Unique readability of the canonical form *)

(** What follows a value never continues a number. *)
Definition stops (rest : list N) : Prop := match rest with [] => True | c :: _ => ~ digit c end.

(** [w x] can be read off any text it begins. *)
Definition readable {A} (w : A -> list N) (x : A) : Prop :=
  forall y r r', w x ++ r = w y ++ r' -> stops r -> stops r' -> x = y /\ r = r'.
(** [w x] is not empty and does not begin with [c]. *)
Definition avoids {A} (w : A -> list N) (c : N) : Prop := forall x, exists d l, w x = d :: l /\ d <> c.

(** A run of characters of one kind ends where another kind begins. *)
Lemma run_unique (P : N -> Prop) l l' r r' :
  Forall P l -> Forall P l' -> l ++ r = l' ++ r' ->
  (forall c t, r = c :: t -> ~ P c) -> (forall c t, r' = c :: t -> ~ P c) -> l = l' /\ r = r'.
Proof.
  revert l'. induction l as [|c l IH]; intros [|c' l'] Hl Hl' E Hr Hr'; simpl in E.
  - done.
  - apply Forall_cons in Hl' as [Hc _]. by destruct (Hr c' (l' ++ r')).
  - apply Forall_cons in Hl as [Hc _]. by destruct (Hr' c (l ++ r)).
  - apply Forall_cons in Hl as [_ Hl], Hl' as [_ Hl']. injection E as -> E.
    by destruct (IH l' Hl Hl' E Hr Hr') as [-> ->].
Qed.

Lemma integer_readable n : readable (fun n => string_bytes (pretty (n : N))) n.
Proof.
  assert (forall r, stops r -> forall c t, r = c :: t -> ~ digit c) as Hstop by (by intros r Hr c t ->).
  intros m r r' E Hr Hr'.
  destruct (run_unique digit _ _ _ _ (pretty_digits n) (pretty_digits m) E (Hstop _ Hr) (Hstop _ Hr'))
    as [H ->].
  split; [|done]. by apply (inj pretty), (inj string_bytes).
Qed.

(** ** Strings *)

Definition unhex (c : N) : N := if c <=? 57 then c - 48 else c - 87.
(** One escaped character, read back. *)
Definition unescape (l : list N) : option (N * list N) :=
  match l with
  | [] => None
  | c :: l =>
      if c =? BACKSLASH then
        match l with
        | [] => None
        | k :: l =>
            if k =? 117 then
              match l with
              | _ :: _ :: high :: low :: l => Some (16 * unhex high + unhex low, l)
              | _ => None
              end
            else if k =? 98 then Some (8, l)
            else if k =? 116 then Some (9, l)
            else if k =? 110 then Some (10, l)
            else if k =? 102 then Some (12, l)
            else if k =? 114 then Some (13, l)
            else Some (k, l)
        end
      else Some (c, l)
  end.

Lemma unescape_write c r :
  unescape (write_byte (Ascii.N_of_ascii c) ++ r) = Some (Ascii.N_of_ascii c, r).
Proof. by destruct c as [[] [] [] [] [] [] [] []]. Qed.

Lemma write_byte_not_quote c r t : QUOTE :: t <> write_byte (Ascii.N_of_ascii c) ++ r.
Proof. by destruct c as [[] [] [] [] [] [] [] []]. Qed.

Lemma string_unique s s' r r' : write_string s ++ r = write_string s' ++ r' -> s = s' /\ r = r'.
Proof.
  unfold write_string. simpl. intros [= E]. rewrite <- !app_assoc in E. simpl in E. revert s' E.
  induction s as [|c s IH]; intros [|c' s']; simpl; rewrite <- ?app_assoc; intros E.
  - by injection E.
  - by apply write_byte_not_quote in E.
  - by symmetry in E; apply write_byte_not_quote in E.
  - pose proof (f_equal unescape E) as E'. rewrite !unescape_write in E'. injection E' as Hc E'.
    destruct (IH s' E') as [-> ->]. split; [|done]. f_equal.
    rewrite <- (Ascii.ascii_N_embedding c), <- (Ascii.ascii_N_embedding c'). by rewrite Hc.
Qed.

(** ** Arrays and objects *)

Lemma separated_cons p ps : separated (p :: ps) = p ++ mjoin (cons COMMA <$> ps).
Proof.
  revert p. induction ps as [|q ps IH]; intros p; [by rewrite app_nil_r|].
  change (separated (p :: q :: ps)) with (p ++ COMMA :: separated (q :: ps)). by rewrite IH.
Qed.

Section sequences.
Context {A : Type} (w : A -> list N) (close : N).
Context (Hclose : ~ digit close) (Hcomma : close <> COMMA) (Havoid : avoids w close).

Lemma tail_stops l r : stops (mjoin (cons COMMA <$> (w <$> l)) ++ close :: r).
Proof. destruct l; simpl; [done|]. unfold digit, COMMA. lia. Qed.

Lemma tail_unique l l' r r' :
  Forall (readable w) l ->
  mjoin (cons COMMA <$> (w <$> l)) ++ close :: r = mjoin (cons COMMA <$> (w <$> l')) ++ close :: r' ->
  l = l' /\ r = r'.
Proof.
  revert l'. induction l as [|x l IH]; intros [|y l'] Hl E; simpl in E.
  - by injection E.
  - by injection E as ? ?.
  - by injection E as ? ?.
  - apply Forall_cons in Hl as [Hx Hl]. injection E as E. rewrite <- !app_assoc in E.
    destruct (Hx y _ _ E) as [-> E'']; [apply tail_stops..|]. by destruct (IH l' Hl E'') as [-> ->].
Qed.

Lemma separated_unique l l' r r' :
  Forall (readable w) l ->
  separated (w <$> l) ++ close :: r = separated (w <$> l') ++ close :: r' -> l = l' /\ r = r'.
Proof.
  intros Hl E. destruct l as [|x l], l' as [|y l']; rewrite ?fmap_cons, ?separated_cons in E.
  - by injection E.
  - destruct (Havoid y) as (d & t & Ey & Hd). rewrite Ey in E. simpl in E. by injection E as ? ?.
  - destruct (Havoid x) as (d & t & Ex & Hd). rewrite Ex in E. simpl in E. by injection E as ? ?.
  - apply Forall_cons in Hl as [Hx Hl]. rewrite <- !app_assoc in E.
    destruct (Hx y _ _ E) as [-> E']; [apply tail_stops..|]. by destruct (tail_unique l l' r r' Hl E') as [-> ->].
Qed.
End sequences.

Definition write_entry (kv : string * JsonValue) : list N :=
  write_string (kv.1) ++ COLON :: write_value (kv.2).

Lemma write_object l : write_value (Object l) = 123 :: separated (write_entry <$> l) ++ [125].
Proof. simpl. do 3 f_equal. apply list_fmap_ext. by intros ? []. Qed.

(** The first character tells the kind of a value. *)
Definition kind_of (c : N) : N := if (48 <=? c) && (c <=? 57) then 48 else c.
Definition first_of (v : JsonValue) : N :=
  match v with
  | Bool true => 116 | Bool false => 102 | Integer _ => 48 | String_ _ => QUOTE
  | Array _ => 91 | Object _ => 123
  end.

Lemma write_first v : exists d l, write_value v = d :: l /\ kind_of d = first_of v.
Proof.
  destruct v as [[]|n|s|l|l]; try (by eexists _, _).
  destruct (pretty_nonempty n) as (d & l & E & Hd). exists d, l. split; [done|].
  unfold kind_of, digit in *. simpl. by rewrite (proj2 (N.leb_le 48 d)), (proj2 (N.leb_le d 57)) by lia.
Qed.

Lemma first_same v v' r r' : write_value v ++ r = write_value v' ++ r' -> first_of v = first_of v'.
Proof.
  destruct (write_first v) as (d & l & -> & <-), (write_first v') as (d' & l' & -> & <-).
  by intros [= -> _].
Qed.

Lemma value_avoids c : kind_of c = c -> c ∉ [116; 102; 48; QUOTE; 91; 123] -> avoids write_value c.
Proof.
  intros Hc Hn v. destruct (write_first v) as (d & l & E & Hd). exists d, l. split; [done|]. intros ->.
  apply Hn. rewrite <- Hc, Hd. destruct v as [[]| | | |]; simpl; set_solver.
Qed.

Lemma entry_readable kv : readable write_value (kv.2) -> readable write_entry kv.
Proof.
  intros Hv [k' v'] r r' E Hr Hr'. unfold write_entry in E. destruct kv as [k v]. cbn [fst snd] in *.
  rewrite <- !app_assoc in E. destruct (string_unique _ _ _ _ E) as [-> E']. simpl in E'.
  injection E' as E'. by destruct (Hv _ _ _ E' Hr Hr') as [-> ->].
Qed.

Lemma value_readable v : readable write_value v.
Proof.
  induction v as [b|n|s|l IH|l IH] using JsonValue_nested_ind; intros v' r r' E Hr Hr';
    pose proof (first_same _ _ _ _ E) as Hk; destruct v' as [b'|n'|s'|l'|l'];
    try destruct b; try destruct b'; simpl in Hk; try discriminate Hk.
  - simpl in E. by simplify_eq.
  - simpl in E. by simplify_eq.
  - by destruct (integer_readable n n' r r' E Hr Hr') as [-> ->].
  - by destruct (string_unique s s' r r' E) as [-> ->].
  - simpl in E. injection E as E. rewrite <- !app_assoc in E.
    destruct (separated_unique write_value 93) with (5 := E) as [-> ->];
      [unfold digit; lia | done | by apply value_avoids; [|set_solver] | done | done].
  - rewrite !write_object in E. simpl in E. injection E as E. rewrite <- !app_assoc in E.
    destruct (separated_unique write_entry 125) with (5 := E) as [-> ->];
      [unfold digit; lia | done | | | done].
    + intros [k x]. by eexists _, _.
    + eapply Forall_impl; [exact IH|]. apply entry_readable.
Qed.

(** * What the policy accepts *)

Definition string_ok (s : string) : bool :=
  (N.of_nat (String.length s) <=? MAX_SCHEMA_STRING_BYTES) && is_ascii s.

(** Keys in strictly ascending order. *)
Fixpoint ascending (keys : list string) : bool :=
  match keys with
  | k :: (k' :: _) as keys => match String.compare k k' with Lt => ascending keys | _ => false end
  | _ => true
  end.

(** A document within the limits, at a nesting depth. *)
Fixpoint json_ok (depth : N) (v : JsonValue) : bool :=
  match v with
  | Bool _ => true
  | Integer n => n <=? MAX_SAFE_INTEGER
  | String_ s => string_ok s
  | Array l =>
      (depth <=? MAX_NESTING_DEPTH) && (lenN l <=? MAX_JSON_COLLECTION_ENTRIES)
      && forallb (json_ok (depth + 1)) l
  | Object l =>
      (depth <=? MAX_NESTING_DEPTH) && (lenN l <=? MAX_JSON_COLLECTION_ENTRIES)
      && ascending l.*1 && forallb (fun kv => string_ok kv.1 && json_ok (depth + 1) kv.2) l
  end.

(** The calls of a deserializer that reads the document back. *)
Fixpoint token_of (v : JsonValue) : Token :=
  match v with
  | Bool b => TBool b
  | Integer n => TU64 n
  | String_ s => TStr s
  | Array l => TSeq (token_of <$> l) None
  | Object l => TMap ((fun kv => (kv.1, token_of kv.2)) <$> l) None
  end.

Lemma validate_string_spec s :
  match validate_string s with Ok _ => string_ok s = true | Err _ => string_ok s = false | Panic => False end.
Proof.
  unfold validate_string, string_ok.
  destruct (N.leb_spec (N.of_nat (String.length s)) MAX_SCHEMA_STRING_BYTES) as [H|H].
  - rewrite (proj2 (N.ltb_ge _ _) H). simpl. by destruct (is_ascii s).
  - by rewrite (proj2 (N.ltb_lt _ _) H).
Qed.

Lemma visit_u64_spec n : visit_u64 n = if n <=? MAX_SAFE_INTEGER then Ok (Integer n) else state_fail IntegerOutOfRange.
Proof.
  unfold visit_u64. destruct (N.leb_spec n MAX_SAFE_INTEGER) as [H|H].
  - by rewrite (proj2 (N.ltb_ge _ _) H).
  - by rewrite (proj2 (N.ltb_lt _ _) H).
Qed.

(** ** [BTreeMap::insert] keeps the keys ascending *)

Definition key_lt (a b : string) : Prop := String.compare a b = Lt.

Lemma key_lt_trans : Transitive key_lt.
Proof.
  intros a. unfold key_lt. induction a as [|x a IH]; intros [|y b] [|z c]; simpl; try done.
  unfold Ascii.compare. destruct (N.compare_spec (Ascii.N_of_ascii x) (Ascii.N_of_ascii y)) as [Exy|Exy|Exy];
    destruct (N.compare_spec (Ascii.N_of_ascii y) (Ascii.N_of_ascii z)) as [Eyz|Eyz|Eyz]; try done; intros H1 H2;
    destruct (N.compare_spec (Ascii.N_of_ascii x) (Ascii.N_of_ascii z)) as [Exz|Exz|Exz]; try done; try lia.
  by eapply IH.
Qed.

Lemma key_lt_irrefl k : ~ key_lt k k.
Proof.
  unfold key_lt. intros H. pose proof (String.compare_antisym k k) as E. rewrite H in E. done.
Qed.

Lemma ascending_sorted l : ascending l = true <-> StronglySorted key_lt l.
Proof.
  split.
  - intros H. apply Sorted_StronglySorted; [apply key_lt_trans|].
    induction l as [|k [|k' l] IH]; [repeat constructor..|]. simpl in H.
    destruct (String.compare k k') eqn:E; [done| |done]. constructor; [by apply IH | by constructor].
  - induction 1 as [|k l Hl IH Hk]; [done|]. destruct l as [|k' l]; [done|]. simpl.
    apply Forall_cons in Hk as [Hk _]. unfold key_lt in Hk. by rewrite Hk.
Qed.

Lemma btree_insert_keys {V} k (v : V) m :
  StronglySorted key_lt m.*1 -> k ∉ m.*1 ->
  StronglySorted key_lt (btree_insert k v m).*1 /\ btree_insert k v m ≡ₚ (k, v) :: m.
Proof.
  induction m as [|[k' v'] m IH]; intros Hs Hk; [repeat constructor|]. cbn [fmap list_fmap fst btree_insert] in *.
  apply StronglySorted_inv in Hs as [Hs Hmin]. apply not_elem_of_cons in Hk as [Hne Hk].
  destruct (String.compare k k') eqn:E.
  - by apply String.compare_eq_iff in E.
  - split; [|done]. constructor; [by constructor|]. constructor; [done|].
    eapply Forall_impl; [exact Hmin|]. intros x. by apply key_lt_trans.
  - destruct (IH Hs Hk) as [IH1 IH2]. split.
    + constructor; [done|]. rewrite IH2. constructor; [|done].
      unfold key_lt. cbn [fst]. by rewrite String.compare_antisym, E.
    + rewrite IH2. apply perm_swap.
Qed.

Lemma btree_insert_last {V} k (v : V) m :
  Forall (fun k' => key_lt k' k) m.*1 -> btree_insert k v m = m ++ [(k, v)].
Proof.
  induction m as [|[k' v'] m IH]; intros H; [done|]. apply Forall_cons in H as [Hk H]. unfold key_lt in Hk. simpl in *.
  rewrite String.compare_antisym, Hk. simpl. by rewrite IH.
Qed.

(** ** Soundness *)

Definition accepts (depth : N) (t : Token) : Prop :=
  post (visit depth t) (fun v => json_ok depth v = true) (fun _ => True).

Lemma elements_sound f ending depth elements acc :
  depth <= MAX_NESTING_DEPTH -> lenN acc <= MAX_JSON_COLLECTION_ENTRIES ->
  Forall (fun t => post (f t) (fun v => json_ok (depth + 1) v = true) (fun _ => True)) elements ->
  Forall (fun v => json_ok (depth + 1) v = true) acc ->
  post (elements_loop f ending elements acc) (fun v => json_ok depth v = true) (fun _ => True).
Proof.
  intros Hd. revert acc. induction elements as [|t elements IH]; intros acc Hlen Hel Hacc; simpl.
  - destruct ending; [done|]. simpl. rewrite !andb_true_iff, !N.leb_le, forallb_forall. split; [done|].
    intros x Hx. apply (proj1 (List.Forall_forall _ _) Hacc x Hx).
  - apply Forall_cons in Hel as [Ht Hel]. apply post_bind. eapply post_strengthen; [exact Ht|].
    intros v Hv. simpl. destruct (N.eqb_spec (lenN acc) MAX_JSON_COLLECTION_ENTRIES); [done|].
    apply IH; [|done|].
    + unfold lenN in *. rewrite length_app. simpl. lia.
    + apply Forall_app; by repeat constructor.
Qed.

Lemma entries_sound f ending depth entries acc keys :
  depth <= MAX_NESTING_DEPTH -> lenN acc <= MAX_JSON_COLLECTION_ENTRIES ->
  Forall (fun kt => post (f kt.2) (fun v => json_ok (depth + 1) v = true) (fun _ => True)) entries ->
  Forall (fun kv => string_ok kv.1 = true /\ json_ok (depth + 1) kv.2 = true) acc ->
  StronglySorted key_lt acc.*1 -> keys ≡ₚ acc.*1 ->
  post (entries_loop f ending entries acc keys) (fun v => json_ok depth v = true) (fun _ => True).
Proof.
  intros Hd. revert acc keys. induction entries as [|[k t] entries IH]; intros acc keys Hlen Hen Hacc Hs Hk; simpl.
  - destruct ending; [done|]. simpl. rewrite !andb_true_iff, !N.leb_le, forallb_forall, ascending_sorted.
    split; [done|]. intros kv Hin. rewrite andb_true_iff. apply (proj1 (List.Forall_forall _ _) Hacc kv Hin).
  - apply Forall_cons in Hen as [Ht Hen]. apply post_bind.
    pose proof (validate_string_spec k) as Hv. destruct (validate_string k) as [[]| |]; [|done..]. simpl.
    case_bool_decide as Hin; [done|]. rewrite Hk in Hin.
    destruct (N.eqb_spec (lenN acc) MAX_JSON_COLLECTION_ENTRIES); [done|].
    apply post_bind. eapply post_strengthen; [exact Ht|]. intros v Hok.
    destruct (btree_insert_keys k v acc Hs Hin) as [Hs' Hp].
    apply IH; [| done | | done |].
    + unfold lenN in *. rewrite Hp. simpl. lia.
    + rewrite Hp. by constructor.
    + rewrite Hp, Hk. done.
Qed.

Lemma visit_sound t depth : accepts depth t.
Proof.
  revert depth. apply (Token_nested_ind (fun t => forall depth, accepts depth t)); clear t.
  - assert (forall z depth, post (visit_integer z) (fun v => json_ok depth v = true) (fun _ => True)) as Hz.
    { intros z depth. unfold visit_integer. destruct (_ || _); [done|]. rewrite visit_u64_spec.
      by destruct (Z.to_N z <=? MAX_SAFE_INTEGER) eqn:E. }
    intros t. destruct t as [ | | | | | | | |s| | | ]; unfold accepts; simpl; try done; intros depth; try apply Hz.
    + rewrite visit_u64_spec. by destruct (value <=? MAX_SAFE_INTEGER) eqn:E.
    + pose proof (validate_string_spec s) as Hv. by destruct (validate_string s) as [[]| |].
  - intros l e IH depth. unfold accepts. simpl. destruct (N.ltb_spec MAX_NESTING_DEPTH depth); [done|].
    apply elements_sound; [done | apply N.le_0_l | | constructor].
    eapply Forall_impl; [exact IH|]. intros t Ht. apply Ht.
  - intros l e IH depth. unfold accepts. simpl. destruct (N.ltb_spec MAX_NESTING_DEPTH depth); [done|].
    apply entries_sound; [done | apply N.le_0_l | | constructor | constructor | done].
    eapply Forall_impl; [exact IH|]. intros t Ht. apply Ht.
Qed.

(** ** Completeness *)

Lemma elements_complete f elements values acc :
  Forall2 (fun t v => f t = Ok v) elements values ->
  lenN acc + lenN values <= MAX_JSON_COLLECTION_ENTRIES ->
  elements_loop f None elements acc = Ok (Array (acc ++ values)).
Proof.
  intros H. revert acc. induction H as [|t v elements values Ht _ IH]; intros acc Hlen; simpl.
  - by rewrite app_nil_r.
  - rewrite Ht. simpl. unfold lenN in *. simpl in Hlen. destruct (N.eqb_spec (N.of_nat (length acc)) MAX_JSON_COLLECTION_ENTRIES); [lia|].
    rewrite IH, <- app_assoc; [done|]. rewrite length_app. simpl. lia.
Qed.

Lemma entries_complete f entries values acc keys :
  Forall2 (fun kt kv => kt.1 = kv.1 /\ string_ok kv.1 = true /\ f kt.2 = Ok kv.2) entries values ->
  lenN acc + lenN values <= MAX_JSON_COLLECTION_ENTRIES -> NoDup (acc ++ values).*1 ->
  StronglySorted key_lt acc.*1 -> keys ≡ₚ acc.*1 ->
  exists l, entries_loop f None entries acc keys = Ok (Object l)
    /\ StronglySorted key_lt l.*1 /\ l ≡ₚ acc ++ values.
Proof.
  intros H. revert acc keys.
  induction H as [|[k t] [k' v] entries values (Hk & Hok & Ht) _ IH]; intros acc keys Hlen Hnd Hs Hkeys; simpl in *.
  - exists acc. by rewrite app_nil_r.
  - subst k'. pose proof (validate_string_spec k) as Hv. destruct (validate_string k) as [[]| |]; [|congruence|done].
    simpl. rewrite fmap_app in Hnd. apply NoDup_app in Hnd as (Hnd1 & Hdis & Hnd2).
    assert (k ∉ acc.*1) as Hfresh by (intros Hin; apply (Hdis k Hin); by left).
    rewrite bool_decide_eq_false_2 by (by rewrite Hkeys).
    unfold lenN in *. simpl in Hlen. destruct (N.eqb_spec (N.of_nat (length acc)) MAX_JSON_COLLECTION_ENTRIES); [lia|].
    rewrite Ht. simpl. destruct (btree_insert_keys k v acc Hs Hfresh) as [Hs' Hp].
    destruct (IH (btree_insert k v acc) (k :: keys)) as (l & E & Hl & Hpl).
    + rewrite Hp. simpl. lia.
    + rewrite Hp. simpl. rewrite fmap_app. apply NoDup_cons in Hnd2 as [Hk Hnd2].
      apply NoDup_cons. split; [by rewrite elem_of_app; intros [?|?]|]. apply NoDup_app. split; [done|].
      split; [|done]. intros x Hx Hx'. apply (Hdis x Hx). by right.
    + done.
    + by rewrite Hp, Hkeys.
    + exists l. split; [done|]. split; [done|]. rewrite Hpl, Hp. by rewrite <- Permutation_middle.
Qed.

(** ** What a visit reads *)

(** The document that a sequence of calls describes: a sequence or a map that
    ends without a syntax error, integers of any width, map keys distinct and
    their entries in any order. *)
Inductive reads : Token -> JsonValue -> Prop :=
| reads_bool b : reads (TBool b) (Bool b)
| reads_u64 n : reads (TU64 n) (Integer n)
| reads_i64 n : reads (TI64 (Z.of_N n)) (Integer n)
| reads_u128 n : reads (TU128 n) (Integer n)
| reads_i128 n : reads (TI128 (Z.of_N n)) (Integer n)
| reads_str s : reads (TStr s) (String_ s)
| reads_seq ts vs : Forall2 reads ts vs -> reads (TSeq ts None) (Array vs)
| reads_map entries values l :
    Forall2 (fun kt kv => kt.1 = kv.1 /\ reads kt.2 kv.2) entries values ->
    NoDup entries.*1 -> l ≡ₚ values -> reads (TMap entries None) (Object l).

Lemma elements_reads f ending elements acc v :
  Forall (fun t => forall v, f t = Ok v -> reads t v) elements ->
  elements_loop f ending elements acc = Ok v ->
  ending = None /\ exists vs, v = Array (acc ++ vs) /\ Forall2 reads elements vs.
Proof.
  revert acc. induction elements as [|t elements IH]; intros acc Hall H; simpl in H.
  - destruct ending; [done|]. injection H as <-. split; [done|]. exists []. by rewrite app_nil_r.
  - apply Forall_cons in Hall as [Ht Hall]. ok_step H. case_match; [done|].
    destruct (IH _ Hall H) as (He & vs & -> & Hvs). split; [done|]. exists (x :: vs).
    rewrite <- app_assoc. by split; [|constructor; [apply Ht|]].
Qed.

Lemma entries_reads f ending entries acc keys v :
  Forall (fun kt => forall v, f kt.2 = Ok v -> reads kt.2 v) entries ->
  StronglySorted key_lt acc.*1 -> keys ≡ₚ acc.*1 ->
  entries_loop f ending entries acc keys = Ok v ->
  ending = None /\ exists values l, v = Object l /\ l ≡ₚ acc ++ values
    /\ Forall2 (fun kt kv => kt.1 = kv.1 /\ reads kt.2 kv.2) entries values
    /\ NoDup entries.*1 /\ (forall k, k ∈ entries.*1 -> k ∉ keys).
Proof.
  revert acc keys. induction entries as [|[k t] entries IH]; intros acc keys Hall Hs Hk H; cbn [entries_loop] in H.
  - destruct ending; [done|]. injection H as <-. split; [done|]. exists [], acc. rewrite app_nil_r.
    do 3 (split; [done|]). split; [constructor|]. intros k Hk'. by apply elem_of_nil in Hk'.
  - apply Forall_cons in Hall as [Ht Hall]. ok_step H. case_bool_decide as Hin; [done|]. case_match; [done|].
    ok_step H. rewrite Hk in Hin. destruct (btree_insert_keys k x0 acc Hs Hin) as [Hs' Hp].
    destruct (IH _ (k :: keys) Hall Hs') as (He & values & l & -> & Hl & Hr & Hnd & Hfresh);
      [by rewrite Hp, Hk | exact H|].
    split; [done|]. exists ((k, x0) :: values), l. split; [done|].
    split; [rewrite Hl, Hp; by rewrite <- Permutation_middle|].
    split; [constructor; [split; [done | by apply Ht] | done]|]. rewrite fmap_cons.
    split; [apply NoDup_cons; split; [|done]; intros Hk'; apply (Hfresh k Hk'); by left|].
    intros k' [-> |Hk']%elem_of_cons; [by rewrite Hk|]. apply Hfresh in Hk'. set_solver.
Qed.

Lemma visit_reads t depth v : visit depth t = Ok v -> reads t v.
Proof.
  revert depth v. apply (Token_nested_ind (fun t => forall depth v, visit depth t = Ok v -> reads t v)); clear t.
  - assert (forall z v, visit_integer z = Ok v -> exists n, z = Z.of_N n /\ v = Integer n) as Hz.
    { intros z v. unfold visit_integer. destruct (Z.ltb_spec z 0); [done|]. destruct (_ <? z)%Z; [done|].
      simpl. rewrite visit_u64_spec. case_match; [|done]. intros [= <-]. exists (Z.to_N z). split; [lia | done]. }
    intros t. destruct t as [ | |b|n|z|n|z| |s| | | ]; try done; intros depth v H; simpl in H; try done.
    + injection H as <-. constructor.
    + rewrite visit_u64_spec in H. case_match; [|done]. injection H as <-. constructor.
    + apply Hz in H as (n & -> & ->). constructor.
    + apply Hz in H as (m & E & ->). apply N2Z.inj in E as ->. constructor.
    + apply Hz in H as (n & -> & ->). constructor.
    + ok_step H. injection H as <-. constructor.
  - intros l e IH depth v H. simpl in H. case_match; [done|].
    apply elements_reads in H as (-> & vs & -> & Hvs); [by constructor|].
    eapply Forall_impl; [exact IH|]. intros t Ht v'. apply Ht.
  - intros l e IH depth v H. simpl in H. case_match; [done|].
    apply entries_reads in H as (-> & values & l' & -> & Hl & Hr & Hnd & _); [by econstructor | |constructor | done].
    eapply Forall_impl; [exact IH|]. intros t Ht v'. apply Ht.
Qed.

Definition entry_lt (a b : string * JsonValue) : Prop := key_lt a.1 b.1.
#[export] Instance entry_lt_antisymm : AntiSymm (=) entry_lt.
Proof. intros a b H1 H2. destruct (key_lt_irrefl a.1). by eapply key_lt_trans. Qed.

Lemma sorted_object_unique (l l' : list (string * JsonValue)) :
  StronglySorted key_lt l.*1 -> StronglySorted key_lt l'.*1 -> l ≡ₚ l' -> l = l'.
Proof.
  assert (forall l : list (string * JsonValue), StronglySorted key_lt l.*1 -> StronglySorted entry_lt l) as H.
  { induction l0 as [|kv l0 IH]; intros Hs; [constructor|]. apply StronglySorted_inv in Hs as [Hs Hk].
    constructor; [by apply IH|]. exact (proj1 (Forall_fmap _ _ _) Hk). }
  intros H1 H2. apply (StronglySorted_unique entry_lt); by apply H.
Qed.

Lemma reads_visit t depth v : reads t v -> json_ok depth v = true -> visit depth t = Ok v.
Proof.
  revert depth v.
  apply (Token_nested_ind (fun t => forall depth v, reads t v -> json_ok depth v = true -> visit depth t = Ok v)); clear t.
  - assert (forall n, (n <=? MAX_SAFE_INTEGER) = true -> visit_integer (Z.of_N n) = Ok (Integer n)) as Hz.
    { intros n Hn. unfold visit_integer. rewrite (proj2 (Z.ltb_ge _ _)) by lia.
      rewrite (proj2 (Z.ltb_ge _ _)); [simpl; by rewrite N2Z.id, visit_u64_spec, Hn|].
      apply N.leb_le in Hn. assert (MAX_SAFE_INTEGER <= u64_max) by (vm_compute; discriminate). lia. }
    intros t. destruct t; try done; intros depth v Hr Hok; inversion Hr; subst; simpl in *; auto.
    + by rewrite visit_u64_spec, Hok.
    + pose proof (validate_string_spec value) as Hv. by destruct (validate_string value) as [[]| |]; [|congruence|].
  - intros l e IH depth v Hr Hok. inversion Hr as [| | | | | |? vs Hvs|]; subst. simpl in *.
    rewrite !andb_true_iff, !N.leb_le, forallb_forall in Hok. destruct Hok as [[Hd Hl] Hok].
    rewrite (proj2 (N.ltb_ge _ _) Hd). apply (elements_complete _ _ vs []); [|unfold lenN in *; simpl; lia].
    apply Forall2_same_length_lookup_2; [by eapply Forall2_length|]. intros i t v Ht Hv.
    apply (proj1 (Forall_lookup _ _) IH i t Ht); [by eapply Forall2_lookup_lr|].
    apply Hok, list_elem_of_In. by eapply list_elem_of_lookup_2.
  - intros l e IH depth v Hr Hok. inversion Hr as [| | | | | | |? values l' Hvs Hnd Hp]; subst. simpl in *.
    rewrite !andb_true_iff, !N.leb_le, forallb_forall, ascending_sorted in Hok.
    destruct Hok as [[[Hd Hl] Hs] Hok]. rewrite (proj2 (N.ltb_ge _ _) Hd).
    assert (l.*1 = values.*1) as Hkeys.
    { clear -Hvs. induction Hvs as [|[k t] [k' v] ? ? [E _] _ IH]; [done|]. rewrite !fmap_cons. by f_equal. }
    destruct (entries_complete (visit (depth + 1)) l values [] []) as (l2 & -> & Hs2 & Hp2).
    + apply Forall2_same_length_lookup_2; [by eapply Forall2_length|]. intros i kt kv Ht Hv.
      destruct (Forall2_lookup_lr _ _ _ _ _ _ Hvs Ht Hv) as [Hk Hrd].
      assert (kv ∈ l') as Hin by (rewrite Hp; by eapply list_elem_of_lookup_2).
      apply list_elem_of_In, Hok, andb_true_iff in Hin as [Hsk Hj]. split; [done|]. split; [done|].
      by apply (proj1 (Forall_lookup _ _) IH i kt Ht).
    + unfold lenN in *. rewrite Hp in Hl. simpl. lia.
    + simpl. by rewrite <- Hkeys.
    + constructor.
    + done.
    + do 2 f_equal. apply sorted_object_unique; [done..|]. by rewrite Hp2, Hp.
Qed.

Lemma sorted_keys_NoDup l : StronglySorted key_lt l -> NoDup l.
Proof.
  induction 1 as [|k l _ IH Hk]; constructor; [|done]. intros Hin.
  apply (key_lt_irrefl k). by apply (proj1 (Forall_forall _ _) Hk).
Qed.

Lemma token_of_reads v depth : json_ok depth v = true -> reads (token_of v) v.
Proof.
  revert depth. induction v as [b|n|s|l IH|l IH] using JsonValue_nested_ind; intros depth Hok; simpl in *;
    [constructor..| |].
  - rewrite !andb_true_iff, forallb_forall in Hok. constructor. apply Forall2_fmap_l.
    rewrite Forall_forall in IH. apply Forall_Forall2_diag, Forall_forall.
    intros x Hx. eapply IH, (proj2 Hok); [done | by apply list_elem_of_In].
  - rewrite !andb_true_iff, forallb_forall, ascending_sorted in Hok. destruct Hok as [[_ Hs] Hok].
    apply (reads_map _ l l); [| |done].
    + apply Forall2_fmap_l. rewrite Forall_forall in IH. apply Forall_Forall2_diag, Forall_forall.
      intros [k x] Hx. split; [done|]. assert ((k, x) ∈ l) as Hx' by done.
      apply list_elem_of_In, Hok, andb_true_iff in Hx' as [_ ?]. by eapply (IH _ Hx).
    + rewrite <- list_fmap_compose. change (NoDup l.*1). by apply sorted_keys_NoDup.
Qed.

Lemma visit_complete v depth : json_ok depth v = true -> visit depth (token_of v) = Ok v.
Proof. intros H. apply reads_visit; [by eapply token_of_reads | done]. Qed.

Lemma parse_sound from_slice bytes :
  post (parse from_slice bytes) (fun v => json_ok 1 v = true) (fun _ => True).
Proof.
  unfold parse. destruct (from_slice bytes) as [t e]. pose proof (visit_sound t 1) as H. unfold accepts in H.
  destruct (visit 1 t) as [v|[]|]; [|done..]. simpl. by destruct e.
Qed.
