(* ===== verification/FormatManifest.v ===== *)
(** Digests, limits and the manifest schema of the artifact format
    (crates/runnel-format/src/manifest.rs).  SHA-256 and the JSON deserializer
    are the parameters [sha256] and [from_slice]. *)
From stdpp Require Import prelude gmap strings pretty sorting.
From S2P Require Import Prelude Format.
#[local] Open Scope N_scope.

Definition FORMAT_MANIFEST_BYTES : N := 4 * 1024 * 1024.
Definition FORMAT_OBJECTS : N := 65536.
Definition FORMAT_TENSORS : N := 65536.
Definition FORMAT_OBJECT_BYTES : N := N.shiftl 1 40.
Definition FORMAT_AGGREGATE_OBJECT_BYTES : N := N.shiftl 8 40.
Definition FORMAT_PAGE_TABLE_BYTES : N := 64 * 1024 * 1024.
Definition FORMAT_AGGREGATE_PAGE_TABLE_BYTES : N := 1024 * 1024 * 1024.

Definition MIN_PAGE_SIZE : N := 65536.
Definition MAX_PAGE_SIZE : N := 2097152.
Definition MAX_TENSOR_DIMENSION : N := 2147483647.

Definition check_limit (field : string) (value ceiling : N) : result FormatError.t unit :=
  guard_err (ceiling <? value) (FormatError.LimitExceedsFormat field value ceiling).

Module Limits.
Record t : Type := mk {
  manifest_bytes : N;
  objects : N;
  tensors : N;
  object_bytes : N;
  aggregate_object_bytes : N;
  page_table_bytes : N;
  aggregate_page_table_bytes : N;
  eager_memory_bytes : N
}.
Definition validate (l : t) : result FormatError.t t :=
  _ ← check_limit "manifest_bytes" (manifest_bytes l) FORMAT_MANIFEST_BYTES;
  _ ← check_limit "objects" (objects l) FORMAT_OBJECTS;
  _ ← check_limit "tensors" (tensors l) FORMAT_TENSORS;
  _ ← check_limit "object_bytes" (object_bytes l) FORMAT_OBJECT_BYTES;
  _ ← check_limit "aggregate_object_bytes" (aggregate_object_bytes l) FORMAT_AGGREGATE_OBJECT_BYTES;
  _ ← check_limit "page_table_bytes" (page_table_bytes l) FORMAT_PAGE_TABLE_BYTES;
  _ ← check_limit "aggregate_page_table_bytes" (aggregate_page_table_bytes l)
        FORMAT_AGGREGATE_PAGE_TABLE_BYTES;
  Ok l.
Definition default : t :=
  mk (1024 * 1024) 4096 16384 (2 * 1024 * 1024 * 1024) (2 * 1024 * 1024 * 1024) (8 * 1024 * 1024)
    (64 * 1024 * 1024) (256 * 1024 * 1024).
End Limits.

(** * Digests *)

Inductive DigestParseError : Set := Prefix | Length | LowercaseHex.
(** Its [Display] text. *)
Definition digest_parse_message (e : DigestParseError) : string :=
  match e with
  | Prefix => "digest must begin with sha256:"
  | Length => "SHA-256 digest must contain exactly 64 hexadecimal digits"
  | LowercaseHex => "SHA-256 digest must use lowercase hexadecimal digits"
  end.

Definition lowercase_hex_value (byte : N) : option N :=
  if (48 <=? byte) && (byte <=? 57) then Some (byte - 48)
  else if (97 <=? byte) && (byte <=? 102) then Some (byte - 97 + 10)
  else None.

(** [str::strip_prefix], on bytes. *)
Fixpoint strip_prefix (prefix l : list N) : option (list N) :=
  match prefix, l with
  | [], l => Some l
  | _ :: _, [] => None
  | p :: prefix, c :: l => if p =? c then strip_prefix prefix l else None
  end.

Module Digest.
Definition from_bytes (bytes : list N) : Digest := foldl (fun acc b => acc * 256 + b) 0 bytes.
Definition as_bytes (d : Digest) : list N := reverse (to_le_bytes 32 d).

(** [write_hex], and the [{byte:02x}] of [Display]. *)
Definition write_hex (bytes : list N) : list N :=
  mjoin ((fun byte => [hex_digit (N.shiftr byte 4); hex_digit (N.land byte 15)]) <$> bytes).
Definition path_component (d : Digest) : string := bytes_string (write_hex (as_bytes d)).
Definition to_string (d : Digest) : string := "sha256:" +:+ path_component d.

(** The loop over [chunks_exact(2)]. *)
Fixpoint pairs (hexadecimal : list N) : result DigestParseError (list N) :=
  match hexadecimal with
  | h :: l :: rest =>
      high ← ok_or (lowercase_hex_value h) LowercaseHex;
      low ← ok_or (lowercase_hex_value l) LowercaseHex;
      bytes ← pairs rest;
      Ok (N.lor (N.shiftl high 4) low :: bytes)
  | _ => Ok []
  end.
Definition from_str (value : string) : result DigestParseError Digest :=
  hexadecimal ← ok_or (strip_prefix (string_bytes "sha256:") (string_bytes value)) Prefix;
  _ ← guard_err (negb (lenN hexadecimal =? 64)) Length;
  bytes ← pairs hexadecimal;
  Ok (from_bytes bytes).
End Digest.

(** * Records *)

Module Adapter.
Record t : Type := mk { id : string; version : N }.
End Adapter.
Module Tokenizer.
Record t : Type := mk { id : string; version : N; vocab_size : N }.
End Tokenizer.
Module TinyModel.
Record t : Type := mk {
  context_length : N; expert_hidden_size : N; hidden_size : N; num_experts : N;
  num_heads : N; num_layers : N; top_k : N; vocab_size : N
}.
End TinyModel.

Definition page_count (object_length page_size : N) : result FormatError.t N :=
  rounding ← ok_or (checked_sub page_size 1) (FormatError.ArithmeticOverflow "nonzero page size");
  ok_or (rounded ← checked_add u64_max object_length rounding; Some (rounded / page_size))
    (FormatError.ArithmeticOverflow "page count").

Definition expected_page_table_length (object_length page_size : N) : result FormatError.t N :=
  count ← page_count object_length page_size;
  ok_or (hash_bytes ← checked_mul u64_max count 32; checked_add u64_max hash_bytes 64)
    (FormatError.ArithmeticOverflow "page-table byte length").

Module ObjectRecord.
Record t : Type := mk {
  digest : Digest; length : N; page_size : N; page_table : Digest; page_table_length : N
}.
Definition page_count (r : t) : result FormatError.t N := page_count (length r) (page_size r).
End ObjectRecord.

Module DType.
Inductive t : Set := F32Le | Bf16Le | U8 | I8.
Definition byte_width (d : t) : N := match d with F32Le => 4 | Bf16Le => 2 | U8 | I8 => 1 end.
Definition as_str (d : t) : string :=
  match d with F32Le => "f32-le" | Bf16Le => "bf16-le" | U8 => "u8" | I8 => "i8" end.
End DType.

Module TensorRecord.
Record t : Type := mk {
  dtype : DType.t; id : N; length : N; object : Digest; offset : N; role : string; shape : list N
}.
End TensorRecord.

Module Manifest.
Record t : Type := mk {
  adapter : Adapter.t;
  model : TinyModel.t;
  objects : list ObjectRecord.t;
  tensors : list TensorRecord.t;
  tokenizer : Tokenizer.t;
  artifact_id : Digest;
  canonical_bytes : list N
}.
End Manifest.

(** * Schema helpers *)

(** [{:?}] of an ASCII string, which every string of a parsed document is. *)
Definition text (bytes : list N) : string :=
  foldr (fun b s => String (Ascii.ascii_of_N b) s) EmptyString bytes.
Definition debug_byte (b : N) : list N :=
  if b =? 0 then [BACKSLASH; 48]
  else if b =? 9 then [BACKSLASH; 116]
  else if b =? 10 then [BACKSLASH; 110]
  else if b =? 13 then [BACKSLASH; 114]
  else if (b =? QUOTE) || (b =? BACKSLASH) then [BACKSLASH; b]
  else if b <? 16 then [BACKSLASH; 117; 123; hex_digit b; 125]
  else if (b <? 32) || (b =? 127) then
    [BACKSLASH; 117; 123; hex_digit (N.shiftr b 4); hex_digit (N.land b 15); 125]
  else [b].
Definition debug_string (s : string) : string :=
  text (QUOTE :: mjoin (debug_byte <$> string_bytes s) ++ [QUOTE]).

Definition schema {A} (path problem : string) : result FormatError.t A := Err (FormatError.Schema path problem).
Definition require (ok : bool) (path problem : string) : result FormatError.t unit :=
  if ok then Ok tt else schema path problem.

(** [BTreeMap::get]. *)
Definition btree_get (object : list (string * JsonValue)) (key : string) : option JsonValue :=
  snd <$> find (fun kv => bool_decide (kv.1 = key)) object.

Definition required (object : list (string * JsonValue)) (key path : string)
    : result FormatError.t JsonValue :=
  ok_or (btree_get object key) (FormatError.Schema path ("missing required key " +:+ debug_string key)).

Definition exact_keys (object : list (string * JsonValue)) (expected : list string) (path : string)
    : result FormatError.t unit :=
  _ ← try_fold (fun _ kv => require (bool_decide (kv.1 ∈ expected)) path
                          ("unknown key " +:+ debug_string (kv.1))) tt object;
  try_fold (fun _ key => require (bool_decide (is_Some (btree_get object key))) path
                           ("missing required key " +:+ debug_string key)) tt expected.

Definition expect_object (value : JsonValue) (path : string)
    : result FormatError.t (list (string * JsonValue)) :=
  match value with Object o => Ok o | _ => schema path "expected object" end.
Definition expect_array (value : JsonValue) (path : string) : result FormatError.t (list JsonValue) :=
  match value with Array l => Ok l | _ => schema path "expected array" end.
Definition expect_string (value : JsonValue) (path : string) : result FormatError.t string :=
  match value with String_ s => Ok s | _ => schema path "expected string" end.
Definition expect_integer (value : JsonValue) (path : string) : result FormatError.t N :=
  match value with Integer n => Ok n | _ => schema path "expected unsigned integer" end.
Definition positive_integer (value : JsonValue) (path : string) : result FormatError.t N :=
  n ← expect_integer value path;
  _ ← require (negb (n =? 0)) path "must be positive";
  Ok n.
Definition expect_literal_string (value : JsonValue) (expected path : string)
    : result FormatError.t unit :=
  s ← expect_string value path;
  require (bool_decide (s = expected)) path ("must be " +:+ debug_string expected).
Definition expect_literal_integer (value : JsonValue) (expected : N) (path : string)
    : result FormatError.t unit :=
  n ← expect_integer value path;
  require (n =? expected) path ("must be " +:+ pretty expected).

Definition is_lower (b : N) : bool := (97 <=? b) && (b <=? 122).
Definition is_digit (b : N) : bool := (48 <=? b) && (b <=? 57).
Definition DOT : N := 46.
Definition DASH : N := 45.
Definition UNDERSCORE : N := 95.

(** The first byte is a lowercase letter and the others satisfy [rest]. *)
Definition matches_name (rest : N -> bool) (value : string) : bool :=
  match string_bytes value with
  | [] => false
  | b :: bytes => is_lower b && forallb rest bytes
  end.

Definition validate_identifier (value path : string) : result FormatError.t unit :=
  let length := N.of_nat (String.length value) in
  _ ← require (negb ((length =? 0) || (64 <? length))) path
        "identifier length must be from 1 through 64 bytes";
  require (matches_name (fun b => is_lower b || is_digit b || (b =? DOT) || (b =? DASH)) value) path
    "identifier does not match [a-z][a-z0-9.-]{0,63}".

Definition validate_role (value path : string) : result FormatError.t unit :=
  let length := N.of_nat (String.length value) in
  _ ← require (negb ((length =? 0) || (128 <? length))) path
        "role length must be from 1 through 128 bytes";
  require (matches_name (fun b => is_lower b || is_digit b || (b =? UNDERSCORE) || (b =? DOT)
                                  || (b =? DASH)) value) path
    "role does not match [a-z][a-z0-9_.-]{0,127}".

Definition parse_dtype (value : JsonValue) (path : string) : result FormatError.t DType.t :=
  s ← expect_string value path;
  if bool_decide (s = "f32-le") then Ok DType.F32Le
  else if bool_decide (s = "bf16-le") then Ok DType.Bf16Le
  else if bool_decide (s = "u8") then Ok DType.U8
  else if bool_decide (s = "i8") then Ok DType.I8
  else schema path "unsupported dtype".

Definition parse_digest (value : JsonValue) (path : string) : result FormatError.t Digest :=
  s ← expect_string value path;
  match Digest.from_str s with
  | Ok d => Ok d
  | Err e => schema path (digest_parse_message e)
  | Panic => Panic
  end.

(** * The schema *)

Definition parse_adapter (value : JsonValue) : result FormatError.t Adapter.t :=
  object ← expect_object value "$.adapter";
  _ ← exact_keys object ["id"; "version"] "$.adapter";
  v ← required object "id" "$.adapter";
  id ← expect_string v "$.adapter.id";
  _ ← validate_identifier id "$.adapter.id";
  _ ← require (bool_decide (id = "runnel.tiny-causal-moe")) "$.adapter.id" "unsupported tiny adapter ID";
  v ← required object "version" "$.adapter";
  version ← positive_integer v "$.adapter.version";
  _ ← require ((version =? 1) || (version =? 2)) "$.adapter.version" "unsupported tiny adapter version";
  Ok (Adapter.mk id version).

Definition parse_tokenizer (value : JsonValue) : result FormatError.t Tokenizer.t :=
  object ← expect_object value "$.tokenizer";
  _ ← exact_keys object ["id"; "version"; "vocab_size"] "$.tokenizer";
  v ← required object "id" "$.tokenizer";
  id ← expect_string v "$.tokenizer.id";
  _ ← validate_identifier id "$.tokenizer.id";
  v ← required object "version" "$.tokenizer";
  version ← positive_integer v "$.tokenizer.version";
  v ← required object "vocab_size" "$.tokenizer";
  vocab_size ← positive_integer v "$.tokenizer.vocab_size";
  Ok (Tokenizer.mk id version vocab_size).

Definition dimension (object : list (string * JsonValue)) (key : string) : result FormatError.t N :=
  v ← required object key "$.model";
  positive_integer v ("$.model." +:+ key).

Definition parse_model (value : JsonValue) : result FormatError.t TinyModel.t :=
  object ← expect_object value "$.model";
  _ ← exact_keys object
        ["context_length"; "expert_hidden_size"; "hidden_size"; "num_experts"; "num_heads";
         "num_layers"; "top_k"; "vocab_size"] "$.model";
  context_length ← dimension object "context_length";
  expert_hidden_size ← dimension object "expert_hidden_size";
  hidden_size ← dimension object "hidden_size";
  num_experts ← dimension object "num_experts";
  num_heads ← dimension object "num_heads";
  num_layers ← dimension object "num_layers";
  top_k ← dimension object "top_k";
  vocab_size ← dimension object "vocab_size";
  _ ← require (top_k <=? num_experts) "$.model.top_k" "must not exceed num_experts";
  _ ← require (hidden_size mod num_heads =? 0) "$.model.hidden_size" "must be divisible by num_heads";
  Ok (TinyModel.mk context_length expert_hidden_size hidden_size num_experts num_heads num_layers
        top_k vocab_size).

(** [u32::is_power_of_two]. *)
Definition is_power_of_two (n : N) : bool := negb (n =? 0) && (N.land n (n - 1) =? 0).

(** The variables of the loop of [parse_objects]. *)
Module ObjectScan.
Record t : Type := mk {
  index : N;
  records : list ObjectRecord.t;
  page_tables : gset N;
  aggregate_object_bytes : N;
  aggregate_page_table_bytes : N
}.
End ObjectScan.

Definition parse_object (limits : Limits.t) (s : ObjectScan.t) (value : JsonValue)
    : result FormatError.t ObjectScan.t :=
  let path := "$.objects[" +:+ pretty (ObjectScan.index s) +:+ "]" in
  object ← expect_object value path;
  _ ← exact_keys object ["digest"; "length"; "page_size"; "page_table"; "page_table_length"] path;
  v ← required object "digest" path;
  digest ← parse_digest v (path +:+ ".digest");
  _ ← require (match last (ObjectScan.records s) with
               | Some previous => negb (digest <=? ObjectRecord.digest previous)
               | None => true
               end) (path +:+ ".digest") "object digests must be unique and strictly increasing";
  v ← required object "length" path;
  length ← positive_integer v (path +:+ ".length");
  _ ← require (length <=? Limits.object_bytes limits) (path +:+ ".length")
        "exceeds the configured per-object byte limit";
  aggregate_object_bytes ←
    ok_or (checked_add u64_max (ObjectScan.aggregate_object_bytes s) length)
      (FormatError.ArithmeticOverflow "aggregate object bytes");
  _ ← require (aggregate_object_bytes <=? Limits.aggregate_object_bytes limits) "$.objects"
        "exceeds the configured aggregate object byte limit";
  v ← required object "page_size" path;
  page_size ← positive_integer v (path +:+ ".page_size");
  _ ← require (page_size <=? u32_max) (path +:+ ".page_size") "does not fit u32";
  _ ← require ((MIN_PAGE_SIZE <=? page_size) && (page_size <=? MAX_PAGE_SIZE)
               && is_power_of_two page_size) (path +:+ ".page_size")
        "must be a power of two from 65536 through 2097152";
  v ← required object "page_table" path;
  page_table ← parse_digest v (path +:+ ".page_table");
  _ ← require (bool_decide (page_table ∉ ObjectScan.page_tables s)) (path +:+ ".page_table")
        "page-table digests must be unique";
  v ← required object "page_table_length" path;
  page_table_length ← positive_integer v (path +:+ ".page_table_length");
  expected_table_length ← expected_page_table_length length page_size;
  _ ← require (page_table_length =? expected_table_length) (path +:+ ".page_table_length")
        "does not equal 64 + 32 * ceil(length / page_size)";
  _ ← require (page_table_length <=? Limits.page_table_bytes limits) (path +:+ ".page_table_length")
        "exceeds the configured per-page-table byte limit";
  aggregate_page_table_bytes ←
    ok_or (checked_add u64_max (ObjectScan.aggregate_page_table_bytes s) page_table_length)
      (FormatError.ArithmeticOverflow "aggregate page-table bytes");
  _ ← require (aggregate_page_table_bytes <=? Limits.aggregate_page_table_bytes limits) "$.objects"
        "exceeds the configured aggregate page-table byte limit";
  Ok (ObjectScan.mk (ObjectScan.index s + 1)
        (ObjectScan.records s ++
           [ObjectRecord.mk digest length page_size page_table page_table_length])
        ({[page_table]} ∪ ObjectScan.page_tables s) aggregate_object_bytes
        aggregate_page_table_bytes).

Definition parse_objects (value : JsonValue) (limits : Limits.t)
    : result FormatError.t (list ObjectRecord.t) :=
  values ← expect_array value "$.objects";
  _ ← guard_err (Limits.objects limits <? lenN values)
        (FormatError.CountLimit "objects" (lenN values) (Limits.objects limits));
  s ← try_fold (parse_object limits) (ObjectScan.mk 0 [] ∅ 0 0) values;
  Ok (ObjectScan.records s).

(** The loop over the dimensions: the shape and the number of elements. *)
Definition parse_dimension (path : string) (s : N * list N * N) (value : JsonValue)
    : result FormatError.t (N * list N * N) :=
  let '(index, shape, elements) := s in
  let dimension_path := path +:+ ".shape[" +:+ pretty index +:+ "]" in
  dimension ← positive_integer value dimension_path;
  _ ← require (dimension <=? MAX_TENSOR_DIMENSION) dimension_path "dimension exceeds 2147483647";
  elements ← ok_or (checked_mul u64_max elements dimension)
    (FormatError.ArithmeticOverflow "tensor shape product");
  _ ← require (dimension <=? u32_max) dimension_path
        "dimension does not fit the RMOA v1 representation";
  Ok (index + 1, shape ++ [dimension], elements).

(** The variables of the loop of [parse_tensors]. *)
Module TensorScan.
Record t : Type := mk {
  index : N;
  ranges : gmap N (list (N * N));
  roles : gset string;
  tensors : list TensorRecord.t
}.
End TensorScan.

Definition parse_tensor (object_lengths : gmap N N) (s : TensorScan.t) (value : JsonValue)
    : result FormatError.t TensorScan.t :=
  let path := "$.tensors[" +:+ pretty (TensorScan.index s) +:+ "]" in
  object ← expect_object value path;
  _ ← exact_keys object ["dtype"; "id"; "length"; "object"; "offset"; "role"; "shape"] path;
  v ← required object "id" path;
  id ← expect_integer v (path +:+ ".id");
  _ ← require (id =? TensorScan.index s) (path +:+ ".id") "tensor IDs must be contiguous from zero";
  v ← required object "dtype" path;
  dtype ← parse_dtype v (path +:+ ".dtype");
  v ← required object "length" path;
  length ← positive_integer v (path +:+ ".length");
  v ← required object "object" path;
  object_digest ← parse_digest v (path +:+ ".object");
  object_length ← ok_or (object_lengths !! object_digest)
    (FormatError.Schema (path +:+ ".object") "does not name a declared object");
  v ← required object "offset" path;
  offset ← expect_integer v (path +:+ ".offset");
  _ ← require (offset mod DType.byte_width dtype =? 0) (path +:+ ".offset")
        "must be aligned to the dtype width";
  v ← required object "role" path;
  role ← expect_string v (path +:+ ".role");
  _ ← validate_role role (path +:+ ".role");
  _ ← require (bool_decide (role ∉ TensorScan.roles s)) (path +:+ ".role") "tensor roles must be unique";
  v ← required object "shape" path;
  shape_values ← expect_array v (path +:+ ".shape");
  _ ← require ((1 <=? lenN shape_values) && (lenN shape_values <=? 8)) (path +:+ ".shape")
        "rank must be from 1 through 8";
  '(_, shape, elements) ← try_fold (parse_dimension path) (0, [], 1) shape_values;
  expected_length ← ok_or (checked_mul u64_max elements (DType.byte_width dtype))
    (FormatError.ArithmeticOverflow "tensor logical byte length");
  _ ← require (length =? expected_length) (path +:+ ".length")
        "does not equal shape product times dtype width";
  end_ ← ok_or (checked_add u64_max offset length)
    (FormatError.ArithmeticOverflow "tensor object range");
  _ ← require (end_ <=? object_length) path "tensor range exceeds its declared object";
  Ok (TensorScan.mk (TensorScan.index s + 1)
        (<[object_digest := default [] (TensorScan.ranges s !! object_digest) ++ [(offset, end_)]]>
           (TensorScan.ranges s))
        ({[role]} ∪ TensorScan.roles s)
        (TensorScan.tensors s ++
           [TensorRecord.mk dtype id length object_digest offset role shape])).

(** The inner loop of [validate_tensor_coverage]: the cursor passes each range. *)
Definition cover_range (object : Digest) (cursor : N) (range : N * N) : result FormatError.t N :=
  let '(offset, end_) := range in
  _ ← guard_err (cursor <? offset) (FormatError.TensorGap object cursor offset);
  _ ← guard_err (offset <? cursor) (FormatError.TensorOverlap object cursor offset);
  Ok end_.

Definition validate_tensor_coverage (objects : list ObjectRecord.t) (ranges : gmap N (list (N * N)))
    : result FormatError.t unit :=
  try_fold (fun _ object =>
    let digest := ObjectRecord.digest object in
    let object_ranges := sort_by_key (sort_key (K:=N * N)) (default [] (ranges !! digest)) in
    cursor ← try_fold (cover_range digest) 0 object_ranges;
    guard_err (negb (cursor =? ObjectRecord.length object))
      (FormatError.TensorCoverage digest cursor (ObjectRecord.length object))) tt objects.

Definition parse_tensors (value : JsonValue) (objects : list ObjectRecord.t) (limits : Limits.t)
    : result FormatError.t (list TensorRecord.t) :=
  values ← expect_array value "$.tensors";
  _ ← guard_err (Limits.tensors limits <? lenN values)
        (FormatError.CountLimit "tensors" (lenN values) (Limits.tensors limits));
  let object_lengths : gmap N N :=
    list_to_map ((fun r => (ObjectRecord.digest r, ObjectRecord.length r)) <$> objects) in
  s ← try_fold (parse_tensor object_lengths) (TensorScan.mk 0 ∅ ∅ []) values;
  _ ← validate_tensor_coverage objects (TensorScan.ranges s);
  Ok (TensorScan.tensors s).

Definition validate_schema (document : JsonValue) (limits : Limits.t) : result FormatError.t Manifest.t :=
  root ← expect_object document "$";
  _ ← exact_keys root ["adapter"; "format"; "model"; "objects"; "tensors"; "tokenizer"; "version"] "$";
  v ← required root "format" "$";
  _ ← expect_literal_string v "rmoa" "$.format";
  v ← required root "version" "$";
  _ ← expect_literal_integer v 1 "$.version";
  v ← required root "adapter" "$";
  adapter ← parse_adapter v;
  v ← required root "model" "$";
  model ← parse_model v;
  v ← required root "tokenizer" "$";
  tokenizer ← parse_tokenizer v;
  _ ← require (Tokenizer.vocab_size tokenizer =? TinyModel.vocab_size model) "$.tokenizer.vocab_size"
        "must equal $.model.vocab_size";
  v ← required root "objects" "$";
  objects ← parse_objects v limits;
  v ← required root "tensors" "$";
  tensors ← parse_tensors v objects limits;
  Ok (Manifest.mk adapter model objects tensors tokenizer 0 []).

Section manifest.
Context (sha256 : list N -> Digest) (from_slice : list N -> Token * option SyntaxError).

Definition parse_with_limits (bytes : list N) (limits : Limits.t) : result FormatError.t Manifest.t :=
  limits ← Limits.validate limits;
  _ ← guard_err (Limits.manifest_bytes limits <? lenN bytes)
        (FormatError.ManifestTooLarge (lenN bytes) (Limits.manifest_bytes limits));
  document ← parse from_slice bytes;
  manifest ← validate_schema document limits;
  _ ← guard_err (bool_decide (canonical_bytes document <> bytes)) FormatError.NonCanonicalManifest;
  Ok (Manifest.mk (Manifest.adapter manifest) (Manifest.model manifest) (Manifest.objects manifest)
        (Manifest.tensors manifest) (Manifest.tokenizer manifest) (sha256 bytes) bytes).

Definition require_artifact_id (m : Manifest.t) (expected : Digest) : result FormatError.t unit :=
  guard_err (negb (Manifest.artifact_id m =? expected))
    (FormatError.ArtifactIdMismatch expected (Manifest.artifact_id m)).

Definition parse_with_expected_id (bytes : list N) (limits : Limits.t) (expected : Digest)
    : result FormatError.t Manifest.t :=
  manifest ← parse_with_limits bytes limits;
  _ ← require_artifact_id manifest expected;
  Ok manifest.
End manifest.

(** [slice::binary_search_by_key]: halve the window until one element is left.
    The size shrinks by half in every round, so its own value is fuel enough. *)
Fixpoint search_loop (fuel : nat) (keys : list N) (key base size : N) : result FormatError.t N :=
  if size <=? 1 then Ok base
  else
    match fuel with
    | O => Panic
    | S fuel =>
        let half := size / 2 in
        let mid := base + half in
        k ← expect (keys !! N.to_nat mid);
        search_loop fuel keys key (if key <? k then base else mid) (size - half)
    end.
Definition binary_search (keys : list N) (key : N) : result FormatError.t (option N) :=
  if lenN keys =? 0 then Ok None
  else
    base ← search_loop (length keys) keys key 0 (lenN keys);
    k ← expect (keys !! N.to_nat base);
    Ok (if k =? key then Some base else None).

(** [Manifest::object]. *)
Definition object (m : Manifest.t) (digest : Digest) : result FormatError.t (option ObjectRecord.t) :=
  found ← binary_search (ObjectRecord.digest <$> Manifest.objects m) digest;
  match found with
  | None => Ok None
  | Some index => record ← expect (Manifest.objects m !! N.to_nat index); Ok (Some record)
  end.

Definition tensor_by_role (m : Manifest.t) (role : string) : option TensorRecord.t :=
  find (fun t => bool_decide (TensorRecord.role t = role)) (Manifest.tensors m).
