(* ===== verification/FormatDigest.v ===== *)
(** Digests and the small arithmetic of the artifact format: the textual form of
    a digest is unique, page counts are ceilings, and the binary search over
    ascending digests finds what is there. *)
From stdpp Require Import prelude gmap strings sorting.
From S2P Require Import Prelude Format FormatManifest.
#[local] Open Scope N_scope.

Definition byte (b : N) : Prop := b < 256.

(** Every byte is the code of a character, so a property of bytes is decided on
    the 256 characters. *)
Lemma byte_cases (P : N -> Prop) : (forall c, P (Ascii.N_of_ascii c)) -> forall b, byte b -> P b.
Proof. intros H b Hb. rewrite <- (Ascii.N_ascii_embedding b Hb). apply H. Qed.

(** * Little-endian integers *)

Lemma length_to_le_bytes w n : length (to_le_bytes w n) = w.
Proof. revert n. induction w as [|w IH]; intros n; simpl; [done|]. by rewrite IH. Qed.

Lemma to_le_bytes_bytes w n : Forall byte (to_le_bytes w n).
Proof.
  revert n. induction w as [|w IH]; intros n; simpl; constructor; [|done]. apply N.mod_lt. lia.
Qed.

Lemma from_to_le_bytes w n : n < 256 ^ N.of_nat w -> from_le_bytes (to_le_bytes w n) = n.
Proof.
  revert n. induction w as [|w IH]; intros n Hn; simpl.
  - change (256 ^ N.of_nat 0) with 1 in Hn. lia.
  - rewrite Nat2N.inj_succ, N.pow_succ_r' in Hn. rewrite IH.
    + pose proof (N.div_mod n 256). lia.
    + apply N.Div0.div_lt_upper_bound; lia.
Qed.

Lemma to_from_le_bytes l : Forall byte l -> to_le_bytes (length l) (from_le_bytes l) = l.
Proof.
  unfold byte. induction 1 as [|b l Hb _ IH]; simpl; [done|].
  assert ((b + 256 * from_le_bytes l) mod 256 = b) as ->.
  { rewrite N.mul_comm, N.Div0.mod_add. by apply N.mod_small. }
  assert ((b + 256 * from_le_bytes l) / 256 = from_le_bytes l) as ->; [|by rewrite IH].
  rewrite N.mul_comm, N.div_add by lia. rewrite N.div_small by done. lia.
Qed.

Lemma from_le_bytes_bound l : Forall byte l -> from_le_bytes l < 256 ^ lenN l.
Proof.
  unfold byte, lenN. induction 1 as [|b l Hb _ IH]; [vm_compute; done|].
  cbn [length from_le_bytes]. rewrite Nat2N.inj_succ, N.pow_succ_r'. lia.
Qed.

(** * Digests *)

Definition digest_max : N := 256 ^ 32.

Lemma from_bytes_le l : Digest.from_bytes l = from_le_bytes (reverse l).
Proof.
  unfold Digest.from_bytes. induction l as [|b l IH] using rev_ind; [done|].
  rewrite foldl_app, reverse_snoc. simpl. rewrite IH. lia.
Qed.

Lemma as_from_bytes l : length l = 32%nat -> Forall byte l -> Digest.as_bytes (Digest.from_bytes l) = l.
Proof.
  intros Hl Hb. unfold Digest.as_bytes. rewrite from_bytes_le.
  rewrite <- (length_reverse l) in Hl. rewrite <- Hl, to_from_le_bytes by (by apply Forall_reverse).
  apply reverse_involutive.
Qed.

Lemma from_as_bytes d : d < digest_max -> Digest.from_bytes (Digest.as_bytes d) = d.
Proof.
  intros Hd. unfold Digest.as_bytes. rewrite from_bytes_le, reverse_involutive.
  by apply from_to_le_bytes.
Qed.

Lemma length_as_bytes d : length (Digest.as_bytes d) = 32%nat.
Proof. unfold Digest.as_bytes. by rewrite length_reverse, length_to_le_bytes. Qed.

Lemma as_bytes_bytes d : Forall byte (Digest.as_bytes d).
Proof. unfold Digest.as_bytes. apply Forall_reverse, to_le_bytes_bytes. Qed.

Lemma from_bytes_bound l : length l = 32%nat -> Forall byte l -> Digest.from_bytes l < digest_max.
Proof.
  intros Hl Hb. rewrite from_bytes_le. apply Forall_reverse in Hb. pose proof (from_le_bytes_bound _ Hb) as H.
  unfold lenN in H. by rewrite length_reverse, Hl in H.
Qed.

(** ** Hexadecimal text *)

Lemma pairs_byte b rest :
  byte b ->
  Digest.pairs (hex_digit (N.shiftr b 4) :: hex_digit (N.land b 15) :: rest)
  = (bytes ← Digest.pairs rest; Ok (b :: bytes)).
Proof.
  revert b. apply (byte_cases (fun b => _ = (bytes ← Digest.pairs rest; Ok (b :: bytes)))). intros c.
  by destruct c as [[] [] [] [] [] [] [] []].
Qed.

Lemma pairs_write l : Forall byte l -> Digest.pairs (Digest.write_hex l) = Ok l.
Proof.
  induction 1 as [|b l Hb _ IH]; [done|].
  change (Digest.write_hex (b :: l))
    with (hex_digit (N.shiftr b 4) :: hex_digit (N.land b 15) :: Digest.write_hex l).
  by rewrite pairs_byte, IH by done.
Qed.

Lemma hex_value_inv c x : lowercase_hex_value c = Some x -> x < 16 /\ hex_digit x = c.
Proof.
  unfold lowercase_hex_value. intros H.
  assert (x ∈ rangeN 16 -> hex_digit x = if x <? 10 then x + 48 else x - 10 + 97) as Hd.
  { vm_compute rangeN. rewrite !elem_of_cons. intros Hx.
    repeat destruct Hx as [->|Hx]; [reflexivity..|]. by apply elem_of_nil in Hx. }
  rewrite elem_of_rangeN in Hd.
  destruct ((48 <=? c) && (c <=? 57)) eqn:E1; [|destruct ((97 <=? c) && (c <=? 102)) eqn:E2; [|done]];
    simplify_eq; apply andb_true_iff in E1 as [?%N.leb_le ?%N.leb_le] || apply andb_true_iff in E2 as [?%N.leb_le ?%N.leb_le];
    (split; [lia|]); rewrite Hd by lia; destruct (N.ltb_spec (c - 48) 10), (N.ltb_spec (c - 97 + 10) 10); lia.
Qed.

Lemma nibbles x y : x < 16 -> y < 16 ->
  let b := N.lor (N.shiftl x 4) y in byte b /\ N.shiftr b 4 = x /\ N.land b 15 = y.
Proof.
  intros Hx%elem_of_rangeN Hy%elem_of_rangeN. revert Hx Hy. vm_compute rangeN.
  rewrite !elem_of_cons, !elem_of_nil. intros Hx Hy.
  repeat destruct Hx as [->|Hx]; try done; repeat destruct Hy as [->|Hy]; done.
Qed.

Lemma pairs_inv n hexadecimal bytes :
  length hexadecimal = (2 * n)%nat -> Digest.pairs hexadecimal = Ok bytes ->
  length bytes = n /\ Forall byte bytes /\ Digest.write_hex bytes = hexadecimal.
Proof.
  revert hexadecimal bytes. induction n as [|n IH]; intros l bytes Hl H.
  - destruct l; [|done]. by injection H as <-.
  - destruct l as [|h [|c rest]]; [simpl in Hl; lia..|]. simpl in H, Hl.
    ok_step H. apply hex_value_inv in Hx as [Hh <-]. ok_step H. apply hex_value_inv in Hx as [Hc <-].
    ok_step H. injection H as <-. destruct (IH rest x1) as (H1 & H2 & H3); [lia | done|].
    destruct (nibbles x x0 Hh Hc) as (Hb & E1 & E2). split; [simpl; lia|]. split; [by constructor|].
    change (hex_digit (N.shiftr (N.lor (N.shiftl x 4) x0) 4)
            :: hex_digit (N.land (N.lor (N.shiftl x 4) x0) 15) :: Digest.write_hex x1
            = hex_digit x :: hex_digit x0 :: rest).
    by rewrite E1, E2, H3.
Qed.

Lemma write_hex_bytes l : Forall byte l -> Forall byte (Digest.write_hex l).
Proof.
  assert (forall b, byte b -> byte (hex_digit (N.shiftr b 4)) /\ byte (hex_digit (N.land b 15))) as Hd.
  { apply byte_cases. intros c. by destruct c as [[] [] [] [] [] [] [] []]. }
  induction 1 as [|b l Hb _ IH]; [constructor|]. destruct (Hd b Hb) as [H1 H2].
  change (Forall byte (hex_digit (N.shiftr b 4) :: hex_digit (N.land b 15) :: Digest.write_hex l)).
  by repeat constructor.
Qed.

Lemma length_write_hex l : length (Digest.write_hex l) = (2 * length l)%nat.
Proof.
  induction l as [|b l IH]; [done|].
  change (length (Digest.write_hex (b :: l))) with (S (S (length (Digest.write_hex l)))). simpl. lia.
Qed.

Lemma string_bytes_string l : Forall byte l -> string_bytes (bytes_string l) = l.
Proof.
  induction 1 as [|b l Hb _ IH]; [done|]. simpl. rewrite IH. f_equal. by apply Ascii.N_ascii_embedding.
Qed.

Lemma strip_prefix_app p l : strip_prefix p (p ++ l) = Some l.
Proof. induction p as [|c p IH]; [done|]. simpl. by rewrite N.eqb_refl. Qed.

Lemma strip_prefix_inv p l r : strip_prefix p l = Some r -> l = p ++ r.
Proof.
  revert l. induction p as [|c p IH]; intros [|c' l] H; simpl in *; simplify_eq; try done.
  destruct (N.eqb_spec c c') as [->|]; [|done]. f_equal. by apply IH.
Qed.

Lemma from_to_string d : d < digest_max -> Digest.from_str (Digest.to_string d) = Ok d.
Proof.
  intros Hd. unfold Digest.from_str, Digest.to_string, Digest.path_component.
  rewrite string_bytes_app, string_bytes_string by apply write_hex_bytes, as_bytes_bytes.
  rewrite strip_prefix_app. cbn [ok_or mbind result_bind]. unfold lenN.
  rewrite length_write_hex, length_as_bytes. change (N.of_nat (2 * 32) =? 64) with true.
  cbn [negb guard_err]. rewrite pairs_write by apply as_bytes_bytes. cbn [mbind result_bind]. by rewrite from_as_bytes.
Qed.

Lemma to_from_string s d : Digest.from_str s = Ok d -> d < digest_max /\ Digest.to_string d = s.
Proof.
  unfold Digest.from_str. intros H. ok_step H. apply strip_prefix_inv in Hx. ok_step H.
  apply negb_false_iff, N.eqb_eq in Hx0. ok_step H. injection H as <-.
  apply (pairs_inv 32) in Hx1 as (Hl & Hb & Hw); [|unfold lenN in Hx0; lia].
  split; [by apply from_bytes_bound|]. apply (inj string_bytes).
  unfold Digest.to_string, Digest.path_component.
  rewrite string_bytes_app, as_from_bytes, string_bytes_string, Hw by (done || by apply write_hex_bytes).
  done.
Qed.

(** * Page counts *)

Definition ceiling (a b : N) : N := (a + (b - 1)) / b.

Lemma page_count_ok length page_size n :
  page_count length page_size = Ok n -> 0 < page_size /\ n = ceiling length page_size.
Proof.
  unfold page_count. intros H. ok_step H. unfold checked_sub in Hx. case_match eqn:E; [|done].
  apply N.leb_le in E. simplify_eq. ok_step H. unfold checked_add in H. case_match; [|done].
  simpl in H. simplify_eq. split; [lia | done].
Qed.

Lemma expected_table_ok length page_size n :
  expected_page_table_length length page_size = Ok n ->
  0 < page_size /\ n = 64 + 32 * ceiling length page_size.
Proof.
  unfold expected_page_table_length. intros H. ok_step H. apply page_count_ok in Hx as [? ->].
  ok_step H. unfold checked_mul in H. case_match; [|done]. simpl in H. unfold checked_add in H.
  case_match; [|done]. simplify_eq. split; [done | lia].
Qed.

(** Page [i] exists exactly when it begins inside the object. *)
Lemma ceiling_spec length page_size i :
  0 < page_size -> i < ceiling length page_size <-> i * page_size < length.
Proof.
  intros Hp. unfold ceiling. pose proof (N.div_mod (length + (page_size - 1)) page_size ltac:(lia)) as Hd.
  pose proof (N.mod_lt (length + (page_size - 1)) page_size ltac:(lia)) as Hm.
  revert Hd Hm. generalize ((length + (page_size - 1)) / page_size) ((length + (page_size - 1)) mod page_size).
  intros q r Hd Hm. split; intros H.
  - assert (i + 1 <= q) as Hq by lia. pose proof (N.mul_le_mono_r (i + 1) q page_size Hq). lia.
  - destruct (N.lt_ge_cases i q) as [|Hq]; [done|]. pose proof (N.mul_le_mono_r q i page_size Hq). lia.
Qed.

(** * Binary search *)

(** In a strictly ascending list, the search ends at the last key not above the
    one it looks for, or at the first key. *)
Definition below (keys : list N) (key base : N) : Prop :=
  exists k, keys !! N.to_nat base = Some k /\ (k <= key \/ base = 0).

Lemma StronglySorted_lookup keys i j (a b : N) :
  StronglySorted N.lt keys -> (i < j)%nat -> keys !! i = Some a -> keys !! j = Some b -> a < b.
Proof.
  intros Hs Hij Ha Hb. rewrite <- (take_drop_middle keys i a Ha) in Hs.
  apply StronglySorted_app_1_r in Hs. apply StronglySorted_inv in Hs as [_ Hs].
  rewrite Forall_lookup in Hs. apply (Hs (j - S i)%nat). rewrite lookup_drop. by replace (S i + (j - S i))%nat with j by lia.
Qed.

Lemma search_loop_spec fuel keys key base size :
  StronglySorted N.lt keys -> below keys key base -> 0 < size -> base + size <= lenN keys ->
  (forall i k, keys !! i = Some k -> base + size <= N.of_nat i -> key < k) ->
  (N.to_nat size <= S fuel)%nat ->
  post (search_loop fuel keys key base size)
    (fun b => below keys key b /\ forall i k, keys !! i = Some k -> b + 1 <= N.of_nat i -> key < k)
    (fun _ => False).
Proof.
  intros Hs. revert base size. induction fuel as [|fuel IH]; intros base size Hb Hpos Hlen Hup Hfuel; simpl.
  - destruct (N.leb_spec size 1); [|lia]. split; [done|]. intros i k Hk Hi. apply (Hup i k Hk). lia.
  - destruct (N.leb_spec size 1) as [Hle|Hgt].
    { split; [done|]. intros i k Hk Hi. apply (Hup i k Hk). lia. }
    assert (0 < size / 2 /\ size / 2 < size) as [Hh1 Hh2].
    { split; [apply N.div_str_pos; lia | apply N.div_lt; lia]. }
    unfold lenN in *. destruct (lookup_lt_is_Some_2 keys (N.to_nat (base + size / 2))) as [k Hk]; [lia|].
    rewrite Hk. cbn [expect mbind result_bind]. destruct (N.ltb_spec key k) as [Hlt|Hge]; apply IH; try lia.
    + done.
    + intros i k' Hk' Hi. destruct (decide (i = N.to_nat (base + size / 2))) as [->|Hne]; [congruence|].
      destruct (decide (base + size <= N.of_nat i)); [by eapply Hup|].
      apply N.lt_le_trans with k; [done|]. apply N.lt_le_incl.
      apply (StronglySorted_lookup keys (N.to_nat (base + size / 2)) i); [done | | done..].
      pose proof (N.Div0.mul_div_le size 2). lia.
    + exists k. split; [done | by left].
    + intros i k' Hk' Hi. apply (Hup i k' Hk'). lia.
Qed.

Lemma binary_search_spec keys key :
  StronglySorted N.lt keys ->
  post (binary_search keys key)
    (fun o => match o with
              | Some i => keys !! N.to_nat i = Some key
              | None => key ∉ keys
              end) (fun _ => False).
Proof.
  intros Hs. unfold binary_search. destruct (N.eqb_spec (lenN keys) 0) as [H0|H0].
  { destruct keys; [apply not_elem_of_nil | done]. }
  destruct keys as [|k0 keys'] eqn:Hkeys; [done|]. rewrite <- Hkeys in *.
  apply post_bind. eapply post_strengthen.
  { apply (search_loop_spec _ keys key 0 (lenN keys)); [done | | lia | lia | | unfold lenN; lia].
    - exists k0. rewrite Hkeys. split; [done | by right].
    - intros i k Hk Hi. apply lookup_lt_Some in Hk. unfold lenN in Hi. lia. }
  intros b [(k & Hk & Hle) Hup]. rewrite Hk. cbn [expect mbind result_bind].
  destruct (N.eqb_spec k key) as [->|Hne]; [done|]. intros (i & Hi)%list_elem_of_lookup.
  destruct (decide (b + 1 <= N.of_nat i)) as [Hgt|Hgt]; [specialize (Hup i key Hi Hgt); lia|].
  destruct (decide (i = N.to_nat b)) as [->|Hib]; [congruence|].
  assert (key < k) by (apply (StronglySorted_lookup keys i (N.to_nat b)); [done | lia | done..]). lia.
Qed.
