(* ===== verification/FormatSchema.v ===== *)
(** What a parsed manifest satisfies: sizes within the limits, page geometry,
    unique names, and tensors that tile every object exactly. *)
From stdpp Require Import prelude gmap strings sorting pretty.
From S2P Require Import Prelude Format FormatJsonFacts FormatManifest FormatDigest.
#[local] Open Scope N_scope.

(** * Stepping through a parser *)

Section steps.
Context {A B : Type}.
Implicit Types (f : A -> result FormatError.t B) (Q : B -> Prop).
Abbreviation parses m Q := (post m Q (fun _ => True)).

Lemma post_skip m f Q : safe m -> (forall a, parses (f a) Q) -> parses (m ≫= f) Q.
Proof. destruct m; intros Hm Hf; [apply Hf | done | by destruct Hm]. Qed.

Lemma post_require ok path problem (f : unit -> result FormatError.t B) Q :
  (ok = true -> parses (f tt) Q) -> parses (require ok path problem ≫= f) Q.
Proof. destruct ok; simpl; auto. Qed.

Lemma post_option o e f Q : (forall a, o = Some a -> parses (f a) Q) -> parses (ok_or o e ≫= f) Q.
Proof. destruct o; simpl; auto. Qed.

Lemma post_positive v path (f : N -> result FormatError.t B) Q :
  (forall n, 0 < n -> parses (f n) Q) -> parses (positive_integer v path ≫= f) Q.
Proof.
  intros H. unfold positive_integer. destruct v; simpl; try done.
  destruct (N.eqb_spec value 0); simpl; [done|]. apply H. lia.
Qed.

Lemma post_digest v path (f : N -> result FormatError.t B) Q :
  (forall d, d < digest_max -> parses (f d) Q) -> parses (parse_digest v path ≫= f) Q.
Proof.
  intros H. unfold parse_digest. destruct v; simpl; try done.
  destruct (Digest.from_str value) as [d|e|] eqn:E; simpl; [|done|].
  - apply H. by eapply to_from_string.
  - exfalso. revert E. unfold Digest.from_str. destruct (strip_prefix _ _); simpl; [|done].
    destruct (negb _); simpl; [done|]. assert (forall l, Digest.pairs l <> Panic) as Hp.
    { fix IH 1. intros [|h [|c t]]; simpl; try done.
      destruct (lowercase_hex_value h), (lowercase_hex_value c); simpl; try done.
      specialize (IH t). by destruct (Digest.pairs t). }
    specialize (Hp l). by destruct (Digest.pairs l).
Qed.
End steps.

Lemma safe_required o key path : safe (required o key path).
Proof. apply safe_ok_or. Qed.
Lemma safe_require ok path problem : safe (require ok path problem).
Proof. by destruct ok. Qed.
Lemma safe_exact_keys o keys path : safe (exact_keys o keys path).
Proof. unfold exact_keys. safe_tac; apply safe_require. Qed.
Lemma safe_expect_object v path : safe (expect_object v path).
Proof. by destruct v. Qed.
Lemma safe_expect_array v path : safe (expect_array v path).
Proof. by destruct v. Qed.
Lemma safe_expect_string v path : safe (expect_string v path).
Proof. by destruct v. Qed.
Lemma safe_expect_integer v path : safe (expect_integer v path).
Proof. by destruct v. Qed.
#[export] Hint Resolve safe_required safe_require safe_exact_keys safe_expect_object safe_expect_array
  safe_expect_string safe_expect_integer : safe.
Lemma safe_validate_role v path : safe (validate_role v path).
Proof. unfold validate_role. safe_tac. Qed.
Lemma safe_validate_identifier v path : safe (validate_identifier v path).
Proof. unfold validate_identifier. safe_tac. Qed.
Lemma safe_parse_dtype v path : safe (parse_dtype v path).
Proof. unfold parse_dtype. apply safe_bind; [auto with safe|]. intros s. by repeat case_match. Qed.
#[export] Hint Resolve safe_validate_role safe_validate_identifier safe_parse_dtype : safe.

Lemma safe_page_count length page_size : safe (page_count length page_size).
Proof. unfold page_count. safe_tac. Qed.
#[export] Hint Resolve safe_page_count : safe.
Lemma safe_expected_length length page_size : safe (expected_page_table_length length page_size).
Proof. unfold expected_page_table_length. safe_tac. Qed.

(** Skip the steps that only take the document apart. *)
Ltac skip_step :=
  lazymatch goal with
  | |- post (required _ _ _ ≫= _) _ _ => idtac
  | |- post (exact_keys _ _ _ ≫= _) _ _ => idtac
  | |- post (expect_object _ _ ≫= _) _ _ => idtac
  | |- post (expect_array _ _ ≫= _) _ _ => idtac
  | |- post (expect_string _ _ ≫= _) _ _ => idtac
  | |- post (expect_integer _ _ ≫= _) _ _ => idtac
  | |- post (validate_role _ _ ≫= _) _ _ => idtac
  | |- post (validate_identifier _ _ ≫= _) _ _ => idtac
  | |- post (parse_dtype _ _ ≫= _) _ _ => idtac
  end;
  apply post_skip; [by auto with safe | intros ?].
Ltac skip := repeat skip_step.

(** * Objects *)

Lemma power_of_two n : is_power_of_two n = true -> exists k, n = 2 ^ k.
Proof.
  intros [Hn%negb_true_iff%N.eqb_neq Hl%N.eqb_eq]%andb_true_iff. exists (N.log2 n).
  destruct (N.log2_spec n) as [Hlo Hhi]; [lia|].
  destruct (decide (n = 2 ^ N.log2 n)) as [|Hne]; [done|]. exfalso.
  assert (N.log2 (n - 1) = N.log2 n) as Hlog.
  { apply N.log2_unique; [apply N.le_0_l|]. split; lia. }
  assert (N.testbit (N.land n (n - 1)) (N.log2 n) = true) as Hbit; [|by rewrite Hl, N.bits_0 in Hbit].
  rewrite N.land_spec, N.bit_log2 by done. rewrite <- Hlog, N.bit_log2; [done|].
  pose proof (N.pow_nonzero 2 (N.log2 n)). lia.
Qed.

Record object_ok (limits : Limits.t) (r : ObjectRecord.t) : Prop := {
  ob_digest : ObjectRecord.digest r < digest_max;
  ob_table : ObjectRecord.page_table r < digest_max;
  ob_length : 0 < ObjectRecord.length r <= Limits.object_bytes limits;
  ob_page_size : MIN_PAGE_SIZE <= ObjectRecord.page_size r <= MAX_PAGE_SIZE;
  ob_power : exists k, ObjectRecord.page_size r = 2 ^ k;
  ob_table_length : ObjectRecord.page_table_length r
    = 64 + 32 * ceiling (ObjectRecord.length r) (ObjectRecord.page_size r);
  ob_table_limit : ObjectRecord.page_table_length r <= Limits.page_table_bytes limits
}.

Record objects_ok (limits : Limits.t) (l : list ObjectRecord.t) : Prop := {
  os_each : Forall (object_ok limits) l;
  os_sorted : StronglySorted N.lt (ObjectRecord.digest <$> l);
  os_tables : NoDup (ObjectRecord.page_table <$> l);
  os_bytes : sumN ObjectRecord.length l <= Limits.aggregate_object_bytes limits;
  os_table_bytes : sumN ObjectRecord.page_table_length l <= Limits.aggregate_page_table_bytes limits
}.

Lemma StronglySorted_snoc (l : list N) x :
  StronglySorted N.lt l -> (forall m, last l = Some m -> m < x) -> StronglySorted N.lt (l ++ [x]).
Proof.
  intros Hs Hx. apply StronglySorted_app_2; [|done | by repeat constructor].
  intros a b Ha ->%list_elem_of_singleton. destruct (last l) as [m|] eqn:Hm.
  - specialize (Hx m eq_refl). apply last_Some in Hm as [l' ->].
    apply elem_of_app in Ha as [Ha| ->%list_elem_of_singleton]; [|done].
    assert (a < m); [|lia]. by eapply (StronglySorted_app_1_elem_of _ l' [m]); [..|left].
  - apply last_None in Hm as ->. by apply elem_of_nil in Ha.
Qed.

Record object_scan (limits : Limits.t) (s : ObjectScan.t) : Prop := {
  sc_ok : objects_ok limits (ObjectScan.records s);
  sc_index : ObjectScan.index s = lenN (ObjectScan.records s);
  sc_tables : ObjectScan.page_tables s
    = list_to_set (ObjectRecord.page_table <$> ObjectScan.records s);
  sc_bytes : ObjectScan.aggregate_object_bytes s = sumN ObjectRecord.length (ObjectScan.records s);
  sc_table_bytes : ObjectScan.aggregate_page_table_bytes s
    = sumN ObjectRecord.page_table_length (ObjectScan.records s)
}.

Lemma scan_push limits s r total tables :
  object_scan limits s -> object_ok limits r ->
  (forall p, last (ObjectScan.records s) = Some p -> ObjectRecord.digest p < ObjectRecord.digest r) ->
  ObjectRecord.page_table r ∉ ObjectScan.page_tables s ->
  total = ObjectScan.aggregate_object_bytes s + ObjectRecord.length r ->
  total <= Limits.aggregate_object_bytes limits ->
  tables = ObjectScan.aggregate_page_table_bytes s + ObjectRecord.page_table_length r ->
  tables <= Limits.aggregate_page_table_bytes limits ->
  object_scan limits (ObjectScan.mk (ObjectScan.index s + 1) (ObjectScan.records s ++ [r])
    ({[ObjectRecord.page_table r]} ∪ ObjectScan.page_tables s) total tables).
Proof.
  intros [[H1 H2 H3 H4 H5] Hi Ht Hb Htb] Hr Hlast Hnew -> Htot -> Htab. rewrite Ht in Hnew.
  rewrite elem_of_list_to_set in Hnew.
  split; simpl; rewrite ?sumN_app; simpl; try (by rewrite ?Hb, ?Htb; lia).
  - split; rewrite ?sumN_app; simpl; rewrite ?fmap_app; [| | | lia..].
    + apply Forall_app. split; [done|]. by apply Forall_singleton.
    + apply StronglySorted_snoc; [done|]. intros m. rewrite fmap_last. intros (p & Hp & ->)%fmap_Some.
      by apply Hlast.
    + by apply NoDup_snoc.
  - unfold lenN in *. rewrite length_app. simpl. lia.
  - rewrite Ht, fmap_app, list_to_set_app_L. simpl. set_solver.
Qed.

Lemma parse_object_spec limits s v :
  object_scan limits s ->
  post (parse_object limits s v)
    (fun s' => object_scan limits s' /\ ObjectScan.index s' = ObjectScan.index s + 1) (fun _ => True).
Proof.
  intros Hs. unfold parse_object. skip. apply post_digest. intros digest Hdigest.
  apply post_require. intros Hlast. skip. apply post_positive. intros length Hlength.
  apply post_require. intros Hlimit%N.leb_le. apply post_option. intros total Htotal.
  apply post_require. intros Htotal'%N.leb_le. skip. apply post_positive. intros page_size Hsize.
  apply post_require. intros Hu32. apply post_require.
  intros [[Hmin%N.leb_le Hmax%N.leb_le]%andb_true_iff Hpow%power_of_two]%andb_true_iff.
  skip. apply post_digest. intros table Htable. apply post_require. intros Hnew%bool_decide_eq_true.
  skip. apply post_positive. intros table_length Htl.
  destruct (expected_page_table_length length page_size) as [expected|e|] eqn:Hexp; [|done|].
  2: { by destruct (safe_expected_length length page_size). }
  cbn [mbind result_bind]. apply expected_table_ok in Hexp as [_ Hexp].
  apply post_require. intros Heq%N.eqb_eq. apply post_require. intros Htlimit%N.leb_le.
  apply post_option. intros tables Htables. apply post_require. intros Htables'%N.leb_le.
  apply checked_add_Some in Htotal as [-> _], Htables as [-> _]. subst.
  split; [|done]. apply (scan_push limits s); simpl; try done.
  intros p Hp. rewrite Hp in Hlast. by apply negb_true_iff, N.leb_gt in Hlast.
Qed.

Lemma parse_objects_spec v limits :
  post (parse_objects v limits)
    (fun l => objects_ok limits l /\ lenN l <= Limits.objects limits) (fun _ => True).
Proof.
  unfold parse_objects. skip. rename a into values. apply post_bind, post_guard; [done|]. intros Hn%N.ltb_ge.
  apply post_bind. eapply post_strengthen.
  { apply (post_try_fold _ _ (fun dn s => object_scan limits s /\ ObjectScan.index s = lenN dn)).
    - split; [|done]. repeat split; simpl; try constructor; lia.
    - intros dn x rest s _ [Hs Hlen]. eapply post_strengthen; [by apply parse_object_spec|].
      intros s' [? ->]. split; [done|]. unfold lenN in *. rewrite length_app. simpl. lia. }
  intros s [[H Hi _ _ _] Hlen]. split; [done | lia].
Qed.

(** * Tensors *)

Definition prodN (l : list N) : N := foldr N.mul 1 l.

Lemma prodN_snoc l x : prodN (l ++ [x]) = prodN l * x.
Proof. unfold prodN. induction l as [|y l IH]; simpl; [lia|]. rewrite IH. lia. Qed.

(** The byte range of a tensor in its object. *)
Definition span (t : TensorRecord.t) : N * N :=
  (TensorRecord.offset t, TensorRecord.offset t + TensorRecord.length t).
Definition covers (b : N) (r : N * N) : Prop := r.1 <= b < r.2.
#[export] Instance covers_dec b r : Decision (covers b r).
Proof. unfold covers. apply _. Defined.

Record tensor_ok (objects : list ObjectRecord.t) (t : TensorRecord.t) : Prop := {
  te_object : exists o, o ∈ objects /\ ObjectRecord.digest o = TensorRecord.object t
    /\ TensorRecord.offset t + TensorRecord.length t <= ObjectRecord.length o;
  te_length : 0 < TensorRecord.length t;
  te_aligned : TensorRecord.offset t mod DType.byte_width (TensorRecord.dtype t) = 0;
  te_shape : TensorRecord.length t
    = prodN (TensorRecord.shape t) * DType.byte_width (TensorRecord.dtype t);
  te_dims : Forall (fun d => 0 < d <= MAX_TENSOR_DIMENSION) (TensorRecord.shape t);
  te_rank : 1 <= lenN (TensorRecord.shape t) <= 8
}.

Record tensors_ok (objects : list ObjectRecord.t) (l : list TensorRecord.t) : Prop := {
  ts_each : Forall (tensor_ok objects) l;
  ts_ids : forall i t, l !! i = Some t -> TensorRecord.id t = N.of_nat i;
  ts_roles : NoDup (TensorRecord.role <$> l)
}.

(** ** One tensor *)

Lemma parse_dimensions_spec path values :
  post (try_fold (parse_dimension path) (0, [], 1) values)
    (fun '(_, shape, elements) => elements = prodN shape /\ lenN shape = lenN values
       /\ Forall (fun d => 0 < d <= MAX_TENSOR_DIMENSION) shape) (fun _ => True).
Proof.
  apply (post_try_fold _ _ (fun dn '(_, shape, elements) => elements = prodN shape
    /\ lenN shape = lenN dn /\ Forall (fun d => 0 < d <= MAX_TENSOR_DIMENSION) shape)); [done|].
  intros dn x rest [[i shape] elements] _ (-> & Hlen & Hdims). unfold parse_dimension.
  apply post_positive. intros d Hd. apply post_require. intros Hmax%N.leb_le. apply post_option.
  intros e [-> _]%checked_mul_Some. apply post_require. intros _. simpl.
  rewrite prodN_snoc. split; [done|]. unfold lenN in *. rewrite !length_app. simpl. split; [lia|].
  apply Forall_app. split; [done|]. by apply Forall_singleton.
Qed.

(** What the scan keeps about the ranges it has seen. *)
Definition spans (d : Digest) (l : list TensorRecord.t) : list (N * N) :=
  span <$> filter (fun t => TensorRecord.object t = d) l.

Record tensor_scan (objects : list ObjectRecord.t) (s : TensorScan.t) : Prop := {
  tc_ok : tensors_ok objects (TensorScan.tensors s);
  tc_index : TensorScan.index s = lenN (TensorScan.tensors s);
  tc_roles : TensorScan.roles s = list_to_set (TensorRecord.role <$> TensorScan.tensors s);
  tc_ranges : forall d, default [] (TensorScan.ranges s !! d) = spans d (TensorScan.tensors s)
}.

Lemma tensor_push objects s t :
  tensor_scan objects s -> tensor_ok objects t -> TensorRecord.id t = TensorScan.index s ->
  TensorRecord.role t ∉ TensorScan.roles s ->
  tensor_scan objects (TensorScan.mk (TensorScan.index s + 1)
    (<[TensorRecord.object t := default [] (TensorScan.ranges s !! TensorRecord.object t) ++ [span t]]>
       (TensorScan.ranges s))
    ({[TensorRecord.role t]} ∪ TensorScan.roles s) (TensorScan.tensors s ++ [t])).
Proof.
  intros [[H1 H2 H3] Hi Hr Hg] Ht Hid Hrole. rewrite Hr, elem_of_list_to_set in Hrole.
  split; simpl.
  - split.
    + apply Forall_app. split; [done|]. by apply Forall_singleton.
    + intros i u Hu. destruct (decide (i < length (TensorScan.tensors s))%nat) as [Hlt|Hge].
      * rewrite lookup_app_l in Hu by done. by apply H2.
      * rewrite lookup_app_r in Hu by lia. apply list_lookup_singleton_Some in Hu as [Hz <-].
        rewrite Hid, Hi. unfold lenN. lia.
    + rewrite fmap_app. by apply NoDup_snoc.
  - unfold lenN in *. rewrite length_app. simpl. lia.
  - rewrite Hr, fmap_app, list_to_set_app_L. simpl. set_solver.
  - intros d. unfold spans. rewrite filter_app, fmap_app, filter_cons, filter_nil.
    destruct (decide (TensorRecord.object t = d)) as [->|Hne].
    + rewrite lookup_insert_eq. cbn [default from_option id]. by rewrite Hg.
    + rewrite lookup_insert_ne by done. rewrite Hg. by rewrite app_nil_r.
Qed.

Section object_lengths.
Context (objects : list ObjectRecord.t).
Let lengths : gmap N N :=
  list_to_map ((fun r => (ObjectRecord.digest r, ObjectRecord.length r)) <$> objects).

Lemma lengths_lookup d n :
  lengths !! d = Some n ->
  exists o, o ∈ objects /\ ObjectRecord.digest o = d /\ ObjectRecord.length o = n.
Proof.
  unfold lengths. intros H%elem_of_list_to_map_2. apply list_elem_of_fmap in H as (o & [= -> ->] & Ho). by exists o.
Qed.

Lemma parse_tensor_spec s v :
  tensor_scan objects s ->
  post (parse_tensor lengths s v)
    (fun s' => tensor_scan objects s' /\ TensorScan.index s' = TensorScan.index s + 1) (fun _ => True).
Proof.
  intros Hs. unfold parse_tensor. skip. rename a2 into id. apply post_require. intros Hid%N.eqb_eq.
  skip. rename a3 into dtype. apply post_positive. intros length Hlength. skip.
  apply post_digest. intros d _. apply post_option. intros object_length (o & Ho & Hd & Hol)%lengths_lookup.
  skip. rename a6 into offset. apply post_require. intros Halign%N.eqb_eq. skip. rename a7 into role.
  apply post_require. intros Hrole%bool_decide_eq_true. skip.
  apply post_require. intros [Hr1%N.leb_le Hr2%N.leb_le]%andb_true_iff.
  apply post_bind. eapply post_strengthen; [apply parse_dimensions_spec|].
  intros [[i shape] elements] (-> & Hlen & Hdims). apply post_option. intros expected [-> _]%checked_mul_Some.
  apply post_require. intros Heq%N.eqb_eq. apply post_option. intros end_ [-> _]%checked_add_Some.
  apply post_require. intros Hend%N.leb_le. split; [|done].
  apply (tensor_push objects s (TensorRecord.mk dtype id length d offset role shape)); [done | | done | done].
  split; simpl; try done; [|lia]. exists o. split; [done|]. split; [done|]. lia.
Qed.
End object_lengths.

(** * Coverage *)

(** Ranges that follow one another from [c] to [e]. *)
Fixpoint chain (c : N) (l : list (N * N)) (e : N) : Prop :=
  match l with
  | [] => c = e
  | (o, e') :: l => o = c /\ chain e' l e
  end.

Lemma cover_chain d l c e : try_fold (cover_range d) c l = Ok e -> chain c l e.
Proof.
  revert c. induction l as [|[o e'] l IH]; intros c H; simpl in *; [by injection H|].
  ok_step H. ok_step Hx. apply N.ltb_ge in Hx0. ok_step Hx. apply N.ltb_ge in Hx1. injection Hx as <-.
  split; [lia | by apply IH].
Qed.

Lemma chain_le l c e : Forall (fun r => r.1 < r.2) l -> chain c l e -> c <= e.
Proof.
  revert c. induction l as [|[o e'] l IH]; intros c Hl H; simpl in *; [lia|].
  apply Forall_cons in Hl as [Hr Hl]. destruct H as [-> H]. apply IH in H; [|done]. simpl in Hr. lia.
Qed.

(** Every point of a chain of nonempty ranges is in exactly one of them. *)
Lemma chain_exact l c e b :
  Forall (fun r => r.1 < r.2) l -> chain c l e ->
  length (filter (covers b) l) = if decide (c <= b < e) then 1%nat else 0%nat.
Proof.
  revert c. induction l as [|[o e'] l IH]; intros c Hl H; simpl in *.
  - subst. case_decide; [lia | done].
  - apply Forall_cons in Hl as [Hr Hl]. destruct H as [-> H]. simpl in Hr.
    pose proof (chain_le _ _ _ Hl H). rewrite filter_cons. specialize (IH e' Hl H). unfold covers at 1. simpl.
    repeat case_decide; simpl; rewrite ?IH; lia.
Qed.

(** The tensors tile the object: each of its bytes is in exactly one of them. *)
Definition tiles (tensors : list TensorRecord.t) (o : ObjectRecord.t) : Prop :=
  forall b, b < ObjectRecord.length o ->
    length (filter (fun t => TensorRecord.object t = ObjectRecord.digest o /\ covers b (span t)) tensors) = 1%nat.

Lemma filter_spans d b l :
  length (filter (fun t => TensorRecord.object t = d /\ covers b (span t)) l)
  = length (filter (covers b) (spans d l)).
Proof.
  unfold spans. induction l as [|t l IH]; [done|]. rewrite !filter_cons.
  destruct (decide (TensorRecord.object t = d)) as [Hd|Hd];
    [|rewrite decide_False by naive_solver; done].
  rewrite fmap_cons, filter_cons.
  destruct (decide (covers b (span t))) as [Hc|Hc];
    [rewrite decide_True by done | rewrite decide_False by naive_solver]; simpl; by rewrite ?IH.
Qed.

Lemma coverage_tiles objects tensors ranges :
  Forall (tensor_ok objects) tensors -> (forall d, default [] (ranges !! d) = spans d tensors) ->
  post (validate_tensor_coverage objects ranges) (fun _ => Forall (tiles tensors) objects) (fun _ => True).
Proof.
  intros Ht Hr. unfold validate_tensor_coverage.
  apply (post_try_fold _ _ (fun dn _ => Forall (tiles tensors) dn)); [done|].
  intros dn o rest _ _ Hdn. rewrite Hr.
  destruct (try_fold _ _ _) as [cursor| |] eqn:E; [|done|].
  2: { exfalso. revert E. apply safe_try_fold. intros c [? ?]. unfold cover_range. safe_tac. }
  cbn [mbind result_bind]. apply post_guard; [done|]. intros Hc%negb_false_iff%N.eqb_eq.
  apply Forall_app. split; [done|]. apply Forall_singleton. intros b Hb. rewrite filter_spans.
  apply cover_chain in E. rewrite <- (sort_by_key_perm (sort_key (K:=N * N)) (spans _ _)).
  rewrite (chain_exact _ 0 cursor); [rewrite decide_True; lia | | done].
  apply Forall_forall. intros r. rewrite elem_of_sort_by_key. unfold spans. intros (t & -> & Hin)%list_elem_of_fmap.
  apply list_elem_of_filter in Hin as [_ Hin]. rewrite Forall_forall in Ht. specialize (Ht t Hin).
  pose proof (te_length _ _ Ht). simpl. lia.
Qed.

Lemma parse_tensors_spec v objects limits :
  post (parse_tensors v objects limits)
    (fun l => tensors_ok objects l /\ Forall (tiles l) objects /\ lenN l <= Limits.tensors limits)
    (fun _ => True).
Proof.
  unfold parse_tensors. skip. rename a into values. apply post_bind, post_guard; [done|]. intros Hn%N.ltb_ge.
  apply post_bind. eapply post_strengthen.
  { apply (post_try_fold _ _ (fun dn s => tensor_scan objects s /\ TensorScan.index s = lenN dn)).
    - split; [|done]. repeat split; simpl; try constructor; try done.
    - intros dn x rest s _ [Hs Hlen]. eapply post_strengthen; [by apply parse_tensor_spec|].
      intros s' [? ->]. split; [done|]. unfold lenN in *. rewrite length_app. simpl. lia. }
  intros s [[H Hi _ Hr] Hlen]. apply post_bind.
  eapply post_strengthen; [apply coverage_tiles; [apply H | done]|].
  intros [] Htiles. split; [done|]. split; [done | lia].
Qed.

(** * The whole manifest *)

Record model_ok (m : TinyModel.t) : Prop := {
  mo_positive : Forall (fun n => 0 < n)
    [TinyModel.context_length m; TinyModel.expert_hidden_size m; TinyModel.hidden_size m;
     TinyModel.num_experts m; TinyModel.num_heads m; TinyModel.num_layers m; TinyModel.top_k m;
     TinyModel.vocab_size m];
  mo_top_k : TinyModel.top_k m <= TinyModel.num_experts m;
  mo_heads : TinyModel.hidden_size m mod TinyModel.num_heads m = 0
}.

Record manifest_ok (limits : Limits.t) (m : Manifest.t) : Prop := {
  ma_adapter : Manifest.adapter m = Adapter.mk "runnel.tiny-causal-moe" 1
    \/ Manifest.adapter m = Adapter.mk "runnel.tiny-causal-moe" 2;
  ma_model : model_ok (Manifest.model m);
  ma_vocab : Tokenizer.vocab_size (Manifest.tokenizer m) = TinyModel.vocab_size (Manifest.model m);
  ma_objects : objects_ok limits (Manifest.objects m);
  ma_object_count : lenN (Manifest.objects m) <= Limits.objects limits;
  ma_tensors : tensors_ok (Manifest.objects m) (Manifest.tensors m);
  ma_tensor_count : lenN (Manifest.tensors m) <= Limits.tensors limits;
  ma_tiles : Forall (tiles (Manifest.tensors m)) (Manifest.objects m)
}.

Lemma parse_adapter_spec v :
  post (parse_adapter v)
    (fun a => a = Adapter.mk "runnel.tiny-causal-moe" 1 \/ a = Adapter.mk "runnel.tiny-causal-moe" 2)
    (fun _ => True).
Proof.
  unfold parse_adapter. skip. apply post_require. intros ->%bool_decide_eq_true. skip.
  apply post_positive. intros n _. apply post_require.
  intros [->%N.eqb_eq| ->%N.eqb_eq]%orb_true_iff; simpl; auto.
Qed.

Lemma parse_tokenizer_safe v : safe (parse_tokenizer v).
Proof.
  assert (forall v path, safe (positive_integer v path)) as Hp by (intros; unfold positive_integer; safe_tac).
  unfold parse_tokenizer. safe_tac; auto.
Qed.

Lemma post_dimension {B} o key (f : N -> result FormatError.t B) Q :
  (forall n, 0 < n -> post (f n) Q (fun _ => True)) -> post (dimension o key ≫= f) Q (fun _ => True).
Proof.
  intros H. unfold dimension. destruct (required o key "$.model") as [v| |] eqn:E; [|done|].
  - by apply post_positive.
  - by destruct (safe_required o key "$.model").
Qed.

Lemma parse_model_spec v : post (parse_model v) model_ok (fun _ => True).
Proof.
  unfold parse_model. skip. do 8 (apply post_dimension; intros ? ?).
  apply post_require. intros ?%N.leb_le. apply post_require. intros ?%N.eqb_eq.
  by split; [repeat constructor| |].
Qed.

Lemma validate_schema_spec document limits :
  post (validate_schema document limits) (manifest_ok limits) (fun _ => True).
Proof.
  unfold validate_schema. skip.
  apply post_skip; [unfold expect_literal_string; safe_tac | intros ?]. skip.
  apply post_skip; [unfold expect_literal_integer; safe_tac | intros ?]. skip.
  apply post_bind. eapply post_strengthen; [apply parse_adapter_spec|]. intros adapter Hadapter. skip.
  apply post_bind. eapply post_strengthen; [apply parse_model_spec|]. intros model Hmodel. skip.
  apply post_skip; [apply parse_tokenizer_safe|]. intros tokenizer.
  apply post_require. intros Hvocab%N.eqb_eq. skip.
  apply post_bind. eapply post_strengthen; [apply parse_objects_spec|]. intros objects [Hobjects Hn]. skip.
  apply post_bind. eapply post_strengthen; [apply parse_tensors_spec|]. intros tensors (Htensors & Htiles & Hm).
  by split.
Qed.

(** [Limits::validate] passes limits within the format's ceilings, unchanged. *)
Record limits_ok (l : Limits.t) : Prop := {
  li_manifest : Limits.manifest_bytes l <= FORMAT_MANIFEST_BYTES;
  li_objects : Limits.objects l <= FORMAT_OBJECTS;
  li_tensors : Limits.tensors l <= FORMAT_TENSORS;
  li_object : Limits.object_bytes l <= FORMAT_OBJECT_BYTES;
  li_aggregate : Limits.aggregate_object_bytes l <= FORMAT_AGGREGATE_OBJECT_BYTES;
  li_table : Limits.page_table_bytes l <= FORMAT_PAGE_TABLE_BYTES;
  li_tables : Limits.aggregate_page_table_bytes l <= FORMAT_AGGREGATE_PAGE_TABLE_BYTES
}.

Lemma limits_validate_spec l :
  post (Limits.validate l) (fun l' => l' = l /\ limits_ok l) (fun _ => ~ limits_ok l).
Proof.
  unfold Limits.validate, check_limit.
  do 7 (apply post_bind, post_guard; [intros ?%N.ltb_lt [] ; lia | intros ?%N.ltb_ge]).
  by split; [|split].
Qed.

Section manifest.
Context (sha256 : list N -> Digest) (from_slice : list N -> Token * option SyntaxError).

(** What [parse_with_limits] promises about the bytes it accepted. *)
Record parsed_manifest (bytes : list N) (limits : Limits.t) (m : Manifest.t) : Prop := {
  pm_limits : limits_ok limits;
  pm_size : lenN bytes <= Limits.manifest_bytes limits;
  pm_document : exists document, json_ok 1 document = true /\ canonical_bytes document = bytes;
  pm_ok : manifest_ok limits m;
  pm_id : Manifest.artifact_id m = sha256 bytes;
  pm_bytes : Manifest.canonical_bytes m = bytes
}.

Lemma parse_with_limits_spec bytes limits :
  post (parse_with_limits sha256 from_slice bytes limits) (parsed_manifest bytes limits) (fun _ => True).
Proof.
  unfold parse_with_limits. apply post_bind.
  eapply post_mono; [apply limits_validate_spec | intros ? [-> Hlimits] | done].
  apply post_bind, post_guard; [done|]. intros Hsize%N.ltb_ge.
  apply post_bind. eapply post_strengthen; [apply parse_sound|]. intros document Hdoc.
  apply post_bind. eapply post_strengthen; [apply validate_schema_spec|]. intros m [].
  apply post_bind, post_guard; [done|]. intros Hcanonical%bool_decide_eq_false%dec_stable.
  split; simpl; try done. by exists document.
Qed.

Lemma parse_with_expected_id_spec bytes limits expected :
  post (parse_with_expected_id sha256 from_slice bytes limits expected)
    (fun m => parsed_manifest bytes limits m /\ sha256 bytes = expected) (fun _ => True).
Proof.
  unfold parse_with_expected_id. apply post_bind. eapply post_strengthen; [apply parse_with_limits_spec|].
  intros m Hm. apply post_bind, post_guard; [done|]. intros Hid%negb_false_iff%N.eqb_eq.
  split; [done|]. by rewrite <- (pm_id _ _ _ Hm).
Qed.
End manifest.
