(* ===== verification/FormatExact.v ===== *)
(** A manifest and its text.  [manifest_document] is the document of a manifest; the
    parser accepts exactly the canonical texts of the documents of well-formed
    manifests and returns the manifest. *)
From stdpp Require Import prelude gmap strings sorting pretty.
From S2P Require Import Prelude Format FormatJsonFacts FormatManifest FormatDigest FormatSchema.
#[local] Open Scope N_scope.

Definition digest_json (d : Digest) : JsonValue := String_ (Digest.to_string d).
Definition object_document (r : ObjectRecord.t) : JsonValue :=
  Object [("digest", digest_json (ObjectRecord.digest r)); ("length", Integer (ObjectRecord.length r));
          ("page_size", Integer (ObjectRecord.page_size r));
          ("page_table", digest_json (ObjectRecord.page_table r));
          ("page_table_length", Integer (ObjectRecord.page_table_length r))].
Definition tensor_document (t : TensorRecord.t) : JsonValue :=
  Object [("dtype", String_ (DType.as_str (TensorRecord.dtype t))); ("id", Integer (TensorRecord.id t));
          ("length", Integer (TensorRecord.length t)); ("object", digest_json (TensorRecord.object t));
          ("offset", Integer (TensorRecord.offset t)); ("role", String_ (TensorRecord.role t));
          ("shape", Array (Integer <$> TensorRecord.shape t))].
Definition model_document (m : TinyModel.t) : JsonValue :=
  Object [("context_length", Integer (TinyModel.context_length m));
          ("expert_hidden_size", Integer (TinyModel.expert_hidden_size m));
          ("hidden_size", Integer (TinyModel.hidden_size m)); ("num_experts", Integer (TinyModel.num_experts m));
          ("num_heads", Integer (TinyModel.num_heads m)); ("num_layers", Integer (TinyModel.num_layers m));
          ("top_k", Integer (TinyModel.top_k m)); ("vocab_size", Integer (TinyModel.vocab_size m))].
Definition manifest_document (m : Manifest.t) : JsonValue :=
  let adapter := Manifest.adapter m in
  let tokenizer := Manifest.tokenizer m in
  Object [("adapter", Object [("id", String_ (Adapter.id adapter)); ("version", Integer (Adapter.version adapter))]);
          ("format", String_ "rmoa");
          ("model", model_document (Manifest.model m));
          ("objects", Array (object_document <$> Manifest.objects m));
          ("tensors", Array (tensor_document <$> Manifest.tensors m));
          ("tokenizer", Object [("id", String_ (Tokenizer.id tokenizer)); ("version", Integer (Tokenizer.version tokenizer));
                                ("vocab_size", Integer (Tokenizer.vocab_size tokenizer))]);
          ("version", Integer 1)].

(** What the schema asks of the texts and numbers of a manifest, besides [manifest_ok]. *)
Record texts_ok (m : Manifest.t) : Prop := {
  tx_roles : Forall (fun t => forall path, validate_role (TensorRecord.role t) path = Ok tt) (Manifest.tensors m);
  tx_tokenizer : forall path, validate_identifier (Tokenizer.id (Manifest.tokenizer m)) path = Ok tt;
  tx_version : 0 < Tokenizer.version (Manifest.tokenizer m) <= MAX_SAFE_INTEGER;
  tx_model : Forall (fun n => n <= MAX_SAFE_INTEGER)
    [TinyModel.context_length (Manifest.model m); TinyModel.expert_hidden_size (Manifest.model m);
     TinyModel.hidden_size (Manifest.model m); TinyModel.num_experts (Manifest.model m);
     TinyModel.num_heads (Manifest.model m); TinyModel.num_layers (Manifest.model m);
     TinyModel.top_k (Manifest.model m); TinyModel.vocab_size (Manifest.model m)]
}.

(** * Passing a step of a parser *)

Lemma pass {E A B} (m : result E A) a (f : A -> result E B) r : m = Ok a -> f a = r -> (m ≫= f) = r.
Proof. by intros -> <-. Qed.
Lemma require_true ok path problem : ok = true -> require ok path problem = Ok tt.
Proof. by intros ->. Qed.
Lemma guard_false {E} ok (e : E) : ok = false -> guard_err ok e = Ok tt.
Proof. by intros ->. Qed.
Lemma required_get o key path v : btree_get o key = Some v -> required o key path = Ok v.
Proof. unfold required. by intros ->. Qed.
Lemma ok_or_some {E A} (o : option A) (e : E) a : o = Some a -> ok_or o e = Ok a.
Proof. by intros ->. Qed.
Lemma checked_add_le max a b : a + b <= max -> checked_add max a b = Some (a + b).
Proof. intros H. unfold checked_add. by rewrite (proj2 (N.leb_le _ _) H). Qed.
Lemma checked_mul_le max a b : a * b <= max -> checked_mul max a b = Some (a * b).
Proof. intros H. unfold checked_mul. by rewrite (proj2 (N.leb_le _ _) H). Qed.
Lemma positive_pass n path : 0 < n -> positive_integer (Integer n) path = Ok n.
Proof. intros H. unfold positive_integer. simpl. destruct (N.eqb_spec n 0); [lia | done]. Qed.
Lemma digest_pass d path : d < digest_max -> parse_digest (digest_json d) path = Ok d.
Proof. intros H. unfold parse_digest, digest_json. cbn [expect_string mbind result_bind]. by rewrite from_to_string. Qed.
Lemma dtype_pass d path : parse_dtype (String_ (DType.as_str d)) path = Ok d.
Proof. by destruct d. Qed.

Lemma try_fold_unit {E A} (f : unit -> A -> result E unit) l :
  (forall x, x ∈ l -> f tt x = Ok tt) -> try_fold f tt l = Ok tt.
Proof.
  induction l as [|x l IH]; intros H; [done|]. cbn [try_fold]. rewrite (H x) by left.
  apply IH. intros y Hy. apply H. by right.
Qed.
Lemma exact_keys_pass o expected path : o.*1 = expected -> exact_keys o expected path = Ok tt.
Proof.
  intros <-. unfold exact_keys. apply (pass _ tt).
  - apply try_fold_unit. intros kv Hkv. apply require_true, bool_decide_eq_true.
    by apply list_elem_of_fmap_2.
  - apply try_fold_unit. intros k (kv & -> & Hkv)%list_elem_of_fmap. apply require_true, bool_decide_eq_true.
    unfold btree_get. destruct (find _ _) as [x|] eqn:Hf; [by eexists|].
    eapply find_none in Hf; [|by apply list_elem_of_In]. by apply bool_decide_eq_false in Hf.
Qed.

(** Take the steps that only take the document apart. *)
Ltac pass_step :=
  eapply pass;
  [first [ by apply exact_keys_pass | apply required_get; reflexivity | apply digest_pass; done
         | apply positive_pass; lia | apply dtype_pass | reflexivity ] |]; cbv beta.
Ltac passes := repeat pass_step.

(** * Objects *)

Lemma power_of_two_land k : is_power_of_two (2 ^ k) = true.
Proof.
  unfold is_power_of_two. pose proof (N.pow_nonzero 2 k ltac:(done)).
  rewrite (proj2 (N.eqb_neq (2 ^ k) 0)) by done. simpl. apply N.eqb_eq, N.bits_inj. intros i.
  rewrite N.land_spec, N.bits_0, N.pow2_bits_eqb.
  destruct (N.eqb_spec k i) as [<-|]; [|done]. simpl. rewrite N.sub_1_r, <- N.ones_equiv. apply N.ones_spec_high. lia.
Qed.

Lemma expected_length_pass length page_size :
  0 < page_size -> length + page_size <= 2 ^ 50 ->
  expected_page_table_length length page_size = Ok (64 + 32 * ceiling length page_size).
Proof.
  intros Hp Hl. unfold expected_page_table_length, page_count, checked_sub.
  destruct (N.leb_spec 1 page_size); [|lia]. cbn [ok_or mbind result_bind].
  rewrite checked_add_le by (change (2 ^ 50) with 1125899906842624 in Hl; unfold u64_max; lia).
  cbn [mbind option_bind ok_or result_bind].
  change ((length + (page_size - 1)) / page_size) with (ceiling length page_size).
  assert (ceiling length page_size <= length + page_size) as Hc.
  { unfold ceiling. apply N.Div0.div_le_upper_bound. nia. }
  change (2 ^ 50) with 1125899906842624 in Hl.
  rewrite checked_mul_le by (unfold u64_max; lia). cbn [mbind option_bind].
  rewrite checked_add_le by (unfold u64_max; lia). cbn [ok_or]. f_equal. lia.
Qed.

Section complete.
Context (limits : Limits.t) (Hlimits : limits_ok limits).

Lemma parse_object_complete s r :
  object_scan limits s -> object_ok limits r ->
  (forall p, last (ObjectScan.records s) = Some p -> ObjectRecord.digest p < ObjectRecord.digest r) ->
  ObjectRecord.page_table r ∉ ObjectScan.page_tables s ->
  ObjectScan.aggregate_object_bytes s + ObjectRecord.length r <= Limits.aggregate_object_bytes limits ->
  ObjectScan.aggregate_page_table_bytes s + ObjectRecord.page_table_length r
    <= Limits.aggregate_page_table_bytes limits ->
  parse_object limits s (object_document r)
  = Ok (ObjectScan.mk (ObjectScan.index s + 1) (ObjectScan.records s ++ [r])
      ({[ObjectRecord.page_table r]} ∪ ObjectScan.page_tables s)
      (ObjectScan.aggregate_object_bytes s + ObjectRecord.length r)
      (ObjectScan.aggregate_page_table_bytes s + ObjectRecord.page_table_length r)).
Proof.
  intros Hs [Hd Ht [Hl0 Hl] [Hp1 Hp2] [k Hk] Htl Htlim] Hlast Hnew Hb Htb.
  pose proof (li_object _ Hlimits) as H1. pose proof (li_aggregate _ Hlimits) as H2.
  pose proof (li_tables _ Hlimits) as H3.
  unfold FORMAT_OBJECT_BYTES, FORMAT_AGGREGATE_OBJECT_BYTES, FORMAT_AGGREGATE_PAGE_TABLE_BYTES in *.
  change (N.shiftl 1 40) with 1099511627776 in *. change (N.shiftl 8 40) with 8796093022208 in *.
  unfold MIN_PAGE_SIZE, MAX_PAGE_SIZE in *. unfold parse_object, object_document. passes.
  eapply pass; [apply require_true; destruct (last _) as [p|]; [|done];
    by apply negb_true_iff, N.leb_gt, Hlast|]. passes.
  eapply pass; [by apply require_true, N.leb_le|].
  eapply pass; [apply ok_or_some, checked_add_le; unfold u64_max; lia|]. cbv beta.
  eapply pass; [by apply require_true, N.leb_le|]. passes.
  eapply pass; [apply require_true, N.leb_le; unfold u32_max; lia|].
  eapply pass; [apply require_true; rewrite (proj2 (N.leb_le MIN_PAGE_SIZE _)), (proj2 (N.leb_le _ MAX_PAGE_SIZE)), Hk
    by (unfold MIN_PAGE_SIZE, MAX_PAGE_SIZE; lia); apply power_of_two_land|]. passes.
  eapply pass; [by apply require_true, bool_decide_eq_true|]. passes.
  eapply pass; [apply expected_length_pass; change (2 ^ 50) with 1125899906842624; lia|]. cbv beta.
  eapply pass; [by apply require_true, N.eqb_eq|].
  eapply pass; [by apply require_true, N.leb_le|].
  eapply pass; [apply ok_or_some, checked_add_le; unfold u64_max; lia|]. cbv beta.
  eapply pass; [by apply require_true, N.leb_le|]. by destruct r.
Qed.

Lemma sumN_snoc_le {A} (f : A -> N) dn x rest total :
  sumN f (dn ++ x :: rest) <= total -> sumN f dn + f x <= total.
Proof. rewrite sumN_app. simpl. lia. Qed.

Lemma parse_objects_complete l :
  objects_ok limits l -> lenN l <= Limits.objects limits ->
  parse_objects (Array (object_document <$> l)) limits = Ok l.
Proof.
  intros Hok Hcount. unfold parse_objects. cbn [expect_array mbind result_bind].
  rewrite guard_false by (apply N.ltb_ge; unfold lenN in *; by rewrite length_fmap). cbn [mbind result_bind].
  assert (forall rest dn s, l = dn ++ rest -> object_scan limits s -> ObjectScan.records s = dn ->
    exists s', try_fold (parse_object limits) s (object_document <$> rest) = Ok s' /\ ObjectScan.records s' = l) as H.
  { induction rest as [|r rest IH]; intros dn s -> Hs Hdn.
    { exists s. split; [done|]. by rewrite Hdn, app_nil_r. }
    destruct Hok as [Heach Hsort Hnd Hb Htb]. pose proof (sumN_snoc_le _ _ _ _ _ Hb) as Hb1.
    pose proof (sumN_snoc_le _ _ _ _ _ Htb) as Htb1.
    assert (object_ok limits r) as Hr by (apply Forall_app in Heach as [_ Heach]; by inversion Heach).
    assert (forall p, last (ObjectScan.records s) = Some p -> ObjectRecord.digest p < ObjectRecord.digest r) as Hlast.
    { intros p Hp. rewrite Hdn in Hp. apply last_Some in Hp as [dn' ->]. rewrite fmap_app in Hsort.
      apply (StronglySorted_app_1_elem_of N.lt (ObjectRecord.digest <$> dn' ++ [p]) (ObjectRecord.digest <$> r :: rest));
        [done | apply list_elem_of_fmap_2; set_solver | by left]. }
    assert (ObjectRecord.page_table r ∉ ObjectScan.page_tables s) as Hnew.
    { rewrite (sc_tables _ _ Hs), elem_of_list_to_set, Hdn. intros Hin. rewrite fmap_app in Hnd.
      apply NoDup_app in Hnd as (_ & Hnd & _). apply (Hnd _ Hin). by left. }
    cbn [fmap list_fmap try_fold].
    rewrite (parse_object_complete s r) by (done || rewrite ?(sc_bytes _ _ Hs), ?(sc_table_bytes _ _ Hs), Hdn; done).
    cbn [mbind result_bind]. apply (IH (dn ++ [r])); [by rewrite <- app_assoc | | simpl; by rewrite Hdn].
    apply scan_push; try done; rewrite ?(sc_bytes _ _ Hs), ?(sc_table_bytes _ _ Hs), ?Hdn; done. }
  destruct (H l [] (ObjectScan.mk 0 [] ∅ 0 0)) as (s' & -> & Hl); [done | | done | by rewrite <- Hl].
  repeat split; simpl; try constructor; lia.
Qed.

(** * Tensors *)

Lemma prodN_pos l : Forall (fun d => 0 < d <= MAX_TENSOR_DIMENSION) l -> 0 < prodN l.
Proof. induction 1 as [|d l Hd _ IH]; simpl; nia. Qed.

Lemma parse_dimension_complete path i sh e d :
  0 < d <= MAX_TENSOR_DIMENSION -> e * d <= u64_max ->
  parse_dimension path (i, sh, e) (Integer d) = Ok (i + 1, sh ++ [d], e * d).
Proof.
  intros [Hd0 Hd] He. unfold parse_dimension. passes. eapply pass; [by apply require_true, N.leb_le|].
  eapply pass; [by apply ok_or_some, checked_mul_le|]. cbv beta.
  eapply pass; [apply require_true, N.leb_le; unfold MAX_TENSOR_DIMENSION, u32_max in *; lia|]. done.
Qed.
Lemma parse_dimensions_complete path shape i sh e :
  Forall (fun d => 0 < d <= MAX_TENSOR_DIMENSION) shape -> 0 < e -> e * prodN shape <= u64_max ->
  exists i', try_fold (parse_dimension path) (i, sh, e) (Integer <$> shape) = Ok (i', sh ++ shape, e * prodN shape).
Proof.
  intros Hd. revert i sh e. induction Hd as [|d shape Hd Hs IH]; intros i sh e He Hmax.
  { exists i. simpl. by rewrite app_nil_r, N.mul_1_r. }
  pose proof (prodN_pos _ Hs). cbn [prodN foldr] in *. fold (prodN shape) in *. cbn [fmap list_fmap try_fold].
  rewrite parse_dimension_complete by (done || nia). cbn [mbind result_bind].
  destruct (IH (i + 1) (sh ++ [d]) (e * d)) as [i' E]; [lia | nia|]. exists i'.
  etrans; [exact E|]. rewrite <- app_assoc. by rewrite <- N.mul_assoc.
Qed.

Section tensors.
Context (objects : list ObjectRecord.t) (Hobjects : objects_ok limits objects).
Let lengths : gmap N N :=
  list_to_map ((fun r => (ObjectRecord.digest r, ObjectRecord.length r)) <$> objects).

Lemma sorted_lt_NoDup (l : list N) : StronglySorted N.lt l -> NoDup l.
Proof.
  induction 1 as [|x l _ IH Hx]; constructor; [|done]. intros Hin. rewrite Forall_forall in Hx.
  apply Hx in Hin. lia.
Qed.
Lemma lengths_complete o : o ∈ objects -> lengths !! ObjectRecord.digest o = Some (ObjectRecord.length o).
Proof.
  intros Ho. unfold lengths. apply elem_of_list_to_map_1.
  - rewrite <- list_fmap_compose. apply sorted_lt_NoDup, Hobjects.
  - apply list_elem_of_fmap. by exists o.
Qed.

Lemma parse_tensor_complete s t :
  tensor_scan objects s -> tensor_ok objects t -> TensorRecord.id t = TensorScan.index s ->
  TensorRecord.role t ∉ TensorScan.roles s -> (forall path, validate_role (TensorRecord.role t) path = Ok tt) ->
  parse_tensor lengths s (tensor_document t)
  = Ok (TensorScan.mk (TensorScan.index s + 1)
      (<[TensorRecord.object t := default [] (TensorScan.ranges s !! TensorRecord.object t) ++ [span t]]>
         (TensorScan.ranges s))
      ({[TensorRecord.role t]} ∪ TensorScan.roles s) (TensorScan.tensors s ++ [t])).
Proof.
  intros Hs [(o & Ho & Hd & Hend) Hlen Hal Hshape Hdims [Hr1 Hr2]] Hid Hrole Hvalid.
  destruct Hobjects as [Heach _ _ _ _]. rewrite Forall_forall in Heach. pose proof (Heach o Ho) as Hok.
  pose proof (ob_digest _ _ Hok). pose proof (ob_length _ _ Hok) as [_ Hol]. pose proof (li_object _ Hlimits) as H1.
  unfold FORMAT_OBJECT_BYTES in *. change (N.shiftl 1 40) with 1099511627776 in *.
  pose proof (prodN_pos _ Hdims).
  assert (prodN (TensorRecord.shape t) <= TensorRecord.length t) as Hprod.
  { rewrite Hshape. destruct (TensorRecord.dtype t); simpl; nia. }
  unfold parse_tensor, tensor_document. rewrite <- Hd in *. passes.
  eapply pass; [by apply require_true, N.eqb_eq|]. passes.
  eapply pass; [apply ok_or_some; by apply lengths_complete|]. cbv beta. passes.
  eapply pass; [by apply require_true, N.eqb_eq|]. passes.
  eapply pass; [apply Hvalid|]. cbv beta.
  eapply pass; [by apply require_true, bool_decide_eq_true|]. passes.
  eapply pass; [apply require_true, andb_true_iff; split; apply N.leb_le; unfold lenN in *;
    by rewrite length_fmap|].
  destruct (parse_dimensions_complete ("$.tensors[" +:+ pretty (TensorScan.index s) +:+ "]")
    (TensorRecord.shape t) 0 [] 1) as [i' Hi]; [done | lia | unfold u64_max; lia|].
  eapply pass; [exact Hi|]. cbv beta iota. rewrite N.mul_1_l.
  eapply pass; [apply ok_or_some, checked_mul_le; rewrite <- Hshape; unfold u64_max; lia|]. cbv beta.
  eapply pass; [by apply require_true, N.eqb_eq|].
  eapply pass; [apply ok_or_some, checked_add_le; unfold u64_max; lia|]. cbv beta.
  eapply pass; [by apply require_true, N.leb_le|]. unfold span. rewrite Hd. by destruct t.
Qed.

(** ** Coverage *)

(** Sorted ranges that cover every point from [c] to [e] exactly once follow one
    another. *)
Lemma chain_covers d l c e :
  StronglySorted (by_key (sort_key (K:=N * N))) l -> Forall (fun r => c <= r.1 < r.2 /\ r.2 <= e) l -> c <= e ->
  (forall b, c <= b < e -> length (filter (covers b) l) = 1%nat) ->
  try_fold (cover_range d) c l = Ok e.
Proof.
  intros Hs. revert c. induction Hs as [|[o e'] l Hs IH Hle]; intros c Hl Hce Hb.
  { destruct (decide (c < e)) as [Hlt|Hge]; [|simpl; f_equal; lia]. by specialize (Hb c ltac:(lia)). }
  apply Forall_cons in Hl as [[Ho He] Hl]. cbn [fst snd] in *. rewrite Forall_forall in Hle, Hl.
  assert (forall r, r ∈ l -> o <= r.1) as Hmin.
  { intros r Hr. apply Hle in Hr. unfold by_key, sort_key, NN_sort_key in Hr. cbn [key_le fst snd] in Hr. lia. }
  assert (o = c) as ->.
  { specialize (Hb c ltac:(lia)). rewrite filter_cons in Hb. case_decide as Hc; [unfold covers in Hc; simpl in Hc; lia|].
    destruct (filter (covers c) l) as [|r f] eqn:Hf; [done|].
    assert (r ∈ filter (covers c) l) as Hr by (rewrite Hf; by left). apply list_elem_of_filter in Hr as [Hr Hin].
    specialize (Hmin r Hin). unfold covers in Hr. lia. }
  assert (forall r, r ∈ l -> e' <= r.1) as Hnext.
  { intros r Hr. apply N.le_ngt. intros Hlt. pose proof (Hmin r Hr). pose proof (Hl r Hr) as Hrange. simpl in Hrange.
    specialize (Hb r.1 ltac:(lia)). rewrite filter_cons, decide_True in Hb by (unfold covers; simpl; lia).
    simpl in Hb. injection Hb as Hb. apply nil_length_inv in Hb. assert (r ∈ filter (covers r.1) l) as Hf.
    { apply list_elem_of_filter. split; [unfold covers; lia | done]. }
    rewrite Hb in Hf. by apply elem_of_nil in Hf. }
  cbn [try_fold]. eapply pass; [unfold cover_range; by rewrite N.ltb_irrefl|]. apply IH; [|done|].
  - apply Forall_forall. intros r Hr. pose proof (Hl r Hr) as Hrange. specialize (Hnext r Hr). simpl in Hrange. lia.
  - intros b Hbr. specialize (Hb b ltac:(lia)). rewrite filter_cons, decide_False in Hb; [done|].
    unfold covers. simpl. lia.
Qed.

Lemma coverage_complete tensors ranges :
  Forall (tensor_ok objects) tensors -> (forall d, default [] (ranges !! d) = spans d tensors) ->
  Forall (tiles tensors) objects -> validate_tensor_coverage objects ranges = Ok tt.
Proof.
  intros Ht Hr Htiles. unfold validate_tensor_coverage. apply try_fold_unit. intros o Ho. rewrite Hr.
  pose proof (proj1 (Forall_forall _ _) Htiles o Ho) as Ho_tiles. rewrite Forall_forall in Ht. eapply pass.
  - apply chain_covers with (e := ObjectRecord.length o); [apply sort_by_key_sorted | | lia|].
    + apply Forall_forall. intros r. rewrite elem_of_sort_by_key. unfold spans.
      intros (t & -> & [Hd Hin]%list_elem_of_filter)%list_elem_of_fmap.
      destruct (Ht t Hin) as [(o' & Ho' & Hd' & Hend) Hlen _ _ _ _].
      assert (o' = o) as ->; [|simpl; lia]. pose proof (lengths_complete o Ho) as L1.
      pose proof (lengths_complete o' Ho') as L2.
      apply list_elem_of_lookup in Ho as [i Hi]. apply list_elem_of_lookup in Ho' as [j Hj].
      assert (i = j) as ->; [|congruence].
      eapply NoDup_lookup; [apply (sorted_lt_NoDup (ObjectRecord.digest <$> objects)), Hobjects| |];
        rewrite list_lookup_fmap; [rewrite Hi | rewrite Hj]; simpl; [done | congruence].
    + intros b Hb. rewrite (sort_by_key_perm (sort_key (K:=N * N))), <- filter_spans. apply Ho_tiles. lia.
  - apply guard_false. by rewrite N.eqb_refl.
Qed.

Lemma parse_tensors_complete tensors :
  tensors_ok objects tensors -> Forall (tiles tensors) objects -> lenN tensors <= Limits.tensors limits ->
  Forall (fun t => forall path, validate_role (TensorRecord.role t) path = Ok tt) tensors ->
  parse_tensors (Array (tensor_document <$> tensors)) objects limits = Ok tensors.
Proof.
  intros Hok Htiles Hcount Hvalid. unfold parse_tensors. cbn [expect_array mbind result_bind].
  rewrite guard_false by (apply N.ltb_ge; unfold lenN in *; by rewrite length_fmap). cbn [mbind result_bind].
  fold lengths.
  assert (forall rest dn s, tensors = dn ++ rest -> tensor_scan objects s -> TensorScan.tensors s = dn ->
    exists s', try_fold (parse_tensor lengths) s (tensor_document <$> rest) = Ok s'
      /\ tensor_scan objects s' /\ TensorScan.tensors s' = tensors) as H.
  { induction rest as [|t rest IH]; intros dn s Hdn Hs Hst.
    { exists s. split; [done|]. split; [done|]. by rewrite Hst, Hdn, app_nil_r. }
    destruct Hok as [Heach Hids Hnd].
    assert (tensor_ok objects t) as Ht by (rewrite Hdn in Heach; apply Forall_app in Heach as [_ Heach]; by inversion Heach).
    assert (TensorRecord.id t = TensorScan.index s) as Hid.
    { rewrite (tc_index _ _ Hs), Hst. apply Hids. rewrite Hdn. by apply list_lookup_middle. }
    assert (TensorRecord.role t ∉ TensorScan.roles s) as Hrole.
    { rewrite (tc_roles _ _ Hs), elem_of_list_to_set, Hst. intros Hin. rewrite Hdn, fmap_app in Hnd.
      apply NoDup_app in Hnd as (_ & Hnd & _). apply (Hnd _ Hin). by left. }
    assert (forall path, validate_role (TensorRecord.role t) path = Ok tt) as Hv.
    { rewrite Hdn in Hvalid. apply Forall_app in Hvalid as [_ Hvalid]. by inversion Hvalid. }
    cbn [fmap list_fmap try_fold]. rewrite (parse_tensor_complete s t) by done. cbn [mbind result_bind].
    apply (IH (dn ++ [t])); [by rewrite <- app_assoc | by apply tensor_push | simpl; by rewrite Hst]. }
  destruct (H tensors [] (TensorScan.mk 0 ∅ ∅ [])) as (s' & E & Hs' & Ht); [done | | done|].
  { repeat split; simpl; try constructor; done. }
  eapply pass; [exact E|]. cbv beta. eapply pass; [|by rewrite Ht].
  apply (coverage_complete tensors); [apply Hok | | done]. intros d. by rewrite (tc_ranges _ _ Hs'), Ht.
Qed.
End tensors.

(** * The manifest *)

Lemma parse_adapter_complete version :
  version = 1 \/ version = 2 ->
  parse_adapter (Object [("id", String_ "runnel.tiny-causal-moe"); ("version", Integer version)])
  = Ok (Adapter.mk "runnel.tiny-causal-moe" version).
Proof. intros [-> | ->]; reflexivity. Qed.

Lemma parse_tokenizer_complete t :
  (forall path, validate_identifier (Tokenizer.id t) path = Ok tt) -> 0 < Tokenizer.version t ->
  0 < Tokenizer.vocab_size t ->
  parse_tokenizer (Object [("id", String_ (Tokenizer.id t)); ("version", Integer (Tokenizer.version t));
                           ("vocab_size", Integer (Tokenizer.vocab_size t))]) = Ok t.
Proof.
  intros Hid Hv Hs. unfold parse_tokenizer. passes. eapply pass; [apply Hid|]. cbv beta. passes. by destruct t.
Qed.

Lemma parse_model_complete m : model_ok m -> parse_model (model_document m) = Ok m.
Proof.
  intros [Hpos Hk Hh]. repeat (apply Forall_cons in Hpos as [? Hpos]). unfold parse_model, model_document. passes.
  eapply pass; [by apply require_true, N.leb_le|]. eapply pass; [by apply require_true, N.eqb_eq|]. by destruct m.
Qed.

Lemma validate_schema_complete m :
  manifest_ok limits m -> texts_ok m ->
  validate_schema (manifest_document m) limits
  = Ok (Manifest.mk (Manifest.adapter m) (Manifest.model m) (Manifest.objects m) (Manifest.tensors m)
          (Manifest.tokenizer m) 0 []).
Proof.
  intros [Had Hmo Hvoc Hob Hobc Hte Htec Hti] [Hroles Htok [Hver _] _]. unfold validate_schema, manifest_document. passes.
  eapply pass; [|]. { instantiate (1 := Manifest.adapter m).
    destruct Had as [-> | ->]; apply parse_adapter_complete; auto. }
  passes. eapply pass; [by apply parse_model_complete|]. cbv beta. passes.
  eapply pass; [apply parse_tokenizer_complete; [done | done |]|].
  { rewrite Hvoc. destruct Hmo as [Hpos _ _]. rewrite Forall_forall in Hpos. apply Hpos. set_solver. }
  cbv beta. eapply pass; [by apply require_true, N.eqb_eq|]. passes.
  eapply pass; [by apply parse_objects_complete|]. cbv beta. passes.
  eapply pass; [by apply parse_tensors_complete|]. done.
Qed.

(** ** The text is within the policy *)

Lemma names_ascii (rest : N -> bool) value :
  (forall b, rest b = true -> b < 128) -> matches_name rest value = true -> is_ascii value = true.
Proof.
  intros Hrest. unfold matches_name. destruct value as [|c s]; [done|]. cbn [string_bytes].
  intros [Hc Hs]%andb_true_iff. cbn [is_ascii]. apply andb_true_iff. split.
  - unfold is_lower in Hc. apply andb_true_iff in Hc as [_ Hc%N.leb_le]. apply N.ltb_lt. lia.
  - revert Hs. clear Hc. induction s as [|c' s IH]; [done|]. cbn [string_bytes forallb is_ascii].
    intros [Hc Hs]%andb_true_iff. apply andb_true_iff. split; [by apply N.ltb_lt, Hrest | by apply IH].
Qed.
Lemma require_ok ok path problem : require ok path problem = Ok tt -> ok = true.
Proof. by destruct ok. Qed.
Lemma name_byte_ascii b :
  is_lower b || is_digit b || (b =? UNDERSCORE) || (b =? DOT) || (b =? DASH) = true -> b < 128.
Proof.
  unfold is_lower, is_digit, UNDERSCORE, DOT, DASH. rewrite !orb_true_iff, !andb_true_iff, !N.leb_le, !N.eqb_eq. lia.
Qed.
Lemma role_string value path : validate_role value path = Ok tt -> string_ok value = true.
Proof.
  unfold validate_role. intros ([] & Hl%require_ok & Hm%require_ok)%bind_ok_inv.
  apply negb_true_iff, orb_false_iff in Hl as [_ Hl%N.ltb_ge]. unfold string_ok. apply andb_true_iff. split.
  - apply N.leb_le. unfold MAX_SCHEMA_STRING_BYTES. lia.
  - eapply names_ascii; [|exact Hm]. intros b Hb. by apply name_byte_ascii.
Qed.
Lemma identifier_string value path : validate_identifier value path = Ok tt -> string_ok value = true.
Proof.
  unfold validate_identifier. intros ([] & Hl%require_ok & Hm%require_ok)%bind_ok_inv.
  apply negb_true_iff, orb_false_iff in Hl as [_ Hl%N.ltb_ge]. unfold string_ok. apply andb_true_iff. split.
  - apply N.leb_le. unfold MAX_SCHEMA_STRING_BYTES. lia.
  - eapply names_ascii; [|exact Hm]. intros b Hb. apply name_byte_ascii. revert Hb.
    rewrite !orb_true_iff. tauto.
Qed.
Lemma ascii_bytes s : Forall (fun b => b < 128) (string_bytes s) -> is_ascii s = true.
Proof.
  induction s as [|c s IH]; [done|]. cbn [string_bytes is_ascii]. intros [Hc Hs]%Forall_cons.
  apply andb_true_iff. split; [by apply N.ltb_lt | by apply IH].
Qed.

(** Digits and lower-case letters, which the writer copies. *)
Definition plain_byte (b : N) : Prop := 48 <= b <= 57 \/ 97 <= b <= 122.
#[export] Instance plain_byte_dec b : Decision (plain_byte b).
Proof. unfold plain_byte. apply _. Defined.
Lemma write_hex_plain l : Forall byte l -> Forall plain_byte (Digest.write_hex l).
Proof.
  assert (forall b, byte b -> plain_byte (hex_digit (N.shiftr b 4)) /\ plain_byte (hex_digit (N.land b 15))) as Hd.
  { apply byte_cases. intros c. by destruct c as [[] [] [] [] [] [] [] []]; apply (bool_decide_unpack _). }
  induction 1 as [|b l Hb _ IH]; [constructor|]. destruct (Hd b Hb) as [H1 H2].
  change (Forall plain_byte (hex_digit (N.shiftr b 4) :: hex_digit (N.land b 15) :: Digest.write_hex l)).
  constructor; [exact H1|]. by constructor.
Qed.
(** The text of a digest: the prefix and 64 plain bytes. *)
Lemma digest_text d :
  exists l, string_bytes (Digest.to_string d) = string_bytes "sha256:" ++ l /\ length l = 64%nat
    /\ Forall plain_byte l.
Proof.
  exists (Digest.write_hex (Digest.as_bytes d)). unfold Digest.to_string, Digest.path_component.
  rewrite string_bytes_app, string_bytes_string by apply write_hex_bytes, as_bytes_bytes.
  split; [done|]. split; [by rewrite length_write_hex, length_as_bytes|]. apply write_hex_plain, as_bytes_bytes.
Qed.
Lemma digest_string d : string_ok (Digest.to_string d) = true.
Proof.
  destruct (digest_text d) as (l & E & Hl & Hp). unfold string_ok. apply andb_true_iff. split.
  - rewrite <- length_string_bytes, E, length_app, Hl. by vm_compute.
  - apply ascii_bytes. rewrite E. apply Forall_app. split; [by repeat constructor|].
    eapply Forall_impl; [exact Hp|]. unfold plain_byte. lia.
Qed.

Lemma numbers_ok l : Forall (fun n => n <= MAX_SAFE_INTEGER) l -> forall depth, forallb (json_ok depth) (Integer <$> l) = true.
Proof.
  intros Hl depth. apply forallb_forall. intros v Hv%list_elem_of_In. apply list_elem_of_fmap in Hv as (n & -> & Hn).
  rewrite Forall_forall in Hl. by apply N.leb_le, Hl.
Qed.
Lemma json_ok_array depth l :
  depth <= MAX_NESTING_DEPTH -> lenN l <= MAX_JSON_COLLECTION_ENTRIES -> (forall v, v ∈ l -> json_ok (depth + 1) v = true) ->
  json_ok depth (Array l) = true.
Proof.
  intros Hd Hl Hv. cbn [json_ok]. rewrite !andb_true_iff, !N.leb_le. split_and!; [done..|].
  apply forallb_forall. intros v Hin. by apply Hv, list_elem_of_In.
Qed.
Lemma json_ok_object depth l :
  depth <= MAX_NESTING_DEPTH -> lenN l <= MAX_JSON_COLLECTION_ENTRIES -> ascending l.*1 = true ->
  Forall (fun kv => string_ok kv.1 = true /\ json_ok (depth + 1) kv.2 = true) l -> json_ok depth (Object l) = true.
Proof.
  intros Hd Hl Ha Hv. cbn [json_ok]. rewrite !andb_true_iff, !N.leb_le. split_and!; [done..|].
  apply forallb_forall. intros v Hin%list_elem_of_In. rewrite Forall_forall in Hv. by apply andb_true_iff, Hv.
Qed.
(** The entries of a document of the schema. *)
Ltac entries :=
  apply json_ok_object; [by vm_compute | by vm_compute | reflexivity |];
  repeat (apply Forall_cons_2; [split; [reflexivity|]; cbn [snd]|]); try apply Forall_nil_2;
  try lazymatch goal with
      | |- json_ok _ (digest_json _) = true => apply digest_string
      | |- json_ok _ (Integer 1) = true => reflexivity
      | |- json_ok _ (String_ "rmoa") = true => reflexivity
      end.

Lemma object_json r : object_ok limits r -> json_ok 3 (object_document r) = true.
Proof.
  intros [_ _ [_ Hl] [_ Hp] _ _ Ht]. pose proof (li_object _ Hlimits). pose proof (li_table _ Hlimits).
  unfold FORMAT_OBJECT_BYTES, FORMAT_PAGE_TABLE_BYTES, MAX_PAGE_SIZE in *.
  change (N.shiftl 1 40) with 1099511627776 in *. unfold object_document.
  entries; cbn [json_ok]; apply N.leb_le; unfold MAX_SAFE_INTEGER; lia.
Qed.
Lemma tensor_json objects t :
  objects_ok limits objects -> tensor_ok objects t -> TensorRecord.id t <= MAX_SAFE_INTEGER ->
  (forall path, validate_role (TensorRecord.role t) path = Ok tt) -> json_ok 3 (tensor_document t) = true.
Proof.
  intros [Heach _ _ _ _] [(o & Ho & _ & Hend) _ _ _ Hd [_ Hr]] Hid Hrole. rewrite Forall_forall in Heach.
  pose proof (ob_length _ _ (Heach o Ho)) as [_ Hl]. pose proof (li_object _ Hlimits).
  unfold FORMAT_OBJECT_BYTES in *. change (N.shiftl 1 40) with 1099511627776 in *. unfold tensor_document.
  entries; try (cbn [json_ok]; apply N.leb_le; unfold MAX_SAFE_INTEGER in *; lia).
  - by destruct (TensorRecord.dtype t).
  - by eapply (role_string _ "").
  - apply json_ok_array; [by vm_compute | unfold lenN in *; rewrite length_fmap; unfold MAX_JSON_COLLECTION_ENTRIES; lia|].
    intros v (n & -> & Hn)%list_elem_of_fmap. rewrite Forall_forall in Hd. apply Hd in Hn. cbn [json_ok].
    apply N.leb_le. unfold MAX_TENSOR_DIMENSION, MAX_SAFE_INTEGER in *. lia.
Qed.

Lemma manifest_json m : manifest_ok limits m -> texts_ok m -> json_ok 1 (manifest_document m) = true.
Proof.
  intros [Had Hmo Hvoc Hob Hobc Hte Htec Hti] [Hroles Htok [_ Hver] Hmod].
  pose proof (li_objects _ Hlimits) as H1. pose proof (li_tensors _ Hlimits) as H2. unfold FORMAT_OBJECTS, FORMAT_TENSORS in *.
  repeat (apply Forall_cons in Hmod as [? Hmod]).
  unfold manifest_document. entries.
  - change (1 + 1) with 2. entries; by destruct Had as [-> | ->].
  - change (1 + 1) with 2. unfold model_document. entries; by apply N.leb_le.
  - change (1 + 1) with 2. apply json_ok_array; [by vm_compute | unfold lenN in *; rewrite length_fmap; unfold MAX_JSON_COLLECTION_ENTRIES; lia|].
    intros v (r & -> & Hr)%list_elem_of_fmap. change (2 + 1) with 3. apply object_json.
    destruct Hob as [Heach _ _ _ _]. rewrite Forall_forall in Heach. by apply Heach.
  - change (1 + 1) with 2. apply json_ok_array; [by vm_compute | unfold lenN in *; rewrite length_fmap; unfold MAX_JSON_COLLECTION_ENTRIES; lia|].
    intros v (t & -> & Ht)%list_elem_of_fmap. change (2 + 1) with 3. destruct Hte as [Heach Hids _].
    rewrite Forall_forall in Heach, Hroles. apply (tensor_json (Manifest.objects m)); [done | by apply Heach | | by apply Hroles].
    apply list_elem_of_lookup in Ht as [i Hi]. rewrite (Hids i t Hi). apply lookup_lt_Some in Hi.
    unfold lenN, MAX_SAFE_INTEGER in *. lia.
  - change (1 + 1) with 2. entries; [by eapply (identifier_string _ "") | by apply N.leb_le | rewrite Hvoc; by apply N.leb_le].
Qed.

(** The text of a well-formed manifest parses to it. *)
Lemma manifest_complete sha256 from_slice m :
  let text := canonical_bytes (manifest_document m) in
  manifest_ok limits m -> texts_ok m -> lenN text <= Limits.manifest_bytes limits ->
  from_slice text = (token_of (manifest_document m), None) ->
  parse_with_limits sha256 from_slice text limits
  = Ok (Manifest.mk (Manifest.adapter m) (Manifest.model m) (Manifest.objects m) (Manifest.tensors m)
          (Manifest.tokenizer m) (sha256 text) text).
Proof.
  intros text Hm Ht Hsize Hread. unfold parse_with_limits.
  assert (Limits.validate limits = Ok limits) as Hv.
  { pose proof (limits_validate_spec limits) as H. destruct (Limits.validate limits) as [l|e|]; [|by destruct H|done].
    by destruct H as [-> _]. }
  eapply pass; [exact Hv|]. cbv beta. eapply pass; [by apply guard_false, N.ltb_ge|]. cbv beta.
  eapply pass; [unfold parse; rewrite Hread, (visit_complete _ _ (manifest_json m Hm Ht)); done|]. cbv beta.
  eapply pass; [by apply validate_schema_complete|]. cbv beta.
  eapply pass; [by apply guard_false, bool_decide_eq_false_2; intros []|]. done.
Qed.
End complete.

(** * What is accepted is such a text *)

Lemma required_inv o key path v : required o key path = Ok v -> btree_get o key = Some v.
Proof. unfold required. by destruct (btree_get o key); intros [= ->]. Qed.
Lemma expect_object_inv v path o : expect_object v path = Ok o -> v = Object o.
Proof. by destruct v; intros [= ->]. Qed.
Lemma expect_array_inv v path l : expect_array v path = Ok l -> v = Array l.
Proof. by destruct v; intros [= ->]. Qed.
Lemma expect_string_inv v path s : expect_string v path = Ok s -> v = String_ s.
Proof. by destruct v; intros [= ->]. Qed.
Lemma expect_integer_inv v path n : expect_integer v path = Ok n -> v = Integer n.
Proof. by destruct v; intros [= ->]. Qed.
Lemma positive_inv v path n : positive_integer v path = Ok n -> v = Integer n /\ 0 < n.
Proof.
  unfold positive_integer. intros (m & ->%expect_integer_inv & H)%bind_ok_inv.
  apply bind_ok_inv in H as ([] & Hm%require_ok & [= ->]). split; [done|].
  apply negb_true_iff, N.eqb_neq in Hm. lia.
Qed.
Lemma digest_inv v path d : parse_digest v path = Ok d -> v = digest_json d.
Proof.
  unfold parse_digest. intros (s & ->%expect_string_inv & H)%bind_ok_inv.
  destruct (Digest.from_str s) as [d'| |] eqn:E; [|done..]. injection H as ->.
  apply to_from_string in E as [_ <-]. done.
Qed.
Lemma dtype_inv v path d : parse_dtype v path = Ok d -> v = String_ (DType.as_str d).
Proof.
  unfold parse_dtype. intros (s & ->%expect_string_inv & H)%bind_ok_inv.
  repeat case_bool_decide; by simplify_eq.
Qed.

(** Ascending keys that the schema allows and that include all it requires are the
    keys it names. *)
Lemma exact_keys_inv o expected path :
  exact_keys o expected path = Ok tt -> ascending o.*1 = true -> ascending expected = true -> o.*1 = expected.
Proof.
  unfold exact_keys. intros ([] & Hin & Hreq)%bind_ok_inv Ho He.
  assert (forall {A} (f : A -> result FormatError.t unit) l x, try_fold (fun _ => f) tt l = Ok tt -> x ∈ l -> f x = Ok tt) as Hall.
  { intros A f l x. induction l as [|y l IH]; intros H Hx; [by apply elem_of_nil in Hx|].
    cbn [try_fold] in H. apply bind_ok_inv in H as ([] & Hy & H). apply elem_of_cons in Hx as [->|Hx]; auto. }
  apply ascending_sorted in Ho, He.
  assert (forall k, k ∈ o.*1 <-> k ∈ expected) as Hiff.
  { intros k. split.
    - intros (kv & -> & Hkv)%list_elem_of_fmap. eapply Hall in Hin; [|exact Hkv].
      by apply require_ok, bool_decide_eq_true in Hin.
    - intros Hk. eapply Hall in Hreq; [|exact Hk]. apply require_ok, bool_decide_eq_true in Hreq as [v Hv].
      unfold btree_get in Hv. apply fmap_Some in Hv as ([k' v'] & Hf & _). apply find_some in Hf as [Hf Hk'].
      apply bool_decide_eq_true in Hk'. simpl in Hk'. subst. apply list_elem_of_fmap. exists (k, v').
      split; [done|]. by apply list_elem_of_In. }
  assert (AntiSymm (=) key_lt) as Hanti by (intros a b H1 H2; destruct (key_lt_irrefl a); by eapply key_lt_trans).
  apply (StronglySorted_unique key_lt); [done..|]. apply NoDup_Permutation; [by apply sorted_keys_NoDup..|done].
Qed.

Lemma json_ok_entries depth o :
  json_ok depth (Object o) = true -> ascending o.*1 = true /\ Forall (fun kv => json_ok (depth + 1) kv.2 = true) o.
Proof.
  cbn [json_ok]. rewrite !andb_true_iff. intros [[_ Ha] Hv]. split; [done|]. apply Forall_forall.
  intros kv Hkv. rewrite forallb_forall in Hv. apply list_elem_of_In, Hv, andb_true_iff in Hkv. apply Hkv.
Qed.
Lemma json_ok_elements depth l :
  json_ok depth (Array l) = true -> Forall (fun v => json_ok (depth + 1) v = true) l.
Proof.
  cbn [json_ok]. rewrite !andb_true_iff. intros [_ Hv]. apply Forall_forall.
  intros v Hin. rewrite forallb_forall in Hv. by apply list_elem_of_In, Hv in Hin.
Qed.

(** The entries of an object with exactly these keys. *)
Lemma keys_cons (o : list (string * JsonValue)) k ks : o.*1 = k :: ks -> exists v o', o = (k, v) :: o' /\ o'.*1 = ks.
Proof. destruct o as [|[k' v] o]; [done|]. intros [= -> H]. by exists v, o. Qed.
Ltac entry_values H :=
  repeat (let v := fresh "v" in let o := fresh "o" in apply keys_cons in H as (v & o & -> & H));
  apply fmap_nil_inv in H as ->.

(** Undo one step. *)
Ltac undo_step H :=
  let x := fresh "x" in let Hx := fresh "Hx" in
  apply bind_ok_inv in H as (x & Hx & H); cbv beta in H;
  lazymatch type of Hx with
  | required _ _ _ = Ok _ => apply required_inv in Hx; vm_compute in Hx; injection Hx as <-
  | expect_object _ _ = Ok _ => apply expect_object_inv in Hx; subst
  | expect_array _ _ = Ok _ => apply expect_array_inv in Hx; subst
  | expect_string _ _ = Ok _ => apply expect_string_inv in Hx; subst
  | expect_integer _ _ = Ok _ => apply expect_integer_inv in Hx; subst
  | positive_integer _ _ = Ok _ => apply positive_inv in Hx as [-> Hx]
  | parse_digest _ _ = Ok _ => apply digest_inv in Hx; subst
  | parse_dtype _ _ = Ok _ => apply dtype_inv in Hx; subst
  | require _ _ _ = Ok _ => destruct x; apply require_ok in Hx
  | guard_err _ _ = Ok _ => destruct x; apply guard_ok_inv in Hx
  | ok_or _ _ = Ok _ => apply ok_or_inv in Hx
  | exact_keys _ _ _ = Ok _ => destruct x
  | _ => idtac
  end.
(** The entries of the object that is taken apart. *)
Ltac undo_object H Hjson :=
  undo_step H; apply json_ok_entries in Hjson as [Hjson ?]; 
  let Hk := fresh "Hk" in
  apply bind_ok_inv in H as ([] & Hk & H); apply exact_keys_inv in Hk; [|done|reflexivity]; entry_values Hk.

Lemma parse_object_inv limits s v depth s' :
  json_ok depth v = true -> parse_object limits s v = Ok s' ->
  exists r, v = object_document r /\ ObjectScan.records s' = ObjectScan.records s ++ [r].
Proof.
  intros Hj H. unfold parse_object in H. undo_object H Hj. repeat undo_step H. injection H as <-.
  eexists (ObjectRecord.mk _ _ _ _ _). split; reflexivity.
Qed.

Lemma parse_objects_inv limits v depth l :
  json_ok depth v = true -> parse_objects v limits = Ok l -> v = Array (object_document <$> l).
Proof.
  intros Hj H. unfold parse_objects in H. undo_step H. undo_step H. apply json_ok_elements in Hj.
  apply bind_ok_inv in H as (s & H & [= <-]).
  assert (forall values s0 s, Forall (fun v => json_ok (depth + 1) v = true) values ->
    try_fold (parse_object limits) s0 values = Ok s ->
    exists l, values = object_document <$> l /\ ObjectScan.records s = ObjectScan.records s0 ++ l) as Hfold.
  { clear. induction values as [|v values IH]; intros s0 s Hj H.
    { injection H as <-. exists []. by rewrite app_nil_r. }
    apply Forall_cons in Hj as [Hv Hj]. cbn [try_fold] in H. apply bind_ok_inv in H as (s1 & H1 & H).
    apply (parse_object_inv _ _ _ _ _ Hv) in H1 as (r & -> & E1). apply IH in H as (l & -> & E); [|done].
    exists (r :: l). split; [done|]. by rewrite E, E1, <- app_assoc. }
  apply Hfold in H as (l & -> & E); [|done]. by rewrite E.
Qed.

Lemma parse_dimensions_inv path i sh e values r :
  try_fold (parse_dimension path) (i, sh, e) values = Ok r ->
  exists shape, values = Integer <$> shape /\ r.1.2 = sh ++ shape.
Proof.
  revert i sh e. induction values as [|v values IH]; intros i sh e H.
  { injection H as <-. exists []. by rewrite app_nil_r. }
  cbn [try_fold] in H. apply bind_ok_inv in H as ([[i1 sh1] e1] & H1 & H). unfold parse_dimension in H1.
  repeat undo_step H1. injection H1 as <- <- <-. apply IH in H as (shape & -> & E).
  eexists (_ :: shape). split; [reflexivity|]. by rewrite E, <- app_assoc.
Qed.

(** The names are checked in the same way at every path. *)
Lemma role_any_path role path path' : validate_role role path = Ok tt -> validate_role role path' = Ok tt.
Proof.
  unfold validate_role. intros ([] & H1%require_ok & H2%require_ok)%bind_ok_inv.
  eapply pass; by apply require_true.
Qed.
Lemma identifier_any_path id path path' : validate_identifier id path = Ok tt -> validate_identifier id path' = Ok tt.
Proof.
  unfold validate_identifier. intros ([] & H1%require_ok & H2%require_ok)%bind_ok_inv.
  eapply pass; by apply require_true.
Qed.

Lemma parse_tensor_inv lengths s v depth s' :
  json_ok depth v = true -> parse_tensor lengths s v = Ok s' ->
  exists t, v = tensor_document t /\ TensorScan.tensors s' = TensorScan.tensors s ++ [t]
    /\ forall path, validate_role (TensorRecord.role t) path = Ok tt.
Proof.
  intros Hj H. unfold parse_tensor in H. undo_object H Hj. do 15 undo_step H.
  apply bind_ok_inv in H as ([] & Hrole & H). do 4 undo_step H.
  apply bind_ok_inv in H as ([[i shape] elements] & Hdim & H). apply parse_dimensions_inv in Hdim as (sh & -> & Esh).
  cbn [fst snd app] in Esh. subst sh. repeat undo_step H. injection H as <-.
  eexists (TensorRecord.mk _ _ _ _ _ _ _). split; [reflexivity|]. split; [reflexivity|].
  intros path. by eapply role_any_path.
Qed.

Lemma parse_tensors_inv v objects limits depth l :
  json_ok depth v = true -> parse_tensors v objects limits = Ok l ->
  v = Array (tensor_document <$> l)
  /\ Forall (fun t => forall path, validate_role (TensorRecord.role t) path = Ok tt) l.
Proof.
  intros Hj H. unfold parse_tensors in H. undo_step H. undo_step H. apply json_ok_elements in Hj.
  apply bind_ok_inv in H as (s & H & Hc). apply bind_ok_inv in Hc as ([] & _ & [= <-]).
  assert (forall lengths values s0 s, Forall (fun v => json_ok (depth + 1) v = true) values ->
    try_fold (parse_tensor lengths) s0 values = Ok s ->
    exists l, values = tensor_document <$> l /\ TensorScan.tensors s = TensorScan.tensors s0 ++ l
      /\ Forall (fun t => forall path, validate_role (TensorRecord.role t) path = Ok tt) l) as Hfold.
  { clear. intros lengths. induction values as [|v values IH]; intros s0 s Hj H.
    { injection H as <-. exists []. by rewrite app_nil_r. }
    apply Forall_cons in Hj as [Hv Hj]. cbn [try_fold] in H. apply bind_ok_inv in H as (s1 & H1 & H).
    apply (parse_tensor_inv _ _ _ _ _ Hv) in H1 as (t & -> & E1 & Hr). apply IH in H as (l & -> & E & Hl); [|done].
    exists (t :: l). split; [done|]. split; [by rewrite E, E1, <- app_assoc | by constructor]. }
  apply Hfold in H as (l & -> & E & Hl); [|done]. by rewrite E.
Qed.

Lemma dimension_inv o key n : dimension o key = Ok n -> btree_get o key = Some (Integer n).
Proof. unfold dimension. intros (v & H1%required_inv & [-> _]%positive_inv)%bind_ok_inv. done. Qed.

Lemma literal_string_inv v expected path u : expect_literal_string v expected path = Ok u -> v = String_ expected.
Proof.
  unfold expect_literal_string. intros H. undo_step H. destruct u.
  by apply require_ok, bool_decide_eq_true in H as ->.
Qed.
Lemma literal_integer_inv v expected path u : expect_literal_integer v expected path = Ok u -> v = Integer expected.
Proof.
  unfold expect_literal_integer. intros H. undo_step H. destruct u.
  by apply require_ok, N.eqb_eq in H as ->.
Qed.

Lemma parse_adapter_inv v depth a :
  json_ok depth v = true -> parse_adapter v = Ok a ->
  v = Object [("id", String_ (Adapter.id a)); ("version", Integer (Adapter.version a))].
Proof.
  intros Hj H. unfold parse_adapter in H. undo_object H Hj. do 2 undo_step H.
  apply bind_ok_inv in H as ([] & _ & H). repeat undo_step H. by injection H as <-.
Qed.
Lemma parse_tokenizer_inv v depth t :
  json_ok depth v = true -> parse_tokenizer v = Ok t ->
  v = Object [("id", String_ (Tokenizer.id t)); ("version", Integer (Tokenizer.version t));
              ("vocab_size", Integer (Tokenizer.vocab_size t))]
  /\ (forall path, validate_identifier (Tokenizer.id t) path = Ok tt)
  /\ 0 < Tokenizer.version t <= MAX_SAFE_INTEGER.
Proof.
  intros Hj H. unfold parse_tokenizer in H. undo_object H Hj. do 2 undo_step H.
  apply bind_ok_inv in H as ([] & Hid & H). repeat undo_step H. injection H as <-.
  split; [done|]. split; [intros path; by eapply identifier_any_path|]. split; [done|].
  repeat (match goal with F : Forall _ (_ :: _) |- _ => apply Forall_cons in F as [? F] end). by apply N.leb_le.
Qed.
Lemma parse_model_inv v depth m :
  json_ok depth v = true -> parse_model v = Ok m ->
  v = model_document m /\ Forall (fun n => n <= MAX_SAFE_INTEGER)
    [TinyModel.context_length m; TinyModel.expert_hidden_size m; TinyModel.hidden_size m;
     TinyModel.num_experts m; TinyModel.num_heads m; TinyModel.num_layers m; TinyModel.top_k m;
     TinyModel.vocab_size m].
Proof.
  intros Hj H. unfold parse_model in H. undo_object H Hj.
  do 8 (let x := fresh "n" in let Hx := fresh in apply bind_ok_inv in H as (x & Hx & H); apply dimension_inv in Hx;
        vm_compute in Hx; injection Hx as ->).
  repeat undo_step H. injection H as <-. split; [reflexivity|].
  repeat (match goal with F : Forall _ (_ :: _) |- _ => apply Forall_cons in F as [? F] end).
  repeat constructor; by apply N.leb_le.
Qed.

Lemma validate_schema_inv document limits m :
  json_ok 1 document = true -> validate_schema document limits = Ok m ->
  document = manifest_document m /\ texts_ok m.
Proof.
  intros Hj H. unfold validate_schema in H. undo_object H Hj.
  repeat (match goal with F : Forall _ (_ :: _) |- _ => apply Forall_cons in F as [? F] end). cbn [snd] in *.
  undo_step H. apply bind_ok_inv in H as (u & ->%literal_string_inv & H).
  undo_step H. apply bind_ok_inv in H as (u' & ->%literal_integer_inv & H).
  undo_step H. apply bind_ok_inv in H as (adapter & Had & H). eapply parse_adapter_inv in Had as ->; [|done].
  undo_step H. apply bind_ok_inv in H as (model & Hmo & H). eapply parse_model_inv in Hmo as [-> Hmodel]; [|done].
  undo_step H. apply bind_ok_inv in H as (tokenizer & Hto & H).
  eapply parse_tokenizer_inv in Hto as (-> & Hid & Hver); [|done].
  undo_step H. undo_step H. apply bind_ok_inv in H as (objects & Hob & H). eapply parse_objects_inv in Hob as ->; [|done].
  undo_step H. apply bind_ok_inv in H as (tensors & Hte & H). eapply parse_tensors_inv in Hte as [-> Hroles]; [|done].
  injection H as <-. split; [reflexivity|]. by split.
Qed.

(** An accepted manifest is the one its bytes are the text of. *)
Lemma manifest_text limits sha256 from_slice bytes m :
  parse_with_limits sha256 from_slice bytes limits = Ok m ->
  bytes = canonical_bytes (manifest_document m) /\ texts_ok m.
Proof.
  unfold parse_with_limits. intros (l & _ & H)%bind_ok_inv. apply bind_ok_inv in H as ([] & _ & H).
  apply bind_ok_inv in H as (document & Hd & H). pose proof (parse_sound from_slice bytes) as Hj. rewrite Hd in Hj.
  apply bind_ok_inv in H as (m' & Hm & H). apply validate_schema_inv in Hm as [-> [Hr Ht Hv Hmo]]; [|done].
  apply bind_ok_inv in H as ([] & Hc%guard_ok_inv & [= <-]).
  apply bool_decide_eq_false, dec_stable in Hc. split; [by rewrite <- Hc|]. by split.
Qed.
