(* ===== verification/FormatArtifact.v ===== *)
(** Page tables and eagerly verified artifacts
    (crates/runnel-format/src/artifact.rs).  The readers that fetch the bytes
    from the filesystem are left out; everything they hand over is verified
    here. *)
From stdpp Require Import prelude gmap strings.
From S2P Require Import Prelude Format FormatManifest.
#[local] Open Scope N_scope.

Definition PAGE_TABLE_MAGIC : list N := string_bytes "RMOAPG1" ++ [10].
Definition PAGE_TABLE_HEADER_BYTES : N := 64.

(** [bytes.get(first..last)]. *)
Definition slice (bytes : list N) (first last : N) : option (list N) :=
  if (first <=? last) && (last <=? lenN bytes)
  then Some (take (N.to_nat (last - first)) (drop (N.to_nat first) bytes)) else None.

(** [slice::chunks] with a positive size; each chunk consumes a byte, so the
    length of the slice is fuel enough. *)
Fixpoint chunks_loop {A} (fuel size : nat) (l : list A) : list (list A) :=
  match fuel, l with
  | S fuel, _ :: _ => take size l :: chunks_loop fuel size (drop size l)
  | _, _ => []
  end.
Definition chunks {A} (size : nat) (l : list A) : list (list A) := chunks_loop (length l) size l.

Definition read_u32 (bytes : list N) (offset : N) : result FormatError.t N :=
  encoded ← expect (slice bytes offset (offset + 4)); Ok (from_le_bytes encoded).
Definition read_u64 (bytes : list N) (offset : N) : result FormatError.t N :=
  encoded ← expect (slice bytes offset (offset + 8)); Ok (from_le_bytes encoded).

Definition page_table_error (record : ObjectRecord.t) (problem : string) : FormatError.t :=
  FormatError.PageTable (ObjectRecord.digest record) problem.

Module PageTable.
Record t : Type := mk {
  bytes : list N; page_size : N; object_length : N; page_count : N; object_digest : Digest
}.

Section sha256.
Context (sha256 : list N -> Digest).

Definition parse_verified (record : ObjectRecord.t) (bytes : list N) : result FormatError.t t :=
  let actual_length := lenN bytes in
  _ ← guard_err (u64_max <? actual_length) (FormatError.ArithmeticOverflow "page-table input length");
  _ ← guard_err (negb (actual_length =? ObjectRecord.page_table_length record))
        (FormatError.BlobLengthMismatch "page table" (ObjectRecord.page_table record)
           (ObjectRecord.page_table_length record) actual_length);
  let actual_digest := sha256 bytes in
  _ ← guard_err (negb (actual_digest =? ObjectRecord.page_table record))
        (FormatError.BlobDigestMismatch "page table" (ObjectRecord.page_table record) actual_digest);
  _ ← guard_err (lenN bytes <? PAGE_TABLE_HEADER_BYTES) (page_table_error record "header is truncated");
  magic ← expect (slice bytes 0 8);
  _ ← guard_err (bool_decide (magic <> PAGE_TABLE_MAGIC))
        (page_table_error record "magic does not equal RMOAPG1\n");
  version ← read_u32 bytes 8;
  _ ← guard_err (negb (version =? 1)) (page_table_error record "version is not 1");
  page_size ← read_u32 bytes 12;
  _ ← guard_err (negb (page_size =? ObjectRecord.page_size record))
        (page_table_error record "page size does not match the manifest");
  object_length ← read_u64 bytes 16;
  _ ← guard_err (negb (object_length =? ObjectRecord.length record))
        (page_table_error record "object length does not match the manifest");
  page_count ← read_u64 bytes 24;
  expected_page_count ← ObjectRecord.page_count record;
  _ ← guard_err (negb (page_count =? expected_page_count))
        (page_table_error record "page count does not equal ceil(length / page_size)");
  header ← expect (slice bytes 32 64);
  let header_digest := Digest.from_bytes header in
  _ ← guard_err (negb (header_digest =? ObjectRecord.digest record))
        (page_table_error record "object digest does not match the manifest");
  expected_length ←
    ok_or (hash_bytes ← checked_mul u64_max page_count 32; checked_add u64_max hash_bytes 64)
      (FormatError.ArithmeticOverflow "page-table parsed byte length");
  _ ← guard_err (negb (actual_length =? expected_length))
        (page_table_error record "byte length does not match its page count");
  Ok (mk bytes page_size object_length page_count (ObjectRecord.digest record)).

Definition page_hash (t : t) (index : N) : option (list N) :=
  if page_count t <=? index then None
  else
    offset ← checked_mul usize_max index 32;
    offset ← checked_add usize_max offset PAGE_TABLE_HEADER_BYTES;
    end_ ← checked_add usize_max offset 32;
    slice (bytes t) offset end_.

(** The loop over the pages of the object. *)
Definition verify_page (t : t) (record : ObjectRecord.t) (page_index : N) (page : list N)
    : result FormatError.t N :=
  _ ← guard_err (bool_decide (page_hash t page_index <> Some (Digest.as_bytes (sha256 page))))
        (FormatError.PageHashMismatch (ObjectRecord.digest record) page_index);
  Ok (page_index + 1).

Definition verify_object (t : t) (record : ObjectRecord.t) (bytes : list N) : result FormatError.t unit :=
  let actual_length := lenN bytes in
  _ ← guard_err (u64_max <? actual_length) (FormatError.ArithmeticOverflow "object input length");
  _ ← guard_err (negb (actual_length =? ObjectRecord.length record))
        (FormatError.BlobLengthMismatch "object" (ObjectRecord.digest record)
           (ObjectRecord.length record) actual_length);
  let actual_digest := sha256 bytes in
  _ ← guard_err (negb (actual_digest =? ObjectRecord.digest record))
        (FormatError.BlobDigestMismatch "object" (ObjectRecord.digest record) actual_digest);
  _ ← guard_err (negb (object_digest t =? ObjectRecord.digest record)
                 || negb (object_length t =? ObjectRecord.length record)
                 || negb (page_size t =? ObjectRecord.page_size record))
        (page_table_error record "verified table is for a different object record");
  pages ← (if page_size t =? 0 then Panic else Ok (chunks (N.to_nat (page_size t)) bytes));
  _ ← try_fold (verify_page t record) 0 pages;
  Ok tt.
End sha256.
End PageTable.

Module VerifiedObject.
Record t : Type := mk { bytes : list N; page_table : PageTable.t }.
End VerifiedObject.

Module ArtifactBytes.
Record t : Type := mk {
  manifest : list N; objects : gmap N (list N); page_tables : gmap N (list N)
}.
End ArtifactBytes.

Definition required_eager_bytes (m : Manifest.t) : result FormatError.t N :=
  let total := lenN (Manifest.canonical_bytes m) in
  _ ← guard_err (u64_max <? total) (FormatError.ArithmeticOverflow "manifest memory accounting");
  try_fold (fun total record =>
    ok_or (value ← checked_add u64_max total (ObjectRecord.length record);
           checked_add u64_max value (ObjectRecord.page_table_length record))
      (FormatError.ArithmeticOverflow "eager artifact memory accounting")) total (Manifest.objects m).

Definition ensure_eager_budget (m : Manifest.t) (limits : Limits.t) : result FormatError.t unit :=
  required ← required_eager_bytes m;
  guard_err (Limits.eager_memory_bytes limits <? required)
    (FormatError.MemoryBudgetExceeded required (Limits.eager_memory_bytes limits)).

Module Artifact.
Record t : Type := mk {
  manifest : Manifest.t; objects : gmap N VerifiedObject.t; retained_payload_bytes : N
}.

Section sha256.
Context (sha256 : list N -> Digest) (from_slice : list N -> Token * option SyntaxError).

(** One round of the loop of [verify_loaded]: the blobs left and the objects
    verified so far. *)
Definition verify_record (s : gmap N (list N) * gmap N (list N) * gmap N VerifiedObject.t)
    (record : ObjectRecord.t)
    : result FormatError.t (gmap N (list N) * gmap N (list N) * gmap N VerifiedObject.t) :=
  let '(object_bytes, page_table_bytes, objects) := s in
  table_bytes ← ok_or (page_table_bytes !! ObjectRecord.page_table record)
    (FormatError.MissingBlob "page table" (ObjectRecord.page_table record));
  page_table ← PageTable.parse_verified sha256 record table_bytes;
  bytes ← ok_or (object_bytes !! ObjectRecord.digest record)
    (FormatError.MissingBlob "object" (ObjectRecord.digest record));
  _ ← PageTable.verify_object sha256 page_table record bytes;
  Ok (delete (ObjectRecord.digest record) object_bytes,
      delete (ObjectRecord.page_table record) page_table_bytes,
      <[ObjectRecord.digest record := VerifiedObject.mk bytes page_table]> objects).

Definition verify_loaded (manifest : Manifest.t) (object_bytes page_table_bytes : gmap N (list N))
    (limits : Limits.t) : result FormatError.t t :=
  _ ← ensure_eager_budget manifest limits;
  '(_, _, objects) ← try_fold verify_record (object_bytes, page_table_bytes, ∅)
                       (Manifest.objects manifest);
  retained_payload_bytes ← required_eager_bytes manifest;
  Ok (mk manifest objects retained_payload_bytes).

Definition from_bytes_internal (parts : ArtifactBytes.t) (limits : Limits.t) (expected : option Digest)
    : result FormatError.t t :=
  limits ← Limits.validate limits;
  manifest ←
    match expected with
    | Some expected =>
        parse_with_expected_id sha256 from_slice (ArtifactBytes.manifest parts) limits expected
    | None => parse_with_limits sha256 from_slice (ArtifactBytes.manifest parts) limits
    end;
  _ ← ensure_eager_budget manifest limits;
  verify_loaded manifest (ArtifactBytes.objects parts) (ArtifactBytes.page_tables parts) limits.
End sha256.

Definition page_table (a : t) (object : Digest) : option PageTable.t :=
  VerifiedObject.page_table <$> objects a !! object.

Definition tensor_bytes (a : t) (id : N) : option (list N) :=
  descriptor ← Manifest.tensors (manifest a) !! N.to_nat id;
  if negb (TensorRecord.id descriptor =? id) then None
  else
    object ← objects a !! TensorRecord.object descriptor;
    end_ ← checked_add u64_max (TensorRecord.offset descriptor) (TensorRecord.length descriptor);
    slice (VerifiedObject.bytes object) (TensorRecord.offset descriptor) end_.

Definition tensor_by_role (a : t) (role : string) : option (TensorRecord.t * list N) :=
  descriptor ← tensor_by_role (manifest a) role;
  bytes ← tensor_bytes a (TensorRecord.id descriptor);
  Some (descriptor, bytes).

Definition load_tensor (a : t) (role : string) : result FormatError.t (list N) :=
  ok_or (snd <$> tensor_by_role a role) (FormatError.UnknownTensorRole role).
End Artifact.
