(* ===== verification/FormatVerify.v ===== *)
(** What a verified artifact gives: every object has its declared length and
    digest, every page the digest its authenticated table lists, and every
    declared tensor its exact bytes.

    A concrete artifact of one object with two tensors, a stand-in for SHA-256
    and a stand-in for the JSON deserializer that reads exactly its manifest:
    the instance at which the theorems about artifacts are shown to apply. *)
From stdpp Require Import prelude gmap strings sorting pretty.
From S2P Require Import Prelude Format FormatJsonFacts FormatManifest FormatDigest FormatSchema.
From S2P Require Import FormatArtifact.
#[local] Open Scope N_scope.

(** * Slices and chunks *)

Lemma slice_ok bytes first last :
  first <= last -> last <= lenN bytes ->
  exists s, slice bytes first last = Some s /\ lenN s = last - first
    /\ s = take (N.to_nat (last - first)) (drop (N.to_nat first) bytes).
Proof.
  intros H1 H2. unfold slice. rewrite (proj2 (N.leb_le _ _) H1), (proj2 (N.leb_le _ _) H2). simpl.
  eexists. split; [done|]. split; [|done]. unfold lenN in *. rewrite length_take, length_drop. lia.
Qed.

Lemma chunks_loop_lookup {A} fuel n (l : list A) i :
  (0 < n)%nat -> (length l <= fuel)%nat ->
  chunks_loop fuel n l !! i = if decide (i * n < length l)%nat then Some (take n (drop (i * n) l)) else None.
Proof.
  intros Hn. revert l i. induction fuel as [|fuel IH]; intros l i Hl.
  - destruct l; [|simpl in Hl; lia]. cbn [length]. by rewrite decide_False by lia.
  - destruct l as [|x l]; [cbn [length]; by rewrite decide_False by lia|].
    set (l' := x :: l) in *. change (chunks_loop (S fuel) n l') with (take n l' :: chunks_loop fuel n (drop n l')).
    destruct i as [|i]; simpl lookup.
    + rewrite decide_True by (simpl; lia). by rewrite drop_0.
    + assert (length (drop n l') <= fuel)%nat by (rewrite length_drop; simpl in *; lia).
      rewrite IH by done. rewrite length_drop, drop_drop.
      replace (n + i * n)%nat with (S i * n)%nat by lia.
      repeat case_decide; try done; nia.
Qed.

Lemma chunks_lookup {A} n (l : list A) i :
  (0 < n)%nat ->
  chunks n l !! i = if decide (i * n < length l)%nat then Some (take n (drop (i * n) l)) else None.
Proof. intros Hn. by apply chunks_loop_lookup. Qed.

(** Page [i] of an object. *)
Definition page_bytes (page_size i : N) (bytes : list N) : list N :=
  take (N.to_nat page_size) (drop (N.to_nat (i * page_size)) bytes).

Section sha256.
Context (sha256 : list N -> Digest).

(** * Page tables *)

Record table_ok (r : ObjectRecord.t) (t : PageTable.t) : Prop := {
  tb_digest : sha256 (PageTable.bytes t) = ObjectRecord.page_table r;
  tb_length : lenN (PageTable.bytes t) = 64 + 32 * PageTable.page_count t;
  tb_width : lenN (PageTable.bytes t) <= u64_max;
  tb_page_size : PageTable.page_size t = ObjectRecord.page_size r;
  tb_object_length : PageTable.object_length t = ObjectRecord.length r;
  tb_page_count : PageTable.page_count t = ceiling (ObjectRecord.length r) (ObjectRecord.page_size r);
  tb_object : PageTable.object_digest t = ObjectRecord.digest r
}.

Lemma post_slice {B} bytes first last (f : list N -> result FormatError.t B) Q :
  first <= last -> last <= lenN bytes -> (forall s, post (f s) Q (fun _ => True)) ->
  post (expect (slice bytes first last) ≫= f) Q (fun _ => True).
Proof. intros H1 H2 Hf. destruct (slice_ok bytes first last H1 H2) as (s & -> & _). apply Hf. Qed.

Lemma post_read_u32 {B} bytes offset (f : N -> result FormatError.t B) Q :
  offset + 4 <= lenN bytes -> (forall n, post (f n) Q (fun _ => True)) ->
  post (read_u32 bytes offset ≫= f) Q (fun _ => True).
Proof.
  intros H Hf. unfold read_u32. destruct (slice_ok bytes offset (offset + 4)) as (s & -> & _); [lia..|].
  apply Hf.
Qed.

Lemma post_read_u64 {B} bytes offset (f : N -> result FormatError.t B) Q :
  offset + 8 <= lenN bytes -> (forall n, post (f n) Q (fun _ => True)) ->
  post (read_u64 bytes offset ≫= f) Q (fun _ => True).
Proof.
  intros H Hf. unfold read_u64. destruct (slice_ok bytes offset (offset + 8)) as (s & -> & _); [lia..|].
  apply Hf.
Qed.

Lemma parse_verified_spec r bytes :
  post (PageTable.parse_verified sha256 r bytes)
    (fun t => table_ok r t /\ PageTable.bytes t = bytes) (fun _ => True).
Proof.
  unfold PageTable.parse_verified. apply post_bind, post_guard; [done|]. intros Hw%N.ltb_ge.
  apply post_bind, post_guard; [done|]. intros _. apply post_bind, post_guard; [done|].
  intros Hd%negb_false_iff%N.eqb_eq. apply post_bind, post_guard; [done|]. intros Hh%N.ltb_ge.
  unfold PAGE_TABLE_HEADER_BYTES in Hh. apply post_slice; [lia..|]. intros magic.
  apply post_bind, post_guard; [done|]. intros _. apply post_read_u32; [lia|]. intros version.
  apply post_bind, post_guard; [done|]. intros _. apply post_read_u32; [lia|]. intros page_size.
  apply post_bind, post_guard; [done|]. intros Hp%negb_false_iff%N.eqb_eq. apply post_read_u64; [lia|].
  intros object_length. apply post_bind, post_guard; [done|]. intros Ho%negb_false_iff%N.eqb_eq.
  apply post_read_u64; [lia|]. intros page_count.
  apply post_bind. apply post_safe; [apply safe_page_count|]. intros expected [_ He]%page_count_ok.
  apply post_bind, post_guard; [done|]. intros Hc%negb_false_iff%N.eqb_eq. apply post_slice; [lia..|].
  intros header. apply post_bind, post_guard; [done|]. intros _. apply post_option. intros len Hlen.
  apply post_bind, post_guard; [done|]. intros Hl%negb_false_iff%N.eqb_eq. split; [|done].
  destruct (checked_mul u64_max page_count 32) as [h|] eqn:Eh; [|done]. apply checked_mul_Some in Eh as [-> _].
  apply checked_add_Some in Hlen as [-> _]. split; simpl; try done; [lia | congruence].
Qed.

(** Every page of the table has its 32-byte hash. *)
Lemma page_hash_some r t i :
  table_ok r t -> i < PageTable.page_count t ->
  exists h, PageTable.page_hash t i = Some h /\ length h = 32%nat
    /\ h = take 32 (drop (N.to_nat (64 + 32 * i)) (PageTable.bytes t)).
Proof.
  intros Ht Hi. pose proof (tb_length _ _ Ht) as Hlen. pose proof (tb_width _ _ Ht) as Hw.
  unfold PageTable.page_hash. rewrite (proj2 (N.leb_gt _ _) Hi).
  unfold checked_mul, checked_add, usize_max, PAGE_TABLE_HEADER_BYTES.
  rewrite (proj2 (N.leb_le (i * 32) u64_max)) by lia. simpl.
  rewrite (proj2 (N.leb_le (i * 32 + 64) u64_max)) by lia. simpl.
  rewrite (proj2 (N.leb_le (i * 32 + 64 + 32) u64_max)) by lia. simpl.
  destruct (slice_ok (PageTable.bytes t) (i * 32 + 64) (i * 32 + 64 + 32)) as (h & -> & Hh & E); [lia..|].
  exists h. split; [done|]. split; [unfold lenN in Hh; lia|].
  rewrite E. f_equal; [lia|]. f_equal. lia.
Qed.

(** * Objects *)

Record object_verified (r : ObjectRecord.t) (o : VerifiedObject.t) : Prop := {
  ov_length : lenN (VerifiedObject.bytes o) = ObjectRecord.length r;
  ov_digest : sha256 (VerifiedObject.bytes o) = ObjectRecord.digest r;
  ov_table : table_ok r (VerifiedObject.page_table o);
  ov_pages : forall i, i < PageTable.page_count (VerifiedObject.page_table o) ->
    PageTable.page_hash (VerifiedObject.page_table o) i
    = Some (Digest.as_bytes (sha256 (page_bytes (ObjectRecord.page_size r) i (VerifiedObject.bytes o))))
}.

Lemma verify_pages_spec t r pages :
  post (try_fold (PageTable.verify_page sha256 t r) 0 pages)
    (fun _ => forall i page, pages !! i = Some page ->
       PageTable.page_hash t (N.of_nat i) = Some (Digest.as_bytes (sha256 page))) (fun _ => True).
Proof.
  eapply post_strengthen.
  { apply (post_try_fold _ _ (fun dn n => n = lenN dn /\ forall i page, dn !! i = Some page ->
      PageTable.page_hash t (N.of_nat i) = Some (Digest.as_bytes (sha256 page)))).
    - split; [done|]. intros i page Hp. by rewrite lookup_nil in Hp.
    - intros dn page rest n _ [-> IH]. unfold PageTable.verify_page.
      apply post_bind, post_guard; [done|]. intros Hp%bool_decide_eq_false%dec_stable.
      split; [unfold lenN; rewrite length_app; simpl; lia|]. intros i page' Hi.
      apply lookup_app_Some in Hi as [Hi|[Hge Hi]]; [by apply IH|].
      apply list_lookup_singleton_Some in Hi as [Hz <-]. unfold lenN in Hp. by replace i with (length dn) by lia. }
  by intros n [_ H].
Qed.

Lemma verify_object_spec r t bytes :
  0 < ObjectRecord.page_size r -> table_ok r t ->
  post (PageTable.verify_object sha256 t r bytes)
    (fun _ => object_verified r (VerifiedObject.mk bytes t)) (fun _ => True).
Proof.
  intros Hps Ht. unfold PageTable.verify_object. apply post_bind, post_guard; [done|]. intros _.
  apply post_bind, post_guard; [done|]. intros Hl%negb_false_iff%N.eqb_eq.
  apply post_bind, post_guard; [done|]. intros Hd%negb_false_iff%N.eqb_eq.
  apply post_bind, post_guard; [done|]. intros _. rewrite (tb_page_size _ _ Ht).
  destruct (N.eqb_spec (ObjectRecord.page_size r) 0); [lia|]. cbn [mbind result_bind].
  apply post_bind. eapply post_strengthen; [apply verify_pages_spec|]. intros count Hpages.
  split; simpl; [done | done | done|]. intros i Hi. rewrite <- (N2Nat.id i) at 1. apply Hpages.
  rewrite (tb_page_count _ _ Ht), (ceiling_spec _ _ _ Hps) in Hi.
  rewrite chunks_lookup by lia. unfold lenN in Hl. rewrite decide_True by lia.
  unfold page_bytes. do 2 f_equal. f_equal. lia.
Qed.

(** * Artifacts *)

Lemma verify_record_spec s r :
  0 < ObjectRecord.page_size r ->
  post (Artifact.verify_record sha256 s r)
    (fun s' => exists o, object_verified r o /\ s'.2 = <[ObjectRecord.digest r := o]> s.2) (fun _ => True).
Proof.
  intros Hps. destruct s as [[object_bytes table_bytes] objects]. unfold Artifact.verify_record.
  apply post_option. intros table _.
  apply post_bind. eapply post_strengthen; [apply parse_verified_spec|]. intros t [Ht _].
  apply post_option. intros bytes _.
  apply post_bind. eapply post_strengthen; [by apply verify_object_spec|]. intros [] Hv.
  by exists (VerifiedObject.mk bytes t).
Qed.

Definition all_verified (records : list ObjectRecord.t) (objects : gmap N VerifiedObject.t) : Prop :=
  forall r, r ∈ records -> exists o, objects !! ObjectRecord.digest r = Some o /\ object_verified r o.

Lemma verify_records_spec object_bytes table_bytes records :
  Forall (fun r => 0 < ObjectRecord.page_size r) records -> NoDup (ObjectRecord.digest <$> records) ->
  post (try_fold (Artifact.verify_record sha256) (object_bytes, table_bytes, ∅) records)
    (fun s => all_verified records s.2) (fun _ => True).
Proof.
  intros Hps Hnd. apply (post_try_fold _ _ (fun dn s => all_verified dn s.2)).
  - intros r Hr. by apply elem_of_nil in Hr.
  - intros dn r rest s -> IH. rewrite Forall_forall in Hps.
    eapply post_strengthen; [apply verify_record_spec, Hps; set_solver|]. intros s' (o & Ho & ->) r' Hr'.
    rewrite fmap_app in Hnd. apply NoDup_app in Hnd as (_ & Hnd & _).
    apply elem_of_app in Hr' as [Hr'| ->%list_elem_of_singleton].
    + rewrite lookup_insert_ne; [by apply IH|]. intros E. apply (Hnd (ObjectRecord.digest r')).
      * by apply list_elem_of_fmap_2.
      * rewrite <- E. simpl. by left.
    + rewrite lookup_insert_eq. by exists o.
Qed.

(** The bytes the eager loader retains. *)
Definition retained (m : Manifest.t) : N :=
  lenN (Manifest.canonical_bytes m)
  + sumN (fun r => ObjectRecord.length r + ObjectRecord.page_table_length r) (Manifest.objects m).

Lemma required_eager_spec m :
  post (required_eager_bytes m) (fun n => n = retained m) (fun _ => True).
Proof.
  unfold required_eager_bytes, retained. apply post_bind, post_guard; [done|]. intros _.
  apply (post_try_fold _ _ (fun dn n => n = lenN (Manifest.canonical_bytes m)
    + sumN (fun r => ObjectRecord.length r + ObjectRecord.page_table_length r) dn)); [simpl; lia|].
  intros dn r rest n _ ->. destruct (checked_add u64_max _ (ObjectRecord.length r)) as [v|] eqn:Ev; [|done].
  apply checked_add_Some in Ev as [-> _]. cbn [mbind option_bind].
  destruct (checked_add u64_max _ (ObjectRecord.page_table_length r)) as [w|] eqn:Ew; [|done].
  apply checked_add_Some in Ew as [-> _]. simpl. rewrite sumN_app. simpl. lia.
Qed.

Lemma ensure_budget_spec m limits :
  post (ensure_eager_budget m limits) (fun _ => retained m <= Limits.eager_memory_bytes limits)
    (fun _ => True).
Proof.
  unfold ensure_eager_budget. apply post_bind. eapply post_strengthen; [apply required_eager_spec|].
  intros n ->. apply post_guard; [done|]. by intros ?%N.ltb_ge.
Qed.

Record artifact_ok (limits : Limits.t) (a : Artifact.t) : Prop := {
  ar_manifest : manifest_ok limits (Artifact.manifest a);
  ar_objects : all_verified (Manifest.objects (Artifact.manifest a)) (Artifact.objects a);
  ar_retained : Artifact.retained_payload_bytes a = retained (Artifact.manifest a);
  ar_budget : Artifact.retained_payload_bytes a <= Limits.eager_memory_bytes limits
}.

Lemma StronglySorted_NoDup (l : list N) : StronglySorted N.lt l -> NoDup l.
Proof.
  induction 1 as [|x l _ IH Hx]; constructor; [|done]. intros Hin.
  rewrite Forall_forall in Hx. specialize (Hx x Hin). lia.
Qed.

(** A value is found by a key that no other value has. *)
Lemma NoDup_fmap_eq {A B} (f : A -> B) l x y : NoDup (f <$> l) -> x ∈ l -> y ∈ l -> f x = f y -> x = y.
Proof.
  induction l as [|z l IH]; intros Hnd Hx Hy E; [by apply elem_of_nil in Hx|].
  rewrite fmap_cons in Hnd. apply NoDup_cons in Hnd as [Hz Hnd].
  apply elem_of_cons in Hx as [-> |Hx], Hy as [-> |Hy]; [done | | | by apply IH].
  - destruct Hz. rewrite E. by apply list_elem_of_fmap_2.
  - destruct Hz. rewrite <- E. by apply list_elem_of_fmap_2.
Qed.

Lemma page_size_positive limits r : object_ok limits r -> 0 < ObjectRecord.page_size r.
Proof. intros H. pose proof (ob_page_size _ _ H). unfold MIN_PAGE_SIZE in *. lia. Qed.

Lemma verify_loaded_spec m object_bytes table_bytes limits :
  manifest_ok limits m ->
  post (Artifact.verify_loaded sha256 m object_bytes table_bytes limits)
    (fun a => artifact_ok limits a /\ Artifact.manifest a = m) (fun _ => True).
Proof.
  intros Hm. destruct (ma_objects _ _ Hm) as [Hall Hsort _ _ _]. unfold Artifact.verify_loaded.
  apply post_bind. eapply post_strengthen; [apply ensure_budget_spec|]. intros [] Hbudget.
  apply post_bind. eapply post_strengthen.
  { apply verify_records_spec; [|by apply StronglySorted_NoDup].
    eapply Forall_impl; [exact Hall|]. intros r. apply page_size_positive. }
  intros [[? ?] objects] Hobjects. apply post_bind.
  eapply post_strengthen; [apply required_eager_spec|]. intros n ->. by split; [split|].
Qed.

Lemma from_bytes_spec from_slice parts limits expected :
  post (Artifact.from_bytes_internal sha256 from_slice parts limits expected)
    (fun a => artifact_ok limits a
       /\ parsed_manifest sha256 (ArtifactBytes.manifest parts) limits (Artifact.manifest a)
       /\ (forall id, expected = Some id -> Manifest.artifact_id (Artifact.manifest a) = id))
    (fun _ => True).
Proof.
  unfold Artifact.from_bytes_internal. apply post_bind.
  eapply post_mono; [apply limits_validate_spec | intros ? [-> Hlimits] | done].
  apply post_bind. apply (post_strengthen _ (fun m => parsed_manifest sha256 (ArtifactBytes.manifest parts) limits m
    /\ forall id, expected = Some id -> Manifest.artifact_id m = id)).
  { destruct expected as [id|].
    - eapply post_strengthen; [apply parse_with_expected_id_spec|]. intros m [Hm Hid].
      split; [done|]. intros ? [= <-]. by rewrite (pm_id _ _ _ _ Hm).
    - eapply post_strengthen; [apply parse_with_limits_spec|]. by intros m Hm. }
  intros m [Hm Hid]. apply post_bind. eapply post_strengthen; [apply ensure_budget_spec|]. intros [] _.
  eapply post_strengthen; [apply verify_loaded_spec, Hm|]. by intros a [Ha ->].
Qed.
End sha256.

(** * Tensors of a verified artifact *)

Section tensors.
Context (sha256 : list N -> Digest) (limits : Limits.t) (a : Artifact.t).
Context (Hlimits : limits_ok limits) (Ha : artifact_ok sha256 limits a).

(** The declared bytes of a tensor: its range of its verified object. *)
Definition tensor_slice (t : TensorRecord.t) (bytes : list N) : Prop :=
  exists o, Artifact.objects a !! TensorRecord.object t = Some o
    /\ lenN bytes = TensorRecord.length t
    /\ bytes = take (N.to_nat (TensorRecord.length t))
                 (drop (N.to_nat (TensorRecord.offset t)) (VerifiedObject.bytes o)).

Lemma tensor_bytes_spec i t :
  Manifest.tensors (Artifact.manifest a) !! i = Some t ->
  exists bytes, Artifact.tensor_bytes a (TensorRecord.id t) = Some bytes /\ tensor_slice t bytes.
Proof.
  intros Hi. destruct (ma_tensors _ _ (ar_manifest _ _ _ Ha)) as [Heach Hids _].
  rewrite Forall_forall in Heach. pose proof (Heach t (list_elem_of_lookup_2 _ _ _ Hi)) as Ht.
  destruct (te_object _ _ Ht) as (r & Hr & Hd & Hle).
  destruct (ar_objects _ _ _ Ha r Hr) as (o & Ho & Hv). rewrite Hd in Ho.
  pose proof (os_each _ _ (ma_objects _ _ (ar_manifest _ _ _ Ha))) as Hobj. rewrite Forall_forall in Hobj.
  pose proof (ob_length _ _ (Hobj r Hr)) as Hlen. pose proof (li_object _ Hlimits) as Hmax.
  assert (FORMAT_OBJECT_BYTES <= u64_max) as Hwidth by (vm_compute; discriminate).
  unfold Artifact.tensor_bytes. rewrite (Hids i t Hi), Nat2N.id, Hi. cbn [mbind option_bind].
  rewrite (Hids i t Hi), N.eqb_refl. cbn [negb]. rewrite Ho. cbn [mbind option_bind].
  unfold checked_add. rewrite (proj2 (N.leb_le _ _)) by lia.
  destruct (slice_ok (VerifiedObject.bytes o) (TensorRecord.offset t)
              (TensorRecord.offset t + TensorRecord.length t)) as (s & E & Hs & Es);
    [lia | rewrite (ov_length _ _ _ Hv); lia|].
  exists s. split; [done|]. exists o. split; [done|]. split; [lia|]. rewrite Es. f_equal. lia.
Qed.

Lemma tensor_by_role_spec t :
  t ∈ Manifest.tensors (Artifact.manifest a) ->
  exists bytes, Artifact.tensor_by_role a (TensorRecord.role t) = Some (t, bytes) /\ tensor_slice t bytes.
Proof.
  intros Hin. pose proof (ts_roles _ _ (ma_tensors _ _ (ar_manifest _ _ _ Ha))) as Hnd.
  assert (tensor_by_role (Artifact.manifest a) (TensorRecord.role t) = Some t) as Hfind.
  { unfold tensor_by_role. revert Hin Hnd. generalize (Manifest.tensors (Artifact.manifest a)).
    induction l as [|u l IH]; intros Hin Hnd; [by apply elem_of_nil in Hin|].
    rewrite fmap_cons in Hnd. apply NoDup_cons in Hnd as [Hu Hnd]. simpl.
    case_bool_decide as E.
    - apply elem_of_cons in Hin as [-> |Hin]; [done|]. destruct Hu. rewrite E. by apply list_elem_of_fmap_2.
    - apply elem_of_cons in Hin as [-> |Hin]; [done|]. by apply IH. }
  apply list_elem_of_lookup in Hin as [i Hi]. destruct (tensor_bytes_spec i t Hi) as (bytes & Hb & Hs).
  exists bytes. unfold Artifact.tensor_by_role. rewrite Hfind. cbn [mbind option_bind]. by rewrite Hb.
Qed.
End tensors.

Module Demo.
(** A 256-bit polynomial checksum. *)
Definition sha256 (bytes : list N) : Digest :=
  foldl (fun acc b => (acc * 257 + b + 1) mod 2 ^ 256) 7 bytes.

Definition object_bytes : list N := [10; 20; 30; 40; 50; 60].
Definition object_digest : Digest := sha256 object_bytes.
Definition page_size : N := 65536.

Definition table_bytes : list N :=
  PAGE_TABLE_MAGIC ++ to_le_bytes 4 1 ++ to_le_bytes 4 page_size ++ to_le_bytes 8 (lenN object_bytes)
  ++ to_le_bytes 8 1 ++ Digest.as_bytes object_digest ++ Digest.as_bytes (sha256 object_bytes).

Definition text_of (d : Digest) : JsonValue := String_ (Digest.to_string d).

Definition tensor (id offset length : N) (role : string) : JsonValue :=
  Object [("dtype", String_ "u8"); ("id", Integer id); ("length", Integer length);
          ("object", text_of object_digest); ("offset", Integer offset); ("role", String_ role);
          ("shape", Array [Integer length])].

Definition document : JsonValue :=
  Object
    [("adapter", Object [("id", String_ "runnel.tiny-causal-moe"); ("version", Integer 1)]);
     ("format", String_ "rmoa");
     ("model", Object [("context_length", Integer 8); ("expert_hidden_size", Integer 4);
                       ("hidden_size", Integer 4); ("num_experts", Integer 2); ("num_heads", Integer 2);
                       ("num_layers", Integer 1); ("top_k", Integer 1); ("vocab_size", Integer 16)]);
     ("objects", Array [Object [("digest", text_of object_digest); ("length", Integer (lenN object_bytes));
                                ("page_size", Integer page_size);
                                ("page_table", text_of (sha256 table_bytes));
                                ("page_table_length", Integer (lenN table_bytes))]]);
     ("tensors", Array [tensor 0 0 4 "embed"; tensor 1 4 2 "head"]);
     ("tokenizer", Object [("id", String_ "bytes"); ("version", Integer 1); ("vocab_size", Integer 16)]);
     ("version", Integer 1)].

Definition manifest_bytes : list N := canonical_bytes document.

(** The deserializer: the manifest's own calls for the manifest, a syntax error
    for anything else. *)
Definition from_slice (bytes : list N) : Token * option SyntaxError :=
  if bool_decide (bytes = manifest_bytes) then (token_of document, None)
  else (Broken (Syntax 1 1 "expected value"), None).

Definition limits : Limits.t := Limits.mk 65536 16 16 4096 4096 4096 4096 65536.

Definition parts : ArtifactBytes.t :=
  ArtifactBytes.mk manifest_bytes {[object_digest := object_bytes]} {[sha256 table_bytes := table_bytes]}.
End Demo.
