(* ===== verification/FormatContract.v ===== *)
(** What the artifact format promises: the JSON policy, the canonical text, the
    digests, the manifest and the verified artifact. *)
From stdpp Require Import prelude gmap strings pretty sorting.
From S2P Require Import Prelude Decimal Format FormatJsonFacts FormatManifest FormatDigest.
From S2P Require Import FormatSchema FormatExact FormatArtifact FormatVerify.
#[local] Open Scope N_scope.

(** C34: The visitor accepts exactly the documents of the policy.  Whatever calls
    the deserializer makes, a visit does not panic, and it returns a document if
    and only if the calls describe it (no null, no float, no syntax error, map keys
    distinct, entries sorted by key) and it keeps the limits on depth, collection
    sizes, integers and strings. *)
Theorem json_policy_exact depth t v :
  visit depth t <> Panic /\ (visit depth t = Ok v <-> reads t v /\ json_ok depth v = true).
Proof.
  pose proof (visit_sound t depth) as H. unfold accepts in H. split; [by intros E; rewrite E in H|]. split.
  - intros E. split; [by eapply visit_reads|]. by rewrite E in H.
  - intros [? ?]. by apply reads_visit.
Qed.

(** C36: The canonical text is unambiguous and reads back: a text is the canonical
    form of at most one document, and a document within the policy that the
    deserializer reads call by call parses to itself. *)
Theorem canonical_json_roundtrip from_slice v
    (Hok : json_ok 1 v = true) (Hread : from_slice (canonical_bytes v) = (token_of v, None)) :
  parse from_slice (canonical_bytes v) = Ok v
  /\ forall w, canonical_bytes w = canonical_bytes v -> w = v.
Proof.
  split.
  - unfold parse. rewrite Hread. by rewrite (visit_complete _ _ Hok).
  - intros w E. by destruct (value_readable w v [10] [10] E) as [-> _]; [unfold stops, digit; lia..|].
Qed.

Lemma canonical_json_roundtrip_witness :
  json_ok 1 Demo.document = true
  /\ parse Demo.from_slice (canonical_bytes Demo.document) = Ok Demo.document.
Proof.
  split; [vm_compute; reflexivity|].
  apply (canonical_json_roundtrip Demo.from_slice Demo.document); [vm_compute; reflexivity|].
  unfold Demo.from_slice. by rewrite bool_decide_eq_true_2.
Defined.

(** Digest texts and digests are in bijection: a text parses to a value
    exactly when it is the text written for that 256-bit value. *)
Theorem digest_text_roundtrip d s :
  Digest.from_str s = Ok d <-> d < 2 ^ 256 /\ Digest.to_string d = s.
Proof. split; [apply to_from_string | intros [? <-]; by apply from_to_string]. Qed.

(** Lookup of an object record by its digest. *)
Lemma object_lookup limits m d :
  manifest_ok limits m ->
  exists found, object m d = Ok found
    /\ forall r, found = Some r <-> r ∈ Manifest.objects m /\ ObjectRecord.digest r = d.
Proof.
  intros Hm. pose proof (os_sorted _ _ (ma_objects _ _ Hm)) as Hs. unfold object.
  pose proof (binary_search_spec _ d Hs) as Hb.
  destruct (binary_search _ d) as [[i|]|e|]; [| |done..]; cbn [mbind result_bind].
  - apply list_lookup_fmap_Some in Hb as (r & -> & Hr). rewrite Hr. exists (Some r). split; [done|].
    intros r'. split.
    + intros [= <-]. split; [by eapply list_elem_of_lookup_2 | done].
    + intros [Hin E]. f_equal. eapply (NoDup_fmap_eq ObjectRecord.digest);
        [by apply StronglySorted_NoDup | by eapply list_elem_of_lookup_2 | done..].
  - exists None. split; [done|]. intros r. split; [done|]. intros [Hin <-].
    destruct Hb. by apply list_elem_of_fmap_2.
Qed.

(** C29: What the manifest parser accepts.  It never panics; an accepted manifest
    is canonical JSON within the limits, its identifier is the digest of its
    bytes, object digests strictly increase and page-table digests are distinct,
    lengths, page sizes and table lengths agree, the aggregate limits hold, tensor
    ids are their positions and roles are unique, every tensor has the length of
    its shape and lies aligned in its object, and every byte of every object is in
    exactly one tensor.  Looking an object up by digest finds exactly the declared
    record. *)
Theorem manifest_sound sha256 from_slice bytes limits :
  post (parse_with_limits sha256 from_slice bytes limits)
    (fun m => parsed_manifest sha256 bytes limits m
       /\ forall d, exists found, object m d = Ok found
            /\ forall r, found = Some r <-> r ∈ Manifest.objects m /\ ObjectRecord.digest r = d)
    (fun _ => True).
Proof.
  eapply post_strengthen; [apply parse_with_limits_spec|]. intros m Hm. split; [done|].
  intros d. apply (object_lookup limits), Hm.
Qed.

(** When the deserializer reads a canonical text as the calls of its document, the
    accepted manifests are exactly described: within valid limits the bytes are the
    canonical text of a well-formed manifest, of at most the limit's length, and the
    parsed manifest is that one with its identifier and its bytes. *)
Theorem manifest_exact sha256 from_slice bytes limits m
    (Hread : forall v, canonical_bytes v = bytes -> from_slice bytes = (token_of v, None)) :
  parse_with_limits sha256 from_slice bytes limits = Ok m <->
  limits_ok limits /\ manifest_ok limits m /\ texts_ok m /\ bytes = canonical_bytes (manifest_document m)
  /\ lenN bytes <= Limits.manifest_bytes limits
  /\ Manifest.artifact_id m = sha256 bytes /\ Manifest.canonical_bytes m = bytes.
Proof.
  split.
  - intros H. pose proof (parse_with_limits_spec sha256 from_slice bytes limits) as Hp. rewrite H in Hp.
    destruct (manifest_text _ _ _ _ _ H) as [Ht Htx]. by destruct Hp.
  - intros (Hl & Hm & Htx & -> & Hs & Hid & Hc).
    rewrite (manifest_complete limits Hl sha256 from_slice m); [|done..|by apply Hread].
    f_equal. rewrite <- Hid, <- Hc. by destruct m.
Qed.

(** C30: What verification of a whole artifact gives.  It never panics; when it
    succeeds the manifest is accepted and has the expected identifier, every
    declared object has its declared length and digest, every page of it has the
    digest that the authenticated page table lists, the retained bytes are within
    the memory budget, and every declared tensor, by id and by role, is exactly
    its declared range of its verified object. *)
Theorem artifact_verified sha256 from_slice parts limits expected :
  post (Artifact.from_bytes_internal sha256 from_slice parts limits expected)
    (fun a => parsed_manifest sha256 (ArtifactBytes.manifest parts) limits (Artifact.manifest a)
       /\ (forall id, expected = Some id -> Manifest.artifact_id (Artifact.manifest a) = id)
       /\ artifact_ok sha256 limits a
       /\ forall t, t ∈ Manifest.tensors (Artifact.manifest a) ->
            exists bytes, Artifact.tensor_bytes a (TensorRecord.id t) = Some bytes
              /\ Artifact.tensor_by_role a (TensorRecord.role t) = Some (t, bytes)
              /\ tensor_slice a t bytes)
    (fun _ => True).
Proof.
  eapply post_strengthen; [apply from_bytes_spec|]. intros a (Ha & Hm & Hid).
  split; [done|]. split; [done|]. split; [done|]. intros t Ht.
  pose proof Ht as [i Hi]%list_elem_of_lookup. pose proof (pm_limits _ _ _ _ Hm) as Hl.
  destruct (tensor_bytes_spec sha256 limits a Hl Ha i t Hi) as (bytes & Hb & Hs).
  exists bytes. split; [done|]. split; [|done].
  destruct (tensor_by_role_spec sha256 limits a Hl Ha t Ht) as (bytes' & Hb' & (o & Ho & _ & ->)).
  rewrite Hb'. destruct Hs as (o' & Ho' & _ & ->). by simplify_eq.
Qed.

(** The demonstration artifact is accepted. *)
Example demo_accepted :
  match Artifact.from_bytes_internal Demo.sha256 Demo.from_slice Demo.parts Demo.limits None with
  | Ok a => Artifact.tensor_bytes a 1 = Some [50; 60]
  | _ => False
  end.
Proof. vm_compute. reflexivity. Qed.
