(* ===== verification/Store.v ===== *)
(** Data and small components of the storage crate (crates/runnel-store/src):
    errors, cancellation, the disk budget, page identities, the trace sink, the
    atomic metrics, the cache configuration and the bounded reader queue. *)
From stdpp Require Import prelude gmap strings sorting.
From S2P Require Import Prelude Format.
#[local] Open Scope N_scope.

(** error.rs: [StoreError]; the [io::ErrorKind] of [Io] is its name. *)
Inductive StoreError : Type :=
| InvalidConfig (field problem : string)
| ResourceExhausted (resource : string) (required limit : N)
| QueueFull
| Shutdown
| Cancelled
| DeadlineExceeded
| UnsafeLayout (kind : string)
| Missing (kind : string)
| AlreadyExists (kind : string)
| LengthMismatch (kind : string) (expected actual : N)
| Integrity (kind : string)
| PageOutOfRange (index count : N)
| InvalidResumeToken
| ResumeMismatch (field : string)
| BudgetExceeded (required limit : N)
| FilesystemReserve (required available reserve : N)
| PublishedButDurabilityUnconfirmed (kind : string)
| ArithmeticOverflow (context : string)
| Io (operation kind : string)
| Format_ (source : FormatError.t)
| Invariant (problem : string).
#[export] Instance StoreError_eq_dec : EqDecision StoreError.
Proof. solve_decision. Defined.

(** [Control] of one request: the token's flag and whether the deadline passed. *)
Module Control.
Record t : Type := mk { cancelled : bool; elapsed : bool }.
Definition check (c : t) : result StoreError unit :=
  _ ← guard_err (cancelled c) Cancelled;
  guard_err (elapsed c) DeadlineExceeded.
End Control.

Module DiskUsage.
Record t : Type := mk {
  final_bytes : N; staging_bytes : N; available_bytes : N; allocation_unit : N
}.
Definition total_bytes (u : t) : N := saturating_add u64_max (final_bytes u) (staging_bytes u).
Definition checked_total_bytes (u : t) : result StoreError N :=
  ok_or (checked_add u64_max (final_bytes u) (staging_bytes u))
    (ArithmeticOverflow "summing CAS disk usage").
Definition round_up (u : t) (bytes : N) : result StoreError N :=
  let unit := N.max (allocation_unit u) 1 in
  let remainder := bytes mod unit in
  if remainder =? 0 then Ok bytes
  else ok_or (checked_add u64_max bytes (unit - remainder))
         (ArithmeticOverflow "rounding planned disk allocation").
End DiskUsage.

Module DiskBudget.
Record t : Type := mk { max_bytes : N; reserve_bytes : N }.
Definition default : t := mk (2 * 1024 * 1024 * 1024) (2 * 1024 * 1024 * 1024).
Definition validate (b : t) : result StoreError t :=
  _ ← guard_err (max_bytes b =? 0) (InvalidConfig "disk_budget.max_bytes" "must be nonzero");
  Ok b.
Definition preflight (b : t) (usage : DiskUsage.t) (additional_bytes : N) : result StoreError unit :=
  total ← DiskUsage.checked_total_bytes usage;
  required ← ok_or (checked_add u64_max total additional_bytes)
    (ArithmeticOverflow "adding CAS disk usage");
  _ ← guard_err (max_bytes b <? required) (BudgetExceeded required (max_bytes b));
  let remaining := saturating_sub (DiskUsage.available_bytes usage) (reserve_bytes b) in
  guard_err (remaining <? additional_bytes)
    (FilesystemReserve additional_bytes (DiskUsage.available_bytes usage) (reserve_bytes b)).
End DiskBudget.

Definition PAGE_BUFFER_ALIGNMENT : N := 64.
Definition aligned_page_buffer_bytes (length : N) : result StoreError N :=
  if length =? 0 then Ok 0
  else
    v ← ok_or (checked_add u64_max length (PAGE_BUFFER_ALIGNMENT - 1))
          (ArithmeticOverflow "aligning a page-buffer allocation");
    Ok (v / PAGE_BUFFER_ALIGNMENT * PAGE_BUFFER_ALIGNMENT).

(** A digest is its 256-bit value: the byte order of [Digest] is big-endian, so
    the derived order is the numeric one. *)
Module PageKey.
Record t : Type := mk { object : N; page_size : N; index : N }.
#[global] Instance eq_dec : EqDecision t.
Proof. solve_decision. Defined.
#[global] Instance countable : Countable t.
Proof.
  apply (inj_countable' (fun k => (object k, page_size k, index k))
           (fun '(o, s, i) => mk o s i)). by intros [].
Defined.
#[global] Instance key : SortKey t :=
  fun k => [Z.of_N (object k); Z.of_N (page_size k); Z.of_N (index k)].
#[global] Instance key_inj : SortKeyInj t.
Proof. intros [] [] [= H1 H2 H3]. f_equal; lia. Qed.
End PageKey.
Abbreviation PageKey := PageKey.t.

(** The binding of a key to a byte range; the retained object is not used by
    the cache. *)
Module PageSpec.
Record t : Type := mk { key : PageKey; offset : N; length : N; fingerprint : N }.
Definition allocation_bytes (s : t) : result StoreError N := aligned_page_buffer_bytes (length s).
End PageSpec.

Module VerifiedPage.
Record t : Type := mk { key : PageKey; bytes : list N; capacity : N }.
#[global] Instance eq_dec : EqDecision t.
Proof. solve_decision. Defined.
Definition allocation_bytes (p : t) : N := N.min (capacity p) u64_max.
End VerifiedPage.

Inductive AccessReason : Set := Demand | Prefetch.
#[export] Instance AccessReason_eq_dec : EqDecision AccessReason.
Proof. solve_decision. Defined.

Module TraceOutcome.
Inductive t : Set :=
| Hit | Miss | LoadStarted | LoadCoalesced | LatePrefetch | PrefetchCoalesced | Admitted_ | Evicted
| Retired | LoadFailed | Cancelled | PrefetchUseful | PrefetchWasted | PrefetchRedundant
| PrefetchDropped.
#[global] Instance eq_dec : EqDecision t.
Proof. solve_decision. Defined.
End TraceOutcome.

(** One call of [TraceSink::record]. *)
Record TraceCall : Type := Call {
  outcome : TraceOutcome.t; reason : AccessReason; call_key : PageKey; call_bytes : N
}.

(** The bounded sink.  [record] reserves its sequence number before it tries the
    queue lock, so it is two atomic steps: [reserve], then [publish], which
    drops the event when the lock is busy or the queue is full. *)
Module TraceSink.
Definition MAX_CAPACITY : N := 65536.
Record event : Type := Event { sequence : N; call : TraceCall }.
Record t : Type := mk {
  capacity : N; next_sequence : N; dropped : N; events : list event
}.
Definition new (capacity : N) : t := mk (N.min capacity MAX_CAPACITY) 0 0 [].
Definition reserve (s : t) : N * t :=
  (next_sequence s,
   mk (capacity s) (wrapping_add u64_max (next_sequence s) 1) (dropped s) (events s)).
Definition publish (sequence : N) (call : TraceCall) (busy : bool) (s : t) : t :=
  if negb busy && (lenN (events s) <? capacity s)
  then mk (capacity s) (next_sequence s) (dropped s) (events s ++ [Event sequence call])
  else mk (capacity s) (next_sequence s) (saturating_add u64_max (dropped s) 1) (events s).
Definition drain (s : t) : list event * t :=
  (sort_by_key (fun e => [Z.of_N (sequence e)]) (events s),
   mk (capacity s) (next_sequence s) (dropped s) []).
End TraceSink.

(** [Metrics]: saturating counters, then the gauges [set_live] replaces. *)
Module Metrics.
Inductive metric : Set :=
| demand_bytes | prefetch_bytes | physical_read_bytes | hits | misses | admissions | evictions
| coalesced_demands | late_prefetches | coalesced_prefetches | useful_prefetches
| wasted_prefetches | redundant_prefetches | dropped_prefetches | wait_nanoseconds
| io_nanoseconds
| active_loads | page_pool_bytes | inflight_bytes | resident_bytes | retiring_bytes | leases.
#[global] Instance eq_dec : EqDecision metric.
Proof. solve_decision. Defined.
Definition t : Type := metric -> N.
Definition default : t := fun _ => 0.
Definition store (c : metric) (v : N) (m : t) : t := fun c' => if decide (c = c') then v else m c'.
Definition add (c : metric) (amount : N) (m : t) : t :=
  store c (saturating_add u64_max (m c) amount) m.
Definition increment (c : metric) (m : t) : t := add c 1 m.
Definition set_live (v_active v_pool v_inflight v_resident v_retiring v_leases : N) (m : t) : t :=
  store leases v_leases (store retiring_bytes v_retiring (store resident_bytes v_resident
    (store inflight_bytes v_inflight (store page_pool_bytes v_pool
      (store active_loads v_active m))))).
End Metrics.

Module CacheConfig.
Record t : Type := mk {
  page_pool_capacity : N;
  max_page_bytes : N;
  max_inflight_bytes : N;
  max_entries : N;
  max_loads : N;
  max_waiters : N;
  max_waiters_per_page : N;
  max_leases : N;
  trace_capacity : N
}.
Definition MAX_ENTRIES : N := 1048576.
Definition MAX_LOADS : N := 4096.
Definition MAX_WAITERS : N := 1048576.
Definition MAX_WAITERS_PER_PAGE : N := 65536.
Definition MAX_LEASES : N := 1048576.

Definition validate (c : t) : result StoreError unit :=
  _ ← guard_err (page_pool_capacity c =? 0)
        (InvalidConfig "page_pool_capacity" "must be greater than zero");
  _ ← guard_err (max_page_bytes c =? 0)
        (InvalidConfig "max_page_bytes" "must be greater than zero");
  max_page_allocation ←
    match aligned_page_buffer_bytes (max_page_bytes c) with
    | Err _ => Err (InvalidConfig "max_page_bytes" "aligned supported-page allocation overflows")
    | r => r
    end;
  _ ← guard_err (page_pool_capacity c <? max_page_allocation)
        (InvalidConfig "max_page_bytes"
           "one aligned supported-page allocation must fit in the page pool");
  _ ← guard_err ((max_inflight_bytes c <? max_page_allocation)
                 || (page_pool_capacity c <? max_inflight_bytes c))
        (InvalidConfig "max_inflight_bytes"
           "must fit one aligned supported-page allocation and not exceed the page pool");
  _ ← try_fold (fun _ '(field, value) =>
         guard_err (value =? 0) (InvalidConfig field "must be greater than zero")) tt
       [("max_entries", max_entries c); ("max_loads", max_loads c);
        ("max_waiters", max_waiters c); ("max_waiters_per_page", max_waiters_per_page c);
        ("max_leases", max_leases c)];
  _ ← try_fold (fun _ '(field, value, ceiling) =>
         guard_err (ceiling <? value) (InvalidConfig field "exceeds the hard resource ceiling")) tt
       [("max_entries", max_entries c, MAX_ENTRIES); ("max_loads", max_loads c, MAX_LOADS);
        ("max_waiters", max_waiters c, MAX_WAITERS);
        ("max_waiters_per_page", max_waiters_per_page c, MAX_WAITERS_PER_PAGE);
        ("max_leases", max_leases c, MAX_LEASES);
        ("trace_capacity", trace_capacity c, TraceSink.MAX_CAPACITY)];
  _ ← guard_err (max_entries c <? max_loads c)
        (InvalidConfig "max_loads" "must not exceed the entry limit");
  guard_err (max_waiters c <? max_waiters_per_page c)
    (InvalidConfig "max_waiters_per_page" "must not exceed the global waiter limit").

Definition new (page_pool_capacity max_page_bytes : N) : result StoreError t :=
  let config := mk page_pool_capacity max_page_bytes page_pool_capacity 4096 4 4096 128 4096 1024 in
  _ ← validate config; Ok config.

Definition with_max_inflight_bytes (v : N) (c : t) : t :=
  mk (page_pool_capacity c) (max_page_bytes c) v (max_entries c) (max_loads c) (max_waiters c)
     (max_waiters_per_page c) (max_leases c) (trace_capacity c).
Definition with_max_entries (v : N) (c : t) : t :=
  mk (page_pool_capacity c) (max_page_bytes c) (max_inflight_bytes c) v (max_loads c)
     (max_waiters c) (max_waiters_per_page c) (max_leases c) (trace_capacity c).
Definition with_max_loads (v : N) (c : t) : t :=
  mk (page_pool_capacity c) (max_page_bytes c) (max_inflight_bytes c) (max_entries c) v
     (max_waiters c) (max_waiters_per_page c) (max_leases c) (trace_capacity c).
Definition with_waiter_limits (total per_page : N) (c : t) : t :=
  mk (page_pool_capacity c) (max_page_bytes c) (max_inflight_bytes c) (max_entries c) (max_loads c)
     total per_page (max_leases c) (trace_capacity c).
Definition with_max_leases (v : N) (c : t) : t :=
  mk (page_pool_capacity c) (max_page_bytes c) (max_inflight_bytes c) (max_entries c) (max_loads c)
     (max_waiters c) (max_waiters_per_page c) v (trace_capacity c).
Definition with_trace_capacity (v : N) (c : t) : t :=
  mk (page_pool_capacity c) (max_page_bytes c) (max_inflight_bytes c) (max_entries c) (max_loads c)
     (max_waiters c) (max_waiters_per_page c) (max_leases c) v.
Definition default : t :=
  mk (64 * 1024 * 1024) (2 * 1024 * 1024) (16 * 1024 * 1024) 4096 4 4096 128 4096 1024.
End CacheConfig.

(** [AsyncReaderConfig] and the bounded admission queue of [AsyncReader].  A
    request names the load it completes; workers move requests from the queue to
    [running] and run their completion. *)
Module AsyncReaderConfig.
Record t : Type := mk { worker_threads : N; queue_capacity : N }.
Definition MAX_WORKER_THREADS : N := 256.
Definition MAX_QUEUE_CAPACITY : N := 65536.
Definition new (worker_threads queue_capacity : N) : result StoreError t :=
  _ ← guard_err (worker_threads =? 0) (InvalidConfig "worker_threads" "must be greater than zero");
  _ ← guard_err (MAX_WORKER_THREADS <? worker_threads)
        (InvalidConfig "worker_threads" "exceeds the hard worker-thread ceiling");
  _ ← guard_err (queue_capacity =? 0) (InvalidConfig "queue_capacity" "must be greater than zero");
  _ ← guard_err (MAX_QUEUE_CAPACITY <? queue_capacity)
        (InvalidConfig "queue_capacity" "exceeds the hard queue-capacity ceiling");
  Ok (mk worker_threads queue_capacity).
End AsyncReaderConfig.

Module AsyncReader.
Record t : Type := mk {
  config : AsyncReaderConfig.t;
  accepting : bool;
  open_sender : bool;
  queue : list (PageKey * N);
  running : list (PageKey * N)
}.
Definition new (config : AsyncReaderConfig.t) : result StoreError t :=
  config ← AsyncReaderConfig.new (AsyncReaderConfig.worker_threads config)
             (AsyncReaderConfig.queue_capacity config);
  Ok (mk config true true [] []).
Definition close (r : t) : t := mk (config r) false false (queue r) (running r).
(** [submit]: the queue is never disconnected while its sender is open, since
    the workers keep the receiver until the channel closes. *)
Definition submit (request : PageKey * N) (r : t) : result StoreError t :=
  if negb (accepting r) then Err Shutdown
  else if negb (open_sender r) then Err Shutdown
  else if lenN (queue r) <? AsyncReaderConfig.queue_capacity (config r)
  then Ok (mk (config r) (accepting r) (open_sender r) (queue r ++ [request]) (running r))
  else Err QueueFull.
Definition submit_observed (request : PageKey * N) (control : Control.t) (r : t)
    : result StoreError t :=
  _ ← Control.check control; submit request r.
(** [worker_loop]: an idle worker receives the oldest request. *)
Definition receive (r : t) : option (PageKey * N * t) :=
  if AsyncReaderConfig.worker_threads (config r) <=? lenN (running r) then None
  else match queue r with
       | [] => None
       | request :: rest =>
           Some (request, mk (config r) (accepting r) (open_sender r) rest (request :: running r))
       end.
(** The worker's request is dropped once its completion returned. *)
Definition finished (request : PageKey * N) (r : t) : t :=
  mk (config r) (accepting r) (open_sender r) (queue r)
     (match list_find (eq request) (running r) with
      | Some (i, _) => delete i (running r)
      | None => running r
      end).
Definition pending (r : t) : list (PageKey * N) := queue r ++ running r.
End AsyncReader.
