(* ===== verification/StoreFacts.v ===== *)
(** The small storage components: what [CacheConfig::validate] accepts, page
    buffer alignment, disk rounding and the disk budget, the bounded trace sink
    and the bounded reader queue. *)
From stdpp Require Import prelude gmap strings sorting.
From S2P Require Import Prelude Store.
#[local] Open Scope N_scope.
#[local] Arguments u64_max : simpl never.

Lemma result_bind_assoc {E A B C} (m : result E A) (f : A -> result E B) (g : B -> result E C) :
  (m ≫= f) ≫= g = m ≫= (fun x => f x ≫= g).
Proof. by destruct m. Qed.

#[export] Instance lenN_perm {A} : Proper ((≡ₚ) ==> (=)) (@lenN A).
Proof. intros l l' H. unfold lenN. by rewrite H. Qed.

Lemma lenN_cons {A} (x : A) l : lenN (x :: l) = lenN l + 1.
Proof. unfold lenN. simpl. lia. Qed.

(** * Rounding up *)

(** [v] is the least multiple of [unit] that is at least [n]. *)
Definition least_multiple (unit n v : N) : Prop :=
  v mod unit = 0 /\ n <= v /\ forall v', v' mod unit = 0 -> n <= v' -> v <= v'.

Lemma least_multiple_intro unit n q :
  0 < unit -> n <= unit * q -> unit * q < n + unit -> least_multiple unit n (unit * q).
Proof.
  intros Hu H1 H2. split_and!; [rewrite N.mul_comm; apply N.Div0.mod_mul | done|].
  intros v' Hm Hle. apply N.Div0.mod_divides in Hm as [q' ->].
  apply N.mul_le_mono_l. destruct (N.le_gt_cases q q'); [done|]. nia.
Qed.

Lemma aligned_page_buffer_bytes_spec n :
  n <= u64_max ->
  post (aligned_page_buffer_bytes n)
    (fun v => least_multiple PAGE_BUFFER_ALIGNMENT n v)
    (fun e => (exists m, e = ArithmeticOverflow m) /\ u64_max < n + (PAGE_BUFFER_ALIGNMENT - 1)).
Proof.
  intros Hn. unfold aligned_page_buffer_bytes, PAGE_BUFFER_ALIGNMENT in *.
  destruct (N.eqb_spec n 0) as [->|Hn0].
  { simpl. split_and!; [done | done | lia]. }
  unfold checked_add. destruct (N.leb_spec (n + (64 - 1)) u64_max) as [Hle|Hgt]; cbn [ok_or mbind result_bind post].
  - rewrite N.mul_comm. pose proof (N.div_mod (n + (64 - 1)) 64 ltac:(done)) as Hd.
    pose proof (N.mod_upper_bound (n + (64 - 1)) 64 ltac:(done)) as Hr.
    generalize dependent ((n + (64 - 1)) / 64). generalize dependent ((n + (64 - 1)) mod 64).
    intros r Hr q Hd. apply least_multiple_intro; lia.
  - split; [eauto | done].
Qed.

Lemma round_up_spec usage bytes :
  bytes <= u64_max -> DiskUsage.allocation_unit usage <= u64_max ->
  let unit := N.max (DiskUsage.allocation_unit usage) 1 in
  post (DiskUsage.round_up usage bytes) (least_multiple unit bytes)
    (fun e => (exists m, e = ArithmeticOverflow m)
              /\ forall v, least_multiple unit bytes v -> u64_max < v).
Proof.
  intros Hb Hu unit. unfold DiskUsage.round_up. fold unit. assert (0 < unit) as Hpos by lia.
  clearbody unit.
  pose proof (N.div_mod bytes unit ltac:(lia)) as Hd. pose proof (N.mod_upper_bound bytes unit ltac:(lia)) as Hr.
  revert Hd Hr. generalize (bytes / unit) (bytes mod unit). intros q r Hd Hr.
  destruct (N.eqb_spec r 0) as [Hz|Hz]; simpl.
  { replace bytes with (unit * q) at 2 by lia. apply least_multiple_intro; lia. }
  assert (least_multiple unit bytes (bytes + (unit - r))) as Hl.
  { replace (bytes + (unit - r)) with (unit * (q + 1)) by lia. apply least_multiple_intro; lia. }
  unfold checked_add. destruct (N.leb_spec (bytes + (unit - r)) u64_max); simpl; [done|].
  split; [eauto|]. intros v (H1 & H2 & H3). destruct Hl as (G1 & G2 & _). specialize (H3 _ G1 G2).
  destruct (N.le_gt_cases v u64_max) as [Hv|]; [|done]. exfalso.
  apply N.Div0.mod_divides in H1 as [q' ->].
  assert (q + 1 <= q'). { destruct (N.le_gt_cases (q + 1) q'); [done|]. nia. }
  nia.
Qed.

(** * The disk budget *)

(** The writes [preflight] lets through. *)
Definition affordable (b : DiskBudget.t) (u : DiskUsage.t) (additional : N) : Prop :=
  DiskUsage.final_bytes u + DiskUsage.staging_bytes u + additional
    <= N.min (DiskBudget.max_bytes b) u64_max
  /\ additional <= DiskUsage.available_bytes u - DiskBudget.reserve_bytes b.

Lemma preflight_spec b u additional :
  DiskBudget.max_bytes b <= u64_max ->
  post (DiskBudget.preflight b u additional) (fun _ => affordable b u additional)
    (fun e => ~ affordable b u additional
       /\ match e with
          | ArithmeticOverflow _ =>
              u64_max < DiskUsage.final_bytes u + DiskUsage.staging_bytes u + additional
          | BudgetExceeded required limit =>
              required = DiskUsage.final_bytes u + DiskUsage.staging_bytes u + additional
              /\ limit = DiskBudget.max_bytes b /\ limit < required
          | FilesystemReserve required available reserve =>
              required = additional /\ available = DiskUsage.available_bytes u
              /\ reserve = DiskBudget.reserve_bytes b /\ available - reserve < required
          | _ => False
          end).
Proof.
  intros Hm. unfold DiskBudget.preflight, DiskUsage.checked_total_bytes, affordable, saturating_sub, checked_add.
  destruct (N.leb_spec (DiskUsage.final_bytes u + DiskUsage.staging_bytes u) u64_max) as [H1|H1];
    simpl; [|split; [intros [? _]; lia | lia]].
  destruct (N.leb_spec (DiskUsage.final_bytes u + DiskUsage.staging_bytes u + additional) u64_max) as [H2|H2];
    simpl; [|split; [intros [? _]; lia | lia]].
  destruct (N.ltb_spec (DiskBudget.max_bytes b) (DiskUsage.final_bytes u + DiskUsage.staging_bytes u + additional))
    as [H3|H3]; simpl; [split; [intros [? _]; lia | lia]|].
  destruct (N.ltb_spec (DiskUsage.available_bytes u - DiskBudget.reserve_bytes b) additional) as [H4|H4];
    simpl; [split; [intros [_ ?]; lia | by split_and!] | lia].
Qed.

(** * Cache configurations *)

(** The configurations [CacheConfig::validate] accepts. *)
Record config_valid (c : CacheConfig.t) : Prop := {
  val_page : 0 < CacheConfig.max_page_bytes c;
  val_alloc : exists a, aligned_page_buffer_bytes (CacheConfig.max_page_bytes c) = Ok a
    /\ a <= CacheConfig.max_inflight_bytes c;
  val_inflight : CacheConfig.max_inflight_bytes c <= CacheConfig.page_pool_capacity c;
  val_entries : CacheConfig.max_entries c <= CacheConfig.MAX_ENTRIES;
  val_loads : 0 < CacheConfig.max_loads c <= N.min CacheConfig.MAX_LOADS (CacheConfig.max_entries c);
  val_waiters : CacheConfig.max_waiters c <= CacheConfig.MAX_WAITERS;
  val_per_page : 0 < CacheConfig.max_waiters_per_page c
    <= N.min CacheConfig.MAX_WAITERS_PER_PAGE (CacheConfig.max_waiters c);
  val_leases : 0 < CacheConfig.max_leases c <= CacheConfig.MAX_LEASES;
  val_trace : CacheConfig.trace_capacity c <= TraceSink.MAX_CAPACITY
}.

Lemma aligned_pos n a : 0 < n -> aligned_page_buffer_bytes n = Ok a -> n <= a.
Proof.
  intros Hn Ha. destruct (N.le_gt_cases n u64_max) as [Hle|Hgt].
  - pose proof (aligned_page_buffer_bytes_spec n Hle) as Hs. rewrite Ha in Hs. apply Hs.
  - unfold aligned_page_buffer_bytes, checked_add in Ha. rewrite (proj2 (N.eqb_neq _ _)) in Ha by lia.
    rewrite (proj2 (N.leb_gt _ _)) in Ha by lia. done.
Qed.

Lemma validate_spec_iff c :
  post (CacheConfig.validate c) (fun _ => config_valid c)
    (fun e => ~ config_valid c /\ exists field problem, e = InvalidConfig field problem).
Proof.
  unfold CacheConfig.validate.
  assert (forall field problem, ~ config_valid c -> ~ config_valid c
    /\ exists f p, InvalidConfig field problem = InvalidConfig f p) as Hbad by eauto.
  assert (config_valid c -> 0 < CacheConfig.page_pool_capacity c /\ CacheConfig.MAX_ENTRIES < u64_max) as Hpool.
  { intros [? (a & ? & ?) ? ? ? ? ? ? ?]. assert (CacheConfig.max_page_bytes c <= a) by (by apply aligned_pos).
    split; [lia | done]. }
  apply post_bind, post_guard; [intros ?%N.eqb_eq; apply Hbad; intros ?%Hpool; lia | intros G1%N.eqb_neq].
  apply post_bind, post_guard; [intros ?%N.eqb_eq; apply Hbad; intros []; lia | intros G2%N.eqb_neq].
  destruct (aligned_page_buffer_bytes (CacheConfig.max_page_bytes c)) as [a|e|] eqn:Ha;
    cbn [mbind result_bind].
  2: { apply Hbad. intros [_ (a & Ha' & _) _ _ _ _ _ _ _]. congruence. }
  2: { unfold aligned_page_buffer_bytes in Ha. destruct (_ =? _); [done|].
       destruct (checked_add _ _ _); done. }
  apply post_bind, post_guard.
  { intros ?%N.ltb_lt. apply Hbad. intros [_ (a' & Ha' & ?) ? _ _ _ _ _ _]. rewrite Ha in Ha'. simplify_eq. lia. }
  intros G3%N.ltb_ge. apply post_bind, post_guard.
  { intros [?%N.ltb_lt|?%N.ltb_lt]%orb_true_iff; apply Hbad; intros [_ (a' & Ha' & ?) ? _ _ _ _ _ _];
      rewrite Ha in Ha'; simplify_eq; lia. }
  intros [G4%N.ltb_ge G5%N.ltb_ge]%orb_false_iff.
  cbn [try_fold]. rewrite ?result_bind_assoc.
  do 5 (rewrite ?result_bind_assoc; apply post_bind, post_guard;
    [intros ?%N.eqb_eq; apply Hbad; intros []; lia | intros ?%N.eqb_neq]).
  cbn [mbind result_bind]. rewrite ?result_bind_assoc.
  do 6 (rewrite ?result_bind_assoc; apply post_bind, post_guard;
    [intros ?%N.ltb_lt; apply Hbad; intros []; lia | intros ?%N.ltb_ge]).
  cbn [mbind result_bind].
  apply post_bind, post_guard; [intros ?%N.ltb_lt; apply Hbad; intros []; lia | intros ?%N.ltb_ge].
  apply post_guard; [intros ?%N.ltb_lt; apply Hbad; intros []; lia | intros ?%N.ltb_ge].
  split; try lia. exists a. split; [done | lia].
Qed.

(** * The trace sink *)

Module TraceRun.
(** The sink, the sequence numbers of calls between their two atomic steps, and
    every event drained so far. *)
Record t : Type := mk {
  sink : TraceSink.t; tickets : list N; drained : list TraceSink.event
}.

(** [2^64] records exhaust the sequence counter; runs stop short of that. *)
Inductive step : t -> t -> Prop :=
| step_reserve r n sink' :
    TraceSink.next_sequence (sink r) < u64_max ->
    TraceSink.reserve (sink r) = (n, sink') ->
    step r (mk sink' (n :: tickets r) (drained r))
| step_publish r n rest call busy :
    tickets r ≡ₚ n :: rest ->
    step r (mk (TraceSink.publish n call busy (sink r)) rest (drained r))
| step_drain r events sink' :
    TraceSink.drain (sink r) = (events, sink') ->
    step r (mk sink' (tickets r) (drained r ++ events)).

Definition start (capacity : N) : t := mk (TraceSink.new capacity) [] [].

(** The sequence numbers in the run's hands. *)
Definition numbers (r : t) : list N :=
  tickets r ++ (TraceSink.sequence <$> TraceSink.events (sink r))
  ++ (TraceSink.sequence <$> drained r).

Record ok (r : t) : Prop := {
  ok_capacity : lenN (TraceSink.events (sink r)) <= TraceSink.capacity (sink r)
                <= TraceSink.MAX_CAPACITY;
  ok_fresh : forall n, n ∈ numbers r -> n < TraceSink.next_sequence (sink r);
  ok_nodup : NoDup (numbers r);
  ok_count : lenN (numbers r) + TraceSink.dropped (sink r) = TraceSink.next_sequence (sink r);
  ok_width : TraceSink.next_sequence (sink r) <= u64_max
}.

Lemma start_ok capacity : ok (start capacity).
Proof.
  split; simpl; unfold lenN; simpl; try lia.
  - intros n Hn. by apply elem_of_nil in Hn.
  - constructor.
Qed.

Lemma reserve_ok r n sink' :
  ok r -> TraceSink.next_sequence (sink r) < u64_max -> TraceSink.reserve (sink r) = (n, sink') ->
  ok (mk sink' (n :: tickets r) (drained r)).
Proof.
  intros [Hc Hf Hn Hl Hw] Hlt [= <- <-].
  assert (wrapping_add u64_max (TraceSink.next_sequence (sink r)) 1
          = TraceSink.next_sequence (sink r) + 1) as E.
  { unfold wrapping_add. apply N.mod_small. lia. }
  assert (numbers (mk (TraceSink.mk (TraceSink.capacity (sink r))
            (wrapping_add u64_max (TraceSink.next_sequence (sink r)) 1)
            (TraceSink.dropped (sink r)) (TraceSink.events (sink r)))
            (TraceSink.next_sequence (sink r) :: tickets r) (drained r))
          = TraceSink.next_sequence (sink r) :: numbers r) as Hnum by done.
  split; rewrite ?Hnum; simpl; rewrite ?E; try done; try lia.
  - intros n. rewrite elem_of_cons. intros [->|Hin%Hf]; lia.
  - constructor; [|done]. intros Hin%Hf. lia.
  - unfold lenN in *. simpl. lia.
Qed.

Lemma numbers_publish r n rest call busy :
  tickets r ≡ₚ n :: rest ->
  let r' := mk (TraceSink.publish n call busy (sink r)) rest (drained r) in
  if negb busy && (lenN (TraceSink.events (sink r)) <? TraceSink.capacity (sink r))
  then numbers r' ≡ₚ numbers r else n :: numbers r' ≡ₚ numbers r.
Proof.
  intros Hp. unfold numbers, TraceSink.publish. simpl. destruct (_ && _); simpl; rewrite Hp; simpl; [|done].
  rewrite fmap_app. simpl. generalize (TraceSink.sequence <$> TraceSink.events (sink r)).
  generalize (TraceSink.sequence <$> drained r). intros D E. rewrite <- (app_assoc E). simpl.
  rewrite (app_assoc rest E), <- Permutation_middle. by rewrite <- app_assoc.
Qed.

Lemma publish_ok r n rest call busy :
  ok r -> tickets r ≡ₚ n :: rest ->
  ok (mk (TraceSink.publish n call busy (sink r)) rest (drained r)).
Proof.
  intros [Hc Hf Hn Hl Hw] Hp. pose proof (numbers_publish r n rest call busy Hp) as Hnum.
  unfold TraceSink.publish in *. simpl in Hnum.
  destruct (negb busy && (lenN (TraceSink.events (sink r)) <? TraceSink.capacity (sink r))) eqn:Hroom.
  - apply andb_true_iff in Hroom as [_ Hroom%N.ltb_lt]. split; simpl; unfold lenN in *; rewrite ?Hnum; try done.
    + rewrite length_app. simpl. lia.
    + intros m. rewrite Hnum. apply Hf.
  - rewrite <- Hnum in Hn, Hl. rewrite lenN_cons in Hl. apply NoDup_cons in Hn as [Hn1 Hn2].
    split; try done.
    + intros m Hm. apply Hf. rewrite <- Hnum. by right.
    + assert (saturating_add u64_max (TraceSink.dropped (sink r)) 1 = TraceSink.dropped (sink r) + 1) as E
        by (unfold saturating_add; lia).
      cbn [sink TraceSink.dropped TraceSink.next_sequence]. lia.
Qed.

Lemma drain_ok r events sink' :
  ok r -> TraceSink.drain (sink r) = (events, sink') -> ok (mk sink' (tickets r) (drained r ++ events)).
Proof.
  intros [Hc Hf Hn Hl Hw] [= <- <-].
  assert (numbers (mk (TraceSink.mk (TraceSink.capacity (sink r)) (TraceSink.next_sequence (sink r))
      (TraceSink.dropped (sink r)) []) (tickets r)
      (drained r ++ sort_by_key (fun e => [Z.of_N (TraceSink.sequence e)]) (TraceSink.events (sink r))))
    ≡ₚ numbers r) as Hnum.
  { unfold numbers. simpl. rewrite fmap_app, (sort_by_key_perm _ (TraceSink.events (sink r))).
    apply Permutation_app_head. apply Permutation_app_comm. }
  split; simpl; unfold lenN in *; rewrite ?Hnum; try done; simpl; try lia.
  intros m. rewrite Hnum. apply Hf.
Qed.

Lemma run_ok capacity r : rtc step (start capacity) r -> ok r.
Proof.
  assert (forall r0, ok r0 -> rtc step r0 r -> ok r) as Hgen; [|apply Hgen, start_ok].
  intros r0 Hok H. revert Hok. induction H as [|r1 r2 r3 Hs _ IH]; intros Hok; [done|]. apply IH.
  destruct Hs; [by eapply reserve_ok | by eapply publish_ok | by eapply drain_ok].
Qed.
End TraceRun.

(** * The reader queue *)

Module ReaderRun.
(** The reader with the requests it accepted and the ones its workers took, in
    order. *)
Record t : Type := mk {
  reader : AsyncReader.t; accepted : list (PageKey * N); received : list (PageKey * N)
}.

Inductive step : t -> t -> Prop :=
| step_submit r q reader' :
    AsyncReader.submit q (reader r) = Ok reader' ->
    step r (mk reader' (accepted r ++ [q]) (received r))
| step_receive r q reader' :
    AsyncReader.receive (reader r) = Some (q, reader') ->
    step r (mk reader' (accepted r) (received r ++ [q]))
| step_finish r q :
    q ∈ AsyncReader.running (reader r) ->
    step r (mk (AsyncReader.finished q (reader r)) (accepted r) (received r))
| step_close r : step r (mk (AsyncReader.close (reader r)) (accepted r) (received r)).

Record ok (r : t) : Prop := {
  ok_queue : lenN (AsyncReader.queue (reader r))
             <= AsyncReaderConfig.queue_capacity (AsyncReader.config (reader r))
             <= AsyncReaderConfig.MAX_QUEUE_CAPACITY;
  ok_workers : lenN (AsyncReader.running (reader r))
               <= AsyncReaderConfig.worker_threads (AsyncReader.config (reader r))
               <= AsyncReaderConfig.MAX_WORKER_THREADS;
  ok_fifo : accepted r = received r ++ AsyncReader.queue (reader r)
}.

Lemma step_ok r r' : ok r -> step r r' -> ok r'.
Proof.
  intros [Hq Hw Hf] Hs. destruct Hs as [r q reader' Hs|r q reader' Hs|r q Hin|r].
  - unfold AsyncReader.submit in Hs. repeat (case_match; [done|]).
    destruct (N.ltb_spec (lenN (AsyncReader.queue (reader r)))
      (AsyncReaderConfig.queue_capacity (AsyncReader.config (reader r)))); simplify_eq.
    split; simpl; [|done|by rewrite Hf, app_assoc]. unfold lenN in *. rewrite length_app. simpl. lia.
  - unfold AsyncReader.receive in Hs.
    destruct (N.leb_spec (AsyncReaderConfig.worker_threads (AsyncReader.config (reader r)))
      (lenN (AsyncReader.running (reader r)))); [done|].
    destruct (AsyncReader.queue (reader r)) as [|x rest] eqn:E; simplify_eq.
    split; simpl; unfold lenN in *; simpl in *; [lia | lia |]. by rewrite Hf, <- app_assoc.
  - split; simpl; [done | | done]. unfold AsyncReader.finished. simpl.
    destruct (list_find (eq q) (AsyncReader.running (reader r))) as [[i x]|] eqn:E; [|done].
    apply list_find_Some in E as (Hi & _). unfold lenN in *.
    rewrite length_delete by eauto. lia.
  - by split.
Qed.

Lemma reader_new_ok config reader : AsyncReader.new config = Ok reader -> ok (mk reader [] []).
Proof.
  unfold AsyncReader.new, AsyncReaderConfig.new. intros H.
  repeat match type of H with
    | context [guard_err ?b _] => let G := fresh "G" in
        destruct b eqn:G; [done|]; cbn [guard_err mbind result_bind] in H
    end.
  simplify_eq/=. apply N.ltb_ge in G0, G2. split; simpl; unfold lenN; simpl; [lia.. | done].
Qed.

Lemma reader_run_ok config reader r :
  AsyncReader.new config = Ok reader -> rtc step (mk reader [] []) r -> ok r.
Proof.
  intros Hn H. apply reader_new_ok in Hn. revert Hn.
  induction H as [|r1 r2 r3 Hs _ IH]; intros Hok; [done|]. by eapply IH, step_ok.
Qed.
End ReaderRun.

(** * Theorems *)

(** [CacheConfig::validate] accepts exactly the configurations whose largest
    page, rounded up to its aligned buffer, fits the in-flight budget, whose
    in-flight budget fits the pool, and whose counts are positive, ordered and
    below the hard ceilings; anything else is an [InvalidConfig] error. *)
Theorem cache_config_accepts c :
  (CacheConfig.validate c = Ok tt <-> config_valid c)
  /\ forall e, CacheConfig.validate c = Err e -> exists field problem, e = InvalidConfig field problem.
Proof.
  pose proof (validate_spec_iff c) as H. destruct (CacheConfig.validate c) as [[]|e|]; simpl in H; [| |done].
  - split; [by split | done].
  - destruct H as [Hn He]. split; [split; [done | by intros ?%Hn] | by intros e' [= <-]].
Qed.

(** [DiskBudget::preflight] lets a write through exactly when the usage
    after it stays within the budget (and within 64 bits) and the write leaves
    the filesystem reserve free; every refusal names the limit that was hit. *)
Theorem disk_preflight_exact b u additional :
  DiskBudget.max_bytes b <= u64_max ->
  (DiskBudget.preflight b u additional = Ok tt <-> affordable b u additional)
  /\ match DiskBudget.preflight b u additional with
     | Ok _ => True
     | Err (ArithmeticOverflow _) =>
         u64_max < DiskUsage.final_bytes u + DiskUsage.staging_bytes u + additional
     | Err (BudgetExceeded required limit) =>
         required = DiskUsage.final_bytes u + DiskUsage.staging_bytes u + additional
         /\ limit = DiskBudget.max_bytes b /\ limit < required
     | Err (FilesystemReserve required available reserve) =>
         required = additional /\ available = DiskUsage.available_bytes u
         /\ reserve = DiskBudget.reserve_bytes b /\ available - reserve < required
     | _ => False
     end.
Proof.
  intros Hm. pose proof (preflight_spec b u additional Hm) as H.
  destruct (DiskBudget.preflight b u additional) as [[]|e|]; simpl in H; [| |done].
  - by split; [split|].
  - destruct H as [Hn He]. split; [split; [done | by intros ?%Hn]|]. by destruct e.
Qed.
Lemma disk_preflight_exact_witness :
  let b := DiskBudget.mk 100 10 in
  let u := DiskUsage.mk 40 20 60 8 in
  (DiskBudget.preflight b u 40 = Ok tt <-> affordable b u 40)
  /\ match DiskBudget.preflight b u 40 with
     | Ok _ => True
     | Err (ArithmeticOverflow _) =>
         u64_max < DiskUsage.final_bytes u + DiskUsage.staging_bytes u + 40
     | Err (BudgetExceeded required limit) =>
         required = DiskUsage.final_bytes u + DiskUsage.staging_bytes u + 40
         /\ limit = DiskBudget.max_bytes b /\ limit < required
     | Err (FilesystemReserve required available reserve) =>
         required = 40 /\ available = DiskUsage.available_bytes u
         /\ reserve = DiskBudget.reserve_bytes b /\ available - reserve < required
     | _ => False
     end.
Proof. apply (disk_preflight_exact (DiskBudget.mk 100 10) (DiskUsage.mk 40 20 60 8) 40). by vm_compute. Defined.

(** [DiskUsage::round_up] returns the least multiple of the allocation unit
    that holds the bytes (a zero unit counts as one), and fails only when that
    multiple does not fit 64 bits. *)
Theorem disk_round_up_least u bytes :
  bytes <= u64_max -> DiskUsage.allocation_unit u <= u64_max ->
  post (DiskUsage.round_up u bytes)
    (least_multiple (N.max (DiskUsage.allocation_unit u) 1) bytes)
    (fun e => (exists m, e = ArithmeticOverflow m)
       /\ forall v, least_multiple (N.max (DiskUsage.allocation_unit u) 1) bytes v -> u64_max < v).
Proof. intros. by apply round_up_spec. Qed.
Lemma disk_round_up_least_witness :
  post (DiskUsage.round_up (DiskUsage.mk 0 0 0 4096) 5000)
    (least_multiple 4096 5000)
    (fun e => (exists m, e = ArithmeticOverflow m)
       /\ forall v, least_multiple 4096 5000 v -> u64_max < v).
Proof. apply (disk_round_up_least (DiskUsage.mk 0 0 0 4096) 5000); by vm_compute. Defined.

(** A page buffer's allocation is the least multiple of the 64-byte alignment
    that holds the page; the computation fails only where the padded length
    leaves 64 bits. *)
Theorem page_buffer_alignment n :
  n <= u64_max ->
  post (aligned_page_buffer_bytes n) (least_multiple PAGE_BUFFER_ALIGNMENT n)
    (fun e => (exists m, e = ArithmeticOverflow m) /\ u64_max < n + (PAGE_BUFFER_ALIGNMENT - 1)).
Proof. apply aligned_page_buffer_bytes_spec. Qed.
Lemma page_buffer_alignment_witness :
  post (aligned_page_buffer_bytes 65) (least_multiple PAGE_BUFFER_ALIGNMENT 65)
    (fun e => (exists m, e = ArithmeticOverflow m) /\ u64_max < 65 + (PAGE_BUFFER_ALIGNMENT - 1)).
Proof. apply (page_buffer_alignment 65). by vm_compute. Defined.

(** The trace sink is bounded and accounts for every call, however the two
    steps of concurrent [record] calls interleave with each other and with
    drains: it retains at most its capacity (at most 65536), sequence numbers
    are never handed out twice, and every number handed out is in flight,
    retained, drained or counted as dropped. *)
Theorem trace_sink_accounts capacity r :
  rtc TraceRun.step (TraceRun.start capacity) r -> TraceRun.ok r.
Proof. apply TraceRun.run_ok. Qed.
Lemma trace_sink_accounts_witness :
  let call := Call TraceOutcome.Hit Demand (PageKey.mk 1 2 3) 8 in
  TraceRun.ok (TraceRun.mk (TraceSink.mk 1 2 1 []) [] [TraceSink.Event 1 call]).
Proof.
  intros call. apply (trace_sink_accounts 1).
  eapply rtc_l; [by eapply TraceRun.step_reserve|].
  eapply rtc_l; [by eapply TraceRun.step_reserve|].
  eapply rtc_l; [by eapply (TraceRun.step_publish _ 1 [0] call false)|].
  eapply rtc_l; [by eapply (TraceRun.step_publish _ 0 [] call false)|].
  eapply rtc_l; [by eapply TraceRun.step_drain|]. by vm_compute; constructor.
Defined.

(** The reader is bounded and fair in order: its queue never exceeds the
    configured capacity nor its running requests the worker count (nor either
    the hard ceilings), and workers receive requests in the order they were
    accepted, none lost. *)
Theorem reader_queue_fifo config reader r :
  AsyncReader.new config = Ok reader -> rtc ReaderRun.step (ReaderRun.mk reader [] []) r ->
  ReaderRun.ok r.
Proof. apply ReaderRun.reader_run_ok. Qed.
Lemma reader_queue_fifo_witness :
  let config := AsyncReaderConfig.mk 1 2 in
  let q := (PageKey.mk 1 2 3, 1) in
  ReaderRun.ok (ReaderRun.mk (AsyncReader.mk config true true [] [q]) [q] [q]).
Proof.
  intros config q. apply (reader_queue_fifo config (AsyncReader.mk config true true [] [])); [done|].
  eapply rtc_l; [by eapply (ReaderRun.step_submit _ q)|].
  eapply rtc_l; [by eapply ReaderRun.step_receive|]. constructor.
Defined.
