(* ===== verification/StoreOs.v ===== *)
(** System calls and runs.  What the operating system answers cannot be read off
    the source, so a run of a program is checked against a recorded history: a
    list of system calls with their answers.  A program step takes the next
    recorded call if it is the call the program makes; the recording is then all
    the program and its environment did to each other, and statements about every
    run are statements about every history.  Closing a descriptor has no answer
    and is not recorded. *)
From stdpp Require Import prelude strings.
From S2P Require Import Prelude Format Store.
#[local] Open Scope N_scope.

(** The error numbers that the code distinguishes; the others by the name of
    their [io::ErrorKind]. *)
Inductive Errno : Type :=
| NOENT | LOOP | NOTDIR | INTR | NOSYS | INVAL | PERM | EXIST | AGAIN
| Other (kind : string).
#[export] Instance Errno_eq_dec : EqDecision Errno.
Proof. solve_decision. Defined.

(** [io::Error::from_raw_os_error(..).kind()]. *)
Definition io_error_kind (e : Errno) : string :=
  match e with
  | NOENT => "NotFound" | LOOP => "FilesystemLoop" | NOTDIR => "NotADirectory"
  | INTR => "Interrupted" | NOSYS => "Unsupported" | INVAL => "InvalidInput"
  | PERM => "PermissionDenied" | EXIST => "AlreadyExists" | AGAIN => "WouldBlock" | Other kind => kind
  end.

(** The fields of [fstat]'s answer that the code reads. *)
Module Stat.
Record t : Type := mk {
  st_dev : N; st_ino : N; st_uid : N; st_mode : N; st_size : Z; st_blocks : Z
}.
End Stat.

(** A descriptor, or the working directory as the anchor of an open. *)
Inductive Anchor : Type := CWD | At (fd : N).
#[export] Instance Anchor_eq_dec : EqDecision Anchor.
Proof. solve_decision. Defined.

(** Open flags: of a directory, of a file that is read, of a file that is also
    written, and of the exclusive creation of a file with a mode. *)
Inductive OFlags : Type :=
| DIRECTORY_FLAGS | REGULAR_READ_FLAGS | READ_WRITE_FLAGS | CREATE_FLAGS (mode : N).
#[export] Instance OFlags_eq_dec : EqDecision OFlags.
Proof. solve_decision. Defined.

Inductive FlockOperation : Set := LockExclusive | NonBlockingLockExclusive | Unlock.
#[export] Instance FlockOperation_eq_dec : EqDecision FlockOperation.
Proof. solve_decision. Defined.

(** [Mutex::lock], [Mutex::try_lock], and the drop of the guard. *)
Inductive MutexOperation : Set := MLock | MTryLock | MUnlock.
#[export] Instance MutexOperation_eq_dec : EqDecision MutexOperation.
Proof. solve_decision. Defined.
Inductive MutexAnswer : Set := Acquired | WouldBlock | Poisoned.

Inductive Event : Type :=
| ECheck (control : Control.t)
| EElapsed (nanoseconds : N)
| EFstat (fd : N) (answer : Errno + Stat.t)
| EOpenAt (parent : Anchor) (name : string) (flags : OFlags) (answer : Errno + N)
| EOpenAt2 (parent : Anchor) (name : string) (flags : OFlags) (answer : Errno + N)
| EPread (fd position length : N) (answer : Errno + list N)
| EMkdirAt (parent : N) (name : string) (mode : N) (answer : Errno + unit)
| ERename (old_parent : N) (old_name : string) (new_parent : N) (new_name : string) (answer : Errno + unit)
| ELink (old_parent : N) (old_name : string) (new_parent : N) (new_name : string) (answer : Errno + unit)
| EUnlink (parent : N) (name : string) (answer : Errno + unit)
| EFsync (fd : N) (answer : Errno + unit)
| EFtruncate (fd length : N) (answer : Errno + unit)
| EPwrite (fd position : N) (data : list N) (answer : Errno + N)
| EFlock (fd : N) (operation : FlockOperation) (answer : Errno + unit)
| EFstatvfs (fd : N) (answer : Errno + N * N)
| EReadDir (fd : N) (answer : Errno + list (Errno + string))
| EDup (fd : N) (answer : Errno + N)
| EGetrandom (length : N) (answer : option (list N))
| EGeteuid (uid : N)
| EMutex (operation : MutexOperation) (answer : MutexAnswer)
| EOnce (initialised : bool).

(** [EOnce] is the process-wide cell of the resolver at the entry of its
    [get_or_init]: whether some open of the process has initialised it before. *)

(** A run on a history: finished with the rest of the history, still waiting for
    the answer to its next call, or not a run of this program. *)
Inductive Run (A : Type) : Type :=
| Done (r : result StoreError A) (rest : list Event)
| Waiting
| Mismatch.
Arguments Done {A} _ _.
Arguments Waiting {A}.
Arguments Mismatch {A}.

Definition Os (A : Type) : Type := list Event -> Run A.

Declare Scope os_scope.
Delimit Scope os_scope with os.

Definition lift {A} (r : result StoreError A) : Os A := fun t => Done r t.
(** Only histories with [b] are runs of the program. *)
Definition assume (b : bool) : Os unit := fun t => if b then Done (Ok tt) t else Mismatch.
Definition os_bind {A B} (m : Os A) (f : A -> Os B) : Os B := fun t =>
  match m t with
  | Done (Ok a) t' => f a t'
  | Done (Err e) t' => Done (Err e) t'
  | Done Panic t' => Done Panic t'
  | Waiting => Waiting
  | Mismatch => Mismatch
  end.
(** The error of a step as a value, where the code inspects it. *)
Definition attempt {A} (m : Os A) : Os (StoreError + A) := fun t =>
  match m t with
  | Done (Ok a) t' => Done (Ok (inr a)) t'
  | Done (Err e) t' => Done (Ok (inl e)) t'
  | Done Panic t' => Done Panic t'
  | Waiting => Waiting
  | Mismatch => Mismatch
  end.

Notation "x <- m ; k" := (os_bind m (fun x => k))
  (at level 20, m at level 100, k at level 200, only parsing) : os_scope.
Notation "' p <- m ; k" := (os_bind m (fun p => k))
  (at level 20, p pattern, m at level 100, k at level 200, only parsing) : os_scope.

(** ** The calls *)

Definition call {A} (answers : Event -> option (result StoreError A)) : Os A := fun t =>
  match t with
  | [] => Waiting
  | e :: t => match answers e with Some r => Done r t | None => Mismatch end
  end.

Definition check : Os unit := call (fun e =>
  match e with ECheck c => Some (Control.check c) | _ => None end).
Definition elapsed : Os N := call (fun e => match e with EElapsed n => Some (Ok n) | _ => None end).
Definition fstat (fd : N) : Os (Errno + Stat.t) := call (fun e =>
  match e with EFstat fd' a => if fd' =? fd then Some (Ok a) else None | _ => None end).
Definition openat (parent : Anchor) (name : string) (flags : OFlags) : Os (Errno + N) := call (fun e =>
  match e with
  | EOpenAt p n f a => if bool_decide (p = parent /\ n = name /\ f = flags) then Some (Ok a) else None
  | _ => None
  end).
Definition openat2 (parent : Anchor) (name : string) (flags : OFlags) : Os (Errno + N) := call (fun e =>
  match e with
  | EOpenAt2 p n f a => if bool_decide (p = parent /\ n = name /\ f = flags) then Some (Ok a) else None
  | _ => None
  end).
Definition once_initialised : Os bool := call (fun e =>
  match e with EOnce initialised => Some (Ok initialised) | _ => None end).
(** [pread] into a buffer of [length] bytes. *)
Definition pread (fd position length : N) : Os (Errno + list N) := call (fun e =>
  match e with
  | EPread fd' p n a =>
      if (fd' =? fd) && (p =? position) && (n =? length)
         && match a with inl _ => true | inr data => lenN data <=? length end
      then Some (Ok a) else None
  | _ => None
  end).

(** [map_err(|error| StoreError::io(operation, &error))?]. *)
Definition or_io {A} (operation : string) (answer : Errno + A) : Os A :=
  lift (match answer with inl e => Err (Io operation (io_error_kind e)) | inr a => Ok a end).

(** ** Loops *)

Section iterate.
Context {S A : Type} (body : S -> Os (S + A)).
Fixpoint iterate_fuel (fuel : nat) (s : S) : Os A := fun t =>
  match fuel with
  | O => Mismatch
  | Datatypes.S fuel =>
      os_bind (body s) (fun next => match next with
                                    | inl s' => iterate_fuel fuel s'
                                    | inr a => lift (Ok a)
                                    end) t
  end.
(** A loop every round of which makes a call: it makes at most as many rounds as
    the history has calls, and one more that waits. *)
Definition iterate (s : S) : Os A := fun t => iterate_fuel (Datatypes.S (length t)) s t.
End iterate.

(** [for] over a list. *)
Fixpoint for_each {A B} (body : B -> A -> Os B) (acc : B) (l : list A) : Os B :=
  match l with
  | [] => lift (Ok acc)
  | x :: l => os_bind (body acc x) (fun acc => for_each body acc l)
  end.

(** * Reasoning about every run

    [ensures m Q X W]: on every history on which [m] finishes it does not panic, a
    value satisfies [Q] and an error [X], each with the calls that were made, and
    when it still waits after the whole history, that history satisfies [W]. *)
Definition ensures {A} (m : Os A) (Q : list Event -> A -> Prop) (X : list Event -> StoreError -> Prop)
    (W : list Event -> Prop) : Prop :=
  forall t, match m t with
            | Done r rest => exists used, t = used ++ rest /\ post r (Q used) (X used)
            | Waiting => W t
            | Mismatch => True
            end.

(** The same without the calls. *)
Definition yields {A} (m : Os A) (Q : A -> Prop) : Prop :=
  ensures m (fun _ => Q) (fun _ _ => True) (fun _ => True).

Section ensures.
Context {A B : Type}.
Implicit Types (Q : list Event -> A -> Prop) (X : list Event -> StoreError -> Prop) (W : list Event -> Prop).

Lemma ensures_mono (m : Os A) Q Q' X X' W W' :
  ensures m Q X W -> (forall u a, Q u a -> Q' u a) -> (forall u e, X u e -> X' u e) ->
  (forall u, W u -> W' u) -> ensures m Q' X' W'.
Proof.
  intros H HQ HX HW t. specialize (H t). destruct (m t) as [r rest| |]; [|auto|done].
  destruct H as (u & -> & H). exists u. split; [done|]. eapply post_mono; eauto.
Qed.

Lemma ensures_done (m : Os A) Q X W t r rest :
  ensures m Q X W -> m t = Done r rest -> exists used, t = used ++ rest /\ post r (Q used) (X used).
Proof. intros H E. specialize (H t). by rewrite E in H. Qed.
Lemma ensures_waiting (m : Os A) Q X W t : ensures m Q X W -> m t = Waiting -> W t.
Proof. intros H E. specialize (H t). by rewrite E in H. Qed.

Lemma ensures_and (m : Os A) Q Q' X X' W W' :
  ensures m Q X W -> ensures m Q' X' W' ->
  ensures m (fun u a => Q u a /\ Q' u a) (fun u e => X u e /\ X' u e) (fun u => W u /\ W' u).
Proof.
  intros H H' t. specialize (H t). specialize (H' t). destruct (m t) as [r rest| |]; [|done..].
  destruct H as (u & -> & H), H' as (u' & E & H'). apply app_inv_tail in E as <-. exists u. split; [done|].
  by destruct r.
Qed.

Lemma ensures_lift r Q X W : post r (Q []) (X []) -> ensures (lift r) Q X W.
Proof. intros H t. by exists []. Qed.

Lemma ensures_bind (m : Os A) (f : A -> Os B) (Q : list Event -> B -> Prop) X W :
  ensures m (fun u a => ensures (f a) (fun u' => Q (u ++ u')) (fun u' => X (u ++ u')) (fun u' => W (u ++ u')))
    X W ->
  ensures (os_bind m f) Q X W.
Proof.
  intros H t. specialize (H t). unfold os_bind. destruct (m t) as [r rest| |]; [|done..].
  destruct H as (u & -> & H). destruct r as [a|e|]; simpl in H; [|by exists u | done].
  specialize (H rest). destruct (f a rest) as [r rest'| |]; [|done..]. destruct H as (u' & -> & H).
  exists (u ++ u'). by rewrite app_assoc.
Qed.

Lemma ensures_attempt (m : Os A) (Q : list Event -> StoreError + A -> Prop) X W :
  ensures m (fun u a => Q u (inr a)) (fun u e => Q u (inl e)) W -> ensures (attempt m) Q X W.
Proof.
  intros H t. specialize (H t). unfold attempt. destruct (m t) as [r rest| |]; [|done..].
  destruct H as (u & -> & H). destruct r as [a|e|]; [by exists u | by exists u | done].
Qed.

Lemma ensures_call (answers : Event -> option (result StoreError A)) Q X W :
  W [] -> (forall e r, answers e = Some r -> post r (Q [e]) (X [e])) -> ensures (call answers) Q X W.
Proof.
  intros H0 H [|e t]; simpl; [done|]. destruct (answers e) as [r|] eqn:E; [|done]. exists [e]. auto.
Qed.
End ensures.

(** Loops: [I] holds of the calls so far and the state before every round. *)
Lemma ensures_iterate {S A} (body : S -> Os (S + A)) (I : list Event -> S -> Prop) s
    (Q : list Event -> A -> Prop) (X : list Event -> StoreError -> Prop) (W : list Event -> Prop) :
  I [] s ->
  (forall u s, I u s ->
     ensures (body s) (fun u' next => match next with inl s' => I (u ++ u') s' | inr a => Q (u ++ u') a end)
       (fun u' => X (u ++ u')) (fun u' => W (u ++ u'))) ->
  ensures (iterate body s) Q X W.
Proof.
  intros H0 Hstep. assert (forall fuel u s, I u s -> ensures (iterate_fuel body fuel s)
    (fun u' => Q (u ++ u')) (fun u' => X (u ++ u')) (fun u' => W (u ++ u'))) as H.
  { induction fuel as [|fuel IH]; intros u s' Hs; [by intros t|].
    assert (ensures (os_bind (body s') (fun next => match next with
              inl s' => iterate_fuel body fuel s' | inr a => lift (Ok a) end))
              (fun u' => Q (u ++ u')) (fun u' => X (u ++ u')) (fun u' => W (u ++ u'))) as Hb; [|exact Hb].
    apply ensures_bind. eapply ensures_mono; [by apply Hstep | | done..].
    intros u' [s2|a] Hn.
    - eapply ensures_mono; [by apply IH | intros ? *; by rewrite app_assoc..].
    - apply ensures_lift. simpl. by rewrite app_nil_r. }
  intros t. apply (H _ [] s H0 t).
Qed.

Lemma ensures_for_each {A B} (body : B -> A -> Os B) l acc (I : list Event -> list A -> B -> Prop) X W :
  I [] [] acc ->
  (forall u dn x rest b, l = dn ++ x :: rest -> I u dn b ->
     ensures (body b x) (fun u' => I (u ++ u') (dn ++ [x])) (fun u' => X (u ++ u')) (fun u' => W (u ++ u'))) ->
  ensures (for_each body acc l) (fun u => I u l) X W.
Proof.
  intros H0 Hstep. assert (forall rest dn u b, l = dn ++ rest -> I u dn b ->
    ensures (for_each body b rest) (fun u' => I (u ++ u') l) (fun u' => X (u ++ u')) (fun u' => W (u ++ u'))) as H.
  { induction rest as [|x rest IH]; intros dn u b Hl Hb; simpl.
    - apply ensures_lift. simpl. rewrite !app_nil_r in *. by rewrite Hl.
    - apply ensures_bind. eapply ensures_mono; [by eapply Hstep | | done..].
      intros u' b' Hb'. eapply ensures_mono; [apply (IH (dn ++ [x]) (u ++ u') b'); [by rewrite <- app_assoc | done]
        | intros ? *; by rewrite app_assoc..]. }
  apply (H l [] [] acc); done.
Qed.

(** A loop panics where one of its rounds does. *)
Lemma for_each_panic {A B} (body : B -> A -> Os B) l acc t rest :
  for_each body acc l t = Done Panic rest <->
  exists dn x more b t', l = dn ++ x :: more /\ for_each body acc dn t = Done (Ok b) t' /\ body b x t' = Done Panic rest.
Proof.
  split.
  - revert acc t. induction l as [|x l IH]; intros acc t; simpl; [done|]. unfold os_bind at 1.
    destruct (body acc x t) as [[b|e|] t'| |] eqn:E; try done.
    + intros (dn & y & more & b' & t2 & -> & Hdn & Hy)%IH. exists (x :: dn), y, more, b', t2.
      split; [done|]. split; [|done]. simpl. unfold os_bind. by rewrite E.
    + intros [= <-]. by exists [], x, l, acc, t.
  - intros (dn & x & more & b & t' & -> & Hdn & Hx). revert acc t Hdn. induction dn as [|y dn IH]; intros acc t.
    + intros [= -> ->]. simpl. unfold os_bind. by rewrite Hx.
    + simpl. unfold os_bind. destruct (body acc y t) as [[b'|e|] t2| |]; try done. apply IH.
Qed.

(** ** Facts that do not mention the calls *)

Lemma yields_mono {A} (m : Os A) (Q Q' : A -> Prop) : yields m Q -> (forall a, Q a -> Q' a) -> yields m Q'.
Proof. intros H HQ. eapply ensures_mono; [exact H | intros u; exact HQ | done..]. Qed.
Lemma yields_bind {A B} (m : Os A) (f : A -> Os B) Q : yields m (fun a => yields (f a) Q) -> yields (os_bind m f) Q.
Proof. intros H. by apply ensures_bind. Qed.
Lemma yields_skip {A B} (m : Os A) (f : A -> Os B) Q :
  yields m (fun _ => True) -> (forall a, yields (f a) Q) -> yields (os_bind m f) Q.
Proof. intros H Hf. apply yields_bind. by eapply yields_mono. Qed.
Lemma yields_lift {A} r (Q : A -> Prop) : post r Q (fun _ => True) -> yields (lift r) Q.
Proof. intros H. by apply ensures_lift. Qed.
Lemma yields_call {A} answers (Q : A -> Prop) :
  (forall e r, answers e = Some r -> post r Q (fun _ => True)) -> yields (call answers) Q.
Proof. intros H. apply ensures_call; eauto. Qed.
Lemma yields_guard {A} bad e (f : unit -> Os A) Q :
  (bad = false -> yields (f tt) Q) -> yields (os_bind (lift (guard_err bad e)) f) Q.
Proof. intros H. apply yields_bind, yields_lift, post_guard; auto. Qed.
Lemma yields_done {A} (m : Os A) (Q : A -> Prop) t r rest :
  yields m Q -> m t = Done r rest -> post r Q (fun _ => True).
Proof. intros H E. by destruct (ensures_done _ _ _ _ _ _ _ H E) as (_ & _ & ?). Qed.

Lemma yields_for_each {A B} (body : B -> A -> Os B) l acc (I : list A -> B -> Prop) :
  I [] acc ->
  (forall dn x rest b, l = dn ++ x :: rest -> I dn b -> yields (body b x) (I (dn ++ [x]))) ->
  yields (for_each body acc l) (I l).
Proof. intros H0 Hs. apply (ensures_for_each _ _ _ (fun _ => I)); [done|]. intros. by eapply Hs. Qed.

Lemma safe_check c : safe (Control.check c).
Proof. unfold Control.check. safe_tac. Qed.
Lemma post_any {A} (r : result StoreError A) : safe r -> post r (fun _ => True) (fun _ => True).
Proof. destruct r; simpl; auto. Qed.

Lemma yields_check : yields check (fun _ => True).
Proof. apply yields_call. intros [] r H; try done. injection H as <-. apply post_any, safe_check. Qed.
Lemma yields_elapsed : yields elapsed (fun _ => True).
Proof. apply yields_call. intros [] r H; try done. by injection H as <-. Qed.
Lemma yields_fstat fd : yields (fstat fd) (fun _ => True).
Proof. apply yields_call. intros [] r H; try done. case_match; [|done]. by injection H as <-. Qed.
Lemma yields_openat p n f : yields (openat p n f) (fun _ => True).
Proof. apply yields_call. intros [] r H; try done. case_match; [|done]. by injection H as <-. Qed.
Lemma yields_openat2 p n f : yields (openat2 p n f) (fun _ => True).
Proof. apply yields_call. intros [] r H; try done. case_match; [|done]. by injection H as <-. Qed.
Lemma yields_or_io {A} op (a : Errno + A) : yields (or_io op a) (fun _ => True).
Proof. apply yields_lift. by destruct a. Qed.

(** ** Progress *)

(** Every finished run of [m] made at least one call. *)
Definition consuming {A} (m : Os A) : Prop :=
  forall t r rest, m t = Done r rest -> (length rest < length t)%nat.

Lemma consuming_call {A} (answers : Event -> option (result StoreError A)) : consuming (call answers).
Proof. intros [|e t] r rest; simpl; [done|]. destruct (answers e); [|done]. intros [= _ <-]. lia. Qed.

(** No run gives calls back. *)
Definition shrinking {A} (m : Os A) : Prop :=
  forall t r rest, m t = Done r rest -> (length rest <= length t)%nat.

Lemma shrinking_lift {A} (r : result StoreError A) : shrinking (lift r).
Proof. intros t r' rest [= _ <-]. lia. Qed.
Lemma consuming_shrinking {A} (m : Os A) : consuming m -> shrinking m.
Proof. intros H t r rest E. apply H in E. lia. Qed.
Lemma shrinking_bind {A B} (m : Os A) (f : A -> Os B) :
  shrinking m -> (forall a, shrinking (f a)) -> shrinking (os_bind m f).
Proof.
  intros Hm Hf t r rest. unfold os_bind. destruct (m t) as [[a|e|] rest'| |] eqn:E; try done; intros H.
  - apply Hm in E. apply Hf in H. lia.
  - apply Hm in E. injection H as _ <-. lia.
  - apply Hm in E. injection H as _ <-. lia.
Qed.
Lemma consuming_bind {A B} (m : Os A) (f : A -> Os B) :
  consuming m -> (forall a, shrinking (f a)) -> consuming (os_bind m f).
Proof.
  intros Hm Hf t r rest. unfold os_bind. destruct (m t) as [[a|e|] rest'| |] eqn:E; try done; intros H.
  - apply Hm in E. apply Hf in H. lia.
  - apply Hm in E. injection H as _ <-. lia.
  - apply Hm in E. injection H as _ <-. lia.
Qed.
Lemma consuming_attempt {A} (m : Os A) : consuming m -> consuming (attempt m).
Proof.
  intros Hm t r rest. unfold attempt. destruct (m t) as [[a|e|] rest'| |] eqn:E; try done;
    intros [= _ <-]; by apply Hm in E.
Qed.

Section progress.
Context {S A : Type} (body : S -> Os (S + A)) (Hbody : forall s, consuming (body s)).

Lemma iterate_fuel_enough fuel fuel' s t :
  (length t < fuel)%nat -> (length t < fuel')%nat ->
  iterate_fuel body fuel s t = iterate_fuel body fuel' s t.
Proof.
  revert fuel' s t. induction fuel as [|fuel IH]; intros [|fuel'] s t H H'; [lia..|].
  cbn [iterate_fuel]. unfold os_bind. destruct (body s t) as [r rest| |] eqn:E; [|done..].
  destruct r as [[s'|a]|e|]; [|done..]. apply Hbody in E. apply IH; lia.
Qed.

Lemma iterate_unfold s t :
  iterate body s t
  = os_bind (body s) (fun next => match next with inl s' => iterate body s' | inr a => lift (Ok a) end) t.
Proof.
  unfold iterate at 1. cbn [iterate_fuel]. unfold os_bind.
  destruct (body s t) as [r rest| |] eqn:E; [|done..]. destruct r as [[s'|a]|e|]; [|done..].
  apply Hbody in E. apply iterate_fuel_enough; lia.
Qed.
End progress.
