(* ===== verification/StoreFs.v ===== *)
(** Descriptor-relative file-system primitives of the storage crate
    (crates/runnel-store/src/fs.rs): name and layout checks, opening below a
    retained directory, and bounded and positional reads.

    A standalone artifact directory anchored by retained descriptors
    (crates/runnel-store/src/source.rs). *)
From stdpp Require Import prelude strings.
From S2P Require Import Prelude Format FormatManifest Store StoreOs.
#[local] Open Scope N_scope.
#[local] Open Scope os_scope.

(** * Metadata *)

(** The type bits of [st_mode] and the write bits of group and others. *)
Definition S_IFMT : N := 61440.
Definition S_IFREG : N := 32768.
Definition S_IFDIR : N := 16384.
Definition WGRP_WOTH : N := 18.
Definition file_type (s : Stat.t) : N := N.land (Stat.st_mode s) S_IFMT.

Definition metadata_len_regular (fd : N) (kind : string) : Os N :=
  answer <- fstat fd;
  stat <- or_io "reading retained metadata" answer;
  _ <- lift (guard_err (negb (file_type stat =? S_IFREG)) (UnsafeLayout kind));
  lift (if (Stat.st_size stat <? 0)%Z then Err (UnsafeLayout kind) else Ok (Z.to_N (Stat.st_size stat))).

Module FileIdentity.
Record t : Type := mk { device : N; owner : N; mode : N }.
End FileIdentity.

Definition file_identity (fd : N) : Os FileIdentity.t :=
  answer <- fstat fd;
  stat <- or_io "reading retained identity" answer;
  lift (Ok (FileIdentity.mk (Stat.st_dev stat) (Stat.st_uid stat) (Stat.st_mode stat))).

Definition require_safe_permissions (identity : FileIdentity.t) (kind : string) : Os unit :=
  lift (guard_err (negb (N.land (FileIdentity.mode identity) WGRP_WOTH =? 0)) (UnsafeLayout kind)).

Definition require_same_filesystem_owner (expected : FileIdentity.t) (fd : N) (kind : string)
    : Os FileIdentity.t :=
  actual <- file_identity fd;
  _ <- lift (guard_err (negb (FileIdentity.device actual =? FileIdentity.device expected)
                        || negb (FileIdentity.owner actual =? FileIdentity.owner expected))
               (UnsafeLayout kind));
  _ <- require_safe_permissions actual kind;
  lift (Ok actual).

Definition ensure_directory (fd : N) (kind : string) : Os unit :=
  answer <- fstat fd;
  stat <- or_io "reading retained metadata" answer;
  lift (guard_err (negb (file_type stat =? S_IFDIR)) (UnsafeLayout kind)).

(** * Opening *)

(** [u8::is_ascii_alphanumeric]. *)
Definition is_alphanumeric (b : N) : bool :=
  ((48 <=? b) && (b <=? 57)) || ((65 <=? b) && (b <=? 90)) || ((97 <=? b) && (b <=? 122)).

Definition validate_component (component kind : string) : Os unit :=
  lift (guard_err
    (bool_decide (component = "") || bool_decide (component = ".") || bool_decide (component = "..")
     || (255 <? N.of_nat (String.length component))
     || negb (forallb (fun b => is_alphanumeric b || (b =? 46) || (b =? 95) || (b =? 45))
                (string_bytes component)))
    (UnsafeLayout kind)).

Definition map_open_error (error : Errno) (kind : string) : StoreError :=
  match error with
  | NOENT => Missing kind
  | LOOP | NOTDIR => UnsafeLayout kind
  | _ => Io "opening retained entry" (io_error_kind error)
  end.
Definition or_open {A} (kind : string) (answer : Errno + A) : Os A :=
  lift (match answer with inl e => Err (map_open_error e kind) | inr a => Ok a end).

Inductive Resolver : Set := OpenAt2 | ComponentOpenAt.
#[export] Instance Resolver_eq_dec : EqDecision Resolver.
Proof. solve_decision. Defined.

(** What the once-initialised [RESOLVER] is initialised with.  The descriptor of a
    successful probe is closed at once. *)
Definition probe_resolver : Os Resolver :=
  answer <- openat2 CWD "." DIRECTORY_FLAGS;
  match answer with
  | inr _ => lift (Ok OpenAt2)
  | inl (NOSYS | INVAL | PERM) => lift (Ok ComponentOpenAt)
  | inl error => lift (Err (Io "probing descriptor resolver" (io_error_kind error)))
  end.

(** One component of a [Path]; an empty path has none, an absolute one begins
    with [RootDir]. *)
Inductive Component : Type := RootDir | CurDir | ParentDir | Prefix | Normal (name : string).

Section open.
Context (RESOLVER : StoreError + Resolver).

(** [RESOLVER.get_or_init(probe_resolver)], with [RESOLVER] the value that the cell
    of this process holds once it is initialised: the first caller probes, and what
    it finds is that value. *)
Definition get_or_init : Os (StoreError + Resolver) :=
  initialised <- once_initialised;
  if initialised then lift (Ok RESOLVER)
  else
    probed <- attempt probe_resolver;
    _ <- assume (bool_decide (probed = RESOLVER));
    lift (Ok probed).

Definition open_relative (parent : N) (component : string) (flags : OFlags) (kind : string) : Os N :=
  cell <- get_or_init;
  resolver <- lift (match cell with inl e => Err e | inr r => Ok r end);
  opened <- match resolver with
            | OpenAt2 => openat2 (At parent) component flags
            | ComponentOpenAt => openat (At parent) component flags
            end;
  or_open kind opened.

Definition open_directory_component (parent : N) (component kind : string) : Os N :=
  fd <- open_relative parent component DIRECTORY_FLAGS kind;
  _ <- ensure_directory fd kind;
  lift (Ok fd).

Definition open_directory_path (path : list Component) (kind : string) : Os N :=
  _ <- lift (guard_err (match path with [] => true | _ => false end) (UnsafeLayout kind));
  let anchor := match path with RootDir :: _ => "/" | _ => "." end in
  opened <- openat CWD anchor DIRECTORY_FLAGS;
  current <- or_open kind opened;
  current <- for_each (fun current component =>
               match component with
               | RootDir | CurDir => lift (Ok current)
               | Normal component => open_directory_component current component kind
               | ParentDir | Prefix => lift (Err (UnsafeLayout kind))
               end) current path;
  _ <- ensure_directory current kind;
  lift (Ok current).

Definition open_child_dir (parent : N) (component kind : string) : Os N :=
  _ <- validate_component component kind;
  open_directory_component parent component kind.

Definition open_regular_leaf (parent : N) (component kind : string) (expected_length : option N) : Os N :=
  _ <- validate_component component kind;
  fd <- open_relative parent component REGULAR_READ_FLAGS kind;
  length <- metadata_len_regular fd kind;
  _ <- match expected_length with
       | Some expected => lift (guard_err (negb (length =? expected)) (LengthMismatch kind expected length))
       | None => lift (Ok tt)
       end;
  lift (Ok fd).
End open.

(** * Reading *)

Definition READ_CHUNK_BYTES : N := 64 * 1024.

(** Overwrite [bytes] from position [filled]. *)
Definition fill (bytes : list N) (filled : N) (data : list N) : list N :=
  take (N.to_nat filled) bytes ++ data ++ drop (N.to_nat (filled + lenN data)) bytes.

(** What a read returns: an error or the bytes, with the number of bytes read. *)
Definition observed : Type := (StoreError + list N) * N.

(** Leave the loop with a result and the bytes read so far. *)
Definition leave (r : StoreError + list N) (filled : N) : Os ((list N * N) + observed) :=
  lift (Ok (inr (r, filled))).

(** What a round does with the answer of [pread]. *)
Definition read_answer (length : N) (kind : string) (bytes : list N) (filled : N) (answer : Errno + list N)
    : Os ((list N * N) + observed) :=
  match answer with
  | inr data =>
      if lenN data =? 0 then leave (inl (LengthMismatch kind length filled)) filled
      else
        match checked_add usize_max filled (lenN data) with
        | None => leave (inl (ArithmeticOverflow "accounting positional read bytes")) filled
        | Some filled' => lift (Ok (inl (fill bytes filled data, filled')))
        end
  | inl INTR =>
      checked <- attempt check;
      match checked with
      | inl e => leave (inl e) filled
      | inr _ => lift (Ok (inl (bytes, filled)))
      end
  | inl error => leave (inl (Io "reading retained bytes" (io_error_kind error))) filled
  end.

(** One round of the loop of [read_exact_at_observed], and the check after it. *)
Definition read_round (fd offset length : N) (kind : string) (state : list N * N)
    : Os ((list N * N) + observed) :=
  let '(bytes, filled) := state in
  checked <- attempt check;
  if lenN bytes <=? filled then
    leave (match checked with inl e => inl e | inr _ => inr bytes end) filled
  else
    match checked with
    | inl e => leave (inl e) filled
    | inr _ =>
        let chunk_end := N.min (saturating_add usize_max filled READ_CHUNK_BYTES) (lenN bytes) in
        match checked_add u64_max offset filled with
        | None => leave (inl (ArithmeticOverflow "computing a positional read offset")) filled
        | Some position =>
            answer <- pread fd position (chunk_end - filled);
            read_answer length kind bytes filled answer
        end
    end.

Definition read_exact_at_observed (fd offset length : N) (kind : string) : Os observed :=
  checked <- attempt check;
  match checked with
  | inl e => lift (Ok (inl e, 0))
  | inr _ =>
      match aligned_page_buffer_bytes length with
      | Err e => lift (Ok (inl e, 0))
      | Panic => lift Panic
      | Ok _ => iterate (read_round fd offset length kind) (replicate (N.to_nat length) 0, 0)
      end
  end.

Definition read_exact_at (fd offset length : N) (kind : string) : Os (list N) :=
  '(r, _) <- read_exact_at_observed fd offset length kind;
  lift (match r with inl e => Err e | inr bytes => Ok bytes end).

Definition read_bounded_at (fd maximum : N) (kind : string) : Os (list N) :=
  length <- metadata_len_regular fd kind;
  _ <- lift (guard_err (maximum <? length) (ResourceExhausted kind length maximum));
  bytes <- read_exact_at fd 0 length kind;
  final_length <- metadata_len_regular fd kind;
  _ <- lift (guard_err (negb (final_length =? length)) (LengthMismatch kind length final_length));
  lift (Ok bytes).

#[local] Open Scope os_scope.

Module ArtifactSource.
Record t : Type := mk {
  root : N; manifest : N; objects : N; page_tables : N; root_identity : FileIdentity.t
}.

Section open.
Context (RESOLVER : StoreError + Resolver).

Definition open (root : list Component) : Os t :=
  root <- open_directory_path RESOLVER root "artifact root";
  root_identity <- file_identity root;
  _ <- require_safe_permissions root_identity "artifact root";
  objects_parent <- open_child_dir RESOLVER root "objects" "object directory";
  _ <- require_same_filesystem_owner root_identity objects_parent "object directory";
  objects <- open_child_dir RESOLVER objects_parent "sha256" "object digest directory";
  _ <- require_same_filesystem_owner root_identity objects "object digest directory";
  page_tables_parent <- open_child_dir RESOLVER root "page-tables" "page-table directory";
  _ <- require_same_filesystem_owner root_identity page_tables_parent "page-table directory";
  page_tables <- open_child_dir RESOLVER page_tables_parent "sha256" "page-table digest directory";
  _ <- require_same_filesystem_owner root_identity page_tables "page-table digest directory";
  manifest <- open_regular_leaf RESOLVER root "manifest.json" "manifest" None;
  _ <- require_same_filesystem_owner root_identity manifest "manifest";
  lift (Ok (mk root manifest objects page_tables root_identity)).

Definition from_retained (root manifest objects page_tables : N) : Os t :=
  _ <- ensure_directory root "artifact root";
  _ <- ensure_directory objects "object digest directory";
  _ <- ensure_directory page_tables "page-table digest directory";
  _ <- metadata_len_regular manifest "manifest";
  root_identity <- file_identity root;
  _ <- require_safe_permissions root_identity "artifact root";
  _ <- require_same_filesystem_owner root_identity manifest "manifest";
  _ <- require_same_filesystem_owner root_identity objects "object digest directory";
  _ <- require_same_filesystem_owner root_identity page_tables "page-table digest directory";
  lift (Ok (mk root manifest objects page_tables root_identity)).

Definition manifest_bytes (s : t) (maximum : N) : Os (list N) :=
  read_bounded_at (manifest s) maximum "manifest".

Definition open_object (s : t) (digest : Digest) (expected_length : N) : Os N :=
  fd <- open_regular_leaf RESOLVER (objects s) (Digest.path_component digest) "object" (Some expected_length);
  _ <- require_same_filesystem_owner (root_identity s) fd "object";
  lift (Ok fd).

Definition open_page_table (s : t) (digest : Digest) (expected_length : N) : Os N :=
  fd <- open_regular_leaf RESOLVER (page_tables s) (Digest.path_component digest) "page table"
          (Some expected_length);
  _ <- require_same_filesystem_owner (root_identity s) fd "page table";
  lift (Ok fd).
End open.
End ArtifactSource.
