(* ===== verification/StoreFsFacts.v ===== *)
(** The file-system primitives: every call uses a descriptor that is held, opened
    files are what they were asked to be, and the positional read loop ends, stays
    in its range and returns the range of a file that does not change.

    An artifact source holds its descriptors: the directories and the manifest it
    retains were opened below its root, are on the root's file system and of its
    owner, and are not writable by others; objects and page tables are opened
    below them by digest. *)
From stdpp Require Import prelude strings.
From S2P Require Import Prelude Format FormatManifest FormatDigest Store StoreOs StoreFs.
#[local] Open Scope N_scope.
#[local] Open Scope os_scope.

(** * Held descriptors

    A program that holds the descriptors [have] may use these and the ones it
    opens.  Only its first open may be anchored at the working directory or the
    root; besides, the probe of the resolver opens the working directory and closes
    it at once, so it gains nothing. *)

Definition gained (e : Event) : list N :=
  match e with
  | EOpenAt2 CWD _ _ _ => []
  | EOpenAt _ _ _ (inr fd) | EOpenAt2 _ _ _ (inr fd) | EDup _ (inr fd) => [fd]
  | _ => []
  end.
Definition opened (u : list Event) : list N := mjoin (reverse (gained <$> u)).

Definition permitted (have : list N) (e : Event) : Prop :=
  match e with
  | ECheck _ | EElapsed _ | EGetrandom _ _ | EGeteuid _ | EMutex _ _ | EOnce _ => True
  | EFstat fd _ | EFsync fd _ | EFtruncate fd _ _ | EPwrite fd _ _ _ | EFlock fd _ _ | EFstatvfs fd _
  | EReadDir fd _ | EDup fd _ => fd ∈ have
  | EMkdirAt parent _ _ _ | EUnlink parent _ _ => parent ∈ have
  | ERename old_parent _ new_parent _ _ | ELink old_parent _ new_parent _ _ =>
      old_parent ∈ have /\ new_parent ∈ have
  | EOpenAt CWD name _ _ => have = [] /\ (name = "/" \/ name = ".")
  | EOpenAt2 CWD name flags _ => name = "." /\ flags = DIRECTORY_FLAGS
  | EOpenAt (At parent) _ _ _ | EOpenAt2 (At parent) _ _ _ => parent ∈ have
  | EPread fd _ _ _ => fd ∈ have
  end.

Fixpoint owns (have : list N) (u : list Event) : Prop :=
  match u with
  | [] => True
  | e :: u => permitted have e /\ owns (gained e ++ have) u
  end.

Lemma opened_cons e u : opened (e :: u) = opened u ++ gained e.
Proof. unfold opened. rewrite fmap_cons, reverse_cons, join_app. simpl. by rewrite app_nil_r. Qed.
Lemma opened_app u v : opened (u ++ v) = opened v ++ opened u.
Proof. unfold opened. by rewrite fmap_app, reverse_app, join_app. Qed.

Lemma owns_app have u v : owns have (u ++ v) <-> owns have u /\ owns (opened u ++ have) v.
Proof.
  revert have. induction u as [|e u IH]; intros have; simpl; [naive_solver|].
  rewrite IH, opened_cons, <- app_assoc. naive_solver.
Qed.

(** [capable have m Q]: every call of every run of [m], also of one that fails or
    still waits, is permitted, and a value satisfies [Q] with the calls made. *)
Definition capable {A} (have : list N) (m : Os A) (Q : list Event -> A -> Prop) : Prop :=
  ensures m (fun u a => owns have u /\ Q u a) (fun u _ => owns have u) (owns have).

Lemma capable_mono {A} have (m : Os A) (Q Q' : list Event -> A -> Prop) :
  capable have m Q -> (forall u a, Q u a -> Q' u a) -> capable have m Q'.
Proof. intros H HQ. eapply ensures_mono; [exact H | naive_solver | done..]. Qed.

Lemma capable_bind {A B} have (m : Os A) (f : A -> Os B) Q :
  capable have m (fun u a => capable (opened u ++ have) (f a) (fun u' => Q (u ++ u'))) ->
  capable have (os_bind m f) Q.
Proof.
  intros H. apply ensures_bind. eapply ensures_mono; [exact H | | done..].
  intros u a [Hu Hf]. eapply ensures_mono; [exact Hf | ..].
  - intros u' b [Hu' HQ]. by rewrite owns_app.
  - intros u' e Hu'. by rewrite owns_app.
  - intros u' Hu'. by rewrite owns_app.
Qed.

Lemma capable_lift {A} have (r : result StoreError A) Q : post r (Q []) (fun _ => True) -> capable have (lift r) Q.
Proof. intros H. apply ensures_lift. eapply post_mono; [exact H | naive_solver | done]. Qed.

Lemma capable_guard {A} have bad e (f : unit -> Os A) Q :
  (bad = false -> capable have (f tt) Q) -> capable have (os_bind (lift (guard_err bad e)) f) Q.
Proof. intros H. apply capable_bind, capable_lift, post_guard; auto. Qed.

Lemma capable_attempt {A} have (m : Os A) (Q : list Event -> StoreError + A -> Prop) :
  capable have m (fun u a => Q u (inr a)) -> (forall u e, Q u (inl e)) -> capable have (attempt m) Q.
Proof.
  intros H HX. apply ensures_attempt. eapply ensures_mono; [exact H | naive_solver | | done]. naive_solver.
Qed.

Lemma capable_call {A} have (answers : Event -> option (result StoreError A)) Q :
  (forall e r, answers e = Some r -> permitted have e /\ post r (Q [e]) (fun _ => True)) ->
  capable have (call answers) Q.
Proof.
  intros H. apply ensures_call; [done|]. intros e r E. destruct (H e r E) as [Hp Hr].
  eapply post_mono; [exact Hr | simpl; naive_solver..].
Qed.

Lemma capable_for_each {A B} have (body : B -> A -> Os B) l acc (I : list Event -> list A -> B -> Prop) :
  I [] [] acc ->
  (forall u dn x rest b, l = dn ++ x :: rest -> I u dn b ->
     capable (opened u ++ have) (body b x) (fun u' => I (u ++ u') (dn ++ [x]))) ->
  capable have (for_each body acc l) (fun u => I u l).
Proof.
  intros H0 Hstep. apply (ensures_for_each _ _ _ (fun u dn b => owns have u /\ I u dn b)); [done|].
  intros u dn x rest b Hl [Hu HI]. eapply ensures_mono; [by eapply Hstep | ..].
  - intros u' b' [Hu' HI']. by rewrite owns_app.
  - intros u' e Hu'. by rewrite owns_app.
  - intros u' Hu'. by rewrite owns_app.
Qed.

Lemma capable_yields {A} have (m : Os A) Q (Q' : A -> Prop) :
  capable have m Q -> (forall u a, Q u a -> Q' a) -> yields m Q'.
Proof. intros H HQ. eapply ensures_mono; [exact H | naive_solver | done..]. Qed.

(** ** The calls *)

Lemma capable_check have : capable have check (fun u _ => opened u = []).
Proof.
  apply capable_call. intros [c| | | | | | | | | | | | | | | | | | | |] r H; try done. injection H as <-. split; [done|].
  pose proof (safe_check c). by destruct (Control.check c).
Qed.
Lemma capable_elapsed have : capable have elapsed (fun u _ => opened u = []).
Proof. apply capable_call. intros [] r H; try done. by injection H as <-. Qed.
Lemma capable_fstat have fd : fd ∈ have -> capable have (fstat fd) (fun u a => u = [EFstat fd a]).
Proof.
  intros Hfd. apply capable_call. intros [] r H; try done. destruct (N.eqb_spec fd0 fd) as [->|]; [|done].
  by injection H as <-.
Qed.
Lemma capable_openat have parent name flags :
  parent ∈ have ->
  capable have (openat (At parent) name flags) (fun u a => u = [EOpenAt (At parent) name flags a]).
Proof.
  intros Hfd. apply capable_call. intros [] r H; try done. case_bool_decide as E; [|done].
  destruct E as (-> & -> & ->). by injection H as <-.
Qed.
Lemma capable_openat2 have parent name flags :
  parent ∈ have ->
  capable have (openat2 (At parent) name flags) (fun u a => u = [EOpenAt2 (At parent) name flags a]).
Proof.
  intros Hfd. apply capable_call. intros [] r H; try done. case_bool_decide as E; [|done].
  destruct E as (-> & -> & ->). by injection H as <-.
Qed.

(** * Metadata *)

(** The history reports that [fd] is a regular file of [n] bytes. *)
Definition regular (st : Stat.t) (n : N) : Prop :=
  file_type st = S_IFREG /\ (0 <= Stat.st_size st)%Z /\ n = Z.to_N (Stat.st_size st).
Definition directory (st : Stat.t) : Prop := file_type st = S_IFDIR.
(** It is on the device and of the owner of the root, and neither the group nor
    others can write it. *)
Definition private (st : Stat.t) : Prop := N.land (Stat.st_mode st) WGRP_WOTH = 0.
Definition identity_of (st : Stat.t) : FileIdentity.t :=
  FileIdentity.mk (Stat.st_dev st) (Stat.st_uid st) (Stat.st_mode st).
Definition trusted (root : FileIdentity.t) (st : Stat.t) : Prop :=
  Stat.st_dev st = FileIdentity.device root /\ Stat.st_uid st = FileIdentity.owner root /\ private st.

(** [fstat] followed by a test of its answer. *)
Lemma capable_stat {A} have fd op (f : Stat.t -> Os A) (Q : list Event -> A -> Prop) :
  fd ∈ have ->
  (forall st, capable have (f st) (fun u => Q (EFstat fd (inr st) :: u))) ->
  capable have (os_bind (fstat fd) (fun a => os_bind (or_io op a) f)) Q.
Proof.
  intros Hfd Hf. apply capable_bind. eapply capable_mono; [by apply capable_fstat|]. intros u a ->.
  apply capable_bind, capable_lift. destruct a as [e|st]; [done|]. apply Hf.
Qed.

Lemma capable_regular have fd kind :
  fd ∈ have ->
  capable have (metadata_len_regular fd kind) (fun u n => exists st, u = [EFstat fd (inr st)] /\ regular st n).
Proof.
  intros Hfd. apply capable_stat; [done|]. intros st. apply capable_guard. intros Ht%negb_false_iff%N.eqb_eq.
  apply capable_lift. destruct (Z.ltb_spec (Stat.st_size st) 0); [done|]. by exists st.
Qed.

Lemma capable_identity have fd :
  fd ∈ have ->
  capable have (file_identity fd) (fun u i => exists st, u = [EFstat fd (inr st)] /\ i = identity_of st).
Proof. intros Hfd. apply capable_stat; [done|]. intros st. apply capable_lift. by exists st. Qed.

Lemma capable_same have root fd kind :
  fd ∈ have ->
  capable have (require_same_filesystem_owner root fd kind)
    (fun u _ => exists st, u = [EFstat fd (inr st)] /\ trusted root st).
Proof.
  intros Hfd. apply capable_bind. eapply capable_mono; [by apply capable_identity|].
  intros u i (st & -> & ->). apply capable_guard. intros [H1 H2]%orb_false_iff.
  apply negb_false_iff, N.eqb_eq in H1, H2. apply capable_guard. intros Hp%negb_false_iff%N.eqb_eq.
  apply capable_lift. exists st. split; [done|]. by split.
Qed.

Lemma capable_directory have fd kind :
  fd ∈ have ->
  capable have (ensure_directory fd kind) (fun u _ => exists st, u = [EFstat fd (inr st)] /\ directory st).
Proof.
  intros Hfd. apply capable_stat; [done|]. intros st. apply capable_lift, post_guard; [done|].
  intros Ht%negb_false_iff%N.eqb_eq. by exists st.
Qed.

(** * Opening *)

Definition opens (parent : N) (name : string) (flags : OFlags) (fd : N) (e : Event) : Prop :=
  e = EOpenAt (At parent) name flags (inr fd) \/ e = EOpenAt2 (At parent) name flags (inr fd).
Lemma opens_gained parent name flags fd e : opens parent name flags fd e -> gained e = [fd].
Proof. by intros [-> | ->]. Qed.

Section open.
Context (RESOLVER : StoreError + Resolver).

(** The calls with which an open learns the resolver: it was known, or it is probed. *)
Definition resolved (v : list Event) : Prop :=
  v = [EOnce true] \/ exists answer, v = [EOnce false; EOpenAt2 CWD "." DIRECTORY_FLAGS answer].
Lemma resolved_held v : resolved v -> opened v = [].
Proof. by intros [->|[a ->]]. Qed.

Lemma capable_resolver have : capable have (get_or_init RESOLVER) (fun v _ => resolved v).
Proof.
  intros [|e t]; [done|]. destruct e; try done.
  destruct initialised; [by exists [EOnce true]; repeat split; left|].
  unfold get_or_init, once_initialised, attempt, probe_resolver, openat2, call, os_bind. cbn beta iota.
  destruct t as [|e t]; [done|]. destruct e; try done.
  case_bool_decide as E; [|done]. destruct E as (-> & -> & ->).
  assert (forall r, exists used, EOnce false :: EOpenAt2 CWD "." DIRECTORY_FLAGS answer :: t = used ++ t
    /\ post (Ok r : result StoreError (StoreError + Resolver)) (fun _ => owns have used /\ resolved used) (fun _ => owns have used)) as H.
  { intros r. exists [EOnce false; EOpenAt2 CWD "." DIRECTORY_FLAGS answer]. split; [done|].
    split; [done|]. right. by exists answer. }
  destruct answer as [[]|fd]; simpl; case_bool_decide; (done || apply H).
Qed.

Lemma capable_relative have parent name flags kind :
  parent ∈ have ->
  capable have (open_relative RESOLVER parent name flags kind)
    (fun u fd => exists v e, u = v ++ [e] /\ resolved v /\ opens parent name flags fd e).
Proof.
  intros Hp. unfold open_relative. apply capable_bind. eapply capable_mono; [apply capable_resolver|].
  intros v cell Hv. rewrite (resolved_held v Hv). apply capable_bind, capable_lift. destruct cell as [e|r]; [done|].
  apply capable_bind. destruct r; (eapply capable_mono; [by (apply capable_openat || apply capable_openat2)|]);
    intros u a ->; apply capable_lift; (destruct a as [e|fd]; [done|]); exists v; eexists; (split; [done|]);
    (split; [done|]); [by right | by left].
Qed.

(** An opened directory, and an opened file of the expected length. *)
Definition opened_directory (parent : N) (name : string) (u : list Event) (fd : N) : Prop :=
  exists v e st, u = v ++ [e; EFstat fd (inr st)] /\ resolved v /\ opens parent name DIRECTORY_FLAGS fd e
    /\ directory st.
Definition opened_file (parent : N) (name : string) (expected : option N) (u : list Event) (fd : N) : Prop :=
  exists v e st n, u = v ++ [e; EFstat fd (inr st)] /\ resolved v
    /\ opens parent name REGULAR_READ_FLAGS fd e /\ regular st n
    /\ (forall length, expected = Some length -> n = length).

Lemma directory_held parent name u fd : opened_directory parent name u fd -> opened u = [fd].
Proof.
  intros (v & e & st & -> & Hv & He & _). rewrite opened_app, (resolved_held v Hv), !opened_cons. simpl.
  by rewrite (opens_gained _ _ _ _ _ He).
Qed.
Lemma file_held parent name expected u fd : opened_file parent name expected u fd -> opened u = [fd].
Proof.
  intros (v & e & st & n & -> & Hv & He & _). rewrite opened_app, (resolved_held v Hv), !opened_cons. simpl.
  by rewrite (opens_gained _ _ _ _ _ He).
Qed.
Lemma relative_held parent name flags v fd e :
  resolved v -> opens parent name flags fd e -> opened (v ++ [e]) = [fd].
Proof. intros Hv He. rewrite opened_app, (resolved_held v Hv), opened_cons. by rewrite (opens_gained _ _ _ _ _ He). Qed.

Lemma capable_component have parent name kind :
  parent ∈ have ->
  capable have (open_directory_component RESOLVER parent name kind) (opened_directory parent name).
Proof.
  intros Hp. apply capable_bind. eapply capable_mono; [by apply capable_relative|]. intros u fd (v & e & -> & Hv & He).
  apply capable_bind. eapply capable_mono; [apply capable_directory|].
  { rewrite (relative_held _ _ _ _ _ _ Hv He). by left. }
  intros u' _ (st & -> & Hd). apply capable_lift. exists v, e, st. rewrite app_nil_r. by rewrite <- app_assoc.
Qed.

Lemma capable_child have parent name kind :
  parent ∈ have -> capable have (open_child_dir RESOLVER parent name kind) (opened_directory parent name).
Proof.
  intros Hp. apply capable_bind, capable_lift, post_guard; [done|]. intros _. by apply capable_component.
Qed.

Lemma capable_leaf have parent name kind expected :
  parent ∈ have ->
  capable have (open_regular_leaf RESOLVER parent name kind expected) (opened_file parent name expected).
Proof.
  intros Hp. apply capable_bind, capable_lift, post_guard; [done|]. intros _. apply capable_bind.
  eapply capable_mono; [by apply capable_relative|]. intros u fd (v & e & -> & Hv & He). apply capable_bind.
  eapply capable_mono; [apply capable_regular|].
  { rewrite (relative_held _ _ _ _ _ _ Hv He). by left. }
  intros u' n (st & -> & Hn).
  assert ((forall l, expected = Some l -> n = l) ->
    opened_file parent name expected ([] ++ (v ++ [e]) ++ [EFstat fd (inr st)]) fd) as Hfile.
  { intros Hx. exists v, e, st, n. simpl. rewrite <- app_assoc. by repeat split; try apply Hn. }
  destruct expected as [x|].
  - apply capable_guard. intros E%negb_false_iff%N.eqb_eq. apply capable_lift. apply Hfile. by intros ? [= <-].
  - apply capable_bind, capable_lift, capable_lift. by apply Hfile.
Qed.

Lemma capable_path path kind :
  capable [] (open_directory_path RESOLVER path kind) (fun u fd => fd ∈ opened u).
Proof.
  apply capable_guard. intros _. apply capable_bind.
  eapply (capable_mono _ _ (fun u a => u = [EOpenAt CWD match path with RootDir :: _ => "/" | _ => "." end
    DIRECTORY_FLAGS a])).
  { apply capable_call. intros [] r H; try done. case_bool_decide as E; [|done]. destruct E as (-> & -> & ->).
    injection H as <-. split; [|done]. split; [done|]. destruct path as [|[]]; auto. }
  intros u a ->. apply capable_bind, capable_lift. destruct a as [e|root]; [done|]. simpl.
  apply capable_bind. eapply capable_mono.
  { apply (capable_for_each _ _ _ _ (fun u dn fd => fd ∈ opened u ++ [root])); [by left|].
    intros u dn c rest fd _ Hfd.
    destruct c; try (apply capable_lift; simpl; (done || by rewrite app_nil_r)).
    eapply capable_mono; [by apply capable_component|].
    intros u' fd' Hd. rewrite opened_app, (directory_held _ _ _ _ Hd). by left. }
  intros u fd Hfd. apply capable_bind. eapply capable_mono; [by apply capable_directory|].
  intros u' _ (st & -> & _). apply capable_lift. simpl. rewrite ?opened_cons, ?opened_app, ?opened_cons. simpl. set_solver.
Qed.
End open.

(** * The read loop *)

Lemma length_fill bytes filled data :
  filled + lenN data <= lenN bytes -> lenN (fill bytes filled data) = lenN bytes.
Proof. unfold fill, lenN. intros H. rewrite !length_app, length_take, length_drop. lia. Qed.

Lemma take_fill bytes filled data :
  filled <= lenN bytes ->
  take (N.to_nat (filled + lenN data)) (fill bytes filled data) = take (N.to_nat filled) bytes ++ data.
Proof.
  unfold fill, lenN. intros H. rewrite app_assoc. rewrite take_app_length'; [done|].
  rewrite length_app, length_take. lia.
Qed.

(** A slice that is a prefix. *)
Lemma prefix_slice (l file : list N) n : l `prefix_of` file -> lenN l = n -> l = take (N.to_nat n) file.
Proof. intros [k ->] <-. unfold lenN. by rewrite Nat2N.id, take_app_length. Qed.

(** A call of the loop: a check, or a read of [fd] inside the range. *)
Definition in_range (fd offset length : N) (e : Event) : Prop :=
  match e with
  | ECheck _ => True
  | EPread fd' position n _ => fd' = fd /\ offset <= position /\ position + n <= offset + length
  | _ => False
  end.

(** Reads that were not interrupted. *)
Definition answered (e : Event) : bool :=
  match e with EPread _ _ _ (inl INTR) => false | EPread _ _ _ _ => true | _ => false end.
Definition answers (u : list Event) : N := lenN (filter (fun e => answered e = true) u).

(** The reads of [fd] come from one file whose contents do not change; a call may
    return fewer bytes than there are. *)
Definition stable (fd : N) (file : list N) (e : Event) : Prop :=
  match e with
  | EPread fd' position _ (inr data) => fd' = fd -> data `prefix_of` drop (N.to_nat position) file
  | _ => True
  end.

Definition interrupted (e : Event) : bool :=
  match e with EPread _ _ _ (inl INTR) => true | _ => false end.
Definition interruptions (u : list Event) : N := lenN (filter (fun e => interrupted e = true) u).

Lemma answers_app u v : answers (u ++ v) = answers u + answers v.
Proof. unfold answers, lenN. rewrite filter_app, length_app. lia. Qed.

Lemma ensures_check :
  ensures (attempt check) (fun u _ => exists c, u = [ECheck c]) (fun _ _ => False) (fun u => u = []).
Proof.
  apply ensures_attempt, ensures_call; [done|]. intros [c| | | | | | | | | | | | | | | | | | | |] r H; try done. injection H as <-.
  pose proof (safe_check c). destruct (Control.check c); [by exists c.. | done].
Qed.

Lemma ensures_pread fd position n :
  ensures (pread fd position n)
    (fun u a => u = [EPread fd position n a] /\ forall data, a = inr data -> lenN data <= n)
    (fun _ _ => False) (fun u => u = []).
Proof.
  apply ensures_call; [done|]. intros [| | | | |fd' p m a| | | | | | | | | | | | | | |] r H; try done.
  destruct (N.eqb_spec fd' fd) as [->|]; [|done]. destruct (N.eqb_spec p position) as [->|]; [|done].
  destruct (N.eqb_spec m n) as [->|]; [|done]. cbn [andb] in H. case_match eqn:E; [|done]. injection H as <-.
  split; [done|]. intros data ->. by apply N.leb_le.
Qed.

Lemma interruptions_app u v : interruptions (u ++ v) = interruptions u + interruptions v.
Proof. unfold interruptions, lenN. rewrite filter_app, length_app. lia. Qed.

(** ** How many calls a read makes

    Every read call costs the check before it, an interrupted one also the check
    after it; [k] counts all other calls. *)
Definition calls_within (k : N) (u : list Event) : Prop := lenN u <= k + 2 * answers u + 3 * interruptions u.

Lemma calls_app k k' u v : calls_within k u -> calls_within k' v -> calls_within (k + k') (u ++ v).
Proof.
  unfold calls_within. rewrite answers_app, interruptions_app. unfold lenN. rewrite length_app. lia.
Qed.
Lemma calls_mono k k' u : calls_within k u -> k <= k' -> calls_within k' u.
Proof. unfold calls_within. lia. Qed.
Lemma calls_nil k : calls_within k [].
Proof. unfold calls_within, lenN. cbn [length]. lia. Qed.
Lemma calls_one k e : 1 <= k -> calls_within k [e].
Proof. unfold calls_within, lenN. cbn [length]. lia. Qed.

(** [m] makes at most [k] calls besides those, in every run, also in one that fails or still waits. *)
Definition takes {A} (k : N) (m : Os A) (P : A -> Prop) : Prop :=
  ensures m (fun u a => calls_within k u /\ P a) (fun u _ => calls_within k u) (calls_within k).

Lemma takes_mono {A} k k' (m : Os A) (P P' : A -> Prop) :
  takes k m P -> k <= k' -> (forall a, P a -> P' a) -> takes k' m P'.
Proof. intros H Hk HP. eapply ensures_mono; [exact H | ..]; naive_solver eauto using calls_mono. Qed.
Lemma takes_bind {A B} k k' (m : Os A) (f : A -> Os B) P P' :
  takes k m P -> (forall a, P a -> takes k' (f a) P') -> takes (k + k') (os_bind m f) P'.
Proof.
  intros Hm Hf. apply ensures_bind. eapply ensures_mono; [exact Hm | ..].
  - intros u a [Hu Ha]. eapply ensures_mono; [by apply Hf | ..]; intros *; naive_solver eauto using calls_app.
  - intros u e Hu. eapply calls_mono; [exact Hu | lia].
  - intros u Hu. eapply calls_mono; [exact Hu | lia].
Qed.
Lemma takes_lift {A} k (r : result StoreError A) P : post r P (fun _ => True) -> takes k (lift r) P.
Proof. intros H. apply ensures_lift. eapply post_mono; [exact H | split; [apply calls_nil | done] | intros; apply calls_nil]. Qed.
Lemma takes_attempt {A} k (m : Os A) (P : A -> Prop) :
  takes k m P -> takes k (attempt m) (fun r => match r with inl _ => True | inr a => P a end).
Proof. intros H. apply ensures_attempt. eapply ensures_mono; [exact H | naive_solver..]. Qed.
Lemma takes_call {A} (answers : Event -> option (result StoreError A)) (P : A -> Prop) :
  (forall e r, answers e = Some r -> post r P (fun _ => True)) -> takes 1 (call answers) P.
Proof.
  intros H. apply ensures_call; [apply calls_nil|]. intros e r E.
  eapply post_mono; [exact (H e r E) | split; [by apply calls_one | done] | intros; by apply calls_one].
Qed.
Lemma takes_for_each {A B} k (body : B -> A -> Os B) acc l :
  (forall b x, takes k (body b x) (fun _ => True)) -> takes (lenN l * k) (for_each body acc l) (fun _ => True).
Proof.
  intros H. revert acc. induction l as [|x l IH]; intros acc; [by apply takes_lift|].
  replace (lenN (x :: l) * k) with (k + lenN l * k) by (unfold lenN; cbn [length]; lia).
  eapply takes_bind; [apply H|]. intros b _. apply IH.
Qed.

(** A loop whose rounds pay for their own calls as long as they go on. *)
Lemma takes_iterate {S A} k (body : S -> Os (S + A)) s :
  (forall s, ensures (body s) (fun u next => calls_within (match next with inl _ => 0 | inr _ => k end) u)
               (fun u _ => calls_within k u) (calls_within k)) ->
  takes k (iterate body s) (fun _ => True).
Proof.
  intros H. apply (ensures_iterate _ (fun u _ => calls_within 0 u)); [apply calls_nil|].
  intros u s' Hu. eapply ensures_mono; [apply H | ..].
  - intros u' [s2|a] Hu'; [|split; [|done]]; by apply (calls_app 0 _ u u').
  - intros u' e Hu'. by apply (calls_app 0 _ u u').
  - intros u' Hu'. by apply (calls_app 0 _ u u').
Qed.

Lemma takes_check : takes 1 check (fun _ => True).
Proof. apply takes_call. intros e r H. destruct e; try done. injection H as <-. apply post_any, safe_check. Qed.
Lemma takes_elapsed : takes 1 elapsed (fun _ => True).
Proof. apply takes_call. intros e r H. destruct e; try done. by injection H as <-. Qed.
Lemma takes_length fd kind : takes 1 (metadata_len_regular fd kind) (fun _ => True).
Proof.
  apply (takes_bind 1 0 _ _ (fun _ => True)).
  - apply takes_call. intros e r H. destruct e; try done. case_match; [|done]. by injection H as <-.
  - intros a _. apply (takes_bind 0 0 _ _ (fun _ => True)); [apply takes_lift; by destruct a|]. intros st _.
    apply (takes_bind 0 0 _ _ (fun _ => True)); [by apply takes_lift, post_guard|]. intros _ _.
    apply takes_lift. by destruct (_ <? 0)%Z.
Qed.

Section loop.
Context (fd offset length : N) (kind : string).

Record partial (u : list Event) (bytes : list N) (filled : N) : Prop := {
  pa_length : lenN bytes = length;
  pa_filled : filled <= length;
  pa_range : Forall (in_range fd offset length) u;
  pa_count : answers u <= filled;
  pa_stable : forall file, Forall (stable fd file) u ->
    take (N.to_nat filled) bytes `prefix_of` drop (N.to_nat offset) file
}.

(** What a read that ended did. *)
Record finished (u : list Event) (r : StoreError + list N) (n : N) : Prop := {
  fi_range : Forall (in_range fd offset length) u;
  fi_count : answers u <= length;
  fi_read : n <= length;
  fi_bytes : forall out, r = inr out -> n = length /\ lenN out = length
    /\ forall file, Forall (stable fd file) u -> out = take (N.to_nat length) (drop (N.to_nat offset) file)
}.

(** And one that still waits. *)
Definition waiting (u : list Event) : Prop :=
  Forall (in_range fd offset length) u /\ answers u <= length.

(** A call that ends the read with an error. *)
Lemma finished_error u v bytes filled e :
  partial u bytes filled -> Forall (in_range fd offset length) v -> filled + answers v <= length ->
  finished (u ++ v) (inl e) filled.
Proof.
  intros [H1 H2 H3 H4 _] Hv Hc. split; [by apply Forall_app | rewrite answers_app; lia | done | done].
Qed.

Lemma partial_idle u v bytes filled :
  partial u bytes filled -> Forall (in_range fd offset length) v -> answers v = 0 ->
  partial (u ++ v) bytes filled.
Proof.
  intros [H1 H2 H3 H4 H5] Hv Hc. split; [done | done | by apply Forall_app | rewrite answers_app; lia |].
  intros file [Hf _]%Forall_app. by apply H5.
Qed.

Lemma partial_read u c bytes filled n data :
  partial u bytes filled -> filled < length -> n <= length - filled -> 0 < lenN data <= n ->
  partial (u ++ [ECheck c; EPread fd (offset + filled) n (inr data)]) (fill bytes filled data) (filled + lenN data).
Proof.
  intros [H1 H2 H3 H4 H5] Hlt Hn Hd. split.
  - rewrite length_fill; lia.
  - lia.
  - apply Forall_app. split; [done|]. repeat constructor; lia.
  - rewrite answers_app. change (answers [ECheck c; EPread fd (offset + filled) n (inr data)]) with 1. lia.
  - intros file [Hf Hs]%Forall_app. rewrite take_fill by lia. apply Forall_cons in Hs as [_ Hs].
    apply Forall_cons in Hs as [Hs _]. destruct (Hs eq_refl) as [rest Ea]. destruct (H5 file Hf) as [rest' Hpre].
    replace (N.to_nat (offset + filled)) with (N.to_nat offset + N.to_nat filled)%nat in Ea by lia.
    rewrite <- drop_drop, Hpre, drop_app_length' in Ea by (rewrite length_take; unfold lenN in *; lia).
    rewrite Hpre, Ea. exists rest. by rewrite app_assoc.
Qed.

Lemma finished_full u c bytes filled r :
  partial u bytes filled -> length <= filled -> (forall out, r = inr out -> out = bytes) ->
  finished (u ++ [ECheck c]) r filled.
Proof.
  intros [H1 H2 H3 H4 H5] Hge Hr. split.
  - apply Forall_app. split; [done | by constructor].
  - rewrite answers_app. change (answers [ECheck c]) with 0. lia.
  - done.
  - intros out ->%Hr. split; [lia|]. split; [done|]. intros file [Hf _]%Forall_app.
    apply prefix_slice; [|done]. specialize (H5 file Hf). by rewrite take_ge in H5 by (unfold lenN in *; lia).
Qed.

Lemma waiting_idle u v bytes filled :
  partial u bytes filled -> Forall (in_range fd offset length) v -> answers v = 0 -> waiting (u ++ v).
Proof. intros [H1 H2 H3 H4 _] Hv Hc. split; [by apply Forall_app | rewrite answers_app; lia]. Qed.

(** What one round leaves, after the calls [u]. *)
Definition round_left (u : list Event) (next : (list N * N) + observed) : Prop :=
  match next with
  | inl (bytes, filled) => partial u bytes filled
  | inr (r, n) => finished u r n
  end.

Lemma read_answer_spec u c bytes filled n a :
  partial u bytes filled -> filled < length -> n <= length - filled ->
  (forall data, a = inr data -> lenN data <= n) ->
  ensures (read_answer length kind bytes filled a)
    (fun u' => round_left (u ++ [ECheck c; EPread fd (offset + filled) n a] ++ u'))
    (fun _ _ => False) (fun u' => waiting (u ++ [ECheck c; EPread fd (offset + filled) n a] ++ u')).
Proof.
  intros Hp Hf Hn Ha. set (v := [ECheck c; EPread fd (offset + filled) n a]).
  assert (Forall (in_range fd offset length) v) as Hv by (repeat constructor; lia).
  assert (forall e, ensures (leave (inl e) filled) (fun u' => round_left (u ++ v ++ u'))
    (fun _ _ => False) (fun u' => waiting (u ++ v ++ u'))) as Herr.
  { intros e. apply ensures_lift. cbn [post round_left]. rewrite app_nil_r. apply (finished_error u v bytes); [done..|].
    assert (answers v <= 1); [|lia]. by destruct a as [[]|]. }
  destruct a as [e|data].
  - destruct e; try apply Herr. apply ensures_bind.
    eapply ensures_mono; [apply ensures_check | | done |].
    2: { intros ? ->. by eapply waiting_idle; rewrite ?app_nil_r. }
    intros u3 checked [c' ->].
    assert (Forall (in_range fd offset length) (v ++ [ECheck c'])) as Hv' by (apply Forall_app; split; [done | by repeat constructor]).
    assert (answers (v ++ [ECheck c']) = 0) as Hv0 by done.
    destruct checked as [e|_]; apply ensures_lift.
    + apply (finished_error u (v ++ [ECheck c']) bytes); [done..|]. lia.
    + by apply (partial_idle u (v ++ [ECheck c'])).
  - specialize (Ha data eq_refl). cbn [read_answer]. destruct (N.eqb_spec (lenN data) 0); [apply Herr|].
    destruct (checked_add usize_max filled (lenN data)) as [filled'|] eqn:Ef; [|apply Herr].
    apply checked_add_Some in Ef as [-> _]. apply ensures_lift. simpl. apply partial_read; [done..|]. lia.
Qed.

Lemma read_round_spec u bytes filled :
  partial u bytes filled ->
  ensures (read_round fd offset length kind (bytes, filled)) (fun u' => round_left (u ++ u'))
    (fun _ _ => False) (fun u' => waiting (u ++ u')).
Proof.
  intros Hp. pose proof Hp as [Hlen Hle _ _ _]. apply ensures_bind.
  eapply ensures_mono; [apply ensures_check | | done | by intros ? ->; eapply waiting_idle].
  intros u1 checked [c ->]. rewrite Hlen.
  assert (Forall (in_range fd offset length) [ECheck c]) as Hc by (by constructor).
  assert (forall e, ensures (leave (inl e) filled) (fun u' => round_left (u ++ [ECheck c] ++ u'))
    (fun _ _ => False) (fun u' => waiting (u ++ [ECheck c] ++ u'))) as Herr.
  { intros e. apply ensures_lift. simpl. apply finished_error with bytes; [done..|].
    change (answers [ECheck c]) with 0. lia. }
  destruct (N.leb_spec length filled) as [Hf|Hf].
  { apply ensures_lift. simpl. apply finished_full with bytes; [done..|]. by destruct checked; intros ? [= <-]. }
  destruct checked as [e|_]; [apply Herr|].
  destruct (checked_add u64_max offset filled) as [position|] eqn:Ep; [|apply Herr].
  apply checked_add_Some in Ep as [-> _]. apply ensures_bind.
  eapply ensures_mono; [apply ensures_pread | | done | by intros ? ->; eapply waiting_idle].
  intros u2 a [-> Ha]. apply read_answer_spec; [done | done | lia | done].
Qed.

Lemma read_loop_spec :
  ensures (iterate (read_round fd offset length kind) (replicate (N.to_nat length) 0, 0))
    (fun u '(r, n) => finished u r n) (fun _ _ => False) waiting.
Proof.
  eapply ensures_mono; [apply (ensures_iterate _ (fun u '(bytes, filled) => partial u bytes filled) _
    (fun u '(r, n) => finished u r n) (fun _ _ => False) waiting) | by intros ? [] | done | done].
  - split; [unfold lenN; rewrite length_replicate; lia | lia | constructor | done | intros; apply prefix_nil].
  - intros u [bytes filled] Hp. eapply ensures_mono; [by apply read_round_spec | | done..]. by intros u' [[]|[]].
Qed.

Lemma safe_buffer n : safe (aligned_page_buffer_bytes n).
Proof. unfold aligned_page_buffer_bytes. safe_tac. Qed.

(** The rounds of the loop pay for their own calls, apart from the last two. *)
Definition round_calls (next : (list N * N) + observed) : N := match next with inl _ => 0 | inr _ => 2 end.

Lemma takes_answer c position n bytes filled a :
  ensures (read_answer length kind bytes filled a)
    (fun u next => calls_within (round_calls next) ([ECheck c; EPread fd position n a] ++ u))
    (fun u _ => calls_within 2 ([ECheck c; EPread fd position n a] ++ u))
    (fun u => calls_within 2 ([ECheck c; EPread fd position n a] ++ u)).
Proof.
  assert (forall e, ensures (leave (inl e) filled)
    (fun u next => calls_within (round_calls next) ([ECheck c; EPread fd position n a] ++ u))
    (fun u _ => calls_within 2 ([ECheck c; EPread fd position n a] ++ u))
    (fun u => calls_within 2 ([ECheck c; EPread fd position n a] ++ u))) as Hleave.
  { intros e. apply ensures_lift. apply (calls_app 2 0); [apply (calls_app 1 1 [_] [_]); by apply calls_one | apply calls_nil]. }
  destruct a as [[]|data]; try apply Hleave.
  - apply ensures_bind. eapply ensures_mono; [apply ensures_check | | done | by intros u ->].
    intros u checked [c' ->]. by destruct checked; apply ensures_lift.
  - cbn [read_answer]. destruct (lenN data =? 0); [apply Hleave|]. destruct (checked_add _ _ _); [|apply Hleave].
    by apply ensures_lift.
Qed.

Lemma takes_round s :
  ensures (read_round fd offset length kind s)
    (fun u next => calls_within (round_calls next) u)
    (fun u _ => calls_within 2 u) (calls_within 2).
Proof.
  destruct s as [bytes filled]. apply ensures_bind.
  eapply ensures_mono; [apply ensures_check | | done | intros u ->; apply calls_nil].
  intros u checked [c ->]. destruct (lenN bytes <=? filled); [by apply ensures_lift|].
  destruct checked as [e|_]; [by apply ensures_lift|]. destruct (checked_add _ _ _) as [position|]; [|by apply ensures_lift].
  apply ensures_bind. eapply ensures_mono; [apply ensures_pread | | done | by intros u' ->].
  intros u' a [-> _]. apply takes_answer.
Qed.

Lemma takes_read : takes 3 (read_exact_at_observed fd offset length kind) (fun _ => True).
Proof.
  apply (takes_bind 1 2 _ _ (fun _ => True)).
  { eapply takes_mono; [apply takes_attempt, takes_check | done | done]. }
  intros [e|_] _; [by apply takes_lift|]. pose proof (safe_buffer length).
  destruct (aligned_page_buffer_bytes length); [apply takes_iterate, takes_round | by apply takes_lift | done].
Qed.

(** ** The whole read *)

Lemma finished_early c e : finished [ECheck c] (inl e) 0.
Proof. split; [by repeat constructor | apply N.le_0_l | apply N.le_0_l | done]. Qed.

Lemma finished_cons c u r n : finished u r n -> finished (ECheck c :: u) r n.
Proof.
  intros [H1 H2 H3 H4]. split; [by constructor | done | done|]. intros out E. destruct (H4 out E) as (? & ? & Hs).
  split; [done|]. split; [done|]. intros file [_ Hf]%Forall_cons. by apply Hs.
Qed.

Lemma read_exact_spec :
  ensures (read_exact_at_observed fd offset length kind)
    (fun u '(r, n) => finished u r n) (fun _ _ => False) waiting.
Proof.
  apply ensures_bind. eapply ensures_mono; [apply ensures_check | | done | intros ? ->; split; [constructor | apply N.le_0_l]].
  intros u checked [c ->]. destruct checked as [e|_]; [apply ensures_lift, finished_early|].
  pose proof (safe_buffer length) as Hs. destruct (aligned_page_buffer_bytes length) as [b|e|];
    [|apply ensures_lift, finished_early | done].
  eapply ensures_mono; [apply read_loop_spec | | done |].
  - intros u' [r n] Hf. by apply finished_cons.
  - intros u' [Hr Hc]. split; [by constructor | done].
Qed.
End loop.

(** ** Reads and held descriptors *)

Lemma in_range_owns have fd offset length u :
  fd ∈ have -> Forall (in_range fd offset length) u -> owns have u /\ opened u = [].
Proof.
  intros Hfd. induction 1 as [|e u He _ [IH1 IH2]]; [done|]. rewrite opened_cons, IH2.
  destruct e as [| | | | |fd' p n a| | | | | | | | | | | | | | |]; try done. destruct He as [-> _]. by split.
Qed.

Lemma capable_read_exact have fd offset length kind :
  fd ∈ have ->
  capable have (read_exact_at fd offset length kind) (fun u bytes => opened u = [] /\ lenN bytes = length).
Proof.
  intros Hfd. apply capable_bind. eapply ensures_mono; [apply (read_exact_spec fd offset length kind) | | done |].
  - intros u [r n] Hf. destruct (in_range_owns have fd offset length u Hfd (fi_range _ _ _ _ _ _ Hf)) as [Ho Hn].
    split; [done|]. apply capable_lift. destruct r as [e|bytes]; [done|]. simpl. rewrite app_nil_r.
    split; [done|]. by destruct (fi_bytes _ _ _ _ _ _ Hf bytes eq_refl) as (_ & ? & _).
  - intros u [Hr _]. by eapply in_range_owns.
Qed.

Lemma capable_bounded have fd maximum kind :
  fd ∈ have ->
  capable have (read_bounded_at fd maximum kind) (fun u bytes => opened u = [] /\ lenN bytes <= maximum).
Proof.
  intros Hfd. apply capable_bind. eapply capable_mono; [by apply capable_regular|]. intros u n (st & -> & _).
  apply capable_guard. intros Hn%N.ltb_ge. apply capable_bind. eapply capable_mono; [by apply capable_read_exact|].
  intros u' bytes [Hu Hl]. apply capable_bind. eapply capable_mono; [apply capable_regular; by rewrite Hu|].
  intros u2 n' (st' & -> & _). apply capable_guard. intros _. apply capable_lift.
  rewrite !opened_app, Hu. split; [done | lia].
Qed.

(** ** Undisturbed reads *)

Definition calm : Control.t := Control.mk false false.

(** The calls of a read whose chunks the file answers in full. *)
Fixpoint served (fd position : N) (pieces : list (list N)) : list Event :=
  match pieces with
  | [] => [ECheck calm]
  | piece :: pieces =>
      ECheck calm :: EPread fd position (lenN piece) (inr piece) :: served fd (position + lenN piece) pieces
  end.

(** Pieces of at most a chunk, all but the last one full. *)
Fixpoint pieces_ok (remaining : N) (pieces : list (list N)) : Prop :=
  match pieces with
  | [] => remaining = 0
  | piece :: pieces =>
      0 < lenN piece /\ lenN piece = N.min READ_CHUNK_BYTES remaining /\ pieces_ok (remaining - lenN piece) pieces
  end.

Lemma consuming_round fd offset length kind s : consuming (read_round fd offset length kind s).
Proof.
  destruct s as [bytes filled]. apply consuming_bind; [apply consuming_attempt, consuming_call|].
  intros checked. destruct (_ <=? _); [apply shrinking_lift|]. destruct checked; [apply shrinking_lift|].
  destruct (checked_add _ _ _); [|apply shrinking_lift].
  apply shrinking_bind; [apply consuming_shrinking, consuming_call|]. intros [[]|data]; simpl; try apply shrinking_lift.
  - apply shrinking_bind; [apply consuming_shrinking, consuming_attempt, consuming_call|].
    intros []; apply shrinking_lift.
  - repeat case_match; apply shrinking_lift.
Qed.

Lemma round_served fd offset length kind bytes filled piece t :
  lenN bytes = length -> filled < length -> offset + length <= u64_max ->
  0 < lenN piece -> lenN piece = N.min READ_CHUNK_BYTES (length - filled) ->
  read_round fd offset length kind (bytes, filled)
    (ECheck calm :: EPread fd (offset + filled) (lenN piece) (inr piece) :: t)
  = Done (Ok (inl (fill bytes filled piece, filled + lenN piece))) t.
Proof.
  intros Hl Hf Hw Hp Hpl. unfold read_round, os_bind. cbn. rewrite Hl, (proj2 (N.leb_gt length filled) Hf).
  unfold checked_add at 1. rewrite (proj2 (N.leb_le (offset + filled) u64_max)) by lia. cbn. rewrite !N.eqb_refl.
  replace (_ - filled) with (lenN piece)
    by (unfold saturating_add, usize_max; unfold READ_CHUNK_BYTES in *; lia).
  rewrite N.eqb_refl, N.leb_refl. cbn. rewrite (proj2 (N.eqb_neq (lenN piece) 0)) by lia.
  unfold checked_add. by rewrite (proj2 (N.leb_le (filled + lenN piece) usize_max)) by (unfold usize_max; lia).
Qed.

Lemma served_loop fd offset length kind pieces bytes filled rest :
  lenN bytes = length -> filled <= length -> pieces_ok (length - filled) pieces -> offset + length <= u64_max ->
  iterate (read_round fd offset length kind) (bytes, filled) (served fd (offset + filled) pieces ++ rest)
  = Done (Ok (inr (take (N.to_nat filled) bytes ++ mjoin pieces), length)) rest.
Proof.
  revert bytes filled. induction pieces as [|piece pieces IH]; intros bytes filled Hl Hf Hp Hw;
    rewrite (iterate_unfold _ (consuming_round fd offset length kind)); cbn [pieces_ok] in Hp; unfold os_bind at 1.
  - cbn. rewrite Hl, (proj2 (N.leb_le length filled)) by lia. cbn.
    rewrite take_ge, app_nil_r by (unfold lenN in *; lia). by replace filled with length by lia.
  - destruct Hp as (Hp0 & Hpl & Hp). cbn [served app].
    rewrite round_served by (done || unfold READ_CHUNK_BYTES in *; lia). rewrite <- N.add_assoc, IH.
    + by rewrite take_fill, <- app_assoc by lia.
    + rewrite length_fill; unfold READ_CHUNK_BYTES in *; lia.
    + unfold READ_CHUNK_BYTES in *. lia.
    + by replace (length - (filled + lenN piece)) with (length - filled - lenN piece) by lia.
    + done.
Qed.

#[local] Open Scope os_scope.

(** The history reports that [fd] belongs to the trusted root. *)
Definition vouched (root : FileIdentity.t) (u : list Event) (fd : N) : Prop :=
  exists st, EFstat fd (inr st) ∈ u /\ trusted root st.

Lemma vouched_mono root u v fd : vouched root v fd -> v ⊆ u -> vouched root u fd.
Proof. intros (st & Hin & Ht) Hv. exists st. split; [by apply Hv | done]. Qed.

(** The descriptors of a source are held. *)
Record holds (have : list N) (s : ArtifactSource.t) : Prop := {
  ho_root : ArtifactSource.root s ∈ have;
  ho_manifest : ArtifactSource.manifest s ∈ have;
  ho_objects : ArtifactSource.objects s ∈ have;
  ho_page_tables : ArtifactSource.page_tables s ∈ have
}.

Lemma holds_mono have have' s : holds have s -> holds (have' ++ have) s.
Proof. intros []. split; set_solver. Qed.

(** What a source has checked when it was opened. *)
Record source_trusted (u : list Event) (s : ArtifactSource.t) : Prop := {
  tr_root : exists st, EFstat (ArtifactSource.root s) (inr st) ∈ u
    /\ ArtifactSource.root_identity s = identity_of st /\ private st;
  tr_manifest : vouched (ArtifactSource.root_identity s) u (ArtifactSource.manifest s);
  tr_objects : vouched (ArtifactSource.root_identity s) u (ArtifactSource.objects s);
  tr_page_tables : vouched (ArtifactSource.root_identity s) u (ArtifactSource.page_tables s)
}.

(** An open followed by the check against the root. *)
Lemma capable_trusted {A} have (m : Os N) root kind (k : N -> Os A) Q :
  capable have m (fun u fd => opened u = [fd]) ->
  (forall u fd, opened u = [fd] -> vouched root u fd -> capable (fd :: have) (k fd) (fun u' => Q (u ++ u'))) ->
  capable have (os_bind m (fun fd => os_bind (require_same_filesystem_owner root fd kind) (fun _ => k fd))) Q.
Proof.
  intros Hm Hk. apply capable_bind. eapply capable_mono; [exact Hm|]. intros u fd Hu. rewrite Hu.
  apply capable_bind. eapply capable_mono; [apply capable_same; by left|]. intros u' _ (st & -> & Ht).
  eapply capable_mono.
  - apply (Hk (u ++ [EFstat fd (inr st)])); [by rewrite opened_app, Hu|]. exists st. split; [set_solver | done].
  - intros v a H. cbn beta in H |- *. by rewrite <- app_assoc in H.
Qed.

Section open.
Context (RESOLVER : StoreError + Resolver).

Lemma capable_child_fd have parent name kind :
  parent ∈ have -> capable have (open_child_dir RESOLVER parent name kind) (fun u fd => opened u = [fd]).
Proof. intros Hp. eapply capable_mono; [by apply capable_child|]. intros u fd. apply directory_held. Qed.
Lemma capable_leaf_fd have parent name kind expected :
  parent ∈ have ->
  capable have (open_regular_leaf RESOLVER parent name kind expected) (fun u fd => opened u = [fd]).
Proof. intros Hp. eapply capable_mono; [by apply capable_leaf|]. intros u fd. apply file_held. Qed.

Lemma source_open_spec path :
  capable [] (ArtifactSource.open RESOLVER path) (fun u s => holds (opened u) s /\ source_trusted u s).
Proof.
  apply capable_bind. eapply capable_mono; [apply capable_path|]. intros u root Hroot. rewrite app_nil_r.
  apply capable_bind. eapply capable_mono; [by apply capable_identity|]. intros u0 i (st & -> & ->).
  apply capable_guard. intros Hpriv%negb_false_iff%N.eqb_eq. cbn [opened app mjoin].
  apply capable_trusted; [apply capable_child_fd; set_solver|]. intros u1 parent1 H1 V1.
  apply capable_trusted; [apply capable_child_fd; set_solver|]. intros u2 objects H2 V2.
  apply capable_trusted; [apply capable_child_fd; set_solver|]. intros u3 parent2 H3 V3.
  apply capable_trusted; [apply capable_child_fd; set_solver|]. intros u4 tables H4 V4.
  apply capable_trusted; [apply capable_leaf_fd; set_solver|]. intros u5 manifest H5 V5.
  apply capable_lift. simpl. rewrite app_nil_r. split.
  - rewrite ?opened_app, ?opened_cons, ?opened_app, H1, H2, H3, H4, H5. split; simpl; set_solver.
  - split; simpl.
    + exists st. split; [set_solver | done].
    + eapply vouched_mono; [exact V5 | set_solver].
    + eapply vouched_mono; [exact V2 | set_solver].
    + eapply vouched_mono; [exact V4 | set_solver].
Qed.

Lemma from_retained_spec root manifest objects page_tables have :
  root ∈ have -> manifest ∈ have -> objects ∈ have -> page_tables ∈ have ->
  capable have (ArtifactSource.from_retained root manifest objects page_tables)
    (fun u s => opened u = [] /\ holds have s /\ source_trusted u s).
Proof.
  intros H1 H2 H3 H4.
  apply capable_bind. eapply capable_mono; [by apply capable_directory|]. intros u1 _ (s1 & -> & _).
  apply capable_bind. eapply capable_mono; [by apply capable_directory|]. intros u2 _ (s2 & -> & _).
  apply capable_bind. eapply capable_mono; [by apply capable_directory|]. intros u3 _ (s3 & -> & _).
  apply capable_bind. eapply capable_mono; [by apply capable_regular|]. intros u4 _ (s4 & -> & _).
  apply capable_bind. eapply capable_mono; [by apply capable_identity|]. intros u5 _ (s5 & -> & ->).
  apply capable_guard. intros Hpriv%negb_false_iff%N.eqb_eq.
  apply capable_bind. eapply capable_mono; [by apply capable_same|]. intros u6 _ (s6 & -> & T6).
  apply capable_bind. eapply capable_mono; [by apply capable_same|]. intros u7 _ (s7 & -> & T7).
  apply capable_bind. eapply capable_mono; [by apply capable_same|]. intros u8 _ (s8 & -> & T8).
  apply capable_lift. split; [done|]. split; [done|]. split; simpl.
  - exists s5. split; [set_solver | done].
  - exists s6. split; [set_solver | done].
  - exists s7. split; [set_solver | done].
  - exists s8. split; [set_solver | done].
Qed.

(** ** Objects and page tables *)

(** The calls that opened a blob: below its directory, by the hexadecimal text of
    its digest, a regular file of the expected length that the root vouches for. *)
Definition opened_blob (root : FileIdentity.t) (parent : N) (digest : Digest) (length : N)
    (u : list Event) (fd : N) : Prop :=
  opened u = [fd] /\ vouched root u fd
  /\ exists v w, u = v ++ w /\ opened_file parent (Digest.path_component digest) (Some length) v fd.

Lemma capable_blob have root parent digest length kind :
  parent ∈ have ->
  capable have
    (fd <- open_regular_leaf RESOLVER parent (Digest.path_component digest) kind (Some length);
     _ <- require_same_filesystem_owner root fd kind;
     lift (Ok fd))
    (opened_blob root parent digest length).
Proof.
  intros Hp. apply capable_bind. eapply capable_mono; [by apply capable_leaf|]. intros u fd Hf.
  pose proof (file_held _ _ _ _ _ Hf) as Hu. rewrite Hu.
  apply capable_bind. eapply capable_mono; [apply capable_same; by left|]. intros u' _ (st & -> & Ht).
  apply capable_lift. simpl. split; [by rewrite opened_app, Hu|]. split; [exists st; split; [set_solver | done]|].
  by exists u, [EFstat fd (inr st)].
Qed.

Lemma capable_open_object have s digest length :
  ArtifactSource.objects s ∈ have ->
  capable have (ArtifactSource.open_object RESOLVER s digest length)
    (opened_blob (ArtifactSource.root_identity s) (ArtifactSource.objects s) digest length).
Proof. apply capable_blob. Qed.
Lemma capable_open_table have s digest length :
  ArtifactSource.page_tables s ∈ have ->
  capable have (ArtifactSource.open_page_table RESOLVER s digest length)
    (opened_blob (ArtifactSource.root_identity s) (ArtifactSource.page_tables s) digest length).
Proof. apply capable_blob. Qed.
End open.

Lemma source_trusted_app u v s : source_trusted u s -> source_trusted (u ++ v) s.
Proof.
  intros [(st & Hin & Hr) H2 H3 H4]. split; [exists st; split; [set_solver | done]|..];
    (eapply vouched_mono; [eassumption | set_solver]).
Qed.
