(* ===== verification/StorePages.v ===== *)
(** Page specifications of a stored artifact and the authoritative page reader
    (crates/runnel-store/src/page.rs). *)
From stdpp Require Import prelude gmap strings.
From S2P Require Import Prelude Format FormatManifest FormatArtifact Store StoreOs StoreFs.
#[local] Open Scope N_scope.
#[local] Open Scope os_scope.

(** [From<FormatError> for StoreError]. *)
Definition from_format {A} (m : result FormatError.t A) : result StoreError A :=
  match m with Ok a => Ok a | Err e => Err (Format_ e) | Panic => Panic end.

(** An open object file is a descriptor number. *)
Module RetainedObject.
Record t : Type := mk { descriptor : ObjectRecord.t; fd : N; page_table : PageTable.t }.
End RetainedObject.

(** A [PageSpec] with its retained object. *)
Module BoundSpec.
Record t : Type := mk { spec : PageSpec.t; object : RetainedObject.t }.
Definition key (s : t) : PageKey := PageSpec.key (spec s).
Definition offset (s : t) : N := PageSpec.offset (spec s).
Definition length (s : t) : N := PageSpec.length (spec s).
Definition fingerprint (s : t) : Digest := PageSpec.fingerprint (spec s).

Definition for_object (object : RetainedObject.t) (index : N) : result StoreError t :=
  let descriptor := RetainedObject.descriptor object in
  let page_count := PageTable.page_count (RetainedObject.page_table object) in
  _ ← guard_err (page_count <=? index) (PageOutOfRange index page_count);
  let page_size := ObjectRecord.page_size descriptor in
  offset ← ok_or (checked_mul u64_max page_size index) (ArithmeticOverflow "computing a page offset");
  remaining ← ok_or (checked_sub (ObjectRecord.length descriptor) offset)
    (Invariant "validated page offset exceeds object length");
  hash ← ok_or (PageTable.page_hash (RetainedObject.page_table object) index)
    (Invariant "verified page table omitted an in-range page hash");
  Ok (mk (PageSpec.mk (PageKey.mk (ObjectRecord.digest descriptor) page_size index) offset
            (N.min remaining page_size) (Digest.from_bytes hash)) object).
End BoundSpec.

Definition validate_specification (s : BoundSpec.t) : result StoreError unit :=
  let object := BoundSpec.object s in
  let descriptor := RetainedObject.descriptor object in
  let table := RetainedObject.page_table object in
  let page_size := ObjectRecord.page_size descriptor in
  let key := BoundSpec.key s in
  _ ← guard_err (negb (PageKey.object key =? ObjectRecord.digest descriptor)
                 || negb (PageKey.page_size key =? page_size)
                 || negb (PageTable.object_digest table =? ObjectRecord.digest descriptor)
                 || negb (PageTable.page_size table =? page_size)
                 || negb (PageTable.object_length table =? ObjectRecord.length descriptor))
        (Integrity "page specification");
  expected_offset ← ok_or (checked_mul u64_max page_size (PageKey.index key))
    (ArithmeticOverflow "validating a page offset");
  expected_length ←
    ok_or (remaining ← checked_sub (ObjectRecord.length descriptor) expected_offset;
           Some (N.min remaining page_size)) (Integrity "page specification");
  retained_hash ← ok_or (Digest.from_bytes <$> PageTable.page_hash table (PageKey.index key))
    (PageOutOfRange (PageKey.index key) (PageTable.page_count table));
  guard_err (negb (BoundSpec.offset s =? expected_offset)
             || negb (BoundSpec.length s =? expected_length)
             || negb (BoundSpec.fingerprint s =? retained_hash))
    (Integrity "page specification").

(** * Stored artifacts *)

Module StoredArtifact.
Record t : Type := mk { manifest : Manifest.t; objects : gmap N RetainedObject.t }.

Section open.
Context (sha256 : list N -> Digest) (from_slice : list N -> Token * option SyntaxError).
Context (RESOLVER : StoreError + Resolver) (source : ArtifactSource.t).

(** The loop over the object records. *)
Definition open_record (objects : gmap N RetainedObject.t) (descriptor : ObjectRecord.t)
    : Os (gmap N RetainedObject.t) :=
  _ <- check;
  page_table_fd <- ArtifactSource.open_page_table RESOLVER source (ObjectRecord.page_table descriptor)
                     (ObjectRecord.page_table_length descriptor);
  page_table_bytes <- read_exact_at page_table_fd 0 (ObjectRecord.page_table_length descriptor) "page table";
  final_table_length <- metadata_len_regular page_table_fd "page table";
  _ <- lift (guard_err (negb (final_table_length =? ObjectRecord.page_table_length descriptor))
               (LengthMismatch "page table" (ObjectRecord.page_table_length descriptor) final_table_length));
  page_table <- lift (from_format (PageTable.parse_verified sha256 descriptor page_table_bytes));
  object_fd <- ArtifactSource.open_object RESOLVER source (ObjectRecord.digest descriptor)
                 (ObjectRecord.length descriptor);
  let retained := RetainedObject.mk descriptor object_fd page_table in
  _ <- lift (guard_err (bool_decide (is_Some (objects !! ObjectRecord.digest descriptor)))
               (Invariant "validated manifest contained a duplicate object"));
  lift (Ok (<[ObjectRecord.digest descriptor := retained]> objects)).

Definition open_source_internal (limits : Limits.t) (expected : option Digest) : Os t :=
  limits <- lift (from_format (Limits.validate limits));
  manifest_bytes <- ArtifactSource.manifest_bytes source (Limits.manifest_bytes limits);
  manifest <- lift (from_format
    match expected with
    | Some expected => parse_with_expected_id sha256 from_slice manifest_bytes limits expected
    | None => parse_with_limits sha256 from_slice manifest_bytes limits
    end);
  objects <- for_each open_record ∅ (Manifest.objects manifest);
  _ <- check;
  lift (Ok (mk manifest objects)).
End open.

Definition page_spec (a : t) (key : PageKey) : result StoreError BoundSpec.t :=
  object ← ok_or (objects a !! PageKey.object key) (Missing "object descriptor");
  _ ← guard_err (negb (PageKey.page_size key
                       =? ObjectRecord.page_size (RetainedObject.descriptor object)))
        (Integrity "page geometry");
  BoundSpec.for_object object (PageKey.index key).

(** [page_specs], the iterator as a list. *)
Definition page_specs (a : t) : list (result StoreError BoundSpec.t) :=
  object ← btree_values (objects a);
  BoundSpec.for_object object <$> rangeN (PageTable.page_count (RetainedObject.page_table object)).

(** [tensor_page_specs], the iterator over [first_page..=last_page] as a list. *)
Definition tensor_page_specs (a : t) (tensor_id : N)
    : result StoreError (list (result StoreError BoundSpec.t)) :=
  tensor ← ok_or (t ← Manifest.tensors (manifest a) !! N.to_nat tensor_id;
                  if TensorRecord.id t =? tensor_id then Some t else None)
    (Missing "tensor descriptor");
  object ← ok_or (objects a !! TensorRecord.object tensor)
    (Invariant "validated tensor names an absent retained object");
  let page_size := ObjectRecord.page_size (RetainedObject.descriptor object) in
  end_exclusive ← ok_or (checked_add u64_max (TensorRecord.offset tensor) (TensorRecord.length tensor))
    (ArithmeticOverflow "computing a tensor byte range");
  last_byte ← ok_or (checked_sub end_exclusive 1) (Invariant "validated tensor has zero length");
  _ ← (if page_size =? 0 then Panic else Ok tt);
  let first_page := TensorRecord.offset tensor / page_size in
  let last_page := last_byte / page_size in
  Ok ((fun i => BoundSpec.for_object object (first_page + i))
        <$> rangeN (last_page + 1 - first_page)).
End StoredArtifact.

(** * Reading *)

Module ReadStats.
Record t : Type := mk { physical_bytes : N; io_nanoseconds : N }.
End ReadStats.

(** [with_capacity n] is the capacity of the buffer that the allocator returns
    when [n] bytes are asked for. *)
Section reader.
Context (sha256 : list N -> Digest) (with_capacity : N -> N).

(** The hashing loop: what the hasher has been fed. *)
Definition hash_chunk (hashed chunk : list N) : Os (list N) :=
  _ <- check;
  lift (Ok (hashed ++ chunk)).

Definition check_object_length (s : BoundSpec.t) : Os unit :=
  let expected := ObjectRecord.length (RetainedObject.descriptor (BoundSpec.object s)) in
  actual <- metadata_len_regular (RetainedObject.fd (BoundSpec.object s)) "object";
  lift (guard_err (negb (actual =? expected)) (LengthMismatch "object" expected actual)).

(** The closure of [SyncReader::read_observed] before it starts to read. *)
Definition before_read (s : BoundSpec.t) : Os unit :=
  _ <- check;
  _ <- lift (validate_specification s);
  check_object_length s.

(** And after the bytes are there. *)
Definition after_read (s : BoundSpec.t) (bytes : list N) : Os VerifiedPage.t :=
  _ <- check_object_length s;
  hashed <- for_each hash_chunk [] (chunks (N.to_nat READ_CHUNK_BYTES) bytes);
  _ <- lift (guard_err (negb (sha256 hashed =? BoundSpec.fingerprint s)) (Integrity "page"));
  _ <- check;
  allocation_bytes <- lift (aligned_page_buffer_bytes (BoundSpec.length s));
  lift (Ok (VerifiedPage.mk (BoundSpec.key s) bytes (with_capacity allocation_bytes))).

(** [SyncReader::read_observed]. *)
Definition read_observed (s : BoundSpec.t) : Os ((StoreError + VerifiedPage.t) * ReadStats.t) :=
  ready <- attempt (before_read s);
  match ready with
  | inl e => lift (Ok (inl e, ReadStats.mk 0 0))
  | inr _ =>
      '(read_result, observed_bytes) <-
        read_exact_at_observed (RetainedObject.fd (BoundSpec.object s)) (BoundSpec.offset s)
          (BoundSpec.length s) "page";
      io_nanoseconds <- elapsed;
      page <- match read_result with
              | inl e => lift (Ok (inl e))
              | inr bytes => attempt (after_read s bytes)
              end;
      lift (Ok (page, ReadStats.mk observed_bytes (N.min io_nanoseconds u64_max)))
  end.
End reader.
