(* ===== verification/StorePagesFacts.v ===== *)
(** The pages of an opened artifact: specifications exist for exactly the pages
    of its objects and cover every tensor, and a page read returns only bytes
    whose digest the authenticated page table lists. *)
From stdpp Require Import prelude gmap strings sorting.
From S2P Require Import Prelude Format FormatManifest FormatDigest FormatSchema FormatArtifact.
From S2P Require Import FormatVerify Store StoreOs StoreFs StoreFsFacts StorePages.
#[local] Open Scope N_scope.
#[local] Open Scope os_scope.

Section sha256.
Context (sha256 : list N -> Digest).

(** * Opened artifacts *)

Record retained_ok (limits : Limits.t) (o : RetainedObject.t) : Prop := {
  ro_object : object_ok limits (RetainedObject.descriptor o);
  ro_table : table_ok sha256 (RetainedObject.descriptor o) (RetainedObject.page_table o)
}.

Record stored_ok (limits : Limits.t) (a : StoredArtifact.t) : Prop := {
  so_limits : limits_ok limits;
  so_manifest : manifest_ok limits (StoredArtifact.manifest a);
  so_present : forall r, r ∈ Manifest.objects (StoredArtifact.manifest a) ->
    is_Some (StoredArtifact.objects a !! ObjectRecord.digest r);
  so_retained : forall d o, StoredArtifact.objects a !! d = Some o ->
    retained_ok limits o /\ ObjectRecord.digest (RetainedObject.descriptor o) = d
    /\ RetainedObject.descriptor o ∈ Manifest.objects (StoredArtifact.manifest a)
}.

Lemma post_from_format {A} (m : result FormatError.t A) Q :
  post m Q (fun _ => True) -> post (from_format m) Q (fun _ => True).
Proof. by destruct m. Qed.

Section open.
Context (from_slice : list N -> Token * option SyntaxError) (RESOLVER : StoreError + Resolver).
Context (source : ArtifactSource.t).

(** The descriptor of a retained object was opened, by its digest. *)
Definition object_opened (u : list Event) (o : RetainedObject.t) : Prop :=
  RetainedObject.fd o ∈ opened u
  /\ exists v w x, u = v ++ w ++ x
       /\ opened_blob (ArtifactSource.root_identity source) (ArtifactSource.objects source)
            (ObjectRecord.digest (RetainedObject.descriptor o))
            (ObjectRecord.length (RetainedObject.descriptor o)) w (RetainedObject.fd o).

(** More calls before or after. *)
Lemma object_opened_app u v o : object_opened u o -> object_opened (u ++ v) o.
Proof.
  intros (Hin & v' & w & x & -> & Hb). split; [rewrite opened_app; set_solver|].
  exists v', w, (x ++ v). split; [by rewrite <- !app_assoc | done].
Qed.

Lemma object_opened_cons u v o : object_opened v o -> object_opened (u ++ v) o.
Proof.
  intros (Hin & v' & w & x & -> & Hb). split; [rewrite opened_app; set_solver|].
  exists (u ++ v'), w, x. by rewrite <- !app_assoc.
Qed.

Context (have : list N) (Hsource : holds have source).

Lemma open_record_spec objects have' r :
  capable (have' ++ have) (StoredArtifact.open_record sha256 RESOLVER source objects r)
    (fun u objects' => exists o, objects' = <[ObjectRecord.digest r := o]> objects
       /\ RetainedObject.descriptor o = r /\ table_ok sha256 r (RetainedObject.page_table o)
       /\ object_opened u o).
Proof.
  pose proof (holds_mono have have' source Hsource) as [_ _ Ho Ht].
  apply capable_bind. eapply capable_mono; [apply capable_check|]. intros u0 ? H0. rewrite H0.
  apply capable_bind. eapply capable_mono; [by apply capable_open_table|]. intros u1 table_fd (H1 & _ & _).
  apply capable_bind. eapply capable_mono; [apply capable_read_exact; rewrite H1; by left|]. intros u2 bytes [H2 _].
  apply capable_bind. eapply capable_mono; [apply capable_regular; rewrite H1; set_solver|].
  intros u3 n (st & -> & _). apply capable_guard. intros _.
  apply capable_bind, capable_lift. eapply post_strengthen; [apply post_from_format, parse_verified_spec|].
  intros table [Htable _]. apply capable_bind. eapply capable_mono; [apply capable_open_object; set_solver|].
  intros u4 fd Hb. apply capable_guard. intros _. apply capable_lift.
  exists (RetainedObject.mk r fd table). do 3 (split; [done|]). split.
  - destruct Hb as [Hfd _]. rewrite ?opened_app, Hfd. simpl. set_solver.
  - exists (u0 ++ u1 ++ u2 ++ [EFstat table_fd (inr st)]), u4, []. split; [|done].
    by rewrite ?app_nil_r, <- ?app_assoc.
Qed.

(** What opening the artifact gives, with the calls it made. *)
Definition opened_store (limits : Limits.t) (u : list Event) (a : StoredArtifact.t) : Prop :=
  stored_ok limits a
  /\ forall d o, StoredArtifact.objects a !! d = Some o -> object_opened u o.

Lemma open_records_spec limits records have' :
  Forall (object_ok limits) records ->
  capable (have' ++ have) (for_each (StoredArtifact.open_record sha256 RESOLVER source) ∅ records)
    (fun u objects => (forall r, r ∈ records -> is_Some (objects !! ObjectRecord.digest r))
       /\ forall d o, objects !! d = Some o ->
            retained_ok limits o /\ ObjectRecord.digest (RetainedObject.descriptor o) = d
            /\ RetainedObject.descriptor o ∈ records /\ object_opened u o).
Proof.
  intros Hall. rewrite Forall_forall in Hall.
  apply (capable_for_each _ _ _ _ (fun u dn objects =>
    (forall r, r ∈ dn -> is_Some (objects !! ObjectRecord.digest r))
    /\ forall d o, objects !! d = Some o ->
         retained_ok limits o /\ ObjectRecord.digest (RetainedObject.descriptor o) = d
         /\ RetainedObject.descriptor o ∈ dn /\ object_opened u o)).
  { split; [intros r Hr; by apply elem_of_nil in Hr | intros d o Ho; by rewrite lookup_empty in Ho]. }
  intros u dn r rest objects Hl [H1 H2]. rewrite app_assoc.
  eapply capable_mono; [apply open_record_spec|]. intros u' objects' (o & -> & Hd & Ht & Hopen). split.
  - intros r' [Hr'| ->%list_elem_of_singleton]%elem_of_app; rewrite lookup_insert_is_Some; [|by left].
    destruct (decide (ObjectRecord.digest r = ObjectRecord.digest r')); [by left | right; auto].
  - intros d o' [[<- <-]|[Hne Ho']]%lookup_insert_Some.
    + split; [split; rewrite Hd; [apply Hall; rewrite Hl; set_solver | done]|]. split; [by rewrite Hd|].
      split; [rewrite Hd; set_solver|]. by apply object_opened_cons.
    + destruct (H2 d o' Ho') as (? & ? & ? & ?). split; [done|]. split; [done|].
      split; [set_solver | by apply object_opened_app].
Qed.

Lemma open_source_spec limits expected :
  capable have (StoredArtifact.open_source_internal sha256 from_slice RESOLVER source limits expected)
    (opened_store limits).
Proof.
  apply capable_bind, capable_lift.
  eapply post_mono; [apply post_from_format; eapply post_mono; [apply limits_validate_spec | exact (fun _ H => H) | done]
    | intros ? [-> Hlimits] | done].
  apply capable_bind. eapply capable_mono; [apply capable_bounded, Hsource|]. intros u bytes [Hu _]. simpl. rewrite Hu.
  apply capable_bind, capable_lift. apply (post_strengthen _ (manifest_ok limits)).
  { apply post_from_format. destruct expected as [id|].
    - eapply post_strengthen; [apply parse_with_expected_id_spec|]. intros m [Hm _]. apply Hm.
    - eapply post_strengthen; [apply parse_with_limits_spec|]. intros m Hm. apply Hm. }
  intros m Hm. apply capable_bind.
  eapply capable_mono; [apply (open_records_spec limits _ []), (os_each _ _ (ma_objects _ _ Hm))|].
  intros u' objects [H1 H2]. apply capable_bind. eapply capable_mono; [apply capable_check|]. intros u2 ? _.
  apply capable_lift. split.
  - split; simpl; [done | done | done|]. intros d o Ho. by destruct (H2 d o Ho) as (? & ? & ? & _).
  - intros d o Ho. destruct (H2 d o Ho) as (_ & _ & _ & Hopen). simpl. rewrite ?app_nil_r.
    by apply object_opened_cons, object_opened_app.
Qed.
End open.

(** * Page specifications *)

(** The specification of page [i] of an object. *)
Record spec_of (o : RetainedObject.t) (i : N) (s : BoundSpec.t) : Prop := {
  sp_object : BoundSpec.object s = o;
  sp_key : BoundSpec.key s = PageKey.mk (ObjectRecord.digest (RetainedObject.descriptor o))
             (ObjectRecord.page_size (RetainedObject.descriptor o)) i;
  sp_offset : BoundSpec.offset s = i * ObjectRecord.page_size (RetainedObject.descriptor o);
  sp_length : BoundSpec.length s
    = N.min (ObjectRecord.page_size (RetainedObject.descriptor o))
            (ObjectRecord.length (RetainedObject.descriptor o) - BoundSpec.offset s);
  sp_positive : 0 < BoundSpec.length s;
  sp_fingerprint : exists h, PageTable.page_hash (RetainedObject.page_table o) i = Some h
    /\ BoundSpec.fingerprint s = Digest.from_bytes h;
  sp_valid : validate_specification s = Ok tt
}.

Section object.
Context (limits : Limits.t) (Hlimits : limits_ok limits) (o : RetainedObject.t) (Ho : retained_ok limits o).
Let r := RetainedObject.descriptor o.

Lemma object_length_width : ObjectRecord.length r <= u64_max.
Proof.
  pose proof (ob_length _ _ (ro_object _ _ Ho)). pose proof (li_object _ Hlimits).
  assert (FORMAT_OBJECT_BYTES <= u64_max) by (vm_compute; discriminate). unfold r. lia.
Qed.

Lemma for_object_spec i :
  match BoundSpec.for_object o i with
  | Ok s => i < PageTable.page_count (RetainedObject.page_table o) /\ spec_of o i s
  | Err e => PageTable.page_count (RetainedObject.page_table o) <= i
      /\ e = PageOutOfRange i (PageTable.page_count (RetainedObject.page_table o))
  | Panic => False
  end.
Proof.
  pose proof (ro_table _ _ Ho) as Ht. pose proof object_length_width as Hw. fold r in Ht.
  pose proof (page_size_positive _ _ (ro_object _ _ Ho)) as Hps. fold r in Hps. unfold BoundSpec.for_object.
  destruct (N.leb_spec (PageTable.page_count (RetainedObject.page_table o)) i) as [Hge|Hi]; [done|].
  cbn [guard_err mbind result_bind]. destruct (page_hash_some _ _ _ i Ht Hi) as (h & Hh & _).
  pose proof Hi as Hin. rewrite (tb_page_count _ _ _ Ht), (ceiling_spec _ _ _ Hps) in Hin.
  assert (checked_mul u64_max (ObjectRecord.page_size r) i = Some (ObjectRecord.page_size r * i)) as Em.
  { unfold checked_mul. rewrite (proj2 (N.leb_le _ _)); [done | lia]. }
  assert (checked_sub (ObjectRecord.length r) (ObjectRecord.page_size r * i)
          = Some (ObjectRecord.length r - ObjectRecord.page_size r * i)) as Es.
  { unfold checked_sub. rewrite (proj2 (N.leb_le _ _)); [done | lia]. }
  fold r. rewrite Em. cbn [ok_or mbind result_bind]. rewrite Es. cbn [ok_or mbind result_bind].
  rewrite Hh. cbn [ok_or mbind result_bind]. split; [done|]. split; cbn; try done.
  - unfold r. lia.
  - fold r. lia.
  - fold r. lia.
  - by exists h.
  - unfold validate_specification. cbn. fold r.
    rewrite (tb_object _ _ _ Ht), (tb_page_size _ _ _ Ht), (tb_object_length _ _ _ Ht), !N.eqb_refl. cbn.
    rewrite Em. cbn. rewrite Es. cbn. rewrite Hh. cbn. by rewrite !N.eqb_refl.
Qed.
End object.

(** ** The pages of a tensor *)

Definition within_page (b : N) (s : BoundSpec.t) : Prop :=
  BoundSpec.offset s <= b < BoundSpec.offset s + BoundSpec.length s.
#[export] Instance within_page_dec b s : Decision (within_page b s).
Proof. unfold within_page. apply _. Defined.

(** Consecutive pages from [first]. *)
Definition consecutive (o : RetainedObject.t) (first : N) (specs : list BoundSpec.t) : Prop :=
  forall i s, specs !! i = Some s -> spec_of o (first + N.of_nat i) s.

Lemma consecutive_covers o first specs b :
  0 < ObjectRecord.page_size (RetainedObject.descriptor o) ->
  consecutive o first specs -> b < ObjectRecord.length (RetainedObject.descriptor o) ->
  first <= b / ObjectRecord.page_size (RetainedObject.descriptor o) < first + lenN specs ->
  length (filter (within_page b) specs) = 1%nat.
Proof.
  intros Hps. set (ps := ObjectRecord.page_size _) in *. set (len := ObjectRecord.length _).
  pose proof (N.div_mod b ps ltac:(lia)) as Hdm. pose proof (N.mod_lt b ps ltac:(lia)) as Hm.
  revert Hdm Hm. generalize (b / ps) (b mod ps). intros p q Hdm Hm.
  revert first. induction specs as [|s specs IH]; intros first Hc Hb Hp; [unfold lenN in Hp; simpl in Hp; lia|].
  assert (consecutive o (first + 1) specs) as Hc'.
  { intros i s' Hi. replace (first + 1 + N.of_nat i) with (first + N.of_nat (S i)) by lia. by apply Hc. }
  pose proof (Hc 0%nat s eq_refl) as Hs. replace (first + N.of_nat 0) with first in Hs by lia.
  pose proof (sp_offset _ _ _ Hs) as Eo. pose proof (sp_length _ _ _ Hs) as El. fold ps len in Eo, El.
  rewrite filter_cons. unfold lenN in *. simpl in Hp. destruct (decide (p = first)) as [->|Hne].
  - rewrite decide_True by (unfold within_page; lia). simpl. f_equal.
    apply length_zero_iff_nil, filter_none. intros s' Hs'.
    apply list_elem_of_lookup in Hs' as [i Hi]. pose proof (sp_offset _ _ _ (Hc' i s' Hi)) as Eo'.
    fold ps in Eo'. unfold within_page. nia.
  - rewrite decide_False.
    + apply (IH (first + 1) Hc' Hb). lia.
    + unfold within_page. assert (first + 1 <= p) as Hlt by lia.
      pose proof (N.mul_le_mono_r _ _ ps Hlt). lia.
Qed.

Lemma for_object_range limits o first n :
  limits_ok limits -> retained_ok limits o -> first + n <= PageTable.page_count (RetainedObject.page_table o) ->
  exists specs, (fun i => BoundSpec.for_object o (first + i)) <$> rangeN n = Ok <$> specs
    /\ lenN specs = n /\ consecutive o first specs.
Proof.
  intros Hl Ho Hn.
  assert (forall l, Forall (fun i => i < n) l -> exists specs,
    (fun i => BoundSpec.for_object o (first + i)) <$> l = Ok <$> specs
    /\ Forall2 (fun i s => spec_of o (first + i) s) l specs) as Hspecs.
  { induction l as [|i l IH]; intros Hall; [exists []; by split|].
    apply Forall_cons in Hall as [Hi Hall]. destruct (IH Hall) as (specs & E & H2).
    pose proof (for_object_spec limits Hl o Ho (first + i)) as Hs. rewrite fmap_cons, E.
    destruct (BoundSpec.for_object o (first + i)) as [s|e|]; [|lia|done].
    exists (s :: specs). split; [done|]. constructor; [apply Hs | done]. }
  destruct (Hspecs (rangeN n)) as (specs & E & H2).
  { apply Forall_forall. intros i. apply elem_of_rangeN. }
  exists specs. split; [done|]. pose proof (Forall2_length _ _ _ H2) as Hlen. rewrite length_rangeN in Hlen.
  split; [unfold lenN; lia|]. intros i s Hi. destruct (Forall2_lookup_r _ _ _ _ _ H2 Hi) as (j & Hj & Hs).
  unfold rangeN in Hj. apply list_lookup_fmap_Some in Hj as (k & -> & Hk). apply lookup_seq in Hk as [-> _].
  by rewrite Nat.add_0_l in Hs.
Qed.

(** What the page specifications of a tensor are. *)
Record tensor_pages (o : RetainedObject.t) (t : TensorRecord.t) (specs : list BoundSpec.t) : Prop := {
  tp_each : exists first, consecutive o first specs;
  tp_cover : forall b, covers b (span t) -> length (filter (within_page b) specs) = 1%nat;
  tp_tight : forall s, s ∈ specs -> exists b, covers b (span t) /\ within_page b s
}.

Section tensor.
Context (limits : Limits.t) (a : StoredArtifact.t) (Ha : stored_ok limits a).

Lemma retained_tensor t :
  t ∈ Manifest.tensors (StoredArtifact.manifest a) ->
  exists o, StoredArtifact.objects a !! TensorRecord.object t = Some o /\ retained_ok limits o
    /\ 0 < TensorRecord.length t
    /\ TensorRecord.offset t + TensorRecord.length t <= ObjectRecord.length (RetainedObject.descriptor o).
Proof.
  intros Hin. pose proof (so_manifest _ _ Ha) as Hm.
  pose proof (ts_each _ _ (ma_tensors _ _ Hm)) as Heach. rewrite Forall_forall in Heach.
  pose proof (Heach t Hin) as Ht. destruct (te_object _ _ Ht) as (r & Hr & Hd & Hle).
  destruct (so_present _ _ Ha r Hr) as [o Ho]. destruct (so_retained _ _ Ha _ _ Ho) as (Hok & Hod & Hino).
  exists o. rewrite <- Hd. split; [done|]. split; [done|]. split; [apply (te_length _ _ Ht)|].
  pose proof (StronglySorted_NoDup _ (os_sorted _ _ (ma_objects _ _ Hm))) as Hnd.
  by rewrite (NoDup_fmap_eq _ _ _ _ Hnd Hino Hr Hod).
Qed.

Lemma tensor_page_specs_spec t :
  t ∈ Manifest.tensors (StoredArtifact.manifest a) ->
  exists o specs, StoredArtifact.objects a !! TensorRecord.object t = Some o
    /\ StoredArtifact.tensor_page_specs a (TensorRecord.id t) = Ok (Ok <$> specs)
    /\ tensor_pages o t specs.
Proof.
  intros Hin. destruct (retained_tensor t Hin) as (o & Ho & Hok & Hpos & Hle).
  pose proof (object_length_width limits (so_limits _ _ Ha) o Hok) as Hw.
  pose proof (page_size_positive _ _ (ro_object _ _ Hok)) as Hps. pose proof (ro_table _ _ Hok) as Htab.
  set (ps := ObjectRecord.page_size (RetainedObject.descriptor o)) in *.
  set (first := TensorRecord.offset t / ps).
  set (last := (TensorRecord.offset t + TensorRecord.length t - 1) / ps).
  assert (first <= last) as Hfl by (apply N.Div0.div_le_mono; lia).
  assert (last < PageTable.page_count (RetainedObject.page_table o)) as Hlast.
  { rewrite (tb_page_count _ _ _ Htab). fold ps. apply (ceiling_spec _ _ _ Hps).
    pose proof (N.Div0.mul_div_le (TensorRecord.offset t + TensorRecord.length t - 1) ps). fold last in H. lia. }
  destruct (for_object_range limits o first (last + 1 - first) (so_limits _ _ Ha) Hok) as (specs & E & Hlen & Hc); [lia|].
  exists o, specs. split; [done|]. split.
  { apply list_elem_of_lookup in Hin as [i Hi]. unfold StoredArtifact.tensor_page_specs.
    rewrite (ts_ids _ _ (ma_tensors _ _ (so_manifest _ _ Ha)) i t Hi), Nat2N.id, Hi. cbn [mbind option_bind].
    rewrite (ts_ids _ _ (ma_tensors _ _ (so_manifest _ _ Ha)) i t Hi), N.eqb_refl. cbn [ok_or mbind result_bind].
    rewrite Ho. cbn [ok_or mbind result_bind]. fold ps. unfold checked_add, checked_sub.
    rewrite (proj2 (N.leb_le _ u64_max)) by lia. cbn [ok_or mbind result_bind].
    rewrite (proj2 (N.leb_le 1 _)) by lia. cbn [ok_or mbind result_bind].
    rewrite (proj2 (N.eqb_neq ps 0)) by lia. cbn [mbind result_bind]. fold first last. by rewrite E. }
  split; [by exists first | |].
  - intros b [Hb1 Hb2]. cbn [span fst snd] in *. apply (consecutive_covers o first specs b Hps Hc); [lia|]. fold ps.
    assert (first <= b / ps) by (apply N.Div0.div_le_mono; lia).
    assert (b / ps <= last) by (apply N.Div0.div_le_mono; lia). lia.
  - intros s Hs. apply list_elem_of_lookup in Hs as [i Hi].
    pose proof (Hc i s Hi) as Hsp. apply lookup_lt_Some in Hi. unfold lenN in Hlen.
    pose proof (sp_offset _ _ _ Hsp) as Eo. pose proof (sp_length _ _ _ Hsp) as El. fold ps in Eo, El.
    exists (N.max (TensorRecord.offset t) (BoundSpec.offset s)). unfold covers, within_page. cbn [span fst snd].
    pose proof (N.Div0.mul_div_le (TensorRecord.offset t + TensorRecord.length t - 1) ps) as Hd. fold last in Hd.
    pose proof (N.mul_succ_div_gt (TensorRecord.offset t) ps ltac:(lia)) as Hg. fold first in Hg. nia.
Qed.
End tensor.
End sha256.
