(* ===== verification/StoreRead.v ===== *)
(** The page reader: every read touches only its retained descriptor and the range
    of its page, ends, and returns a page only if its bytes have the digest that
    the authenticated page table lists; an undisturbed read returns the page. *)
From stdpp Require Import prelude gmap strings sorting.
From S2P Require Import Prelude Format FormatManifest FormatDigest FormatSchema FormatArtifact.
From S2P Require Import FormatVerify Store StoreOs StoreFs StoreFsFacts StorePages StorePagesFacts.
#[local] Open Scope N_scope.
#[local] Open Scope os_scope.

(** * Runs whose calls all satisfy a predicate *)

Definition within {A} (P : Event -> Prop) (m : Os A) (Q : A -> Prop) : Prop :=
  ensures m (fun u a => Forall P u /\ Q a) (fun u _ => Forall P u) (Forall P).

Lemma within_mono {A} P (m : Os A) (Q Q' : A -> Prop) : within P m Q -> (forall a, Q a -> Q' a) -> within P m Q'.
Proof. intros H HQ. eapply ensures_mono; [exact H | naive_solver | done..]. Qed.
Lemma within_bind {A B} P (m : Os A) (f : A -> Os B) Q :
  within P m (fun a => within P (f a) Q) -> within P (os_bind m f) Q.
Proof.
  intros H. apply ensures_bind. eapply ensures_mono; [exact H | | done..]. intros u a [Hu Hf].
  eapply ensures_mono; [exact Hf | ..]; intros *; rewrite Forall_app; naive_solver.
Qed.
Lemma within_lift {A} P (r : result StoreError A) Q : post r Q (fun _ => True) -> within P (lift r) Q.
Proof. intros H. apply ensures_lift. eapply post_mono; [exact H | by split | by constructor]. Qed.
Lemma within_guard {A} P bad e (f : unit -> Os A) Q :
  (bad = false -> within P (f tt) Q) -> within P (os_bind (lift (guard_err bad e)) f) Q.
Proof. intros H. apply within_bind, within_lift, post_guard; auto. Qed.
Lemma within_call {A} P (answers : Event -> option (result StoreError A)) Q :
  (forall e r, answers e = Some r -> P e /\ post r Q (fun _ => True)) -> within P (call answers) Q.
Proof.
  intros H. apply ensures_call; [constructor|]. intros e r E. destruct (H e r E) as [Hp Hr].
  eapply post_mono; [exact Hr | split; [by constructor | done] | by constructor].
Qed.
Lemma within_for_each {A B} P (body : B -> A -> Os B) l acc (I : list A -> B -> Prop) :
  I [] acc -> (forall dn x b, I dn b -> within P (body b x) (I (dn ++ [x]))) ->
  within P (for_each body acc l) (I l).
Proof.
  intros H0 Hs. apply (ensures_for_each _ _ _ (fun u dn b => Forall P u /\ I dn b)); [by split; [constructor|]|].
  intros u dn x rest b _ [Hu HI]. eapply ensures_mono; [by apply Hs | ..]; intros *; rewrite Forall_app; naive_solver.
Qed.

Lemma concat_chunks {A} n (l : list A) : (0 < n)%nat -> mjoin (chunks n l) = l.
Proof.
  intros Hn. unfold chunks. assert (forall fuel (l : list A), length l <= fuel -> mjoin (chunks_loop fuel n l) = l)%nat as H;
    [|by apply H]. clear l. induction fuel as [|fuel IH]; intros l Hl; destruct l as [|x l]; [done | simpl in Hl; lia | done|].
  change (chunks_loop (S fuel) n (x :: l)) with (take n (x :: l) :: chunks_loop fuel n (drop n (x :: l))).
  cbn [mjoin list_join]. rewrite IH; [apply take_drop|]. rewrite length_drop. simpl in *. lia.
Qed.

(** The chunks of a byte string are the pieces of an undisturbed read. *)
Lemma chunks_pieces l : pieces_ok (lenN l) (chunks (N.to_nat READ_CHUNK_BYTES) l).
Proof.
  unfold chunks. assert (N.of_nat (N.to_nat READ_CHUNK_BYTES) = READ_CHUNK_BYTES) as Hn by apply N2Nat.id.
  assert (0 < READ_CHUNK_BYTES) as Hpos by (unfold READ_CHUNK_BYTES; lia).
  revert Hn. generalize (N.to_nat READ_CHUNK_BYTES) as n. intros n Hn.
  assert (forall fuel (l : list N), (length l <= fuel)%nat -> pieces_ok (lenN l) (chunks_loop fuel n l)) as H;
    [|by apply H].
  clear l. induction fuel as [|fuel IH]; intros l Hl; destruct l as [|x l]; [done | simpl in Hl; lia | done|].
  cbn [chunks_loop pieces_ok].
  assert (lenN (take n (x :: l)) = N.min READ_CHUNK_BYTES (lenN (x :: l))) as E.
  { unfold lenN. rewrite length_take. lia. }
  assert (0 < lenN (x :: l)) by (unfold lenN; simpl; lia).
  split; [lia|]. split; [done|]. rewrite E.
  replace (lenN (x :: l) - N.min READ_CHUNK_BYTES (lenN (x :: l))) with (lenN (drop n (x :: l))).
  - apply IH. rewrite length_drop. simpl in *. lia.
  - unfold lenN. rewrite length_drop. lia.
Qed.

(** * The page reader *)

Section reader.
Context (sha256 : list N -> Digest) (with_capacity : N -> N).

(** What the reader checks of a specification before it reads. *)
Record spec_valid (s : BoundSpec.t) : Prop := {
  sv_object : PageKey.object (BoundSpec.key s)
    = ObjectRecord.digest (RetainedObject.descriptor (BoundSpec.object s));
  sv_page_size : PageKey.page_size (BoundSpec.key s)
    = ObjectRecord.page_size (RetainedObject.descriptor (BoundSpec.object s));
  sv_offset : BoundSpec.offset s
    = PageKey.index (BoundSpec.key s) * ObjectRecord.page_size (RetainedObject.descriptor (BoundSpec.object s));
  sv_length : BoundSpec.length s
    = N.min (ObjectRecord.length (RetainedObject.descriptor (BoundSpec.object s)) - BoundSpec.offset s)
            (ObjectRecord.page_size (RetainedObject.descriptor (BoundSpec.object s)));
  sv_fingerprint : exists h,
    PageTable.page_hash (RetainedObject.page_table (BoundSpec.object s)) (PageKey.index (BoundSpec.key s)) = Some h
    /\ BoundSpec.fingerprint s = Digest.from_bytes h
}.

Lemma validate_specification_ok s : validate_specification s = Ok tt -> spec_valid s.
Proof.
  unfold validate_specification. intros H. ok_step H. ok_step H. ok_step H. ok_step H. ok_step H.
  repeat match goal with
  | H : _ || _ = false |- _ => apply orb_false_iff in H as [H ?]
  | H : negb _ = false |- _ => apply negb_false_iff, N.eqb_eq in H
  end. rename H into Eo. apply checked_mul_Some in Hx0 as [-> _].
  destruct (checked_sub _ _) as [remaining|] eqn:Er; [|done]. apply checked_sub_Some in Er as [-> _].
  injection Hx1 as <-. apply fmap_Some in Hx2 as (h & Hh & ->).
  split; [done | done | lia | congruence | by exists h].
Qed.

Lemma safe_validate s : safe (validate_specification s).
Proof. unfold validate_specification. safe_tac. Qed.
(** A page that a read returned. *)
Record page_verified (s : BoundSpec.t) (page : VerifiedPage.t) : Prop := {
  pv_spec : spec_valid s;
  pv_key : VerifiedPage.key page = BoundSpec.key s;
  pv_length : lenN (VerifiedPage.bytes page) = BoundSpec.length s;
  pv_digest : sha256 (VerifiedPage.bytes page) = BoundSpec.fingerprint s
}.

(** A call of a page read: a check, the clock, metadata of the retained descriptor,
    or a read of it inside the page. *)
Definition touches (s : BoundSpec.t) (e : Event) : Prop :=
  match e with
  | ECheck _ | EElapsed _ => True
  | EFstat fd _ => fd = RetainedObject.fd (BoundSpec.object s)
  | EPread _ _ _ _ =>
      in_range (RetainedObject.fd (BoundSpec.object s)) (BoundSpec.offset s) (BoundSpec.length s) e
  | _ => False
  end.
(** One that reads no contents. *)
Definition metadata (s : BoundSpec.t) (e : Event) : Prop :=
  match e with
  | ECheck _ | EElapsed _ => True
  | EFstat fd _ => fd = RetainedObject.fd (BoundSpec.object s)
  | _ => False
  end.

Lemma metadata_touches s u : Forall (metadata s) u -> Forall (touches s) u /\ answers u = 0.
Proof.
  induction 1 as [|e u He _ [IH1 IH2]]; [by split; [constructor|]|].
  assert (answers [e] = 0) as H0 by (by destruct e).
  change (e :: u) with ([e] ++ u). rewrite answers_app, H0, IH2. split; [|done].
  apply Forall_app. split; [|done]. constructor; [by destruct e | constructor].
Qed.

Lemma within_check s : within (metadata s) check (fun _ => True).
Proof. apply within_call. intros [c| | | | | | | | | | | | | | | | | | | |] r H; try done. injection H as <-. split; [done|]. apply post_any, safe_check. Qed.
Lemma within_elapsed s : within (metadata s) elapsed (fun _ => True).
Proof. apply within_call. intros [] r H; try done. by injection H as <-. Qed.

Lemma ensures_elapsed s :
  ensures elapsed (fun u _ => Forall (metadata s) u) (fun _ _ => False) (fun u => u = []).
Proof.
  apply ensures_call; [done|]. intros [] r H; try done. injection H as <-. by repeat constructor.
Qed.

Lemma within_length s : within (metadata s) (check_object_length s) (fun _ => True).
Proof.
  apply within_bind. apply (within_mono _ _ (fun _ => True)).
  - apply within_bind. apply (within_mono _ _ (fun _ => True)).
    + apply within_call. intros [] r H; try done. destruct (N.eqb_spec fd (RetainedObject.fd (BoundSpec.object s))); [|done].
      by injection H as <-.
    + intros a _. apply within_bind, within_lift. destruct a as [e|st]; [done|]. apply within_guard. intros _.
      apply within_lift. by destruct (_ <? 0)%Z.
  - intros n _. by apply within_lift, post_guard.
Qed.

Lemma within_before s : within (metadata s) (before_read s) (fun _ => spec_valid s).
Proof.
  apply within_bind. eapply within_mono; [apply within_check|]. intros _ _.
  apply within_bind, within_lift. apply post_safe; [apply safe_validate|]. intros [] Hv.
  eapply within_mono; [apply within_length|]. intros _ _. by apply validate_specification_ok.
Qed.

Lemma within_hash s bytes :
  within (metadata s) (for_each hash_chunk [] (chunks (N.to_nat READ_CHUNK_BYTES) bytes)) (fun h => h = bytes).
Proof.
  eapply within_mono.
  - apply (within_for_each _ _ _ _ (fun dn h => h = mjoin dn)); [done|]. intros dn chunk h ->.
    apply within_bind. eapply within_mono; [apply within_check|]. intros _ _. apply within_lift. simpl.
    rewrite join_app. simpl. by rewrite app_nil_r.
  - intros h ->. apply concat_chunks. unfold READ_CHUNK_BYTES. lia.
Qed.

Lemma within_after s bytes :
  spec_valid s -> lenN bytes = BoundSpec.length s ->
  within (metadata s) (after_read sha256 with_capacity s bytes)
    (fun page => page_verified s page /\ VerifiedPage.bytes page = bytes).
Proof.
  intros Hv Hl. apply within_bind. eapply within_mono; [apply within_length|]. intros _ _.
  apply within_bind. eapply within_mono; [apply within_hash|]. intros h ->.
  apply within_guard. intros Hh%negb_false_iff%N.eqb_eq.
  apply within_bind. eapply within_mono; [apply within_check|]. intros _ _.
  apply within_bind, within_lift. apply post_safe; [apply safe_buffer|]. intros capacity _.
  apply within_lift. by split; [split|].
Qed.

(** ** How many calls a page read makes *)

(** The chunks of the hashing loop. *)
Definition chunk_count (n : N) : N := (n + (READ_CHUNK_BYTES - 1)) / READ_CHUNK_BYTES.

Lemma count_chunks (l : list N) : lenN (chunks (N.to_nat READ_CHUNK_BYTES) l) = chunk_count (lenN l).
Proof.
  assert (forall (pieces : list (list N)) n, pieces_ok n pieces -> lenN pieces = chunk_count n) as H; [|apply H, chunks_pieces].
  unfold chunk_count, READ_CHUNK_BYTES. induction pieces as [|piece pieces IH]; intros n; cbn [pieces_ok]; [by intros ->|].
  unfold READ_CHUNK_BYTES. intros (Hpos & El & Hp). apply IH in Hp.
  change (lenN (piece :: pieces)) with (N.of_nat (S (length pieces))). rewrite Nat2N.inj_succ. unfold lenN at 1 in Hp.
  rewrite Hp. destruct (N.le_gt_cases n (64 * 1024)).
  - replace (n - lenN piece) with 0 by lia. change (N.succ ((0 + (64 * 1024 - 1)) / (64 * 1024))) with 1.
    apply (N.div_unique _ _ _ (n - 1)); lia.
  - replace (n + (64 * 1024 - 1)) with ((n - lenN piece + (64 * 1024 - 1)) + 1 * (64 * 1024)) by lia.
    rewrite N.div_add by done. lia.
Qed.

(** Besides the read calls and the checks that go with them: before the read a check
    and the metadata, the check of the read itself and at most two calls of its last
    round, the clock, and after it the metadata, a check for each chunk and one more. *)
Definition other_calls (s : BoundSpec.t) : N := 8 + chunk_count (BoundSpec.length s).

Lemma takes_object_length s : takes 1 (check_object_length s) (fun _ => True).
Proof.
  apply (takes_bind 1 0 _ _ (fun _ => True)); [apply takes_length|]. intros n _. by apply takes_lift, post_guard.
Qed.

Lemma takes_before s : takes 2 (before_read s) (fun _ => True).
Proof.
  apply (takes_bind 1 1 _ _ (fun _ => True)); [apply takes_check|]. intros _ _.
  apply (takes_bind 0 1 _ _ (fun _ => True)); [apply takes_lift, post_any, safe_validate|]. intros _ _.
  apply takes_object_length.
Qed.

Lemma takes_after s bytes :
  takes (2 + chunk_count (lenN bytes)) (after_read sha256 with_capacity s bytes) (fun _ => True).
Proof.
  rewrite <- count_chunks. set (pieces := chunks _ bytes).
  apply (takes_mono (1 + (lenN pieces * 1 + (0 + (1 + (0 + 0))))) _ _ (fun _ => True)); [|lia | done].
  apply (takes_bind _ _ _ _ (fun _ => True)); [apply takes_object_length|]. intros _ _.
  apply (takes_bind _ _ _ _ (fun _ => True)).
  { apply takes_for_each. intros h chunk. apply (takes_bind 1 0 _ _ (fun _ => True)); [apply takes_check|].
    intros _ _. by apply takes_lift. }
  intros h _. apply (takes_bind _ _ _ _ (fun _ => True)); [by apply takes_lift, post_guard|]. intros _ _.
  apply (takes_bind _ _ _ _ (fun _ => True)); [apply takes_check|]. intros _ _.
  apply (takes_bind _ _ _ _ (fun _ => True)); [apply takes_lift, post_any, safe_buffer|]. intros capacity _.
  by apply takes_lift.
Qed.

(** The bytes that a read returns have the length that was asked for. *)
Lemma takes_page_bytes s :
  takes 3 (read_exact_at_observed (RetainedObject.fd (BoundSpec.object s)) (BoundSpec.offset s) (BoundSpec.length s) "page")
    (fun r => forall bytes, r.1 = inr bytes -> lenN bytes = BoundSpec.length s).
Proof.
  eapply ensures_mono; [apply (ensures_and _ _ _ _ _ _ _ (takes_read _ _ _ _) (read_exact_spec _ _ _ _)) | ..].
  - intros u [r n] [[Hu _] Hf]. split; [done|]. intros bytes E. by destruct (fi_bytes _ _ _ _ _ _ Hf bytes E) as (_ & ? & _).
  - by intros u e [].
  - by intros u [].
Qed.

Lemma takes_page_read s : takes (other_calls s) (read_observed sha256 with_capacity s) (fun _ => True).
Proof.
  apply (takes_mono (2 + (3 + (1 + (2 + chunk_count (BoundSpec.length s) + 0)))) _ _ (fun _ => True));
    [|unfold other_calls; lia | done].
  apply (takes_bind _ _ _ _ (fun _ => True)).
  { eapply takes_mono; [apply takes_attempt, takes_before | done | done]. }
  intros [e|_] _; [by apply takes_lift|].
  eapply takes_bind; [apply takes_page_bytes|]. intros [r n] Hr.
  apply (takes_bind _ _ _ _ (fun _ => True)); [apply takes_elapsed|]. intros nanoseconds _.
  apply (takes_bind _ _ _ _ (fun _ => True)); [|intros page _; by apply takes_lift].
  destruct r as [e|bytes]; [by apply takes_lift|]. rewrite <- (Hr bytes eq_refl).
  eapply takes_mono; [apply takes_attempt, takes_after | done | done].
Qed.

(** ** What a page read does *)

(** What a page read that ended did. *)
Record read_ended (s : BoundSpec.t) (u : list Event) (r : StoreError + VerifiedPage.t) (stats : ReadStats.t)
    : Prop := {
  re_touches : Forall (touches s) u;
  re_count : answers u <= BoundSpec.length s;
  re_physical : ReadStats.physical_bytes stats <= BoundSpec.length s;
  re_page : forall page, r = inr page ->
    page_verified s page /\ ReadStats.physical_bytes stats = BoundSpec.length s
    /\ forall file, Forall (stable (RetainedObject.fd (BoundSpec.object s)) file) u ->
         VerifiedPage.bytes page
         = take (N.to_nat (BoundSpec.length s)) (drop (N.to_nat (BoundSpec.offset s)) file)
}.

(** And one that still waits. *)
Definition read_waits (s : BoundSpec.t) (u : list Event) : Prop :=
  Forall (touches s) u /\ answers u <= BoundSpec.length s.

Lemma read_calls s u1 u2 u3 :
  Forall (metadata s) u1 ->
  Forall (in_range (RetainedObject.fd (BoundSpec.object s)) (BoundSpec.offset s) (BoundSpec.length s)) u2 ->
  answers u2 <= BoundSpec.length s -> Forall (metadata s) u3 -> read_waits s (u1 ++ u2 ++ u3).
Proof.
  intros [H1 E1]%metadata_touches H2 Hc [H3 E3]%metadata_touches. split.
  - rewrite !Forall_app. split; [done|]. split; [|done]. eapply Forall_impl; [exact H2|]. by intros [].
  - rewrite !answers_app, E1, E3. lia.
Qed.

Lemma finish_read s u1 u2 r n :
  Forall (metadata s) u1 -> spec_valid s ->
  finished (RetainedObject.fd (BoundSpec.object s)) (BoundSpec.offset s) (BoundSpec.length s) u2 r n ->
  ensures (io_nanoseconds <- elapsed;
           page <- match r with
                   | inl e => lift (Ok (inl e))
                   | inr bytes => attempt (after_read sha256 with_capacity s bytes)
                   end;
           lift (Ok (page, ReadStats.mk n (N.min io_nanoseconds u64_max))))
    (fun u3 '(r, stats) => read_ended s (u1 ++ u2 ++ u3) r stats) (fun _ _ => False)
    (fun u3 => read_waits s (u1 ++ u2 ++ u3)).
Proof.
  intros H1 Hv [H2 Hc Hn Hok].
  assert (forall u3, Forall (metadata s) u3 -> read_waits s (u1 ++ u2 ++ u3)) as Hw.
  { intros u3 H3. by apply read_calls. }
  apply ensures_bind. eapply ensures_mono; [apply (ensures_elapsed s) | | done |].
  2: { intros u ->. by apply Hw. }
  intros u3 nanoseconds H3.
  assert (forall u4 e, Forall (metadata s) u4 ->
    read_ended s (u1 ++ u2 ++ u3 ++ u4) (inl e) (ReadStats.mk n (N.min nanoseconds u64_max))) as Herr.
  { intros u4 e H4. destruct (Hw (u3 ++ u4)) as [Ht Ha]; [by apply Forall_app|]. by split. }
  apply ensures_bind. destruct r as [e|bytes]; [apply ensures_lift, ensures_lift; by apply Herr|].
  destruct (Hok bytes eq_refl) as (-> & Hl & Hfile). apply ensures_attempt.
  eapply ensures_mono; [by apply within_after | | |].
  - intros u4 page [H4 [Hp Hb]]. apply ensures_lift. rewrite app_nil_r.
    destruct (Hw (u3 ++ u4)) as [Ht Ha]; [by apply Forall_app|]. split; [done | done | done |].
    intros page' [= <-]. split; [done|]. split; [done|]. intros file Hs. rewrite Hb. apply Hfile.
    by rewrite !Forall_app in Hs; destruct Hs as (_ & ? & _).
  - intros u4 e H4. apply ensures_lift. rewrite app_nil_r. by apply Herr.
  - intros u4 H4. apply Hw. by apply Forall_app.
Qed.

Lemma read_observed_spec s :
  ensures (read_observed sha256 with_capacity s) (fun u '(r, stats) => read_ended s u r stats)
    (fun _ _ => False) (read_waits s).
Proof.
  apply ensures_bind, ensures_attempt. eapply ensures_mono; [apply within_before | | |].
  - intros u1 _ [H1 Hv]. apply ensures_bind.
    eapply ensures_mono; [apply read_exact_spec | | done |].
    + intros u2 [r n] Hf. eapply ensures_mono; [by apply finish_read | | done | done]. by intros u3 [].
    + intros u2 [H2 Hc]. pose proof (read_calls s u1 u2 [] H1 H2 Hc) as H. rewrite app_nil_r in H. by apply H.
  - intros u1 e [H1 Ha]%metadata_touches. apply ensures_lift. rewrite app_nil_r.
    split; [done | rewrite Ha; apply N.le_0_l | apply N.le_0_l | done].
  - intros u1 [H1 Ha]%metadata_touches. split; [done|]. rewrite Ha. apply N.le_0_l.
Qed.

(** ** Undisturbed reads *)

(** The calls of a page read that nothing interferes with: the control stays calm,
    the object keeps its length, and every read call is answered in full. *)
Definition undisturbed (s : BoundSpec.t) (st : Stat.t) (nanoseconds : N) (bytes : list N) : list Event :=
  let fd := RetainedObject.fd (BoundSpec.object s) in
  let pieces := chunks (N.to_nat READ_CHUNK_BYTES) bytes in
  [ECheck calm; EFstat fd (inr st); ECheck calm] ++ served fd (BoundSpec.offset s) pieces
  ++ [EElapsed nanoseconds; EFstat fd (inr st)] ++ ((fun _ => ECheck calm) <$> pieces) ++ [ECheck calm].

Lemma hash_calm pieces h rest :
  for_each hash_chunk h pieces (((fun _ => ECheck calm) <$> pieces) ++ rest) = Done (Ok (h ++ mjoin pieces)) rest.
Proof.
  revert h. induction pieces as [|piece pieces IH]; intros h; cbn [for_each fmap list_fmap app].
  - by rewrite app_nil_r.
  - unfold os_bind. cbn. rewrite IH. cbn. by rewrite <- app_assoc.
Qed.

Lemma length_calm s st rest :
  regular st (ObjectRecord.length (RetainedObject.descriptor (BoundSpec.object s))) ->
  check_object_length s (EFstat (RetainedObject.fd (BoundSpec.object s)) (inr st) :: rest) = Done (Ok tt) rest.
Proof.
  intros (Ht & Hs & Hn). unfold check_object_length, metadata_len_regular, os_bind. cbn.
  rewrite N.eqb_refl. cbn. rewrite Ht, N.eqb_refl. cbn. rewrite (proj2 (Z.ltb_ge _ _) Hs). cbn.
  by rewrite <- Hn, N.eqb_refl.
Qed.

Lemma buffer_fits n : n + 63 <= u64_max -> exists b, aligned_page_buffer_bytes n = Ok b.
Proof.
  intros H. unfold aligned_page_buffer_bytes, checked_add, PAGE_BUFFER_ALIGNMENT. case_match; [by eexists|].
  rewrite (proj2 (N.leb_le _ u64_max)) by lia. by eexists.
Qed.

Lemma read_exact_calm fd offset kind bytes rest :
  offset + lenN bytes <= u64_max -> lenN bytes + 63 <= u64_max ->
  read_exact_at_observed fd offset (lenN bytes) kind
    (ECheck calm :: served fd offset (chunks (N.to_nat READ_CHUNK_BYTES) bytes) ++ rest)
  = Done (Ok (inr bytes, lenN bytes)) rest.
Proof.
  intros Hw Hb.
  destruct (buffer_fits _ Hb) as [b Eb].
  unfold read_exact_at_observed, os_bind at 1.
  change (attempt check (ECheck calm :: ?t)) with (Done (Ok (inr tt : StoreError + unit)) t). cbn beta iota. rewrite Eb.
  rewrite <- (N.add_0_r offset) at 2. rewrite served_loop.
  - by rewrite concat_chunks by (unfold READ_CHUNK_BYTES; lia).
  - unfold lenN. rewrite length_replicate. lia.
  - lia.
  - rewrite N.sub_0_r. apply chunks_pieces.
  - done.
Qed.

Lemma read_observed_calm s st nanoseconds bytes rest :
  validate_specification s = Ok tt -> lenN bytes = BoundSpec.length s ->
  regular st (ObjectRecord.length (RetainedObject.descriptor (BoundSpec.object s))) ->
  BoundSpec.offset s + BoundSpec.length s <= u64_max -> BoundSpec.length s + 63 <= u64_max ->
  sha256 bytes = BoundSpec.fingerprint s ->
  exists capacity,
    read_observed sha256 with_capacity s (undisturbed s st nanoseconds bytes ++ rest)
    = Done (Ok (inr (VerifiedPage.mk (BoundSpec.key s) bytes capacity),
                ReadStats.mk (BoundSpec.length s) (N.min nanoseconds u64_max))) rest.
Proof.
  intros Hv Hl Hst Hw Hb Hh.
  destruct (buffer_fits _ Hb) as [b Eb].
  exists (with_capacity b). unfold undisturbed. rewrite <- !app_assoc. cbn [app].
  assert (forall t, attempt (before_read s) (ECheck calm :: EFstat (RetainedObject.fd (BoundSpec.object s)) (inr st) :: t)
    = Done (Ok (inr tt)) t) as Hbefore.
  { intros t. unfold attempt, before_read, os_bind. cbn [check call Control.check calm Control.cancelled Control.elapsed guard_err mbind result_bind].
    unfold lift. rewrite Hv, length_calm by done. done. }
  unfold read_observed, os_bind at 1. rewrite Hbefore. unfold os_bind at 1. rewrite <- Hl at 1.
  rewrite read_exact_calm by (rewrite Hl; lia). unfold os_bind at 1. cbn [elapsed call].
  assert (forall t, attempt (after_read sha256 with_capacity s bytes)
    (EFstat (RetainedObject.fd (BoundSpec.object s)) (inr st)
       :: ((fun _ => ECheck calm) <$> chunks (N.to_nat READ_CHUNK_BYTES) bytes) ++ ECheck calm :: t)
    = Done (Ok (inr (VerifiedPage.mk (BoundSpec.key s) bytes (with_capacity b)))) t) as Hafter.
  { intros t. unfold attempt, after_read, os_bind at 1. rewrite length_calm by done. unfold os_bind at 1.
    rewrite hash_calm. cbn [app]. rewrite concat_chunks by (unfold READ_CHUNK_BYTES; lia). unfold os_bind, lift.
    rewrite Hh, N.eqb_refl. cbn. by rewrite Eb. }
  unfold os_bind. rewrite Hafter. by rewrite Hl.
Qed.
End reader.
