(* ===== verification/StoreDemo.v ===== *)
(** The demonstration artifact in the store: a complete history of opening its
    directory and its blobs and of reading one of its pages, at which the theorems
    about page reads are shown to apply. *)
From stdpp Require Import prelude gmap strings sorting.
From S2P Require Import Prelude Format FormatManifest FormatDigest FormatSchema FormatArtifact.
From S2P Require Import FormatVerify Store StoreOs StoreFs StoreFsFacts StorePages StorePagesFacts.
From S2P Require Import StoreRead.
#[local] Open Scope N_scope.
#[local] Open Scope os_scope.

Module DemoStore.
(** Directories are [rwxr-xr-x], files [rw-r--r--]. *)
Definition directory_stat : Stat.t := Stat.mk 7 2 1000 16877 0 0.
Definition file_stat (bytes : list N) : Stat.t := Stat.mk 7 3 1000 33188 (Z.of_N (lenN bytes)) 8.
Definition object_stat : Stat.t := file_stat Demo.object_bytes.

Definition opened_dir (parent : N) (name : string) (fd : N) : list Event :=
  [EOnce true; EOpenAt (At parent) name DIRECTORY_FLAGS (inr fd); EFstat fd (inr directory_stat)].
Definition opened_leaf (parent : N) (name : string) (fd : N) (bytes : list N) : list Event :=
  [EOnce true; EOpenAt (At parent) name REGULAR_READ_FLAGS (inr fd); EFstat fd (inr (file_stat bytes));
   EFstat fd (inr (file_stat bytes))].
Definition read_all (fd : N) (bytes : list N) : list Event :=
  ECheck calm :: served fd 0 (chunks (N.to_nat READ_CHUNK_BYTES) bytes) ++ [EFstat fd (inr (file_stat bytes))].

Definition resolver : StoreError + Resolver := inr ComponentOpenAt.
Definition path : list Component := [CurDir; Normal "model"].

(** The first open of the process finds that the kernel has no [openat2]. *)
Definition open_history : list Event :=
  EOpenAt CWD "." DIRECTORY_FLAGS (inr 3)
  :: EOnce false :: EOpenAt2 CWD "." DIRECTORY_FLAGS (inl NOSYS) :: tail (opened_dir 3 "model" 4) ++ [EFstat 4 (inr directory_stat); EFstat 4 (inr directory_stat)]
  ++ opened_dir 4 "objects" 5 ++ [EFstat 5 (inr directory_stat)]
  ++ opened_dir 5 "sha256" 6 ++ [EFstat 6 (inr directory_stat)]
  ++ opened_dir 4 "page-tables" 7 ++ [EFstat 7 (inr directory_stat)]
  ++ opened_dir 7 "sha256" 8 ++ [EFstat 8 (inr directory_stat)]
  ++ opened_leaf 4 "manifest.json" 9 Demo.manifest_bytes.

Definition source : ArtifactSource.t :=
  ArtifactSource.mk 4 9 6 8 (FileIdentity.mk 7 1000 16877).

Lemma source_opened : ArtifactSource.open resolver path open_history = Done (Ok source) [].
Proof. vm_compute. reflexivity. Qed.

Definition store_history : list Event :=
  EFstat 9 (inr (file_stat Demo.manifest_bytes)) :: read_all 9 Demo.manifest_bytes
  ++ ECheck calm :: opened_leaf 8 (Digest.path_component (Demo.sha256 Demo.table_bytes)) 10 Demo.table_bytes
  ++ read_all 10 Demo.table_bytes
  ++ opened_leaf 6 (Digest.path_component Demo.object_digest) 11 Demo.object_bytes
  ++ [ECheck calm].

(** The value of a computation that succeeds. *)
Definition value {A} (other : A) (m : result StoreError A) : A := match m with Ok a => a | _ => other end.
Definition ran {A} (other : A) (m : Run A) : A :=
  match m with Done (Ok a) _ => a | _ => other end.
Definition blank : Manifest.t :=
  Manifest.mk (Adapter.mk "" 0) (TinyModel.mk 0 0 0 0 0 0 0 0) [] [] (Tokenizer.mk "" 0 0) 0 [].

Definition store : StoredArtifact.t := Eval vm_compute in
  ran (StoredArtifact.mk blank ∅)
    (StoredArtifact.open_source_internal Demo.sha256 Demo.from_slice resolver source Demo.limits None store_history).
Definition artifact : Artifact.t := Eval vm_compute in
  match Artifact.from_bytes_internal Demo.sha256 Demo.from_slice Demo.parts Demo.limits None with
  | Ok a => a
  | _ => Artifact.mk blank ∅ 0
  end.

Definition key : PageKey := PageKey.mk Demo.object_digest Demo.page_size 0.
Definition spec : BoundSpec.t := Eval vm_compute in
  value (BoundSpec.mk (PageSpec.mk key 0 0 0)
    (RetainedObject.mk (ObjectRecord.mk 0 0 0 0 0) 0 (PageTable.mk [] 0 0 0 0)))
    (StoredArtifact.page_spec store key).
Definition page : VerifiedPage.t := VerifiedPage.mk key Demo.object_bytes 64.

(** A page read that is interrupted and gets the file in two pieces. *)
Definition slow_read : list Event :=
  [ECheck calm; EFstat 11 (inr object_stat); ECheck calm;
   ECheck calm; EPread 11 0 6 (inl INTR); ECheck calm;
   ECheck calm; EPread 11 0 6 (inr [10; 20; 30; 40]);
   ECheck calm; EPread 11 4 2 (inr [50; 60]); ECheck calm;
   EElapsed 900; EFstat 11 (inr object_stat); ECheck calm; ECheck calm].

Lemma store_opened :
  StoredArtifact.open_source_internal Demo.sha256 Demo.from_slice resolver source Demo.limits None store_history
  = Done (Ok store) [].
Proof. vm_compute. reflexivity. Qed.
Lemma artifact_loaded :
  Artifact.from_bytes_internal Demo.sha256 Demo.from_slice Demo.parts Demo.limits None = Ok artifact.
Proof. vm_compute. reflexivity. Qed.

Lemma store_ok : stored_ok Demo.sha256 Demo.limits store.
Proof.
  assert (holds [4; 9; 6; 8] source) as Hh by (split; unfold source; simpl; set_solver).
  destruct (ensures_done _ _ _ _ _ _ _
    (open_source_spec Demo.sha256 Demo.from_slice resolver source _ Hh Demo.limits None) store_opened)
    as (u & _ & _ & H & _). exact H.
Qed.
Lemma artifact_verified_ok : artifact_ok Demo.sha256 Demo.limits artifact.
Proof. exact (proj1 (post_ok_inv _ _ _ _ (from_bytes_spec _ _ _ _ _) artifact_loaded)). Qed.

Lemma sha256_width x : Demo.sha256 x < 2 ^ 256.
Proof.
  unfold Demo.sha256. induction x as [|b x _] using rev_ind; [done|]. rewrite foldl_app. cbn [foldl].
  apply N.mod_lt. discriminate.
Qed.
End DemoStore.
