(* ===== verification/StoreReadContract.v ===== *)
(** What the store promises about the pages of an artifact: held descriptors, the
    pages of a tensor, verified page reads, and the agreement of page reads with
    whole-artifact verification. *)
From stdpp Require Import prelude gmap strings sorting.
From S2P Require Import Prelude Format FormatManifest FormatDigest FormatSchema FormatArtifact.
From S2P Require Import FormatVerify Store StoreOs StoreFs StoreFsFacts StorePages StorePagesFacts.
From S2P Require Import StoreRead StoreDemo.
#[local] Open Scope N_scope.
#[local] Open Scope os_scope.

(** C31: The store is confined to what it holds.  Opening an artifact directory and
    then the artifact in it never panics, and every call on the way, also in a run
    that fails or has not ended, is permitted: apart from the anchor of the path,
    which is the first open, and the probe of the resolver, which opens the working
    directory with [openat2] and closes it at once, entries are opened only below
    descriptors opened before, and metadata and contents are read only through such
    descriptors.  This holds whether these are the first opens of the process, so
    that the probe is among the calls, or the resolver is known.  After a success the
    root's permissions exclude writing by group and others, the retained
    directories and the manifest are on the root's device and of its owner and
    equally protected, and each object's descriptor was opened in the object
    directory by the object's digest, as a protected regular file of its declared
    length. *)
Theorem descriptors_held sha256 from_slice RESOLVER path limits expected :
  capable []
    (source <- ArtifactSource.open RESOLVER path;
     artifact <- StoredArtifact.open_source_internal sha256 from_slice RESOLVER source limits expected;
     lift (Ok (source, artifact)))
    (fun u '(source, artifact) => holds (opened u) source /\ source_trusted u source
       /\ forall d o, StoredArtifact.objects artifact !! d = Some o -> object_opened source u o).
Proof.
  apply capable_bind. eapply capable_mono; [apply source_open_spec|]. intros u source [Hh Ht]. rewrite app_nil_r.
  apply capable_bind. eapply capable_mono; [by apply open_source_spec|]. intros u' a [_ Ho].
  apply capable_lift. rewrite app_nil_r. split; [rewrite opened_app; by apply holds_mono|].
  split; [by apply source_trusted_app|]. intros d o Hd. by apply object_opened_cons, (Ho d).
Qed.

(** The specification of a page is unique, and asking for its key gives it. *)
Lemma spec_of_unique o i s s' : spec_of o i s -> spec_of o i s' -> s = s'.
Proof.
  intros [Ho Hk Hf Hl _ (h & Hh & E) _] [Ho' Hk' Hf' Hl' _ (h' & Hh' & E') _].
  destruct s as [[k f l fp] ob], s' as [[k' f' l' fp'] ob'].
  unfold BoundSpec.key, BoundSpec.offset, BoundSpec.length, BoundSpec.fingerprint in *. simpl in *.
  simplify_eq. congruence.
Qed.

Lemma page_spec_of sha256 limits a d o i s :
  stored_ok sha256 limits a -> StoredArtifact.objects a !! d = Some o -> spec_of o i s ->
  StoredArtifact.page_spec a (BoundSpec.key s) = Ok s.
Proof.
  intros Ha Ho Hs. destruct (so_retained _ _ _ Ha _ _ Ho) as (Hok & Hd & _).
  pose proof (for_object_spec sha256 limits (so_limits _ _ _ Ha) o Hok i) as Hf.
  unfold StoredArtifact.page_spec. rewrite (sp_key _ _ _ Hs). cbn. rewrite Hd, Ho. cbn. rewrite N.eqb_refl. cbn.
  destruct (BoundSpec.for_object o i) as [s'|e|]; [| |done].
  - f_equal. eapply spec_of_unique; [apply Hf | done].
  - destruct Hf as [Hge _]. destruct (sp_fingerprint _ _ _ Hs) as (h & Hh & _).
    unfold PageTable.page_hash in Hh. by rewrite (proj2 (N.leb_le _ _) Hge) in Hh.
Qed.

(** What a source itself holds. *)
Definition own (s : ArtifactSource.t) : list N :=
  [ArtifactSource.root s; ArtifactSource.manifest s; ArtifactSource.objects s; ArtifactSource.page_tables s].
Lemma holds_own s : holds (own s) s.
Proof. split; unfold own; set_solver. Qed.

Lemma open_source_stored sha256 from_slice RESOLVER source limits expected :
  yields (StoredArtifact.open_source_internal sha256 from_slice RESOLVER source limits expected)
    (stored_ok sha256 limits).
Proof.
  eapply capable_yields; [apply (open_source_spec _ _ _ _ (own source)), holds_own|]. by intros u a [Ha _].
Qed.

(** C32: The pages of a tensor.  Opening an artifact never panics, whatever
    the file system answers; when it succeeds, every declared tensor has a list of page specifications without an
    error in it: consecutive pages of its object, each with its in-range offset
    and length and the fingerprint of the authenticated page table, each accepted
    by the reader's own validation and found again by its key.  Every byte of the
    tensor is in exactly one of them and every one of them holds a byte of the
    tensor. *)
Theorem tensor_pages_cover sha256 from_slice RESOLVER source limits expected :
  yields (StoredArtifact.open_source_internal sha256 from_slice RESOLVER source limits expected)
    (fun a => forall t, t ∈ Manifest.tensors (StoredArtifact.manifest a) ->
       exists o specs, StoredArtifact.objects a !! TensorRecord.object t = Some o
         /\ StoredArtifact.tensor_page_specs a (TensorRecord.id t) = Ok (Ok <$> specs)
         /\ tensor_pages o t specs
         /\ Forall (fun s => StoredArtifact.page_spec a (BoundSpec.key s) = Ok s) specs).
Proof.
  eapply yields_mono; [apply open_source_stored|]. intros a Ha t Ht.
  destruct (tensor_page_specs_spec _ limits a Ha t Ht) as (o & specs & Ho & E & Hp).
  exists o, specs. split; [done|]. split; [done|]. split; [done|].
  apply Forall_forall. intros s [i Hi]%list_elem_of_lookup. destruct (tp_each _ _ _ Hp) as [first Hc].
  eapply page_spec_of; [done | done | by apply Hc].
Qed.

(** C28: Page reads are verified and bounded.  Whatever the file system answers, a
    page read never panics, and its calls touch only the page's retained descriptor
    and only the range of the page.  At every moment, whether it has ended or still
    waits, at most as many of its read calls were answered without interruption as
    the page has bytes, and it has made at most two calls for each of these, three
    for each interrupted one, one for each chunk of 64 KiB and eight others: a read
    that is not interrupted forever ends.  It counts at most the
    page's length of physical bytes, and exactly that when it returns a page.  A
    page is returned only when its specification passes the reader's validation;
    it then has the specified key and length, its bytes have the fingerprint of the
    retained page table, and if the file's contents did not change during the read
    they are exactly the page's range of the file. *)
Theorem page_read_verified sha256 with_capacity s :
  ensures (read_observed sha256 with_capacity s)
    (fun u '(r, stats) => read_ended sha256 s u r stats /\ calls_within (other_calls s) u) (fun _ _ => False)
    (fun u => read_waits s u /\ calls_within (other_calls s) u).
Proof.
  eapply ensures_mono; [apply (ensures_and _ _ _ _ _ _ _ (read_observed_spec _ _ s) (takes_page_read _ _ s)) | ..].
  - intros u [r stats] [Hr [Hu _]]. by split.
  - by intros u e [].
  - done.
Qed.

(** SHA-256 does not collide on two given byte strings. *)
Definition no_collision (sha256 : list N -> Digest) (x y : list N) : Prop := sha256 x = sha256 y -> x = y.

(** What asking for a page by its key finds. *)
Lemma page_spec_inv sha256 limits st key s :
  stored_ok sha256 limits st -> StoredArtifact.page_spec st key = Ok s ->
  exists o, StoredArtifact.objects st !! PageKey.object key = Some o
    /\ PageKey.page_size key = ObjectRecord.page_size (RetainedObject.descriptor o)
    /\ PageKey.index key < PageTable.page_count (RetainedObject.page_table o)
    /\ spec_of o (PageKey.index key) s.
Proof.
  intros Hst H. unfold StoredArtifact.page_spec in H. ok_step H. ok_step H.
  apply negb_false_iff, N.eqb_eq in Hx0. destruct (so_retained _ _ _ Hst _ _ Hx) as (Hok & _ & _).
  pose proof (for_object_spec sha256 limits (so_limits _ _ _ Hst) x Hok (PageKey.index key)) as Hf.
  rewrite H in Hf. by exists x.
Qed.

(** Tables of one record with the same digest list the same pages. *)
Lemma same_fingerprint sha256 ro o i s :
  (forall x, sha256 x < 2 ^ 256) ->
  table_ok sha256 (RetainedObject.descriptor ro) (RetainedObject.page_table ro) ->
  object_verified sha256 (RetainedObject.descriptor ro) o ->
  no_collision sha256 (PageTable.bytes (RetainedObject.page_table ro))
    (PageTable.bytes (VerifiedObject.page_table o)) ->
  i < PageTable.page_count (RetainedObject.page_table ro) -> spec_of ro i s ->
  BoundSpec.fingerprint s
  = sha256 (page_bytes (ObjectRecord.page_size (RetainedObject.descriptor ro)) i (VerifiedObject.bytes o)).
Proof.
  intros Hw Ht [_ _ Ht' Hpages] Hcol Hi Hs.
  destruct (sp_fingerprint _ _ _ Hs) as (h & Hh & ->).
  assert (PageTable.page_count (RetainedObject.page_table ro)
          = PageTable.page_count (VerifiedObject.page_table o)) as Hc.
  { by rewrite (tb_page_count _ _ _ Ht), (tb_page_count _ _ _ Ht'). }
  assert (PageTable.bytes (RetainedObject.page_table ro) = PageTable.bytes (VerifiedObject.page_table o)) as Hb.
  { apply Hcol. by rewrite (tb_digest _ _ _ Ht), (tb_digest _ _ _ Ht'). }
  unfold PageTable.page_hash in Hh. rewrite Hb, Hc in Hh. rewrite Hc in Hi.
  specialize (Hpages i Hi). unfold PageTable.page_hash in Hpages. rewrite Hpages in Hh. injection Hh as <-.
  apply from_as_bytes, Hw.
Qed.

(** C33: Page reads refine whole-artifact verification.  Take an artifact that was
    verified with all its objects in memory, and a store opened on the same object
    records.  Whatever the file system answers, a page that a read returns is that
    page of the verified object, provided SHA-256 collides neither on the two page
    tables nor on the two pages. *)
Theorem page_read_refines_artifact sha256 with_capacity limits limits' a st key s t page stats rest o
    (Hwidth : forall x, sha256 x < 2 ^ 256)
    (Ha : artifact_ok sha256 limits a) (Hst : stored_ok sha256 limits' st)
    (Hsame : Manifest.objects (StoredArtifact.manifest st) = Manifest.objects (Artifact.manifest a))
    (Hspec : StoredArtifact.page_spec st key = Ok s)
    (Ho : Artifact.objects a !! PageKey.object key = Some o)
    (Hread : read_observed sha256 with_capacity s t = Done (Ok (inr page, stats)) rest)
    (Htable : no_collision sha256 (PageTable.bytes (RetainedObject.page_table (BoundSpec.object s)))
                (PageTable.bytes (VerifiedObject.page_table o)))
    (Hpage : no_collision sha256 (VerifiedPage.bytes page)
               (page_bytes (PageKey.page_size key) (PageKey.index key) (VerifiedObject.bytes o))) :
  VerifiedPage.bytes page = page_bytes (PageKey.page_size key) (PageKey.index key) (VerifiedObject.bytes o).
Proof.
  apply Hpage. destruct (ensures_done _ _ _ _ _ _ _ (read_observed_spec sha256 with_capacity s) Hread) as (u & _ & Hr).
  destruct (re_page _ _ _ _ _ Hr page eq_refl) as [Hv _]. rewrite (pv_digest _ _ _ Hv).
  destruct (page_spec_inv _ _ _ _ _ Hst Hspec) as (ro & Hro & Hsz & Hi & Hs).
  destruct (so_retained _ _ _ Hst _ _ Hro) as ([_ Ht] & Hd & Hin). rewrite Hsame in Hin.
  destruct (ar_objects _ _ _ Ha _ Hin) as (o' & Ho' & Hok). rewrite Hd, Ho in Ho'. injection Ho' as <-.
  rewrite Hsz. rewrite (sp_object _ _ _ Hs) in Htable.
  eapply same_fingerprint; [exact Hwidth | exact Ht | exact Hok | exact Htable | exact Hi | exact Hs].
Qed.

Lemma page_read_refines_artifact_witness :
  VerifiedPage.bytes DemoStore.page = page_bytes Demo.page_size 0 Demo.object_bytes.
Proof.
  refine (page_read_refines_artifact Demo.sha256 (fun n => n) Demo.limits Demo.limits DemoStore.artifact
    DemoStore.store DemoStore.key DemoStore.spec DemoStore.slow_read DemoStore.page (ReadStats.mk 6 900) []
    (VerifiedObject.mk Demo.object_bytes (RetainedObject.page_table (BoundSpec.object DemoStore.spec)))
    DemoStore.sha256_width DemoStore.artifact_verified_ok DemoStore.store_ok _ _ _ _ _ _).
  - vm_compute. reflexivity.
  - vm_compute. reflexivity.
  - vm_compute. reflexivity.
  - vm_compute. reflexivity.
  - intros _. reflexivity.
  - intros _. vm_compute. reflexivity.
Defined.

Lemma page_spec_key sha256 limits st key s :
  stored_ok sha256 limits st -> StoredArtifact.page_spec st key = Ok s -> BoundSpec.key s = key.
Proof.
  intros Hst H. destruct (page_spec_inv _ _ _ _ _ Hst H) as (o & Ho & Hsz & _ & Hs).
  destruct (so_retained _ _ _ Hst _ _ Ho) as (_ & Hd & _).
  rewrite (sp_key _ _ _ Hs), Hd, <- Hsz. by destruct key.
Qed.

(** C35: Undisturbed page reads deliver.  In an opened store, a page asked for by
    its key is read to the end when nothing interferes: the control stays calm, the
    file keeps the object's length, every read call is answered in full, and the
    bytes have the listed fingerprint.  The page returned has the key that was
    asked for and those bytes, and the read counts its length. *)
Theorem page_read_delivers sha256 with_capacity limits store key s stat nanoseconds bytes rest
    (Hst : stored_ok sha256 limits store) (Hspec : StoredArtifact.page_spec store key = Ok s)
    (Hstat : regular stat (ObjectRecord.length (RetainedObject.descriptor (BoundSpec.object s))))
    (Hlen : lenN bytes = BoundSpec.length s) (Hhash : sha256 bytes = BoundSpec.fingerprint s) :
  exists capacity,
    read_observed sha256 with_capacity s (undisturbed s stat nanoseconds bytes ++ rest)
    = Done (Ok (inr (VerifiedPage.mk key bytes capacity),
                ReadStats.mk (BoundSpec.length s) (N.min nanoseconds u64_max))) rest.
Proof.
  destruct (page_spec_inv _ _ _ _ _ Hst Hspec) as (o & Ho & Hsz & _ & Hs).
  destruct (so_retained _ _ _ Hst _ _ Ho) as (Hok & _ & _).
  pose proof (ob_length _ _ (ro_object _ _ _ Hok)) as Hmax. pose proof (li_object _ (so_limits _ _ _ Hst)) as Hlim.
  assert (FORMAT_OBJECT_BYTES + 63 <= u64_max) as Hwide by (vm_compute; discriminate).
  pose proof (sp_length _ _ _ Hs) as El. pose proof (sp_positive _ _ _ Hs) as Hpos.
  rewrite <- (page_spec_key _ _ _ _ _ Hst Hspec).
  apply read_observed_calm; [apply (sp_valid _ _ _ Hs) | done | done | lia | lia | done].
Qed.

Lemma page_read_delivers_witness :
  exists capacity, read_observed Demo.sha256 (fun n => n) DemoStore.spec
    (undisturbed DemoStore.spec DemoStore.object_stat 250 Demo.object_bytes)
  = Done (Ok (inr (VerifiedPage.mk DemoStore.key Demo.object_bytes capacity), ReadStats.mk 6 250)) [].
Proof.
  rewrite <- (app_nil_r (undisturbed _ _ _ _)).
  apply (page_read_delivers Demo.sha256 (fun n => n) Demo.limits DemoStore.store DemoStore.key DemoStore.spec
    DemoStore.object_stat 250 Demo.object_bytes [] DemoStore.store_ok).
  - vm_compute. reflexivity.
  - repeat split; vm_compute; (reflexivity || discriminate).
  - vm_compute. reflexivity.
  - vm_compute. reflexivity.
Defined.
