(* ===== verification/StoreStage.v ===== *)
(** Staging names and resume tokens (crates/runnel-store/src/stage.rs). *)
From stdpp Require Import prelude strings pretty.
From S2P Require Import Prelude Format FormatManifest Store.
#[local] Open Scope N_scope.

Definition TOKEN_PREFIX : string := "rmoa-resume-v1".
Definition STAGE_PREFIX : string := "rmoa-stage-v1".
Definition RANDOM_HEX_BYTES : N := 32.

Module BlobKind.
Inductive t : Set := Manifest | PageTable | Object.
#[global] Instance eq_dec : EqDecision t.
Proof. solve_decision. Defined.
Definition token_name (k : t) : string :=
  match k with Manifest => "manifest" | PageTable => "page-table" | Object => "object" end.
Definition error_name (k : t) : string := token_name k.
Definition parse (value : list N) : option t :=
  if bool_decide (value = string_bytes "manifest") then Some Manifest
  else if bool_decide (value = string_bytes "page-table") then Some PageTable
  else if bool_decide (value = string_bytes "object") then Some Object
  else None.
End BlobKind.

(** * Text *)

Definition is_lower_hex (value : list N) (length : N) : bool :=
  (lenN value =? length)
  && forallb (fun b => ((48 <=? b) && (b <=? 57)) || ((97 <=? b) && (b <=? 102))) value.

(** [str::parse::<u64>]: an optional plus sign, then digits without overflow. *)
Definition parse_digit (acc : option N) (b : N) : option N :=
  acc ← acc;
  if (48 <=? b) && (b <=? 57)
  then scaled ← checked_mul u64_max acc 10; checked_add u64_max scaled (b - 48)
  else None.
Definition parse_u64 (value : list N) : option N :=
  let digits := match value with 43 :: (d :: rest) => d :: rest | _ => value end in
  match digits with
  | [] => None
  | _ => foldl parse_digit (Some 0) digits
  end.

(** [str::split] at a character. *)
Fixpoint split (separator : N) (value : list N) : list (list N) :=
  match value with
  | [] => [[]]
  | c :: value =>
      match split separator value with
      | field :: fields => if c =? separator then [] :: field :: fields else (c :: field) :: fields
      | [] => [[c]]
      end
  end.

(** [str::rsplit_once] at a character. *)
Fixpoint rsplit_once (separator : N) (value : list N) : option (list N * list N) :=
  match value with
  | [] => None
  | c :: value =>
      match rsplit_once separator value with
      | Some (before, after) => Some (c :: before, after)
      | None => if c =? separator then Some ([], value) else None
      end
  end.

(** [str::split_at]: it panics inside a character of several bytes. *)
Definition split_at (value : list N) (mid : nat) : result StoreError (list N * list N) :=
  match value !! mid with
  | Some b => if (128 <=? b) && (b <=? 191) then Panic else Ok (take mid value, drop mid value)
  | None => if bool_decide (length value = mid) then Ok (value, []) else Panic
  end.

(** The rejection of leading zeros, and the numeric value of a canonical length. *)
Definition noncanonical_length (encoded : list N) : bool :=
  match encoded with [] => true | c :: rest => (1 <? lenN encoded) && (c =? 48) end.
Definition canonical_length (encoded : list N) : result StoreError N :=
  expected_length ← ok_or (parse_u64 encoded) InvalidResumeToken;
  _ ← guard_err ((expected_length =? 0) || bool_decide (string_bytes (pretty expected_length) <> encoded))
        InvalidResumeToken;
  Ok expected_length.

(** [format!("sha256:{digest_hex}").parse().map_err(..)]. *)
Definition parse_hex {E} (digest_hex : list N) (e : E) : result E Digest :=
  match Digest.from_str ("sha256:" +:+ bytes_string digest_hex) with
  | Ok d => Ok d
  | Err _ => Err e
  | Panic => Panic
  end.

(** * Tokens *)

Module ResumeToken.
Record t : Type := mk {
  kind : BlobKind.t; digest : Digest; expected_length : N; stage_name : string
}.
#[global] Instance eq_dec : EqDecision t.
Proof. solve_decision. Defined.

(** The text before the random part of a staging name. *)
Definition stage_prefix (kind : BlobKind.t) (digest : Digest) (expected_length : N) : string :=
  STAGE_PREFIX +:+ "-" +:+ BlobKind.token_name kind +:+ "-" +:+ Digest.path_component digest
  +:+ "-" +:+ pretty expected_length +:+ "-".

Definition validate_stage_name (token : t) : result StoreError unit :=
  random ← ok_or (strip_prefix (string_bytes (stage_prefix (kind token) (digest token) (expected_length token)))
                    (string_bytes (stage_name token))) InvalidResumeToken;
  guard_err (negb (is_lower_hex random RANDOM_HEX_BYTES)) InvalidResumeToken.

Definition new (kind : BlobKind.t) (digest : Digest) (expected_length : N) (random_hex : string)
    : result StoreError t :=
  _ ← guard_err ((expected_length =? 0) || negb (is_lower_hex (string_bytes random_hex) RANDOM_HEX_BYTES))
        InvalidResumeToken;
  let token := mk kind digest expected_length (stage_prefix kind digest expected_length +:+ random_hex) in
  _ ← validate_stage_name token;
  Ok token.

(** The first kind whose name starts [remainder], with what follows. *)
Fixpoint find_kind (kinds : list BlobKind.t) (remainder : list N) : option (BlobKind.t * list N) :=
  match kinds with
  | [] => None
  | kind :: kinds =>
      match strip_prefix (string_bytes (BlobKind.token_name kind +:+ "-")) remainder with
      | Some rest => Some (kind, rest)
      | None => find_kind kinds remainder
      end
  end.

Definition from_stage_name (stage_name : string) : result StoreError t :=
  remainder ← ok_or (strip_prefix (string_bytes (STAGE_PREFIX +:+ "-")) (string_bytes stage_name))
    InvalidResumeToken;
  '(kind, remainder) ← ok_or (find_kind [BlobKind.Manifest; BlobKind.PageTable; BlobKind.Object] remainder)
    InvalidResumeToken;
  _ ← guard_err (lenN remainder <? 64 + 1 + 1 + 1 + RANDOM_HEX_BYTES) InvalidResumeToken;
  '(digest_hex, remainder) ← split_at remainder 64;
  remainder ← ok_or (strip_prefix (string_bytes "-") remainder) InvalidResumeToken;
  '(encoded_length, random_hex) ← ok_or (rsplit_once 45 remainder) InvalidResumeToken;
  _ ← guard_err (negb (is_lower_hex digest_hex 64) || negb (is_lower_hex random_hex RANDOM_HEX_BYTES)
                 || noncanonical_length encoded_length) InvalidResumeToken;
  expected_length ← canonical_length encoded_length;
  digest ← parse_hex digest_hex InvalidResumeToken;
  let token := mk kind digest expected_length stage_name in
  _ ← validate_stage_name token;
  Ok token.

Definition validate_for (token : t) (kind' : BlobKind.t) (digest' : Digest) (expected_length' : N)
    : result StoreError unit :=
  _ ← validate_stage_name token;
  _ ← guard_err (bool_decide (kind token <> kind')) (ResumeMismatch "kind");
  _ ← guard_err (negb (digest token =? digest')) (ResumeMismatch "digest");
  guard_err (negb (expected_length token =? expected_length')) (ResumeMismatch "length").

(** [Display]. *)
Definition to_string (token : t) : string :=
  TOKEN_PREFIX +:+ "|" +:+ BlobKind.token_name (kind token) +:+ "|" +:+ Digest.path_component (digest token)
  +:+ "|" +:+ pretty (expected_length token) +:+ "|" +:+ stage_name token.

(** [FromStr]: the iterator over the fields as the list of the remaining ones. *)
Definition from_str (value : string) : result StoreError t :=
  let fields := split 124 (string_bytes value) in
  _ ← guard_err (bool_decide (head fields <> Some (string_bytes TOKEN_PREFIX))) InvalidResumeToken;
  let fields := tail fields in
  kind ← ok_or (field ← head fields; BlobKind.parse field) InvalidResumeToken;
  let fields := tail fields in
  digest_hex ← ok_or (head fields) InvalidResumeToken;
  _ ← guard_err (negb (is_lower_hex digest_hex 64)) InvalidResumeToken;
  digest ← parse_hex digest_hex InvalidResumeToken;
  let fields := tail fields in
  encoded_length ← ok_or (head fields) InvalidResumeToken;
  _ ← guard_err (noncanonical_length encoded_length) InvalidResumeToken;
  expected_length ← canonical_length encoded_length;
  let fields := tail fields in
  stage_name ← ok_or (name ← head fields; match name with [] => None | _ => Some name end) InvalidResumeToken;
  _ ← guard_err (match tail fields with [] => false | _ => true end) InvalidResumeToken;
  let token := mk kind digest expected_length (bytes_string stage_name) in
  _ ← validate_stage_name token;
  Ok token.
End ResumeToken.
