(* ===== verification/StoreStageFacts.v ===== *)
(** Resume tokens: a text or a staging name is accepted exactly when it is the
    canonical one of a well-formed token. *)
From stdpp Require Import prelude strings pretty.
From S2P Require Import Prelude Decimal Format FormatJsonFacts FormatManifest FormatDigest Store.
From S2P Require Import StoreStage.
#[local] Open Scope N_scope.

(** * Decimal lengths *)

Lemma parse_digit_next acc d :
  d < 10 -> acc * 10 + d <= u64_max -> parse_digit (Some acc) (48 + d) = Some (acc * 10 + d).
Proof.
  intros Hd Hm. unfold parse_digit. cbn [mbind option_bind].
  rewrite (proj2 (N.leb_le 48 (48 + d))), (proj2 (N.leb_le (48 + d) 57)) by lia. cbn [andb].
  unfold checked_mul. rewrite (proj2 (N.leb_le (acc * 10) u64_max)) by lia. cbn [mbind option_bind].
  unfold checked_add. replace (48 + d - 48) with d by lia. by rewrite (proj2 (N.leb_le _ _)).
Qed.

Lemma parse_go x s :
  x <= u64_max ->
  foldl parse_digit (Some 0) (string_bytes (pretty_N_go x s)) = foldl parse_digit (Some x) (string_bytes s).
Proof.
  revert s. induction (N.lt_wf_0 x) as [x _ IH]; intros s Hx.
  destruct (decide (x = 0)) as [->|Hne]; [done|]. rewrite pretty_N_go_step by lia.
  pose proof (N.div_mod x 10 ltac:(lia)) as Hd. pose proof (N.mod_lt x 10 ltac:(lia)) as Hm.
  assert (x / 10 < x) by (apply N.div_lt; lia). rewrite IH by lia. cbn [string_bytes foldl]. rewrite pretty_char_value by done.
  rewrite parse_digit_next by lia. f_equal. f_equal. lia.
Qed.

Lemma go_head x s : 0 < x -> exists d l, string_bytes (pretty_N_go x s) = (48 + d) :: l /\ 0 < d < 10.
Proof.
  revert s. induction (N.lt_wf_0 x) as [x _ IH]; intros s Hx. rewrite pretty_N_go_step by lia.
  destruct (N.lt_ge_cases x 10) as [Hs|Hs].
  - rewrite (N.div_small x 10), (N.mod_small x 10) by lia. rewrite pretty_N_go_0. cbn [string_bytes].
    rewrite pretty_char_value by lia. by exists x, (string_bytes s).
  - apply IH; [apply N.div_lt; lia | apply N.div_str_pos; lia].
Qed.

(** A positive length is read back, and its text has no leading zero. *)
Lemma canonical_pretty n :
  0 < n -> n <= u64_max ->
  canonical_length (string_bytes (pretty n)) = Ok n /\ noncanonical_length (string_bytes (pretty n)) = false.
Proof.
  intros Hn Hm. unfold canonical_length, parse_u64. rewrite pretty_go by done.
  pose proof (parse_go n "" Hm) as Hp. destruct (go_head n "" Hn) as (d & l & E & Hd). rewrite E in *.
  assert (parse_u64 ((48 + d) :: l) = Some n) as Hparse.
  { unfold parse_u64. destruct (decide (48 + d = 43)) as [|Hne]; [lia|].
    destruct (48 + d) as [|p] eqn:Ed; [lia|]. by repeat (destruct p as [p|p|]; try done; try lia). }
  unfold parse_u64 in Hparse. rewrite Hparse. cbn [ok_or mbind result_bind]. split.
  - rewrite (proj2 (N.eqb_neq n 0)) by lia. rewrite pretty_go, E, bool_decide_eq_false_2 by (done || tauto). done.
  - cbn [noncanonical_length]. rewrite (proj2 (N.eqb_neq (48 + d) 48)) by lia. apply andb_false_r.
Qed.

Lemma canonical_length_ok encoded n :
  canonical_length encoded = Ok n -> 0 < n /\ encoded = string_bytes (pretty n).
Proof.
  unfold canonical_length. intros H. ok_step H. ok_step H. injection H as <-.
  apply orb_false_iff in Hx0 as [Hz%N.eqb_neq He%bool_decide_eq_false]. split; [lia|].
  destruct (decide (string_bytes (pretty x) = encoded)); [done|tauto].
Qed.

Lemma parse_u64_le value n : parse_u64 value = Some n -> n <= u64_max.
Proof.
  assert (forall l acc n, foldl parse_digit acc l = Some n -> (forall a, acc = Some a -> a <= u64_max) -> n <= u64_max)
    as H.
  { induction l as [|b l IH]; intros acc m; simpl; [by intros -> H; apply H|]. intros E _. apply (IH _ _ E).
    intros a. unfold parse_digit. destruct acc as [acc|]; [|done]. cbn [mbind option_bind]. case_match; [|done].
    destruct (checked_mul _ _ _); [|done]. cbn [mbind option_bind]. by intros [-> ?]%checked_add_Some. }
  unfold parse_u64. repeat case_match; intros E; try done; (eapply H; [exact E|]); intros a [= <-]; done.
Qed.

Lemma canonical_length_le encoded n : canonical_length encoded = Ok n -> n <= u64_max.
Proof. unfold canonical_length. intros H. ok_step H. ok_step H. injection H as <-. by eapply parse_u64_le. Qed.

(** * Splitting *)

Lemma split_nonempty sep l : exists f fs, split sep l = f :: fs.
Proof. induction l as [|c l (f & fs & IH)]; simpl; [by eexists _, _|]. rewrite IH. case_match; by eexists _, _. Qed.

Lemma split_last sep f : sep ∉ f -> split sep f = [f].
Proof.
  induction f as [|c f IH]; [done|]. rewrite not_elem_of_cons. intros [Hc Hf]. simpl. rewrite IH by done.
  by rewrite (proj2 (N.eqb_neq c sep)).
Qed.

Lemma split_app sep f l : sep ∉ f -> split sep (f ++ sep :: l) = f :: split sep l.
Proof.
  induction f as [|c f IH]; simpl.
  - intros _. destruct (split_nonempty sep l) as (g & gs & ->). by rewrite N.eqb_refl.
  - rewrite not_elem_of_cons. intros [Hc Hf]. rewrite IH by done. by rewrite (proj2 (N.eqb_neq c sep)).
Qed.

(** The fields joined again. *)
Fixpoint join (sep : N) (fields : list (list N)) : list N :=
  match fields with [] => [] | [f] => f | f :: fields => f ++ sep :: join sep fields end.
Lemma split_join sep l : join sep (split sep l) = l.
Proof.
  induction l as [|c l IH]; [done|]. simpl. destruct (split_nonempty sep l) as (f & fs & E). rewrite E in *.
  destruct (N.eqb_spec c sep) as [->|]; [simpl; by f_equal|]. destruct fs; simpl in *; by f_equal.
Qed.

Lemma rsplit_none sep l : rsplit_once sep l = None <-> sep ∉ l.
Proof.
  induction l as [|c l IH]; simpl; [split; [intros _; apply not_elem_of_nil | done]|].
  rewrite not_elem_of_cons. destruct (rsplit_once sep l) as [[]|] eqn:E; [split; [done | by intros [_ ?%IH]]|].
  destruct (N.eqb_spec c sep) as [->|]; [by split; [|intros []]|]. naive_solver.
Qed.
Lemma rsplit_app sep a b : sep ∉ b -> rsplit_once sep (a ++ sep :: b) = Some (a, b).
Proof.
  intros Hb. induction a as [|c a IH]; simpl; [|by rewrite IH]. by rewrite (proj2 (rsplit_none sep b)), N.eqb_refl.
Qed.
Lemma rsplit_inv sep l a b : rsplit_once sep l = Some (a, b) -> l = a ++ sep :: b.
Proof.
  revert a. induction l as [|c l IH]; intros a; simpl; [done|]. destruct (rsplit_once sep l) as [[x y]|] eqn:E.
  - intros [= <- <-]. simpl. f_equal. by apply IH.
  - destruct (N.eqb_spec c sep) as [->|]; [by intros [= <- <-] | done].
Qed.

(** * Characters *)

Definition lower_hex_char (b : N) : Prop := 48 <= b <= 57 \/ 97 <= b <= 102.
Lemma is_lower_hex_spec value n : is_lower_hex value n = true <-> lenN value = n /\ Forall lower_hex_char value.
Proof.
  unfold is_lower_hex. rewrite andb_true_iff, N.eqb_eq, forallb_forall, Forall_forall.
  setoid_rewrite <- list_elem_of_In. unfold lower_hex_char.
  split; intros [Hn H]; (split; [done|]); intros b Hb; specialize (H b Hb);
    rewrite orb_true_iff, !andb_true_iff, !N.leb_le in *; lia.
Qed.
Lemma lower_hex_avoids value n c : is_lower_hex value n = true -> ~ lower_hex_char c -> c ∉ value.
Proof. rewrite is_lower_hex_spec, Forall_forall. intros [_ H] Hc Hin. by apply Hc, H. Qed.

Lemma path_component_bytes d : string_bytes (Digest.path_component d) = Digest.write_hex (Digest.as_bytes d).
Proof. apply string_bytes_string, write_hex_bytes, as_bytes_bytes. Qed.
Lemma path_component_hex d : is_lower_hex (string_bytes (Digest.path_component d)) 64 = true.
Proof.
  apply is_lower_hex_spec. rewrite path_component_bytes. split.
  - unfold lenN. by rewrite length_write_hex, length_as_bytes.
  - assert (forall b, byte b -> lower_hex_char (hex_digit (N.shiftr b 4)) /\ lower_hex_char (hex_digit (N.land b 15))) as H.
    { apply byte_cases. unfold lower_hex_char. intros c. destruct c as [[] [] [] [] [] [] [] []]; vm_compute; intuition discriminate. }
    generalize (as_bytes_bytes d). generalize (Digest.as_bytes d). intros l. induction 1 as [|b l Hb _ IH]; [constructor|].
    change (Forall lower_hex_char (hex_digit (N.shiftr b 4) :: hex_digit (N.land b 15) :: Digest.write_hex l)).
    destruct (H b Hb). by rewrite !Forall_cons.
Qed.

Lemma parse_hex_path {E} d (e : E) : d < digest_max -> parse_hex (string_bytes (Digest.path_component d)) e = Ok d.
Proof. intros Hd. unfold parse_hex. rewrite bytes_string_bytes. fold (Digest.to_string d). by rewrite from_to_string. Qed.

Lemma hex_bytes value n : is_lower_hex value n = true -> Forall byte value.
Proof.
  rewrite is_lower_hex_spec. intros [_ H]. eapply Forall_impl; [exact H|]. intros b [?|?]; unfold byte; lia.
Qed.

Lemma parse_hex_ok {E} hex (e : E) d n :
  is_lower_hex hex n = true -> parse_hex hex e = Ok d ->
  d < digest_max /\ hex = string_bytes (Digest.path_component d).
Proof.
  intros Hh. unfold parse_hex. destruct (Digest.from_str _) eqn:E0; try done. intros [= ->].
  apply to_from_string in E0 as [Hd E0]. split; [done|]. unfold Digest.to_string in E0.
  apply (f_equal string_bytes) in E0. rewrite !string_bytes_app in E0. apply app_inv_head in E0.
  rewrite E0. symmetry. eapply string_bytes_string, hex_bytes, Hh.
Qed.

(** * Tokens *)

Module Token.
Export ResumeToken.

(** What a token authorizes: the staging name spells its kind, digest and length
    and ends in 32 random hexadecimal digits. *)
Record wf (t : t) : Prop := {
  wf_digest : digest t < digest_max;
  wf_length : 0 < expected_length t <= u64_max;
  wf_name : exists random, stage_name t = stage_prefix (kind t) (digest t) (expected_length t) +:+ random
    /\ is_lower_hex (string_bytes random) RANDOM_HEX_BYTES = true
}.

Lemma validate_name_ok t :
  validate_stage_name t = Ok tt
  <-> exists random, stage_name t = stage_prefix (kind t) (digest t) (expected_length t) +:+ random
        /\ is_lower_hex (string_bytes random) RANDOM_HEX_BYTES = true.
Proof.
  unfold validate_stage_name. split.
  - intros H. ok_step H. apply strip_prefix_inv in Hx. apply guard_ok_inv, negb_false_iff in H.
    exists (bytes_string x). rewrite (string_bytes_string x) by (by eapply hex_bytes). split; [|done].
    apply (inj string_bytes). by rewrite string_bytes_app, string_bytes_string by (by eapply hex_bytes).
  - intros (random & -> & Hr). rewrite string_bytes_app, strip_prefix_app. cbn [ok_or mbind result_bind]. by rewrite Hr.
Qed.

Lemma prefix_bytes k d n :
  string_bytes (stage_prefix k d n)
  = string_bytes (STAGE_PREFIX +:+ "-") ++ string_bytes (BlobKind.token_name k +:+ "-")
    ++ string_bytes (Digest.path_component d) ++ string_bytes "-" ++ string_bytes (pretty n) ++ string_bytes "-".
Proof. unfold stage_prefix. by rewrite !string_bytes_app, <- !app_assoc. Qed.

Lemma find_kind_ok k rest :
  find_kind [BlobKind.Manifest; BlobKind.PageTable; BlobKind.Object]
    (string_bytes (BlobKind.token_name k +:+ "-") ++ rest) = Some (k, rest).
Proof. by destruct k. Qed.
Lemma find_kind_inv kinds l k rest :
  find_kind kinds l = Some (k, rest) -> l = string_bytes (BlobKind.token_name k +:+ "-") ++ rest.
Proof.
  induction kinds as [|k' kinds IH]; [done|]. cbn [find_kind]. destruct (strip_prefix _ _) eqn:E; [|done].
  intros [= -> ->]. by apply strip_prefix_inv in E.
Qed.

Lemma from_stage_name_wf t : wf t -> from_stage_name (stage_name t) = Ok t.
Proof.
  intros [Hd [Hl Hm] Hname]. pose proof Hname as (random & En & Hr). unfold from_stage_name.
  rewrite En, (string_bytes_app (stage_prefix _ _ _)), prefix_bytes, <- !app_assoc, strip_prefix_app. cbn [ok_or mbind result_bind].
  rewrite find_kind_ok. cbn [ok_or mbind result_bind].
  pose proof (proj1 (is_lower_hex_spec _ _) (path_component_hex (digest t))) as [Hlen _].
  pose proof (proj1 (is_lower_hex_spec _ _) Hr) as [Hrl _].
  destruct (canonical_pretty _ Hl Hm) as [Hc Hnc].
  destruct (pretty_nonempty (expected_length t)) as (c & l & Ep & _).
  pose proof (path_component_hex (digest t)) as Hph.
  set (path := string_bytes (Digest.path_component (digest t))) in *.
  assert (length path = 64%nat) as Hp by (unfold lenN in Hlen; lia).
  rewrite (proj2 (N.ltb_ge _ _)).
  2: { unfold lenN, RANDOM_HEX_BYTES in *. rewrite !length_app, Ep. simpl. lia. }
  cbn [guard_err mbind result_bind]. unfold split_at. rewrite lookup_app_r by lia. rewrite Hp.
  change (string_bytes "-" ++ ?x) with (45 :: x). cbn [Nat.sub lookup list_lookup]. cbn -[path take drop pretty].
  rewrite take_app_length', drop_app_length' by done. cbn -[path pretty].
  rewrite N.eqb_refl. cbn [ok_or mbind result_bind].
  rewrite rsplit_app by (eapply lower_hex_avoids; [exact Hr | unfold lower_hex_char; lia]). cbn [ok_or mbind result_bind].
  rewrite Hph, Hr, Hnc. cbn [negb orb guard_err mbind result_bind].
  rewrite Hc. cbn [mbind result_bind]. unfold path. rewrite parse_hex_path by done. cbn [mbind result_bind].
  rewrite <- En. replace (mk _ _ _ _) with t by (by destruct t).
  by rewrite (proj2 (validate_name_ok t) Hname).
Qed.

Lemma split_at_ok l n a b : split_at l n = Ok (a, b) -> l = a ++ b.
Proof.
  unfold split_at. repeat case_match; intros; simplify_eq; [by rewrite take_drop | by rewrite app_nil_r].
Qed.

Lemma from_stage_name_ok name t : from_stage_name name = Ok t -> wf t /\ stage_name t = name.
Proof.
  unfold from_stage_name. intros H. ok_step H. ok_step H. destruct x0 as [k rest]. ok_step H. ok_step H.
  destruct x1 as [hex rest']. ok_step H. ok_step H. destruct x2 as [encoded random]. ok_step H. ok_step H. ok_step H.
  ok_step H. injection H as <-. apply orb_false_iff in Hx5 as [[Hh _]%orb_false_iff _].
  apply negb_false_iff in Hh. split; [|done]. split; simpl.
  - by destruct (parse_hex_ok _ _ _ _ Hh Hx7).
  - destruct (canonical_length_ok _ _ Hx6). pose proof (canonical_length_le _ _ Hx6). lia.
  - apply (validate_name_ok (mk k x4 x3 name)). by destruct x5.
Qed.

(** ** The text of a token *)

Lemma from_to_token t : wf t -> from_str (to_string t) = Ok t.
Proof.
  intros [Hd [Hl Hm] Hname]. destruct (canonical_pretty _ Hl Hm) as [Hc Hnc].
  assert (forall s, 124 ∉ string_bytes s -> forall u, split 124 (string_bytes (s +:+ "|" +:+ u))
    = string_bytes s :: split 124 (string_bytes u)) as Hsplit.
  { intros s Hs u. rewrite !string_bytes_app. change (string_bytes "|" ++ ?x) with (124 :: x). by apply split_app. }
  assert (124 ∉ string_bytes (pretty (expected_length t))) as Hbar.
  { intros Hin. pose proof (proj1 (Forall_forall _ _) (pretty_digits (expected_length t)) _ Hin) as [_ Hb].
    by vm_compute in Hb. }
  assert (124 ∉ string_bytes (Digest.path_component (digest t))) as Hpath.
  { eapply lower_hex_avoids; [apply path_component_hex | unfold lower_hex_char; lia]. }
  assert (124 ∉ string_bytes (stage_name t)) as Hstage.
  { destruct Hname as (random & -> & Hr). rewrite string_bytes_app, prefix_bytes, !elem_of_app.
    pose proof (lower_hex_avoids _ _ 124 Hr ltac:(unfold lower_hex_char; lia)).
    assert (124 ∉ string_bytes (BlobKind.token_name (kind t) +:+ "-")) as Hk
      by (destruct (kind t); apply (bool_decide_unpack _); vm_compute; done).
    assert (124 ∉ string_bytes (STAGE_PREFIX +:+ "-")) by (apply (bool_decide_unpack _); vm_compute; done).
    assert (124 ∉ string_bytes "-") by (apply (bool_decide_unpack _); vm_compute; done). tauto. }
  assert (124 ∉ string_bytes (BlobKind.token_name (kind t))) as Hk
    by (destruct (kind t); apply (bool_decide_unpack _); vm_compute; done).
  unfold from_str, to_string. rewrite Hsplit by (apply (bool_decide_unpack _); vm_compute; done).
  rewrite !Hsplit, split_last by done. cbn [head tail]. rewrite bool_decide_eq_false_2 by tauto.
  cbn [guard_err mbind result_bind option_bind].
  replace (BlobKind.parse _) with (Some (kind t)) by (by destruct (kind t)). cbn [ok_or mbind result_bind].
  rewrite path_component_hex. cbn [negb guard_err]. rewrite parse_hex_path by done. cbn [mbind result_bind].
  rewrite Hnc. cbn [guard_err]. rewrite Hc. cbn [mbind result_bind].
  destruct (string_bytes (stage_name t)) as [|c l] eqn:En.
  { destruct Hname as (random & E & _). by rewrite E in En. }
  cbn [ok_or mbind result_bind option_bind guard_err]. rewrite <- En, bytes_string_bytes.
  replace (mk _ _ _ _) with t by (by destruct t). by rewrite (proj2 (validate_name_ok t) Hname).
Qed.

Lemma parse_kind_ok field k : BlobKind.parse field = Some k -> field = string_bytes (BlobKind.token_name k).
Proof. unfold BlobKind.parse. repeat case_bool_decide; intros; by simplify_eq. Qed.

Lemma string_bytes_byte s : Forall byte (string_bytes s).
Proof. induction s as [|c s IH]; simpl; constructor; [apply Ascii.N_ascii_bounded | done]. Qed.

Lemma from_str_ok value t : from_str value = Ok t -> wf t /\ to_string t = value.
Proof.
  unfold from_str. pose proof (split_join 124 (string_bytes value)) as Hj. pose proof (string_bytes_byte value) as Hb.
  destruct (split 124 (string_bytes value)) as [|f0 [|f1 [|f2 [|f3 [|f4 fs]]]]]; cbn [head tail]; intros H;
    repeat (ok_step H); try done.
  injection H as <-. apply bool_decide_eq_false, dec_stable, (inj Some) in Hx as ->.
  apply (inj Some) in Hx1 as <-, Hx4 as <-. apply negb_false_iff in Hx2.
  destruct (parse_hex_ok _ _ _ _ Hx2 Hx3) as [Hd ->].
  destruct (canonical_length_ok _ _ Hx6) as [Hpos ->]. pose proof (canonical_length_le _ _ Hx6).
  apply parse_kind_ok in Hx0 as ->. destruct fs; [|done]. destruct f4 as [|c l]; [done|]. apply (inj Some) in Hx7 as <-.
  split; [split; [done | done | apply (validate_name_ok (mk _ _ _ _)); by destruct x9]|].
  apply (inj string_bytes). rewrite <- Hj in *. unfold to_string. cbn [kind digest expected_length stage_name].
  rewrite !string_bytes_app, string_bytes_string; [done|].
  cbn [join] in Hb. do 4 (apply Forall_app in Hb as [_ Hb]; apply Forall_cons in Hb as [_ Hb]). exact Hb.
Qed.

(** Reading never panics, apart from a staging name with a character of several
    bytes across the end of the digest. *)
Lemma safe_digest_str s : safe (Digest.from_str s).
Proof.
  unfold Digest.from_str. apply safe_bind; [apply safe_ok_or|]. intros l. apply safe_bind; [apply safe_guard|]. intros _.
  apply safe_bind; [|intros; apply safe_ok]. clear s. revert l. fix IH 1. intros [|h [|c rest]]; [apply safe_ok | apply safe_ok|].
  simpl. apply safe_bind; [apply safe_ok_or|]. intros. apply safe_bind; [apply safe_ok_or|]. intros.
  apply safe_bind; [apply IH | intros; apply safe_ok].
Qed.
Lemma safe_parse_hex {E} hex (e : E) : safe (parse_hex hex e).
Proof. unfold parse_hex. pose proof (safe_digest_str ("sha256:" +:+ bytes_string hex)). by destruct (Digest.from_str _). Qed.
Lemma safe_canonical encoded : safe (canonical_length encoded).
Proof. unfold canonical_length. safe_tac. Qed.
Lemma safe_validate_name t : safe (validate_stage_name t).
Proof. unfold validate_stage_name. safe_tac. Qed.

Lemma safe_from_str value : safe (from_str value).
Proof.
  unfold from_str. repeat (apply safe_bind; [first [apply safe_guard | apply safe_ok_or | apply safe_parse_hex
    | apply safe_canonical | apply safe_validate_name] | intros]). apply safe_ok.
Qed.

(** The name starts like a staging name, is long enough for one, and the byte after
    its digest continues a character of two, three or four bytes. *)
Definition straddles (name : string) : Prop :=
  exists kind rest b,
    string_bytes name
    = string_bytes (STAGE_PREFIX +:+ "-") ++ string_bytes (BlobKind.token_name kind +:+ "-") ++ rest
    /\ 64 + 1 + 1 + 1 + RANDOM_HEX_BYTES <= lenN rest /\ rest !! 64%nat = Some b /\ 128 <= b <= 191.

Lemma split_at_panic rest :
  64 < lenN rest -> split_at rest 64 = Panic <-> exists b, rest !! 64%nat = Some b /\ 128 <= b <= 191.
Proof.
  intros Hl. unfold split_at. destruct (lookup_lt_is_Some_2 rest 64) as [b Hb]; [unfold lenN in Hl; lia|].
  rewrite Hb. destruct (N.leb_spec 128 b), (N.leb_spec b 191); cbn [andb]; (split; [try done; eauto|]);
    intros (b' & [= <-] & ?); lia || done.
Qed.

Lemma safe_after_split rest f :
  (forall x, safe (f x)) -> @mbind _ (@result_bind StoreError) _ t f (split_at rest 64) = Panic <-> split_at rest 64 = Panic.
Proof. intros Hf. destruct (split_at rest 64) as [x|e|]; cbn; [|done|done]. pose proof (Hf x). by destruct (f x). Qed.

Lemma from_stage_name_panic name : from_stage_name name = Panic <-> straddles name.
Proof.
  unfold straddles. split.
  - unfold from_stage_name. destruct (strip_prefix _ _) as [l|] eqn:El; [|done]. apply strip_prefix_inv in El.
    cbn [ok_or mbind result_bind]. destruct (find_kind _ l) as [[k rest]|] eqn:Ek; [|done]. apply find_kind_inv in Ek.
    cbn [ok_or mbind result_bind]. destruct (N.ltb_spec (lenN rest) (64 + 1 + 1 + 1 + RANDOM_HEX_BYTES)) as [|Hl]; [done|].
    cbn [guard_err]. intros H. exists k, rest.
    assert (split_at rest 64 = Panic) as Hp.
    { revert H. apply safe_after_split. intros [hex rest']. repeat (apply safe_bind;
        [first [apply safe_guard | apply safe_ok_or | apply safe_parse_hex | apply safe_canonical | apply safe_validate_name]
        | intros; repeat case_match]). apply safe_ok. }
    apply split_at_panic in Hp as (b & Hb & Hr); [|unfold RANDOM_HEX_BYTES in Hl; lia].
    exists b. rewrite El, Ek. done.
  - intros (k & rest & b & En & Hl & Hb). unfold from_stage_name. rewrite En, strip_prefix_app. cbn [ok_or mbind result_bind].
    rewrite find_kind_ok. cbn [ok_or mbind result_bind]. rewrite (proj2 (N.ltb_ge _ _) Hl). cbn [guard_err].
    assert (64 < lenN rest) as Hlong by (unfold RANDOM_HEX_BYTES in Hl; lia).
    by rewrite (proj2 (split_at_panic rest Hlong) (ex_intro _ b Hb)).
Qed.

Lemma ascii_stage_name t : wf t -> Forall (fun b => b < 128) (string_bytes (stage_name t)).
Proof.
  intros [_ _ (random & -> & Hr)]. rewrite string_bytes_app, prefix_bytes, !Forall_app.
  assert (forall v n, is_lower_hex v n = true -> Forall (fun b => b < 128) v) as Hhex.
  { intros v n [_ H]%is_lower_hex_spec. eapply Forall_impl; [exact H|]. intros b [?|?]; lia. }
  split; [|by eapply Hhex]. split; [by apply (bool_decide_unpack _); vm_compute|].
  split; [destruct (kind t); by apply (bool_decide_unpack _); vm_compute|].
  split; [by eapply Hhex, path_component_hex|]. split; [by apply (bool_decide_unpack _); vm_compute|].
  split; [|by apply (bool_decide_unpack _); vm_compute].
  eapply Forall_impl; [apply pretty_digits|]. unfold digit. lia.
Qed.
End Token.
