(* ===== verification/StoreWrite.v ===== *)
(** The mutation primitives of crates/runnel-store/src/fs.rs: every name passes
    the component check of the readers, and every system call is one call of the
    history. *)
From stdpp Require Import prelude strings.
From S2P Require Import Prelude Format Store StoreOs StoreFs.
#[local] Open Scope N_scope.
#[local] Open Scope os_scope.

(** * The calls *)

Definition mkdirat (parent : N) (name : string) (mode : N) : Os (Errno + unit) := call (fun e =>
  match e with
  | EMkdirAt p n m a => if bool_decide (p = parent /\ n = name /\ m = mode) then Some (Ok a) else None
  | _ => None
  end).
(** [renameat_with(.., RenameFlags::NOREPLACE)]. *)
Definition renameat_noreplace (old_parent : N) (old_name : string) (new_parent : N) (new_name : string)
    : Os (Errno + unit) := call (fun e =>
  match e with
  | ERename op on np nn a =>
      if bool_decide (op = old_parent /\ on = old_name /\ np = new_parent /\ nn = new_name)
      then Some (Ok a) else None
  | _ => None
  end).
Definition linkat (old_parent : N) (old_name : string) (new_parent : N) (new_name : string)
    : Os (Errno + unit) := call (fun e =>
  match e with
  | ELink op on np nn a =>
      if bool_decide (op = old_parent /\ on = old_name /\ np = new_parent /\ nn = new_name)
      then Some (Ok a) else None
  | _ => None
  end).
Definition unlinkat (parent : N) (name : string) : Os (Errno + unit) := call (fun e =>
  match e with
  | EUnlink p n a => if bool_decide (p = parent /\ n = name) then Some (Ok a) else None
  | _ => None
  end).
Definition fsync (fd : N) : Os (Errno + unit) := call (fun e =>
  match e with EFsync fd' a => if fd' =? fd then Some (Ok a) else None | _ => None end).
Definition ftruncate (fd length : N) : Os (Errno + unit) := call (fun e =>
  match e with
  | EFtruncate fd' n a => if (fd' =? fd) && (n =? length) then Some (Ok a) else None
  | _ => None
  end).
(** [pwrite] writes at most what it is given. *)
Definition pwrite (fd position : N) (data : list N) : Os (Errno + N) := call (fun e =>
  match e with
  | EPwrite fd' p d a =>
      if (fd' =? fd) && (p =? position) && bool_decide (d = data)
         && match a with inl _ => true | inr count => count <=? lenN data end
      then Some (Ok a) else None
  | _ => None
  end).
Definition flock (fd : N) (operation : FlockOperation) : Os (Errno + unit) := call (fun e =>
  match e with
  | EFlock fd' o a => if bool_decide (fd' = fd /\ o = operation) then Some (Ok a) else None
  | _ => None
  end).
(** [fstatvfs]: [f_bavail] and [f_frsize]. *)
Definition fstatvfs (fd : N) : Os (Errno + N * N) := call (fun e =>
  match e with EFstatvfs fd' a => if fd' =? fd then Some (Ok a) else None | _ => None end).
(** [Dir::read_from] with the entries of the stream. *)
Definition read_dir (fd : N) : Os (Errno + list (Errno + string)) := call (fun e =>
  match e with EReadDir fd' a => if fd' =? fd then Some (Ok a) else None | _ => None end).
Definition dup (fd : N) : Os (Errno + N) := call (fun e =>
  match e with EDup fd' a => if fd' =? fd then Some (Ok a) else None | _ => None end).
(** [getrandom::fill] of [length] bytes. *)
Definition getrandom (length : N) : Os (option (list N)) := call (fun e =>
  match e with
  | EGetrandom n a =>
      if (n =? length)
         && match a with
            | None => true
            | Some bytes => (lenN bytes =? length) && forallb (fun b => b <? 256) bytes
            end
      then Some (Ok a) else None
  | _ => None
  end).
Definition geteuid : Os N := call (fun e => match e with EGeteuid uid => Some (Ok uid) | _ => None end).
Definition mutex (operation : MutexOperation) : Os MutexAnswer := call (fun e =>
  match e with EMutex o a => if bool_decide (o = operation) then Some (Ok a) else None | _ => None end).

(** * Control flow *)

(** A program run with [Control::unbounded()]: none of its checks fails. *)
Definition calm_event (e : Event) : bool :=
  match e with ECheck c => negb (Control.cancelled c) && negb (Control.elapsed c) | _ => true end.
Definition unbounded {A} (m : Os A) : Os A := fun t =>
  match m t with
  | Done r rest =>
      if forallb calm_event (take (length t - length rest) t) then Done r rest else Mismatch
  | Waiting => if forallb calm_event t then Waiting else Mismatch
  | Mismatch => Mismatch
  end.

(** A guard that is dropped at the end, whatever the result; what the drop itself
    returns is ignored. *)
Definition finally {A} (m : Os A) (cleanup : Os unit) : Os A := fun t =>
  match m t with
  | Done r rest =>
      match cleanup rest with
      | Done _ rest => Done r rest
      | Waiting => Waiting
      | Mismatch => Mismatch
      end
  | Waiting => Waiting
  | Mismatch => Mismatch
  end.

(** [let _ = ..]. *)
Definition ignore {A} (m : Os A) : Os unit := _ <- attempt m; lift (Ok tt).

(** [map_err(|_| error)]. *)
Definition or_else {A} (m : Os A) (error : StoreError) : Os A :=
  r <- attempt m; lift (match r with inl _ => Err error | inr a => Ok a end).

(** * Primitives *)

Definition duplicate (fd : N) : Os N :=
  answer <- dup fd;
  or_io "duplicating retained descriptor" answer.

Definition mkdir_child (parent : N) (component kind : string) (mode : N) : Os unit :=
  _ <- validate_component component kind;
  answer <- mkdirat parent component mode;
  lift match answer with
       | inr _ => Ok tt
       | inl EXIST => Err (AlreadyExists kind)
       | inl error => Err (Io "creating retained directory" (io_error_kind error))
       end.

Definition create_new_leaf (parent : N) (component kind : string) (mode : N) : Os N :=
  _ <- validate_component component kind;
  answer <- openat (At parent) component (CREATE_FLAGS mode);
  fd <- lift match answer with
             | inr fd => Ok fd
             | inl EXIST => Err (AlreadyExists kind)
             | inl LOOP => Err (UnsafeLayout kind)
             | inl error => Err (Io "creating retained leaf" (io_error_kind error))
             end;
  length <- metadata_len_regular fd kind;
  _ <- lift (guard_err (negb (length =? 0)) (Invariant "exclusive creation returned a nonempty leaf"));
  lift (Ok fd).

Inductive RenameNoReplace : Set := Published | Unsupported.

Definition rename_noreplace (old_parent : N) (old_component : string) (new_parent : N)
    (new_component kind : string) : Os RenameNoReplace :=
  _ <- validate_component old_component kind;
  _ <- validate_component new_component kind;
  answer <- renameat_noreplace old_parent old_component new_parent new_component;
  lift match answer with
       | inr _ => Ok Published
       | inl EXIST => Err (AlreadyExists kind)
       | inl (NOSYS | INVAL) => Ok Unsupported
       | inl error => Err (Io "publishing retained leaf" (io_error_kind error))
       end.

Definition link_noreplace (old_parent : N) (old_component : string) (new_parent : N)
    (new_component kind : string) : Os unit :=
  _ <- validate_component old_component kind;
  _ <- validate_component new_component kind;
  answer <- linkat old_parent old_component new_parent new_component;
  lift match answer with
       | inr _ => Ok tt
       | inl EXIST => Err (AlreadyExists kind)
       | inl error => Err (Io "linking retained leaf" (io_error_kind error))
       end.

Definition unlink_leaf (parent : N) (component kind : string) : Os unit :=
  _ <- validate_component component kind;
  answer <- unlinkat parent component;
  or_io "unlinking retained leaf" answer.

Definition sync_fd (fd : N) : Os unit :=
  answer <- fsync fd;
  or_io "synchronizing retained entry" answer.

Definition lock_exclusive (fd : N) : Os unit :=
  answer <- flock fd LockExclusive;
  or_io "locking the transaction descriptor" answer.

Definition available_bytes (fd : N) : Os (N * N) :=
  answer <- fstatvfs fd;
  '(f_bavail, f_frsize) <- or_io "reading filesystem capacity" answer;
  available <- lift (ok_or (checked_mul u64_max f_bavail f_frsize)
                       (ArithmeticOverflow "computing available filesystem bytes"));
  lift (Ok (available, f_frsize)).

Definition truncate (fd length : N) : Os unit :=
  answer <- ftruncate fd length;
  or_io "truncating retained data" answer.

(** One round of [write_all_at], with the check after the loop. *)
Definition write_round (fd : N) (state : N * list N) : Os ((N * list N) + unit) :=
  let '(offset, bytes) := state in
  _ <- check;
  match bytes with
  | [] => lift (Ok (inr tt))
  | _ =>
      let chunk := take (N.to_nat READ_CHUNK_BYTES) bytes in
      answer <- pwrite fd offset chunk;
      match answer with
      | inr 0 => lift (Err (Io "writing retained bytes" "WriteZero"))
      | inr count =>
          offset <- lift (ok_or (checked_add u64_max offset count)
                            (ArithmeticOverflow "computing a positional write offset"));
          lift (Ok (inl (offset, drop (N.to_nat count) bytes)))
      | inl INTR => _ <- check; lift (Ok (inl (offset, bytes)))
      | inl error => lift (Err (Io "writing retained bytes" (io_error_kind error)))
      end
  end.
Definition write_all_at (fd offset : N) (bytes : list N) : Os unit :=
  iterate (write_round fd) (offset, bytes).
