(* ===== verification/StoreLayout.v ===== *)
(** The directory layout of a content-addressed store
    (crates/runnel-store/src/layout.rs): its retained descriptors, the listing and
    validation of its entries, disk usage and the transaction lock. *)
From stdpp Require Import prelude gmap strings.
From S2P Require Import Prelude Format FormatManifest Store StoreOs StoreFs StoreStage StoreWrite.
#[local] Open Scope N_scope.
#[local] Open Scope os_scope.

Definition MAX_DIRECTORY_ENTRIES : N := 131072.
(** [Mode::RWXU], and [Mode::RUSR] with [Mode::WUSR]. *)
Definition DIRECTORY_MODE : N := 448.
Definition FILE_MODE : N := 384.

Module LeafEntry.
Record t : Type := mk { name : string; length : N; charged_bytes : N; device : N; inode : N }.
End LeafEntry.

(** * Names *)

(** [CStr::to_str]: well-formed UTF-8. *)
Definition continuation (b : N) : bool := (128 <=? b) && (b <=? 191).
Fixpoint is_utf8 (l : list N) : bool :=
  match l with
  | [] => true
  | a :: l =>
      if a <? 128 then is_utf8 l
      else match l with
      | [] => false
      | b :: l =>
          if (194 <=? a) && (a <=? 223) then continuation b && is_utf8 l
          else match l with
          | [] => false
          | c :: l =>
              if (224 <=? a) && (a <=? 239)
              then (if a =? 224 then (160 <=? b) && (b <=? 191)
                    else if a =? 237 then (128 <=? b) && (b <=? 159) else continuation b)
                   && continuation c && is_utf8 l
              else match l with
              | [] => false
              | d :: l =>
                  (240 <=? a) && (a <=? 244)
                  && (if a =? 240 then (144 <=? b) && (b <=? 191)
                      else if a =? 244 then (128 <=? b) && (b <=? 143) else continuation b)
                  && continuation c && continuation d && is_utf8 l
              end
          end
      end
  end.

(** One entry of the directory stream. *)
Definition read_name (kind : string) (names : list string) (entry : Errno + string)
    : result StoreError (list string) :=
  name ← match entry with
         | inl error => Err (Io "reading retained directory" (io_error_kind error))
         | inr name => Ok name
         end;
  _ ← guard_err (negb (is_utf8 (string_bytes name))) (UnsafeLayout kind);
  if bool_decide (name = ".") || bool_decide (name = "..") then Ok names
  else
    _ ← guard_err (lenN names =? MAX_DIRECTORY_ENTRIES)
          (ResourceExhausted "directory entries" (MAX_DIRECTORY_ENTRIES + 1) MAX_DIRECTORY_ENTRIES);
    Ok (names ++ [name]).

(** [str] is ordered by its bytes. *)
Definition name_key (name : string) : list Z := Z.of_N <$> string_bytes name.

Definition read_names (directory : N) (kind : string) : Os (list string) :=
  answer <- read_dir directory;
  entries <- or_io "opening retained directory stream" answer;
  names <- lift (try_fold (read_name kind) [] entries);
  lift (Ok (sort_by_key name_key names)).

Definition ensure_empty_directory (directory : N) (kind : string) : Os unit :=
  names <- read_names directory kind;
  lift (guard_err (match names with [] => false | _ => true end) (UnsafeLayout kind)).

Definition require_names (directory : N) (kind : string) (expected : list string) : Os unit :=
  names <- read_names directory kind;
  lift (guard_err (bool_decide (list_to_set names <> (list_to_set expected : gset string))) (UnsafeLayout kind)).

Definition is_digest_name (name : string) : bool :=
  (N.of_nat (String.length name) =? 64)
  && forallb (fun b => ((48 <=? b) && (b <=? 57)) || ((97 <=? b) && (b <=? 102))) (string_bytes name).

Definition require_effective_owner (owner : N) (kind : string) : Os unit :=
  euid <- geteuid;
  lift (guard_err (negb (owner =? euid)) (UnsafeLayout kind)).

(** * The layout *)

Module Layout.
Record t : Type := mk {
  root : N; lock_fd : N; manifests_parent : N; page_tables_parent : N; objects_parent : N;
  manifests : N; page_tables : N; objects : N; staging : N; root_device : N; root_owner : N
}.

Definition validate_metadata (l : t) (fd : N) (kind : string) (expected_type : N) : Os Stat.t :=
  answer <- fstat fd;
  stat <- or_io "reading CAS metadata" answer;
  _ <- lift (guard_err (negb (file_type stat =? expected_type)
                        || negb (Stat.st_dev stat =? root_device l)
                        || negb (Stat.st_uid stat =? root_owner l)
                        || negb (N.land (Stat.st_mode stat) 18 =? 0)) (UnsafeLayout kind));
  _ <- lift (guard_err ((expected_type =? S_IFREG) && negb (N.land (Stat.st_mode stat) 511 =? 384))
               (UnsafeLayout kind));
  lift (Ok stat).

Definition validate_fixed_metadata (l : t) : Os unit :=
  for_each (fun _ '(fd, kind, expected_type) =>
              _ <- validate_metadata l fd kind expected_type; lift (Ok tt)) tt
    [(root l, "CAS root", S_IFDIR);
     (manifests_parent l, "manifest parent", S_IFDIR);
     (page_tables_parent l, "page-table parent", S_IFDIR);
     (objects_parent l, "object parent", S_IFDIR);
     (manifests l, "manifest directory", S_IFDIR);
     (page_tables l, "page-table directory", S_IFDIR);
     (objects l, "object directory", S_IFDIR);
     (staging l, "staging directory", S_IFDIR);
     (lock_fd l, "transaction lock", S_IFREG)].

Definition digest_dir (l : t) (kind : BlobKind.t) : N :=
  match kind with
  | BlobKind.Manifest => manifests l
  | BlobKind.PageTable => page_tables l
  | BlobKind.Object => objects l
  end.

Definition open_entry (l : t) (directory : N) (name kind : string) (writable : bool) : Os LeafEntry.t :=
  answer <- openat (At directory) name (if writable then READ_WRITE_FLAGS else REGULAR_READ_FLAGS);
  fd <- lift match answer with
             | inr fd => Ok fd
             | inl (LOOP | NOENT) => Err (UnsafeLayout kind)
             | inl error => Err (Io "opening CAS entry" (io_error_kind error))
             end;
  stat <- validate_metadata l fd kind S_IFREG;
  _ <- lift (guard_err (Stat.st_size stat <? 0)%Z (UnsafeLayout kind));
  _ <- lift (guard_err (Stat.st_blocks stat <? 0)%Z (UnsafeLayout kind));
  charged_bytes <- lift (ok_or (checked_mul u64_max (Z.to_N (Stat.st_blocks stat)) 512)
                           (ArithmeticOverflow "accounting allocated CAS blocks"));
  lift (Ok (LeafEntry.mk name (Z.to_N (Stat.st_size stat)) charged_bytes (Stat.st_dev stat) (Stat.st_ino stat))).

Definition digest_entries (l : t) (kind : BlobKind.t) : Os (list LeafEntry.t) :=
  names <- read_names (digest_dir l kind) (BlobKind.error_name kind);
  for_each (fun entries name =>
      _ <- lift (guard_err (negb (is_digest_name name)) (UnsafeLayout (BlobKind.error_name kind)));
      entry <- open_entry l (digest_dir l kind) name (BlobKind.error_name kind) false;
      lift (Ok (entries ++ [entry]))) [] names.

(** One name of the staging directory. *)
Definition stage_entry (l : t) (entries : list LeafEntry.t) (name : string) : Os (list LeafEntry.t) :=
  _ <- lift match ResumeToken.from_stage_name name with
            | Ok token => Ok token
            | Err _ => Err (UnsafeLayout "staging file")
            | Panic => Panic
            end;
  entry <- open_entry l (staging l) name "staging file" true;
  lift (Ok (entries ++ [entry])).
Definition stage_entries (l : t) : Os (list LeafEntry.t) :=
  names <- read_names (staging l) "staging directory";
  for_each (stage_entry l) [] names.

Definition validate_all_entries (l : t) : Os unit :=
  _ <- digest_entries l BlobKind.Manifest;
  _ <- digest_entries l BlobKind.PageTable;
  _ <- digest_entries l BlobKind.Object;
  _ <- stage_entries l;
  lift (Ok tt).

(** ** The transaction lock *)

Definition lock (l : t) : Os unit := lock_exclusive (lock_fd l).
(** The drop of [TransactionLock]. *)
Definition unlock (l : t) : Os unit := ignore (flock (lock_fd l) Unlock).

Definition lock_round (l : t) (_ : unit) : Os (unit + unit) :=
  _ <- check;
  answer <- flock (lock_fd l) NonBlockingLockExclusive;
  lift match answer with
       | inr _ => Ok (inr tt)
       | inl (AGAIN | INTR) => Ok (inl tt)
       | inl error => Err (Io "locking the transaction descriptor" (io_error_kind error))
       end.
Definition lock_with_control (l : t) : Os unit := iterate (lock_round l) tt.

(** ** Opening and creating *)

Section open.
Context (RESOLVER : StoreError + Resolver).

Definition open_with_lock (root lock_fd : N) : Os t :=
  answer <- fstat root;
  root_stat <- or_io "reading CAS root metadata" answer;
  _ <- lift (guard_err (negb (file_type root_stat =? S_IFDIR)) (UnsafeLayout "CAS root"));
  _ <- require_effective_owner (Stat.st_uid root_stat) "CAS root";
  manifests_parent <- open_child_dir RESOLVER root "manifests" "manifest parent";
  page_tables_parent <- open_child_dir RESOLVER root "page-tables" "page-table parent";
  objects_parent <- open_child_dir RESOLVER root "objects" "object parent";
  _ <- require_names manifests_parent "manifest parent" ["sha256"];
  _ <- require_names page_tables_parent "page-table parent" ["sha256"];
  _ <- require_names objects_parent "object parent" ["sha256"];
  manifests <- open_child_dir RESOLVER manifests_parent "sha256" "manifest directory";
  page_tables <- open_child_dir RESOLVER page_tables_parent "sha256" "page-table directory";
  objects <- open_child_dir RESOLVER objects_parent "sha256" "object directory";
  staging <- open_child_dir RESOLVER root "staging" "staging directory";
  let layout := mk root lock_fd manifests_parent page_tables_parent objects_parent manifests page_tables
                  objects staging (Stat.st_dev root_stat) (Stat.st_uid root_stat) in
  _ <- validate_fixed_metadata layout;
  _ <- lock layout;
  _ <- finally (validate_all_entries layout) (unlock layout);
  lift (Ok layout).

Definition open_root (root : N) : Os t :=
  _ <- require_names root "CAS root" ["manifests"; "objects"; "page-tables"; "staging"; "transaction.lock"];
  lock_fd <- open_regular_leaf RESOLVER root "transaction.lock" "transaction lock" (Some 0);
  open_with_lock root lock_fd.

Definition initialize (root : N) : Os t :=
  _ <- ensure_empty_directory root "new CAS root";
  _ <- for_each (fun _ component => mkdir_child root component "CAS directory" DIRECTORY_MODE) tt
         ["manifests"; "page-tables"; "objects"; "staging"];
  manifests_parent <- open_child_dir RESOLVER root "manifests" "manifest parent";
  page_tables_parent <- open_child_dir RESOLVER root "page-tables" "page-table parent";
  objects_parent <- open_child_dir RESOLVER root "objects" "object parent";
  _ <- mkdir_child manifests_parent "sha256" "manifest digest directory" DIRECTORY_MODE;
  _ <- mkdir_child page_tables_parent "sha256" "page-table digest directory" DIRECTORY_MODE;
  _ <- mkdir_child objects_parent "sha256" "object digest directory" DIRECTORY_MODE;
  _ <- sync_fd manifests_parent;
  _ <- sync_fd page_tables_parent;
  _ <- sync_fd objects_parent;
  _ <- sync_fd root;
  lock_fd <- create_new_leaf root "transaction.lock" "transaction lock" FILE_MODE;
  _ <- sync_fd lock_fd;
  _ <- sync_fd root;
  open_with_lock root lock_fd.

(** [Path::file_name] and [Path::parent] of a path given by its components; the
    parent of a single name is empty and replaced by the current directory. *)
Definition file_name (path : list Component) : option string :=
  match last path with Some (Normal name) => Some name | _ => None end.
Definition parent_or_current (path : list Component) : list Component :=
  match removelast path with [] => [CurDir] | parent => parent end.

Definition create (path : list Component) : Os t :=
  leaf <- lift (ok_or (name ← file_name path; if is_utf8 (string_bytes name) then Some name else None)
                  (UnsafeLayout "CAS root"));
  _ <- validate_component leaf "CAS root";
  parent <- open_directory_path RESOLVER (parent_or_current path) "CAS parent";
  _ <- mkdir_child parent leaf "CAS root" DIRECTORY_MODE;
  _ <- sync_fd parent;
  root <- open_child_dir RESOLVER parent leaf "CAS root";
  initialize root.

Definition open (path : list Component) : Os t :=
  root <- open_directory_path RESOLVER path "CAS root";
  open_root root.

Definition open_digest (l : t) (kind : BlobKind.t) (digest : Digest) (expected_length : N) : Os N :=
  fd <- open_regular_leaf RESOLVER (digest_dir l kind) (Digest.path_component digest)
          (BlobKind.error_name kind) (Some expected_length);
  _ <- validate_metadata l fd (BlobKind.error_name kind) S_IFREG;
  lift (Ok fd).
End open.

(** ** Staging *)

Definition create_stage (l : t) (token : ResumeToken.t) : Os N :=
  fd <- create_new_leaf (staging l) (ResumeToken.stage_name token) "staging file" FILE_MODE;
  _ <- validate_metadata l fd "staging file" S_IFREG;
  lift (Ok fd).

Definition open_stage (l : t) (token : ResumeToken.t) : Os N :=
  answer <- openat (At (staging l)) (ResumeToken.stage_name token) READ_WRITE_FLAGS;
  fd <- lift match answer with
             | inr fd => Ok fd
             | inl NOENT => Err (Missing "staging file")
             | inl LOOP => Err (UnsafeLayout "staging file")
             | inl error => Err (Io "opening staged data" (io_error_kind error))
             end;
  _ <- validate_metadata l fd "staging file" S_IFREG;
  lift (Ok fd).

Definition unlink_stage (l : t) (token : ResumeToken.t) : Os unit :=
  unlink_leaf (staging l) (ResumeToken.stage_name token) "staging file".
Definition sync_staging (l : t) : Os unit := sync_fd (staging l).
Definition sync_digest_dir (l : t) (kind : BlobKind.t) : Os unit := sync_fd (digest_dir l kind).

Definition same_file (left right : N) : Os bool :=
  answer <- fstat left;
  left <- or_io "reading retained file identity" answer;
  answer <- fstat right;
  right <- or_io "reading retained file identity" answer;
  lift (Ok ((Stat.st_dev left =? Stat.st_dev right) && (Stat.st_ino left =? Stat.st_ino right))).

(** ** Disk usage *)

(** Charge an inode the first time it is seen. *)
Definition charge (context : string) (state : gset (N * N) * N) (entry : LeafEntry.t)
    : result StoreError (gset (N * N) * N) :=
  let '(charged_inodes, bytes) := state in
  let identity := (LeafEntry.device entry, LeafEntry.inode entry) in
  if bool_decide (identity ∈ charged_inodes) then Ok (charged_inodes, bytes)
  else
    bytes ← ok_or (checked_add u64_max bytes (LeafEntry.charged_bytes entry)) (ArithmeticOverflow context);
    Ok ({[identity]} ∪ charged_inodes, bytes).

Definition usage (l : t) : Os DiskUsage.t :=
  '(charged_inodes, final_bytes) <-
    for_each (fun state kind =>
        entries <- digest_entries l kind;
        lift (try_fold (charge "summing final CAS bytes") state entries)) (∅, 0)
      [BlobKind.Manifest; BlobKind.PageTable; BlobKind.Object];
  entries <- stage_entries l;
  '(_, staging_bytes) <- lift (try_fold (charge "summing staged CAS bytes") (charged_inodes, 0) entries);
  '(available_bytes, allocation_unit) <- available_bytes (root l);
  let usage := DiskUsage.mk final_bytes staging_bytes available_bytes allocation_unit in
  _ <- lift (DiskUsage.checked_total_bytes usage);
  lift (Ok usage).
End Layout.
