(* ===== verification/StoreCas.v ===== *)
(** The content-addressed store (crates/runnel-store/src/cas.rs): verified,
    manifest-last import with resumable stages, and mark-and-sweep collection. *)
From stdpp Require Import prelude gmap strings.
From S2P Require Import Prelude Format FormatManifest FormatArtifact Store StoreOs StoreFs.
From S2P Require Import StorePages StoreStage StoreWrite StoreLayout.
#[local] Open Scope N_scope.
#[local] Open Scope os_scope.

Definition MIN_COPY_BUFFER_BYTES : N := 4 * 1024.
Definition MAX_COPY_BUFFER_BYTES : N := 2 * 1024 * 1024.
Definition DEFAULT_COPY_BUFFER_BYTES : N := 64 * 1024.
Definition STAGE_CREATE_ATTEMPTS : nat := 16.

Module CasConfig.
Record t : Type := mk { disk_budget : DiskBudget.t; copy_buffer_bytes : N }.
Definition validate (c : t) : result StoreError t :=
  _ ← DiskBudget.validate (disk_budget c);
  _ ← guard_err (negb ((MIN_COPY_BUFFER_BYTES <=? copy_buffer_bytes c)
                       && (copy_buffer_bytes c <=? MAX_COPY_BUFFER_BYTES)))
        (InvalidConfig "copy_buffer_bytes" "must be between 4096 and 2097152");
  Ok c.
Definition default : t := mk DiskBudget.default DEFAULT_COPY_BUFFER_BYTES.
End CasConfig.

Module ImportReceipt.
Record t : Type := mk { artifact_id : Digest; published_blobs : N; reused_blobs : N; published_bytes : N }.
End ImportReceipt.
Module GcPolicy.
Record t : Type := mk { dry_run : bool; remove_staging : bool }.
End GcPolicy.
Module GcReport.
Record t : Type := mk {
  candidate_blobs : N; candidate_bytes : N; deleted_blobs : N; deleted_bytes : N; dry_run : bool
}.
End GcReport.

Inductive Publication : Set := BlobPublished | BlobReused.

Inductive DeleteKind : Set := DigestKind (kind : BlobKind.t) | StageKind.
#[export] Instance DeleteKind_eq_dec : EqDecision DeleteKind.
Proof. solve_decision. Defined.

Module DeleteCandidate.
Record t : Type := mk {
  kind : DeleteKind; name : string; device : N; inode : N; reclaim_bytes : N; allocated_bytes : N
}.
Definition identity (c : t) : N * N := (device c, inode c).
Definition set_reclaim (n : N) (c : t) : t := mk (kind c) (name c) (device c) (inode c) n (allocated_bytes c).
End DeleteCandidate.

(** Keys of the ordered maps and sets over blobs. *)
#[export] Instance BlobKind_countable : Countable BlobKind.t.
Proof.
  refine (inj_countable' (fun k => match k with BlobKind.Manifest => 0 | BlobKind.PageTable => 1 | BlobKind.Object => 2 end)
    (fun n => match n with 0 => BlobKind.Manifest | 1 => BlobKind.PageTable | _ => BlobKind.Object end) _).
  by intros [].
Defined.

(** * Free functions *)

Definition account_publication (publication : Publication) (length : N) (counts : N * N * N)
    : result StoreError (N * N * N) :=
  let '(published_blobs, reused_blobs, published_bytes) := counts in
  match publication with
  | BlobPublished =>
      published_blobs ← ok_or (checked_add u64_max published_blobs 1) (ArithmeticOverflow "counting published blobs");
      published_bytes ← ok_or (checked_add u64_max published_bytes length)
        (ArithmeticOverflow "counting published bytes");
      Ok (published_blobs, reused_blobs, published_bytes)
  | BlobReused =>
      reused_blobs ← ok_or (checked_add u64_max reused_blobs 1) (ArithmeticOverflow "counting reused blobs");
      Ok (published_blobs, reused_blobs, published_bytes)
  end.

(** [format!("sha256:{name}").parse().map_err(..)]. *)
Definition parse_digest_name (name kind : string) : result StoreError Digest :=
  match Digest.from_str ("sha256:" +:+ name) with
  | Ok d => Ok d
  | Err _ => Err (UnsafeLayout kind)
  | Panic => Panic
  end.

Definition lower_hex (bytes : list N) : string := bytes_string (Digest.write_hex bytes).

Definition entry_identity (e : LeafEntry.t) : N * N := (LeafEntry.device e, LeafEntry.inode e).

(** The bytes that deleting the last candidate of an inode frees, when no name of
    that inode is kept. *)
Definition is_candidate (candidates : list DeleteCandidate.t) (kind : DeleteKind) (name : string) : bool :=
  existsb (fun c => bool_decide (DeleteCandidate.kind c = kind /\ DeleteCandidate.name c = name)) candidates.
Definition retained (candidates : list DeleteCandidate.t) (manifests objects page_tables stages : list LeafEntry.t)
    : gset (N * N) :=
  let kept kind := filter (fun e => is_candidate candidates kind (LeafEntry.name e) = false) in
  list_to_set (entry_identity <$> manifests)
  ∪ list_to_set (entry_identity <$> kept (DigestKind BlobKind.Object) objects)
  ∪ list_to_set (entry_identity <$> kept (DigestKind BlobKind.PageTable) page_tables)
  ∪ list_to_set (entry_identity <$> kept StageKind stages).
Definition final_candidate (retained : gset (N * N)) (candidates : list DeleteCandidate.t) : gmap (N * N) nat :=
  foldl (fun final '(index, candidate) =>
           let identity := DeleteCandidate.identity candidate in
           if bool_decide (identity ∈ retained) then final else <[identity := index]> final)
    ∅ (imap (fun i c => (i, c)) candidates).
Definition assign_reclaim (candidates : list DeleteCandidate.t) (final : N * N * nat)
    : result StoreError (list DeleteCandidate.t) :=
  let '(identity, index) := final in
  candidate ← expect (candidates !! index);
  let allocated := DeleteCandidate.allocated_bytes candidate in
  _ ← guard_err (existsb (fun c => bool_decide (DeleteCandidate.identity c = identity)
                                   && negb (DeleteCandidate.allocated_bytes c =? allocated)) candidates)
        (Invariant "hard links reported inconsistent allocated bytes");
  Ok (<[index := DeleteCandidate.set_reclaim allocated candidate]> candidates).
Definition assign_reclaim_bytes (candidates : list DeleteCandidate.t)
    (manifests objects page_tables stages : list LeafEntry.t) : result StoreError (list DeleteCandidate.t) :=
  let retained := retained candidates manifests objects page_tables stages in
  try_fold assign_reclaim candidates (btree_iter (final_candidate retained candidates)).

(** * Verification of retained bytes *)

Section verify.
Context (sha256 : list N -> Digest).

(** The hashing loop of [verify_digest]: what the hasher was fed and the offset. *)
Definition digest_round (fd expected_length : N) (kind : string) (buffer_bytes : N) (state : list N * N)
    : Os ((list N * N) + list N) :=
  let '(hashed, offset) := state in
  if offset <? expected_length then
    _ <- check;
    let length := N.min (expected_length - offset) buffer_bytes in
    bytes <- read_exact_at fd offset length kind;
    offset <- lift (ok_or (checked_add u64_max offset length) (ArithmeticOverflow "hashing retained bytes"));
    lift (Ok (inl (hashed ++ bytes, offset)))
  else lift (Ok (inr hashed)).

Definition verify_digest (fd : N) (expected_digest : Digest) (expected_length : N) (kind : string)
    (buffer_bytes : N) : Os unit :=
  initial_length <- metadata_len_regular fd kind;
  _ <- lift (guard_err (negb (initial_length =? expected_length))
               (LengthMismatch kind expected_length initial_length));
  hashed <- iterate (digest_round fd expected_length kind buffer_bytes) ([], 0);
  final_length <- metadata_len_regular fd kind;
  _ <- lift (guard_err (negb (final_length =? expected_length)) (LengthMismatch kind expected_length final_length));
  lift (guard_err (negb (sha256 hashed =? expected_digest)) (Integrity kind)).

Definition digest_bytes_interruptible (bytes : list N) (buffer_bytes : N) : Os Digest :=
  hashed <- for_each hash_chunk [] (chunks (N.to_nat buffer_bytes) bytes);
  _ <- check;
  lift (Ok (sha256 hashed)).

Definition verify_page_hash (fd : N) (record : ObjectRecord.t) (table : PageTable.t) (buffer_bytes page_index : N)
    : Os unit :=
  let page_size := ObjectRecord.page_size record in
  _ <- check;
  offset <- lift (ok_or (checked_mul u64_max page_index page_size)
                    (ArithmeticOverflow "computing an object page offset"));
  let length := N.min (ObjectRecord.length record - offset) page_size in
  bytes <- read_exact_at fd offset length "object page";
  actual <- digest_bytes_interruptible bytes buffer_bytes;
  lift (guard_err (bool_decide (PageTable.page_hash table page_index <> Some (Digest.as_bytes actual)))
          (Integrity "object page")).

Definition verify_object (fd : N) (record : ObjectRecord.t) (table : PageTable.t) (buffer_bytes : N) : Os unit :=
  _ <- lift (guard_err (negb (PageTable.object_digest table =? ObjectRecord.digest record)
                        || negb (PageTable.object_length table =? ObjectRecord.length record)
                        || negb (PageTable.page_size table =? ObjectRecord.page_size record))
               (Integrity "page table"));
  _ <- verify_digest fd (ObjectRecord.digest record) (ObjectRecord.length record) "object" buffer_bytes;
  for_each (fun _ page_index => verify_page_hash fd record table buffer_bytes page_index) tt
    (rangeN (PageTable.page_count table)).
End verify.

(** * The store *)

Module Cas.
Record t : Type := mk { layout : Layout.t; config : CasConfig.t }.

(** The bytes of one buffer. *)
Definition buffer (cas : t) : N := CasConfig.copy_buffer_bytes (config cas).

Section open.
Context (RESOLVER : StoreError + Resolver).
Definition create (root : list Component) (config : CasConfig.t) : Os t :=
  config <- lift (CasConfig.validate config);
  layout <- Layout.create RESOLVER root;
  lift (Ok (mk layout config)).
Definition open (root : list Component) (config : CasConfig.t) : Os t :=
  config <- lift (CasConfig.validate config);
  layout <- Layout.open RESOLVER root;
  lift (Ok (mk layout config)).
End open.

(** ** Locks *)

Definition local_lock : Os unit :=
  answer <- mutex MLock;
  match answer with
  | Acquired => lift (Ok tt)
  | Poisoned => lift (Err (Invariant "local transaction mutex was poisoned"))
  | WouldBlock => fun _ => Mismatch
  end.
Definition local_unlock : Os unit := ignore (mutex MUnlock).
Definition local_round (_ : unit) : Os (unit + unit) :=
  _ <- check;
  answer <- mutex MTryLock;
  lift match answer with
       | Acquired => Ok (inr tt)
       | WouldBlock => Ok (inl tt)
       | Poisoned => Err (Invariant "local transaction mutex was poisoned")
       end.
Definition local_lock_with_control : Os unit := iterate local_round tt.

(** A transaction: both locks, the body, and their release in the opposite order. *)
Definition transaction {A} (cas : t) (body : Os A) : Os A :=
  _ <- local_lock;
  finally (_ <- Layout.lock (layout cas); finally body (Layout.unlock (layout cas))) local_unlock.
Definition transaction_with_control {A} (cas : t) (body : Os A) : Os A :=
  _ <- local_lock_with_control;
  finally (_ <- Layout.lock_with_control (layout cas); finally body (Layout.unlock (layout cas))) local_unlock.

Definition usage (cas : t) : Os DiskUsage.t := transaction cas (Layout.usage (layout cas)).

Definition resume_tokens (cas : t) : Os (list ResumeToken.t) :=
  transaction cas
    (entries <- Layout.stage_entries (layout cas);
     lift (mapM (fun entry => ResumeToken.from_stage_name (LeafEntry.name entry)) entries)).

(** ** Durability *)

Definition sync_digest_dir (cas : t) (kind : BlobKind.t) : Os unit := Layout.sync_digest_dir (layout cas) kind.
Definition sync_staging (cas : t) : Os unit := Layout.sync_staging (layout cas).

Definition confirm_digest_durability (cas : t) (kind : BlobKind.t) : Os unit :=
  or_else (sync_digest_dir cas kind) (PublishedButDurabilityUnconfirmed (BlobKind.error_name kind)).
Definition confirm_staging_durability (cas : t) (kind : BlobKind.t) : Os unit :=
  or_else (sync_staging cas) (PublishedButDurabilityUnconfirmed (BlobKind.error_name kind)).
Definition confirm_blob_durability (cas : t) (kind : BlobKind.t) : Os unit :=
  _ <- confirm_digest_durability cas kind;
  confirm_staging_durability cas kind.
Definition confirm_committed_durability (cas : t) : Os unit :=
  let unconfirmed := PublishedButDurabilityUnconfirmed "manifest" in
  _ <- or_else (sync_digest_dir cas BlobKind.PageTable) unconfirmed;
  _ <- or_else (sync_digest_dir cas BlobKind.Object) unconfirmed;
  _ <- or_else (sync_staging cas) unconfirmed;
  or_else (sync_digest_dir cas BlobKind.Manifest) unconfirmed.

Definition finish_link_publication (cas : t) (token : ResumeToken.t) (kind : BlobKind.t) : Os unit :=
  _ <- confirm_digest_durability cas kind;
  _ <- ignore (Layout.unlink_stage (layout cas) token);
  confirm_staging_durability cas kind.

Definition finish_reused_stage (cas : t) (token : ResumeToken.t) (kind : BlobKind.t) : Os unit :=
  _ <- confirm_digest_durability cas kind;
  unlinked <- attempt (Layout.unlink_stage (layout cas) token);
  match unlinked with
  | inl error => _ <- ignore (sync_staging cas); lift (Err error)
  | inr _ => confirm_staging_durability cas kind
  end.

(** ** Cleanup of redundant stages *)

Definition sync_partial_stage_cleanup (cas : t) (staging_modified : bool) : Os unit :=
  if staging_modified then ignore (sync_staging cas) else lift (Ok tt).

(** The loop of both cleanups, over the stages whose token is [redundant]. *)
Definition cleanup_entry (cas : t) (redundant : ResumeToken.t -> bool) (staging_modified : bool)
    (entry : LeafEntry.t) : Os bool :=
  match ResumeToken.from_stage_name (LeafEntry.name entry) with
  | Panic => lift Panic
  | Err error => _ <- sync_partial_stage_cleanup cas staging_modified; lift (Err error)
  | Ok token =>
      if redundant token then
        unlinked <- attempt (Layout.unlink_stage (layout cas) token);
        match unlinked with
        | inl error => _ <- sync_partial_stage_cleanup cas staging_modified; lift (Err error)
        | inr _ => lift (Ok true)
        end
      else lift (Ok staging_modified)
  end.
Definition cleanup_stages (cas : t) (redundant : ResumeToken.t -> bool) : Os unit :=
  entries <- Layout.stage_entries (layout cas);
  _ <- for_each (cleanup_entry cas redundant) false entries;
  lift (Ok tt).

Definition cleanup_matching_stages (cas : t) (kind : BlobKind.t) (digest : Digest) (expected_length : N) : Os unit :=
  cleanup_stages cas (fun token => bool_decide (ResumeToken.kind token = kind)
                                   && (ResumeToken.digest token =? digest)
                                   && (ResumeToken.expected_length token =? expected_length)).

(** The blobs of a manifest: tables and objects in record order. *)
Definition record_blobs (record : ObjectRecord.t) : list (BlobKind.t * Digest * N) :=
  [(BlobKind.PageTable, ObjectRecord.page_table record, ObjectRecord.page_table_length record);
   (BlobKind.Object, ObjectRecord.digest record, ObjectRecord.length record)].
Definition blobs (manifest : Manifest.t) (manifest_length : N) : list (BlobKind.t * Digest * N) :=
  (BlobKind.Manifest, Manifest.artifact_id manifest, manifest_length)
  :: (record ← Manifest.objects manifest; record_blobs record).

Definition cleanup_committed_stages (cas : t) (manifest : Manifest.t) : Os unit :=
  let committed : gset (BlobKind.t * Digest * N) :=
    list_to_set (blobs manifest (lenN (Manifest.canonical_bytes manifest))) in
  cleanup_stages cas (fun token => bool_decide
    ((ResumeToken.kind token, ResumeToken.digest token, ResumeToken.expected_length token) ∈ committed)).

(** ** Publication *)

Definition rename_stage_noreplace (cas : t) (token : ResumeToken.t) (kind : BlobKind.t) (digest : Digest)
    : Os RenameNoReplace :=
  rename_noreplace (Layout.staging (layout cas)) (ResumeToken.stage_name token)
    (Layout.digest_dir (layout cas) kind) (Digest.path_component digest) (BlobKind.error_name kind).
Definition link_stage_noreplace (cas : t) (token : ResumeToken.t) (kind : BlobKind.t) (digest : Digest) : Os unit :=
  link_noreplace (Layout.staging (layout cas)) (ResumeToken.stage_name token)
    (Layout.digest_dir (layout cas) kind) (Digest.path_component digest) (BlobKind.error_name kind).

(** One attempt at a fresh staging name. *)
Definition create_attempt (cas : t) (kind : BlobKind.t) (digest : Digest) (expected_length : N)
    : Os (option (ResumeToken.t * N)) :=
  answer <- getrandom 16;
  random <- lift (ok_or answer (Io "generating a staging name" "Other"));
  token <- lift (ResumeToken.new kind digest expected_length (lower_hex random));
  created <- attempt (Layout.create_stage (layout cas) token);
  match created with
  | inr fd =>
      synced <- attempt (sync_staging cas);
      match synced with
      | inl error =>
          _ <- ignore (Layout.unlink_stage (layout cas) token);
          _ <- ignore (sync_staging cas);
          lift (Err error)
      | inr _ => lift (Ok (Some (token, fd)))
      end
  | inl (AlreadyExists _) => lift (Ok None)
  | inl error => lift (Err error)
  end.
Fixpoint create_attempts (cas : t) (kind : BlobKind.t) (digest : Digest) (expected_length : N) (attempts : nat)
    : Os (ResumeToken.t * N) :=
  match attempts with
  | O => lift (Err (AlreadyExists "staging file"))
  | S attempts =>
      created <- create_attempt cas kind digest expected_length;
      match created with
      | Some stage => lift (Ok stage)
      | None => create_attempts cas kind digest expected_length attempts
      end
  end.
Definition create_stage (cas : t) (kind : BlobKind.t) (digest : Digest) (expected_length : N)
    : Os (ResumeToken.t * N) :=
  create_attempts cas kind digest expected_length STAGE_CREATE_ATTEMPTS.

Section publish.
Context (sha256 : list N -> Digest) (RESOLVER : StoreError + Resolver).

(** The comparison of a resumed prefix with the source, and the copy of the rest:
    what the hasher was fed and the position. *)
Definition prefix_round (cas : t) (source stage offset : N) (kind : BlobKind.t) (state : list N * N)
    : Os ((list N * N) + (list N * N)) :=
  let '(hashed, position) := state in
  if position <? offset then
    _ <- check;
    let length := N.min (offset - position) (buffer cas) in
    staged <- read_exact_at stage position length "staging prefix";
    original <- read_exact_at source position length (BlobKind.error_name kind);
    _ <- lift (guard_err (bool_decide (staged <> original)) (Integrity "staging prefix"));
    position <- lift (ok_or (checked_add u64_max position length) (ArithmeticOverflow "rehashing a staged prefix"));
    lift (Ok (inl (hashed ++ staged, position)))
  else lift (Ok (inr (hashed, position))).
Definition copy_round (cas : t) (source stage expected_length : N) (kind : BlobKind.t) (state : list N * N)
    : Os ((list N * N) + list N) :=
  let '(hashed, position) := state in
  if position <? expected_length then
    _ <- check;
    let length := N.min (expected_length - position) (buffer cas) in
    bytes <- read_exact_at source position length (BlobKind.error_name kind);
    _ <- write_all_at stage position bytes;
    position <- lift (ok_or (checked_add u64_max position length) (ArithmeticOverflow "copying staged bytes"));
    lift (Ok (inl (hashed ++ bytes, position)))
  else lift (Ok (inr hashed)).

(** A resumed object is cut back to a page boundary. *)
Definition resume_offset (stage : N) (kind : BlobKind.t) (expected_length : N) (object_page_size : option N)
    (resumed : bool) (offset : N) : Os N :=
  match object_page_size with
  | Some page_size =>
      if resumed && bool_decide (kind = BlobKind.Object) && (offset <? expected_length) then
        _ <- lift (if page_size =? 0 then Panic else Ok tt);
        let boundary := offset / page_size * page_size in
        if boundary =? offset then lift (Ok offset)
        else _ <- truncate stage boundary; lift (Ok boundary)
      else lift (Ok offset)
  | None => lift (Ok offset)
  end.

Definition copy_and_rehash (cas : t) (source stage : N) (kind : BlobKind.t) (digest : Digest) (expected_length : N)
    (object_page_size : option N) (resumed : bool) : Os unit :=
  source_length <- metadata_len_regular source (BlobKind.error_name kind);
  _ <- lift (guard_err (negb (source_length =? expected_length))
               (LengthMismatch (BlobKind.error_name kind) expected_length source_length));
  offset <- metadata_len_regular stage "staging file";
  _ <- lift (guard_err (expected_length <? offset) (ResumeMismatch "length"));
  offset <- resume_offset stage kind expected_length object_page_size resumed offset;
  state <- iterate (prefix_round cas source stage offset kind) ([], 0);
  hashed <- iterate (copy_round cas source stage expected_length kind) state;
  actual_length <- metadata_len_regular stage "staging file";
  _ <- lift (guard_err (negb (actual_length =? expected_length))
               (LengthMismatch "staging file" expected_length actual_length));
  _ <- lift (guard_err (negb (sha256 hashed =? digest)) (Integrity (BlobKind.error_name kind)));
  final_source_length <- metadata_len_regular source (BlobKind.error_name kind);
  lift (guard_err (negb (final_source_length =? expected_length))
          (LengthMismatch (BlobKind.error_name kind) expected_length final_source_length)).

Section ensure.
Context (cas : t) (kind : BlobKind.t) (digest : Digest) (expected_length : N) (verify : N -> Os unit).

(** The blob is there: verify it, confirm it, and drop redundant stages. *)
Definition reuse_blob (fd : N) : Os Publication :=
  _ <- verify_digest sha256 fd digest expected_length (BlobKind.error_name kind) (buffer cas);
  _ <- verify fd;
  _ <- confirm_digest_durability cas kind;
  _ <- cleanup_matching_stages cas kind digest expected_length;
  _ <- confirm_staging_durability cas kind;
  lift (Ok BlobReused).

(** The stage: the resumed one or a fresh one. *)
Definition obtain_stage (resume : option ResumeToken.t) : Os (ResumeToken.t * N) :=
  match resume with
  | Some token =>
      _ <- lift (ResumeToken.validate_for token kind digest expected_length);
      stage <- Layout.open_stage (layout cas) token;
      lift (Ok (token, stage))
  | None => create_stage cas kind digest expected_length
  end.

(** The rename was not confirmed: the final name decides. *)
Definition settle_blob (token : ResumeToken.t) (ambiguous_error : option StoreError) : Os Publication :=
  opened <- attempt (Layout.open_digest RESOLVER (layout cas) kind digest expected_length);
  final_fd <- lift match opened, ambiguous_error with
                   | inr fd, _ => Ok fd
                   | inl (Missing _), Some error => Err error
                   | inl error, _ => Err error
                   end;
  _ <- unbounded (verify_digest sha256 final_fd digest expected_length (BlobKind.error_name kind) (buffer cas));
  _ <- unbounded (verify final_fd);
  match ambiguous_error with
  | None => _ <- finish_reused_stage cas token kind; lift (Ok BlobReused)
  | Some _ =>
      opened <- attempt (Layout.open_stage (layout cas) token);
      match opened with
      | inr stage_fd =>
          same <- Layout.same_file final_fd stage_fd;
          if (same : bool)
          then _ <- finish_link_publication cas token kind; lift (Ok BlobPublished)
          else _ <- finish_reused_stage cas token kind; lift (Ok BlobReused)
      | inl (Missing _) => _ <- confirm_blob_durability cas kind; lift (Ok BlobPublished)
      | inl error => lift (Err error)
      end
  end.

(** The verified stage gets its final name. *)
Definition publish_blob (token : ResumeToken.t) : Os Publication :=
  renamed <- attempt (rename_stage_noreplace cas token kind digest);
  match renamed with
  | inr Published => _ <- confirm_blob_durability cas kind; lift (Ok BlobPublished)
  | inr Unsupported =>
      _ <- check;
      linked <- attempt (link_stage_noreplace cas token kind digest);
      match linked with
      | inr _ => _ <- finish_link_publication cas token kind; lift (Ok BlobPublished)
      | inl (AlreadyExists _) => settle_blob token None
      | inl error => settle_blob token (Some error)
      end
  | inl (AlreadyExists _) => settle_blob token None
  | inl error => settle_blob token (Some error)
  end.

Definition ensure_blob (source : N) (object_page_size : option N) (resume : option ResumeToken.t) : Os Publication :=
  opened <- attempt (Layout.open_digest RESOLVER (layout cas) kind digest expected_length);
  match opened with
  | inr fd => reuse_blob fd
  | inl (Missing _) =>
      '(token, stage) <- obtain_stage resume;
      _ <- copy_and_rehash cas source stage kind digest expected_length object_page_size
             (bool_decide (is_Some resume));
      _ <- verify_digest sha256 stage digest expected_length (BlobKind.error_name kind) (buffer cas);
      _ <- verify stage;
      _ <- sync_fd stage;
      _ <- check;
      publish_blob token
  | inl error => lift (Err error)
  end.
End ensure.

(** ** Committed artifacts *)

Definition read_table (cas : t) (record : ObjectRecord.t) : Os PageTable.t :=
  table_fd <- Layout.open_digest RESOLVER (layout cas) BlobKind.PageTable (ObjectRecord.page_table record)
                (ObjectRecord.page_table_length record);
  table_bytes <- read_exact_at table_fd 0 (ObjectRecord.page_table_length record) "page table";
  lift (from_format (PageTable.parse_verified sha256 record table_bytes)).

Definition verify_manifest_references (cas : t) (manifest : Manifest.t) : Os unit :=
  for_each (fun _ record =>
      _ <- check;
      table <- read_table cas record;
      object_fd <- Layout.open_digest RESOLVER (layout cas) BlobKind.Object (ObjectRecord.digest record)
                     (ObjectRecord.length record);
      verify_object sha256 object_fd record table (buffer cas)) tt (Manifest.objects manifest).

Definition verify_committed (cas : t) (manifest : Manifest.t) (manifest_fd : N) : Os N :=
  _ <- verify_digest sha256 manifest_fd (Manifest.artifact_id manifest)
         (lenN (Manifest.canonical_bytes manifest)) "manifest" (buffer cas);
  _ <- verify_manifest_references cas manifest;
  lift (ok_or (doubled ← checked_mul u64_max (lenN (Manifest.objects manifest)) 2; checked_add u64_max doubled 1)
          (ArithmeticOverflow "counting committed blobs")).
End publish.
End Cas.
