(* ===== verification/StoreImport.v ===== *)
(** Import of an artifact into the content-addressed store and collection of
    what no manifest refers to (crates/runnel-store/src/cas.rs). *)
From stdpp Require Import prelude gmap strings.
From S2P Require Import Prelude Format FormatManifest FormatArtifact Store StoreOs StoreFs.
From S2P Require Import StorePages StoreStage StoreWrite StoreLayout StoreCas.
#[local] Open Scope N_scope.
#[local] Open Scope os_scope.

Abbreviation resume_map := (gmap (BlobKind.t * Digest) ResumeToken.t).

Module CasImport.
Section import.
Context (sha256 : list N -> Digest) (from_slice : list N -> Token * option SyntaxError).
Context (RESOLVER : StoreError + Resolver) (cas : Cas.t).

(** [collect] of the staging entries by name. *)
Definition stages_by_name (entries : list LeafEntry.t) : gmap string LeafEntry.t :=
  foldl (fun m entry => <[LeafEntry.name entry := entry]> m) ∅ entries.

(** The declared lengths; a later blob with the same key wins. *)
Definition declared (manifest : Manifest.t) (manifest_length : N) : gmap (BlobKind.t * Digest) N :=
  foldl (fun m '(kind, digest, length) => <[(kind, digest) := length]> m) ∅ (Cas.blobs manifest manifest_length).

Definition validate_resume (stages : gmap string LeafEntry.t) (lengths : gmap (BlobKind.t * Digest) N)
    (result_ : resume_map) (token : ResumeToken.t) : result StoreError resume_map :=
  let key := (ResumeToken.kind token, ResumeToken.digest token) in
  expected_length ← ok_or (lengths !! key) (ResumeMismatch "artifact");
  _ ← ResumeToken.validate_for token key.1 key.2 expected_length;
  entry ← ok_or (stages !! ResumeToken.stage_name token) (Missing "staging file");
  _ ← guard_err (expected_length <? LeafEntry.length entry) (ResumeMismatch "length");
  _ ← guard_err (bool_decide (is_Some (result_ !! key))) InvalidResumeToken;
  Ok (<[key := token]> result_).
Definition validate_resumes (manifest : Manifest.t) (manifest_length : N) (resumes : list ResumeToken.t)
    : Os resume_map :=
  entries <- Layout.stage_entries (Cas.layout cas);
  lift (try_fold (validate_resume (stages_by_name entries) (declared manifest manifest_length)) ∅ resumes).

Definition plan_blob (usage : DiskUsage.t) (stages : gmap string LeafEntry.t) (resumes : resume_map)
    (additional : N) (blob : BlobKind.t * Digest * N) : Os N :=
  let '(kind, digest, length) := blob in
  opened <- attempt (Layout.open_digest RESOLVER (Cas.layout cas) kind digest length);
  match opened with
  | inr _ => lift (Ok additional)
  | inl (Missing _) =>
      lift (planned ← DiskUsage.round_up usage length;
            let staged := from_option LeafEntry.charged_bytes 0
                            (token ← resumes !! (kind, digest); stages !! ResumeToken.stage_name token) in
            ok_or (checked_add u64_max additional (saturating_sub planned staged))
              (ArithmeticOverflow "summing planned CAS allocation"))
  | inl error => lift (Err error)
  end.
Definition preflight_import (manifest : Manifest.t) (manifest_length : N) (resumes : resume_map) : Os unit :=
  usage <- Layout.usage (Cas.layout cas);
  entries <- Layout.stage_entries (Cas.layout cas);
  additional <- for_each (plan_blob usage (stages_by_name entries) resumes) 0
                  (Cas.blobs manifest manifest_length);
  lift (DiskBudget.preflight (CasConfig.disk_budget (Cas.config cas)) usage additional).

(** The counters of the receipt and the verified tables. *)
Definition import_table (source : ArtifactSource.t) (resumes : resume_map)
    (state : N * N * N * gmap N PageTable.t) (record : ObjectRecord.t) : Os (N * N * N * gmap N PageTable.t) :=
  let '(counts, page_tables) := state in
  _ <- check;
  source_fd <- ArtifactSource.open_page_table RESOLVER source (ObjectRecord.page_table record)
                 (ObjectRecord.page_table_length record);
  publication <-
    Cas.ensure_blob sha256 RESOLVER cas BlobKind.PageTable (ObjectRecord.page_table record)
      (ObjectRecord.page_table_length record)
      (fun fd =>
         bytes <- read_exact_at fd 0 (ObjectRecord.page_table_length record) "page table";
         _ <- lift (from_format (PageTable.parse_verified sha256 record bytes));
         lift (Ok tt))
      source_fd None (resumes !! (BlobKind.PageTable, ObjectRecord.page_table record));
  counts <- lift (account_publication publication (ObjectRecord.page_table_length record) counts);
  table <- Cas.read_table sha256 RESOLVER cas record;
  lift (Ok (counts, <[ObjectRecord.digest record := table]> page_tables)).

Definition import_object (source : ArtifactSource.t) (resumes : resume_map) (page_tables : gmap N PageTable.t)
    (counts : N * N * N) (record : ObjectRecord.t) : Os (N * N * N) :=
  _ <- check;
  table <- lift (ok_or (page_tables !! ObjectRecord.digest record)
                   (Invariant "verified page table disappeared from import plan"));
  source_fd <- ArtifactSource.open_object RESOLVER source (ObjectRecord.digest record) (ObjectRecord.length record);
  publication <-
    Cas.ensure_blob sha256 RESOLVER cas BlobKind.Object (ObjectRecord.digest record) (ObjectRecord.length record)
      (fun fd => verify_object sha256 fd record table (Cas.buffer cas))
      source_fd (Some (ObjectRecord.page_size record)) (resumes !! (BlobKind.Object, ObjectRecord.digest record));
  lift (account_publication publication (ObjectRecord.length record) counts).

Definition import_manifest (source : ArtifactSource.t) (expected_id : Digest) (limits : Limits.t)
    (manifest_length : N) (resumes : resume_map) (counts : N * N * N) : Os (N * N * N) :=
  _ <- check;
  source_manifest <- duplicate (ArtifactSource.manifest source);
  publication <-
    Cas.ensure_blob sha256 RESOLVER cas BlobKind.Manifest expected_id manifest_length
      (fun fd =>
         bytes <- read_exact_at fd 0 manifest_length "manifest";
         _ <- lift (from_format (parse_with_expected_id sha256 from_slice bytes limits expected_id));
         lift (Ok tt))
      source_manifest None (resumes !! (BlobKind.Manifest, expected_id));
  lift (account_publication publication manifest_length counts).

(** What the import does under the locks. *)
Definition import_locked (source : ArtifactSource.t) (expected_id : Digest) (limits : Limits.t)
    (manifest : Manifest.t) (manifest_length : N) (resumes : list ResumeToken.t) : Os ImportReceipt.t :=
  _ <- check;
  _ <- Layout.usage (Cas.layout cas);
  opened <- attempt (Layout.open_digest RESOLVER (Cas.layout cas) BlobKind.Manifest expected_id manifest_length);
  match opened with
  | inr manifest_fd =>
      reused <- Cas.verify_committed sha256 RESOLVER cas manifest manifest_fd;
      _ <- Cas.cleanup_committed_stages cas manifest;
      _ <- Cas.confirm_committed_durability cas;
      lift (Ok (ImportReceipt.mk expected_id 0 reused 0))
  | inl _ =>
      resumes <- validate_resumes manifest manifest_length resumes;
      _ <- preflight_import manifest manifest_length resumes;
      '(counts, page_tables) <- for_each (import_table source resumes) (0, 0, 0, ∅) (Manifest.objects manifest);
      counts <- for_each (import_object source resumes page_tables) counts (Manifest.objects manifest);
      '(published_blobs, reused_blobs, published_bytes) <-
        import_manifest source expected_id limits manifest_length resumes counts;
      lift (Ok (ImportReceipt.mk expected_id published_blobs reused_blobs published_bytes))
  end.

Definition import_with_resumes (source : ArtifactSource.t) (expected_id : Digest) (limits : Limits.t)
    (resumes : list ResumeToken.t) : Os ImportReceipt.t :=
  _ <- check;
  limits <- lift (from_format (Limits.validate limits));
  manifest_bytes <- ArtifactSource.manifest_bytes source (Limits.manifest_bytes limits);
  manifest <- lift (from_format (parse_with_expected_id sha256 from_slice manifest_bytes limits expected_id));
  Cas.transaction_with_control cas
    (import_locked source expected_id limits manifest (lenN manifest_bytes) resumes).

Definition import (source : ArtifactSource.t) (expected_id : Digest) (limits : Limits.t) : Os ImportReceipt.t :=
  import_with_resumes source expected_id limits [].

(** ** Opening an imported artifact *)

Definition manifest_length_for_open (artifact_id : Digest) : Os N :=
  entries <- Layout.digest_entries (Cas.layout cas) BlobKind.Manifest;
  lift (ok_or (LeafEntry.length <$>
                 head (filter (fun e => LeafEntry.name e = Digest.path_component artifact_id) entries))
          (Missing "manifest")).

Definition open_artifact (artifact_id : Digest) (limits : Limits.t) : Os StoredArtifact.t :=
  _ <- check;
  length <- manifest_length_for_open artifact_id;
  manifest <- Layout.open_digest RESOLVER (Cas.layout cas) BlobKind.Manifest artifact_id length;
  root <- duplicate (Layout.root (Cas.layout cas));
  objects <- duplicate (Layout.objects (Cas.layout cas));
  page_tables <- duplicate (Layout.page_tables (Cas.layout cas));
  source <- ArtifactSource.from_retained root manifest objects page_tables;
  StoredArtifact.open_source_internal sha256 from_slice RESOLVER source limits (Some artifact_id).
End import.
End CasImport.

(** * Garbage collection *)

Module CasGc.
(** The report, the digest directories and whether staging was modified. *)
Module Sweep.
Record t : Type := mk { report : GcReport.t; modified : gset BlobKind.t; staging_modified : bool }.
End Sweep.

Section gc.
Context (sha256 : list N -> Digest) (from_slice : list N -> Token * option SyntaxError).
Context (RESOLVER : StoreError + Resolver) (cas : Cas.t).

Definition mark_manifest (limits : Limits.t) (live : gset Digest * gset Digest) (entry : LeafEntry.t)
    : Os (gset Digest * gset Digest) :=
  _ <- check;
  artifact_id <- lift (parse_digest_name (LeafEntry.name entry) "manifest");
  fd <- Layout.open_digest RESOLVER (Cas.layout cas) BlobKind.Manifest artifact_id (LeafEntry.length entry);
  bytes <- read_bounded_at fd (Limits.manifest_bytes limits) "manifest";
  manifest <- lift (from_format (parse_with_expected_id sha256 from_slice bytes limits artifact_id));
  _ <- Cas.verify_manifest_references sha256 RESOLVER cas manifest;
  lift (Ok (foldl (fun '(objects, tables) record =>
                     ({[ObjectRecord.digest record]} ∪ objects, {[ObjectRecord.page_table record]} ∪ tables))
              live (Manifest.objects manifest))).

Definition plan_unreferenced (kind : BlobKind.t) (live : gset Digest) (output : list DeleteCandidate.t)
    (entry : LeafEntry.t) : Os (list DeleteCandidate.t) :=
  _ <- check;
  digest <- lift (parse_digest_name (LeafEntry.name entry) (BlobKind.error_name kind));
  fd <- Layout.open_digest RESOLVER (Cas.layout cas) kind digest (LeafEntry.length entry);
  _ <- verify_digest sha256 fd digest (LeafEntry.length entry) (BlobKind.error_name kind) (Cas.buffer cas);
  lift (Ok (if bool_decide (digest ∈ live) then output
            else output ++ [DeleteCandidate.mk (DigestKind kind) (LeafEntry.name entry) (LeafEntry.device entry)
                              (LeafEntry.inode entry) 0 (LeafEntry.charged_bytes entry)])).

Definition plan_stage (output : list DeleteCandidate.t) (entry : LeafEntry.t) : Os (list DeleteCandidate.t) :=
  _ <- check;
  _ <- lift (ResumeToken.from_stage_name (LeafEntry.name entry));
  lift (Ok (output ++ [DeleteCandidate.mk StageKind (LeafEntry.name entry) (LeafEntry.device entry)
                         (LeafEntry.inode entry) 0 (LeafEntry.charged_bytes entry)])).

(** The complete plan, before the first unlink. *)
Definition plan (policy : GcPolicy.t) (limits : Limits.t) : Os (list DeleteCandidate.t) :=
  _ <- Layout.usage (Cas.layout cas);
  manifest_entries <- Layout.digest_entries (Cas.layout cas) BlobKind.Manifest;
  object_entries <- Layout.digest_entries (Cas.layout cas) BlobKind.Object;
  table_entries <- Layout.digest_entries (Cas.layout cas) BlobKind.PageTable;
  stage_entries <- Layout.stage_entries (Cas.layout cas);
  '(live_objects, live_tables) <- for_each (mark_manifest limits) (∅, ∅) manifest_entries;
  candidates <- for_each (plan_unreferenced BlobKind.Object live_objects) [] object_entries;
  candidates <- for_each (plan_unreferenced BlobKind.PageTable live_tables) candidates table_entries;
  candidates <- (if GcPolicy.remove_staging policy then for_each plan_stage candidates stage_entries
                 else lift (Ok candidates));
  lift (assign_reclaim_bytes candidates manifest_entries object_entries table_entries stage_entries).

Definition sync_each (first_error : option StoreError) (sync : Os unit) : Os (option StoreError) :=
  synced <- attempt sync;
  lift (Ok match synced, first_error with inl error, None => Some error | _, _ => first_error end).
Definition sync_gc_directories (modified : gset BlobKind.t) (staging_modified : bool) : Os unit :=
  first_error <- for_each (fun first_error kind => sync_each first_error (Cas.sync_digest_dir cas kind)) None
                   (filter (fun kind => kind ∈ modified) [BlobKind.Manifest; BlobKind.PageTable; BlobKind.Object]);
  first_error <- (if staging_modified then sync_each first_error (Cas.sync_staging cas) else lift (Ok first_error));
  lift match first_error with None => Ok tt | Some error => Err error end.

Definition unlink_gc_digest (kind : BlobKind.t) (name : string) : Os unit :=
  unlink_leaf (Layout.digest_dir (Cas.layout cas) kind) name (BlobKind.error_name kind).

Definition count_deleted (report : GcReport.t) (candidate : DeleteCandidate.t) : result StoreError GcReport.t :=
  deleted_blobs ← ok_or (checked_add u64_max (GcReport.deleted_blobs report) 1)
    (ArithmeticOverflow "counting deleted garbage-collection blobs");
  deleted_bytes ← ok_or (checked_add u64_max (GcReport.deleted_bytes report)
                           (DeleteCandidate.reclaim_bytes candidate))
    (ArithmeticOverflow "counting deleted garbage-collection bytes");
  Ok (GcReport.mk (GcReport.candidate_blobs report) (GcReport.candidate_bytes report) deleted_blobs deleted_bytes
        (GcReport.dry_run report)).

(** One candidate: its unlink, what that modified, and the count or the error. *)
Definition sweep_candidate (s : Sweep.t) (candidate : DeleteCandidate.t) : Os (Sweep.t * option StoreError) :=
  unlinked <- attempt
    (_ <- check;
     match DeleteCandidate.kind candidate with
     | DigestKind kind => unlink_gc_digest kind (DeleteCandidate.name candidate)
     | StageKind => unlink_leaf (Layout.staging (Cas.layout cas)) (DeleteCandidate.name candidate) "staging file"
     end);
  match unlinked with
  | inl error => lift (Ok (s, Some error))
  | inr _ =>
      let modified := match DeleteCandidate.kind candidate with
                      | DigestKind kind => {[kind]} ∪ Sweep.modified s
                      | StageKind => Sweep.modified s
                      end in
      let staging_modified := match DeleteCandidate.kind candidate with
                              | DigestKind _ => Sweep.staging_modified s
                              | StageKind => true
                              end in
      match count_deleted (Sweep.report s) candidate with
      | Ok report => lift (Ok (Sweep.mk report modified staging_modified, None))
      | Err error => lift (Ok (Sweep.mk (Sweep.report s) modified staging_modified, Some error))
      | Panic => lift Panic
      end
  end.
Fixpoint sweep (s : Sweep.t) (candidates : list DeleteCandidate.t) : Os GcReport.t :=
  match candidates with
  | [] =>
      _ <- sync_gc_directories (Sweep.modified s) (Sweep.staging_modified s);
      lift (Ok (Sweep.report s))
  | candidate :: candidates =>
      '(s, error) <- sweep_candidate s candidate;
      match error with
      | Some error =>
          _ <- sync_gc_directories (Sweep.modified s) (Sweep.staging_modified s);
          lift (Err error)
      | None => sweep s candidates
      end
  end.

Definition total_reclaim (candidates : list DeleteCandidate.t) : result StoreError N :=
  try_fold (fun total candidate => ok_or (checked_add u64_max total (DeleteCandidate.reclaim_bytes candidate))
                                     (ArithmeticOverflow "summing garbage-collection candidate bytes"))
    0 candidates.

Definition gc_locked (policy : GcPolicy.t) (limits : Limits.t) : Os GcReport.t :=
  candidates <- plan policy limits;
  candidate_bytes <- lift (total_reclaim candidates);
  let report := GcReport.mk (lenN candidates) candidate_bytes 0 0 (GcPolicy.dry_run policy) in
  _ <- check;
  if GcPolicy.dry_run policy then lift (Ok report) else sweep (Sweep.mk report ∅ false) candidates.

Definition gc (policy : GcPolicy.t) (limits : Limits.t) : Os GcReport.t :=
  _ <- check;
  limits <- lift (from_format (Limits.validate limits));
  Cas.transaction_with_control cas (gc_locked policy limits).
End gc.
End CasGc.
