(* ===== verification/StoreDisk.v ===== *)
(** The file system below a content-addressed store, as POSIX documents it: what
    calls may answer and what they change, what a crash may leave of it, and the
    executions of a history of calls.

    Only the three digest directories and the staging directory of the layout are
    tracked.  Descriptors of a history are numbered afresh, so that no number is
    used twice, and a file is named by the descriptor that created it. *)
From stdpp Require Import prelude gmap strings.
From S2P Require Import Prelude Format FormatManifest Store StoreOs StoreFs StoreStage StoreWrite.
From S2P Require Import StoreLayout.
#[local] Open Scope N_scope.

Module Disk.
(** Open descriptors of tracked files, the bytes of the files and which of them
    are on stable storage, and for every name of a tracked directory its file, the
    newest first: a crash may bring back any value since the directory was last
    synchronized. *)
Record t : Type := mk {
  handles : gmap N N;
  contents : gmap N (list N);
  synced : gset N;
  entries : gmap (N * string) (list (option N));
  used : gset N;
  locked : bool
}.

Definition set_handles (h : gmap N N) (u : gset N) (d : t) : t :=
  mk h (contents d) (synced d) (entries d) u (locked d).
Definition set_file (i : N) (bytes : list N) (d : t) : t :=
  mk (handles d) (<[i := bytes]> (contents d)) (synced d ∖ {[i]}) (entries d) (used d) (locked d).
Definition set_synced (i : N) (d : t) : t :=
  mk (handles d) (contents d) ({[i]} ∪ synced d) (entries d) (used d) (locked d).
Definition set_entries (e : gmap (N * string) (list (option N))) (d : t) : t :=
  mk (handles d) (contents d) (synced d) e (used d) (locked d).
Definition set_locked (b : bool) (d : t) : t :=
  mk (handles d) (contents d) (synced d) (entries d) (used d) b.

(** The values of a name that are still possible after a crash, and the current one. *)
Definition history (d : t) (k : N * string) : list (option N) :=
  match entries d !! k with Some (v :: l) => v :: l | _ => [None] end.
Definition current (d : t) (k : N * string) : option N :=
  match history d k with v :: _ => v | [] => None end.
Definition put (k : N * string) (v : option N) (d : t) : t :=
  set_entries (<[k := v :: history d k]> (entries d)) d.

(** [fsync] of a directory. *)
Definition settle (dir : N) (k : N * string) (l : list (option N)) : list (option N) :=
  if k.1 =? dir then take 1 l else l.
Definition sync_directory (dir : N) (d : t) : t := set_entries (map_imap (fun k l => Some (settle dir k l)) (entries d)) d.

(** A write at [position]; a gap is filled with zeros. *)
Definition write_bytes (bytes : list N) (position : N) (data : list N) : list N :=
  take (N.to_nat position) (bytes ++ replicate (N.to_nat position - length bytes) 0)
  ++ data ++ drop (N.to_nat position + length data) bytes.
Definition resize (bytes : list N) (n : N) : list N :=
  take (N.to_nat n) (bytes ++ replicate (N.to_nat n - length bytes) 0).

(** The names that a complete listing of [dir] shows. *)
Definition listed (d : t) (dir : N) : gset string :=
  list_to_set (omap (fun k : N * string => if (k.1 =? dir) && bool_decide (is_Some (current d k)) then Some k.2 else None)
                 (elements (dom (entries d)))).
Definition complete (answer : list (Errno + string)) : option (list string) :=
  mapM (fun e => match e with inl _ => None | inr name => Some name end) answer.

Section step.
Context (l : Layout.t).

Definition digest_dirs : list N := [Layout.manifests l; Layout.page_tables l; Layout.objects l].
Definition tracked (dir : N) : bool := bool_decide (dir ∈ digest_dirs ++ [Layout.staging l]).

Definition fresh (d : t) (fd : N) : bool :=
  bool_decide (fd ∉ used d) && bool_decide (contents d !! fd = None) && negb (tracked fd).
Definition use (fd : N) (d : t) : t := set_handles (handles d) ({[fd]} ∪ used d) d.
Definition guarded (b : bool) (d : t) : list t := if b then [d] else [].

(** An open below a tracked directory. *)
Definition step_open (d : t) (dir : N) (name : string) (flags : OFlags) (answer : Errno + N) : list t :=
  match answer with
  | inl NOENT => guarded (bool_decide (current d (dir, name) = None)) d
  | inl _ => [d]
  | inr fd =>
      if fresh d fd then
        match flags, current d (dir, name) with
        | CREATE_FLAGS _, None =>
            [put (dir, name) (Some fd)
               (set_file fd [] (set_handles (<[fd := fd]> (handles d)) ({[fd]} ∪ used d) d))]
        | (REGULAR_READ_FLAGS | READ_WRITE_FLAGS), Some i =>
            [set_handles (<[fd := i]> (handles d)) ({[fd]} ∪ used d) d]
        | _, _ => []
        end
      else []
  end.
Definition step_open_any (d : t) (parent : Anchor) (name : string) (flags : OFlags) (answer : Errno + N) : list t :=
  match parent with
  | At dir =>
      if tracked dir then step_open d dir name flags answer
      else match answer with inl _ => [d] | inr fd => if fresh d fd then [use fd d] else [] end
  | CWD => match answer with inl _ => [d] | inr fd => if fresh d fd then [use fd d] else [] end
  end.

(** A rename or link that is carried out; without an answer it may have been. *)
Definition moved (keep : bool) (d : t) (k k' : N * string) : list t :=
  match current d k, current d k' with
  | Some i, None => [put k' (Some i) (if keep then d else put k None d)]
  | _, _ => []
  end.
Definition step_move (keep : bool) (d : t) (k k' : N * string) (answer : Errno + unit) : list t :=
  match answer with
  | inr _ => moved keep d k k'
  | inl EXIST => guarded (bool_decide (is_Some (current d k'))) d
  | inl (NOSYS | INVAL) => [d]
  | inl _ => d :: moved keep d k k'
  end.

Definition step (d : t) (e : Event) : list t :=
  match e with
  | EOpenAt parent name flags answer | EOpenAt2 parent name flags answer =>
      step_open_any d parent name flags answer
  | EDup _ (inr fd) => if fresh d fd then [use fd d] else []
  | EFstat fd (inr stat) =>
      match handles d !! fd with
      | Some i => guarded (bool_decide (Stat.st_size stat = Z.of_N (lenN (default [] (contents d !! i))))) d
      | None => [d]
      end
  | EPread fd position _ (inr data) =>
      match handles d !! fd with
      | Some i => guarded (bool_decide (data `prefix_of` drop (N.to_nat position) (default [] (contents d !! i)))) d
      | None => [d]
      end
  | EPwrite fd position data answer =>
      match handles d !! fd with
      | Some i =>
          let write n := set_file i (write_bytes (default [] (contents d !! i)) position (take n data)) d in
          match answer with
          | inr count => [write (N.to_nat count)]
          | inl INTR => [d]
          | inl _ => write <$> seq 0 (S (length data))
          end
      | None => [d]
      end
  | EFtruncate fd n answer =>
      match handles d !! fd with
      | Some i =>
          let cut := set_file i (resize (default [] (contents d !! i)) n) d in
          match answer with inr _ => [cut] | inl _ => [d; cut] end
      | None => [d]
      end
  | EFsync fd (inr _) =>
      match handles d !! fd with
      | Some i => [set_synced i d]
      | None => [if tracked fd then sync_directory fd d else d]
      end
  | ERename dir name dir' name' answer => step_move false d (dir, name) (dir', name') answer
  | ELink dir name dir' name' answer => step_move true d (dir, name) (dir', name') answer
  | EUnlink dir name answer =>
      match answer, current d (dir, name) with
      | inr _, Some _ => [put (dir, name) None d]
      | inr _, None => []
      | inl NOENT, v => guarded (bool_decide (v = None)) d
      | inl _, Some _ => [d; put (dir, name) None d]
      | inl _, None => [d]
      end
  | EReadDir dir (inr answer) =>
      match complete answer with
      | Some names =>
          guarded (negb (tracked dir)
                   || bool_decide (list_to_set names ∖ {["."; ".."]} = listed d dir)) d
      | None => [d]
      end
  | EFlock fd operation (inr _) =>
      if fd =? Layout.lock_fd l
      then [set_locked (match operation with Unlock => false | _ => true end) d] else [d]
  | _ => [d]
  end.
End step.

(** After a crash: nothing is open or locked, every name has one of its possible
    values, and only synchronized files are sure to have their bytes. *)
Record crashed (d d' : t) : Prop := {
  cr_handles : handles d' = ∅;
  cr_locked : locked d' = false;
  cr_files : dom (contents d') = dom (contents d);
  cr_synced : synced d' = synced d;
  cr_contents : forall i, i ∈ synced d -> contents d' !! i = contents d !! i;
  cr_entries : forall k, exists v, v ∈ history d k /\ history d' k = [v]
}.
End Disk.
