(* ===== verification/StoreDiskLogic.v ===== *)
(** The invariant of a content-addressed store on disk, executions of a history,
    and a program logic for what holds at every moment of every execution. *)
From stdpp Require Import prelude gmap strings.
From S2P Require Import Prelude Format FormatManifest FormatDigest Store StoreOs StoreFs StoreStage.
From S2P Require Import StoreStageFacts StoreWrite StoreLayout StoreDisk.
#[local] Open Scope N_scope.
#[local] Open Scope os_scope.

(** A name may refer to a file, now or after a crash; it must refer to one. *)
Definition may (d : Disk.t) (k : N * string) (i : N) : Prop := Some i ∈ Disk.history d k.
Definition must (d : Disk.t) (k : N * string) : Prop := None ∉ Disk.history d k.

Section store.
Context (sha256 : list N -> Digest) (from_slice : list N -> Token * option SyntaxError) (l : Layout.t).

Definition blob (kind : BlobKind.t) (digest : Digest) : N * string :=
  (Layout.digest_dir l kind, Digest.path_component digest).
Definition stage (name : string) : N * string := (Layout.staging l, name).

(** The file is, or may become, reachable under a digest. *)
Definition published (d : Disk.t) (i : N) : Prop := exists kind name, may d (Layout.digest_dir l kind, name) i.

(** Everything that a manifest refers to is there, also after a crash. *)
Definition closed (d : Disk.t) (m : Manifest.t) : Prop :=
  forall r, r ∈ Manifest.objects m ->
    must d (blob BlobKind.PageTable (ObjectRecord.page_table r)) /\ must d (blob BlobKind.Object (ObjectRecord.digest r)).

Record store_ok (d : Disk.t) : Prop := {
  so_handles : forall fd i, Disk.handles d !! fd = Some i ->
    fd ∈ Disk.used d /\ Disk.tracked l fd = false /\ is_Some (Disk.contents d !! i);
  so_files : forall k i, may d k i -> is_Some (Disk.contents d !! i);
  so_digests : forall kind name i, may d (Layout.digest_dir l kind, name) i ->
    i ∈ Disk.synced d
    /\ exists bytes, Disk.contents d !! i = Some bytes /\ name = Digest.path_component (sha256 bytes);
  so_manifests : forall name i, may d (Layout.manifests l, name) i ->
    Disk.current d (Layout.manifests l, name) = Some i
    /\ exists bytes limits m, Disk.contents d !! i = Some bytes
       /\ parse_with_limits sha256 from_slice bytes limits = Ok m /\ closed d m;
  so_stages : forall name i, may d (stage name) i -> exists token, ResumeToken.from_stage_name name = Ok token;
  so_unique : forall name name' i, may d (stage name) i -> may d (stage name') i -> name = name';
  so_aliases : forall name i token bytes, may d (stage name) i -> published d i ->
    ResumeToken.from_stage_name name = Ok token -> Disk.contents d !! i = Some bytes ->
    lenN bytes = ResumeToken.expected_length token
}.

(** The four directories are different descriptors. *)
Definition layout_ok : Prop :=
  NoDup [Layout.manifests l; Layout.page_tables l; Layout.objects l; Layout.staging l].

(** What the program may do: it changes the store only under the lock, creates
    files only in staging, gives digest names only to staged files, and never
    unlinks a manifest. *)
Definition permitted_call (d : Disk.t) (e : Event) : Prop :=
  match e with
  | EPwrite fd _ _ _ | EFtruncate fd _ _ =>
      Disk.locked d = true /\ exists i, Disk.handles d !! fd = Some i
  | ERename dir _ dir' _ _ | ELink dir _ dir' _ _ =>
      Disk.locked d = true /\ dir = Layout.staging l /\ exists kind, dir' = Layout.digest_dir l kind
  | EUnlink dir _ _ =>
      Disk.locked d = true
      /\ (dir = Layout.staging l \/ dir = Layout.page_tables l \/ dir = Layout.objects l)
  | EOpenAt (At dir) _ (CREATE_FLAGS _) _ | EOpenAt2 (At dir) _ (CREATE_FLAGS _) _ =>
      Disk.locked d = true /\ dir = Layout.staging l
  | EOpenAt2 CWD name flags _ => name = "." /\ flags = DIRECTORY_FLAGS
  | EOpenAt CWD _ _ _ | EMkdirAt _ _ _ _ => False
  | _ => True
  end.

(** ** Executions

    An execution pairs every call of a history with the state it leaves.  When the
    lock is obtained, whoever held it before may have changed the store, within its
    invariant. *)
Definition execution : Type := list (Event * Disk.t).

Definition handed_over (d : Disk.t) (e : Event) (d0 : Disk.t) : Prop :=
  match e with
  | EFlock fd (LockExclusive | NonBlockingLockExclusive) (inr _) =>
      if fd =? Layout.lock_fd l
      then store_ok d0 /\ Disk.handles d0 = Disk.handles d /\ Disk.used d0 = Disk.used d
           /\ Disk.locked d0 = Disk.locked d
      else d0 = d
  | _ => d0 = d
  end.

Fixpoint executes (d : Disk.t) (h : execution) : Prop :=
  match h with
  | [] => True
  | (e, d') :: h => (exists d0, handed_over d e d0 /\ d' ∈ Disk.step l d0 e) /\ executes d' h
  end.

(** The invariant holds in every state, and every call is permitted. *)
Fixpoint clean (d : Disk.t) (h : execution) : Prop :=
  store_ok d /\ match h with [] => True | (e, d') :: h => permitted_call d e /\ clean d' h end.

Fixpoint final (d : Disk.t) (h : execution) : Disk.t :=
  match h with [] => d | (_, d') :: h => final d' h end.

Lemma final_app d h h' : final d (h ++ h') = final (final d h) h'.
Proof. revert d. induction h as [|[e d'] h IH]; intros d; simpl; [done | apply IH]. Qed.
Lemma executes_app d h h' : executes d (h ++ h') <-> executes d h /\ executes (final d h) h'.
Proof. revert d. induction h as [|[e d'] h IH]; intros d; simpl; [tauto|]. rewrite IH. tauto. Qed.
Lemma clean_app d h h' : clean d h -> clean (final d h) h' -> clean d (h ++ h').
Proof.
  revert d. induction h as [|[e d'] h IH]; intros d; simpl; [tauto|]. intros (H1 & H2 & H3) H4.
  split; [done|]. split; [done|]. by apply IH.
Qed.
Lemma clean_here d h : clean d h -> store_ok d.
Proof. destruct h as [|[]]; by intros []. Qed.
Lemma clean_final d h : clean d h -> store_ok (final d h).
Proof. revert d. induction h as [|[e d'] h IH]; intros d; simpl; [by intros []|]. intros (_ & _ & H). by apply IH. Qed.

(** ** The logic

    From a state with the invariant, every execution of [m] keeps it at every
    moment with permitted calls only, does not panic, and ends with [Q] or [X]. *)
Definition hoare {A} (d : Disk.t) (m : Os A) (Q : Disk.t -> A -> Prop) (X : Disk.t -> StoreError -> Prop) : Prop :=
  store_ok d -> forall h, executes d h ->
  match m h.*1 with
  | Done r rest => exists h1 h2, h = h1 ++ h2 /\ rest = h2.*1 /\ clean d h1 /\ post r (Q (final d h1)) (X (final d h1))
  | Waiting => clean d h
  | Mismatch => True
  end.

Section rules.
Context {A B : Type}.
Implicit Types (Q : Disk.t -> A -> Prop) (X : Disk.t -> StoreError -> Prop).

Lemma hoare_mono d (m : Os A) Q Q' X X' :
  hoare d m Q X -> (forall d' a, store_ok d' -> Q d' a -> Q' d' a) ->
  (forall d' e, store_ok d' -> X d' e -> X' d' e) -> hoare d m Q' X'.
Proof.
  intros H HQ HX Hd h Hh. specialize (H Hd h Hh). destruct (m h.*1); [|done..].
  destruct H as (h1 & h2 & -> & -> & Hc & H). exists h1, h2. do 3 (split; [done|]).
  pose proof (clean_final _ _ Hc). eapply post_mono; [exact H | eauto..].
Qed.

Lemma hoare_start d (m : Os A) Q X : (store_ok d -> hoare d m Q X) -> hoare d m Q X.
Proof. intros H Hd. by apply H. Qed.

Lemma hoare_lift d r Q X : post r (Q d) (X d) -> hoare d (lift r) Q X.
Proof. intros H Hd h _. by exists [], h. Qed.

Lemma hoare_bind d (m : Os A) (f : A -> Os B) (Q : Disk.t -> B -> Prop) X :
  hoare d m (fun d' a => hoare d' (f a) Q X) X -> hoare d (os_bind m f) Q X.
Proof.
  intros H Hd h Hh. specialize (H Hd h Hh). unfold os_bind. destruct (m h.*1) as [r rest| |]; [|done..].
  destruct H as (h1 & h2 & -> & -> & Hc & H). apply executes_app in Hh as [_ Hh].
  pose proof (clean_final _ _ Hc) as Hf. destruct r as [a|e|]; simpl in H; [|by exists h1, h2 | done].
  specialize (H Hf h2 Hh). destruct (f a h2.*1) as [r rest| |]; [|by apply clean_app | done].
  destruct H as (h3 & h4 & -> & -> & Hc' & H). exists (h1 ++ h3), h4. rewrite app_assoc, final_app.
  do 2 (split; [done|]). split; [by apply clean_app | done].
Qed.

Lemma hoare_attempt d (m : Os A) (Q : Disk.t -> StoreError + A -> Prop) X :
  hoare d m (fun d' a => Q d' (inr a)) (fun d' e => Q d' (inl e)) -> hoare d (attempt m) Q X.
Proof.
  intros H Hd h Hh. specialize (H Hd h Hh). unfold attempt. destruct (m h.*1) as [r rest| |]; [|done..].
  destruct H as (h1 & h2 & -> & -> & Hc & H). destruct r; [by exists h1, h2 | by exists h1, h2 | done].
Qed.

Lemma hoare_unbounded d (m : Os A) Q X : hoare d m Q X -> hoare d (unbounded m) Q X.
Proof.
  intros H Hd h Hh. specialize (H Hd h Hh). unfold unbounded. destruct (m h.*1); [|by destruct (forallb _ _) | done].
  by destruct (forallb _ _).
Qed.

Lemma hoare_finally d (m : Os A) cleanup Q X :
  hoare d m (fun d' a => hoare d' cleanup (fun d2 _ => Q d2 a) (fun d2 _ => Q d2 a))
    (fun d' e => hoare d' cleanup (fun d2 _ => X d2 e) (fun d2 _ => X d2 e)) ->
  hoare d (finally m cleanup) Q X.
Proof.
  intros H Hd h Hh. specialize (H Hd h Hh). unfold finally. destruct (m h.*1) as [r rest| |]; [|done..].
  destruct H as (h1 & h2 & -> & -> & Hc & H). apply executes_app in Hh as [_ Hh].
  pose proof (clean_final _ _ Hc) as Hf.
  assert (exists Z : Disk.t -> Prop, hoare (final d h1) cleanup (fun d2 _ => Z d2) (fun d2 _ => Z d2)
    /\ forall d2, Z d2 -> post r (Q d2) (X d2)) as (Z & HZ & HZr).
  { destruct r as [a|e|]; [by exists (fun d2 => Q d2 a) | by exists (fun d2 => X d2 e) | done]. }
  specialize (HZ Hf h2 Hh). destruct (cleanup h2.*1) as [r' rest'| |]; [|by apply clean_app | done].
  destruct HZ as (h3 & h4 & -> & -> & Hc' & H'). exists (h1 ++ h3), h4. rewrite app_assoc, final_app.
  do 2 (split; [done|]). split; [by apply clean_app|]. apply HZr. by destruct r'.
Qed.

(** One call, whose answer is consistent with the state. *)
Lemma hoare_call d (answers : Event -> option (result StoreError A)) Q X :
  (forall e r, store_ok d -> answers e = Some r ->
     permitted_call d e
     /\ forall d0 d', handed_over d e d0 -> d' ∈ Disk.step l d0 e -> store_ok d' /\ post r (Q d') (X d')) ->
  hoare d (call answers) Q X.
Proof.
  intros H Hd h Hh. destruct h as [|[e d'] h]; simpl; [done|]. destruct (answers e) as [r|] eqn:E; [|done].
  destruct (H e r Hd E) as [Hp Hs]. destruct Hh as [(d0 & Hd0 & Hd') _]. destruct (Hs d0 d' Hd0 Hd') as [Hok Hpost].
  exists [(e, d')], h. simpl. tauto.
Qed.
End rules.

Lemma hoare_guard {A} d bad e (f : unit -> Os A) Q (X : Disk.t -> StoreError -> Prop) :
  (bad = true -> X d e) -> (bad = false -> hoare d (f tt) Q X) -> hoare d (os_bind (lift (guard_err bad e)) f) Q X.
Proof. intros HX H. apply hoare_bind, hoare_lift, post_guard; auto. Qed.

Lemma hoare_iterate {S A} (body : S -> Os (S + A)) (I : Disk.t -> S -> Prop) d s (Q : Disk.t -> A -> Prop) X :
  I d s ->
  (forall d s, I d s -> hoare d (body s) (fun d' next => match next with inl s' => I d' s' | inr a => Q d' a end) X) ->
  hoare d (iterate body s) Q X.
Proof.
  intros H0 Hstep. assert (forall fuel d s, I d s -> hoare d (iterate_fuel body fuel s) Q X) as H.
  { clear d s H0. induction fuel as [|fuel IH]; intros d s Hs; [by intros ? ? ?|].
    assert (hoare d (os_bind (body s) (fun next => match next with
              inl s' => iterate_fuel body fuel s' | inr a => lift (Ok a) end)) Q X) as Hb; [|exact Hb].
    apply hoare_bind. eapply hoare_mono; [by apply Hstep | | done].
    intros d' [s'|a] _ Hn; [by apply IH | by apply hoare_lift]. }
  intros Hd h Hh. by apply (H _ d s H0).
Qed.

Lemma hoare_for_each {A B} (body : B -> A -> Os B) xs acc (I : Disk.t -> list A -> B -> Prop) d X :
  I d [] acc ->
  (forall d dn x rest b, xs = dn ++ x :: rest -> I d dn b -> hoare d (body b x) (fun d' => I d' (dn ++ [x])) X) ->
  hoare d (for_each body acc xs) (fun d' => I d' xs) X.
Proof.
  intros H0 Hstep. assert (forall rest dn d b, xs = dn ++ rest -> I d dn b ->
    hoare d (for_each body b rest) (fun d' => I d' xs) X) as H.
  { clear d acc H0. induction rest as [|x rest IH]; intros dn d b Hl Hb; simpl.
    - apply hoare_lift. simpl. rewrite app_nil_r in Hl. by rewrite Hl.
    - apply hoare_bind. eapply hoare_mono; [by eapply Hstep | | done].
      intros d' b' _ Hb'. apply (IH (dn ++ [x])); [by rewrite <- app_assoc | done]. }
  by apply (H xs []).
Qed.
End store.
