(* ===== verification/StoreDiskFacts.v ===== *)
(** Calls on the disk of a store: reads observe the current bytes and names, opens
    add descriptors, and every change that the store makes keeps its invariant. *)
From stdpp Require Import prelude gmap strings.
From S2P Require Import Prelude Format FormatManifest FormatDigest Store StoreOs StoreFs.
From S2P Require Import StoreFsFacts StoreStage StoreStageFacts StoreWrite StoreLayout StoreDisk.
From S2P Require Import StoreDiskLogic.
#[local] Open Scope N_scope.
#[local] Open Scope os_scope.

(** * Observations *)

(** The same store, perhaps with more open descriptors. *)
Record sees (d d' : Disk.t) : Prop := {
  se_contents : Disk.contents d' = Disk.contents d;
  se_synced : Disk.synced d' = Disk.synced d;
  se_entries : Disk.entries d' = Disk.entries d;
  se_locked : Disk.locked d' = Disk.locked d;
  se_used : Disk.used d ⊆ Disk.used d';
  se_handles : forall fd, fd ∈ Disk.used d -> Disk.handles d' !! fd = Disk.handles d !! fd
}.
#[export] Instance sees_preorder : PreOrder sees.
Proof.
  split; [by intros d; split|]. intros d1 d2 d3 [H1 H2 H3 H4 H5 H6] [K1 K2 K3 K4 K5 K6].
  split; [congruence.. | by etrans |]. intros fd Hfd. rewrite K6 by auto. by apply H6.
Qed.

Lemma sees_history d d' k : sees d d' -> Disk.history d' k = Disk.history d k.
Proof. intros H. unfold Disk.history. by rewrite (se_entries _ _ H). Qed.
Lemma sees_current d d' k : sees d d' -> Disk.current d' k = Disk.current d k.
Proof. intros H. unfold Disk.current. by rewrite (sees_history _ _ _ H). Qed.

(** Calls that change nothing. *)
Definition quiet (e : Event) : bool :=
  match e with
  | ECheck _ | EElapsed _ | EFstat _ _ | EPread _ _ _ _ | EFstatvfs _ _ | EReadDir _ _ | EGetrandom _ _
  | EGeteuid _ | EMutex _ _ | EOnce _ => true
  | _ => false
  end.

Section store.
Context (sha256 : list N -> Digest) (from_slice : list N -> Token * option SyntaxError) (l : Layout.t).
Abbreviation store_ok := (store_ok sha256 from_slice l).
Abbreviation hoare := (hoare sha256 from_slice l).

Lemma store_ok_frame d d' :
  store_ok d -> Disk.entries d' = Disk.entries d -> Disk.contents d' = Disk.contents d ->
  Disk.synced d' = Disk.synced d ->
  (forall fd i, Disk.handles d' !! fd = Some i ->
     fd ∈ Disk.used d' /\ Disk.tracked l fd = false /\ is_Some (Disk.contents d' !! i)) ->
  store_ok d'.
Proof. destruct d, d'; simpl. intros [H1 H2 H3 H4 H5 H6 H7] -> -> -> Hh. by split. Qed.

Lemma quiet_step d e d' : quiet e = true -> d' ∈ Disk.step l d e -> d' = d.
Proof.
  unfold Disk.step, Disk.guarded. intros Hq Hs. destruct e; try done; repeat case_match; try set_solver.
Qed.
Lemma quiet_permitted d e : quiet e = true -> permitted_call l d e.
Proof. by destruct e. Qed.
Lemma quiet_handed d e d0 : quiet e = true -> handed_over sha256 from_slice l d e d0 -> d0 = d.
Proof. by destruct e. Qed.

(** The answer fits the state. *)
Definition fits (d : Disk.t) (e : Event) : Prop := d ∈ Disk.step l d e.

Lemma hoare_quiet_call {A} d (answers : Event -> option (result StoreError A)) Q X :
  (forall e r, answers e = Some r -> quiet e = true /\ (fits d e -> post r (Q d) (X d))) ->
  hoare d (call answers) Q X.
Proof.
  intros H. apply hoare_call. intros e r Hd E. destruct (H e r E) as [Hq Hp]. split; [by apply quiet_permitted|].
  intros d0 d' ->%quiet_handed Hs; [|done]. pose proof (quiet_step _ _ _ Hq Hs) as ->. split; [done | by apply Hp].
Qed.

Lemma quiet_execution d h :
  store_ok d -> executes sha256 from_slice l d h -> Forall (fun e => quiet e = true) h.*1 ->
  clean sha256 from_slice l d h /\ final d h = d /\ Forall (fits d) h.*1.
Proof.
  intros Hd. induction h as [|[e d'] h IH]; simpl; [done|]. intros [(d0 & H0 & Hs) Hh] [Hq Hqs]%Forall_cons.
  apply quiet_handed in H0 as ->; [|done]. pose proof (quiet_step _ _ _ Hq Hs) as ->.
  destruct (IH Hh Hqs) as (Hc & Hf & Hall). split; [|by split; [|constructor]].
  split; [done|]. split; [by apply quiet_permitted | done].
Qed.

(** Trace facts of a program that only observes. *)
Lemma hoare_quiet {A} d (m : Os A) Q X W :
  ensures m (fun u a => Forall (fun e => quiet e = true) u /\ Q u a)
    (fun u e => Forall (fun e => quiet e = true) u /\ X u e) (fun u => Forall (fun e => quiet e = true) u /\ W u) ->
  hoare d m (fun d' a => d' = d /\ exists u, Forall (fits d) u /\ Q u a)
    (fun d' e => d' = d /\ exists u, Forall (fits d) u /\ X u e).
Proof.
  intros H Hd h Hh. specialize (H h.*1). destruct (m h.*1) as [r rest| |]; [| |done].
  - destruct H as (u & Hu & H). apply fmap_app_inv in Hu as (h1 & h2 & -> & -> & ->).
    apply executes_app in Hh as [Hh _].
    assert (Forall (fun e => quiet e = true) h1.*1) as Hq by (by destruct r as [a|e|]; [destruct H | destruct H | ]).
    destruct (quiet_execution d h1 Hd Hh Hq) as (Hc & Hf & Hall). exists h1, h2.
    do 2 (split; [done|]). split; [done|]. rewrite Hf. destruct r; simpl in *; [naive_solver..|done].
  - by destruct (quiet_execution d h Hd Hh (proj1 H)).
Qed.

Lemma hoare_check d : hoare d check (fun d' _ => d' = d) (fun d' _ => d' = d).
Proof.
  apply hoare_quiet_call. intros e r H. destruct e as [c| | | | | | | | | | | | | | | | | | | |]; try done.
  injection H as <-. split; [done|]. intros _. pose proof (safe_check c). by destruct (Control.check c).
Qed.

(** ** Reading *)

(** The bytes behind a descriptor. *)
Definition reads (d : Disk.t) (fd : N) (bytes : list N) : Prop :=
  exists i, Disk.handles d !! fd = Some i /\ Disk.contents d !! i = Some bytes.

Lemma fits_stable d fd bytes e : reads d fd bytes -> fits d e -> stable fd bytes e.
Proof.
  intros (i & Hi & Hb). unfold fits, Disk.step, stable. destruct e as [| | | | |fd' p n a| | | | | | | | | | | | | | |]; try done.
  destruct a as [e|data]; [done|]. intros Hs ->. rewrite Hi, Hb in Hs. simpl in Hs. unfold Disk.guarded in Hs.
  case_bool_decide; [done|]. set_solver.
Qed.

Lemma hoare_read_exact d fd offset length kind :
  hoare d (read_exact_at fd offset length kind)
    (fun d' bytes => d' = d /\ lenN bytes = length
       /\ forall file, reads d fd file -> bytes = take (N.to_nat length) (drop (N.to_nat offset) file))
    (fun d' _ => d' = d).
Proof.
  assert (forall u, Forall (in_range fd offset length) u -> Forall (fun e => quiet e = true) u) as Hquiet.
  { intros u Hu. eapply Forall_impl; [exact Hu|]. by intros []. }
  eapply hoare_mono.
  - apply (hoare_quiet d _ (fun u bytes => exists n, finished fd offset length u (inr bytes) n) (fun _ _ => True) (fun _ => True)).
    apply ensures_bind. eapply ensures_mono; [apply (read_exact_spec fd offset length kind) | | done |].
    + intros u [r n] Hf. apply ensures_lift. pose proof (fi_range _ _ _ _ _ _ Hf).
      destruct r; simpl; rewrite app_nil_r; split; eauto.
    + intros u [Hr _]. split; [by apply Hquiet | done].
  - intros d' bytes _ (-> & u & Hu & n & Hf). split; [done|].
    destruct (fi_bytes _ _ _ _ _ _ Hf bytes eq_refl) as (_ & Hn & Hb). split; [done|].
    intros file Hfile. apply Hb. eapply Forall_impl; [exact Hu|]. intros e. by apply fits_stable.
  - by intros d' e _ [-> _].
Qed.

Lemma hoare_fstat {A} d fd op (f : Stat.t -> Os A) Q (X : Disk.t -> StoreError -> Prop) :
  (forall e, X d (Io op e)) ->
  (forall st, (forall bytes, reads d fd bytes -> Stat.st_size st = Z.of_N (lenN bytes)) -> hoare d (f st) Q X) ->
  hoare d (os_bind (fstat fd) (fun a => os_bind (or_io op a) f)) Q X.
Proof.
  intros HX H. apply hoare_bind. apply hoare_quiet_call. intros e r E. destruct e; try done.
  destruct (N.eqb_spec fd0 fd) as [->|]; [|done]. injection E as <-. split; [done|]. intros Hfit. simpl.
  destruct answer as [e|st]; apply hoare_bind, hoare_lift; simpl; [done|]. apply H.
  intros bytes (i & Hi & Hb). unfold fits, Disk.step in Hfit. rewrite Hi, Hb in Hfit. simpl in Hfit.
  unfold Disk.guarded in Hfit. case_bool_decide; [done|]. set_solver.
Qed.

Lemma hoare_metadata d fd kind :
  hoare d (metadata_len_regular fd kind) (fun d' n => d' = d /\ forall bytes, reads d fd bytes -> n = lenN bytes)
    (fun d' _ => d' = d).
Proof.
  apply hoare_fstat; [done|]. intros st Hst. apply hoare_guard; [done|]. intros _. apply hoare_lift.
  destruct (Z.ltb_spec (Stat.st_size st) 0); [done|]. split; [done|]. intros bytes Hb.
  rewrite (Hst bytes Hb). lia.
Qed.

Lemma hoare_validate_metadata d fd kind ty :
  hoare d (Layout.validate_metadata l fd kind ty)
    (fun d' st => d' = d /\ forall bytes, reads d fd bytes -> Stat.st_size st = Z.of_N (lenN bytes)) (fun d' _ => d' = d).
Proof.
  apply hoare_fstat; [done|]. intros st Hst. apply hoare_guard; [done|]. intros _. apply hoare_guard; [done|].
  intros _. by apply hoare_lift.
Qed.

(** ** Opening *)

Lemma current_may d k i : Disk.current d k = Some i -> may d k i.
Proof. unfold Disk.current, may. destruct (Disk.history d k); [done|]. intros ->. by left. Qed.

(** The name [k] was opened as [fd]. *)
Definition opened_as (d : Disk.t) (k : N * string) (d' : Disk.t) (fd : N) : Prop :=
  sees d d' /\ exists i, Disk.current d k = Some i /\ Disk.handles d' !! fd = Some i.

Lemma opened_as_sees d d1 k d' fd : sees d d1 -> opened_as d1 k d' fd -> opened_as d k d' fd.
Proof.
  intros Hs [Hs' (i & Hc & Hh)]. split; [by trans d1|]. exists i. by rewrite <- (sees_current _ _ k Hs).
Qed.

Lemma sees_new d fd h : fd ∉ Disk.used d -> sees d (Disk.set_handles (<[fd := h]> (Disk.handles d)) ({[fd]} ∪ Disk.used d) d).
Proof. intros Hf. split; simpl; try done; [set_solver|]. intros fd' Hfd'. apply lookup_insert_ne. set_solver. Qed.
Lemma sees_use d fd : sees d (Disk.use fd d).
Proof. split; simpl; (done || set_solver). Qed.
Lemma store_ok_use d fd : store_ok d -> store_ok (Disk.use fd d).
Proof. intros H. eapply store_ok_frame; try done. simpl. intros ? ? Hh. destruct (so_handles _ _ _ _ H _ _ Hh) as (? & ? & ?). set_solver. Qed.
Lemma store_ok_open d fd i :
  store_ok d -> is_Some (Disk.contents d !! i) -> Disk.tracked l fd = false ->
  store_ok (Disk.set_handles (<[fd := i]> (Disk.handles d)) ({[fd]} ∪ Disk.used d) d).
Proof.
  intros H Hi Ht. eapply store_ok_frame; try done. simpl. intros fd' j. rewrite lookup_insert_Some.
  intros [[-> <-]|[_ Hh]]; [set_solver|]. destruct (so_handles _ _ _ _ H _ _ Hh) as (? & ? & ?). set_solver.
Qed.
Lemma fresh_spec d fd : Disk.fresh l d fd = true -> (fd ∉ Disk.used d) /\ Disk.contents d !! fd = None /\ Disk.tracked l fd = false.
Proof. unfold Disk.fresh. rewrite !andb_true_iff, negb_true_iff, !bool_decide_eq_true. tauto. Qed.

Lemma step_open_read d dir name flags a d' :
  store_ok d -> flags = REGULAR_READ_FLAGS \/ flags = READ_WRITE_FLAGS ->
  d' ∈ Disk.step_open l d dir name flags a ->
  store_ok d' /\ match a with inl _ => d' = d | inr fd => opened_as d (dir, name) d' fd end.
Proof.
  intros Hd Hfl. unfold Disk.step_open, Disk.guarded. destruct a as [e|fd].
  - intros Hs. assert (d' = d) as -> by (destruct e; repeat case_match; set_solver). done.
  - destruct (Disk.fresh l d fd) eqn:Ef; [|set_solver]. apply fresh_spec in Ef as (Hu & _ & Htr).
    destruct (Disk.current d (dir, name)) as [i|] eqn:Ec; [|destruct Hfl as [-> | ->]; set_solver].
    intros Hs. assert (d' = Disk.set_handles (<[fd := i]> (Disk.handles d)) ({[fd]} ∪ Disk.used d) d) as ->
      by (destruct Hfl as [-> | ->]; set_solver).
    split; [eapply store_ok_open; [done | eapply so_files; [done | by apply current_may] | done]|].
    split; [by apply sees_new|]. exists i. split; [done|]. apply lookup_insert_eq.
Qed.

Lemma step_open_outside d parent name flags a d' :
  store_ok d -> (forall dir, parent = At dir -> Disk.tracked l dir = false) ->
  d' ∈ Disk.step_open_any l d parent name flags a -> store_ok d' /\ sees d d'.
Proof.
  intros Hd Hp. unfold Disk.step_open_any. destruct parent as [|dir]; [|rewrite (Hp dir eq_refl)];
    (destruct a as [e|fd]; [intros ->%list_elem_of_singleton; done|]);
    (destruct (Disk.fresh l d fd); [|set_solver]); intros ->%list_elem_of_singleton;
    split; auto using store_ok_use, sees_use.
Qed.

(** Both ways of opening below a directory. *)
Section open.
Context (d : Disk.t) (dir : N) (name : string) (flags : OFlags).
Context (Q : Disk.t -> Errno + N -> Prop) (X : Disk.t -> StoreError -> Prop).
Context (Hp : forall a, store_ok d -> permitted_call l d (EOpenAt (At dir) name flags a)).
Context (Hs : forall a d', store_ok d -> d' ∈ Disk.step_open_any l d (At dir) name flags a -> store_ok d' /\ Q d' a).

Lemma hoare_openat : hoare d (openat (At dir) name flags) Q X.
Proof.
  apply hoare_call. intros e r Hd E. destruct e; try done. case_bool_decide as H; [|done].
  destruct H as (-> & -> & ->). injection E as <-. split; [by apply Hp|]. intros d0 d' ->. by apply Hs.
Qed.
Lemma hoare_openat2 : hoare d (openat2 (At dir) name flags) Q X.
Proof.
  apply hoare_call. intros e r Hd E. destruct e; try done. case_bool_decide as H; [|done].
  destruct H as (-> & -> & ->). injection E as <-. split; [by apply (Hp answer)|]. intros d0 d' ->. by apply Hs.
Qed.
End open.

(** Learning the resolver changes nothing but the descriptors ever used. *)
Lemma hoare_probe d : hoare d probe_resolver (fun d' _ => sees d d') (fun d' _ => sees d d').
Proof.
  apply hoare_bind. eapply (hoare_mono _ _ _ _ _ (fun d' _ => sees d d') _ (fun d' _ => sees d d')); [| |done].
  - apply hoare_call. intros e r Hd E. destruct e; try done. case_bool_decide as H; [|done].
    destruct H as (-> & -> & ->). injection E as <-. split; [done|]. intros d0 d' -> Hs.
    by apply (step_open_outside d CWD "." DIRECTORY_FLAGS answer).
  - intros d' a _ Hs. destruct a as [[]|]; by apply hoare_lift.
Qed.

Lemma hoare_assume {A} d b (f : unit -> Os A) Q X : hoare d (f tt) Q X -> hoare d (os_bind (assume b) f) Q X.
Proof. intros H. by destruct b. Qed.

Lemma hoare_resolver RESOLVER d :
  hoare d (get_or_init RESOLVER) (fun d' _ => sees d d') (fun d' _ => sees d d').
Proof.
  apply hoare_bind. eapply (hoare_mono _ _ _ _ _ (fun d' _ => d' = d) _ (fun d' _ => d' = d)).
  - apply hoare_quiet_call. intros e r E. destruct e; try done. by injection E as <-.
  - intros d' initialised _ ->. destruct initialised; [by apply hoare_lift|].
    apply hoare_bind, hoare_attempt. eapply hoare_mono; [apply hoare_probe | |].
    + intros d' r _ Hs. by apply hoare_assume, hoare_lift.
    + intros d' e _ Hs. by apply hoare_assume, hoare_lift.
  - by intros d' e _ ->.
Qed.

Lemma hoare_relative RESOLVER d dir name flags kind Q :
  (forall d1 a, store_ok d1 -> sees d d1 -> permitted_call l d1 (EOpenAt (At dir) name flags a)) ->
  (forall d1 a d', store_ok d1 -> sees d d1 -> d' ∈ Disk.step_open_any l d1 (At dir) name flags a ->
     store_ok d' /\ match a with inl _ => sees d d' | inr fd => Q d' fd end) ->
  hoare d (open_relative RESOLVER dir name flags kind) Q (fun d' _ => sees d d').
Proof.
  intros Hp Hs. apply hoare_bind. eapply hoare_mono; [apply hoare_resolver | | done]. intros d1 cell Hd1 Hd.
  apply hoare_bind, hoare_lift. destruct cell as [e|r]; [done|]. simpl. apply hoare_bind.
  eapply (hoare_mono _ _ _ _ _ (fun d' (a : Errno + N) => match a with inl _ => sees d d' | inr fd => Q d' fd end) _
    (fun _ _ => False)); [destruct r; (apply hoare_openat || apply hoare_openat2); eauto | | done].
  intros d' a _ Ha. apply hoare_lift. by destruct a.
Qed.

Lemma digest_tracked kind : Disk.tracked l (Layout.digest_dir l kind) = true.
Proof. apply bool_decide_eq_true. unfold Disk.digest_dirs. destruct kind; set_solver. Qed.
Lemma staging_tracked : Disk.tracked l (Layout.staging l) = true.
Proof. apply bool_decide_eq_true. set_solver. Qed.

Lemma opened_reads d k d' fd bytes :
  opened_as d k d' fd -> reads d' fd bytes ->
  exists i, Disk.current d k = Some i /\ Disk.handles d' !! fd = Some i /\ Disk.contents d !! i = Some bytes.
Proof.
  intros [Hs (i & Hc & Hi)] (j & Hj & Hb). assert (j = i) as -> by congruence. rewrite (se_contents _ _ Hs) in Hb. eauto.
Qed.
Lemma opened_has_bytes d k d' fd : store_ok d -> opened_as d k d' fd -> exists bytes, reads d' fd bytes.
Proof.
  intros Hd [Hs (i & Hc & Hi)]. destruct (so_files _ _ _ _ Hd k i (current_may _ _ _ Hc)) as [bytes Hb].
  exists bytes, i. split; [done|]. by rewrite (se_contents _ _ Hs).
Qed.

(** A leaf of a tracked directory, with the length of its file. *)
Definition opened_leaf (d : Disk.t) (k : N * string) (n : N) (d' : Disk.t) (fd : N) : Prop :=
  sees d d' /\ exists i bytes, Disk.current d k = Some i /\ Disk.handles d' !! fd = Some i
    /\ Disk.contents d !! i = Some bytes /\ lenN bytes = n.

Lemma hoare_leaf RESOLVER d dir name kind n :
  Disk.tracked l dir = true ->
  hoare d (open_regular_leaf RESOLVER dir name kind (Some n)) (opened_leaf d (dir, name) n) (fun d' _ => sees d d').
Proof.
  intros Ht. apply hoare_start. intros Hd. apply hoare_guard; [done|]. intros _. apply hoare_bind.
  eapply hoare_mono; [apply (hoare_relative _ _ _ _ _ _ (opened_as d (dir, name))) | | done].
  - done.
  - intros d1 a d' Hd1 Hs1 Hs. unfold Disk.step_open_any in Hs. rewrite Ht in Hs.
    apply step_open_read in Hs as [? Hs]; [|done | by left]. split; [done|].
    destruct a; [by rewrite Hs | by eapply opened_as_sees].
  - intros d' fd Hd' Ho. apply hoare_bind. eapply hoare_mono; [apply hoare_metadata | |].
    2: { intros d2 e _ ->. apply Ho. }
    intros d2 n' _ [-> Hn]. apply hoare_guard; [intros _; apply Ho|]. intros E%negb_false_iff%N.eqb_eq. apply hoare_lift.
    destruct (opened_has_bytes _ _ _ _ Hd Ho) as [bytes Hb]. split; [apply Ho|].
    destruct (opened_reads _ _ _ _ _ Ho Hb) as (i & Hc & Hh & Hbytes). exists i, bytes.
    do 3 (split; [done|]). rewrite <- (Hn bytes Hb). done.
Qed.

Lemma leaf_reads d k n d' fd : opened_leaf d k n d' fd -> exists bytes, reads d' fd bytes /\ lenN bytes = n.
Proof. intros [Hs (i & b & _ & Hh & Hb & Hn)]. exists b. split; [|done]. exists i. by rewrite (se_contents _ _ Hs). Qed.

Lemma hoare_open_digest RESOLVER d kind digest n :
  hoare d (Layout.open_digest RESOLVER l kind digest n) (opened_leaf d (blob l kind digest) n) (fun d' _ => sees d d').
Proof.
  apply hoare_bind. eapply hoare_mono; [apply hoare_leaf, digest_tracked | | done]. intros d' fd _ Ho.
  apply hoare_bind. eapply hoare_mono; [apply hoare_validate_metadata | |]; [|intros d2 e _ ->; apply Ho].
  intros d2 st _ [-> _]. by apply hoare_lift.
Qed.

(** A file of any directory. *)
Lemma hoare_any_leaf RESOLVER d dir name kind n :
  hoare d (open_regular_leaf RESOLVER dir name kind n) (fun d' _ => sees d d') (fun d' _ => sees d d').
Proof.
  apply hoare_guard; [done|]. intros _. apply hoare_bind.
  eapply hoare_mono; [apply (hoare_relative _ _ _ _ _ _ (fun d' _ => sees d d')) | | done].
  - done.
  - intros d1 a d' Hd Hs1 Hs. assert (store_ok d' /\ sees d1 d') as [? ?]; [|split; [done|]; destruct a; by trans d1].
    unfold Disk.step_open_any in Hs. destruct (Disk.tracked l dir) eqn:Ht.
    + apply step_open_read in Hs as [? Hs]; [|done | by left]. split; [done|]. destruct a; [by rewrite Hs | apply Hs].
    + apply (step_open_outside d1 (At dir) name REGULAR_READ_FLAGS a); [done | by intros ? [= <-]|].
      unfold Disk.step_open_any. by rewrite Ht.
  - intros d' fd _ Hs. apply hoare_bind. eapply hoare_mono; [apply hoare_metadata | | by intros ? ? _ ->].
    intros d2 n' _ [-> _]. apply hoare_bind. destruct n; apply hoare_lift; [apply post_guard; [done|]; intros _|];
      by apply hoare_lift.
Qed.

(** ** Listing *)

Lemma current_dom d k i : Disk.current d k = Some i -> k ∈ dom (Disk.entries d).
Proof.
  unfold Disk.current, Disk.history. intros H. apply elem_of_dom. by destruct (Disk.entries d !! k) as [[]|].
Qed.
Lemma elem_of_listed d dir n : n ∈ Disk.listed d dir <-> is_Some (Disk.current d (dir, n)).
Proof.
  unfold Disk.listed. rewrite elem_of_list_to_set, list_elem_of_omap. split.
  - intros ([dir' n'] & _ & H). simpl in H. case_match eqn:E; [|done]. apply andb_true_iff in E as [E1 E2].
    apply N.eqb_eq in E1 as ->. apply bool_decide_eq_true in E2. by injection H as ->.
  - intros [i Hi]. exists (dir, n). split; [by eapply elem_of_elements, current_dom|]. simpl.
    by rewrite N.eqb_refl, bool_decide_eq_true_2.
Qed.

Lemma read_name_fold kind entries acc names :
  try_fold (read_name kind) acc entries = Ok names ->
  exists all, Disk.complete entries = Some all
    /\ forall n, n ∈ names <-> n ∈ acc \/ (n ∈ all /\ n <> "." /\ n <> "..").
Proof.
  revert acc. induction entries as [|[e|n0] entries IH]; intros acc; simpl.
  - intros [= ->]. exists []. split; [done|]. set_solver.
  - done.
  - intros H. apply bind_ok_inv in H as (acc' & Hr & H). destruct (IH _ H) as (all & Ha & Hn).
    unfold Disk.complete in *. simpl. rewrite Ha. exists (n0 :: all). split; [done|]. intros n. rewrite Hn.
    unfold read_name in Hr. cbn [mbind result_bind] in Hr. apply bind_ok_inv in Hr as (_ & _ & Hr).
    destruct (bool_decide (n0 = ".")) eqn:E1; [apply bool_decide_eq_true in E1 as ->; injection Hr as <-; set_solver|].
    destruct (bool_decide (n0 = "..")) eqn:E2; [apply bool_decide_eq_true in E2 as ->; injection Hr as <-; set_solver|].
    apply bool_decide_eq_false in E1, E2. cbn [orb] in Hr. apply bind_ok_inv in Hr as (_ & _ & [= <-]). set_solver.
Qed.
Lemma safe_read_name kind acc e : safe (read_name kind acc e).
Proof. unfold read_name. destruct e; cbn [mbind result_bind]; [done|]. apply safe_bind; [apply safe_guard|]. intros _. case_match; safe_tac. Qed.

Lemma hoare_read_names d dir kind :
  Disk.tracked l dir = true ->
  hoare d (read_names dir kind) (fun d' names => d' = d /\ forall n, n ∈ names <-> is_Some (Disk.current d (dir, n)))
    (fun d' _ => d' = d).
Proof.
  intros Ht. apply hoare_bind, hoare_quiet_call. intros e r E. destruct e; try done.
  destruct (N.eqb_spec fd dir) as [->|]; [|done]. injection E as <-. split; [done|]. intros Hfit. simpl.
  destruct answer as [e|entries]; apply hoare_bind, hoare_lift; simpl; [done|]. apply hoare_bind, hoare_lift.
  pose proof (safe_try_fold (read_name kind) [] entries (fun b x => safe_read_name kind b x)) as Hsafe.
  destruct (try_fold (read_name kind) [] entries) as [names|e|] eqn:Ef; [|done|done]. simpl. apply hoare_lift. split; [done|].
  apply read_name_fold in Ef as (all & Ha & Hn). intros n. rewrite elem_of_sort_by_key, Hn, <- elem_of_listed.
  unfold fits, Disk.step in Hfit. rewrite Ha in Hfit. unfold Disk.guarded in Hfit. rewrite Ht in Hfit. cbn [negb orb] in Hfit.
  case_bool_decide as Hl; [|set_solver]. rewrite <- Hl, elem_of_difference, elem_of_list_to_set. set_solver.
Qed.

Lemma hoare_open_entry d dir name kind writable :
  Disk.tracked l dir = true ->
  hoare d (Layout.open_entry l dir name kind writable)
    (fun d' entry => sees d d' /\ LeafEntry.name entry = name) (fun d' _ => sees d d').
Proof.
  intros Ht. apply hoare_bind.
  eapply (hoare_mono _ _ _ _ _ (fun d' (a : Errno + N) => sees d d') _ (fun _ _ => False)); [apply hoare_openat | | done].
  - by destruct writable.
  - intros a d' Hd Hs. unfold Disk.step_open_any in Hs. rewrite Ht in Hs.
    apply step_open_read in Hs as [? Hs]; [|done | destruct writable; auto]. split; [done|]. destruct a; [by rewrite Hs | apply Hs].
  - intros d' a _ Hs. apply hoare_bind, hoare_lift.
    assert (forall fd, hoare d' (stat <- Layout.validate_metadata l fd kind S_IFREG;
      _ <- lift (guard_err (Stat.st_size stat <? 0)%Z (UnsafeLayout kind));
      _ <- lift (guard_err (Stat.st_blocks stat <? 0)%Z (UnsafeLayout kind));
      charged_bytes <- lift (ok_or (checked_mul u64_max (Z.to_N (Stat.st_blocks stat)) 512)
                           (ArithmeticOverflow "accounting allocated CAS blocks"));
      lift (Ok (LeafEntry.mk name (Z.to_N (Stat.st_size stat)) charged_bytes (Stat.st_dev stat) (Stat.st_ino stat))))
      (fun d2 entry => sees d d2 /\ LeafEntry.name entry = name) (fun d2 _ => sees d d2)) as H.
    { intros fd. apply hoare_bind. eapply hoare_mono; [apply hoare_validate_metadata | | by intros ? ? _ ->].
      intros d2 st _ [-> _]. apply hoare_guard; [done|]. intros _. apply hoare_guard; [done|]. intros _.
      apply hoare_bind, hoare_lift. destruct (checked_mul _ _ _); [|done]. by apply hoare_lift. }
    destruct a as [[]|fd]; simpl; try done.
Qed.

(** The entries of a directory have exactly its names. *)
Definition entries_of (d : Disk.t) (dir : N) (entries : list LeafEntry.t) : Prop :=
  forall n, n ∈ LeafEntry.name <$> entries <-> is_Some (Disk.current d (dir, n)).

Lemma hoare_entries {T} d dir kind (check : string -> Os T) name_kind writable :
  Disk.tracked l dir = true ->
  (forall d' n, sees d d' -> is_Some (Disk.current d (dir, n)) -> hoare d' (check n) (fun d2 _ => d2 = d') (fun d2 _ => d2 = d')) ->
  hoare d (names <- read_names dir kind;
           for_each (fun entries name =>
             _ <- check name;
             entry <- Layout.open_entry l dir name name_kind writable;
             lift (Ok (entries ++ [entry]))) [] names)
    (fun d' entries => sees d d' /\ entries_of d dir entries) (fun d' _ => sees d d').
Proof.
  intros Ht Hc. apply hoare_bind. eapply hoare_mono; [by apply hoare_read_names | | by intros ? ? _ ->].
  intros d1 names _ [-> Hn]. eapply hoare_mono.
  - apply (hoare_for_each _ _ _ _ _ _ (fun d' dn entries => sees d d' /\ LeafEntry.name <$> entries = dn)
      d (fun d' _ => sees d d')); [done|].
    intros d' dn n rest entries Hnames [Hs He]. apply hoare_bind.
    eapply hoare_mono; [apply Hc; [done|]; apply Hn; rewrite Hnames; set_solver | | by intros ? ? _ ->].
    intros d2 _ _ ->. apply hoare_bind. eapply hoare_mono; [by apply hoare_open_entry | |].
    + intros d3 entry _ [Hs3 Hname]. apply hoare_lift. split; [by etrans|]. by rewrite fmap_app, He, <- Hname.
    + intros d3 e _ Hs3. by etrans.
  - intros d' entries _ [Hs He]. split; [done|]. intros n. by rewrite He.
  - done.
Qed.

Lemma hoare_digest_entries d kind :
  hoare d (Layout.digest_entries l kind)
    (fun d' entries => sees d d' /\ entries_of d (Layout.digest_dir l kind) entries) (fun d' _ => sees d d').
Proof.
  apply (hoare_entries d _ _ (fun name => lift (guard_err (negb (is_digest_name name)) (UnsafeLayout (BlobKind.error_name kind))))).
  - apply digest_tracked.
  - intros. by apply hoare_lift, post_guard.
Qed.

Lemma hoare_stage_entries d :
  hoare d (Layout.stage_entries l)
    (fun d' entries => sees d d' /\ entries_of d (Layout.staging l) entries
       /\ forall n, n ∈ LeafEntry.name <$> entries -> exists token, ResumeToken.from_stage_name n = Ok token)
    (fun d' _ => sees d d').
Proof.
  apply hoare_start. intros Hd.
  assert (forall n, is_Some (Disk.current d (Layout.staging l, n)) -> exists token, ResumeToken.from_stage_name n = Ok token) as Htok.
  { intros n [i Hi%current_may]. by eapply so_stages. }
  eapply hoare_mono; [apply (hoare_entries d _ "staging directory" (fun name =>
    lift match ResumeToken.from_stage_name name with
         | Ok token => Ok token | Err _ => Err (UnsafeLayout "staging file") | Panic => Panic end)) | | done].
  - apply staging_tracked.
  - intros d' n _ Hn. destruct (Htok n Hn) as [token ->]. by apply hoare_lift.
  - intros d' entries _ [Hs He]. split; [done|]. split; [done|]. intros n Hn%He. by apply Htok.
Qed.
End store.
