(* ===== verification/StoreDiskInv.v ===== *)
(** Every change that the store makes on disk keeps its invariant, and so does a
    crash at any moment. *)
From stdpp Require Import prelude gmap strings.
From S2P Require Import Prelude Format FormatManifest FormatDigest Store StoreOs StoreFs StoreStage.
From S2P Require Import StoreStageFacts StoreWrite StoreLayout StoreDisk StoreDiskLogic.
From S2P Require Import StoreDiskFacts.
#[local] Open Scope N_scope.
#[local] Opaque Digest.path_component.

(** * Names *)

Lemma history_put d k v k' :
  Disk.history (Disk.put k v d) k' = if decide (k = k') then v :: Disk.history d k else Disk.history d k'.
Proof.
  unfold Disk.put, Disk.history at 1. simpl. destruct (decide (k = k')) as [<-|Hne].
  - by rewrite lookup_insert_eq.
  - by rewrite lookup_insert_ne.
Qed.
Lemma current_put d k v k' :
  Disk.current (Disk.put k v d) k' = if decide (k = k') then v else Disk.current d k'.
Proof. unfold Disk.current. rewrite history_put. by destruct (decide (k = k')). Qed.
Lemma may_put d k v k' i : may (Disk.put k v d) k' i <-> (k = k' /\ v = Some i) \/ may d k' i.
Proof. unfold may. rewrite history_put. destruct (decide (k = k')) as [<-|Hne]; [rewrite elem_of_cons|]; naive_solver. Qed.
Lemma must_put d k v k' : must (Disk.put k v d) k' <-> (k = k' -> is_Some v) /\ must d k'.
Proof.
  unfold must. rewrite history_put. destruct (decide (k = k')) as [<-|Hne]; [|naive_solver].
  rewrite not_elem_of_cons. split.
  - intros [Hv Hm]. split; [|done]. intros _. by destruct v.
  - intros [Hv Hm]. split; [|done]. by destruct (Hv eq_refl) as [? ->].
Qed.

Lemma history_nonempty d k : exists v h, Disk.history d k = v :: h.
Proof. unfold Disk.history. destruct (Disk.entries d !! k) as [[|v h]|]; by eexists _, _. Qed.
Lemma history_sync dir d k :
  Disk.history (Disk.sync_directory dir d) k = if k.1 =? dir then take 1 (Disk.history d k) else Disk.history d k.
Proof.
  unfold Disk.sync_directory, Disk.history. simpl. rewrite map_lookup_imap.
  destruct (Disk.entries d !! k) as [h|]; simpl; [|by destruct (k.1 =? dir)].
  unfold Disk.settle. destruct (k.1 =? dir); by destruct h.
Qed.
Lemma current_sync dir d k : Disk.current (Disk.sync_directory dir d) k = Disk.current d k.
Proof.
  unfold Disk.current. rewrite history_sync. destruct (history_nonempty d k) as (v & h & ->). by destruct (k.1 =? dir).
Qed.
Lemma may_sync dir d k i : may (Disk.sync_directory dir d) k i -> may d k i.
Proof.
  unfold may. rewrite history_sync. destruct (history_nonempty d k) as (v & h & ->).
  destruct (k.1 =? dir); simpl; set_solver.
Qed.
Lemma must_sync dir d k : must d k -> must (Disk.sync_directory dir d) k.
Proof.
  unfold must. rewrite history_sync. destruct (history_nonempty d k) as (v & h & ->).
  destruct (k.1 =? dir); simpl; set_solver.
Qed.
(** A name that is there when its directory is synchronized stays there. *)
Lemma must_synced dir d name i : Disk.current d (dir, name) = Some i -> must (Disk.sync_directory dir d) (dir, name).
Proof.
  unfold Disk.current, must. rewrite history_sync. destruct (history_nonempty d (dir, name)) as (v & h & ->).
  intros ->. simpl. rewrite N.eqb_refl. simpl. set_solver.
Qed.
Lemma must_current d k : must d k -> is_Some (Disk.current d k).
Proof.
  unfold must, Disk.current. destruct (history_nonempty d k) as (v & h & ->). destruct v; [done|]. set_solver.
Qed.

Lemma layout_distinct l :
  layout_ok l ->
  Layout.manifests l <> Layout.page_tables l /\ Layout.manifests l <> Layout.objects l
  /\ Layout.page_tables l <> Layout.objects l /\ Layout.manifests l <> Layout.staging l
  /\ Layout.page_tables l <> Layout.staging l /\ Layout.objects l <> Layout.staging l.
Proof.
  unfold layout_ok. intros H.
  assert (forall i j a b, [Layout.manifests l; Layout.page_tables l; Layout.objects l; Layout.staging l] !! i = Some a ->
    [Layout.manifests l; Layout.page_tables l; Layout.objects l; Layout.staging l] !! j = Some b -> i <> j -> a <> b) as Hd.
  { intros i j a b Ha Hb Hij <-. apply Hij. by eapply NoDup_lookup. }
  by split_and!; [eapply (Hd 0 1)%nat | eapply (Hd 0 2)%nat | eapply (Hd 1 2)%nat | eapply (Hd 0 3)%nat
    | eapply (Hd 1 3)%nat | eapply (Hd 2 3)%nat].
Qed.

Section store.
Context (sha256 : list N -> Digest) (from_slice : list N -> Token * option SyntaxError) (l : Layout.t).
Context (Hl : layout_ok l).
Abbreviation store_ok := (store_ok sha256 from_slice l).

Lemma digest_dir_inj kind kind' : Layout.digest_dir l kind = Layout.digest_dir l kind' -> kind = kind'.
Proof. destruct (layout_distinct l Hl) as (H1 & H2 & H3 & H4 & H5 & H6). destruct kind, kind'; simpl; congruence. Qed.
Lemma digest_not_staging kind : Layout.digest_dir l kind <> Layout.staging l.
Proof. destruct (layout_distinct l Hl) as (H1 & H2 & H3 & H4 & H5 & H6). by destruct kind. Qed.

Lemma closed_mono d d' m :
  closed l d m -> (forall kind name, kind <> BlobKind.Manifest ->
    must d (Layout.digest_dir l kind, name) -> must d' (Layout.digest_dir l kind, name)) -> closed l d' m.
Proof.
  intros H Hm r Hr. destruct (H r Hr) as [H1 H2].
  split; [apply (Hm BlobKind.PageTable); [discriminate | exact H1] | apply (Hm BlobKind.Object); [discriminate | exact H2]].
Qed.

(** * Changes *)

(** No manifest refers to the blob. *)
Definition unreferenced (d : Disk.t) (k : N * string) : Prop :=
  forall name i bytes limits m r, may d (Layout.manifests l, name) i -> Disk.contents d !! i = Some bytes ->
    parse_with_limits sha256 from_slice bytes limits = Ok m -> r ∈ Manifest.objects m ->
    k <> blob l BlobKind.PageTable (ObjectRecord.page_table r) /\ k <> blob l BlobKind.Object (ObjectRecord.digest r).

(** Removing a name that no manifest needs. *)
Lemma store_ok_remove d k :
  store_ok d -> k.1 <> Layout.manifests l -> unreferenced d k -> store_ok (Disk.put k None d).
Proof.
  intros [H1 H2 H3 H4 H5 H6 H7] Hk Hu.
  assert (forall k' i, may (Disk.put k None d) k' i <-> may d k' i) as Hmay.
  { intros k' i. rewrite may_put. naive_solver. }
  split; simpl.
  - done.
  - intros k' i. rewrite Hmay. apply H2.
  - intros kind name i. rewrite Hmay. apply H3.
  - intros name i. rewrite Hmay. intros Hm. destruct (H4 name i Hm) as (Hc & bytes & limits & m & Hb & Hp & Hcl).
    rewrite current_put, decide_False by (intros ->; by apply Hk). split; [done|]. exists bytes, limits, m.
    do 2 (split; [done|]). intros r Hr. destruct (Hcl r Hr) as [K1 K2]. destruct (Hu _ _ _ _ _ _ Hm Hb Hp Hr) as [U1 U2].
    rewrite !must_put. tauto.
  - intros name i. rewrite Hmay. apply H5.
  - intros name name' i. rewrite !Hmay. apply H6.
  - intros name i token bytes. rewrite Hmay. intros Hm (kind & n & Hp). rewrite Hmay in Hp. apply H7; [done | by exists kind, n].
Qed.

Lemma unreferenced_stage d name : unreferenced d (stage l name).
Proof.
  intros n i bytes limits m r _ _ _ _. unfold stage, blob. split; intros [= E _]; [by apply (digest_not_staging BlobKind.PageTable) | by apply (digest_not_staging BlobKind.Object)].
Qed.
Lemma store_ok_unstage d name : store_ok d -> store_ok (Disk.put (stage l name) None d).
Proof.
  intros Hd. apply store_ok_remove; [done | | apply unreferenced_stage]. simpl.
  intros E. by apply (digest_not_staging BlobKind.Manifest).
Qed.

(** Creating a staging file. *)
Lemma store_ok_create d name token fd :
  store_ok d -> ResumeToken.from_stage_name name = Ok token -> Disk.contents d !! fd = None -> fd ∉ Disk.used d ->
  Disk.tracked l fd = false ->
  store_ok (Disk.put (stage l name) (Some fd)
    (Disk.set_file fd [] (Disk.set_handles (<[fd := fd]> (Disk.handles d)) ({[fd]} ∪ Disk.used d) d))).
Proof.
  intros [H1 H2 H3 H4 H5 H6 H7] Ht Hf Hu Htr. set (d1 := Disk.set_file _ _ _).
  assert (forall k i, may d1 k i <-> may d k i) as Hd1 by done.
  assert (forall k i, may d k i -> i <> fd) as Hne.
  { intros k i Hm ->. destruct (H2 k fd Hm). congruence. }
  assert (forall kind n i, may (Disk.put (stage l name) (Some fd) d1) (Layout.digest_dir l kind, n) i <->
    may d (Layout.digest_dir l kind, n) i) as Hdig.
  { intros kind n i. rewrite may_put, Hd1. unfold stage. split; [|by right]. intros [[[= E _] _]|?]; [|done].
    by destruct (digest_not_staging kind). }
  assert (forall i, i <> fd -> Disk.contents d1 !! i = Disk.contents d !! i) as Hcon.
  { intros i Hi. simpl. by apply lookup_insert_ne. }
  split; simpl.
  - intros fd' i. rewrite lookup_insert_Some. intros [[<- <-]|[Hfd Hh]].
    + split; [set_solver|]. split; [done|]. by rewrite lookup_insert_eq.
    + destruct (H1 _ _ Hh) as (? & ? & [b Hb]). split; [set_solver|]. split; [done|]. rewrite lookup_insert_is_Some'. right. by exists b.
  - intros k i. rewrite may_put, Hd1. intros [[_ [= <-]]|Hm]; [by rewrite lookup_insert_eq|].
    rewrite lookup_insert_is_Some'. right. by eapply H2.
  - intros kind n i. rewrite Hdig. intros Hm. destruct (H3 _ _ _ Hm) as (Hs & b & Hb & Hn). pose proof (Hne _ _ Hm).
    split; [set_solver|]. exists b. by rewrite lookup_insert_ne.
  - intros n i Hm. apply (Hdig BlobKind.Manifest) in Hm. destruct (H4 n i Hm) as (Hc & bytes & limits & m & Hb & Hp & Hcl).
    pose proof (Hne _ _ Hm). rewrite current_put, decide_False.
    2: { unfold stage. intros [= E _]. by apply (digest_not_staging BlobKind.Manifest). }
    split; [done|]. exists bytes, limits, m. rewrite lookup_insert_ne by done. do 2 (split; [done|]).
    intros r Hr. destruct (Hcl r Hr) as [K1 K2]. rewrite !must_put.
    split; (split; [intros _; by eexists|]); [exact K1 | exact K2].
  - intros n i. rewrite may_put, Hd1. intros [[[= <-] _]|Hm]; [by exists token | by eapply H5].
  - intros n n' i. rewrite !may_put, !Hd1. intros [[[= <-] [= <-]]|Hm] [[[= <-] Hi]|Hm']; try done.
    + by destruct (Hne _ _ Hm').
    + injection Hi as <-. by destruct (Hne _ _ Hm).
    + by eapply H6.
  - intros n i tok bytes Hm (kind & n' & Hpub) Hn Hb. apply Hdig in Hpub. pose proof (Hne _ _ Hpub) as Hi.
    rewrite lookup_insert_ne in Hb by done. rewrite may_put, Hd1 in Hm. destruct Hm as [[_ [= ->]]|Hm]; [done|].
    eapply H7; [exact Hm | by exists kind, n' | done..].
Qed.

(** Writing to a file that has no digest name. *)
Lemma store_ok_write d i bytes :
  store_ok d -> is_Some (Disk.contents d !! i) -> ~ published l d i -> store_ok (Disk.set_file i bytes d).
Proof.
  intros [H1 H2 H3 H4 H5 H6 H7] Hi Hp.
  assert (forall kind n j, may d (Layout.digest_dir l kind, n) j -> i <> j) as Hne.
  { intros kind n j Hm <-. apply Hp. by exists kind, n. }
  assert (forall j, is_Some (Disk.contents d !! j) -> is_Some (<[i := bytes]> (Disk.contents d) !! j)) as Hsome.
  { intros j Hj. rewrite lookup_insert_is_Some'. by right. }
  split; simpl; try done.
  - intros fd j Hh. destruct (H1 fd j Hh) as (? & ? & ?). auto.
  - intros k j Hm. eapply Hsome, H2, Hm.
  - intros kind n j Hm. pose proof (Hne _ _ _ Hm). destruct (H3 _ _ _ Hm) as (Hs & b & Hb & Hn).
    split; [set_solver|]. exists b. by rewrite lookup_insert_ne.
  - intros n j Hm. pose proof (Hne BlobKind.Manifest _ _ Hm).
    destruct (H4 n j Hm) as (Hc & b & limits & m & Hb & Hparse & Hcl). split; [done|].
    exists b, limits, m. by rewrite lookup_insert_ne.
  - intros n j token b Hm (kind & n' & Hpub) Hn. pose proof (Hne _ _ _ Hpub). rewrite lookup_insert_ne by done.
    eapply H7; [exact Hm | by exists kind, n' | done].
Qed.

Lemma store_ok_synced d i : store_ok d -> store_ok (Disk.set_synced i d).
Proof.
  intros [H1 H2 H3 H4 H5 H6 H7]. split; simpl; try done. intros kind n j Hm. destruct (H3 kind n j Hm) as (Hs & Hb).
  split; [set_solver | done].
Qed.

Lemma store_ok_sync_directory d dir : store_ok d -> store_ok (Disk.sync_directory dir d).
Proof.
  intros [H1 H2 H3 H4 H5 H6 H7]. split; simpl.
  - done.
  - intros k i Hm%may_sync. by eapply H2.
  - intros kind n i Hm%may_sync. by eapply H3.
  - intros n i Hm%may_sync. destruct (H4 n i Hm) as (Hc & b & limits & m & Hb & Hp & Hcl). rewrite current_sync.
    split; [done|]. exists b, limits, m. do 2 (split; [done|]). eapply closed_mono; [done|]. intros. by apply must_sync.
  - intros n i Hm%may_sync. by eapply H5.
  - intros n n' i Hm%may_sync Hm'%may_sync. by eapply H6.
  - intros n i token b Hm%may_sync (kind & n' & Hp%may_sync). apply H7; [done | by exists kind, n'].
Qed.

(** Giving a verified, synchronized staging file its digest name. *)
Lemma store_ok_publish d name token kind i bytes :
  store_ok d -> may d (stage l name) i -> Disk.current d (blob l kind (sha256 bytes)) = None ->
  Disk.contents d !! i = Some bytes -> i ∈ Disk.synced d ->
  ResumeToken.from_stage_name name = Ok token -> lenN bytes = ResumeToken.expected_length token ->
  (kind = BlobKind.Manifest ->
     exists limits m, parse_with_limits sha256 from_slice bytes limits = Ok m /\ closed l d m) ->
  store_ok (Disk.put (blob l kind (sha256 bytes)) (Some i) d).
Proof.
  intros [H1 H2 H3 H4 H5 H6 H7] Hst Hcur Hb Hsync Ht Hlen Hman. set (k := blob l kind (sha256 bytes)) in *.
  assert (forall n j, may (Disk.put k (Some i) d) (stage l n) j <-> may d (stage l n) j) as Hstage.
  { intros n j. rewrite may_put. split; [|by right]. intros [[[= E _] _]|?]; [|done]. by destruct (digest_not_staging kind). }
  assert (forall m, closed l d m -> closed l (Disk.put k (Some i) d) m) as Hclosed.
  { intros m Hm. eapply closed_mono; [exact Hm|]. intros kd n _ Hmust. apply must_put. split; [intros _; by eexists | exact Hmust]. }
  split; simpl.
  - done.
  - intros k' j. rewrite may_put. intros [[_ [= <-]]|Hm]; [by exists bytes | by eapply H2].
  - intros kd n j. rewrite may_put. intros [[[= Ek En] [= <-]]|Hm]; [|by eapply H3]. split; [done|]. by exists bytes.
  - intros n j Hm. rewrite current_put. apply may_put in Hm as [[E [= <-]]|Hm].
    + rewrite decide_True by done. split; [done|]. injection E as Ek _.
      apply (digest_dir_inj kind BlobKind.Manifest) in Ek. destruct (Hman Ek) as (limits & m & Hp & Hc).
      exists bytes, limits, m. auto.
    + destruct (H4 n j Hm) as (Hc & b & limits & m & Hb' & Hp & Hcl). rewrite decide_False by (intros ->; congruence).
      split; [done|]. exists b, limits, m. auto.
  - intros n j. rewrite Hstage. apply H5.
  - intros n n' j. rewrite !Hstage. apply H6.
  - intros n j tok b. rewrite Hstage. intros Hm (kd & n' & Hpub) Hn Hbj. apply may_put in Hpub as [[_ [= <-]]|Hpub].
    + pose proof (H6 _ _ _ Hm Hst) as ->. congruence.
    + eapply H7; [exact Hm | by exists kd, n' | done..].
Qed.

(** * Crashes *)

Lemma may_crashed d d' k i : Disk.crashed d d' -> may d' k i -> may d k i /\ Disk.current d' k = Some i.
Proof.
  intros Hc. unfold may, Disk.current. destruct (Disk.cr_entries _ _ Hc k) as (v & Hv & ->).
  rewrite list_elem_of_singleton. by intros <-.
Qed.
Lemma must_crashed d d' k : Disk.crashed d d' -> must d k -> must d' k.
Proof. intros Hc. unfold must. destruct (Disk.cr_entries _ _ Hc k) as (v & Hv & ->). rewrite list_elem_of_singleton. by intros H <-. Qed.

Lemma store_ok_crashed d d' : store_ok d -> Disk.crashed d d' -> store_ok d'.
Proof.
  intros [H1 H2 H3 H4 H5 H6 H7] Hc.
  assert (forall j, is_Some (Disk.contents d' !! j) <-> is_Some (Disk.contents d !! j)) as Hdom.
  { intros j. by rewrite <- !elem_of_dom, (Disk.cr_files _ _ Hc). }
  assert (forall k j, may d' k j -> may d k j) as Hmay by (intros k j Hm; by eapply may_crashed).
  assert (forall kind n j, may d' (Layout.digest_dir l kind, n) j -> Disk.contents d' !! j = Disk.contents d !! j) as Hcon.
  { intros kind n j Hm%Hmay. apply (Disk.cr_contents _ _ Hc). by eapply H3. }
  split.
  - intros fd j. by rewrite (Disk.cr_handles _ _ Hc), lookup_empty.
  - intros k j Hm%Hmay. by eapply Hdom, H2.
  - intros kind n j Hm. rewrite (Hcon _ _ _ Hm), (Disk.cr_synced _ _ Hc). by eapply H3, Hmay.
  - intros n j Hm. rewrite (Hcon BlobKind.Manifest _ _ Hm). split; [by eapply may_crashed|].
    destruct (H4 n j (Hmay _ _ Hm)) as (_ & b & limits & m & Hb & Hp & Hcl). exists b, limits, m. do 2 (split; [done|]).
    eapply closed_mono; [exact Hcl|]. intros. by eapply must_crashed.
  - intros n j Hm%Hmay. by eapply H5.
  - intros n n' j Hm%Hmay Hm'%Hmay. by eapply H6.
  - intros n j token b Hm%Hmay (kind & n' & Hp) Ht. rewrite (Hcon _ _ _ Hp). intros Hb.
    eapply H7; [exact Hm | exists kind, n'; by apply Hmay | done..].
Qed.
End store.
