(* ===== verification/StoreCasFacts.v ===== *)
(** The calls of the content-addressed store on disk: what each primitive leaves,
    and that stages are verified before they are published. *)
From stdpp Require Import prelude gmap strings.
From S2P Require Import Prelude Format FormatManifest FormatDigest FormatArtifact Store StoreOs.
From S2P Require Import StoreFs StoreFsFacts StorePages StoreStage StoreStageFacts StoreWrite.
From S2P Require Import StoreLayout StoreCas StoreDisk StoreDiskLogic StoreDiskFacts StoreDiskInv.
#[local] Open Scope N_scope.
#[local] Open Scope os_scope.
#[local] Opaque Digest.path_component.

Section cas.
Context (sha256 : list N -> Digest) (from_slice : list N -> Token * option SyntaxError) (cas : Cas.t).
Abbreviation l := (Cas.layout cas).
Context (Hl : layout_ok l).
Abbreviation store_ok := (store_ok sha256 from_slice l).
Abbreviation hoare := (hoare sha256 from_slice l).

(** The store may have grown: descriptors stay what they are, and what was there
    for good still is. *)
Record grows (d d' : Disk.t) : Prop := {
  gr_locked : Disk.locked d' = Disk.locked d;
  gr_used : Disk.used d ⊆ Disk.used d';
  gr_handles : forall fd, fd ∈ Disk.used d -> Disk.handles d' !! fd = Disk.handles d !! fd;
  gr_must : forall kind name, must d (Layout.digest_dir l kind, name) -> must d' (Layout.digest_dir l kind, name);
  gr_present : forall kind name, is_Some (Disk.current d (Layout.digest_dir l kind, name)) ->
    is_Some (Disk.current d' (Layout.digest_dir l kind, name))
}.
#[local] Instance grows_preorder : PreOrder grows.
Proof.
  split; [by intros d; split|]. intros d1 d2 d3 [H1 H2 H3 H4 H5] [K1 K2 K3 K4 K5].
  split; [congruence | by etrans | | by auto | by auto]. intros fd Hfd. rewrite K3 by auto. by apply H3.
Qed.

Lemma sees_grows d d' : sees d d' -> grows d d'.
Proof.
  intros H. split; try apply H; intros kind name.
  - unfold must. by rewrite (sees_history _ _ _ H).
  - by rewrite (sees_current _ _ _ H).
Qed.

(** Changes of names only. *)
Lemma grows_put d k v :
  (forall kind, k.1 = Layout.digest_dir l kind -> is_Some v) -> grows d (Disk.put k v d).
Proof.
  intros H. split; simpl; [done..| |]; intros kind name Hm.
  - apply must_put. split; [|exact Hm]. intros ->. by apply (H kind).
  - rewrite current_put. destruct (decide (k = _)) as [->|]; [by apply (H kind) | done].
Qed.
Lemma grows_publish d kind digest i : grows d (Disk.put (blob l kind digest) (Some i) d).
Proof. apply grows_put. intros. by eexists. Qed.
Lemma grows_unstage d name : grows d (Disk.put (stage l name) None d).
Proof. apply grows_put. simpl. intros kind E. by destruct (digest_not_staging l Hl kind). Qed.
Lemma grows_sync d dir : grows d (Disk.sync_directory dir d).
Proof. split; simpl; try done; intros; [by apply must_sync | by rewrite current_sync]. Qed.

(** * Control flow *)

Lemma hoare_ignore {A} d (m : Os A) (Q : Disk.t -> unit -> Prop) X :
  hoare d m (fun d' _ => Q d' tt) (fun d' _ => Q d' tt) -> hoare d (ignore m) Q X.
Proof.
  intros H. apply hoare_bind, hoare_attempt. eapply hoare_mono; [exact H|..]; intros; by apply hoare_lift.
Qed.
Lemma hoare_or_else {A} d (m : Os A) error Q X :
  hoare d m Q (fun d' _ => X d' error) -> hoare d (or_else m error) Q X.
Proof.
  intros H. apply hoare_bind, hoare_attempt. eapply hoare_mono; [exact H|..]; intros; by apply hoare_lift.
Qed.

(** * Primitives *)

Lemma hoare_sync_dir d dir :
  Disk.tracked l dir = true ->
  hoare d (sync_fd dir) (fun d' _ => d' = Disk.sync_directory dir d) (fun d' _ => d' = d).
Proof.
  intros Ht. apply hoare_bind, hoare_call. intros e r Hd E. destruct e; try done.
  destruct (N.eqb_spec fd dir) as [->|]; [|done]. injection E as <-. split; [done|]. intros d0 d' -> Hs. simpl in Hs.
  destruct answer as [e|[]].
  - apply list_elem_of_singleton in Hs as ->. split; [done|]. by apply hoare_lift.
  - destruct (Disk.handles d !! dir) as [i|] eqn:Eh.
    { destruct (so_handles _ _ _ _ Hd _ _ Eh) as (_ & ? & _). congruence. }
    rewrite Ht in Hs. apply list_elem_of_singleton in Hs as ->.
    split; [by apply store_ok_sync_directory | by apply hoare_lift].
Qed.

Lemma hoare_sync_file d fd i :
  Disk.handles d !! fd = Some i ->
  hoare d (sync_fd fd) (fun d' _ => d' = Disk.set_synced i d) (fun d' _ => d' = d).
Proof.
  intros Hi. apply hoare_bind, hoare_call. intros e r Hd E. destruct e; try done.
  destruct (N.eqb_spec fd0 fd) as [->|]; [|done]. injection E as <-. split; [done|]. intros d0 d' -> Hs. simpl in Hs.
  destruct answer as [e|[]].
  - apply list_elem_of_singleton in Hs as ->. split; [done|]. by apply hoare_lift.
  - rewrite Hi in Hs. apply list_elem_of_singleton in Hs as ->. split; [by apply store_ok_synced | by apply hoare_lift].
Qed.

Lemma hoare_unlink_stage d name kind :
  Disk.locked d = true ->
  hoare d (unlink_leaf (Layout.staging l) name kind) (fun d' _ => grows d d') (fun d' _ => grows d d').
Proof.
  intros Hlock. apply hoare_guard; [done|]. intros _. apply hoare_bind, hoare_call. intros e r Hd E. destruct e; try done.
  case_bool_decide as Hpn; [|done]. destruct Hpn as [-> ->]. injection E as <-. split; [by split; [|left]|].
  intros d0 d' -> Hs. assert (d' = d \/ d' = Disk.put (stage l name) None d) as Hd'.
  { simpl in Hs. unfold Disk.guarded in Hs. repeat case_match; set_solver. }
  assert (store_ok d' /\ grows d d') as [Hok Hg].
  { destruct Hd' as [->| ->]; [done|]. split; [by apply store_ok_unstage | apply grows_unstage]. }
  split; [done|]. apply hoare_lift. by destruct answer.
Qed.

(** ** Writing to a stage *)

(** Only the contents of files and descriptors changed. *)
Definition works (d d' : Disk.t) : Prop := grows d d' /\ Disk.entries d' = Disk.entries d.
#[local] Instance works_preorder : PreOrder works.
Proof.
  split; [by intros d|]. intros d1 d2 d3 [H1 H2] [K1 K2]. split; [by etrans | congruence].
Qed.
Lemma works_set_file d i bytes : works d (Disk.set_file i bytes d).
Proof. by split; [split|]. Qed.
Lemma sees_works d d' : sees d d' -> works d d'.
Proof. intros H. split; [by apply sees_grows | apply H]. Qed.

(** A descriptor of a file that has no digest name. *)
Definition scratch (d : Disk.t) (fd : N) : Prop :=
  Disk.locked d = true /\ exists i, Disk.handles d !! fd = Some i /\ ~ published l d i.
Lemma scratch_works d d' fd : store_ok d -> works d d' -> scratch d fd -> scratch d' fd.
Proof.
  intros Hd [Hg He] (Hlock & i & Hi & Hp). split; [by rewrite (gr_locked _ _ Hg)|]. exists i. split.
  - rewrite (gr_handles _ _ Hg); [done|]. by destruct (so_handles _ _ _ _ Hd _ _ Hi).
  - intros (kind & n & Hm). apply Hp. exists kind, n. revert Hm. unfold may, Disk.history. by rewrite He.
Qed.

Lemma hoare_write_call d fd p data :
  scratch d fd -> hoare d (pwrite fd p data) (fun d' _ => works d d') (fun _ _ => False).
Proof.
  intros (Hlock & i & Hi & Hp). apply hoare_call. intros e r Hd E. destruct e; try done. case_match eqn:Ec; [|done].
  injection E as <-. apply andb_true_iff in Ec as [Ec _]. apply andb_true_iff in Ec as [Ec _].
  apply andb_true_iff in Ec as [->%N.eqb_eq _]. split; [split; [done | by exists i]|]. intros d0 d' -> Hs.
  unfold Disk.step in Hs. rewrite Hi in Hs. cbv zeta in Hs. assert (d' = d \/ exists bytes, d' = Disk.set_file i bytes d) as Hd'.
  { destruct answer as [[]|]; try (apply list_elem_of_fmap in Hs as (n & -> & _); by right; eexists);
      apply list_elem_of_singleton in Hs as ->; eauto. }
  destruct Hd' as [->|[bytes ->]]; [done|]. split; [|apply works_set_file].
  apply store_ok_write; [done | done | by destruct (so_handles _ _ _ _ Hd _ _ Hi) as (_ & _ & ?) | done].
Qed.

Lemma hoare_write_all d fd offset bytes :
  scratch d fd -> hoare d (write_all_at fd offset bytes) (fun d' _ => works d d') (fun d' _ => works d d').
Proof.
  intros Hs. apply hoare_start. intros Hd. apply (hoare_iterate _ _ _ _ (fun d' _ => works d d')); [done|].
  intros d1 [p b] Hw. assert (scratch d1 fd) as Hs1 by (by eapply scratch_works).
  apply hoare_bind. eapply hoare_mono; [apply hoare_check | | by intros ? ? _ ->]. intros d2 _ _ ->.
  destruct b as [|x b]; [by apply hoare_lift|]. apply hoare_bind. eapply hoare_mono; [by apply hoare_write_call | | done].
  intros d2 a _ Hw2. assert (works d d2) as Hw3 by (by etrans). destruct a as [[]|[|count]];
    try (by apply hoare_lift).
  - apply hoare_bind. eapply hoare_mono; [apply hoare_check | | by intros ? ? _ ->]. intros d3 _ _ ->. by apply hoare_lift.
  - apply hoare_bind, hoare_lift. destruct (checked_add _ _ _); [|done]. by apply hoare_lift.
Qed.

Lemma hoare_truncate d fd n :
  scratch d fd -> hoare d (truncate fd n) (fun d' _ => works d d') (fun d' _ => works d d').
Proof.
  intros (Hlock & i & Hi & Hp). apply hoare_bind, hoare_call. intros e r Hd E. destruct e; try done. case_match eqn:Ec; [|done].
  injection E as <-. apply andb_true_iff in Ec as [->%N.eqb_eq _]. split; [split; [done | by exists i]|].
  intros d0 d' -> Hs. simpl in Hs. rewrite Hi in Hs. assert (d' = d \/ exists bytes, d' = Disk.set_file i bytes d) as Hd'.
  { destruct answer; set_solver. }
  assert (store_ok d' /\ works d d') as [Hok Hw].
  { destruct Hd' as [->|[bytes ->]]; [done|]. split; [|apply works_set_file].
    apply store_ok_write; [done | done | by destruct (so_handles _ _ _ _ Hd _ _ Hi) as (_ & _ & ?) | done]. }
  split; [done|]. apply hoare_lift. by destruct answer.
Qed.

(** * Verification *)

Lemma take_extend (bytes : list N) a b :
  take (N.to_nat a) bytes ++ take (N.to_nat b) (drop (N.to_nat a) bytes) = take (N.to_nat (a + b)) bytes.
Proof. rewrite N2Nat.inj_add. by rewrite take_take_drop. Qed.

Lemma hoare_verify_digest d fd digest expected kind n :
  hoare d (verify_digest sha256 fd digest expected kind n)
    (fun d' _ => d' = d /\ forall bytes, reads d fd bytes -> lenN bytes = expected /\ sha256 bytes = digest)
    (fun d' _ => d' = d).
Proof.
  apply hoare_bind. eapply hoare_mono; [apply hoare_metadata | | done]. intros d1 len _ [-> Hlen].
  apply hoare_guard; [done|]. intros E%negb_false_iff%N.eqb_eq. apply hoare_bind. eapply hoare_mono.
  - apply (hoare_iterate _ _ _ _ (fun d' '(hashed, offset) => d' = d /\ offset <= expected
      /\ forall bytes, reads d fd bytes -> hashed = take (N.to_nat offset) bytes) _ _
      (fun d' hashed => d' = d /\ forall bytes, reads d fd bytes -> hashed = bytes) (fun d' _ => d' = d)).
    { split; [done|]. split; [lia | done]. }
    intros d1 [hashed offset] (-> & Ho & Hh). unfold digest_round. destruct (N.ltb_spec offset expected) as [Hlt|Hge].
    + apply hoare_bind. eapply hoare_mono; [apply hoare_check | | done]. intros d1 _ _ ->. apply hoare_bind.
      eapply hoare_mono; [apply hoare_read_exact | | done]. intros d1 bytes _ (-> & _ & Hb). apply hoare_bind, hoare_lift.
      destruct (checked_add _ _ _) as [next|] eqn:Ea; [|done]. apply checked_add_Some in Ea as [-> _]. apply hoare_lift.
      split; [done|]. split; [lia|]. intros file Hf. by rewrite (Hh file Hf), (Hb file Hf), take_extend.
    + apply hoare_lift. split; [done|]. intros file Hf. rewrite (Hh file Hf). apply take_ge.
      specialize (Hlen file Hf). unfold lenN in Hlen. lia.
  - intros d1 hashed _ [-> Hh]. apply hoare_bind. eapply hoare_mono; [apply hoare_metadata | | done].
    intros d1 len' _ [-> _]. apply hoare_guard; [done|]. intros _. apply hoare_lift, post_guard; [done|].
    intros Eh%negb_false_iff%N.eqb_eq. split; [done|]. intros bytes Hb. rewrite <- (Hh bytes Hb), Eh.
    rewrite (Hh bytes Hb), <- (Hlen bytes Hb). done.
  - done.
Qed.

Lemma hoare_hash_chunks d bytes n :
  hoare d (digest_bytes_interruptible sha256 bytes n) (fun d' _ => d' = d) (fun d' _ => d' = d).
Proof.
  apply hoare_bind. eapply hoare_mono; [apply (hoare_for_each _ _ _ _ _ _ (fun d' _ _ => d' = d) d (fun d' _ => d' = d)); [done|] | | done].
  - intros d1 dn x rest b _ ->. apply hoare_bind. eapply hoare_mono; [apply hoare_check | | done].
    intros d1 _ _ ->. by apply hoare_lift.
  - intros d1 hashed _ ->. apply hoare_bind. eapply hoare_mono; [apply hoare_check | | done].
    intros d1 _ _ ->. by apply hoare_lift.
Qed.

Lemma hoare_verify_object d fd record table n :
  hoare d (verify_object sha256 fd record table n) (fun d' _ => d' = d) (fun d' _ => d' = d).
Proof.
  apply hoare_guard; [done|]. intros _. apply hoare_bind. eapply hoare_mono; [apply hoare_verify_digest | | done].
  intros d1 _ _ [-> _]. eapply hoare_mono;
    [apply (hoare_for_each _ _ _ _ _ _ (fun d' _ _ => d' = d) d (fun d' _ => d' = d)); [done|] | done | done].
  intros d1 dn i rest b _ ->. apply hoare_bind. eapply hoare_mono; [apply hoare_check | | done].
  intros d1 _ _ ->. apply hoare_bind, hoare_lift. destruct (checked_mul _ _ _); [|done]. apply hoare_bind.
  eapply hoare_mono; [apply hoare_read_exact | | done]. intros d1 bytes _ (-> & _). apply hoare_bind.
  eapply hoare_mono; [apply hoare_hash_chunks | | done]. intros d1 actual _ ->. by apply hoare_lift, post_guard.
Qed.

(** * Stages *)

(** [fd] is open on the file of the token's staging name. *)
Definition staged (d : Disk.t) (token : ResumeToken.t) (fd : N) : Prop :=
  Disk.locked d = true /\ exists i, Disk.handles d !! fd = Some i
    /\ Disk.current d (stage l (ResumeToken.stage_name token)) = Some i.

Lemma staged_works d d' token fd : store_ok d -> works d d' -> staged d token fd -> staged d' token fd.
Proof.
  intros Hd [Hg He] (Hlock & i & Hi & Hc). split; [by rewrite (gr_locked _ _ Hg)|]. exists i. split.
  - rewrite (gr_handles _ _ Hg); [done|]. by destruct (so_handles _ _ _ _ Hd _ _ Hi).
  - revert Hc. unfold Disk.current, Disk.history. by rewrite He.
Qed.

(** A stage that is shorter than its token says has no digest name. *)
Lemma staged_scratch d token fd bytes :
  store_ok d -> Token.wf token -> staged d token fd -> reads d fd bytes ->
  lenN bytes < ResumeToken.expected_length token -> scratch d fd.
Proof.
  intros Hd Hw (Hlock & i & Hi & Hc) (j & Hj & Hb) Hlen. assert (j = i) as -> by congruence.
  split; [done|]. exists i. split; [done|]. intros Hp.
  pose proof (so_aliases _ _ _ _ Hd _ _ _ _ (current_may _ _ _ Hc) Hp (Token.from_stage_name_wf _ Hw) Hb). lia.
Qed.

Lemma staged_bytes d token fd : store_ok d -> staged d token fd -> exists bytes, reads d fd bytes.
Proof.
  intros Hd (_ & i & Hi & _). destruct (so_handles _ _ _ _ Hd _ _ Hi) as (_ & _ & [b Hb]). by exists b, i.
Qed.

Section copy.
Context (source fd : N) (kind : BlobKind.t) (expected : N) (token : ResumeToken.t).
Context (Hw : Token.wf token) (Hexp : ResumeToken.expected_length token = expected).

(** Either nothing is left to copy, or the stage may be written. *)
Definition copying (d : Disk.t) (position : N) : Prop := expected <= position \/ scratch d fd.
Lemma copying_works d d' p p' : store_ok d -> works d d' -> p <= p' -> copying d p -> copying d' p'.
Proof. intros Hd Hwk Hp [H|H]; [left; lia | right; by eapply scratch_works]. Qed.

Lemma hoare_resume_offset d page_size resumed offset :
  staged d token fd -> (forall n, page_size = Some n -> 0 < n) ->
  (forall bytes, reads d fd bytes -> offset = lenN bytes) ->
  hoare d (Cas.resume_offset fd kind expected page_size resumed offset)
    (fun d' offset' => works d d' /\ copying d' offset') (fun d' _ => works d d').
Proof.
  intros Hs Hps Ho. apply hoare_start. intros Hd. destruct (staged_bytes _ _ _ Hd Hs) as [bytes Hb].
  assert (offset < expected -> scratch d fd) as Hscr.
  { intros Hlt. eapply staged_scratch; [done.. | by exact Hb|]. rewrite Hexp, <- (Ho bytes Hb). done. }
  assert (copying d offset) as Hcopy.
  { destruct (N.lt_ge_cases offset expected); [right; auto | by left]. }
  unfold Cas.resume_offset. destruct page_size as [n|]; [|by apply hoare_lift].
  destruct (resumed && bool_decide (kind = BlobKind.Object) && (offset <? expected)) eqn:E; [|by apply hoare_lift].
  apply andb_true_iff in E as [_ Hlt%N.ltb_lt]. specialize (Hscr Hlt). apply hoare_bind, hoare_lift.
  rewrite (proj2 (N.eqb_neq n 0)) by (specialize (Hps n eq_refl); lia). simpl.
  destruct (_ =? offset); [by apply hoare_lift|]. apply hoare_bind.
  eapply hoare_mono; [by apply hoare_truncate | | done]. intros d' ? _ Hwk. apply hoare_lift. split; [done|].
  right. by eapply scratch_works.
Qed.

Lemma hoare_prefix_loop d offset :
  copying d offset ->
  hoare d (iterate (Cas.prefix_round cas source fd offset kind) ([], 0))
    (fun d' '(_, position) => d' = d /\ copying d position) (fun d' _ => d' = d).
Proof.
  intros Hc. eapply hoare_mono; [apply (hoare_iterate _ _ _ _ (fun d' _ => d' = d) _ _
    (fun d' '(_, position) => d' = d /\ copying d position) (fun d' _ => d' = d)); [done|] | by intros ? [] | done].
  intros d1 [hashed position] ->. unfold Cas.prefix_round. destruct (N.ltb_spec position offset) as [Hlt|Hge].
  - apply hoare_bind. eapply hoare_mono; [apply hoare_check | | done]. intros d1 _ _ ->. apply hoare_bind.
    eapply hoare_mono; [apply hoare_read_exact | | done]. intros d1 staged _ (-> & _). apply hoare_bind.
    eapply hoare_mono; [apply hoare_read_exact | | done]. intros d1 original _ (-> & _).
    apply hoare_guard; [done|]. intros _. apply hoare_bind, hoare_lift. destruct (checked_add _ _ _); [|done]. by apply hoare_lift.
  - apply hoare_lift. split; [done|]. destruct Hc as [H|H]; [left; lia | by right].
Qed.

Lemma hoare_copy_loop d state :
  copying d state.2 ->
  hoare d (iterate (Cas.copy_round cas source fd expected kind) state) (fun d' _ => works d d') (fun d' _ => works d d').
Proof.
  intros Hc. apply hoare_start. intros Hd. destruct state as [hashed position].
  apply (hoare_iterate _ _ _ _ (fun d' '(_, position) => works d d' /\ copying d' position)); [done|].
  intros d1 [h p] [Hwk Hcp]. unfold Cas.copy_round. destruct (N.ltb_spec p expected) as [Hlt|Hge]; [|by apply hoare_lift].
  destruct Hcp as [?|Hscr]; [lia|]. apply hoare_bind. eapply hoare_mono; [apply hoare_check | | by intros ? ? _ ->].
  intros d2 _ _ ->. apply hoare_bind. eapply hoare_mono; [apply hoare_read_exact | | by intros ? ? _ ->].
  intros d2 bytes Hd2 (-> & _). apply hoare_bind.
  eapply hoare_mono; [by apply hoare_write_all | | intros ? ? _ ?; by etrans].
  intros d2 ? _ Hwk2. apply hoare_bind, hoare_lift. assert (works d d2) by (by etrans). destruct (checked_add _ _ _); [|done].
  apply hoare_lift. split; [done|]. right. by eapply scratch_works.
Qed.

Lemma hoare_copy d digest page_size resumed :
  staged d token fd -> (forall n, page_size = Some n -> 0 < n) ->
  hoare d (Cas.copy_and_rehash sha256 cas source fd kind digest expected page_size resumed)
    (fun d' _ => works d d') (fun d' _ => works d d').
Proof.
  intros Hs Hps. apply hoare_bind. eapply hoare_mono; [apply hoare_metadata | | by intros ? ? _ ->].
  intros d1 n _ [-> _]. apply hoare_guard; [done|]. intros _. apply hoare_bind.
  eapply hoare_mono; [apply hoare_metadata | | by intros ? ? _ ->]. intros d1 offset _ [-> Ho].
  apply hoare_guard; [done|]. intros _. apply hoare_bind.
  eapply hoare_mono; [by apply hoare_resume_offset | | done]. intros d1 offset' _ [Hwk Hc]. apply hoare_bind.
  eapply hoare_mono; [by apply hoare_prefix_loop | | by intros ? ? _ ->]. intros d2 [h p] _ [-> Hc2]. apply hoare_bind.
  eapply hoare_mono; [by apply hoare_copy_loop | | intros ? ? _ ?; by etrans]. intros d2 hashed _ Hwk2.
  assert (works d d2) by (by etrans). apply hoare_bind.
  eapply hoare_mono; [apply hoare_metadata | | by intros ? ? _ ->]. intros d3 n2 _ [-> _].
  apply hoare_guard; [done|]. intros _. apply hoare_guard; [done|]. intros _. apply hoare_bind.
  eapply hoare_mono; [apply hoare_metadata | | by intros ? ? _ ->]. intros d3 n3 _ [-> _]. by apply hoare_lift, post_guard.
Qed.
End copy.
End cas.
