(* ===== verification/StoreCasPublish.v ===== *)
(** Publication: a blob that [ensure_blob] reports is there for good, under the
    digest of its bytes, and at no moment of any execution is anything else
    published. *)
From stdpp Require Import prelude gmap strings.
From S2P Require Import Prelude Format FormatManifest FormatDigest FormatArtifact Store StoreOs.
From S2P Require Import StoreFs StoreFsFacts StorePages StoreStage StoreStageFacts StoreWrite.
From S2P Require Import StoreLayout StoreCas StoreDisk StoreDiskLogic StoreDiskFacts StoreDiskInv.
From S2P Require Import StoreCasFacts.
#[local] Open Scope N_scope.
#[local] Open Scope os_scope.
#[local] Opaque Digest.path_component.
#[local] Existing Instance grows_preorder.

(** Chain two steps that the context knows. *)
Ltac chain := cbn [post] in *; etrans; eassumption.

(** * Tokens of a blob *)

Definition token_of (kind : BlobKind.t) (digest : Digest) (expected : N) (token : ResumeToken.t) : Prop :=
  Token.wf token /\ ResumeToken.kind token = kind /\ ResumeToken.digest token = digest
  /\ ResumeToken.expected_length token = expected.

Lemma post_new kind digest expected random :
  digest < digest_max -> expected <= u64_max ->
  post (ResumeToken.new kind digest expected random) (token_of kind digest expected) (fun _ => True).
Proof.
  intros Hd He. unfold ResumeToken.new. apply post_bind, post_guard; [done|]. intros [Hz%N.eqb_neq _]%orb_false_iff.
  apply post_bind. set (token := ResumeToken.mk _ _ _ _). pose proof (Token.safe_validate_name token).
  destruct (ResumeToken.validate_stage_name token) as [[]|e|] eqn:Ev; [|done|done]. simpl.
  apply Token.validate_name_ok in Ev. split; [|done]. split; simpl; (done || lia).
Qed.

Lemma post_validate_for token kind digest expected :
  digest < digest_max -> 0 < expected <= u64_max ->
  post (ResumeToken.validate_for token kind digest expected) (fun _ => token_of kind digest expected token) (fun _ => True).
Proof.
  intros Hd He. unfold ResumeToken.validate_for. apply post_bind. pose proof (Token.safe_validate_name token).
  destruct (ResumeToken.validate_stage_name token) as [[]|e|] eqn:Ev; [|done|done]. simpl.
  apply Token.validate_name_ok in Ev.
  apply post_bind, post_guard; [done|]. intros Hk%bool_decide_eq_false%dec_stable. apply post_bind, post_guard; [done|].
  intros Hg%negb_false_iff%N.eqb_eq. apply post_guard; [done|]. intros Hn%negb_false_iff%N.eqb_eq.
  split; [|done]. split; [by rewrite Hg | by rewrite Hn | done].
Qed.

Section publish.
Context (sha256 : list N -> Digest) (from_slice : list N -> Token * option SyntaxError).
Context (RESOLVER : StoreError + Resolver) (cas : Cas.t).
Abbreviation l := (Cas.layout cas).
Context (Hl : layout_ok l).
Abbreviation store_ok := (store_ok sha256 from_slice l).
Abbreviation hoare := (hoare sha256 from_slice l).
Abbreviation grows := (grows cas).

(** * Durability *)

Lemma hoare_confirm_digest d kind :
  hoare d (Cas.confirm_digest_durability cas kind)
    (fun d' _ => d' = Disk.sync_directory (Layout.digest_dir l kind) d) (fun d' _ => d' = d).
Proof. apply hoare_or_else, hoare_sync_dir, digest_tracked. Qed.
Lemma hoare_sync_staging d : hoare d (Cas.sync_staging cas) (fun d' _ => grows d d') (fun d' _ => grows d d').
Proof.
  eapply hoare_mono; [apply hoare_sync_dir, staging_tracked | |]; intros d' ? _ ->; [apply grows_sync | done].
Qed.
Lemma hoare_confirm_staging d kind :
  hoare d (Cas.confirm_staging_durability cas kind) (fun d' _ => grows d d') (fun d' _ => grows d d').
Proof. apply hoare_or_else, hoare_sync_staging. Qed.

(** The blob is there for good. *)
Definition kept (kind : BlobKind.t) (digest : Digest) (d d' : Disk.t) : Prop := grows d d' /\ must d' (blob l kind digest).

Lemma kept_grows kind digest d d' d2 : kept kind digest d d' -> grows d' d2 -> kept kind digest d d2.
Proof. intros [Hg Hm] Hg2. split; [by etrans|]. by apply (gr_must _ _ _ Hg2). Qed.
Lemma grows_kept kind digest d d' d2 : grows d d' -> kept kind digest d' d2 -> kept kind digest d d2.
Proof. intros Hg [Hg2 Hm]. split; [by etrans | done]. Qed.

(** After the digest directory is confirmed, whatever follows may fail. *)
Lemma hoare_confirmed {A} d kind digest (f : unit -> Os A) :
  is_Some (Disk.current d (blob l kind digest)) ->
  (forall d', kept kind digest d d' ->
     hoare d' (f tt) (fun d2 _ => grows d' d2) (fun d2 _ => grows d' d2)) ->
  hoare d (os_bind (Cas.confirm_digest_durability cas kind) f)
    (fun d' _ => kept kind digest d d') (fun d' _ => grows d d').
Proof.
  intros [i Hi] Hf. apply hoare_bind. eapply hoare_mono; [apply hoare_confirm_digest | | by intros ? ? _ ->].
  intros d1 [] _ ->. assert (kept kind digest d (Disk.sync_directory (Layout.digest_dir l kind) d)) as Hk.
  { split; [apply grows_sync|]. by eapply must_synced. }
  eapply hoare_mono; [by apply Hf | |].
  - intros d2 a _ Hg. by eapply kept_grows.
  - intros d2 e _ Hg. etrans; [apply Hk | done].
Qed.

Lemma locked_grows d d' : grows d d' -> Disk.locked d = true -> Disk.locked d' = true.
Proof. intros Hg <-. apply Hg. Qed.

Lemma hoare_unlink_token d token :
  Disk.locked d = true ->
  hoare d (Layout.unlink_stage l token) (fun d' _ => grows d d') (fun d' _ => grows d d').
Proof. intros. by apply hoare_unlink_stage. Qed.

Lemma hoare_finish_link d token kind digest :
  Disk.locked d = true -> is_Some (Disk.current d (blob l kind digest)) ->
  hoare d (Cas.finish_link_publication cas token kind)
    (fun d' _ => kept kind digest d d') (fun d' _ => grows d d').
Proof.
  intros Hlock Hc. apply hoare_confirmed; [done|]. intros d' Hk. apply hoare_bind, hoare_ignore.
  assert (forall d2, grows d' d2 -> hoare d2 (Cas.confirm_staging_durability cas kind)
    (fun d3 _ => grows d' d3) (fun d3 _ => grows d' d3)) as H.
  { intros d2 Hg. eapply hoare_mono; [apply hoare_confirm_staging|..]; intros d3 ? _ ?; chain. }
  eapply hoare_mono; [apply hoare_unlink_token; by eapply locked_grows; [apply Hk|]|..]; intros d2 ? _ Hg; by apply H.
Qed.

Lemma hoare_finish_reused d token kind digest :
  Disk.locked d = true -> is_Some (Disk.current d (blob l kind digest)) ->
  hoare d (Cas.finish_reused_stage cas token kind) (fun d' _ => kept kind digest d d') (fun d' _ => grows d d').
Proof.
  intros Hlock Hc. apply hoare_confirmed; [done|]. intros d' Hk. apply hoare_bind, hoare_attempt.
  eapply hoare_mono; [apply hoare_unlink_token; by eapply locked_grows; [apply Hk|]|..]; intros d2 x _ Hg.
  - eapply hoare_mono; [apply hoare_confirm_staging|..]; intros d3 ? _ ?; chain.
  - apply hoare_bind, hoare_ignore. eapply hoare_mono; [apply hoare_sync_staging|..]; intros d3 ? _ ?; apply hoare_lift; chain.
Qed.

Lemma hoare_confirm_blob d kind digest :
  is_Some (Disk.current d (blob l kind digest)) ->
  hoare d (Cas.confirm_blob_durability cas kind) (fun d' _ => kept kind digest d d') (fun d' _ => grows d d').
Proof. intros Hc. apply hoare_confirmed; [done|]. intros d' _. apply hoare_confirm_staging. Qed.

(** * Cleanup *)

Lemma hoare_partial_cleanup d b :
  hoare d (Cas.sync_partial_stage_cleanup cas b) (fun d' _ => grows d d') (fun _ _ => False).
Proof.
  unfold Cas.sync_partial_stage_cleanup. destruct b; [|by apply hoare_lift]. apply hoare_ignore, hoare_sync_staging.
Qed.

Lemma hoare_cleanup_entry d redundant b entry :
  Disk.locked d = true -> (exists token, ResumeToken.from_stage_name (LeafEntry.name entry) = Ok token) ->
  hoare d (Cas.cleanup_entry cas redundant b entry) (fun d' _ => grows d d') (fun d' _ => grows d d').
Proof.
  intros Hlock [token Ht]. unfold Cas.cleanup_entry. rewrite Ht. destruct (redundant token); [|by apply hoare_lift].
  apply hoare_bind, hoare_attempt. eapply hoare_mono; [by apply hoare_unlink_token|..]; intros d1 x _ Hg.
  - by apply hoare_lift.
  - apply hoare_bind. eapply hoare_mono; [apply hoare_partial_cleanup | | done]. intros d2 [] _ Hg2. apply hoare_lift. chain.
Qed.

Lemma hoare_cleanup d redundant :
  Disk.locked d = true ->
  hoare d (Cas.cleanup_stages cas redundant) (fun d' _ => grows d d') (fun d' _ => grows d d').
Proof.
  intros Hlock. apply hoare_bind. eapply hoare_mono; [apply hoare_stage_entries | |].
  2: { intros d' e _ Hs. by apply sees_grows. }
  intros d1 entries _ (Hs%(sees_grows cas) & _ & Htok). apply hoare_bind. eapply hoare_mono.
  - apply (hoare_for_each _ _ _ _ _ _ (fun d' _ _ => grows d d') d1 (fun d' _ => grows d d')); [done|].
    intros d2 dn entry rest b Hsplit Hg.
    eapply hoare_mono; [apply hoare_cleanup_entry; [by eapply locked_grows|]|..]; [|intros d3 ? _ ?; chain..].
    apply Htok. rewrite Hsplit. apply list_elem_of_fmap. exists entry. split; [done|]. set_solver.
  - intros d2 b _ Hg. by apply hoare_lift.
  - done.
Qed.

(** * Stages *)

Abbreviation staged := (staged cas).

Lemma hoare_create_leaf d token mode :
  Disk.locked d = true -> Token.wf token ->
  hoare d (openat (At (Layout.staging l)) (ResumeToken.stage_name token) (CREATE_FLAGS mode))
    (fun d' a => grows d d' /\ match a with inl _ => True | inr fd => staged d' token fd end) (fun _ _ => False).
Proof.
  intros Hlock Hw. apply hoare_openat; [done|]. intros a d' Hd Hs. unfold Disk.step_open_any in Hs.
  rewrite staging_tracked in Hs. unfold Disk.step_open, Disk.guarded in Hs. destruct a as [e|fd].
  - assert (d' = d) as -> by (destruct e; repeat case_match; set_solver). done.
  - destruct (Disk.fresh l d fd) eqn:Ef; [|set_solver]. apply fresh_spec in Ef as (Hu & Hf & Htr).
    destruct (Disk.current d _); [set_solver|]. apply list_elem_of_singleton in Hs as ->.
    fold (stage l (ResumeToken.stage_name token)).
    split; [eapply store_ok_create; [exact Hl | exact Hd | by apply Token.from_stage_name_wf | done..]|].
    set (d1 := Disk.set_file _ _ _). assert (grows d d1) as Hg1.
    { split; simpl; [done | set_solver | | done | done]. intros fd' Hfd'. apply lookup_insert_ne. set_solver. }
    split.
    + etrans; [exact Hg1|]. apply grows_put. intros. by eexists.
    + split; [done|]. exists fd. split; [apply lookup_insert_eq|]. by rewrite current_put, decide_True.
Qed.

Lemma staged_sees d d' token fd : store_ok d -> sees d d' -> staged d token fd -> staged d' token fd.
Proof. intros Hd Hs. eapply staged_works; [done | by apply sees_works]. Qed.

Lemma hoare_create_stage d token :
  Disk.locked d = true -> Token.wf token ->
  hoare d (Layout.create_stage l token) (fun d' fd => grows d d' /\ staged d' token fd) (fun d' _ => grows d d').
Proof.
  intros Hlock Hw. apply hoare_bind, hoare_guard; [done|]. intros _. apply hoare_bind.
  eapply hoare_mono; [by apply hoare_create_leaf | | done]. intros d1 a _ [Hg Ha]. apply hoare_bind, hoare_lift.
  destruct a as [e|fd]; [by destruct e|]. simpl. apply hoare_bind.
  eapply hoare_mono; [apply hoare_metadata | | by intros ? ? _ ->]. intros d2 n _ [-> _].
  apply hoare_guard; [done|]. intros _. apply hoare_lift. apply hoare_bind.
  eapply hoare_mono; [apply hoare_validate_metadata | | by intros ? ? _ ->]. intros d2 st _ [-> _]. by apply hoare_lift.
Qed.

Section blob.
Context (kind : BlobKind.t) (digest : Digest) (expected : N).
Context (Hdig : digest < digest_max) (Hexp : 0 < expected <= u64_max).
Abbreviation token_of := (token_of kind digest expected).
Abbreviation kept := (kept kind digest).

(** A stage of this blob. *)
Definition obtained (d : Disk.t) (d' : Disk.t) (stage : ResumeToken.t * N) : Prop :=
  grows d d' /\ token_of stage.1 /\ staged d' stage.1 stage.2.

Lemma hoare_create_attempt d :
  Disk.locked d = true ->
  hoare d (Cas.create_attempt cas kind digest expected)
    (fun d' o => match o with Some stage => obtained d d' stage | None => grows d d' end) (fun d' _ => grows d d').
Proof.
  intros Hlock. apply hoare_bind, hoare_quiet_call. intros e r E. destruct e; try done. case_match; [|done].
  injection E as <-. split; [done|]. intros _. apply hoare_bind, hoare_lift. destruct answer as [random|]; [|done]. simpl.
  apply hoare_bind, hoare_lift. eapply post_mono; [apply post_new; [exact Hdig | lia] | | done].
  intros token Ht. apply hoare_bind, hoare_attempt. pose proof (proj1 Ht) as Hw.
  eapply hoare_mono; [by apply hoare_create_stage | |]; [|intros d1 e _ Hg; by destruct e; apply hoare_lift].
  intros d1 fd Hd1 [Hg Hst]. apply hoare_bind, hoare_attempt.
  eapply (hoare_mono _ _ _ _ _ (fun d' _ => d' = Disk.sync_directory (Layout.staging l) d1) _ (fun d' _ => d' = d1));
    [apply hoare_sync_dir, staging_tracked | |].
  - intros d2 [] _ ->. apply hoare_lift. split; [etrans; [exact Hg | apply grows_sync]|]. split; [done|].
    destruct Hst as (Hlk & i & Hi & Hc). split; [done|]. exists i. split; [done|]. by rewrite current_sync.
  - intros d2 e _ ->. apply hoare_bind, hoare_ignore.
    assert (forall d2, grows d1 d2 -> hoare d2 (_ <- ignore (Cas.sync_staging cas); lift (Err e))
      (fun d' o => match o with Some stage => obtained d d' stage | None => grows d d' end) (fun d' _ => grows d d')) as Hrest.
    { intros d2 Hg2. apply hoare_bind, hoare_ignore. assert (grows d d2) by chain.
      eapply hoare_mono; [apply hoare_sync_staging|..]; intros d3 x _ Hg3; apply hoare_lift; chain. }
    eapply hoare_mono; [apply hoare_unlink_token; by eapply locked_grows|..]; intros d2 x _ Hg2; by apply Hrest.
Qed.

Lemma hoare_create_attempts n d :
  Disk.locked d = true ->
  hoare d (Cas.create_attempts cas kind digest expected n) (obtained d) (fun d' _ => grows d d').
Proof.
  revert d. induction n as [|n IH]; intros d Hlock; [by apply hoare_lift|]. apply hoare_bind.
  eapply hoare_mono; [by apply hoare_create_attempt | | done]. intros d1 [stage|] _ Ho; [by apply hoare_lift|].
  eapply hoare_mono; [apply IH; by eapply locked_grows | |].
  - intros d2 stage _ (Hg & ?). split; [chain | done].
  - intros d2 e _ ?. chain.
Qed.

Lemma hoare_open_stage d token :
  Disk.locked d = true ->
  hoare d (Layout.open_stage l token) (fun d' fd => sees d d' /\ staged d' token fd) (fun d' _ => sees d d').
Proof.
  intros Hlock. apply hoare_bind.
  eapply (hoare_mono _ _ _ _ _ (fun d' a => match a with inl _ => d' = d
    | inr fd => opened_as d (stage l (ResumeToken.stage_name token)) d' fd end) _ (fun _ _ => False)); [apply hoare_openat | | done].
  - done.
  - intros a d' Hd Hs. unfold Disk.step_open_any in Hs. rewrite staging_tracked in Hs.
    apply (step_open_read sha256 from_slice) in Hs; [done | done | by right].
  - intros d1 a _ Ha. apply hoare_bind, hoare_lift. destruct a as [e|fd]; [subst; by destruct e|]. simpl.
    destruct Ha as [Hs (i & Hc & Hi)]. apply hoare_bind.
    eapply hoare_mono; [apply hoare_validate_metadata | | by intros ? ? _ ->]. intros d2 st _ [-> _]. apply hoare_lift.
    split; [done|]. split; [by rewrite (se_locked _ _ Hs)|]. exists i. split; [done|]. by rewrite (sees_current _ _ _ Hs).
Qed.

Lemma hoare_obtain d resume :
  Disk.locked d = true -> hoare d (Cas.obtain_stage cas kind digest expected resume) (obtained d) (fun d' _ => grows d d').
Proof.
  intros Hlock. destruct resume as [token|]; [|by apply hoare_create_attempts].
  apply hoare_bind, hoare_lift. eapply post_mono; [by apply post_validate_for | | done]. intros [] Ht. apply hoare_bind.
  eapply hoare_mono; [by apply hoare_open_stage | |]; [|intros; by apply sees_grows]. intros d1 fd _ [Hs Hst].
  apply hoare_lift. split; [by apply sees_grows | done].
Qed.

(** * Publication *)

(** The stage holds synchronized bytes of this blob; a manifest refers only to
    what is there for good. *)
Record ready (d : Disk.t) (token : ResumeToken.t) (i : N) (bytes : list N) : Prop := {
  re_locked : Disk.locked d = true;
  re_token : token_of token;
  re_stage : Disk.current d (stage l (ResumeToken.stage_name token)) = Some i;
  re_bytes : Disk.contents d !! i = Some bytes;
  re_synced : i ∈ Disk.synced d;
  re_digest : sha256 bytes = digest;
  re_length : lenN bytes = expected;
  re_closed : kind = BlobKind.Manifest ->
    exists limits m, parse_with_limits sha256 from_slice bytes limits = Ok m /\ closed l d m
}.

Lemma blob_not_stage name : blob l kind digest <> stage l name.
Proof. unfold blob, stage. intros [= E _]. by destruct (digest_not_staging l Hl kind). Qed.

Lemma store_ok_moved d token i bytes keep d' :
  store_ok d -> ready d token i bytes ->
  d' ∈ Disk.moved keep d (stage l (ResumeToken.stage_name token)) (blob l kind digest) ->
  store_ok d' /\ grows d d' /\ is_Some (Disk.current d' (blob l kind digest)).
Proof.
  intros Hd [H1 [Hw (_ & _ & Ht)] H3 H4 H5 H6 H7 H8] Hm. unfold Disk.moved in Hm. rewrite H3 in Hm.
  destruct (Disk.current d (blob l kind digest)) eqn:Ec; [set_solver|]. apply list_elem_of_singleton in Hm as ->.
  set (d1 := if keep then d else _). assert (store_ok d1 /\ grows d d1) as [Hd1 Hg1].
  { destruct keep; [done|]. split; [by apply store_ok_unstage | by apply grows_unstage]. }
  split; [|split; [etrans; [exact Hg1 | apply grows_publish] | rewrite current_put, decide_True by done; by eexists]].
  pose proof blob_not_stage as Hbs. revert Ec Hbs. rewrite <- H6. intros Ec Hbs.
  eapply store_ok_publish; [exact Hl | exact Hd1 | | | | | by apply Token.from_stage_name_wf | by rewrite Ht |].
  - destruct keep; [by apply current_may|]. unfold d1. apply may_put. right. by apply current_may.
  - destruct keep; [done|]. unfold d1. by rewrite current_put, decide_False by (intros E; by apply (Hbs (ResumeToken.stage_name token))).
  - by destruct keep.
  - by destruct keep.
  - intros Ek. destruct (H8 Ek) as (limits & m & Hp & Hc). exists limits, m. split; [done|].
    eapply closed_mono; [exact Hc|]. intros kd n _ Hmust. by apply (gr_must _ _ _ Hg1).
Qed.

Lemma hoare_rename d token i bytes :
  ready d token i bytes ->
  hoare d (Cas.rename_stage_noreplace cas token kind digest)
    (fun d' r => grows d d' /\ match r with Published => is_Some (Disk.current d' (blob l kind digest)) | Unsupported => d' = d end)
    (fun d' _ => grows d d').
Proof.
  intros Hr. apply hoare_guard; [done|]. intros _. apply hoare_guard; [done|]. intros _.
  apply hoare_bind, hoare_call. intros e r Hd E. destruct e; try done. case_bool_decide as Ha; [|done].
  destruct Ha as (-> & -> & -> & ->). injection E as <-. split; [split; [apply Hr|]; split; [done | by exists kind]|].
  intros d0 d' -> Hs. unfold Disk.step, Disk.step_move in Hs.
  pose proof (store_ok_moved d token i bytes false d' Hd Hr) as Hmoved. unfold stage, blob in Hmoved.
  assert (forall e', d' ∈ d :: Disk.moved false d (Layout.staging l, ResumeToken.stage_name token)
            (Layout.digest_dir l kind, Digest.path_component digest) ->
          store_ok d' /\ hoare d' (lift (Err e')) (fun d'0 r => grows d d'0 /\ match r with
            Published => is_Some (Disk.current d'0 (blob l kind digest)) | Unsupported => d'0 = d end)
            (fun d'0 _ => grows d d'0)) as Herr.
  { intros e' [->|Hin]%elem_of_cons; [by split; [|apply hoare_lift]|]. destruct (Hmoved Hin) as (? & ? & _).
    by split; [|apply hoare_lift]. }
  destruct answer as [[]|[]]; try (by apply Herr).
  - apply list_elem_of_singleton in Hs as ->. by split; [|apply hoare_lift].
  - apply list_elem_of_singleton in Hs as ->. by split; [|apply hoare_lift].
  - unfold Disk.guarded in Hs. case_bool_decide; [|set_solver]. apply list_elem_of_singleton in Hs as ->. by split; [|apply hoare_lift].
  - destruct (Hmoved Hs) as (? & ? & ?). by split; [|apply hoare_lift].
Qed.

Lemma hoare_link d token i bytes :
  ready d token i bytes ->
  hoare d (Cas.link_stage_noreplace cas token kind digest)
    (fun d' _ => grows d d' /\ is_Some (Disk.current d' (blob l kind digest))) (fun d' _ => grows d d').
Proof.
  intros Hr. apply hoare_guard; [done|]. intros _. apply hoare_guard; [done|]. intros _.
  apply hoare_bind, hoare_call. intros e r Hd E. destruct e; try done. case_bool_decide as Ha; [|done].
  destruct Ha as (-> & -> & -> & ->). injection E as <-. split; [split; [apply Hr|]; split; [done | by exists kind]|].
  intros d0 d' -> Hs. unfold Disk.step, Disk.step_move in Hs.
  pose proof (store_ok_moved d token i bytes true d' Hd Hr) as Hmoved. unfold stage, blob in Hmoved.
  assert (d' = d \/ d' ∈ Disk.moved true d (Layout.staging l, ResumeToken.stage_name token)
    (Layout.digest_dir l kind, Digest.path_component digest)) as Hcases.
  { unfold Disk.guarded in Hs. destruct answer as [[]|]; try case_match; set_solver. }
  assert (store_ok d' /\ grows d d') as [Hok Hg].
  { destruct Hcases as [->|Hin]; [done|]. by destruct (Hmoved Hin) as (? & ? & _). }
  split; [done|]. apply hoare_lift. destruct answer as [[]|[]]; try done. by destruct (Hmoved Hs) as (_ & ? & ?).
Qed.

Section ensure.
Context (verify : N -> Os unit) (V : list N -> Prop).
Context (Hverify : forall d fd, hoare d (verify fd)
  (fun d' _ => d' = d /\ forall bytes, reads d fd bytes -> V bytes) (fun d' _ => d' = d)).

Lemma leaf_current d n d' fd : opened_leaf d (blob l kind digest) n d' fd ->
  sees d d' /\ is_Some (Disk.current d' (blob l kind digest)).
Proof. intros [Hs (i & b & Hc & _)]. split; [done|]. rewrite (sees_current _ _ _ Hs), Hc. by eexists. Qed.

Lemma hoare_settle d token ambiguous :
  Disk.locked d = true ->
  hoare d (Cas.settle_blob sha256 RESOLVER cas kind digest expected verify token ambiguous)
    (fun d' _ => kept d d') (fun d' _ => grows d d').
Proof.
  intros Hlock. apply hoare_bind, hoare_attempt. eapply hoare_mono; [apply hoare_open_digest | |].
  2: { intros d1 e _ Hs%(sees_grows cas). apply hoare_bind, hoare_lift. by destruct e, ambiguous. }
  intros d1 fd _ [Hs Hc]%leaf_current. pose proof (sees_grows cas _ _ Hs) as Hg. apply hoare_bind, hoare_lift.
  assert (Disk.locked d1 = true) as Hlock1 by (by rewrite (se_locked _ _ Hs)).
  apply hoare_bind. eapply hoare_mono; [apply hoare_unbounded, hoare_verify_digest | | by intros ? ? _ ->].
  intros d2 [] _ [-> _]. apply hoare_bind. eapply hoare_mono; [apply hoare_unbounded, Hverify | | by intros ? ? _ ->].
  intros d2 [] _ [-> _].
  assert (forall d2, sees d1 d2 -> grows d d2 /\ Disk.locked d2 = true /\ is_Some (Disk.current d2 (blob l kind digest))) as Hsees.
  { intros d2 Hs2. pose proof (sees_grows cas _ _ Hs2). rewrite (sees_current _ _ _ Hs2), (se_locked _ _ Hs2). split; [chain | done]. }
  assert (forall A (m : Os unit) (a : A) d2, sees d1 d2 ->
    hoare d2 m (fun d' _ => kept d2 d') (fun d' _ => grows d2 d') ->
    hoare d2 (_ <- m; lift (Ok a)) (fun d' _ => kept d d') (fun d' _ => grows d d')) as Hend.
  { intros A m a d2 Hs2 Hm. destruct (Hsees _ Hs2) as [Hg2 _]. apply hoare_bind. eapply hoare_mono; [exact Hm|..].
    - intros d3 [] _ Hk. apply hoare_lift. by eapply grows_kept.
    - intros d3 e _ ?. chain. }
  destruct ambiguous as [error|].
  - apply hoare_bind, hoare_attempt. eapply hoare_mono; [by apply hoare_open_stage | |].
    + intros d2 sfd _ [Hs2 _]. destruct (Hsees _ Hs2) as (Hg2 & Hlk & Hc2). apply hoare_bind.
      eapply (hoare_mono _ _ _ _ _ (fun d' _ => d' = d2) _ (fun d' _ => d' = d2)); [| | by intros ? ? _ ->].
      * apply hoare_fstat; [done|]. intros st _. apply hoare_fstat; [done|]. intros st' _. by apply hoare_lift.
      * intros d3 same _ ->. destruct same; apply Hend; auto using hoare_finish_link, hoare_finish_reused.
    + intros d2 e _ Hs2. destruct (Hsees _ Hs2) as (Hg2 & Hlk & Hc2). destruct e; try (by apply hoare_lift).
      apply Hend; [done | by apply hoare_confirm_blob].
  - destruct (Hsees d1 ltac:(done)) as (_ & Hlk & Hc2). apply Hend; [done | by apply hoare_finish_reused].
Qed.

Lemma hoare_publish d token i bytes :
  ready d token i bytes ->
  hoare d (Cas.publish_blob sha256 RESOLVER cas kind digest expected verify token)
    (fun d' _ => kept d d') (fun d' _ => grows d d').
Proof.
  intros Hr. pose proof (re_locked _ _ _ _ Hr) as Hlock.
  assert (forall d1 ambiguous, grows d d1 -> hoare d1 (Cas.settle_blob sha256 RESOLVER cas kind digest expected verify token ambiguous)
    (fun d' _ => kept d d') (fun d' _ => grows d d')) as Hsettle.
  { intros d1 a Hg. eapply hoare_mono; [apply hoare_settle; by eapply locked_grows|..]; intros d2 ? _ ?; [by eapply grows_kept | chain]. }
  assert (forall (m : Os unit) d1, grows d d1 -> hoare d1 m (fun d' _ => kept d1 d') (fun d' _ => grows d1 d') ->
    hoare d1 (_ <- m; lift (Ok BlobPublished)) (fun d' _ => kept d d') (fun d' _ => grows d d')) as Hend.
  { intros m d1 Hg Hm. apply hoare_bind. eapply hoare_mono; [exact Hm|..].
    - intros d2 [] _ Hk. apply hoare_lift. by eapply grows_kept.
    - intros d2 e _ ?. chain. }
  apply hoare_bind, hoare_attempt. eapply hoare_mono; [by eapply hoare_rename | |].
  - intros d1 [] _ [Hg H].
    + apply Hend; [done | by apply hoare_confirm_blob].
    + subst d1. apply hoare_bind. eapply hoare_mono; [apply hoare_check | | by intros ? ? _ ->]. intros d1 [] _ ->.
      apply hoare_bind, hoare_attempt. eapply hoare_mono; [by eapply hoare_link | |].
      * intros d1 [] _ [Hg1 Hc]. apply Hend; [done|]. apply hoare_finish_link; [by eapply locked_grows | done].
      * intros d1 e _ Hg1. destruct e; by apply Hsettle.
  - intros d1 e _ Hg. destruct e; by apply Hsettle.
Qed.

Lemma hoare_reuse d fd :
  Disk.locked d = true -> is_Some (Disk.current d (blob l kind digest)) ->
  hoare d (Cas.reuse_blob sha256 cas kind digest expected verify fd) (fun d' _ => kept d d') (fun d' _ => grows d d').
Proof.
  intros Hlock Hc. apply hoare_bind. eapply hoare_mono; [apply hoare_verify_digest | | by intros ? ? _ ->].
  intros d1 [] _ [-> _]. apply hoare_bind. eapply hoare_mono; [apply Hverify | | by intros ? ? _ ->]. intros d1 [] _ [-> _].
  apply hoare_confirmed; [done|]. intros d1 Hk. apply hoare_bind.
  eapply hoare_mono; [apply hoare_cleanup; by eapply locked_grows; [apply Hk|] | | done].
  intros d2 [] _ Hg. apply hoare_bind. eapply hoare_mono; [apply hoare_confirm_staging|..].
  - intros d3 [] _ Hg3. apply hoare_lift. chain.
  - intros d3 e _ Hg3. chain.
Qed.

Lemma hoare_ensure d source page_size resume :
  Disk.locked d = true -> (forall n, page_size = Some n -> 0 < n) ->
  (kind = BlobKind.Manifest -> forall d' bytes, grows d d' -> sha256 bytes = digest -> lenN bytes = expected -> V bytes ->
     exists limits m, parse_with_limits sha256 from_slice bytes limits = Ok m /\ closed l d' m) ->
  hoare d (Cas.ensure_blob sha256 RESOLVER cas kind digest expected verify source page_size resume)
    (fun d' _ => kept d d') (fun d' _ => grows d d').
Proof.
  intros Hlock Hps Hman. apply hoare_bind, hoare_attempt. eapply hoare_mono; [apply hoare_open_digest | |].
  - intros d1 fd _ [Hs Hc]%leaf_current. pose proof (sees_grows cas _ _ Hs) as Hg.
    eapply hoare_mono; [apply hoare_reuse; [by eapply locked_grows | done]|..]; intros d2 ? _ ?; [by eapply grows_kept | chain].
  - intros d1 e _ Hs%(sees_grows cas). destruct e; try (by apply hoare_lift). apply hoare_bind.
    eapply hoare_mono; [apply hoare_obtain; by eapply locked_grows | | intros d2 ? _ ?; chain].
    intros d2 [token fd] Hd2 (Hg2 & Ht & Hst). assert (grows d d2) as Hg by chain. simpl in Ht, Hst.
    apply hoare_bind. eapply hoare_mono; [eapply hoare_copy; [exact Hl | apply Ht | apply Ht | done | done] | | intros d3 ? _ [? _]; chain].
    intros d3 [] Hd3 Hw. pose proof (staged_works _ _ _ _ _ _ _ Hd2 Hw Hst) as Hst3. assert (grows d d3) as Hg3 by (destruct Hw; chain).
    destruct (staged_bytes _ _ _ _ _ _ Hd3 Hst3) as [bytes Hb].
    apply hoare_bind. eapply hoare_mono; [apply hoare_verify_digest | | by intros ? ? _ ->]. intros d4 [] _ [-> Hv].
    destruct (Hv bytes Hb) as [Hlen Hsha]. apply hoare_bind.
    eapply hoare_mono; [apply Hverify | | by intros ? ? _ ->]. intros d4 [] _ [-> HV]. specialize (HV bytes Hb).
    destruct Hst3 as (Hlk & i & Hi & Hc). apply hoare_bind.
    eapply hoare_mono; [by apply hoare_sync_file | | by intros ? ? _ ->]. intros d4 [] _ ->.
    assert (grows d3 (Disk.set_synced i d3)) as Hgs by (by split).
    apply hoare_bind. eapply hoare_mono; [apply hoare_check | | intros ? ? _ ->; chain]. intros d4 [] _ ->.
    destruct Hb as (j & Hj & Hb). assert (j = i) as -> by congruence.
    eapply hoare_mono; [eapply (hoare_publish _ token i bytes) |..]; 
      [|intros d4 ? _ Hk; eapply grows_kept; [|exact Hk]; chain | intros d4 ? _ ?; etrans; [exact Hg3 | chain]].
    split; simpl; try done; [set_solver|]. intros Ek. apply Hman; [done | chain | done..].
Qed.
End ensure.
End blob.
End publish.
