(* ===== verification/StoreImportFacts.v ===== *)
(** Import on disk: a successful import leaves the manifest and everything that it
    refers to for good; a failed or interrupted one leaves a sound store. *)
From stdpp Require Import prelude gmap strings.
From S2P Require Import Prelude Format FormatManifest FormatDigest FormatSchema FormatArtifact.
From S2P Require Import FormatVerify Store StoreFacts StoreOs StoreFs StoreFsFacts StorePages.
From S2P Require Import StorePagesFacts StoreStage StoreStageFacts StoreWrite StoreLayout StoreCas.
From S2P Require Import StoreImport StoreDisk StoreDiskLogic StoreDiskFacts StoreDiskInv.
From S2P Require Import StoreCasFacts StoreCasPublish.
#[local] Open Scope N_scope.
#[local] Open Scope os_scope.
#[local] Opaque Digest.path_component.
#[local] Existing Instance grows_preorder.

(** * The objects of a manifest do not depend on the limits *)

Definition agree {E A B} (R : A -> B -> Prop) (m : result E A) (m' : result E B) : Prop :=
  forall a b, m = Ok a -> m' = Ok b -> R a b.
Lemma agree_bind {E A B C} (R : B -> C -> Prop) (m m' : result E A) (f : A -> result E B) (f' : A -> result E C) :
  agree eq m m' -> (forall a, agree R (f a) (f' a)) -> agree R (m ≫= f) (m' ≫= f').
Proof.
  intros Hm Hf a b Ha Hb. apply bind_ok_inv in Ha as (x & Hx & Ha), Hb as (y & Hy & Hb).
  rewrite (Hm x y Hx Hy) in Ha. by eapply Hf.
Qed.
Lemma agree_skip {E A A' B C} (R : B -> C -> Prop) (m : result E A) (m' : result E A') (f : A -> result E B)
    (f' : A' -> result E C) :
  (forall a a', agree R (f a) (f' a')) -> agree R (m ≫= f) (m' ≫= f').
Proof.
  intros Hf a b Ha Hb. apply bind_ok_inv in Ha as (x & Hx & Ha), Hb as (y & Hy & Hb). by eapply Hf.
Qed.
Lemma agree_refl {E A} (m : result E A) : agree eq m m.
Proof. intros a b. congruence. Qed.
Lemma agree_unit {E} (m m' : result E unit) : agree eq m m'.
Proof. by intros [] []. Qed.
Lemma agree_try_fold {E A B} (f f' : B -> A -> result E B) l acc :
  (forall b x, agree eq (f b x) (f' b x)) -> agree eq (try_fold f acc l) (try_fold f' acc l).
Proof. intros H. revert acc. induction l as [|x l IH]; intros acc; simpl; [apply agree_refl | by apply agree_bind]. Qed.

Ltac agree_tac :=
  repeat lazymatch goal with
  | |- agree eq ?m ?m => exact (agree_refl m)
  | |- @agree _ unit unit eq _ _ => apply agree_unit
  | |- agree _ (?m ≫= _) (?m ≫= _) => apply agree_bind; [exact (agree_refl m) | intros ?]
  | |- agree eq (_ ≫= _) (_ ≫= _) => apply agree_bind; [|intros ?]
  end.

Lemma parse_objects_agree v limits limits' : agree eq (parse_objects v limits) (parse_objects v limits').
Proof.
  unfold parse_objects. apply agree_bind; [apply agree_refl|]. intros values. apply agree_bind; [apply agree_unit|].
  intros _. apply agree_bind; [|intros; apply agree_refl]. apply agree_try_fold. intros s x. unfold parse_object. agree_tac.
Qed.

Section parse.
Context (sha256 : list N -> Digest) (from_slice : list N -> Token * option SyntaxError).

Abbreviation same_objects := (fun m m' => Manifest.objects m = Manifest.objects m').

Lemma schema_agree document limits limits' :
  agree same_objects (validate_schema document limits) (validate_schema document limits').
Proof.
  unfold validate_schema. agree_tac. apply agree_bind; [apply parse_objects_agree|]. intros objects. agree_tac.
  apply agree_skip. by intros ? ? ? ? [= <-] [= <-].
Qed.

Lemma parsed_objects bytes limits limits' m m' :
  parse_with_limits sha256 from_slice bytes limits = Ok m -> parse_with_limits sha256 from_slice bytes limits' = Ok m' ->
  Manifest.objects m = Manifest.objects m'.
Proof.
  revert m m'. change (agree same_objects (parse_with_limits sha256 from_slice bytes limits)
    (parse_with_limits sha256 from_slice bytes limits')). unfold parse_with_limits.
  apply agree_skip. intros l l'. apply agree_skip. intros _ _. agree_tac. intros m m' Ha Hb.
  apply bind_ok_inv in Ha as (x & Hx & Ha), Hb as (y & Hy & Hb). pose proof (schema_agree _ _ _ _ _ Hx Hy).
  repeat ok_step Ha. repeat ok_step Hb. injection Ha as <-. by injection Hb as <-.
Qed.

Lemma expected_id_limits bytes limits id m :
  parse_with_expected_id sha256 from_slice bytes limits id = Ok m ->
  parse_with_limits sha256 from_slice bytes limits = Ok m.
Proof. unfold parse_with_expected_id. intros H. ok_step H. ok_step H. injection H as <-. done. Qed.
End parse.

Lemma path_component_inj a b :
  a < digest_max -> b < digest_max -> Digest.path_component a = Digest.path_component b -> a = b.
Proof.
  intros Ha Hb E. pose proof (from_to_string a Ha) as H1. pose proof (from_to_string b Hb) as H2.
  unfold Digest.to_string in *. rewrite E in H1. congruence.
Qed.

(** * Import *)

Section import.
Context (sha256 : list N -> Digest) (from_slice : list N -> Token * option SyntaxError).
Context (RESOLVER : StoreError + Resolver) (cas : Cas.t).
Abbreviation l := (Cas.layout cas).
Context (Hl : layout_ok l).
Abbreviation store_ok := (store_ok sha256 from_slice l).
Abbreviation hoare := (hoare sha256 from_slice l).
Abbreviation grows := (grows cas).
Abbreviation kept := (kept cas).

(** Steps whose result does not matter. *)
Lemma hoare_sees {A} d d0 (m : Os A) :
  grows d0 d -> hoare d m (fun d' _ => sees d d') (fun d' _ => sees d d') ->
  hoare d m (fun d' _ => grows d0 d') (fun d' _ => grows d0 d').
Proof.
  intros Hg H. eapply hoare_mono; [exact H|..]; intros d' ? _ Hs; (etrans; [exact Hg | by apply sees_grows]).
Qed.

Lemma safe_charge context s e : safe (Layout.charge context s e).
Proof. unfold Layout.charge. destruct s. case_match; safe_tac. Qed.

Lemma hoare_usage d : hoare d (Layout.usage l) (fun d' _ => sees d d') (fun d' _ => sees d d').
Proof.
  apply hoare_bind. eapply hoare_mono.
  - apply (hoare_for_each _ _ _ _ _ _ (fun d' _ _ => sees d d') d (fun d' _ => sees d d')); [done|].
    intros d1 dn kind rest state _ Hs. apply hoare_bind. eapply hoare_mono; [apply hoare_digest_entries | |].
    + intros d2 entries _ [Hs2 _]. apply hoare_lift. assert (sees d d2) by chain.
      pose proof (safe_try_fold (Layout.charge "summing final CAS bytes") state entries (fun b x => safe_charge _ b x)).
      by destruct (try_fold _ state entries).
    + intros d2 e _ ?. chain.
  - intros d1 [charged final_bytes] _ Hs. apply hoare_bind. eapply hoare_mono; [apply hoare_stage_entries | |].
    2: { intros d2 e _ ?. chain. }
    intros d2 entries _ [Hs2 _]. assert (sees d d2) by chain. apply hoare_bind, hoare_lift.
    pose proof (safe_try_fold (Layout.charge "summing staged CAS bytes") (charged, 0) entries (fun b x => safe_charge _ b x)).
    destruct (try_fold _ (charged, 0) entries) as [[c s]|e|]; [|done|done]. apply hoare_bind.
    eapply (hoare_mono _ _ _ _ _ (fun d' _ => d' = d2) _ (fun d' _ => d' = d2)); [| | by intros ? ? _ ->].
    + apply hoare_bind, hoare_quiet_call. intros e r E. destruct e; try done. case_match; [|done]. injection E as <-.
      split; [done|]. intros _. destruct answer as [e|[f_bavail f_frsize]]; apply hoare_bind, hoare_lift; [done|].
      apply hoare_bind, hoare_lift. destruct (checked_mul _ _ _); [|done]. by apply hoare_lift.
    + intros d3 [available unit] _ ->. apply hoare_bind, hoare_lift. unfold DiskUsage.checked_total_bytes.
      destruct (checked_add _ _ _); [|done]. by apply hoare_lift.
  - done.
Qed.

Lemma hoare_from_format {A B} d (m : result FormatError.t A) (P : A -> Prop) (f : A -> Os B) Q (X : Disk.t -> StoreError -> Prop) :
  post m P (fun _ => True) -> (forall e, X d e) -> (forall a, m = Ok a -> P a -> hoare d (f a) Q X) ->
  hoare d (os_bind (lift (from_format m)) f) Q X.
Proof. intros Hm HX Hf. apply hoare_bind, hoare_lift. destruct m; simpl in *; [by apply Hf | apply HX | done]. Qed.

Lemma hoare_same_owner d root fd kind :
  hoare d (require_same_filesystem_owner root fd kind) (fun d' _ => d' = d) (fun d' _ => d' = d).
Proof.
  apply hoare_bind. eapply (hoare_mono _ _ _ _ _ (fun d' _ => d' = d) _ (fun d' _ => d' = d)); [| | done].
  - apply hoare_fstat; [done|]. intros st _. by apply hoare_lift.
  - intros d1 i _ ->. apply hoare_guard; [done|]. intros _. apply hoare_guard; [done|]. intros _. by apply hoare_lift.
Qed.

Lemma hoare_source_leaf d dir name kind n root :
  hoare d (fd <- open_regular_leaf RESOLVER dir name kind n; _ <- require_same_filesystem_owner root fd kind; lift (Ok fd))
    (fun d' _ => sees d d') (fun d' _ => sees d d').
Proof.
  apply hoare_bind. eapply hoare_mono; [apply hoare_any_leaf | | done]. intros d1 fd _ Hs. apply hoare_bind.
  eapply hoare_mono; [apply hoare_same_owner | | by intros ? ? _ ->]. intros d2 i _ ->. by apply hoare_lift.
Qed.

Lemma hoare_read_table d record :
  hoare d (Cas.read_table sha256 RESOLVER cas record) (fun d' _ => sees d d') (fun d' _ => sees d d').
Proof.
  apply hoare_bind. eapply hoare_mono; [apply hoare_open_digest | | done]. intros d1 fd _ [Hs _]. apply hoare_bind.
  eapply hoare_mono; [apply hoare_read_exact | | by intros ? ? _ ->]. intros d2 bytes _ (-> & _). apply hoare_lift.
  eapply post_mono; [apply post_from_format, parse_verified_spec | done..].
Qed.

(** ** Bounds from the manifest *)

Lemma blob_bounds limits m r :
  limits_ok limits -> manifest_ok limits m -> r ∈ Manifest.objects m ->
  (ObjectRecord.digest r < digest_max /\ 0 < ObjectRecord.length r <= u64_max)
  /\ (ObjectRecord.page_table r < digest_max /\ 0 < ObjectRecord.page_table_length r <= u64_max)
  /\ 0 < ObjectRecord.page_size r.
Proof.
  intros [] Hm Hr. pose proof (proj1 (Forall_forall _ _) (os_each _ _ (ma_objects _ _ Hm)) r Hr) as Ho.
  pose proof (page_size_positive _ _ Ho). destruct Ho as [H1 H2 H3 _ _ H5 H6].
  assert (FORMAT_OBJECT_BYTES <= u64_max /\ FORMAT_PAGE_TABLE_BYTES <= u64_max) by (by vm_compute). lia.
Qed.

(** ** The blobs *)

Definition sum_counts (counts : N * N * N) : N := counts.1.1 + counts.1.2.

Lemma account_spec p n counts :
  post (account_publication p n counts) (fun counts' => sum_counts counts' = sum_counts counts + 1) (fun _ => True).
Proof.
  destruct counts as [[a b] c]. unfold account_publication, sum_counts.
  destruct p; repeat (apply post_bind, post_checked_add; [intros _|done]); simpl; lia.
Qed.

Lemma hoare_import_table d source resumes state record :
  Disk.locked d = true ->
  ObjectRecord.page_table record < digest_max -> 0 < ObjectRecord.page_table_length record <= u64_max ->
  hoare d (CasImport.import_table sha256 RESOLVER cas source resumes state record)
    (fun d' state' => kept BlobKind.PageTable (ObjectRecord.page_table record) d d'
       /\ sum_counts state'.1 = sum_counts state.1 + 1) (fun d' _ => grows d d').
Proof.
  intros Hlock Hd Hn. destruct state as [counts tables]. apply hoare_bind.
  eapply hoare_mono; [apply hoare_check | | by intros ? ? _ ->]. intros d1 [] _ ->. apply hoare_bind.
  eapply hoare_mono; [apply hoare_source_leaf | | intros; by apply sees_grows]. intros d1 fd _ Hs%(sees_grows cas).
  apply hoare_bind. eapply hoare_mono.
  - apply (hoare_ensure _ _ _ _ Hl _ _ _ Hd Hn _ (fun _ => True)); [| by eapply locked_grows | done | done].
    intros d2 fd2. apply hoare_bind. eapply hoare_mono; [apply hoare_read_exact | | done]. intros d3 bytes _ (-> & _).
    eapply hoare_from_format; [apply parse_verified_spec | done|]. intros t _ _. by apply hoare_lift.
  - intros d2 p _ Hk. pose proof (grows_kept _ _ _ _ _ _ Hs Hk) as Hk2. apply hoare_bind, hoare_lift.
    eapply post_mono; [apply account_spec | | intros; apply Hk2]. intros counts' Hc. apply hoare_bind.
    eapply hoare_mono; [apply hoare_read_table | |]; intros d3 x _ Hs3%(sees_grows cas).
    + apply hoare_lift. split; [by eapply kept_grows | done].
    + etrans; [apply Hk2 | done].
  - intros d2 e _ ?. chain.
Qed.

Lemma hoare_import_object d source resumes tables counts record :
  Disk.locked d = true ->
  ObjectRecord.digest record < digest_max -> 0 < ObjectRecord.length record <= u64_max -> 0 < ObjectRecord.page_size record ->
  hoare d (CasImport.import_object sha256 RESOLVER cas source resumes tables counts record)
    (fun d' counts' => kept BlobKind.Object (ObjectRecord.digest record) d d'
       /\ sum_counts counts' = sum_counts counts + 1) (fun d' _ => grows d d').
Proof.
  intros Hlock Hd Hn Hp. apply hoare_bind. eapply hoare_mono; [apply hoare_check | | by intros ? ? _ ->].
  intros d1 [] _ ->. apply hoare_bind, hoare_lift. destruct (tables !! _) as [table|]; [|done]. simpl. apply hoare_bind.
  eapply hoare_mono; [apply hoare_source_leaf | | intros; by apply sees_grows]. intros d1 fd _ Hs%(sees_grows cas).
  apply hoare_bind. eapply hoare_mono.
  - apply (hoare_ensure _ _ _ _ Hl _ _ _ Hd Hn _ (fun _ => True)); [| by eapply locked_grows | by intros ? [= <-] | done].
    intros d2 fd2. eapply hoare_mono; [apply hoare_verify_object | by intros ? ? _ -> | done].
  - intros d2 p _ Hk. pose proof (grows_kept _ _ _ _ _ _ Hs Hk) as Hk2. apply hoare_lift.
    eapply post_mono; [apply account_spec | | intros; apply Hk2]. by intros.
  - intros d2 e _ ?. chain.
Qed.

Lemma closed_grows d d' m : closed l d m -> grows d d' -> closed l d' m.
Proof. intros Hc Hg. eapply closed_mono; [exact Hc|]. intros kind name _ Hm. by apply (gr_must _ _ _ Hg). Qed.

(** ** Transactions *)

Lemma store_ok_locked d b : store_ok d -> store_ok (Disk.set_locked b d).
Proof. intros H. eapply store_ok_frame; try done. simpl. apply H. Qed.

Lemma hoare_unlock d : hoare d (Layout.unlock l) (fun d' _ => exists b, d' = Disk.set_locked b d) (fun _ _ => False).
Proof.
  apply hoare_ignore, hoare_call. intros e r Hd E. destruct e; try done. case_bool_decide as Ha; [|done].
  destruct Ha as [-> ->]. injection E as <-. split; [done|]. intros d0 d' -> Hs.
  assert (exists b, d' = Disk.set_locked b d) as [b ->].
  { destruct answer; simpl in Hs; [|rewrite N.eqb_refl in Hs]; apply list_elem_of_singleton in Hs as ->;
      [exists (Disk.locked d); by destruct d | by eexists]. }
  split; [by apply store_ok_locked | simpl; eauto].
Qed.

Lemma hoare_mutex {A} d operation (f : MutexAnswer -> Os A) Q X :
  (forall a, hoare d (f a) Q X) -> hoare d (os_bind (mutex operation) f) Q X.
Proof.
  intros Hf. apply hoare_bind, hoare_quiet_call. intros e r E. destruct e; try done. case_bool_decide; [|done].
  injection E as <-. split; [done|]. intros _. apply Hf.
Qed.

Lemma hoare_local_unlock d : hoare d Cas.local_unlock (fun d' _ => d' = d) (fun _ _ => False).
Proof.
  apply hoare_ignore. apply hoare_quiet_call. intros e r E. destruct e; try done. case_bool_decide; [|done].
  injection E as <-. by split.
Qed.

Lemma hoare_local_lock d : hoare d Cas.local_lock_with_control (fun d' _ => d' = d) (fun d' _ => d' = d).
Proof.
  apply (hoare_iterate _ _ _ _ (fun d' _ => d' = d)); [done|]. intros d1 [] ->. apply hoare_bind.
  eapply hoare_mono; [apply hoare_check | | done]. intros d1 [] _ ->. apply hoare_mutex. intros a. apply hoare_lift. by destruct a.
Qed.

(** After the lock the store is the one that its last holder left. *)
Definition acquired (d d' : Disk.t) : Prop := Disk.locked d' = true /\ Disk.used d' = Disk.used d.

Lemma hoare_lock d : hoare d (Layout.lock_with_control l) (fun d' _ => acquired d d') (fun d' _ => True).
Proof.
  apply (hoare_iterate _ _ _ (Layout.lock_round l) (fun d' _ => d' = d)); [done|]. intros d1 [] ->. apply hoare_bind.
  eapply hoare_mono; [apply hoare_check | | done]. intros d1 [] _ ->. apply hoare_bind, hoare_call.
  intros e r Hd E. destruct e; try done. case_bool_decide as Ha; [|done]. destruct Ha as [-> ->]. injection E as <-.
  split; [done|]. intros d0 d' Hh Hs. destruct answer as [e|[]].
  - simpl in Hh. subst d0. simpl in Hs. apply list_elem_of_singleton in Hs as ->. split; [done|]. apply hoare_lift. by destruct e.
  - simpl in Hh, Hs. rewrite N.eqb_refl in Hh, Hs. destruct Hh as (Hok & _ & Hu & _).
    apply list_elem_of_singleton in Hs as ->. split; [by apply store_ok_locked|]. by apply hoare_lift.
Qed.

Lemma hoare_transaction {A} d (body : Os A) (Q : Disk.t -> A -> Prop) :
  (forall d a b, Q d a -> Q (Disk.set_locked b d) a) ->
  (forall d1, acquired d d1 -> hoare d1 body Q (fun _ _ => True)) ->
  hoare d (Cas.transaction_with_control cas body) Q (fun _ _ => True).
Proof.
  intros HQ Hbody. apply hoare_bind. eapply hoare_mono; [apply hoare_local_lock | | done]. intros d1 [] _ ->.
  apply hoare_finally.
  assert (forall d' (P : Disk.t -> Prop), P d' -> hoare d' Cas.local_unlock (fun d2 _ => P d2) (fun d2 _ => P d2)) as Hul.
  { intros d' P HP. eapply hoare_mono; [apply hoare_local_unlock | by intros ? ? _ -> | done]. }
  apply hoare_bind. eapply hoare_mono; [apply hoare_lock | |].
  2: { intros d1 e _ _. by apply (Hul d1 (fun _ => True)). }
  intros d1 [] _ Hacq. apply hoare_finally. eapply hoare_mono; [by apply Hbody | |].
  - intros d2 a _ Ha. eapply hoare_mono; [apply hoare_unlock | | done]. intros d3 [] _ [b ->]. by apply Hul, HQ.
  - intros d2 e _ _. eapply hoare_mono; [apply hoare_unlock | | done]. intros d3 [] _ _. by apply (Hul d3 (fun _ => True)).
Qed.
End import.
