(* ===== verification/StoreImportCommit.v ===== *)
(** An import that succeeds has committed the artifact: its manifest and everything
    that the manifest refers to are there for good. *)
From stdpp Require Import prelude gmap strings.
From S2P Require Import Prelude Format FormatManifest FormatDigest FormatSchema FormatArtifact.
From S2P Require Import FormatVerify Store StoreFacts StoreOs StoreFs StoreFsFacts StorePages.
From S2P Require Import StorePagesFacts StoreStage StoreStageFacts StoreWrite StoreLayout StoreCas.
From S2P Require Import StoreImport StoreDisk StoreDiskLogic StoreDiskFacts StoreDiskInv.
From S2P Require Import StoreCasFacts StoreCasPublish StoreImportFacts.
#[local] Open Scope N_scope.
#[local] Open Scope os_scope.
#[local] Opaque Digest.path_component.
#[local] Existing Instance grows_preorder.

Section import.
Context (sha256 : list N -> Digest) (from_slice : list N -> Token * option SyntaxError).
Context (RESOLVER : StoreError + Resolver) (cas : Cas.t).
Abbreviation l := (Cas.layout cas).
Context (Hl : layout_ok l).
Abbreviation store_ok := (store_ok sha256 from_slice l).
Abbreviation hoare := (hoare sha256 from_slice l).
Abbreviation grows := (grows cas).
Abbreviation kept := (kept cas).

(** ** Plans *)

Lemma safe_validate_resume stages lengths m token : safe (CasImport.validate_resume stages lengths m token).
Proof.
  unfold CasImport.validate_resume. apply safe_bind; [safe_tac|]. intros n. apply safe_bind.
  - unfold ResumeToken.validate_for. apply safe_bind; [apply Token.safe_validate_name|]. intros []. safe_tac.
  - intros []. safe_tac.
Qed.

Lemma hoare_validate_resumes d manifest n resumes :
  hoare d (CasImport.validate_resumes cas manifest n resumes) (fun d' _ => sees d d') (fun d' _ => sees d d').
Proof.
  apply hoare_bind. eapply hoare_mono; [apply hoare_stage_entries | | done]. intros d1 entries _ [Hs _]. apply hoare_lift.
  eapply post_mono; [apply post_any, safe_try_fold; intros; apply safe_validate_resume | done..].
Qed.

Lemma safe_round_up u n : safe (DiskUsage.round_up u n).
Proof. unfold DiskUsage.round_up. case_match; safe_tac. Qed.

Lemma hoare_plan_blob d usage stages resumes total blob :
  hoare d (CasImport.plan_blob RESOLVER cas usage stages resumes total blob) (fun d' _ => sees d d') (fun d' _ => sees d d').
Proof.
  destruct blob as [[kind digest] n]. apply hoare_bind, hoare_attempt. eapply hoare_mono; [apply hoare_open_digest | |].
  - intros d1 fd _ [Hs _]. by apply hoare_lift.
  - intros d1 e _ Hs. destruct e; apply hoare_lift; try done.
    eapply post_mono; [apply post_any, safe_bind; [apply safe_round_up | intros ?; safe_tac] | done..].
Qed.

Lemma safe_preflight b u n : safe (DiskBudget.preflight b u n).
Proof. unfold DiskBudget.preflight, DiskUsage.checked_total_bytes. safe_tac. Qed.

Lemma hoare_preflight d manifest n resumes :
  hoare d (CasImport.preflight_import RESOLVER cas manifest n resumes) (fun d' _ => sees d d') (fun d' _ => sees d d').
Proof.
  apply hoare_bind. eapply hoare_mono; [apply hoare_usage | | done]. intros d1 usage _ Hs1. apply hoare_bind.
  eapply hoare_mono; [apply hoare_stage_entries | | intros d2 e _ ?; chain]. intros d2 entries _ [Hs2 _].
  assert (sees d d2) as Hs by chain. apply hoare_bind. eapply hoare_mono.
  - apply (hoare_for_each _ _ _ _ _ _ (fun d' _ _ => sees d d') d2 (fun d' _ => sees d d')); [done|].
    intros d3 dn blob rest total _ Hs3. eapply hoare_mono; [apply hoare_plan_blob|..]; intros d4 x _ ?; chain.
  - intros d3 total _ Hs3. apply hoare_lift. eapply post_mono; [apply post_any, safe_preflight | done..].
  - done.
Qed.

(** ** A committed artifact *)

Lemma hoare_references d manifest :
  hoare d (Cas.verify_manifest_references sha256 RESOLVER cas manifest) (fun d' _ => sees d d') (fun d' _ => sees d d').
Proof.
  eapply hoare_mono; [apply (hoare_for_each _ _ _ _ _ _ (fun d' _ _ => sees d d') d (fun d' _ => sees d d')); [done|] | done | done].
  intros d1 dn record rest [] _ Hs. apply hoare_bind. eapply hoare_mono; [apply hoare_check | | by intros ? ? _ ->].
  intros d2 [] _ ->. apply hoare_bind. eapply hoare_mono; [apply hoare_read_table | | intros d2 e _ ?; chain].
  intros d2 table _ Hs2. assert (sees d d2) by chain. apply hoare_bind.
  eapply hoare_mono; [apply hoare_open_digest | | intros d3 e _ ?; chain]. intros d3 fd _ [Hs3 _]. assert (sees d d3) by chain.
  eapply hoare_mono; [apply hoare_verify_object|..]; by intros ? ? _ ->.
Qed.

Lemma hoare_verify_committed d manifest fd :
  hoare d (Cas.verify_committed sha256 RESOLVER cas manifest fd)
    (fun d' n => sees d d' /\ n = 2 * lenN (Manifest.objects manifest) + 1) (fun d' _ => sees d d').
Proof.
  apply hoare_bind. eapply hoare_mono; [apply hoare_verify_digest | | by intros ? ? _ ->]. intros d1 [] _ [-> _].
  apply hoare_bind. eapply hoare_mono; [apply hoare_references | | done]. intros d1 [] _ Hs. apply hoare_lift.
  destruct (checked_mul _ _ _) as [k|] eqn:Em; [|done]. apply checked_mul_Some in Em as [-> _]. cbn [mbind option_bind].
  destruct (checked_add _ _ _) as [k|] eqn:Ea; [|done]. apply checked_add_Some in Ea as [-> _]. split; [done | lia].
Qed.

Lemma hoare_confirm_committed d digest :
  is_Some (Disk.current d (blob l BlobKind.Manifest digest)) ->
  hoare d (Cas.confirm_committed_durability cas) (fun d' _ => kept BlobKind.Manifest digest d d') (fun d' _ => grows d d').
Proof.
  intros Hc.
  assert (forall d kind e, hoare d (or_else (Cas.sync_digest_dir cas kind) e)
    (fun d' _ => d' = Disk.sync_directory (Layout.digest_dir l kind) d) (fun d' _ => d' = d)) as Hsync.
  { intros. apply hoare_or_else, hoare_sync_dir, digest_tracked. }
  apply hoare_bind. eapply hoare_mono; [apply Hsync | | by intros ? ? _ ->]. intros d1 [] _ ->. set (d1 := Disk.sync_directory _ d).
  assert (grows d d1) as Hg1 by apply grows_sync.
  apply hoare_bind. eapply hoare_mono; [apply Hsync | | by intros ? ? _ ->]. intros d2 [] _ ->. set (d2 := Disk.sync_directory _ d1).
  assert (grows d d2) as Hg2 by (etrans; [exact Hg1 | apply grows_sync]).
  apply hoare_bind. eapply hoare_mono; [exact (hoare_confirm_staging sha256 from_slice cas d2 BlobKind.Manifest) | | intros d3 e _ ?; chain].
  intros d3 [] _ Hg3. assert (grows d d3) as Hg by chain.
  eapply hoare_mono; [apply Hsync | | by intros ? ? _ ->]. intros d4 [] _ ->. split.
  - etrans; [exact Hg | apply grows_sync].
  - destruct (gr_present _ _ _ Hg _ _ Hc) as [i Hi]. by eapply must_synced.
Qed.

(** ** The manifest *)

Lemma hoare_duplicate d fd : hoare d (duplicate fd) (fun d' _ => sees d d') (fun d' _ => sees d d').
Proof.
  apply hoare_bind, hoare_call. intros e r Hd E. destruct e; try done.
  destruct (N.eqb_spec fd0 fd) as [->|]; [|done]. injection E as <-. split; [done|]. intros d0 d' -> Hs. simpl in Hs.
  destruct answer as [e|fd'].
  - apply list_elem_of_singleton in Hs as ->. split; [done|]. by apply hoare_lift.
  - destruct (Disk.fresh l d fd'); [|set_solver]. apply list_elem_of_singleton in Hs as ->.
    split; [by apply store_ok_use | by apply hoare_lift, sees_use].
Qed.

Lemma hoare_read_bounded d fd maximum kind :
  hoare d (read_bounded_at fd maximum kind)
    (fun d' bytes => d' = d /\ lenN bytes <= maximum /\ forall file, reads d fd file -> bytes = file) (fun d' _ => d' = d).
Proof.
  apply hoare_bind. eapply hoare_mono; [apply hoare_metadata | | done]. intros d1 n _ [-> Hn].
  apply hoare_guard; [done|]. intros Hmax%N.ltb_ge. apply hoare_bind. eapply hoare_mono; [apply hoare_read_exact | | done].
  intros d1 bytes _ (-> & Hlen & Hb). apply hoare_bind. eapply hoare_mono; [apply hoare_metadata | | done].
  intros d1 n' _ [-> _]. apply hoare_guard; [done|]. intros _. apply hoare_lift. split; [done|]. split; [lia|].
  intros file Hf. rewrite (Hb file Hf), (Hn file Hf). unfold lenN. rewrite Nat2N.id. by apply take_ge.
Qed.
End import.

(** ** The import *)

(** The digest has at most one preimage. *)
Definition collision_free (sha256 : list N -> Digest) (digest : Digest) : Prop :=
  forall bytes bytes', sha256 bytes = digest -> sha256 bytes' = digest -> bytes = bytes'.
(** Digests are 256-bit values. *)
Definition digests_fit (sha256 : list N -> Digest) : Prop := forall bytes, sha256 bytes < digest_max.

(** The artifact is in the store for good: its manifest, and all it refers to. *)
Definition committed (l : Layout.t) (d : Disk.t) (id : Digest) (m : Manifest.t) : Prop :=
  must d (blob l BlobKind.Manifest id) /\ closed l d m.

Section commit.
Context (sha256 : list N -> Digest) (from_slice : list N -> Token * option SyntaxError).
Context (RESOLVER : StoreError + Resolver) (cas : Cas.t).
Abbreviation l := (Cas.layout cas).
Context (Hl : layout_ok l).
Abbreviation store_ok := (store_ok sha256 from_slice l).
Abbreviation hoare := (hoare sha256 from_slice l).
Abbreviation grows := (grows cas).
Abbreviation kept := (kept cas).

Context (expected_id : Digest) (Hfit : digests_fit sha256) (Hfree : collision_free sha256 expected_id).
Context (bytes : list N) (limits : Limits.t) (manifest : Manifest.t).
Context (Hparse : parse_with_expected_id sha256 from_slice bytes limits expected_id = Ok manifest).

Lemma parsed : parsed_manifest sha256 bytes limits manifest /\ sha256 bytes = expected_id.
Proof. pose proof (parse_with_expected_id_spec sha256 from_slice bytes limits expected_id) as H. by rewrite Hparse in H. Qed.

Lemma manifest_length : 0 < lenN bytes <= u64_max.
Proof.
  destruct parsed as [Hm _]. destruct (pm_document _ _ _ _ Hm) as (document & _ & Hd).
  assert (FORMAT_MANIFEST_BYTES <= u64_max) by (by vm_compute). pose proof (pm_size _ _ _ _ Hm).
  pose proof (li_manifest _ (pm_limits _ _ _ _ Hm)). split; [|lia]. rewrite <- Hd. unfold canonical_bytes, lenN.
  rewrite length_app. simpl. lia.
Qed.

(** Any manifest that the store has under this digest is this one. *)
Lemma closed_manifest d : store_ok d -> is_Some (Disk.current d (blob l BlobKind.Manifest expected_id)) -> closed l d manifest.
Proof.
  intros Hd [i Hi%current_may]. destruct (so_digests _ _ _ _ Hd BlobKind.Manifest _ _ Hi) as (_ & b & Hb & Hn).
  destruct (so_manifests _ _ _ _ Hd _ _ Hi) as (_ & b' & limits' & m' & Hb' & Hp & Hc).
  assert (b' = b) as -> by congruence. destruct parsed as [_ Hid].
  apply path_component_inj in Hn; [|rewrite <- Hid; apply Hfit | apply Hfit].
  assert (b = bytes) as -> by (by apply Hfree).
  intros r Hr. apply Hc. by rewrite (parsed_objects _ _ _ _ _ _ _ Hp (expected_id_limits _ _ _ _ _ _ Hparse)).
Qed.

Lemma hoare_import_manifest d source resumes counts :
  Disk.locked d = true -> closed l d manifest ->
  hoare d (CasImport.import_manifest sha256 from_slice RESOLVER cas source expected_id limits (lenN bytes) resumes counts)
    (fun d' counts' => kept BlobKind.Manifest expected_id d d' /\ sum_counts counts' = sum_counts counts + 1)
    (fun d' _ => grows d d').
Proof.
  intros Hlock Hcl. apply hoare_bind. eapply hoare_mono; [apply hoare_check | | by intros ? ? _ ->]. intros d1 [] _ ->.
  apply hoare_bind. eapply hoare_mono; [by apply hoare_duplicate | | intros; by apply sees_grows].
  intros d1 fd _ Hs%(sees_grows cas). apply hoare_bind. eapply hoare_mono.
  - assert (expected_id < digest_max) as Hid by (destruct parsed as [_ <-]; apply Hfit).
    apply (hoare_ensure _ _ _ _ Hl _ _ _ Hid manifest_length _ (fun _ => True)); [| by eapply locked_grows | done |].
    + intros d2 fd2. apply hoare_bind. eapply hoare_mono; [apply hoare_read_exact | | done]. intros d3 b _ (-> & _).
      eapply hoare_from_format; [apply parse_with_expected_id_spec | done|]. intros t _ _. by apply hoare_lift.
    + intros _ d2 b Hg Hb _ _. assert (b = bytes) as ->.
      { destruct parsed as [_ Hsha]. by apply Hfree. }
      exists limits, manifest. split; [by eapply expected_id_limits|].
      eapply closed_grows; [exact Hcl|]. chain.
  - intros d2 p _ Hk. pose proof (grows_kept _ _ _ _ _ _ Hs Hk) as Hk2. apply hoare_lift.
    eapply post_mono; [apply account_spec | | intros; apply Hk2]. by intros.
  - intros d2 e _ ?. chain.
Qed.

(** All blobs of one kind. *)
Lemma hoare_import_each {B} d (body : B -> ObjectRecord.t -> Os B) (count : B -> N) kind (key : ObjectRecord.t -> Digest) acc xs :
  Disk.locked d = true ->
  (forall d r b, Disk.locked d = true -> r ∈ xs ->
     hoare d (body b r) (fun d' b' => kept kind (key r) d d' /\ count b' = count b + 1) (fun d' _ => grows d d')) ->
  hoare d (for_each body acc xs)
    (fun d' b => grows d d' /\ (forall r, r ∈ xs -> must d' (blob l kind (key r))) /\ count b = count acc + lenN xs)
    (fun d' _ => grows d d').
Proof.
  intros Hlock Hbody.
  apply (hoare_for_each _ _ _ _ _ _ (fun d' dn b => grows d d' /\ (forall r, r ∈ dn -> must d' (blob l kind (key r)))
    /\ count b = count acc + lenN dn)).
  { split; [done|]. split; [set_solver|]. unfold lenN. simpl. lia. }
  intros d1 dn r rest b Hxs (Hg & Hm & Hcount).
  eapply hoare_mono; [apply Hbody; [by eapply locked_grows | rewrite Hxs; set_solver] | | intros d2 e _ ?; chain].
  intros d2 b' _ [[Hg2 Hmust] Hc]. split; [chain|]. split.
  - intros r' [Hr'|Hr']%elem_of_app.
    + specialize (Hm r' Hr'). by apply (gr_must _ _ _ Hg2).
    + apply list_elem_of_singleton in Hr' as ->. exact Hmust.
  - rewrite Hc, Hcount. unfold lenN. rewrite length_app. simpl. lia.
Qed.

(** The receipt counts every blob once. *)
Definition receipt_ok (r : ImportReceipt.t) : Prop :=
  ImportReceipt.artifact_id r = expected_id
  /\ ImportReceipt.published_blobs r + ImportReceipt.reused_blobs r = 2 * lenN (Manifest.objects manifest) + 1.

Lemma hoare_import_new d source resumes :
  Disk.locked d = true ->
  hoare d
    (resumes <- CasImport.validate_resumes cas manifest (lenN bytes) resumes;
     _ <- CasImport.preflight_import RESOLVER cas manifest (lenN bytes) resumes;
     '(counts, page_tables) <- for_each (CasImport.import_table sha256 RESOLVER cas source resumes) (0, 0, 0, ∅)
                                 (Manifest.objects manifest);
     counts <- for_each (CasImport.import_object sha256 RESOLVER cas source resumes page_tables) counts
                 (Manifest.objects manifest);
     '(published_blobs, reused_blobs, published_bytes) <-
       CasImport.import_manifest sha256 from_slice RESOLVER cas source expected_id limits (lenN bytes) resumes counts;
     lift (Ok (ImportReceipt.mk expected_id published_blobs reused_blobs published_bytes)))
    (fun d' r => committed l d' expected_id manifest /\ receipt_ok r) (fun d' _ => True).
Proof.
  intros Hlock. destruct parsed as [Hm _].
  apply hoare_bind. eapply hoare_mono; [apply hoare_validate_resumes | | done]. intros d1 stages _ Hs1. apply hoare_bind.
  eapply hoare_mono; [apply hoare_preflight | | done]. intros d2 [] _ Hs2.
  assert (Disk.locked d2 = true) as Hlock2 by (by rewrite (se_locked _ _ Hs2), (se_locked _ _ Hs1)).
  pose proof (fun r Hr => blob_bounds _ _ r (pm_limits _ _ _ _ Hm) (pm_ok _ _ _ _ Hm) Hr) as Hb.
  apply hoare_bind. eapply hoare_mono; [apply (hoare_import_each d2 _ (fun s => sum_counts s.1) BlobKind.PageTable ObjectRecord.page_table) | | done].
  { done. }
  { intros d3 r b Hlock3 Hr. destruct (Hb r Hr) as (_ & [] & _). by apply hoare_import_table. }
  intros d3 [counts tables] _ (Hg3 & Ht & Hc3). assert (Disk.locked d3 = true) as Hlock3 by (by eapply locked_grows).
  apply hoare_bind. eapply hoare_mono; [apply (hoare_import_each d3 _ sum_counts BlobKind.Object ObjectRecord.digest) | | done].
  { done. }
  { intros d4 r b Hlock4 Hr. destruct (Hb r Hr) as ([] & _ & ?). by apply hoare_import_object. }
  intros d4 counts' _ (Hg4 & Ho & Hc4). assert (Disk.locked d4 = true) as Hlock4 by (by eapply locked_grows).
  assert (closed l d4 manifest) as Hcl.
  { intros r Hr. split; [apply (gr_must _ _ _ Hg4); exact (Ht r Hr) | exact (Ho r Hr)]. }
  apply hoare_bind. eapply hoare_mono; [by apply hoare_import_manifest | | done].
  intros d5 [[p u] n] _ [[Hg5 Hmust] Hc5]. apply hoare_lift. split; [split; [exact Hmust | by eapply closed_grows]|].
  split; [done|]. simpl. unfold sum_counts in *. simpl in *. lia.
Qed.

Lemma hoare_import_locked d source resumes :
  Disk.locked d = true ->
  hoare d (CasImport.import_locked sha256 from_slice RESOLVER cas source expected_id limits manifest (lenN bytes) resumes)
    (fun d' r => committed l d' expected_id manifest /\ receipt_ok r) (fun d' _ => True).
Proof.
  intros Hlock. apply hoare_bind. eapply hoare_mono; [apply hoare_check | | done]. intros d1 [] _ ->.
  apply hoare_bind. eapply hoare_mono; [apply hoare_usage | | done]. intros d1 u _ Hs1.
  assert (Disk.locked d1 = true) as Hlock1 by (by rewrite (se_locked _ _ Hs1)).
  apply hoare_bind, hoare_attempt. eapply hoare_mono; [apply hoare_open_digest | |].
  2: { intros d2 e _ Hs2. apply hoare_import_new. by rewrite (se_locked _ _ Hs2). }
  intros d2 fd Hd2 [Hs2 Hc]%leaf_current. apply hoare_bind. eapply hoare_mono; [apply hoare_verify_committed | | done].
  intros d3 reused _ [Hs3 Hn]. assert (Disk.locked d3 = true) as Hlock3
    by (by rewrite (se_locked _ _ Hs3), (se_locked _ _ Hs2)).
  apply hoare_bind. eapply hoare_mono; [by apply hoare_cleanup | | done]. intros d4 [] Hd4 Hg4.
  assert (is_Some (Disk.current d4 (blob l BlobKind.Manifest expected_id))) as Hc4.
  { apply (gr_present _ _ _ Hg4). fold (blob l BlobKind.Manifest expected_id). by rewrite (sees_current _ _ _ Hs3). }
  pose proof (closed_manifest _ Hd4 Hc4) as Hcl. apply hoare_bind.
  eapply hoare_mono; [by apply hoare_confirm_committed | | done]. intros d5 [] _ [Hg5 Hmust]. apply hoare_lift.
  split; [split; [exact Hmust | by eapply closed_grows]|]. split; [done|]. simpl. lia.
Qed.
End commit.

Section transaction.
Context (sha256 : list N -> Digest) (from_slice : list N -> Token * option SyntaxError).
Context (RESOLVER : StoreError + Resolver) (cas : Cas.t) (Hl : layout_ok (Cas.layout cas)).
Abbreviation hoare := (hoare sha256 from_slice (Cas.layout cas)).

Lemma hoare_import d source expected_id limits resumes :
  digests_fit sha256 -> collision_free sha256 expected_id ->
  hoare d (CasImport.import_with_resumes sha256 from_slice RESOLVER cas source expected_id limits resumes)
    (fun d' r => exists bytes m, parse_with_expected_id sha256 from_slice bytes limits expected_id = Ok m
       /\ committed (Cas.layout cas) d' expected_id m /\ receipt_ok expected_id m r) (fun _ _ => True).
Proof.
  intros Hfit Hfree. apply hoare_bind. eapply hoare_mono; [apply hoare_check | | done]. intros d1 [] _ ->.
  eapply (hoare_from_format _ _ _ _ _ (fun _ => True)); [| done|].
  { eapply post_mono; [apply limits_validate_spec | done..]. }
  intros limits' El _.
  assert (limits' = limits) as ->.
  { pose proof (limits_validate_spec limits) as H. rewrite El in H. by destruct H. }
  apply hoare_bind. eapply hoare_mono; [apply hoare_read_bounded | | done]. intros d1 bytes _ (-> & _).
  eapply hoare_from_format; [apply parse_with_expected_id_spec | done|]. intros m Hm _.
  apply hoare_transaction.
  - intros d2 r b (bytes' & m' & ? & ? & ?). by exists bytes', m'.
  - intros d2 [Hlock _]. eapply hoare_mono; [by apply hoare_import_locked | | done].
    intros d3 r _ [? ?]. by exists bytes, m.
Qed.
End transaction.
