(* ===== verification/StoreGcPlan.v ===== *)
(** The plan of the collector: what manifests refer to is marked, and the plan has
    exactly what is not. *)
From stdpp Require Import prelude gmap strings.
From S2P Require Import Prelude Format FormatManifest FormatDigest FormatSchema FormatArtifact.
From S2P Require Import FormatVerify Store StoreFacts StoreOs StoreFs StoreFsFacts StorePages.
From S2P Require Import StorePagesFacts StoreStage StoreStageFacts StoreWrite StoreLayout StoreCas.
From S2P Require Import StoreImport StoreDisk StoreDiskLogic StoreDiskFacts StoreDiskInv.
From S2P Require Import StoreCasFacts StoreCasPublish StoreImportFacts StoreImportCommit.
#[local] Open Scope N_scope.
#[local] Open Scope os_scope.
#[local] Opaque Digest.path_component.

(** A record refers to the blob. *)
Definition refers (r : ObjectRecord.t) (kind : BlobKind.t) (digest : Digest) : Prop :=
  match kind with
  | BlobKind.Manifest => False
  | BlobKind.PageTable => digest = ObjectRecord.page_table r
  | BlobKind.Object => digest = ObjectRecord.digest r
  end.

Definition live_of (kind : BlobKind.t) (live : gset Digest * gset Digest) : gset Digest :=
  match kind with BlobKind.Object => live.1 | _ => live.2 end.

Definition digest_name (name : string) (digest : Digest) : Prop :=
  digest < digest_max /\ name = Digest.path_component digest.

Lemma parse_digest_name_ok name kind digest : parse_digest_name name kind = Ok digest -> digest_name name digest.
Proof.
  unfold parse_digest_name. destruct (Digest.from_str _) as [d|e|] eqn:E; try done. intros [= <-].
  apply to_from_string in E as [Hd E]. split; [done|]. unfold Digest.to_string in E.
  apply (f_equal string_bytes) in E. rewrite !string_bytes_app in E. apply app_inv_head in E.
  by rewrite <- (bytes_string_bytes name), <- E, bytes_string_bytes.
Qed.
Lemma safe_digest_name name kind : safe (parse_digest_name name kind).
Proof. unfold parse_digest_name. pose proof (Token.safe_digest_str ("sha256:" +:+ name)). by destruct (Digest.from_str _). Qed.

Section gc.
Context (sha256 : list N -> Digest) (from_slice : list N -> Token * option SyntaxError).
Context (RESOLVER : StoreError + Resolver) (cas : Cas.t).
Abbreviation l := (Cas.layout cas).
Context (Hl : layout_ok l).
Abbreviation store_ok := (store_ok sha256 from_slice l).
Abbreviation hoare := (hoare sha256 from_slice l).

(** A manifest of the store refers to the blob. *)
Definition manifest_refers (d : Disk.t) (name : string) (kind : BlobKind.t) (digest : Digest) : Prop :=
  exists i bytes limits m r, Disk.current d (Layout.manifests l, name) = Some i /\ Disk.contents d !! i = Some bytes
    /\ parse_with_limits sha256 from_slice bytes limits = Ok m /\ r ∈ Manifest.objects m /\ refers r kind digest.
Definition referenced (d : Disk.t) (kind : BlobKind.t) (digest : Digest) : Prop :=
  exists name, manifest_refers d name kind digest.

(** ** Marking *)

Lemma elem_of_marked records live kind digest :
  kind <> BlobKind.Manifest ->
  digest ∈ live_of kind (foldl (fun '(objects, tables) record =>
      ({[ObjectRecord.digest record]} ∪ objects, {[ObjectRecord.page_table record]} ∪ tables)) live records)
  <-> digest ∈ live_of kind live \/ exists r, r ∈ records /\ refers r kind digest.
Proof.
  intros Hk. revert live. induction records as [|r records IH]; intros [objects tables]; simpl.
  - split; [by left|]. intros [?|(? & Hr & _)]; [done | by apply elem_of_nil in Hr].
  - rewrite IH. destruct kind; simpl; [done|..]; rewrite elem_of_union, elem_of_singleton; set_solver.
Qed.

Lemma hoare_mark d0 d limits live entry :
  sees d0 d ->
  hoare d (CasGc.mark_manifest sha256 from_slice RESOLVER cas limits live entry)
    (fun d' live' => sees d0 d' /\ forall kind digest, kind <> BlobKind.Manifest ->
       (digest ∈ live_of kind live' <-> digest ∈ live_of kind live \/ manifest_refers d0 (LeafEntry.name entry) kind digest))
    (fun d' _ => sees d0 d').
Proof.
  intros Hs0. apply hoare_bind. eapply hoare_mono; [apply hoare_check | | by intros ? ? _ ->]. intros d1 [] _ ->.
  apply hoare_bind, hoare_lift. pose proof (safe_digest_name (LeafEntry.name entry) "manifest") as Hsafe.
  destruct (parse_digest_name _ _) as [id|e|] eqn:Ename; [|done|done]. apply parse_digest_name_ok in Ename as [_ Hname].
  apply hoare_bind. eapply hoare_mono; [apply hoare_open_digest | | intros d1 e _ ?; chain]. intros d1 fd _ Ho.
  assert (sees d0 d1) as Hs1 by (etrans; [exact Hs0 | apply Ho]). apply hoare_bind.
  eapply hoare_mono; [apply hoare_read_bounded | | by intros ? ? _ ->]. intros d2 bytes _ (-> & _ & Hbytes).
  eapply hoare_from_format; [apply parse_with_expected_id_spec | done|]. intros m Hm _. apply expected_id_limits in Hm.
  apply hoare_bind. eapply hoare_mono; [apply hoare_references | | intros d2 e _ ?; chain]. intros d2 [] _ Hs2.
  apply hoare_lift. split; [chain|]. intros kind digest Hk. rewrite elem_of_marked by done.
  destruct Ho as [Hs (i & file & Hc & Hi & Hfile & _)].
  assert (bytes = file) as ->. { apply Hbytes. exists i. by rewrite (se_contents _ _ Hs). }
  unfold blob in Hc. simpl in Hc. rewrite <- Hname, (sees_current _ _ _ Hs0) in Hc. rewrite (se_contents _ _ Hs0) in Hfile.
  split; (intros [?|H]; [by left | right]).
  - destruct H as (r & Hr & Href). by exists i, file, limits, m, r.
  - destruct H as (i' & file' & limits' & m' & r & Hc' & Hf' & Hp & Hr & Href). assert (i' = i) as -> by congruence.
    assert (file' = file) as -> by congruence. rewrite (parsed_objects _ _ _ _ _ _ _ Hp Hm) in Hr. by exists r.
Qed.

(** The marks are exactly what manifests refer to. *)
Definition marked (d : Disk.t) (live : gset Digest * gset Digest) : Prop :=
  forall kind digest, kind <> BlobKind.Manifest -> (digest ∈ live_of kind live <-> referenced d kind digest).

Lemma hoare_mark_all d0 d limits entries :
  sees d0 d -> entries_of d0 (Layout.manifests l) entries ->
  hoare d (for_each (CasGc.mark_manifest sha256 from_slice RESOLVER cas limits) (∅, ∅) entries)
    (fun d' live => sees d0 d' /\ marked d0 live) (fun d' _ => sees d0 d').
Proof.
  intros Hs He. eapply hoare_mono.
  - apply (hoare_for_each _ _ _ _ _ _ (fun d' dn live => sees d0 d' /\ forall kind digest, kind <> BlobKind.Manifest ->
      (digest ∈ live_of kind live <-> exists entry, entry ∈ dn /\ manifest_refers d0 (LeafEntry.name entry) kind digest))
      d (fun d' _ => sees d0 d')).
    { split; [done|]. intros kind digest _. split; [by destruct kind; intros ?%elem_of_empty|].
      by intros (entry & ?%elem_of_nil & _). }
    intros d1 dn entry rest live _ [Hs1 Hlive]. eapply hoare_mono; [by apply hoare_mark | | done].
    intros d2 live' _ [Hs2 Hlive']. split; [done|]. intros kind digest Hk. rewrite Hlive', Hlive by done.
    setoid_rewrite elem_of_app. setoid_rewrite list_elem_of_singleton. naive_solver.
  - intros d1 live _ [Hs1 Hlive]. split; [done|]. intros kind digest Hk. rewrite Hlive by done. split.
    + intros (entry & _ & H). by eexists.
    + intros [name H]. assert (name ∈ LeafEntry.name <$> entries) as Hn.
      { apply He. destruct H as (i & _ & _ & _ & _ & Hc & _). by exists i. }
      apply list_elem_of_fmap in Hn as (entry & -> & ?). by exists entry.
  - done.
Qed.

(** ** Candidates *)

Definition candidate_dir (c : DeleteCandidate.t) : N :=
  match DeleteCandidate.kind c with DigestKind kind => Layout.digest_dir l kind | StageKind => Layout.staging l end.
Definition candidate_key (c : DeleteCandidate.t) : N * string := (candidate_dir c, DeleteCandidate.name c).

(** Nothing in the store needs the candidate. *)
Definition candidate_ok (d : Disk.t) (c : DeleteCandidate.t) : Prop :=
  match DeleteCandidate.kind c with
  | DigestKind kind =>
      kind <> BlobKind.Manifest
      /\ exists digest, digest_name (DeleteCandidate.name c) digest /\ ~ referenced d kind digest
  | StageKind => True
  end.

(** Every name is needed or a candidate. *)
Definition settled (d : Disk.t) (kind : BlobKind.t) (name : string) (output : list DeleteCandidate.t) : Prop :=
  (exists digest, digest_name name digest /\ referenced d kind digest)
  \/ exists c, c ∈ output /\ DeleteCandidate.kind c = DigestKind kind /\ DeleteCandidate.name c = name.
Definition candidates_ok (d : Disk.t) (output : list DeleteCandidate.t) : Prop := forall c, c ∈ output -> candidate_ok d c.

Lemma settled_more d kind name output more : settled d kind name output -> settled d kind name (output ++ more).
Proof. intros [H|(c & Hc & H)]; [by left | right]. exists c. split; [set_solver | done]. Qed.

Lemma hoare_plan_unreferenced d0 d kind live output entry :
  sees d0 d -> kind <> BlobKind.Manifest -> marked d0 live ->
  candidates_ok d0 output ->
  hoare d (CasGc.plan_unreferenced sha256 RESOLVER cas kind (live_of kind live) output entry)
    (fun d' output' => sees d0 d' /\ candidates_ok d0 output' /\ settled d0 kind (LeafEntry.name entry) output'
       /\ exists more, output' = output ++ more) (fun d' _ => sees d0 d').
Proof.
  intros Hs0 Hk Hlive Hok. apply hoare_bind. eapply hoare_mono; [apply hoare_check | | by intros ? ? _ ->]. intros d1 [] _ ->.
  apply hoare_bind, hoare_lift. pose proof (safe_digest_name (LeafEntry.name entry) (BlobKind.error_name kind)) as Hsafe.
  destruct (parse_digest_name _ _) as [digest|e|] eqn:Ename; [|done|done]. apply parse_digest_name_ok in Ename.
  apply hoare_bind. eapply hoare_mono; [apply hoare_open_digest | | intros d1 e _ ?; chain]. intros d1 fd _ [Hs1 _].
  assert (sees d0 d1) by chain. apply hoare_bind. eapply hoare_mono; [apply hoare_verify_digest | | by intros ? ? _ ->].
  intros d2 [] _ [-> _]. apply hoare_lift. split; [done|]. case_bool_decide as Hin; rewrite (Hlive kind digest Hk) in Hin.
  - split; [done|]. split; [left; by exists digest | exists []; by rewrite app_nil_r].
  - split; [|split; [right; eexists; split; [by apply elem_of_app; right; left | done] | by eexists]].
    intros c [Hc| ->%list_elem_of_singleton]%elem_of_app; [by apply Hok|]. split; [done|]. by exists digest.
Qed.

Lemma hoare_plan_kind d0 d kind live output entries :
  sees d0 d -> kind <> BlobKind.Manifest -> marked d0 live -> candidates_ok d0 output ->
  entries_of d0 (Layout.digest_dir l kind) entries ->
  hoare d (for_each (CasGc.plan_unreferenced sha256 RESOLVER cas kind (live_of kind live)) output entries)
    (fun d' output' => sees d0 d' /\ candidates_ok d0 output'
       /\ (forall name, is_Some (Disk.current d0 (Layout.digest_dir l kind, name)) -> settled d0 kind name output')
       /\ exists more, output' = output ++ more) (fun d' _ => sees d0 d').
Proof.
  intros Hs Hk Hlive Hok He. eapply hoare_mono.
  - apply (hoare_for_each _ _ _ _ _ _ (fun d' dn output' => sees d0 d' /\ candidates_ok d0 output'
      /\ (forall entry, entry ∈ dn -> settled d0 kind (LeafEntry.name entry) output') /\ exists more, output' = output ++ more)
      d (fun d' _ => sees d0 d')).
    { do 2 (split; [done|]). split; [by intros ? ?%elem_of_nil | exists []; by rewrite app_nil_r]. }
    intros d1 dn entry rest output1 _ (Hs1 & Hok1 & Hset & more1 & ->).
    eapply hoare_mono; [by apply hoare_plan_unreferenced | | done].
    intros d2 output2 _ (Hs2 & Hok2 & Hset2 & more2 & ->). do 2 (split; [done|]). split.
    + intros e [He'| ->%list_elem_of_singleton]%elem_of_app; [by apply settled_more, Hset | done].
    + exists (more1 ++ more2). by rewrite app_assoc.
  - intros d1 output' _ (Hs1 & Hok1 & Hset & Hmore). do 2 (split; [done|]). split; [|done].
    intros name Hn%He. apply list_elem_of_fmap in Hn as (entry & -> & ?). by apply Hset.
  - done.
Qed.

Lemma hoare_plan_stages d0 d output entries :
  sees d0 d -> candidates_ok d0 output ->
  (forall n, n ∈ LeafEntry.name <$> entries -> exists token, ResumeToken.from_stage_name n = Ok token) ->
  hoare d (for_each CasGc.plan_stage output entries)
    (fun d' output' => sees d0 d' /\ candidates_ok d0 output'
       /\ (forall e, e ∈ entries -> exists c, c ∈ output' /\ candidate_key c = (Layout.staging l, LeafEntry.name e))
       /\ exists more, output' = output ++ more) (fun d' _ => sees d0 d').
Proof.
  intros Hs Hok Htok.
  apply (hoare_for_each _ _ _ _ _ _ (fun d' dn output' => sees d0 d' /\ candidates_ok d0 output'
    /\ (forall e, e ∈ dn -> exists c, c ∈ output' /\ candidate_key c = (Layout.staging l, LeafEntry.name e))
    /\ exists more, output' = output ++ more)).
  { do 2 (split; [done|]). split; [by intros ? ?%elem_of_nil | exists []; by rewrite app_nil_r]. }
  intros d1 dn entry rest output1 Hsplit (Hs1 & Hok1 & Hset & more1 & ->). apply hoare_bind.
  eapply hoare_mono; [apply hoare_check | | by intros ? ? _ ->]. intros d2 [] _ ->. apply hoare_bind, hoare_lift.
  destruct (Htok (LeafEntry.name entry)) as [token ->]; [apply list_elem_of_fmap; exists entry; set_solver|]. apply hoare_lift.
  split; [done|]. split; [|split; [|exists (more1 ++ [DeleteCandidate.mk StageKind (LeafEntry.name entry) (LeafEntry.device entry)
    (LeafEntry.inode entry) 0 (LeafEntry.charged_bytes entry)]); by rewrite app_assoc]].
  - intros c [Hc| ->%list_elem_of_singleton]%elem_of_app; [by apply Hok1 | done].
  - intros e [He| ->%list_elem_of_singleton]%elem_of_app.
    + destruct (Hset e He) as (c & Hc & ?). exists c. split; [set_solver | done].
    + eexists. split; [by apply elem_of_app; right; left | done].
Qed.
End gc.

(** ** Reclaimable bytes *)

(** Same candidates, perhaps with other amounts. *)
Definition same_candidate (c c' : DeleteCandidate.t) : Prop :=
  DeleteCandidate.kind c' = DeleteCandidate.kind c /\ DeleteCandidate.name c' = DeleteCandidate.name c.

Lemma final_candidate_bound retained candidates identity index :
  final_candidate retained candidates !! identity = Some index -> (index < length candidates)%nat.
Proof.
  unfold final_candidate. set (indexed := imap _ candidates).
  assert (Forall (fun p : nat * DeleteCandidate.t => (p.1 < length candidates)%nat) indexed) as Hall.
  { apply Forall_forall. intros [i c] (j & Hj)%list_elem_of_lookup. unfold indexed in Hj. rewrite list_lookup_imap in Hj.
    destruct (candidates !! j) eqn:E; [|done]. injection Hj as <- <-. by eapply lookup_lt_Some. }
  assert (forall final : gmap (N * N) nat, (forall k n, final !! k = Some n -> (n < length candidates)%nat) ->
    forall k n, foldl (fun final '(index, candidate) =>
           let identity := DeleteCandidate.identity candidate in
           if bool_decide (identity ∈ retained) then final else <[identity := index]> final) final indexed !! k = Some n ->
    (n < length candidates)%nat) as H; [|by apply (H ∅)].
  induction indexed as [|[i c] indexed IH]; intros final Hf; [done|]. apply Forall_cons in Hall as [Hi Hall]. simpl.
  apply IH; [done|]. intros k n. case_bool_decide; [apply Hf|]. rewrite lookup_insert_Some. intros [[_ <-]|[_ ?]]; [done | by eapply Hf].
Qed.

Lemma assign_spec candidates manifests objects tables stages :
  post (assign_reclaim_bytes candidates manifests objects tables stages) (Forall2 same_candidate candidates) (fun _ => True).
Proof.
  unfold assign_reclaim_bytes. set (plan := btree_iter _).
  assert (forall k i, (k, i) ∈ plan -> (i < length candidates)%nat) as Hb.
  { intros k i ?%elem_of_btree_iter. by eapply final_candidate_bound. }
  apply (post_try_fold _ _ (fun _ => Forall2 same_candidate candidates)).
  { apply Forall2_same_length_lookup. split; [done|]. intros i x y -> [= ->]. by split. }
  intros dn [k i] rest cs Hplan Hcs. unfold assign_reclaim. apply post_bind.
  assert (i < length cs)%nat as [c Hc]%lookup_lt_is_Some.
  { rewrite <- (Forall2_length _ _ _ Hcs). apply (Hb k). rewrite Hplan. set_solver. }
  rewrite Hc. simpl. apply post_bind, post_guard; [done|]. intros _. simpl.
  apply Forall2_same_length_lookup in Hcs as [Hlen Hcs]. apply Forall2_same_length_lookup. split; [by rewrite length_insert|].
  intros j x y Hx. rewrite list_lookup_insert_Some. intros [(<- & <- & _)|[_ Hy]]; [|by eapply Hcs].
  destruct (Hcs i x c Hx Hc) as [H1 H2]. by split.
Qed.
