(* ===== verification/StoreGcFacts.v ===== *)
(** The collector removes exactly what no manifest refers to, and at no moment
    anything else. *)
From stdpp Require Import prelude gmap strings.
From S2P Require Import Prelude Format FormatManifest FormatDigest FormatSchema FormatArtifact.
From S2P Require Import FormatVerify Store StoreFacts StoreOs StoreFs StoreFsFacts StorePages.
From S2P Require Import StorePagesFacts StoreStage StoreStageFacts StoreWrite StoreLayout StoreCas.
From S2P Require Import StoreImport StoreDisk StoreDiskLogic StoreDiskFacts StoreDiskInv.
From S2P Require Import StoreCasFacts StoreCasPublish StoreImportFacts StoreImportCommit.
From S2P Require Import StoreGcPlan.
#[local] Open Scope N_scope.
#[local] Open Scope os_scope.
#[local] Opaque Digest.path_component.

Section gc.
Context (sha256 : list N -> Digest) (from_slice : list N -> Token * option SyntaxError).
Context (RESOLVER : StoreError + Resolver) (cas : Cas.t).
Abbreviation l := (Cas.layout cas).
Context (Hl : layout_ok l).
Abbreviation store_ok := (store_ok sha256 from_slice l).
Abbreviation hoare := (hoare sha256 from_slice l).
Abbreviation manifest_refers := (manifest_refers sha256 from_slice cas).
Abbreviation referenced := (referenced sha256 from_slice cas).
Abbreviation candidate_ok := (candidate_ok sha256 from_slice cas).
Abbreviation candidates_ok := (candidates_ok sha256 from_slice cas).
Abbreviation settled := (settled sha256 from_slice cas).
Abbreviation candidate_key := (candidate_key cas).

(** ** The plan *)

Record planned (policy : GcPolicy.t) (d : Disk.t) (cs : list DeleteCandidate.t) : Prop := {
  pl_sound : candidates_ok d cs;
  pl_blobs : forall kind name, kind <> BlobKind.Manifest ->
    is_Some (Disk.current d (Layout.digest_dir l kind, name)) -> settled d kind name cs;
  pl_stages : GcPolicy.remove_staging policy = true -> forall name,
    is_Some (Disk.current d (stage l name)) -> exists c, c ∈ cs /\ candidate_key c = stage l name
}.

Lemma planned_same policy d cs cs' : Forall2 same_candidate cs cs' -> planned policy d cs -> planned policy d cs'.
Proof.
  intros Hsame [H1 H2 H3].
  assert (forall c, c ∈ cs -> exists c', c' ∈ cs' /\ same_candidate c c') as Hto.
  { intros c [i Hi]%list_elem_of_lookup. destruct (Forall2_lookup_l _ _ _ _ _ Hsame Hi) as (c' & Hc' & ?).
    exists c'. split; [by eapply list_elem_of_lookup_2 | done]. }
  split.
  - intros c' [i Hi]%list_elem_of_lookup. destruct (Forall2_lookup_r _ _ _ _ _ Hsame Hi) as (c & Hc & Hk & Hn).
    specialize (H1 c (list_elem_of_lookup_2 _ _ _ Hc)). unfold StoreGcPlan.candidate_ok in *. by rewrite Hk, Hn.
  - intros kind name Hk Hp. destruct (H2 kind name Hk Hp) as [?|(c & Hc & Hkind & Hname)]; [by left | right].
    destruct (Hto c Hc) as (c' & Hc' & E1 & E2). exists c'. by rewrite E1, E2.
  - intros Hr name Hp. destruct (H3 Hr name Hp) as (c & Hc & Hkey). destruct (Hto c Hc) as (c' & Hc' & E1 & E2).
    exists c'. split; [done|]. unfold StoreGcPlan.candidate_key, candidate_dir in *. by rewrite E1, E2.
Qed.

Lemma hoare_plan d policy limits :
  hoare d (CasGc.plan sha256 from_slice RESOLVER cas policy limits)
    (fun d' cs => sees d d' /\ planned policy d cs) (fun d' _ => sees d d').
Proof.
  apply hoare_bind. eapply hoare_mono; [apply hoare_usage | | done]. intros d1 u _ Hs1. cbn beta in Hs1.
  assert (forall d0 kind, sees d d0 -> hoare d0 (Layout.digest_entries l kind)
    (fun d' entries => sees d d' /\ entries_of d (Layout.digest_dir l kind) entries) (fun d' _ => sees d d')) as Hentries.
  { intros d0 kind Hs. eapply hoare_mono; [apply hoare_digest_entries | |].
    - intros d' entries _ [Hs' He]. split; [chain|]. intros n. rewrite <- (sees_current d d0 _ Hs). apply He.
    - intros d' e _ ?. chain. }
  apply hoare_bind. eapply hoare_mono; [by apply Hentries | | done]. intros d2 manifests _ [Hs2 Hm].
  apply hoare_bind. eapply hoare_mono; [by apply Hentries | | done]. intros d3 objects _ [Hs3 Ho].
  apply hoare_bind. eapply hoare_mono; [by apply Hentries | | done]. intros d4 tables _ [Hs4 Ht].
  apply hoare_bind. eapply hoare_mono; [apply hoare_stage_entries | | intros d5 e _ ?; chain].
  intros d5 stages _ (Hs5 & Hst & Htok). assert (sees d d5) as Hs5' by chain.
  apply hoare_bind. eapply hoare_mono; [by apply (hoare_mark_all _ _ _ _ Hl d d5) | | done].
  intros d6 [live_objects live_tables] _ [Hs6 Hlive].
  apply hoare_bind. eapply hoare_mono;
    [apply (hoare_plan_kind sha256 from_slice RESOLVER cas Hl d d6 BlobKind.Object (live_objects, live_tables)); [done.. | by intros ? ?%elem_of_nil | done] | | done].
  intros d7 cs1 _ (Hs7 & Hok7 & Hset7 & _).
  apply hoare_bind. eapply hoare_mono;
    [by apply (hoare_plan_kind sha256 from_slice RESOLVER cas Hl d d7 BlobKind.PageTable (live_objects, live_tables)) | | done].
  intros d8 cs2 _ (Hs8 & Hok8 & Hset8 & more & ->).
  assert (forall kind name more', kind <> BlobKind.Manifest -> is_Some (Disk.current d (Layout.digest_dir l kind, name)) ->
    settled d kind name ((cs1 ++ more) ++ more')) as Hset.
  { intros kind name more' Hk Hp. apply (settled_more _ _ _ Hl). destruct kind; [done | by apply Hset8 | by apply (settled_more _ _ _ Hl), Hset7]. }
  apply hoare_bind. apply (hoare_mono _ _ _ _ _ (fun d' cs => sees d d' /\ planned policy d cs) _ (fun d' _ => sees d d')).
  - destruct (GcPolicy.remove_staging policy) eqn:Er.
    + eapply hoare_mono; [by apply (hoare_plan_stages sha256 from_slice cas Hl d d8) | | done].
      intros d9 cs _ (Hs9 & Hok9 & Hstages & more' & ->). split; [done|]. split; [done | by intros; apply Hset|].
      intros _ name Hp. assert (name ∈ LeafEntry.name <$> stages) as Hn.
      { apply Hst. by rewrite (sees_current _ _ _ Hs4). }
      apply list_elem_of_fmap in Hn as (e & -> & He). by apply Hstages.
    + apply hoare_lift. split; [done|]. split; [done | | by rewrite Er].
      intros kind name Hk Hp. specialize (Hset kind name [] Hk Hp). by rewrite app_nil_r in Hset.
  - intros d9 cs _ [Hs9 Hpl]. apply hoare_lift. eapply post_mono; [apply assign_spec | | done].
    intros cs' Hsame. split; [done|]. by eapply planned_same.
  - done.
Qed.

(** ** The sweep *)

(** Since [d] only candidates lost their names, those of [cs] among them. *)
Record swept (cs : list DeleteCandidate.t) (d d' : Disk.t) : Prop := {
  sw_locked : Disk.locked d' = Disk.locked d;
  sw_contents : Disk.contents d' = Disk.contents d;
  sw_names : forall k i, Disk.current d' k = Some i -> Disk.current d k = Some i;
  sw_manifests : forall name, Disk.current d' (Layout.manifests l, name) = Disk.current d (Layout.manifests l, name);
  sw_must : forall name, must d (Layout.manifests l, name) -> must d' (Layout.manifests l, name);
  sw_gone : forall c, c ∈ cs -> Disk.current d' (candidate_key c) = None
}.

Lemma swept_sees d d' : sees d d' -> swept [] d d'.
Proof.
  intros Hs. split; try apply Hs.
  - intros k i. by rewrite (sees_current _ _ _ Hs).
  - intros name. by rewrite (sees_current _ _ _ Hs).
  - intros name. unfold must. by rewrite (sees_history _ _ _ Hs).
  - by intros c ?%elem_of_nil.
Qed.
Lemma swept_sync cs d d' dir : swept cs d d' -> swept cs d (Disk.sync_directory dir d').
Proof.
  intros []. split; simpl; try done.
  - intros k i. rewrite current_sync. auto.
  - intros name. rewrite current_sync. auto.
  - intros name Hm. by apply must_sync, sw_must0.
  - intros c Hc. rewrite current_sync. auto.
Qed.
Lemma swept_unlink cs d d' dir name :
  dir <> Layout.manifests l -> swept cs d d' -> swept cs d (Disk.put (dir, name) None d').
Proof.
  intros Hdir []. split; simpl; try done.
  - intros k i. rewrite current_put. case_decide; [done | auto].
  - intros n. rewrite current_put, decide_False by congruence. auto.
  - intros n Hm. apply must_put. split; [congruence | auto].
  - intros c Hc. rewrite current_put. case_decide; [done | auto].
Qed.

Lemma swept_refers cs d d' name kind digest :
  swept cs d d' -> manifest_refers d' name kind digest <-> manifest_refers d name kind digest.
Proof.
  intros Hs. unfold StoreGcPlan.manifest_refers. setoid_rewrite (sw_manifests _ _ _ Hs). by rewrite (sw_contents _ _ _ Hs).
Qed.
Lemma swept_referenced cs d d' kind digest : swept cs d d' -> referenced d' kind digest <-> referenced d kind digest.
Proof. intros Hs. unfold StoreGcPlan.referenced. by setoid_rewrite (swept_refers _ _ _ _ _ _ Hs). Qed.

Lemma unreferenced_blob d kind name digest :
  store_ok d -> digest_name name digest -> ~ referenced d kind digest ->
  unreferenced sha256 from_slice l d (Layout.digest_dir l kind, name).
Proof.
  intros Hd [Hmax ->] Hn n i bytes limits m r Hm Hb Hp Hr.
  destruct (so_manifests _ _ _ _ Hd _ _ Hm) as [Hc _].
  pose proof (parse_with_limits_spec sha256 from_slice bytes limits) as Hspec. rewrite Hp in Hspec.
  destruct (blob_bounds _ _ r (pm_limits _ _ _ _ Hspec) (pm_ok _ _ _ _ Hspec) Hr) as ([H1 _] & [H2 _] & _).
  assert (forall kind', refers r kind' digest -> kind = kind' -> False) as Href.
  { intros kind' H <-. apply Hn. exists n, i, bytes, limits, m, r. done. }
  unfold blob. split; intros [Ed En]%pair_eq; apply path_component_inj in En; try done.
  - apply (digest_dir_inj l Hl kind BlobKind.PageTable) in Ed. by apply (Href BlobKind.PageTable).
  - apply (digest_dir_inj l Hl kind BlobKind.Object) in Ed. by apply (Href BlobKind.Object).
Qed.

Lemma candidate_unreferenced d c :
  store_ok d -> candidate_ok d c ->
  unreferenced sha256 from_slice l d (candidate_key c)
  /\ (candidate_dir cas c = Layout.staging l \/ candidate_dir cas c = Layout.page_tables l \/ candidate_dir cas c = Layout.objects l).
Proof.
  intros Hd Hc. unfold StoreGcPlan.candidate_ok, StoreGcPlan.candidate_key, candidate_dir in *.
  destruct (DeleteCandidate.kind c) as [kind|]; [|by split; [apply unreferenced_stage | left]].
  destruct Hc as (Hk & digest & Hn & Href). split; [by eapply unreferenced_blob|]. destruct kind; [done | right; by left | right; by right].
Qed.
Lemma candidate_not_manifest d c : candidate_ok d c -> candidate_dir cas c <> Layout.manifests l.
Proof.
  intros Hc. unfold StoreGcPlan.candidate_ok, candidate_dir in *. destruct (DeleteCandidate.kind c) as [kind|].
  - intros E. by apply (digest_dir_inj l Hl kind BlobKind.Manifest) in E; destruct Hc.
  - intros E. symmetry in E. by apply (digest_not_staging l Hl BlobKind.Manifest).
Qed.

Lemma hoare_unlink_candidate d c kind :
  Disk.locked d = true -> candidate_ok d c ->
  hoare d (unlink_leaf (candidate_dir cas c) (DeleteCandidate.name c) kind)
    (fun d' _ => d' = Disk.put (candidate_key c) None d) (fun d' _ => d' = d \/ d' = Disk.put (candidate_key c) None d).
Proof.
  intros Hlock Hc. apply hoare_guard; [by left|]. intros _. apply hoare_bind, hoare_call. intros e r Hd E. destruct e; try done.
  case_bool_decide as Hpn; [|done]. destruct Hpn as [-> ->]. injection E as <-.
  destruct (candidate_unreferenced d c Hd Hc) as [Hu Hdir]. split; [by split|]. intros d0 d' -> Hs.
  assert (store_ok (Disk.put (candidate_key c) None d)) as Hput.
  { apply store_ok_remove; [done | by eapply candidate_not_manifest | done]. }
  simpl in Hs. unfold StoreGcPlan.candidate_key in *.
  assert (d' = d \/ d' = Disk.put (candidate_dir cas c, DeleteCandidate.name c) None d) as Hd'.
  { unfold Disk.guarded in Hs. repeat case_match; set_solver. }
  split; [by destruct Hd' as [->| ->]|]. apply hoare_lift. destruct answer as [e|[]]; simpl; [done|].
  destruct (Disk.current d _); set_solver.
Qed.

Lemma hoare_sync_each d0 cs d first (m : Os unit) :
  swept cs d0 d -> hoare d m (fun d' _ => swept cs d0 d') (fun d' _ => swept cs d0 d') ->
  hoare d (CasGc.sync_each first m) (fun d' _ => swept cs d0 d') (fun d' _ => swept cs d0 d').
Proof. intros Hs Hm. apply hoare_bind, hoare_attempt. eapply hoare_mono; [exact Hm|..]; intros d' ? _ ?; by apply hoare_lift. Qed.

Lemma hoare_sync_gc d0 cs d modified staging :
  swept cs d0 d ->
  hoare d (CasGc.sync_gc_directories cas modified staging) (fun d' _ => swept cs d0 d') (fun d' _ => swept cs d0 d').
Proof.
  intros Hs.
  assert (forall d dir, swept cs d0 d -> Disk.tracked l dir = true ->
    hoare d (sync_fd dir) (fun d' _ => swept cs d0 d') (fun d' _ => swept cs d0 d')) as Hsync.
  { intros d1 dir Hs1 Ht. eapply hoare_mono; [by apply hoare_sync_dir|..]; intros d2 ? _ ->; [by apply swept_sync | done]. }
  apply hoare_bind. eapply hoare_mono.
  - apply (hoare_for_each _ _ _ _ _ _ (fun d' _ _ => swept cs d0 d') d (fun d' _ => swept cs d0 d')); [done|].
    intros d1 dn kind rest first _ Hs1. apply hoare_sync_each; [done|]. apply Hsync; [done | apply digest_tracked].
  - intros d1 first _ Hs1. apply hoare_bind. apply (hoare_mono _ _ _ _ _ (fun d' _ => swept cs d0 d') _ (fun d' _ => swept cs d0 d')).
    + destruct staging; [|by apply hoare_lift]. apply hoare_sync_each; [done|]. apply Hsync; [done | apply staging_tracked].
    + intros d2 first' _ Hs2. apply hoare_lift. by destruct first'.
    + done.
  - done.
Qed.

(** The counters after the candidates [cs] of a report that began with [start]. *)
Record counted (cs : list DeleteCandidate.t) (start report : GcReport.t) : Prop := {
  co_blobs : GcReport.deleted_blobs report = GcReport.deleted_blobs start + lenN cs;
  co_bytes : GcReport.deleted_bytes report = GcReport.deleted_bytes start + sumN DeleteCandidate.reclaim_bytes cs;
  co_rest : GcReport.candidate_blobs report = GcReport.candidate_blobs start
    /\ GcReport.candidate_bytes report = GcReport.candidate_bytes start /\ GcReport.dry_run report = GcReport.dry_run start
}.

Lemma count_spec cs start report c :
  counted cs start report -> post (CasGc.count_deleted report c) (counted (cs ++ [c]) start) (fun _ => True).
Proof.
  intros [H1 H2 H3]. unfold CasGc.count_deleted. apply post_bind, post_checked_add; [intros _|done].
  apply post_bind, post_checked_add; [intros _|done]. split; simpl; [| |done].
  - unfold lenN in *. rewrite length_app. simpl. lia.
  - rewrite sumN_app. simpl. lia.
Qed.

Lemma candidate_ok_swept cs d d' c : swept cs d d' -> candidate_ok d c -> candidate_ok d' c.
Proof.
  intros Hs. unfold StoreGcPlan.candidate_ok. destruct (DeleteCandidate.kind c); [|done].
  intros (Hk & digest & Hn & Href). split; [done|]. exists digest. split; [done|]. by rewrite (swept_referenced _ _ _ _ _ Hs).
Qed.

Lemma swept_more cs d d' c : candidate_ok d c -> swept cs d d' -> swept (cs ++ [c]) d (Disk.put (candidate_key c) None d').
Proof.
  intros Hc Hs. assert (swept cs d (Disk.put (candidate_key c) None d')) as [].
  { apply swept_unlink; [by eapply candidate_not_manifest | done]. }
  split; try done. intros c' [?| ->%list_elem_of_singleton]%elem_of_app; [auto|]. by rewrite current_put, decide_True.
Qed.

Lemma hoare_sweep_candidate d0 cs start d s c :
  Disk.locked d0 = true -> swept cs d0 d -> counted cs start (CasGc.Sweep.report s) -> candidate_ok d0 c ->
  hoare d (CasGc.sweep_candidate cas s c)
    (fun d' '(s', e) => match e with
       | None => swept (cs ++ [c]) d0 d' /\ counted (cs ++ [c]) start (CasGc.Sweep.report s')
       | Some _ => swept cs d0 d' end) (fun _ _ => False).
Proof.
  intros Hlock Hs Hcount Hc. assert (Disk.locked d = true) as Hlk by (by rewrite (sw_locked _ _ _ Hs)).
  pose proof (candidate_ok_swept _ _ _ _ Hs Hc) as Hcd. apply hoare_bind, hoare_attempt.
  assert (hoare d (_ <- check; match DeleteCandidate.kind c with
    | DigestKind kind => CasGc.unlink_gc_digest cas kind (DeleteCandidate.name c)
    | StageKind => unlink_leaf (Layout.staging l) (DeleteCandidate.name c) "staging file" end)
    (fun d' _ => swept (cs ++ [c]) d0 d') (fun d' _ => swept cs d0 d')) as Hun.
  { apply hoare_bind. eapply hoare_mono; [apply hoare_check | | by intros ? ? _ ->]. intros d1 [] _ ->.
    eapply (hoare_mono _ _ _ _ _ (fun d' _ => d' = Disk.put (candidate_key c) None d) _
      (fun d' _ => d' = d \/ d' = Disk.put (candidate_key c) None d)).
    - pose proof (hoare_unlink_candidate d c) as H. unfold candidate_dir in H.
      destruct (DeleteCandidate.kind c); by apply H.
    - intros d1 [] _ ->. by apply swept_more.
    - intros d1 e _ [->| ->]; [done|]. apply swept_unlink; [by eapply candidate_not_manifest | done]. }
  eapply hoare_mono; [exact Hun|..]; intros d1 x _ Hs1; [|by apply hoare_lift].
  pose proof (count_spec _ _ _ c Hcount) as Hspec. destruct (CasGc.count_deleted _ _) as [r|e|]; [|simpl|done].
  - by apply hoare_lift.
  - apply hoare_lift. destruct Hs1. split; try done. intros c' Hc'. apply sw_gone0. set_solver.
Qed.

Lemma hoare_sweep d0 cs rest start d s :
  Disk.locked d0 = true -> swept cs d0 d -> counted cs start (CasGc.Sweep.report s) -> candidates_ok d0 rest ->
  hoare d (CasGc.sweep cas s rest)
    (fun d' report => swept (cs ++ rest) d0 d' /\ counted (cs ++ rest) start report) (fun d' _ => exists cs', swept cs' d0 d').
Proof.
  intros Hlock. revert cs d s. induction rest as [|c rest IH]; intros cs d s Hs Hcount Hok.
  - apply hoare_bind. eapply hoare_mono; [by apply hoare_sync_gc | | intros ? ? _ Hx; exists cs; exact Hx]. intros d1 [] _ Hs1. apply hoare_lift.
    by rewrite app_nil_r.
  - apply hoare_bind. eapply hoare_mono; [apply hoare_sweep_candidate; [done.. | apply Hok; by left] | | done].
    intros d1 [s' [e|]] _ Hs1.
    + apply hoare_bind. eapply hoare_mono; [by apply hoare_sync_gc | | intros ? ? _ Hx; exists cs; exact Hx]. intros d2 [] _ Hs2. apply hoare_lift. by eexists.
    + destruct Hs1 as [Hs1 Hc1]. eapply hoare_mono; [apply (IH (cs ++ [c])); [done.. | intros c' Hc'; apply Hok; by right] | | done].
      intros d2 report _ H. by rewrite <- !app_assoc in H.
Qed.

(** ** The collection *)

Lemma total_spec cs :
  post (CasGc.total_reclaim cs) (fun total => total = sumN DeleteCandidate.reclaim_bytes cs) (fun _ => True).
Proof.
  apply (post_try_fold _ _ (fun dn total => total = sumN DeleteCandidate.reclaim_bytes dn)); [done|].
  intros dn c rest total _ ->. unfold checked_add. case_match; [|done]. simpl. rewrite sumN_app. simpl. lia.
Qed.

(** Everything that is left is needed. *)
Definition collected (policy : GcPolicy.t) (d : Disk.t) : Prop :=
  (forall kind name, kind <> BlobKind.Manifest -> is_Some (Disk.current d (Layout.digest_dir l kind, name)) ->
     exists digest, digest_name name digest /\ referenced d kind digest)
  /\ (GcPolicy.remove_staging policy = true -> forall name, Disk.current d (stage l name) = None).

Definition gc_outcome (policy : GcPolicy.t) (d d' : Disk.t) (report : GcReport.t) : Prop :=
  if GcPolicy.dry_run policy
  then sees d d' /\ GcReport.deleted_blobs report = 0 /\ GcReport.deleted_bytes report = 0
  else collected policy d'
       /\ GcReport.deleted_blobs report = GcReport.candidate_blobs report
       /\ GcReport.deleted_bytes report = GcReport.candidate_bytes report.

Lemma swept_collected policy cs d d' : planned policy d cs -> swept cs d d' -> collected policy d'.
Proof.
  intros [_ H2 H3] Hs. split.
  - intros kind name Hk [i Hi]. pose proof (sw_names _ _ _ Hs _ _ Hi) as Hi0.
    destruct (H2 kind name Hk ltac:(by eexists)) as [(digest & Hn & Href)|(c & Hc & Ekind & <-)].
    + exists digest. split; [done|]. by rewrite (swept_referenced _ _ _ _ _ Hs).
    + pose proof (sw_gone _ _ _ Hs c Hc) as Hgone. unfold StoreGcPlan.candidate_key, candidate_dir in Hgone.
      rewrite Ekind in Hgone. congruence.
  - intros Hr name. destruct (Disk.current d' (stage l name)) as [i|] eqn:Hi; [|done].
    destruct (H3 Hr name) as (c & Hc & Hk); [exists i; by apply (sw_names _ _ _ Hs)|].
    pose proof (sw_gone _ _ _ Hs c Hc) as Hgone. rewrite Hk in Hgone. congruence.
Qed.

Lemma hoare_gc_locked d policy limits :
  Disk.locked d = true ->
  hoare d (CasGc.gc_locked sha256 from_slice RESOLVER cas policy limits)
    (fun d' report => gc_outcome policy d d' report /\ exists cs, swept cs d d') (fun d' _ => exists cs, swept cs d d').
Proof.
  intros Hlock. assert (forall d', sees d d' -> exists cs, swept cs d d') as Hsees by (intros; eexists; by apply swept_sees).
  apply hoare_bind. eapply hoare_mono; [apply hoare_plan | | intros ? ? _ ?; by apply Hsees]. intros d1 cs _ [Hs Hpl].
  apply hoare_bind, hoare_lift. eapply post_mono; [apply total_spec | | intros; by apply Hsees]. intros total ->. cbv zeta.
  apply hoare_bind. eapply hoare_mono; [apply hoare_check | | intros ? ? _ ->; by apply Hsees]. intros d2 [] _ ->.
  unfold gc_outcome. destruct (GcPolicy.dry_run policy); [apply hoare_lift; by split; [|apply Hsees]|].
  eapply hoare_mono; [apply (hoare_sweep d [] cs (GcReport.mk (lenN cs) (sumN DeleteCandidate.reclaim_bytes cs) 0 0 false)) | | done].
  - done.
  - by apply swept_sees.
  - split; [unfold lenN; simpl; lia | simpl; lia | done].
  - apply Hpl.
  - intros d3 report _ [Hs3 Hc]. split; [|by eexists]. split; [by eapply swept_collected|].
    destruct Hc as [C1 C2 (C3 & C4 & _)]. simpl in *. rewrite C3, C4. split; lia.
Qed.
End gc.

Section transaction.
Context (sha256 : list N -> Digest) (from_slice : list N -> Token * option SyntaxError).
Context (RESOLVER : StoreError + Resolver) (cas : Cas.t) (Hl : layout_ok (Cas.layout cas)).

Lemma hoare_gc d policy limits :
  hoare sha256 from_slice (Cas.layout cas) d (CasGc.gc sha256 from_slice RESOLVER cas policy limits)
    (fun d' report =>
       if GcPolicy.dry_run policy then GcReport.deleted_blobs report = 0 /\ GcReport.deleted_bytes report = 0
       else collected sha256 from_slice cas policy d'
            /\ GcReport.deleted_blobs report = GcReport.candidate_blobs report
            /\ GcReport.deleted_bytes report = GcReport.candidate_bytes report) (fun _ _ => True).
Proof.
  apply hoare_bind. eapply hoare_mono; [apply hoare_check | | done]. intros d1 [] _ ->.
  eapply (hoare_from_format _ _ _ _ _ (fun _ => True)); [| done|].
  { eapply post_mono; [apply limits_validate_spec | done..]. }
  intros limits' _ _. apply hoare_transaction.
  - intros d1 report b H. exact H.
  - intros d1 [Hlock _]. eapply hoare_mono; [by apply hoare_gc_locked | | done]. intros d2 report _ [H _].
    unfold gc_outcome in H. destruct (GcPolicy.dry_run policy); [by destruct H | exact H].
Qed.
End transaction.
