(* ===== verification/StoreCasDemo.v ===== *)
(** An import of the demonstration artifact into an empty store and a collection
    of a stray object, call by call, at which the theorems about the store are
    shown to apply. *)
From stdpp Require Import prelude gmap strings pretty.
From S2P Require Import Prelude Format FormatManifest FormatDigest FormatSchema FormatArtifact.
From S2P Require Import FormatVerify Store StoreOs StoreFs StoreFsFacts StorePages StoreDemo.
From S2P Require Import StoreStage StoreStageFacts StoreWrite StoreLayout StoreCas StoreImport.
From S2P Require Import StoreDisk StoreDiskLogic StoreDiskFacts StoreDiskInv StoreImportCommit.
From S2P Require Import StoreGcPlan.
#[local] Open Scope N_scope.

Module DemoCas.
(** A checksum that no other bytes share with the manifest. *)
Definition id : Digest := Eval vm_compute in Demo.sha256 Demo.manifest_bytes.
Definition sha256 (bytes : list N) : Digest :=
  if bool_decide (bytes = Demo.manifest_bytes) then id
  else let digest := Demo.sha256 bytes in if digest =? id then 0 else digest.

Lemma fits : digests_fit sha256.
Proof. intros bytes. unfold sha256. case_bool_decide; [done|]. cbv zeta. case_match; [done | apply DemoStore.sha256_width]. Qed.
Lemma free : collision_free sha256 id.
Proof.
  assert (forall bytes, sha256 bytes = id -> bytes = Demo.manifest_bytes) as H.
  { intros bytes. unfold sha256. case_bool_decide; [done|]. cbv zeta. destruct (N.eqb_spec (Demo.sha256 bytes) id); [|done].
    by vm_compute. }
  intros b b' ->%H ->%H. done.
Qed.

Definition layout : Layout.t := Layout.mk 20 21 22 23 24 25 26 27 28 7 1000.
Definition cas : Cas.t := Cas.mk layout CasConfig.default.
Lemma distinct : layout_ok layout.
Proof. apply (bool_decide_unpack _). by vm_compute. Qed.

(** ** Calls *)

Definition blob_stat (bytes : list N) : Stat.t := Stat.mk 7 3 1000 33152 (Z.of_N (lenN bytes)) 8.
Definition stat (fd : N) (bytes : list N) : Event := EFstat fd (inr (blob_stat bytes)).
Definition pieces (bytes : list N) : list (list N) := chunks (N.to_nat READ_CHUNK_BYTES) bytes.
Definition reading (fd : N) (bytes : list N) : list Event := ECheck calm :: served fd 0 (pieces bytes).
Definition hashing (fd : N) (bytes : list N) : list Event :=
  stat fd bytes :: ECheck calm :: reading fd bytes ++ [stat fd bytes].
Definition absent (dir : N) (name : string) : list Event :=
  [EOnce true; EOpenAt (At dir) name REGULAR_READ_FLAGS (inl NOENT)].
Definition opening (dir : N) (name : string) (fd : N) (bytes : list N) : list Event :=
  [EOnce true; EOpenAt (At dir) name REGULAR_READ_FLAGS (inr fd); stat fd bytes; stat fd bytes].
Definition listing (dir : N) (names : list string) : Event := EReadDir dir (inr (inr <$> "." :: ".." :: names)).
Definition acquire : Event := EFlock 21 NonBlockingLockExclusive (inr tt).
Definition unlock : list Event := [EFlock 21 Unlock (inr tt); EMutex MUnlock Acquired].

Definition random : list N := replicate 16 171.
Definition token (kind : BlobKind.t) (bytes : list N) : string :=
  ResumeToken.stage_prefix kind (sha256 bytes) (lenN bytes) +:+ lower_hex random.

(** A blob that the store does not have: stage, copy, verify, publish. *)
Definition publishing (kind : BlobKind.t) (source fd : N) (bytes : list N) (verify : list Event) : list Event :=
  let dir := Layout.digest_dir layout kind in
  let name := Digest.path_component (sha256 bytes) in
  absent dir name ++ [EGetrandom 16 (Some random);
   EOpenAt (At 28) (token kind bytes) (CREATE_FLAGS FILE_MODE) (inr fd); stat fd []; stat fd []; EFsync 28 (inr tt);
   stat source bytes; stat fd []; ECheck calm]
  ++ reading source bytes
  ++ [ECheck calm; EPwrite fd 0 bytes (inr (lenN bytes)); ECheck calm; stat fd bytes; stat source bytes]
  ++ hashing fd bytes ++ verify
  ++ [EFsync fd (inr tt); ECheck calm; ERename 28 (token kind bytes) dir name (inr tt);
      EFsync dir (inr tt); EFsync 28 (inr tt)].

(** The usage of an empty store. *)
Definition measuring : list Event :=
  [listing 25 []; listing 26 []; listing 27 []; listing 28 []; EFstatvfs 20 (inr (8388608, 4096))].

Definition table_digest : Digest := Eval vm_compute in Demo.sha256 Demo.table_bytes.
Definition table_name : string := Digest.path_component table_digest.
Definition object_name : string := Digest.path_component Demo.object_digest.

Definition before_lock : list Event :=
  ECheck calm :: stat 9 Demo.manifest_bytes :: reading 9 Demo.manifest_bytes ++ [stat 9 Demo.manifest_bytes]
  ++ [ECheck calm; EMutex MTryLock Acquired; ECheck calm].
Definition after_lock : list Event :=
  ECheck calm :: measuring ++ absent 25 (Digest.path_component id) ++ [listing 28 []]
  ++ measuring ++ listing 28 [] :: absent 25 (Digest.path_component id) ++ absent 26 table_name ++ absent 27 object_name
  ++ ECheck calm :: opening 8 table_name 30 Demo.table_bytes
  ++ publishing BlobKind.PageTable 30 31 Demo.table_bytes (reading 31 Demo.table_bytes)
  ++ opening 26 table_name 32 Demo.table_bytes ++ reading 32 Demo.table_bytes
  ++ ECheck calm :: opening 6 object_name 33 Demo.object_bytes
  ++ publishing BlobKind.Object 33 34 Demo.object_bytes
       (hashing 34 Demo.object_bytes ++ ECheck calm :: reading 34 Demo.object_bytes ++ [ECheck calm; ECheck calm])
  ++ [ECheck calm; EDup 9 (inr 35)]
  ++ publishing BlobKind.Manifest 35 36 Demo.manifest_bytes (reading 36 Demo.manifest_bytes)
  ++ unlock.
Definition history : list Event := before_lock ++ acquire :: after_lock.

Definition source : ArtifactSource.t := DemoStore.source.
Definition import : Os ImportReceipt.t :=
  CasImport.import sha256 Demo.from_slice DemoStore.resolver cas source id Demo.limits.

(** ** On disk *)

(** The states that a history of calls leaves, the first of the possible ones. *)
Fixpoint replay (d : Disk.t) (h : list Event) : option execution :=
  match h with
  | [] => Some []
  | e :: h => match Disk.step layout d e with d' :: _ => cons (e, d') <$> replay d' h | [] => None end
  end.
Definition acquires (e : Event) : bool :=
  match e with EFlock _ (LockExclusive | NonBlockingLockExclusive) (inr _) => true | _ => false end.

Lemma replay_executes from_slice d h ex :
  replay d h = Some ex -> forallb (fun e => negb (acquires e)) h = true ->
  executes sha256 from_slice layout d ex /\ ex.*1 = h.
Proof.
  revert d ex. induction h as [|e h IH]; intros d ex; simpl; [by intros [= <-]|].
  destruct (Disk.step layout d e) as [|d' ds] eqn:Es; [done|]. destruct (replay d' h) as [ex'|] eqn:Er; [|done].
  intros [= <-] [Ha Hh]%andb_true_iff. destruct (IH d' ex' Er Hh) as [Hex <-]. split; [|done]. split; [|done].
  exists d. split; [|rewrite Es; by left]. destruct e; try done. simpl. by destruct operation, answer.
Qed.

Definition states (d : Disk.t) (h : list Event) : execution := default [] (replay d h).
Definition replays (d : Disk.t) (h : list Event) : bool :=
  bool_decide (is_Some (replay d h)) && forallb (fun e => negb (acquires e)) h.
Lemma states_execute from_slice d h :
  replays d h = true -> executes sha256 from_slice layout d (states d h) /\ (states d h).*1 = h.
Proof.
  unfold replays, states. intros [[ex Hr]%bool_decide_eq_true Ha]%andb_true_iff. rewrite Hr. by apply replay_executes.
Qed.

(** A transaction: the calls before the lock leave the store as it is. *)
Definition run (d : Disk.t) (before after : list Event) : execution :=
  states d before ++ (acquire, Disk.set_locked true d) :: states (Disk.set_locked true d) after.
Lemma run_executes from_slice d before after :
  replays d before = true -> replays (Disk.set_locked true d) after = true ->
  final d (states d before) = d -> store_ok sha256 from_slice layout d ->
  executes sha256 from_slice layout d (run d before after) /\ (run d before after).*1 = before ++ acquire :: after.
Proof.
  intros H0 H1 Hf Hok. destruct (states_execute from_slice _ _ H0) as [E0 F0].
  destruct (states_execute from_slice _ _ H1) as [E1 F1]. unfold run. split.
  - apply executes_app. split; [done|]. rewrite Hf. split; [|done]. exists d. by split; [|left].
  - by rewrite fmap_app, fmap_cons, F0, F1.
Qed.

(** An empty store; the descriptors of the source are open. *)
Definition empty : Disk.t := Disk.mk ∅ ∅ ∅ ∅ {[4; 6; 8; 9]} false.
Lemma empty_ok from_slice : store_ok sha256 from_slice layout empty.
Proof.
  assert (forall k i, ~ may empty k i) as Hm.
  { intros k i. unfold may, Disk.history. simpl. rewrite lookup_empty. by intros ?%list_elem_of_singleton. }
  split; [done | | intros kind | | | |]; intros; exfalso; eapply Hm; eassumption.
Qed.

(** A store with an object that no manifest refers to. *)
Definition stray : list N := [1; 2; 3].
Definition stray_name : string := Digest.path_component (sha256 stray).
Definition littered : Disk.t :=
  Disk.mk ∅ {[1 := stray]} {[1]} {[(27, stray_name) := [Some 1]]} ∅ false.
Lemma littered_may k i : may littered k i -> k = (27, stray_name) /\ i = 1.
Proof.
  unfold may, Disk.history. cbn [littered Disk.entries]. destruct (decide (k = (27, stray_name))) as [->|Hne].
  - rewrite lookup_singleton_eq. by intros [= ->]%list_elem_of_singleton.
  - rewrite lookup_singleton_ne by done. by intros ?%list_elem_of_singleton.
Qed.
Lemma littered_ok from_slice : store_ok sha256 from_slice layout littered.
Proof.
  split.
  - done.
  - intros k i [-> ->]%littered_may. by eexists.
  - intros kind name i [[= _ ->] ->]%littered_may. split; [set_solver|]. by exists stray.
  - by intros name i [[= ?] _]%littered_may.
  - by intros name i [[= ?] _]%littered_may.
  - by intros name name' i [[= ?] _]%littered_may.
  - by intros name i token bytes [[= ?] _]%littered_may.
Qed.

(** ** A collection *)

Definition entry (fd : N) : list Event :=
  [EOpenAt (At 27) stray_name REGULAR_READ_FLAGS (inr fd); stat fd stray].
Definition before_gc : list Event := [ECheck calm; ECheck calm; EMutex MTryLock Acquired; ECheck calm].
Definition after_gc : list Event :=
  [listing 25 []; listing 26 []; listing 27 [stray_name]] ++ entry 30
  ++ [listing 28 []; EFstatvfs 20 (inr (8388608, 4096)); listing 25 []; listing 27 [stray_name]] ++ entry 31
  ++ [listing 26 []; listing 28 []; ECheck calm] ++ opening 27 stray_name 32 stray ++ hashing 32 stray
  ++ [ECheck calm; ECheck calm; EUnlink 27 stray_name (inr tt); EFsync 27 (inr tt)] ++ unlock.
Definition gc_history : list Event := before_gc ++ acquire :: after_gc.
Definition policy : GcPolicy.t := GcPolicy.mk false true.
Definition gc : Os GcReport.t := CasGc.gc sha256 Demo.from_slice DemoStore.resolver cas policy Demo.limits.

Definition import_run : execution := run empty before_lock after_lock.
Definition gc_run : execution := run littered before_gc after_gc.
End DemoCas.
