(* ===== verification/StoreCasContract.v ===== *)
(** What the content-addressed store promises: imports commit, collections spare
    what is needed, and crashes at any moment leave a sound store. *)
From stdpp Require Import prelude gmap strings.
From S2P Require Import Prelude Format FormatManifest FormatDigest FormatSchema FormatArtifact.
From S2P Require Import FormatVerify Store StoreOs StoreFs StorePages StoreDemo StoreStage.
From S2P Require Import StoreStageFacts StoreWrite StoreLayout StoreCas StoreImport StoreDisk.
From S2P Require Import StoreDiskLogic StoreDiskFacts StoreDiskInv StoreImportCommit StoreGcPlan.
From S2P Require Import StoreGcFacts StoreCasDemo.
#[local] Open Scope N_scope.

(** The history is one of the program so far. *)
Definition ongoing {A} (m : Os A) (h : list Event) : Prop :=
  match m h with Waiting => True | Done _ rest => rest = [] | Mismatch => False end.

Section contract.
Context (sha256 : list N -> Digest) (from_slice : list N -> Token * option SyntaxError).
Context (RESOLVER : StoreError + Resolver) (cas : Cas.t).
Abbreviation l := (Cas.layout cas).

(** ** The life of a store: imports and collections, finished or not, and crashes *)
Inductive evolves : Disk.t -> Disk.t -> Prop :=
| evolves_import d h source expected_id limits resumes :
    collision_free sha256 expected_id -> executes sha256 from_slice l d h ->
    ongoing (CasImport.import_with_resumes sha256 from_slice RESOLVER cas source expected_id limits resumes) h.*1 ->
    evolves d (final d h)
| evolves_gc d h policy limits :
    executes sha256 from_slice l d h ->
    ongoing (CasGc.gc sha256 from_slice RESOLVER cas policy limits) h.*1 ->
    evolves d (final d h)
| evolves_crash d d' : Disk.crashed d d' -> evolves d d'.

Lemma hoare_ongoing {A} d (m : Os A) Q X h :
  hoare sha256 from_slice l d m Q X -> store_ok sha256 from_slice l d -> executes sha256 from_slice l d h ->
  ongoing m h.*1 -> store_ok sha256 from_slice l (final d h).
Proof.
  intros Hm Hd Hh. specialize (Hm Hd h Hh). unfold ongoing. destruct (m h.*1); [|by intros; apply clean_final | done].
  destruct Hm as (h1 & h2 & -> & -> & Hc & _). intros E. apply fmap_nil_inv in E as ->. rewrite app_nil_r.
  by apply clean_final.
Qed.

(** A run that has ended, on the whole history. *)
Lemma hoare_done {A} d (m : Os A) Q X h a :
  hoare sha256 from_slice l d m Q X -> store_ok sha256 from_slice l d -> executes sha256 from_slice l d h ->
  m h.*1 = Done (Ok a) [] -> Q (final d h) a.
Proof.
  intros Hm Hd Hh E. specialize (Hm Hd h Hh). rewrite E in Hm. destruct Hm as (h1 & h2 & -> & Hr & _ & H).
  symmetry in Hr. apply fmap_nil_inv in Hr as ->. by rewrite app_nil_r.
Qed.
End contract.

(** ** Imports *)

(** C3: From any sound store, whatever the file system answers and whoever held the
    lock before, an import does not panic, changes the store only under the lock and
    within its invariant at every moment, and when it succeeds the manifest with the
    expected identity and every page table and object that it refers to are in the
    store for good, also after a crash; the receipt counts each blob once. *)
Theorem import_commits sha256 from_slice RESOLVER cas d source expected_id limits resumes
    (Hlayout : layout_ok (Cas.layout cas)) (Hfit : digests_fit sha256) (Hfree : collision_free sha256 expected_id) :
  hoare sha256 from_slice (Cas.layout cas) d
    (CasImport.import_with_resumes sha256 from_slice RESOLVER cas source expected_id limits resumes)
    (fun d' r => exists bytes m, parse_with_expected_id sha256 from_slice bytes limits expected_id = Ok m
       /\ committed (Cas.layout cas) d' expected_id m /\ receipt_ok expected_id m r) (fun _ _ => True).
Proof. by apply hoare_import. Qed.

Lemma import_executed :
  executes DemoCas.sha256 Demo.from_slice DemoCas.layout DemoCas.empty DemoCas.import_run
  /\ DemoCas.import_run.*1 = DemoCas.history.
Proof.
  apply (DemoCas.run_executes Demo.from_slice DemoCas.empty DemoCas.before_lock DemoCas.after_lock);
    [vm_compute; reflexivity.. | apply DemoCas.empty_ok].
Qed.
Lemma import_succeeds :
  DemoCas.import DemoCas.history = Done (Ok (ImportReceipt.mk DemoCas.id 3 0 935)) [].
Proof. by vm_compute. Qed.
Lemma import_commits_witness :
  exists bytes m, parse_with_expected_id DemoCas.sha256 Demo.from_slice bytes Demo.limits DemoCas.id = Ok m
    /\ committed DemoCas.layout (final DemoCas.empty DemoCas.import_run) DemoCas.id m
    /\ receipt_ok DemoCas.id m (ImportReceipt.mk DemoCas.id 3 0 935).
Proof.
  destruct import_executed as [Hex Hh].
  apply (hoare_done DemoCas.sha256 Demo.from_slice DemoCas.cas DemoCas.empty _ _ _ DemoCas.import_run
    (ImportReceipt.mk DemoCas.id 3 0 935)
    (import_commits DemoCas.sha256 Demo.from_slice DemoStore.resolver DemoCas.cas DemoCas.empty DemoCas.source
       DemoCas.id Demo.limits [] DemoCas.distinct DemoCas.fits DemoCas.free)).
  - apply DemoCas.empty_ok.
  - exact Hex.
  - rewrite Hh. exact import_succeeds.
Defined.

(** ** Collections *)

(** C4: From any sound store a collection does not panic and keeps the invariant at
    every moment: what a manifest refers to is never removed.  When it succeeds,
    every page table and object that is left is one that some manifest of the store
    refers to, no staging file is left if the policy says so, and the report counts
    exactly the planned deletions; a dry run reports none. *)
Theorem gc_collects sha256 from_slice RESOLVER cas d policy limits (Hlayout : layout_ok (Cas.layout cas)) :
  hoare sha256 from_slice (Cas.layout cas) d (CasGc.gc sha256 from_slice RESOLVER cas policy limits)
    (fun d' report =>
       if GcPolicy.dry_run policy then GcReport.deleted_blobs report = 0 /\ GcReport.deleted_bytes report = 0
       else collected sha256 from_slice cas policy d'
            /\ GcReport.deleted_blobs report = GcReport.candidate_blobs report
            /\ GcReport.deleted_bytes report = GcReport.candidate_bytes report) (fun _ _ => True).
Proof. by apply hoare_gc. Qed.

Lemma gc_executed :
  executes DemoCas.sha256 Demo.from_slice DemoCas.layout DemoCas.littered DemoCas.gc_run
  /\ DemoCas.gc_run.*1 = DemoCas.gc_history.
Proof.
  apply (DemoCas.run_executes Demo.from_slice DemoCas.littered DemoCas.before_gc DemoCas.after_gc);
    [vm_compute; reflexivity.. | apply DemoCas.littered_ok].
Qed.
Definition demo_report : GcReport.t := GcReport.mk 1 4096 1 4096 false.
Lemma gc_succeeds : DemoCas.gc DemoCas.gc_history = Done (Ok demo_report) [].
Proof. by vm_compute. Qed.
Lemma gc_collects_witness :
  collected DemoCas.sha256 Demo.from_slice DemoCas.cas DemoCas.policy (final DemoCas.littered DemoCas.gc_run)
  /\ GcReport.deleted_blobs demo_report = 1 /\ GcReport.candidate_blobs demo_report = 1
  /\ Disk.current DemoCas.littered (27, DemoCas.stray_name) = Some 1
  /\ Disk.current (final DemoCas.littered DemoCas.gc_run) (27, DemoCas.stray_name) = None.
Proof.
  destruct gc_executed as [Hex Hh]. split; [|repeat split; by vm_compute].
  refine (proj1 (hoare_done DemoCas.sha256 Demo.from_slice DemoCas.cas DemoCas.littered _ _ _ DemoCas.gc_run demo_report
    (gc_collects DemoCas.sha256 Demo.from_slice DemoStore.resolver DemoCas.cas DemoCas.littered DemoCas.policy
       Demo.limits DemoCas.distinct) _ Hex _)).
  - apply DemoCas.littered_ok.
  - rewrite Hh. exact gc_succeeds.
Defined.

(** C26: Under the lock a collection, also one that fails half way, leaves every
    manifest where it was and durable if it was, writes to no file and gives no
    name; a dry run leaves every name of the store as it was. *)
Theorem gc_spares_manifests sha256 from_slice RESOLVER cas d policy limits
    (Hlayout : layout_ok (Cas.layout cas)) (Hlock : Disk.locked d = true) :
  hoare sha256 from_slice (Cas.layout cas) d (CasGc.gc_locked sha256 from_slice RESOLVER cas policy limits)
    (fun d' report => (exists cs, swept cas cs d d') /\ (GcPolicy.dry_run policy = true -> sees d d'))
    (fun d' _ => exists cs, swept cas cs d d').
Proof.
  eapply hoare_mono; [by apply hoare_gc_locked | | done]. intros d' report _ [H Hs]. split; [exact Hs|].
  intros E. unfold gc_outcome in H. rewrite E in H. by destruct H.
Qed.
Lemma gc_spares_manifests_witness :
  let d := Disk.set_locked true DemoCas.littered in
  hoare DemoCas.sha256 Demo.from_slice DemoCas.layout d
    (CasGc.gc_locked DemoCas.sha256 Demo.from_slice DemoStore.resolver DemoCas.cas DemoCas.policy Demo.limits)
    (fun d' report => (exists cs, swept DemoCas.cas cs d d') /\ (GcPolicy.dry_run DemoCas.policy = true -> sees d d'))
    (fun d' _ => exists cs, swept DemoCas.cas cs d d')
  /\ store_ok DemoCas.sha256 Demo.from_slice DemoCas.layout d.
Proof.
  intros d. split.
  - apply (gc_spares_manifests DemoCas.sha256 Demo.from_slice DemoStore.resolver DemoCas.cas); [exact DemoCas.distinct | reflexivity].
  - eapply store_ok_frame; [apply DemoCas.littered_ok | done..].
Defined.

(** ** Every moment *)

(** C2: Whatever imports and collections a store goes through, each finished,
    failed or cut off at any call, and whatever the file system loses in crashes in
    between, every digest name refers to synchronized bytes of that digest, every
    manifest parses, and all it refers to is there for good. *)
Theorem store_always_sound sha256 from_slice RESOLVER cas d d'
    (Hlayout : layout_ok (Cas.layout cas)) (Hfit : digests_fit sha256)
    (Hd : store_ok sha256 from_slice (Cas.layout cas) d) (Hlife : rtc (evolves sha256 from_slice RESOLVER cas) d d') :
  store_ok sha256 from_slice (Cas.layout cas) d'.
Proof.
  induction Hlife as [|d d1 d2 Hstep _ IH]; [done|]. apply IH. destruct Hstep.
  - eapply hoare_ongoing; [by apply hoare_import | done..].
  - eapply hoare_ongoing; [by apply hoare_gc | done..].
  - by eapply store_ok_crashed.
Qed.

(** A crash that loses nothing but what is open. *)
Definition crash_of (d : Disk.t) : Disk.t :=
  Disk.mk ∅ (Disk.contents d) (Disk.synced d) (take 1 <$> Disk.entries d) ∅ false.
Lemma crash_of_crashed d : Disk.crashed d (crash_of d).
Proof.
  split; try done. intros k. unfold Disk.history, crash_of. cbn [Disk.entries]. rewrite lookup_fmap.
  destruct (Disk.entries d !! k) as [[|v h]|]; simpl; eexists; (split; [by left | done]).
Qed.
Lemma demo_import_ongoing : ongoing DemoCas.import DemoCas.history.
Proof. unfold ongoing. by rewrite import_succeeds. Qed.
Lemma store_always_sound_witness : store_ok DemoCas.sha256 Demo.from_slice DemoCas.layout
  (crash_of (final DemoCas.empty DemoCas.import_run)).
Proof.
  apply (store_always_sound DemoCas.sha256 Demo.from_slice DemoStore.resolver DemoCas.cas DemoCas.empty).
  - exact DemoCas.distinct.
  - exact DemoCas.fits.
  - apply DemoCas.empty_ok.
  - destruct import_executed as [Hex Hh]. eapply rtc_l.
    + apply (evolves_import _ _ _ _ _ DemoCas.import_run DemoCas.source DemoCas.id Demo.limits []); [exact DemoCas.free | exact Hex|].
      rewrite Hh. exact demo_import_ongoing.
    + eapply rtc_once. apply evolves_crash, crash_of_crashed.
Defined.

(** ** Resume tokens *)

(** A text parses to a resume token exactly when it is the text written for that
    token and the token is well formed (a 256-bit digest, a nonzero 64-bit length
    and the staging name made of them and 32 hexadecimal digits); the staging name
    alone also determines the token. *)
Theorem resume_token_roundtrip text t :
  (ResumeToken.from_str text = Ok t <-> Token.wf t /\ ResumeToken.to_string t = text)
  /\ (Token.wf t -> ResumeToken.from_stage_name (ResumeToken.stage_name t) = Ok t).
Proof.
  split; [split; [apply Token.from_str_ok | intros [? <-]; by apply Token.from_to_token] | apply Token.from_stage_name_wf].
Qed.
Lemma resume_token_roundtrip_witness :
  let t := ResumeToken.mk BlobKind.Object 255 42 (ResumeToken.stage_prefix BlobKind.Object 255 42 +:+ lower_hex DemoCas.random) in
  ResumeToken.from_str (ResumeToken.to_string t) = Ok t /\ ResumeToken.from_stage_name (ResumeToken.stage_name t) = Ok t.
Proof.
  intros t. assert (Token.wf t) as Hw.
  { split; [by vm_compute | by vm_compute|]. exists (lower_hex DemoCas.random). split; [reflexivity | vm_compute; reflexivity]. }
  destruct (resume_token_roundtrip (ResumeToken.to_string t) t) as [[_ H1] H2]. split; [exact (H1 (conj Hw eq_refl)) | exact (H2 Hw)].
Defined.

(** ** Staging names that are not ours *)

(** Names of the shape of a staging file, valid UTF-8, with a two-byte and with a
    three-byte character across the end of the digest, and one where it comes after. *)
Definition split_name : string :=
  STAGE_PREFIX +:+ "-object-" +:+ bytes_string (replicate 63 97 ++ [195; 169] ++ replicate 40 97).
Definition three_byte_name : string :=
  STAGE_PREFIX +:+ "-manifest-" +:+ bytes_string (replicate 62 97 ++ [226; 130; 172] ++ replicate 40 97).
Definition late_name : string :=
  STAGE_PREFIX +:+ "-object-" +:+ bytes_string (replicate 64 97 ++ [195; 169] ++ replicate 40 97).

Lemma never_panics {A} (m : Os A) t rest : yields m (fun _ => True) -> m t <> Done Panic rest.
Proof. intros H E. apply (yields_done _ _ _ _ _ H E). Qed.

Lemma yields_read_names dir kind : yields (read_names dir kind) (fun _ => True).
Proof.
  apply yields_skip.
  { apply yields_call. intros e r H. destruct e; try done. case_match; [|done]. by injection H as <-. }
  intros answer. apply yields_skip; [apply yields_or_io|]. intros entries.
  apply yields_skip; [|intros names; by apply yields_lift].
  apply yields_lift, post_any, safe_try_fold. intros b x. apply safe_read_name.
Qed.

Lemma yields_open_entry l dir name kind writable : yields (Layout.open_entry l dir name kind writable) (fun _ => True).
Proof.
  apply yields_skip; [apply yields_openat|]. intros answer.
  apply yields_skip; [apply yields_lift; destruct answer as [[]|]; done|]. intros fd. apply yields_skip.
  - apply yields_skip; [apply yields_fstat|]. intros a. apply yields_skip; [apply yields_or_io|]. intros st.
    apply yields_guard. intros _. apply yields_guard. intros _. by apply yields_lift.
  - intros st. apply yields_guard. intros _. apply yields_guard. intros _.
    apply yields_skip; [apply yields_lift; by destruct (checked_mul _ _ _)|]. intros n. by apply yields_lift.
Qed.

Lemma stage_entry_panic l entries name t rest :
  Layout.stage_entry l entries name t = Done Panic rest <-> Token.straddles name /\ rest = t.
Proof.
  rewrite <- Token.from_stage_name_panic. unfold Layout.stage_entry, os_bind, lift.
  destruct (ResumeToken.from_stage_name name) as [token|e|]; [|split; [done | by intros []]|].
  - split; [|by intros []]. pose proof (never_panics _ t rest (yields_open_entry l (Layout.staging l) name "staging file" true)).
    destruct (Layout.open_entry _ _ _ _ _ t) as [[]| |]; try done. by intros [= <-].
  - split; [intros [= <-]; done | by intros [_ ->]].
Qed.

(** C40: Listing the staging directory panics on a file name that is well-formed
    UTF-8, where every other name that is not a staging name is refused as an unsafe
    layout.  Reading a name panics exactly when the name starts with the staging
    prefix and the name of a kind, is long enough for a staging name, and has a
    character of two, three or four bytes across the end of its digest; and a
    listing panics exactly when it reaches such a name after the names before it
    were opened without an error. *)
Theorem staging_name_panics l :
  is_utf8 (string_bytes split_name) = true
  /\ Layout.stage_entries l [EReadDir (Layout.staging l) (inr [inr split_name])] = Done Panic []
  /\ (forall name, ResumeToken.from_stage_name name = Panic <-> Token.straddles name)
  /\ forall t rest, Layout.stage_entries l t = Done Panic rest <->
       exists names t' before name after entries,
         read_names (Layout.staging l) "staging directory" t = Done (Ok names) t'
         /\ names = before ++ name :: after /\ Token.straddles name
         /\ for_each (Layout.stage_entry l) [] before t' = Done (Ok entries) rest.
Proof.
  split; [by vm_compute|]. split.
  { unfold Layout.stage_entries, read_names, read_dir, os_bind, call. rewrite N.eqb_refl. by vm_compute. }
  split; [apply Token.from_stage_name_panic|]. intros t rest. unfold Layout.stage_entries, os_bind at 1.
  pose proof (fun t' => never_panics _ t t' (yields_read_names (Layout.staging l) "staging directory")) as Hsafe.
  destruct (read_names _ _ t) as [[names|e|] t'| |]; try (split; [done | by intros (? & ? & ? & ? & ? & ? & ? & _)]).
  - rewrite for_each_panic. split.
    + intros (dn & x & more & b & t2 & -> & Hdn & [Hx ->]%stage_entry_panic). by exists (dn ++ x :: more), t', dn, x, more, b.
    + intros (? & ? & dn & x & more & b & [= <- <-] & -> & Hx & Hdn). exists dn, x, more, b, rest.
      split; [done|]. split; [done|]. by apply stage_entry_panic.
  - by destruct (Hsafe t').
Qed.
Lemma staging_name_panics_witness :
  Layout.stage_entries DemoCas.layout [EReadDir 28 (inr [inr split_name])] = Done Panic []
  /\ ResumeToken.from_stage_name three_byte_name = Panic /\ ResumeToken.from_stage_name late_name <> Panic.
Proof.
  destruct (staging_name_panics DemoCas.layout) as (_ & H & Hname & _). split; [exact H|]. split.
  - apply Hname. exists BlobKind.Manifest, (replicate 62 97 ++ [226; 130; 172] ++ replicate 40 97), 172.
    split; [by vm_compute|]. split; [by vm_compute|]. split; [by vm_compute | by vm_compute].
  - rewrite Hname. intros H'. apply Hname in H'. revert H'. by vm_compute.
Defined.
