(* ===== verification/StoreCache.v ===== *)
(** The verified page cache (crates/runnel-store/src/cache.rs): one critical
    section of the state mutex is one action of a state-and-error monad, which
    keeps the state an operation leaves behind when it fails. *)
From stdpp Require Import prelude gmap strings sorting.
From S2P Require Import Prelude Store.
#[local] Open Scope N_scope.

(** * State *)

Module Ledger.
Inductive gauge : Set :=
| page_pool_bytes | inflight_bytes | resident_bytes | retiring_bytes
| active_loads | waiters | lease_reservations | leases.
#[global] Instance eq_dec : EqDecision gauge.
Proof. solve_decision. Defined.
Definition t : Type := gauge -> N.
Definition default : t := fun _ => 0.
Definition set (g : gauge) (v : N) (l : t) : t := fun g' => if decide (g = g') then v else l g'.
End Ledger.

Module LoadingEntry.
(** A waiter is its identity; its completion channel is [World.sent].  The
    cancellation token of a load is named by the load's generation. *)
Record t : Type := mk {
  waiters : list N;
  cancellation : N;
  origin : AccessReason;
  prefetch_interest : bool;
  accepting_waiters : bool;
  last_touch : N
}.
Definition set_waiters (ws : list N) (l : t) : t :=
  mk ws (cancellation l) (origin l) (prefetch_interest l) (accepting_waiters l) (last_touch l).
Definition set_prefetch_interest (b : bool) (l : t) : t :=
  mk (waiters l) (cancellation l) (origin l) b (accepting_waiters l) (last_touch l).
Definition set_accepting_waiters (b : bool) (l : t) : t :=
  mk (waiters l) (cancellation l) (origin l) (prefetch_interest l) b (last_touch l).
Definition set_last_touch (v : N) (l : t) : t :=
  mk (waiters l) (cancellation l) (origin l) (prefetch_interest l) (accepting_waiters l) v.
End LoadingEntry.

Module ResidentEntry.
Record t : Type := mk {
  page : VerifiedPage.t;
  leases : N;
  prefetched_unused : bool;
  last_touch : N
}.
Definition set_leases (n : N) (r : t) : t := mk (page r) n (prefetched_unused r) (last_touch r).
Definition set_prefetched_unused (b : bool) (r : t) : t := mk (page r) (leases r) b (last_touch r).
Definition set_last_touch (v : N) (r : t) : t := mk (page r) (leases r) (prefetched_unused r) v.
End ResidentEntry.

Module RetiringEntry.
Record t : Type := mk { page : VerifiedPage.t; leases : N; prefetched_unused : bool }.
Definition set_leases (n : N) (r : t) : t := mk (page r) n (prefetched_unused r).
Definition set_prefetched_unused (b : bool) (r : t) : t := mk (page r) (leases r) b.
End RetiringEntry.

Inductive EntryState : Type :=
| Loading (loading : LoadingEntry.t)
| Resident (resident : ResidentEntry.t)
| Retiring (retiring : RetiringEntry.t).

Module Entry.
Record t : Type := mk {
  fingerprint : N;
  length : N;
  allocation_bytes : N;
  generation : N;
  state : EntryState
}.
Definition set_state (s : EntryState) (e : t) : t :=
  mk (fingerprint e) (length e) (allocation_bytes e) (generation e) s.
End Entry.

Module CacheState.
Record t : Type := mk {
  entries : gmap PageKey Entry.t;
  ledger : Ledger.t;
  generation : N;
  waiter : N;
  tick : N;
  shutdown : bool
}.
Definition default : t := mk ∅ Ledger.default 0 0 0 false.
Definition set_entries (es : gmap PageKey Entry.t) (s : t) : t :=
  mk es (ledger s) (generation s) (waiter s) (tick s) (shutdown s).
Definition set_ledger (l : Ledger.t) (s : t) : t :=
  mk (entries s) l (generation s) (waiter s) (tick s) (shutdown s).
Definition set_generation (g : N) (s : t) : t :=
  mk (entries s) (ledger s) g (waiter s) (tick s) (shutdown s).
Definition set_waiter (w : N) (s : t) : t :=
  mk (entries s) (ledger s) (generation s) w (tick s) (shutdown s).
Definition set_tick (v : N) (s : t) : t :=
  mk (entries s) (ledger s) (generation s) (waiter s) v (shutdown s).
Definition set_shutdown (s : t) : t :=
  mk (entries s) (ledger s) (generation s) (waiter s) (tick s) true.
End CacheState.

(** A [PageLease]: the page it pins, its key and generation. *)
Module PageLease.
Record t : Type := mk { page : VerifiedPage.t; key : PageKey; generation : N }.
#[global] Instance eq_dec : EqDecision t.
Proof. solve_decision. Defined.
End PageLease.
Module Registration.
Record t : Type := mk { key : PageKey; generation : N; waiter_id : N }.
#[global] Instance eq_dec : EqDecision t.
Proof. solve_decision. Defined.
End Registration.

(** [CacheInner] and the objects that refer to it: the live leases, the armed
    waiter registrations and the results sent on completion channels. *)
Module World.
Record t : Type := mk {
  state : CacheState.t;
  metrics : Metrics.t;
  trace : list TraceCall;
  reader : AsyncReader.t;
  cancelled : gset N;
  handles : list PageLease.t;
  registrations : list Registration.t;
  sent : list (N * result StoreError PageLease.t)
}.
Definition set_state (s : CacheState.t) (w : t) : t :=
  mk s (metrics w) (trace w) (reader w) (cancelled w) (handles w) (registrations w) (sent w).
Definition set_metrics (m : Metrics.t) (w : t) : t :=
  mk (state w) m (trace w) (reader w) (cancelled w) (handles w) (registrations w) (sent w).
Definition set_trace (l : list TraceCall) (w : t) : t :=
  mk (state w) (metrics w) l (reader w) (cancelled w) (handles w) (registrations w) (sent w).
Definition set_reader (r : AsyncReader.t) (w : t) : t :=
  mk (state w) (metrics w) (trace w) r (cancelled w) (handles w) (registrations w) (sent w).
Definition set_cancelled (c : gset N) (w : t) : t :=
  mk (state w) (metrics w) (trace w) (reader w) c (handles w) (registrations w) (sent w).
Definition set_handles (h : list PageLease.t) (w : t) : t :=
  mk (state w) (metrics w) (trace w) (reader w) (cancelled w) h (registrations w) (sent w).
Definition set_registrations (r : list Registration.t) (w : t) : t :=
  mk (state w) (metrics w) (trace w) (reader w) (cancelled w) (handles w) r (sent w).
Definition set_sent (s : list (N * result StoreError PageLease.t)) (w : t) : t :=
  mk (state w) (metrics w) (trace w) (reader w) (cancelled w) (handles w) (registrations w) s.
End World.

(** * Actions *)

Definition act (A : Type) : Type := World.t -> result StoreError A * World.t.
#[export] Instance act_ret : MRet act := fun A a w => (Ok a, w).
#[export] Instance act_bind : MBind act := fun A B f m w =>
  match m w with
  | (Ok a, w') => f a w'
  | (Err e, w') => (Err e, w')
  | (Panic, w') => (Panic, w')
  end.
Definition lift {A} (r : result StoreError A) : act A := fun w => (r, w).
Definition fail {A} (e : StoreError) : act A := lift (Err e).
Definition gets {A} (f : World.t -> A) : act A := fun w => (Ok (f w), w).
Definition modify (f : World.t -> World.t) : act unit := fun w => (Ok tt, f w).
(** The outcome of an action as a value, for a caller that recovers from it. *)
Definition attempt {A} (m : act A) : act (result StoreError A) := fun w =>
  let '(r, w') := m w in (Ok r, w').
Definition when (b : bool) (m : act unit) : act unit := if b then m else mret tt.
Fixpoint iterate {A} (f : A -> act unit) (l : list A) : act unit :=
  match l with [] => mret tt | x :: l => _ ← f x; iterate f l end.

Definition modify_state (f : CacheState.t -> CacheState.t) : act unit :=
  modify (fun w => World.set_state (f (World.state w)) w).
Definition gets_state {A} (f : CacheState.t -> A) : act A := gets (fun w => f (World.state w)).
Definition lookup_entry (key : PageKey) : act (option Entry.t) :=
  gets_state (fun s => CacheState.entries s !! key).
Definition remove_entry (key : PageKey) : act unit :=
  modify_state (fun s => CacheState.set_entries (delete key (CacheState.entries s)) s).
Definition insert_entry (key : PageKey) (e : Entry.t) : act unit :=
  modify_state (fun s => CacheState.set_entries (<[key := e]> (CacheState.entries s)) s).
Definition read_gauge (g : Ledger.gauge) : act N := gets_state (fun s => CacheState.ledger s g).
Definition set_gauge (g : Ledger.gauge) (v : N) : act unit :=
  modify_state (fun s => CacheState.set_ledger (Ledger.set g v (CacheState.ledger s)) s).
(** [state.ledger.g += v] and [-= v], checked for overflow. *)
Definition add_gauge (g : Ledger.gauge) (v : N) : act unit :=
  old ← read_gauge g; new ← lift (add_or_panic u64_max old v); set_gauge g new.
Definition sub_gauge (g : Ledger.gauge) (v : N) : act unit :=
  old ← read_gauge g; new ← lift (sub_or_panic old v); set_gauge g new.

Definition count (c : Metrics.metric) : act unit :=
  modify (fun w => World.set_metrics (Metrics.increment c (World.metrics w)) w).
Definition count_bytes (c : Metrics.metric) (v : N) : act unit :=
  modify (fun w => World.set_metrics (Metrics.add c v (World.metrics w)) w).
Definition record (o : TraceOutcome.t) (r : AccessReason) (key : PageKey) (bytes : N) : act unit :=
  modify (fun w => World.set_trace (World.trace w ++ [Call o r key bytes]) w).
Definition cancel (token : N) : act unit :=
  modify (fun w => World.set_cancelled ({[token]} ∪ World.cancelled w) w).
Definition send (waiter : N) (r : result StoreError PageLease.t) : act unit :=
  modify (fun w => World.set_sent (World.sent w ++ [(waiter, r)]) w).
(** A new [PageLease] object. *)
Definition new_lease (page : VerifiedPage.t) (key : PageKey) (generation : N) : act PageLease.t :=
  let lease := PageLease.mk page key generation in
  _ ← modify (fun w => World.set_handles (lease :: World.handles w) w);
  mret lease.

Definition next_generation : act N :=
  g ← gets_state CacheState.generation;
  g ← lift (ok_or (checked_add u64_max g 1) (Invariant "cache generation exhausted"));
  _ ← modify_state (CacheState.set_generation g);
  mret g.
Definition next_waiter : act N :=
  v ← gets_state CacheState.waiter;
  v ← lift (ok_or (checked_add u64_max v 1) (Invariant "cache waiter identity exhausted"));
  _ ← modify_state (CacheState.set_waiter v);
  mret v.
Definition next_tick : act N :=
  v ← gets_state (fun s => saturating_add u64_max (CacheState.tick s) 1);
  _ ← modify_state (CacheState.set_tick v);
  mret v.

Definition is_late_prefetch (origin : AccessReason) : bool := bool_decide (origin = Prefetch).
Definition prefetched_unused_on_admission (prefetch_interest : bool) (demand_waiters : N) : bool :=
  prefetch_interest && (demand_waiters =? 0).

Definition update_live_metrics : act unit :=
  l ← gets_state CacheState.ledger;
  _ ← lift (debug_assert (bool_decide (
        (v ← checked_add u64_max (l Ledger.inflight_bytes) (l Ledger.resident_bytes);
         checked_add u64_max v (l Ledger.retiring_bytes)) = Some (l Ledger.page_pool_bytes))));
  modify (fun w => World.set_metrics
    (Metrics.set_live (l Ledger.active_loads) (l Ledger.page_pool_bytes) (l Ledger.inflight_bytes)
       (l Ledger.resident_bytes) (l Ledger.retiring_bytes) (l Ledger.leases) (World.metrics w)) w).

(** * CacheInner *)

Section with_config.
Context (config : CacheConfig.t).

Definition validate_spec (spec : PageSpec.t) : result StoreError N :=
  let length := PageSpec.length spec in
  _ ← guard_err ((length =? 0) || (CacheConfig.max_page_bytes config <? length))
        (ResourceExhausted "supported page bytes" length (CacheConfig.max_page_bytes config));
  allocation_bytes ← PageSpec.allocation_bytes spec;
  _ ← guard_err ((CacheConfig.page_pool_capacity config <? allocation_bytes)
                 || (CacheConfig.max_inflight_bytes config <? allocation_bytes))
        (ResourceExhausted "aligned page allocation" allocation_bytes
           (N.min (CacheConfig.page_pool_capacity config)
              (CacheConfig.max_inflight_bytes config)));
  Ok allocation_bytes.

Definition validate_identity (entry : Entry.t) (spec : PageSpec.t) (allocation_bytes : N)
    : result StoreError unit :=
  guard_err (negb (Entry.length entry =? PageSpec.length spec)
             || negb (Entry.allocation_bytes entry =? allocation_bytes)
             || negb (Entry.fingerprint entry =? PageSpec.fingerprint spec))
    (Integrity "cache key fingerprint mismatch").

Definition reserve_waiter (s : CacheState.t) (per_page_waiters : N) : result StoreError unit :=
  let l := CacheState.ledger s in
  _ ← guard_err (CacheConfig.max_waiters config <=? l Ledger.waiters)
        (ResourceExhausted "cache waiters" 1 (CacheConfig.max_waiters config));
  _ ← guard_err (CacheConfig.max_waiters_per_page config <=? per_page_waiters)
        (ResourceExhausted "per-page cache waiters" 1 (CacheConfig.max_waiters_per_page config));
  held ← add_or_panic usize_max (l Ledger.leases) (l Ledger.lease_reservations);
  guard_err (CacheConfig.max_leases config <=? held)
    (ResourceExhausted "cache leases" 1 (CacheConfig.max_leases config)).

Definition evict_unleased (reason : AccessReason) (key : PageKey) : act unit :=
  found ← lookup_entry key;
  match found with
  | None => mret tt
  | Some entry =>
      _ ← remove_entry key;
      match Entry.state entry with
      | Resident resident =>
          _ ← lift (debug_assert (ResidentEntry.leases resident =? 0));
          _ ← sub_gauge Ledger.page_pool_bytes (Entry.allocation_bytes entry);
          _ ← sub_gauge Ledger.resident_bytes (Entry.allocation_bytes entry);
          _ ← count Metrics.evictions;
          _ ← record TraceOutcome.Evicted reason key (Entry.length entry);
          when (ResidentEntry.prefetched_unused resident)
            (_ ← count Metrics.wasted_prefetches;
             record TraceOutcome.PrefetchWasted Prefetch key (Entry.length entry))
      | _ => insert_entry key entry
      end
  end.

(** The unleased residents, by [(last_touch, key)]. *)
Definition candidates (s : CacheState.t) : list (PageKey * N * N) :=
  sort_by_key (fun '(key, last_touch, _) => Z.of_N last_touch :: sort_key key)
    (omap (fun '(key, entry) =>
       match Entry.state entry with
       | Resident resident =>
           if ResidentEntry.leases resident =? 0
           then Some (key, ResidentEntry.last_touch resident, Entry.allocation_bytes entry)
           else None
       | _ => None
       end) (map_to_list (CacheState.entries s))).

(** The victim loop: projected pool bytes and entries, and the victims so far. *)
Fixpoint plan_victims (maximum_retained : N) (pool entries : N) (victims : list PageKey)
    (l : list (PageKey * N * N)) : result StoreError (N * N * list PageKey) :=
  match l with
  | [] => Ok (pool, entries, victims)
  | (key, _, bytes) :: l =>
      if (pool <=? maximum_retained) && (entries <? CacheConfig.max_entries config)
      then Ok (pool, entries, victims)
      else
        pool ← ok_or (checked_sub pool bytes)
          (Invariant "cache victim charge exceeded the page-pool ledger");
        entries ← ok_or (checked_sub entries 1)
          (Invariant "cache victim count exceeded retained entries");
        plan_victims maximum_retained pool entries (victims ++ [key]) l
  end.

Definition reserve_load (allocation_bytes : N) (reason : AccessReason) : act bool :=
  s ← gets_state id;
  let l := CacheState.ledger s in
  if CacheConfig.max_inflight_bytes config <? allocation_bytes then mret false else
  headroom ← lift (sub_or_panic (CacheConfig.max_inflight_bytes config) allocation_bytes);
  if (headroom <? l Ledger.inflight_bytes)
     || (CacheConfig.max_loads config <=? l Ledger.active_loads)
  then mret false else
  maximum_retained_before_load ←
    lift (sub_or_panic (CacheConfig.page_pool_capacity config) allocation_bytes);
  '(projected_pool_bytes, projected_entries, victims) ←
    lift (plan_victims maximum_retained_before_load (l Ledger.page_pool_bytes)
            (N.of_nat (size (CacheState.entries s))) [] (candidates s));
  if (maximum_retained_before_load <? projected_pool_bytes)
     || (CacheConfig.max_entries config <=? projected_entries)
  then mret false else
  reserved_pool_bytes ← lift (ok_or (checked_add u64_max projected_pool_bytes allocation_bytes)
    (ArithmeticOverflow "reserving an aligned cache page allocation"));
  reserved_inflight_bytes ← lift (ok_or (checked_add u64_max (l Ledger.inflight_bytes)
                                           allocation_bytes)
    (ArithmeticOverflow "reserving aligned in-flight page bytes"));
  reserved_loads ← lift (ok_or (checked_add usize_max (l Ledger.active_loads) 1)
    (ArithmeticOverflow "reserving a cache load slot"));
  _ ← iterate (evict_unleased reason) victims;
  s ← gets_state id;
  _ ← lift (debug_assert (CacheState.ledger s Ledger.page_pool_bytes =? projected_pool_bytes));
  _ ← lift (debug_assert (N.of_nat (size (CacheState.entries s)) =? projected_entries));
  _ ← set_gauge Ledger.active_loads reserved_loads;
  _ ← set_gauge Ledger.page_pool_bytes reserved_pool_bytes;
  _ ← set_gauge Ledger.inflight_bytes reserved_inflight_bytes;
  mret true.

(** [submit_load] with a fresh token; the outcome is a value because the caller
    recovers from it. *)
Definition submit_load (key : PageKey) (generation : N) : act (result StoreError unit) :=
  r ← gets World.reader;
  c ← gets World.cancelled;
  match AsyncReader.submit_observed (key, generation)
          (Control.mk (bool_decide (generation ∈ c)) false) r with
  | Ok r => _ ← modify (World.set_reader r); mret (Ok tt)
  | Err e => mret (Err e)
  | Panic => lift Panic
  end.

Definition unwind_unsubmitted_load (key : PageKey) (generation : N) : act unit :=
  found ← lookup_entry key;
  match found with
  | None => fail (Invariant "unsubmitted cache load lost its reserved entry")
  | Some entry =>
      _ ← remove_entry key;
      if negb (Entry.generation entry =? generation) then
        _ ← insert_entry key entry;
        fail (Invariant "unsubmitted cache load changed generation")
      else
        match Entry.state entry with
        | Loading loading =>
            let n := lenN (LoadingEntry.waiters loading) in
            _ ← sub_gauge Ledger.active_loads 1;
            _ ← sub_gauge Ledger.page_pool_bytes (Entry.allocation_bytes entry);
            _ ← sub_gauge Ledger.inflight_bytes (Entry.allocation_bytes entry);
            _ ← sub_gauge Ledger.waiters n;
            sub_gauge Ledger.lease_reservations n
        | _ =>
            _ ← insert_entry key entry;
            fail (Invariant "unsubmitted cache load changed state")
        end
  end.

Definition mark_prefetch_use (key : PageKey) (generation : N) : act unit :=
  found ← lookup_entry key;
  match found with
  | None => mret tt
  | Some entry =>
      if negb (Entry.generation entry =? generation) then mret tt
      else
        let useful :=
          _ ← count Metrics.useful_prefetches;
          record TraceOutcome.PrefetchUseful Demand key (Entry.length entry) in
        match Entry.state entry with
        | Loading _ => mret tt
        | Resident r =>
            when (ResidentEntry.prefetched_unused r)
              (_ ← insert_entry key (Entry.set_state
                     (Resident (ResidentEntry.set_prefetched_unused false r)) entry);
               useful)
        | Retiring r =>
            when (RetiringEntry.prefetched_unused r)
              (_ ← insert_entry key (Entry.set_state
                     (Retiring (RetiringEntry.set_prefetched_unused false r)) entry);
               useful)
        end
  end.

(** ** Demand *)

(** The outcome of the first critical section of [get]: a lease at once, or the
    registration of a waiter. *)
Inductive Access : Type :=
| Immediate (lease : PageLease.t)
| Waiting (r : Registration.t).

(** The [Resident] arm; [entry] has been removed. *)
Definition get_hit (spec : PageSpec.t) (tick : N) (entry : Entry.t) (resident : ResidentEntry.t)
    : act Access :=
  let key := PageSpec.key spec in
  _ ← count Metrics.hits;
  l ← gets_state CacheState.ledger;
  held ← lift (add_or_panic usize_max (l Ledger.leases) (l Ledger.lease_reservations));
  if CacheConfig.max_leases config <=? held then
    _ ← insert_entry key entry;
    fail (ResourceExhausted "cache leases" 1 (CacheConfig.max_leases config))
  else
    n ← lift (add_or_panic usize_max (ResidentEntry.leases resident) 1);
    _ ← add_gauge Ledger.leases 1;
    lease ← new_lease (ResidentEntry.page resident) key (Entry.generation entry);
    _ ← insert_entry key (Entry.set_state
          (Resident (ResidentEntry.set_leases n (ResidentEntry.set_last_touch tick resident))) entry);
    _ ← record TraceOutcome.Hit Demand key (PageSpec.length spec);
    mret (Immediate lease).

(** The [Loading] arm. *)
Definition get_join (spec : PageSpec.t) (tick : N) (entry : Entry.t) (loading : LoadingEntry.t)
    : act Access :=
  let key := PageSpec.key spec in
  let bytes := PageSpec.length spec in
  _ ← count Metrics.misses;
  _ ← record TraceOutcome.Miss Demand key bytes;
  if negb (LoadingEntry.accepting_waiters loading) then
    _ ← insert_entry key entry;
    fail (ResourceExhausted "page reload pending cancellation" bytes
            (CacheConfig.page_pool_capacity config))
  else
    s ← gets_state id;
    admitted ← attempt (_ ← lift (reserve_waiter s (lenN (LoadingEntry.waiters loading)));
                        next_waiter);
    match admitted with
    | Err e => _ ← insert_entry key entry; fail e
    | Panic => lift Panic
    | Ok waiter_id =>
        let loading' := LoadingEntry.set_last_touch tick
              (LoadingEntry.set_waiters (LoadingEntry.waiters loading ++ [waiter_id]) loading) in
        _ ← add_gauge Ledger.waiters 1;
        _ ← add_gauge Ledger.lease_reservations 1;
        outcome ← (if is_late_prefetch (LoadingEntry.origin loading)
                   then _ ← count Metrics.late_prefetches; mret TraceOutcome.LatePrefetch
                   else _ ← count Metrics.coalesced_demands; mret TraceOutcome.LoadCoalesced);
        _ ← insert_entry key (Entry.set_state (Loading loading') entry);
        _ ← record outcome Demand key bytes;
        mret (Waiting (Registration.mk key (Entry.generation entry) waiter_id))
    end.

(** The absent arm. *)
Definition get_miss (in_runtime : bool) (spec : PageSpec.t) (allocation_bytes tick : N)
    : act Access :=
  let key := PageSpec.key spec in
  let bytes := PageSpec.length spec in
  _ ← count Metrics.misses;
  _ ← record TraceOutcome.Miss Demand key bytes;
  s ← gets_state id;
  _ ← lift (reserve_waiter s 0);
  _ ← lift (guard_err (negb in_runtime) (Invariant "cache miss requires a Tokio runtime"));
  generation ← next_generation;
  waiter_id ← next_waiter;
  reserved ← reserve_load allocation_bytes Demand;
  if negb reserved then
    fail (ResourceExhausted "page pool" bytes (CacheConfig.page_pool_capacity config))
  else
    _ ← add_gauge Ledger.waiters 1;
    _ ← add_gauge Ledger.lease_reservations 1;
    _ ← insert_entry key (Entry.mk (PageSpec.fingerprint spec) bytes allocation_bytes generation
          (Loading (LoadingEntry.mk [waiter_id] generation Demand false true tick)));
    submitted ← submit_load key generation;
    match submitted with
    | Ok _ =>
        _ ← record TraceOutcome.LoadStarted Demand key bytes;
        mret (Waiting (Registration.mk key generation waiter_id))
    | Err e =>
        _ ← unwind_unsubmitted_load key generation;
        _ ← update_live_metrics;
        fail e
    | Panic => lift Panic
    end.

(** [get] up to the end of its first critical section. *)
Definition get_begin (in_runtime : bool) (spec : PageSpec.t) (control : Control.t) : act Access :=
  let key := PageSpec.key spec in
  _ ← lift (Control.check control);
  _ ← count_bytes Metrics.demand_bytes (PageSpec.length spec);
  allocation_bytes ← lift (validate_spec spec);
  stopped ← gets_state CacheState.shutdown;
  if (stopped : bool) then fail Shutdown
  else
    tick ← next_tick;
    found ← lookup_entry key;
    access ←
      match found with
      | Some entry =>
          _ ← remove_entry key;
          match validate_identity entry spec allocation_bytes with
          | Err e => _ ← insert_entry key entry; fail e
          | Panic => lift Panic
          | Ok _ =>
              match Entry.state entry with
              | Resident resident => get_hit spec tick entry resident
              | Loading loading => get_join spec tick entry loading
              | Retiring _ =>
                  _ ← insert_entry key entry;
                  fail (ResourceExhausted "retiring page" (PageSpec.length spec)
                          (CacheConfig.page_pool_capacity config))
              end
          end
      | None => get_miss in_runtime spec allocation_bytes tick
      end;
    _ ← update_live_metrics;
    mret access.

(** The registration of a waiter is armed while its [get] is suspended. *)
Definition arm (r : Registration.t) : act unit :=
  modify (fun w => World.set_registrations (r :: World.registrations w) w).
Definition get_enter (in_runtime : bool) (spec : PageSpec.t) (control : Control.t) : act Access :=
  access ← get_begin in_runtime spec control;
  match access with
  | Immediate _ => mret access
  | Waiting r => _ ← arm r; mret access
  end.

(** [get] until it returns a lease or suspends on its receiver. *)
Definition get (in_runtime : bool) (spec : PageSpec.t) (control : Control.t) : act Access :=
  access ← get_enter in_runtime spec control;
  match access with
  | Immediate lease =>
      _ ← mark_prefetch_use (PageLease.key lease) (PageLease.generation lease);
      mret access
  | Waiting _ => mret access
  end.

(** ** Prefetch *)

Inductive PrefetchOutcome : Set := Started | CoalescedWithDemand | Redundant | DroppedBudget.

Definition prefetch_present (spec : PageSpec.t) (entry : Entry.t) : act (PrefetchOutcome * Entry.t) :=
  let key := PageSpec.key spec in
  let bytes := PageSpec.length spec in
  let dropped :=
    _ ← count Metrics.dropped_prefetches;
    _ ← record TraceOutcome.PrefetchDropped Prefetch key bytes;
    mret (DroppedBudget, entry) in
  let redundant :=
    _ ← count Metrics.redundant_prefetches;
    _ ← record TraceOutcome.PrefetchRedundant Prefetch key bytes;
    mret (Redundant, entry) in
  match Entry.state entry with
  | Loading loading =>
      if LoadingEntry.accepting_waiters loading
         && bool_decide (LoadingEntry.origin loading = Demand)
         && negb (LoadingEntry.prefetch_interest loading)
      then
        _ ← count Metrics.coalesced_prefetches;
        _ ← record TraceOutcome.PrefetchCoalesced Prefetch key bytes;
        mret (CoalescedWithDemand,
              Entry.set_state (Loading (LoadingEntry.set_prefetch_interest true loading)) entry)
      else if negb (LoadingEntry.accepting_waiters loading) then dropped
      else redundant
  | Resident _ => redundant
  | Retiring _ => dropped
  end.

Definition prefetch_absent (in_runtime : bool) (spec : PageSpec.t) (allocation_bytes : N)
    : act PrefetchOutcome :=
  let key := PageSpec.key spec in
  let bytes := PageSpec.length spec in
  let dropped :=
    _ ← count Metrics.dropped_prefetches;
    _ ← record TraceOutcome.PrefetchDropped Prefetch key bytes;
    mret DroppedBudget in
  _ ← lift (guard_err (negb in_runtime) (Invariant "cache prefetch requires a Tokio runtime"));
  tick ← next_tick;
  generation ← next_generation;
  reserved ← reserve_load allocation_bytes Prefetch;
  if negb reserved then dropped
  else
    _ ← insert_entry key (Entry.mk (PageSpec.fingerprint spec) bytes allocation_bytes generation
          (Loading (LoadingEntry.mk [] generation Prefetch true true tick)));
    submitted ← submit_load key generation;
    match submitted with
    | Ok _ =>
        _ ← record TraceOutcome.LoadStarted Prefetch key bytes;
        _ ← update_live_metrics;
        mret Started
    | Err e =>
        _ ← unwind_unsubmitted_load key generation;
        _ ← update_live_metrics;
        if decide (e = QueueFull) then dropped else fail e
    | Panic => lift Panic
    end.

Definition prefetch (in_runtime : bool) (spec : PageSpec.t) (control : Control.t)
    : act PrefetchOutcome :=
  let key := PageSpec.key spec in
  _ ← lift (Control.check control);
  _ ← count_bytes Metrics.prefetch_bytes (PageSpec.length spec);
  allocation_bytes ← lift (validate_spec spec);
  stopped ← gets_state CacheState.shutdown;
  if (stopped : bool) then fail Shutdown
  else
    found ← lookup_entry key;
    match found with
    | Some entry =>
        _ ← remove_entry key;
        match validate_identity entry spec allocation_bytes with
        | Err e => _ ← insert_entry key entry; fail e
        | Panic => lift Panic
        | Ok _ =>
            '(outcome, entry) ← prefetch_present spec entry;
            _ ← insert_entry key entry;
            _ ← update_live_metrics;
            mret outcome
        end
    | None => prefetch_absent in_runtime spec allocation_bytes
    end.

(** ** Completion *)

(** [complete_load]: publish the page to the cache and its waiters, or release
    the charge and fail them.  The answers are sent in this step; the source sends
    them right after it has released the mutex. *)
Definition complete_load (key : PageKey) (generation : N) (outcome : result StoreError VerifiedPage.t)
    : act unit :=
  found ← lookup_entry key;
  match found with
  | None => mret tt
  | Some entry =>
      _ ← remove_entry key;
      if negb (Entry.generation entry =? generation) then insert_entry key entry
      else
        match Entry.state entry with
        | Loading loading =>
            let waiters := LoadingEntry.waiters loading in
            let n := lenN waiters in
            let bytes := Entry.allocation_bytes entry in
            let origin := LoadingEntry.origin loading in
            _ ← sub_gauge Ledger.active_loads 1;
            _ ← sub_gauge Ledger.inflight_bytes bytes;
            _ ← sub_gauge Ledger.waiters n;
            _ ← sub_gauge Ledger.lease_reservations n;
            stopped ← gets_state CacheState.shutdown;
            let publish := LoadingEntry.accepting_waiters loading && negb stopped in
            let refuse e :=
              _ ← sub_gauge Ledger.page_pool_bytes bytes;
              mret ((fun w => (w, Err e)) <$> waiters) in
            deliveries ←
              match outcome with
              | Ok page =>
                  if publish then
                    if bool_decide (VerifiedPage.key page <> key)
                       || negb (lenN (VerifiedPage.bytes page) =? Entry.length entry)
                       || (bytes <? VerifiedPage.allocation_bytes page)
                    then
                      d ← refuse (Invariant
                        "verified reader exceeded its reserved page identity or allocation");
                      _ ← record TraceOutcome.LoadFailed origin key (Entry.length entry);
                      mret d
                    else
                      _ ← add_gauge Ledger.resident_bytes bytes;
                      _ ← add_gauge Ledger.leases n;
                      _ ← count Metrics.admissions;
                      let lease := PageLease.mk page key generation in
                      _ ← modify (fun w => World.set_handles
                            (replicate (length waiters) lease ++ World.handles w) w);
                      _ ← insert_entry key (Entry.mk (Entry.fingerprint entry) (Entry.length entry)
                            bytes generation
                            (Resident (ResidentEntry.mk page n
                               (prefetched_unused_on_admission
                                  (LoadingEntry.prefetch_interest loading) n)
                               (LoadingEntry.last_touch loading))));
                      _ ← record TraceOutcome.Admitted_ origin key (Entry.length entry);
                      mret ((fun w => (w, Ok lease)) <$> waiters)
                  else refuse (if (stopped : bool) then Shutdown else Cancelled)
              | Err e =>
                  d ← refuse e;
                  _ ← record TraceOutcome.LoadFailed origin key (Entry.length entry);
                  mret d
              | Panic => lift Panic
              end;
            _ ← update_live_metrics;
            iterate (fun '(w, r) => send w r) deliveries
        | _ => insert_entry key entry
        end
  end.

Definition finish_observed_load (key : PageKey) (generation : N)
    (outcome : result StoreError VerifiedPage.t) (physical_bytes io_nanoseconds : N) : act unit :=
  _ ← count_bytes Metrics.physical_read_bytes physical_bytes;
  _ ← count_bytes Metrics.io_nanoseconds io_nanoseconds;
  complete_load key generation outcome.

(** ** Withdrawal and release *)

(** [Vec::swap_remove]. *)
Definition swap_remove {A} (i : nat) (l : list A) : list A :=
  match last l with
  | None => l
  | Some x => let l' := take (length l - 1) l in if decide (i = length l') then l' else <[i := x]> l'
  end.

Definition withdraw_waiter (key : PageKey) (generation waiter_id : N) : act unit :=
  found ← lookup_entry key;
  match found with
  | None => mret tt
  | Some entry =>
      _ ← remove_entry key;
      if negb (Entry.generation entry =? generation) then insert_entry key entry
      else
        match Entry.state entry with
        | Loading loading =>
            match list_find (eq waiter_id) (LoadingEntry.waiters loading) with
            | None => insert_entry key entry
            | Some (position, _) =>
                let loading :=
                  LoadingEntry.set_waiters (swap_remove position (LoadingEntry.waiters loading))
                    loading in
                _ ← sub_gauge Ledger.waiters 1;
                _ ← sub_gauge Ledger.lease_reservations 1;
                loading ←
                  (if bool_decide (LoadingEntry.waiters loading = [])
                      && negb (LoadingEntry.prefetch_interest loading)
                   then _ ← cancel (LoadingEntry.cancellation loading);
                        mret (LoadingEntry.set_accepting_waiters false loading)
                   else mret loading);
                _ ← insert_entry key (Entry.set_state (Loading loading) entry);
                update_live_metrics
            end
        | _ => insert_entry key entry
        end
  end.

Definition release_lease (key : PageKey) (generation : N) : act unit :=
  found ← lookup_entry key;
  match found with
  | None => mret tt
  | Some entry =>
      _ ← remove_entry key;
      if negb (Entry.generation entry =? generation) then insert_entry key entry
      else
        _ ← match Entry.state entry with
            | Resident r =>
                if 0 <? ResidentEntry.leases r then
                  n ← lift (sub_or_panic (ResidentEntry.leases r) 1);
                  _ ← sub_gauge Ledger.leases 1;
                  insert_entry key (Entry.set_state (Resident (ResidentEntry.set_leases n r)) entry)
                else insert_entry key entry
            | Retiring r =>
                if 0 <? RetiringEntry.leases r then
                  n ← lift (sub_or_panic (RetiringEntry.leases r) 1);
                  _ ← sub_gauge Ledger.leases 1;
                  if n =? 0 then
                    _ ← sub_gauge Ledger.page_pool_bytes (Entry.allocation_bytes entry);
                    _ ← sub_gauge Ledger.retiring_bytes (Entry.allocation_bytes entry);
                    when (RetiringEntry.prefetched_unused r)
                      (_ ← count Metrics.wasted_prefetches;
                       record TraceOutcome.PrefetchWasted Prefetch key (Entry.length entry))
                  else
                    insert_entry key (Entry.set_state (Retiring (RetiringEntry.set_leases n r)) entry)
                else insert_entry key entry
            | Loading _ => insert_entry key entry
            end;
        update_live_metrics
  end.

(** [WaiterRegistration]: an armed registration is withdrawn at most once. *)
Definition disarm (r : Registration.t) : act unit :=
  modify (fun w => World.set_registrations
    (filter (fun r' => r' <> r) (World.registrations w)) w).
Definition withdraw (r : Registration.t) : act unit :=
  armed ← gets (fun w => bool_decide (r ∈ World.registrations w));
  if (armed : bool) then
    _ ← withdraw_waiter (Registration.key r) (Registration.generation r) (Registration.waiter_id r);
    disarm r
  else mret tt.

(** The two ways out of the polling loop of [get]. *)
Definition poll_cancelled (r : Registration.t) (bytes nanoseconds : N) : act unit :=
  _ ← withdraw r;
  _ ← count_bytes Metrics.wait_nanoseconds nanoseconds;
  record TraceOutcome.Cancelled Demand (Registration.key r) bytes.
Definition poll_received (r : Registration.t) (nanoseconds : N) : act unit :=
  _ ← disarm r;
  count_bytes Metrics.wait_nanoseconds nanoseconds.

(** [Drop for PageLease]: the object goes away, then its lease. *)
Definition drop_lease (lease : PageLease.t) : act unit :=
  _ ← modify (fun w => World.set_handles
        (match list_find (eq lease) (World.handles w) with
         | Some (i, _) => delete i (World.handles w)
         | None => World.handles w
         end) w);
  release_lease (PageLease.key lease) (PageLease.generation lease).

(** ** Invalidation and shutdown *)

(** The arms that [invalidate] and [shutdown] share for a resident page; the
    entry has been removed and is retained when it is leased. *)
Definition retire_resident (key : PageKey) (entry : Entry.t) (resident : ResidentEntry.t)
    (traced : bool) : act unit :=
  let bytes := Entry.allocation_bytes entry in
  if ResidentEntry.leases resident =? 0 then
    _ ← sub_gauge Ledger.page_pool_bytes bytes;
    _ ← sub_gauge Ledger.resident_bytes bytes;
    when (ResidentEntry.prefetched_unused resident)
      (_ ← count Metrics.wasted_prefetches;
       record TraceOutcome.PrefetchWasted Prefetch key (Entry.length entry))
  else
    _ ← sub_gauge Ledger.resident_bytes bytes;
    _ ← add_gauge Ledger.retiring_bytes bytes;
    _ ← when traced (record TraceOutcome.Retired Demand key (Entry.length entry));
    insert_entry key (Entry.set_state
      (Retiring (RetiringEntry.mk (ResidentEntry.page resident) (ResidentEntry.leases resident)
                   (ResidentEntry.prefetched_unused resident))) entry).

Definition invalidate (key : PageKey) : act bool :=
  found ← lookup_entry key;
  match found with
  | None => mret false
  | Some entry =>
      _ ← remove_entry key;
      _ ← match Entry.state entry with
          | Loading loading =>
              _ ← cancel (LoadingEntry.cancellation loading);
              insert_entry key (Entry.set_state
                (Loading (LoadingEntry.set_accepting_waiters false loading)) entry)
          | Resident resident => retire_resident key entry resident true
          | Retiring _ => insert_entry key entry
          end;
      _ ← update_live_metrics;
      mret true
  end.

(** One iteration of the loop of [shutdown]; the result is the completions to fail. *)
Definition shutdown_entry (key : PageKey) : act (list N) :=
  found ← lookup_entry key;
  match found with
  | None => mret []
  | Some entry =>
      _ ← remove_entry key;
      match Entry.state entry with
      | Loading loading =>
          let n := lenN (LoadingEntry.waiters loading) in
          _ ← cancel (LoadingEntry.cancellation loading);
          _ ← sub_gauge Ledger.waiters n;
          _ ← sub_gauge Ledger.lease_reservations n;
          _ ← insert_entry key (Entry.set_state
                (Loading (LoadingEntry.set_waiters []
                   (LoadingEntry.set_accepting_waiters false loading))) entry);
          mret (LoadingEntry.waiters loading)
      | Resident resident => _ ← retire_resident key entry resident false; mret []
      | Retiring _ => _ ← insert_entry key entry; mret []
      end
  end.

Fixpoint shutdown_entries (keys : list PageKey) : act (list N) :=
  match keys with
  | [] => mret []
  | key :: keys =>
      failures ← shutdown_entry key;
      rest ← shutdown_entries keys;
      mret (failures ++ rest)
  end.

(** [keys] is the iteration order of the hash map. *)
Definition shutdown (keys : list PageKey) : act unit :=
  stopped ← gets_state CacheState.shutdown;
  if (stopped : bool) then mret tt
  else
    _ ← modify_state CacheState.set_shutdown;
    failures ← shutdown_entries keys;
    _ ← update_live_metrics;
    _ ← iterate (fun w => send w (Err Shutdown)) failures;
    modify (fun w => World.set_reader (AsyncReader.close (World.reader w)) w).

(** * The cache as a transition system

    The operations of every thread that shares the cache, one critical section
    each. *)
Inductive Op : Type :=
| OpGet (in_runtime : bool) (spec : PageSpec.t) (control : Control.t)
| OpMark (lease : PageLease.t)
| OpPrefetch (in_runtime : bool) (spec : PageSpec.t) (control : Control.t)
| OpReceive
| OpComplete (key : PageKey) (generation : N) (outcome : StoreError + VerifiedPage.t)
    (physical_bytes io_nanoseconds : N)
| OpCancelled (r : Registration.t) (bytes nanoseconds : N)
| OpReceived (r : Registration.t) (nanoseconds : N)
| OpDropWaiter (r : Registration.t)
| OpDropLease (lease : PageLease.t)
| OpInvalidate (key : PageKey)
| OpShutdown (keys : list PageKey).

(** When an operation can run: leases and registrations belong to their owner,
    only a running request completes, and a shutdown walks the keys there are. *)
Definition enabled (op : Op) (w : World.t) : Prop :=
  match op with
  | OpMark lease | OpDropLease lease => lease ∈ World.handles w
  | OpComplete key generation _ _ _ => (key, generation) ∈ AsyncReader.running (World.reader w)
  | OpCancelled r _ _ | OpDropWaiter r => r ∈ World.registrations w
  | OpReceived r _ => r ∈ World.registrations w /\ Registration.waiter_id r ∈ (World.sent w).*1
  | OpShutdown keys => keys ≡ₚ (map_to_list (CacheState.entries (World.state w))).*1
  | _ => True
  end.

Definition discard {A} (m : act A) : act unit := _ ← m; mret tt.
Definition exec (op : Op) : act unit :=
  match op with
  | OpGet in_runtime spec control => discard (get_enter in_runtime spec control)
  | OpMark lease => mark_prefetch_use (PageLease.key lease) (PageLease.generation lease)
  | OpPrefetch in_runtime spec control => discard (prefetch in_runtime spec control)
  | OpReceive => modify (fun w =>
      match AsyncReader.receive (World.reader w) with
      | Some (_, r) => World.set_reader r w
      | None => w
      end)
  | OpComplete key generation outcome physical_bytes io_nanoseconds =>
      _ ← modify (fun w =>
            World.set_reader (AsyncReader.finished (key, generation) (World.reader w)) w);
      finish_observed_load key generation
        (match outcome with inl e => Err e | inr page => Ok page end)
        physical_bytes io_nanoseconds
  | OpCancelled r bytes nanoseconds => poll_cancelled r bytes nanoseconds
  | OpReceived r nanoseconds => poll_received r nanoseconds
  | OpDropWaiter r => withdraw r
  | OpDropLease lease => drop_lease lease
  | OpInvalidate key => discard (invalidate key)
  | OpShutdown keys => shutdown keys
  end.

Definition initial (reader : AsyncReader.t) : World.t :=
  World.mk CacheState.default Metrics.default [] reader ∅ [] [] [].
(** [PageCache::new]. *)
Definition new (reader : AsyncReader.t) : result StoreError World.t :=
  _ ← CacheConfig.validate config; Ok (initial reader).

(** The worlds the threads can reach, whatever the interleaving. *)
Inductive reachable (reader : AsyncReader.t) : World.t -> Prop :=
| reach_initial : reachable reader (initial reader)
| reach_step op w :
    reachable reader w -> enabled op w -> reachable reader (exec op w).2.
End with_config.
