(* ===== verification/StoreCacheLogic.v ===== *)
(** A program logic for the cache's actions, its state invariant, and the
    specification of the operations that reserve and release page-pool bytes. *)
From stdpp Require Import prelude gmap strings sorting.
From S2P Require Import Prelude Store StoreCache.
#[local] Open Scope N_scope.
#[local] Arguments u64_max : simpl never.

(** * Weakest preconditions

    [wp m Q X w]: run in [w], [m] does not panic, returns a value and a world
    that satisfy [Q], or fails with an error and a world that satisfy [X]. *)
Definition wp {A} (m : act A) (Q : A -> World.t -> Prop) (X : StoreError -> World.t -> Prop)
    (w : World.t) : Prop :=
  match m w with
  | (Ok a, w') => Q a w'
  | (Err e, w') => X e w'
  | (Panic, _) => False
  end.

Section wp.
Implicit Types (w : World.t) (X : StoreError -> World.t -> Prop).

Lemma wp_bind {A B} (m : act A) (f : A -> act B) Q X w :
  wp m (fun a w' => wp (f a) Q X w') X w -> wp (m ≫= f) Q X w.
Proof. unfold wp, mbind, act_bind. by destruct (m w) as [[] ?]. Qed.

Lemma wp_mono {A} (m : act A) (Q Q' : A -> World.t -> Prop) X X' w :
  wp m Q X w -> (forall a w', Q a w' -> Q' a w') -> (forall e w', X e w' -> X' e w') ->
  wp m Q' X' w.
Proof. unfold wp. destruct (m w) as [[] ?]; eauto. Qed.

Lemma wp_ret {A} (a : A) (Q : A -> World.t -> Prop) X w : Q a w -> wp (mret a) Q X w.
Proof. done. Qed.
Lemma wp_gets {A} (f : World.t -> A) Q X w : Q (f w) w -> wp (gets f) Q X w.
Proof. done. Qed.
Lemma wp_modify f (Q : unit -> World.t -> Prop) X w : Q tt (f w) -> wp (modify f) Q X w.
Proof. done. Qed.
Lemma wp_fail {A} e (Q : A -> World.t -> Prop) X w : X e w -> wp (fail e) Q X w.
Proof. done. Qed.
Lemma wp_lift {A} (r : result StoreError A) (Q : A -> World.t -> Prop) X w :
  post r (fun a => Q a w) (fun e => X e w) -> wp (lift r) Q X w.
Proof. by destruct r. Qed.
Lemma wp_attempt {A} (m : act A) (Q : result StoreError A -> World.t -> Prop) X w :
  wp m (fun a w' => Q (Ok a) w') (fun e w' => Q (Err e) w') w -> wp (attempt m) Q X w.
Proof. unfold wp, attempt. by destruct (m w) as [[] ?]. Qed.
Lemma wp_debug_assert b (Q : unit -> World.t -> Prop) X w :
  b = true -> Q tt w -> wp (lift (debug_assert b)) Q X w.
Proof. by intros ->. Qed.
Lemma wp_when b m (Q : unit -> World.t -> Prop) X w :
  (b = true -> wp m Q X w) -> (b = false -> Q tt w) -> wp (when b m) Q X w.
Proof. intros H1 H2. destruct b; [by apply H1 | by apply H2]. Qed.

Definition on_gauge (g : Ledger.gauge) (v : N) (w : World.t) : World.t :=
  World.set_state (CacheState.set_ledger
    (Ledger.set g v (CacheState.ledger (World.state w))) (World.state w)) w.
Definition gauge_of (w : World.t) : Ledger.t := CacheState.ledger (World.state w).

Lemma wp_sub_gauge g v (Q : unit -> World.t -> Prop) X w :
  v <= gauge_of w g -> Q tt (on_gauge g (gauge_of w g - v) w) -> wp (sub_gauge g v) Q X w.
Proof.
  intros Hv HQ. unfold gauge_of in Hv. unfold wp, sub_gauge, read_gauge, mbind, act_bind, gets_state, gets, lift.
  unfold sub_or_panic, checked_sub. by rewrite (proj2 (N.leb_le _ _) Hv).
Qed.
Lemma wp_add_gauge g v (Q : unit -> World.t -> Prop) X w :
  gauge_of w g + v <= u64_max -> Q tt (on_gauge g (gauge_of w g + v) w) -> wp (add_gauge g v) Q X w.
Proof.
  intros Hv HQ. unfold gauge_of in Hv. unfold wp, add_gauge, read_gauge, mbind, act_bind, gets_state, gets, lift.
  unfold add_or_panic, checked_add. by rewrite (proj2 (N.leb_le _ _) Hv).
Qed.

(** The loop rule. *)
Lemma wp_iterate {A} (f : A -> act unit) l (I : list A -> World.t -> Prop) X w :
  I [] w ->
  (forall dn x rest w', l = dn ++ x :: rest -> I dn w' ->
     wp (f x) (fun _ => I (dn ++ [x])) X w') ->
  wp (iterate f l) (fun _ => I l) X w.
Proof.
  intros H0 Hstep.
  assert (forall rest dn w', l = dn ++ rest -> I dn w' ->
            wp (iterate f rest) (fun _ => I l) X w') as Hgen; [|by apply (Hgen l [])].
  induction rest as [|x rest IH]; intros dn w' Hl HI.
  - rewrite app_nil_r in Hl. by subst dn.
  - simpl. apply wp_bind. eapply wp_mono; [by eapply Hstep | | done].
    intros ? w'' Hw. apply (IH (dn ++ [x])); [by rewrite <- app_assoc | done].
Qed.
End wp.

(** Evaluate the world after a sequence of updates. *)
Ltac wsimpl := unfold gauge_of, on_gauge in *; cbn [World.state World.metrics World.trace World.reader World.cancelled
  World.handles World.registrations World.sent World.set_state World.set_metrics World.set_trace
  World.set_reader World.set_cancelled World.set_handles World.set_registrations World.set_sent
  CacheState.entries CacheState.ledger CacheState.generation CacheState.waiter CacheState.tick
  CacheState.shutdown CacheState.set_entries CacheState.set_ledger CacheState.set_generation
  CacheState.set_waiter CacheState.set_tick CacheState.set_shutdown] in *.

(** One step of an action. *)
Ltac wstep :=
  lazymatch goal with
  | |- wp (_ ≫= _) _ _ _ => apply wp_bind; wstep
  | |- wp (mret _) _ _ _ => apply wp_ret
  | |- wp (fail _) _ _ _ => apply wp_fail
  | |- wp (gets _) _ _ _ => apply wp_gets
  | |- wp (gets_state _) _ _ _ => apply wp_gets
  | |- wp (lookup_entry _) _ _ _ => apply wp_gets
  | |- wp (modify _) _ _ _ => apply wp_modify
  | |- wp (modify_state _) _ _ _ => apply wp_modify
  | |- wp (remove_entry _) _ _ _ => apply wp_modify
  | |- wp (insert_entry _ _) _ _ _ => apply wp_modify
  | |- wp (set_gauge _ _) _ _ _ => apply wp_modify
  | |- wp (count _) _ _ _ => apply wp_modify
  | |- wp (count_bytes _ _) _ _ _ => apply wp_modify
  | |- wp (record _ _ _ _) _ _ _ => apply wp_modify
  | |- wp (cancel _) _ _ _ => apply wp_modify
  | |- wp (send _ _) _ _ _ => apply wp_modify
  | |- wp (arm _) _ _ _ => apply wp_modify
  | |- wp (disarm _) _ _ _ => apply wp_modify
  | |- wp (lift _) _ _ _ => apply wp_lift
  end; cbv beta.

Lemma ledger_set_eq g v l : Ledger.set g v l g = v.
Proof. unfold Ledger.set. by rewrite decide_True. Qed.
Lemma ledger_set_ne g g' v l : g <> g' -> Ledger.set g v l g' = l g'.
Proof. intros. unfold Ledger.set. by rewrite decide_False. Qed.
(** Evaluate the reads of updated gauges. *)
Ltac gsimpl := repeat (rewrite ledger_set_eq || (rewrite ledger_set_ne by discriminate)).

(** * State invariant *)

(** What an entry contributes to a gauge. *)
Definition weight (g : Ledger.gauge) (e : Entry.t) : N :=
  match g, Entry.state e with
  | Ledger.page_pool_bytes, _ => Entry.allocation_bytes e
  | Ledger.inflight_bytes, Loading _ => Entry.allocation_bytes e
  | Ledger.active_loads, Loading _ => 1
  | Ledger.waiters, Loading l | Ledger.lease_reservations, Loading l =>
      lenN (LoadingEntry.waiters l)
  | Ledger.resident_bytes, Resident _ => Entry.allocation_bytes e
  | Ledger.retiring_bytes, Retiring _ => Entry.allocation_bytes e
  | Ledger.leases, Resident r => ResidentEntry.leases r
  | Ledger.leases, Retiring r => RetiringEntry.leases r
  | _, _ => 0
  end.

(** The ledger is the sum of the entries. *)
Definition balanced (s : CacheState.t) : Prop :=
  forall g, CacheState.ledger s g = msum (weight g) (CacheState.entries s).

(** The page of an entry is the page of its key, within its reservation. *)
Definition page_ok (key : PageKey) (e : Entry.t) (page : VerifiedPage.t) : Prop :=
  VerifiedPage.key page = key /\ lenN (VerifiedPage.bytes page) = Entry.length e
  /\ VerifiedPage.allocation_bytes page <= Entry.allocation_bytes e.

Section with_config.
Context (config : CacheConfig.t).

(** A configuration [CacheConfig::validate] accepted, at machine width. *)
Record config_ok : Prop := {
  cfg_width : CacheConfig.page_pool_capacity config <= u64_max;
  cfg_inflight : CacheConfig.max_inflight_bytes config <= CacheConfig.page_pool_capacity config;
  cfg_loads : CacheConfig.max_loads config <= CacheConfig.max_entries config;
  cfg_entries : CacheConfig.max_entries config <= CacheConfig.MAX_ENTRIES;
  cfg_waiters : CacheConfig.max_waiters config <= CacheConfig.MAX_WAITERS;
  cfg_leases : CacheConfig.max_leases config <= CacheConfig.MAX_LEASES
}.

Definition entry_ok (s : CacheState.t) (key : PageKey) (e : Entry.t) : Prop :=
  Entry.generation e <= CacheState.generation s /\
  match Entry.state e with
  | Loading l =>
      LoadingEntry.cancellation l = Entry.generation e
      /\ lenN (LoadingEntry.waiters l) <= CacheConfig.max_waiters_per_page config
  | Resident r => page_ok key e (ResidentEntry.page r)
  | Retiring r => page_ok key e (RetiringEntry.page r) /\ 0 < RetiringEntry.leases r
  end.

(** Every limit of the configuration is respected. *)
Record within (l : Ledger.t) (entries : N) : Prop := {
  lim_pool : l Ledger.page_pool_bytes <= CacheConfig.page_pool_capacity config;
  lim_inflight : l Ledger.inflight_bytes <= CacheConfig.max_inflight_bytes config;
  lim_loads : l Ledger.active_loads <= CacheConfig.max_loads config;
  lim_entries : entries <= CacheConfig.max_entries config;
  lim_waiters : l Ledger.waiters <= CacheConfig.max_waiters config;
  lim_leases : l Ledger.leases + l Ledger.lease_reservations <= CacheConfig.max_leases config
}.

Record state_inv (s : CacheState.t) : Prop := {
  si_balanced : balanced s;
  si_within : within (CacheState.ledger s) (N.of_nat (size (CacheState.entries s)));
  si_entry : forall key e, CacheState.entries s !! key = Some e -> entry_ok s key e
}.

(** The parts of the world that page-pool operations leave alone. *)
Record untouched (w w' : World.t) : Prop := {
  un_reader : World.reader w' = World.reader w;
  un_cancelled : World.cancelled w' = World.cancelled w;
  un_handles : World.handles w' = World.handles w;
  un_registrations : World.registrations w' = World.registrations w;
  un_sent : World.sent w' = World.sent w;
  un_generation : CacheState.generation (World.state w') = CacheState.generation (World.state w);
  un_waiter : CacheState.waiter (World.state w') = CacheState.waiter (World.state w);
  un_tick : CacheState.tick (World.state w') = CacheState.tick (World.state w);
  un_shutdown : CacheState.shutdown (World.state w') = CacheState.shutdown (World.state w)
}.

(** The pool is the sum of the three byte gauges. *)
Lemma pool_split s : balanced s ->
  CacheState.ledger s Ledger.inflight_bytes + CacheState.ledger s Ledger.resident_bytes
  + CacheState.ledger s Ledger.retiring_bytes = CacheState.ledger s Ledger.page_pool_bytes.
Proof.
  intros Hb. rewrite !Hb, <- !msum_plus. apply msum_ext. intros k e _.
  unfold weight. destruct (Entry.state e); lia.
Qed.

(** An unleased resident page. *)
Definition evictable (e : Entry.t) : Prop :=
  exists r, Entry.state e = Resident r /\ ResidentEntry.leases r = 0.

Lemma evict_unleased_spec reason key e w :
  balanced (World.state w) -> CacheState.entries (World.state w) !! key = Some e -> evictable e ->
  wp (evict_unleased reason key)
    (fun _ w' => balanced (World.state w')
       /\ CacheState.entries (World.state w') = delete key (CacheState.entries (World.state w))
       /\ untouched w w') (fun _ _ => False) w.
Proof.
  intros Hb He (r & Hr & Hl). unfold evict_unleased.
  pose proof (fun g => msum_delete (weight g) _ _ _ He) as Hd.
  wstep. rewrite He. wstep. rewrite Hr.
  apply wp_bind, wp_debug_assert; [by apply N.eqb_eq|].
  apply wp_bind, wp_sub_gauge; wsimpl.
  { rewrite Hb, Hd. unfold weight. lia. }
  apply wp_bind, wp_sub_gauge; wsimpl; gsimpl.
  { rewrite Hb, Hd. unfold weight. rewrite Hr. lia. }
  wstep. wstep. apply wp_when; intros _; repeat wstep; wsimpl.
  all: split; [|by split].
  all: intros g; wsimpl; specialize (Hd g); rewrite <- (Hb g) in Hd.
  all: destruct g; gsimpl; unfold weight in *; rewrite ?Hr, ?Hl in Hd; rewrite ?Hb in *; lia.
Qed.

(** ** Victims *)

Abbreviation candidate := (PageKey * N * N)%type.

(** The candidates are the evictable entries, least recently touched first. *)
Lemma elem_of_candidates s key touch bytes :
  (key, touch, bytes) ∈ candidates s <->
  exists e r, CacheState.entries s !! key = Some e /\ Entry.state e = Resident r
    /\ ResidentEntry.leases r = 0 /\ touch = ResidentEntry.last_touch r
    /\ bytes = Entry.allocation_bytes e.
Proof.
  unfold candidates. rewrite elem_of_sort_by_key, list_elem_of_omap. split.
  - intros ([k e] & Hin%elem_of_map_to_list & Heq). destruct (Entry.state e) as [|r|] eqn:Er; try done.
    destruct (N.eqb_spec (ResidentEntry.leases r) 0); simplify_eq. eauto 10.
  - intros (e & r & He & Hr & Hl & -> & ->). exists (key, e). rewrite elem_of_map_to_list, Hr, Hl.
    by split.
Qed.

Lemma NoDup_candidates s : NoDup ((candidates s).*1.*1).
Proof.
  unfold candidates. rewrite sort_by_key_perm.
  pose proof (NoDup_fst_map_to_list (CacheState.entries s)) as Hnd.
  induction (map_to_list (CacheState.entries s)) as [|[k e] l IH]; simpl in *; [constructor|].
  apply NoDup_cons in Hnd as [Hk Hnd].
  destruct (Entry.state e) as [|r|]; [by apply IH | | by apply IH].
  destruct (ResidentEntry.leases r =? 0); [|by apply IH].
  simpl. apply NoDup_cons. split; [|by apply IH].
  intros ([k1 t1] & -> & ([[k2 t2] b2] & [= -> ->] & Hin)%list_elem_of_fmap)%list_elem_of_fmap.
  apply list_elem_of_omap in Hin as ([k3 e3] & Hin & Heq). apply Hk, list_elem_of_fmap.
  exists (k3, e3). split; [|done]. simpl.
  destruct (Entry.state e3) as [|r3|]; try done. by destruct (ResidentEntry.leases r3 =? 0); simplify_eq.
Qed.

Definition fits (maximum_retained pool entries : N) : Prop :=
  pool <= maximum_retained /\ entries < CacheConfig.max_entries config.

(** The victims are the shortest prefix of the candidates that makes room. *)
Lemma plan_victims_spec maxr pool entries victims (l : list candidate) :
  sumN snd l <= pool -> lenN l <= entries ->
  exists taken rest, l = taken ++ rest
    /\ plan_victims config maxr pool entries victims l
         = Ok (pool - sumN snd taken, entries - lenN taken, victims ++ taken.*1.*1)
    /\ (~ fits maxr (pool - sumN snd taken) (entries - lenN taken) -> rest = [])
    /\ (forall pre x, taken = pre ++ [x] ->
           ~ fits maxr (pool - sumN snd pre) (entries - lenN pre)).
Proof.
  revert pool entries victims. induction l as [|[[key touch] bytes] l IH];
    intros pool entries victims Hp He; unfold lenN in *; simpl in *.
  { exists [], []. simpl. rewrite app_nil_r, !N.sub_0_r. split_and!; try done. by intros [] ? ?. }
  destruct ((pool <=? maxr) && (entries <? CacheConfig.max_entries config)) eqn:Hf.
  { exists [], ((key, touch, bytes) :: l). simpl. rewrite app_nil_r, !N.sub_0_r. split_and!; try done.
    - intros []. apply andb_true_iff in Hf as [?%N.leb_le ?%N.ltb_lt]. by split.
    - by intros [] ? ?. }
  unfold checked_sub. rewrite (proj2 (N.leb_le _ _)) by lia. simpl.
  rewrite (proj2 (N.leb_le _ _)) by lia. simpl.
  destruct (IH (pool - bytes) (entries - 1) (victims ++ [key])) as (taken & rest & -> & -> & Hall & Hmin);
    [lia..|].
  exists ((key, touch, bytes) :: taken), rest. unfold lenN in *. split_and!; [done | | |].
  - simpl. rewrite <- app_assoc. simpl. do 3 f_equal; lia.
  - intros Hn. apply Hall. intros [? ?]. apply Hn. simpl. unfold fits, sumN in *. simpl. lia.
  - intros [|y pre] x ?; simplify_eq/=.
    + rewrite !N.sub_0_r. intros [?%N.leb_le ?%N.ltb_lt]. by rewrite andb_false_iff in Hf; destruct Hf; congruence.
    + specialize (Hmin pre x eq_refl). intros [? ?]. apply Hmin. unfold fits, sumN in *. simpl in *. lia.
Qed.

(** A part of the candidates, as keys of the map. *)
Lemma candidates_part s taken rest :
  candidates s = taken ++ rest ->
  NoDup (taken.*1.*1)
  /\ (forall k, k ∈ taken.*1.*1 -> exists e, CacheState.entries s !! k = Some e /\ evictable e)
  /\ sumN snd taken = sumN (fun k => from_option (weight Ledger.page_pool_bytes) 0
                                       (CacheState.entries s !! k)) (taken.*1.*1)
  /\ lenN taken = sumN (fun k => from_option (fun _ => 1) 0 (CacheState.entries s !! k)) (taken.*1.*1).
Proof.
  intros Hc.
  assert (forall k t b, (k, t, b) ∈ taken -> exists e, CacheState.entries s !! k = Some e
    /\ evictable e /\ b = Entry.allocation_bytes e) as Hin.
  { intros k t b Hk. destruct (proj1 (elem_of_candidates s k t b)) as (e & r & He & Hr & Hl & _ & Hb).
    { rewrite Hc. set_solver. }
    exists e. split_and!; [done | by exists r | done]. }
  split_and!.
  - pose proof (NoDup_candidates s) as Hnd. rewrite Hc, !fmap_app in Hnd.
    by apply NoDup_app in Hnd as [? _].
  - intros k ([k1 t1] & -> & ([[k2 t2] b2] & [= -> ->] & Hk)%list_elem_of_fmap)%list_elem_of_fmap.
    apply Hin in Hk as (e & ? & ? & _). eauto.
  - rewrite !sumN_fmap. apply sumN_ext. intros [[k t] b] Hk. simpl.
    apply Hin in Hk as (e & -> & _ & ->). done.
  - rewrite !sumN_fmap, <- sumN_one. apply sumN_ext. intros [[k t] b] Hk. simpl.
    by apply Hin in Hk as (e & -> & _ & ->).
Qed.

Lemma candidates_bounds s : balanced s ->
  sumN snd (candidates s) <= CacheState.ledger s Ledger.page_pool_bytes
  /\ lenN (candidates s) <= N.of_nat (size (CacheState.entries s)).
Proof.
  intros Hb. destruct (candidates_part s (candidates s) []) as (Hnd & _ & -> & ->).
  { by rewrite app_nil_r. }
  rewrite Hb, <- msum_one. split; by apply msum_keys_le.
Qed.

Lemma evict_all_spec reason victims w :
  balanced (World.state w) -> NoDup victims ->
  (forall k, k ∈ victims -> exists e, CacheState.entries (World.state w) !! k = Some e /\ evictable e) ->
  wp (iterate (evict_unleased reason) victims)
    (fun _ w' => balanced (World.state w')
       /\ CacheState.entries (World.state w')
            = foldl (fun m k => delete k m) (CacheState.entries (World.state w)) victims
       /\ untouched w w') (fun _ _ => False) w.
Proof.
  intros Hb Hnd Hv.
  apply (wp_iterate _ victims (fun dn w' => balanced (World.state w')
    /\ CacheState.entries (World.state w')
         = foldl (fun m k => delete k m) (CacheState.entries (World.state w)) dn
    /\ untouched w w')); [done|].
  intros dn k rest w' -> (Hb' & He' & Hu). destruct (Hv k) as (e & He & Hev); [set_solver|].
  eapply wp_mono; [eapply evict_unleased_spec; [done | | done] | | done].
  - rewrite He', lookup_foldl_delete. rewrite decide_False; [done|].
    apply NoDup_app in Hnd as (_ & Hd & _). intros Hk. by apply (Hd k Hk), list_elem_of_here.
  - intros ? w'' (Hb'' & He'' & Hu'). split_and!; [done | by rewrite He'', He', foldl_app |].
    destruct Hu, Hu'. split; congruence.
Qed.

(** A granted reservation: the victims are gone, the gauges are charged for a
    load whose entry is not inserted yet, and the limits hold. *)
Record reserved (allocation : N) (w w' : World.t) : Prop := {
  res_victims : exists taken rest, candidates (World.state w) = taken ++ rest
    /\ CacheState.entries (World.state w')
         = foldl (fun m k => delete k m) (CacheState.entries (World.state w)) (taken.*1.*1)
    /\ (forall pre x, taken = pre ++ [x] ->
          ~ fits (CacheConfig.page_pool_capacity config - allocation)
              (CacheState.ledger (World.state w) Ledger.page_pool_bytes - sumN snd pre)
              (N.of_nat (size (CacheState.entries (World.state w))) - lenN pre));
  res_ledger : forall g, CacheState.ledger (World.state w') g
    = msum (weight g) (CacheState.entries (World.state w'))
      + match g with
        | Ledger.page_pool_bytes | Ledger.inflight_bytes => allocation
        | Ledger.active_loads => 1
        | _ => 0
        end;
  res_pool : CacheState.ledger (World.state w') Ledger.page_pool_bytes
               <= CacheConfig.page_pool_capacity config;
  res_inflight : CacheState.ledger (World.state w') Ledger.inflight_bytes
                   <= CacheConfig.max_inflight_bytes config;
  res_loads : CacheState.ledger (World.state w') Ledger.active_loads
                <= CacheConfig.max_loads config;
  res_entries : N.of_nat (size (CacheState.entries (World.state w')))
                  < CacheConfig.max_entries config;
  res_untouched : untouched w w'
}.

(** Why a reservation can be refused: too many loads, or no room even without
    the unleased pages. *)
Definition cramped (allocation : N) (s : CacheState.t) : Prop :=
  CacheConfig.max_inflight_bytes config < CacheState.ledger s Ledger.inflight_bytes + allocation
  \/ CacheConfig.max_loads config <= CacheState.ledger s Ledger.active_loads
  \/ ~ fits (CacheConfig.page_pool_capacity config - allocation)
        (CacheState.ledger s Ledger.page_pool_bytes - sumN snd (candidates s))
        (N.of_nat (size (CacheState.entries s)) - lenN (candidates s)).

Lemma reserve_load_spec allocation reason w :
  config_ok -> state_inv (World.state w) ->
  allocation <= CacheConfig.max_inflight_bytes config ->
  wp (reserve_load config allocation reason)
    (fun granted w' => if granted then reserved allocation w w'
                       else w' = w /\ cramped allocation (World.state w))
    (fun _ _ => False) w.
Proof.
  intros [] [Hb [] _] Ha. unfold reserve_load. wstep.
  rewrite (proj2 (N.ltb_ge _ _)) by done.
  apply wp_bind, wp_lift, post_sub_or_panic; [done|].
  destruct (_ || _) eqn:Hfull.
  { wstep. split; [done|]. unfold cramped, id in *.
    apply orb_true_iff in Hfull as [?%N.ltb_lt|?%N.leb_le]; [left; lia | by right; left]. }
  apply orb_false_iff in Hfull as [Hf1%N.ltb_ge Hf2%N.leb_gt]. wsimpl. unfold id in *.
  apply wp_bind, wp_lift, post_sub_or_panic; [lia|]. apply wp_bind, wp_lift.
  destruct (candidates_bounds _ Hb) as [Hcb Hcn].
  destruct (plan_victims_spec (CacheConfig.page_pool_capacity config - allocation) _ _ []
    _ Hcb Hcn) as (taken & rest & Hc & -> & Hall & Hmin).
  destruct (candidates_part _ _ _ Hc) as (Hnd & Hev & Hsum & Hlen).
  simpl. destruct (_ || _) eqn:Hroom.
  { wstep. split; [done|]. right. right. assert (~ fits (CacheConfig.page_pool_capacity config - allocation)
      (CacheState.ledger (World.state w) Ledger.page_pool_bytes - sumN snd taken)
      (N.of_nat (size (CacheState.entries (World.state w))) - lenN taken)) as Hnf.
    { intros [? ?]. apply orb_true_iff in Hroom as [?%N.ltb_lt|?%N.leb_le]; lia. }
    by rewrite Hc, (Hall Hnf), app_nil_r. }
  apply orb_false_iff in Hroom as [Hr1%N.ltb_ge Hr2%N.leb_gt].
  unfold CacheConfig.MAX_ENTRIES in *.
  do 3 (apply wp_bind, wp_lift; unfold checked_add at 1, usize_max;
        rewrite (proj2 (N.leb_le _ u64_max)) by (unfold u64_max in *; lia); simpl).
  apply wp_bind. eapply wp_mono; [by apply evict_all_spec | | done].
  intros ? w1 (Hb1 & He1 & Hu1).
  pose proof (msum_foldl_delete (weight Ledger.page_pool_bytes) (CacheState.entries (World.state w)) _ Hnd) as Hm1.
  pose proof (msum_foldl_delete (fun _ => 1) (CacheState.entries (World.state w)) _ Hnd) as Hm2.
  rewrite <- He1, <- Hb, <- Hb1, <- Hsum in Hm1. rewrite <- He1, !msum_one, <- Hlen in Hm2.
  assert (forall k, k ∈ taken.*1.*1 -> is_Some (CacheState.entries (World.state w) !! k)) as Hs.
  { intros k (e & He & _)%Hev. by exists e. }
  specialize (Hm1 Hs). specialize (Hm2 Hs).
  wstep. apply wp_bind, wp_debug_assert; [apply N.eqb_eq; unfold id; lia|].
  apply wp_bind, wp_debug_assert; [apply N.eqb_eq; unfold id; lia|].
  do 4 wstep. wsimpl.
  assert (forall g, g <> Ledger.page_pool_bytes -> g <> Ledger.resident_bytes ->
    CacheState.ledger (World.state w1) g = CacheState.ledger (World.state w) g) as Hsame.
  { intros g Hg1 Hg2. rewrite Hb, Hb1, He1.
    rewrite (msum_foldl_delete (weight g) (CacheState.entries (World.state w)) _ Hnd Hs).
    enough (sumN (fun k => from_option (weight g) 0 (CacheState.entries (World.state w) !! k)) (taken.*1.*1) = 0) by lia.
    apply sumN_zero.
    intros k (e & He & r & Hr & Hl)%Hev. rewrite He. simpl. unfold weight. rewrite Hr. by destruct g. }
  split; wsimpl; gsimpl.
  - exists taken, rest. by split_and!.
  - intros g. destruct g; gsimpl; rewrite ?Hsame, ?(Hb1 _), <- ?(Hb1 _) by done; try lia.
    all: rewrite <- ?(Hb1 _), ?Hsame by done; lia.
  - lia.
  - lia.
  - lia.
  - lia.
  - destruct Hu1. by split; wsimpl.
Qed.
End with_config.
