(* ===== verification/StoreCacheInv.v ===== *)
(** The invariant of the whole cache: the ledger, the limits, the leases and
    their owners, the loads and their requests, the waiters and their
    completions, the tokens and the published gauges.  Every critical section
    changes one entry (or, in a reservation and a shutdown, several); the
    invariant is preserved because each change is a [transition] of that entry. *)
From stdpp Require Import prelude gmap strings sorting.
From S2P Require Import Prelude Store StoreCache StoreCacheLogic.
#[local] Open Scope N_scope.
#[local] Arguments u64_max : simpl never.

Abbreviation entries w := (CacheState.entries (World.state w)).
Abbreviation ledger w := (CacheState.ledger (World.state w)).

(** What the entry of a key contributes to a gauge, under one generation. *)
Definition share (g : Ledger.gauge) (o : option Entry.t) (generation : N) : N :=
  match o with
  | Some e => if Entry.generation e =? generation then weight g e else 0
  | None => 0
  end.
Definition charge (g : Ledger.gauge) (o : option Entry.t) : N := from_option (weight g) 0 o.

Definition waiters_of (e : Entry.t) : list N :=
  match Entry.state e with Loading l => LoadingEntry.waiters l | _ => [] end.
Definition waits (o : option Entry.t) (generation id : N) : Prop :=
  exists e, o = Some e /\ Entry.generation e = generation /\ id ∈ waiters_of e.
Definition page_of (e : Entry.t) : option VerifiedPage.t :=
  match Entry.state e with
  | Loading _ => None
  | Resident r => Some (ResidentEntry.page r)
  | Retiring r => Some (RetiringEntry.page r)
  end.

(** Live leases and pending requests of a load, counted. *)
Definition leases_of (h : list PageLease.t) (k : PageKey) (generation : N) : N :=
  lenN (filter (fun l => PageLease.key l = k /\ PageLease.generation l = generation) h).
Definition requests_of (r : AsyncReader.t) (k : PageKey) (generation : N) : N :=
  lenN (filter (fun q => q = (k, generation)) (AsyncReader.pending r)).

(** The published gauges are the ledger's. *)
Record published (m : Metrics.t) (l : Ledger.t) : Prop := {
  pub_loads : m Metrics.active_loads = l Ledger.active_loads;
  pub_pool : m Metrics.page_pool_bytes = l Ledger.page_pool_bytes;
  pub_inflight : m Metrics.inflight_bytes = l Ledger.inflight_bytes;
  pub_resident : m Metrics.resident_bytes = l Ledger.resident_bytes;
  pub_retiring : m Metrics.retiring_bytes = l Ledger.retiring_bytes;
  pub_leases : m Metrics.leases = l Ledger.leases
}.

Section with_config.
Context (config : CacheConfig.t).

Record world_core (w : World.t) : Prop := {
  wi_state : state_inv config (World.state w);
  (** every lease pins a page of its generation *)
  wi_leases : forall k g, leases_of (World.handles w) k g = share Ledger.leases (entries w !! k) g;
  wi_pages : forall l, l ∈ World.handles w -> exists e, entries w !! PageLease.key l = Some e
    /\ Entry.generation e = PageLease.generation l /\ page_of e = Some (PageLease.page l);
  (** every load has exactly one request *)
  wi_requests : forall k g,
    requests_of (World.reader w) k g = share Ledger.active_loads (entries w !! k) g;
  (** waiters are distinct and not answered yet *)
  wi_nodup : forall k e, entries w !! k = Some e -> NoDup (waiters_of e);
  wi_fresh : forall k e id, entries w !! k = Some e -> id ∈ waiters_of e ->
    id <= CacheState.waiter (World.state w) /\ id ∉ (World.sent w).*1;
  wi_unique : forall k1 e1 k2 e2 id, entries w !! k1 = Some e1 -> entries w !! k2 = Some e2 ->
    id ∈ waiters_of e1 -> id ∈ waiters_of e2 -> k1 = k2;
  wi_sent : NoDup (World.sent w).*1;
  wi_sent_old : forall id, id ∈ (World.sent w).*1 -> id <= CacheState.waiter (World.state w);
  (** an armed registration waits or has its answer *)
  wi_registrations : forall r, r ∈ World.registrations w ->
    waits (entries w !! Registration.key r) (Registration.generation r) (Registration.waiter_id r)
    \/ Registration.waiter_id r ∈ (World.sent w).*1;
  (** tokens *)
  wi_tokens : forall t, t ∈ World.cancelled w -> t <= CacheState.generation (World.state w);
  wi_cancelled : forall k e l, entries w !! k = Some e -> Entry.state e = Loading l ->
    (LoadingEntry.accepting_waiters l = false <-> Entry.generation e ∈ World.cancelled w);
  wi_generations : forall k1 e1 k2 e2, entries w !! k1 = Some e1 -> entries w !! k2 = Some e2 ->
    Entry.generation e1 = Entry.generation e2 -> k1 = k2
}.

(** What a shutdown leaves: loads without waiters, and retiring pages. *)
Definition stopped (o : option Entry.t) : Prop :=
  match o with
  | None => True
  | Some e =>
      match Entry.state e with
      | Loading l => LoadingEntry.waiters l = [] /\ LoadingEntry.accepting_waiters l = false
      | Resident _ => False
      | Retiring _ => True
      end
  end.

Record world_inv (w : World.t) : Prop := {
  wi_core : world_core w;
  wi_published : published (World.metrics w) (ledger w);
  wi_stopped : CacheState.shutdown (World.state w) = true -> forall k, stopped (entries w !! k)
}.

(** The map with the entry of one key replaced or removed. *)
Definition put (k : PageKey) (o : option Entry.t) (m : gmap PageKey Entry.t) : gmap PageKey Entry.t :=
  partial_alter (fun _ => o) k m.

Lemma lookup_put k o m j : put k o m !! j = if decide (k = j) then o else m !! j.
Proof.
  unfold put. destruct (decide (k = j)) as [->|];
    [apply lookup_partial_alter_eq | by apply lookup_partial_alter_ne].
Qed.

Lemma msum_put f k o m :
  msum f (put k o m) + from_option f 0 (m !! k) = from_option f 0 o + msum f m.
Proof.
  destruct o as [e'|]; unfold put.
  - change (partial_alter (fun _ => Some e') k m) with (<[k := e']> m). simpl.
    destruct (m !! k) as [e|] eqn:E; simpl; [by apply msum_insert|].
    rewrite msum_insert_new by done. lia.
  - change (partial_alter (fun _ => None) k m) with (delete k m). simpl.
    destruct (m !! k) as [e|] eqn:E; simpl.
    + rewrite (msum_delete f m k e E). lia.
    + rewrite delete_id by done. lia.
Qed.

Lemma size_put k o m :
  N.of_nat (size (put k o m)) + (if m !! k is Some _ then 1 else 0)
    = (if o is Some _ then 1 else 0) + N.of_nat (size m).
Proof.
  rewrite <- !msum_one. pose proof (msum_put (fun _ => 1) k o m) as H.
  by destruct (m !! k), o.
Qed.

(** The change of the entry of key [k] to [o], by what it concerns. *)
Section transition.
Context (k : PageKey) (o : option Entry.t) (w w' : World.t).

Record ledger_step : Prop := {
  tr_entries : entries w' = put k o (entries w);
  tr_ledger : forall g, ledger w' g + charge g (entries w !! k) = ledger w g + charge g o;
  tr_within : within config (ledger w') (N.of_nat (size (entries w')));
  tr_shutdown : CacheState.shutdown (World.state w') = CacheState.shutdown (World.state w);
  tr_generation : CacheState.generation (World.state w) <= CacheState.generation (World.state w');
  tr_waiter : CacheState.waiter (World.state w) <= CacheState.waiter (World.state w');
  tr_entry : forall e, o = Some e -> entry_ok config (World.state w') k e
    /\ match entries w !! k with
       | Some e0 => Entry.generation e = Entry.generation e0
       | None => CacheState.generation (World.state w) < Entry.generation e
       end;
  tr_stopped : CacheState.shutdown (World.state w) = true -> stopped (entries w !! k) -> stopped o
}.

Record lease_step : Prop := {
  tr_leases : forall k' g,
    leases_of (World.handles w') k' g
      + (if decide (k = k') then share Ledger.leases (entries w !! k) g else 0)
    = leases_of (World.handles w) k' g
      + (if decide (k = k') then share Ledger.leases o g else 0);
  tr_pages : forall l, l ∈ World.handles w' ->
    (l ∈ World.handles w /\ PageLease.key l <> k)
    \/ (PageLease.key l = k /\ exists e, o = Some e /\ Entry.generation e = PageLease.generation l
          /\ page_of e = Some (PageLease.page l))
}.

Definition request_step : Prop := forall k' g,
  requests_of (World.reader w') k' g
    + (if decide (k = k') then share Ledger.active_loads (entries w !! k) g else 0)
  = requests_of (World.reader w) k' g
    + (if decide (k = k') then share Ledger.active_loads o g else 0).

Record waiter_step : Prop := {
  tr_nodup : forall e, o = Some e -> NoDup (waiters_of e);
  tr_waiters : forall g id, waits o g id ->
    id <= CacheState.waiter (World.state w') /\ (id ∉ (World.sent w').*1)
    /\ (waits (entries w !! k) g id \/ CacheState.waiter (World.state w) < id);
  tr_sent : exists answered, (World.sent w').*1 = ((World.sent w).*1 ++ answered)
    /\ NoDup answered
    /\ forall id, id ∈ answered -> exists g, waits (entries w !! k) g id;
  tr_registrations : forall r, r ∈ World.registrations w' -> r ∈ World.registrations w /\
     (Registration.key r = k ->
      waits (entries w !! k) (Registration.generation r) (Registration.waiter_id r) ->
      waits o (Registration.generation r) (Registration.waiter_id r)
      \/ Registration.waiter_id r ∈ (World.sent w').*1)
}.

Record token_step : Prop := {
  tr_loading : forall e l, o = Some e -> Entry.state e = Loading l ->
    (LoadingEntry.accepting_waiters l = false <-> Entry.generation e ∈ World.cancelled w');
  tr_cancelled : World.cancelled w ⊆ World.cancelled w';
  tr_tokens : forall t, t ∈ World.cancelled w' -> t ∈ World.cancelled w
    \/ exists e, entries w !! k = Some e /\ t = Entry.generation e
}.

Record transition : Prop := {
  tr_ledger_step : ledger_step;
  tr_lease_step : lease_step;
  tr_request_step : request_step;
  tr_waiter_step : waiter_step;
  tr_token_step : token_step
}.
End transition.

Lemma transition_state k o w w' :
  state_inv config (World.state w) -> transition k o w w' -> state_inv config (World.state w').
Proof.
  intros [Hb _ He] [[] _ _ _ _]. split; [| done |].
  - intros g. rewrite tr_entries0. pose proof (msum_put (weight g) k o (entries w)) as Hm.
    specialize (tr_ledger0 g). unfold charge in *. rewrite (Hb g) in tr_ledger0. lia.
  - intros j e. rewrite tr_entries0, lookup_put. case_decide as Hj; intros Hje.
    + subst j. by apply tr_entry0.
    + destruct (He j e Hje) as [Hg Hs]. split; [lia | done].
Qed.

(** Waiters, completions and registrations. *)
Lemma transition_waiters k o w w' :
  world_core w -> ledger_step k o w w' -> waiter_step k o w w' ->
  (forall j e id, entries w' !! j = Some e -> id ∈ waiters_of e ->
     id <= CacheState.waiter (World.state w') /\ id ∉ (World.sent w').*1)
  /\ (forall k1 e1 k2 e2 id, entries w' !! k1 = Some e1 -> entries w' !! k2 = Some e2 ->
       id ∈ waiters_of e1 -> id ∈ waiters_of e2 -> k1 = k2)
  /\ NoDup (World.sent w').*1
  /\ (forall id, id ∈ (World.sent w').*1 -> id <= CacheState.waiter (World.state w')).
Proof.
  intros [_ _ _ _ Hnd Hfr Hun Hse Hso _ _ _ _] [] [].
  destruct tr_sent0 as (answered & Hsent & Hna & Hans).
  assert (forall j e id, entries w !! j = Some e -> id ∈ waiters_of e -> j <> k ->
            id ∉ answered) as Hother.
  { intros j e id Hj Hid Hjk Ha. apply Hans in Ha as (g & e0 & He0 & _ & Hid0).
    by apply Hjk, (Hun j e k e0 id). }
  assert (forall j e e0 id, o = Some e -> id ∈ waiters_of e -> k <> j ->
    entries w !! j = Some e0 -> id ∈ waiters_of e0 -> False) as Hx.
  { intros j e e0 id Ho Hid Hkj Hj Hid0.
    destruct (tr_waiters0 (Entry.generation e) id) as (_ & _ & [(e1 & He1 & _ & Hid1)|Hlt]); [by exists e|..].
    - by apply Hkj, (Hun k e1 j e0 id).
    - apply (Hfr j e0 id) in Hid0 as [? _]; [lia | done]. }
  split_and!.
  - intros j e id. rewrite tr_entries0, lookup_put. case_decide as Hjk; intros Hj Hid.
    + destruct (tr_waiters0 (Entry.generation e) id) as (? & ? & _); [by exists e | done].
    + destruct (Hfr j e id Hj Hid). split; [lia|]. rewrite Hsent, elem_of_app.
      intros [?|Ha]; [done|]. by eapply Hother.
  - intros k1 e1 k2 e2 id. rewrite tr_entries0, !lookup_put.
    case_decide as E1; case_decide as E2; intros H1 H2 Hi1 Hi2; [congruence | | | by eauto].
    + exfalso. by eapply (Hx k2 e1 e2 id).
    + exfalso. by eapply (Hx k1 e2 e1 id).
  - rewrite Hsent. apply NoDup_app. split_and!; [done| |done].
    intros id Hid Ha. apply Hans in Ha as (g & e0 & He0 & _ & Hid0).
    by apply (Hfr k e0 id He0 Hid0).
  - intros id. rewrite Hsent, elem_of_app. intros [Hid|Ha].
    + apply Hso in Hid. lia.
    + apply Hans in Ha as (g & e0 & He0 & _ & Hid0). apply (Hfr k e0) in Hid0 as [? _]; [lia | done].
Qed.

(** Tokens and generations. *)
Lemma transition_tokens k o w w' :
  world_core w -> ledger_step k o w w' -> token_step k o w w' ->
  (forall t, t ∈ World.cancelled w' -> t <= CacheState.generation (World.state w'))
  /\ (forall j e l, entries w' !! j = Some e -> Entry.state e = Loading l ->
       (LoadingEntry.accepting_waiters l = false <-> Entry.generation e ∈ World.cancelled w'))
  /\ (forall k1 e1 k2 e2, entries w' !! k1 = Some e1 -> entries w' !! k2 = Some e2 ->
       Entry.generation e1 = Entry.generation e2 -> k1 = k2).
Proof.
  intros [Hs _ _ _ _ _ _ _ _ _ Htk Hca Hge] [] []. split_and!.
  - intros t Ht. apply tr_tokens0 in Ht as [Ht|(e & He & ->)]; [apply Htk in Ht; lia|].
    destruct (si_entry _ _ Hs k e He) as [? _]. lia.
  - intros j e l. rewrite tr_entries0, lookup_put. case_decide as Hjk; intros Hj Hl.
    + by apply (tr_loading0 e).
    + rewrite (Hca j e l Hj Hl). split; [by intros ?%tr_cancelled0|].
      intros [Ht|(e0 & He0 & E)]%tr_tokens0; [done|].
      exfalso. by apply Hjk, (Hge k e0 j e).
  - assert (forall j e e0, o = Some e -> k <> j -> entries w !! j = Some e0 ->
      Entry.generation e = Entry.generation e0 -> False) as Hx.
    { intros j e e0 Ho Hkj Hj Hg. destruct (tr_entry0 e Ho) as (_ & Hgen).
      destruct (entries w !! k) as [e1|] eqn:E1.
      - apply Hkj, (Hge k e1 j e0); congruence.
      - destruct (si_entry _ _ Hs j e0 Hj) as [? _]. lia. }
    intros k1 e1 k2 e2. rewrite tr_entries0, !lookup_put.
    case_decide as E1; case_decide as E2; intros H1 H2 Hg; [congruence | | | by eauto].
    + exfalso. by eapply (Hx k2 e1 e2).
    + exfalso. by eapply (Hx k1 e2 e1).
Qed.

Lemma transition_core k o w w' : world_core w -> transition k o w w' -> world_core w'.
Proof.
  intros Hw Htr. pose proof (transition_state _ _ _ _ (wi_state _ Hw) Htr) as Hs'.
  destruct Htr as [Hl [Htl Htp] Hrs Hws Hts].
  destruct (transition_waiters _ _ _ _ Hw Hl Hws) as (Hfr' & Hun' & Hse' & Hso').
  destruct (transition_tokens _ _ _ _ Hw Hl Hts) as (Htk' & Hca' & Hge').
  destruct Hw as [Hs Hle Hpg Hrq Hnd _ _ _ _ Hrg _ _ _].
  pose proof (tr_entries _ _ _ _ Hl) as He. split; try done.
  - intros k' g. specialize (Htl k' g). rewrite Hle in Htl. rewrite He, lookup_put.
    case_decide; [subst k'|]; lia.
  - intros l Hin. rewrite He. apply Htp in Hin as [[Hin Hk]|[Hk Hx]].
    + rewrite lookup_put, decide_False by done. by apply Hpg.
    + rewrite Hk, lookup_put, decide_True by done. done.
  - intros k' g. specialize (Hrs k' g). rewrite Hrq in Hrs. rewrite He, lookup_put.
    case_decide; [subst k'|]; lia.
  - intros j e. rewrite He, lookup_put. case_decide; intros Hj; [by apply Hws | eauto].
  - intros r Hr. rewrite He, lookup_put. apply Hws in Hr as [Hr Hk].
    apply Hrg in Hr as [Hr|Hr].
    + case_decide as E; [|by left]. rewrite <- E in Hr. by apply Hk.
    + right. destruct (tr_sent _ _ _ _ Hws) as (answered & -> & _). set_solver.
Qed.

Lemma transition_stopped k o w w' :
  transition k o w w' ->
  (CacheState.shutdown (World.state w) = true -> forall j, stopped (entries w !! j)) ->
  CacheState.shutdown (World.state w') = true -> forall j, stopped (entries w' !! j).
Proof.
  intros [[] _ _ _ _] Hw Hs j. rewrite tr_entries0, lookup_put. rewrite tr_shutdown0 in Hs.
  case_decide; [|by apply Hw]. apply tr_stopped0; [done | by apply Hw].
Qed.

(** ** Components a change leaves alone *)

(** A change of an existing entry that keeps the byte gauges within bounds. *)
Lemma ledger_change k e o w w' :
  world_core w -> entries w !! k = Some e -> entries w' = put k o (entries w) ->
  (forall g, ledger w' g + weight g e = ledger w g + charge g o) ->
  ledger w' Ledger.page_pool_bytes <= ledger w Ledger.page_pool_bytes ->
  ledger w' Ledger.inflight_bytes <= ledger w Ledger.inflight_bytes ->
  ledger w' Ledger.active_loads <= ledger w Ledger.active_loads ->
  ledger w' Ledger.waiters <= CacheConfig.max_waiters config ->
  ledger w' Ledger.leases + ledger w' Ledger.lease_reservations <= CacheConfig.max_leases config ->
  CacheState.shutdown (World.state w') = CacheState.shutdown (World.state w) ->
  CacheState.generation (World.state w') = CacheState.generation (World.state w) ->
  CacheState.waiter (World.state w) <= CacheState.waiter (World.state w') ->
  (forall e', o = Some e' -> entry_ok config (World.state w') k e'
     /\ Entry.generation e' = Entry.generation e) ->
  (CacheState.shutdown (World.state w) = true -> stopped (Some e) -> stopped o) ->
  ledger_step k o w w'.
Proof.
  intros Hw He Hp Hl Hl1 Hl2 Hl3 Hl4 Hl5 Hs Hg Hwt Ho Hsp.
  destruct (wi_state _ Hw) as [_ [] _]. split; try done.
  - intros g. by rewrite He.
  - split; try done; try lia. rewrite Hp. pose proof (size_put k o (entries w)) as Hsz.
    rewrite He in Hsz. destruct o; lia.
  - lia.
  - by rewrite He.
  - by rewrite He.
Qed.

Lemma lease_same k o w w' :
  (forall g, share Ledger.leases o g = share Ledger.leases (entries w !! k) g) ->
  World.handles w' = World.handles w -> world_core w ->
  (forall e p, entries w !! k = Some e -> page_of e = Some p -> weight Ledger.leases e <> 0 ->
     exists e', o = Some e' /\ Entry.generation e' = Entry.generation e /\ page_of e' = Some p) ->
  lease_step k o w w'.
Proof.
  intros Hsh Hh Hw Hpg. split; intros *; rewrite Hh; [by rewrite Hsh|].
  intros Hl. destruct (decide (PageLease.key l = k)) as [<-|]; [right | by left]. split; [done|].
  destruct (wi_pages _ Hw l Hl) as (e & He & Hg & Hp).
  destruct (Hpg e _ He Hp) as (e' & -> & Hg' & Hp'); [|exists e'; by rewrite Hg'].
  pose proof (wi_leases _ Hw (PageLease.key l) (PageLease.generation l)) as Hc.
  rewrite He in Hc. cbn [share] in Hc. rewrite Hg, N.eqb_refl in Hc. rewrite <- Hc.
  unfold leases_of, lenN. destruct (filter _ _) eqn:Ef; [|done].
  exfalso. eapply (filter_nil_not_elem_of _ _ l); [exact Ef | by split | exact Hl].
Qed.

Lemma request_same k o w w' :
  (forall g, share Ledger.active_loads o g = share Ledger.active_loads (entries w !! k) g) ->
  World.reader w' = World.reader w -> request_step k o w w'.
Proof. intros Hsh Hr k' g. by rewrite Hr, Hsh. Qed.

Lemma waiter_same k o w w' :
  (forall g id, waits o g id <-> waits (entries w !! k) g id) ->
  (forall e, o = Some e -> NoDup (waiters_of e)) ->
  World.sent w' = World.sent w -> World.registrations w' = World.registrations w ->
  CacheState.waiter (World.state w) <= CacheState.waiter (World.state w') -> world_core w ->
  waiter_step k o w w'.
Proof.
  intros Hwt Hnd Hs Hr Hle Hw. split; rewrite ?Hs, ?Hr; try done.
  - intros g id (e & He & Hg & Hid)%Hwt.
    destruct (wi_fresh _ Hw k e id He Hid). split_and!; [lia | done | left; by exists e].
  - exists []. split_and!; [by rewrite app_nil_r | constructor | by intros ? ?%elem_of_nil].
  - intros r Hin. split; [done|]. intros _ Hid. left. by apply Hwt.
Qed.

Lemma token_same k o w w' :
  World.cancelled w' = World.cancelled w ->
  (forall e l, o = Some e -> Entry.state e = Loading l ->
    (LoadingEntry.accepting_waiters l = false <-> Entry.generation e ∈ World.cancelled w)) ->
  token_step k o w w'.
Proof. intros Hc Hl. split; rewrite Hc; try done. by left. Qed.

(** The special cases in which the entry does not concern a component. *)
Lemma lease_none k e o w w' :
  world_core w -> entries w !! k = Some e -> weight Ledger.leases e = 0 ->
  charge Ledger.leases o = 0 -> World.handles w' = World.handles w -> lease_step k o w w'.
Proof.
  intros Hw He H0 H1 Hh. apply lease_same; [| done | done |].
  - intros g. rewrite He. unfold share. rewrite H0. unfold charge in H1.
    destruct o as [e'|]; simpl in *; [rewrite H1|]; by repeat case_match.
  - intros e' p He' _ Hn. rewrite He in He'. by injection He' as <-.
Qed.

Lemma lease_keep k e e' w w' :
  world_core w -> entries w !! k = Some e -> Entry.generation e' = Entry.generation e ->
  weight Ledger.leases e' = weight Ledger.leases e -> page_of e' = page_of e ->
  World.handles w' = World.handles w -> lease_step k (Some e') w w'.
Proof.
  intros Hw He Hg Hl Hp Hh. apply lease_same; [| done | done |].
  - intros g. rewrite He. unfold share. by rewrite Hg, Hl.
  - intros e0 p He0 Hp0 _. rewrite He in He0. injection He0 as <-. exists e'. by rewrite Hp.
Qed.

Lemma request_none k e o w w' :
  entries w !! k = Some e -> weight Ledger.active_loads e = 0 ->
  charge Ledger.active_loads o = 0 -> World.reader w' = World.reader w -> request_step k o w w'.
Proof.
  intros He H0 H1 Hr. apply request_same; [|done]. intros g. rewrite He. unfold share. rewrite H0.
  unfold charge in H1. destruct o as [e'|]; simpl in *; [rewrite H1|]; by repeat case_match.
Qed.

Lemma request_keep k e e' w w' :
  entries w !! k = Some e -> Entry.generation e' = Entry.generation e ->
  weight Ledger.active_loads e' = weight Ledger.active_loads e ->
  World.reader w' = World.reader w -> request_step k (Some e') w w'.
Proof.
  intros He Hg Hl Hr. apply request_same; [|done]. intros g. rewrite He. unfold share. by rewrite Hg, Hl.
Qed.

Lemma waiter_keep k e o w w' :
  world_core w -> entries w !! k = Some e ->
  match o with
  | Some e' => waiters_of e' = waiters_of e /\ Entry.generation e' = Entry.generation e
  | None => waiters_of e = []
  end ->
  World.sent w' = World.sent w -> World.registrations w' = World.registrations w ->
  CacheState.waiter (World.state w') = CacheState.waiter (World.state w) -> waiter_step k o w w'.
Proof.
  intros Hw He Ho Hs Hr Hwt. apply waiter_same; try done; try lia.
  - intros g id. rewrite He. destruct o as [e'|].
    + destruct Ho as [Ho Hg]. unfold waits. split; intros (x & [= <-] & Hx & Hid); eexists;
        (split_and!; [done | congruence | congruence]).
    + split; intros (x & Hx & _ & Hid); [done|]. injection Hx as <-. rewrite Ho in Hid. by apply elem_of_nil in Hid.
  - intros e' ->. destruct Ho as [-> _]. by eapply wi_nodup.
Qed.

Lemma balanced_put k o w w' :
  balanced (World.state w) -> entries w' = put k o (entries w) ->
  (forall g, ledger w' g + charge g (entries w !! k) = ledger w g + charge g o) ->
  balanced (World.state w').
Proof.
  intros Hb He Hl g. rewrite He. pose proof (msum_put (weight g) k o (entries w)).
  specialize (Hl g). unfold charge in *. rewrite (Hb g) in Hl. lia.
Qed.

(** ** Changes that no other component sees *)

Record quiet (w w' : World.t) : Prop := {
  qu_entries : entries w' = entries w;
  qu_ledger : forall g, ledger w' g = ledger w g;
  qu_shutdown : CacheState.shutdown (World.state w') = CacheState.shutdown (World.state w);
  qu_generation : CacheState.generation (World.state w) <= CacheState.generation (World.state w');
  qu_waiter : CacheState.waiter (World.state w) <= CacheState.waiter (World.state w');
  qu_reader : AsyncReader.pending (World.reader w') ≡ₚ AsyncReader.pending (World.reader w);
  qu_cancelled : World.cancelled w' = World.cancelled w;
  qu_handles : World.handles w' = World.handles w;
  qu_registrations : World.registrations w' ⊆ World.registrations w;
  qu_sent : World.sent w' = World.sent w
}.

Lemma quiet_core w w' : world_core w -> quiet w w' -> world_core w'.
Proof.
  intros [[Hb [] He] Hle Hpg Hrq Hnd Hfr Hun Hse Hso Hrg Htk Hca Hge] [].
  split; rewrite ?qu_entries0, ?qu_cancelled0, ?qu_handles0, ?qu_sent0; try done.
  - split; rewrite ?qu_entries0; try done.
    + intros g. by rewrite qu_entries0, qu_ledger0, Hb.
    + split; by rewrite ?qu_ledger0.
    + intros k e Hk. destruct (He k e Hk). split; [lia | done].
  - intros k g. rewrite <- Hrq. unfold requests_of, lenN. by rewrite qu_reader0.
  - intros k e id Hk Hid. destruct (Hfr k e id Hk Hid). split; [lia | done].
  - intros id Hid. apply Hso in Hid. lia.
  - intros r Hr. apply Hrg. by apply qu_registrations0.
  - intros t Ht. apply Htk in Ht. lia.
Qed.

Lemma quiet_inv w w' :
  world_inv w -> quiet w w' -> published (World.metrics w') (ledger w') -> world_inv w'.
Proof.
  intros [Hw _ Hs] Hq Hp. split; [by eapply quiet_core | done |].
  destruct Hq. by rewrite qu_shutdown0, qu_entries0.
Qed.

Lemma quiet_refl w : quiet w w.
Proof. by split. Qed.

Lemma quiet_trans w1 w2 w3 : quiet w1 w2 -> quiet w2 w3 -> quiet w1 w3.
Proof.
  intros [] []. split; try lia; try congruence.

  - by rewrite qu_reader1.
  - by etrans.
Qed.

Lemma published_ext m l l' : (forall g, l' g = l g) -> published m l -> published m l'.
Proof. intros H []. split; by rewrite H. Qed.

(** ** Publication *)

Lemma wp_update (Q : unit -> World.t -> Prop) X w :
  balanced (World.state w) -> ledger w Ledger.page_pool_bytes <= u64_max ->
  (forall m, published m (ledger w) -> Q tt (World.set_metrics m w)) ->
  wp update_live_metrics Q X w.
Proof.
  intros Hb Hle HQ. unfold update_live_metrics. wstep. pose proof (pool_split _ Hb) as Hsp.
  apply wp_bind, wp_debug_assert.
  - apply bool_decide_eq_true_2. unfold checked_add.
    rewrite (proj2 (N.leb_le _ u64_max)) by lia. simpl.
    rewrite (proj2 (N.leb_le _ u64_max)) by lia. by rewrite Hsp.
  - wstep. apply HQ. split; unfold Metrics.set_live, Metrics.store; by repeat case_decide.
Qed.
End with_config.

(** A lookup after a removal and a reinsertion is a [put]. *)
Lemma insert_removed k e m : <[k := e]> (delete k m) = put k (Some e) m.
Proof. transitivity (<[k := e]> m); [apply insert_delete_eq | done]. Qed.
Lemma insert_put k e m : <[k := e]> m = put k (Some e) m.
Proof. done. Qed.
Lemma delete_put k m : delete k m = put k None m.
Proof. done. Qed.
Lemma put_id k e m : m !! k = Some e -> put k (Some e) m = m.
Proof. intros. transitivity (<[k := e]> m); [done | by apply insert_id]. Qed.
