(* ===== verification/StoreCacheOps.v ===== *)
(** Every operation of the cache preserves its invariant and does not panic. *)
From stdpp Require Import prelude gmap strings sorting.
From S2P Require Import Prelude Store StoreCache StoreCacheLogic StoreCacheInv.
#[local] Open Scope N_scope.
#[local] Arguments u64_max : simpl never.

(** The world in which [state.entries.remove(&key)] has returned the entry. *)
Definition removed (k : PageKey) (w : World.t) : World.t :=
  World.set_state (CacheState.set_entries (delete k (entries w)) (World.state w)) w.

Section with_config.
Context (config : CacheConfig.t) (Hconfig : config_ok config).

Lemma bounds w : world_core config w ->
  ledger w Ledger.leases + ledger w Ledger.lease_reservations <= CacheConfig.MAX_LEASES
  /\ ledger w Ledger.page_pool_bytes <= u64_max
  /\ ledger w Ledger.waiters <= CacheConfig.MAX_WAITERS
  /\ ledger w Ledger.active_loads <= CacheConfig.MAX_ENTRIES.
Proof. intros [[_ [] _]]. destruct Hconfig. lia. Qed.

(** An entry contributes no more than the gauge holds. *)
Lemma share_le w k e g : world_core config w -> entries w !! k = Some e ->
  weight g e <= ledger w g.
Proof. intros [[Hb _ _]] He. rewrite Hb. by eapply msum_le. Qed.

Lemma leases_of_cons l h k g :
  leases_of (l :: h) k g
    = (if decide (PageLease.key l = k /\ PageLease.generation l = g) then 1 else 0)
      + leases_of h k g.
Proof.
  unfold leases_of, lenN. rewrite filter_cons. case_decide; simpl; lia.
Qed.

(** Gauges survive the saturating counters. *)
Lemma published_add m l c v :
  published m l ->
  match c with
  | Metrics.active_loads | Metrics.page_pool_bytes | Metrics.inflight_bytes
  | Metrics.resident_bytes | Metrics.retiring_bytes | Metrics.leases => False
  | _ => True
  end -> published (Metrics.add c v m) l.
Proof.
  intros [] Hc. split; unfold Metrics.add, Metrics.store; (rewrite decide_False; [done|]);
    intros ->; done.
Qed.

Lemma get_hit_spec spec tick e r w :
  let k := PageSpec.key spec in
  world_inv config w -> entries w !! k = Some e -> Entry.state e = Resident r ->
  wp (get_hit config spec tick e r)
    (fun a w' => a = Immediate (PageLease.mk (ResidentEntry.page r) k (Entry.generation e))
       /\ World.handles w'
            = PageLease.mk (ResidentEntry.page r) k (Entry.generation e) :: World.handles w
       /\ transition config k (Some (Entry.set_state (Resident
            (ResidentEntry.set_leases (ResidentEntry.leases r + 1)
               (ResidentEntry.set_last_touch tick r))) e)) w w')
    (fun _ => world_inv config) (removed k w).
Proof.
  intros k Hi He Hr. pose proof Hi as [Hw Hpub _]. destruct (bounds w Hw) as (B1 & _). unfold CacheConfig.MAX_LEASES in *.
  pose proof (share_le w k e Ledger.leases Hw He) as Hle. unfold weight in Hle. rewrite Hr in Hle.
  destruct (wi_state _ _ Hw) as [Hb Hlim Hent].
  unfold get_hit. fold k. wstep. wstep. apply wp_bind, wp_lift. unfold removed. wsimpl.
  unfold add_or_panic, checked_add, usize_max. rewrite (proj2 (N.leb_le _ _)) by (unfold u64_max; lia).
  simpl. destruct (N.leb_spec (CacheConfig.max_leases config)
    (ledger w Ledger.leases + ledger w Ledger.lease_reservations)) as [Hge|Hlt].
  { wstep. wstep. wsimpl. rewrite insert_removed, put_id by done.
    apply (quiet_inv config w); [done | by split | by apply published_add]. }
  apply wp_bind, wp_lift. rewrite (proj2 (N.leb_le _ _)) by (unfold u64_max; lia). simpl.
  apply wp_bind, wp_add_gauge; wsimpl; [unfold u64_max; lia|].
  apply wp_bind. unfold new_lease. wstep. wstep. wstep. wstep. wstep. split; [done|]. split; [done|].
  wsimpl. rewrite insert_removed.
  split.
  - destruct Hlim. eapply ledger_change; wsimpl; gsimpl; try done; try lia.
    + intros g. destruct g; gsimpl; unfold charge, weight; simpl; rewrite ?Hr; lia.
    + intros e' [= <-]. destruct (Hent k e He) as [Hg Hx]. rewrite Hr in Hx. by split.
    + intros _. unfold stopped. by rewrite Hr.
  - split; wsimpl.
    + intros k' g. rewrite leases_of_cons. simpl. rewrite He. unfold share, weight. rewrite Hr. simpl.
      destruct (decide (k = k')) as [<-|]; [|rewrite decide_False by naive_solver; lia].
      destruct (N.eqb_spec (Entry.generation e) g); [rewrite decide_True by done; lia|].
      rewrite decide_False by naive_solver. lia.
    + intros l. rewrite elem_of_cons. intros [->|Hl]; [right; split; [done|]; by eexists|].
      destruct (decide (PageLease.key l = k)) as [Hk|]; [right; split; [done|] | by left].
      destruct (wi_pages _ _ Hw l Hl) as (e' & He' & Hg & Hp). rewrite Hk, He in He'. injection He' as <-.
      eexists. split_and!; [done | done |]. unfold page_of in *. by rewrite Hr in Hp.
  - eapply request_keep; try done. unfold weight. by rewrite Hr.
  - eapply (waiter_keep config); try done. unfold waiters_of. by rewrite Hr.
  - apply token_same; [done|]. intros e' l [= <-]. done.
Qed.

(** ** A change of one entry, then the publication of the gauges *)

Lemma balanced_transition k o w w' :
  world_core config w -> transition config k o w w' -> balanced (World.state w').
Proof. intros Hw Ht. apply (transition_state config k o w w'); [apply Hw | done]. Qed.

(** A metrics update is invisible to a transition. *)
Lemma transition_metrics k o w w' m :
  transition config k o w w' -> transition config k o w (World.set_metrics m w').
Proof. intros [[] [] Hr [] []]. split; [split | split | exact Hr | split | split]; assumption. Qed.

Lemma wp_publish k o w w' (Q : unit -> World.t -> Prop) X :
  world_inv config w -> transition config k o w w' ->
  (forall m, world_inv config (World.set_metrics m w') -> Q tt (World.set_metrics m w')) ->
  wp update_live_metrics Q X w'.
Proof.
  intros [Hw _ Hsd] Ht HQ. pose proof (transition_core config k o w w' Hw Ht) as Hw'.
  apply wp_update; [exact (balanced_transition _ _ _ _ Hw Ht) | by apply bounds|].
  intros m Hm. apply HQ. split; [| done |].
  - eapply transition_core; [exact Hw | by apply transition_metrics].
  - exact (transition_stopped config k o w w' Ht Hsd).
Qed.

Lemma transition_inv k o w w' :
  world_inv config w -> transition config k o w w' -> published (World.metrics w') (ledger w') ->
  world_inv config w'.
Proof.
  intros [Hw _ Hsd] Ht Hp. split; [by eapply transition_core | done | exact (transition_stopped config k o w w' Ht Hsd)].
Qed.

Lemma mark_spec k g w :
  world_inv config w ->
  wp (mark_prefetch_use k g) (fun _ => world_inv config) (fun _ _ => False) w.
Proof.
  intros Hi. pose proof Hi as [Hw Hpub Hsd]. unfold mark_prefetch_use. wstep.
  destruct (entries w !! k) as [e|] eqn:He; [|by wstep]. cbv beta.
  destruct (negb _) eqn:Hg; [by wstep|].
  destruct (wi_state _ _ Hw) as [Hb Hlim Hent]. destruct (Hent k e He) as [Hge Hx].
  destruct (Entry.state e) as [l|r|r] eqn:Hr; [by wstep | |].
  all: apply wp_when; [intros Hu | by intros].
  all: wstep; wstep; wstep; wsimpl; rewrite insert_put.
  all: eapply transition_inv; [exact Hi | split | by apply published_add];
    [destruct Hlim; eapply ledger_change; wsimpl; try done; try lia
    | eapply lease_keep; try done; unfold weight, page_of; by rewrite Hr
    | eapply request_keep; try done; unfold weight; by rewrite Hr
    | eapply waiter_keep; try done; unfold waiters_of; by rewrite Hr
    | by apply token_same; [|intros ? ? [= <-]] ].
  all: try (intros g0; unfold charge, weight; destruct g0; simpl; rewrite ?Hr; lia).
  all: try (intros e' [= <-]; split; [split; [done|] | done]; done).
  all: intros _; unfold stopped; by rewrite Hr.
Qed.

(** Replacing a loading entry by a loading entry with the same waiters. *)
Lemma loading_transition k e l l' w w' :
  world_core config w -> entries w !! k = Some e -> Entry.state e = Loading l ->
  LoadingEntry.waiters l' = LoadingEntry.waiters l ->
  LoadingEntry.cancellation l' = LoadingEntry.cancellation l ->
  (LoadingEntry.accepting_waiters l = false -> LoadingEntry.accepting_waiters l' = false) ->
  World.state w' = CacheState.set_entries
    (put k (Some (Entry.set_state (Loading l') e)) (entries w)) (World.state w) ->
  World.handles w' = World.handles w -> World.reader w' = World.reader w ->
  World.sent w' = World.sent w -> World.registrations w' = World.registrations w ->
  token_step k (Some (Entry.set_state (Loading l') e)) w w' ->
  transition config k (Some (Entry.set_state (Loading l') e)) w w'.
Proof.
  intros Hw He Hl Hws Hcl Hacc Hst Hh Hrd Hse Hrg Htk.
  destruct (wi_state _ _ Hw) as [Hb Hlim Hent]. destruct (Hent k e He) as [Hge Hx].
  rewrite Hl in Hx. destruct Hx as (Hc1 & Hc2).
  split; [| | | |done].
  - destruct Hlim. eapply ledger_change; try done; rewrite ?Hst; wsimpl; try done; try lia.
    + intros g. unfold charge, weight. destruct g; simpl; rewrite ?Hl, ?Hws; lia.
    + intros e' [= <-]. split; [|done]. split; [done|]. simpl. rewrite Hws, Hcl.
      by split_and!.
    + intros _. unfold stopped. rewrite Hl. simpl. rewrite Hws. intros []. auto.
  - eapply lease_keep; try done; unfold weight, page_of; by rewrite Hl.
  - eapply request_keep; try done; unfold weight; by rewrite Hl.
  - eapply waiter_keep; try done; [|by rewrite Hst]. unfold waiters_of. by rewrite Hl.
Qed.

Lemma prefetch_present_spec spec e w :
  let k := PageSpec.key spec in
  world_inv config w -> entries w !! k = Some e ->
  wp ('(outcome, entry) ← prefetch_present spec e;
      _ ← insert_entry k entry;
      _ ← update_live_metrics;
      mret outcome) (fun _ => world_inv config) (fun _ _ => False) (removed k w).
Proof.
  intros k Hi He. pose proof Hi as [Hw Hpub Hsd].
  assert (forall (m : Metrics.metric) o (out : PrefetchOutcome),
    wp ('(outcome, entry) ← (_ ← count m;
          _ ← record o Prefetch k (PageSpec.length spec); mret (out, e));
        _ ← insert_entry k entry; _ ← update_live_metrics; mret outcome)
      (fun _ => world_inv config) (fun _ _ => False) (removed k w)) as Hsame.
  { intros m o out. apply wp_bind. wstep. wstep. wstep. wstep.
    unfold removed. wsimpl. rewrite insert_removed, put_id by done.
    destruct (bounds w Hw) as (_ & Hp & _).
    apply wp_bind, wp_update; [by apply Hw | done |]. intros m' Hm'. wstep.
    apply (quiet_inv config w); [done | by split | done]. }
  unfold prefetch_present. fold k.
  destruct (Entry.state e) as [l|r|r] eqn:Hl; [|apply Hsame..].
  destruct (_ && _ && _) eqn:Hc; [|clear Hc; destruct (LoadingEntry.accepting_waiters l); apply Hsame].
  apply wp_bind. wstep. wstep. wstep. wstep. unfold removed. wsimpl. rewrite insert_removed.
  apply wp_bind. eapply (wp_publish k _ w); [done| |intros m ?; by wstep].
  eapply (loading_transition k e l (LoadingEntry.set_prefetch_interest true l)); try done.
  apply token_same; [done|]. intros e' l' [= <-] [= <-]. by apply (wi_cancelled _ _ Hw k e l).
Qed.

(** A resident page that leaves the cache, or retires under its leases. *)
Definition retired (e : Entry.t) (r : ResidentEntry.t) : option Entry.t :=
  if ResidentEntry.leases r =? 0 then None
  else Some (Entry.set_state (Retiring (RetiringEntry.mk (ResidentEntry.page r)
               (ResidentEntry.leases r) (ResidentEntry.prefetched_unused r))) e).

Lemma set_sent_id w : World.set_sent (World.sent w) w = w.
Proof. by destruct w. Qed.

(** Stated up to the completions sent, which a shutdown sends at its end. *)
Lemma retire_spec k e r traced sent w :
  world_core config w -> entries w !! k = Some e -> Entry.state e = Resident r ->
  wp (retire_resident k e r traced)
    (fun _ w' => transition config k (retired e r) w (World.set_sent (World.sent w) w')
                 /\ World.sent w' = sent) (fun _ _ => False)
    (removed k (World.set_sent sent w)).
Proof.
  intros Hw He Hr. unfold retire_resident, retired.
  pose proof (share_le w k e Ledger.page_pool_bytes Hw He) as Hb1.
  pose proof (share_le w k e Ledger.resident_bytes Hw He) as Hb2.
  destruct (bounds w Hw) as (_ & Hpool & _). destruct (wi_state _ _ Hw) as [Hb Hlim Hent].
  pose proof (pool_split _ Hb) as Hsplit.
  destruct (Hent k e He) as [Hge Hx]. unfold weight in Hb1, Hb2. rewrite Hr in Hx, Hb2.
  destruct (N.eqb_spec (ResidentEntry.leases r) 0) as [Hl|Hl].
  - apply wp_bind, wp_sub_gauge; [done|]. unfold removed. wsimpl.
    apply wp_bind, wp_sub_gauge; wsimpl; gsimpl; [done|].
    apply wp_when; intros _; repeat wstep; wsimpl; rewrite delete_put; (split; [|done]).
    all: split;
      [ destruct Hlim; eapply ledger_change; wsimpl; gsimpl; try done; try lia
      | eapply lease_none; try done; unfold weight; by rewrite Hr
      | eapply request_none; try done; unfold weight; by rewrite Hr
      | eapply waiter_keep; try done; unfold waiters_of; by rewrite Hr
      | by apply token_same ].
    all: intros g; destruct g; gsimpl; unfold charge, weight; simpl; rewrite ?Hr; lia.
  - apply wp_bind, wp_sub_gauge; [done|]. unfold removed. wsimpl.
    apply wp_bind, wp_add_gauge; wsimpl; gsimpl; [lia|].
    apply wp_bind, wp_when; intros _; repeat wstep; wsimpl; rewrite insert_removed; (split; [|done]).
    all: split;
      [ destruct Hlim; eapply ledger_change; wsimpl; gsimpl; try done; try lia
      | eapply lease_keep; try done; unfold weight, page_of; by rewrite Hr
      | eapply request_keep; try done; unfold weight; by rewrite Hr
      | eapply waiter_keep; try done; unfold waiters_of; by rewrite Hr
      | by apply token_same; [|intros ? ? [= <-]] ].
    all: try (intros g; destruct g; gsimpl; unfold charge, weight; simpl; rewrite ?Hr; lia).
    all: intros e' [= <-]; split; [split; [done|] | done]; simpl; split; [done | lia].
Qed.

(** Nobody new can lease the page of this entry. *)
Definition closed (o : option Entry.t) : Prop :=
  match o with
  | None => True
  | Some e => match Entry.state e with
              | Loading l => LoadingEntry.accepting_waiters l = false
              | Resident _ => False
              | Retiring _ => True
              end
  end.

Lemma retired_closed e r : closed (retired e r).
Proof. unfold retired. by case_match. Qed.

Lemma invalidate_spec k w :
  world_inv config w ->
  wp (invalidate k) (fun b w' => world_inv config w' /\ b = bool_decide (is_Some (entries w !! k))
                                 /\ closed (entries w' !! k))
    (fun _ _ => False) w.
Proof.
  intros Hi. pose proof Hi as [Hw Hpub Hsd]. unfold invalidate. wstep.
  destruct (entries w !! k) as [e|] eqn:He; cbv beta.
  2: { wstep. rewrite bool_decide_eq_false_2 by (by intros []). by rewrite He. }
  rewrite bool_decide_eq_true_2 by done.
  wstep. apply wp_bind. destruct (Entry.state e) as [l|r|r] eqn:Hl.
  - wstep. wstep. wsimpl. rewrite insert_removed. apply wp_bind.
    eapply (wp_publish k _ w); [done| |intros m ?; wstep; wsimpl; by rewrite lookup_put, decide_True by done].
    destruct (wi_state _ _ Hw) as [_ _ Hent]. destruct (Hent k e He) as [Hge Hx].
    rewrite Hl in Hx. destruct Hx as (Hc1 & _).
    eapply (loading_transition k e l (LoadingEntry.set_accepting_waiters false l)); try done.
    split; wsimpl; rewrite Hc1.
    + intros e' l' [= <-] [= <-]. set_solver.
    + set_solver.
    + intros t. rewrite elem_of_union, elem_of_singleton. intros [->|?]; [right; by exists e | by left].
  - fold (removed k w).
    replace (removed k w) with (removed k (World.set_sent (World.sent w) w)) by (by destruct w).
    eapply wp_mono; [by apply retire_spec | | done]. intros ? w' [Ht Hs'].
    rewrite <- Hs', set_sent_id in Ht. apply wp_bind.
    eapply (wp_publish k _ w); [done | exact Ht |]. intros m ?. wstep. wsimpl.
    rewrite (tr_entries _ _ _ _ _ (tr_ledger_step _ _ _ _ _ Ht)), lookup_put, decide_True by done.
    split_and!; [done | done | apply retired_closed].
  - wstep. wsimpl. rewrite insert_removed, put_id by done.
    destruct (bounds w Hw) as (_ & Hp & _).
    apply wp_bind, wp_update; [by apply Hw | done |]. intros m' Hm'. wstep. wsimpl. rewrite He. simpl.
    rewrite Hl. split_and!; [|done|done]. apply (quiet_inv config w); [done | by split | done].
Qed.

(** ** Leases *)

Lemma list_find_perm {A} `{EqDecision A} (x : A) l :
  x ∈ l -> exists i, list_find (eq x) l = Some (i, x) /\ l ≡ₚ x :: delete i l.
Proof.
  intros Hx. destruct (list_find_elem_of (eq x) l x Hx eq_refl) as [[i y] Hf].
  pose proof Hf as (Hi & <- & _)%list_find_Some. exists i. split; [done|].
  by apply delete_Permutation.
Qed.

(** The owner of a lease drops it. *)
Lemma lease_drop_step k e o l h w w' :
  world_core config w -> World.handles w ≡ₚ l :: h -> World.handles w' = h ->
  PageLease.key l = k -> entries w !! k = Some e -> Entry.generation e = PageLease.generation l ->
  weight Ledger.leases e = charge Ledger.leases o + 1 ->
  (match o with
   | Some e' => Entry.generation e' = Entry.generation e /\ page_of e' = page_of e
   | None => True
   end) ->
  lease_step k o w w'.
Proof.
  intros Hw Hh Hh' Hk He Hg Hwt Ho.
  assert (forall k' g, leases_of (World.handles w) k' g = leases_of (l :: h) k' g) as Hperm.
  { intros k' g. unfold leases_of, lenN. by rewrite Hh. }
  split.
  - intros k' g. rewrite Hperm, Hh', leases_of_cons, Hk, <- Hg, He.
    destruct (decide (k = k')) as [<-|Hne].
    + unfold share. destruct (N.eqb_spec (Entry.generation e) g) as [Heq|Hneq].
      * rewrite decide_True by done. destruct o as [e'|]; unfold charge in Hwt; cbn [from_option] in Hwt.
        -- destruct Ho as [-> _]. rewrite Heq, N.eqb_refl. lia.
        -- lia.
      * rewrite decide_False by naive_solver. destruct o as [e'|]; [|lia].
        destruct Ho as [-> _]. rewrite (proj2 (N.eqb_neq _ _)) by done. lia.
    + rewrite decide_False by naive_solver. lia.
  - intros l'. rewrite Hh'. intros Hl'.
    destruct (decide (PageLease.key l' = k)) as [Hk'|]; [right | left; split; [|done]; rewrite Hh; by right].
    split; [done|]. destruct (wi_pages _ _ Hw l') as (e1 & He1 & Hg1 & Hp1); [rewrite Hh; by right|].
    rewrite Hk', He in He1. injection He1 as <-.
    destruct o as [e'|].
    + destruct Ho as [Ho1 Ho2]. exists e'. by rewrite Ho1, Ho2.
    + exfalso. pose proof (wi_leases _ _ Hw k (Entry.generation e)) as Hc.
      rewrite Hperm, He in Hc. cbn [share] in Hc. rewrite N.eqb_refl, Hwt in Hc. cbn [charge from_option] in Hc.
      rewrite leases_of_cons, decide_True in Hc by done.
      assert (leases_of h k (Entry.generation e) = 0) as Hz by lia. unfold leases_of, lenN in Hz.
      destruct (filter _ h) eqn:Ef; [|done].
      eapply (filter_nil_not_elem_of _ _ l'); [exact Ef | by split | exact Hl'].
Qed.

(** The change of one entry when one of its leases is dropped, field by field. *)
Ltac lease_dropped Hlim Hs k e l requests tokens :=
  split;
    [ destruct Hlim; eapply ledger_change; wsimpl; gsimpl; try done; try lia
    | eapply (lease_drop_step k e _ l); try done; unfold weight, charge, page_of; simpl;
      rewrite ?Hs; simpl; first [lia | done]
    | eapply requests; try done; unfold weight; by rewrite Hs
    | eapply waiter_keep; try done; unfold waiters_of; by rewrite Hs
    | tokens ].

Lemma drop_lease_spec l w :
  world_inv config w -> l ∈ World.handles w ->
  wp (drop_lease l) (fun _ => world_inv config) (fun _ _ => False) w.
Proof.
  intros Hi Hl. pose proof Hi as [Hw Hpub Hsd]. unfold drop_lease.
  destruct (list_find_perm l _ Hl) as (i & Hfind & Hperm).
  destruct (wi_pages _ _ Hw l Hl) as (e & He & Hg & Hp). set (k := PageLease.key l) in *.
  pose proof (wi_leases _ _ Hw k (PageLease.generation l)) as Hc. rewrite He in Hc.
  cbn [share] in Hc. rewrite Hg, N.eqb_refl in Hc.
  assert (1 <= weight Ledger.leases e) as Hpos.
  { rewrite <- Hc. unfold leases_of, lenN. rewrite Hperm, filter_cons_True by done. simpl. lia. }
  clear Hc. pose proof (share_le w k e Ledger.leases Hw He) as Hle.
  pose proof (share_le w k e Ledger.page_pool_bytes Hw He) as Hb1.
  pose proof (share_le w k e Ledger.retiring_bytes Hw He) as Hb3.
  destruct (wi_state _ _ Hw) as [Hb Hlim Hent]. destruct (Hent k e He) as [Hge Hx].
  wstep. rewrite Hfind. unfold release_lease. wstep. wsimpl. fold k. rewrite He. cbv beta. wstep.
  rewrite Hg, N.eqb_refl. simpl negb. cbv iota. apply wp_bind.
  unfold weight, page_of in *. destruct (Entry.state e) as [ll|r|r] eqn:Hs; [done | |].
  - rewrite (proj2 (N.ltb_lt _ _)) by lia.
    apply wp_bind, wp_lift, post_sub_or_panic; [lia|].
    apply wp_bind, wp_sub_gauge; wsimpl; [lia|]. wstep. wsimpl. rewrite insert_removed.
    eapply (wp_publish k _ w); [done | | by intros].
    lease_dropped Hlim Hs k e l request_keep ltac:(by apply token_same; [|intros ? ? [= <-]]).
    + intros g; destruct g; gsimpl; unfold charge, weight; simpl; rewrite ?Hs; lia.
    + intros e' [= <-]. by split.
    + intros _. unfold stopped. by rewrite Hs.
  - rewrite (proj2 (N.ltb_lt _ _)) by lia.
    apply wp_bind, wp_lift, post_sub_or_panic; [lia|].
    apply wp_bind, wp_sub_gauge; wsimpl; [lia|].
    destruct (N.eqb_spec (RetiringEntry.leases r - 1) 0) as [Hz|Hnz].
    + apply wp_bind, wp_sub_gauge; wsimpl; gsimpl; [lia|].
      apply wp_bind, wp_sub_gauge; wsimpl; gsimpl; [lia|].
      apply wp_when; intros _; repeat wstep; wsimpl; rewrite delete_put.
      all: eapply (wp_publish k _ w); [done | | by intros];
        lease_dropped Hlim Hs k e l request_none ltac:(by apply token_same).
      all: intros g; destruct g; gsimpl; unfold charge, weight; simpl; rewrite ?Hs; lia.
    + wstep. wsimpl. rewrite insert_removed.
      eapply (wp_publish k _ w); [done | | by intros].
      lease_dropped Hlim Hs k e l request_keep ltac:(by apply token_same; [|intros ? ? [= <-]]).
      * intros g; destruct g; gsimpl; unfold charge, weight; simpl; rewrite ?Hs; lia.
      * intros e' [= <-]. split; [|done]. split; [done|]. simpl. split; [apply Hx | lia].
Qed.

(** ** Waiters *)

Lemma reserve_waiter_spec w n :
  world_core config w ->
  post (reserve_waiter config (World.state w) n)
    (fun _ => ledger w Ledger.waiters < CacheConfig.max_waiters config
       /\ n < CacheConfig.max_waiters_per_page config
       /\ ledger w Ledger.leases + ledger w Ledger.lease_reservations < CacheConfig.max_leases config)
    (fun _ => True).
Proof.
  intros Hw. destruct (bounds w Hw) as (B & _). unfold CacheConfig.MAX_LEASES in B. unfold reserve_waiter.
  apply post_bind, post_guard; [done | intros H1%N.leb_gt].
  apply post_bind, post_guard; [done | intros H2%N.leb_gt].
  unfold add_or_panic, checked_add, usize_max. rewrite (proj2 (N.leb_le _ _)) by (unfold u64_max; lia).
  simpl. apply post_guard; [done | intros H3%N.leb_gt]. done.
Qed.

Lemma wp_next_waiter (Q : N -> World.t -> Prop) (X : StoreError -> World.t -> Prop) w :
  let id := CacheState.waiter (World.state w) + 1 in
  (id <= u64_max -> Q id (World.set_state (CacheState.set_waiter id (World.state w)) w)) ->
  X (Invariant "cache waiter identity exhausted") w -> wp next_waiter Q X w.
Proof.
  intros id HQ HX. unfold next_waiter. wstep. apply wp_bind, wp_lift, post_checked_add; [|done].
  intros Hle. wstep. wstep. by apply HQ.
Qed.

Lemma wp_next_generation (Q : N -> World.t -> Prop) (X : StoreError -> World.t -> Prop) w :
  let g := CacheState.generation (World.state w) + 1 in
  (g <= u64_max -> Q g (World.set_state (CacheState.set_generation g (World.state w)) w)) ->
  X (Invariant "cache generation exhausted") w -> wp next_generation Q X w.
Proof.
  intros g HQ HX. unfold next_generation. wstep. apply wp_bind, wp_lift, post_checked_add; [|done].
  intros Hle. wstep. wstep. by apply HQ.
Qed.

Lemma fresh_waiter w k e :
  world_core config w -> entries w !! k = Some e ->
  (CacheState.waiter (World.state w) + 1 ∉ waiters_of e)
  /\ (CacheState.waiter (World.state w) + 1 ∉ (World.sent w).*1).
Proof.
  intros Hw He. split; intros Hin.
  - apply (wi_fresh _ _ Hw k e) in Hin as [? _]; [lia | done].
  - apply (wi_sent_old _ _ Hw) in Hin. lia.
Qed.

Definition joined (tick id : N) (e : Entry.t) (l : LoadingEntry.t) : Entry.t :=
  Entry.set_state (Loading (LoadingEntry.set_last_touch tick
    (LoadingEntry.set_waiters (LoadingEntry.waiters l ++ [id]) l))) e.

Lemma join_transition k e l tick w w' :
  let id := CacheState.waiter (World.state w) + 1 in
  world_core config w -> entries w !! k = Some e -> Entry.state e = Loading l ->
  LoadingEntry.accepting_waiters l = true ->
  ledger w Ledger.waiters < CacheConfig.max_waiters config ->
  lenN (LoadingEntry.waiters l) < CacheConfig.max_waiters_per_page config ->
  ledger w Ledger.leases + ledger w Ledger.lease_reservations < CacheConfig.max_leases config ->
  entries w' = put k (Some (joined tick id e l)) (entries w) ->
  ledger w' = Ledger.set Ledger.lease_reservations (ledger w Ledger.lease_reservations + 1)
    (Ledger.set Ledger.waiters (ledger w Ledger.waiters + 1) (ledger w)) ->
  CacheState.shutdown (World.state w') = CacheState.shutdown (World.state w) ->
  CacheState.generation (World.state w') = CacheState.generation (World.state w) ->
  CacheState.waiter (World.state w') = id ->
  World.handles w' = World.handles w -> World.reader w' = World.reader w ->
  World.sent w' = World.sent w -> World.registrations w' = World.registrations w ->
  World.cancelled w' = World.cancelled w ->
  transition config k (Some (joined tick id e l)) w w'.
Proof.
  intros id Hw He Hl Hacc H1 H2 H3 Hen Hld Hsd Hgn Hwt Hh Hrd Hse Hrg Hcn.
  destruct (wi_state _ _ Hw) as [Hb Hlim Hent]. destruct (Hent k e He) as [Hge Hx].
  rewrite Hl in Hx. destruct Hx as [Hc1 Hc2].
  destruct (fresh_waiter w k e Hw He) as [Hf1 Hf2]. fold id in Hf1, Hf2.
  assert (waiters_of e = LoadingEntry.waiters l) as Hwe by (unfold waiters_of; by rewrite Hl).
  split.
  - destruct Hlim. eapply ledger_change; rewrite ?Hld; gsimpl; try done; try lia.
    + intros g. destruct g; gsimpl; unfold charge, weight, lenN; simpl; rewrite ?Hl; try lia;
        rewrite length_app; simpl; lia.
    + intros e' [= <-]. split; [|done]. split; [by rewrite Hgn|]. simpl. split; [done|].
      unfold lenN in *. rewrite length_app. simpl. lia.
    + intros _. unfold stopped. rewrite Hl. intros []. congruence.
  - eapply lease_keep; try done; unfold weight, page_of; by rewrite Hl.
  - eapply request_keep; try done; unfold weight; by rewrite Hl.
  - split; rewrite ?Hse, ?Hrg, ?Hwt.
    + intros e' [= <-]. unfold waiters_of. simpl. rewrite <- Hwe.
      apply NoDup_snoc; [by eapply wi_nodup | done].
    + intros g x (e' & [= <-] & <- & Hin). unfold waiters_of in Hin. simpl in Hin.
      rewrite <- Hwe, elem_of_app, list_elem_of_singleton in Hin. destruct Hin as [Hin| ->].
      * destruct (wi_fresh _ _ Hw k e x He Hin). split_and!; [lia | done | left; by exists e].
      * split_and!; [lia | done | right; lia].
    + exists []. split_and!; [by rewrite app_nil_r | constructor | by intros ? ?%elem_of_nil].
    + intros r Hr. split; [done|]. intros _ (e' & Heq & Hg & Hin). rewrite He in Heq. injection Heq as <-.
      left. eexists. split_and!; [done | done |]. unfold waiters_of. simpl. rewrite <- Hwe. set_solver.
  - apply token_same; [done|]. intros e' l' [= <-] [= <-]. by apply (wi_cancelled _ _ Hw k e l).
Qed.

Lemma get_join_spec spec tick e l w :
  let k := PageSpec.key spec in
  world_inv config w -> entries w !! k = Some e -> Entry.state e = Loading l ->
  wp (get_join config spec tick e l)
    (fun a w' => let id := CacheState.waiter (World.state w) + 1 in
       a = Waiting (Registration.mk k (Entry.generation e) id)
       /\ transition config k (Some (joined tick id e l)) w w')
    (fun _ => world_inv config) (removed k w).
Proof.
  intros k Hi He Hl. pose proof Hi as [Hw Hpub _]. destruct (bounds w Hw) as (B1 & _ & B2 & _).
  unfold CacheConfig.MAX_LEASES, CacheConfig.MAX_WAITERS in *.
  unfold get_join. fold k. wstep. wstep.
  destruct (LoadingEntry.accepting_waiters l) eqn:Hacc; simpl negb; cbv iota.
  2: { unfold removed. wstep. wstep. wsimpl. rewrite insert_removed, put_id by done.
       apply (quiet_inv config w); [done | by split | by apply published_add]. }
  wstep. apply wp_bind, wp_attempt, wp_bind, wp_lift.
  pose proof (reserve_waiter_spec w (lenN (LoadingEntry.waiters l)) Hw) as Hres.
  unfold id. unfold removed. wsimpl. unfold reserve_waiter in *. wsimpl.
  eapply post_mono; [exact Hres | |].
  2: { intros e0 _. wstep. wstep. wsimpl. rewrite insert_removed, put_id by done.
       apply (quiet_inv config w); [done | by split | by apply published_add]. }
  intros _ (H1 & H2 & H3). apply wp_next_waiter; wsimpl.
  2: { wstep. wstep. wsimpl. rewrite insert_removed, put_id by done.
       apply (quiet_inv config w); [done | by split | by apply published_add]. }
  intros Hid. apply wp_bind, wp_add_gauge; wsimpl; [unfold u64_max; lia|].
  apply wp_bind, wp_add_gauge; wsimpl; gsimpl; [unfold u64_max; lia|].
  apply wp_bind. destruct (is_late_prefetch _); wstep; wstep; wstep; wstep; wstep; (split; [done|]);
    wsimpl; rewrite insert_removed; by eapply (join_transition k e l tick w).
Qed.

Lemma swap_remove_perm {A} i (l : list A) x : l !! i = Some x -> l ≡ₚ x :: swap_remove i l.
Proof.
  intros Hi. unfold swap_remove. destruct l as [|y l _] using rev_ind; [done|].
  rewrite last_snoc, length_app. simpl. rewrite Nat.add_sub, take_app_length.
  destruct (decide (i = length l)) as [->|Hne].
  - rewrite list_lookup_middle in Hi by done. injection Hi as ->. by rewrite Permutation_app_comm.
  - assert (i < length l)%nat as Hlt.
    { apply lookup_lt_Some in Hi. rewrite length_app in Hi. simpl in Hi. lia. }
    rewrite lookup_app_l in Hi by done. rewrite insert_take_drop by done.
    rewrite <- (take_drop_middle l i x Hi) at 1. rewrite <- app_assoc. simpl.
    rewrite <- Permutation_middle. constructor. apply Permutation_app_head.
    by rewrite Permutation_app_comm.
Qed.

(** The waiters of an entry without one of them. *)
Definition left_by (ws : list N) (l : LoadingEntry.t) : LoadingEntry.t :=
  if bool_decide (ws = []) && negb (LoadingEntry.prefetch_interest l)
  then LoadingEntry.set_accepting_waiters false (LoadingEntry.set_waiters ws l)
  else LoadingEntry.set_waiters ws l.

Lemma left_by_waiters ws l : LoadingEntry.waiters (left_by ws l) = ws.
Proof. unfold left_by. by destruct (_ && _). Qed.

Lemma withdraw_transition k e l r ws w w' :
  world_core config w -> entries w !! k = Some e -> Entry.state e = Loading l ->
  Registration.key r = k -> Registration.generation r = Entry.generation e ->
  LoadingEntry.waiters l ≡ₚ Registration.waiter_id r :: ws ->
  entries w' = put k (Some (Entry.set_state (Loading (left_by ws l)) e)) (entries w) ->
  ledger w' = Ledger.set Ledger.lease_reservations (ledger w Ledger.lease_reservations - 1)
    (Ledger.set Ledger.waiters (ledger w Ledger.waiters - 1) (ledger w)) ->
  CacheState.shutdown (World.state w') = CacheState.shutdown (World.state w) ->
  CacheState.generation (World.state w') = CacheState.generation (World.state w) ->
  CacheState.waiter (World.state w') = CacheState.waiter (World.state w) ->
  World.handles w' = World.handles w -> World.reader w' = World.reader w ->
  World.sent w' = World.sent w ->
  World.registrations w' = filter (fun r' => r' <> r) (World.registrations w) ->
  World.cancelled w' = (if bool_decide (ws = []) && negb (LoadingEntry.prefetch_interest l)
                        then {[Entry.generation e]} ∪ World.cancelled w else World.cancelled w) ->
  transition config k (Some (Entry.set_state (Loading (left_by ws l)) e)) w w'.
Proof.
  intros Hw He Hl Hk Hg Hp Hen Hld Hsd Hgn Hwt Hh Hrd Hse Hrg Hcn.
  destruct (wi_state _ _ Hw) as [Hb Hlim Hent]. destruct (Hent k e He) as [Hge Hx].
  rewrite Hl in Hx. destruct Hx as [Hc1 Hc2].
  assert (waiters_of e = LoadingEntry.waiters l) as Hwe by (unfold waiters_of; by rewrite Hl).
  pose proof (wi_nodup _ _ Hw k e He) as Hnd. rewrite Hwe, Hp in Hnd. apply NoDup_cons in Hnd as [Hni Hnd].
  assert (lenN (LoadingEntry.waiters l) = lenN ws + 1) as Hlen.
  { unfold lenN. rewrite Hp. simpl. lia. }
  pose proof (share_le w k e Ledger.waiters Hw He) as Hs1.
  pose proof (share_le w k e Ledger.lease_reservations Hw He) as Hs2.
  unfold weight in Hs1, Hs2. rewrite Hl, Hlen in Hs1, Hs2.
  split.
  - destruct Hlim. eapply ledger_change; rewrite ?Hld; gsimpl; try done; try lia.
    + intros g. destruct g; gsimpl; unfold charge, weight; simpl; rewrite ?Hl, ?left_by_waiters; lia.
    + intros e' [= <-]. split; [|done]. split; [by rewrite Hgn|]. simpl. rewrite left_by_waiters.
      split; [|lia]. unfold left_by. by destruct (_ && _).
    + intros _. unfold stopped. rewrite Hl. simpl. rewrite left_by_waiters. intros [Hnil _].
      rewrite Hnil in Hp. by apply Permutation_nil_cons in Hp.
  - eapply lease_keep; try done; unfold weight, page_of; by rewrite Hl.
  - eapply request_keep; try done; unfold weight; by rewrite Hl.
  - assert (forall x, x ∈ ws -> x ∈ waiters_of e) as Hsub.
    { intros x Hin. rewrite Hwe, Hp. by right. }
    split; rewrite ?Hse, ?Hrg, ?Hwt.
    + intros e' [= <-]. unfold waiters_of. simpl. by rewrite left_by_waiters.
    + intros g x (e' & [= <-] & <- & Hin). unfold waiters_of in Hin. simpl in Hin.
      rewrite left_by_waiters in Hin.
      destruct (wi_fresh _ _ Hw k e x He (Hsub x Hin)). split_and!; [done | done | left].
      exists e. auto.
    + exists []. split_and!; [by rewrite app_nil_r | constructor | by intros ? ?%elem_of_nil].
    + intros r' [Hne Hr']%list_elem_of_filter. split; [done|].
      intros Hk' (e' & Heq & Hg' & Hin). rewrite He in Heq. injection Heq as <-.
      left. eexists. split_and!; [done | done |]. unfold waiters_of. simpl. rewrite left_by_waiters.
      rewrite Hwe, Hp, elem_of_cons in Hin. destruct Hin as [Heq|]; [|done].
      destruct Hne. destruct r, r'. simpl in *. congruence.
  - pose proof (wi_cancelled _ _ Hw k e l He Hl) as Hca.
    split; rewrite Hcn; unfold left_by.
    + intros e' l' [= <-] [= <-]. destruct (_ && _); simpl; [set_solver | done].
    + destruct (_ && _); set_solver.
    + intros t. destruct (_ && _); [|by left]. rewrite elem_of_union, elem_of_singleton.
      intros [->|?]; [right; by exists e | by left].
Qed.

Lemma withdraw_spec r w :
  world_inv config w -> r ∈ World.registrations w ->
  wp (withdraw r) (fun _ => world_inv config) (fun _ _ => False) w.
Proof.
  intros Hi Hr. pose proof Hi as [Hw Hpub Hsd]. unfold withdraw. wstep.
  rewrite bool_decide_eq_true_2 by done. apply wp_bind.
  set (k := Registration.key r).
  assert (forall w1, quiet w w1 -> World.metrics w1 = World.metrics w ->
    wp (disarm r) (fun _ => world_inv config) (fun _ _ => False) w1) as Hquiet.
  { intros w1 Hq Hm. wstep. apply (quiet_inv config w); [done | | wsimpl; rewrite Hm; by eapply published_ext; [apply Hq|]].
    eapply quiet_trans; [exact Hq|]. split; wsimpl; try done. intros x [_ ?]%list_elem_of_filter. done. }
  assert (forall e, entries w !! k = Some e ->
    wp (insert_entry k e) (fun _ w1 => wp (disarm r) (fun _ => world_inv config) (fun _ _ => False) w1)
      (fun _ _ => False) (removed k w)) as Hback.
  { intros e He. wstep. unfold removed. wsimpl. rewrite insert_removed, put_id by done.
    apply Hquiet; [by split | done]. }
  unfold withdraw_waiter. wstep. fold k. destruct (entries w !! k) as [e|] eqn:He; cbv beta.
  2: { wstep. by apply Hquiet. }
  wstep. fold (removed k w).
  destruct (N.eqb_spec (Entry.generation e) (Registration.generation r)) as [Hg|]; simpl negb; cbv iota;
    [|by apply Hback].
  destruct (Entry.state e) as [l|?|?] eqn:Hl; [|by apply Hback..].
  destruct (list_find _ _) as [[i x]|] eqn:Hfind; [|by apply Hback].
  apply list_find_Some in Hfind as (Hi' & <- & _). apply swap_remove_perm in Hi' as Hp.
  set (ws := swap_remove i (LoadingEntry.waiters l)) in *.
  pose proof (share_le w k e Ledger.waiters Hw He) as Hs1.
  pose proof (share_le w k e Ledger.lease_reservations Hw He) as Hs2.
  assert (lenN (LoadingEntry.waiters l) = lenN ws + 1) as Hlen.
  { unfold lenN. rewrite Hp. simpl. lia. }
  unfold weight in Hs1, Hs2. rewrite Hl, Hlen in Hs1, Hs2.
  apply wp_bind, wp_sub_gauge; unfold removed; wsimpl; [lia|].
  apply wp_bind, wp_sub_gauge; wsimpl; gsimpl; [lia|].
  assert (forall w1, let e' := Entry.set_state (Loading (left_by ws l)) e in
    (forall m, transition config k (Some e') w (World.set_registrations
       (filter (fun r' => r' <> r) (World.registrations w)) (World.set_metrics m w1))) ->
    World.registrations w1 = World.registrations w ->
    wp update_live_metrics (fun _ w2 => wp (disarm r) (fun _ => world_inv config) (fun _ _ => False) w2)
      (fun _ _ => False) w1) as Hend.
  { intros w1 e' Ht Hrg. pose proof (balanced_transition _ _ _ _ Hw (Ht (World.metrics w1))) as Hb1.
    pose proof (transition_core _ _ _ _ _ Hw (Ht (World.metrics w1))) as Hw1.
    apply wp_update; [done | by apply bounds in Hw1 as (_ & ? & _)|].
    intros m Hm. wstep. wsimpl. rewrite Hrg. eapply transition_inv; [exact Hi | apply Ht | done]. }
  destruct (wi_state _ _ Hw) as [_ _ Hent]. destruct (Hent k e He) as [_ Hx].
  rewrite Hl in Hx. destruct Hx as [Hc1 _]. simpl LoadingEntry.waiters. simpl LoadingEntry.prefetch_interest.
  assert (left_by ws l = if bool_decide (ws = []) && negb (LoadingEntry.prefetch_interest l)
    then LoadingEntry.set_accepting_waiters false (LoadingEntry.set_waiters ws l)
    else LoadingEntry.set_waiters ws l) as Hlb by done.
  apply wp_bind. destruct (bool_decide (ws = []) && negb (LoadingEntry.prefetch_interest l)) eqn:Hlast.
  all: repeat wstep; rewrite <- Hlb; wsimpl; rewrite insert_removed.
  all: apply Hend; [|done]; intros m; eapply (withdraw_transition k e l r ws w); try done; wsimpl.
  all: rewrite Hlast; simpl; by rewrite ?Hc1.
Qed.
End with_config.
