(* ===== verification/StoreCacheLoad.v ===== *)
(** Loads: their completion, their reservation for a demand or a prefetch, and
    the shutdown of the cache. *)
From stdpp Require Import prelude gmap strings sorting.
From S2P Require Import Prelude Store StoreCache StoreCacheLogic StoreCacheInv StoreCacheOps.
#[local] Open Scope N_scope.
#[local] Arguments u64_max : simpl never.

Lemma wp_sends (ds : list (N * result StoreError PageLease.t)) (Q : unit -> World.t -> Prop) X w :
  Q tt (World.set_sent (World.sent w ++ ds) w) -> wp (iterate (fun '(i, r) => send i r) ds) Q X w.
Proof.
  revert w. induction ds as [|[i r] ds IH]; intros w HQ.
  - apply wp_ret. rewrite app_nil_r in HQ. by destruct w.
  - simpl. wstep. apply IH. simpl. by rewrite <- app_assoc.
Qed.

Lemma finished_perm q r :
  q ∈ AsyncReader.running r ->
  AsyncReader.pending r ≡ₚ q :: AsyncReader.pending (AsyncReader.finished q r).
Proof.
  intros Hq. destruct (list_find_perm q _ Hq) as (i & Hf & Hp).
  unfold AsyncReader.pending, AsyncReader.finished. simpl. rewrite Hf, Hp at 1.
  by rewrite <- Permutation_middle.
Qed.

Lemma requests_of_cons r r' k g k' g' :
  AsyncReader.pending r ≡ₚ (k, g) :: AsyncReader.pending r' ->
  requests_of r k' g' = (if decide (k = k' /\ g = g') then 1 else 0) + requests_of r' k' g'.
Proof.
  intros Hp. unfold requests_of, lenN. rewrite Hp, filter_cons.
  case_decide as H1; case_decide as H2; simpl; try lia; exfalso; [apply H2 | apply H1]; naive_solver.
Qed.

Section with_config.
Context (config : CacheConfig.t) (Hconfig : config_ok config).

(** The request of a load that is running belongs to a loading entry. *)
Lemma running_loading k g w :
  world_core config w -> (k, g) ∈ AsyncReader.pending (World.reader w) ->
  exists e l, entries w !! k = Some e /\ Entry.generation e = g /\ Entry.state e = Loading l.
Proof.
  intros Hw Hq. pose proof (wi_requests _ _ Hw k g) as Hr.
  assert (requests_of (World.reader w) k g <> 0) as Hnz.
  { unfold requests_of, lenN. destruct (filter _ _) eqn:Ef; [|done].
    exfalso. eapply (filter_nil_not_elem_of _ _ (k, g)); [exact Ef | done | exact Hq]. }
  rewrite Hr in Hnz. destruct (entries w !! k) as [e|] eqn:He; [|done]. cbn [share] in Hnz.
  destruct (N.eqb_spec (Entry.generation e) g) as [Hg|]; [|done].
  unfold weight in Hnz. destruct (Entry.state e) as [l|?|?] eqn:Hl; try done. by exists e, l.
Qed.

(** What a completion publishes. *)
Definition admitted (e : Entry.t) (l : LoadingEntry.t) (page : VerifiedPage.t) : Entry.t :=
  Entry.mk (Entry.fingerprint e) (Entry.length e) (Entry.allocation_bytes e) (Entry.generation e)
    (Resident (ResidentEntry.mk page (lenN (LoadingEntry.waiters l))
       (prefetched_unused_on_admission (LoadingEntry.prefetch_interest l)
          (lenN (LoadingEntry.waiters l)))
       (LoadingEntry.last_touch l))).

Definition settled_ledger (l : LoadingEntry.t) (bytes : N) (old : Ledger.t) : Ledger.t :=
  let n := lenN (LoadingEntry.waiters l) in
  Ledger.set Ledger.lease_reservations (old Ledger.lease_reservations - n)
    (Ledger.set Ledger.waiters (old Ledger.waiters - n)
       (Ledger.set Ledger.inflight_bytes (old Ledger.inflight_bytes - bytes)
          (Ledger.set Ledger.active_loads (old Ledger.active_loads - 1) old))).

Lemma complete_waiters k e l o answers w w' :
  world_core config w -> entries w !! k = Some e -> Entry.state e = Loading l ->
  (forall e', o = Some e' -> waiters_of e' = []) ->
  (World.sent w').*1 = (World.sent w).*1 ++ answers -> answers = LoadingEntry.waiters l ->
  World.registrations w' = World.registrations w ->
  CacheState.waiter (World.state w') = CacheState.waiter (World.state w) ->
  waiter_step k o w w'.
Proof.
  intros Hw He Hl Ho Hs -> Hrg Hwt.
  assert (waiters_of e = LoadingEntry.waiters l) as Hwe by (unfold waiters_of; by rewrite Hl).
  split; rewrite ?Hrg.
  - intros e' Ho'. rewrite (Ho e' Ho'). constructor.
  - intros g id (e' & Ho' & _ & Hin). rewrite (Ho e' Ho') in Hin. by apply elem_of_nil in Hin.
  - exists (LoadingEntry.waiters l). split_and!; [done | rewrite <- Hwe; by eapply wi_nodup |].
    intros id Hid. exists (Entry.generation e), e. by rewrite Hwe.
  - intros r Hr. split; [done|]. intros _ (e' & Heq & _ & Hin). rewrite He in Heq. injection Heq as <-.
    right. rewrite Hs, elem_of_app. right. by rewrite <- Hwe.
Qed.

Lemma complete_requests k e l o w w' :
  world_core config w -> entries w !! k = Some e -> Entry.state e = Loading l ->
  charge Ledger.active_loads o = 0 ->
  AsyncReader.pending (World.reader w)
    ≡ₚ (k, Entry.generation e) :: AsyncReader.pending (World.reader w') ->
  request_step k o w w'.
Proof.
  intros Hw He Hl Ho Hp k' g. rewrite (requests_of_cons _ _ _ _ k' g Hp), He. unfold share at 1.
  unfold weight at 1. rewrite Hl.
  assert (share Ledger.active_loads o g = 0) as ->.
  { unfold share, charge in *. destruct o as [e'|]; [|done]. cbn [from_option] in Ho.
    rewrite Ho. by destruct (_ =? _). }
  destruct (decide (k = k')) as [<-|].
  - destruct (N.eqb_spec (Entry.generation e) g); [rewrite decide_True by done; lia|].
    rewrite decide_False by naive_solver. lia.
  - rewrite decide_False by naive_solver. lia.
Qed.

Lemma complete_refused k e l answers w w' :
  world_core config w -> entries w !! k = Some e -> Entry.state e = Loading l ->
  entries w' = put k None (entries w) ->
  ledger w' = Ledger.set Ledger.page_pool_bytes
    (ledger w Ledger.page_pool_bytes - Entry.allocation_bytes e)
    (settled_ledger l (Entry.allocation_bytes e) (ledger w)) ->
  CacheState.shutdown (World.state w') = CacheState.shutdown (World.state w) ->
  CacheState.generation (World.state w') = CacheState.generation (World.state w) ->
  CacheState.waiter (World.state w') = CacheState.waiter (World.state w) ->
  World.handles w' = World.handles w ->
  AsyncReader.pending (World.reader w)
    ≡ₚ (k, Entry.generation e) :: AsyncReader.pending (World.reader w') ->
  (World.sent w').*1 = (World.sent w).*1 ++ answers -> answers = LoadingEntry.waiters l ->
  World.registrations w' = World.registrations w -> World.cancelled w' = World.cancelled w ->
  transition config k None w w'.
Proof.
  intros Hw He Hl Hen Hld Hsd Hgn Hwt Hh Hp Hse Hans Hrg Hcn.
  pose proof (fun g => share_le config w k e g Hw He) as Hs.
  destruct (wi_state _ _ Hw) as [_ Hlim _]. split.
  - destruct Hlim. eapply ledger_change; rewrite ?Hld; unfold settled_ledger; gsimpl; try done; try lia.
    intros g. specialize (Hs g). unfold charge. unfold weight in *. rewrite ?Hl in Hs.
    destruct g; gsimpl; simpl; rewrite ?Hl; lia.
  - eapply lease_none; try done. unfold weight. by rewrite Hl.
  - by eapply complete_requests.
  - by eapply complete_waiters.
  - by apply token_same.
Qed.

Lemma leases_of_replicate n lease h k g :
  leases_of (replicate n lease ++ h) k g
    = (if decide (PageLease.key lease = k /\ PageLease.generation lease = g) then N.of_nat n else 0)
      + leases_of h k g.
Proof.
  induction n as [|n IH]; simpl.
  - by case_decide.
  - rewrite leases_of_cons, IH. case_decide; lia.
Qed.

Lemma complete_admitted k e l page answers w w' :
  let lease := PageLease.mk page k (Entry.generation e) in
  world_core config w -> entries w !! k = Some e -> Entry.state e = Loading l ->
  page_ok k e page ->
  LoadingEntry.accepting_waiters l = true ->
  entries w' = put k (Some (admitted e l page)) (entries w) ->
  ledger w' = Ledger.set Ledger.leases (ledger w Ledger.leases + lenN (LoadingEntry.waiters l))
    (Ledger.set Ledger.resident_bytes (ledger w Ledger.resident_bytes + Entry.allocation_bytes e)
       (settled_ledger l (Entry.allocation_bytes e) (ledger w))) ->
  CacheState.shutdown (World.state w') = CacheState.shutdown (World.state w) ->
  CacheState.generation (World.state w') = CacheState.generation (World.state w) ->
  CacheState.waiter (World.state w') = CacheState.waiter (World.state w) ->
  World.handles w' = replicate (length (LoadingEntry.waiters l)) lease ++ World.handles w ->
  AsyncReader.pending (World.reader w)
    ≡ₚ (k, Entry.generation e) :: AsyncReader.pending (World.reader w') ->
  (World.sent w').*1 = (World.sent w).*1 ++ answers -> answers = LoadingEntry.waiters l ->
  World.registrations w' = World.registrations w -> World.cancelled w' = World.cancelled w ->
  transition config k (Some (admitted e l page)) w w'.
Proof.
  intros lease Hw He Hl Hpg Hacc Hen Hld Hsd Hgn Hwt Hh Hp Hse Hans Hrg Hcn.
  pose proof (fun g => share_le config w k e g Hw He) as Hs.
  destruct (wi_state _ _ Hw) as [_ Hlim Hent]. destruct (Hent k e He) as [Hge _]. split.
  - pose proof (Hs Ledger.lease_reservations) as Hsr. unfold weight in Hsr. rewrite Hl in Hsr.
    destruct Hlim. eapply ledger_change; rewrite ?Hld; unfold settled_ledger; gsimpl; try done; try lia.
    + intros g. specialize (Hs g). unfold charge. unfold weight in *. rewrite ?Hl in Hs.
      destruct g; gsimpl; simpl; rewrite ?Hl; lia.
    + intros e' [= <-]. split; [|done]. split; [by rewrite Hgn | done].
    + intros _. unfold stopped. rewrite Hl. intros []. congruence.
  - split; rewrite Hh.
    + intros k' g. rewrite leases_of_replicate, He. unfold share, weight. simpl. rewrite Hl. unfold lenN.
      destruct (decide (k = k')) as [<-|]; [|rewrite decide_False by naive_solver; lia].
      destruct (N.eqb_spec (Entry.generation e) g); [rewrite decide_True by done; lia|].
      rewrite decide_False by naive_solver. lia.
    + intros x. rewrite elem_of_app. intros [[-> _]%elem_of_replicate|Hx].
      * right. split; [done|]. by eexists.
      * left. split; [done|]. intros Hk. destruct (wi_pages _ _ Hw x Hx) as (e' & He' & _ & Hp').
        rewrite Hk, He in He'. injection He' as <-. unfold page_of in Hp'. by rewrite Hl in Hp'.
  - by eapply complete_requests.
  - eapply complete_waiters; try done. by intros e' [= <-].
  - apply token_same; [done|]. by intros e' l' [= <-].
Qed.

Lemma fst_answers (r : result StoreError PageLease.t) (ws : list N) :
  ((fun i => (i, r)) <$> ws).*1 = ws.
Proof. rewrite <- list_fmap_compose. by rewrite list_fmap_id. Qed.

(** The end of a completion: publish the gauges, then answer the waiters. *)
Lemma complete_end k o w w1 ds :
  world_inv config w ->
  (forall m, transition config k o w
     (World.set_sent (World.sent w1 ++ ds) (World.set_metrics m w1))) ->
  wp (_ ← update_live_metrics; iterate (fun '(i, r) => send i r) ds)
    (fun _ w' => world_inv config w' /\ entries w' = entries w1 /\ World.sent w' = World.sent w1 ++ ds)
    (fun _ _ => False) w1.
Proof.
  intros Hi Ht. pose proof Hi as [Hw _ _].
  pose proof (balanced_transition _ _ _ _ _ Hw (Ht (World.metrics w1))) as Hb1.
  pose proof (transition_core _ _ _ _ _ Hw (Ht (World.metrics w1))) as Hw1.
  apply wp_bind, wp_update; [done | by apply (bounds config Hconfig) in Hw1 as (_ & ? & _)|].
  intros m Hm. apply wp_sends. split; [|done].
  eapply (transition_inv config); [exact Hi | apply Ht | done].
Qed.

#[export] Instance page_ok_dec k e page : Decision (page_ok k e page).
Proof. unfold page_ok. apply _. Defined.

(** What a completed read means for its load: the page it admits, or the error
    every waiter gets. *)
Definition verdict (k : PageKey) (e : Entry.t) (l : LoadingEntry.t) (stopping : bool)
    (outcome : StoreError + VerifiedPage.t) : result StoreError VerifiedPage.t :=
  match outcome with
  | inl err => Err err
  | inr page =>
      if stopping then Err Shutdown
      else if negb (LoadingEntry.accepting_waiters l) then Err Cancelled
      else if decide (page_ok k e page) then Ok page
      else Err (Invariant "verified reader exceeded its reserved page identity or allocation")
  end.

(** The world after it: the entry is resident with a lease per waiter, or gone,
    and every waiter has its answer. *)
Definition completed (k : PageKey) (e : Entry.t) (l : LoadingEntry.t)
    (v : result StoreError VerifiedPage.t) (w w' : World.t) : Prop :=
  match v with
  | Ok page =>
      entries w' = <[k := admitted e l page]> (entries w)
      /\ World.sent w' = World.sent w
           ++ ((fun i => (i, Ok (PageLease.mk page k (Entry.generation e)))) <$> LoadingEntry.waiters l)
  | Err err =>
      entries w' = delete k (entries w)
      /\ World.sent w' = World.sent w ++ ((fun i => (i, Err err)) <$> LoadingEntry.waiters l)
  | Panic => False
  end.

(** The end of a completion that does not admit a page: the entry is gone and its
    waiters are told why. *)
Lemma refuse_end k e l outcome err w w1 :
  world_inv config w -> entries w !! k = Some e -> Entry.state e = Loading l ->
  (k, Entry.generation e) ∈ AsyncReader.running (World.reader w) ->
  World.state w1 = CacheState.set_ledger (Ledger.set Ledger.page_pool_bytes
      (ledger w Ledger.page_pool_bytes - Entry.allocation_bytes e)
      (settled_ledger l (Entry.allocation_bytes e) (ledger w)))
    (CacheState.set_entries (delete k (entries w)) (World.state w)) ->
  World.reader w1 = AsyncReader.finished (k, Entry.generation e) (World.reader w) ->
  World.handles w1 = World.handles w -> World.sent w1 = World.sent w ->
  World.registrations w1 = World.registrations w -> World.cancelled w1 = World.cancelled w ->
  verdict k e l (CacheState.shutdown (World.state w)) outcome = Err err ->
  wp (_ ← update_live_metrics; iterate (fun '(i, r) => send i r)
        ((fun i => (i, Err err)) <$> LoadingEntry.waiters l))
    (fun _ w' => world_inv config w' /\ exists e' l',
       Some e = Some e' /\ Entry.generation e' = Entry.generation e /\ Entry.state e' = Loading l'
       /\ completed k e' l' (verdict k e' l' (CacheState.shutdown (World.state w)) outcome) w w')
    (fun _ _ => False) w1.
Proof.
  intros Hi He Hl Hrun E1 E2 E3 E4 E5 E6 E7. pose proof Hi as [Hw Hpub Hsd].
  pose proof (finished_perm _ _ Hrun) as Hperm.
  eapply wp_mono; [apply (complete_end k None w); [done|] | | done].
  2: { intros ? w' (Hi' & He' & Hs'). split; [done|]. exists e, l. rewrite E7. simpl.
       by rewrite He', Hs', E1, E4. }
  intros m. eapply (complete_refused k e l); wsimpl; try done; rewrite ?E1, ?E2, ?E4; try done.
  by rewrite fmap_app, fst_answers.
Qed.

Lemma complete_spec k g outcome pb ns w :
  world_inv config w -> (k, g) ∈ AsyncReader.running (World.reader w) ->
  wp (exec config (OpComplete k g outcome pb ns))
    (fun _ w' => world_inv config w' /\ exists e l,
       entries w !! k = Some e /\ Entry.generation e = g /\ Entry.state e = Loading l
       /\ completed k e l (verdict k e l (CacheState.shutdown (World.state w)) outcome) w w')
    (fun _ _ => False) w.
Proof.
  intros Hi Hrun. pose proof Hi as [Hw Hpub Hsd].
  pose proof (finished_perm _ _ Hrun) as Hperm.
  destruct (running_loading k g w Hw) as (e & l & He & <- & Hl).
  { rewrite Hperm. left. }
  pose proof (fun g => share_le config w k e g Hw He) as Hs.
  destruct (bounds config Hconfig w Hw) as (B1 & B2 & _). destruct (wi_state _ _ Hw) as [Hb _ _].
  pose proof (pool_split _ Hb) as Hsplit. unfold CacheConfig.MAX_LEASES in B1.
  pose proof (Hs Ledger.active_loads) as Hs1. pose proof (Hs Ledger.inflight_bytes) as Hs2.
  pose proof (Hs Ledger.waiters) as Hs3. pose proof (Hs Ledger.lease_reservations) as Hs4.
  pose proof (Hs Ledger.page_pool_bytes) as Hs5. unfold weight in Hs1, Hs2, Hs3, Hs4, Hs5.
  rewrite Hl in Hs1, Hs2, Hs3, Hs4. clear Hs.
  unfold exec, finish_observed_load. wstep. wstep. wstep. unfold complete_load. wstep. wsimpl.
  rewrite He. cbv beta. wstep. rewrite N.eqb_refl. simpl negb. cbv iota. rewrite Hl.
  do 4 (apply wp_bind, wp_sub_gauge; wsimpl; gsimpl; [done|]).
  wstep. wsimpl.
  pose proof (fun err w1 => refuse_end k e l outcome err w w1 Hi He Hl Hrun) as Hrefuse.
  destruct outcome as [err|page].
  - apply wp_bind, wp_bind, wp_bind, wp_sub_gauge; wsimpl; gsimpl; [done|]. wstep. wstep. wstep.
    by apply Hrefuse.
  - destruct (LoadingEntry.accepting_waiters l && _) eqn:Hpub'.
    2: { apply wp_bind, wp_bind, wp_sub_gauge; wsimpl; gsimpl; [done|]. wstep. apply Hrefuse; try done.
         unfold verdict. apply andb_false_iff in Hpub' as [->| ->%negb_false_iff]; [|done]. by case_match. }
    apply andb_true_iff in Hpub' as [Hacc Hrun'%negb_true_iff].
    destruct (bool_decide _ || _ || _) eqn:Hbad.
    + apply wp_bind, wp_bind, wp_bind, wp_sub_gauge; wsimpl; gsimpl; [done|]. wstep. wstep. wstep.
      apply Hrefuse; try done. unfold verdict. rewrite Hrun', Hacc. simpl. rewrite decide_False; [done|].
      intros (P1 & P2 & P3). rewrite !orb_true_iff, bool_decide_eq_true, negb_true_iff, N.eqb_neq, N.ltb_lt in Hbad.
      destruct Hbad as [[?|?]|?]; [done | done | lia].
    + apply orb_false_iff in Hbad as [[Hb1%bool_decide_eq_false Hb2%negb_false_iff%N.eqb_eq]%orb_false_iff Hb3%N.ltb_ge].
      apply dec_stable in Hb1.
      apply wp_bind, wp_bind, wp_add_gauge; wsimpl; gsimpl; [lia|].
      apply wp_bind, wp_add_gauge; wsimpl; gsimpl; [unfold u64_max; lia|].
      do 5 wstep.
      eapply wp_mono; [apply (complete_end k (Some (admitted e l page)) w); [done|] | | done].
      * intros m. wsimpl. rewrite insert_removed.
        eapply (complete_admitted k e l page); wsimpl; try done. by rewrite fmap_app, fst_answers.
      * intros ? w' (Hi' & He' & Hs'). split; [done|]. exists e, l. unfold verdict.
        rewrite Hrun', Hacc. simpl negb. cbv iota. rewrite decide_True by done. wsimpl. simpl.
        by rewrite He', Hs', insert_removed.
Qed.

(** ** Reservations *)

(** The world without the victims of a reservation. *)
Definition evicted (w : World.t) (es : gmap PageKey Entry.t) : World.t :=
  World.set_state (CacheState.set_ledger (fun g => msum (weight g) es)
    (CacheState.set_entries es (World.state w))) w.

Lemma evicted_core w victims :
  world_core config w -> NoDup victims ->
  (forall k, k ∈ victims -> exists e, entries w !! k = Some e /\ evictable e) ->
  world_core config (evicted w (foldl (fun m k => delete k m) (entries w) victims)).
Proof.
  intros Hw Hndv Hv. set (es := foldl _ _ _).
  assert (forall j e, es !! j = Some e -> entries w !! j = Some e) as Hsub.
  { intros j e. unfold es. rewrite lookup_foldl_delete. by case_decide. }
  assert (forall g j n, (g = Ledger.leases \/ g = Ledger.active_loads) ->
    share g (es !! j) n = share g (entries w !! j) n) as Hshare.
  { intros g j n Hg. unfold es. rewrite lookup_foldl_delete. case_decide as Hj; [|done].
    destruct (Hv j Hj) as (e & -> & r & Hr & Hl). unfold share, weight. rewrite Hr.
    destruct Hg as [->| ->]; rewrite ?Hl; by destruct (_ =? _). }
  assert (forall g, msum (weight g) es <= ledger w g) as Hle.
  { intros g. destruct (wi_state _ _ Hw) as [-> _ _]. unfold es.
    rewrite (msum_foldl_delete (weight g) (entries w) victims Hndv); [lia|].
    intros k (e & -> & _)%Hv. done. }
  assert (size es <= size (entries w))%nat as Hsize.
  { apply map_subseteq_size, map_subseteq_spec, Hsub. }
  destruct Hw as [[Hb [] He] Hls Hpg Hrq Hnd Hfr Hun Hse Hso Hrg Htk Hca Hge].
  split; wsimpl; unfold evicted; wsimpl; eauto.
  - split; wsimpl; [done | | ]; eauto.
    pose proof (Hle Ledger.page_pool_bytes). pose proof (Hle Ledger.inflight_bytes).
    pose proof (Hle Ledger.active_loads). pose proof (Hle Ledger.waiters).
    pose proof (Hle Ledger.leases). pose proof (Hle Ledger.lease_reservations).
    split; lia.
  - intros k g. rewrite Hshare by auto. apply Hls.
  - intros l Hl. destruct (Hpg l Hl) as (e & He1 & Hg1 & Hp1). exists e. split_and!; [|done..].
    unfold es. rewrite lookup_foldl_delete. case_decide as Hj; [|done].
    destruct (Hv _ Hj) as (e' & He' & r & Hr & Hz). rewrite He1 in He'. injection He' as <-.
    specialize (Hls (PageLease.key l) (PageLease.generation l)). rewrite He1 in Hls.
    cbn [share] in Hls. rewrite Hg1, N.eqb_refl in Hls. unfold weight in Hls. rewrite Hr, Hz in Hls.
    unfold leases_of, lenN in Hls. destruct (filter _ _) eqn:Ef; [|done].
    exfalso. eapply (filter_nil_not_elem_of _ _ l); [exact Ef | by split | exact Hl].
  - intros k g. rewrite Hshare by auto. apply Hrq.
  - intros r Hr. destruct (Hrg r Hr) as [(e & He1 & Hg1 & Hin)|]; [left | by right].
    exists e. split_and!; [|done..]. unfold es. rewrite lookup_foldl_delete. case_decide as Hj; [|done].
    destruct (Hv _ Hj) as (e' & He' & r' & Hr' & Hz). rewrite He1 in He'. injection He' as <-.
    unfold waiters_of in Hin. rewrite Hr' in Hin. by apply elem_of_nil in Hin.
Qed.

(** A granted reservation, from the world before the counters moved. *)
Lemma reserved_evicted a w w1 w2 :
  world_core config w -> entries w1 = entries w -> (forall g, ledger w1 g = ledger w g) ->
  reserved config a w1 w2 -> world_core config (evicted w (entries w2)).
Proof.
  intros Hw Hen Hld [(taken & rest & Hc & He & _) _ _ _ _ _ _].
  destruct (candidates_part _ _ _ Hc) as (Hnd & Hev & _). rewrite He, Hen.
  apply evicted_core; [done | done |]. intros k Hk. rewrite <- Hen. by apply Hev.
Qed.

(** The entry of a new load. *)
Definition started (spec : PageSpec.t) (a g : N) (ws : list N) (origin : AccessReason) (tick : N)
    : Entry.t :=
  Entry.mk (PageSpec.fingerprint spec) (PageSpec.length spec) a g
    (Loading (LoadingEntry.mk ws g origin (is_late_prefetch origin) true tick)).

Lemma load_transition k spec a ws origin tick es w w' :
  let g := CacheState.generation (World.state w) + 1 in
  let e := started spec a g ws origin tick in
  world_core config w -> es !! k = None -> (entries w !! k = None) ->
  entries w' = put k (Some e) es ->
  (forall g', ledger w' g' = msum (weight g') es + weight g' e) ->
  within config (ledger w') (N.of_nat (size (entries w'))) ->
  lenN ws <= CacheConfig.max_waiters_per_page config -> NoDup ws ->
  (forall id, id ∈ ws -> CacheState.waiter (World.state w) < id <= CacheState.waiter (World.state w')) ->
  CacheState.waiter (World.state w) <= CacheState.waiter (World.state w') ->
  CacheState.shutdown (World.state w') = CacheState.shutdown (World.state w) ->
  CacheState.shutdown (World.state w) = false ->
  CacheState.generation (World.state w') = g ->
  World.handles w' = World.handles w ->
  AsyncReader.pending (World.reader w') ≡ₚ (k, g) :: AsyncReader.pending (World.reader w) ->
  World.sent w' = World.sent w -> World.registrations w' ⊆ World.registrations w ->
  World.cancelled w' = World.cancelled w ->
  transition config k (Some e) (evicted w es) w'.
Proof.
  intros g e Hw Hes Hk Hen Hld Hlim Hws Hnd Hid Hwt Hsd Hs0 Hgn Hh Hrd Hse Hrg Hcn.
  split.
  - split; unfold evicted; wsimpl; rewrite ?Hes; try done; try lia.
    + intros g'. rewrite Hld. unfold charge. simpl. lia.
    + intros e' [= <-]. split; [|unfold e; simpl; lia]. split; [by rewrite Hgn|]. by simpl.
    + congruence.
  - split; unfold evicted; wsimpl; rewrite Hh, ?Hes.
    + intros k' g'. destruct (decide (k = k')); [|done]. unfold share, weight. simpl.
      by destruct (_ =? _).
    + intros l Hl. left. split; [done|]. intros Hlk.
      destruct (wi_pages _ _ Hw l Hl) as (e' & He' & _). congruence.
  - intros k' g'. unfold evicted. wsimpl. rewrite Hes, (requests_of_cons _ _ _ _ k' g' Hrd).
    unfold share, weight. simpl. destruct (decide (k = k')) as [<-|].
    + destruct (N.eqb_spec g g'); [rewrite decide_True by done; lia|].
      rewrite decide_False by naive_solver. lia.
    + rewrite decide_False by naive_solver. lia.
  - split; unfold evicted; wsimpl; rewrite ?Hse, ?Hes.
    + by intros e' [= <-].
    + intros g' id (e' & [= <-] & _ & Hin). unfold waiters_of in Hin. simpl in Hin.
      destruct (Hid id Hin) as [H1 H2]. split_and!; [done | | by right].
      intros Hs%(wi_sent_old _ _ Hw). lia.
    + exists []. split_and!; [by rewrite app_nil_r | constructor | by intros ? ?%elem_of_nil].
    + intros r Hr%Hrg. split; [done|]. by intros _ (? & ? & _).
  - split; unfold evicted; wsimpl; rewrite Hcn; [| done | by left].
    intros e' l' [= <-] [= <-]. simpl. split; [done|]. intros Ht%(wi_tokens _ _ Hw). unfold g in Ht. lia.
Qed.

(** Submission of a load under a fresh token. *)
Lemma submit_load_spec k g w (Q : result StoreError unit -> World.t -> Prop) X :
  (g ∉ World.cancelled w) ->
  (forall r, AsyncReader.pending r ≡ₚ (k, g) :: AsyncReader.pending (World.reader w) ->
     Q (Ok tt) (World.set_reader r w)) ->
  (forall e, Q (Err e) w) -> wp (submit_load k g) Q X w.
Proof.
  intros Hg HQ HE. unfold submit_load. wstep. wstep. rewrite bool_decide_eq_false_2 by done.
  unfold AsyncReader.submit_observed, Control.check, AsyncReader.submit. simpl.
  destruct (AsyncReader.accepting _); simpl; [|by apply wp_ret].
  destruct (AsyncReader.open_sender _); simpl; [|by apply wp_ret].
  destruct (_ <? _); [|by apply wp_ret]. wstep. wstep. apply HQ.
  unfold AsyncReader.pending. simpl. rewrite <- app_assoc. simpl. by rewrite <- Permutation_middle.
Qed.

Lemma reserved_absent a w1 w2 k : reserved config a w1 w2 -> entries w1 !! k = None ->
  entries w2 !! k = None.
Proof.
  intros [(taken & rest & _ & -> & _) _ _ _ _ _ _] Hk. rewrite lookup_foldl_delete. by case_decide.
Qed.

(** Evictions only lower the gauges. *)
Lemma evicted_le a w w1 w2 g :
  world_core config w -> entries w1 = entries w -> reserved config a w1 w2 ->
  msum (weight g) (entries w2) <= ledger w g.
Proof.
  intros Hw Hen [(taken & rest & Hc & He & _) _ _ _ _ _ _].
  destruct (candidates_part _ _ _ Hc) as (Hnd & Hev & _). destruct (wi_state _ _ Hw) as [-> _ _].
  rewrite He, Hen. rewrite (msum_foldl_delete (weight g) (entries w) _ Hnd); [lia|].
  intros k (e & He' & _)%Hev. by exists e; rewrite <- Hen.
Qed.

(** The end of both kinds of load: insert the entry, submit, or unwind.  The
    reservation was granted in [w1], which differs from [w] in counters. *)
Lemma start_load_spec spec a ws origin tick w w1 w2 :
  let k := PageSpec.key spec in
  let g := CacheState.generation (World.state w) + 1 in
  let e := started spec a g ws origin tick in
  world_inv config w -> CacheState.shutdown (World.state w) = false -> entries w !! k = None ->
  quiet w w1 -> CacheState.generation (World.state w1) = g ->
  reserved config a w1 w2 -> lenN ws <= CacheConfig.max_waiters_per_page config -> NoDup ws ->
  (forall id, id ∈ ws -> CacheState.waiter (World.state w) < id <= CacheState.waiter (World.state w1)) ->
  ledger w Ledger.waiters + lenN ws <= CacheConfig.max_waiters config ->
  ledger w Ledger.leases + ledger w Ledger.lease_reservations + lenN ws <= CacheConfig.max_leases config ->
  forall w3,
    entries w3 = <[k := e]> (entries w2) ->
    CacheState.generation (World.state w3) = CacheState.generation (World.state w2) ->
    CacheState.waiter (World.state w3) = CacheState.waiter (World.state w2) ->
    CacheState.shutdown (World.state w3) = CacheState.shutdown (World.state w2) ->
    (forall g', ledger w3 g' = msum (weight g') (entries w2) + weight g' e) ->
    World.reader w3 = World.reader w2 -> World.cancelled w3 = World.cancelled w2 ->
    World.handles w3 = World.handles w2 -> World.registrations w3 = World.registrations w2 ->
    World.sent w3 = World.sent w2 ->
  wp (submit_load k g)
    (fun r w4 => match r with
       | Ok _ => transition config k (Some e) (evicted w (entries w2)) w4
       | Err _ => wp (unwind_unsubmitted_load k g) (fun _ w5 => quiet (evicted w (entries w2)) w5)
                    (fun _ _ => False) w4
       | Panic => False
       end) (fun _ _ => False) w3.
Proof.
  intros k g e Hi Hs0 Hk Hq Hg1 Hres Hl1 Hnd Hid Hl2 Hl3 w3 S1 S2 S3 S4 Hld E1 E2 E3 E4 E5.
  pose proof Hi as [Hw _ _].
  assert (entries w2 !! k = None) as Hk2.
  { eapply reserved_absent; [done|]. by rewrite (qu_entries _ _ Hq). }
  pose proof Hq as [Q1 Q2 Q3 Q4 Q5 Q6 Q7 Q8 Q9 Q10]. pose proof Hres as [Rv Rl R1 R2 R3 R4 Ru].
  destruct Ru as [U1 U2 U3 U4 U5 U6 U7 U8 U9].
  assert (forall g', weight g' e = match g' with
      | Ledger.page_pool_bytes | Ledger.inflight_bytes => a
      | Ledger.active_loads => 1
      | Ledger.waiters | Ledger.lease_reservations => lenN ws
      | _ => 0 end) as Hwe by (by intros []).
  apply submit_load_spec.
  - rewrite E2, U2, Q7. intros Ht%(wi_tokens _ _ Hw). unfold g in Ht. lia.
  - intros r Hr. eapply load_transition; wsimpl; rewrite ?S1; try done.
    + destruct (wi_state _ _ Hw) as [Hb [] _].
      pose proof (evicted_le a w w1 w2 Ledger.waiters Hw Q1 Hres).
      pose proof (evicted_le a w w1 w2 Ledger.leases Hw Q1 Hres).
      pose proof (evicted_le a w w1 w2 Ledger.lease_reservations Hw Q1 Hres).
      split; rewrite ?Hld, ?Hwe; rewrite ?Rl in *; try lia.
      pose proof (size_put k (Some e) (entries w2)) as Hsz. rewrite Hk2 in Hsz. rewrite insert_put. lia.
    + intros id Hin. rewrite S3, U7. by apply Hid.
    + rewrite S3, U7. lia.
    + by rewrite S4, U9.
    + by rewrite S2, U6.
    + by rewrite E3, U3.
    + by rewrite Hr, E1, U1, Q6.
    + by rewrite E5, U5.
    + by rewrite E4, U4.
    + by rewrite E2, U2.
  - intros err. unfold unwind_unsubmitted_load. wstep. rewrite S1, lookup_insert_eq. cbv beta. wstep. simpl Entry.generation. rewrite N.eqb_refl. simpl negb.
    cbv iota. simpl Entry.state. cbv iota. simpl LoadingEntry.waiters. simpl Entry.allocation_bytes.
    do 4 (apply wp_bind, wp_sub_gauge; wsimpl; gsimpl; [rewrite Hld, Hwe; lia|]).
    apply wp_sub_gauge; wsimpl; gsimpl; [rewrite Hld, Hwe; lia|].
    split; unfold evicted; wsimpl.
    + rewrite S1. by rewrite delete_insert_id.
    + intros []; gsimpl; rewrite Hld, Hwe; lia.
    + by rewrite S4, U9.
    + rewrite S2, U6. lia.
    + rewrite S3, U7. lia.
    + by rewrite E1, U1, Q6.
    + by rewrite E2, U2.
    + by rewrite E3, U3.
    + by rewrite E4, U4.
    + by rewrite E5, U5.
Qed.

(** The world of a load that was reserved and then inserted or unwound. *)
Lemma evicted_inv w es :
  CacheState.shutdown (World.state w) = false ->
  world_core config (evicted w es) -> published (World.metrics w) (ledger (evicted w es)) ->
  world_inv config (evicted w es).
Proof. intros Hs Hc Hp. split; [done | done |]. unfold evicted. wsimpl. congruence. Qed.

Lemma unwound_inv w es w' (Q : unit -> World.t -> Prop) (X : StoreError -> World.t -> Prop) :
  CacheState.shutdown (World.state w) = false -> world_core config (evicted w es) ->
  quiet (evicted w es) w' ->
  (forall m, published m (ledger w') -> world_inv config (World.set_metrics m w') ->
     Q tt (World.set_metrics m w')) ->
  wp update_live_metrics Q X w'.
Proof.
  intros Hs Hc Hq HQ. pose proof (quiet_core config _ _ Hc Hq) as Hw'.
  apply wp_update; [apply Hw' | by apply (bounds config Hconfig) in Hw' as (_ & ? & _)|].
  intros m Hm. apply HQ; [done|]. split; [|done|].
  - eapply quiet_core; [exact Hw' | by split].
  - wsimpl. rewrite (qu_shutdown _ _ Hq). unfold evicted. wsimpl. congruence.
Qed.

(** A transition out of an evicted world, then the publication. *)
Lemma loaded_publish k o w es w' (Q : unit -> World.t -> Prop) X :
  CacheState.shutdown (World.state w) = false -> world_core config (evicted w es) ->
  transition config k o (evicted w es) w' ->
  (forall m, world_inv config (World.set_metrics m w') -> Q tt (World.set_metrics m w')) ->
  wp update_live_metrics Q X w'.
Proof.
  intros Hs Hc Ht HQ. pose proof (transition_core _ _ _ _ _ Hc Ht) as Hw'.
  apply wp_update; [apply Hw' | by apply (bounds config Hconfig) in Hw' as (_ & ? & _)|].
  intros m Hm. apply HQ. split; [| done |].
  - eapply transition_core; [exact Hc | by apply transition_metrics].
  - wsimpl. rewrite (tr_shutdown _ _ _ _ _ (tr_ledger_step _ _ _ _ _ Ht)). unfold evicted. wsimpl. congruence.
Qed.

Lemma get_miss_spec rt spec a tick w :
  let k := PageSpec.key spec in
  let g := CacheState.generation (World.state w) + 1 in
  let id := CacheState.waiter (World.state w) + 1 in
  world_inv config w -> CacheState.shutdown (World.state w) = false -> entries w !! k = None ->
  a <= CacheConfig.max_inflight_bytes config ->
  wp (get_miss config rt spec a tick)
    (fun acc w' => acc = Waiting (Registration.mk k g id) /\ exists es,
       world_core config (evicted w es)
       /\ transition config k (Some (started spec a g [id] Demand tick)) (evicted w es) w')
    (fun _ => world_inv config) w.
Proof.
  intros k g id Hi Hs Hk Ha. pose proof Hi as [Hw Hpub _].
  destruct (bounds config Hconfig w Hw) as (B1 & _ & B2 & _).
  unfold CacheConfig.MAX_LEASES, CacheConfig.MAX_WAITERS in *.
  unfold get_miss. fold k. wstep. wstep. wstep. unfold Datatypes.id. wsimpl.
  apply wp_bind, wp_lift. eapply post_mono; [by apply (reserve_waiter_spec config Hconfig)| |].
  2: { intros e _. apply (quiet_inv config w); [done | by split | by apply published_add]. }
  intros _ (H1 & H2 & H3). apply wp_bind, wp_lift, post_guard.
  { intros _. apply (quiet_inv config w); [done | by split | by apply published_add]. }
  intros _. apply wp_bind, wp_next_generation; wsimpl.
  2: { apply (quiet_inv config w); [done | by split | by apply published_add]. }
  fold g. intros Hg. apply wp_bind, wp_next_waiter; wsimpl.
  2: { apply (quiet_inv config w); [done | | by apply published_add]. split; wsimpl; done || lia. }
  fold id. intros Hid.
  set (w1 := World.set_state (CacheState.set_waiter _ _) _).
  assert (quiet w w1) as Hq by (unfold w1; split; wsimpl; done || lia).
  apply wp_bind. eapply wp_mono; [apply (reserve_load_spec config a Demand w1) | |]; [done | | done | | done].
  { apply (quiet_core config w w1 Hw Hq). }
  intros granted w2 Hres. destruct granted; simpl negb; cbv iota.
  2: { destruct Hres as [-> _]. wstep. apply (quiet_inv config w); [done | done |]. unfold w1. wsimpl. by apply published_add. }
  pose proof (reserved_evicted a w w1 w2 Hw eq_refl (fun _ => eq_refl) Hres) as Hev.
  pose proof (evicted_le a w w1 w2 Ledger.waiters Hw eq_refl Hres) as L1.
  pose proof (evicted_le a w w1 w2 Ledger.lease_reservations Hw eq_refl Hres) as L2.
  pose proof (res_ledger _ _ _ _ Hres) as Rl.
  apply wp_bind, wp_add_gauge; wsimpl; [rewrite Rl; unfold u64_max; lia|].
  apply wp_bind, wp_add_gauge; wsimpl; gsimpl; [rewrite Rl; unfold u64_max; lia|].
  wstep. apply wp_bind. eapply wp_mono.
  - apply (start_load_spec spec a [id] Demand tick w w1 w2); try done; wsimpl; try (unfold lenN; simpl; lia).
    + apply NoDup_singleton.
    + intros x ->%list_elem_of_singleton. unfold id. simpl. lia.
    + intros g'. destruct g'; gsimpl; rewrite Rl; unfold weight, lenN; simpl; lia.
  - intros r w4 Hr. destruct r as [?|err|]; [| |done].
    + wstep. wstep. split; [done|]. exists (entries w2). split; [done|].
      destruct Hr as [[] [] Hrq [] []]. split; [split | split | exact Hrq | split | split]; assumption.
    + apply wp_bind. eapply wp_mono; [exact Hr | | done]. intros ? w5 Hq5.
      apply wp_bind. eapply unwound_inv; [exact Hs | exact Hev | exact Hq5 |].
      intros m _ Hinv. by wstep.
  - done.
Qed.

Lemma prefetch_absent_spec rt spec a w :
  let k := PageSpec.key spec in
  world_inv config w -> CacheState.shutdown (World.state w) = false -> entries w !! k = None ->
  a <= CacheConfig.max_inflight_bytes config ->
  wp (prefetch_absent config rt spec a) (fun _ => world_inv config) (fun _ => world_inv config) w.
Proof.
  intros k Hi Hs Hk Ha. pose proof Hi as [Hw Hpub _].
  unfold prefetch_absent. fold k. apply wp_bind, wp_lift, post_guard; [done|]. intros _.
  apply wp_bind. unfold next_tick. wstep. wstep. wstep.
  apply wp_bind, wp_next_generation; wsimpl.
  2: { apply (quiet_inv config w); [done | by split | done]. }
  set (g := CacheState.generation (World.state w) + 1). intros Hg.
  set (w1 := World.set_state (CacheState.set_generation _ _) _).
  assert (quiet w w1) as Hq by (unfold w1, g; split; wsimpl; done || lia).
  apply wp_bind. eapply wp_mono; [apply (reserve_load_spec config a Prefetch w1) | |]; [done | | done | | done].
  { apply (quiet_core config w w1 Hw Hq). }
  intros granted w2 Hres. destruct granted; simpl negb; cbv iota.
  2: { destruct Hres as [-> _]. wstep. wstep. wstep. apply (quiet_inv config w); [done | |]; unfold w1; wsimpl.
       - split; wsimpl; try done; unfold g; lia.
       - by apply published_add. }
  pose proof (reserved_evicted a w w1 w2 Hw eq_refl (fun _ => eq_refl) Hres) as Hev.
  pose proof (res_ledger _ _ _ _ Hres) as Rl.
  destruct (wi_state _ _ Hw) as [_ [] _].
  wstep. apply wp_bind. eapply wp_mono.
  - apply (start_load_spec spec a [] Prefetch
      (saturating_add u64_max (CacheState.tick (World.state w)) 1) w w1 w2);
      try done; wsimpl; try (unfold lenN; simpl; lia).
    + constructor.
    + by intros x ?%elem_of_nil.
  - intros r w4 Hr. destruct r as [?|err|]; [| |done].
    + wstep. apply wp_bind. eapply (loaded_publish k _ w (entries w2)); [exact Hs | exact Hev | | ].
      * destruct Hr as [[] [] Hrq [] []]. split; [split | split | exact Hrq | split | split]; eassumption.
      * intros m Hinv. by wstep.
    + apply wp_bind. eapply wp_mono; [exact Hr | | done]. intros ? w5 Hq5.
      apply wp_bind. eapply unwound_inv; [exact Hs | exact Hev | exact Hq5 |].
      intros m Hm Hinv. destruct (decide (err = QueueFull)); [|by wstep]. wstep. wstep. wstep.
      eapply quiet_inv; [exact Hinv | by split |]. wsimpl. by apply published_add.
  - done.
Qed.

Lemma validate_spec_ok spec :
  post (validate_spec config spec)
    (fun a => 0 < PageSpec.length spec <= CacheConfig.max_page_bytes config
       /\ PageSpec.allocation_bytes spec = Ok a
       /\ a <= CacheConfig.page_pool_capacity config
       /\ a <= CacheConfig.max_inflight_bytes config) (fun _ => True).
Proof.
  unfold validate_spec. apply post_bind, post_guard; [done|].
  intros [Hl1%N.eqb_neq Hl2%N.ltb_ge]%orb_false_iff. apply post_bind.
  destruct (PageSpec.allocation_bytes spec) as [a| |] eqn:Ea; [|done|].
  - apply post_bind, post_guard; [done|]. intros [H1%N.ltb_ge H2%N.ltb_ge]%orb_false_iff.
    apply post_ok. split_and!; try done. lia.
  - unfold PageSpec.allocation_bytes, aligned_page_buffer_bytes in Ea.
    destruct (_ =? 0); [done|]. by destruct (checked_add _ _ _).
Qed.

Lemma control_check_ok c : post (Control.check c) (fun _ => True) (fun _ => True).
Proof. unfold Control.check. by destruct (Control.cancelled c), (Control.elapsed c). Qed.

Lemma prefetch_spec rt spec control w :
  world_inv config w ->
  wp (prefetch config rt spec control) (fun _ => world_inv config) (fun _ => world_inv config) w.
Proof.
  intros Hi. unfold prefetch. apply wp_bind, wp_lift.
  eapply post_mono; [apply control_check_ok | | done]. intros _ _. wstep.
  set (w1 := World.set_metrics _ w).
  assert (world_inv config w1) as Hi1.
  { eapply quiet_inv; [exact Hi | by split |]. unfold w1. wsimpl. apply published_add; [apply Hi | done]. }
  assert (entries w1 = entries w) as He1 by done. clearbody w1. clear w Hi He1.
  apply wp_bind, wp_lift. eapply post_mono; [apply validate_spec_ok | | done].
  intros a (_ & _ & _ & Ha). wstep.
  destruct (CacheState.shutdown (World.state w1)) eqn:Hs; [by wstep|].
  wstep. destruct (entries w1 !! PageSpec.key spec) as [e|] eqn:He; cbv beta.
  - wstep. fold (removed (PageSpec.key spec) w1).
    unfold validate_identity. destruct (_ || _ || _); simpl.
    + wstep. wstep. unfold removed. wsimpl. rewrite insert_removed, put_id by done.
      eapply quiet_inv; [exact Hi1 | by split | apply Hi1].
    + eapply wp_mono; [apply (prefetch_present_spec config Hconfig spec e w1 Hi1 He) | done | done].
  - by apply prefetch_absent_spec.
Qed.

(** What the first critical section of [get] promises a waiter. *)
Definition promised (spec : PageSpec.t) (acc : Access) (w : World.t) : Prop :=
  match acc with
  | Immediate l =>
      l ∈ World.handles w /\ PageLease.key l = PageSpec.key spec
      /\ VerifiedPage.key (PageLease.page l) = PageSpec.key spec
      /\ lenN (VerifiedPage.bytes (PageLease.page l)) = PageSpec.length spec
  | Waiting r =>
      Registration.key r = PageSpec.key spec
      /\ exists e, entries w !! PageSpec.key spec = Some e
         /\ Entry.generation e = Registration.generation r
         /\ Registration.waiter_id r ∈ waiters_of e
         /\ Entry.length e = PageSpec.length spec /\ Entry.fingerprint e = PageSpec.fingerprint spec
  end.

Lemma get_begin_spec rt spec control w :
  world_inv config w ->
  wp (get_begin config rt spec control)
    (fun acc w' => world_inv config w' /\ promised spec acc w') (fun _ => world_inv config) w.
Proof.
  intros Hi. unfold get_begin. apply wp_bind, wp_lift.
  eapply post_mono; [apply control_check_ok | | done]. intros _ _. wstep.
  set (w1 := World.set_metrics _ w).
  assert (world_inv config w1) as Hi1.
  { eapply quiet_inv; [exact Hi | by split |]. unfold w1. wsimpl. apply published_add; [apply Hi | done]. }
  clearbody w1. clear w Hi.
  apply wp_bind, wp_lift. eapply post_mono; [apply validate_spec_ok | | done].
  intros a (_ & _ & _ & Ha). wstep.
  destruct (CacheState.shutdown (World.state w1)) eqn:Hs; [by wstep|].
  apply wp_bind. unfold next_tick. wstep. wstep. wstep. 
  set (tick := saturating_add _ _ _).
  set (w := World.set_state _ w1).
  assert (world_inv config w) as Hi.
  { eapply quiet_inv; [exact Hi1 | by split | apply Hi1]. }
  assert (CacheState.shutdown (World.state w) = false) as Hs' by done. clearbody w tick.
  clear w1 Hi1 Hs. pose proof Hi as [Hw Hpub _].
  wstep. destruct (entries w !! PageSpec.key spec) as [e|] eqn:He; cbv beta.
  - apply wp_bind. wstep. fold (removed (PageSpec.key spec) w).
    assert (forall (err : StoreError), wp (_ ← insert_entry (PageSpec.key spec) e; fail err)
      (fun acc w' => wp (_ ← update_live_metrics; mret acc)
         (fun acc w' => world_inv config w' /\ promised spec acc w') (fun _ => world_inv config) w')
      (fun _ => world_inv config) (removed (PageSpec.key spec) w)) as Hback.
    { intros err. wstep. wstep. unfold removed. wsimpl. rewrite insert_removed, put_id by done.
      eapply quiet_inv; [exact Hi | by split | apply Hi]. }
    unfold validate_identity. destruct (_ || _ || _) eqn:Hid; simpl guard_err; cbv iota; [apply Hback|].
    apply orb_false_iff in Hid as [[Hlen%negb_false_iff%N.eqb_eq _]%orb_false_iff
      Hfp%negb_false_iff%N.eqb_eq].
    destruct (Entry.state e) as [l|r|r] eqn:Hl; [| |apply Hback].
    + eapply wp_mono; [by apply (get_join_spec config Hconfig)| |].
      * intros acc w' [-> Ht]. apply wp_bind. eapply (wp_publish config Hconfig); [exact Hi | exact Ht |].
        intros m Hi2. wstep. split; [done|]. simpl.
        rewrite (tr_entries _ _ _ _ _ (tr_ledger_step _ _ _ _ _ Ht)), lookup_put, decide_True by done.
        split; [done|]. eexists. split_and!; [done | done | | done | done].
        unfold waiters_of. simpl. set_solver.
      * done.
    + eapply wp_mono; [by apply (get_hit_spec config Hconfig)| |done].
      intros acc w' (-> & Hh & Ht). apply wp_bind. eapply (wp_publish config Hconfig); [exact Hi | exact Ht |].
      intros m Hi2. wstep. split; [done|]. simpl. rewrite Hh.
      destruct (si_entry _ _ (wi_state _ _ Hw) _ _ He) as [_ Hx]. rewrite Hl in Hx.
      destruct Hx as (Hk & Hb & _). split_and!; [left | done | done | congruence].
  - apply wp_bind. eapply wp_mono; [by apply get_miss_spec | | done].
    intros acc w' (-> & es & Hev & Ht). apply wp_bind.
    eapply loaded_publish; [exact Hs' | exact Hev | exact Ht |].
    intros m Hi2. wstep. split; [done|]. simpl.
    rewrite (tr_entries _ _ _ _ _ (tr_ledger_step _ _ _ _ _ Ht)), lookup_put, decide_True by done.
    split; [done|]. eexists. split_and!; [done | done | | done | done].
    unfold waiters_of. simpl. set_solver.
Qed.

Lemma get_enter_spec rt spec control w :
  world_inv config w ->
  wp (get_enter config rt spec control)
    (fun acc w' => world_inv config w' /\ promised spec acc w') (fun _ => world_inv config) w.
Proof.
  intros Hi. unfold get_enter. apply wp_bind. eapply wp_mono; [by apply get_begin_spec | | done].
  intros acc w' [Hi' Hp]. destruct acc as [l|r]; [by wstep|]. wstep. wstep. split; [|done].
  destruct Hi' as [[] Hpub Hst]. split; [|done|done]. split; wsimpl; try done.
  intros r'. rewrite elem_of_cons. intros [->|Hr']; [left | auto].
  destruct Hp as (Hk & e & He & Hg & Hin & _). rewrite Hk. by exists e.
Qed.

(** ** Shutdown *)

(** The completions a shutdown has collected and not sent yet. *)
Definition owing (failures : list N) (w : World.t) : World.t :=
  World.set_sent (World.sent w ++ ((fun i => (i, Err Shutdown)) <$> failures)) w.

Lemma shutdown_entry_spec F k w :
  world_core config (owing F w) ->
  wp (shutdown_entry k)
    (fun F' w' => world_core config (owing (F ++ F') w') /\ stopped (entries w' !! k)
       /\ (forall j, j <> k -> entries w' !! j = entries w !! j)
       /\ CacheState.shutdown (World.state w') = CacheState.shutdown (World.state w)
       /\ World.sent w' = World.sent w)
    (fun _ _ => False) w.
Proof.
  intros Hw. unfold shutdown_entry. wstep.
  destruct (entries w !! k) as [e|] eqn:He; cbv beta.
  2: { wstep. rewrite app_nil_r, He. by split_and!. }
  wstep. fold (removed k w).
  assert (forall o w', entries w' = put k o (entries w) -> stopped o ->
    stopped (entries w' !! k) /\ (forall j, j <> k -> entries w' !! j = entries w !! j)) as Hput.
  { intros o w' -> Ho. split; [by rewrite lookup_put, decide_True|].
    intros j Hj. by rewrite lookup_put, decide_False. }
  destruct (Entry.state e) as [l|r|r] eqn:Hl.
  - pose proof (share_le config (owing F w) k e Ledger.waiters Hw He) as Hs1.
    pose proof (share_le config (owing F w) k e Ledger.lease_reservations Hw He) as Hs2.
    unfold weight in Hs1, Hs2. rewrite Hl in Hs1, Hs2. unfold owing in Hs1, Hs2. unfold removed.
    wstep. apply wp_bind, wp_sub_gauge; wsimpl; [done|].
    apply wp_bind, wp_sub_gauge; wsimpl; gsimpl; [done|]. wstep. wstep. wsimpl. rewrite insert_removed.
    set (e' := Entry.set_state _ e).
    match goal with |- world_core _ (owing _ ?x) /\ _ => set (w' := x) end.
    destruct (Hput (Some e') w') as [H1 H2]; [done | done |].
    split; [|by split_and!].
    eapply transition_core; [exact Hw|]. destruct (wi_state _ _ Hw) as [_ Hlim Hent].
    destruct (Hent k e He) as [Hge Hx]. rewrite Hl in Hx. destruct Hx as [Hc1 Hc2].
    unfold owing, w'. split.
    + destruct Hlim. unfold owing in *. wsimpl.
      eapply (ledger_change config k e (Some e')); wsimpl; gsimpl; try done; try lia.
      * intros g. destruct g; gsimpl; unfold charge, weight, lenN in *; simpl; rewrite ?Hl; simpl; lia.
      * intros x [= <-]. split; [|done]. split; [done|]. split; [done|]. unfold lenN. simpl. lia.
    + eapply (lease_keep config); try done; unfold weight, page_of; by rewrite Hl.
    + eapply request_keep; try done; unfold weight; by rewrite Hl.
    + eapply (complete_waiters k e l (Some e')); wsimpl; try done; [by intros x [= <-]|].
      by rewrite !fmap_app, !fst_answers, app_assoc.
    + split; wsimpl; rewrite Hc1.
      * intros x l' [= <-] [= <-]. simpl. set_solver.
      * set_solver.
      * intros t. rewrite elem_of_union, elem_of_singleton. intros [->|?]; [right; by exists e | by left].
  - apply wp_bind.
    assert (removed k w = removed k (World.set_sent (World.sent w) (owing F w))) as -> by (by destruct w).
    eapply wp_mono; [by apply (retire_spec config Hconfig) | | done]. intros ? w' [Ht Hs'].
    wstep. rewrite app_nil_r.
    assert (owing F w' = World.set_sent (World.sent (owing F w)) w') as ->.
    { unfold owing. wsimpl. by rewrite Hs'. }
    pose proof (tr_ledger_step _ _ _ _ _ Ht) as [T1 _ _ T2 _ _ _ _].
    destruct (Hput (retired e r) w') as [H1 H2]; [exact T1 | unfold retired; by destruct (_ =? _) |].
    split; [by eapply transition_core|]. by split_and!.
  - wstep. wstep. rewrite app_nil_r. unfold removed. wsimpl. rewrite insert_removed, put_id by done.
    split_and!; try done; [|rewrite He; unfold stopped; by rewrite Hl].
    eapply quiet_core; [exact Hw | by split].
Qed.

Lemma shutdown_entries_spec keys : forall F w,
  world_core config (owing F w) ->
  wp (shutdown_entries keys)
    (fun F' w' => world_core config (owing (F ++ F') w')
       /\ (forall j, j ∈ keys \/ stopped (entries w !! j) -> stopped (entries w' !! j))
       /\ CacheState.shutdown (World.state w') = CacheState.shutdown (World.state w)
       /\ World.sent w' = World.sent w)
    (fun _ _ => False) w.
Proof.
  induction keys as [|k keys IH]; intros F w Hw; simpl.
  { wstep. rewrite app_nil_r. split_and!; try done. by intros j [?%elem_of_nil|]. }
  apply wp_bind. eapply wp_mono; [by apply shutdown_entry_spec | | done].
  intros F1 w1 (Hw1 & Hk & Hother & Hsd & Hse). apply wp_bind.
  eapply wp_mono; [by apply IH | | done]. intros F2 w2 (Hw2 & Hst & Hsd2 & Hse2).
  wstep. rewrite app_assoc. split_and!; [done | | congruence | congruence].
  intros j Hj. apply Hst. destruct (decide (j = k)) as [->|Hne]; [by right|].
  destruct Hj as [[?|Hj]%elem_of_cons|Hj]; [done | by left | right; by rewrite Hother].
Qed.

Lemma shutdown_spec keys w :
  world_inv config w -> keys ≡ₚ (map_to_list (entries w)).*1 ->
  wp (shutdown keys) (fun _ => world_inv config) (fun _ _ => False) w.
Proof.
  intros Hi Hkeys. pose proof Hi as [Hw _ _]. unfold shutdown. wstep.
  destruct (CacheState.shutdown (World.state w)) eqn:Hs; [by wstep|]. wstep.
  set (w0 := World.set_state (CacheState.set_shutdown _) w).
  assert (world_core config (owing [] w0)) as Hw0.
  { unfold owing. rewrite app_nil_r. destruct Hw as [[]]. split; done || by split. }
  apply wp_bind. eapply wp_mono; [by apply (shutdown_entries_spec keys [] w0) | | done].
  intros F w1 (Hw1 & Hst & Hsd & Hse). simpl in Hw1.
  assert (ledger w1 = ledger (owing F w1)) as Hld by done.
  apply wp_bind, wp_update; [apply Hw1 | by apply (bounds config Hconfig) in Hw1 as (_ & ? & _)|].
  intros m Hm. apply wp_bind.
  assert (forall l w2, wp (iterate (fun i => send i (Err Shutdown)) l)
    (fun _ w3 => w3 = World.set_sent (World.sent w2 ++ ((fun i => (i, Err Shutdown)) <$> l)) w2)
    (fun _ _ => False) w2) as Hsend.
  { clear. induction l as [|i l IH]; intros w2; simpl.
    - wstep. rewrite app_nil_r. by destruct w2.
    - wstep. eapply wp_mono; [apply IH | | done]. simpl. intros ? w3 ->. by rewrite <- app_assoc. }
  eapply wp_mono; [apply Hsend | | done]. intros ? w3 ->. wstep. wsimpl. split; wsimpl.
  - eapply quiet_core; [exact Hw1 | by split].
  - done.
  - intros _ j. apply Hst. destruct (entries w0 !! j) as [e|] eqn:Hj; [left | by right].
    rewrite Hkeys, list_elem_of_fmap. exists (j, e). by rewrite elem_of_map_to_list.
Qed.

(** ** Every operation *)

Lemma exec_spec op w :
  world_inv config w -> enabled op w ->
  wp (exec config op) (fun _ => world_inv config) (fun _ => world_inv config) w.
Proof.
  intros Hi Hen. destruct op as [rt spec c|l|rt spec c| |k g o pb ns|r b ns|r ns|r|l|k|keys]; unfold enabled in Hen.
  - unfold exec, discard. apply wp_bind. eapply wp_mono; [by apply get_enter_spec | | done]. intros a w' [? _]. by wstep.
  - unfold exec. eapply wp_mono; [by apply (mark_spec config) | done | done].
  - unfold exec, discard. apply wp_bind. eapply wp_mono; [by apply prefetch_spec | | done]. intros a w' ?. by wstep.
  - unfold exec. wstep. unfold AsyncReader.receive. destruct (_ <=? _); [done|].
    destruct (AsyncReader.queue _) as [|q rest] eqn:Eq; [done|].
    eapply quiet_inv; [exact Hi | | apply Hi]. split; wsimpl; try done.
    unfold AsyncReader.pending. simpl. rewrite Eq. simpl. by rewrite <- Permutation_middle.
  - eapply wp_mono; [by apply complete_spec | by intros ? ? [? _] | done].
  - unfold exec, poll_cancelled. apply wp_bind. eapply wp_mono; [by apply (withdraw_spec config Hconfig) | | done].
    intros ? w' Hi'. wstep. wstep. eapply quiet_inv; [exact Hi' | by split |].
    wsimpl. apply published_add; [apply Hi' | done].
  - unfold exec, poll_received. wstep. wstep. eapply quiet_inv; [exact Hi | |].
    + split; wsimpl; try done. by intros x [_ ?]%list_elem_of_filter.
    + wsimpl. apply published_add; [apply Hi | done].
  - unfold exec. eapply wp_mono; [by apply (withdraw_spec config Hconfig) | done | done].
  - unfold exec. eapply wp_mono; [by apply (drop_lease_spec config Hconfig) | done | done].
  - unfold exec, discard. apply wp_bind. eapply wp_mono; [by apply (invalidate_spec config Hconfig) | | done].
    intros b w' [? _]. by wstep.
  - unfold exec. eapply wp_mono; [by apply shutdown_spec | done | done].
Qed.

Lemma initial_inv reader :
  AsyncReader.pending reader = [] -> world_inv config (initial reader).
Proof.
  intros Hp. split; [split | by split | done]; try done.
  - split; try done. split; apply N.le_0_l.
  - by intros l ?%elem_of_nil.
  - intros k g. unfold requests_of. change (World.reader (initial reader)) with reader. by rewrite Hp.
  - constructor.
  - by intros id ?%elem_of_nil.
  - by intros r ?%elem_of_nil.
Qed.

Lemma reachable_inv reader w :
  AsyncReader.pending reader = [] -> reachable config reader w -> world_inv config w.
Proof.
  intros Hp. induction 1 as [|op w Hr IH Hen]; [by apply initial_inv|].
  pose proof (exec_spec op w IH Hen) as He. unfold wp in He. by destruct (exec config op w) as [[] ?].
Qed.
End with_config.
