(* ===== verification/StoreContract.v ===== *)
(** The contract of the page cache, over every interleaving of its operations:
    limits, leases, coalesced loads, answered waiters, published gauges, draining,
    and what one lookup, reservation, completion, invalidation or shutdown does. *)
From stdpp Require Import prelude gmap strings sorting.
From S2P Require Import Prelude Store StoreFacts StoreCache StoreCacheLogic StoreCacheInv.
From S2P Require Import StoreCacheOps StoreCacheLoad.
#[local] Open Scope N_scope.
#[local] Arguments u64_max : simpl never.

(** A cache built by [PageCache::new] over a fresh reader, after any sequence of
    enabled operations. *)
Definition attained (config : CacheConfig.t) (readers : AsyncReaderConfig.t) (w : World.t) : Prop :=
  CacheConfig.page_pool_capacity config <= u64_max
  /\ exists reader w0, AsyncReader.new readers = Ok reader /\ new config reader = Ok w0
     /\ reachable config reader w.

(** * From [attained] to the invariant *)

Lemma validate_config_ok config :
  CacheConfig.page_pool_capacity config <= u64_max ->
  CacheConfig.validate config = Ok tt -> config_ok config.
Proof.
  intros Hw Hv. pose proof (validate_spec_iff config) as H. rewrite Hv in H. clear Hv.
  destruct H as [_ _ ? ? [_ Hl] ? _ [_ ?] _]. split; try assumption.
  etrans; [exact Hl | apply N.le_min_r].
Qed.

Lemma attained_config config readers w : attained config readers w -> config_ok config.
Proof.
  intros (Hw & reader & w0 & _ & Hnew & _). apply validate_config_ok; [done|].
  unfold new in Hnew. by destruct (CacheConfig.validate config) as [[]| |].
Qed.

Lemma attained_inv config readers w : attained config readers w -> world_inv config w.
Proof.
  intros Ha. pose proof (attained_config _ _ _ Ha) as Hc. destruct Ha as (_ & reader & w0 & Hr & _ & Hreach).
  apply (reachable_inv config Hc reader); [|done].
  unfold AsyncReader.new in Hr. destruct (AsyncReaderConfig.new _ _); by simplify_eq/=.
Qed.

Lemma attained_step config readers w op :
  attained config readers w -> enabled op w -> attained config readers (exec config op w).2.
Proof.
  intros (Hw & reader & w0 & Hr & Hn & Hreach) He. split; [done|]. exists reader, w0.
  split_and!; [done | done | by apply reach_step].
Qed.

(** * Consequences of the invariant *)

Section invariant.
Context (config : CacheConfig.t) (w : World.t) (Hi : world_inv config w).

Lemma pending_loading k g :
  (k, g) ∈ AsyncReader.pending (World.reader w) ->
  exists e l, entries w !! k = Some e /\ Entry.generation e = g /\ Entry.state e = Loading l.
Proof. apply (running_loading config), Hi. Qed.

Lemma requests_le_one k g : requests_of (World.reader w) k g <= 1.
Proof.
  rewrite (wi_requests _ _ (wi_core _ _ Hi)). unfold share, weight.
  destruct (entries w !! k) as [e|]; [|lia]. destruct (_ =? _); [|lia].
  destruct (Entry.state e); lia.
Qed.

Lemma NoDup_filter_count {A} `{EqDecision A} (l : list A) :
  (forall x, (length (filter (fun y => y = x) l) <= 1)%nat) -> NoDup l.
Proof.
  induction l as [|x l IH]; intros H; constructor.
  - intros Hx. specialize (H x). rewrite filter_cons, decide_True in H by done. simpl in H.
    assert (x ∈ filter (fun y => y = x) l) as Hf by (by apply list_elem_of_filter).
    destruct (filter (fun y => y = x) l); [by apply elem_of_nil in Hf | simpl in H; lia].
  - apply IH. intros y. specialize (H y). rewrite filter_cons in H. case_decide; simpl in H; lia.
Qed.

Lemma pending_nodup : NoDup ((AsyncReader.pending (World.reader w)).*1).
Proof.
  apply NoDup_fmap_fst.
  - intros k g1 g2 H1 H2. apply pending_loading in H1 as (e1 & _ & He1 & <- & _), H2 as (e2 & _ & He2 & <- & _).
    congruence.
  - apply NoDup_filter_count. intros [k g]. pose proof (requests_le_one k g) as H.
    unfold requests_of, lenN in H. lia.
Qed.

Lemma lease_pinned l :
  l ∈ World.handles w -> exists e, entries w !! PageLease.key l = Some e
    /\ Entry.generation e = PageLease.generation l /\ page_of e = Some (PageLease.page l)
    /\ page_ok (PageLease.key l) e (PageLease.page l) /\ ~ evictable e.
Proof.
  intros Hl. destruct (wi_pages _ _ (wi_core _ _ Hi) l Hl) as (e & He & Hg & Hp).
  exists e. split; [done|]. split; [done|]. split; [done|]. split.
  - destruct (si_entry _ _ (wi_state _ _ (wi_core _ _ Hi)) _ _ He) as [_ Hx]. unfold page_of in Hp.
    destruct (Entry.state e) as [|r|r]; [done | |]; injection Hp as <-; [done | by destruct Hx].
  - intros (r & Hr & Hz). pose proof (wi_leases _ _ (wi_core _ _ Hi) (PageLease.key l)
      (PageLease.generation l)) as Hc. rewrite He in Hc. unfold share, weight in Hc.
    rewrite Hg, N.eqb_refl, Hr, Hz in Hc. unfold leases_of, lenN in Hc.
    assert (l ∈ filter (fun l' => PageLease.key l' = PageLease.key l
      /\ PageLease.generation l' = PageLease.generation l) (World.handles w)) as Hf
      by (by apply list_elem_of_filter).
    destruct (filter _ _); [by apply elem_of_nil in Hf | simpl in Hc; lia].
Qed.

Lemma waits_pending r :
  waits (entries w !! Registration.key r) (Registration.generation r) (Registration.waiter_id r) ->
  (Registration.key r, Registration.generation r) ∈ AsyncReader.pending (World.reader w).
Proof.
  intros (e & He & Hg & Hin). unfold waiters_of in Hin.
  destruct (Entry.state e) as [l| |] eqn:Hl; [|by apply elem_of_nil in Hin..].
  pose proof (wi_requests _ _ (wi_core _ _ Hi) (Registration.key r) (Registration.generation r)) as Hq.
  rewrite He in Hq. unfold share, weight in Hq. rewrite Hg, N.eqb_refl, Hl in Hq.
  unfold requests_of, lenN in Hq.
  destruct (filter _ _) as [|q qs] eqn:Hf; [simpl in Hq; lia|].
  assert (q ∈ q :: qs) as Hin' by left. rewrite <- Hf in Hin'. by apply list_elem_of_filter in Hin' as [-> ?].
Qed.

Lemma stopped_empty :
  CacheState.shutdown (World.state w) = true -> AsyncReader.pending (World.reader w) = [] ->
  World.handles w = [] -> entries w = ∅.
Proof.
  intros Hs Hp Hh. apply map_empty. intros k. destruct (entries w !! k) as [e|] eqn:He; [|done]. exfalso.
  pose proof (wi_stopped _ _ Hi Hs k) as Hst. rewrite He in Hst. simpl in Hst.
  destruct (Entry.state e) as [l|r|r] eqn:Hl; [|done|].
  - pose proof (wi_requests _ _ (wi_core _ _ Hi) k (Entry.generation e)) as Hq. rewrite He in Hq.
    unfold share, weight in Hq. rewrite N.eqb_refl, Hl in Hq. unfold requests_of in Hq. by rewrite Hp in Hq.
  - pose proof (wi_leases _ _ (wi_core _ _ Hi) k (Entry.generation e)) as Hq. rewrite He in Hq.
    unfold share, weight in Hq. rewrite N.eqb_refl, Hl in Hq. unfold leases_of in Hq. rewrite Hh in Hq.
    destruct (si_entry _ _ (wi_state _ _ (wi_core _ _ Hi)) _ _ He) as [_ Hx]. rewrite Hl in Hx.
    destruct Hx as [_ Hx]. unfold lenN in Hq. simpl in Hq. lia.
Qed.

Lemma empty_ledger g : entries w = ∅ -> ledger w g = 0.
Proof. intros He. by rewrite (si_balanced _ _ (wi_state _ _ (wi_core _ _ Hi)) g), He, msum_empty. Qed.
End invariant.

(** * A small cache, for examples *)

Definition demo_config : CacheConfig.t := CacheConfig.mk 256 100 128 2 1 4 2 4 16.
Definition demo_readers : AsyncReaderConfig.t := AsyncReaderConfig.mk 1 4.
Definition demo_reader : AsyncReader.t := AsyncReader.mk demo_readers true true [] [].
Definition demo_key : PageKey := PageKey.mk 1 1024 0.
Definition demo_spec : PageSpec.t := PageSpec.mk demo_key 0 3 7.
Definition demo_control : Control.t := Control.mk false false.
Definition demo_page : VerifiedPage.t := VerifiedPage.mk demo_key [1; 2; 3] 64.
Definition demo_lease : PageLease.t := PageLease.mk demo_page demo_key 1.
Definition demo_waiter : Registration.t := Registration.mk demo_key 1 1.

Definition demo_run (ops : list Op) : World.t :=
  foldl (fun w op => (exec demo_config op w).2) (initial demo_reader) ops.
Definition demo_waiting : World.t := demo_run [OpGet true demo_spec demo_control].
Definition demo_running : World.t := demo_run [OpGet true demo_spec demo_control; OpReceive].
Definition demo_loaded : World.t :=
  demo_run [OpGet true demo_spec demo_control; OpReceive; OpComplete demo_key 1 (inr demo_page) 3 0].
Definition demo_drained : World.t :=
  demo_run [OpGet true demo_spec demo_control; OpReceive; OpComplete demo_key 1 (inr demo_page) 3 0;
            OpReceived demo_waiter 0; OpDropLease demo_lease; OpShutdown [demo_key]].

Lemma demo_initial : attained demo_config demo_readers (initial demo_reader).
Proof.
  split; [done|]. exists demo_reader, (initial demo_reader). split_and!; [done | done | constructor].
Qed.

Lemma demo_snoc ops op :
  attained demo_config demo_readers (demo_run ops) -> enabled op (demo_run ops) ->
  attained demo_config demo_readers (demo_run (ops ++ [op])).
Proof. intros Ha He. unfold demo_run. rewrite foldl_app. by apply attained_step. Qed.

Lemma demo_waiting_attained : attained demo_config demo_readers demo_waiting.
Proof. apply (demo_snoc []); [apply demo_initial | done]. Qed.

Lemma demo_running_attained : attained demo_config demo_readers demo_running.
Proof. apply (demo_snoc [_]); [apply demo_waiting_attained | done]. Qed.

Lemma demo_loaded_attained : attained demo_config demo_readers demo_loaded.
Proof.
  apply (demo_snoc [_; _]); [apply demo_running_attained|]. apply list_elem_of_singleton. by vm_compute.
Qed.

Lemma demo_drained_attained : attained demo_config demo_readers demo_drained.
Proof.
  apply (demo_snoc [_; _; _; _; _]); [apply (demo_snoc [_; _; _; _]); [apply (demo_snoc [_; _; _])|]|].
  - apply demo_loaded_attained.
  - split; apply list_elem_of_singleton; by vm_compute.
  - apply list_elem_of_singleton. by vm_compute.
  - by vm_compute.
Qed.

(** * The contract *)

Definition is_Ok {E A} (r : result E A) : Prop := exists a, r = Ok a.

(** C5: No operation of the cache panics: whatever the threads did before, an
    enabled operation ends in a value or an error (never in a ledger underflow,
    an overflow or a failed debug assertion), and the cache is attained again. *)
Theorem cache_never_panics config readers w op :
  attained config readers w -> enabled op w ->
  (exec config op w).1 <> Panic /\ attained config readers (exec config op w).2.
Proof.
  intros Ha He. split; [|by apply attained_step].
  pose proof (exec_spec config (attained_config _ _ _ Ha) op w (attained_inv _ _ _ Ha) He) as H.
  unfold wp in H. by destruct (exec config op w) as [[] ?].
Qed.
Lemma cache_never_panics_witness :
  (exec demo_config (OpDropLease demo_lease) demo_loaded).1 <> Panic
  /\ attained demo_config demo_readers (exec demo_config (OpDropLease demo_lease) demo_loaded).2.
Proof.
  apply (cache_never_panics demo_config demo_readers demo_loaded (OpDropLease demo_lease)).
  - apply demo_loaded_attained.
  - apply list_elem_of_singleton. by vm_compute.
Defined.

(** C6: At every moment the ledger is the sum over the entries, the page pool is
    exactly the in-flight, resident and retiring bytes, and every limit of the
    configuration holds: pool bytes, in-flight bytes, loads, entries, waiters,
    and leases together with the reservations made for waiters. *)
Theorem cache_within_limits config readers w :
  attained config readers w ->
  (forall g, ledger w g = msum (weight g) (entries w))
  /\ ledger w Ledger.inflight_bytes + ledger w Ledger.resident_bytes
     + ledger w Ledger.retiring_bytes = ledger w Ledger.page_pool_bytes
  /\ within config (ledger w) (N.of_nat (size (entries w))).
Proof.
  intros Ha%attained_inv. destruct (wi_state _ _ (wi_core _ _ Ha)) as [Hb Hw _].
  split; [exact Hb|]. split; [by apply pool_split | done].
Qed.
Lemma cache_within_limits_witness :
  (forall g, ledger demo_loaded g = msum (weight g) (entries demo_loaded))
  /\ ledger demo_loaded Ledger.inflight_bytes + ledger demo_loaded Ledger.resident_bytes
     + ledger demo_loaded Ledger.retiring_bytes = ledger demo_loaded Ledger.page_pool_bytes
  /\ within demo_config (ledger demo_loaded) (N.of_nat (size (entries demo_loaded))).
Proof. apply (cache_within_limits demo_config demo_readers demo_loaded), demo_loaded_attained. Defined.

(** C9: A lease pins its page: as long as the lease lives, the cache holds an
    entry of the same key and generation with exactly the leased page, whose
    bytes have the entry's length and fit its reservation, and which no
    reservation may evict. *)
Theorem lease_pins_page config readers w l :
  attained config readers w -> l ∈ World.handles w ->
  exists e, entries w !! PageLease.key l = Some e
    /\ Entry.generation e = PageLease.generation l /\ page_of e = Some (PageLease.page l)
    /\ page_ok (PageLease.key l) e (PageLease.page l) /\ ~ evictable e.
Proof. intros Ha%attained_inv Hl. by apply (lease_pinned config). Qed.
Lemma lease_pins_page_witness :
  exists e, entries demo_loaded !! PageLease.key demo_lease = Some e
    /\ Entry.generation e = PageLease.generation demo_lease
    /\ page_of e = Some (PageLease.page demo_lease)
    /\ page_ok (PageLease.key demo_lease) e (PageLease.page demo_lease) /\ ~ evictable e.
Proof.
  apply (lease_pins_page demo_config demo_readers); [apply demo_loaded_attained|].
  apply list_elem_of_singleton. by vm_compute.
Defined.

(** C37: Loads are coalesced: the reader never holds two requests for one page
    key, and it holds the request of a load exactly as long as the entry is
    loading under that generation. *)
Theorem loads_coalesced config readers w :
  attained config readers w ->
  NoDup ((AsyncReader.pending (World.reader w)).*1)
  /\ forall k g, requests_of (World.reader w) k g = share Ledger.active_loads (entries w !! k) g.
Proof.
  intros Ha%attained_inv. split; [by apply (pending_nodup config) | apply Ha].
Qed.
Lemma loads_coalesced_witness :
  NoDup ((AsyncReader.pending (World.reader demo_running)).*1)
  /\ forall k g, requests_of (World.reader demo_running) k g
       = share Ledger.active_loads (entries demo_running !! k) g.
Proof. apply (loads_coalesced demo_config demo_readers), demo_running_attained. Defined.

(** C10: No waiter is lost and none is answered twice: every armed registration
    either still waits on a loading entry of its generation or has its answer,
    never both, and every waiter identity is answered at most once. *)
Theorem waiters_answered_once config readers w :
  attained config readers w ->
  NoDup ((World.sent w).*1)
  /\ forall r, r ∈ World.registrations w ->
       (waits (entries w !! Registration.key r) (Registration.generation r) (Registration.waiter_id r)
        /\ Registration.waiter_id r ∉ (World.sent w).*1)
       \/ Registration.waiter_id r ∈ (World.sent w).*1.
Proof.
  intros Ha%attained_inv%wi_core. split; [apply Ha|]. intros r Hr.
  destruct (wi_registrations _ _ Ha r Hr) as [Hw|?]; [left | by right]. split; [done|].
  destruct Hw as (e & He & _ & Hin). by apply (wi_fresh _ _ Ha _ _ _ He).
Qed.
Lemma waiters_answered_once_witness :
  NoDup ((World.sent demo_waiting).*1)
  /\ forall r, r ∈ World.registrations demo_waiting ->
       (waits (entries demo_waiting !! Registration.key r) (Registration.generation r)
          (Registration.waiter_id r)
        /\ Registration.waiter_id r ∉ (World.sent demo_waiting).*1)
       \/ Registration.waiter_id r ∈ (World.sent demo_waiting).*1.
Proof. apply (waiters_answered_once demo_config demo_readers), demo_waiting_attained. Defined.

(** Progress of waiters: a registration without an answer has a request in
    the reader, so once the reader is idle every armed registration has been
    answered. *)
Theorem idle_reader_owes_nothing config readers w :
  attained config readers w -> AsyncReader.pending (World.reader w) = [] ->
  forall r, r ∈ World.registrations w -> Registration.waiter_id r ∈ (World.sent w).*1.
Proof.
  intros Ha%attained_inv Hp r Hr. destruct (wi_registrations _ _ (wi_core _ _ Ha) r Hr) as [Hw|?]; [|done].
  apply (waits_pending config w Ha) in Hw. rewrite Hp in Hw. by apply elem_of_nil in Hw.
Qed.
Lemma idle_reader_owes_nothing_witness :
  AsyncReader.pending (World.reader demo_loaded) = [] /\ length (World.registrations demo_loaded) = 1%nat
  /\ Forall (fun r => Registration.waiter_id r ∈ (World.sent demo_loaded).*1)
       (World.registrations demo_loaded).
Proof.
  split; [by vm_compute|]. split; [by vm_compute|]. apply Forall_forall.
  apply (idle_reader_owes_nothing demo_config demo_readers); [apply demo_loaded_attained | by vm_compute].
Defined.

(** C38: A shutdown drains: once a shut-down cache has no request in the reader
    and no lease outside, it holds no entry and every gauge, in the ledger and
    as published, is zero. *)
Theorem shutdown_drains config readers w :
  attained config readers w -> CacheState.shutdown (World.state w) = true ->
  AsyncReader.pending (World.reader w) = [] -> World.handles w = [] ->
  entries w = ∅ /\ (forall g, ledger w g = 0) /\ published (World.metrics w) Ledger.default.
Proof.
  intros Ha%attained_inv Hs Hp Hh. pose proof (stopped_empty config w Ha Hs Hp Hh) as He.
  pose proof (fun g => empty_ledger config w Ha g He) as Hz. split; [done|]. split; [done|].
  destruct (wi_published _ _ Ha). split; rewrite Hz in *; done.
Qed.
Lemma shutdown_drains_witness :
  entries demo_drained = ∅ /\ (forall g, ledger demo_drained g = 0)
  /\ published (World.metrics demo_drained) Ledger.default.
Proof. apply (shutdown_drains demo_config demo_readers); [apply demo_drained_attained | by vm_compute..]. Defined.

(** The gauges that [Metrics] publishes are the ledger's after every
    operation: loads, pool, in-flight, resident and retiring bytes, leases. *)
Theorem gauges_published config readers w :
  attained config readers w -> published (World.metrics w) (ledger w).
Proof. intros Ha%attained_inv. apply Ha. Qed.
Lemma gauges_published_witness : published (World.metrics demo_loaded) (ledger demo_loaded).
Proof. apply (gauges_published demo_config demo_readers), demo_loaded_attained. Defined.

(** C27: What a lookup gives: a lease of exactly the requested page (its key, and
    as many bytes as the request asked for) that the cache now counts, or the
    registration of a waiter on a load of the requested key with the requested
    length and fingerprint; otherwise an error, and never a panic. *)
Theorem lookup_contract config readers w in_runtime spec control :
  attained config readers w ->
  wp (get_enter config in_runtime spec control)
    (fun access w' => attained config readers w' /\ promised spec access w')
    (fun _ w' => attained config readers w') w.
Proof.
  intros Ha. pose proof (get_enter_spec config (attained_config _ _ _ Ha) in_runtime spec control w
    (attained_inv _ _ _ Ha)) as H.
  pose proof (attained_step config readers w (OpGet in_runtime spec control) Ha I) as Hs.
  unfold wp, exec, discard, mbind, act_bind in *.
  destruct (get_enter config in_runtime spec control w) as [[acc|e|] w'];
    [split; [exact Hs | apply H] | exact Hs | exact H].
Qed.
Lemma lookup_contract_witness :
  wp (get_enter demo_config true demo_spec demo_control)
    (fun access w' => attained demo_config demo_readers w' /\ promised demo_spec access w')
    (fun _ w' => attained demo_config demo_readers w') demo_loaded.
Proof. apply (lookup_contract demo_config demo_readers demo_loaded), demo_loaded_attained. Defined.

(** What a completed read does.  It finds its load, whose entry it turns
    resident with one lease per waiter when the cache is running, the load still
    accepts waiters and the page has the reserved identity, length and
    allocation; otherwise it releases the entry.  Either way every waiter of the
    load is answered with the same verdict. *)
Theorem completion_contract config readers w k g outcome physical_bytes io_nanoseconds :
  attained config readers w -> (k, g) ∈ AsyncReader.running (World.reader w) ->
  wp (exec config (OpComplete k g outcome physical_bytes io_nanoseconds))
    (fun _ w' => exists e l,
       entries w !! k = Some e /\ Entry.generation e = g /\ Entry.state e = Loading l
       /\ completed k e l (verdict k e l (CacheState.shutdown (World.state w)) outcome) w w')
    (fun _ _ => False) w.
Proof.
  intros Ha Hr. eapply wp_mono; [by apply (complete_spec config (attained_config _ _ _ Ha)); [apply attained_inv in Ha|] | | done].
  by intros ? w' [_ H].
Qed.
Lemma completion_contract_witness :
  wp (exec demo_config (OpComplete demo_key 1 (inr demo_page) 3 0))
    (fun _ w' => exists e l,
       entries demo_running !! demo_key = Some e /\ Entry.generation e = 1 /\ Entry.state e = Loading l
       /\ completed demo_key e l
            (verdict demo_key e l (CacheState.shutdown (World.state demo_running)) (inr demo_page))
            demo_running w')
    (fun _ _ => False) demo_running.
Proof.
  apply (completion_contract demo_config demo_readers); [apply demo_running_attained|].
  apply list_elem_of_singleton. by vm_compute.
Defined.

(** A reservation for a load is sound and as gentle as it can be.  When
    granted, the victims are a prefix of the unleased pages in least-recently-
    touched order that is no longer than needed, the ledger is charged for the
    load and all limits hold; it is refused only when the in-flight or load
    limits are reached or when even without every unleased page there is no
    room, and then nothing changed. *)
Theorem reservation_contract config readers w allocation reason :
  attained config readers w -> allocation <= CacheConfig.max_inflight_bytes config ->
  wp (reserve_load config allocation reason)
    (fun granted w' => if granted : bool then reserved config allocation w w'
                       else w' = w /\ cramped config allocation (World.state w))
    (fun _ _ => False) w.
Proof.
  intros Ha Hle. apply reserve_load_spec; [by eapply attained_config | | done].
  apply attained_inv in Ha. apply Ha.
Qed.
Lemma reservation_contract_witness :
  wp (reserve_load demo_config 128 Demand)
    (fun granted w' => if granted : bool then reserved demo_config 128 demo_loaded w'
                       else w' = demo_loaded /\ cramped demo_config 128 (World.state demo_loaded))
    (fun _ _ => False) demo_loaded.
Proof.
  apply (reservation_contract demo_config demo_readers); [apply demo_loaded_attained | by vm_compute].
Defined.

(** Invalidation always succeeds and reports whether the key was present;
    afterwards no new lease of that key can come from the old entry: it is gone,
    retiring under its remaining leases, or a load that accepts no waiters. *)
Theorem invalidate_contract config readers w key :
  attained config readers w ->
  wp (invalidate key)
    (fun present w' => present = bool_decide (is_Some (entries w !! key)) /\ closed (entries w' !! key))
    (fun _ _ => False) w.
Proof.
  intros Ha. eapply wp_mono;
    [apply (invalidate_spec config (attained_config _ _ _ Ha)); by eapply attained_inv | | done].
  by intros b w' (_ & -> & ?).
Qed.
Lemma invalidate_contract_witness :
  wp (invalidate demo_key)
    (fun present w' => present = bool_decide (is_Some (entries demo_loaded !! demo_key))
                       /\ closed (entries w' !! demo_key))
    (fun _ _ => False) demo_loaded.
Proof. apply (invalidate_contract demo_config demo_readers), demo_loaded_attained. Defined.

(** A shut-down cache takes no new work: a lookup or a prefetch that passes
    its own checks fails with [Shutdown], and neither touches the entries, the
    ledger, the leases, the registrations or the reader. *)
Theorem shutdown_refuses config w in_runtime spec :
  CacheState.shutdown (World.state w) = true -> is_Ok (validate_spec config spec) ->
  let control := Control.mk false false in
  (get_enter config in_runtime spec control w).1 = Err Shutdown
  /\ (prefetch config in_runtime spec control w).1 = Err Shutdown
  /\ forall w', w' ∈ [(get_enter config in_runtime spec control w).2;
                      (prefetch config in_runtime spec control w).2] ->
     World.state w' = World.state w /\ World.handles w' = World.handles w
     /\ World.registrations w' = World.registrations w /\ World.reader w' = World.reader w.
Proof.
  intros Hs [a Ha] control. unfold get_enter, get_begin, prefetch, mbind, act_bind, lift, Control.check,
    count_bytes, modify, gets_state, gets, fail, lift. simpl. rewrite !Ha. simpl.
  destruct (CacheState.shutdown (World.state w)); [|done]. simpl. split_and!; [done | done|].
  intros w' [->|[->|H]%elem_of_cons]%elem_of_cons; [done | done | by apply elem_of_nil in H].
Qed.
Lemma shutdown_refuses_witness :
  let control := Control.mk false false in
  (get_enter demo_config true demo_spec control demo_drained).1 = Err Shutdown
  /\ (prefetch demo_config true demo_spec control demo_drained).1 = Err Shutdown
  /\ forall w', w' ∈ [(get_enter demo_config true demo_spec control demo_drained).2;
                      (prefetch demo_config true demo_spec control demo_drained).2] ->
     World.state w' = World.state demo_drained /\ World.handles w' = World.handles demo_drained
     /\ World.registrations w' = World.registrations demo_drained
     /\ World.reader w' = World.reader demo_drained.
Proof.
  apply (shutdown_refuses demo_config demo_drained true demo_spec); [by vm_compute|].
  exists 64. by vm_compute.
Defined.
