(* ===== verification/KernelFloat.v ===== *)
(** Single-precision floats as their 32-bit encodings.  Arithmetic is that of
    SpecFloat (IEEE 754, round to nearest even) at 24 bits of precision; which NaN
    an operation returns, and the exponential of the math library, are left to the
    platform. *)
From Stdlib Require Import SpecFloat.
From stdpp Require Import prelude.
From S2P Require Import Prelude.
#[local] Open Scope N_scope.

Abbreviation f32 := N (only parsing).

(** ** Encodings *)

Module F32.
Definition sign (x : f32) : bool := N.testbit x 31.
Definition exponent (x : f32) : N := N.shiftr x 23 mod 256.
Definition fraction (x : f32) : N := x mod 2 ^ 23.
Definition magnitude (x : f32) : N := x mod 2 ^ 31.

Definition is_finite (x : f32) : bool := negb (exponent x =? 255).
Definition is_nan (x : f32) : bool := (exponent x =? 255) && negb (fraction x =? 0).

Definition decode (x : f32) : spec_float :=
  let e := exponent x in
  let f := fraction x in
  if e =? 255 then (if f =? 0 then S754_infinity (sign x) else S754_nan)
  else if e =? 0 then
    match f with N0 => S754_zero (sign x) | Npos m => S754_finite (sign x) m (-149) end
  else match f + 2 ^ 23 with
       | N0 => S754_nan
       | Npos m => S754_finite (sign x) m (Z.of_N e - 150)
       end.

Definition sign_bit (s : bool) : N := if s then 2 ^ 31 else 0.
Definition encode (nan : f32) (x : spec_float) : f32 :=
  match x with
  | S754_zero s => sign_bit s
  | S754_infinity s => sign_bit s + 255 * 2 ^ 23
  | S754_nan => nan
  | S754_finite s m e =>
      if (Npos m <? 2 ^ 23) then sign_bit s + Npos m
      else sign_bit s + (Z.to_N (e + 150) * 2 ^ 23 + (Npos m - 2 ^ 23))
  end.

Definition from_le_bytes (bytes : list N) : f32 := from_le_bytes bytes.

(** [partial_cmp] and [<]. *)
Definition partial_cmp (x y : f32) : option comparison := SFcompare (decode x) (decode y).
Definition ltb (x y : f32) : bool := SFltb (decode x) (decode y).
Definition leb (x y : f32) : bool := SFleb (decode x) (decode y).

Definition zero : f32 := 0.
Definition negative_zero : f32 := 2 ^ 31.
Definition one : f32 := 127 * 2 ^ 23.
End F32.
#[global] Arguments F32.decode : simpl never.
#[global] Arguments F32.magnitude : simpl never.
#[global] Arguments F32.exponent : simpl never.
#[global] Arguments F32.fraction : simpl never.
#[global] Arguments F32.is_finite : simpl never.
#[global] Arguments F32.is_nan : simpl never.
#[global] Arguments F32.partial_cmp : simpl never.
#[global] Arguments F32.ltb : simpl never.
#[global] Arguments F32.leb : simpl never.

(** What the machine decides.  The NaN that an operation returns is a function of
    the operation and its operands; [max_tie] says which of two equal operands
    [f32::max] returns. *)
Inductive FloatOp : Set := Add | Sub | Mul | Div | Sqrt | Convert.
Class Platform := {
  arithmetic_nan : FloatOp -> list f32 -> f32;
  math_exp : f32 -> f32;
  max_tie : f32 -> f32 -> bool;
  (* [cfg!(runnel_native_avx2)], [is_x86_feature_detected!("avx2")] and
     [__builtin_cpu_supports("avx2")]. *)
  native_avx2_compiled : bool;
  cpu_has_avx2 : bool;
  builtin_cpu_supports_avx2 : bool
}.

Module Float.
Section float.
Context `{Platform}.

Definition binary (op : FloatOp) (f : spec_float -> spec_float -> spec_float) (x y : f32) : f32 :=
  F32.encode (arithmetic_nan op [x; y]) (f (F32.decode x) (F32.decode y)).
Definition add : f32 -> f32 -> f32 := binary Add (SFadd 24 128).
Definition sub : f32 -> f32 -> f32 := binary Sub (SFsub 24 128).
Definition mul : f32 -> f32 -> f32 := binary Mul (SFmul 24 128).
Definition div : f32 -> f32 -> f32 := binary Div (SFdiv 24 128).
Definition sqrt (x : f32) : f32 := F32.encode (arithmetic_nan Sqrt [x]) (SFsqrt 24 128 (F32.decode x)).
Definition recip (x : f32) : f32 := div F32.one x.
(** [-x] flips the sign bit. *)
Definition neg (x : f32) : f32 := N.lxor x (2 ^ 31).
Definition exp (x : f32) : f32 := math_exp x.
(** [f32::max]: the other operand of a NaN. *)
Definition max (x y : f32) : f32 :=
  if F32.is_nan x then y else if F32.is_nan y then x
  else if F32.ltb x y then y else if F32.ltb y x then x
  else if max_tie x y then x else y.
(** [n as f32]. *)
Definition of_usize (n : N) : f32 :=
  F32.encode (arithmetic_nan Convert [n]) (binary_normalize 24 128 (Z.of_N n) 0 false).
(** [iter().sum()], which starts from [-0.0]. *)
Definition sum (xs : list f32) : f32 := foldl add F32.negative_zero xs.
End float.
End Float.
#[global] Arguments Float.binary : simpl never.
#[global] Arguments Float.sqrt : simpl never.
#[global] Arguments Float.of_usize : simpl never.

(** ** The order of encodings

    Encodings that are not NaN are ordered like the integers of their magnitude
    with their sign. *)
Module F32Facts.
Import F32.

Definition key (x : f32) : Z := if sign x then - Z.of_N (magnitude x) else Z.of_N (magnitude x).

Lemma magnitude_fields x : magnitude x = exponent x * 2 ^ 23 + fraction x.
Proof.
  unfold magnitude, exponent, fraction. rewrite N.shiftr_div_pow2.
  change (2 ^ 31) with (2 ^ 23 * 256). rewrite N.Div0.mod_mul_r. lia.
Qed.
Lemma exponent_bound x : exponent x < 256.
Proof. by apply N.mod_lt. Qed.
Lemma fraction_bound x : fraction x < 2 ^ 23.
Proof. by apply N.mod_lt. Qed.

(** What a decoded number says of the fields. *)
Inductive decoded (x : f32) : spec_float -> Prop :=
| decoded_infinity : exponent x = 255 -> fraction x = 0 -> decoded x (S754_infinity (sign x))
| decoded_zero : magnitude x = 0 -> decoded x (S754_zero (sign x))
| decoded_finite m e :
    (Z.of_N (magnitude x) = (e + 149) * 2 ^ 23 + Zpos m)%Z -> (-149 <= e <= 104)%Z ->
    (Zpos m < 2 ^ 24)%Z -> (-149 < e -> 2 ^ 23 <= Zpos m)%Z ->
    decoded x (S754_finite (sign x) m e).

Lemma decode_decoded x : is_nan x = false -> decoded x (decode x).
Proof.
  unfold is_nan, decode. intros Hn. pose proof (magnitude_fields x) as Hm.
  pose proof (exponent_bound x). pose proof (fraction_bound x).
  destruct (N.eqb_spec (exponent x) 255) as [He|He].
  { destruct (N.eqb_spec (fraction x) 0); [by constructor | done]. }
  destruct (N.eqb_spec (exponent x) 0) as [He0|He0].
  - destruct (fraction x) as [|m] eqn:Hf; constructor; lia.
  - destruct (fraction x + 2 ^ 23) as [|m] eqn:Hf; [lia|]. constructor; lia.
Qed.

(** Exponent first, then significand: the order of magnitudes. *)
Lemma finite_compare m1 e1 m2 e2 :
  (-149 <= e1)%Z -> (-149 <= e2)%Z -> (Zpos m1 < 2 ^ 24)%Z -> (Zpos m2 < 2 ^ 24)%Z ->
  (-149 < e1 -> 2 ^ 23 <= Zpos m1)%Z -> (-149 < e2 -> 2 ^ 23 <= Zpos m2)%Z ->
  match (e1 ?= e2)%Z with Lt => Lt | Gt => Gt | Eq => Pos.compare_cont Eq m1 m2 end
  = ((e1 + 149) * 2 ^ 23 + Zpos m1 ?= (e2 + 149) * 2 ^ 23 + Zpos m2)%Z.
Proof.
  intros. destruct (Z.compare_spec e1 e2) as [-> | |]; symmetry.
  - exact (Zcompare_plus_compat (Zpos m1) (Zpos m2) ((e2 + 149) * 2 ^ 23)).
  - apply Z.compare_lt_iff. lia.
  - apply Z.compare_gt_iff. lia.
Qed.

Lemma negative_compare a b : (- a ?= - b)%Z = CompOpp (a ?= b)%Z.
Proof. by rewrite Z.compare_opp, Z.compare_antisym. Qed.

Lemma partial_cmp_key x y :
  is_nan x = false -> is_nan y = false -> partial_cmp x y = Some (key x ?= key y)%Z.
Proof.
  intros Hx%decode_decoded Hy%decode_decoded. unfold partial_cmp, key.
  pose proof (magnitude_fields x). pose proof (magnitude_fields y).
  destruct Hx as [| |m1 e1 E1 ? ? ?], Hy as [| |m2 e2 E2 ? ? ?]; destruct (sign x), (sign y); simpl; f_equal;
    try (rewrite E1, E2);
    try (by apply finite_compare; lia);
    try (by rewrite negative_compare, <- finite_compare by lia; destruct (e1 ?= e2)%Z); symmetry;
    repeat match goal with
    | |- _ = Eq => apply Z.compare_eq_iff
    | |- _ = Lt => apply Z.compare_lt_iff
    | |- _ = Gt => apply Z.compare_gt_iff
    end; lia.
Qed.

Lemma ltb_key x y :
  is_nan x = false -> is_nan y = false -> ltb x y = (key x <? key y)%Z.
Proof.
  intros Hx Hy. pose proof (partial_cmp_key x y Hx Hy) as H. unfold partial_cmp in H.
  unfold ltb, SFltb. rewrite H. done.
Qed.

Lemma is_finite_not_nan x : is_finite x = true -> is_nan x = false.
Proof. unfold is_finite, is_nan. by destruct (exponent x =? 255). Qed.

(** ** Values

    A finite float is a whole number of units of 2^-149. *)
Definition units (x : f32) : Z :=
  match decode x with
  | S754_finite s m e => cond_Zopp s (Zpos m * 2 ^ (e + 149))
  | _ => 0
  end.
(** The units of a magnitude. *)
Definition scale (e : N) : N := 2 ^ (N.max e 1 - 1).
Definition size (n : N) : N :=
  let e := n / 2 ^ 23 in (n mod 2 ^ 23 + (if e =? 0 then 0 else 2 ^ 23)) * scale e.

Lemma units_size x : is_finite x = true -> units x = cond_Zopp (sign x) (Z.of_N (size (magnitude x))).
Proof.
  intros Hf%negb_true_iff%N.eqb_neq. unfold units, decode, size. rewrite magnitude_fields.
  pose proof (exponent_bound x). pose proof (fraction_bound x).
  rewrite (N.add_comm (exponent x * _)), N.div_add, N.Div0.mod_add, N.div_small, N.mod_small, N.add_0_l by done.
  apply N.eqb_neq in Hf as ->. destruct (N.eqb_spec (exponent x) 0) as [-> |He].
  - destruct (fraction x) as [|m]; [by destruct (sign x)|]. simpl. f_equal.
  - destruct (fraction x + 2 ^ 23) as [|m] eqn:E; [lia|].
    cbv iota beta. f_equal. unfold scale.
    rewrite N.max_l, N2Z.inj_mul, N2Z.inj_pow, N2Z.inj_sub by lia. f_equal. f_equal. lia.
Qed.
End F32Facts.
#[global] Arguments F32Facts.key : simpl never.
