(* ===== verification/Kernel.v ===== *)
(** Compact BF16 matrices and the expert matrix-vector product
    (crates/runnel-kernels/src and native/bf16_gemv.c).  A raw slice handed to the
    native kernel is its address with its elements; reading an element that is not
    there is [Panic]. *)
From stdpp Require Import prelude strings pretty.
From S2P Require Import Prelude Format FormatManifest FormatArtifact KernelFloat.
#[local] Open Scope N_scope.

(** * Errors *)

Module BufferRole.
Inductive t : Set := Weights | Input | Output | Workspace.
Definition fmt (r : t) : string :=
  match r with
  | Weights => "weights" | Input => "input" | Output => "output" | Workspace => "workspace"
  end.
End BufferRole.

Module NativeStatus.
Inductive t : Set :=
| Success | NullPointer | InvalidDimension | SizeOverflow | ByteLengthMismatch
| NaturalAlignmentFailure | AddressRangeOverflow | RangeOverlap | UnavailableIsa.
Definition code (s : t) : Z :=
  match s with
  | Success => 0 | NullPointer => 1 | InvalidDimension => 2 | SizeOverflow => 3
  | ByteLengthMismatch => 4 | NaturalAlignmentFailure => 5 | AddressRangeOverflow => 6
  | RangeOverlap => 7 | UnavailableIsa => 8
  end.
Definition from_code (code : Z) : option t :=
  match code with
  | 0 => Some Success | 1 => Some NullPointer | 2 => Some InvalidDimension
  | 3 => Some SizeOverflow | 4 => Some ByteLengthMismatch | 5 => Some NaturalAlignmentFailure
  | 6 => Some AddressRangeOverflow | 7 => Some RangeOverlap | 8 => Some UnavailableIsa
  | _ => None
  end%Z.
Definition fmt (s : t) : string :=
  match s with
  | Success => "success"
  | NullPointer => "null pointer"
  | InvalidDimension => "invalid or zero dimension"
  | SizeOverflow => "size overflow"
  | ByteLengthMismatch => "byte-length mismatch"
  | NaturalAlignmentFailure => "natural-alignment failure"
  | AddressRangeOverflow => "address-range overflow"
  | RangeOverlap => "buffer ranges overlap"
  | UnavailableIsa => "AVX2 unavailable"
  end.
End NativeStatus.

(** [{:04x}] of a 16-bit and [{:08x}] of a 32-bit integer. *)
Definition hex_text (digits : nat) (n : N) : string :=
  bytes_string ((fun i => hex_digit (N.land (N.shiftr n (4 * N.of_nat i)) 15)) <$> reverse (seq 0 digits)).

Module KernelError.
Inductive t : Type :=
| InvalidDimensions (rows columns : N)
| SizeOverflow (buffer : BufferRole.t)
| MatrixLengthMismatch (expected_words actual_words : N)
| ByteLengthMismatch (expected_bytes actual_bytes : N)
| BufferLengthMismatch (buffer : BufferRole.t) (expected_elements actual_elements : N)
| NullPointer (buffer : BufferRole.t)
| NaturalAlignmentFailure (buffer : BufferRole.t)
| NonFiniteWeight (index bits : N)
| NonFiniteInput (index bits : N)
| NonFiniteOutput (index bits : N)
| NonFiniteConversionInput (bits : N)
| ConversionRoundedToInfinity (bits : N)
| AddressRangeOverflow (buffer : BufferRole.t)
| RangeOverlap (first second : BufferRole.t)
| BackendUnavailable
| NativeFailure (status : NativeStatus.t)
| NativeContractViolation (status : Z).
Definition fmt (e : t) : string :=
  match e with
  | InvalidDimensions rows columns =>
      "GEMV dimensions must be positive, got " +:+ pretty rows +:+ "x" +:+ pretty columns
  | SizeOverflow buffer => BufferRole.fmt buffer +:+ " size overflows usize"
  | MatrixLengthMismatch expected_words actual_words =>
      "BF16 matrix needs " +:+ pretty expected_words +:+ " words, got " +:+ pretty actual_words
  | ByteLengthMismatch expected_bytes actual_bytes =>
      "BF16 matrix needs " +:+ pretty expected_bytes +:+ " bytes, got " +:+ pretty actual_bytes
  | BufferLengthMismatch buffer expected_elements actual_elements =>
      BufferRole.fmt buffer +:+ " needs " +:+ pretty expected_elements +:+ " elements, got "
      +:+ pretty actual_elements
  | NullPointer buffer => BufferRole.fmt buffer +:+ " pointer is null"
  | NaturalAlignmentFailure buffer => BufferRole.fmt buffer +:+ " pointer is not naturally aligned"
  | NonFiniteWeight index bits => "weight " +:+ pretty index +:+ " is nonfinite BF16 0x" +:+ hex_text 4 bits
  | NonFiniteInput index bits => "input " +:+ pretty index +:+ " is nonfinite f32 0x" +:+ hex_text 8 bits
  | NonFiniteOutput index bits => "output " +:+ pretty index +:+ " is nonfinite f32 0x" +:+ hex_text 8 bits
  | NonFiniteConversionInput bits => "cannot quantize nonfinite f32 0x" +:+ hex_text 8 bits
  | ConversionRoundedToInfinity bits => "finite f32 0x" +:+ hex_text 8 bits +:+ " rounds to BF16 infinity"
  | AddressRangeOverflow buffer => BufferRole.fmt buffer +:+ " address range overflows usize"
  | RangeOverlap first second => BufferRole.fmt first +:+ " and " +:+ BufferRole.fmt second +:+ " ranges overlap"
  | BackendUnavailable => "requested AVX2 backend is unavailable"
  | NativeFailure status => "native kernel rejected call: " +:+ NativeStatus.fmt status
  | NativeContractViolation status => "native kernel returned unknown ABI status " +:+ pretty status
  end.
End KernelError.
Abbreviation kresult := (result KernelError.t).

(** * BF16 words (bf16.rs) *)

Fixpoint pos_trailing_zeros (p : positive) : N :=
  match p with xO p => 1 + pos_trailing_zeros p | _ => 0 end.
(** [u16::trailing_zeros]. *)
Definition trailing_zeros (word : N) : N :=
  match word with N0 => 16 | Npos p => pos_trailing_zeros p end.

Module Bf16Class.
Inductive t : Set := Zero | Subnormal | Normal | Infinity | Nan.
End Bf16Class.

Module Bf16.
Abbreviation t := N (only parsing).
Definition to_f32 (w : t) : f32 := N.shiftl w 16.
Definition classify (w : t) : Bf16Class.t :=
  let exponent := N.land w 0x7f80 in
  let fraction := N.land w 0x007f in
  if exponent =? 0 then (if fraction =? 0 then Bf16Class.Zero else Bf16Class.Subnormal)
  else if exponent =? 0x7f80 then (if fraction =? 0 then Bf16Class.Infinity else Bf16Class.Nan)
  else Bf16Class.Normal.
Definition is_finite (w : t) : bool :=
  match classify w with Bf16Class.Infinity | Bf16Class.Nan => false | _ => true end.
Definition from_f32_rne (bits : f32) : t :=
  let exponent := N.land bits 0x7f800000 in
  let fraction := N.land bits 0x007fffff in
  if (exponent =? 0x7f800000) && negb (fraction =? 0) then
    let word := N.shiftr bits 16 mod 2 ^ 16 in
    if 7 <=? trailing_zeros word then N.lor word 1 else word
  else
    let retained_lsb := N.land (N.shiftr bits 16) 1 in
    let rounded := wrapping_add u32_max bits (0x7fff + retained_lsb) in
    N.shiftr rounded 16 mod 2 ^ 16.
Definition try_from_f32_rne (value : f32) : kresult t :=
  _ ← guard_err (negb (F32.is_finite value)) (KernelError.NonFiniteConversionInput value);
  let converted := from_f32_rne value in
  _ ← guard_err (negb (is_finite converted)) (KernelError.ConversionRoundedToInfinity value);
  Ok converted.
End Bf16.
#[global] Arguments Bf16.from_f32_rne : simpl never.
#[global] Arguments Bf16.try_from_f32_rne : simpl never.
#[global] Arguments Bf16.is_finite : simpl never.

(** * Matrices (matrix.rs) *)

Definition validate_dimensions (rows columns : N) : kresult unit :=
  guard_err ((rows =? 0) || (columns =? 0)) (KernelError.InvalidDimensions rows columns).
Definition checked_elements (rows columns : N) : kresult N :=
  ok_or (checked_mul usize_max rows columns) (KernelError.SizeOverflow BufferRole.Weights).
(** The loops that look for the first value that is not finite. *)
Definition first_bad (bad : N -> bool) (e : N -> N -> KernelError.t) (values : list N) : kresult unit :=
  _ ← try_fold (fun index value => _ ← guard_err (bad value) (e index value); Ok (index + 1)) 0 values;
  Ok tt.
Definition validate_finite_words (words : list N) : kresult unit :=
  first_bad (fun bits => negb (Bf16.is_finite bits)) KernelError.NonFiniteWeight words.
(** [bytes.chunks_exact(2)] with [u16::from_le_bytes]. *)
Definition decode_words (bytes : list N) : list N :=
  from_le_bytes <$> filter (fun pair => length pair = 2%nat) (chunks 2 bytes).

Module Bf16Matrix.
Record t : Type := mk { rows : N; columns : N; storage : list N; word_offset : N }.

Definition from_storage (rows columns : N) (storage : list N) (word_offset : N) : kresult t :=
  _ ← validate_dimensions rows columns;
  logical_words ← checked_elements rows columns;
  expected_storage_words ← ok_or (checked_add usize_max word_offset logical_words)
    (KernelError.SizeOverflow BufferRole.Weights);
  _ ← guard_err (negb (lenN storage =? expected_storage_words))
        (KernelError.MatrixLengthMismatch expected_storage_words (lenN storage));
  logical ← expect (slice storage word_offset expected_storage_words);
  _ ← validate_finite_words logical;
  Ok (mk rows columns storage word_offset).
Definition from_words (rows columns : N) (words : list N) : kresult t :=
  from_storage rows columns words 0.
Definition from_le_bytes (rows columns : N) (bytes : list N) : kresult t :=
  _ ← validate_dimensions rows columns;
  elements ← checked_elements rows columns;
  expected_bytes ← ok_or (checked_mul usize_max elements 2) (KernelError.SizeOverflow BufferRole.Weights);
  _ ← guard_err (negb (lenN bytes =? expected_bytes))
        (KernelError.ByteLengthMismatch expected_bytes (lenN bytes));
  from_words rows columns (decode_words bytes).
Definition try_from_f32 (rows columns : N) (values : list f32) : kresult t :=
  _ ← validate_dimensions rows columns;
  expected ← checked_elements rows columns;
  _ ← guard_err (negb (lenN values =? expected))
        (KernelError.MatrixLengthMismatch expected (lenN values));
  words ← try_fold (fun words value => word ← Bf16.try_from_f32_rne value; Ok (words ++ [word])) [] values;
  from_words rows columns words.

Definition len (m : t) : N := rows m * columns m.
Definition words (m : t) : kresult (list N) :=
  expect (slice (storage m) (word_offset m) (lenN (storage m))).
Definition get (m : t) (row column : N) : kresult (option N) :=
  if (rows m <=? row) || (columns m <=? column) then Ok None
  else
    words ← words m;
    word ← expect (words !! N.to_nat (row * columns m + column));
    Ok (Some word).
(** [PartialEq]. *)
Definition eq (m1 m2 : t) : kresult bool :=
  if (rows m1 =? rows m2) && (columns m1 =? columns m2) then
    words1 ← words m1; words2 ← words m2; Ok (bool_decide (words1 = words2))
  else Ok false.
End Bf16Matrix.

(** * Dispatch (dispatch.rs) *)

Module BackendRequest.
Inductive t : Set := Auto | Scalar | Avx2.
#[global] Instance eq_dec : EqDecision t.
Proof. solve_decision. Defined.
End BackendRequest.
Module BackendKind.
Inductive t : Set := Scalar | Avx2.
#[global] Instance eq_dec : EqDecision t.
Proof. solve_decision. Defined.
End BackendKind.

Module Capabilities.
Record t : Type := mk { avx2 : bool }.
Definition detected `{Platform} : t := mk (native_avx2_compiled && cpu_has_avx2).
Definition without_avx2 (c : t) : t := mk false.
End Capabilities.

Definition select_backend (request : BackendRequest.t) (capabilities : Capabilities.t)
    : kresult BackendKind.t :=
  match request, Capabilities.avx2 capabilities with
  | BackendRequest.Scalar, _ | BackendRequest.Auto, false => Ok BackendKind.Scalar
  | BackendRequest.Auto, true | BackendRequest.Avx2, true => Ok BackendKind.Avx2
  | BackendRequest.Avx2, false => Err KernelError.BackendUnavailable
  end.

(** * Rows of the product

    One row, over any numbers: [product] of a word and an input, [add], [zero]. *)
Section dot.
Context {A : Type} (product : N -> f32 -> A) (add : A -> A -> A) (zero : A).

(** The inner loop of [scalar_compute]. *)
Definition dot_scalar (row_words : list N) (input : list f32) : A :=
  foldl (fun sum p => add sum (product p.1 p.2)) zero (zip row_words input).

(** The vector body of [runnel_bf16_gemv_avx2]: eight lanes. *)
Definition vector_step {E} (row_weights : list N) (input : list f32) (accumulator : list A) (column : N)
    : result E (list A) :=
  packed ← expect (slice row_weights column (column + 8));
  input_values ← expect (slice input column (column + 8));
  Ok (zip_with add accumulator (zip_with product packed input_values)).
(** [lanes[0]], then the additions of the others. *)
Definition reduce_lanes (lanes : list A) : A :=
  match lanes with [] => zero | lane :: lanes => foldl add lane lanes end.
(** The seven conditional additions of the tail. *)
Definition tail_step {E} (row_weights : list N) (input : list f32) (column remaining : N) (sum : A) (i : N)
    : result E A :=
  if i + 1 <=? remaining then
    weight ← expect (row_weights !! N.to_nat (column + i));
    value ← expect (input !! N.to_nat (column + i));
    Ok (add sum (product weight value))
  else Ok sum.
Definition dot_avx2 {E} (row_weights : list N) (input : list f32) (columns : N) : result E A :=
  let vector_columns := columns - columns mod 8 in
  accumulator ← try_fold (vector_step row_weights input) (replicate 8 zero)
                  ((fun k => 8 * k) <$> rangeN (vector_columns / 8));
  try_fold (tail_step row_weights input vector_columns (columns - vector_columns))
    (reduce_lanes accumulator) (rangeN 7).
End dot.

(** Where the three slices are. *)
Module Addresses.
Record t : Type := mk { weights : N; input : N; output : N }.
End Addresses.

Section product.
Context `{Platform}.

Definition widened_product (word : N) (value : f32) : f32 := Float.mul (Bf16.to_f32 word) value.
Definition scalar_row : list N -> list f32 -> f32 := dot_scalar widened_product Float.add F32.zero.
Definition avx2_row {E} : list N -> list f32 -> N -> result E f32 :=
  dot_avx2 widened_product Float.add F32.zero.

(** * The native kernel (native/bf16_gemv.c) *)

Definition runnel_checked_multiply (left right : N) : option N :=
  if negb (left =? 0) && (usize_max / left <? right) then None else Some (left * right).
Definition runnel_checked_range (pointer byte_length : N) : option (N * N) :=
  if (usize_max <? byte_length) || (usize_max - byte_length <? pointer) then None
  else Some (pointer, pointer + byte_length).
Definition runnel_ranges_overlap (left right : N * N) : bool := (left.1 <? right.2) && (right.1 <? left.2).

(** The rows, one after the other. *)
Definition runnel_bf16_gemv_avx2 (weights : list N) (input : list f32) (output : list f32) (rows columns : N)
    : kresult (list f32) :=
  try_fold (fun output row =>
    let start := wrapping_mul usize_max row columns in
    sum ← avx2_row (drop (N.to_nat start) weights) input columns;
    if row <? lenN output then Ok (<[N.to_nat row := sum]> output) else Panic)
    output (rangeN rows).

Definition runnel_bf16_gemv_avx2_v1 (at_ : Addresses.t) (weights : list N) (weight_bytes : N)
    (input : list f32) (input_bytes : N) (output : list f32) (output_bytes rows columns : N)
    : kresult (NativeStatus.t * list f32) :=
  let reject status := Ok (status, output) in
  if (Addresses.weights at_ =? 0) || (Addresses.input at_ =? 0) || (Addresses.output at_ =? 0)
  then reject NativeStatus.NullPointer
  else if (rows =? 0) || (columns =? 0) then reject NativeStatus.InvalidDimension
  else
    match
      (element_count ← runnel_checked_multiply rows columns;
       expected_weight_bytes ← runnel_checked_multiply element_count 2;
       expected_input_bytes ← runnel_checked_multiply columns 4;
       expected_output_bytes ← runnel_checked_multiply rows 4;
       Some (expected_weight_bytes, expected_input_bytes, expected_output_bytes))
    with
    | None => reject NativeStatus.SizeOverflow
    | Some (expected_weight_bytes, expected_input_bytes, expected_output_bytes) =>
        if negb (weight_bytes =? expected_weight_bytes) || negb (input_bytes =? expected_input_bytes)
           || negb (output_bytes =? expected_output_bytes)
        then reject NativeStatus.ByteLengthMismatch
        else if negb (Addresses.weights at_ mod 2 =? 0) || negb (Addresses.input at_ mod 4 =? 0)
                || negb (Addresses.output at_ mod 4 =? 0)
        then reject NativeStatus.NaturalAlignmentFailure
        else
          match runnel_checked_range (Addresses.weights at_) weight_bytes,
                runnel_checked_range (Addresses.input at_) input_bytes,
                runnel_checked_range (Addresses.output at_) output_bytes with
          | Some weight_range, Some input_range, Some output_range =>
              if runnel_ranges_overlap weight_range input_range
                 || runnel_ranges_overlap weight_range output_range
                 || runnel_ranges_overlap input_range output_range
              then reject NativeStatus.RangeOverlap
              else if negb builtin_cpu_supports_avx2 then reject NativeStatus.UnavailableIsa
              else
                output ← runnel_bf16_gemv_avx2 weights input output rows columns;
                Ok (NativeStatus.Success, output)
          | _, _, _ => reject NativeStatus.AddressRangeOverflow
          end
    end.

(** * The call across the boundary (ffi.rs) *)

Definition require_pointer (address alignment : N) (buffer : BufferRole.t) : kresult unit :=
  _ ← guard_err (address =? 0) (KernelError.NullPointer buffer);
  guard_err (negb (address mod alignment =? 0)) (KernelError.NaturalAlignmentFailure buffer).
Definition checked_bytes (elements element_size : N) (buffer : BufferRole.t) : kresult N :=
  ok_or (checked_mul usize_max elements element_size) (KernelError.SizeOverflow buffer).
Definition require_bytes (elements element_size expected : N) (buffer : BufferRole.t) : kresult unit :=
  actual ← checked_bytes elements element_size buffer;
  guard_err (negb (actual =? expected))
    (KernelError.BufferLengthMismatch buffer (expected / element_size) elements).
Definition checked_range (start bytes : N) (buffer : BufferRole.t) : kresult (N * N) :=
  end_ ← ok_or (checked_add usize_max start bytes) (KernelError.AddressRangeOverflow buffer);
  Ok (start, end_).
Definition require_disjoint (first second : N * N) (first_role second_role : BufferRole.t) : kresult unit :=
  guard_err ((first.1 <? second.2) && (second.1 <? first.2))
    (KernelError.RangeOverlap first_role second_role).

Definition map_status (code : Z) : kresult unit :=
  match NativeStatus.from_code code with
  | Some NativeStatus.Success => Ok tt
  | Some status => Err (KernelError.NativeFailure status)
  | None => Err (KernelError.NativeContractViolation code)
  end.

(** The output afterwards, and the outcome; without the native candidate the call
    is compiled to an error. *)
Definition call_native (at_ : Addresses.t) (weights : list N) (weight_bytes : N) (input : list f32)
    (input_bytes : N) (output : list f32) (output_bytes rows columns : N) : list f32 * kresult unit :=
  if native_avx2_compiled then
    match runnel_bf16_gemv_avx2_v1 at_ weights weight_bytes input input_bytes output output_bytes rows
            columns with
    | Ok (status, output) => (output, map_status (NativeStatus.code status))
    | Err e => (output, Err e)
    | Panic => (output, Panic)
    end
  else (output, Err KernelError.BackendUnavailable).

(** Every check of [gemv] before the call: the byte lengths. *)
Definition gemv_checks (at_ : Addresses.t) (weights : list N) (input output : list f32) (rows columns : N)
    : kresult (N * N * N) :=
  _ ← guard_err ((rows =? 0) || (columns =? 0)) (KernelError.InvalidDimensions rows columns);
  elements ← ok_or (checked_mul usize_max rows columns) (KernelError.SizeOverflow BufferRole.Weights);
  weight_bytes ← checked_bytes elements 2 BufferRole.Weights;
  input_bytes ← checked_bytes columns 4 BufferRole.Input;
  output_bytes ← checked_bytes rows 4 BufferRole.Output;
  _ ← require_bytes (lenN weights) 2 weight_bytes BufferRole.Weights;
  _ ← require_pointer (Addresses.weights at_) 2 BufferRole.Weights;
  _ ← require_pointer (Addresses.input at_) 4 BufferRole.Input;
  _ ← require_pointer (Addresses.output at_) 4 BufferRole.Output;
  _ ← require_bytes (lenN input) 4 input_bytes BufferRole.Input;
  _ ← require_bytes (lenN output) 4 output_bytes BufferRole.Output;
  weight_range ← checked_range (Addresses.weights at_) weight_bytes BufferRole.Weights;
  input_range ← checked_range (Addresses.input at_) input_bytes BufferRole.Input;
  output_range ← checked_range (Addresses.output at_) output_bytes BufferRole.Output;
  _ ← require_disjoint weight_range input_range BufferRole.Weights BufferRole.Input;
  _ ← require_disjoint weight_range output_range BufferRole.Weights BufferRole.Output;
  _ ← require_disjoint input_range output_range BufferRole.Input BufferRole.Output;
  Ok (weight_bytes, input_bytes, output_bytes).

Definition gemv (at_ : Addresses.t) (weights : list N) (input output : list f32) (rows columns : N)
    : list f32 * kresult unit :=
  match gemv_checks at_ weights input output rows columns with
  | Ok (weight_bytes, input_bytes, output_bytes) =>
      call_native at_ weights weight_bytes input input_bytes output output_bytes rows columns
  | Err e => (output, Err e)
  | Panic => (output, Panic)
  end.
End product.

(** * Prepared products (lib.rs) *)

Definition nonfinite (value : f32) : bool := negb (F32.is_finite value).

Module FiniteInput.
Record t : Type := mk { values : list f32 }.
Definition new (values : list f32) : kresult t :=
  _ ← first_bad nonfinite KernelError.NonFiniteInput values; Ok (mk values).
Definition len (i : t) : N := lenN (values i).
End FiniteInput.

Module GemvWorkspace.
Record t : Type := mk { temporary_output : list f32 }.
Definition new (rows : N) : t := mk (replicate (N.to_nat rows) F32.zero).
Definition rows (w : t) : N := lenN (temporary_output w).
Definition resize_rows (w : t) (rows : N) : t :=
  mk (resize (N.to_nat rows) F32.zero (temporary_output w)).
End GemvWorkspace.

Definition require_output_lengths (rows : N) (workspace : GemvWorkspace.t) (output : list f32)
    : kresult unit :=
  _ ← guard_err (negb (GemvWorkspace.rows workspace =? rows))
        (KernelError.BufferLengthMismatch BufferRole.Workspace rows (GemvWorkspace.rows workspace));
  guard_err (negb (lenN output =? rows))
    (KernelError.BufferLengthMismatch BufferRole.Output rows (lenN output)).
Definition validate_finite_output (output : list f32) : kresult unit :=
  first_bad nonfinite KernelError.NonFiniteOutput output.

Section lib.
Context `{Platform}.

(** The row that [scalar_compute] writes at an index. *)
Definition scalar_compute_row (matrix : Bf16Matrix.t) (input : FiniteInput.t) (row : N) : kresult f32 :=
  start ← expect (checked_mul usize_max row (Bf16Matrix.columns matrix));
  end_ ← add_or_panic usize_max start (Bf16Matrix.columns matrix);
  words ← Bf16Matrix.words matrix;
  row_words ← expect (slice words start end_);
  Ok (scalar_row row_words (FiniteInput.values input)).
Definition scalar_compute (matrix : Bf16Matrix.t) (input : FiniteInput.t) (output : list f32)
    : kresult (list f32) :=
  mapM (scalar_compute_row matrix input) (rangeN (lenN output)).

(** The end of [run] and of [scalar_gemv]: validate the scratch, then publish it. *)
Definition publish (temporary output : list f32) : GemvWorkspace.t * list f32 * kresult unit :=
  match validate_finite_output temporary with
  | Ok _ =>
      if lenN temporary =? lenN output then (GemvWorkspace.mk temporary, temporary, Ok tt)
      else (GemvWorkspace.mk temporary, output, Panic)
  | Err e => (GemvWorkspace.mk temporary, output, Err e)
  | Panic => (GemvWorkspace.mk temporary, output, Panic)
  end.
(** A failure that leaves workspace and output as they are. *)
Definition unpublished (workspace : GemvWorkspace.t) (output : list f32) (m : kresult unit)
    : GemvWorkspace.t * list f32 * kresult unit := (workspace, output, m).

Definition scalar_gemv (matrix : Bf16Matrix.t) (input : FiniteInput.t) (workspace : GemvWorkspace.t)
    (output : list f32) : GemvWorkspace.t * list f32 * kresult unit :=
  if negb (FiniteInput.len input =? Bf16Matrix.columns matrix) then
    unpublished workspace output
      (Err (KernelError.BufferLengthMismatch BufferRole.Input (Bf16Matrix.columns matrix)
              (FiniteInput.len input)))
  else match require_output_lengths (Bf16Matrix.rows matrix) workspace output with
  | Ok _ =>
      match scalar_compute matrix input (GemvWorkspace.temporary_output workspace) with
      | Ok temporary => publish temporary output
      | Err e => unpublished workspace output (Err e)
      | Panic => unpublished workspace output Panic
      end
  | Err e => unpublished workspace output (Err e)
  | Panic => unpublished workspace output Panic
  end.
End lib.

Module PreparedGemv.
Record t : Type := mk { matrix : Bf16Matrix.t; input : FiniteInput.t; backend : BackendKind.t }.

Definition with_capabilities (matrix : Bf16Matrix.t) (input : FiniteInput.t) (request : BackendRequest.t)
    (capabilities : Capabilities.t) : kresult t :=
  _ ← guard_err (negb (FiniteInput.len input =? Bf16Matrix.columns matrix))
        (KernelError.BufferLengthMismatch BufferRole.Input (Bf16Matrix.columns matrix)
           (FiniteInput.len input));
  backend ← select_backend request capabilities;
  Ok (mk matrix input backend).

Section run.
Context `{Platform}.

Definition new (matrix : Bf16Matrix.t) (input : FiniteInput.t) (request : BackendRequest.t) : kresult t :=
  with_capabilities matrix input request Capabilities.detected.

Definition rows (p : t) : N := Bf16Matrix.rows (matrix p).
Definition columns (p : t) : N := Bf16Matrix.columns (matrix p).

(** The scratch after the backend, and its outcome. *)
Definition compute (p : t) (at_ : Addresses.t) (temporary : list f32) : list f32 * kresult unit :=
  match backend p with
  | BackendKind.Scalar =>
      match scalar_compute (matrix p) (input p) temporary with
      | Ok temporary => (temporary, Ok tt)
      | Err e => (temporary, Err e)
      | Panic => (temporary, Panic)
      end
  | BackendKind.Avx2 =>
      match Bf16Matrix.words (matrix p) with
      | Ok words => gemv at_ words (FiniteInput.values (input p)) temporary (rows p) (columns p)
      | Err e => (temporary, Err e)
      | Panic => (temporary, Panic)
      end
  end.

Definition run (p : t) (at_ : Addresses.t) (workspace : GemvWorkspace.t) (output : list f32)
    : GemvWorkspace.t * list f32 * kresult unit :=
  match require_output_lengths (rows p) workspace output with
  | Ok _ =>
      match compute p at_ (GemvWorkspace.temporary_output workspace) with
      | (temporary, Ok _) => publish temporary output
      | (temporary, m) => unpublished (GemvWorkspace.mk temporary) output m
      end
  | m => unpublished workspace output m
  end.
End run.
End PreparedGemv.
