(* ===== verification/KernelBf16.v ===== *)
(** BF16 words: their fields, the exact widening, and rounding to the nearest word
    with ties to even. *)
From Stdlib Require Import SpecFloat.
From stdpp Require Import prelude.
From S2P Require Import Prelude KernelFloat Kernel.
#[local] Open Scope N_scope.
Import F32 F32Facts.

(** ** Fields *)

(** Masking a field of [n] bits at position [k]. *)
Lemma land_field x n k : N.land x (N.shiftl (N.ones n) k) = (x / 2 ^ k) mod 2 ^ n * 2 ^ k.
Proof.
  rewrite <- N.shiftl_mul_pow2, <- N.land_ones, <- N.shiftr_div_pow2.
  apply N.bits_inj. intros i. rewrite N.land_spec. destruct (N.le_gt_cases k i).
  - rewrite !N.shiftl_spec_high', N.land_spec, N.shiftr_spec' by done. by rewrite N.sub_add.
  - rewrite !N.shiftl_spec_low by done. apply andb_false_r.
Qed.

Definition word_exponent (w : N) : N := (w / 2 ^ 7) mod 2 ^ 8.
Definition word_fraction (w : N) : N := w mod 2 ^ 7.

Lemma classify_fields w :
  Bf16.classify w =
    if word_exponent w =? 0 then (if word_fraction w =? 0 then Bf16Class.Zero else Bf16Class.Subnormal)
    else if word_exponent w =? 255 then (if word_fraction w =? 0 then Bf16Class.Infinity else Bf16Class.Nan)
    else Bf16Class.Normal.
Proof.
  unfold Bf16.classify. change 0x7f80 with (N.shiftl (N.ones 8) 7). change 0x7f with (N.ones 7).
  rewrite land_field, N.land_ones. fold (word_exponent w) (word_fraction w).
  change (N.shiftl (N.ones 8) 7) with (255 * 2 ^ 7).
  replace (word_exponent w * 2 ^ 7 =? 0) with (word_exponent w =? 0).
  2: { destruct (N.eqb_spec (word_exponent w) 0) as [-> |]; [done|]. symmetry. apply N.eqb_neq. lia. }
  replace (word_exponent w * 2 ^ 7 =? 255 * 2 ^ 7) with (word_exponent w =? 255); [done|].
  destruct (N.eqb_spec (word_exponent w) 255) as [-> |]; [done|]. symmetry. apply N.eqb_neq. lia.
Qed.

Lemma word_finite_exponent w : Bf16.is_finite w = negb (word_exponent w =? 255).
Proof.
  unfold Bf16.is_finite. rewrite classify_fields. destruct (N.eqb_spec (word_exponent w) 0) as [-> |].
  - by destruct (word_fraction w =? 0).
  - by destruct (word_exponent w =? 255), (word_fraction w =? 0).
Qed.

Lemma to_f32_mul w : Bf16.to_f32 w = w * 2 ^ 16.
Proof. apply N.shiftl_mul_pow2. Qed.
Lemma to_f32_exponent w : exponent (Bf16.to_f32 w) = word_exponent w.
Proof.
  unfold exponent, word_exponent. rewrite to_f32_mul, N.shiftr_div_pow2.
  change (2 ^ 23) with (2 ^ 7 * 2 ^ 16). by rewrite N.Div0.div_mul_cancel_r by done.
Qed.
Lemma to_f32_magnitude w : magnitude (Bf16.to_f32 w) = w mod 2 ^ 15 * 2 ^ 16.
Proof.
  unfold magnitude. rewrite to_f32_mul. change (2 ^ 31) with (2 ^ 15 * 2 ^ 16).
  by rewrite N.Div0.mul_mod_distr_r.
Qed.
Lemma to_f32_sign w : sign (Bf16.to_f32 w) = N.testbit w 15.
Proof. unfold sign. rewrite to_f32_mul. apply (N.mul_pow2_bits_high w 16 31). done. Qed.

(** Widening keeps the class of a word. *)
Lemma to_f32_finite w : is_finite (Bf16.to_f32 w) = Bf16.is_finite w.
Proof. by rewrite word_finite_exponent, <- to_f32_exponent. Qed.

(** ** Sizes *)

Lemma scale_pos e : 0 < scale e.
Proof. unfold scale. apply N.neq_0_lt_0, N.pow_nonzero. done. Qed.
Lemma scale_succ e : e <> 0 -> scale (e + 1) = 2 * scale e.
Proof.
  intros. unfold scale. rewrite !N.max_l, N.add_sub by lia.
  rewrite <- N.pow_succ_r'. f_equal. lia.
Qed.

(** Within a binade, up to its end, sizes are evenly spaced. *)
Lemma size_add n d :
  n mod 2 ^ 23 + d <= 2 ^ 23 -> size (n + d) = size n + d * scale (n / 2 ^ 23).
Proof.
  intros Hd. pose proof (N.div_mod' n (2 ^ 23)) as Hn.
  set (e := n / 2 ^ 23) in *. set (f := n mod 2 ^ 23) in *.
  assert (f < 2 ^ 23) by (by apply N.mod_lt).
  unfold size. fold e f. destruct (decide (f + d = 2 ^ 23)) as [E|E].
  - replace (n + d) with ((e + 1) * 2 ^ 23) by lia. rewrite N.div_mul, N.Div0.mod_mul by done.
    destruct (N.eqb_spec (e + 1) 0); [lia|]. destruct (N.eqb_spec e 0) as [He|He].
    + rewrite He. change (scale (0 + 1)) with 1. change (scale 0) with 1. lia.
    + rewrite scale_succ by done. nia.
  - replace (n + d) with ((f + d) + e * 2 ^ 23) by lia.
    rewrite N.div_add, N.Div0.mod_add, N.div_small, N.mod_small, N.add_0_l by (done || lia). nia.
Qed.

(** The size of the [k]-th word, and the distance to the next. *)
Definition word_size (k : N) : N := size (k * 2 ^ 16).
Definition spacing (k : N) : N := scale (k * 2 ^ 16 / 2 ^ 23).

Lemma block_bound k r : r <= 2 ^ 16 -> k * 2 ^ 16 mod 2 ^ 23 + r <= 2 ^ 23.
Proof.
  intros. change (2 ^ 23) with (2 ^ 7 * 2 ^ 16). rewrite N.Div0.mul_mod_distr_r.
  pose proof (N.mod_lt k (2 ^ 7)). lia.
Qed.
Lemma size_block k r : r <= 2 ^ 16 -> size (k * 2 ^ 16 + r) = word_size k + r * spacing k.
Proof. intros. apply size_add. by apply block_bound. Qed.
Lemma word_size_succ k : word_size (k + 1) = word_size k + 2 ^ 16 * spacing k.
Proof. rewrite <- size_block by done. unfold word_size. f_equal. lia. Qed.
Lemma word_size_lt k l : k < l -> word_size k < word_size l.
Proof.
  revert l. induction l as [|l IH] using N.peano_ind; [lia|]. intros Hkl.
  rewrite <- N.add_1_r, word_size_succ. pose proof (scale_pos (l * 2 ^ 16 / 2 ^ 23)).
  fold (spacing l) in *. destruct (decide (k = l)) as [-> |]; [nia|].
  specialize (IH ltac:(lia)). nia.
Qed.
Lemma word_size_le k l : k <= l -> word_size k <= word_size l.
Proof.
  intros. destruct (decide (k = l)) as [-> |]; [done|]. apply N.lt_le_incl, word_size_lt. lia.
Qed.

(** ** Rounding *)

(** Rounding to a multiple of 2^16: the quotient, one up when the remainder is above
    the half, or on it and the quotient is odd. *)
Definition round_up (q r : N) : bool := (2 ^ 15 <? r) || ((r =? 2 ^ 15) && N.odd q).
Definition rounded (n : N) : N :=
  let q := n / 2 ^ 16 in q + (if round_up q (n mod 2 ^ 16) then 1 else 0).

Definition distance (a b : N) : N := (a - b) + (b - a).

(** The rounded word is a nearest one, and of two nearest ones the even. *)
Lemma rounded_nearest n k :
  distance (size n) (word_size (rounded n)) <= distance (size n) (word_size k)
  /\ (distance (size n) (word_size (rounded n)) = distance (size n) (word_size k) ->
      k <> rounded n -> N.even (rounded n) = true).
Proof.
  pose proof (N.div_mod' n (2 ^ 16)) as Hn. unfold rounded. cbv zeta.
  set (q := n / 2 ^ 16) in *. set (r := n mod 2 ^ 16) in *.
  assert (r < 2 ^ 16) as Hr by (by apply N.mod_lt).
  assert (size n = word_size q + r * spacing q) as Hs.
  { rewrite <- size_block by lia. f_equal. lia. }
  pose proof (word_size_succ q) as Hq. pose proof (scale_pos (q * 2 ^ 16 / 2 ^ 23)) as Hu.
  fold (spacing q) in Hu.
  assert (k = q \/ k = q + 1 \/ word_size k < word_size q \/ word_size (q + 1) < word_size k) as Hk.
  { destruct (decide (k = q)); [tauto|]. destruct (decide (k = q + 1)); [tauto|].
    destruct (N.lt_ge_cases k q); [right; right; left | right; right; right]; apply word_size_lt; lia. }
  assert (r * spacing q + spacing q <= 2 ^ 16 * spacing q) as Hb by nia.
  assert (2 ^ 15 < r -> 2 ^ 15 * spacing q < r * spacing q) as Hup by nia.
  assert (r < 2 ^ 15 -> r * spacing q < 2 ^ 15 * spacing q) as Hdown by nia.
  assert (r = 2 ^ 15 -> r * spacing q = 2 ^ 15 * spacing q) as Htie by (by intros ->).
  unfold distance, round_up. generalize dependent (r * spacing q). intros p Hs Hb Hup Hdown Htie.
  destruct (N.ltb_spec (2 ^ 15) r) as [Hlt|Hle]; simpl.
  - split; [|intros ? ?; exfalso]; destruct Hk as [-> |[-> |[?|?]]]; lia.
  - destruct (N.eqb_spec r (2 ^ 15)) as [Hh|Hh]; simpl.
    + destruct (N.odd q) eqn:Ho; rewrite ?N.add_0_r; (split; [destruct Hk as [-> |[-> |[?|?]]]; lia|]); intros _ _.
      * by rewrite N.add_1_r, N.even_succ.
      * by rewrite <- N.negb_odd, Ho.
    + rewrite N.add_0_r. split; [|intros ? ?; exfalso]; destruct Hk as [-> |[-> |[?|?]]]; lia.
Qed.

(** The sign is the top bit. *)
Lemma sign_magnitude x : x < 2 ^ 32 -> x = (if sign x then 2 ^ 31 else 0) + magnitude x.
Proof.
  intros Hx. unfold sign, magnitude. pose proof (N.div_mod' x (2 ^ 31)) as Hd.
  rewrite N.testbit_eqb. assert (x / 2 ^ 31 < 2) by (apply N.Div0.div_lt_upper_bound; lia).
  rewrite (N.mod_small (x / 2 ^ 31)) by done.
  generalize dependent (x / 2 ^ 31). generalize (x mod 2 ^ 31). intros r q Hd Hq.
  destruct (N.eqb_spec q 1); lia.
Qed.

Lemma rounded_shift n : rounded (2 ^ 31 + n) = 2 ^ 15 + rounded n.
Proof.
  unfold rounded. change (2 ^ 31) with (2 ^ 15 * 2 ^ 16).
  rewrite (N.add_comm (2 ^ 15 * _)), N.div_add, N.Div0.mod_add by done.
  unfold round_up. rewrite N.odd_add. change (N.odd (2 ^ 15)) with false.
  rewrite xorb_false_r. lia.
Qed.
Lemma rounded_mono m n : m <= n -> rounded m <= rounded n.
Proof.
  intros Hmn. unfold rounded. pose proof (N.div_mod' m (2 ^ 16)). pose proof (N.div_mod' n (2 ^ 16)).
  pose proof (N.mod_lt m (2 ^ 16)). pose proof (N.mod_lt n (2 ^ 16)). cbv zeta. unfold round_up.
  generalize dependent (m / 2 ^ 16). generalize dependent (m mod 2 ^ 16).
  generalize dependent (n / 2 ^ 16). generalize dependent (n mod 2 ^ 16). intros r' ? q' ? r ? q ?.
  destruct (decide (q = q')) as [<- |].
  - destruct (N.ltb_spec (2 ^ 15) r), (N.ltb_spec (2 ^ 15) r'), (N.eqb_spec r (2 ^ 15)),
      (N.eqb_spec r' (2 ^ 15)), (N.odd q); simpl; lia.
  - destruct (_ || _), (_ || _); lia.
Qed.

Lemma not_nan_bound x : is_nan x = false -> magnitude x <= 255 * 2 ^ 23.
Proof.
  rewrite magnitude_fields. pose proof (exponent_bound x). pose proof (fraction_bound x).
  unfold is_nan. destruct (N.eqb_spec (exponent x) 255) as [-> |]; [|lia]. intros H'. simpl in H'.
  apply negb_false_iff, N.eqb_eq in H' as ->. lia.
Qed.
Lemma finite_bound x : is_finite x = true <-> magnitude x < 255 * 2 ^ 23.
Proof.
  rewrite magnitude_fields. pose proof (exponent_bound x). pose proof (fraction_bound x).
  unfold is_finite. rewrite negb_true_iff, N.eqb_neq. lia.
Qed.
Lemma word_finite_bound w : Bf16.is_finite w = true <-> w mod 2 ^ 15 < 255 * 2 ^ 7.
Proof. rewrite <- to_f32_finite, finite_bound, to_f32_magnitude. lia. Qed.

(** The bit trick computes the rounding. *)
Lemma rne_rounded x : x < 2 ^ 32 -> is_nan x = false -> Bf16.from_f32_rne x = rounded x.
Proof.
  intros Hx Hn. unfold Bf16.from_f32_rne.
  change 0x7f800000 with (N.shiftl (N.ones 8) 23). change 0x7fffff with (N.ones 23).
  rewrite land_field, N.land_ones. change (N.shiftl (N.ones 8) 23) with (255 * 2 ^ 23).
  rewrite <- N.shiftr_div_pow2. change (2 ^ 8) with 256.
  fold (exponent x) (fraction x).
  replace ((exponent x * 2 ^ 23 =? 255 * 2 ^ 23) && negb (fraction x =? 0)) with (is_nan x).
  2: { unfold is_nan. f_equal. destruct (N.eqb_spec (exponent x) 255) as [-> |]; [done|].
       symmetry. apply N.eqb_neq. lia. }
  rewrite Hn. change 1 with (N.ones 1). rewrite N.land_ones, !N.shiftr_div_pow2.
  change (2 ^ 1) with 2. unfold wrapping_add, rounded, round_up.
  pose proof (N.div_mod' x (2 ^ 16)) as Hd. pose proof (N.mod_lt x (2 ^ 16)) as Hm.
  pose proof (not_nan_bound x Hn). pose proof (sign_magnitude x Hx) as Hs.
  set (q := x / 2 ^ 16) in *. set (r := x mod 2 ^ 16) in *.
  assert (q mod 2 = if N.odd q then 1 else 0) as ->.
  { rewrite <- N.bit0_mod, <- N.bit0_odd. by destruct (N.testbit q 0). }
  rewrite (N.mod_small (x + _)) by (unfold u32_max; destruct (N.odd q), (sign x); lia).
  set (up := if N.odd q then 1 else 0) in *.
  assert ((x + (32767 + up)) / 2 ^ 16 = q + (if (2 ^ 15 <? r) || ((r =? 2 ^ 15) && N.odd q) then 1 else 0)) as ->.
  { symmetry. unfold up.
    destruct (N.ltb_spec (2 ^ 15) r), (N.eqb_spec r (2 ^ 15)), (N.odd q); simpl; try lia;
      [apply (N.div_unique _ _ _ (r - 2 ^ 15)) | apply (N.div_unique _ _ _ (r - 2 ^ 15 - 1))
      | apply (N.div_unique _ _ _ 0) | apply (N.div_unique _ _ _ (2 ^ 16 - 1))
      | apply (N.div_unique _ _ _ (r + 2 ^ 15)) | apply (N.div_unique _ _ _ (r + 2 ^ 15 - 1))]; lia. }
  apply N.mod_small. destruct ((2 ^ 15 <? r) || ((r =? 2 ^ 15) && N.odd q)) eqn:E, (sign x); try lia.
Qed.

(** The least magnitude that rounds to infinity: half way above the largest word. *)
Definition overflow_threshold : N := 0x7f7f8000.

Lemma rounded_overflow n : 255 * 2 ^ 7 <= rounded n <-> overflow_threshold <= n.
Proof.
  split; intros H.
  - destruct (N.le_gt_cases overflow_threshold n) as [|Hlt]; [done|].
    pose proof (rounded_mono n (overflow_threshold - 1)) as Hm.
    change (rounded (overflow_threshold - 1)) with 32639 in Hm. lia.
  - by apply (rounded_mono overflow_threshold n) in H.
Qed.

(** What the checked conversion returns, by magnitude; the word keeps the sign. *)
Lemma try_from_cases x :
  x < 2 ^ 32 ->
  (is_finite x = false /\ Bf16.try_from_f32_rne x = Err (KernelError.NonFiniteConversionInput x))
  \/ (is_finite x = true /\ overflow_threshold <= magnitude x
      /\ Bf16.try_from_f32_rne x = Err (KernelError.ConversionRoundedToInfinity x))
  \/ (is_finite x = true /\ magnitude x < overflow_threshold
      /\ exists w, Bf16.try_from_f32_rne x = Ok w
         /\ w = (if sign x then 2 ^ 15 else 0) + rounded (magnitude x) /\ rounded (magnitude x) < 255 * 2 ^ 7).
Proof.
  intros Hx. unfold Bf16.try_from_f32_rne. destruct (is_finite x) eqn:Hf; [right|by left].
  assert (Bf16.from_f32_rne x = (if sign x then 2 ^ 15 else 0) + rounded (magnitude x)) as Hw.
  { rewrite rne_rounded by (done || by apply is_finite_not_nan).
    rewrite (sign_magnitude x Hx) at 1. destruct (sign x); [apply rounded_shift | done]. }
  assert (rounded (magnitude x) <= 255 * 2 ^ 7) as Hle.
  { apply finite_bound, N.lt_le_incl, rounded_mono in Hf. done. }
  assert (Bf16.is_finite (Bf16.from_f32_rne x) = true <-> rounded (magnitude x) < 255 * 2 ^ 7) as Hfin.
  { rewrite word_finite_bound, Hw. replace (((if sign x then 2 ^ 15 else 0) + rounded (magnitude x)) mod 2 ^ 15)
      with (rounded (magnitude x)); [done|]. destruct (sign x).
    - rewrite N.add_comm, <- (N.mul_1_l (2 ^ 15)), N.Div0.mod_add, N.mod_small; lia.
    - rewrite N.mod_small; lia. }
  pose proof (rounded_overflow (magnitude x)) as Ho.
  destruct (Bf16.is_finite (Bf16.from_f32_rne x)) eqn:Hb; simpl.
  - right. assert (rounded (magnitude x) < 255 * 2 ^ 7) by tauto. split_and!; [done|lia|eauto].
  - left. split_and!; [done| |done]. apply Ho. destruct (N.le_gt_cases (255 * 2 ^ 7) (rounded (magnitude x))) as [|Hc];
      [done|]. apply Hfin in Hc. done.
Qed.

(** The units of a finite word. *)
Lemma word_units w :
  Bf16.is_finite w = true ->
  units (Bf16.to_f32 w) = cond_Zopp (N.testbit w 15) (Z.of_N (word_size (w mod 2 ^ 15))).
Proof.
  intros Hw. rewrite units_size by (by rewrite to_f32_finite). by rewrite to_f32_sign, to_f32_magnitude.
Qed.

Lemma signed_word (s : bool) k : k < 2 ^ 15 ->
  N.testbit ((if s then 2 ^ 15 else 0) + k) 15 = s /\ ((if s then 2 ^ 15 else 0) + k) mod 2 ^ 15 = k.
Proof.
  intros Hk. destruct s; rewrite ?N.add_0_l.
  - rewrite N.add_comm, <- (N.mul_1_l (2 ^ 15)). rewrite N.Div0.mod_add, N.mod_small by done.
    split; [|done]. rewrite N.testbit_eqb, N.div_add, N.div_small by done. done.
  - rewrite N.mod_small by done. split; [|done]. rewrite N.testbit_eqb, N.div_small by done. done.
Qed.

(** The nearest magnitude with the same sign is the nearest word of all. *)
Lemma nearest_signed (s t : bool) (a b c z : N) :
  distance a b <= distance a c -> distance a b <= distance a z -> z = 0 ->
  (Z.abs (cond_Zopp s (Z.of_N a) - cond_Zopp s (Z.of_N b))
   <= Z.abs (cond_Zopp s (Z.of_N a) - cond_Zopp t (Z.of_N c)))%Z.
Proof. unfold distance. intros. destruct s, t; simpl; lia. Qed.

Lemma tie_signed (s t : bool) (a b c : N) :
  distance a b <= a ->
  (Z.abs (cond_Zopp s (Z.of_N a) - cond_Zopp s (Z.of_N b))
   = Z.abs (cond_Zopp s (Z.of_N a) - cond_Zopp t (Z.of_N c)))%Z ->
  cond_Zopp s (Z.of_N b) <> cond_Zopp t (Z.of_N c) ->
  distance a b = distance a c /\ b <> c.
Proof. unfold distance. intros Hd H Hne. destruct s, t; simpl in *; split; lia. Qed.
