(* ===== verification/KernelFacts.v ===== *)
(** Matrices, the rows that both backends compute, and the call of the native
    kernel. *)
From stdpp Require Import prelude.
From S2P Require Import Prelude FormatArtifact KernelFloat Kernel.
#[local] Open Scope N_scope.

(** ** Loops that cannot fail *)

Lemma try_fold_Ok {E A B} (f : B -> A -> result E B) (g : B -> A -> B) l acc :
  (forall acc x, x ∈ l -> f acc x = Ok (g acc x)) -> try_fold f acc l = Ok (foldl g acc l).
Proof.
  revert acc. induction l as [|x l IH]; intros acc H; [done|]. simpl. rewrite H by set_solver. simpl.
  apply IH. set_solver.
Qed.

Lemma slice_Some (l : list N) first last :
  first <= last -> last <= lenN l ->
  slice l first last = Some (take (N.to_nat (last - first)) (drop (N.to_nat first) l)).
Proof.
  intros H1 H2. unfold slice. apply N.leb_le in H1 as ->. by apply N.leb_le in H2 as ->.
Qed.

(** ** The first value that is not finite *)

Definition first_index (bad : N -> bool) (values : list N) : option (N * N) :=
  '(i, v) ← list_find (fun v => bad v = true) values; Some (N.of_nat i, v).

Lemma first_bad_fold (bad : N -> bool) (e : N -> N -> KernelError.t) (values : list N) base :
  try_fold (fun index value => _ ← guard_err (bad value) (e index value); Ok (index + 1)) base values
  = match list_find (fun v => bad v = true) values with
    | Some (i, v) => Err (e (base + N.of_nat i) v)
    | None => Ok (base + lenN values)
    end.
Proof.
  revert base. induction values as [|v values IH]; intros base; simpl.
  { unfold lenN. simpl. f_equal. lia. }
  destruct (bad v) eqn:Hb; simpl.
  - destruct (decide (true = true)); [|done]. f_equal. f_equal. lia.
  - rewrite IH. destruct (list_find _ values) as [[i w]|]; simpl; f_equal; [f_equal|]; unfold lenN; simpl; lia.
Qed.

Lemma first_bad_spec bad e values :
  first_bad bad e values =
    match first_index bad values with Some (i, v) => Err (e i v) | None => Ok tt end.
Proof.
  unfold first_bad, first_index. rewrite first_bad_fold.
  by destruct (list_find _ values) as [[i v]|].
Qed.
Lemma first_index_None bad values : first_index bad values = None <-> Forall (fun v => bad v = false) values.
Proof.
  unfold first_index. destruct (list_find _ values) as [[i v]|] eqn:E; simpl.
  - split; [done|]. intros H. apply list_find_Some in E as (Hi & Hb & _).
    eapply Forall_lookup_1 in H; [|done]. congruence.
  - split; [|done]. intros _. apply list_find_None in E.
    eapply Forall_impl; [done|]. intros x. simpl. by destruct (bad x).
Qed.

(** ** Matrices *)

Definition finite_words (words : list N) : Prop := Forall (fun w => Bf16.is_finite w = true) words.

Record matrix_ok (m : Bf16Matrix.t) : Prop := {
  mo_rows : 0 < Bf16Matrix.rows m;
  mo_columns : 0 < Bf16Matrix.columns m;
  mo_length : lenN (Bf16Matrix.storage m)
    = Bf16Matrix.word_offset m + Bf16Matrix.rows m * Bf16Matrix.columns m;
  mo_representable : lenN (Bf16Matrix.storage m) <= usize_max;
  mo_finite : finite_words (drop (N.to_nat (Bf16Matrix.word_offset m)) (Bf16Matrix.storage m))
}.

(** The logical words, and those of one row. *)
Definition logical (m : Bf16Matrix.t) : list N :=
  drop (N.to_nat (Bf16Matrix.word_offset m)) (Bf16Matrix.storage m).
Definition row_words (m : Bf16Matrix.t) (row : N) : list N :=
  take (N.to_nat (Bf16Matrix.columns m)) (drop (N.to_nat (row * Bf16Matrix.columns m)) (logical m)).

Lemma length_logical m : matrix_ok m -> lenN (logical m) = Bf16Matrix.rows m * Bf16Matrix.columns m.
Proof. intros H. pose proof (mo_length _ H). unfold logical, lenN in *. rewrite length_drop. lia. Qed.
Lemma words_logical m : matrix_ok m -> Bf16Matrix.words m = Ok (logical m).
Proof.
  intros H. unfold Bf16Matrix.words. pose proof (mo_length _ H).
  rewrite slice_Some by lia. simpl. f_equal. unfold logical. apply take_ge.
  rewrite length_drop. unfold lenN. lia.
Qed.
Lemma row_fits m row :
  row < Bf16Matrix.rows m ->
  row * Bf16Matrix.columns m + Bf16Matrix.columns m <= Bf16Matrix.rows m * Bf16Matrix.columns m.
Proof. nia. Qed.
Lemma length_row_words m row :
  matrix_ok m -> row < Bf16Matrix.rows m -> lenN (row_words m row) = Bf16Matrix.columns m.
Proof.
  intros H Hr. pose proof (length_logical m H) as Hl. pose proof (row_fits m row Hr).
  unfold row_words, lenN in *. rewrite length_take, length_drop. lia.
Qed.

Lemma from_storage_spec rows columns storage word_offset :
  post (Bf16Matrix.from_storage rows columns storage word_offset)
    (fun m => matrix_ok m /\ m = Bf16Matrix.mk rows columns storage word_offset) (fun _ => True).
Proof.
  unfold Bf16Matrix.from_storage, validate_dimensions, checked_elements, validate_finite_words.
  apply post_bind, post_guard; [done|]. intros [Hr%N.eqb_neq Hc%N.eqb_neq]%orb_false_iff.
  apply post_bind, post_checked_mul; [intros Hm|done]. apply post_bind, post_checked_add; [intros Ha|done].
  apply post_bind, post_guard; [done|]. intros Hl%negb_false_iff%N.eqb_eq.
  rewrite slice_Some by lia. simpl. rewrite first_bad_spec.
  destruct (first_index _ _) as [[i v]|] eqn:Hf; [done|]. simpl. split; [|done].
  rewrite first_index_None, take_ge in Hf by (rewrite length_drop; unfold lenN in Hl; lia).
  split; simpl; [lia.. |]. eapply Forall_impl; [done|]. intros w. simpl. by intros ->%negb_false_iff.
Qed.
Lemma from_words_spec rows columns words :
  post (Bf16Matrix.from_words rows columns words)
    (fun m => matrix_ok m /\ m = Bf16Matrix.mk rows columns words 0) (fun _ => True).
Proof. apply from_storage_spec. Qed.
Lemma from_le_bytes_spec rows columns bytes :
  post (Bf16Matrix.from_le_bytes rows columns bytes)
    (fun m => matrix_ok m /\ m = Bf16Matrix.mk rows columns (decode_words bytes) 0) (fun _ => True).
Proof.
  unfold Bf16Matrix.from_le_bytes, validate_dimensions, checked_elements.
  apply post_bind, post_guard; [done|]. intros _. apply post_bind, post_checked_mul; [intros _|done].
  apply post_bind, post_checked_mul; [intros _|done]. apply post_bind, post_guard; [done|]. intros _.
  apply from_words_spec.
Qed.

(** Quantizing converts every value, and fails like the first that has no word. *)
Lemma quantize_fold {E} (convert : f32 -> result E N) values acc :
  try_fold (fun words value => word ← convert value; Ok (words ++ [word])) acc values
  = (words ← mapM convert values; Ok (acc ++ words)).
Proof.
  revert acc. induction values as [|x values IH]; intros acc; simpl; [by rewrite app_nil_r|].
  destruct (convert x) as [w|e|]; simpl; [|done..]. rewrite IH.
  destruct (mapM convert values) as [ws|e|]; simpl; [|done..]. by rewrite <- app_assoc.
Qed.
Lemma mapM_safe {E A B} (f : A -> result E B) l : (forall x, f x <> Panic) -> mapM f l <> Panic.
Proof.
  intros Hf. induction l as [|x l IH]; simpl; [done|]. specialize (Hf x).
  destruct (f x); simpl; [|done..]. by destruct (mapM f l).
Qed.
Lemma convert_safe x : Bf16.try_from_f32_rne x <> Panic.
Proof.
  unfold Bf16.try_from_f32_rne. destruct (negb (F32.is_finite x)); [discriminate|].
  by destruct (negb (Bf16.is_finite (Bf16.from_f32_rne x))).
Qed.
Lemma try_from_f32_spec rows columns values :
  post (Bf16Matrix.try_from_f32 rows columns values)
    (fun m => matrix_ok m /\ exists words, mapM Bf16.try_from_f32_rne values = Ok words
       /\ m = Bf16Matrix.mk rows columns words 0) (fun _ => True).
Proof.
  unfold Bf16Matrix.try_from_f32, validate_dimensions, checked_elements.
  apply post_bind, post_guard; [done|]. intros _. apply post_bind, post_checked_mul; [intros _|done].
  apply post_bind, post_guard; [done|]. intros _. rewrite quantize_fold.
  destruct (mapM Bf16.try_from_f32_rne values) as [words|e|] eqn:E; cbn [mbind result_bind app]; [|done|].
  - eapply post_strengthen; [apply from_words_spec|]. intros m [Hm ->]. eauto.
  - by destruct (mapM_safe _ values convert_safe).
Qed.

(** Elements and equality see the logical words only. *)
Lemma get_logical m row column :
  matrix_ok m ->
  Bf16Matrix.get m row column
  = Ok (if (row <? Bf16Matrix.rows m) && (column <? Bf16Matrix.columns m)
        then logical m !! N.to_nat (row * Bf16Matrix.columns m + column) else None).
Proof.
  intros Hm. unfold Bf16Matrix.get. rewrite !N.leb_antisym, <- negb_andb.
  destruct (N.ltb_spec row (Bf16Matrix.rows m)), (N.ltb_spec column (Bf16Matrix.columns m)); simpl; try done.
  rewrite words_logical by done. simpl. pose proof (length_logical m Hm) as Hl. pose proof (row_fits m row).
  destruct (lookup_lt_is_Some_2 (logical m) (N.to_nat (row * Bf16Matrix.columns m + column))) as [w ->]; [|done].
  unfold lenN in Hl. lia.
Qed.
Lemma eq_logical m1 m2 :
  matrix_ok m1 -> matrix_ok m2 ->
  Bf16Matrix.eq m1 m2 = Ok (bool_decide (Bf16Matrix.rows m1 = Bf16Matrix.rows m2
    /\ Bf16Matrix.columns m1 = Bf16Matrix.columns m2 /\ logical m1 = logical m2)).
Proof.
  intros H1 H2. unfold Bf16Matrix.eq. rewrite !words_logical by done.
  destruct (N.eqb_spec (Bf16Matrix.rows m1) (Bf16Matrix.rows m2)),
    (N.eqb_spec (Bf16Matrix.columns m1) (Bf16Matrix.columns m2)); simpl; f_equal;
    try (symmetry; apply bool_decide_eq_false; tauto).
  apply bool_decide_ext. tauto.
Qed.

(** ** One row *)

Section dot.
Context {A : Type} (add : A -> A -> A) (zero : A).

(** The products added in column order, and in eight lanes with a tail. *)
Definition column_sum (products : list A) : A := foldl add zero products.
Definition blocks (products : list A) (n : nat) : list (list A) :=
  (fun k => take 8 (drop (8 * k) products)) <$> seq 0 n.
Definition lane_sum (products : list A) : A :=
  let n := (length products / 8)%nat in
  foldl add (reduce_lanes add zero (foldl (zip_with add) (replicate 8 zero) (blocks products n)))
    (drop (8 * n) products).

Lemma dot_scalar_sum (product : N -> f32 -> A) words input :
  dot_scalar product add zero words input = column_sum (zip_with product words input).
Proof.
  unfold dot_scalar, column_sum. generalize zero. revert input.
  induction words as [|w words IH]; intros [|x input] acc; simpl; auto.
Qed.

Lemma zip_with_block (product : N -> f32 -> A) words input c n :
  zip_with product (take n (drop c words)) (take n (drop c input))
  = take n (drop c (zip_with product words input)).
Proof. by rewrite zip_with_drop, zip_with_take. Qed.

Lemma foldl_step_ext {B} (f g : A -> B -> A) l acc :
  (forall acc x, f acc x = g acc x) -> foldl f acc l = foldl g acc l.
Proof. intros H. revert acc. induction l as [|x l IH]; intros acc; simpl; [done|]. by rewrite H. Qed.
(** The seven conditional additions add a list of at most seven. *)
Lemma foldl_tail (l : list A) acc :
  (length l < 8)%nat ->
  foldl (fun sum i => if i + 1 <=? N.of_nat (length l) then default sum (add sum <$> l !! N.to_nat i) else sum)
    acc (rangeN 7) = foldl add acc l.
Proof. intros. do 8 (destruct l as [|? l]; [done|]). simpl in *. lia. Qed.

(** The vector kernel never reads outside its slices, and returns the lane sum of
    the row's products; words after the row do not matter. *)
Lemma dot_avx2_sum {E} (product : N -> f32 -> A) words input :
  (length input <= length words)%nat ->
  dot_avx2 (E:=E) product add zero words input (lenN input)
  = Ok (lane_sum (zip_with product words input)).
Proof.
  intros Hl. unfold dot_avx2, lane_sum. set (products := zip_with product words input).
  assert (length products = length input) as Hp by (unfold products; rewrite length_zip_with; lia).
  rewrite Hp. set (n := (length input / 8)%nat).
  assert (lenN input - lenN input mod 8 = N.of_nat (8 * n)) as Hv.
  { unfold lenN, n. rewrite Nat2N.inj_mul, Nat2N.inj_div. change (N.of_nat 8) with 8.
    pose proof (N.div_mod' (N.of_nat (length input)) 8) as Hd.
    generalize dependent (N.of_nat (length input) / 8). generalize (N.of_nat (length input) mod 8). lia. }
  assert (8 * n <= length input < 8 * n + 8)%nat as Hn.
  { unfold n. pose proof (Nat.div_mod_eq (length input) 8).
    pose proof (Nat.mod_upper_bound (length input) 8). lia. }
  rewrite Hv. replace (N.of_nat (8 * n) / 8) with (N.of_nat n).
  2: { rewrite Nat2N.inj_mul, N.mul_comm, N.div_mul; done. }
  rewrite (try_fold_Ok _ (fun acc c => zip_with add acc (take 8 (drop (N.to_nat c) products)))).
  2: { intros acc c (k & -> & Hk)%list_elem_of_fmap. apply elem_of_rangeN in Hk. unfold vector_step.
       rewrite !slice_Some by (unfold lenN; lia). simpl. f_equal. f_equal.
       replace (N.to_nat (8 * k + 8 - 8 * k)) with 8%nat by lia. apply zip_with_block. }
  unfold mbind at 1, result_bind at 1.
  rewrite (try_fold_Ok _ (fun sum i => if i + 1 <=? lenN input - N.of_nat (8 * n)
     then default sum (add sum <$> products !! N.to_nat (N.of_nat (8 * n) + i)) else sum)).
  2: { intros acc i Hi. unfold tail_step. destruct (N.leb_spec (i + 1) (lenN input - N.of_nat (8 * n))); [|done].
       unfold lenN in *. unfold products. rewrite lookup_zip_with.
       destruct (lookup_lt_is_Some_2 words (N.to_nat (N.of_nat (8 * n) + i)) ltac:(lia)) as [w ->].
       destruct (lookup_lt_is_Some_2 input (N.to_nat (N.of_nat (8 * n) + i)) ltac:(lia)) as [x ->]. done. }
  f_equal. rewrite <- foldl_tail by (rewrite length_drop; lia).
  replace (foldl _ _ ((fun k => 8 * k) <$> _)) with (foldl (zip_with add) (replicate 8 zero) (blocks products n)).
  2: { rewrite <- (foldl_fmap (zip_with add) _ _ (fun c => take 8 (drop (N.to_nat c) products))).
       f_equal. unfold blocks, rangeN. rewrite Nat2N.id, <- !list_fmap_compose.
       apply list_fmap_ext. intros i k _. simpl. f_equal. f_equal. lia. }
  generalize (reduce_lanes add zero (foldl (zip_with add) (replicate 8 zero) (blocks products n))).
  intros lanes. apply foldl_step_ext. intros sum i. rewrite lookup_drop, length_drop, Hp. unfold lenN.
  replace (N.to_nat (N.of_nat (8 * n) + i)) with (8 * n + N.to_nat i)%nat by lia.
  by replace (i + 1 <=? N.of_nat (length input) - N.of_nat (8 * n))
    with (i + 1 <=? N.of_nat (length input - 8 * n)) by (f_equal; lia).
Qed.
End dot.

(** In exact arithmetic the lanes only change the order of the additions. *)
Section reorder.
Context {A : Type} (add : A -> A -> A) (zero : A).
Context `{!Assoc (=) add, !Comm (=) add, !LeftId (=) zero add}.
Abbreviation column_sum := (column_sum add zero).

Lemma foldl_add a b l : foldl add (add a b) l = add a (foldl add b l).
Proof. revert b. induction l as [|x l IH]; intros b; simpl; [done|]. by rewrite <- (assoc add), IH. Qed.
Lemma foldl_column a l : foldl add a l = add a (column_sum l).
Proof. unfold KernelFacts.column_sum. by rewrite <- foldl_add, (comm add a), (left_id zero add). Qed.
Lemma column_sum_cons x l : column_sum (x :: l) = add x (column_sum l).
Proof. unfold KernelFacts.column_sum. simpl. by rewrite (left_id zero add), foldl_column. Qed.
Lemma column_sum_app l k : column_sum (l ++ k) = add (column_sum l) (column_sum k).
Proof. unfold KernelFacts.column_sum. by rewrite foldl_app, foldl_column. Qed.
Lemma reduce_column l : reduce_lanes add zero l = column_sum l.
Proof. destruct l as [|x l]; [done|]. rewrite column_sum_cons. apply foldl_column. Qed.
Lemma column_sum_zip l k :
  length l = length k -> column_sum (zip_with add l k) = add (column_sum l) (column_sum k).
Proof.
  revert k. induction l as [|x l IH]; intros [|y k]; intros Hl; cbn [zip_with]; try done.
  rewrite !column_sum_cons, IH by (simpl in Hl; lia).
  rewrite <- !(assoc add). f_equal. rewrite !(assoc add). f_equal. apply (comm add).
Qed.
Lemma column_sum_zeros n : column_sum (replicate n zero) = zero.
Proof. induction n; [done|]. cbn [replicate]. by rewrite column_sum_cons, IHn, (left_id zero add). Qed.

Lemma lanes_column acc bs :
  length acc = 8%nat -> Forall (fun b => length b = 8%nat) bs ->
  column_sum (foldl (zip_with add) acc bs) = add (column_sum acc) (column_sum (mjoin bs)).
Proof.
  intros Ha Hb. revert acc Ha. induction Hb as [|b bs Hb _ IH]; intros acc Ha.
  - rewrite (comm add). symmetry. apply (left_id zero add).
  - cbn [foldl]. change (mjoin (b :: bs)) with (b ++ mjoin bs).
    rewrite IH by (rewrite length_zip_with; lia). rewrite column_sum_zip by lia.
    by rewrite column_sum_app, (assoc add).
Qed.
Lemma blocks_join (l : list A) n : mjoin (blocks l n) = take (8 * n) l.
Proof.
  unfold blocks. induction n as [|n IH]; [done|]. rewrite seq_S, fmap_app, join_app, IH. simpl.
  rewrite app_nil_r, take_take_drop. f_equal. lia.
Qed.
Lemma blocks_full (l : list A) n : (8 * n <= length l)%nat -> Forall (fun b => length b = 8%nat) (blocks l n).
Proof.
  intros Hn. apply Forall_fmap, Forall_forall. intros k Hk%elem_of_seq. simpl.
  rewrite length_take, length_drop. lia.
Qed.

Lemma lane_sum_column (products : list A) : lane_sum add zero products = column_sum products.
Proof.
  unfold lane_sum. rewrite foldl_column, reduce_column, lanes_column, column_sum_zeros, (left_id zero add); [|done|].
  - by rewrite blocks_join, <- column_sum_app, take_drop.
  - apply blocks_full. pose proof (Nat.div_mod_eq (length products) 8). lia.
Qed.
End reorder.

(** ** The whole product *)

Section gemv.
Context `{Platform}.

Definition row_products (m : Bf16Matrix.t) (input : list f32) (row : N) : list f32 :=
  zip_with widened_product (row_words m row) input.
Definition reference_row (backend : BackendKind.t) (m : Bf16Matrix.t) (input : list f32) (row : N) : f32 :=
  match backend with
  | BackendKind.Scalar => column_sum Float.add F32.zero (row_products m input row)
  | BackendKind.Avx2 => lane_sum Float.add F32.zero (row_products m input row)
  end.
(** What a backend computes. *)
Definition reference (backend : BackendKind.t) (m : Bf16Matrix.t) (input : list f32) : list f32 :=
  reference_row backend m input <$> rangeN (Bf16Matrix.rows m).

(** Rows of fewer than eight columns do not use the lanes. *)
Lemma lane_sum_short (products : list f32) :
  (length products < 8)%nat -> lane_sum Float.add F32.zero products = column_sum Float.add F32.zero products.
Proof.
  intros Hl. unfold lane_sum. rewrite Nat.div_small by done. reflexivity.
Qed.

Lemma scalar_compute_reference m input temporary :
  matrix_ok m -> lenN temporary = Bf16Matrix.rows m ->
  scalar_compute m (FiniteInput.mk input) temporary = Ok (reference BackendKind.Scalar m input).
Proof.
  intros Hm Ht. unfold scalar_compute, reference. rewrite Ht. apply mapM_Ok.
  intros row Hrow%elem_of_rangeN. unfold scalar_compute_row.
  pose proof (row_fits m row Hrow). pose proof (length_logical m Hm). pose proof (mo_length _ Hm).
  pose proof (mo_representable _ Hm). unfold add_or_panic, checked_mul, checked_add.
  destruct (N.leb_spec (row * Bf16Matrix.columns m) usize_max); [|lia]. simpl.
  destruct (N.leb_spec (row * Bf16Matrix.columns m + Bf16Matrix.columns m) usize_max); [|lia]. simpl.
  rewrite words_logical by done. simpl. rewrite slice_Some by lia. simpl. f_equal.
  unfold scalar_row. rewrite dot_scalar_sum, N.add_comm, N.add_sub. done.
Qed.
(** *** The native kernel *)

Definition native_row (words : list N) (input : list f32) (columns row : N) : f32 :=
  lane_sum Float.add F32.zero
    (zip_with widened_product (take (N.to_nat columns) (drop (N.to_nat (row * columns)) words)) input).

Lemma native_fold (f : N -> f32) (step : list f32 -> N -> kresult (list f32)) output n :
  (n <= length output)%nat ->
  (forall out row, length out = length output -> row < N.of_nat n -> step out row = Ok (<[N.to_nat row := f row]> out)) ->
  try_fold step output (rangeN (N.of_nat n)) = Ok ((f <$> rangeN (N.of_nat n)) ++ drop n output).
Proof.
  intros Hn Hstep. unfold rangeN. rewrite Nat2N.id. induction n as [|n IH]; [done|].
  rewrite seq_S, fmap_app, try_fold_app, IH; [|lia|intros; apply Hstep; lia]. simpl.
  rewrite Hstep; [|rewrite length_app, length_fmap, length_fmap, length_seq, length_drop; lia|lia]. simpl.
  f_equal. rewrite fmap_app, <- app_assoc. rewrite Nat2N.id, insert_app_r_alt by
    (rewrite !length_fmap, length_seq; lia). f_equal. rewrite !length_fmap, length_seq, Nat.sub_diag.
  destruct (drop n output) as [|x l] eqn:E.
  - assert (length (drop n output) = 0%nat) as Hd by (by rewrite E). rewrite length_drop in Hd. lia.
  - simpl. f_equal. replace (S n) with (n + 1)%nat by lia. by rewrite <- drop_drop, E.
Qed.

Lemma native_kernel words input output rows columns :
  lenN words = rows * columns -> rows * columns <= usize_max -> lenN input = columns ->
  lenN output = rows ->
  runnel_bf16_gemv_avx2 words input output rows columns
  = Ok (native_row words input columns <$> rangeN rows).
Proof.
  intros Hw Hmax Hi Ho. unfold runnel_bf16_gemv_avx2. unfold lenN in Ho. rewrite <- Ho.
  rewrite (native_fold (native_row words input columns)); [by rewrite drop_ge, app_nil_r | done |].
  intros out row Hout Hrow. assert (row * columns + columns <= rows * columns) by nia.
  unfold wrapping_mul. rewrite N.mod_small by (unfold usize_max in *; lia).
  unfold avx2_row. rewrite <- Hi at 2. unfold lenN in Hw, Hi.
  rewrite dot_avx2_sum by (rewrite length_drop; lia). simpl.
  destruct (N.ltb_spec row (lenN out)); [|unfold lenN in *; lia]. do 2 f_equal. unfold native_row. f_equal.
  symmetry. rewrite <- (take_ge input (N.to_nat columns)) at 1 by lia.
  rewrite <- zip_with_take. apply take_ge. rewrite length_zip_with. lia.
Qed.
(** A slice of [bytes] bytes at an address with an alignment. *)
Record placed (address alignment bytes : N) : Prop := {
  pl_nonnull : address <> 0;
  pl_aligned : address mod alignment = 0;
  pl_fits : address + bytes <= usize_max
}.
Definition disjoint_ranges (a1 n1 a2 n2 : N) : Prop := a2 + n2 <= a1 \/ a1 + n1 <= a2 \/ n1 = 0 \/ n2 = 0.

(** What the checks of [gemv] establish. *)
Record accepted (at_ : Addresses.t) (words : list N) (input output : list f32) (rows columns : N) : Prop := {
  ac_rows : rows <> 0;
  ac_columns : columns <> 0;
  ac_words : lenN words = rows * columns;
  ac_input : lenN input = columns;
  ac_output : lenN output = rows;
  ac_weight_bytes : rows * columns * 2 <= usize_max;
  ac_input_bytes : columns * 4 <= usize_max;
  ac_output_bytes : rows * 4 <= usize_max;
  ac_weights_at : placed (Addresses.weights at_) 2 (rows * columns * 2);
  ac_input_at : placed (Addresses.input at_) 4 (columns * 4);
  ac_output_at : placed (Addresses.output at_) 4 (rows * 4);
  ac_apart : disjoint_ranges (Addresses.weights at_) (rows * columns * 2) (Addresses.input at_) (columns * 4);
  ac_apart_output : disjoint_ranges (Addresses.weights at_) (rows * columns * 2) (Addresses.output at_) (rows * 4);
  ac_apart_input : disjoint_ranges (Addresses.input at_) (columns * 4) (Addresses.output at_) (rows * 4)
}.

(** Errors that do not come from the native kernel. *)
Definition not_native (e : KernelError.t) : Prop :=
  match e with KernelError.NativeFailure _ | KernelError.NativeContractViolation _ => False | _ => True end.

Lemma post_require_bytes n size expected buffer Q :
  (n * size = expected -> n * size <= usize_max -> Q tt) ->
  post (require_bytes n size expected buffer) Q not_native.
Proof.
  intros HQ. apply post_bind, post_checked_mul; [intros ?|done]. apply post_guard; [done|].
  intros ?%negb_false_iff%N.eqb_eq. auto.
Qed.
Lemma post_require_pointer a align buffer Q :
  (a <> 0 -> a mod align = 0 -> Q tt) -> post (require_pointer a align buffer) Q not_native.
Proof.
  intros HQ. apply post_bind, post_guard; [done|]. intros ?%N.eqb_neq. apply post_guard; [done|].
  intros ?%negb_false_iff%N.eqb_eq. auto.
Qed.
Lemma post_checked_range a n buffer Q :
  (a + n <= usize_max -> Q (a, a + n)) -> post (checked_range a n buffer) Q not_native.
Proof. intros HQ. by apply post_bind, post_checked_add. Qed.
Lemma post_require_disjoint a1 n1 a2 n2 r1 r2 Q :
  (disjoint_ranges a1 n1 a2 n2 -> Q tt) ->
  post (require_disjoint (a1, a1 + n1) (a2, a2 + n2) r1 r2) Q not_native.
Proof.
  intros HQ. apply post_guard; [done|]. simpl. intros Hd. apply HQ. unfold disjoint_ranges.
  destruct (N.ltb_spec a1 (a2 + n2)), (N.ltb_spec a2 (a1 + n1)); try done; lia.
Qed.

Lemma gemv_checks_accepted at_ words input output rows columns :
  post (gemv_checks at_ words input output rows columns)
    (fun b => b = (rows * columns * 2, columns * 4, rows * 4) /\ accepted at_ words input output rows columns)
    not_native.
Proof.
  unfold gemv_checks, checked_bytes.
  apply post_bind, post_guard; [done|]. intros [Hr%N.eqb_neq Hc%N.eqb_neq]%orb_false_iff.
  do 4 (apply post_bind, post_checked_mul; [intros ?|done]).
  apply post_bind, post_require_bytes. intros ? _.
  do 3 (apply post_bind, post_require_pointer; intros ? ?).
  do 2 (apply post_bind, post_require_bytes; intros ? _).
  do 3 (apply post_bind, post_checked_range; intros ?).
  do 3 (apply post_bind, post_require_disjoint; intros ?).
  split; [done|]. split; try done; lia.
Qed.

Lemma checked_multiply_fits a b : a * b <= usize_max -> runnel_checked_multiply a b = Some (a * b).
Proof.
  intros Hab. unfold runnel_checked_multiply. destruct (N.eqb_spec a 0) as [-> |Ha]; [done|]. simpl.
  destruct (N.ltb_spec (usize_max / a) b) as [Hlt|]; [|done].
  apply N.div_le_lower_bound in Hab; lia.
Qed.
Lemma native_range_fits a n : a + n <= usize_max -> runnel_checked_range a n = Some (a, a + n).
Proof.
  intros Han. unfold runnel_checked_range. destruct (N.ltb_spec usize_max n), (N.ltb_spec (usize_max - n) a);
    simpl; try done; lia.
Qed.
Lemma native_apart a1 n1 a2 n2 :
  n1 <> 0 -> n2 <> 0 -> disjoint_ranges a1 n1 a2 n2 -> runnel_ranges_overlap (a1, a1 + n1) (a2, a2 + n2) = false.
Proof.
  unfold disjoint_ranges, runnel_ranges_overlap. simpl. intros.
  destruct (N.ltb_spec a1 (a2 + n2)), (N.ltb_spec a2 (a1 + n1)); simpl; try done; lia.
Qed.

(** The native entry point accepts all that the checks of [gemv] let through, and
    computes every row. *)
Lemma native_accepts at_ words input output rows columns :
  accepted at_ words input output rows columns ->
  runnel_bf16_gemv_avx2_v1 at_ words (rows * columns * 2) input (columns * 4) output (rows * 4) rows columns
  = if builtin_cpu_supports_avx2
    then Ok (NativeStatus.Success, native_row words input columns <$> rangeN rows)
    else Ok (NativeStatus.UnavailableIsa, output).
Proof.
  intros [Hr Hc Hw Hi Ho Hwb Hib Hob [Ha1 Hb1 Hc1] [Ha2 Hb2 Hc2] [Ha3 Hb3 Hc3] H12 H13 H23].
  unfold runnel_bf16_gemv_avx2_v1. apply N.eqb_neq in Ha1 as ->, Ha2 as ->, Ha3 as ->. simpl.
  apply N.eqb_neq in Hr as Hr', Hc as Hc'. rewrite Hr', Hc'. simpl.
  rewrite !checked_multiply_fits by (done || lia). simpl. rewrite checked_multiply_fits by done. simpl.
  rewrite !N.eqb_refl, Hb1, Hb2, Hb3. simpl. rewrite !native_range_fits by done.
  rewrite !native_apart by (done || nia). simpl. destruct builtin_cpu_supports_avx2; simpl; [|done].
  by rewrite native_kernel by (done || lia).
Qed.
(** Where live Rust slices are: at non-null aligned addresses, within the address
    space, apart from each other. *)
Record live (at_ : Addresses.t) (rows columns : N) : Prop := {
  li_weights : placed (Addresses.weights at_) 2 (rows * columns * 2);
  li_input : placed (Addresses.input at_) 4 (columns * 4);
  li_output : placed (Addresses.output at_) 4 (rows * 4);
  li_apart : disjoint_ranges (Addresses.weights at_) (rows * columns * 2) (Addresses.input at_) (columns * 4);
  li_apart_output : disjoint_ranges (Addresses.weights at_) (rows * columns * 2) (Addresses.output at_) (rows * 4);
  li_apart_input : disjoint_ranges (Addresses.input at_) (columns * 4) (Addresses.output at_) (rows * 4)
}.
Lemma live_accepted at_ m input output :
  matrix_ok m -> live at_ (Bf16Matrix.rows m) (Bf16Matrix.columns m) ->
  lenN input = Bf16Matrix.columns m -> lenN output = Bf16Matrix.rows m ->
  accepted at_ (logical m) input output (Bf16Matrix.rows m) (Bf16Matrix.columns m).
Proof.
  intros Hm [H1 H2 H3 H12 H13 H23] Hi Ho. pose proof (mo_rows _ Hm). pose proof (mo_columns _ Hm).
  pose proof (pl_fits _ _ _ H1). pose proof (pl_fits _ _ _ H2). pose proof (pl_fits _ _ _ H3).
  split; try done; try lia. by apply length_logical.
Qed.

Lemma checked_bytes_fits n size buffer : n * size <= usize_max -> checked_bytes n size buffer = Ok (n * size).
Proof. intros Hn. unfold checked_bytes, checked_mul. by apply N.leb_le in Hn as ->. Qed.
Lemma require_bytes_fits n size expected buffer :
  n * size = expected -> n * size <= usize_max -> require_bytes n size expected buffer = Ok tt.
Proof. intros <- Hn. unfold require_bytes. rewrite checked_bytes_fits by done. simpl. by rewrite N.eqb_refl. Qed.
Lemma require_pointer_placed a align n buffer : placed a align n -> require_pointer a align buffer = Ok tt.
Proof. intros [Ha Hal _]. unfold require_pointer. apply N.eqb_neq in Ha as ->. by rewrite Hal. Qed.
Lemma checked_range_placed a align n buffer : placed a align n -> checked_range a n buffer = Ok (a, a + n).
Proof. intros [_ _ Hn]. unfold checked_range, checked_add. by apply N.leb_le in Hn as ->. Qed.
Lemma require_disjoint_apart a1 n1 a2 n2 r1 r2 :
  n1 <> 0 -> n2 <> 0 -> disjoint_ranges a1 n1 a2 n2 ->
  require_disjoint (a1, a1 + n1) (a2, a2 + n2) r1 r2 = Ok tt.
Proof.
  intros H1 H2 H3. pose proof (native_apart a1 n1 a2 n2 H1 H2 H3) as E. unfold runnel_ranges_overlap in E.
  unfold require_disjoint. by rewrite E.
Qed.

Lemma accepted_checks at_ words input output rows columns :
  accepted at_ words input output rows columns ->
  gemv_checks at_ words input output rows columns = Ok (rows * columns * 2, columns * 4, rows * 4).
Proof.
  intros [Hr Hc Hw Hi Ho Hwb Hib Hob H1 H2 H3 H12 H13 H23]. unfold gemv_checks.
  apply N.eqb_neq in Hr as Hr', Hc as Hc'. rewrite Hr', Hc'. simpl.
  unfold checked_mul. destruct (N.leb_spec (rows * columns) usize_max); [|lia]. simpl.
  rewrite !checked_bytes_fits by done. simpl. rewrite Hw, Hi, Ho.
  rewrite !require_bytes_fits by done. simpl.
  erewrite !require_pointer_placed by done. simpl.
  erewrite !checked_range_placed by done. simpl. rewrite !require_disjoint_apart by (done || nia). done.
Qed.

(** *** The call *)

Definition native_available : Prop := native_avx2_compiled = true /\ builtin_cpu_supports_avx2 = true.

Lemma gemv_cases at_ words input output rows columns :
  (exists e, gemv at_ words input output rows columns = (output, Err e)
             /\ (not_native e \/ (e = KernelError.NativeFailure NativeStatus.UnavailableIsa
                                 /\ builtin_cpu_supports_avx2 = false)))
  \/ (accepted at_ words input output rows columns
      /\ gemv at_ words input output rows columns = (native_row words input columns <$> rangeN rows, Ok tt)).
Proof.
  unfold gemv. pose proof (gemv_checks_accepted at_ words input output rows columns) as Hp.
  destruct (gemv_checks _ _ _ _ _ _) as [b|e|]; [|by left; eexists; split; [|left]|done]. destruct Hp as [-> Hacc].
  unfold call_native. destruct native_avx2_compiled; [|by left; eexists; split; [|left]].
  rewrite native_accepts by done. destruct builtin_cpu_supports_avx2; [by right | left]. eexists. split; [done|]. by right.
Qed.
Lemma gemv_accepted at_ words input output rows columns :
  accepted at_ words input output rows columns -> native_available ->
  gemv at_ words input output rows columns = (native_row words input columns <$> rangeN rows, Ok tt).
Proof.
  intros Hacc [Hc Hb]. unfold gemv. rewrite accepted_checks by done. unfold call_native. rewrite Hc.
  rewrite native_accepts by done. by rewrite Hb.
Qed.

(** ** Prepared products *)

Definition prepared_ok (p : PreparedGemv.t) : Prop :=
  matrix_ok (PreparedGemv.matrix p)
  /\ lenN (FiniteInput.values (PreparedGemv.input p)) = Bf16Matrix.columns (PreparedGemv.matrix p).
Definition product_of (p : PreparedGemv.t) : list f32 :=
  reference (PreparedGemv.backend p) (PreparedGemv.matrix p) (FiniteInput.values (PreparedGemv.input p)).

Lemma length_product p : lenN (product_of p) = PreparedGemv.rows p.
Proof. unfold product_of, reference, lenN. rewrite length_fmap, length_rangeN. by rewrite N2Nat.id. Qed.

Lemma compute_cases p at_ temporary :
  prepared_ok p -> lenN temporary = PreparedGemv.rows p ->
  PreparedGemv.compute p at_ temporary = (product_of p, Ok tt)
  \/ (PreparedGemv.backend p = BackendKind.Avx2
      /\ exists e, PreparedGemv.compute p at_ temporary = (temporary, Err e)).
Proof.
  intros [Hm Hi] Ht. unfold PreparedGemv.compute, product_of. destruct p as [m [input] backend]; simpl in *.
  destruct backend.
  - rewrite scalar_compute_reference by done. by left.
  - rewrite words_logical by done.
    edestruct gemv_cases as [(e & He & _)|[_ He]]; [right; eauto | left]. exact He.
Qed.
Lemma compute_live p at_ temporary :
  prepared_ok p -> lenN temporary = PreparedGemv.rows p ->
  (PreparedGemv.backend p = BackendKind.Avx2 ->
   live at_ (PreparedGemv.rows p) (PreparedGemv.columns p) /\ native_available) ->
  PreparedGemv.compute p at_ temporary = (product_of p, Ok tt).
Proof.
  intros Hp Ht Hl. destruct (compute_cases p at_ temporary Hp Ht) as [|[Hb _]]; [done|].
  destruct (Hl Hb) as [Hlive Hnat]. destruct Hp as [Hm Hi]. destruct p as [m [input] ?]; simpl in *; subst.
  unfold PreparedGemv.compute, product_of. simpl. rewrite words_logical by done.
  by apply gemv_accepted; [apply live_accepted|].
Qed.

Definition all_finite (values : list f32) : Prop := Forall (fun x => F32.is_finite x = true) values.
Lemma first_nonfinite_None values : first_index nonfinite values = None <-> all_finite values.
Proof.
  rewrite first_index_None. apply Forall_iff. intros x. apply negb_false_iff.
Qed.

Lemma publish_product temporary output :
  lenN temporary = lenN output ->
  publish temporary output =
    match first_index nonfinite temporary with
    | Some (i, bits) => (GemvWorkspace.mk temporary, output, Err (KernelError.NonFiniteOutput i bits))
    | None => (GemvWorkspace.mk temporary, temporary, Ok tt)
    end.
Proof.
  intros Hl. unfold publish, validate_finite_output. rewrite first_bad_spec.
  destruct (first_index nonfinite temporary) as [[i v]|]; [done|]. by rewrite Hl, N.eqb_refl.
Qed.
Lemma output_lengths_ok rows workspace output :
  GemvWorkspace.rows workspace = rows -> lenN output = rows ->
  require_output_lengths rows workspace output = Ok tt.
Proof. intros H1 H2. unfold require_output_lengths. by rewrite H1, H2, N.eqb_refl. Qed.

Lemma prepare_inv matrix input request capabilities p :
  PreparedGemv.with_capabilities matrix input request capabilities = Ok p ->
  lenN (FiniteInput.values input) = Bf16Matrix.columns matrix
  /\ select_backend request capabilities = Ok (PreparedGemv.backend p)
  /\ p = PreparedGemv.mk matrix input (PreparedGemv.backend p).
Proof.
  unfold PreparedGemv.with_capabilities. intros Hp. ok_step Hp. ok_step Hp. simplify_eq. simpl.
  apply negb_false_iff, N.eqb_eq in Hx. done.
Qed.

Definition runnable (p : PreparedGemv.t) (at_ : Addresses.t) (workspace : GemvWorkspace.t) (output : list f32) : Prop :=
  GemvWorkspace.rows workspace = PreparedGemv.rows p /\ lenN output = PreparedGemv.rows p
  /\ (PreparedGemv.backend p = BackendKind.Avx2 ->
      live at_ (PreparedGemv.rows p) (PreparedGemv.columns p) /\ native_available).

Lemma run_runnable p at_ workspace output :
  prepared_ok p -> runnable p at_ workspace output ->
  PreparedGemv.run p at_ workspace output = publish (product_of p) output.
Proof.
  intros Hp (Hw & Ho & Hl). unfold PreparedGemv.run. rewrite output_lengths_ok by done.
  by rewrite compute_live.
Qed.
Lemma run_cases p at_ workspace output :
  prepared_ok p ->
  (exists workspace' e, PreparedGemv.run p at_ workspace output = (workspace', output, Err e)
                        /\ ~ runnable p at_ workspace output)
  \/ (lenN output = PreparedGemv.rows p
      /\ PreparedGemv.run p at_ workspace output = publish (product_of p) output).
Proof.
  intros Hp. unfold PreparedGemv.run.
  destruct (require_output_lengths (PreparedGemv.rows p) workspace output) as [u|e|] eqn:Hr.
  2: { left. do 2 eexists. split; [done|]. intros (H1 & H2 & _). by rewrite output_lengths_ok in Hr. }
  2: { unfold require_output_lengths in Hr. by destruct (negb _), (negb _). }
  unfold require_output_lengths in Hr. ok_step Hr. apply guard_ok_inv, negb_false_iff, N.eqb_eq in Hr as Ho.
  apply negb_false_iff, N.eqb_eq in Hx.
  destruct (compute_cases p at_ (GemvWorkspace.temporary_output workspace) Hp Hx) as [-> |[Hb [e He]]]; [by right|].
  rewrite He. left. do 2 eexists. split; [done|]. intros (_ & _ & Hl).
  by rewrite compute_live in He.
Qed.

Lemma run_scalar matrix input at_ workspace output :
  lenN (FiniteInput.values input) = Bf16Matrix.columns matrix ->
  PreparedGemv.run (PreparedGemv.mk matrix input BackendKind.Scalar) at_ workspace output
  = scalar_gemv matrix input workspace output.
Proof.
  intros Hi. unfold PreparedGemv.run, scalar_gemv, FiniteInput.len. rewrite Hi, N.eqb_refl. simpl.
  unfold PreparedGemv.rows. simpl. destruct (require_output_lengths _ _ _); [|done..].
  unfold PreparedGemv.compute. simpl. destruct workspace as [t]. simpl.
  by destruct (scalar_compute matrix input t).
Qed.
End gemv.
