(* ===== verification/KernelContract.v ===== *)
(** The theorems of the numeric kernels. *)
From Stdlib Require Import SpecFloat.
From stdpp Require Import prelude.
From S2P Require Import Prelude FormatArtifact KernelFloat Kernel KernelBf16 KernelFacts.
#[local] Open Scope N_scope.
Import F32Facts.

(** A machine with AVX2 whose exponential is constantly one. *)
Definition demo_platform : Platform :=
  Build_Platform (fun _ _ => 0x7fc00000) (fun _ => F32.one) (fun _ _ => true) true true true.

(** ** Conversion *)

Lemma even_signed (s : bool) k : N.even ((if s then 2 ^ 15 else 0) + k) = N.even k.
Proof. rewrite N.even_add. by destruct s, (N.even k). Qed.

Lemma converted_nearest x w w' :
  x < 2 ^ 32 -> Bf16.try_from_f32_rne x = Ok w -> Bf16.is_finite w' = true ->
  (Z.abs (units x - units (Bf16.to_f32 w)) <= Z.abs (units x - units (Bf16.to_f32 w')))%Z
  /\ ((Z.abs (units x - units (Bf16.to_f32 w)) = Z.abs (units x - units (Bf16.to_f32 w')))%Z ->
      units (Bf16.to_f32 w) <> units (Bf16.to_f32 w') -> N.even w = true).
Proof.
  intros Hx Hw Hw'. destruct (try_from_cases x Hx) as [[_ E]|[(_ & _ & E)|(Hf & _ & v & E & -> & Hv)]];
    rewrite E in Hw; simplify_eq.
  destruct (signed_word (F32.sign x) (rounded (F32.magnitude x))) as [Hs Hm]; [lia|].
  rewrite (units_size x Hf), !word_units by (done || by rewrite word_finite_bound, Hm).
  rewrite Hs, Hm, even_signed. destruct (rounded_nearest (F32.magnitude x) (w' mod 2 ^ 15)) as [Hn Ht].
  destruct (rounded_nearest (F32.magnitude x) 0) as [H0 _]. split.
  - by eapply nearest_signed.
  - intros Hd Hne. change (word_size 0) with 0 in H0. apply tie_signed in Hd as [Hd Hne']; [|unfold distance in *; lia|done].
    apply Ht; [done|]. intros E'. by rewrite E' in Hne'.
Qed.

Lemma widen_convert w : w < 2 ^ 16 -> Bf16.is_finite w = true -> Bf16.try_from_f32_rne (Bf16.to_f32 w) = Ok w.
Proof.
  intros Hw Hf. assert (Bf16.to_f32 w < 2 ^ 32) as Hx by (rewrite to_f32_mul; lia).
  assert (Bf16.from_f32_rne (Bf16.to_f32 w) = w) as Hr.
  { rewrite rne_rounded; [|done|apply is_finite_not_nan; by rewrite to_f32_finite].
    rewrite to_f32_mul. unfold rounded. rewrite N.div_mul, N.Div0.mod_mul by done. apply N.add_0_r. }
  unfold Bf16.try_from_f32_rne. by rewrite to_f32_finite, Hr, Hf.
Qed.

(** C22: The checked conversion of a 32-bit float to BF16 never panics.  It rejects
    exactly the values that are not finite, and the finite ones at least half way
    above the largest BF16 number; otherwise it returns a finite word whose value is
    as near as that of any finite word, and which is even when a word of another
    value is as near.  A finite word, widened, converts back to itself. *)
Theorem bf16_rounds_to_nearest (x : f32) :
  x < 2 ^ 32 ->
  match Bf16.try_from_f32_rne x with
  | Ok w =>
      Bf16.is_finite w = true /\ F32.magnitude x < overflow_threshold
      /\ forall w', Bf16.is_finite w' = true ->
         (Z.abs (units x - units (Bf16.to_f32 w)) <= Z.abs (units x - units (Bf16.to_f32 w')))%Z
         /\ ((Z.abs (units x - units (Bf16.to_f32 w)) = Z.abs (units x - units (Bf16.to_f32 w')))%Z ->
             units (Bf16.to_f32 w) <> units (Bf16.to_f32 w') -> N.even w = true)
  | Err (KernelError.NonFiniteConversionInput bits) => bits = x /\ F32.is_finite x = false
  | Err (KernelError.ConversionRoundedToInfinity bits) =>
      bits = x /\ F32.is_finite x = true /\ overflow_threshold <= F32.magnitude x
  | _ => False
  end
  /\ forall w, w < 2 ^ 16 -> Bf16.is_finite w = true -> Bf16.try_from_f32_rne (Bf16.to_f32 w) = Ok w.
Proof.
  intros Hx. split; [|apply widen_convert].
  destruct (try_from_cases x Hx) as [[? ->]|[(? & ? & ->)|(Hf & Hm & w & E & Hw & Hb)]]; [done..|].
  rewrite E. split_and!; [|done|intros w' Hw'; by apply converted_nearest].
  destruct (signed_word (F32.sign x) (rounded (F32.magnitude x))) as [_ Hr]; [lia|].
  by rewrite word_finite_bound, Hw, Hr.
Qed.

(** 1 + 3/256 is half way between two words: the even one is returned. *)
Lemma bf16_rounds_to_nearest_witness :
  Bf16.try_from_f32_rne 0x3f818000 = Ok 0x3f82
  /\ forall w', Bf16.is_finite w' = true ->
     (Z.abs (units 0x3f818000 - units (Bf16.to_f32 0x3f82))
      <= Z.abs (units 0x3f818000 - units (Bf16.to_f32 w')))%Z.
Proof.
  split; [vm_compute; reflexivity|]. intros w' Hw'.
  pose proof (bf16_rounds_to_nearest 0x3f818000 ltac:(reflexivity)) as [H _].
  exact (proj1 (proj2 (proj2 H) w' Hw')).
Defined.

(** ** Matrix-vector products *)

(** C12: A product prepared from a valid matrix never panics, whichever backend was
    selected and wherever the slices are.  Unless it succeeds the output is left as
    it was; when it succeeds the output is the backend's sum of every row, all of it
    finite, and the scratch holds the same.  With buffers of the right length (and, for
    the native backend, live slices on a machine that has it) it succeeds exactly when
    every row is finite, and otherwise reports the first that is not.  The scalar
    backend does what the independent reference routine does. *)
Theorem gemv_contract `{Platform} rows columns storage word_offset matrix input request capabilities
    p at_ workspace output workspace' output' r :
  Bf16Matrix.from_storage rows columns storage word_offset = Ok matrix ->
  PreparedGemv.with_capabilities matrix input request capabilities = Ok p ->
  PreparedGemv.run p at_ workspace output = (workspace', output', r) ->
  r <> Panic
  /\ (r <> Ok tt -> output' = output)
  /\ (r = Ok tt -> output' = product_of p /\ GemvWorkspace.temporary_output workspace' = output'
                   /\ all_finite output')
  /\ (GemvWorkspace.rows workspace = rows -> lenN output = rows ->
      (PreparedGemv.backend p = BackendKind.Avx2 -> live at_ rows columns /\ native_available) ->
      r = match first_index nonfinite (product_of p) with
          | Some (i, bits) => Err (KernelError.NonFiniteOutput i bits)
          | None => Ok tt
          end)
  /\ (PreparedGemv.backend p = BackendKind.Scalar ->
      scalar_gemv matrix input workspace output = (workspace', output', r)).
Proof.
  intros Hm Hp Hrun.
  pose proof (post_ok_inv _ _ _ _ (from_storage_spec rows columns storage word_offset) Hm) as [Hok ->].
  apply prepare_inv in Hp as (Hi & _ & Hp). destruct p as [m i backend].
  injection Hp as -> ->. simpl PreparedGemv.backend. set (p := PreparedGemv.mk _ input backend) in *.
  assert (prepared_ok p) as Hpok by done.
  split_and!.
  5: { intros ->. rewrite <- Hrun. symmetry. by apply run_scalar. }
  4: { intros Hw Ho Hl. assert (runnable p at_ workspace output) as Hr by done.
       rewrite run_runnable, publish_product in Hrun by (done || by rewrite length_product).
       destruct (first_index nonfinite (product_of p)) as [[i v]|]; by simplify_eq. }
  all: destruct (run_cases p at_ workspace output Hpok) as [(w & e & E & _)|[Ho E]]; rewrite E in Hrun;
    [by simplify_eq|]; rewrite publish_product in Hrun by (by rewrite length_product).
  all: destruct (first_index nonfinite (product_of p)) as [[i v]|] eqn:Hf; simplify_eq; try done.
  intros _. split_and!; [done|done|]. by apply first_nonfinite_None.
Qed.

Definition demo_row : Bf16Matrix.t := Bf16Matrix.mk 1 2 [0x3f80; 0x4000] 0.
Definition demo_vector : FiniteInput.t := FiniteInput.mk [0x40400000; 0x40000000].
Definition demo_addresses : Addresses.t := Addresses.mk 4096 8192 12288.

(** 1 * 3 + 2 * 2, on the native backend. *)
Lemma gemv_contract_witness :
  exists workspace',
    PreparedGemv.run (H:=demo_platform) (PreparedGemv.mk demo_row demo_vector BackendKind.Avx2) demo_addresses
      (GemvWorkspace.new 1) [0] = (workspace', [0x40e00000], Ok tt)
    /\ [0x40e00000] = product_of (H:=demo_platform) (PreparedGemv.mk demo_row demo_vector BackendKind.Avx2).
Proof.
  eexists. split; [vm_compute; reflexivity|].
  exact (proj1 (proj1 (proj2 (proj2 (gemv_contract (H:=demo_platform) 1 2 [0x3f80; 0x4000] 0 demo_row demo_vector
    BackendRequest.Avx2 (Capabilities.mk true) (PreparedGemv.mk demo_row demo_vector BackendKind.Avx2)
    demo_addresses (GemvWorkspace.new 1) [0] (GemvWorkspace.mk [0x40e00000]) [0x40e00000] (Ok tt)
    ltac:(vm_compute; reflexivity) ltac:(vm_compute; reflexivity) ltac:(vm_compute; reflexivity)))) eq_refl)).
Defined.

(** ** The native boundary *)

(** C23: The native kernel is called only after every check; its own checks then
    accept, so that its status is success, or that the CPU lacks the instructions.  It
    reads no weight and no input outside the slices, its tail included, and a success
    has written every row: the eight lane sums added in order and then the tail.  On
    every error the output is untouched. *)
Theorem native_call_contract `{Platform} at_ weights input output rows columns output' r :
  gemv at_ weights input output rows columns = (output', r) ->
  r <> Panic
  /\ (r <> Ok tt -> output' = output)
  /\ (r = Ok tt -> lenN weights = rows * columns /\ lenN input = columns
        /\ output' = native_row weights input columns <$> rangeN rows)
  /\ (forall status, r = Err (KernelError.NativeFailure status) ->
        status = NativeStatus.UnavailableIsa /\ builtin_cpu_supports_avx2 = false)
  /\ (forall code, r <> Err (KernelError.NativeContractViolation code))
  /\ (gemv_checks at_ weights input output rows columns
        = Ok (rows * columns * 2, columns * 4, rows * 4) -> native_available -> r = Ok tt).
Proof.
  intros Hg. split_and!.
  6: { intros Hc Hn. destruct (gemv_cases at_ weights input output rows columns) as [(e & E & _)|[Hacc E]].
       - pose proof (gemv_checks_accepted at_ weights input output rows columns) as Hp.
         rewrite Hc in Hp. destruct Hp as [_ Hacc]. rewrite gemv_accepted in Hg by done. by simplify_eq.
       - rewrite E in Hg. by simplify_eq. }
  all: destruct (gemv_cases at_ weights input output rows columns) as [(e & E & He)|[Hacc E]];
    rewrite E in Hg; simplify_eq; try done.
  - intros _. destruct Hacc. done.
  - intros status [= ->]. destruct He as [[]|[[= ->] ?]]. done.
  - intros code [= ->]. by destruct He as [[]|[? _]].
Qed.

Lemma native_call_contract_witness :
  gemv (H:=demo_platform) demo_addresses [0x3f80; 0x4000] [0x40400000; 0x40000000] [0] 1 2 = ([0x40e00000], Ok tt)
  /\ lenN [0x3f80; 0x4000] = 1 * 2.
Proof.
  split; [vm_compute; reflexivity|].
  exact (proj1 (proj1 (proj2 (proj2 (native_call_contract (H:=demo_platform) demo_addresses [0x3f80; 0x4000]
    [0x40400000; 0x40000000] [0] 1 2 [0x40e00000] (Ok tt) ltac:(vm_compute; reflexivity)))) eq_refl)).
Defined.

(** C24: The vector kernel adds exactly the products that the scalar loop adds: over
    any numbers whose addition is associative and commutative, a row of any width has
    the same sum in eight lanes and a tail as in column order.  Of 32-bit floats, whose
    addition is not associative, rows of fewer than eight columns have bit for bit the
    same sum. *)
Theorem backends_agree {A : Type} (product : N -> f32 -> A) (add : A -> A -> A) (zero : A)
    (words : list N) (input : list f32) :
  Assoc (=) add -> Comm (=) add -> LeftId (=) zero add -> length words = length input ->
  dot_avx2 (E:=KernelError.t) product add zero words input (lenN input)
  = Ok (dot_scalar product add zero words input)
  /\ (forall `{Platform}, (length input < 8)%nat ->
      avx2_row (E:=KernelError.t) words input (lenN input) = Ok (scalar_row words input)).
Proof.
  intros ? ? ? Hl. split.
  - rewrite dot_avx2_sum by lia. by rewrite lane_sum_column, dot_scalar_sum.
  - intros P Hs. unfold avx2_row, scalar_row. rewrite dot_avx2_sum by lia.
    rewrite lane_sum_short, dot_scalar_sum; [done|]. rewrite length_zip_with. lia.
Qed.

Lemma backends_agree_witness :
  dot_avx2 (E:=KernelError.t) (fun w x => Z.of_N (w * x)) Z.add 0%Z
    [1; 2; 3; 4; 5; 6; 7; 8; 9; 10] [1; 1; 1; 1; 1; 1; 1; 1; 1; 2] 10 = Ok 65%Z.
Proof.
  exact (proj1 (backends_agree (fun w x => Z.of_N (w * x)) Z.add 0%Z
    [1; 2; 3; 4; 5; 6; 7; 8; 9; 10] [1; 1; 1; 1; 1; 1; 1; 1; 1; 2] _ _ _ eq_refl)).
Defined.
