(* ===== verification/Runtime.v ===== *)
(** The inference runtime of the tiny mixture-of-experts model
    (crates/runnel-runtime/src: tokenizer.rs, tensor.rs, error.rs, model.rs).  The
    arithmetic is that of KernelFloat; the exponential and the addresses of the
    slices handed to the native kernel are left to the platform. *)
From stdpp Require Import prelude gmap strings pretty sorting.
From S2P Require Import Prelude FormatManifest FormatArtifact KernelFloat Kernel.
#[local] Open Scope N_scope.

Module RuntimeError.
Inductive t : Type :=
| InvalidConfig (problem : string)
| InvalidArtifact (problem : string)
| MissingTensor (role : string)
| UnexpectedTensor (role : string)
| InvalidTensor (role reason : string)
| InvalidToken (token vocab_size : N)
| UnsupportedCharacter (byte_offset : N)
| EmptySequence
| ContextLimit (limit : N)
| StateMismatch
| NonFinite (operation : string)
| BackendIncompatibleWithAdapter (adapter_version : N) (request : BackendRequest.t)
| InvalidBf16Tensor (role : string) (source : KernelError.t)
| ExpertKernel (operation : string) (source : KernelError.t).
End RuntimeError.
Abbreviation rresult := (result RuntimeError.t).

(** * The tokenizer (tokenizer.rs)

    A text is the sequence of its Unicode scalar values. *)

Definition EOS_TOKEN : N := 0.
Definition BOS_TOKEN : N := 1.

Module TinyTokenizer.
Definition len_utf8 (character : N) : N :=
  if character <? 0x80 then 1 else if character <? 0x800 then 2 else if character <? 0x10000 then 3 else 4.

Definition encode_char (character : N) : option N :=
  if (97 <=? character) && (character <=? 122) then Some (character - 97 + 2)
  else if character =? 32 then Some 28
  else if character =? 46 then Some 29
  else if character =? 44 then Some 30
  else if character =? 63 then Some 31
  else None.
(** The loop over [char_indices]: the byte offset and the tokens so far. *)
Definition encode_step (s : N * list N) (character : N) : rresult (N * list N) :=
  let '(byte_offset, tokens) := s in
  token ← ok_or (encode_char character) (RuntimeError.UnsupportedCharacter byte_offset);
  Ok (byte_offset + len_utf8 character, tokens ++ [token]).
Definition encode (text : list N) : rresult (list N) :=
  '(_, tokens) ← try_fold encode_step (0, [BOS_TOKEN]) text; Ok tokens.

Fixpoint decode (tokens : list N) : rresult (list N) :=
  match tokens with
  | [] => Ok []
  | token :: tokens =>
      if token =? EOS_TOKEN then Ok []
      else if token =? BOS_TOKEN then decode tokens
      else
        character ←
          (if (2 <=? token) && (token <=? 27) then
             if token - 2 <=? u8_max then add_or_panic u8_max 97 (token - 2) else Panic
           else if token =? 28 then Ok 32
           else if token =? 29 then Ok 46
           else if token =? 30 then Ok 44
           else if token =? 31 then Ok 63
           else Err (RuntimeError.InvalidToken token 32));
        text ← decode tokens;
        Ok (character :: text)
  end.
End TinyTokenizer.

(** * Tensors (tensor.rs) *)

(** [{:?}] of a list of integers and of an optional integer. *)
Definition debug_list (l : list N) : string :=
  "[" +:+ String.concat ", " (pretty <$> l) +:+ "]".
Definition debug_option (o : option N) : string :=
  match o with Some n => "Some(" +:+ pretty n +:+ ")" | None => "None" end.

Module Tensor.
Record t : Type := mk { shape : list N; data : list f32 }.

Definition invalid (role reason : string) : RuntimeError.t := RuntimeError.InvalidTensor role reason.
(** The [try_fold] over the dimensions. *)
Definition elements (shape : list N) : option N :=
  foldl (fun total dimension =>
    total ← total; if dimension =? 0 then None else checked_mul usize_max total dimension) (Some 1) shape.
Definition new (role : string) (shape : list N) (data : list f32) : rresult t :=
  _ ← guard_err (bool_decide (shape = [])) (invalid role "rank must be positive");
  _ ← guard_err (bool_decide (elements shape <> Some (lenN data)))
        (invalid role ("shape " +:+ debug_list shape +:+ " has " +:+ debug_option (elements shape)
                       +:+ " elements but data has " +:+ pretty (lenN data)));
  _ ← guard_err (existsb nonfinite data) (invalid role "values must be finite");
  Ok (mk shape data).
Definition row (tensor : t) (row : N) : rresult (list f32) :=
  width ← expect (shape tensor !! 1%nat);
  first ← mul_or_panic row width;
  next ← add_or_panic usize_max row 1;
  last ← mul_or_panic next width;
  expect (slice (data tensor) first last).
End Tensor.

(** [BTreeMap<String, _>] is ordered by bytes. *)
#[export] Instance string_sort_key : SortKey string := fun s => Z.of_N <$> string_bytes s.
Abbreviation TensorCatalog := (gmap string Tensor.t).

(** * The model (model.rs) *)

Definition RMS_EPSILON : f32 := 115 * 2 ^ 23.

Module TinyConfig.
Record t : Type := mk {
  context_length : N; expert_hidden_size : N; hidden_size : N; num_experts : N;
  num_heads : N; num_layers : N; top_k : N; vocab_size : N
}.
#[global] Instance eq_dec : EqDecision t.
Proof. solve_decision. Defined.
Definition reference : t := mk 16 12 8 4 2 1 2 32.
Definition validate (c : t) : rresult unit :=
  _ ← guard_err ((context_length c =? 0) || (expert_hidden_size c =? 0) || (hidden_size c =? 0)
                 || (num_experts c =? 0) || (num_heads c =? 0) || (num_layers c =? 0) || (top_k c =? 0)
                 || (vocab_size c =? 0)) (RuntimeError.InvalidConfig "all dimensions must be positive");
  _ ← guard_err (negb (num_layers c =? 1))
        (RuntimeError.InvalidConfig "the tiny adapter requires exactly one layer");
  _ ← guard_err (negb (vocab_size c =? 32))
        (RuntimeError.InvalidConfig "the tiny adapter requires the fixed 32-token vocabulary");
  _ ← guard_err (negb (hidden_size c mod num_heads c =? 0))
        (RuntimeError.InvalidConfig "hidden size must be divisible by head count");
  _ ← guard_err (num_experts c <? top_k c)
        (RuntimeError.InvalidConfig "top-k cannot exceed expert count");
  guard_err (bool_decide (c <> reference))
    (RuntimeError.InvalidConfig "the tiny adapter requires the frozen reference dimensions").
End TinyConfig.

Module RouteDecision.
Record t : Type := mk { scores : list f32; expert_ids : list N; weights : list f32 }.
End RouteDecision.
Module StepOutput.
Record t : Type := mk { input_token : N; logits : list f32; route : RouteDecision.t }.
End StepOutput.
Module Generation.
Record t : Type := mk { generated_tokens : list N; steps : list StepOutput.t }.
End Generation.

Module SequenceState.
Record t : Type := mk { model_instance_id : option N; keys : list (list f32); values : list (list f32) }.
Definition new : t := mk None [] [].
Definition len (s : t) : N := lenN (keys s).
End SequenceState.

Module ExpertDispatch.
Record t : Type := mk { backend : BackendKind.t; capabilities : Capabilities.t }.
End ExpertDispatch.
Module F32ExpertWeights.
Record t : Type := mk { gate : Tensor.t; up : Tensor.t; down : Tensor.t }.
End F32ExpertWeights.
Module Bf16ExpertWeights.
Record t : Type := mk { gate : Bf16Matrix.t; up : Bf16Matrix.t; down : Bf16Matrix.t }.
End Bf16ExpertWeights.
Module Experts.
Inductive t : Type :=
| F32 (experts : list F32ExpertWeights.t)
| Bf16 (weights : list Bf16ExpertWeights.t) (dispatch : ExpertDispatch.t).
End Experts.
Module Weights.
Record t : Type := mk {
  token_embedding : Tensor.t;
  attn_norm : Tensor.t;
  attn_q : Tensor.t;
  attn_k : Tensor.t;
  attn_v : Tensor.t;
  attn_out : Tensor.t;
  ffn_norm : Tensor.t;
  router : Tensor.t;
  experts : Experts.t;
  final_norm : Tensor.t;
  lm_head : Tensor.t
}.
End Weights.

(** ** Loading *)

Definition dimension (value : N) (name : string) : rresult N :=
  _ ← guard_err (usize_max <? value)
        (RuntimeError.InvalidArtifact ("model dimension " +:+ name +:+ " cannot be represented on this host"));
  Ok value.

Module ExpectedTensor.
Record t : Type := mk { role : string; shape : list N; dtype : DType.t }.
End ExpectedTensor.
Definition expert_role (expert : N) (part : string) : string :=
  "layers.0.experts." +:+ pretty expert +:+ "." +:+ part.
Definition expected_tensors (config : TinyConfig.t) (adapter_version : N) : list ExpectedTensor.t :=
  let hidden := TinyConfig.hidden_size config in
  let expert_hidden := TinyConfig.expert_hidden_size config in
  let expert_dtype := if adapter_version =? 2 then DType.Bf16Le else DType.F32Le in
  [ExpectedTensor.mk "token_embedding" [TinyConfig.vocab_size config; hidden] DType.F32Le;
   ExpectedTensor.mk "layers.0.attn_norm" [hidden] DType.F32Le;
   ExpectedTensor.mk "layers.0.attn_q" [hidden; hidden] DType.F32Le;
   ExpectedTensor.mk "layers.0.attn_k" [hidden; hidden] DType.F32Le;
   ExpectedTensor.mk "layers.0.attn_v" [hidden; hidden] DType.F32Le;
   ExpectedTensor.mk "layers.0.attn_out" [hidden; hidden] DType.F32Le;
   ExpectedTensor.mk "layers.0.ffn_norm" [hidden] DType.F32Le;
   ExpectedTensor.mk "layers.0.router" [TinyConfig.num_experts config; hidden] DType.F32Le]
  ++ (expert ← rangeN (TinyConfig.num_experts config);
      [ExpectedTensor.mk (expert_role expert "gate") [expert_hidden; hidden] expert_dtype;
       ExpectedTensor.mk (expert_role expert "up") [expert_hidden; hidden] expert_dtype;
       ExpectedTensor.mk (expert_role expert "down") [hidden; expert_hidden] expert_dtype])
  ++ [ExpectedTensor.mk "final_norm" [hidden] DType.F32Le;
      ExpectedTensor.mk "lm_head" [TinyConfig.vocab_size config; hidden] DType.F32Le].

(** [chunks_exact(4)], with [f32::from_le_bytes]. *)
Definition decode_f32_tensor (role : string) (shape bytes : list N) : rresult Tensor.t :=
  let values := from_le_bytes <$> filter (fun chunk => length chunk = 4%nat) (chunks 4 bytes) in
  _ ← guard_err (negb (lenN bytes mod 4 =? 0))
        (RuntimeError.InvalidArtifact ("tensor " +:+ role +:+ " has a partial f32 encoding"));
  Tensor.new role shape values.

Definition take (tensors : TensorCatalog) (role : string) (shape : list N)
    : rresult (TensorCatalog * Tensor.t) :=
  tensor ← ok_or (tensors !! role) (RuntimeError.MissingTensor role);
  _ ← guard_err (bool_decide (Tensor.shape tensor <> shape))
        (RuntimeError.InvalidTensor role
           ("expected shape " +:+ debug_list shape +:+ ", found " +:+ debug_list (Tensor.shape tensor)));
  Ok (delete role tensors, tensor).
Definition take_bf16 (tensors : gmap string Bf16Matrix.t) (role : string) (rows columns : N)
    : rresult (gmap string Bf16Matrix.t * Bf16Matrix.t) :=
  matrix ← ok_or (tensors !! role) (RuntimeError.MissingTensor role);
  _ ← guard_err (negb (Bf16Matrix.rows matrix =? rows) || negb (Bf16Matrix.columns matrix =? columns))
        (RuntimeError.InvalidTensor role
           ("expected shape " +:+ debug_list [rows; columns] +:+ ", found "
            +:+ debug_list [Bf16Matrix.rows matrix; Bf16Matrix.columns matrix]));
  Ok (delete role tensors, matrix).

(** The metadata that the loop over manifest and expected tensors compares. *)
Definition check_descriptor (adapter_version : N) (descriptor : TensorRecord.t) (expected : ExpectedTensor.t)
    : rresult unit :=
  _ ← guard_err (bool_decide (TensorRecord.role descriptor <> ExpectedTensor.role expected))
        (RuntimeError.InvalidArtifact
           ("tensor ID " +:+ pretty (TensorRecord.id descriptor) +:+ " must have role "
            +:+ ExpectedTensor.role expected +:+ ", found " +:+ TensorRecord.role descriptor));
  _ ← guard_err (negb (match TensorRecord.dtype descriptor, ExpectedTensor.dtype expected with
                       | DType.F32Le, DType.F32Le | DType.Bf16Le, DType.Bf16Le
                       | DType.U8, DType.U8 | DType.I8, DType.I8 => true
                       | _, _ => false
                       end))
        (RuntimeError.InvalidArtifact
           ("tensor " +:+ TensorRecord.role descriptor +:+ " has unsupported dtype "
            +:+ DType.as_str (TensorRecord.dtype descriptor) +:+ "; adapter version "
            +:+ pretty adapter_version +:+ " requires " +:+ DType.as_str (ExpectedTensor.dtype expected)));
  guard_err (negb (lenN (TensorRecord.shape descriptor) =? lenN (ExpectedTensor.shape expected))
             || existsb (fun p => negb (p.1 =? p.2))
                  (zip (TensorRecord.shape descriptor) (ExpectedTensor.shape expected)))
    (RuntimeError.InvalidArtifact
       ("tensor " +:+ TensorRecord.role descriptor +:+ " must have shape "
        +:+ debug_list (ExpectedTensor.shape expected) +:+ ", found "
        +:+ debug_list (TensorRecord.shape descriptor))).

(** The loop that fetches and decodes the tensors: how many were fetched, and the
    two catalogs. *)
Module Loading.
Record t : Type := mk {
  fetched : N; f32_tensors : TensorCatalog; bf16_tensors : gmap string Bf16Matrix.t
}.
End Loading.

Module TinyModel.
Record t : Type := mk { config : TinyConfig.t; instance_id : N; weights : Weights.t }.

(** The answer of the caller's closure to its [n]-th call, for a descriptor. *)
Definition Fetch : Type := N -> TensorRecord.t -> rresult (list N).

Definition duplicate {A} (descriptor : TensorRecord.t) : rresult A :=
  Err (RuntimeError.InvalidArtifact ("duplicate tensor role " +:+ TensorRecord.role descriptor)).
Definition load_tensor (tensor_bytes : Fetch) (s : Loading.t) (descriptor : TensorRecord.t)
    : rresult Loading.t :=
  let role := TensorRecord.role descriptor in
  bytes ← tensor_bytes (Loading.fetched s) descriptor;
  let fetched := Loading.fetched s + 1 in
  let expected_length := TensorRecord.length descriptor in
  _ ← guard_err (usize_max <? expected_length)
        (RuntimeError.InvalidArtifact
           ("tensor " +:+ role +:+ " length cannot be represented on this host"));
  _ ← guard_err (negb (lenN bytes =? expected_length))
        (RuntimeError.InvalidArtifact
           ("tensor " +:+ role +:+ " supplied " +:+ pretty (lenN bytes) +:+ " bytes, expected "
            +:+ pretty expected_length));
  let shape := TensorRecord.shape descriptor in
  _ ← guard_err (existsb (fun dimension => usize_max <? dimension) shape)
        (RuntimeError.InvalidArtifact
           ("tensor " +:+ role +:+ " shape cannot be represented on this host"));
  match TensorRecord.dtype descriptor with
  | DType.F32Le =>
      tensor ← decode_f32_tensor role shape bytes;
      match Loading.f32_tensors s !! role with
      | Some _ => duplicate descriptor
      | None => Ok (Loading.mk fetched (<[role := tensor]> (Loading.f32_tensors s)) (Loading.bf16_tensors s))
      end
  | DType.Bf16Le =>
      match shape with
      | [rows; columns] =>
          matrix ← map_err (RuntimeError.InvalidBf16Tensor role) (Bf16Matrix.from_le_bytes rows columns bytes);
          match Loading.bf16_tensors s !! role with
          | Some _ => duplicate descriptor
          | None =>
              Ok (Loading.mk fetched (Loading.f32_tensors s) (<[role := matrix]> (Loading.bf16_tensors s)))
          end
      | _ => Err (RuntimeError.InvalidArtifact ("BF16 tensor " +:+ role +:+ " must be a matrix"))
      end
  | DType.U8 | DType.I8 => Panic
  end.

(** The model and the next instance id. *)
Definition from_components (next_id : N) (config : TinyConfig.t) (tensors : TensorCatalog)
    (experts : Experts.t) : rresult (t * N) :=
  let hidden := TinyConfig.hidden_size config in
  '(tensors, token_embedding) ← take tensors "token_embedding" [TinyConfig.vocab_size config; hidden];
  '(tensors, attn_norm) ← take tensors "layers.0.attn_norm" [hidden];
  '(tensors, attn_q) ← take tensors "layers.0.attn_q" [hidden; hidden];
  '(tensors, attn_k) ← take tensors "layers.0.attn_k" [hidden; hidden];
  '(tensors, attn_v) ← take tensors "layers.0.attn_v" [hidden; hidden];
  '(tensors, attn_out) ← take tensors "layers.0.attn_out" [hidden; hidden];
  '(tensors, ffn_norm) ← take tensors "layers.0.ffn_norm" [hidden];
  '(tensors, router) ← take tensors "layers.0.router" [TinyConfig.num_experts config; hidden];
  '(tensors, final_norm) ← take tensors "final_norm" [hidden];
  '(tensors, lm_head) ← take tensors "lm_head" [TinyConfig.vocab_size config; hidden];
  _ ← match head (btree_keys tensors) with
      | Some role => Err (RuntimeError.UnexpectedTensor role)
      | None => Ok tt
      end;
  Ok (mk config next_id
        (Weights.mk token_embedding attn_norm attn_q attn_k attn_v attn_out ffn_norm router experts
           final_norm lm_head), wrapping_add u64_max next_id 1).

Definition take_expert (config : TinyConfig.t) (s : TensorCatalog * list F32ExpertWeights.t) (expert : N)
    : rresult (TensorCatalog * list F32ExpertWeights.t) :=
  let '(tensors, experts) := s in
  let hidden := TinyConfig.hidden_size config in
  let expert_hidden := TinyConfig.expert_hidden_size config in
  '(tensors, gate) ← take tensors (expert_role expert "gate") [expert_hidden; hidden];
  '(tensors, up) ← take tensors (expert_role expert "up") [expert_hidden; hidden];
  '(tensors, down) ← take tensors (expert_role expert "down") [hidden; expert_hidden];
  Ok (tensors, experts ++ [F32ExpertWeights.mk gate up down]).
Definition from_catalog (next_id : N) (config : TinyConfig.t) (tensors : TensorCatalog) : rresult (t * N) :=
  _ ← TinyConfig.validate config;
  '(tensors, experts) ← try_fold (take_expert config) (tensors, []) (rangeN (TinyConfig.num_experts config));
  from_components next_id config tensors (Experts.F32 experts).

Definition take_bf16_expert (config : TinyConfig.t)
    (s : gmap string Bf16Matrix.t * list Bf16ExpertWeights.t) (expert : N)
    : rresult (gmap string Bf16Matrix.t * list Bf16ExpertWeights.t) :=
  let '(tensors, experts) := s in
  let hidden := TinyConfig.hidden_size config in
  let expert_hidden := TinyConfig.expert_hidden_size config in
  '(tensors, gate) ← take_bf16 tensors (expert_role expert "gate") expert_hidden hidden;
  '(tensors, up) ← take_bf16 tensors (expert_role expert "up") expert_hidden hidden;
  '(tensors, down) ← take_bf16 tensors (expert_role expert "down") hidden expert_hidden;
  Ok (tensors, experts ++ [Bf16ExpertWeights.mk gate up down]).
Definition from_bf16_catalog (next_id : N) (config : TinyConfig.t) (tensors : TensorCatalog)
    (bf16_tensors : gmap string Bf16Matrix.t) (dispatch : ExpertDispatch.t) : rresult (t * N) :=
  _ ← TinyConfig.validate config;
  '(bf16_tensors, experts) ← try_fold (take_bf16_expert config) (bf16_tensors, [])
                               (rangeN (TinyConfig.num_experts config));
  _ ← match head (btree_keys bf16_tensors) with
      | Some role => Err (RuntimeError.UnexpectedTensor role)
      | None => Ok tt
      end;
  from_components next_id config tensors (Experts.Bf16 experts dispatch).

(** The model dimensions of a manifest. *)
Definition config_of (model : FormatManifest.TinyModel.t) : rresult TinyConfig.t :=
  context_length ← dimension (FormatManifest.TinyModel.context_length model) "context_length";
  expert_hidden_size ← dimension (FormatManifest.TinyModel.expert_hidden_size model) "expert_hidden_size";
  hidden_size ← dimension (FormatManifest.TinyModel.hidden_size model) "hidden_size";
  num_experts ← dimension (FormatManifest.TinyModel.num_experts model) "num_experts";
  num_heads ← dimension (FormatManifest.TinyModel.num_heads model) "num_heads";
  num_layers ← dimension (FormatManifest.TinyModel.num_layers model) "num_layers";
  top_k ← dimension (FormatManifest.TinyModel.top_k model) "top_k";
  vocab_size ← dimension (FormatManifest.TinyModel.vocab_size model) "vocab_size";
  Ok (TinyConfig.mk context_length expert_hidden_size hidden_size num_experts num_heads num_layers top_k
        vocab_size).

(** Everything that is checked before the first byte is asked for. *)
Definition check_metadata (manifest : Manifest.t) (request : BackendRequest.t) : rresult TinyConfig.t :=
  let adapter_version := Adapter.version (Manifest.adapter manifest) in
  _ ← guard_err (bool_decide (Adapter.id (Manifest.adapter manifest) <> "runnel.tiny-causal-moe")
                 || negb ((adapter_version =? 1) || (adapter_version =? 2)))
        (RuntimeError.InvalidArtifact "unsupported adapter identity");
  _ ← guard_err ((adapter_version =? 1) && bool_decide (request <> BackendRequest.Auto))
        (RuntimeError.BackendIncompatibleWithAdapter adapter_version request);
  let tokenizer := Manifest.tokenizer manifest in
  _ ← guard_err (bool_decide (Tokenizer.id tokenizer <> "runnel.ascii32")
                 || negb (Tokenizer.version tokenizer =? 1) || negb (Tokenizer.vocab_size tokenizer =? 32))
        (RuntimeError.InvalidArtifact
           ("adapter version " +:+ pretty adapter_version
            +:+ " requires runnel.ascii32 version 1 with vocabulary 32"));
  config ← config_of (Manifest.model manifest);
  _ ← TinyConfig.validate config;
  let expected := expected_tensors config adapter_version in
  _ ← guard_err (negb (lenN (Manifest.tensors manifest) =? lenN expected))
        (RuntimeError.InvalidArtifact
           ("adapter version " +:+ pretty adapter_version +:+ " requires exactly " +:+ pretty (lenN expected)
            +:+ " tensors, found " +:+ pretty (lenN (Manifest.tensors manifest))));
  _ ← try_fold (fun _ p => check_descriptor adapter_version p.1 p.2) tt
        (zip (Manifest.tensors manifest) expected);
  Ok config.

Section load.
Context `{Platform}.

Definition from_verified_tensor_bytes_with_backend (next_id : N) (manifest : Manifest.t)
    (request : BackendRequest.t) (tensor_bytes : Fetch) : rresult (t * N) :=
  let adapter_version := Adapter.version (Manifest.adapter manifest) in
  config ← check_metadata manifest request;
  dispatch ←
    (if adapter_version =? 2 then
       let capabilities := Capabilities.detected in
       backend ← map_err (RuntimeError.ExpertKernel "backend selection") (select_backend request capabilities);
       Ok (Some (ExpertDispatch.mk backend capabilities))
     else Ok None);
  s ← try_fold (load_tensor tensor_bytes) (Loading.mk 0 ∅ ∅) (Manifest.tensors manifest);
  if adapter_version =? 1 then
    match dispatch with
    | None => from_catalog next_id config (Loading.f32_tensors s)
    | Some _ => Panic
    end
  else if adapter_version =? 2 then
    match dispatch with
    | Some dispatch =>
        from_bf16_catalog next_id config (Loading.f32_tensors s) (Loading.bf16_tensors s) dispatch
    | None => Panic
    end
  else Panic.

Definition from_verified_tensor_bytes (next_id : N) (manifest : Manifest.t) (tensor_bytes : Fetch)
    : rresult (t * N) :=
  from_verified_tensor_bytes_with_backend next_id manifest BackendRequest.Auto tensor_bytes.

Definition from_artifact_with_backend (next_id : N) (artifact : Artifact.t) (request : BackendRequest.t)
    : rresult (t * N) :=
  from_verified_tensor_bytes_with_backend next_id (Artifact.manifest artifact) request
    (fun _ descriptor =>
       ok_or (Artifact.tensor_bytes artifact (TensorRecord.id descriptor))
         (RuntimeError.InvalidArtifact
            ("verified bytes are unavailable for tensor " +:+ TensorRecord.role descriptor))).
Definition from_artifact (next_id : N) (artifact : Artifact.t) : rresult (t * N) :=
  from_artifact_with_backend next_id artifact BackendRequest.Auto.
End load.

Definition expert_backend (m : t) : option BackendKind.t :=
  match Weights.experts (weights m) with
  | Experts.F32 _ => None
  | Experts.Bf16 _ dispatch => Some (ExpertDispatch.backend dispatch)
  end.
End TinyModel.
