(* ===== verification/RuntimeForward.v ===== *)
(** One step of the model and the sequences made of steps
    (crates/runnel-runtime/src/model.rs: attention, routing, experts,
    [forward_token], [run_tokens], [generate_greedy]). *)
From stdpp Require Import prelude gmap strings sorting.
From S2P Require Import Prelude FormatManifest FormatArtifact KernelFloat Kernel Runtime.
#[local] Open Scope N_scope.

Definition at_index {E} (l : list f32) (index : N) : result E f32 := expect (l !! N.to_nat index).
Definition range (first last : N) : list N := (fun i => first + i) <$> rangeN (last - first).

(** ** Routing *)

(** [slice::sort_by], with a comparator that is a total order. *)
Definition comparator_le {A} (cmp : A -> A -> comparison) (x y : A) : Prop := cmp x y <> Gt.
#[export] Instance comparator_le_dec {A} (cmp : A -> A -> comparison) : RelDecision (comparator_le cmp).
Proof. intros x y. unfold comparator_le. destruct (cmp x y); [left|left|right]; congruence. Defined.
Definition sort_by {A} (cmp : A -> A -> comparison) (l : list A) : list A := merge_sort (comparator_le cmp) l.

(** The comparator of [stable_top_k]; the indices are those of [scores]. *)
Definition score_cmp (scores : list f32) (left right : N) : comparison :=
  match default Eq (F32.partial_cmp (scores !!! N.to_nat right) (scores !!! N.to_nat left)) with
  | Eq => left ?= right
  | c => c
  end.
Definition stable_top_k (scores : list f32) (k : N) : list N :=
  let indices := sort_by (score_cmp scores) (rangeN (lenN scores)) in
  list.take (N.to_nat (N.min k (lenN indices))) indices.

Definition greedy_token (logits : list f32) : rresult N :=
  best ← try_fold (fun best candidate =>
           c ← at_index logits candidate;
           b ← at_index logits best;
           Ok (if F32.ltb b c then candidate else best)) 0 (range 1 (lenN logits));
  if best <=? u32_max then Ok best else Panic.

Definition ensure_finite (values : list f32) (operation : string) : rresult unit :=
  guard_err (existsb nonfinite values) (RuntimeError.NonFinite operation).

Definition expert_kernel_error (operation : string) (source : KernelError.t) : RuntimeError.t :=
  RuntimeError.ExpertKernel operation source.

Section forward.
Context `{Platform}.

(** ** Primitives *)

Definition softmax (input : list f32) : rresult (list f32) :=
  maximum ← ok_or (match input with [] => None | x :: input => Some (foldl Float.max x input) end)
    (RuntimeError.NonFinite "empty softmax");
  let output := (fun value => Float.exp (Float.sub value maximum)) <$> input in
  let sum := Float.sum output in
  _ ← guard_err (nonfinite sum || F32.leb sum F32.zero) (RuntimeError.NonFinite "softmax");
  let output := (fun value => Float.div value sum) <$> output in
  _ ← ensure_finite output "softmax";
  Ok output.

Definition silu (value : f32) : f32 :=
  Float.div value (Float.add F32.one (Float.exp (Float.neg value))).

(** [add_in_place], and the accumulation of an expert's output: the destination is
    kept beyond the shorter list. *)
Fixpoint zip_update {A} (f : f32 -> A -> f32) (destination : list f32) (source : list A) : list f32 :=
  match destination, source with
  | d :: destination, s :: source => f d s :: zip_update f destination source
  | _, _ => destination
  end.
Definition add_in_place (destination source : list f32) : list f32 := zip_update Float.add destination source.

Definition rms_norm (input : list f32) (weight : Tensor.t) : rresult (list f32) :=
  let sum_squares := foldl (fun sum value => Float.add sum (Float.mul value value)) F32.zero input in
  _ ← guard_err (nonfinite sum_squares) (RuntimeError.NonFinite "RMS normalization");
  let inverse :=
    Float.recip (Float.sqrt
      (Float.add (Float.div sum_squares (Float.of_usize (lenN input))) RMS_EPSILON)) in
  let output := zip_with (fun value weight => Float.mul (Float.mul value inverse) weight) input
                  (Tensor.data weight) in
  _ ← ensure_finite output "RMS normalization";
  Ok output.

Definition linear_row (weight : Tensor.t) (input : list f32) (row : N) : rresult f32 :=
  coefficients ← Tensor.row weight row;
  Ok (foldl (fun sum p => Float.add sum (Float.mul p.2 p.1)) F32.zero (zip input coefficients)).
Definition linear (weight : Tensor.t) (input : list f32) : rresult (list f32) :=
  rows ← expect (Tensor.shape weight !! 0%nat);
  columns ← expect (Tensor.shape weight !! 1%nat);
  _ ← debug_assert (columns =? lenN input);
  mapM (linear_row weight input) (rangeN rows).

(** ** Attention *)

Definition attention_score (query key : list f32) (scale : f32) (start end_ : N) : rresult f32 :=
  score ← try_fold (fun score index =>
            q ← at_index query index; k ← at_index key index;
            Ok (Float.add score (Float.mul q k))) F32.zero (range start end_);
  Ok (Float.mul score scale).
(** The additions of one value to the output of a head. *)
Definition attend_value (start end_ : N) (output : list f32) (p : f32 * list f32) : rresult (list f32) :=
  try_fold (fun output index =>
    o ← at_index output index; v ← at_index p.2 index;
    Ok (<[N.to_nat index := Float.add o (Float.mul p.1 v)]> output)) output (range start end_).
Definition attend_head (query : list f32) (state : SequenceState.t) (head_size : N) (scale : f32)
    (output : list f32) (head : N) : rresult (list f32) :=
  start ← mul_or_panic head head_size;
  end_ ← add_or_panic usize_max start head_size;
  scores ← mapM (fun key => attention_score query key scale start end_) (SequenceState.keys state);
  probabilities ← softmax scores;
  try_fold (attend_value start end_) output (zip probabilities (SequenceState.values state)).
Definition causal_attention (query : list f32) (state : SequenceState.t) (num_heads : N) : rresult (list f32) :=
  let hidden := lenN query in
  if num_heads =? 0 then Panic
  else
    let head_size := hidden / num_heads in
    let scale := Float.div F32.one (Float.sqrt (Float.of_usize head_size)) in
    output ← try_fold (attend_head query state head_size scale) (replicate (N.to_nat hidden) F32.zero)
               (rangeN num_heads);
    _ ← ensure_finite output "attention";
    Ok output.

(** ** Experts *)

Definition accumulate (route_weight : f32) (mixture output : list f32) : list f32 :=
  zip_update (fun destination value => Float.add destination (Float.mul route_weight value)) mixture output.

Definition run_f32_expert (experts : list F32ExpertWeights.t) (input mixture : list f32) (p : N * f32)
    : rresult (list f32) :=
  let '(expert_id, route_weight) := p in
  expert ← expect (experts !! N.to_nat expert_id);
  gate ← linear (F32ExpertWeights.gate expert) input;
  _ ← ensure_finite gate "f32 expert gate";
  up ← linear (F32ExpertWeights.up expert) input;
  _ ← ensure_finite up "f32 expert up";
  let activated := zip_with (fun gate up => Float.mul (silu gate) up) gate up in
  _ ← ensure_finite activated "f32 expert activation";
  output ← linear (F32ExpertWeights.down expert) activated;
  _ ← ensure_finite output "f32 expert down";
  Ok (accumulate route_weight mixture output).
Definition accumulate_f32_experts (experts : list F32ExpertWeights.t) (expert_ids : list N)
    (route_weights input mixture : list f32) : rresult (list f32) :=
  try_fold (run_f32_expert experts input) mixture (zip expert_ids route_weights).

(** The scratch afterwards and the output. *)
Definition run_bf16_matrix (matrix : Bf16Matrix.t) (input : FiniteInput.t) (dispatch : ExpertDispatch.t)
    (at_ : Addresses.t) (workspace : GemvWorkspace.t) (output : list f32) (operation : string)
    : rresult (GemvWorkspace.t * list f32) :=
  let request :=
    match ExpertDispatch.backend dispatch with
    | BackendKind.Scalar => BackendRequest.Scalar
    | BackendKind.Avx2 => BackendRequest.Avx2
    end in
  prepared ← map_err (expert_kernel_error operation)
    (PreparedGemv.with_capabilities matrix input request (ExpertDispatch.capabilities dispatch));
  _ ← debug_assert (bool_decide (PreparedGemv.backend prepared = ExpertDispatch.backend dispatch));
  let workspace := GemvWorkspace.resize_rows workspace (Bf16Matrix.rows matrix) in
  let '(workspace, output, outcome) := PreparedGemv.run prepared at_ workspace output in
  _ ← map_err (expert_kernel_error operation) outcome;
  Ok (workspace, output).
End forward.

(** The buffers that the experts of one token share. *)
Module Buffers.
Record t : Type := mk {
  workspace : GemvWorkspace.t; gate : list f32; up : list f32; activated : list f32;
  output : list f32; mixture : list f32
}.
End Buffers.

Section experts.
Context `{Platform}.

(** [at_ slot part] is where the slices of the product with the [part]-th matrix of the
    [slot]-th selected expert are. *)
Definition run_bf16_expert (experts : list Bf16ExpertWeights.t) (dispatch : ExpertDispatch.t)
    (at_ : N -> N -> Addresses.t) (input : FiniteInput.t) (b : Buffers.t) (p : N * (N * f32))
    : rresult Buffers.t :=
  let '(slot, (expert_id, route_weight)) := p in
  expert ← expect (experts !! N.to_nat expert_id);
  '(workspace, gate) ← run_bf16_matrix (Bf16ExpertWeights.gate expert) input dispatch (at_ slot 0)
                         (Buffers.workspace b) (Buffers.gate b) "expert gate GEMV";
  '(workspace, up) ← run_bf16_matrix (Bf16ExpertWeights.up expert) input dispatch (at_ slot 1)
                       workspace (Buffers.up b) "expert up GEMV";
  let activated := zip_update (fun _ p => Float.mul (silu p.1) p.2) (Buffers.activated b) (zip gate up) in
  activated_input ← map_err (expert_kernel_error "expert activation") (FiniteInput.new activated);
  '(workspace, output) ← run_bf16_matrix (Bf16ExpertWeights.down expert) activated_input dispatch (at_ slot 2)
                           workspace (Buffers.output b) "expert down GEMV";
  Ok (Buffers.mk workspace gate up activated output (accumulate route_weight (Buffers.mixture b) output)).
Definition accumulate_bf16_experts (experts : list Bf16ExpertWeights.t) (dispatch : ExpertDispatch.t)
    (at_ : N -> N -> Addresses.t) (expert_ids : list N) (route_weights input mixture : list f32)
    (hidden_size expert_hidden_size : N) : rresult (list f32) :=
  input ← map_err (expert_kernel_error "expert input validation") (FiniteInput.new input);
  let zeros n := replicate (N.to_nat n) F32.zero in
  let b := Buffers.mk (GemvWorkspace.new (N.max hidden_size expert_hidden_size)) (zeros expert_hidden_size)
             (zeros expert_hidden_size) (zeros expert_hidden_size) (zeros hidden_size) mixture in
  let selected := zip expert_ids route_weights in
  b ← try_fold (run_bf16_expert experts dispatch at_ input) b (zip (rangeN (lenN selected)) selected);
  Ok (Buffers.mixture b).

(** ** One token *)

(** [at_ position] are the addresses during the step at a position. *)
Context (at_ : N -> N -> N -> Addresses.t).

Definition run_experts (experts : Experts.t) (config : TinyConfig.t) (position : N) (expert_ids : list N)
    (weights normalized mixture : list f32) : rresult (list f32) :=
  match experts with
  | Experts.F32 experts => accumulate_f32_experts experts expert_ids weights normalized mixture
  | Experts.Bf16 experts dispatch =>
      accumulate_bf16_experts experts dispatch (at_ position) expert_ids weights normalized mixture
        (TinyConfig.hidden_size config) (TinyConfig.expert_hidden_size config)
  end.

(** Attention: the pending state and the residual. *)
Definition attention_block (model : TinyModel.t) (state : SequenceState.t) (token : N)
    : rresult (SequenceState.t * list f32) :=
  let w := TinyModel.weights model in
  residual ← Tensor.row (Weights.token_embedding w) token;
  normalized ← rms_norm residual (Weights.attn_norm w);
  query ← linear (Weights.attn_q w) normalized;
  key ← linear (Weights.attn_k w) normalized;
  value ← linear (Weights.attn_v w) normalized;
  let pending_state :=
    SequenceState.mk (Some (TinyModel.instance_id model)) (SequenceState.keys state ++ [key])
      (SequenceState.values state ++ [value]) in
  attended ← causal_attention query pending_state (TinyConfig.num_heads (TinyModel.config model));
  attention_output ← linear (Weights.attn_out w) attended;
  let residual := add_in_place residual attention_output in
  _ ← ensure_finite residual "attention residual";
  Ok (pending_state, residual).

(** The experts: the routing and the residual. *)
Definition expert_block (model : TinyModel.t) (position : N) (residual : list f32)
    : rresult (RouteDecision.t * list f32) :=
  let config := TinyModel.config model in
  let w := TinyModel.weights model in
  normalized ← rms_norm residual (Weights.ffn_norm w);
  scores ← linear (Weights.router w) normalized;
  _ ← ensure_finite scores "router";
  let expert_ids := stable_top_k scores (TinyConfig.top_k config) in
  selected_scores ← mapM (at_index scores) expert_ids;
  weights ← softmax selected_scores;
  mixture ← run_experts (Weights.experts w) config position expert_ids weights normalized
              (replicate (N.to_nat (TinyConfig.hidden_size config)) F32.zero);
  _ ← ensure_finite mixture "expert mixture";
  let residual := add_in_place residual mixture in
  _ ← ensure_finite residual "expert residual";
  Ok (RouteDecision.mk scores expert_ids weights, residual).

(** The whole step: the state to commit and the output. *)
Definition forward_step (model : TinyModel.t) (state : SequenceState.t) (token : N)
    : rresult (SequenceState.t * StepOutput.t) :=
  let config := TinyModel.config model in
  let w := TinyModel.weights model in
  _ ← guard_err (TinyConfig.vocab_size config <=? token)
        (RuntimeError.InvalidToken token (TinyConfig.vocab_size config));
  _ ← guard_err (TinyConfig.context_length config <=? SequenceState.len state)
        (RuntimeError.ContextLimit (TinyConfig.context_length config));
  _ ← guard_err (match SequenceState.model_instance_id state with
                 | Some instance_id => negb (instance_id =? TinyModel.instance_id model)
                 | None => false
                 end) RuntimeError.StateMismatch;
  '(pending_state, residual) ← attention_block model state token;
  '(route, residual) ← expert_block model (SequenceState.len state) residual;
  normalized ← rms_norm residual (Weights.final_norm w);
  logits ← linear (Weights.lm_head w) normalized;
  _ ← ensure_finite logits "lm head";
  Ok (pending_state, StepOutput.mk token logits route).

(** The state is replaced only when everything succeeded. *)
Definition forward_token (model : TinyModel.t) (state : SequenceState.t) (token : N)
    : SequenceState.t * rresult StepOutput.t :=
  match forward_step model state token with
  | Ok (pending_state, output) => (pending_state, Ok output)
  | Err e => (state, Err e)
  | Panic => (state, Panic)
  end.

(** ** Sequences *)

(** One [outputs.push(self.forward_token(&mut state, token)?)]. *)
Definition push_step (model : TinyModel.t) (s : SequenceState.t * list StepOutput.t) (token : N)
    : rresult (SequenceState.t * list StepOutput.t) :=
  let '(state, outputs) := s in
  let '(state, outcome) := forward_token model state token in
  output ← outcome;
  Ok (state, outputs ++ [output]).

Definition run_tokens (model : TinyModel.t) (tokens : list N) : rresult (list StepOutput.t) :=
  let limit := TinyConfig.context_length (TinyModel.config model) in
  _ ← guard_err (bool_decide (tokens = [])) RuntimeError.EmptySequence;
  _ ← guard_err (limit <? lenN tokens) (RuntimeError.ContextLimit limit);
  '(_, outputs) ← try_fold (push_step model) (SequenceState.new, []) tokens;
  Ok outputs.

(** The loop of [generate_greedy] with [remaining] more tokens to produce; the last one is
    not run. *)
Fixpoint generate_loop (model : TinyModel.t) (remaining : nat) (state : SequenceState.t)
    (generated_tokens : list N) (steps : list StepOutput.t) : rresult Generation.t :=
  match remaining with
  | O => Ok (Generation.mk generated_tokens steps)
  | S remaining =>
      step ← expect (last steps);
      next ← greedy_token (StepOutput.logits step);
      let generated_tokens := generated_tokens ++ [next] in
      if (next =? EOS_TOKEN) || bool_decide (remaining = O) then Ok (Generation.mk generated_tokens steps)
      else
        '(state, steps) ← push_step model (state, steps) next;
        generate_loop model remaining state generated_tokens steps
  end.
Definition generate_greedy (model : TinyModel.t) (prompt : list N) (max_new_tokens : N)
    : rresult Generation.t :=
  let limit := TinyConfig.context_length (TinyModel.config model) in
  _ ← guard_err (bool_decide (prompt = [])) RuntimeError.EmptySequence;
  required ← ok_or (checked_add usize_max (lenN prompt) (saturating_sub max_new_tokens 1))
    (RuntimeError.ContextLimit limit);
  _ ← guard_err (limit <? required) (RuntimeError.ContextLimit limit);
  '(state, steps) ← try_fold (push_step model) (SequenceState.new, []) prompt;
  generate_loop model (N.to_nat max_new_tokens) state [] steps.
End experts.
