(* ===== verification/RuntimeRoute.v ===== *)
(** The tokenizer, the choice of experts and the choice of the next token. *)
From stdpp Require Import prelude gmap strings sorting.
From S2P Require Import Prelude FormatArtifact KernelFloat Kernel KernelFacts Runtime RuntimeForward.
#[local] Open Scope N_scope.
Import F32Facts.

(** ** The tokenizer *)

Section tokenizer.
Import TinyTokenizer.

Definition text_bytes (text : list N) : N := sumN len_utf8 text.

(** The first character without a token stops the encoder at its byte offset. *)
Lemma encode_fold text offset tokens :
  match try_fold encode_step (offset, tokens) text with
  | Ok (offset', tokens') => exists codes, mapM encode_char text = Some codes /\ tokens' = tokens ++ codes
      /\ offset' = offset + text_bytes text
  | Err e => exists before c after codes, text = before ++ c :: after /\ mapM encode_char before = Some codes
      /\ encode_char c = None /\ e = RuntimeError.UnsupportedCharacter (offset + text_bytes before)
  | Panic => False
  end.
Proof.
  revert offset tokens. induction text as [|c text IH]; intros offset tokens; simpl.
  { exists []. rewrite app_nil_r. split_and!; [done..|]. unfold text_bytes. simpl. lia. }
  destruct (encode_char c) as [token|] eqn:Ec; simpl.
  - specialize (IH (offset + len_utf8 c) (tokens ++ [token])).
    destruct (try_fold encode_step _ text) as [[o ts]|e|]; [| |done].
    + destruct IH as (codes & Hc & -> & ->). exists (token :: codes).
      rewrite Hc, <- app_assoc. split_and!; [done..|]. unfold text_bytes. simpl. lia.
    + destruct IH as (before & d & after & codes & -> & Hc & Hd & ->).
      exists (c :: before), d, after, (token :: codes). simpl. rewrite Ec, Hc.
      split_and!; [done..|]. f_equal. unfold text_bytes. simpl. lia.
  - exists [], c, text, []. split_and!; [done..|]. f_equal. unfold text_bytes. simpl. lia.
Qed.

(** The character of a token, as [decode] computes it. *)
Definition decode_token (token : N) : rresult N :=
  if (2 <=? token) && (token <=? 27) then
    if token - 2 <=? u8_max then add_or_panic u8_max 97 (token - 2) else Panic
  else if token =? 28 then Ok 32
  else if token =? 29 then Ok 46
  else if token =? 30 then Ok 44
  else if token =? 31 then Ok 63
  else Err (RuntimeError.InvalidToken token 32).
Lemma decode_cons token tokens :
  2 <= token -> decode (token :: tokens) = (c ← decode_token token; text ← decode tokens; Ok (c :: text)).
Proof.
  intros Ht. simpl. destruct (N.eqb_spec token EOS_TOKEN) as [-> |]; [done|].
  by destruct (N.eqb_spec token BOS_TOKEN) as [-> |].
Qed.

(** The characters and the tokens from 2 to 31 correspond. *)
Lemma decode_token_letter token : 2 <= token <= 27 -> decode_token token = Ok (95 + token).
Proof.
  intros Ht. unfold decode_token, add_or_panic, checked_add, u8_max.
  destruct (N.leb_spec 2 token), (N.leb_spec token 27); simpl; try lia.
  destruct (N.leb_spec (token - 2) 255); [|lia]. destruct (N.leb_spec (97 + (token - 2)) 255); [|lia].
  simpl. f_equal. lia.
Qed.
Lemma encode_char_decode c token :
  encode_char c = Some token -> 2 <= token < 32 /\ decode_token token = Ok c.
Proof.
  unfold encode_char. destruct (N.leb_spec 97 c), (N.leb_spec c 122); simpl.
  1: { intros [= <-]. split; [lia|]. rewrite decode_token_letter by lia. f_equal. lia. }
  all: destruct (N.eqb_spec c 32) as [-> |]; [intros [= <-]; split; [lia|done]|].
  all: destruct (N.eqb_spec c 46) as [-> |]; [intros [= <-]; split; [lia|done]|].
  all: destruct (N.eqb_spec c 44) as [-> |]; [intros [= <-]; split; [lia|done]|].
  all: destruct (N.eqb_spec c 63) as [-> |]; [intros [= <-]; split; [lia|done]|done].
Qed.
Lemma decode_token_encode token :
  2 <= token < 32 -> exists c, decode_token token = Ok c /\ encode_char c = Some token.
Proof.
  intros Ht. destruct (decide (token <= 27)).
  - exists (95 + token). split; [apply decode_token_letter; lia|]. unfold encode_char.
    destruct (N.leb_spec 97 (95 + token)), (N.leb_spec (95 + token) 122); simpl; try lia. f_equal. lia.
  - assert (token = 28 \/ token = 29 \/ token = 30 \/ token = 31) as [-> |[-> |[-> | ->]]] by lia; by eexists.
Qed.

Lemma decode_codes text codes :
  mapM encode_char text = Some codes -> Forall (fun t => 2 <= t < 32) codes /\ decode codes = Ok text.
Proof.
  revert codes. induction text as [|c text IH]; intros codes; simpl; [by intros [= <-]|].
  destruct (encode_char c) as [token|] eqn:Ec; [|done]. simpl.
  destruct (mapM encode_char text) as [rest|]; [|done]. intros [= <-].
  destruct (IH rest eq_refl) as [Hf Hd]. apply encode_char_decode in Ec as [Ht Ec]. split; [by constructor|].
  rewrite decode_cons, Ec by lia. simpl. by rewrite Hd.
Qed.
Lemma encode_text codes :
  Forall (fun t => 2 <= t < 32) codes -> exists text, decode codes = Ok text /\ mapM encode_char text = Some codes.
Proof.
  induction 1 as [|token codes Ht _ (text & Hd & He)]; [by exists []|].
  destruct (decode_token_encode token Ht) as (c & Hc & Hc'). exists (c :: text).
  rewrite decode_cons, Hc by lia. simpl. rewrite Hd, Hc', He. done.
Qed.
End tokenizer.

(** ** The best experts *)

Definition score_key (scores : list f32) (i : N) : list Z := [- key (scores !!! N.to_nat i); Z.of_N i]%Z.

Definition no_nan (scores : list f32) : Prop := Forall (fun x => F32.is_nan x = false) scores.

Lemma lookup_total_number scores i : no_nan scores -> F32.is_nan (scores !!! i) = false.
Proof.
  intros Hs. destruct (scores !! i) as [x|] eqn:E.
  - rewrite (list_lookup_total_correct _ _ _ E). by apply (Forall_lookup_1 _ _ _ _ Hs E).
  - by rewrite (list_lookup_total_alt scores), E.
Qed.
(** Without NaNs the comparator is the dictionary order: better scores first, then
    lower indices. *)
Lemma score_cmp_key scores i j :
  no_nan scores -> comparator_le (score_cmp scores) i j <-> by_key (score_key scores) i j.
Proof.
  intros Hs. unfold comparator_le, score_cmp, by_key, score_key, key_le.
  rewrite partial_cmp_key by (by apply lookup_total_number). simpl.
  destruct (Z.compare_spec (key (scores !!! N.to_nat j)) (key (scores !!! N.to_nat i))).
  - destruct (N.compare_spec i j); split; try done; lia.
  - split; [|done]. intros _. left. lia.
  - split; [done|lia].
Qed.

Lemma StronglySorted_impl {A} (R S : relation A) l :
  (forall x y, R x y -> S x y) -> StronglySorted R l -> StronglySorted S l.
Proof. intros HRS. induction 1 as [|x l _ IH Hx]; constructor; [done|]. eapply Forall_impl; eauto. Qed.

Lemma sorted_scores scores l :
  no_nan scores -> StronglySorted (by_key (score_key scores)) (sort_by (score_cmp scores) l).
Proof.
  intros Hs.
  assert (Total (comparator_le (score_cmp scores))).
  { intros i j. rewrite !score_cmp_key by done. apply by_key_total. }
  assert (Transitive (comparator_le (score_cmp scores))).
  { intros i j k. rewrite !score_cmp_key by done. apply by_key_trans. }
  eapply StronglySorted_impl; [|by apply (StronglySorted_merge_sort (comparator_le (score_cmp scores)))].
  intros i j. by apply score_cmp_key.
Qed.

Lemma NoDup_rangeN n : NoDup (rangeN n).
Proof. apply NoDup_fmap_2; [apply _|apply NoDup_seq]. Qed.
(** A better score, or an equal one at a lower index. *)
Definition better (scores : list f32) (i j : N) : Prop :=
  (key (scores !!! N.to_nat j) < key (scores !!! N.to_nat i))%Z
  \/ (key (scores !!! N.to_nat j) = key (scores !!! N.to_nat i) /\ i < j).
Lemma by_key_better scores i j : by_key (score_key scores) i j -> i <> j -> better scores i j.
Proof. unfold by_key, score_key, better. simpl. intros [?|[? [?|[? _]]]] ?; lia. Qed.

Lemma stable_top_k_spec scores k :
  no_nan scores ->
  let ids := stable_top_k scores k in
  NoDup ids /\ lenN ids = N.min k (lenN scores) /\ Forall (fun i => i < lenN scores) ids
  /\ StronglySorted (better scores) ids
  /\ (forall i j, i ∈ ids -> j ∉ ids -> j < lenN scores -> better scores i j).
Proof.
  intros Hs ids. unfold ids, stable_top_k. cbv zeta.
  pose proof (merge_sort_Permutation (comparator_le (score_cmp scores)) (rangeN (lenN scores))) as Hperm.
  pose proof (sorted_scores scores (rangeN (lenN scores)) Hs) as Hsort.
  fold (sort_by (score_cmp scores) (rangeN (lenN scores))) in Hperm.
  set (all := sort_by (score_cmp scores) (rangeN (lenN scores))) in *.
  assert (lenN all = lenN scores) as Hlen.
  { unfold lenN. rewrite Hperm, length_rangeN. unfold lenN. lia. }
  assert (NoDup all) as Hnd by (rewrite Hperm; apply NoDup_rangeN).
  set (n := N.to_nat (N.min k (lenN all))).
  assert (list.take n all ++ drop n all = all) as Happ by apply take_drop.
  rewrite <- Happ in Hnd, Hsort. apply NoDup_app in Hnd as (Hnd & Hdis & _).
  apply StronglySorted_app in Hsort as (Hcross & Hsort & _).
  assert (forall i, i ∈ all <-> i < lenN scores) as Hin.
  { intros i. rewrite Hperm. apply elem_of_rangeN. }
  split_and!; [done| | | |].
  - unfold lenN. rewrite length_take. unfold n, lenN in *. lia.
  - apply Forall_forall. intros i Hi. apply Hin. rewrite <- Happ. apply elem_of_app. by left.
  - clear -Hsort Hnd. induction Hsort as [|i l _ IH Hi]; constructor.
    + apply IH. by apply NoDup_cons in Hnd as [_ ?].
    + rewrite Forall_forall in *. intros j Hj. apply by_key_better; [by apply Hi|].
      apply NoDup_cons in Hnd as [Hnd _]. by intros ->.
  - intros i j Hi Hj Hjl. apply Hin in Hjl. rewrite <- Happ in Hjl. apply elem_of_app in Hjl as [?|Hjl]; [done|].
    apply by_key_better; [by apply Hcross|]. by intros ->.
Qed.

(** ** The next token *)

Lemma at_index_lookup {E} l i : i < lenN l -> at_index (E:=E) l i = Ok (l !!! N.to_nat i).
Proof.
  intros Hi. unfold at_index. rewrite (list_lookup_lookup_total_lt l); [done|]. unfold lenN in Hi. lia.
Qed.
Lemma greedy_token_spec logits :
  no_nan logits -> logits <> [] -> lenN logits <= 2 ^ 32 ->
  exists token, greedy_token logits = Ok token /\ token < lenN logits
    /\ forall j, j < lenN logits -> j <> token -> better logits token j.
Proof.
  intros Hn Hne Hl. unfold greedy_token, range. set (n := lenN logits) in *.
  assert (0 < n) by (unfold n, lenN; destruct logits; [done|simpl; lia]).
  assert (forall m, m < n ->
    exists best, try_fold (fun best candidate =>
      c ← at_index (E:=RuntimeError.t) logits candidate; b ← at_index logits best;
      Ok (if F32.ltb b c then candidate else best)) 0 ((fun i => 1 + i) <$> rangeN m) = Ok best
    /\ best <= m /\ forall j, j <= m -> j <> best -> better logits best j) as Hloop.
  { induction m as [|m IH] using N.peano_ind; intros Hm; [exists 0; split_and!; [done|done|lia]|].
    destruct (IH ltac:(lia)) as (best & Hb & Hbm & Hbest).
    rewrite <- N.add_1_r, rangeN_succ, fmap_app, try_fold_app, Hb. cbn [fmap list_fmap try_fold mbind result_bind].
    rewrite !at_index_lookup by (fold n; lia). cbn [mbind result_bind].
    rewrite ltb_key by (by apply lookup_total_number). replace (1 + m) with (N.succ m) by lia.
    destruct (Z.ltb_spec (key (logits !!! N.to_nat best)) (key (logits !!! N.to_nat (N.succ m)))) as [Hlt|Hge];
      eexists; (split; [done|]); (split; [lia|]); intros j Hj Hjb.
    - left. destruct (decide (j = best)) as [-> |]; [done|].
      destruct (Hbest j ltac:(lia) ltac:(done)) as [?|[-> _]]; lia.
    - destruct (decide (j = N.succ m)) as [-> |]; [|apply Hbest; lia]. unfold better. lia. }
  destruct (Hloop (n - 1) ltac:(lia)) as (best & Hb & Hbm & Hbest). rewrite Hb. simpl.
  destruct (N.leb_spec best u32_max); [|unfold u32_max in *; lia].
  exists best. split_and!; [done|lia|]. intros j Hj. apply Hbest. lia.
Qed.
