(* ===== verification/RuntimeStep.v ===== *)
(** One step of a well-formed model: it never panics, keeps the shapes and returns
    only finite numbers. *)
From stdpp Require Import prelude gmap strings sorting.
From S2P Require Import Prelude FormatManifest FormatArtifact KernelFloat Kernel KernelFacts Runtime.
From S2P Require Import RuntimeForward RuntimeRoute.
#[local] Open Scope N_scope.

(** ** Well-formed models *)

Record tensor_ok (shape : list N) (t : Tensor.t) : Prop := {
  te_shape : Tensor.shape t = shape;
  te_length : lenN (Tensor.data t) = foldr N.mul 1 shape;
  te_finite : all_finite (Tensor.data t)
}.
Record bf16_ok (rows columns : N) (m : Bf16Matrix.t) : Prop := {
  bf_matrix : matrix_ok m;
  bf_rows : Bf16Matrix.rows m = rows;
  bf_columns : Bf16Matrix.columns m = columns
}.
(** A dispatch whose backend its capabilities allow. *)
Definition dispatch_ok (d : ExpertDispatch.t) : Prop :=
  ExpertDispatch.backend d = BackendKind.Avx2 -> Capabilities.avx2 (ExpertDispatch.capabilities d) = true.
Definition f32_expert_ok (e : F32ExpertWeights.t) : Prop :=
  tensor_ok [12; 8] (F32ExpertWeights.gate e) /\ tensor_ok [12; 8] (F32ExpertWeights.up e)
  /\ tensor_ok [8; 12] (F32ExpertWeights.down e).
Definition bf16_expert_ok (e : Bf16ExpertWeights.t) : Prop :=
  bf16_ok 12 8 (Bf16ExpertWeights.gate e) /\ bf16_ok 12 8 (Bf16ExpertWeights.up e)
  /\ bf16_ok 8 12 (Bf16ExpertWeights.down e).
Definition experts_ok (e : Experts.t) : Prop :=
  match e with
  | Experts.F32 experts => length experts = 4%nat /\ Forall f32_expert_ok experts
  | Experts.Bf16 experts dispatch =>
      length experts = 4%nat /\ Forall bf16_expert_ok experts /\ dispatch_ok dispatch
  end.
Record weights_ok (w : Weights.t) : Prop := {
  we_token_embedding : tensor_ok [32; 8] (Weights.token_embedding w);
  we_attn_norm : tensor_ok [8] (Weights.attn_norm w);
  we_attn_q : tensor_ok [8; 8] (Weights.attn_q w);
  we_attn_k : tensor_ok [8; 8] (Weights.attn_k w);
  we_attn_v : tensor_ok [8; 8] (Weights.attn_v w);
  we_attn_out : tensor_ok [8; 8] (Weights.attn_out w);
  we_ffn_norm : tensor_ok [8] (Weights.ffn_norm w);
  we_router : tensor_ok [4; 8] (Weights.router w);
  we_experts : experts_ok (Weights.experts w);
  we_final_norm : tensor_ok [8] (Weights.final_norm w);
  we_lm_head : tensor_ok [32; 8] (Weights.lm_head w)
}.
Definition model_ok (m : TinyModel.t) : Prop :=
  TinyModel.config m = TinyConfig.reference /\ weights_ok (TinyModel.weights m).

(** Cached keys and values: one of each per token run, of the hidden size. *)
Record state_ok (s : SequenceState.t) : Prop := {
  st_keys : Forall (fun k => lenN k = 8) (SequenceState.keys s);
  st_values : Forall (fun v => lenN v = 8) (SequenceState.values s);
  st_pairs : length (SequenceState.keys s) = length (SequenceState.values s);
  st_context : SequenceState.len s <= 16
}.

(** Errors of the arithmetic. *)
Definition numeric (e : RuntimeError.t) : Prop :=
  match e with RuntimeError.NonFinite _ | RuntimeError.ExpertKernel _ _ => True | _ => False end.

(** ** Checks and loops *)

Section primitives.
Context `{Platform}.

Lemma existsb_nonfinite values : existsb nonfinite values = false <-> all_finite values.
Proof.
  unfold all_finite. induction values as [|x values IH]; [by split|]. cbn [existsb].
  rewrite Forall_cons. transitivity (nonfinite x = false /\ existsb nonfinite values = false).
  - apply orb_false_iff.
  - rewrite IH. unfold nonfinite. by rewrite (negb_false_iff (F32.is_finite x)).
Qed.
Lemma post_ensure_finite values operation (Q : unit -> Prop) :
  (all_finite values -> Q tt) -> post (ensure_finite values operation) Q numeric.
Proof. intros HQ. apply post_guard; [done|]. intros Hf. by apply HQ, existsb_nonfinite. Qed.

Lemma post_mapM {E A B} (f : A -> result E B) (P : B -> Prop) X l :
  (forall x, x ∈ l -> post (f x) P X) ->
  post (mapM f l) (fun ys => length ys = length l /\ Forall P ys) X.
Proof.
  intros Hf. induction l as [|x l IH]; simpl; [by split|].
  apply post_bind. eapply post_strengthen; [apply Hf; by left|]. intros y Hy.
  apply post_bind. eapply post_strengthen; [apply IH; intros; apply Hf; by right|].
  intros ys [Hl Hys]. simpl. split; [lia|]. by constructor.
Qed.
(** A loop with an invariant of its accumulator only. *)
Lemma post_loop {E A B} (f : B -> A -> result E B) (I : B -> Prop) X l acc :
  I acc -> (forall acc x, x ∈ l -> I acc -> post (f acc x) I X) -> post (try_fold f acc l) I X.
Proof.
  revert acc. induction l as [|x l IH]; intros acc HI Hf; simpl; [done|].
  apply post_bind. eapply post_strengthen; [apply Hf; [by left|done]|]. intros acc' HI'.
  apply IH; [done|]. intros. apply Hf; [by right|done].
Qed.
Lemma post_at_index {E} l i (Q : f32 -> Prop) (X : E -> Prop) :
  i < lenN l -> (forall x, Q x) -> post (at_index l i) Q X.
Proof. intros Hi HQ. rewrite at_index_lookup by done. apply HQ. Qed.
Lemma elem_of_range i first last : i ∈ range first last <-> first <= i < last.
Proof.
  unfold range. rewrite list_elem_of_fmap. split.
  - intros (k & -> & Hk%elem_of_rangeN). lia.
  - intros Hi. exists (i - first). rewrite elem_of_rangeN. lia.
Qed.

(** ** Primitives *)

Lemma softmax_post input :
  post (softmax input) (fun out => length out = length input /\ all_finite out) numeric.
Proof.
  unfold softmax. destruct input as [|x input]; [done|]. cbn [ok_or mbind result_bind].
  apply post_bind, post_guard; [done|]. intros _. apply post_bind, post_ensure_finite. intros Hf.
  split; [|done]. by rewrite !length_fmap.
Qed.
Lemma rms_norm_post input weight n :
  lenN input = n -> tensor_ok [n] weight ->
  post (rms_norm input weight) (fun out => lenN out = n /\ all_finite out) numeric.
Proof.
  intros Hi Hw. unfold rms_norm. apply post_bind, post_guard; [done|]. intros _.
  apply post_bind, post_ensure_finite. intros Hf. split; [|done].
  pose proof (te_length _ _ Hw) as Hl. cbn [foldr] in Hl. unfold lenN in *. rewrite length_zip_with. lia.
Qed.

Lemma tensor_row_ok t rows columns row :
  tensor_ok [rows; columns] t -> row < rows -> rows * columns <= usize_max -> rows <= usize_max ->
  exists out, Tensor.row t row = Ok out /\ lenN out = columns.
Proof.
  intros Ht Hr Hmax Hrows. unfold Tensor.row. rewrite (te_shape _ _ Ht). simpl.
  pose proof (te_length _ _ Ht) as Hl. cbn [foldr] in Hl. rewrite N.mul_1_r in Hl.
  assert ((row + 1) * columns <= rows * columns) by nia. assert (row * columns <= (row + 1) * columns) by nia.
  unfold mul_or_panic, add_or_panic, checked_mul, checked_add.
  destruct (N.leb_spec (row * columns) usize_max); [|lia]. simpl.
  destruct (N.leb_spec (row + 1) usize_max); [|lia]. simpl.
  destruct (N.leb_spec ((row + 1) * columns) usize_max); [|lia]. simpl.
  rewrite slice_Some by lia. simpl. eexists. split; [done|].
  unfold lenN in *. rewrite length_take, length_drop. nia.
Qed.
Lemma linear_post t rows columns input (X : RuntimeError.t -> Prop) :
  tensor_ok [rows; columns] t -> lenN input = columns -> rows * columns <= usize_max -> rows <= usize_max ->
  post (linear t input) (fun out => lenN out = rows) X.
Proof.
  intros Ht Hi Hmax Hrows. unfold linear. rewrite (te_shape _ _ Ht). simpl. rewrite Hi, N.eqb_refl. simpl.
  eapply post_strengthen; [apply (post_mapM _ (fun _ => True))|].
  - intros row Hrow%elem_of_rangeN. unfold linear_row.
    destruct (tensor_row_ok t rows columns row) as (out & -> & _); done.
  - intros out [Hl _]. unfold lenN. rewrite Hl, length_rangeN. lia.
Qed.

Lemma length_zip_update {A} (f : f32 -> A -> f32) destination source :
  length (zip_update f destination source) = length destination.
Proof. revert source. induction destination; intros [|s source]; simpl; auto. Qed.

(** ** Attention *)

Lemma attention_score_post query key scale start end_ (X : RuntimeError.t -> Prop) :
  end_ <= lenN query -> end_ <= lenN key ->
  post (attention_score query key scale start end_) (fun _ => True) X.
Proof.
  intros Hq Hk. unfold attention_score. apply post_bind. eapply post_strengthen.
  - apply (post_loop _ (fun _ => True)); [done|]. intros acc i Hi%elem_of_range _.
    apply post_bind, post_at_index; [lia|]. intros q. by apply post_bind, post_at_index; [lia|].
  - done.
Qed.
Lemma attend_value_post start end_ output p (X : RuntimeError.t -> Prop) :
  end_ <= lenN output -> end_ <= lenN p.2 ->
  post (attend_value start end_ output p) (fun out => lenN out = lenN output) X.
Proof.
  intros Ho Hv. apply post_loop; [done|]. intros acc i Hi%elem_of_range Hacc.
  apply post_bind, post_at_index; [lia|]. intros o. apply post_bind, post_at_index; [lia|]. intros v.
  simpl. unfold lenN in *. by rewrite length_insert.
Qed.
Lemma causal_attention_post query state num_heads :
  lenN query = 8 -> state_ok state -> 0 < num_heads ->
  post (causal_attention query state num_heads) (fun out => lenN out = 8 /\ all_finite out) numeric.
Proof.
  intros Hq Hs Hn. unfold causal_attention. rewrite Hq. destruct (N.eqb_spec num_heads 0); [lia|].
  apply post_bind. eapply post_strengthen.
  - apply (post_loop _ (fun out => lenN out = 8)); [done|]. intros out head Hhead%elem_of_rangeN Hout.
    assert (head * (8 / num_heads) + 8 / num_heads <= 8) as Hend.
    { pose proof (N.Div0.mul_div_le 8 num_heads). nia. }
    generalize dependent (8 / num_heads). intros size Hend.
    unfold attend_head, mul_or_panic, add_or_panic, checked_mul, checked_add.
    generalize dependent (head * size). intros start Hend.
    destruct (N.leb_spec start usize_max); [|unfold usize_max, u64_max in *; lia].
    cbn [expect mbind result_bind].
    destruct (N.leb_spec (start + size) usize_max); [|unfold usize_max, u64_max in *; lia].
    cbn [expect mbind result_bind].
    apply post_bind. eapply post_strengthen; [apply (post_mapM _ (fun _ => True))|].
    + intros key Hkey. pose proof (st_keys _ Hs) as Hks. rewrite Forall_forall in Hks. specialize (Hks key Hkey).
      apply attention_score_post; lia.
    + intros scores _. apply post_bind. eapply post_strengthen; [apply softmax_post|]. intros probs _.
      apply post_loop; [done|]. intros acc [p v] Hin Hacc. eapply post_strengthen.
      * apply attend_value_post; [lia|]. apply elem_of_zip_r in Hin. pose proof (st_values _ Hs) as Hvs.
        rewrite Forall_forall in Hvs. specialize (Hvs v Hin). simpl. lia.
      * intros out' Hout'. by rewrite Hout'.
  - intros out Hout. by apply post_bind, post_ensure_finite.
Qed.
End primitives.

(** ** Experts *)

Section experts.
Context `{Platform}.

Lemma post_linear {B} t rows columns input (f : list f32 -> rresult B) Q :
  tensor_ok [rows; columns] t -> lenN input = columns -> rows * columns <= 1024 -> rows <= 1024 ->
  (forall out, lenN out = rows -> post (f out) Q numeric) -> post (linear t input ≫= f) Q numeric.
Proof.
  intros Ht Hi Hmax Hrows Hf. apply post_bind. eapply post_strengthen; [|exact Hf].
  apply (linear_post _ _ columns); [done|done|unfold usize_max, u64_max; lia..].
Qed.
Lemma post_finite {B} values operation (f : unit -> rresult B) Q :
  (all_finite values -> post (f tt) Q numeric) -> post (ensure_finite values operation ≫= f) Q numeric.
Proof. intros Hf. by apply post_bind, post_ensure_finite. Qed.

Lemma run_f32_expert_post experts input mixture p :
  Forall f32_expert_ok experts -> p.1 < lenN experts -> lenN input = 8 ->
  post (run_f32_expert experts input mixture p) (fun out => lenN out = lenN mixture) numeric.
Proof.
  intros He Hid Hi. destruct p as [id weight]. unfold run_f32_expert.
  destruct (lookup_lt_is_Some_2 experts (N.to_nat id)) as [e Hl]; [unfold lenN in Hid; simpl in Hid; lia|].
  rewrite Hl. cbn [expect mbind result_bind]. eapply Forall_lookup_1 in He as (Hg & Hu & Hd); [|done].
  eapply post_linear; [done..|]. intros gate Hgate. apply post_finite. intros _.
  eapply post_linear; [done..|]. intros up Hup. apply post_finite. intros _. apply post_finite. intros _.
  eapply post_linear; [done| |done..|].
  - unfold lenN in *. rewrite length_zip_with. lia.
  - intros out Hout. apply post_finite. intros _. simpl. unfold lenN, accumulate. by rewrite length_zip_update.
Qed.

(** A product of an expert: its request selects its backend again. *)
Lemma run_bf16_matrix_post matrix rows columns input dispatch at_ workspace output operation :
  bf16_ok rows columns matrix -> dispatch_ok dispatch -> FiniteInput.len input = columns ->
  lenN output = rows ->
  post (run_bf16_matrix matrix input dispatch at_ workspace output operation)
    (fun p => lenN p.2 = rows) numeric.
Proof.
  intros [Hm Hr Hc] Hd Hi Ho. unfold run_bf16_matrix, PreparedGemv.with_capabilities.
  rewrite Hi, Hc, N.eqb_refl. cbn [negb guard_err mbind result_bind].
  set (request := match ExpertDispatch.backend dispatch with
                  | BackendKind.Scalar => BackendRequest.Scalar | BackendKind.Avx2 => BackendRequest.Avx2 end).
  assert (select_backend request (ExpertDispatch.capabilities dispatch) = Ok (ExpertDispatch.backend dispatch)) as ->.
  { unfold request, dispatch_ok in *. destruct (ExpertDispatch.backend dispatch); simpl; [done|]. by rewrite Hd. }
  cbn [map_err mbind result_bind PreparedGemv.backend]. rewrite bool_decide_eq_true_2 by done.
  cbn [debug_assert mbind result_bind].
  set (p := PreparedGemv.mk matrix input (ExpertDispatch.backend dispatch)).
  set (ws := GemvWorkspace.resize_rows workspace (Bf16Matrix.rows matrix)).
  assert (prepared_ok p) as Hp by (split; simpl; [done|by rewrite Hc]).
  destruct (run_cases p at_ ws output Hp) as [(ws' & e & -> & _)|[Hl ->]]; [done|].
  rewrite publish_product by (by rewrite length_product).
  destruct (first_index nonfinite (product_of p)) as [[i v]|]; [done|].
  simpl. rewrite length_product. unfold PreparedGemv.rows. simpl. lia.
Qed.

(** The buffers of the loop over the selected experts. *)
Record buffers_ok (b : Buffers.t) : Prop := {
  bu_gate : lenN (Buffers.gate b) = 12;
  bu_up : lenN (Buffers.up b) = 12;
  bu_activated : lenN (Buffers.activated b) = 12;
  bu_output : lenN (Buffers.output b) = 8;
  bu_mixture : lenN (Buffers.mixture b) = 8
}.
Lemma post_bf16_matrix {B} matrix rows columns input dispatch at_ workspace output operation
    (f : GemvWorkspace.t * list f32 -> rresult B) Q :
  bf16_ok rows columns matrix -> dispatch_ok dispatch -> FiniteInput.len input = columns ->
  lenN output = rows ->
  (forall ws out, lenN out = rows -> post (f (ws, out)) Q numeric) ->
  post (run_bf16_matrix matrix input dispatch at_ workspace output operation ≫= f) Q numeric.
Proof.
  intros. apply post_bind. eapply post_strengthen; [by eapply run_bf16_matrix_post|]. intros [ws out] ?. auto.
Qed.
Lemma post_finite_input {B} values operation (f : FiniteInput.t -> rresult B) Q :
  post (f (FiniteInput.mk values)) Q numeric ->
  post (map_err (expert_kernel_error operation) (FiniteInput.new values) ≫= f) Q numeric.
Proof.
  intros Hf. unfold FiniteInput.new. rewrite first_bad_spec.
  by destruct (first_index nonfinite values) as [[i v]|].
Qed.
Lemma run_bf16_expert_post experts dispatch at_ input b p :
  Forall bf16_expert_ok experts -> dispatch_ok dispatch -> p.2.1 < lenN experts ->
  FiniteInput.len input = 8 -> buffers_ok b ->
  post (run_bf16_expert experts dispatch at_ input b p) buffers_ok numeric.
Proof.
  intros He Hd Hid Hi Hb. destruct p as [slot [id weight]]. unfold run_bf16_expert.
  destruct (lookup_lt_is_Some_2 experts (N.to_nat id)) as [e Hl]; [unfold lenN in Hid; simpl in Hid; lia|].
  rewrite Hl. cbn [expect mbind result_bind]. eapply Forall_lookup_1 in He as (Hg & Hu & Hdn); [|done].
  eapply post_bf16_matrix; [done..|apply Hb|]. intros ws gate Hgate.
  eapply post_bf16_matrix; [done..|apply Hb|]. intros ws' up Hup.
  apply post_finite_input. eapply post_bf16_matrix; [done..| |apply Hb|].
  - unfold FiniteInput.len. simpl. unfold lenN. rewrite length_zip_update. apply Hb.
  - intros ws'' out Hout. split; simpl; try done.
    + unfold lenN. rewrite length_zip_update. apply Hb.
    + unfold lenN, accumulate. rewrite length_zip_update. apply Hb.
Qed.

Lemma elem_of_zip_ids (ids : list N) (ws : list f32) p : p ∈ zip ids ws -> p.1 ∈ ids.
Proof. destruct p. apply elem_of_zip_l. Qed.

Lemma run_experts_post at_ experts position ids weights normalized mixture :
  experts_ok experts -> Forall (fun i => i < 4) ids -> lenN normalized = 8 -> lenN mixture = 8 ->
  post (run_experts at_ experts TinyConfig.reference position ids weights normalized mixture)
    (fun out => lenN out = 8) numeric.
Proof.
  intros He Hids Hn Hm. rewrite Forall_forall in Hids. destruct experts as [es|es dispatch]; simpl.
  - destruct He as [Hl He]. apply post_loop; [done|]. intros acc p Hp%elem_of_zip_ids Hacc.
    eapply post_strengthen; [apply run_f32_expert_post; [done| |done]|intros out Hout; by rewrite Hout].
    specialize (Hids _ Hp). unfold lenN. lia.
  - destruct He as (Hl & He & Hd). unfold accumulate_bf16_experts. apply post_finite_input. apply post_bind.
    eapply post_strengthen.
    + apply (post_loop _ buffers_ok); [by split|]. intros b [slot p] Hp%elem_of_zip_r%elem_of_zip_ids Hb.
      apply run_bf16_expert_post; try done. specialize (Hids _ Hp). unfold lenN. simpl. lia.
    + intros b Hb. apply Hb.
Qed.

(** ** Blocks *)

(** What a state looks like after a step. *)
Definition extends (model : TinyModel.t) (state pending : SequenceState.t) : Prop :=
  exists key value, SequenceState.keys pending = SequenceState.keys state ++ [key]
    /\ SequenceState.values pending = SequenceState.values state ++ [value]
    /\ SequenceState.model_instance_id pending = Some (TinyModel.instance_id model).

Lemma attention_block_post model state token :
  model_ok model -> state_ok state -> token < 32 -> SequenceState.len state < 16 ->
  post (attention_block model state token)
    (fun '(pending, residual) => state_ok pending /\ extends model state pending
       /\ lenN residual = 8 /\ all_finite residual) numeric.
Proof.
  intros [Hc Hw] Hs Ht Hlen. unfold attention_block. rewrite Hc.
  destruct (tensor_row_ok (Weights.token_embedding (TinyModel.weights model)) 32 8 token)
    as (residual & -> & Hr); [apply Hw|done|done|done|]. cbn [mbind result_bind].
  apply post_bind. eapply post_strengthen; [apply rms_norm_post; [done|apply Hw]|]. intros normalized [Hn _].
  eapply post_linear; [apply Hw|done..|]. intros query Hq.
  eapply post_linear; [apply Hw|done..|]. intros key Hk.
  eapply post_linear; [apply Hw|done..|]. intros value Hv.
  set (pending := SequenceState.mk _ _ _).
  assert (state_ok pending) as Hp.
  { destruct Hs as [H1 H2 H3 H4]. split; simpl.
    - apply Forall_app. split; [done|]. by constructor.
    - apply Forall_app. split; [done|]. by constructor.
    - rewrite !length_app. simpl. lia.
    - unfold SequenceState.len, lenN in *. simpl. rewrite length_app. simpl. lia. }
  apply post_bind. eapply post_strengthen; [by apply causal_attention_post|]. intros attended [Ha _].
  eapply post_linear; [apply Hw|done..|]. intros out Ho. apply post_finite. intros Hf.
  split_and!; [done|by eexists _, _| |done].
  unfold lenN, add_in_place in *. by rewrite length_zip_update.
Qed.

(** A routing decision: finite scores of all experts, the best of them with weights. *)
Record route_ok (r : RouteDecision.t) : Prop := {
  ro_scores : lenN (RouteDecision.scores r) = 4 /\ all_finite (RouteDecision.scores r);
  ro_ids : RouteDecision.expert_ids r = stable_top_k (RouteDecision.scores r) 2;
  ro_count : lenN (RouteDecision.expert_ids r) = 2;
  ro_weights : lenN (RouteDecision.weights r) = 2 /\ all_finite (RouteDecision.weights r)
}.
Lemma all_finite_no_nan values : all_finite values -> no_nan values.
Proof. intros Hf. apply (Forall_impl _ _ _ Hf F32Facts.is_finite_not_nan). Qed.

Lemma expert_block_post at_ model position residual :
  model_ok model -> lenN residual = 8 ->
  post (expert_block at_ model position residual)
    (fun '(route, residual') => route_ok route /\ lenN residual' = 8 /\ all_finite residual') numeric.
Proof.
  intros [Hc Hw] Hr. unfold expert_block. rewrite Hc.
  apply post_bind. eapply post_strengthen; [apply rms_norm_post; [done|apply Hw]|]. intros normalized [Hn _].
  eapply post_linear; [apply Hw|done..|]. intros scores Hs. apply post_finite. intros Hf.
  destruct (stable_top_k_spec scores (TinyConfig.top_k TinyConfig.reference)) as (_ & Hlen & Hin & _);
    [by apply all_finite_no_nan|]. rewrite Hs in Hlen, Hin.
  set (ids := stable_top_k scores _) in *.
  apply post_bind. eapply post_strengthen; [apply (post_mapM _ (fun _ => True))|].
  { intros i Hi. rewrite Forall_forall in Hin. specialize (Hin i Hi). by apply post_at_index; [lia|]. }
  intros selected [Hsel _]. apply post_bind. eapply post_strengthen; [apply softmax_post|].
  intros weights [Hwl Hwf]. apply post_bind. eapply post_strengthen.
  { by apply run_experts_post; [apply Hw| | |]. }
  intros mixture Hm. apply post_finite. intros _. apply post_finite. intros Hfin.
  split_and!; [|by unfold lenN, add_in_place in *; rewrite length_zip_update|done].
  split; simpl; [done|done|done|]. split; [|done]. unfold lenN in *. rewrite Hwl, Hsel. done.
Qed.
End experts.

(** ** The whole step *)

Record output_ok (token : N) (out : StepOutput.t) : Prop := {
  ou_token : StepOutput.input_token out = token;
  ou_logits : lenN (StepOutput.logits out) = 32;
  ou_finite : all_finite (StepOutput.logits out);
  ou_route : route_ok (StepOutput.route out)
}.
(** A state that the model may extend. *)
Definition owned (model : TinyModel.t) (state : SequenceState.t) : Prop :=
  match SequenceState.model_instance_id state with
  | Some instance_id => instance_id = TinyModel.instance_id model
  | None => True
  end.
(** Why a step fails, in the order of the checks. *)
Definition step_error (model : TinyModel.t) (state : SequenceState.t) (token : N) (e : RuntimeError.t) : Prop :=
  (32 <= token /\ e = RuntimeError.InvalidToken token 32)
  \/ (token < 32 /\ 16 <= SequenceState.len state /\ e = RuntimeError.ContextLimit 16)
  \/ (token < 32 /\ SequenceState.len state < 16 /\ ~ owned model state /\ e = RuntimeError.StateMismatch)
  \/ (token < 32 /\ SequenceState.len state < 16 /\ owned model state /\ numeric e).

Lemma forward_step_post `{Platform} at_ model state token :
  model_ok model -> state_ok state ->
  post (forward_step at_ model state token)
    (fun '(pending, out) => token < 32 /\ SequenceState.len state < 16 /\ owned model state
       /\ state_ok pending /\ extends model state pending /\ output_ok token out)
    (step_error model state token).
Proof.
  intros Hm Hs. unfold forward_step. destruct Hm as [Hc Hw] eqn:Em. rewrite Hc.
  apply post_bind, post_guard. { intros Ht%N.leb_le. left. done. }
  intros Ht%N.leb_gt. apply post_bind, post_guard. { intros Hl%N.leb_le. right; left. done. }
  intros Hl%N.leb_gt. change (TinyConfig.vocab_size TinyConfig.reference) with 32 in *.
  change (TinyConfig.context_length TinyConfig.reference) with 16 in *.
  assert (owned model state <-> match SequenceState.model_instance_id state with
    | Some i => negb (i =? TinyModel.instance_id model) | None => false end = false) as Ho.
  { unfold owned. destruct (SequenceState.model_instance_id state) as [i|]; [|done].
    by rewrite negb_false_iff, N.eqb_eq. }
  apply post_bind, post_guard.
  { intros Hb. right; right; left. split_and!; try done. by rewrite Ho, Hb. }
  intros Hb. apply Ho in Hb. clear Ho.
  assert (forall e, numeric e -> step_error model state token e) as Hnum by (intros; right; right; right; done).
  eapply post_mono; [|intros a Ha; exact Ha|exact Hnum].
  apply post_bind. eapply post_strengthen; [by apply attention_block_post|].
  intros [pending residual] (Hp & Hx & Hr & _).
  apply post_bind. eapply post_strengthen; [by apply expert_block_post|].
  intros [route residual'] (Hroute & Hr' & _).
  apply post_bind. eapply post_strengthen; [apply rms_norm_post; [done|apply Hw]|]. intros normalized [Hn _].
  eapply post_linear; [apply Hw|done..|]. intros logits Hlg. apply post_finite. intros Hf.
  split_and!; done.
Qed.
