(* ===== verification/RuntimeLoad.v ===== *)
(** Loading a model: what an accepted model looks like, and that metadata which
    passes the checks leaves no error but the bytes themselves.

    Loading a verified artifact: its tensors are there, of the declared length, so
    that only numbers that are not finite can stop the load. *)
From stdpp Require Import prelude gmap strings pretty sorting.
From S2P Require Import Prelude FormatManifest FormatSchema FormatArtifact FormatVerify KernelFloat.
From S2P Require Import Kernel KernelFacts Runtime RuntimeForward RuntimeRoute RuntimeStep.
#[local] Open Scope N_scope.

(** ** Tensors *)

Lemma elements_product shape total n :
  foldl (fun total dimension =>
    total ← total; if dimension =? 0 then None else checked_mul usize_max total dimension) (Some total) shape = Some n ->
  n = total * foldr N.mul 1 shape.
Proof.
  revert total. induction shape as [|d shape IH]; intros total; simpl; [intros [= <-]; lia|].
  destruct (d =? 0). { intros Hf. exfalso. revert Hf. clear. by induction shape. }
  destruct (checked_mul usize_max total d) as [p|] eqn:E.
  - intros Hf%IH. apply checked_mul_Some in E as [-> _]. lia.
  - intros Hf. exfalso. revert Hf. clear. by induction shape.
Qed.

Lemma tensor_new_post role shape data :
  post (Tensor.new role shape data) (tensor_ok shape) (fun _ => True).
Proof.
  unfold Tensor.new. apply post_bind, post_guard; [done|]. intros _.
  apply post_bind, post_guard; [done|]. intros He%bool_decide_eq_false%dec_stable.
  apply post_bind, post_guard; [done|]. intros Hf%existsb_nonfinite.
  split; [done| |done]. simpl. apply elements_product in He. lia.
Qed.
Lemma decode_f32_post role shape bytes :
  post (decode_f32_tensor role shape bytes) (tensor_ok shape) (fun _ => True).
Proof. apply post_bind, post_guard; [done|]. intros _. apply tensor_new_post. Qed.

(** ** Assembling a model from catalogs *)

(** Tensors as [Tensor::new] makes them. *)
Definition catalog_ok (tensors : TensorCatalog) : Prop := map_Forall (fun _ t => tensor_ok (Tensor.shape t) t) tensors.
Definition bf16_catalog_ok (tensors : gmap string Bf16Matrix.t) : Prop := map_Forall (fun _ => matrix_ok) tensors.

Lemma post_take {B} tensors role shape (f : TensorCatalog * Tensor.t -> rresult B) Q :
  catalog_ok tensors ->
  (forall t, catalog_ok (delete role tensors) -> tensor_ok shape t -> post (f (delete role tensors, t)) Q (fun _ => True)) ->
  post (take tensors role shape ≫= f) Q (fun _ => True).
Proof.
  intros Hc Hf. unfold take. destruct (tensors !! role) as [t|] eqn:E; [|done]. cbn [ok_or mbind result_bind].
  destruct (bool_decide (Tensor.shape t <> shape)) eqn:Hs; [done|]. apply bool_decide_eq_false, dec_stable in Hs.
  cbn [guard_err mbind result_bind]. apply Hf; [by apply map_Forall_delete|]. rewrite <- Hs. by eapply Hc.
Qed.
Lemma post_take_bf16 {B} tensors role rows columns (f : gmap string Bf16Matrix.t * Bf16Matrix.t -> rresult B) Q :
  bf16_catalog_ok tensors ->
  (forall m, bf16_catalog_ok (delete role tensors) -> bf16_ok rows columns m ->
     post (f (delete role tensors, m)) Q (fun _ => True)) ->
  post (take_bf16 tensors role rows columns ≫= f) Q (fun _ => True).
Proof.
  intros Hc Hf. unfold take_bf16. destruct (tensors !! role) as [m|] eqn:E; [|done]. cbn [ok_or mbind result_bind].
  destruct (negb (Bf16Matrix.rows m =? rows) || negb (Bf16Matrix.columns m =? columns)) eqn:Hs; [done|].
  apply orb_false_iff in Hs as [Hr%negb_false_iff%N.eqb_eq Hcl%negb_false_iff%N.eqb_eq].
  cbn [guard_err mbind result_bind]. apply Hf; [by apply map_Forall_delete|]. split; [by eapply Hc|done..].
Qed.

Lemma validate_reference config (Q : unit -> Prop) :
  (config = TinyConfig.reference -> Q tt) -> post (TinyConfig.validate config) Q (fun _ => True).
Proof.
  intros HQ. unfold TinyConfig.validate.
  do 5 (apply post_bind, post_guard; [done|]; intros _).
  apply post_guard; [done|]. intros Hc%bool_decide_eq_false%dec_stable. auto.
Qed.

(** What loading promises of a model. *)
Definition built (next_id : N) (experts : Experts.t) (p : TinyModel.t * N) : Prop :=
  model_ok p.1 /\ TinyModel.instance_id p.1 = next_id /\ p.2 = wrapping_add u64_max next_id 1
  /\ Weights.experts (TinyModel.weights p.1) = experts.

Lemma from_components_post next_id tensors experts :
  catalog_ok tensors -> experts_ok experts ->
  post (TinyModel.from_components next_id TinyConfig.reference tensors experts) (built next_id experts) (fun _ => True).
Proof.
  intros Hc He. unfold TinyModel.from_components.
  do 10 (apply post_take; [done|]; clear Hc; intros ? Hc ?).
  apply post_bind. destruct (head _); [done|]. simpl. split; [|done]. split; [done|]. by split.
Qed.

Lemma take_experts_post tensors :
  catalog_ok tensors ->
  post (try_fold (TinyModel.take_expert TinyConfig.reference) (tensors, []) (rangeN 4))
    (fun '(tensors, experts) => catalog_ok tensors /\ length experts = 4%nat /\ Forall f32_expert_ok experts)
    (fun _ => True).
Proof.
  intros Hc. eapply post_strengthen.
  - apply (post_try_fold _ _ (fun prefix '(tensors, experts) =>
      catalog_ok tensors /\ length experts = length prefix /\ Forall f32_expert_ok experts)); [done|].
    intros prefix expert rest [ts es] _ (Hts & Hl & Hes). unfold TinyModel.take_expert.
    do 3 (apply post_take; [done|]; clear Hts; intros ? Hts ?).
    simpl. split_and!; [done| |].
    + rewrite !length_app. simpl. lia.
    + apply Forall_app. split; [done|]. constructor; [|done]. by split_and!.
  - intros [ts es] (? & ? & ?). done.
Qed.
Lemma take_bf16_experts_post tensors :
  bf16_catalog_ok tensors ->
  post (try_fold (TinyModel.take_bf16_expert TinyConfig.reference) (tensors, []) (rangeN 4))
    (fun '(tensors, experts) => length experts = 4%nat /\ Forall bf16_expert_ok experts) (fun _ => True).
Proof.
  intros Hc. eapply post_strengthen.
  - apply (post_try_fold _ _ (fun prefix '(tensors, experts) =>
      bf16_catalog_ok tensors /\ length experts = length prefix /\ Forall bf16_expert_ok experts)); [done|].
    intros prefix expert rest [ts es] _ (Hts & Hl & Hes). unfold TinyModel.take_bf16_expert.
    do 3 (apply post_take_bf16; [done|]; clear Hts; intros ? Hts ?).
    simpl. split_and!; [done| |].
    + rewrite !length_app. simpl. lia.
    + apply Forall_app. split; [done|]. constructor; [|done]. by split_and!.
  - intros [ts es] (_ & ? & ?). done.
Qed.

Lemma from_catalog_post next_id config tensors :
  catalog_ok tensors ->
  post (TinyModel.from_catalog next_id config tensors)
    (fun p => exists experts, built next_id (Experts.F32 experts) p) (fun _ => True).
Proof.
  intros Hc. unfold TinyModel.from_catalog. apply post_bind, validate_reference. intros ->.
  apply post_bind. eapply post_strengthen; [by apply take_experts_post|].
  intros [ts es] (Hts & Hl & Hes). eapply post_strengthen; [by apply from_components_post|]. eauto.
Qed.
Lemma from_bf16_catalog_post next_id config tensors bf16_tensors dispatch :
  catalog_ok tensors -> bf16_catalog_ok bf16_tensors -> dispatch_ok dispatch ->
  post (TinyModel.from_bf16_catalog next_id config tensors bf16_tensors dispatch)
    (fun p => exists experts, built next_id (Experts.Bf16 experts dispatch) p) (fun _ => True).
Proof.
  intros Hc Hb Hd. unfold TinyModel.from_bf16_catalog. apply post_bind, validate_reference. intros ->.
  apply post_bind. eapply post_strengthen; [by apply take_bf16_experts_post|].
  intros [ts es] (Hl & Hes). apply post_bind. destruct (head _); [done|]. cbn [post].
  eapply post_strengthen; [by apply from_components_post|]. eauto.
Qed.

(** ** Metadata *)

Definition describes (d : TensorRecord.t) (e : ExpectedTensor.t) : Prop :=
  TensorRecord.role d = ExpectedTensor.role e /\ TensorRecord.dtype d = ExpectedTensor.dtype e
  /\ TensorRecord.shape d = ExpectedTensor.shape e.

Lemma shapes_equal (l k : list N) :
  lenN l = lenN k -> existsb (fun p => negb (p.1 =? p.2)) (zip l k) = false -> l = k.
Proof.
  unfold lenN. revert k. induction l as [|x l IH]; intros [|y k] Hl He; simpl in *; try done; try lia.
  apply orb_false_iff in He as [->%negb_false_iff%N.eqb_eq He]. f_equal. apply IH; [lia|done].
Qed.
Lemma check_descriptor_post version d e (Q : unit -> Prop) :
  (describes d e -> Q tt) -> post (check_descriptor version d e) Q (fun _ => True).
Proof.
  intros HQ. unfold check_descriptor. apply post_bind, post_guard; [done|].
  intros Hr%bool_decide_eq_false%dec_stable. apply post_bind, post_guard; [done|]. intros Hd%negb_false_iff.
  apply post_guard; [done|]. intros [Hl%negb_false_iff%N.eqb_eq Hs]%orb_false_iff.
  apply HQ. split_and!; [done| |by apply shapes_equal].
  by destruct (TensorRecord.dtype d), (ExpectedTensor.dtype e).
Qed.

(** The adapter version of a manifest. *)
Definition version_of (manifest : Manifest.t) : N := Adapter.version (Manifest.adapter manifest).

Lemma check_metadata_post manifest request :
  post (TinyModel.check_metadata manifest request)
    (fun config => config = TinyConfig.reference
       /\ (version_of manifest = 1 /\ request = BackendRequest.Auto \/ version_of manifest = 2)
       /\ Forall2 describes (Manifest.tensors manifest)
            (expected_tensors TinyConfig.reference (version_of manifest)))
    (fun _ => True).
Proof.
  unfold TinyModel.check_metadata. fold (version_of manifest).
  apply post_bind, post_guard; [done|]. intros [_ Hv%negb_false_iff]%orb_false_iff.
  apply post_bind, post_guard; [done|]. intros Hreq.
  apply post_bind, post_guard; [done|]. intros _.
  apply post_bind. eapply (post_strengthen _ (fun _ => True)).
  { unfold TinyModel.config_of, dimension. do 8 (apply post_bind, post_bind, post_guard; [done|]; intros _; simpl).
    done. }
  intros config _. apply post_bind, validate_reference. intros ->.
  apply post_bind, post_guard; [done|]. intros Hl%negb_false_iff%N.eqb_eq.
  apply post_bind. eapply post_strengthen.
  - apply (post_try_fold _ _ (fun done _ => Forall (fun p => describes p.1 p.2) done)); [constructor|].
    intros prefix p rest u _ Hp. apply check_descriptor_post. intros Hd. apply Forall_app. split; [done|].
    by constructor.
  - intros u Hf. cbn [post]. split_and!; [done| |].
    + apply orb_true_iff in Hv as [Hv%N.eqb_eq|Hv%N.eqb_eq]; [left|by right]. split; [done|].
      rewrite Hv in Hreq. apply andb_false_iff in Hreq as [?|Hreq%bool_decide_eq_false%dec_stable]; done.
    + apply Forall2_same_length_lookup_2; [unfold lenN in Hl; lia|]. intros i d e Hd He.
      apply (Forall_lookup_1 _ _ i (d, e) Hf), lookup_zip_Some. done.
Qed.

(** ** Fetching *)

(** What a catalog should hold, by role. *)
Abbreviation roles := (gmap string (list N)).
Definition bf16_shaped (shape : list N) (m : Bf16Matrix.t) : Prop :=
  match shape with [rows; columns] => bf16_ok rows columns m | _ => False end.
Definition holds (spec : roles) (tensors : TensorCatalog) : Prop := map_Forall2 (fun _ => tensor_ok) spec tensors.
Definition holds_bf16 (spec : roles) (tensors : gmap string Bf16Matrix.t) : Prop :=
  map_Forall2 (fun _ => bf16_shaped) spec tensors.

Definition add_role (specs : roles * roles) (e : ExpectedTensor.t) : roles * roles :=
  match ExpectedTensor.dtype e with
  | DType.F32Le => (<[ExpectedTensor.role e := ExpectedTensor.shape e]> specs.1, specs.2)
  | _ => (specs.1, <[ExpectedTensor.role e := ExpectedTensor.shape e]> specs.2)
  end.
Definition loadable (e : ExpectedTensor.t) : Prop :=
  match ExpectedTensor.dtype e with
  | DType.F32Le => True
  | DType.Bf16Le => length (ExpectedTensor.shape e) = 2%nat
  | _ => False
  end.

Lemma map_Forall2_None {A B} (R : string -> A -> B -> Prop) (m1 : gmap string A) (m2 : gmap string B) i :
  map_Forall2 R m1 m2 -> m1 !! i = None -> m2 !! i = None.
Proof.
  intros Hm Hi. specialize (Hm i). rewrite Hi in Hm. destruct (m2 !! i); [inversion Hm|done].
Qed.

Section fetch.
Context (fetch : TinyModel.Fetch).
Hypothesis (Hfetch : forall n d, fetch n d <> Panic).

(** Fetching the [n]-th tensor alone fails. *)
Definition fetch_fails (n : N) (d : TensorRecord.t) (e : RuntimeError.t) : Prop :=
  TinyModel.load_tensor fetch (Loading.mk n ∅ ∅) d = Err e.

Lemma load_tensor_post specs s d e :
  describes d e -> loadable e ->
  holds specs.1 (Loading.f32_tensors s) -> holds_bf16 specs.2 (Loading.bf16_tensors s) ->
  specs.1 !! ExpectedTensor.role e = None -> specs.2 !! ExpectedTensor.role e = None ->
  post (TinyModel.load_tensor fetch s d)
    (fun s' => Loading.fetched s' = Loading.fetched s + 1
       /\ holds (add_role specs e).1 (Loading.f32_tensors s')
       /\ holds_bf16 (add_role specs e).2 (Loading.bf16_tensors s'))
    (fetch_fails (Loading.fetched s) d).
Proof.
  intros (Hrole & Hdtype & Hshape) Hload Hf Hb Hnf Hnb. unfold fetch_fails, TinyModel.load_tensor, add_role.
  cbn [Loading.fetched Loading.f32_tensors Loading.bf16_tensors].
  pose proof (Hfetch (Loading.fetched s) d) as Hne.
  destruct (fetch (Loading.fetched s) d) as [bytes|err|]; cbn [mbind result_bind]; [|done|done].
  repeat match goal with
  | |- context [guard_err ?b _] => destruct b; cbn [guard_err mbind result_bind]; [done|]
  end.
  rewrite Hdtype, Hrole, Hshape, (map_Forall2_None _ _ _ _ Hf Hnf), (map_Forall2_None _ _ _ _ Hb Hnb), !lookup_empty.
  unfold loadable in Hload. destruct (ExpectedTensor.dtype e); [| |done|done].
  - pose proof (decode_f32_post (ExpectedTensor.role e) (ExpectedTensor.shape e) bytes) as Hp.
    destruct (decode_f32_tensor _ _ bytes) as [t|err|]; [|done|done]. cbn [mbind result_bind post].
    split_and!; [done| |done]. by apply map_Forall2_insert_2.
  - destruct (ExpectedTensor.shape e) as [|rows [|columns [|? ?]]] eqn:Hs; [done|done| |done].
    pose proof (from_le_bytes_spec rows columns bytes) as Hp.
    destruct (Bf16Matrix.from_le_bytes rows columns bytes) as [m|err|]; [|done|done].
    destruct Hp as [Hm ->]. cbn [map_err mbind result_bind post].
    split_and!; [done|done|]. apply map_Forall2_insert_2; [|done]. by split.
Qed.

Lemma load_loop_post ds es specs s :
  Forall2 describes ds es -> Forall loadable es -> NoDup (ExpectedTensor.role <$> es) ->
  holds specs.1 (Loading.f32_tensors s) -> holds_bf16 specs.2 (Loading.bf16_tensors s) ->
  Forall (fun e => specs.1 !! ExpectedTensor.role e = None /\ specs.2 !! ExpectedTensor.role e = None) es ->
  post (try_fold (TinyModel.load_tensor fetch) s ds)
    (fun s' => holds (foldl add_role specs es).1 (Loading.f32_tensors s')
       /\ holds_bf16 (foldl add_role specs es).2 (Loading.bf16_tensors s'))
    (fun err => exists i d, ds !! i = Some d /\ fetch_fails (Loading.fetched s + N.of_nat i) d err).
Proof.
  intros Hd. revert specs s. induction Hd as [|d e ds es Hde _ IH]; intros specs s Hl Hnd Hf Hb Hfresh; [done|].
  apply Forall_cons in Hl as [Hle Hl]. apply Forall_cons in Hfresh as [[Hn1 Hn2] Hfresh].
  rewrite fmap_cons, NoDup_cons in Hnd. destruct Hnd as [Hnot Hnd]. cbn [try_fold foldl]. apply post_bind.
  eapply post_mono; [by apply load_tensor_post| |].
  - intros s' (Hn & Hf' & Hb'). eapply post_mono; [apply (IH (add_role specs e) s' Hl Hnd Hf' Hb')|done|].
    + rewrite Forall_forall in *. intros e' He'. destruct (Hfresh e' He') as [? ?].
      assert (ExpectedTensor.role e <> ExpectedTensor.role e') as Hne.
      { intros Heq. apply Hnot. rewrite Heq. by apply list_elem_of_fmap_2. }
      unfold add_role. destruct (ExpectedTensor.dtype e); simpl; rewrite ?lookup_insert_ne by done; done.
    + intros err (i & d' & Hi & He). exists (S i), d'. split; [done|]. rewrite Hn in He.
      by replace (Loading.fetched s + N.of_nat (S i)) with (Loading.fetched s + 1 + N.of_nat i) by lia.
  - intros err He. exists 0%nat, d. split; [done|]. by rewrite N.add_0_r.
Qed.
End fetch.

(** ** Catalogs that hold what is expected *)

Definition specs_of (version : N) : roles * roles :=
  foldl add_role (∅, ∅) (expected_tensors TinyConfig.reference version).

Lemma post_take_holds {B} spec tensors role shape (f : TensorCatalog * Tensor.t -> rresult B) Q X :
  holds spec tensors -> spec !! role = Some shape ->
  (forall t, holds (delete role spec) (delete role tensors) -> post (f (delete role tensors, t)) Q X) ->
  post (take tensors role shape ≫= f) Q X.
Proof.
  intros Hh Hr Hf. unfold take. pose proof (Hh role) as Ht. rewrite Hr in Ht.
  destruct (tensors !! role) as [t|]; inversion Ht as [? ? Hok|]; subst. cbn [ok_or mbind result_bind].
  rewrite (te_shape _ _ Hok), bool_decide_eq_false_2 by (intros Hn; by apply Hn).
  cbn [guard_err mbind result_bind]. apply Hf. by apply map_Forall2_delete.
Qed.
Lemma post_take_holds_bf16 {B} spec tensors role rows columns
    (f : gmap string Bf16Matrix.t * Bf16Matrix.t -> rresult B) Q X :
  holds_bf16 spec tensors -> spec !! role = Some [rows; columns] ->
  (forall m, holds_bf16 (delete role spec) (delete role tensors) -> post (f (delete role tensors, m)) Q X) ->
  post (take_bf16 tensors role rows columns ≫= f) Q X.
Proof.
  intros Hh Hr Hf. unfold take_bf16. pose proof (Hh role) as Ht. rewrite Hr in Ht.
  destruct (tensors !! role) as [m|]; inversion Ht as [? ? Hok|]; subst. cbn [ok_or mbind result_bind].
  destruct Hok as [_ -> ->]. rewrite !N.eqb_refl. cbn [negb orb guard_err mbind result_bind].
  apply Hf. by apply map_Forall2_delete.
Qed.
Lemma holds_empty spec tensors : holds spec tensors -> spec = ∅ -> head (btree_keys tensors) = None.
Proof. intros Hh ->. apply map_Forall2_empty_inv_l in Hh as ->. done. Qed.
Lemma holds_bf16_empty spec tensors : holds_bf16 spec tensors -> spec = ∅ -> head (btree_keys tensors) = None.
Proof. intros Hh ->. apply map_Forall2_empty_inv_l in Hh as ->. done. Qed.

(** The tensors that are not of experts. *)
Definition component_spec : roles := (specs_of 2).1.

Lemma from_components_complete next_id tensors experts :
  holds component_spec tensors ->
  post (TinyModel.from_components next_id TinyConfig.reference tensors experts) (fun _ => True) (fun _ => False).
Proof.
  intros Hh. unfold TinyModel.from_components.
  do 10 (eapply post_take_holds; [exact Hh|vm_compute; reflexivity|]; clear Hh; intros ? Hh).
  rewrite (holds_empty _ _ Hh) by (vm_compute; reflexivity). done.
Qed.
Lemma from_catalog_complete next_id tensors :
  holds (specs_of 1).1 tensors ->
  post (TinyModel.from_catalog next_id TinyConfig.reference tensors) (fun _ => True) (fun _ => False).
Proof.
  intros Hh. unfold TinyModel.from_catalog.
  change (TinyConfig.validate TinyConfig.reference) with (Ok (E:=RuntimeError.t) tt).
  cbn [mbind result_bind]. apply post_bind. eapply (post_strengthen _ (fun p => holds component_spec p.1)).
  - change (rangeN (TinyConfig.num_experts TinyConfig.reference)) with [0; 1; 2; 3].
    cbn [try_fold]. unfold TinyModel.take_expert.
    do 4 (apply post_bind; do 3 (eapply post_take_holds; [exact Hh|vm_compute; reflexivity|];
      clear Hh; intros ? Hh); cbn [post]).
    refine (eq_rect _ (fun spec => holds spec _) Hh _ _). apply (bool_decide_unpack _). vm_compute. exact I.
  - intros [ts es] Hts. by apply from_components_complete.
Qed.
Lemma from_bf16_catalog_complete next_id tensors bf16_tensors dispatch :
  holds (specs_of 2).1 tensors -> holds_bf16 (specs_of 2).2 bf16_tensors ->
  post (TinyModel.from_bf16_catalog next_id TinyConfig.reference tensors bf16_tensors dispatch)
    (fun _ => True) (fun _ => False).
Proof.
  intros Hh Hb. unfold TinyModel.from_bf16_catalog.
  change (TinyConfig.validate TinyConfig.reference) with (Ok (E:=RuntimeError.t) tt).
  cbn [mbind result_bind]. apply post_bind. eapply (post_strengthen _ (fun p => head (btree_keys p.1) = None)).
  - change (rangeN (TinyConfig.num_experts TinyConfig.reference)) with [0; 1; 2; 3].
    cbn [try_fold]. unfold TinyModel.take_bf16_expert.
    do 4 (apply post_bind; do 3 (eapply post_take_holds_bf16; [exact Hb|vm_compute; reflexivity|];
      clear Hb; intros ? Hb); cbn [post]).
    cbn [post fst]. apply (holds_bf16_empty _ _ Hb). vm_compute. reflexivity.
  - intros [ts es] Hts. cbn [fst] in Hts. rewrite Hts. cbn [mbind result_bind]. by apply from_components_complete.
Qed.

(** ** From a manifest *)

Lemma expected_loadable version : version = 1 \/ version = 2 ->
  Forall loadable (expected_tensors TinyConfig.reference version)
  /\ NoDup (ExpectedTensor.role <$> expected_tensors TinyConfig.reference version).
Proof.
  intros [-> | ->]; (split; [repeat constructor | apply (bool_decide_unpack _); vm_compute; exact I]).
Qed.
Lemma holds_catalog_ok spec tensors : holds spec tensors -> catalog_ok tensors.
Proof.
  intros Hh i t Ht. pose proof (Hh i) as Hi. rewrite Ht in Hi. inversion Hi as [s ? Hok|]; subst.
  by rewrite (te_shape _ _ Hok).
Qed.
Lemma holds_bf16_catalog_ok spec tensors : holds_bf16 spec tensors -> bf16_catalog_ok tensors.
Proof.
  intros Hh i m Hm. pose proof (Hh i) as Hi. rewrite Hm in Hi. inversion Hi as [s ? Hok|]; subst.
  unfold bf16_shaped in Hok. destruct s as [|? [|? [|? ?]]]; try done. apply Hok.
Qed.

Section load.
Context `{Platform} (next_id : N) (manifest : Manifest.t) (request : BackendRequest.t) (fetch : TinyModel.Fetch).
Hypothesis (Hfetch : forall n d, fetch n d <> Panic).

(** The backend that the request selects on this machine. *)
Definition selected : kresult BackendKind.t := select_backend request Capabilities.detected.
(** The model that a load returns. *)
Definition loaded (p : TinyModel.t * N) : Prop :=
  model_ok p.1 /\ TinyModel.instance_id p.1 = next_id /\ p.2 = wrapping_add u64_max next_id 1
  /\ ((version_of manifest = 1 /\ TinyModel.expert_backend p.1 = None)
      \/ (version_of manifest = 2 /\ exists backend, selected = Ok backend
          /\ TinyModel.expert_backend p.1 = Some backend)).
(** Everything that may go wrong: the metadata, the backend, the bytes of one tensor. *)
Definition load_error (e : RuntimeError.t) : Prop :=
  TinyModel.check_metadata manifest request = Err e
  \/ (version_of manifest = 2 /\ exists source, selected = Err source
      /\ e = RuntimeError.ExpertKernel "backend selection" source)
  \/ (exists i d, Manifest.tensors manifest !! i = Some d /\ fetch_fails fetch (N.of_nat i) d e).

Lemma post_combine {E A} (m : result E A) (Q : A -> Prop) :
  post m Q (fun _ => True) -> post m (fun _ => True) (fun _ => False) -> forall X : E -> Prop, post m Q X.
Proof. by destruct m. Qed.
Lemma built_backend experts p : built next_id experts p ->
  TinyModel.expert_backend p.1 = match experts with
    | Experts.F32 _ => None | Experts.Bf16 _ d => Some (ExpertDispatch.backend d) end.
Proof. intros (_ & _ & _ & He). unfold TinyModel.expert_backend. by rewrite He. Qed.

Lemma fetched_post :
  version_of manifest = 1 \/ version_of manifest = 2 ->
  Forall2 describes (Manifest.tensors manifest) (expected_tensors TinyConfig.reference (version_of manifest)) ->
  post (try_fold (TinyModel.load_tensor fetch) (Loading.mk 0 ∅ ∅) (Manifest.tensors manifest))
    (fun s => holds (specs_of (version_of manifest)).1 (Loading.f32_tensors s)
              /\ holds_bf16 (specs_of (version_of manifest)).2 (Loading.bf16_tensors s)) load_error.
Proof.
  intros Hv Hd. destruct (expected_loadable _ Hv) as [Hl Hn].
  eapply post_mono; [exact (load_loop_post fetch Hfetch _ _ (∅, ∅) (Loading.mk 0 ∅ ∅) Hd Hl Hn
    (map_Forall2_empty _) (map_Forall2_empty _) ltac:(by apply Forall_true))| |].
  - intros s Hs. exact Hs.
  - intros e (i & d & Hi & He). right; right. eauto.
Qed.

Lemma load_post :
  post (TinyModel.from_verified_tensor_bytes_with_backend next_id manifest request fetch) loaded load_error.
Proof.
  unfold TinyModel.from_verified_tensor_bytes_with_backend. fold (version_of manifest).
  pose proof (check_metadata_post manifest request) as Hm.
  destruct (TinyModel.check_metadata manifest request) as [config|e|] eqn:Hc; [| |done]; simpl in Hm.
  2: { by left. }
  destruct Hm as (-> & Hv & Hd). cbn [mbind result_bind].
  pose proof (fetched_post ltac:(tauto) Hd) as Hf. fold selected. destruct Hv as [[Hv _]|Hv]; rewrite Hv in *; simpl N.eqb.
  - cbn [mbind result_bind]. apply post_bind. eapply post_strengthen; [exact Hf|]. intros s [Hs _].
    apply post_combine; [|by apply from_catalog_complete].
    eapply post_strengthen; [by eapply from_catalog_post, holds_catalog_ok|].
    intros p [experts Hb]. split_and!; try apply Hb. left. split; [done|]. by rewrite (built_backend _ _ Hb).
  - destruct selected as [backend|source|] eqn:Hsel; cbn [map_err mbind result_bind].
    + apply post_bind. eapply post_strengthen; [exact Hf|]. intros s [Hs Hsb].
      apply post_combine; [|by apply from_bf16_catalog_complete].
      eapply post_strengthen; [eapply from_bf16_catalog_post|].
      * by eapply holds_catalog_ok.
      * by eapply holds_bf16_catalog_ok.
      * intros Hav. cbn [ExpertDispatch.backend ExpertDispatch.capabilities] in *. subst backend.
        unfold selected, select_backend in Hsel.
        by destruct request, (Capabilities.avx2 Capabilities.detected).
      * intros p [experts Hb]. split_and!; try apply Hb. right. split; [done|]. exists backend.
        by rewrite (built_backend _ _ Hb).
    + right; left. eauto.
    + unfold selected, select_backend in Hsel. by destruct request, (Capabilities.avx2 Capabilities.detected).
Qed.
End load.

(** ** Decoding *)

Lemma chunks_exact {A} w n (l : list A) fuel :
  length l = (w * n)%nat -> (0 < w)%nat -> (length l <= fuel)%nat ->
  Forall (fun c => length c = w) (chunks_loop fuel w l) /\ length (chunks_loop fuel w l) = n.
Proof.
  revert l fuel. induction n as [|n IH]; intros l fuel Hl Hw Hf.
  { destruct l; [|simpl in Hl; lia]. by destruct fuel. }
  destruct fuel as [|fuel]; [lia|]. destruct l as [|x l]; [simpl in Hl; lia|]. cbn [chunks_loop].
  destruct (IH (drop w (x :: l)) fuel) as [Hall Hn]; [rewrite length_drop; lia|done|rewrite length_drop; lia|].
  split; [constructor; [rewrite length_take; lia|done]|]. cbn [length]. by rewrite Hn.
Qed.
Lemma filter_all {A} (P : A -> Prop) `{forall x, Decision (P x)} l : Forall P l -> filter P l = l.
Proof. induction 1 as [|x l Hx _ IH]; [done|]. by rewrite filter_cons_True, IH. Qed.
Lemma length_words w n (bytes : list N) :
  lenN bytes = N.of_nat w * n -> (0 < w)%nat ->
  lenN (filter (fun c => length c = w) (chunks w bytes)) = n.
Proof.
  intros Hl Hw. unfold chunks. destruct (chunks_exact w (N.to_nat n) bytes (length bytes)) as [Hall Hn];
    [unfold lenN in Hl; lia|done|done|].
  rewrite filter_all by done. unfold lenN. lia.
Qed.

Lemma elements_within shape total :
  Forall (fun d => 0 < d) shape -> 0 < total -> total * foldr N.mul 1 shape <= usize_max ->
  foldl (fun total dimension =>
    total ← total; if dimension =? 0 then None else checked_mul usize_max total dimension) (Some total) shape
  = Some (total * foldr N.mul 1 shape).
Proof.
  intros Hs. revert total. induction Hs as [|d shape Hd Hs IH]; intros total Ht Hmax; simpl in *; [f_equal; lia|].
  destruct (N.eqb_spec d 0); [lia|].
  assert (0 < foldr N.mul 1 shape) as Hp by (clear -Hs; induction Hs; simpl; nia).
  unfold checked_mul at 2. destruct (N.leb_spec (total * d) usize_max); [|nia].
  rewrite IH by nia. f_equal. lia.
Qed.

(** ** One tensor *)

(** Numbers of the tensor are not finite. *)
Definition nonfinite_error (d : TensorRecord.t) (e : RuntimeError.t) : Prop :=
  (TensorRecord.dtype d = DType.F32Le
   /\ e = RuntimeError.InvalidTensor (TensorRecord.role d) "values must be finite")
  \/ (TensorRecord.dtype d = DType.Bf16Le
      /\ exists index bits,
           e = RuntimeError.InvalidBf16Tensor (TensorRecord.role d) (KernelError.NonFiniteWeight index bits)).

(** Shapes with few positive dimensions. *)
Definition small (shape : list N) : Prop :=
  shape <> [] /\ Forall (fun d => 0 < d <= 1024) shape /\ foldr N.mul 1 shape <= 1024.

Lemma decode_f32_error role shape bytes e :
  small shape -> lenN bytes = foldr N.mul 1 shape * 4 -> decode_f32_tensor role shape bytes = Err e ->
  e = RuntimeError.InvalidTensor role "values must be finite".
Proof.
  intros (Hne & Hd & Hp) Hl. unfold decode_f32_tensor. rewrite Hl, N.Div0.mod_mul. cbn [N.eqb negb guard_err mbind result_bind].
  set (values := from_le_bytes <$> _).
  assert (lenN values = foldr N.mul 1 shape) as Hv.
  { unfold values. unfold lenN at 1. rewrite length_fmap. apply (length_words 4); [|lia]. lia. }
  unfold Tensor.new. rewrite (bool_decide_eq_false_2 (shape = [])) by done. cbn [guard_err mbind result_bind].
  unfold Tensor.elements. rewrite elements_within; [|eapply Forall_impl; [done|]; simpl; lia|lia|].
  2: { unfold usize_max, u64_max. lia. }
  rewrite Hv, N.mul_1_l, bool_decide_eq_false_2 by (by intros []). cbn [guard_err mbind result_bind].
  destruct (existsb nonfinite values); cbn [guard_err mbind result_bind]; [by intros [= <-]|done].
Qed.
Lemma decode_bf16_error rows columns bytes e :
  small [rows; columns] -> lenN bytes = rows * columns * 2 -> Bf16Matrix.from_le_bytes rows columns bytes = Err e ->
  exists index bits, e = KernelError.NonFiniteWeight index bits.
Proof.
  intros (_ & Hd & Hp) Hl. cbn [foldr] in Hp. rewrite N.mul_1_r in Hp.
  apply Forall_cons in Hd as [Hr Hd]. apply Forall_cons in Hd as [Hc _].
  unfold Bf16Matrix.from_le_bytes, Bf16Matrix.from_words, Bf16Matrix.from_storage, validate_dimensions, checked_elements,
    validate_finite_words, checked_mul, checked_add.
  destruct (N.eqb_spec rows 0); [lia|]. destruct (N.eqb_spec columns 0); [lia|]. cbn [orb guard_err mbind result_bind].
  destruct (N.leb_spec (rows * columns) usize_max); [|unfold usize_max, u64_max in *; lia]. cbn [ok_or mbind result_bind].
  destruct (N.leb_spec (rows * columns * 2) usize_max); [|unfold usize_max, u64_max in *; lia]. cbn [ok_or mbind result_bind].
  rewrite Hl, N.eqb_refl. cbn [negb guard_err mbind result_bind]. rewrite N.add_0_l.
  destruct (N.leb_spec (rows * columns) usize_max); [|lia]. cbn [ok_or mbind result_bind].
  assert (lenN (decode_words bytes) = rows * columns) as Hw.
  { unfold decode_words, lenN. rewrite length_fmap. apply (length_words 2); [lia|lia]. }
  rewrite Hw, N.eqb_refl. cbn [negb guard_err mbind result_bind]. rewrite slice_Some by lia. cbn [expect mbind result_bind].
  rewrite first_bad_spec. destruct (first_index _ _) as [[i b]|]; cbn [mbind result_bind]; [|done].
  intros [= <-]. eauto.
Qed.

Lemma fetched_error fetch n d bytes e :
  fetch n d = Ok bytes -> lenN bytes = TensorRecord.length d ->
  TensorRecord.length d = foldr N.mul 1 (TensorRecord.shape d) * DType.byte_width (TensorRecord.dtype d) ->
  small (TensorRecord.shape d) ->
  (TensorRecord.dtype d = DType.Bf16Le -> length (TensorRecord.shape d) = 2%nat) ->
  fetch_fails fetch n d e -> nonfinite_error d e.
Proof.
  intros Hf Hl Hlen Hs Hrank. unfold fetch_fails, TinyModel.load_tensor, nonfinite_error.
  cbn [Loading.fetched Loading.f32_tensors Loading.bf16_tensors]. rewrite Hf. cbn [mbind result_bind].
  assert (TensorRecord.length d <= 4096) as Hmax.
  { rewrite Hlen. destruct Hs as (_ & _ & Hp). destruct (TensorRecord.dtype d); simpl; lia. }
  destruct (N.ltb_spec usize_max (TensorRecord.length d)); [unfold usize_max, u64_max in *; lia|].
  cbn [guard_err mbind result_bind]. rewrite Hl, N.eqb_refl. cbn [negb guard_err mbind result_bind].
  assert (existsb (fun dim => usize_max <? dim) (TensorRecord.shape d) = false) as ->.
  { destruct Hs as (_ & Hd & _). clear -Hd. induction Hd as [|x l Hx _ IH]; [done|]. cbn [existsb].
    destruct (N.ltb_spec usize_max x); [unfold usize_max, u64_max in *; lia|done]. }
  cbn [guard_err mbind result_bind]. rewrite !lookup_empty, Hlen in *.
  destruct (TensorRecord.dtype d) eqn:Hd; [| |done|done]; cbn [DType.byte_width] in *.
  - destruct (decode_f32_tensor _ _ bytes) as [t|err|] eqn:E; cbn [mbind result_bind]; [done| |done].
    intros [= <-]. left. split; [done|]. by eapply decode_f32_error.
  - specialize (Hrank eq_refl). destruct (TensorRecord.shape d) as [|rows [|columns [|? ?]]] eqn:Hsh; try done.
    cbn [foldr] in Hl. rewrite N.mul_1_r in Hl.
    destruct (Bf16Matrix.from_le_bytes rows columns bytes) as [m|err|] eqn:E; cbn [map_err mbind result_bind];
      [done| |done]. intros [= <-]. right. split; [done|].
    destruct (decode_bf16_error rows columns bytes err Hs Hl E) as (i & b & ->). eauto.
Qed.

(** ** Artifacts *)

Lemma expected_small version : version = 1 \/ version = 2 ->
  Forall (fun e => small (ExpectedTensor.shape e)) (expected_tensors TinyConfig.reference version).
Proof.
  intros [-> | ->]; (apply (Forall_impl (fun e => bool_decide (small (ExpectedTensor.shape e)) = true));
    [repeat constructor | intros e; apply bool_decide_eq_true]).
Qed.

(** The errors of a load from a verified artifact. *)
Definition artifact_error `{Platform} (manifest : Manifest.t) (request : BackendRequest.t) (e : RuntimeError.t) : Prop :=
  TinyModel.check_metadata manifest request = Err e
  \/ (version_of manifest = 2 /\ exists source, selected request = Err source
      /\ e = RuntimeError.ExpertKernel "backend selection" source)
  \/ (exists d, d ∈ Manifest.tensors manifest /\ nonfinite_error d e).

Lemma artifact_load_post `{Platform} sha256 limits a next_id request :
  limits_ok limits -> artifact_ok sha256 limits a ->
  post (TinyModel.from_artifact_with_backend next_id a request)
    (loaded next_id (Artifact.manifest a) request) (artifact_error (Artifact.manifest a) request).
Proof.
  intros Hlim Ha. unfold TinyModel.from_artifact_with_backend. set (fetch := fun _ _ => _).
  assert (forall n d, fetch n d <> Panic) as Hnp by (intros n d; unfold fetch; by destruct (Artifact.tensor_bytes _ _)).
  pose proof (check_metadata_post (Artifact.manifest a) request) as Hm.
  destruct (TinyModel.check_metadata (Artifact.manifest a) request) as [c|e|] eqn:Hc; [| |done].
  2: { unfold TinyModel.from_verified_tensor_bytes_with_backend. rewrite Hc. by left. }
  destruct Hm as (_ & Hv & Hd). eapply post_mono; [by apply (load_post next_id _ request fetch)|done|].
  intros e [He|[He|(i & d & Hi & He)]]; [by left|by right; left|right; right].
  exists d. split; [by eapply list_elem_of_lookup_2|].
  destruct (tensor_bytes_spec sha256 limits a Hlim Ha i d Hi) as (bytes & Hb & (o & _ & Hl & _)).
  destruct (Forall2_lookup_l _ _ _ _ _ Hd Hi) as (x & Hx & (_ & Hdt & Hsh)).
  destruct (expected_loadable (version_of (Artifact.manifest a))) as [Hload _]; [tauto|].
  pose proof (expected_small (version_of (Artifact.manifest a)) ltac:(tauto)) as Hsmall.
  eapply Forall_lookup_1 in Hload; [|exact Hx]. eapply Forall_lookup_1 in Hsmall; [|exact Hx].
  eapply (fetched_error fetch); [unfold fetch; by rewrite Hb|done| | | |done].
  - pose proof (ts_each _ _ (ma_tensors _ _ (ar_manifest _ _ _ Ha))) as Heach.
    eapply Forall_lookup_1 in Heach; [|exact Hi]. apply (FormatSchema.te_shape _ _ Heach).
  - by rewrite Hsh.
  - intros Hbf. rewrite Hsh. rewrite Hdt in Hbf. unfold loadable in Hload. by rewrite Hbf in Hload.
Qed.
