(* ===== verification/RuntimeSequence.v ===== *)
(** Sequences of steps: running tokens, and greedy generation.  At the end
    [RuntimeDemo], a concrete model of adapter version 2, loaded from its manifest and bytes, and a
    state of it. *)
From stdpp Require Import prelude gmap strings sorting pretty.
From S2P Require Import Prelude FormatManifest FormatArtifact KernelFloat Kernel KernelFacts.
From S2P Require Import KernelContract Runtime RuntimeForward RuntimeRoute RuntimeStep RuntimeLoad.
#[local] Open Scope N_scope.

Section sequence.
Context `{Platform} (at_ : N -> N -> N -> Addresses.t) (model : TinyModel.t).
Hypothesis (Hmodel : model_ok model).

(** The state and the outputs after some tokens, from the empty sequence. *)
Definition ran (tokens : list N) : rresult (SequenceState.t * list StepOutput.t) :=
  try_fold (push_step at_ model) (SequenceState.new, []) tokens.

(** What holds of them: one output per token, and the state of that many steps. *)
Record history (tokens : list N) (s : SequenceState.t * list StepOutput.t) : Prop := {
  hi_state : state_ok s.1;
  hi_owned : owned model s.1;
  hi_length : SequenceState.len s.1 = lenN tokens;
  hi_outputs : Forall2 output_ok tokens s.2
}.
(** Errors of a token that fits the context. *)
Definition token_error (token : N) (e : RuntimeError.t) : Prop :=
  (32 <= token /\ e = RuntimeError.InvalidToken token 32) \/ numeric e.

Lemma history_new : history [] (SequenceState.new, []).
Proof. split; [split; simpl; done|done|done|constructor]. Qed.

Lemma extends_len state pending :
  extends model state pending -> SequenceState.len pending = SequenceState.len state + 1.
Proof.
  intros (key & value & Hk & _). unfold SequenceState.len, lenN. rewrite Hk, length_app. simpl. lia.
Qed.
Lemma extends_owned state pending : extends model state pending -> owned model pending.
Proof. intros (key & value & _ & _ & Hi). unfold owned. by rewrite Hi. Qed.

(** A step within the context. *)
Lemma push_step_post tokens s token :
  history tokens s -> lenN tokens < 16 ->
  post (push_step at_ model s token)
    (fun s' => history (tokens ++ [token]) s' /\ token < 32 /\ exists out, s'.2 = s.2 ++ [out])
    (token_error token).
Proof.
  intros Hh Hl. destruct s as [state outputs]. destruct Hh as [Hs Ho Hlen Hout]. simpl in *.
  unfold push_step, forward_token. pose proof (forward_step_post at_ model state token Hmodel Hs) as Hp.
  destruct (forward_step at_ model state token) as [[pending out]|e|]; [| |done]; simpl in *.
  - destruct Hp as (Ht & _ & _ & Hp & Hx & Hok). split_and!; [|done|by eexists].
    split; simpl; [done|by eapply extends_owned| |by apply Forall2_app; [|constructor]].
    rewrite (extends_len _ _ Hx), Hlen. unfold lenN. rewrite length_app. simpl. lia.
  - destruct Hp as [?|[(_ & ? & _)|[(_ & _ & ? & _)|(_ & _ & _ & ?)]]]; [by left|lia|done|by right].
Qed.

Lemma fold_post tokens more s :
  history tokens s -> lenN tokens + lenN more <= 16 ->
  post (try_fold (push_step at_ model) s more)
    (fun s' => history (tokens ++ more) s' /\ Forall (fun t => t < 32) more)
    (fun e => exists token, token ∈ more /\ token_error token e).
Proof.
  revert tokens s. induction more as [|token more IH]; intros tokens s Hh Hl; simpl.
  { by rewrite app_nil_r. }
  unfold lenN in Hl. simpl in Hl. apply post_bind.
  pose proof (push_step_post tokens s token Hh) as Hp. unfold lenN in Hp at 1. specialize (Hp ltac:(lia)).
  destruct (push_step at_ model s token) as [s'|e|]; [| |done]; simpl in *.
  - destruct Hp as (Hh' & Ht & _). eapply post_mono; [apply (IH (tokens ++ [token])); [done|]| |].
    + unfold lenN. rewrite length_app. simpl. lia.
    + intros s'' [Hs'' Hm]. rewrite <- app_assoc in Hs''. split; [done|]. by constructor.
    + intros e (t & Hin & He). exists t. split; [by right|done].
  - exists token. split; [by left|done].
Qed.

Lemma ran_post tokens :
  lenN tokens <= 16 ->
  post (ran tokens) (fun s => history tokens s /\ Forall (fun t => t < 32) tokens)
    (fun e => exists token, token ∈ tokens /\ token_error token e).
Proof. intros Hl. apply (fold_post [] tokens); [apply history_new|exact Hl]. Qed.

Lemma ran_snoc tokens token : ran (tokens ++ [token]) = (s ← ran tokens; push_step at_ model s token).
Proof.
  unfold ran. rewrite try_fold_app. destruct (try_fold _ _ tokens) as [s|e|]; simpl; [|done..].
  by destruct (push_step at_ model s token).
Qed.

(** Outputs are only appended. *)
Lemma push_outputs s token s' : push_step at_ model s token = Ok s' -> exists out, s'.2 = s.2 ++ [out].
Proof.
  unfold push_step. destruct s as [state outputs]. destruct (forward_token at_ model state token) as [st [out|e|]];
    simpl; intros ?; simplify_eq. by eexists.
Qed.
Lemma fold_outputs s tokens s' :
  try_fold (push_step at_ model) s tokens = Ok s' ->
  exists outs, s'.2 = s.2 ++ outs /\ length outs = length tokens.
Proof.
  revert s. induction tokens as [|token tokens IH]; intros s; simpl.
  - intros [= <-]. exists []. by rewrite app_nil_r.
  - destruct (push_step at_ model s token) as [s1|e|] eqn:E; simpl; [|done..]. intros Hf.
    apply push_outputs in E as [out E]. apply IH in Hf as (outs & -> & Hl). exists (out :: outs).
    rewrite E, <- app_assoc. split; [done|]. simpl. lia.
Qed.

(** The outputs of the first tokens do not depend on the rest. *)
Lemma ran_prefix before after s' :
  ran (before ++ after) = Ok s' ->
  exists s, ran before = Ok s /\ s.2 = list.take (length before) s'.2.
Proof.
  unfold ran. rewrite try_fold_app. destruct (try_fold _ _ before) as [s|e|] eqn:E; simpl; [|done..].
  intros Hf. exists s. split; [done|]. apply fold_outputs in E as (o1 & E & Hl).
  apply fold_outputs in Hf as (o2 & -> & _). simpl in E. rewrite E, take_app_length'; done.
Qed.

Lemma run_tokens_ran tokens :
  tokens <> [] -> lenN tokens <= 16 ->
  run_tokens at_ model tokens
  = match ran tokens with Ok s => Ok s.2 | Err e => Err e | Panic => Panic end.
Proof.
  intros Hne Hl. unfold run_tokens, ran. destruct Hmodel as [-> _]. rewrite bool_decide_eq_false_2 by done.
  change (TinyConfig.context_length TinyConfig.reference) with 16.
  destruct (N.ltb_spec 16 (lenN tokens)); [lia|]. cbn [guard_err mbind result_bind].
  by destruct (try_fold (push_step at_ model) (SequenceState.new, []) tokens) as [[st outs]|e|].
Qed.

(** ** Generation *)

(** Every token is the greedy choice after the output before it. *)
Definition chosen (prompt : list N) (steps : list StepOutput.t) (generated : list N) : Prop :=
  forall i token, generated !! i = Some token ->
    exists step, steps !! (length prompt - 1 + i)%nat = Some step /\ greedy_token (StepOutput.logits step) = Ok token.

Record generation (prompt : list N) (limit : nat) (g : Generation.t) : Prop := {
  ge_ran : exists state,
    ran (prompt ++ list.take (pred (length (Generation.generated_tokens g))) (Generation.generated_tokens g))
    = Ok (state, Generation.steps g);
  ge_chosen : chosen prompt (Generation.steps g) (Generation.generated_tokens g);
  ge_limit : (length (Generation.generated_tokens g) <= limit)%nat;
  ge_eos : forall i, Generation.generated_tokens g !! i = Some EOS_TOKEN ->
    S i = length (Generation.generated_tokens g);
  ge_stop : (length (Generation.generated_tokens g) < limit)%nat ->
    last (Generation.generated_tokens g) = Some EOS_TOKEN
}.

Lemma greedy_output token out : output_ok token out ->
  exists next, greedy_token (StepOutput.logits out) = Ok next /\ next < 32.
Proof.
  intros [_ Hl Hf _]. destruct (greedy_token_spec (StepOutput.logits out)) as (next & Hg & Hn & _).
  - by apply all_finite_no_nan.
  - intros Hnil. by rewrite Hnil in Hl.
  - rewrite Hl. done.
  - exists next. split; [done|]. lia.
Qed.

Lemma chosen_snoc prompt steps more generated step next :
  chosen prompt steps generated -> last steps = Some step -> length steps = (length prompt + length generated)%nat ->
  prompt <> [] -> greedy_token (StepOutput.logits step) = Ok next ->
  chosen prompt (steps ++ more) (generated ++ [next]).
Proof.
  intros Hc Hlast Hlen Hp Hg i token Hi. apply lookup_app_Some in Hi as [Hi|[Hge Hi]].
  - destruct (Hc i token Hi) as (st & Hst & Hgr). exists st. split; [by apply lookup_app_l_Some|done].
  - destruct (i - length generated)%nat as [|k] eqn:E; [|done]. simplify_eq/=. exists step. split; [|done].
    apply lookup_app_l_Some. rewrite last_lookup in Hlast.
    assert (length prompt <> 0)%nat by (by destruct prompt).
    by replace (length prompt - 1 + i)%nat with (pred (length steps)) by lia.
Qed.

Lemma eos_snoc generated next i :
  Forall (fun t => t <> EOS_TOKEN) generated -> (generated ++ [next]) !! i = Some EOS_TOKEN ->
  S i = length (generated ++ [next]).
Proof.
  intros Hg Hi. rewrite length_app. simpl. apply lookup_app_Some in Hi as [Hi|[Hge Hi]].
  - by eapply Forall_lookup_1 in Hi; [|done].
  - destruct (i - length generated)%nat as [|k] eqn:E; [lia|done].
Qed.

(** What the loop keeps: the outputs so far, and the tokens chosen from them. *)
Record generating (prompt generated : list N) (s : SequenceState.t * list StepOutput.t) : Prop := {
  gn_prompt : prompt <> [];
  gn_ran : ran (prompt ++ generated) = Ok s;
  gn_open : Forall (fun t => t <> EOS_TOKEN) generated;
  gn_chosen : chosen prompt s.2 generated;
  gn_context : (length prompt + length generated <= 16)%nat
}.
Lemma generating_history prompt generated s : generating prompt generated s -> history (prompt ++ generated) s.
Proof.
  intros [_ Hran _ _ Hlen]. pose proof (ran_post (prompt ++ generated)) as Hpost. rewrite Hran in Hpost.
  apply Hpost. unfold lenN. rewrite length_app. lia.
Qed.

(** There is a last output, and a choice after it. *)
Lemma next_choice prompt generated s :
  generating prompt generated s ->
  exists step next, last s.2 = Some step /\ greedy_token (StepOutput.logits step) = Ok next /\ next < 32
    /\ forall more, chosen prompt (s.2 ++ more) (generated ++ [next]).
Proof.
  intros Hg. destruct (generating_history _ _ _ Hg) as [_ _ _ Hout]. destruct Hg as [Hp _ _ Hch _].
  pose proof (Forall2_length _ _ _ Hout) as Hso. rewrite length_app in Hso.
  destruct (last s.2) as [step|] eqn:Hlast.
  2: { apply last_None in Hlast. rewrite Hlast in Hso. by destruct prompt. }
  rewrite last_lookup in Hlast. destruct (Forall2_lookup_r _ _ _ _ _ Hout Hlast) as (token & _ & Hok).
  rewrite <- last_lookup in Hlast. destruct (greedy_output token step Hok) as (next & Hn & Hb).
  exists step, next. split_and!; [done..|]. intros more. by eapply chosen_snoc.
Qed.

(** Ending with a choice. *)
Lemma generation_stop prompt generated s next limit :
  generating prompt generated s -> (forall more, chosen prompt (s.2 ++ more) (generated ++ [next])) ->
  (length generated < limit)%nat -> ((length generated + 1 < limit)%nat -> next = EOS_TOKEN) ->
  generation prompt limit (Generation.mk (generated ++ [next]) s.2).
Proof.
  intros [_ Hran Hopen _ _] Hch Hlim Hstop. split; simpl; rewrite ?length_app; simpl.
  - exists s.1. rewrite take_app_length' by lia. by rewrite Hran, <- surjective_pairing.
  - rewrite <- (app_nil_r s.2). apply Hch.
  - lia.
  - intros i Hi. rewrite (eos_snoc _ _ _ Hopen Hi), length_app. done.
  - intros Hlt. rewrite last_snoc. f_equal. auto.
Qed.

Lemma generate_loop_post prompt remaining generated s :
  generating prompt generated s -> (length prompt + length generated + remaining <= 16)%nat ->
  post (generate_loop at_ model (S remaining) s.1 generated s.2)
    (generation prompt (length generated + S remaining)) numeric.
Proof.
  revert generated s. induction remaining as [|remaining IH]; intros generated s Hg Hlen;
    destruct (next_choice _ _ _ Hg) as (step & next & Hlast & Hnext & Hb & Hch);
    cbn [generate_loop]; rewrite Hlast; cbn [expect mbind result_bind]; rewrite Hnext; cbn [mbind result_bind].
  - rewrite orb_true_r. apply generation_stop; [done|done|lia..].
  - destruct (N.eqb_spec next EOS_TOKEN) as [-> |Hopen]; cbn [orb].
    { apply generation_stop; [done|done|lia|done]. }
    rewrite bool_decide_eq_false_2 by done. rewrite <- surjective_pairing.
    pose proof (push_step_post (prompt ++ generated) s next (generating_history _ _ _ Hg)) as Hpush.
    destruct Hg as [Hp Hran Ho _ _].
    assert (ran (prompt ++ generated ++ [next]) = push_step at_ model s next) as Hran'
      by (by rewrite app_assoc, ran_snoc, Hran).
    destruct (push_step at_ model s next) as [s'|e|]; simpl.
    + destruct Hpush as (_ & _ & out & Hs'); [unfold lenN; rewrite length_app; lia|].
      destruct s' as [st outs]. simpl in Hs'. subst outs.
      replace (length generated + S (S remaining))%nat with (length (generated ++ [next]) + S remaining)%nat
        by (rewrite length_app; simpl; lia).
      apply (IH (generated ++ [next]) (st, s.2 ++ [out])); [|rewrite length_app; simpl; lia].
      split; [done|done|by apply Forall_app; split; [|repeat constructor]|apply Hch|rewrite length_app; simpl; lia].
    + destruct Hpush as [[? _]|?]; [unfold lenN; rewrite length_app; lia|lia|done].
    + apply Hpush. unfold lenN. rewrite length_app. lia.
Qed.

Lemma generate_greedy_post prompt max_new_tokens :
  post (generate_greedy at_ model prompt max_new_tokens)
    (fun g => prompt <> [] /\ lenN prompt + (max_new_tokens - 1) <= 16
              /\ generation prompt (N.to_nat max_new_tokens) g)
    (fun e => (prompt = [] /\ e = RuntimeError.EmptySequence)
       \/ (prompt <> [] /\ 16 < lenN prompt + (max_new_tokens - 1) /\ e = RuntimeError.ContextLimit 16)
       \/ (prompt <> [] /\ lenN prompt + (max_new_tokens - 1) <= 16
           /\ exists token, token ∈ prompt /\ token_error token e)).
Proof.
  destruct Hmodel as [Hc _]. unfold generate_greedy. rewrite Hc.
  change (TinyConfig.context_length TinyConfig.reference) with 16.
  apply post_bind, post_guard. { intros ->%bool_decide_eq_true. by left. }
  intros Hp%bool_decide_eq_false. unfold checked_add, saturating_sub.
  destruct (N.leb_spec (lenN prompt + (max_new_tokens - 1)) usize_max) as [_|Hbig].
  2: { right; left. split_and!; [done| |done]. unfold usize_max, u64_max in Hbig. lia. }
  cbn [ok_or mbind result_bind]. apply post_bind, post_guard. { intros ?%N.ltb_lt. right; left. done. }
  intros Hlen%N.ltb_ge. apply post_bind. fold (ran prompt). pose proof (ran_post prompt) as Hr.
  destruct (ran prompt) as [s|e|] eqn:Hran; simpl; [| |by apply Hr; lia].
  2: { right; right. split_and!; [done..|]. apply Hr. lia. }
  destruct s as [state steps]. destruct (N.to_nat max_new_tokens) as [|n] eqn:En.
  - simpl. split_and!; [done..|]. split; simpl; [|intros i t Hi; by rewrite lookup_nil in Hi|lia
      |intros i Hi; by rewrite lookup_nil in Hi|lia].
    exists state. by rewrite app_nil_r.
  - assert (generating prompt [] (state, steps)) as Hg.
    { split; [done|by rewrite app_nil_r|constructor|intros i t Hi; by rewrite lookup_nil in Hi|].
      unfold lenN in Hlen. simpl. lia. }
    eapply post_mono; [apply (generate_loop_post prompt n [] (state, steps) Hg)| |].
    + unfold lenN in Hlen. simpl. lia.
    + intros g Hgen. done.
    + intros e He. right; right. split_and!; [done..|]. destruct prompt as [|t prompt]; [done|].
      exists t. split; [by left|by right].
Qed.
End sequence.

Module RuntimeDemo.
#[export] Existing Instance demo_platform.

(** Every number is 1/16, but for the row of token 0 in the output matrix, which is
    zero. *)
Definition bytes_of (dtype : DType.t) : list N :=
  match dtype with DType.F32Le => [0; 0; 0x80; 0x3d] | _ => [0x80; 0x3d] end.
Definition record (i : nat) (e : ExpectedTensor.t) : TensorRecord.t :=
  TensorRecord.mk (ExpectedTensor.dtype e) (N.of_nat i)
    (foldr N.mul 1 (ExpectedTensor.shape e) * DType.byte_width (ExpectedTensor.dtype e)) 0 0
    (ExpectedTensor.role e) (ExpectedTensor.shape e).
Definition manifest (version : N) : Manifest.t :=
  Manifest.mk (Adapter.mk "runnel.tiny-causal-moe" version)
    (FormatManifest.TinyModel.mk 16 12 8 4 2 1 2 32) []
    (imap record (expected_tensors TinyConfig.reference version))
    (Tokenizer.mk "runnel.ascii32" 1 32) 0 [].
Definition fetch : TinyModel.Fetch := fun _ d =>
  let bytes := mjoin (replicate (N.to_nat (foldr N.mul 1 (TensorRecord.shape d))) (bytes_of (TensorRecord.dtype d))) in
  Ok (if bool_decide (TensorRecord.role d = "lm_head") then replicate 32 0 ++ drop 32 bytes else bytes).

Definition load (version : N) : rresult (TinyModel.t * N) :=
  TinyModel.from_verified_tensor_bytes_with_backend 1 (manifest version) BackendRequest.Auto fetch.
Definition empty_tensor : Tensor.t := Tensor.mk [] [].
Definition no_model : TinyModel.t :=
  TinyModel.mk TinyConfig.reference 0
    (Weights.mk empty_tensor empty_tensor empty_tensor empty_tensor empty_tensor empty_tensor empty_tensor
       empty_tensor (Experts.F32 []) empty_tensor empty_tensor).
Definition model : TinyModel.t := match load 2 with Ok (m, _) => m | _ => no_model end.
Definition at_ : N -> N -> N -> Addresses.t := fun _ _ _ => demo_addresses.

Lemma load_ok : load 2 = Ok (model, 2).
Proof. vm_compute. reflexivity. Defined.
Lemma fetch_ok n d : fetch n d <> Panic.
Proof. done. Defined.
Lemma demo_model_ok : model_ok model.
Proof.
  pose proof (load_post 1 (manifest 2) BackendRequest.Auto fetch fetch_ok) as Hp.
  fold (load 2) in Hp. rewrite load_ok in Hp. exact (proj1 Hp).
Defined.
Lemma new_state_ok : state_ok SequenceState.new.
Proof. split; simpl; done. Defined.
End RuntimeDemo.
