(* ===== verification/RuntimeContract.v ===== *)
(** The theorems of the inference runtime. *)
From stdpp Require Import prelude gmap strings pretty sorting.
From S2P Require Import Prelude FormatManifest FormatSchema FormatArtifact FormatVerify KernelFloat.
From S2P Require Import Kernel KernelFacts KernelContract Runtime RuntimeForward RuntimeRoute.
From S2P Require Import RuntimeStep RuntimeLoad RuntimeSequence.
#[local] Open Scope N_scope.

(** The tokenizer never panics.  It encodes a text exactly when every character
    has a token, as the begin token followed by one token from 2 to 31 per character,
    and decoding gives the text back; otherwise it reports the byte offset of the
    first character without a token.  Conversely every sequence of tokens from 2 to 31
    decodes to a text that encodes to it. *)
Theorem tokenizer_roundtrip :
  (forall text,
    match TinyTokenizer.encode text with
    | Ok tokens => exists codes, tokens = BOS_TOKEN :: codes /\ length codes = length text
        /\ Forall (fun t => 2 <= t < 32) codes /\ TinyTokenizer.decode tokens = Ok text
    | Err e => exists before c after, text = before ++ c :: after
        /\ Forall (fun c => is_Some (TinyTokenizer.encode_char c)) before /\ TinyTokenizer.encode_char c = None
        /\ e = RuntimeError.UnsupportedCharacter (text_bytes before)
    | Panic => False
    end)
  /\ (forall codes, Forall (fun t => 2 <= t < 32) codes ->
      exists text, TinyTokenizer.decode codes = Ok text /\ TinyTokenizer.encode text = Ok (BOS_TOKEN :: codes)).
Proof.
  split.
  - intros text. unfold TinyTokenizer.encode. pose proof (encode_fold text 0 [BOS_TOKEN]) as Hf.
    destruct (try_fold TinyTokenizer.encode_step (0, [BOS_TOKEN]) text) as [[o ts]|e|]; [| |done]; simpl.
    + destruct Hf as (codes & Hc & -> & _). exists codes. destruct (decode_codes text codes Hc) as [Hb Hd].
      split_and!; [done| |done|done]. symmetry. by apply mapM_Some_1, Forall2_length in Hc.
    + destruct Hf as (before & c & after & codes & -> & Hb & Hc & ->). exists before, c, after.
      split_and!; [done| |done|done]. apply (mapM_is_Some_1 TinyTokenizer.encode_char). by eexists.
  - intros codes Hc. destruct (encode_text codes Hc) as (text & Hd & He). exists text. split; [done|].
    unfold TinyTokenizer.encode. pose proof (encode_fold text 0 [BOS_TOKEN]) as Hf.
    destruct (try_fold TinyTokenizer.encode_step (0, [BOS_TOKEN]) text) as [[o ts]|e|]; [| |done]; simpl.
    + destruct Hf as (codes' & Hc' & -> & _). simpl. congruence.
    + destruct Hf as (before & c & after & codes' & -> & _ & Hn & _).
      apply mapM_Some_1, Forall2_app_inv_l in He as (? & ? & _ & Hx & _). inversion Hx. congruence.
Qed.

(** C15: Loading a model never panics, whatever the manifest says and the supplier of
    bytes answers.  An accepted model has the reference dimensions, every tensor with
    its shape and finite numbers, all experts, a fresh instance id, and for adapter
    version 2 the backend that the request selects on this machine.  The only errors are
    those of the metadata, of the backend and of the bytes of one tensor; of a
    verified artifact these bytes are always there, of the right length, so that only a
    number that is not finite can stop it. *)
Theorem model_loads `{Platform} (next_id : N) (request : BackendRequest.t) :
  (forall manifest fetch, (forall n d, fetch n d <> Panic) ->
    post (TinyModel.from_verified_tensor_bytes_with_backend next_id manifest request fetch)
      (loaded next_id manifest request) (load_error manifest request fetch))
  /\ (forall sha256 from_slice parts limits expected a,
      Artifact.from_bytes_internal sha256 from_slice parts limits expected = Ok a ->
      post (TinyModel.from_artifact_with_backend next_id a request)
        (loaded next_id (Artifact.manifest a) request) (artifact_error (Artifact.manifest a) request)).
Proof.
  split; [intros; by apply load_post|]. intros sha256 from_slice parts limits expected a Ha.
  pose proof (post_ok_inv _ _ _ _ (from_bytes_spec sha256 from_slice parts limits expected) Ha) as (Hok & Hm & _).
  eapply artifact_load_post; [|done]. exact (pm_limits _ _ _ _ Hm).
Qed.
Lemma model_loads_witness :
  RuntimeDemo.load 2 = Ok (RuntimeDemo.model, 2) /\ model_ok RuntimeDemo.model.
Proof.
  split; [vm_compute; reflexivity|].
  pose proof (proj1 (model_loads (H:=demo_platform) 1 BackendRequest.Auto) (RuntimeDemo.manifest 2)
    RuntimeDemo.fetch RuntimeDemo.fetch_ok) as Hp.
  fold (RuntimeDemo.load 2) in Hp. rewrite RuntimeDemo.load_ok in Hp. exact (proj1 Hp).
Defined.

(** C13: A step of a loaded model never panics.  If it fails, the sequence state is
    the one before, and the error is, in this order, a token outside the vocabulary, a
    full context, a state of another model instance, or one of the arithmetic: a number
    that is not finite or a failed expert kernel.
    If it succeeds the state has one more key and value and belongs to this instance,
    there are 32 finite logits, and the route is made of the two best experts with
    finite weights. *)
Theorem forward_contract `{Platform} at_ model state token state' r :
  model_ok model -> state_ok state -> forward_token at_ model state token = (state', r) ->
  state_ok state'
  /\ match r with
     | Ok out => token < 32 /\ SequenceState.len state < 16 /\ owned model state
         /\ extends model state state' /\ output_ok token out
     | Err e => state' = state /\ step_error model state token e
     | Panic => False
     end.
Proof.
  intros Hm Hs Hf. pose proof (forward_step_post at_ model state token Hm Hs) as Hp. unfold forward_token in Hf.
  destruct (forward_step at_ model state token) as [[pending out]|e|]; simplify_eq; simpl in Hp; [|done|done].
  destruct Hp as (? & ? & ? & ? & ? & ?). done.
Qed.
Lemma forward_contract_witness :
  match forward_token (H:=demo_platform) RuntimeDemo.at_ RuntimeDemo.model SequenceState.new 14 with
  | (state, Ok out) => state_ok state /\ output_ok 14 out
  | _ => False
  end.
Proof.
  pose proof (forward_contract (H:=demo_platform) RuntimeDemo.at_ RuntimeDemo.model SequenceState.new 14
    _ _ RuntimeDemo.demo_model_ok RuntimeDemo.new_state_ok (surjective_pairing _)) as [Hs Ho].
  assert (exists out, (forward_token (H:=demo_platform) RuntimeDemo.at_ RuntimeDemo.model SequenceState.new 14).2
    = Ok out) as [out E] by (eexists; vm_compute; reflexivity).
  destruct (forward_token _ _ _ _) as [state r]. simpl in *. subst r. split; [exact Hs|apply Ho].
Defined.

(** C21: Of scores without a NaN the router selects distinct experts, as many as asked
    for and there are, in order from the best: each is better than every later one
    and than every expert left out, where of equal scores the lower index is better.
    The greedy choice is the token better than all others in the same sense. *)
Theorem best_are_selected (scores : list f32) (k : N) :
  no_nan scores ->
  (let ids := stable_top_k scores k in
   NoDup ids /\ lenN ids = N.min k (lenN scores) /\ Forall (fun i => i < lenN scores) ids
   /\ StronglySorted (better scores) ids
   /\ (forall i j, i ∈ ids -> j ∉ ids -> j < lenN scores -> better scores i j))
  /\ (scores <> [] -> lenN scores <= 2 ^ 32 ->
      exists token, greedy_token scores = Ok token /\ token < lenN scores
        /\ forall j, j < lenN scores -> j <> token -> better scores token j).
Proof. intros Hs. split; [by apply stable_top_k_spec|]. intros. by apply greedy_token_spec. Qed.
(** The scores 1, 2, 2 and -1. *)
Lemma best_are_selected_witness :
  no_nan [0x3f800000; 0x40000000; 0x40000000; 0xbf800000]
  /\ stable_top_k [0x3f800000; 0x40000000; 0x40000000; 0xbf800000] 2 = [1; 2]
  /\ better [0x3f800000; 0x40000000; 0x40000000; 0xbf800000] 1 0.
Proof.
  assert (no_nan [0x3f800000; 0x40000000; 0x40000000; 0xbf800000]) as Hn
    by (repeat constructor; vm_compute; reflexivity).
  split; [exact Hn|]. split; [vm_compute; reflexivity|].
  apply (proj2 (proj2 (proj2 (proj2 (proj1 (best_are_selected _ 2 Hn)))))).
  - apply (bool_decide_unpack _). vm_compute. exact I.
  - apply (bool_decide_unpack _). vm_compute. exact I.
  - vm_compute. reflexivity.
Defined.

(** C20: Running tokens on a loaded model never panics and gives one output per token,
    in order, each with finite logits.  The outputs are causal: those of a prefix are
    the first outputs of any continuation that runs, and a prefix that fails fails all
    its continuations within the context the same way.  The errors are an empty
    sequence, one longer than the context, a token outside the vocabulary or one of the
    arithmetic. *)
Theorem run_tokens_causal `{Platform} at_ model before after :
  model_ok model -> before <> [] -> lenN (before ++ after) <= 16 ->
  post (run_tokens at_ model (before ++ after))
    (fun outs => Forall2 output_ok (before ++ after) outs
       /\ run_tokens at_ model before = Ok (list.take (length before) outs))
    (fun e => exists token, token ∈ before ++ after /\ token_error token e)
  /\ (forall e, run_tokens at_ model before = Err e -> run_tokens at_ model (before ++ after) = Err e)
  /\ run_tokens at_ model [] = Err RuntimeError.EmptySequence
  /\ (forall tokens, 16 < lenN tokens -> run_tokens at_ model tokens = Err (RuntimeError.ContextLimit 16)).
Proof.
  intros Hm Hb Hl. assert (before ++ after <> []) as Hne by (by destruct before).
  assert (lenN before <= 16) as Hlb by (unfold lenN in *; rewrite length_app in Hl; lia).
  split_and!.
  - rewrite !run_tokens_ran by done. pose proof (ran_post at_ model Hm (before ++ after) Hl) as Hp.
    destruct (ran at_ model (before ++ after)) as [s|e|] eqn:E; [|done|done]. destruct Hp as [Hh _].
    split; [apply Hh|]. by destruct (ran_prefix _ _ _ _ _ E) as (s0 & -> & ->).
  - intros e. rewrite !run_tokens_ran by done. unfold ran. rewrite try_fold_app.
    by destruct (try_fold _ _ before).
  - done.
  - intros tokens Ht. unfold run_tokens. destruct Hm as [-> _]. rewrite bool_decide_eq_false_2 by (by intros ->).
    apply N.ltb_lt in Ht. cbn [guard_err mbind result_bind].
    change (TinyConfig.context_length TinyConfig.reference) with 16. by rewrite Ht.
Qed.
Lemma run_tokens_causal_witness :
  exists outs, run_tokens (H:=demo_platform) RuntimeDemo.at_ RuntimeDemo.model [1; 14; 2] = Ok outs
    /\ run_tokens (H:=demo_platform) RuntimeDemo.at_ RuntimeDemo.model [1; 14] = Ok (list.take 2 outs).
Proof.
  pose proof (proj1 (run_tokens_causal (H:=demo_platform) RuntimeDemo.at_ RuntimeDemo.model [1; 14] [2]
    RuntimeDemo.demo_model_ok ltac:(done) ltac:(done))) as Hp.
  assert (exists outs, run_tokens (H:=demo_platform) RuntimeDemo.at_ RuntimeDemo.model ([1; 14] ++ [2]) = Ok outs)
    as [outs E] by (eexists; vm_compute; reflexivity).
  rewrite E in Hp. exists outs. split; [exact E|exact (proj2 Hp)].
Defined.

(** C14: Greedy generation on a loaded model never panics and produces at most the
    tokens asked for, stopping early only at the end token, which occurs nowhere
    else.  The steps are those of running the prompt followed by all generated tokens
    but the last, and each generated token is the greedy choice after the step before
    it.  A prompt that with the new tokens does not fit the context is refused before
    any step, so that no later step meets the limit. *)
Theorem generate_greedy_contract `{Platform} at_ model prompt max_new_tokens :
  model_ok model ->
  post (generate_greedy at_ model prompt max_new_tokens)
    (fun g => prompt <> [] /\ lenN prompt + (max_new_tokens - 1) <= 16
       /\ run_tokens at_ model
            (prompt ++ list.take (pred (length (Generation.generated_tokens g))) (Generation.generated_tokens g))
          = Ok (Generation.steps g)
       /\ chosen prompt (Generation.steps g) (Generation.generated_tokens g)
       /\ lenN (Generation.generated_tokens g) <= max_new_tokens
       /\ (forall i, Generation.generated_tokens g !! i = Some EOS_TOKEN ->
            S i = length (Generation.generated_tokens g))
       /\ (lenN (Generation.generated_tokens g) < max_new_tokens ->
            last (Generation.generated_tokens g) = Some EOS_TOKEN))
    (fun e => (prompt = [] /\ e = RuntimeError.EmptySequence)
       \/ (prompt <> [] /\ 16 < lenN prompt + (max_new_tokens - 1) /\ e = RuntimeError.ContextLimit 16)
       \/ (prompt <> [] /\ lenN prompt + (max_new_tokens - 1) <= 16
           /\ exists token, token ∈ prompt /\ token_error token e)).
Proof.
  intros Hm. eapply post_strengthen; [by apply generate_greedy_post|].
  intros g (Hp & Hl & [[state Hran] Hch Hlim Heos Hstop]). split_and!; try done.
  - rewrite run_tokens_ran; [by rewrite Hran|done|by destruct prompt|].
    unfold lenN in *. rewrite length_app, length_take. lia.
  - unfold lenN. lia.
  - intros Hlt. apply Hstop. unfold lenN in Hlt. lia.
Qed.
Lemma generate_greedy_contract_witness :
  exists g, generate_greedy (H:=demo_platform) RuntimeDemo.at_ RuntimeDemo.model [1; 14] 3 = Ok g
    /\ Generation.generated_tokens g = [1; 1; 1]
    /\ run_tokens (H:=demo_platform) RuntimeDemo.at_ RuntimeDemo.model [1; 14; 1; 1] = Ok (Generation.steps g).
Proof.
  pose proof (generate_greedy_contract (H:=demo_platform) RuntimeDemo.at_ RuntimeDemo.model [1; 14] 3
    RuntimeDemo.demo_model_ok) as Hp.
  assert (exists g, generate_greedy (H:=demo_platform) RuntimeDemo.at_ RuntimeDemo.model [1; 14] 3 = Ok g
    /\ Generation.generated_tokens g = [1; 1; 1]) as (g & E & Eg) by (eexists; split; vm_compute; reflexivity).
  rewrite E in Hp. exists g. split; [exact E|]. split; [exact Eg|].
  pose proof (proj1 (proj2 (proj2 Hp))) as Hr. rewrite Eg in Hr. exact Hr.
Defined.
