(* ===== verification/Fixture.v ===== *)
(** The fixture builder (crates/runnel-fixture/src/lib.rs): the tensors of the tiny
    model and the formula of their values, the artifacts built from them in memory
    (manifest, object and page table), the multi-page artifact, and the writing of
    an artifact to a new directory.  SHA-256 is the parameter [sha256]; the file
    system of [write_new] is a map from paths to nodes, and the operating system
    may fail any call. *)
From Stdlib Require Import SpecFloat.
From stdpp Require Import prelude gmap strings pretty.
From S2P Require Import Prelude Format FormatManifest FormatArtifact KernelFloat Kernel.
#[local] Open Scope N_scope.

Definition VOCAB_SIZE : N := 32.
Definition HIDDEN_SIZE : N := 8.
Definition NUM_HEADS : N := 2.
Definition NUM_LAYERS : N := 1.
Definition NUM_EXPERTS : N := 4.
Definition TOP_K : N := 2.
Definition EXPERT_HIDDEN_SIZE : N := 12.
Definition CONTEXT_LENGTH : N := 16.
(** 1/4096 and 1/2. *)
Definition FIXTURE_RMS_EPSILON : f32 := 115 * 2 ^ 23.
Definition ATTENTION_SCALE : f32 := 126 * 2 ^ 23.
Definition FIXTURE_PAGE_SIZE : N := 65536.
Definition MULTI_PAGE_OBJECT_LENGTH : N := 2 * FIXTURE_PAGE_SIZE + 17.

Module TinySpec.
Record t : Type := mk {
  adapter_id : string; adapter_version : N; attention_scale_binary : string; context_length : N;
  expert_hidden_size : N; formula : string; hidden_size : N; max_new_tokens : N; num_experts : N;
  num_heads : N; num_layers : N; prompt : string; rms_epsilon_binary : string; tokenizer_id : string;
  tokenizer_version : N; top_k : N; vocab_size : N
}.
Definition default : t :=
  mk "runnel.tiny-causal-moe" 1 "2^-1" CONTEXT_LENGTH EXPERT_HIDDEN_SIZE
    "q=((37*(tensor_id+1)+17*(flat_index+1)) mod 29)-14; norm=1+q/64; other=q/32" HIDDEN_SIZE 4
    NUM_EXPERTS NUM_HEADS NUM_LAYERS "moe" "2^-12" "runnel.ascii32" 1 TOP_K VOCAB_SIZE.
End TinySpec.

(** An [io::Error] is the name of its kind. *)
Module FixtureError.
Inductive t : Type :=
| Io (operation source : string).
End FixtureError.
Abbreviation fresult := (result FixtureError.t).

Module FixtureDType.
Inductive t : Set := F32 | Bf16.
Definition as_str (dtype : t) : string := match dtype with F32 => "f32-le" | Bf16 => "bf16-le" end.
End FixtureDType.

Module TinyAdapterVersion.
Inductive t : Set := V1 | V2.
Definition number (version : t) : N := match version with V1 => 1 | V2 => 2 end.
Definition tensor_dtype (version : t) (tensor_id : N) : FixtureDType.t :=
  match version with
  | V2 => if (8 <=? tensor_id) && (tensor_id <=? 19) then FixtureDType.Bf16 else FixtureDType.F32
  | V1 => FixtureDType.F32
  end.
End TinyAdapterVersion.

(** * Values *)

Section values.
Context `{Platform}.

(** [n as f32] of an [i32]. *)
Definition of_i32 (n : Z) : f32 :=
  F32.encode (arithmetic_nan Convert [Z.to_N (n mod 2 ^ 32)]) (binary_normalize 24 128 n 0 false).

(** [matches!(tensor_id, 1 | 6 | 20)]. *)
Definition is_norm (tensor_id : N) : bool := (tensor_id =? 1) || (tensor_id =? 6) || (tensor_id =? 20).
(** The value for a centered residue; 64.0 and 32.0 are powers of two. *)
Definition value_of (norm : bool) (centered : Z) : f32 :=
  if norm then Float.add F32.one (Float.div (of_i32 centered) (133 * 2 ^ 23))
  else Float.div (of_i32 centered) (132 * 2 ^ 23).
Definition value (tensor_id flat_index : N) : fresult f32 :=
  tensor ← add_or_panic u64_max tensor_id 1;
  tensor ← mul_or_panic 37 tensor;
  index ← add_or_panic u64_max flat_index 1;
  index ← mul_or_panic 17 index;
  sum ← add_or_panic u64_max tensor index;
  Ok (value_of (is_norm tensor_id) (Z.of_N (sum mod 29) - 14)).
End values.

Module TensorRecipe.
Record t : Type := mk { id : N; role : string; shape : list N }.

Definition element_count (r : t) : fresult N := try_fold mul_or_panic 1 (shape r).

Section values.
Context `{Platform}.

Definition values (r : t) : fresult (list f32) :=
  count ← element_count r;
  mapM (value (id r)) (rangeN count).
Definition little_endian_bytes (r : t) : fresult (list N) :=
  count ← element_count r;
  _ ← mul_or_panic count 4;
  items ← values r;
  Ok (item ← items; to_le_bytes 4 item).
Definition bf16_bytes (item : f32) : fresult (list N) :=
  match Bf16.try_from_f32_rne item with Ok word => Ok (to_le_bytes 2 word) | _ => Panic end.
Definition encoded_bytes (r : t) (dtype : FixtureDType.t) : fresult (list N) :=
  match dtype with
  | FixtureDType.F32 => little_endian_bytes r
  | FixtureDType.Bf16 =>
      count ← element_count r;
      _ ← mul_or_panic count 2;
      items ← values r;
      words ← mapM bf16_bytes items;
      Ok (mjoin words)
  end.
End values.
End TensorRecipe.
Definition recipe (id : N) (role : string) (shape : list N) : TensorRecipe.t := TensorRecipe.mk id role shape.

Definition tensor_recipes : list TensorRecipe.t :=
  [recipe 0 "token_embedding" [VOCAB_SIZE; HIDDEN_SIZE];
   recipe 1 "layers.0.attn_norm" [HIDDEN_SIZE];
   recipe 2 "layers.0.attn_q" [HIDDEN_SIZE; HIDDEN_SIZE];
   recipe 3 "layers.0.attn_k" [HIDDEN_SIZE; HIDDEN_SIZE];
   recipe 4 "layers.0.attn_v" [HIDDEN_SIZE; HIDDEN_SIZE];
   recipe 5 "layers.0.attn_out" [HIDDEN_SIZE; HIDDEN_SIZE];
   recipe 6 "layers.0.ffn_norm" [HIDDEN_SIZE];
   recipe 7 "layers.0.router" [NUM_EXPERTS; HIDDEN_SIZE]]
  ++ (expert ← rangeN NUM_EXPERTS;
      let base := 8 + expert * 3 in
      [recipe base ("layers.0.experts." +:+ pretty expert +:+ ".gate") [EXPERT_HIDDEN_SIZE; HIDDEN_SIZE];
       recipe (base + 1) ("layers.0.experts." +:+ pretty expert +:+ ".up") [EXPERT_HIDDEN_SIZE; HIDDEN_SIZE];
       recipe (base + 2) ("layers.0.experts." +:+ pretty expert +:+ ".down") [HIDDEN_SIZE; EXPERT_HIDDEN_SIZE]])
  ++ [recipe 20 "final_norm" [HIDDEN_SIZE];
      recipe 21 "lm_head" [VOCAB_SIZE; HIDDEN_SIZE]].

(** * The texts *)

Module EncodedTensor.
Record t : Type := mk { recipe : TensorRecipe.t; dtype : FixtureDType.t; offset : N; length : N }.
End EncodedTensor.

(** [usize::div_ceil]. *)
Definition div_ceil (a b : N) : N := a / b + (if a mod b =? 0 then 0 else 1).

Definition decimal (n : N) : list N := string_bytes (pretty n).
Definition digest_text (d : Digest) : list N := string_bytes (Digest.to_string d).

(** The shape: the dimensions joined by commas. *)
Definition join_commas (parts : list (list N)) : list N :=
  match parts with
  | [] => []
  | part :: parts => part ++ mjoin (cons 44 <$> parts)
  end.

(** One round of the loop over the tensors. *)
Definition tensor_text (object_digest : Digest) (tensor : EncodedTensor.t) : list N :=
  let recipe := EncodedTensor.recipe tensor in
  json "{'dtype':'" ++ string_bytes (FixtureDType.as_str (EncodedTensor.dtype tensor))
  ++ json "','id':" ++ decimal (TensorRecipe.id recipe)
  ++ json ",'length':" ++ decimal (EncodedTensor.length tensor)
  ++ json ",'object':'" ++ digest_text object_digest
  ++ json "','offset':" ++ decimal (EncodedTensor.offset tensor)
  ++ json ",'role':'" ++ string_bytes (TensorRecipe.role recipe)
  ++ json "','shape':[" ++ join_commas (decimal <$> TensorRecipe.shape recipe) ++ json "]}".

Definition build_manifest (tensors : list EncodedTensor.t) (object_digest : Digest) (object_length : N)
    (page_table_digest : Digest) (page_table_length adapter_version : N) : list N :=
  let tensor_json :=
    mjoin (imap (fun index tensor =>
                   (if (index =? 0)%nat then [] else [44]) ++ tensor_text object_digest tensor) tensors) in
  json "{'adapter':{'id':'runnel.tiny-causal-moe','version':" ++ decimal adapter_version
  ++ json "},'format':'rmoa','model':{'context_length':16,'expert_hidden_size':12,'hidden_size':8,"
  ++ json "'num_experts':4,'num_heads':2,'num_layers':1,'top_k':2,'vocab_size':32},"
  ++ json "'objects':[{'digest':'" ++ digest_text object_digest
  ++ json "','length':" ++ decimal object_length
  ++ json ",'page_size':65536,'page_table':'" ++ digest_text page_table_digest
  ++ json "','page_table_length':" ++ decimal page_table_length
  ++ json "}],'tensors':[" ++ tensor_json
  ++ json "],'tokenizer':{'id':'runnel.ascii32','version':1,'vocab_size':32},'version':1}" ++ [10].

Definition build_storage_manifest (object_digest : Digest) (object_length : N) (page_table_digest : Digest)
    (page_table_length : N) : list N :=
  json "{'adapter':{'id':'runnel.tiny-causal-moe','version':1"
  ++ json "},'format':'rmoa','model':{'context_length':16,'expert_hidden_size':12,'hidden_size':8,"
  ++ json "'num_experts':4,'num_heads':2,'num_layers':1,'top_k':2,'vocab_size':32},"
  ++ json "'objects':[{'digest':'" ++ digest_text object_digest
  ++ json "','length':" ++ decimal object_length
  ++ json ",'page_size':65536,'page_table':'" ++ digest_text page_table_digest
  ++ json "','page_table_length':" ++ decimal page_table_length
  ++ json "}],'tensors':[{'dtype':'u8','id':0,'length':" ++ decimal object_length
  ++ json ",'object':'" ++ digest_text object_digest
  ++ json "','offset':0,'role':'storage.payload','shape':[" ++ decimal object_length
  ++ json "]}],'tokenizer':{'id':'runnel.ascii32','version':1,'vocab_size':32},'version':1}" ++ [10].

(** * Building *)

Module FixtureIdentity.
Record t : Type := mk {
  artifact_id : Digest; object_digest : Digest; object_length : N; page_table_digest : Digest;
  page_table_length : N
}.
End FixtureIdentity.

(** [FixtureArtifact] and [MultiPageFixture] have the same fields and the same
    methods [identity], [to_parts] and [write_new]. *)
Module Built.
Record t : Type := mk {
  manifest : list N; object : list N; object_digest : Digest; page_table : list N;
  page_table_digest : Digest
}.
Definition to_parts (f : t) : ArtifactBytes.t :=
  ArtifactBytes.mk (manifest f) {[object_digest f := object f]} {[page_table_digest f := page_table f]}.
End Built.

Section sha256.
Context (sha256 : list N -> Digest).

Definition build_page_table (object : list N) (object_digest : Digest) : list N :=
  PAGE_TABLE_MAGIC ++ to_le_bytes 4 1 ++ to_le_bytes 4 FIXTURE_PAGE_SIZE ++ to_le_bytes 8 (lenN object)
  ++ to_le_bytes 8 (div_ceil (lenN object) FIXTURE_PAGE_SIZE) ++ Digest.as_bytes object_digest
  ++ mjoin ((fun page => Digest.as_bytes (sha256 page)) <$> chunks (N.to_nat FIXTURE_PAGE_SIZE) object).

Definition identity (f : Built.t) : FixtureIdentity.t :=
  FixtureIdentity.mk (sha256 (Built.manifest f)) (Built.object_digest f) (lenN (Built.object f))
    (Built.page_table_digest f) (lenN (Built.page_table f)).
End sha256.

Module FixtureArtifact.
Section build.
Context `{Platform} (sha256 : list N -> Digest).

(** One round of the loop over the recipes: the object and the descriptors. *)
Definition encode_recipe (adapter_version : TinyAdapterVersion.t)
    (s : list N * list EncodedTensor.t) (recipe : TensorRecipe.t) : fresult (list N * list EncodedTensor.t) :=
  let '(object, descriptors) := s in
  let dtype := TinyAdapterVersion.tensor_dtype adapter_version (TensorRecipe.id recipe) in
  let offset := lenN object in
  bytes ← TensorRecipe.encoded_bytes recipe dtype;
  Ok (object ++ bytes, descriptors ++ [EncodedTensor.mk recipe dtype offset (lenN bytes)]).
Definition build_for (adapter_version : TinyAdapterVersion.t) : fresult Built.t :=
  '(object, descriptors) ← try_fold (encode_recipe adapter_version) ([], []) tensor_recipes;
  let object_digest := sha256 object in
  let page_table := build_page_table sha256 object object_digest in
  let page_table_digest := sha256 page_table in
  let manifest := build_manifest descriptors object_digest (lenN object) page_table_digest
                    (lenN page_table) (TinyAdapterVersion.number adapter_version) in
  Ok (Built.mk manifest object object_digest page_table page_table_digest).
End build.
End FixtureArtifact.

Module MultiPageFixture.
(** [((index as u64 * 131 + 17) % 251) as u8]. *)
Definition byte_at (index : N) : N := (index * 131 + 17) mod 251.
Definition build (sha256 : list N -> Digest) : Built.t :=
  let object := byte_at <$> rangeN MULTI_PAGE_OBJECT_LENGTH in
  let object_digest := sha256 object in
  let page_table := build_page_table sha256 object object_digest in
  let page_table_digest := sha256 page_table in
  let manifest := build_storage_manifest object_digest (lenN object) page_table_digest (lenN page_table) in
  Built.mk manifest object object_digest page_table page_table_digest.
End MultiPageFixture.

(** * Writing

    [std::fs] on a tree of directories and files; a path is the list of its
    components.  The [n]-th call may fail for a reason of the operating system's own,
    a write after some of the bytes. *)

Inductive Node : Type := Dir | File (bytes : list N).
Abbreviation Path := (list string).
Record Failure : Type := Fault { kind : string; written : nat }.
Module Fs.
Record t : Type := mk { nodes : gmap Path Node; calls : nat }.
End Fs.

Section fs.
Context (fault : nat -> option Failure).

Definition io_action (A : Type) : Type := Fs.t -> Fs.t * (string + A).
(** [.map_err(|source| io(operation, source))?] and the next step. *)
Definition or_fail {B} (operation : string) (m : io_action unit) (next : Fs.t -> Fs.t * fresult B)
    (s : Fs.t) : Fs.t * fresult B :=
  let '(s, r) := m s in
  match r with inl source => (s, Err (FixtureError.Io operation source)) | inr _ => next s end.

Definition called (nodes : gmap Path Node) (s : Fs.t) : Fs.t := Fs.mk nodes (S (Fs.calls s)).
(** A new node at a path whose parent is a directory. *)
Definition create (path : Path) (node : Node) : io_action unit := fun s =>
  let nodes := Fs.nodes s in
  match fault (Fs.calls s) with
  | Some f => (called nodes s, inl (kind f))
  | None =>
      match nodes !! path with
      | Some _ => (called nodes s, inl "AlreadyExists")
      | None =>
          match nodes !! removelast path with
          | Some Dir => (called (<[path := node]> nodes) s, inr tt)
          | Some (File _) => (called nodes s, inl "NotADirectory")
          | None => (called nodes s, inl "NotFound")
          end
      end
  end.
Definition create_dir (path : Path) : io_action unit := create path Dir.
(** [OpenOptions::new().write(true).create_new(true).open(path)]. *)
Definition create_new (path : Path) : io_action unit := create path (File []).
(** [write_all] to a file that was just created. *)
Definition write_all (path : Path) (bytes : list N) : io_action unit := fun s =>
  match fault (Fs.calls s) with
  | Some f => (called (<[path := File (take (written f) bytes)]> (Fs.nodes s)) s, inl (kind f))
  | None => (called (<[path := File bytes]> (Fs.nodes s)) s, inr tt)
  end.

Definition write_file {B} (path : Path) (bytes : list N) (operation : string)
    (next : Fs.t -> Fs.t * fresult B) : Fs.t -> Fs.t * fresult B :=
  or_fail operation (create_new path) (or_fail operation (write_all path bytes) next).

Definition write_artifact_new (root : Path) (manifest : list N) (object_digest : Digest) (object : list N)
    (page_table_digest : Digest) (page_table : list N) : Fs.t -> Fs.t * fresult unit :=
  let object_parent := root ++ ["objects"] in
  let page_table_parent := root ++ ["page-tables"] in
  let objects := object_parent ++ ["sha256"] in
  let page_tables := page_table_parent ++ ["sha256"] in
  or_fail "create the artifact directory" (create_dir root)
  (or_fail "create the object parent directory" (create_dir object_parent)
  (or_fail "create the page-table parent directory" (create_dir page_table_parent)
  (or_fail "create the object directory" (create_dir objects)
  (or_fail "create the page-table directory" (create_dir page_tables)
  (write_file (page_tables ++ [Digest.path_component page_table_digest]) page_table "write the page table"
  (write_file (objects ++ [Digest.path_component object_digest]) object "write the tensor object"
  (write_file (root ++ ["manifest.json"]) manifest "write the manifest"
  (fun s => (s, Ok tt))))))))).

Definition write_new (sha256 : list N -> Digest) (f : Built.t) (root : Path)
    : Fs.t -> Fs.t * fresult FixtureIdentity.t := fun s =>
  match write_artifact_new root (Built.manifest f) (Built.object_digest f) (Built.object f)
          (Built.page_table_digest f) (Built.page_table f) s with
  | (s, Ok _) => (s, Ok (identity sha256 f))
  | (s, Err e) => (s, Err e)
  | (s, Panic) => (s, Panic)
  end.
End fs.
