(* ===== verification/FixtureContract.v ===== *)
(** What the fixture builder promises: the values are exact, the artifacts it builds
    verify and load, and writing one publishes the manifest last and overwrites
    nothing. *)
From stdpp Require Import prelude gmap strings pretty sorting.
From S2P Require Import Prelude Decimal Format FormatJsonFacts FormatManifest FormatDigest FormatSchema.
From S2P Require Import FormatExact FormatArtifact FormatVerify KernelFloat Kernel KernelContract.
From S2P Require Import Runtime RuntimeForward RuntimeStep RuntimeLoad Fixture.
#[local] Open Scope N_scope.

(** * Values *)

(** The value of a centered residue, in units of 2^-149. *)
Definition exact_units (norm : bool) (q : Z) : Z :=
  if norm then (64 + q) * 2 ^ 143 else q * 2 ^ 144.

Definition residues : list Z := (fun k => Z.of_nat k - 14)%Z <$> seq 0 29.
Lemma elem_of_residues q : q ∈ residues <-> (-14 <= q <= 14)%Z.
Proof.
  unfold residues. rewrite list_elem_of_fmap. split.
  - intros (k & -> & Hk%elem_of_seq). lia.
  - intros Hq. exists (Z.to_nat (q + 14)). rewrite elem_of_seq. lia.
Qed.

Section values.
Context `{Platform}.

Definition value_exact (norm : bool) (q : Z) : bool :=
  let x := value_of norm q in
  F32.is_finite x && bool_decide (F32Facts.units x = exact_units norm q)
  && match Bf16.try_from_f32_rne x with Ok word => Bf16.to_f32 word =? x | _ => false end.
Lemma values_exact norm q : (-14 <= q <= 14)%Z -> value_exact norm q = true.
Proof.
  intros Hq%elem_of_residues.
  assert (forallb (fun q => value_exact true q && value_exact false q) residues = true) as Hall
    by (vm_compute; reflexivity).
  rewrite forallb_forall in Hall. apply list_elem_of_In, Hall, andb_true_iff in Hq. destruct norm; apply Hq.
Qed.

Lemma value_cases tensor_id flat_index :
  value tensor_id flat_index
  = if 37 * (tensor_id + 1) + 17 * (flat_index + 1) <=? u64_max
    then Ok (value_of (is_norm tensor_id) (Z.of_N ((37 * (tensor_id + 1) + 17 * (flat_index + 1)) mod 29) - 14))
    else Panic.
Proof.
  unfold value, add_or_panic, mul_or_panic, checked_add, checked_mul. change usize_max with u64_max.
  destruct (N.leb_spec (37 * (tensor_id + 1) + 17 * (flat_index + 1)) u64_max) as [Hs|Hs].
  - repeat (rewrite (proj2 (N.leb_le _ u64_max)) by lia; cbn [expect mbind result_bind]). done.
  - repeat (match goal with |- context[?a <=? u64_max] => destruct (N.leb_spec a u64_max) end;
      cbn [expect mbind result_bind]; try done). lia.
Qed.

(** The formula is exact.  The value of an element never panics unless the formula
    itself overflows 64 bits; it is then the 32-bit float whose value is exactly 1 + q/64
    for a normalization tensor and q/32 for any other, where q is the centered residue
    between -14 and 14; so it is finite and within the documented bounds, and BF16
    represents it exactly: the conversion succeeds and widening it back gives the same
    float. *)
Theorem formula_exact tensor_id flat_index :
  let sum := 37 * (tensor_id + 1) + 17 * (flat_index + 1) in
  let q := (Z.of_N (sum mod 29) - 14)%Z in
  if sum <=? u64_max then
    exists x, value tensor_id flat_index = Ok x /\ (-14 <= q <= 14)%Z /\ F32.is_finite x = true
      /\ F32Facts.units x = exact_units (is_norm tensor_id) q
      /\ exists word, Bf16.try_from_f32_rne x = Ok word /\ Bf16.to_f32 word = x
  else value tensor_id flat_index = Panic.
Proof.
  intros sum q. rewrite value_cases. fold sum. destruct (sum <=? u64_max); [|done].
  assert (-14 <= q <= 14)%Z as Hq.
  { subst q. pose proof (N.mod_lt sum 29 ltac:(done)) as Hm. revert Hm. generalize (sum mod 29). intros. lia. }
  pose proof (values_exact (is_norm tensor_id) q Hq) as Hv. unfold value_exact in Hv.
  apply andb_true_iff in Hv as [[Hf Hu%bool_decide_eq_true]%andb_true_iff Hw].
  eexists. split; [reflexivity|]. split; [done|]. split; [exact Hf|]. split; [exact Hu|].
  subst q. destruct (Bf16.try_from_f32_rne _) as [word| |]; [|done..]. exists word.
  split; [done|]. by apply N.eqb_eq in Hw.
Qed.
End values.

(** * Page tables *)

Lemma slice_middle (pre mid suf : list N) first last :
  lenN pre = first -> first + lenN mid = last -> slice (pre ++ mid ++ suf) first last = Some mid.
Proof.
  intros <- <-. unfold slice, lenN. rewrite !length_app.
  rewrite (proj2 (N.leb_le _ _)) by lia. rewrite (proj2 (N.leb_le _ _)) by lia. simpl.
  f_equal. rewrite drop_app_length' by lia. apply take_app_length'. lia.
Qed.
Lemma concat_words (w : nat) (words : list (list N)) i word :
  Forall (fun l => length l = w) words -> words !! i = Some word ->
  exists pre suf, mjoin words = pre ++ word ++ suf /\ length pre = (w * i)%nat.
Proof.
  intros Hw. revert i. induction Hw as [|l words Hl _ IH]; intros i Hi; [done|]. destruct i as [|i].
  - injection Hi as ->. exists [], (mjoin words). split; [done|]. simpl. lia.
  - destruct (IH i Hi) as (pre & suf & E & Hp). exists (l ++ pre), suf.
    change (mjoin (l :: words)) with (l ++ mjoin words). rewrite E, <- app_assoc, length_app. split; [done|]. lia.
Qed.
Lemma length_mjoin (w : nat) (words : list (list N)) :
  Forall (fun l => length l = w) words -> length (mjoin words) = (w * length words)%nat.
Proof.
  induction 1 as [|l words Hl _ IH]; [simpl; lia|].
  change (mjoin (l :: words)) with (l ++ mjoin words). rewrite length_app, IH, Hl. simpl. lia.
Qed.

Lemma div_ceil_ceiling a b : 0 < b -> div_ceil a b = ceiling a b.
Proof.
  intros Hb. unfold div_ceil, ceiling. pose proof (N.div_mod a b ltac:(lia)) as Hd.
  pose proof (N.mod_lt a b ltac:(lia)) as Hm. revert Hd Hm. generalize (a / b) (a mod b). intros q r -> Hm.
  destruct (N.eqb_spec r 0) as [->|E].
  - apply N.div_unique with (r := b - 1); lia.
  - apply N.div_unique with (r := r - 1); lia.
Qed.

Lemma length_chunks (size : nat) (l : list N) :
  (0 < size)%nat -> lenN (chunks size l) = ceiling (lenN l) (N.of_nat size).
Proof.
  intros Hs. set (n := ceiling (lenN l) (N.of_nat size)).
  assert (forall i, (i < length (chunks size l))%nat <-> N.of_nat i < n) as Hi.
  { intros i. rewrite <- lookup_lt_is_Some, chunks_lookup by done. unfold n. rewrite ceiling_spec by lia. unfold lenN.
    case_decide; split; try (intros; by eexists); try lia. by intros [? ?]. }
  pose proof (Hi (length (chunks size l))). pose proof (Hi (N.to_nat n)). unfold lenN. lia.
Qed.

Section sha256.
Context (sha256 : list N -> Digest) (Hsha : forall bytes, sha256 bytes < digest_max).

(** The pieces of a page table. *)
Definition page_hashes (object : list N) : list (list N) :=
  (fun page => Digest.as_bytes (sha256 page)) <$> chunks (N.to_nat FIXTURE_PAGE_SIZE) object.
Definition pages_of (object : list N) : N := ceiling (lenN object) FIXTURE_PAGE_SIZE.
Definition record_for (object : list N) (object_digest page_table : Digest) : ObjectRecord.t :=
  ObjectRecord.mk object_digest (lenN object) FIXTURE_PAGE_SIZE page_table (64 + 32 * pages_of object).
Definition table_for (object : list N) (object_digest : Digest) : PageTable.t :=
  PageTable.mk (build_page_table sha256 object object_digest) FIXTURE_PAGE_SIZE (lenN object) (pages_of object)
    object_digest.

Lemma page_hashes_words object : Forall (fun l => length l = 32%nat) (page_hashes object).
Proof.
  apply Forall_forall. intros l Hl. unfold page_hashes in Hl. apply list_elem_of_fmap in Hl as (p & -> & _). apply length_as_bytes.
Qed.
Lemma length_page_hashes object : lenN (page_hashes object) = pages_of object.
Proof.
  unfold page_hashes, lenN at 1. rewrite length_fmap. fold (lenN (chunks (N.to_nat FIXTURE_PAGE_SIZE) object)).
  rewrite length_chunks by (unfold FIXTURE_PAGE_SIZE; lia). unfold pages_of. by rewrite N2Nat.id.
Qed.
Lemma page_table_pieces object d :
  build_page_table sha256 object d
  = PAGE_TABLE_MAGIC ++ to_le_bytes 4 1 ++ to_le_bytes 4 FIXTURE_PAGE_SIZE ++ to_le_bytes 8 (lenN object)
    ++ to_le_bytes 8 (pages_of object) ++ Digest.as_bytes d ++ mjoin (page_hashes object).
Proof. unfold build_page_table. by rewrite div_ceil_ceiling by done. Qed.
Lemma length_page_table object d : lenN (build_page_table sha256 object d) = 64 + 32 * pages_of object.
Proof.
  rewrite page_table_pieces. unfold lenN. rewrite !length_app, !length_to_le_bytes, length_as_bytes,
    (length_mjoin 32) by apply page_hashes_words.
  pose proof (length_page_hashes object) as Hl. unfold lenN in Hl. change (length PAGE_TABLE_MAGIC) with 8%nat. lia.
Qed.

Section table.
Context (object : list N) (Hobject : 0 < lenN object <= 2 ^ 40).
Let d := sha256 object.
Let table := build_page_table sha256 object d.

Lemma pages_few : pages_of object <= 2 ^ 40.
Proof.
  unfold pages_of, ceiling. etrans; [apply N.Div0.div_le_upper_bound with (q := 2 ^ 40)|done].
  unfold FIXTURE_PAGE_SIZE. change (2 ^ 40) with 1099511627776 in *. lia.
Qed.

Lemma slice_magic : slice table 0 8 = Some PAGE_TABLE_MAGIC.
Proof. unfold table. rewrite page_table_pieces. by apply (slice_middle [] PAGE_TABLE_MAGIC). Qed.
Lemma read_field (w : nat) n pre suf offset :
  table = pre ++ to_le_bytes w n ++ suf -> lenN pre = offset -> n < 256 ^ N.of_nat w ->
  slice table offset (offset + N.of_nat w) = Some (to_le_bytes w n) /\ from_le_bytes (to_le_bytes w n) = n.
Proof.
  intros -> Hp Hn. split; [|by apply from_to_le_bytes].
  apply slice_middle; [done|]. unfold lenN. by rewrite length_to_le_bytes.
Qed.
Lemma read_version : read_u32 table 8 = Ok 1.
Proof.
  unfold read_u32. edestruct (read_field 4 1 PAGE_TABLE_MAGIC) as [-> E];
    [unfold table; by rewrite page_table_pieces | done | done|]. cbn [expect mbind result_bind]. by rewrite E.
Qed.
Lemma read_page_size : read_u32 table 12 = Ok FIXTURE_PAGE_SIZE.
Proof.
  unfold read_u32. edestruct (read_field 4 FIXTURE_PAGE_SIZE (PAGE_TABLE_MAGIC ++ to_le_bytes 4 1)) as [-> E];
    [unfold table; by rewrite page_table_pieces, <- app_assoc | done | done|].
  cbn [expect mbind result_bind]. by rewrite E.
Qed.
Lemma read_length : read_u64 table 16 = Ok (lenN object).
Proof.
  unfold read_u64.
  edestruct (read_field 8 (lenN object) (PAGE_TABLE_MAGIC ++ to_le_bytes 4 1 ++ to_le_bytes 4 FIXTURE_PAGE_SIZE)) as [-> E];
    [unfold table; by rewrite page_table_pieces, <- !app_assoc | done | |].
  { change (256 ^ N.of_nat 8) with 18446744073709551616. change (2 ^ 40) with 1099511627776 in *. lia. }
  cbn [expect mbind result_bind]. by rewrite E.
Qed.
Lemma read_count : read_u64 table 24 = Ok (pages_of object).
Proof.
  unfold read_u64.
  edestruct (read_field 8 (pages_of object)
    (PAGE_TABLE_MAGIC ++ to_le_bytes 4 1 ++ to_le_bytes 4 FIXTURE_PAGE_SIZE ++ to_le_bytes 8 (lenN object))) as [-> E];
    [unfold table; by rewrite page_table_pieces, <- !app_assoc | | |].
  { unfold lenN. rewrite !length_app, !length_to_le_bytes. done. }
  { pose proof pages_few. change (256 ^ N.of_nat 8) with 18446744073709551616. change (2 ^ 40) with 1099511627776 in *. lia. }
  cbn [expect mbind result_bind]. by rewrite E.
Qed.
Lemma slice_digest : slice table 32 64 = Some (Digest.as_bytes d).
Proof.
  unfold table. rewrite page_table_pieces.
  replace (_ ++ _) with ((PAGE_TABLE_MAGIC ++ to_le_bytes 4 1 ++ to_le_bytes 4 FIXTURE_PAGE_SIZE ++ to_le_bytes 8 (lenN object)
    ++ to_le_bytes 8 (pages_of object)) ++ Digest.as_bytes d ++ mjoin (page_hashes object)) by (by rewrite <- !app_assoc).
  apply slice_middle; unfold lenN; rewrite ?length_app, ?length_to_le_bytes, ?length_as_bytes; done.
Qed.

Lemma count_pass length : length <= 2 ^ 40 -> page_count length FIXTURE_PAGE_SIZE = Ok (ceiling length FIXTURE_PAGE_SIZE).
Proof.
  intros Hl. unfold page_count. eapply pass; [reflexivity|]. cbv beta.
  rewrite checked_add_le; [reflexivity|]. change (2 ^ 40) with 1099511627776 in *. unfold FIXTURE_PAGE_SIZE, u64_max in *. lia.
Qed.
Lemma table_parses page_table :
  sha256 table = page_table ->
  PageTable.parse_verified sha256 (record_for object d page_table) table = Ok (table_for object d).
Proof.
  intros Ht. unfold PageTable.parse_verified. pose proof pages_few as Hp. pose proof (length_page_table object d) as Hlen.
  fold table in Hlen. change (2 ^ 40) with 1099511627776 in *. unfold record_for.
  eapply pass; [apply guard_false, N.ltb_ge; unfold u64_max; lia|]. cbv beta.
  eapply pass; [apply guard_false; cbn [ObjectRecord.digest ObjectRecord.length ObjectRecord.page_size ObjectRecord.page_table ObjectRecord.page_table_length]; by rewrite Hlen, N.eqb_refl|]. cbv beta.
  eapply pass; [apply guard_false; cbn [ObjectRecord.digest ObjectRecord.length ObjectRecord.page_size ObjectRecord.page_table ObjectRecord.page_table_length]; by rewrite Ht, N.eqb_refl|]. cbv beta.
  eapply pass; [apply guard_false, N.ltb_ge; unfold PAGE_TABLE_HEADER_BYTES; lia|]. cbv beta.
  eapply pass; [by rewrite slice_magic|]. cbv beta. eapply pass; [by apply guard_false, bool_decide_eq_false_2; intros []|]. cbv beta.
  eapply pass; [apply read_version|]. cbv beta. eapply pass; [done|]. cbv beta.
  eapply pass; [apply read_page_size|]. cbv beta. eapply pass; [done|]. cbv beta.
  eapply pass; [apply read_length|]. cbv beta. eapply pass; [apply guard_false; cbn [ObjectRecord.digest ObjectRecord.length ObjectRecord.page_size ObjectRecord.page_table ObjectRecord.page_table_length]; by rewrite N.eqb_refl|]. cbv beta.
  eapply pass; [apply read_count|]. cbv beta.
  eapply pass; [apply count_pass; exact (proj2 Hobject)|].
  cbv beta. eapply pass; [apply guard_false; cbn [ObjectRecord.length ObjectRecord.page_size]; fold (pages_of object); by rewrite N.eqb_refl|]. cbv beta.
  eapply pass; [by rewrite slice_digest|]. cbv beta.
  eapply pass; [apply guard_false; cbn [ObjectRecord.digest ObjectRecord.length ObjectRecord.page_size ObjectRecord.page_table ObjectRecord.page_table_length]; rewrite from_as_bytes by apply Hsha; by rewrite N.eqb_refl|]. cbv beta.
  eapply pass; [rewrite checked_mul_le by (unfold u64_max; lia); cbn [mbind option_bind];
    rewrite checked_add_le by (unfold u64_max; lia); reflexivity|]. cbv beta.
  eapply pass; [apply guard_false; rewrite Hlen; apply negb_false_iff, N.eqb_eq; lia|]. cbv beta. done.
Qed.

Lemma table_hash i page :
  chunks (N.to_nat FIXTURE_PAGE_SIZE) object !! i = Some page ->
  PageTable.page_hash (table_for object d) (N.of_nat i) = Some (Digest.as_bytes (sha256 page)).
Proof.
  intros Hi. assert (N.of_nat i < pages_of object) as Hlt.
  { rewrite <- length_page_hashes. unfold page_hashes, lenN. rewrite length_fmap. apply lookup_lt_Some in Hi. lia. }
  pose proof pages_few as Hp. change (2 ^ 40) with 1099511627776 in *.
  unfold PageTable.page_hash. cbn [PageTable.page_count PageTable.bytes table_for].
  rewrite (proj2 (N.leb_gt _ _)) by done. rewrite checked_mul_le by (unfold usize_max, u64_max; lia). cbn [mbind option_bind].
  unfold PAGE_TABLE_HEADER_BYTES. rewrite !checked_add_le by (unfold usize_max, u64_max; lia). cbn [mbind option_bind].
  rewrite checked_add_le by (unfold usize_max, u64_max; lia). cbn [mbind option_bind].
  destruct (concat_words 32 (page_hashes object) i (Digest.as_bytes (sha256 page))) as (pre & suf & E & Hpre).
  { apply page_hashes_words. } { unfold page_hashes. by rewrite list_lookup_fmap, Hi. }
  rewrite page_table_pieces, E.
  replace (_ ++ _) with ((PAGE_TABLE_MAGIC ++ to_le_bytes 4 1 ++ to_le_bytes 4 FIXTURE_PAGE_SIZE ++ to_le_bytes 8 (lenN object)
    ++ to_le_bytes 8 (pages_of object) ++ Digest.as_bytes d ++ pre) ++ Digest.as_bytes (sha256 page) ++ suf)
    by (by rewrite <- !app_assoc).
  apply slice_middle; unfold lenN; rewrite ?length_app, ?length_to_le_bytes, ?length_as_bytes; [|done].
  rewrite Hpre. change (length PAGE_TABLE_MAGIC) with 8%nat. lia.
Qed.

Lemma pages_verify pages k record :
  (forall i page, pages !! i = Some page ->
     PageTable.page_hash (table_for object d) (k + N.of_nat i) = Some (Digest.as_bytes (sha256 page))) ->
  try_fold (PageTable.verify_page sha256 (table_for object d) record) k pages = Ok (k + lenN pages).
Proof.
  revert k. induction pages as [|page pages IH]; intros k Hp; [simpl; f_equal; unfold lenN; simpl; lia|].
  cbn [try_fold]. eapply pass.
  - unfold PageTable.verify_page. specialize (Hp 0%nat page eq_refl). rewrite N.add_0_r in Hp.
    rewrite guard_false by (apply bool_decide_eq_false_2; tauto). reflexivity.
  - cbv beta. rewrite IH; [f_equal; unfold lenN; simpl; lia|]. intros i q Hq.
    specialize (Hp (S i) q Hq). by replace (k + 1 + N.of_nat i) with (k + N.of_nat (S i)) by lia.
Qed.

Lemma object_verifies page_table :
  PageTable.verify_object sha256 (table_for object d) (record_for object d page_table) object = Ok tt.
Proof.
  unfold PageTable.verify_object, record_for, table_for. change (2 ^ 40) with 1099511627776 in *.
  eapply pass; [apply guard_false, N.ltb_ge; unfold u64_max; lia|]. cbv beta.
  eapply pass; [apply guard_false; cbn [ObjectRecord.digest ObjectRecord.length ObjectRecord.page_size ObjectRecord.page_table ObjectRecord.page_table_length]; by rewrite N.eqb_refl|]. cbv beta.
  eapply pass; [apply guard_false; cbn [ObjectRecord.digest ObjectRecord.length ObjectRecord.page_size ObjectRecord.page_table ObjectRecord.page_table_length]; by rewrite N.eqb_refl|]. cbv beta.
  eapply pass; [apply guard_false; cbn [PageTable.object_digest PageTable.object_length PageTable.page_size
    ObjectRecord.digest ObjectRecord.length ObjectRecord.page_size]; by rewrite !N.eqb_refl|]. cbv beta.
  eapply pass; [reflexivity|]. cbv beta.
  eapply pass; [apply (pages_verify _ 0); intros i page Hi; rewrite N.add_0_l; by apply table_hash|]. done.
Qed.
End table.
End sha256.

(** * An artifact of one object verifies *)

(** The deserializer reads these bytes, when they are the canonical text of a document,
    as the calls of that document. *)
Definition reads_canonically (from_slice : list N -> Token * option SyntaxError) (bytes : list N) : Prop :=
  forall v, canonical_bytes v = bytes -> from_slice bytes = (token_of v, None).

(** The parsed manifest: the described one with its identifier and bytes. *)
Definition identified (sha256 : list N -> Digest) (m : Manifest.t) : Manifest.t :=
  let text := canonical_bytes (manifest_document m) in
  Manifest.mk (Manifest.adapter m) (Manifest.model m) (Manifest.objects m) (Manifest.tensors m)
    (Manifest.tokenizer m) (sha256 text) text.
Definition verified_artifact (sha256 : list N -> Digest) (m : Manifest.t) (object : list N) : Artifact.t :=
  Artifact.mk (identified sha256 m)
    {[sha256 object := VerifiedObject.mk object (table_for sha256 object (sha256 object))]}
    (lenN (canonical_bytes (manifest_document m)) + lenN object + (64 + 32 * pages_of object)).

Lemma artifact_verifies sha256 from_slice limits m object :
  (forall bytes, sha256 bytes < digest_max) -> limits_ok limits -> manifest_ok limits m -> texts_ok m ->
  let d := sha256 object in
  let table := build_page_table sha256 object d in
  let text := canonical_bytes (manifest_document m) in
  Manifest.objects m = [record_for object d (sha256 table)] -> 0 < lenN object <= 2 ^ 40 ->
  lenN text <= Limits.manifest_bytes limits -> reads_canonically from_slice text ->
  lenN text + lenN object + (64 + 32 * pages_of object) <= N.min u64_max (Limits.eager_memory_bytes limits) ->
  Artifact.from_bytes_internal sha256 from_slice
    (ArtifactBytes.mk text {[d := object]} {[sha256 table := table]}) limits None
  = Ok (verified_artifact sha256 m object).
Proof.
  intros Hsha Hlim Hm Ht d table text Ho Hlen Hsize Hread Hbudget. unfold Artifact.from_bytes_internal.
  assert (Limits.validate limits = Ok limits) as Hv.
  { pose proof (limits_validate_spec limits) as H. destruct (Limits.validate limits) as [l|e|]; [|by destruct H|done].
    by destruct H as [-> _]. }
  assert (required_eager_bytes (identified sha256 m)
    = Ok (lenN text + lenN object + (64 + 32 * pages_of object))) as Hreq.
  { unfold required_eager_bytes. cbn [Manifest.canonical_bytes Manifest.objects identified]. fold text. rewrite Ho.
    eapply pass; [apply guard_false, N.ltb_ge; lia|]. cbv beta. cbn [try_fold record_for ObjectRecord.length ObjectRecord.page_table_length].
    rewrite checked_add_le by lia. cbn [mbind option_bind]. rewrite checked_add_le by lia. reflexivity. }
  assert (ensure_eager_budget (identified sha256 m) limits = Ok tt) as Hb.
  { unfold ensure_eager_budget. rewrite Hreq. cbn [mbind result_bind]. apply guard_false, N.ltb_ge. lia. }
  eapply pass; [exact Hv|]. cbv beta. cbn [ArtifactBytes.manifest ArtifactBytes.objects ArtifactBytes.page_tables].
  eapply pass; [apply (manifest_complete limits Hlim sha256 from_slice m); [done..| by apply Hread]|]. cbv beta.
  fold (identified sha256 m). eapply pass; [exact Hb|]. cbv beta. unfold Artifact.verify_loaded.
  eapply pass; [exact Hb|]. cbv beta. eapply pass.
  - cbn [Manifest.objects identified]. rewrite Ho. cbn [try_fold]. unfold Artifact.verify_record.
    cbn [record_for ObjectRecord.page_table ObjectRecord.digest]. rewrite !lookup_singleton_eq. cbn [ok_or mbind result_bind].
    fold (record_for object d (sha256 table)). rewrite (table_parses sha256 Hsha object Hlen) by done.
    cbn [mbind result_bind]. rewrite (object_verifies sha256 object Hlen). cbn [mbind result_bind]. reflexivity.
  - cbv beta iota. rewrite Hreq. reflexivity.
Qed.

(** * The manifests of the fixtures *)

Definition dtype_of (dtype : FixtureDType.t) : DType.t :=
  match dtype with FixtureDType.F32 => DType.F32Le | FixtureDType.Bf16 => DType.Bf16Le end.
Definition tensor_record (d : Digest) (t : EncodedTensor.t) : TensorRecord.t :=
  let recipe := EncodedTensor.recipe t in
  TensorRecord.mk (dtype_of (EncodedTensor.dtype t)) (TensorRecipe.id recipe) (EncodedTensor.length t) d
    (EncodedTensor.offset t) (TensorRecipe.role recipe) (TensorRecipe.shape recipe).
Definition reference_model : FormatManifest.TinyModel.t := FormatManifest.TinyModel.mk 16 12 8 4 2 1 2 32.
Definition fixture_manifest (version : N) (object : ObjectRecord.t) (tensors : list TensorRecord.t) : Manifest.t :=
  Manifest.mk (Adapter.mk "runnel.tiny-causal-moe" version) reference_model [object] tensors
    (Tokenizer.mk "runnel.ascii32" 1 32) 0 [].
Definition storage_tensor (d : Digest) (length : N) : TensorRecord.t :=
  TensorRecord.mk DType.U8 0 length d 0 "storage.payload" [length].

(** ** Their texts *)

Definition copied (b : N) : Prop := write_byte b = [b].
#[export] Instance copied_dec b : Decision (copied b).
Proof. unfold copied. apply _. Defined.
Lemma write_copied s : Forall copied (string_bytes s) -> write_string s = 34 :: string_bytes s ++ [34].
Proof.
  intros Hs. unfold write_string. f_equal. f_equal. induction Hs as [|b l Hb _ IH]; [done|].
  change (mjoin (write_byte <$> b :: l)) with (write_byte b ++ mjoin (write_byte <$> l)). by rewrite Hb, IH.
Qed.
Lemma plain_copied b : plain_byte b -> copied b.
Proof.
  unfold plain_byte, copied, write_byte, QUOTE, BACKSLASH. intros Hb.
  repeat match goal with |- context[?x =? ?y] => destruct (N.eqb_spec x y); [lia|] end.
  destruct (N.leb_spec b 31); [lia|done].
Qed.
Lemma write_digest d : write_value (digest_json d) = 34 :: digest_text d ++ [34].
Proof.
  unfold digest_json, digest_text. cbn [write_value]. apply write_copied.
  destruct (FormatExact.digest_text d) as (l & -> & _ & Hl). apply Forall_app. split; [by repeat constructor|].
  eapply Forall_impl; [exact Hl|]. apply plain_copied.
Qed.
Lemma write_integer n : write_value (Integer n) = decimal n.
Proof. done. Qed.
Lemma write_dtype d : write_value (String_ (DType.as_str (dtype_of d))) = 34 :: string_bytes (FixtureDType.as_str d) ++ [34].
Proof. by destruct d. Qed.
Lemma join_separated parts : join_commas parts = separated parts.
Proof. destruct parts as [|p parts]; [done|]. by rewrite separated_cons. Qed.

(** Both sides as appended pieces. *)
Ltac pieces := repeat (rewrite <- app_assoc || rewrite <- app_comm_cons); cbn [app]; try reflexivity.

Lemma tensor_text_written d t :
  Forall copied (string_bytes (TensorRecipe.role (EncodedTensor.recipe t))) ->
  write_value (tensor_document (tensor_record d t)) = tensor_text d t.
Proof.
  intros Hrole. unfold tensor_document, tensor_record, tensor_text.
  cbn [TensorRecord.dtype TensorRecord.id TensorRecord.length TensorRecord.object TensorRecord.offset
    TensorRecord.role TensorRecord.shape].
  rewrite write_object. cbn [fmap list_fmap write_entry separated fst snd].
  unfold write_entry. cbn [fst snd]. rewrite write_dtype, write_digest, !write_integer, join_separated.
  cbn [write_value]. rewrite (write_copied (TensorRecipe.role _)) by done.
  rewrite <- list_fmap_compose. 
  replace (write_value ∘ Integer) with decimal by done.
  pieces.
Qed.
Lemma imap_elements {A B} (h : A -> B) l : imap (fun _ x => h x) l = h <$> l.
Proof. induction l as [|x l IH]; [done|]. rewrite imap_cons, fmap_cons. f_equal. exact IH. Qed.
Lemma commas_separated {A} (g : A -> list N) l :
  mjoin (imap (fun index x => (if (index =? 0)%nat then [] else [44]) ++ g x) l) = separated (g <$> l).
Proof.
  destruct l as [|x l]; [done|]. rewrite imap_cons, fmap_cons, separated_cons.
  rewrite (imap_ext _ (fun _ x => 44 :: g x)) by done. rewrite imap_elements, <- list_fmap_compose. done.
Qed.
Lemma tensor_texts d tensors :
  Forall (fun t => Forall copied (string_bytes (TensorRecipe.role (EncodedTensor.recipe t)))) tensors ->
  write_value <$> (tensor_document <$> (tensor_record d <$> tensors)) = tensor_text d <$> tensors.
Proof.
  intros Hr. rewrite <- !list_fmap_compose. apply list_fmap_ext. intros i t Ht. unfold compose.
  eapply Forall_lookup_1 in Hr; [|exact Ht]. by apply tensor_text_written.
Qed.

(** The texts of the records, with those of the tensors left open. *)
Definition adapter_written (version : N) : list N :=
  json "{'id':'runnel.tiny-causal-moe','version':" ++ decimal version ++ [125].
Lemma object_written object :
  ObjectRecord.page_size object = 65536 ->
  write_value (object_document object)
  = json "{'digest':'" ++ digest_text (ObjectRecord.digest object)
    ++ json "','length':" ++ decimal (ObjectRecord.length object)
    ++ json ",'page_size':65536,'page_table':'" ++ digest_text (ObjectRecord.page_table object)
    ++ json "','page_table_length':" ++ decimal (ObjectRecord.page_table_length object) ++ json "}".
Proof.
  intros Hp. unfold object_document. rewrite write_object, Hp. cbn [fmap list_fmap write_entry separated].
  unfold write_entry. cbn [fst snd]. rewrite !write_digest, !write_integer.
  replace (decimal 65536) with (json "65536") by (vm_compute; reflexivity). pieces.
Qed.
Lemma manifest_written version object tensors :
  write_value (manifest_document (fixture_manifest version object tensors))
  = json "{'adapter':{'id':'runnel.tiny-causal-moe','version':" ++ decimal version
  ++ json "},'format':'rmoa','model':{'context_length':16,'expert_hidden_size':12,'hidden_size':8,"
  ++ json "'num_experts':4,'num_heads':2,'num_layers':1,'top_k':2,'vocab_size':32},"
  ++ json "'objects':[" ++ write_value (object_document object)
  ++ json "],'tensors':[" ++ separated (write_value <$> (tensor_document <$> tensors))
  ++ json "],'tokenizer':{'id':'runnel.ascii32','version':1,'vocab_size':32},'version':1}".
Proof.
  assert (write_value (model_document reference_model)
    = json "{'context_length':16,'expert_hidden_size':12,'hidden_size':8,'num_experts':4,'num_heads':2,'num_layers':1,'top_k':2,'vocab_size':32}")
    as Hmodel by (vm_compute; reflexivity).
  assert (write_value (Object [("id", String_ "runnel.ascii32"); ("version", Integer 1); ("vocab_size", Integer 32)])
    = json "{'id':'runnel.ascii32','version':1,'vocab_size':32}") as Htok by (vm_compute; reflexivity).
  assert (write_value (Object [("id", String_ "runnel.tiny-causal-moe"); ("version", Integer version)])
    = json "{'id':'runnel.tiny-causal-moe','version':" ++ decimal version ++ json "}") as Had.
  { rewrite write_object. cbn [fmap list_fmap separated]. unfold write_entry. cbn [fst snd]. rewrite write_integer. pieces. }
  unfold manifest_document, fixture_manifest.
  cbn [Manifest.adapter Manifest.model Manifest.objects Manifest.tensors Manifest.tokenizer Adapter.id Adapter.version
    Tokenizer.id Tokenizer.version Tokenizer.vocab_size].
  rewrite write_object. cbn [fmap list_fmap separated]. unfold write_entry. cbn [fst snd].
  rewrite Hmodel, Htok, Had. 
  change (write_value (Array (tensor_document <$> tensors)))
    with (91 :: separated (write_value <$> (tensor_document <$> tensors)) ++ [93]).
  change (write_value (Array [object_document object])) with (91 :: write_value (object_document object) ++ [93]).
  generalize (write_value (object_document object)), (separated (write_value <$> (tensor_document <$> tensors))).
  intros o ts. pieces.
Qed.

Lemma fixture_text version object tensors :
  Forall (fun t => Forall copied (string_bytes (TensorRecipe.role (EncodedTensor.recipe t)))) tensors ->
  ObjectRecord.page_size object = 65536 ->
  canonical_bytes (manifest_document (fixture_manifest version object
    (tensor_record (ObjectRecord.digest object) <$> tensors)))
  = build_manifest tensors (ObjectRecord.digest object) (ObjectRecord.length object)
      (ObjectRecord.page_table object) (ObjectRecord.page_table_length object) version.
Proof.
  intros Hr Hp. unfold canonical_bytes, build_manifest.
  rewrite manifest_written, object_written, tensor_texts, commas_separated by done.
  generalize (separated (tensor_text (ObjectRecord.digest object) <$> tensors)). intros ts. pieces.
Qed.
Lemma storage_text object :
  ObjectRecord.page_size object = 65536 ->
  canonical_bytes (manifest_document (fixture_manifest 1 object
    [storage_tensor (ObjectRecord.digest object) (ObjectRecord.length object)]))
  = build_storage_manifest (ObjectRecord.digest object) (ObjectRecord.length object)
      (ObjectRecord.page_table object) (ObjectRecord.page_table_length object).
Proof.
  intros Hp. unfold canonical_bytes, build_storage_manifest. rewrite manifest_written, object_written by done.
  assert (write_value (tensor_document (storage_tensor (ObjectRecord.digest object) (ObjectRecord.length object)))
    = json "{'dtype':'u8','id':0,'length':" ++ decimal (ObjectRecord.length object)
      ++ json ",'object':'" ++ digest_text (ObjectRecord.digest object)
      ++ json "','offset':0,'role':'storage.payload','shape':[" ++ decimal (ObjectRecord.length object) ++ json "]}") as E.
  { unfold tensor_document, storage_tensor.
    cbn [TensorRecord.dtype TensorRecord.id TensorRecord.length TensorRecord.object TensorRecord.offset
      TensorRecord.role TensorRecord.shape DType.as_str].
    rewrite write_object. cbn [fmap list_fmap separated]. unfold write_entry. cbn [fst snd].
    rewrite write_digest, !write_integer. cbn [write_value fmap list_fmap separated]. fold (decimal (ObjectRecord.length object)). pieces. }
  change (write_value <$> (tensor_document <$> [storage_tensor ?d ?l])) with [write_value (tensor_document (storage_tensor d l))].
  cbn [separated]. rewrite E. pieces.
Qed.

(** ** Well-formedness *)

(** The checks on one tensor of an object of [length] bytes that do not mention its digest. *)
Definition fits (length : N) (t : TensorRecord.t) : bool :=
  (0 <? TensorRecord.length t)
  && (TensorRecord.offset t mod DType.byte_width (TensorRecord.dtype t) =? 0)
  && (TensorRecord.length t =? prodN (TensorRecord.shape t) * DType.byte_width (TensorRecord.dtype t))
  && forallb (fun dimension => (0 <? dimension) && (dimension <=? MAX_TENSOR_DIMENSION)) (TensorRecord.shape t)
  && (1 <=? lenN (TensorRecord.shape t)) && (lenN (TensorRecord.shape t) <=? 8)
  && (TensorRecord.offset t + TensorRecord.length t <=? length)
  && match validate_role (TensorRecord.role t) "" with Ok _ => true | _ => false end.
Fixpoint follows (c : N) (l : list TensorRecord.t) (e : N) : bool :=
  match l with
  | [] => c =? e
  | t :: l => (TensorRecord.offset t =? c) && follows (c + TensorRecord.length t) l e
  end.
Definition laid_out (length : N) (l : list TensorRecord.t) : bool :=
  forallb (fits length) l && follows 0 l length && bool_decide (NoDup (TensorRecord.role <$> l))
  && bool_decide (TensorRecord.id <$> l = rangeN (lenN l)).

Lemma fits_spec length t :
  fits length t = true ->
  (forall o, ObjectRecord.digest o = TensorRecord.object t -> ObjectRecord.length o = length -> FormatSchema.tensor_ok [o] t)
  /\ forall path, validate_role (TensorRecord.role t) path = Ok tt.
Proof.
  unfold fits. rewrite !andb_true_iff, !N.leb_le, !N.ltb_lt, !N.eqb_eq.
  intros [[[[[[[Hl Ha] Hs] Hd] Hr1] Hr2] Hend] Hrole]. split.
  - intros o Ho <-. split; try done.
    + exists o. split; [by left|]. by split.
    + apply Forall_forall. intros n Hn. rewrite forallb_forall in Hd. apply list_elem_of_In, Hd, andb_true_iff in Hn.
      destruct Hn as [?%N.ltb_lt ?%N.leb_le]. done.
  - intros path. apply (role_any_path _ ""). destruct (validate_role _ _) as [[]| |]; done.
Qed.
Lemma follows_chain c l e : follows c l e = true -> chain c (span <$> l) e.
Proof.
  revert c. induction l as [|t l IH]; intros c; cbn [follows fmap list_fmap chain]; [by intros ?%N.eqb_eq|].
  intros [Ho%N.eqb_eq Hf%IH]%andb_true_iff. unfold span at 1. by rewrite Ho.
Qed.

Lemma laid_out_ok o l :
  laid_out (ObjectRecord.length o) l = true -> Forall (fun t => TensorRecord.object t = ObjectRecord.digest o) l ->
  tensors_ok [o] l /\ tiles l o /\ Forall (fun t => forall path, validate_role (TensorRecord.role t) path = Ok tt) l.
Proof.
  unfold laid_out. intros [[[Hfit Hf]%andb_true_iff Hnd%bool_decide_eq_true]%andb_true_iff Hid%bool_decide_eq_true]%andb_true_iff Ho.
  assert (Forall (fun t => fits (ObjectRecord.length o) t = true) l) as Hall.
  { apply Forall_forall. intros t Ht. rewrite forallb_forall in Hfit. by apply Hfit, list_elem_of_In. }
  split_and!.
  - split; [|intros i t Hi|done].
    + apply Forall_forall. intros t Ht. rewrite Forall_forall in Hall, Ho. apply (fits_spec (ObjectRecord.length o)); [by apply Hall | | done].
      symmetry. by apply Ho.
    + assert ((TensorRecord.id <$> l) !! i = Some (TensorRecord.id t)) as E by (by rewrite list_lookup_fmap, Hi).
      rewrite Hid in E. unfold rangeN in E. rewrite list_lookup_fmap in E. apply fmap_Some in E as (k & Hk & ->).
      by apply lookup_seq in Hk as [-> _].
  - intros b Hb. rewrite filter_spans. unfold spans. rewrite (filter_all (fun t => TensorRecord.object t = ObjectRecord.digest o) l Ho).
    rewrite (chain_exact _ 0 (ObjectRecord.length o)); [rewrite decide_True; [done|lia] | | by apply follows_chain].
    apply Forall_fmap. eapply Forall_impl; [exact Hall|]. intros t Ht. unfold fits in Ht.
    rewrite !andb_true_iff, !N.ltb_lt in Ht. unfold compose, span. simpl. lia.
  - eapply Forall_impl; [exact Hall|]. intros t Ht. exact (proj2 (fits_spec _ _ Ht)).
Qed.

Section built.
Context (sha256 : list N -> Digest) (Hsha : forall bytes, sha256 bytes < digest_max).
Context (object : list N) (version : N) (tensors : list TensorRecord.t).
Hypothesis (Hlength : 0 < lenN object <= 2 ^ 20) (Hversion : version = 1 \/ version = 2).
Let d := sha256 object.
Let o := record_for object d (sha256 (build_page_table sha256 object d)).
Hypothesis (Hlaid : laid_out (lenN object) tensors = true)
  (Hd : Forall (fun t => TensorRecord.object t = d) tensors) (Hcount : lenN tensors <= 1000).
Let m := fixture_manifest version o tensors.

Lemma default_limits : limits_ok Limits.default.
Proof. split; by vm_compute. Qed.
Lemma few_pages : pages_of object <= 1024.
Proof.
  unfold pages_of, ceiling. etrans; [apply N.Div0.div_le_upper_bound with (q := 1024)|done].
  unfold FIXTURE_PAGE_SIZE. change (2 ^ 20) with 1048576 in *. lia.
Qed.
Lemma built_manifest_ok : manifest_ok Limits.default m /\ texts_ok m.
Proof.
  pose proof few_pages as Hp. change (2 ^ 20) with 1048576 in *. destruct (laid_out_ok o tensors) as (Ht & Hti & Hr); [done..|].
  split.
  - split; cbn [m fixture_manifest Manifest.adapter Manifest.model Manifest.objects Manifest.tensors Manifest.tokenizer].
    + destruct Hversion as [-> | ->]; auto.
    + split; [repeat constructor | by vm_compute | done].
    + done.
    + split; [apply Forall_singleton | repeat constructor | apply NoDup_singleton | |].
      * split; [apply Hsha | apply Hsha | | by vm_compute | by exists 16 | done |].
        -- change (0 < lenN object <= 2 * 1024 * 1024 * 1024). lia.
        -- change (64 + 32 * pages_of object <= 8 * 1024 * 1024). lia.
      * change (sumN ObjectRecord.length [o]) with (lenN object + 0). unfold Limits.default.
        cbn [Limits.aggregate_object_bytes]. lia.
      * change (sumN ObjectRecord.page_table_length [o]) with (64 + 32 * pages_of object + 0). unfold Limits.default.
        cbn [Limits.aggregate_page_table_bytes]. lia.
    + by vm_compute.
    + done.
    + unfold Limits.default. cbn [Limits.tensors]. lia.
    + by apply Forall_singleton.
  - split; [done | | by vm_compute | repeat constructor; by vm_compute].
    intros path. reflexivity.
Qed.

(** The artifact that is built verifies. *)
Lemma built_verifies from_slice :
  lenN (canonical_bytes (manifest_document m)) <= 2 ^ 20 ->
  reads_canonically from_slice (canonical_bytes (manifest_document m)) ->
  Artifact.from_bytes_internal sha256 from_slice
    (ArtifactBytes.mk (canonical_bytes (manifest_document m)) {[d := object]}
       {[sha256 (build_page_table sha256 object d) := build_page_table sha256 object d]}) Limits.default None
  = Ok (verified_artifact sha256 m object).
Proof.
  intros Htext Hread. destruct built_manifest_ok as [Hm Ht]. pose proof few_pages as Hp.
  change (2 ^ 20) with 1048576 in *.
  apply artifact_verifies; [exact Hsha | apply default_limits | exact Hm | exact Ht | done | | | exact Hread |].
  - change (2 ^ 40) with 1099511627776. lia.
  - unfold Limits.default. cbn [Limits.manifest_bytes]. lia.
  - unfold Limits.default. cbn [Limits.eager_memory_bytes]. unfold u64_max. lia.
Qed.

(** Its tensors are the declared ranges of the object. *)
Lemma built_tensor i t :
  tensors !! i = Some t ->
  Artifact.tensor_bytes (verified_artifact sha256 m object) (TensorRecord.id t)
  = slice object (TensorRecord.offset t) (TensorRecord.offset t + TensorRecord.length t)
  /\ TensorRecord.id t = N.of_nat i.
Proof.
  intros Hi. destruct (laid_out_ok o tensors) as ([Heach Hids Hnd] & _ & _); [done..|].
  rewrite (Hids i t Hi). split; [|done]. unfold Artifact.tensor_bytes, verified_artifact, identified.
  cbn [Artifact.manifest Manifest.tensors m fixture_manifest]. rewrite Nat2N.id, Hi. cbn [mbind option_bind].
  rewrite (Hids i t Hi), N.eqb_refl. cbn [negb].
  eapply Forall_lookup_1 in Hd; [|exact Hi]. cbn [Artifact.objects]. rewrite Hd. unfold d.
  rewrite lookup_singleton_eq. cbn [mbind option_bind VerifiedObject.bytes].
  eapply Forall_lookup_1 in Heach; [|exact Hi]. destruct Heach as [(o' & ->%list_elem_of_singleton & _ & Hend) _ _ _ _ _].
  cbn [o record_for ObjectRecord.length] in Hend. change (2 ^ 20) with 1048576 in *.
  rewrite checked_add_le by (unfold u64_max; lia). done.
Qed.
Lemma built_role i t :
  tensors !! i = Some t -> tensor_by_role (Artifact.manifest (verified_artifact sha256 m object)) (TensorRecord.role t) = Some t.
Proof.
  intros Hi. destruct (laid_out_ok o tensors) as ([Heach Hids Hnd] & _ & _); [done..|].
  unfold tensor_by_role. cbn [Artifact.manifest verified_artifact identified Manifest.tensors m fixture_manifest].
  destruct (find _ tensors) as [u|] eqn:Hf.
  - apply find_some in Hf as [Hu%list_elem_of_In Hr%bool_decide_eq_true].
    f_equal. eapply NoDup_fmap_eq; [exact Hnd|done|by eapply list_elem_of_lookup_2|done].
  - apply list_elem_of_lookup_2 in Hi. eapply find_none in Hf; [|by apply list_elem_of_In].
    by apply bool_decide_eq_false in Hf.
Qed.
End built.

(** * The tiny artifacts *)

#[export] Instance recipe_eq_dec : EqDecision TensorRecipe.t.
Proof. solve_decision. Defined.
#[export] Instance fixture_dtype_eq_dec : EqDecision FixtureDType.t.
Proof. solve_decision. Defined.

Section tiny.
Context `{Platform}.
Implicit Types (version : TinyAdapterVersion.t).

(** What the loop over the recipes gives. *)
Definition encoded version : fresult (list N * list EncodedTensor.t) :=
  try_fold (FixtureArtifact.encode_recipe version) ([], []) tensor_recipes.
Definition object_length version : N :=
  match version with TinyAdapterVersion.V1 => 7904 | TinyAdapterVersion.V2 => 5600 end.
Definition text_length version : nat :=
  match version with TinyAdapterVersion.V1 => 4488 | TinyAdapterVersion.V2 => 4500 end.

(** The declared range of a tensor holds its encoding, and it loads. *)
Definition encodes_as (object : list N) (i : nat) (t : EncodedTensor.t) : bool :=
  match TensorRecipe.encoded_bytes (EncodedTensor.recipe t) (EncodedTensor.dtype t),
        slice object (EncodedTensor.offset t) (EncodedTensor.offset t + EncodedTensor.length t) with
  | Ok bytes, Some bytes' =>
      bool_decide (bytes = bytes')
      && match TinyModel.load_tensor (fun _ _ => Ok bytes) (Loading.mk (N.of_nat i) ∅ ∅) (tensor_record 0 t) with
         | Ok _ => true
         | _ => false
         end
  | _, _ => false
  end.
(** What is checked of the two artifacts by computing them. *)
Definition tiny_check version (object : list N) (tensors : list EncodedTensor.t) : bool :=
  (lenN object =? object_length version) && laid_out (object_length version) (tensor_record 0 <$> tensors)
  && bool_decide (EncodedTensor.recipe <$> tensors = tensor_recipes)
  && bool_decide (EncodedTensor.dtype <$> tensors
       = (fun r => TinyAdapterVersion.tensor_dtype version (TensorRecipe.id r)) <$> tensor_recipes)
  && bool_decide (Forall (fun t => Forall copied (string_bytes (TensorRecipe.role (EncodedTensor.recipe t)))) tensors)
  && forallb (fun p => encodes_as object p.1 p.2) (imap pair tensors)
  && (length (build_manifest tensors 0 (object_length version) 0 96 (TinyAdapterVersion.number version))
      =? text_length version)%nat
  && match TinyModel.check_metadata (fixture_manifest (TinyAdapterVersion.number version) (ObjectRecord.mk 0 0 0 0 0)
             (tensor_record 0 <$> tensors)) BackendRequest.Auto with Ok _ => true | _ => false end.
Lemma tiny_checked version :
  match encoded version with Ok (object, tensors) => tiny_check version object tensors | _ => false end = true.
Proof. destruct version; vm_compute; reflexivity. Qed.

(** The digest of the object is in none of these checks. *)
Lemma laid_out_any length d l : laid_out length (tensor_record d <$> l) = laid_out length (tensor_record 0 <$> l).
Proof.
  assert (forallb (fits length) (tensor_record d <$> l) = forallb (fits length) (tensor_record 0 <$> l)) as E1.
  { induction l as [|t l IH]; [done|]. cbn [fmap list_fmap forallb]. by rewrite <- IH. }
  assert (forall c, follows c (tensor_record d <$> l) length = follows c (tensor_record 0 <$> l) length) as E2.
  { clear. induction l as [|t l IH]; intros c; [done|]. cbn [fmap list_fmap follows]. by rewrite <- IH. }
  unfold laid_out. rewrite E1, E2, <- !list_fmap_compose. unfold lenN. by rewrite !length_fmap.
Qed.
Lemma metadata_any d o o' (number : N) l id text request :
  TinyModel.check_metadata (Manifest.mk (Adapter.mk "runnel.tiny-causal-moe" number) reference_model [o]
    (tensor_record d <$> l) (Tokenizer.mk "runnel.ascii32" 1 32) id text) request
  = TinyModel.check_metadata (fixture_manifest number o' (tensor_record 0 <$> l)) request.
Proof.
  unfold TinyModel.check_metadata, fixture_manifest.
  cbn [Manifest.adapter Manifest.model Manifest.tensors Manifest.tokenizer Adapter.id Adapter.version].
  assert (forall e, try_fold (fun _ p => check_descriptor number p.1 p.2) tt (zip (tensor_record d <$> l) e)
    = try_fold (fun _ p => check_descriptor number p.1 p.2) tt (zip (tensor_record 0 <$> l) e)) as Hzip.
  { induction l as [|t l IH]; intros [|x e]; [done..|]. cbn [fmap list_fmap zip zip_with try_fold fst snd].
    change (check_descriptor number (tensor_record d t) x) with (check_descriptor number (tensor_record 0 t) x).
    by destruct (check_descriptor number (tensor_record 0 t) x) as [[]| |]; cbn [mbind result_bind]. }
  assert (lenN (tensor_record d <$> l) = lenN (tensor_record 0 <$> l)) as El by (unfold lenN; by rewrite !length_fmap).
  rewrite El. destruct (guard_err _ _) as [[]| |]; [|done..]. cbn [mbind result_bind].
  destruct (guard_err _ _) as [[]| |]; [|done..]. cbn [mbind result_bind].
  destruct (guard_err _ _) as [[]| |]; [|done..]. cbn [mbind result_bind].
  destruct (TinyModel.config_of _) as [c| |]; [|done..]. cbn [mbind result_bind].
  by rewrite (Hzip (expected_tensors c number)).
Qed.
Lemma length_digest_text d : length (digest_text d) = 71%nat.
Proof. unfold digest_text. destruct (FormatExact.digest_text d) as (l & -> & Hl & _). by rewrite length_app, Hl. Qed.
Lemma length_separated (l l' : list (list N)) :
  Forall2 (fun a b => length a = length b) l l' -> length (separated l) = length (separated l').
Proof.
  intros Hl. destruct Hl as [|a b l l' Hab Hl]; [done|]. rewrite !separated_cons, !length_app, Hab. f_equal.
  induction Hl as [|c e l l' Hce _ IH]; [done|]. cbn [fmap list_fmap]. change (mjoin (?x :: ?r)) with (x ++ mjoin r).
  rewrite !length_app. cbn [length]. by rewrite Hce, IH.
Qed.
Lemma length_manifest tensors d length table table_length (number : N) :
  List.length (build_manifest tensors d length table table_length number)
  = List.length (build_manifest tensors 0 length 0 table_length number).
Proof.
  unfold build_manifest. rewrite !commas_separated, !length_app, !length_digest_text.
  rewrite (length_separated (tensor_text d <$> tensors) (tensor_text 0 <$> tensors)); [done|].
  apply Forall2_fmap, Forall_Forall2_diag, Forall_true. intros t. unfold tensor_text.
  by rewrite !length_app, !length_digest_text.
Qed.
End tiny.

(** ** They build, verify and load *)

Section loads.
Context `{Platform}.

Lemma object_length_bounds version : 0 < object_length version <= 2 ^ 20.
Proof. by destruct version. Qed.
Lemma number_cases version : TinyAdapterVersion.number version = 1 \/ TinyAdapterVersion.number version = 2.
Proof. destruct version; auto. Qed.
Lemma table_length version : 64 + 32 * ceiling (object_length version) FIXTURE_PAGE_SIZE = 96.
Proof. by destruct version. Qed.
Lemma text_length_bound version : N.of_nat (text_length version) <= 2 ^ 20.
Proof. by destruct version. Qed.

Lemma tiny_encoded version :
  exists object tensors, encoded version = Ok (object, tensors) /\ tiny_check version object tensors = true.
Proof.
  pose proof (tiny_checked version) as Hc. destruct (encoded version) as [[object tensors]| |]; [|done..]. eauto.
Qed.

Context (sha256 : list N -> Digest) (Hsha : forall bytes, sha256 bytes < digest_max).
Context (from_slice : list N -> Token * option SyntaxError) (Hread : forall bytes, reads_canonically from_slice bytes).
Context (version : TinyAdapterVersion.t) (object : list N) (tensors : list EncodedTensor.t).
Hypothesis (Hencoded : encoded version = Ok (object, tensors)) (Hcheck : tiny_check version object tensors = true).
Let d := sha256 object.
Let table := build_page_table sha256 object d.
Let o := record_for object d (sha256 table).
Let number := TinyAdapterVersion.number version.
Let m := fixture_manifest number o (tensor_record d <$> tensors).
Let artifact := verified_artifact sha256 m object.

(** The parts of the check. *)
Lemma tiny_facts :
  lenN object = object_length version /\ laid_out (lenN object) (tensor_record d <$> tensors) = true
  /\ EncodedTensor.recipe <$> tensors = tensor_recipes
  /\ EncodedTensor.dtype <$> tensors
     = (fun r => TinyAdapterVersion.tensor_dtype version (TensorRecipe.id r)) <$> tensor_recipes
  /\ Forall (fun t => Forall copied (string_bytes (TensorRecipe.role (EncodedTensor.recipe t)))) tensors
  /\ (forall i t, tensors !! i = Some t -> encodes_as object i t = true)
  /\ lenN (build_manifest tensors 0 (object_length version) 0 96 number) <= 2 ^ 20
  /\ exists config, TinyModel.check_metadata (fixture_manifest number (ObjectRecord.mk 0 0 0 0 0) (tensor_record 0 <$> tensors))
       BackendRequest.Auto = Ok config.
Proof.
  pose proof Hcheck as Hc. unfold tiny_check in Hc. rewrite !andb_true_iff in Hc.
  destruct Hc as (((((((Hl & Hlaid) & Hr) & Hdt) & Hcp) & He) & Ht) & Hm).
  apply N.eqb_eq in Hl. apply bool_decide_eq_true in Hr, Hdt, Hcp. apply Nat.eqb_eq in Ht.
  split_and!; try done.
  - by rewrite Hl, laid_out_any.
  - intros i t Hi. rewrite forallb_forall in He. apply (He (i, t)), list_elem_of_In.
    apply list_elem_of_lookup_2 with i. by rewrite list_lookup_imap, Hi.
  - unfold lenN, number. rewrite Ht. apply text_length_bound.
  - fold number in Hm. destruct (TinyModel.check_metadata _ _) as [c| |]; [eauto|done..].
Qed.

Lemma tiny_text :
  canonical_bytes (manifest_document m)
  = build_manifest tensors d (lenN object) (sha256 table) (lenN table) number.
Proof.
  destruct tiny_facts as (_ & _ & _ & _ & Hcp & _). etrans; [exact (fixture_text number o tensors Hcp eq_refl)|].
  cbn [o record_for ObjectRecord.digest ObjectRecord.length ObjectRecord.page_table ObjectRecord.page_table_length].
  unfold table. by rewrite length_page_table.
Qed.
Lemma tiny_text_short : lenN (canonical_bytes (manifest_document m)) <= 2 ^ 20.
Proof.
  destruct tiny_facts as (Hl & _ & _ & _ & _ & _ & Ht & _). rewrite tiny_text. unfold lenN at 1. rewrite length_manifest.
  unfold table. rewrite length_page_table. unfold pages_of. rewrite Hl.
  rewrite table_length. exact Ht.
Qed.
Lemma tiny_built :
  FixtureArtifact.build_for sha256 version
  = Ok (Built.mk (canonical_bytes (manifest_document m)) object d table (sha256 table)).
Proof.
  unfold FixtureArtifact.build_for. fold (encoded version). rewrite Hencoded. cbn [mbind result_bind].
  by rewrite tiny_text.
Qed.
Lemma tiny_count : lenN (tensor_record d <$> tensors) <= 1000.
Proof.
  destruct tiny_facts as (_ & _ & Hr & _). unfold lenN.
  rewrite length_fmap, <- (length_fmap EncodedTensor.recipe), Hr. by vm_compute.
Qed.
Lemma tiny_verifies :
  Artifact.from_bytes_internal sha256 from_slice
    (Built.to_parts (Built.mk (canonical_bytes (manifest_document m)) object d table (sha256 table))) Limits.default None
  = Ok artifact.
Proof.
  destruct tiny_facts as (Hl & Hlaid & Hr & _ & _ & _ & _ & _).
  apply (built_verifies sha256 Hsha object number (tensor_record d <$> tensors)); [..| apply tiny_text_short | apply Hread].
  - rewrite Hl. apply object_length_bounds.
  - apply number_cases.
  - exact Hlaid.
  - by apply Forall_fmap, Forall_true.
  - apply tiny_count.
Qed.
(** The declared range of every recipe's tensor holds its encoding. *)
Lemma tiny_tensor i t :
  tensors !! i = Some t ->
  exists bytes, TensorRecipe.encoded_bytes (EncodedTensor.recipe t) (EncodedTensor.dtype t) = Ok bytes
    /\ Artifact.tensor_bytes artifact (TensorRecipe.id (EncodedTensor.recipe t)) = Some bytes
    /\ exists s, TinyModel.load_tensor (fun _ _ => Ok bytes) (Loading.mk (N.of_nat i) ∅ ∅) (tensor_record 0 t) = Ok s.
Proof.
  intros Hi. destruct tiny_facts as (Hl & Hlaid & Hr & _ & _ & He & _).
  assert ((tensor_record d <$> tensors) !! i = Some (tensor_record d t)) as Hi' by (by rewrite list_lookup_fmap, Hi).
  assert (Forall (fun t => TensorRecord.object t = d) (tensor_record d <$> tensors)) as Hd
    by (by apply Forall_fmap, Forall_true).
  pose proof (object_length_bounds version) as Hlen. rewrite <- Hl in Hlen.
  destruct (built_tensor sha256 object number (tensor_record d <$> tensors) Hlen (number_cases version) Hlaid Hd
    tiny_count i _ Hi') as [Hb _].
  specialize (He i t Hi). unfold encodes_as in He.
  destruct (TensorRecipe.encoded_bytes _ _) as [bytes| |]; [|done..].
  destruct (slice object _ _) as [bytes'|] eqn:Es; [|done]. apply andb_true_iff in He as [<-%bool_decide_eq_true He].
  exists bytes. split; [done|]. split; [exact Hb|].
  destruct (TinyModel.load_tensor _ _ _) as [s| |]; [eauto|done..].
Qed.

Lemma tiny_metadata :
  exists config, TinyModel.check_metadata (Artifact.manifest artifact) BackendRequest.Auto = Ok config.
Proof.
  destruct tiny_facts as (_ & _ & _ & _ & _ & _ & _ & config & Hm). exists config.
  etrans; [|exact Hm]. apply metadata_any.
Qed.

Lemma tiny_loads next_id :
  exists p, TinyModel.from_artifact next_id artifact = Ok p
    /\ loaded next_id (Artifact.manifest artifact) BackendRequest.Auto p.
Proof.
  unfold TinyModel.from_artifact, TinyModel.from_artifact_with_backend. set (fetch := fun _ _ => _).
  assert (forall n x, fetch n x <> Panic) as Hfetch by (intros n x; unfold fetch; by destruct (Artifact.tensor_bytes _ _)).
  pose proof (load_post next_id (Artifact.manifest artifact) BackendRequest.Auto fetch Hfetch) as Hp.
  destruct (TinyModel.from_verified_tensor_bytes_with_backend _ _ _ _) as [p|e|]; [by exists p| |done].
  exfalso. destruct Hp as [Hm|[(_ & source & Hs & _)|(i & r & Hi & Hf)]].
  - destruct tiny_metadata as [config Hc]. by rewrite Hc in Hm.
  - unfold selected, select_backend in Hs. by destruct (Capabilities.avx2 _).
  - assert ((tensor_record d <$> tensors) !! i = Some r) as Hi' by exact Hi.
    rewrite list_lookup_fmap in Hi'. destruct (tensors !! i) as [t|] eqn:Et; [|done]. injection Hi' as <-.
    destruct (tiny_tensor i t Et) as (bytes & _ & Hb & s & Hs).
    unfold fetch_fails, TinyModel.load_tensor in Hf, Hs. cbn [Loading.fetched] in Hf, Hs.
    replace (fetch (N.of_nat i) (tensor_record d t)) with (Ok bytes : result RuntimeError.t (list N)) in Hf
      by (unfold fetch; change (TensorRecord.id (tensor_record d t)) with (TensorRecipe.id (EncodedTensor.recipe t)); by rewrite Hb).
    assert (Ok s = Err e) as [=]. etrans; [symmetry; exact Hs | exact Hf].
Qed.
End loads.

(** The tiny fixtures are well-formed artifacts.  Both versions are built without a
    panic, verify under the default limits with the identifier that [identity] reports,
    hold under every recipe's role a tensor of its shape with exactly the encoding of
    its values, and load into a model of the reference dimensions on any machine.  The
    hypotheses say of SHA-256 that its digests have 32 bytes and of serde_json that it
    reads a canonical text as the calls of its document. *)
Theorem fixture_loads `{Platform} sha256 from_slice version next_id :
  (forall bytes, sha256 bytes < digest_max) -> (forall bytes, reads_canonically from_slice bytes) ->
  exists built artifact p,
    FixtureArtifact.build_for sha256 version = Ok built
    /\ Artifact.from_bytes_internal sha256 from_slice (Built.to_parts built) Limits.default None = Ok artifact
    /\ Manifest.artifact_id (Artifact.manifest artifact) = FixtureIdentity.artifact_id (identity sha256 built)
    /\ (forall r, r ∈ tensor_recipes ->
         exists t bytes, tensor_by_role (Artifact.manifest artifact) (TensorRecipe.role r) = Some t
           /\ TensorRecord.id t = TensorRecipe.id r /\ TensorRecord.shape t = TensorRecipe.shape r
           /\ TensorRecipe.encoded_bytes r (TinyAdapterVersion.tensor_dtype version (TensorRecipe.id r)) = Ok bytes
           /\ Artifact.tensor_bytes artifact (TensorRecord.id t) = Some bytes)
    /\ TinyModel.from_artifact next_id artifact = Ok p
    /\ loaded next_id (Artifact.manifest artifact) BackendRequest.Auto p.
Proof.
  intros Hsha Hread. destruct (tiny_encoded version) as (object & tensors & He & Hc).
  destruct (tiny_loads sha256 version object tensors Hc next_id) as (p & Hp & Hl).
  eexists _, _, p. split; [by apply tiny_built|]. split; [by apply tiny_verifies|]. split; [done|].
  split; [|by split]. intros r Hr.
  destruct (tiny_facts sha256 version object tensors Hc) as (Hlen & Hlaid & Hrec & Hdt & _).
  rewrite <- Hrec in Hr. apply list_elem_of_lookup in Hr as [i Hi]. rewrite list_lookup_fmap in Hi.
  destruct (tensors !! i) as [t|] eqn:Et; [|done]. injection Hi as <-.
  destruct (tiny_tensor sha256 version object tensors Hc i t Et) as (bytes & Hb & Ha & _).
  assert (EncodedTensor.dtype t = TinyAdapterVersion.tensor_dtype version (TensorRecipe.id (EncodedTensor.recipe t))) as Ed.
  { assert ((EncodedTensor.dtype <$> tensors) !! i = Some (EncodedTensor.dtype t)) as E by (by rewrite list_lookup_fmap, Et).
    rewrite Hdt, <- Hrec, !list_lookup_fmap, Et in E. by injection E. }
  exists (tensor_record (sha256 object) t), bytes. rewrite <- Ed. split_and!; try done.
  refine (built_role sha256 object (TinyAdapterVersion.number version) (tensor_record (sha256 object) <$> tensors)
    Hlaid _ i (tensor_record (sha256 object) t) _).
  - by apply Forall_fmap, Forall_true.
  - by rewrite list_lookup_fmap, Et.
Qed.

(** ** The multi-page fixture *)

Lemma length_storage_manifest d length table table_length :
  List.length (build_storage_manifest d length table table_length)
  = List.length (build_storage_manifest 0 length 0 table_length).
Proof. unfold build_storage_manifest. by rewrite !length_app, !length_digest_text. Qed.

Section storage.
Context (sha256 : list N -> Digest) (Hsha : forall bytes, sha256 bytes < digest_max).
Context (from_slice : list N -> Token * option SyntaxError) (Hread : forall bytes, reads_canonically from_slice bytes).
Context (object : list N) (Hlength : lenN object = MULTI_PAGE_OBJECT_LENGTH).
Let d := sha256 object.
Let table := build_page_table sha256 object d.
Let o := record_for object d (sha256 table).
Let m := fixture_manifest 1 o [storage_tensor d (lenN object)].

Lemma storage_manifest_text :
  canonical_bytes (manifest_document m) = build_storage_manifest d (lenN object) (sha256 table) (lenN table).
Proof.
  etrans; [exact (storage_text o eq_refl)|].
  cbn [o record_for ObjectRecord.digest ObjectRecord.length ObjectRecord.page_table ObjectRecord.page_table_length].
  unfold table. by rewrite length_page_table.
Qed.

Lemma storage_verifies :
  Artifact.from_bytes_internal sha256 from_slice
    (ArtifactBytes.mk (build_storage_manifest d (lenN object) (sha256 table) (lenN table))
       {[d := object]} {[sha256 table := table]}) Limits.default None
  = Ok (verified_artifact sha256 m object).
Proof.
  rewrite <- storage_manifest_text.
  apply (built_verifies sha256 Hsha object 1 [storage_tensor d (lenN object)]); [| by left | | by apply Forall_singleton | done | | apply Hread].
  - rewrite Hlength. by vm_compute.
  - rewrite Hlength. by vm_compute.
  - change (lenN (canonical_bytes (manifest_document m)) <= 2 ^ 20). rewrite storage_manifest_text.
    unfold lenN at 1. rewrite length_storage_manifest, Hlength. unfold table. rewrite length_page_table.
    unfold pages_of. rewrite Hlength. by vm_compute.
Qed.
End storage.

(** The multi-page fixture is a well-formed artifact of one object of three pages, the
    last one short; its tensor is the whole object. *)
Theorem multi_page_verifies sha256 from_slice :
  (forall bytes, sha256 bytes < digest_max) -> (forall bytes, reads_canonically from_slice bytes) ->
  let built := MultiPageFixture.build sha256 in
  exists artifact,
    Artifact.from_bytes_internal sha256 from_slice (Built.to_parts built) Limits.default None = Ok artifact
    /\ Manifest.artifact_id (Artifact.manifest artifact) = FixtureIdentity.artifact_id (identity sha256 built)
    /\ Artifact.tensor_bytes artifact 0 = Some (Built.object built)
    /\ lenN (Built.object built) = 2 * FIXTURE_PAGE_SIZE + 17 /\ pages_of (Built.object built) = 3.
Proof.
  intros Hsha Hread built.
  assert (exists object, lenN object = MULTI_PAGE_OBJECT_LENGTH
    /\ built = let table := build_page_table sha256 object (sha256 object) in
         Built.mk (build_storage_manifest (sha256 object) (lenN object) (sha256 table) (lenN table)) object (sha256 object)
           table (sha256 table)) as (object & Hl & E).
  { exists (MultiPageFixture.byte_at <$> rangeN MULTI_PAGE_OBJECT_LENGTH). split; [|reflexivity].
    unfold lenN. rewrite length_fmap, length_rangeN. apply N2Nat.id. }
  clearbody built. subst built. eexists. split; [by apply storage_verifies|]. split.
  { cbn [Artifact.manifest verified_artifact identified Manifest.artifact_id identity FixtureIdentity.artifact_id Built.manifest].
    by rewrite storage_manifest_text. }
  split; [|split; [exact Hl|]].
  - cbn [Built.object].
    etrans; [refine (proj1 (built_tensor sha256 object 1 [storage_tensor (sha256 object) (lenN object)] _ _ _ _ _ 0 _ eq_refl))|].
    + rewrite Hl. by vm_compute.
    + by left.
    + rewrite Hl. by vm_compute.
    + by apply Forall_singleton.
    + done.
    + cbn [storage_tensor TensorRecord.offset TensorRecord.length]. unfold slice. rewrite N.add_0_l.
      rewrite (proj2 (N.leb_le _ _)) by apply N.le_0_l. rewrite N.leb_refl. cbn [andb]. f_equal.
      rewrite N.sub_0_r, drop_0. apply take_ge. unfold lenN. lia.
  - cbn [Built.object]. unfold pages_of. rewrite Hl. by vm_compute.
Qed.

(** * Writing *)

(** What a successful write leaves, in the order in which it comes to be. *)
Definition written_layout (root : Path) (manifest : list N) (object_digest : Digest) (object : list N)
    (page_table_digest : Digest) (page_table : list N) : list (Path * Node) :=
  [(root, Dir); (root ++ ["objects"], Dir); (root ++ ["page-tables"], Dir);
   (root ++ ["objects"; "sha256"], Dir); (root ++ ["page-tables"; "sha256"], Dir);
   (root ++ ["page-tables"; "sha256"; Digest.path_component page_table_digest], File page_table);
   (root ++ ["objects"; "sha256"; Digest.path_component object_digest], File object);
   (root ++ ["manifest.json"], File manifest)].

Definition grown (before : gmap Path Node) (made : list (Path * Node)) : gmap Path Node :=
  foldl (fun nodes p => <[p.1 := p.2]> nodes) before made.
Definition unused (before : gmap Path Node) (made : list (Path * Node)) : Prop :=
  Forall (fun p => before !! p.1 = None) made.

Lemma grown_snoc before made p : grown before (made ++ [p]) = <[p.1 := p.2]> (grown before made).
Proof. unfold grown. by rewrite foldl_app. Qed.
Lemma grown_lookup before made path : grown before made !! path = None -> before !! path = None.
Proof.
  induction made as [|p made IH] using rev_ind; [done|]. rewrite grown_snoc, lookup_insert_None. tauto.
Qed.

(** The tree after a run that was to make [layout] on top of [made]: an initial part of
    the layout and, after a failed write, the beginning of one more file; every path
    was unused. *)
Definition outcome (before : gmap Path Node) (made layout : list (Path * Node)) (run : Fs.t * fresult unit) : Prop :=
  exists n partial,
    Fs.nodes run.1 = grown before (made ++ firstn n layout ++ partial)
    /\ unused before (made ++ firstn n layout ++ partial)
    /\ match run.2 with
       | Ok _ => n = length layout /\ partial = []
       | Err _ => (n < length layout)%nat
           /\ (partial = [] \/ exists path bytes k, layout !! n = Some (path, File bytes)
                 /\ partial = [(path, File (firstn k bytes))])
       | Panic => False
       end.

Section write.
Context (fault : nat -> option Failure) (before : gmap Path Node).

Lemma outcome_step made p layout run :
  outcome before (made ++ [p]) layout run -> outcome before made (p :: layout) run.
Proof.
  intros (n & partial & Hn & Hu & Hr). exists (S n), partial. cbn [firstn].
  rewrite <- !app_assoc in Hn, Hu. cbn [app] in *. split; [done|]. split; [done|].
  destruct run.2; [destruct Hr as [-> ->]; by split | split; [simpl; lia | apply Hr] | done].
Qed.
Lemma outcome_failed made layout s e :
  layout <> [] -> Fs.nodes s = grown before made -> unused before made -> outcome before made layout (s, Err e).
Proof.
  intros Hl Hs Hu. exists 0%nat, []. cbn [firstn app]. rewrite app_nil_r. split; [done|]. split; [done|]. split; [|by left].
  destruct layout; [done | simpl; lia].
Qed.

(** Creating a node at an unused path, or not. *)
Lemma create_spec made path node s s' r :
  Fs.nodes s = grown before made -> unused before made -> create fault path node s = (s', r) ->
  match r with
  | inl _ => Fs.nodes s' = grown before made
  | inr _ => Fs.nodes s' = grown before (made ++ [(path, node)]) /\ unused before (made ++ [(path, node)])
  end.
Proof.
  intros Hs Hu. unfold create. destruct (fault (Fs.calls s)); [by intros [= <- <-]|].
  destruct (Fs.nodes s !! path) eqn:Ep; [by intros [= <- <-]|].
  destruct (Fs.nodes s !! removelast path) as [[|bytes]|]; [|by intros [= <- <-]..]. intros [= <- <-].
  rewrite grown_snoc. split; [cbn; by rewrite Hs|]. apply Forall_app. split; [done|].
  apply Forall_singleton. rewrite Hs in Ep. by eapply grown_lookup.
Qed.

Lemma write_dir made path layout operation next s :
  Fs.nodes s = grown before made -> unused before made ->
  (forall s, Fs.nodes s = grown before (made ++ [(path, Dir)]) -> unused before (made ++ [(path, Dir)]) ->
     outcome before (made ++ [(path, Dir)]) layout (next s)) ->
  outcome before made ((path, Dir) :: layout) (or_fail operation (create_dir fault path) next s).
Proof.
  intros Hs Hu Hnext. unfold or_fail, create_dir. destruct (create fault path Dir s) as [s' r] eqn:E.
  pose proof (create_spec made path Dir s s' r Hs Hu E) as Hc. destruct r as [e|[]].
  - by apply outcome_failed.
  - apply outcome_step. apply Hnext; apply Hc.
Qed.

Lemma write_new_file made path bytes layout operation next s :
  Fs.nodes s = grown before made -> unused before made ->
  (forall s, Fs.nodes s = grown before (made ++ [(path, File bytes)]) -> unused before (made ++ [(path, File bytes)]) ->
     outcome before (made ++ [(path, File bytes)]) layout (next s)) ->
  outcome before made ((path, File bytes) :: layout) (write_file fault path bytes operation next s).
Proof.
  intros Hs Hu Hnext. unfold write_file, or_fail, create_new. destruct (create fault path (File []) s) as [s' r] eqn:E.
  pose proof (create_spec made path (File []) s s' r Hs Hu E) as Hc. destruct r as [e|[]]; [by apply outcome_failed|].
  destruct Hc as [Hn Hu']. assert (forall b, unused before (made ++ [(path, File b)])) as Hub.
  { intros b. apply Forall_app in Hu' as [? Hp]. apply Forall_app. split; [done|]. apply Forall_inv in Hp. by apply Forall_singleton. }
  assert (forall b, <[path := File b]> (Fs.nodes s') = grown before (made ++ [(path, File b)])) as Hg.
  { intros b. rewrite Hn, !grown_snoc. apply insert_insert_eq. }
  unfold write_all. destruct (fault (Fs.calls s')) as [f|].
  - exists 0%nat, [(path, File (firstn (written f) bytes))]. cbn [firstn app]. split; [apply Hg|]. split; [apply Hub|].
    cbn [snd]. split; [simpl; lia|]. right. by exists path, bytes, (written f).
  - apply outcome_step, Hnext; [apply Hg | apply Hub].
Qed.
End write.

(** Writing an artifact.  Whatever is in the tree and whichever calls fail, what was
    there before stays as it was, and what is new is an initial part of the layout, with
    the beginning of the next file when writing that file failed: the directories, the
    page table, the object and last the manifest.  So a tree with a new manifest has
    everything that the manifest names.  The write succeeds exactly when the whole
    layout is there. *)
Theorem write_publishes_manifest_last fault root manifest object_digest object page_table_digest page_table s :
  outcome (Fs.nodes s) [] (written_layout root manifest object_digest object page_table_digest page_table)
    (write_artifact_new fault root manifest object_digest object page_table_digest page_table s).
Proof.
  unfold write_artifact_new, written_layout. rewrite <- !app_assoc. cbn [app].
  apply write_dir; [done | constructor|]. intros. apply write_dir; [done..|]. intros. apply write_dir; [done..|]. intros.
  apply write_dir; [done..|]. intros. apply write_dir; [done..|]. intros. apply write_new_file; [done..|]. intros.
  apply write_new_file; [done..|]. intros. apply write_new_file; [done..|]. intros s' Hs Hu.
  exists 0%nat, []. cbn [firstn]. by rewrite !app_nil_r.
Qed.

(** Without failures the write succeeds below an existing directory where nothing has
    the root's name. *)
Section success.
Context (fault : nat -> option Failure) (Hfault : forall n, fault n = None) (root : Path).

Lemma parent_below (l : Path) : l <> [] -> removelast (root ++ l) = root ++ removelast l.
Proof. apply removelast_app. Qed.
Lemma root_made operation (next : Fs.t -> Fs.t * fresult unit) s :
  Fs.nodes s !! root = None -> Fs.nodes s !! removelast root = Some Dir ->
  or_fail operation (create_dir fault root) next s = next (called (<[root := Dir]> (Fs.nodes s)) s).
Proof. intros Hn Hp. unfold or_fail, create_dir, create. by rewrite Hfault, Hn, Hp. Qed.
Lemma dir_made (l : Path) operation (next : Fs.t -> Fs.t * fresult unit) s :
  l <> [] -> Fs.nodes s !! (root ++ l) = None -> Fs.nodes s !! (root ++ removelast l) = Some Dir ->
  or_fail operation (create_dir fault (root ++ l)) next s = next (called (<[root ++ l := Dir]> (Fs.nodes s)) s).
Proof. intros Hl Hn Hp. unfold or_fail, create_dir, create. by rewrite Hfault, Hn, parent_below, Hp. Qed.
Lemma file_made (l : Path) bytes operation (next : Fs.t -> Fs.t * fresult unit) s :
  l <> [] -> Fs.nodes s !! (root ++ l) = None -> Fs.nodes s !! (root ++ removelast l) = Some Dir ->
  exists s', Fs.nodes s' = <[root ++ l := File bytes]> (Fs.nodes s)
    /\ write_file fault (root ++ l) bytes operation next s = next s'.
Proof.
  intros Hl Hn Hp. unfold write_file, or_fail, create_new, create, write_all.
  rewrite Hfault, Hn, parent_below, Hp, Hfault by done. eexists. split; [|reflexivity]. apply insert_insert_eq.
Qed.

Lemma lookup_below (nodes : gmap Path Node) (l l' : Path) node :
  (<[root ++ l := node]> nodes) !! (root ++ l')
  = if decide (l = l') then Some node else nodes !! (root ++ l').
Proof.
  destruct (decide (l = l')) as [->|Hl]; [apply lookup_insert_eq | apply lookup_insert_ne]. by intros ?%app_inv_head.
Qed.
Lemma lookup_root (nodes : gmap Path Node) (l' : Path) node :
  (<[root := node]> nodes) !! (root ++ l') = if decide ([] = l') then Some node else nodes !! (root ++ l').
Proof. rewrite <- lookup_below. by rewrite app_nil_r. Qed.

Theorem write_succeeds manifest object_digest object page_table_digest page_table s :
  Fs.nodes s !! removelast root = Some Dir -> (forall l, Fs.nodes s !! (root ++ l) = None) ->
  (write_artifact_new fault root manifest object_digest object page_table_digest page_table s).2 = Ok tt.
Proof.
  intros Hparent Hnone. unfold write_artifact_new. rewrite <- !app_assoc. cbn [app].
  assert (Fs.nodes s !! root = None) as Hr by (by rewrite <- (app_nil_r root)).
  rewrite root_made by done. set (s0 := called _ _).
  assert (forall l, Fs.nodes s0 !! (root ++ l) = if decide ([] = l) then Some Dir else None) as H0.
  { intros l. unfold s0. cbn [called Fs.nodes]. by rewrite lookup_root, Hnone. }
  clearbody s0.
  do 4 (rewrite dir_made by (done || cbn [called Fs.nodes removelast]; by rewrite ?lookup_below, H0)).
  match goal with |- (write_file _ _ ?b ?op ?k ?t).2 = _ =>
    destruct (file_made ["page-tables"; "sha256"; Digest.path_component page_table_digest] b op k t) as (s1 & H1 & ->) end;
    [done | cbn [called Fs.nodes removelast]; by rewrite ?lookup_below, H0..|].
  match goal with |- (write_file _ _ ?b ?op ?k ?t).2 = _ =>
    destruct (file_made ["objects"; "sha256"; Digest.path_component object_digest] b op k t) as (s2 & H2 & ->) end;
    [done | rewrite H1; cbn [called Fs.nodes removelast]; by rewrite ?lookup_below, H0..|].
  match goal with |- (write_file _ _ ?b ?op ?k ?t).2 = _ =>
    destruct (file_made ["manifest.json"] b op k t) as (s3 & _ & ->) end;
    [done | rewrite H2, H1; cbn [called Fs.nodes removelast]; by rewrite ?lookup_below, H0..|].
  done.
Qed.
End success.
